(* ===== verification/_CoqProject ===== *)
-Q . S2P
Prelude.v
Server.v
Handle.v
ErrorGraph.v
Taint.v
Storage.v
Slices.v
Usage.v
MemoryPage.v
Coalesce.v
Steps.v
SlicedPool.v
DirectPool.v
PersistentPool.v
ExclusivePool.v
Relocation.v
Arena.v
Dynamic.v
Indexing.v
Shape.v
ShapeText.v
Layout.v
Metadata.v
DropQueue.v
Streams.v
Launching.v
Allocator.v
Manager.v
Effects.v
MetadataCache.v
Capture.v
ExecuteScope.v
Command.v
CommandRules.v
Recorded.v
HostMemory.v
GraphWindow.v
Collectives.v
Events.v
Profiler.v
EventStream.v
Scheduler.v
Environment.v
Persistence.v
TunePlan.v
TuneBench.v
TuneSchedule.v
TuneCache.v
Tuner.v
SharedMemory.v
FastMath.v
Views.v
TiledViews.v
Swizzle.v
Vectorization.v
ElemTypes.v
ContiguousCopy.v
CopyExact.v
KernelInfo.v
