(* ===== verification/Prelude.v ===== *)
(** * CubeCL: a verification development of its runtime

    CubeCL runs compute kernels on several devices.  This library models the
    part of it that is the same on every device, in safe Rust and full of
    invariants: the memory management of a server and the ordering of its
    streams, commands, graphs and profilers; the bookkeeping of failures; the
    autotuner and what it persists; the index arithmetic of tensors, on the host
    and in the layouts and copies that kernels run; and the arguments of a
    kernel.  Paths are relative to [src/crates/].

    ** The parts and how they interact

    An allocation is known by a handle, whose descriptor carries the location
    of its slice.  The memory manager of a stream reserves slices in pools; the
    pools carve them out of pages and take the pages from the storage of the
    backend.  Failed work claims the bytes it was to write in the taint of
    their slices; the taints name failures of the error graph, which the
    device shares.  Streams resolve the bindings of a launch through their
    managers and order the launches that share memory; what the device still
    reads is kept alive by event pins and by the drop queue.  A command is one
    unit of work over resolved streams; each of its operations defers to the
    graph capture of its stream.  The tuner benchmarks the alternatives of a
    kernel by its plan, caches the winner and persists it.  A launch packs its
    arguments, picks its cubes, and its units address tensors through layouts.

    - [Prelude]: 64-bit arithmetic with its panics, the state monad [M] and its
      weakest preconditions [wp], lists, sums.
    - [Server] ([cubecl-runtime/src/server/base.rs], [compiler.rs], [id.rs]):
      the errors.
    - [Handle] ([cubecl-runtime/src/memory_management/handle.rs]): handles,
      bindings and the packed location; the store of descriptors [Memory].
    - [ErrorGraph] and [Taint]
      ([cubecl-server/src/memory_management/error_graph.rs], [taint.rs]).
    - [Storage] ([cubecl-runtime/src/storage/base.rs],
      [cubecl-server/src/storage/bytes_cpu.rs]): the class [ComputeStorage], its
      laws and an instance; the state [World] of the memory management.
    - [Slices], [Usage], [MemoryPage], [Coalesce], [Steps], [SlicedPool],
      [DirectPool], [PersistentPool], [ExclusivePool]
      ([cubecl-server/src/memory_management/memory_pool/], [dynamic/exclusive.rs]
      and [cubecl-runtime/src/memory_management/base.rs]): slices, pages and the
      four kinds of pool.
    - [Relocation], [Arena], [Dynamic], [Manager], [Effects]
      ([cubecl-server/src/memory_management/relocation/], [dynamic/],
      [memory_manage.rs]): moving live allocations, the adaptive pools, the
      manager over all of them, and what its reservations do to the storage.
    - [DropQueue] ([cubecl-server/src/memory_management/drop_queue/]).
    - [Streams], [EventStream], [Scheduler], [Capture], [ExecuteScope]
      ([cubecl-server/src/stream/]): the pool of streams and the failures of a
      device, the two ways streams are ordered, the life of a graph capture, and
      the scope a unit of work runs in.
    - [MetadataCache] ([cubecl-server/src/metadata_cache.rs]).
    - [Allocator] ([cubecl-server/src/allocator.rs]), [Command] with its rules
      [CommandRules], [Recorded], [HostMemory], [GraphWindow] and [Collectives]
      ([cubecl-server/src/command/]): the operations of a command, then what
      holds of all of them: nothing waits on a device while a stream records,
      and host memory outlives the copies that read it.
    - [Events] and [Profiler] ([cubecl-server/src/device_events/],
      [timestamp_profiler.rs]): the events of a device and the windows timed by
      them.
    - [Environment] and [Persistence] ([cubecl-environment/src/environment.rs],
      [persistence/]): the active environment and the stores of its namespaces.
    - [TunePlan], [TuneBench], [TuneSchedule], [TuneCache], [Tuner]
      ([cubecl-runtime/src/tune/]): the order of the benchmarks, how one is
      measured, round robin with elimination, the cache, and the tuner.
    - [Launching] ([cubecl-runtime/src/server/base.rs],
      [cubecl-server/src/validation.rs]) and [SharedMemory]
      ([cubecl-opt/src/analyses/liveness.rs], [passes/alloc_shared_memory.rs]):
      the cubes of a launch and the shared memory of a kernel.
    - [ElemTypes] and [KernelInfo] ([cubecl-ir/src/type.rs], [metadata.rs],
      [cubecl-core/src/codegen/], [compute/], [cubecl-cpp/src/shared/]): the
      arguments of a kernel, from the launcher to the reads of its code.
    - [Indexing], [Shape], [ShapeText], [Layout], [Metadata] ([cubecl-zspace]):
      indices, shapes, strides and tilings.
    - [FastMath], [Views], [TiledViews], [Swizzle], [Vectorization],
      [ContiguousCopy], [CopyExact] ([cubecl-std/src/fast_math.rs], [swizzle.rs],
      [tensor/layout/], [tensor/contiguous/base.rs], [cubecl-core/src/lib.rs]):
      division by multiplication, the layouts of views, the sizes of vectors, and
      the copy of a tensor into contiguous rows with the theorem that it is one.

    A function of the source is the definition of its name, with a prefix of
    its type where several types have it ([sliced_reserve] is
    [SlicedPool::reserve], [mm_reserve] is [MemoryManagement::reserve]).

    ** How the code is modelled

    - A panic (an overflow, an index out of range, an [unwrap], an [expect] or a
      failed assertion) is [None]; errors of the source are values of [result].
      [usize] and [u64] are [Z]s below 2^64 on the host, and lengths of vectors
      natural numbers where they cannot overflow.  Integers of a device have [w]
      bits and wrap around; an unchecked access out of a buffer is [None].  The
      theorems show that none happens under the bounds they state.
    - Shared mutable state is explicit: the descriptors all owners of an
      allocation see are a store ([Memory]); the failures of a device are one
      graph.  The strong count of a handle is a field of its descriptor, and
      every drop the compiler inserts is a step of the operation.
    - Code behind a trait is a class: storages, streams, events, fences, copy
      queues, drivers, servers, clients of the tuner, codecs and layouts; a
      second class states what the code relies on, and every theorem that uses it
      has a witness at a concrete instance.
    - The order in which a hash map lists its keys, or in which the units of a
      grid run, is a parameter of which only that it permutes them is known.  What
      is computed in floating point (the variance of samples, the speed factor,
      convergence, logarithms) is a parameter, and so are hashes, and the checked
      casts of a third-party trait.  Durations are nanoseconds; texts are lists of
      Unicode scalar values, in [ShapeText] of ascii characters.
    - Loops are structural but for a few that take a fuel: the subtraction of a
      list of ranges (their number), the walk up the error graph (the ids that
      were minted), the printing of a number (twenty digits), the halving of a
      count of cubes (33 rounds of 32 bits) and of the elements of a unit (four),
      the walk over a plan and its batches (the levels of the plan and two), and
      the sampling of a tunable (its required samples).  The specifications show
      that these suffice.
    - In a command a driver is given of a stream its signal; a future is a record
      with the function that finishes it; host memory is its identity and length.
      [write_to_cpu] is reached through the copies of [HostMemory].
    - Backtraces, logs and [Display], but for the text of a shape, are left out,
      and so is the service of a handle.

    ** The theorems

    - The location of a handle survives its packing; a binding upgrades exactly
      while its allocation is owned.
    - The taint of a slice is the map from bytes to the failure that claims
      them, and the tags of the error graph count exactly its carriers; ids are
      not reused, and a report follows the skipped launches to the root.
    - A page never overlaps two slices, coalescing is the merge of the maximal
      free runs, loses no byte and moves nothing live; every pool keeps its
      invariant, serves a reservation with memory nobody else has, gives back
      exactly what is free, and reports a refusal of the storage without a
      change.
    - The manager finds by a binding its own allocation or nothing, hands a
      reservation over to one handle, routes by the mode the innermost window
      put in force, and keeps the promise of each page update.
    - A relocation plans only pages nothing is bound on, cheapest first, waits
      for the device before and after its copies, and drops its handles when it
      is refused; no stream relocates while one records.
    - The write set of work carries the failure of the work, and no other
      buffer changes its failure; a launch waits for every stream its buffers
      come from, which stay pinned until the work is over; scheduled tasks run
      after the tasks they depend on, each once and in order.
    - Host memory is let go only once the device has read it, and once, over any
      run of a server; while a stream records, no stream gives storage back, a
      reservation takes none, and nothing waits for a fence; a window hands over
      what was recorded in it, once per claim; a cached buffer of a live graph is
      neither evicted nor changed; the devices of a collective agree on their
      ranks; the events of a profiler are neither lost nor given back twice, and
      a window answers what its history says.
    - A plan releases every tunable once in the order of its groups and ends;
      elimination is sound; the winner of a tune is measured, committed once and
      found again by the next process, unless an older list of candidates hides
      it; a store is a write-once map arbitrated by its storage, but for imported
      values, and after a switch of environment it is a new one.
    - Shapes: reshape keeps the number of elements, broadcasting is the least
      upper bound, strides enumerate rows in order, padded rows never share an
      address; texts and tilings are read back.
    - Division by the multiplier of a divisor is exact below half of the range; a
      view maps each position to its element whichever layout the host picks; tiled
      layouts are one to one; a copy into rows is exact in any order of its units,
      when its vectors divide the rows; the cubes of a launch cover it within the
      limits of the hardware; shared variables of some size are disjoint; the
      arguments of a kernel, but scalars of 16 bytes, are read back.

    ** Not modelled

    - The contents of buffers on the host side: a copy of a command is the handles
      it reads and writes.
    - Threads: an operation of a server runs on one thread; what another thread
      may do between two of them is any change the class of a backend allows.
      The channels and locks that put a server on its thread, and the client that
      forwards to it, are left out, as are the interior borrows they check.
    - One invariant over all the pools of an arena at once, and the pages a
      dropped guard of a graph releases; each pool has its own.
    - The bindings to drivers, the compilers of kernels and the language front
      end, whose semantics is that of other programs; the analyses and passes of
      the optimizer other than that of shared memory, which rewrite a third-party
      intermediate representation; quantized and packed tensors and the other
      standard kernels; configuration files, logs and measurements, which are
      input and output; the database of the persistence, and the small utilities
      of [cubecl-common]. *)

From stdpp Require Export base numbers list gmap option.
From stdpp Require Import strings.
From Stdlib Require Import Lia.
#[global] Open Scope Z_scope.

(** ** Machine integers

    [u64], [usize] (64-bit targets), [u32], [u16] and [u8] values are [Z]s in
    their range.  Rust's [+], [-], [*] on them panic when the result leaves
    the range (the builds the repository tests); [None] is that panic.  A
    theorem which says that an operation returns [Some] therefore also says
    that no build wraps. *)

Abbreviation u64_max := 18446744073709551615.
Abbreviation u32_max := 4294967295.
Abbreviation u16_max := 65535.
Abbreviation u8_max := 255.
Abbreviation isize_max := 9223372036854775807.

Definition is_u64 (x : Z) : Prop := 0 <= x <= u64_max.

Definition add_u64 (a b : Z) : option Z :=
  if decide (a + b <= u64_max) then Some (a + b) else None.
Definition sub_u64 (a b : Z) : option Z :=
  if decide (b <= a) then Some (a - b) else None.
Definition mul_u64 (a b : Z) : option Z :=
  if decide (a * b <= u64_max) then Some (a * b) else None.

(** [checked_sub], [saturating_sub], [saturating_add] on [u64]. *)
Definition sat_sub (a b : Z) : Z := Z.max 0 (a - b).
Definition sat_add (max a b : Z) : Z := Z.min max (a + b).

(** [as u8], [as u16], [as u32] on an unsigned value keep the low bits. *)
Definition as_u8 (x : Z) : Z := Z.land x (Z.ones 8).
Definition as_u16 (x : Z) : Z := Z.land x (Z.ones 16).
Definition as_u32 (x : Z) : Z := Z.land x (Z.ones 32).

(** [x.next_multiple_of(m)]: panics when [m] is zero or the result
    overflows. *)
Definition next_multiple_of (x m : Z) : option Z :=
  if decide (m = 0) then None
  else let r := x mod m in
       if decide (r = 0) then Some x else add_u64 x (m - r).

(** ** Rust's [Result] *)
Inductive result (A E : Type) : Type :=
| Ok (a : A)
| Err (e : E).
Arguments Ok {A E} a.
Arguments Err {A E} e.

Definition result_map {A B E} (f : A → B) (r : result A E) : result B E :=
  match r with Ok a => Ok (f a) | Err e => Err e end.

(** ** Stateful code that can panic

    [M S A] is code that reads and writes a state [S] and returns an [A], or
    panics ([None]).  It is an instance of the monad classes of stdpp, whose
    notation [x ← m; k] it uses. *)
Definition M (S A : Type) : Type := S → option (A * S).

#[global] Instance M_ret {S} : MRet (M S) := λ A a s, Some (a, s).
#[global] Instance M_bind {S} : MBind (M S) := λ A B f m s,
  match m s with Some (a, s') => f a s' | None => None end.
#[global] Instance M_fmap {S} : FMap (M S) := λ A B f m s,
  match m s with Some (a, s') => Some (f a, s') | None => None end.

Definition panic {S A} : M S A := λ _, None.
Definition get {S} : M S S := λ s, Some (s, s).
Definition put {S} (s : S) : M S unit := λ _, Some (tt, s).
Definition gets {S A} (f : S → A) : M S A := λ s, Some (f s, s).
Definition modify {S} (f : S → S) : M S unit := λ s, Some (tt, f s).
(** The value of a partial expression ([unwrap], an index, an arithmetic
    operation), a panic when it has none. *)
Definition lift {S A} (o : option A) : M S A := λ s,
  match o with Some a => Some (a, s) | None => None end.

(** The early return of the [?] operator, in any monad. *)
Definition try_bind `{MRet F, MBind F} {A B E} (f : A → F (result B E))
    (m : F (result A E)) : F (result B E) :=
  r ← m; match r with Ok a => f a | Err e => mret (Err e) end.
Notation "x ←? m ; k" := (try_bind (λ x, k) m)
  (at level 20, m at level 100, k at level 200, only parsing) : stdpp_scope.
Notation "' x ←? m ; k" := (try_bind (λ x : _, k) m)
  (at level 20, x pattern, m at level 100, k at level 200, only parsing) : stdpp_scope.

(** ** Weakest preconditions

    [wp m s Q]: from [s], [m] does not panic, and its value and final state
    satisfy [Q]. *)
Definition wp {S A} (m : M S A) (s : S) (Q : A → S → Prop) : Prop :=
  match m s with Some (a, s') => Q a s' | None => False end.

(** A run of a sequence is a run of each of its steps. *)
Lemma bind_run {S A B} (m : M S A) (f : A → M S B) s b s' :
  (m ≫= f) s = Some (b, s') → ∃ a s1, m s = Some (a, s1) ∧ f a s1 = Some (b, s').
Proof. unfold mbind, M_bind. destruct (m s) as [[a s1]|]; [by eauto|done]. Qed.

Section wp.
Context {S A B : Type}.
Implicit Types (m : M S A) (f : A → M S B).

Lemma wp_spec m s Q : wp m s Q ↔ ∃ a s', m s = Some (a, s') ∧ Q a s'.
Proof.
  unfold wp. destruct (m s) as [[a s']|]; split; intros H; try done; eauto.
  - destruct H as (? & ? & [= -> ->] & ?). done.
  - destruct H as (? & ? & ? & ?). done.
Qed.
Lemma wp_mono m s (Q Q' : A → S → Prop) :
  wp m s Q → (∀ a s', Q a s' → Q' a s') → wp m s Q'.
Proof. unfold wp. destruct (m s) as [[a s']|]; auto. Qed.
Lemma wp_bind m f s (Q : B → S → Prop) :
  wp m s (λ a s', wp (f a) s' Q) → wp (m ≫= f) s Q.
Proof. unfold wp, mbind, M_bind. destruct (m s) as [[a s']|]; auto. Qed.
Lemma wp_bind_inv m f s (Q : B → S → Prop) :
  wp (m ≫= f) s Q → wp m s (λ a s', wp (f a) s' Q).
Proof. unfold wp, mbind, M_bind. destruct (m s) as [[a s']|]; auto. Qed.
Lemma wp_ret (a : A) s (Q : A → S → Prop) : Q a s → wp (mret a : M S A) s Q.
Proof. done. Qed.
Lemma wp_lift (o : option A) a s (Q : A → S → Prop) :
  o = Some a → Q a s → wp (lift o) s Q.
Proof. by intros -> ?. Qed.
Lemma wp_gets (g : S → A) s (Q : A → S → Prop) : Q (g s) s → wp (gets g) s Q.
Proof. done. Qed.
Lemma wp_modify (g : S → S) s (Q : unit → S → Prop) :
  Q tt (g s) → wp (modify g) s Q.
Proof. done. Qed.
Lemma wp_fmap m (g : A → B) s (Q : B → S → Prop) :
  wp m s (λ a s', Q (g a) s') → wp (g <$> m) s Q.
Proof. unfold wp, fmap, M_fmap. by destruct (m s) as [[a s']|]. Qed.
Lemma wp_conj m s (Q Q' : A → S → Prop) :
  wp m s Q → wp m s Q' → wp m s (λ a s', Q a s' ∧ Q' a s').
Proof. unfold wp. by destruct (m s) as [[a s']|]. Qed.
End wp.

(** [wp_seq lem] runs the first statement of the goal with the
    specification [lem], then goes on with what it ensures. *)
Ltac wp_seq lem := apply wp_bind; eapply wp_mono; [eapply lem|cbn beta].

(** ** Arithmetic *)
Lemma add_u64_Some a b : a + b <= u64_max → add_u64 a b = Some (a + b).
Proof. intros. unfold add_u64. by rewrite decide_True. Qed.
Lemma sub_u64_Some a b : b <= a → sub_u64 a b = Some (a - b).
Proof. intros. unfold sub_u64. by rewrite decide_True. Qed.
Lemma mul_u64_Some a b : a * b <= u64_max → mul_u64 a b = Some (a * b).
Proof. intros. unfold mul_u64. by rewrite decide_True. Qed.

Lemma as_u8_small x : 0 <= x <= u8_max → as_u8 x = x.
Proof. intros. unfold as_u8. rewrite Z.land_ones by lia. apply Z.mod_small. lia. Qed.
Lemma as_u16_small x : 0 <= x <= u16_max → as_u16 x = x.
Proof. intros. unfold as_u16. rewrite Z.land_ones by lia. apply Z.mod_small. lia. Qed.
Lemma as_u32_small x : 0 <= x <= u32_max → as_u32 x = x.
Proof. intros. unfold as_u32. rewrite Z.land_ones by lia. apply Z.mod_small. lia. Qed.

Lemma next_multiple_of_spec x m :
  0 < m → 0 <= x → x + m <= u64_max →
  ∃ y, next_multiple_of x m = Some y ∧ x <= y < x + m ∧ (m | y).
Proof.
  intros Hm Hx Hb. unfold next_multiple_of. rewrite decide_False by lia.
  pose proof (Z.mod_pos_bound x m Hm) as Hr. case_decide as H0.
  - exists x. split; [done|]. split; [lia|]. by apply Z.mod_divide; [lia|].
  - exists (x + (m - x mod m)). rewrite add_u64_Some by lia.
    split; [done|]. split; [lia|].
    exists (x / m + 1). pose proof (Z.div_mod x m). lia.
Qed.

(** A multiple of [align] that holds [size] bytes holds them padded. *)
Lemma multiple_above align size pad n :
  (align | size + pad) → (align | n) → 0 <= pad < align → size <= n → size + pad <= n.
Proof.
  intros [a Ha] [b Hb] Hp Hs. assert (a * align < (b + 1) * align) by lia. assert (a < b + 1) by nia. nia.
Qed.

(** ** Lists *)
Definition sum_Z (l : list Z) : Z := foldr Z.add 0 l.

Lemma sum_Z_cons x l : sum_Z (x :: l) = x + sum_Z l.
Proof. done. Qed.
Lemma sum_Z_app l1 l2 : sum_Z (l1 ++ l2) = sum_Z l1 + sum_Z l2.
Proof. induction l1 as [|x l1 IH]; [done|]. rewrite <- app_comm_cons, !sum_Z_cons. lia. Qed.
(** [iter().sum()]: panics when it overflows. *)
Definition sum_u64 (l : list Z) : option Z := foldl (λ acc n, a ← acc; add_u64 a n) (Some 0) l.
Lemma sum_Z_insert {A} (f : A → Z) l i x y :
  l !! i = Some x → sum_Z (f <$> <[i := y]> l) = sum_Z (f <$> l) + f y - f x.
Proof.
  revert i. induction l as [|z l IH]; intros [|i] Hi; try done.
  - injection Hi as ->. change (<[0%nat := y]> (x :: l)) with (y :: l). rewrite !fmap_cons, !sum_Z_cons. lia.
  - change (<[S i := y]> (z :: l)) with (z :: <[i := y]> l). rewrite !fmap_cons, !sum_Z_cons. rewrite (IH i Hi). lia.
Qed.
Lemma sum_Z_nonneg l : Forall (Z.le 0) l → 0 <= sum_Z l.
Proof. induction 1; [done|]. rewrite sum_Z_cons. lia. Qed.
Lemma sum_u64_Some l : Forall (Z.le 0) l → sum_Z l <= u64_max → sum_u64 l = Some (sum_Z l).
Proof.
  unfold sum_u64. intros Hl. enough (∀ a, 0 <= a → a + sum_Z l <= u64_max →
    foldl (λ acc n, a ← acc; add_u64 a n) (Some a) l = Some (a + sum_Z l)) as H by (intros; by rewrite H).
  induction Hl as [|x l Hx Hl IH]; intros a Ha Hs; [by rewrite Z.add_0_r|].
  rewrite sum_Z_cons in *. pose proof (sum_Z_nonneg l Hl). cbn. rewrite add_u64_Some by lia. cbn.
  rewrite IH by lia. f_equal. lia.
Qed.

(** Rust's [Iterator::position] and [rposition]. *)
Fixpoint position {A} (p : A → bool) (l : list A) : option nat :=
  match l with
  | [] => None
  | x :: l => if p x then Some O else S <$> position p l
  end.
Fixpoint rposition {A} (p : A → bool) (l : list A) : option nat :=
  match l with
  | [] => None
  | x :: l => match rposition p l with
              | Some i => Some (S i)
              | None => if p x then Some O else None
              end
  end.

Lemma position_Some {A} (p : A → bool) l i :
  position p l = Some i ↔
  (∃ x, l !! i = Some x ∧ p x = true) ∧ ∀ j y, (j < i)%nat → l !! j = Some y → p y = false.
Proof.
  revert i. induction l as [|x l IH]; intros i; cbn.
  { split; [done|]. intros [(? & ? & ?) _]. done. }
  destruct (p x) eqn:Hp.
  - split.
    + intros [= <-]. split; [by exists x|]. intros; lia.
    + intros [_ Hmin]. destruct i as [|i]; [done|].
      specialize (Hmin 0%nat x ltac:(lia) eq_refl). congruence.
  - rewrite fmap_Some. split.
    + intros (k & Hk & ->). apply IH in Hk as [Hk Hmin]. split; [done|].
      intros [|j] y Hj Hy; [cbn in Hy; congruence|]. apply (Hmin j y); [lia|done].
    + intros [(y & Hy & Hpy) Hmin]. destruct i as [|i]; [cbn in Hy; congruence|].
      exists i. split; [|done]. apply IH. split; [by exists y|].
      intros j z Hj Hz. apply (Hmin (S j) z); [lia|done].
Qed.
Lemma position_None {A} (p : A → bool) l :
  position p l = None ↔ Forall (λ x, p x = false) l.
Proof.
  induction l as [|x l IH]; cbn; [by split; constructor|].
  rewrite Forall_cons. destruct (p x); [by split; [|intros []]|].
  rewrite fmap_None, IH. by split; [|intros []].
Qed.
Lemma rposition_None {A} (p : A → bool) l :
  rposition p l = None → Forall (λ x, p x = false) l.
Proof.
  induction l as [|x l IH]; cbn; [by constructor|].
  destruct (rposition p l); [done|]. destruct (p x) eqn:Hp; [done|]. intros _.
  constructor; auto.
Qed.
Lemma rposition_Some {A} (p : A → bool) l i :
  rposition p l = Some i →
  (∃ x, l !! i = Some x ∧ p x = true) ∧ ∀ j y, (i < j)%nat → l !! j = Some y → p y = false.
Proof.
  revert i. induction l as [|x l IH]; intros i; cbn; [done|].
  destruct (rposition p l) as [k|] eqn:Hr.
  - intros [= <-]. destruct (IH k eq_refl) as [Hk Hafter]. split; [done|].
    intros [|j] y Hj Hy; [lia|]. apply (Hafter j y); [lia|done].
  - destruct (p x) eqn:Hp; [|done]. intros [= <-]. split; [by exists x|].
    intros [|j] y Hj Hy; [lia|]. apply rposition_None in Hr.
    by apply (proj1 (Forall_lookup _ _) Hr j).
Qed.

Lemma omap_omap {B} (f g : B → option B) (l : list B) : omap g (omap f l) = omap (λ x, f x ≫= g) l.
Proof. induction l as [|x l IH]; [done|]. cbn. destruct (f x); cbn; by rewrite IH. Qed.
Lemma omap_length_le {B C} (f : B → option C) (l : list B) : (length (omap f l) <= length l)%nat.
Proof. induction l as [|x l IH]; [done|]. cbn. destruct (f x); cbn; lia. Qed.
Lemma omap_some {B} (l : list B) : omap Some l = l.
Proof. induction l as [|x l IH]; [done|]. cbn. by f_equal. Qed.
Lemma omap_ext_in {B C} (f g : B → option C) (l : list B) :
  (∀ x, x ∈ l → f x = g x) → omap f l = omap g l.
Proof.
  induction l as [|x l IH]; intros Hl; [done|]. cbn. rewrite Hl by by left.
  rewrite IH; [done|]. intros y ?. apply Hl. by right.
Qed.
Lemma Forall2_elem_l {A B} (P : A → B → Prop) l k x :
  Forall2 P l k → x ∈ l → ∃ y, y ∈ k ∧ P x y.
Proof.
  induction 1 as [|x' y' l k Hxy _ IH]; [by intros ?%not_elem_of_nil|].
  intros [->|Hx]%elem_of_cons; [exists y'|destruct (IH Hx) as (y & Hy & ?); exists y];
    by rewrite elem_of_cons; auto.
Qed.

(** [Vec::pop] *)
Definition vec_pop {A} (l : list A) : option (A * list A) :=
  match last l with Some x => Some (x, removelast l) | None => None end.
Lemma vec_pop_Some {A} (l : list A) x r : vec_pop l = Some (x, r) → l = r ++ [x].
Proof.
  unfold vec_pop. destruct (last l) as [y|] eqn:Hy; [|done]. intros [= <- <-]. apply last_Some in Hy as [k ->].
  by rewrite removelast_last.
Qed.
Lemma vec_pop_None {A} (l : list A) : vec_pop l = None → l = [].
Proof. unfold vec_pop. destruct (last l) eqn:E; [done|]. by apply last_None in E. Qed.

(** [Vec::insert] and [Vec::remove] at an index within the bounds. *)
Definition vec_insert {A} (at_ : nat) (x : A) (l : list A) : list A :=
  take at_ l ++ x :: drop at_ l.
Definition vec_remove {A} (at_ : nat) (l : list A) : list A :=
  take at_ l ++ drop (S at_) l.

Section middle.
Context {A : Type}.
Implicit Types (l k : list A) (x y : A).
Lemma lookup_middle l k x : (l ++ x :: k) !! length l = Some x.
Proof. by apply list_lookup_middle. Qed.
Lemma lookup_end l : l !! length l = None.
Proof. apply lookup_ge_None. lia. Qed.
Lemma insert_middle l k x y : <[length l := y]> (l ++ x :: k) = l ++ y :: k.
Proof. rewrite insert_app_r_alt by lia. by rewrite Nat.sub_diag. Qed.
Lemma vec_remove_middle l k x : vec_remove (length l) (l ++ x :: k) = l ++ k.
Proof.
  unfold vec_remove. rewrite take_app_length. f_equal.
  change (x :: k) with ([x] ++ k). rewrite app_assoc.
  rewrite drop_app_length'; [done|]. rewrite length_app; cbn; lia.
Qed.
Lemma vec_insert_middle l k x y :
  vec_insert (S (length l)) y (l ++ x :: k) = l ++ x :: y :: k.
Proof.
  unfold vec_insert. change (x :: k) with ([x] ++ k). rewrite app_assoc.
  rewrite take_app_length', drop_app_length' by (rewrite length_app; cbn; lia).
  by rewrite <- app_assoc.
Qed.
End middle.
