(* ===== verification/Server.v ===== *)
(** * Errors of the compute server

    The error types the memory managers return and the error graph holds
    ([cubecl-runtime/src/server/base.rs]), with the two questions the servers
    ask of them.  Backtraces are diagnostics no code reads back; they are not
    represented. *)

From stdpp Require Export strings.
From S2P Require Export Prelude.

(** [Reason] is a string that is shown, never inspected. *)
Inductive CompilationError :=
| CompilationUnsupportedInstruction (reason : string)
| CompilationGeneric (reason : string)
| CompilationValidation (reason : string).

Inductive ResourceLimitError :=
| SharedMemory (requested max : Z)
| Units (requested max : Z)
| CubeDim (requested max : Z * Z * Z).

Inductive LaunchError :=
| LaunchCompilationError (e : CompilationError)
| LaunchOutOfMemory (reason : string)
| LaunchTooManyResources (e : ResourceLimitError)
| LaunchUnknown (reason : string).

Inductive Collective := CommInit | AllReduce | Send | Recv | SyncCollective.

Inductive IoError :=
| BufferTooBig (size : Z)
| OutOfMemory (size : Z)
| PageUpdateForbidden (size : Z)
| PageSizesExhausted (size : Z)
| UnsupportedStrides
| NotFound (reason : string)
| StorageHandleNotFound (reason : string)
| StorageMappingFailed (size : Z) (source : IoError)
| UnknownIo (description : string)
| UnsupportedIoOperation.

Inductive ServerError :=
| Validation (message : string)
| Generic (reason : string)
| NoDeviceTransport (operation : Collective)
| ForeignHandle (handle client : string)
| ServiceMismatch (client requested : string)
| Launch (e : LaunchError)
| Io (e : IoError)
| TornDown
| Unwritten (failure claimed : Z) (chain : list string) (root : ServerError)
| Skipped
| Several (errors : list ServerError).

(** [ServerError::is_refusal]: the kernel was refused before it ran. *)
Fixpoint is_refusal (e : ServerError) : bool :=
  match e with
  | Launch (LaunchCompilationError _) | Launch (LaunchTooManyResources _) => true
  | Unwritten _ _ _ root => is_refusal root
  | Several errors => negb (bool_decide (errors = [])) && forallb is_refusal errors
  | _ => false
  end.

(** [IoError::may_succeed_after_reclaim]. *)
Definition may_succeed_after_reclaim (e : IoError) : bool :=
  match e with BufferTooBig _ | PageUpdateForbidden _ => false | _ => true end.

(** The failures at the leaves of an error: what [is_refusal] walks to. *)
Inductive root_of : ServerError → ServerError → Prop :=
| root_here e : (∀ f c ch r, e ≠ Unwritten f c ch r) → (∀ es, e ≠ Several es) → root_of e e
| root_unwritten f c ch e r : root_of e r → root_of (Unwritten f c ch e) r
| root_several es e r : e ∈ es → root_of e r → root_of (Several es) r.
