(* ===== verification/Handle.v ===== *)
(** * Managed memory handles

    [cubecl-runtime/src/memory_management/handle.rs]: the location of an
    allocation packed in one atomic word, and the handles and bindings that
    share its descriptor.  The descriptors live in a store indexed by their
    id, since every owner of an allocation sees its location change.

    A handle holds one reference on the descriptor and one on the handle
    count, a binding one on the descriptor only.  The store counts handles
    and bindings apart: [Arc::strong_count(&descriptor)] is their sum and
    [Arc::strong_count(&handle_count)] is the handles. *)

From S2P Require Export Server.

(** ** Locations *)
Record MemoryLocation := mk_MemoryLocation {
  pool : Z;   (* u8 *)
  page : Z;   (* u16 *)
  slice : Z;  (* u32 *)
  init : Z;   (* u8 *)
}.
Add Printing Constructor MemoryLocation.

#[global] Instance MemoryLocation_eq_dec : EqDecision MemoryLocation.
Proof. solve_decision. Defined.

Definition location_ok (l : MemoryLocation) : Prop :=
  0 <= pool l <= u8_max ∧ 0 <= page l <= u16_max ∧
  0 <= slice l <= u32_max ∧ 0 <= init l <= u8_max.

Definition to_bits (l : MemoryLocation) : Z :=
  Z.lor (Z.lor (Z.lor (pool l) (Z.shiftl (page l) 8)) (Z.shiftl (slice l) 24))
        (Z.shiftl (init l) 56).

Definition from_bits (bits : Z) : MemoryLocation := {|
  pool := as_u8 bits;
  page := as_u16 (Z.shiftr bits 8);
  slice := as_u32 (Z.shiftr bits 24);
  init := as_u8 (Z.shiftr bits 56);
|}.

Definition location_new (pool page slice : Z) : MemoryLocation :=
  mk_MemoryLocation pool page slice 1.
Definition location_uninit : MemoryLocation := mk_MemoryLocation 0 0 0 0.

Definition with_slice (slice : Z) (l : MemoryLocation) : MemoryLocation :=
  mk_MemoryLocation (pool l) (page l) slice (init l).
Definition with_page (page : Z) (l : MemoryLocation) : MemoryLocation :=
  mk_MemoryLocation (pool l) page (slice l) (init l).

(** ** The store of descriptors *)
Abbreviation ManagedMemoryId := Z (only parsing).

Record Descriptor := mk_Descriptor {
  location_bits : Z;  (* the AtomicU64 *)
  handles : Z;
  bindings : Z;
}.

Record Memory := mk_Memory {
  COUNTER : Z;        (* AtomicUsize of gen_id *)
  descriptors : gmap Z Descriptor;
}.

Definition with_descriptors (f : gmap Z Descriptor → gmap Z Descriptor) (m : Memory) : Memory :=
  mk_Memory (COUNTER m) (f (descriptors m)).

Definition descriptor (id : ManagedMemoryId) : M Memory Descriptor :=
  m ← get; lift (descriptors m !! id).
Definition set_descriptor (id : ManagedMemoryId) (d : Descriptor) : M Memory unit :=
  modify (with_descriptors <[id := d]>).

(** [ManagedMemoryDescriptor] *)
Definition update_location (id : ManagedMemoryId) (l : MemoryLocation) : M Memory unit :=
  d ← descriptor id;
  set_descriptor id (mk_Descriptor (to_bits l) (handles d) (bindings d)).
Definition modify_location (id : ManagedMemoryId) (f : MemoryLocation → MemoryLocation) :
    M Memory unit :=
  d ← descriptor id;
  set_descriptor id
    (mk_Descriptor (to_bits (f (from_bits (location_bits d)))) (handles d) (bindings d)).
Definition update_slice (id : ManagedMemoryId) (slice : Z) : M Memory unit :=
  modify_location id (with_slice slice).
Definition update_page (id : ManagedMemoryId) (page : Z) : M Memory unit :=
  modify_location id (with_page page).
Definition location (id : ManagedMemoryId) : M Memory MemoryLocation :=
  d ← descriptor id; mret (from_bits (location_bits d)).
Definition is_allocated (id : ManagedMemoryId) : M Memory bool :=
  l ← location id; mret (negb (init l =? 0)).

(** [ManagedMemoryHandle] *)
Definition gen_id : M Memory ManagedMemoryId :=
  m ← get;
  _ ← put (mk_Memory ((COUNTER m + 1) mod 2^64) (descriptors m));
  if COUNTER m =? u64_max then panic else mret (COUNTER m).
Definition handle_new : M Memory ManagedMemoryId :=
  id ← gen_id;
  _ ← set_descriptor id (mk_Descriptor (to_bits location_uninit) 1 0);
  mret id.

Definition can_mut (d : Descriptor) : bool := handles d <=? 2.
Definition is_bound (d : Descriptor) : bool := handles d <? handles d + bindings d.
Definition is_free (d : Descriptor) : bool := handles d + bindings d <=? 1.

Definition handle_is_free (id : ManagedMemoryId) : M Memory bool :=
  is_free <$> descriptor id.
Definition handle_is_bound (id : ManagedMemoryId) : M Memory bool :=
  is_bound <$> descriptor id.

(** [Clone], [Drop] and [binding] on the counts.  Dropping an owner that is
    not there does not type-check in the source; it panics here. *)
Definition handle_clone (id : ManagedMemoryId) : M Memory unit :=
  d ← descriptor id;
  set_descriptor id (mk_Descriptor (location_bits d) (handles d + 1) (bindings d)).
Definition handle_drop (id : ManagedMemoryId) : M Memory unit :=
  d ← descriptor id;
  if 0 <? handles d
  then set_descriptor id (mk_Descriptor (location_bits d) (handles d - 1) (bindings d))
  else panic.
Definition binding_clone (id : ManagedMemoryId) : M Memory unit :=
  d ← descriptor id;
  set_descriptor id (mk_Descriptor (location_bits d) (handles d) (bindings d + 1)).
Definition binding_drop (id : ManagedMemoryId) : M Memory unit :=
  d ← descriptor id;
  if 0 <? bindings d
  then set_descriptor id (mk_Descriptor (location_bits d) (handles d) (bindings d - 1))
  else panic.
(** [binding(self)] clones the descriptor, then drops the handle. *)
Definition binding (id : ManagedMemoryId) : M Memory unit :=
  _ ← binding_clone id; handle_drop id.

(** [WeakMemoryBinding::upgrade] *)
Definition upgrade (id : ManagedMemoryId) : M Memory (option ManagedMemoryId) :=
  d ← descriptor id;
  if handles d + bindings d <=? 1 then mret None
  else _ ← binding_clone id; mret (Some id).

(** ** [optimal_align] *)
Definition next_power_of_two (x : Z) : option Z :=
  let p := if x <=? 1 then 1 else 2 ^ Z.log2_up x in
  if decide (p <= u64_max) then Some p else None.

Definition clamp (x lo hi : Z) : option Z :=
  if decide (lo <= hi) then Some (if x <? lo then lo else if hi <? x then hi else x) else None.
Lemma clamp_Some x lo hi : lo <= hi → clamp x lo hi = Some (Z.max lo (Z.min hi x)).
Proof.
  intros Hb. unfold clamp. rewrite decide_True by done. f_equal.
  destruct (Z.ltb_spec x lo), (Z.ltb_spec hi x); lia.
Qed.

Definition optimal_align (shape elem_size buffer_align : Z) : option Z :=
  if shape =? 1 then Some elem_size
  else n ← mul_u64 shape elem_size;
       p ← next_power_of_two n;
       clamp p 16 buffer_align.

(** ** The packed word *)
Lemma lor_shiftl_disjoint a b n :
  0 <= n → 0 <= a < 2^n → 0 <= b → Z.lor a (Z.shiftl b n) = a + b * 2^n.
Proof.
  intros Hn Ha Hb. rewrite <- Z.shiftl_mul_pow2 by done.
  assert (Z.land a (Z.shiftl b n) = 0) as Hl.
  { apply Z.bits_inj'. intros i Hi. rewrite Z.land_spec, Z.bits_0, Z.shiftl_spec by done.
    destruct (decide (i < n)).
    - rewrite (Z.testbit_neg_r b) by lia. apply andb_false_r.
    - rewrite <- (Z.mod_small a (2^n)) by done.
      by rewrite Z.mod_pow2_bits_high by lia. }
  pose proof (Z.add_lor_land a (Z.shiftl b n)). lia.
Qed.

Lemma to_bits_sum l : location_ok l →
  to_bits l = pool l + page l * 2^8 + slice l * 2^24 + init l * 2^56.
Proof.
  intros (Hp & Hg & Hs & Hi). unfold to_bits.
  rewrite (lor_shiftl_disjoint (pool l)) by lia.
  rewrite (lor_shiftl_disjoint _ (slice l)) by lia.
  by rewrite (lor_shiftl_disjoint _ (init l)) by lia.
Qed.

Lemma to_bits_range l : location_ok l → is_u64 (to_bits l).
Proof. intros H. rewrite to_bits_sum by done. destruct H as (?&?&?&?). unfold is_u64. lia. Qed.

Lemma from_bits_to_bits l : location_ok l → from_bits (to_bits l) = l.
Proof.
  intros H. unfold from_bits. rewrite to_bits_sum by done.
  destruct l as [p g s i]; destruct H as (Hp & Hg & Hs & Hi); cbn in *.
  unfold as_u8, as_u16, as_u32. rewrite !Z.land_ones, !Z.shiftr_div_pow2 by lia.
  f_equal; Z.div_mod_to_equations; lia.
Qed.

Lemma from_bits_ok b : location_ok (from_bits b).
Proof.
  unfold location_ok, from_bits, as_u8, as_u16, as_u32; cbn.
  rewrite !Z.land_ones by lia. repeat split; Z.div_mod_to_equations; lia.
Qed.

(** The packing is a bijection: every word is the packing of the location it
    unpacks to. *)
Lemma to_bits_from_bits b : is_u64 b → to_bits (from_bits b) = b.
Proof.
  intros Hb. rewrite to_bits_sum by apply from_bits_ok.
  unfold from_bits, as_u8, as_u16, as_u32, is_u64 in *; cbn.
  rewrite !Z.land_ones, !Z.shiftr_div_pow2 by lia. Z.div_mod_to_equations. lia.
Qed.

(** The location of a descriptor, decoded. *)
Definition loc_of (d : Descriptor) : MemoryLocation := from_bits (location_bits d).

Lemma with_slice_ok s l : location_ok l → 0 <= s <= u32_max → location_ok (with_slice s l).
Proof. intros (?&?&?&?) ?. repeat split; cbn; lia. Qed.
Lemma with_page_ok g l : location_ok l → 0 <= g <= u16_max → location_ok (with_page g l).
Proof. intros (?&?&?&?) ?. repeat split; cbn; lia. Qed.
#[export] Hint Resolve from_bits_ok with_slice_ok with_page_ok : core.

(** ** Specifications of the store operations *)
Lemma wp_descriptor id m d (Q : Descriptor → Memory → Prop) :
  descriptors m !! id = Some d → Q d m → wp (descriptor id) m Q.
Proof. intros Hd HQ. unfold descriptor. apply wp_bind, wp_gets. by eapply wp_lift. Qed.

Lemma wp_set_descriptor id d m (Q : unit → Memory → Prop) :
  Q tt (with_descriptors <[id := d]> m) → wp (set_descriptor id d) m Q.
Proof. done. Qed.

Section store_specs.
Context (id : ManagedMemoryId) (m : Memory) (d : Descriptor).
Context (Hd : descriptors m !! id = Some d).

Lemma wp_update_location l (Q : unit → Memory → Prop) :
  Q tt (with_descriptors <[id := mk_Descriptor (to_bits l) (handles d) (bindings d)]> m) →
  wp (update_location id l) m Q.
Proof. intros HQ. apply wp_bind. eapply wp_descriptor; [done|]. by apply wp_set_descriptor. Qed.
Lemma wp_modify_location f (Q : unit → Memory → Prop) :
  Q tt (with_descriptors <[id := mk_Descriptor (to_bits (f (loc_of d))) (handles d) (bindings d)]> m) →
  wp (modify_location id f) m Q.
Proof. intros HQ. apply wp_bind. eapply wp_descriptor; [done|]. by apply wp_set_descriptor. Qed.
Lemma wp_location (Q : MemoryLocation → Memory → Prop) :
  Q (loc_of d) m → wp (location id) m Q.
Proof. intros HQ. apply wp_bind. by eapply wp_descriptor. Qed.
Lemma wp_handle_is_free (Q : bool → Memory → Prop) :
  Q (is_free d) m → wp (handle_is_free id) m Q.
Proof. intros HQ. apply wp_fmap. by eapply wp_descriptor. Qed.
Lemma wp_handle_clone (Q : unit → Memory → Prop) :
  Q tt (with_descriptors <[id := mk_Descriptor (location_bits d) (handles d + 1) (bindings d)]> m) →
  wp (handle_clone id) m Q.
Proof. intros HQ. apply wp_bind. eapply wp_descriptor; [done|]. by apply wp_set_descriptor. Qed.
Lemma wp_handle_drop (Q : unit → Memory → Prop) :
  0 < handles d →
  Q tt (with_descriptors <[id := mk_Descriptor (location_bits d) (handles d - 1) (bindings d)]> m) →
  wp (handle_drop id) m Q.
Proof.
  intros Hpos HQ. apply wp_bind. eapply wp_descriptor; [done|].
  rewrite (proj2 (Z.ltb_lt 0 (handles d)) Hpos). by apply wp_set_descriptor.
Qed.
End store_specs.

Lemma wp_handle_new m (Q : ManagedMemoryId → Memory → Prop) :
  0 <= COUNTER m < u64_max →
  Q (COUNTER m) (mk_Memory (COUNTER m + 1)
       (<[COUNTER m := mk_Descriptor (to_bits location_uninit) 1 0]> (descriptors m))) →
  wp handle_new m Q.
Proof.
  intros Hc HQ. unfold wp, handle_new, gen_id, mbind, M_bind, get, gets, put; cbn.
  destruct (Z.eqb_spec (COUNTER m) u64_max); [lia|].
  unfold mret, M_ret, with_descriptors; cbn. rewrite Z.mod_small by lia. done.
Qed.

(** ** What the handles promise *)

(** Packing a location in one word loses nothing, in either direction:
    the fields come back at every value of their widths, whatever the others
    are, and every word is the packing of the location read from it. *)
Theorem location_packing :
  (∀ l, location_ok l → is_u64 (to_bits l) ∧ from_bits (to_bits l) = l) ∧
  (∀ b, is_u64 b → location_ok (from_bits b) ∧ to_bits (from_bits b) = b).
Proof.
  split.
  - intros l Hl. split; [by apply to_bits_range|by apply from_bits_to_bits].
  - intros b Hb. split; [apply from_bits_ok|by apply to_bits_from_bits].
Qed.

(** A weak binding upgrades exactly when the allocation is not free for a
    pool to hand out again, and an allocation upgraded from one is not free
    as long as the binding lives, even once every other binding and every
    handle but the pool's are dropped; an allocation that is free is left as
    it is. *)
Theorem upgrade_iff_not_free id m d :
  descriptors m !! id = Some d → 0 <= handles d → 0 <= bindings d →
  wp (upgrade id) m (λ r m',
    (r = None ↔ is_free d = true) ∧
    match r with
    | None => m' = m
    | Some i => i = id ∧ ∃ d', descriptors m' !! id = Some d' ∧
        location_bits d' = location_bits d ∧ handles d' = handles d ∧
        bindings d' = bindings d + 1 ∧
        ∀ h b, 1 <= h → 1 <= b → is_free (mk_Descriptor (location_bits d') h b) = false
    end).
Proof.
  intros Hd Hh Hb. apply wp_bind. eapply wp_descriptor; [done|]. unfold is_free.
  destruct (Z.leb_spec (handles d + bindings d) 1) as [Hle|Hgt].
  - by apply wp_ret.
  - apply wp_bind, wp_bind. eapply wp_descriptor; [done|]. apply wp_set_descriptor, wp_ret.
    split; [done|]. split; [done|]. eexists. cbn. rewrite lookup_insert_eq. split; [done|]. cbn.
    split_and!; try done. intros h b ??. apply Z.leb_gt. cbn. lia.
Qed.

Lemma upgrade_iff_not_free_witness :
  let m := mk_Memory 1 {[ 0 := mk_Descriptor 0 1 1 ]} in
  wp (upgrade 0) m (λ r _, r = None ↔ is_free (mk_Descriptor 0 1 1) = true).
Proof.
  eapply wp_mono; [apply (upgrade_iff_not_free 0 _ (mk_Descriptor 0 1 1)); [reflexivity|cbn; lia..]|].
  intros r m' [H _]. exact H.
Defined.

Lemma next_power_of_two_spec x :
  1 <= x <= 2 ^ 63 → ∃ n, 0 <= n <= 63 ∧ next_power_of_two x = Some (2 ^ n) ∧ x <= 2 ^ n.
Proof.
  intros Hx. unfold next_power_of_two. destruct (Z.leb_spec x 1) as [H1|H1].
  - exists 0. split; [lia|]. split; [done|]. lia.
  - exists (Z.log2_up x). pose proof (Z.log2_up_nonneg x).
    assert (Z.log2_up x <= 63) as Hl.
    { change 63 with (Z.log2_up (2 ^ 63)). apply Z.log2_up_le_mono. lia. }
    pose proof (Z.pow_le_mono_r 2 (Z.log2_up x) 63 ltac:(lia) Hl).
    rewrite decide_True by lia. split; [lia|]. split; [done|].
    apply Z.log2_up_spec. lia.
Qed.

(** The alignment of a tensor row.  For a buffer alignment that is a power
    of two of at least 16 the alignment chosen for a row of several elements
    is a power of two that divides the buffer alignment, is at least 16, and
    is large enough for a whole row unless the buffer alignment itself is not;
    a row of one element is aligned to the element. *)
Theorem optimal_align_correct shape elem_size n :
  1 <= shape → 1 <= elem_size → shape * elem_size <= 2 ^ 63 → 4 <= n <= 63 →
  ∃ a, optimal_align shape elem_size (2 ^ n) = Some a ∧
    if decide (shape = 1) then a = elem_size
    else (∃ k, 4 <= k <= n ∧ a = 2 ^ k) ∧ (a | 2 ^ n) ∧
         (shape * elem_size <= a ∨ a = 2 ^ n).
Proof.
  intros Hs He Hp Hn. unfold optimal_align. destruct (Z.eqb_spec shape 1) as [->|Hne].
  { by exists elem_size. }
  destruct (decide (shape = 1)) as [|_]; [done|]. rewrite mul_u64_Some by lia. cbn.
  destruct (next_power_of_two_spec (shape * elem_size)) as (k & Hk & -> & Hle); [nia|]. cbn.
  pose proof (Z.pow_le_mono_r 2 4 n ltac:(lia) ltac:(lia)) as H16.
  assert (∀ j, 4 <= j <= n → (2 ^ j | 2 ^ n)) as Hdiv.
  { intros j Hj. exists (2 ^ (n - j)). rewrite <- Z.pow_add_r by lia. f_equal. lia. }
  unfold clamp. rewrite decide_True by lia.
  destruct (Z.ltb_spec (2 ^ k) 16) as [Hlt|Hge].
  - exists 16. split; [done|]. split_and!; [exists 4; lia|by apply (Hdiv 4); lia|left; lia].
  - assert (4 <= k) as Hk4.
    { destruct (Z_lt_ge_dec k 4); [|lia]. pose proof (Z.pow_lt_mono_r 2 k 4 ltac:(lia) ltac:(lia)). lia. }
    destruct (Z.ltb_spec (2 ^ n) (2 ^ k)) as [Hlt|Hle'].
    + exists (2 ^ n). split; [done|]. split_and!; [exists n; lia|apply Hdiv; lia|by right].
    + assert (k <= n) as Hkn.
      { destruct (Z_le_gt_dec k n); [done|].
        pose proof (Z.pow_lt_mono_r 2 n k ltac:(lia) ltac:(lia)). lia. }
      exists (2 ^ k). split; [done|]. split_and!; [exists k; lia|apply Hdiv; lia|by left].
Qed.

Lemma optimal_align_correct_witness :
  ∃ a, optimal_align 100 4 (2 ^ 9) = Some a ∧ (a | 2 ^ 9) ∧ a = 512.
Proof.
  destruct (optimal_align_correct 100 4 9) as (a & Ha & H); [lia..|].
  exists a. split; [exact Ha|]. rewrite decide_False in H by lia. split; [apply H|].
  vm_compute in Ha. congruence.
Defined.
