(* ===== verification/ErrorGraph.v ===== *)
(** * The error graph

    [cubecl-server/src/memory_management/error_graph.rs]: the device-wide
    store of failures, reference-counted by the allocations that carry them.
    A failure id is minted once and never reused; its node lives while
    something carries it. *)

From Stdlib Require Import Ascii.
From stdpp Require Import pretty.
From S2P Require Export Server.
From stdpp Require Import list.
#[local] Open Scope Z_scope.

Abbreviation FailureId := Z (only parsing).

(** ** Kernel names ([cubecl-runtime/src/id.rs])

    The report prints the short name of a kernel; the other fields of
    [KernelId] tell instances apart and are not read here. *)
Record KernelId := mk_KernelId {
  type_name : string;
  type_id : Z;
}.

(** [str::split('<').next()] *)
Fixpoint before_char (c : Ascii.ascii) (s : string) : string :=
  match s with
  | EmptyString => EmptyString
  | String a s => if decide (a = c) then EmptyString else String a (before_char c s)
  end.
(** [str::rsplit("::").next()]: what follows the last occurrence. *)
Fixpoint after_last_colons (s : string) : option string :=
  match s with
  | EmptyString => None
  | String a s =>
      match after_last_colons s with
      | Some r => Some r
      | None => match s with
                | String b r => if decide (a = ":"%char ∧ b = ":"%char) then Some r else None
                | EmptyString => None
                end
      end
  end.
Definition short_name (k : KernelId) : string :=
  let name := before_char "<"%char (type_name k) in
  default name (after_last_colons name).

(** ** State *)
Record Skip := mk_Skip {
  kernel : KernelId;
  needed : Z;           (* ManagedMemoryId *)
  produced : list Z;
}.

Record Failure := mk_Failure {
  error : ServerError;
  tagged : Z;           (* u32 *)
  skipped : list Skip;
  skipped_total : Z;    (* u64 *)
}.

Record ErrorGraph := mk_ErrorGraph {
  nodes : gmap Z Failure;
  minted : Z;           (* u64 *)
}.

Definition graph_default : ErrorGraph := mk_ErrorGraph ∅ 0.

Inductive Claim :=
| Failed (failure : FailureId) (memory : Z)
| Unallocated (memory : Z).

Definition MAX_SKIPPED : nat := 16.

Definition with_nodes (f : gmap Z Failure → gmap Z Failure) (g : ErrorGraph) : ErrorGraph :=
  mk_ErrorGraph (f (nodes g)) (minted g).
Definition with_tagged (k : Z) (n : Failure) : Failure :=
  mk_Failure (error n) k (skipped n) (skipped_total n).

(** ** Operations *)
Definition insert_failure (e : ServerError) : M ErrorGraph FailureId :=
  g ← get;
  id ← lift (add_u64 (minted g) 1);
  _ ← put (mk_ErrorGraph (<[id := mk_Failure e 0 [] 0]> (nodes g)) id);
  mret id.

Definition record_skip (failure : FailureId) (record : Skip) : M ErrorGraph unit :=
  g ← get;
  match nodes g !! failure with
  | None => mret tt
  | Some n =>
      total ← lift (add_u64 (skipped_total n) 1);
      let kept := if decide (length (skipped n) = MAX_SKIPPED)
                  then tail (skipped n) else skipped n in
      modify (with_nodes <[failure := mk_Failure (error n) (tagged n) (kept ++ [record]) total]>)
  end.

Definition node_mut (failure : FailureId) : M ErrorGraph Failure :=
  g ← get; lift (nodes g !! failure).

Definition tag (failure : FailureId) : M ErrorGraph unit :=
  n ← node_mut failure;
  if tagged n =? u32_max then panic
  else modify (with_nodes <[failure := with_tagged (tagged n + 1) n]>).

(** [debug_assert!] panics in the builds modelled; the saturation behind it
    is what the others do. *)
Definition untag (failure : option FailureId) : M ErrorGraph unit :=
  match failure with
  | None => mret tt
  | Some failure =>
      n ← node_mut failure;
      if negb (0 <? tagged n) then panic
      else let k := sat_sub (tagged n) 1 in
           _ ← modify (with_nodes <[failure := with_tagged k n]>);
           if k =? 0 then modify (with_nodes (delete failure)) else mret tt
  end.

Definition replace (failure : FailureId) (e : ServerError) : M ErrorGraph unit :=
  g ← get;
  match nodes g !! failure with
  | Some n => modify (with_nodes
      <[failure := mk_Failure e (tagged n) (skipped n) (skipped_total n)]>)
  | None => mret tt
  end.

Definition prune (failure : FailureId) : M ErrorGraph unit :=
  g ← get;
  match nodes g !! failure with
  | Some n => if tagged n =? 0 then modify (with_nodes (delete failure)) else mret tt
  | None => mret tt
  end.

Definition error_of (g : ErrorGraph) (failure : FailureId) : option ServerError :=
  error <$> nodes g !! failure.
Definition graph_len (g : ErrorGraph) : nat := size (nodes g).
Definition graph_is_empty (g : ErrorGraph) : bool := bool_decide (graph_len g = 0%nat).

(** ** Reports *)
Definition memory_id_debug (m : Z) : string :=
  "ManagedMemoryId { value: " +:+ pretty m +:+ " }".
Definition hop (r : Skip) : string :=
  "skipped `" +:+ short_name (kernel r) +:+ "`: it needed memory "
  +:+ memory_id_debug (needed r) +:+ ", which carried the failure".
Definition dropped_hop (dropped : Z) : string :=
  "(" +:+ pretty dropped +:+
  " older skip record(s) were dropped; the walk may stop before the root)".

(** The [while let] of [report]: [upper] goes down on every turn, so [fuel]
    at least [upper] never runs out ([walk_enough]). *)
Fixpoint walk (fuel : nat) (records : list Skip) (target : Z) (upper : nat) : list Skip :=
  match fuel with
  | O => []
  | S fuel =>
      match rposition (λ r, bool_decide (target ∈ produced r)) (take upper records) with
      | None => []
      | Some found =>
          match records !! found with
          | Some record => record :: walk fuel records (needed record) found
          | None => []
          end
      end
  end.

Definition report (g : ErrorGraph) (failure memory : Z) : option ServerError :=
  n ← nodes g !! failure;
  let upper := length (skipped n) in
  let chain := hop <$> walk upper (skipped n) memory upper in
  let dropped := sat_sub (skipped_total n) (Z.of_nat (length (skipped n))) in
  let chain := if negb (bool_decide (chain = [])) && (0 <? dropped)
               then chain ++ [dropped_hop dropped] else chain in
  Some (Unwritten failure (tagged n) chain (error n)).

Definition unallocated (memory : Z) : ServerError :=
  Io (NotFound ("memory " +:+ memory_id_debug memory
                +:+ " was never allocated: the reservation behind it failed")).

Fixpoint reports_loop (g : ErrorGraph) (claims : list Claim)
    (seen : list Z) (errors : list ServerError) : list ServerError :=
  match claims with
  | [] => errors
  | Unallocated m :: claims => reports_loop g claims seen (errors ++ [unallocated m])
  | Failed f m :: claims =>
      if decide (f ∈ seen) then reports_loop g claims seen errors
      else reports_loop g claims (seen ++ [f])
             match report g f m with Some e => errors ++ [e] | None => errors end
  end.

Definition reports (g : ErrorGraph) (claims : list Claim) : result unit ServerError :=
  let errors := reports_loop g claims [] [] in
  if bool_decide (errors = []) then Ok tt else Err (Several errors).

Example short_name_ex :
  short_name (mk_KernelId "burn::kernel::Gelu<f32, x::Y>" 0) = "Gelu"%string.
Proof. reflexivity. Qed.

(** ** Reference counting

    Every effect of the carriers on the graph is a shift of the tag counts:
    [retag k] adds [k] to the count of a node, and drops the node when a
    decrement brings it to zero. *)
Definition retag (k : Z) (o : option Failure) : option Failure :=
  n ← o;
  if decide (k < 0 ∧ tagged n + k = 0) then None else Some (with_tagged (tagged n + k) n).

(** [g'] is [g] with every count shifted by [δ]. *)
Definition shifted (δ : Z → Z) (g g' : ErrorGraph) : Prop :=
  minted g' = minted g ∧ ∀ f, nodes g' !! f = retag (δ f) (nodes g !! f).

(** How many allocations carry [f], as the graph knows. *)
Definition tags (g : ErrorGraph) (f : FailureId) : Z :=
  match nodes g !! f with Some n => tagged n | None => 0 end.

Definition graph_wf (g : ErrorGraph) : Prop :=
  0 <= minted g ∧
  ∀ f n, nodes g !! f = Some n →
    1 <= f <= minted g ∧ 0 <= tagged n <= u32_max ∧
    (length (skipped n) <= MAX_SKIPPED)%nat ∧ Z.of_nat (length (skipped n)) <= skipped_total n.

Lemma with_tagged_id n : with_tagged (tagged n) n = n.
Proof. by destruct n. Qed.
Lemma with_tagged_twice j k n : with_tagged j (with_tagged k n) = with_tagged j n.
Proof. done. Qed.
Lemma tagged_with_tagged k n : tagged (with_tagged k n) = k.
Proof. done. Qed.

Lemma retag_0 o : retag 0 o = o.
Proof.
  destruct o as [n|]; [|done]. unfold retag; cbn. rewrite decide_False by lia.
  by rewrite Z.add_0_r, with_tagged_id.
Qed.

(** Releases compose while the count stays enough for them. *)
Lemma retag_retag j k o :
  (∀ n, o = Some n → j = 0 ∨ k = 0 ∨ (j <= 0 ∧ k <= 0 ∧ 0 <= tagged n + j + k)) →
  retag k (retag j o) = retag (j + k) o.
Proof.
  intros Hn. destruct (decide (j = 0)) as [->|Hj0]; [by rewrite retag_0|].
  destruct (decide (k = 0)) as [->|Hk0]; [by rewrite retag_0, Z.add_0_r|].
  destruct o as [n|]; [|done]. specialize (Hn n eq_refl). unfold retag; cbn.
  destruct (decide (j < 0 ∧ tagged n + j = 0)); cbn [mbind option_bind].
  - lia.
  - rewrite tagged_with_tagged.
    destruct (decide (k < 0 ∧ tagged n + j + k = 0)).
    + by rewrite decide_True by lia.
    + rewrite decide_False by lia. rewrite with_tagged_twice. do 2 f_equal. lia.
Qed.

Lemma shifted_refl g : shifted (λ _, 0) g g.
Proof. split; [done|]. intros f. by rewrite retag_0. Qed.

Lemma shifted_tags δ g g' f : shifted δ g g' → is_Some (nodes g !! f) →
  tags g' f = tags g f + δ f.
Proof.
  intros [_ Hs] [n Hn]. unfold tags. rewrite Hs, Hn. unfold retag; cbn.
  case_decide; [lia|]. done.
Qed.

Lemma shifted_trans δ1 δ2 g1 g2 g3 :
  (∀ f n, nodes g1 !! f = Some n →
     δ1 f = 0 ∨ δ2 f = 0 ∨ (δ1 f <= 0 ∧ δ2 f <= 0 ∧ 0 <= tagged n + δ1 f + δ2 f)) →
  shifted δ1 g1 g2 → shifted δ2 g2 g3 → shifted (λ f, δ1 f + δ2 f) g1 g3.
Proof.
  intros Hn [Hm1 Hs1] [Hm2 Hs2]. split; [congruence|].
  intros f. rewrite Hs2, Hs1. apply retag_retag; auto.
Qed.

Definition single (f : FailureId) (k : Z) : Z → Z := λ f', if decide (f' = f) then k else 0.

Lemma shifted_ext δ δ' g g' : (∀ f, δ f = δ' f) → shifted δ g g' → shifted δ' g g'.
Proof. intros He [Hm Hs]. split; [done|]. intros f. rewrite Hs. by rewrite He. Qed.

Lemma tags_pos g f : 0 < tags g f → ∃ n, nodes g !! f = Some n ∧ tagged n = tags g f.
Proof. unfold tags. destruct (nodes g !! f) as [n|]; [by exists n|lia]. Qed.

Lemma wp_node_mut f g n (Q : Failure → ErrorGraph → Prop) :
  nodes g !! f = Some n → Q n g → wp (node_mut f) g Q.
Proof. intros Hn HQ. apply wp_bind, wp_gets. by eapply wp_lift. Qed.

(** One more carrier. *)
Lemma wp_tag f g n :
  nodes g !! f = Some n → 0 <= tagged n < u32_max →
  wp (tag f) g (λ _ g', shifted (single f 1) g g').
Proof.
  intros Hn Ht. apply wp_bind. eapply wp_node_mut; [done|].
  destruct (Z.eqb_spec (tagged n) u32_max); [lia|]. apply wp_modify.
  split; [done|]. intros f'. unfold single; cbn. rewrite lookup_insert.
  case_decide; case_decide; subst; try done.
  - rewrite Hn. unfold retag; cbn. by rewrite decide_False by lia.
  - by rewrite retag_0.
Qed.

(** One fewer carrier; the node goes with the last. *)
Lemma wp_untag f g n :
  nodes g !! f = Some n → 0 < tagged n →
  wp (untag (Some f)) g (λ _ g', shifted (single f (-1)) g g').
Proof.
  intros Hn Ht. apply wp_bind. eapply wp_node_mut; [done|].
  rewrite (proj2 (Z.ltb_lt 0 (tagged n)) Ht); cbn [negb].
  apply wp_bind, wp_modify. unfold sat_sub. rewrite Z.max_r by lia.
  assert (∀ f', f' ≠ f → single f (-1) f' = 0) as Hne.
  { intros. unfold single. by rewrite decide_False. }
  assert (single f (-1) f = -1) as He by (unfold single; by rewrite decide_True).
  destruct (Z.eqb_spec (tagged n - 1) 0) as [H1|H1]; (split; [done|]); intros f'; cbn.
  - destruct (decide (f' = f)) as [->|Hf].
    + rewrite lookup_delete_eq, He, Hn. unfold retag; cbn. rewrite decide_True by lia. done.
    + rewrite lookup_delete_ne, lookup_insert_ne, Hne by done. by rewrite retag_0.
  - destruct (decide (f' = f)) as [->|Hf].
    + rewrite lookup_insert_eq, He, Hn. unfold retag; cbn. rewrite decide_False by lia. done.
    + rewrite lookup_insert_ne, Hne by done. by rewrite retag_0.
Qed.

(** ** The life of a failure id

    The operations the rest of the server can apply to the graph, as steps.
    A step that panics is no step. *)
Inductive graph_step : ErrorGraph → ErrorGraph → Prop :=
| step_insert g e id g' : insert_failure e g = Some (id, g') → graph_step g g'
| step_skipped g f r g' : record_skip f r g = Some (tt, g') → graph_step g g'
| step_tag g f g' : tag f g = Some (tt, g') → graph_step g g'
| step_untag g f g' : untag f g = Some (tt, g') → graph_step g g'
| step_replace g f e g' : replace f e g = Some (tt, g') → graph_step g g'
| step_prune g f g' : prune f g = Some (tt, g') → graph_step g g'.

(** What every operation does to the nodes: it mints the next id, or it
    changes or drops one node that is there. *)
Lemma graph_step_inv g g' : graph_step g g' → graph_wf g →
  (∃ e, minted g' = minted g + 1 ∧ nodes g' = <[minted g' := mk_Failure e 0 [] 0]> (nodes g)) ∨
  minted g' = minted g ∧
  (nodes g' = nodes g ∨ ∃ f n, nodes g !! f = Some n ∧
    (nodes g' = delete f (nodes g) ∨
     ∃ n', nodes g' = <[f := n']> (nodes g) ∧ 0 <= tagged n' <= u32_max ∧
       (length (skipped n') <= MAX_SKIPPED)%nat ∧
       Z.of_nat (length (skipped n')) <= skipped_total n')).
Proof.
  intros Hstep Hwf. destruct Hstep as [g e id g' H|g f r g' H|g f g' H|g [f|] g' H|g f e g' H|g f g' H].
  - left. unfold insert_failure, mbind, M_bind, get, lift, put, add_u64 in H.
    case_decide; [|done]. injection H as <- <-. by exists e.
  - right. unfold record_skip, mbind, M_bind, get, lift, add_u64 in H.
    destruct (nodes g !! f) as [n|] eqn:Hn; [|injection H as <-; auto].
    destruct (proj2 Hwf f n Hn) as (_ & Ht & Hl & Hs).
    case_decide; [|done]. injection H as <-. split; [done|].
    right. exists f, n. split; [done|]. right. eexists; split; [done|]; cbn.
    split; [done|]. rewrite length_app; cbn. case_decide as Hm.
    + unfold MAX_SKIPPED in *. destruct (skipped n); cbn in *; lia.
    + lia.
  - right. unfold tag, node_mut, mbind, M_bind, get, lift in H.
    destruct (nodes g !! f) as [n|] eqn:Hn; [|done].
    destruct (proj2 Hwf f n Hn) as (_ & Ht & Hl & Hs).
    destruct (Z.eqb_spec (tagged n) u32_max); [done|]. injection H as <-. split; [done|].
    right. exists f, n. split; [done|]. right. eexists; split; [done|]; cbn. lia.
  - right. unfold untag, node_mut, mbind, M_bind, get, lift in H.
    destruct (nodes g !! f) as [n|] eqn:Hn; [|done].
    destruct (proj2 Hwf f n Hn) as (_ & Ht & Hl & Hs).
    destruct (Z.ltb_spec 0 (tagged n)); [|done]; cbn [negb] in H.
    unfold modify, sat_sub in H. rewrite Z.max_r in H by lia.
    destruct (Z.eqb_spec (tagged n - 1) 0); injection H as <-; (split; [done|]);
      right; exists f, n; (split; [done|]).
    + left. cbn. by rewrite delete_insert_eq.
    + right. eexists; split; [done|]; cbn. lia.
  - injection H as <-. right; auto.
  - right. unfold replace, mbind, M_bind, get in H.
    destruct (nodes g !! f) as [n|] eqn:Hn; [|injection H as <-; auto].
    destruct (proj2 Hwf f n Hn) as (_ & Ht & Hl & Hs).
    injection H as <-. split; [done|]. right. exists f, n. split; [done|].
    right. by eexists.
  - right. unfold prune, mbind, M_bind, get in H.
    destruct (nodes g !! f) as [n|] eqn:Hn; [|injection H as <-; auto].
    destruct (tagged n =? 0); injection H as <-; [|auto].
    split; [done|]. right. exists f, n. auto.
Qed.

Lemma graph_step_wf g g' : graph_wf g → graph_step g g' → graph_wf g'.
Proof.
  intros Hwf Hstep. pose proof (graph_step_inv _ _ Hstep Hwf) as Hinv.
  destruct Hwf as [H0 Hn].
  destruct Hinv as [(e & Hm & Hg)|[Hm [Hg|(f & n & Hf & [Hg|(n' & Hg & Hok)])]]];
    (split; [lia|]); rewrite Hg; intros f' n0.
  - rewrite lookup_insert_Some. intros [[<- <-]|[_ Hold]]; cbn; [lia|].
    apply Hn in Hold. lia.
  - rewrite Hm. apply Hn.
  - rewrite lookup_delete_Some. intros [_ Hold]. rewrite Hm. by apply Hn.
  - rewrite lookup_insert_Some. intros [[<- <-]|[_ Hold]]; [|rewrite Hm; by apply Hn].
    apply Hn in Hf. rewrite Hm. tauto.
Qed.

Lemma graph_step_ids g g' : graph_wf g → graph_step g g' →
  minted g <= minted g' ∧ ∀ f, f <= minted g → nodes g !! f = None → nodes g' !! f = None.
Proof.
  intros Hwf Hstep. pose proof (graph_step_inv _ _ Hstep Hwf) as Hinv.
  destruct Hinv as [(e & Hm & Hg)|[Hm [Hg|(f & n & Hf & [Hg|(n' & Hg & Hok)])]]];
    (split; [lia|]); rewrite Hg; intros f' Hle Hnone; try done.
  - rewrite lookup_insert_ne by lia. done.
  - by rewrite lookup_delete_None; right.
  - rewrite lookup_insert_ne; [done|]. intros ->. congruence.
Qed.

(** Failure ids are never reused.  Whatever the servers do from a
    well-formed graph, the graph stays well formed (counts in range, at most
    sixteen skip records a node) and an id that was handed out and whose node
    has gone never names a node again. *)
Theorem failure_ids_never_reused g g' :
  graph_wf g → rtc graph_step g g' →
  graph_wf g' ∧ minted g <= minted g' ∧
  ∀ f, f <= minted g → nodes g !! f = None → nodes g' !! f = None.
Proof.
  intros Hwf Hsteps. induction Hsteps as [g|g1 g2 g3 Hs _ IH]; [auto with lia|].
  destruct (graph_step_ids _ _ Hwf Hs) as [Hm Hd].
  destruct (IH (graph_step_wf _ _ Hwf Hs)) as (Hwf3 & Hm3 & Hd3).
  split; [done|]. split; [lia|]. intros f Hf Hn. apply Hd3; [lia|auto].
Qed.

Lemma graph_default_wf : graph_wf graph_default.
Proof. split; cbn; [lia|]. intros f n. by rewrite lookup_empty. Qed.

Lemma failure_ids_never_reused_witness :
  let '(_, g1) := default (0, graph_default) (insert_failure TornDown graph_default) in
  let '(_, g2) := default (tt, g1) (prune 1 g1) in
  let '(_, g3) := default (0, g2) (insert_failure TornDown g2) in
  nodes g2 !! 1 = None ∧ nodes g3 !! 1 = None.
Proof.
  split; [vm_compute; reflexivity|].
  apply (failure_ids_never_reused (mk_ErrorGraph ∅ 1)).
  - split; cbn; [lia|]. intros f n. by rewrite lookup_empty.
  - eapply rtc_once, (step_insert _ TornDown 2). vm_compute. reflexivity.
  - cbn. lia.
  - apply lookup_empty.
Defined.

(** ** Reports *)

(** The path a report walks: from [target], the newest record below [upper]
    that produced it, then from the buffer that record needed, down from that
    record; it ends at a buffer no record below produced. *)
Inductive back_path (records : list Skip) : Z → nat → list Skip → Prop :=
| path_end target upper :
    (∀ i r, (i < upper)%nat → records !! i = Some r → target ∉ produced r) →
    back_path records target upper []
| path_hop target upper i r p :
    (i < upper)%nat → records !! i = Some r → target ∈ produced r →
    (∀ j r', (i < j < upper)%nat → records !! j = Some r' → target ∉ produced r') →
    back_path records (needed r) i p → back_path records target upper (r :: p).

Lemma back_path_unique records target upper p q :
  back_path records target upper p → back_path records target upper q → p = q.
Proof.
  intros Hp. revert q.
  induction Hp as [t u Hno|t u i r p Hi Hr Ht Hafter Hp IH]; intros q Hq.
  - destruct Hq as [|t u i r q Hi Hr Ht]; [done|]. by edestruct Hno.
  - destruct Hq as [t u Hno|t u i' r' q Hi' Hr' Ht' Hafter' Hq].
    { by edestruct Hno. }
    assert (i = i') as <-.
    { destruct (Nat.lt_trichotomy i i') as [Hlt|[->|Hlt]]; [|done|]; exfalso.
      - by apply (Hafter i' r'); [lia| |].
      - by apply (Hafter' i r); [lia| |]. }
    simplify_eq. f_equal. by apply IH.
Qed.

Lemma walk_enough records fuel target upper :
  (upper <= fuel)%nat → back_path records target upper (walk fuel records target upper).
Proof.
  revert target upper. induction fuel as [|fuel IH]; intros target upper Hle; cbn.
  { apply path_end. intros; lia. }
  destruct (rposition _ (take upper records)) as [i|] eqn:Hr.
  - apply rposition_Some in Hr as [(r & Hi & Hin) Hafter].
    apply lookup_take_Some in Hi as [Hi Hlt]. rewrite Hi.
    apply bool_decide_eq_true in Hin.
    eapply path_hop; eauto; [|apply IH; lia].
    intros j r' Hj Hr'. specialize (Hafter j r' ltac:(lia)).
    rewrite lookup_take_lt in Hafter by lia. specialize (Hafter Hr').
    by rewrite bool_decide_eq_false in Hafter.
  - apply rposition_None in Hr. apply path_end. intros i r Hi Hr'.
    rewrite Forall_lookup in Hr. specialize (Hr i r).
    rewrite lookup_take_lt in Hr by lia. specialize (Hr Hr').
    by rewrite bool_decide_eq_false in Hr.
Qed.

(** A report of a failure the graph holds exists, and names that failure,
    its carrier count, its root error and exactly the path of skipped
    launches that leads from the buffer read back towards the root; it says
    how many older records are missing when some are and the path is not
    empty.  In particular the walk ends. *)
Theorem report_names_the_path g f m n path :
  nodes g !! f = Some n →
  back_path (skipped n) m (length (skipped n)) path →
  report g f m = Some (Unwritten f (tagged n)
    ((hop <$> path) ++
     if decide (path ≠ [] ∧ Z.of_nat (length (skipped n)) < skipped_total n)
     then [dropped_hop (skipped_total n - Z.of_nat (length (skipped n)))] else [])
    (error n)).
Proof.
  intros Hn Hp. unfold report. rewrite Hn. cbn [mbind option_bind].
  rewrite (back_path_unique _ _ _ _ _ (walk_enough _ _ m _ (le_n _)) Hp).
  do 2 f_equal. unfold sat_sub.
  destruct path as [|r p]; cbn [fmap list_fmap].
  - rewrite bool_decide_true by done. rewrite decide_False by tauto. done.
  - rewrite bool_decide_false by done. cbn [negb andb].
    destruct (Z.ltb_spec 0 (Z.max 0 (skipped_total n - Z.of_nat (length (skipped n))))).
    + rewrite decide_True by (split; [done|lia]). by rewrite Z.max_r by lia.
    + rewrite decide_False by (intros [_ ?]; lia). by rewrite app_nil_r.
Qed.

Lemma report_names_the_path_witness :
  let k := mk_KernelId "burn::Gelu" 0 in
  let r1 := mk_Skip k 1 [2] in let r2 := mk_Skip k 2 [3] in
  report (mk_ErrorGraph {[7 := mk_Failure TornDown 1 [r1; r2] 5]} 7) 7 3 =
  Some (Unwritten 7 1 [hop r2; hop r1; dropped_hop 3] TornDown).
Proof.
  apply (report_names_the_path _ 7 3
           (mk_Failure TornDown 1 [mk_Skip (mk_KernelId "burn::Gelu" 0) 1 [2];
                                   mk_Skip (mk_KernelId "burn::Gelu" 0) 2 [3]] 5)
           [mk_Skip (mk_KernelId "burn::Gelu" 0) 2 [3]; mk_Skip (mk_KernelId "burn::Gelu" 0) 1 [2]]).
  - reflexivity.
  - apply (path_hop _ 3 2 1); [lia|reflexivity|by left|intros; lia|].
    apply (path_hop _ 2 1 0); [lia|reflexivity|by left|intros; lia|].
    apply path_end. intros; lia.
Defined.

(** The claims a read answers for: every unallocated buffer, and the first
    claim of each failure. *)
Fixpoint distinct_claims (seen : list Z) (claims : list Claim) : list Claim :=
  match claims with
  | [] => []
  | Unallocated m :: claims => Unallocated m :: distinct_claims seen claims
  | Failed f m :: claims =>
      if decide (f ∈ seen) then distinct_claims seen claims
      else Failed f m :: distinct_claims (f :: seen) claims
  end.
Definition claim_error (g : ErrorGraph) (c : Claim) : option ServerError :=
  match c with Unallocated m => Some (unallocated m) | Failed f m => report g f m end.

Lemma distinct_claims_ext claims seen seen' :
  (∀ f, f ∈ seen ↔ f ∈ seen') → distinct_claims seen claims = distinct_claims seen' claims.
Proof.
  revert seen seen'. induction claims as [|[f m|m] claims IH]; intros seen seen' He; cbn.
  - done.
  - destruct (decide (f ∈ seen)) as [Hs|Hs]; destruct (decide (f ∈ seen')) as [Hs'|Hs'];
      [by apply IH|by apply He in Hs|by apply He in Hs'|].
    f_equal. apply IH. intros f'. rewrite !elem_of_cons, He. done.
  - f_equal. by apply IH.
Qed.

Lemma reports_loop_spec g claims seen errors :
  reports_loop g claims seen errors =
  errors ++ omap (claim_error g) (distinct_claims seen claims).
Proof.
  revert seen errors. induction claims as [|[f m|m] claims IH]; intros seen errors; cbn.
  - by rewrite app_nil_r.
  - case_decide; [by apply IH|]. rewrite IH.
    rewrite (distinct_claims_ext claims (seen ++ [f]) (f :: seen)) by set_solver.
    cbn. destruct (report g f m); cbn; [by rewrite <- app_assoc|done].
  - rewrite IH. cbn. by rewrite <- app_assoc.
Qed.

Lemma report_is_Some g f m : is_Some (report g f m) ↔ is_Some (nodes g !! f).
Proof.
  unfold report. destruct (nodes g !! f) as [n|]; cbn; [by split; eauto|].
  by split; intros [? ?].
Qed.

Lemma reports_result g claims :
  (reports g claims = Ok tt ↔
     ∀ c, c ∈ claims → ∃ f m, c = Failed f m ∧ nodes g !! f = None) ∧
  (∀ e, reports g claims = Err e →
     e = Several (omap (claim_error g) (distinct_claims [] claims))).
Proof.
  unfold reports. rewrite reports_loop_spec. cbn [app].
  set (es := omap _ _). assert (es = [] ↔ ∀ c, c ∈ claims → claim_error g c = None) as Hes.
  { transitivity (∀ c, c ∈ claims → (∀ f m, c = Failed f m → f ∉ (@nil Z)) →
                  claim_error g c = None); [|by split; intros H c Hc; [apply H|]; auto; set_solver].
    unfold es. clear es. generalize (@nil Z) as seen.
    induction claims as [|[f m|m] claims IH]; intros seen; cbn.
    - split; [set_solver|done].
    - case_decide as Hs.
      + rewrite IH. split.
        * intros H c [->|Hc]%elem_of_cons Hns; [|by apply H]. by edestruct (Hns f m).
        * intros H c Hc Hns. apply H; [by right|done].
      + cbn. destruct (report g f m) eqn:Hr.
        * split; [done|]. intros H. specialize (H (Failed f m) ltac:(left)). cbn in H.
          rewrite H in Hr; [done|]. by intros ? ? [= -> ->].
        * rewrite IH. assert (nodes g !! f = None) as Hf.
          { destruct (nodes g !! f) eqn:Hf; [|done].
            destruct (proj2 (report_is_Some g f m)) as [? ?]; [by eexists|congruence]. }
          split; intros H c.
          -- intros [->|Hc]%elem_of_cons Hns; [done|].
             destruct c as [f' m'|m']; [|by apply H].
             destruct (decide (f' = f)) as [->|Hne].
             ++ cbn. unfold report. by rewrite Hf.
             ++ apply H; [done|]. intros ? ? [= -> ->].
                rewrite not_elem_of_cons. split; [done|]. by eapply Hns.
          -- intros Hc Hns. apply H; [by right|]. intros ? ? ->.
             specialize (Hns _ _ eq_refl). set_solver.
    - split; [done|]. intros H. exfalso.
      by specialize (H (Unallocated m) ltac:(left) ltac:(done)). }
  split.
  - case_bool_decide as He; [|split; [done|]; intros H; exfalso; apply He, Hes].
    + split; [|done]. intros _ c Hc. rewrite Hes in He. specialize (He c Hc).
      destruct c as [f m|m]; [|done]. exists f, m. split; [done|].
      destruct (nodes g !! f) eqn:Hf; [|done].
      destruct (proj2 (report_is_Some g f m)) as [? Hr]; [by eexists|]. cbn in He. congruence.
    + intros c Hc. destruct (H c Hc) as (f & m & -> & Hf). cbn. unfold report. by rewrite Hf.
  - intros e. case_bool_decide; [done|]. by intros [= <-].
Qed.

(** The answer to a read: the bytes are trusted exactly when no buffer
    was left unallocated and no claim names a failure the graph still holds;
    otherwise the read fails with one error per distinct failure and one per
    unallocated buffer, in the order the claims were found. *)
Theorem reports_answer g claims :
  (reports g claims = Ok tt ↔
     ∀ c, c ∈ claims → ∃ f m, c = Failed f m ∧ nodes g !! f = None) ∧
  (∀ e, reports g claims = Err e →
     e = Several (omap (claim_error g) (distinct_claims [] claims))).
Proof. apply reports_result. Qed.
