(* ===== verification/Taint.v ===== *)
(** * Taint

    [cubecl-server/src/memory_management/taint.rs]: the byte ranges of one
    allocation that failures claim, each failure tagging its node of the
    error graph once while it claims at least one byte.

    The abstract state of a taint is the map [owner] from bytes to the failure
    that claims them.  [subtract], [add], [taint], [written] and [clear] are
    shown to implement the updates of that map, and to keep the counts of the
    graph exact. *)

From S2P Require Export ErrorGraph.
From stdpp Require Import list.
#[local] Open Scope Z_scope.

(** A [Range<u64>]: from the first to the second, excluded. *)
Abbreviation Range := (Z * Z)%type (only parsing).

Record Tainted := mk_Tainted {
  failure : FailureId;
  ranges : list Range;
}.
Record Taint := mk_Taint { entries : list Tainted }.
Definition taint_default : Taint := mk_Taint [].

Definition range_is_empty (r : Range) : bool := negb (r.1 <? r.2).
Definition overlaps (a b : Range) : bool := Z.max a.1 b.1 <? Z.min a.2 b.2.

(** The [while index < ranges.len()] of [subtract].  Each turn passes or
    consumes one of the ranges that were there at the start, so their number
    is fuel enough ([subtract_loop_spec]). *)
Fixpoint subtract_loop (fuel : nat) (ranges : list Range) (index : nat) (cut : Range) :
    list Range :=
  match fuel with
  | O => ranges
  | S fuel =>
      match ranges !! index with
      | None => ranges
      | Some held =>
          if negb (overlaps held cut) then subtract_loop fuel ranges (S index) cut
          else
            let left := (held.1, Z.min cut.1 held.2) in
            let right := (Z.max cut.2 held.1, held.2) in
            match range_is_empty left, range_is_empty right with
            | true, true => subtract_loop fuel (vec_remove index ranges) index cut
            | false, true => subtract_loop fuel (<[index := left]> ranges) (S index) cut
            | true, false => subtract_loop fuel (<[index := right]> ranges) (S index) cut
            | false, false =>
                subtract_loop fuel (vec_insert (S index) right (<[index := left]> ranges))
                  (S (S index)) cut
            end
      end
  end.
Definition subtract (ranges : list Range) (cut : Range) : list Range :=
  subtract_loop (length ranges) ranges 0 cut.

(** The [retain] of [add], whose closure grows [new] as it fuses. *)
Fixpoint retain_apart (ranges : list Range) (new : Range) : list Range * Range :=
  match ranges with
  | [] => ([], new)
  | held :: ranges =>
      if (held.1 <=? new.2) && (new.1 <=? held.2)
      then retain_apart ranges (Z.min new.1 held.1, Z.max new.2 held.2)
      else let '(kept, new) := retain_apart ranges new in (held :: kept, new)
  end.
Definition add (ranges : list Range) (new : Range) : list Range :=
  let '(ranges, new) := retain_apart ranges new in
  let at_ := default (length ranges) (position (λ held : Range, new.2 <? held.1) ranges) in
  vec_insert at_ new ranges.

(** [retain_mut]: cut [range] out of the entries, [keep] excepted, and
    release the failures left with nothing. *)
Fixpoint cut_entries (keep : option FailureId) (range : Range) (l : list Tainted) :
    M ErrorGraph (list Tainted) :=
  match l with
  | [] => mret []
  | e :: l =>
      if bool_decide (keep = Some (failure e)) then (e ::.) <$> cut_entries keep range l
      else
        let rest := subtract (ranges e) range in
        if bool_decide (rest = [])
        then _ ← untag (Some (failure e)); cut_entries keep range l
        else (mk_Tainted (failure e) rest ::.) <$> cut_entries keep range l
  end.

(** The first entry of [f], its ranges updated by [g]. *)
Fixpoint alter_first (f : FailureId) (g : list Range → list Range) (l : list Tainted) :
    option (list Tainted) :=
  match l with
  | [] => None
  | e :: l => if decide (failure e = f) then Some (mk_Tainted (failure e) (g (ranges e)) :: l)
              else (e ::.) <$> alter_first f g l
  end.

Definition taint (t : Taint) (range : Range) (f : FailureId) : M ErrorGraph Taint :=
  if range_is_empty range then mret t
  else
    l ← cut_entries (Some f) range (entries t);
    match alter_first f (λ rs, add rs range) l with
    | Some l => mret (mk_Taint l)
    | None => _ ← tag f; mret (mk_Taint (l ++ [mk_Tainted f [range]]))
    end.

Definition written (t : Taint) (range : Range) : M ErrorGraph Taint :=
  if range_is_empty range then mret t
  else mk_Taint <$> cut_entries None range (entries t).

(** [Taint::failure] *)
Definition failure_in (t : Taint) (range : Range) : option FailureId :=
  failure <$> find (λ e, existsb (λ held, overlaps held range) (ranges e)) (entries t).

(** [Taint::clear] takes the entries and releases them one by one. *)
Fixpoint untag_all (l : list Tainted) : M ErrorGraph unit :=
  match l with
  | [] => mret tt
  | e :: l => _ ← untag (Some (failure e)); untag_all l
  end.
Definition clear (t : Taint) : M ErrorGraph Taint :=
  _ ← untag_all (entries t); mret taint_default.

Definition is_clean (t : Taint) : bool := bool_decide (entries t = []).

(** ** Ranges as sets of bytes *)
Definition covers (rs : list Range) (b : Z) : Prop := Exists (λ r, r.1 <= b < r.2) rs.
#[global] Instance covers_dec rs b : Decision (covers rs b).
Proof. unfold covers. apply _. Defined.

(** Sorted, never empty, never touching. *)
Inductive ranges_from : Z → list Range → Prop :=
| ranges_nil lo : ranges_from lo []
| ranges_cons lo s e rs : lo <= s → s < e → ranges_from (e + 1) rs → ranges_from lo ((s, e) :: rs).
Definition ranges_ok (rs : list Range) : Prop := ranges_from 0 rs.

Example subtract_ex : subtract [(0, 10); (20, 30); (40, 50)] (5, 42) = [(0, 5); (42, 50)].
Proof. reflexivity. Qed.
Example subtract_split_ex : subtract [(0, 100)] (40, 60) = [(0, 40); (60, 100)].
Proof. reflexivity. Qed.
Example add_ex : add [(0, 10); (20, 30)] (10, 20) = [(0, 30)].
Proof. reflexivity. Qed.


(** ** [subtract] cuts each range on its own *)
Definition cut_range (cut held : Range) : list Range :=
  if overlaps held cut
  then filter (λ r : Range, r.1 < r.2)
         [(held.1, Z.min cut.1 held.2); (Z.max cut.2 held.1, held.2)]
  else [held].

Lemma subtract_loop_spec fuel pre rest cut :
  (length rest <= fuel)%nat →
  subtract_loop fuel (pre ++ rest) (length pre) cut = pre ++ flat_map (cut_range cut) rest.
Proof.
  revert pre rest. induction fuel as [|fuel IH]; intros pre rest Hf; cbn [subtract_loop].
  { destruct rest; [done|cbn in Hf; lia]. }
  destruct rest as [|held rest]; [by rewrite app_nil_r, lookup_end, app_nil_r|].
  rewrite lookup_middle. cbn in Hf. cbn [flat_map].
  assert (∀ done, subtract_loop fuel (pre ++ done ++ rest) (length pre + length done) cut =
    pre ++ done ++ flat_map (cut_range cut) rest) as Hnext.
  { intros done. rewrite app_assoc, <- length_app, IH by lia. by rewrite app_assoc. }
  unfold cut_range at 1. destruct (overlaps held cut); cbn [negb].
  2: { rewrite <- (Hnext [held]). f_equal. cbn; lia. }
  unfold range_is_empty; cbn [fst snd].
  rewrite !filter_cons, filter_nil; cbn [fst snd].
  destruct (Z.ltb_spec held.1 (Z.min cut.1 held.2)); cbn [negb];
    destruct (Z.ltb_spec (Z.max cut.2 held.1) held.2); cbn [negb];
    repeat case_decide; try lia.
  - rewrite insert_middle, vec_insert_middle, <- Hnext. f_equal. cbn; lia.
  - rewrite insert_middle, <- Hnext. f_equal. cbn; lia.
  - rewrite insert_middle, <- Hnext. f_equal. cbn; lia.
  - rewrite vec_remove_middle. rewrite <- (Hnext []). f_equal. cbn; lia.
Qed.

Lemma subtract_flat_map rs cut : subtract rs cut = flat_map (cut_range cut) rs.
Proof. apply (subtract_loop_spec _ []). lia. Qed.

(** ** What [subtract] and [add] do to the bytes *)
Lemma covers_app rs1 rs2 b : covers (rs1 ++ rs2) b ↔ covers rs1 b ∨ covers rs2 b.
Proof. apply Exists_app. Qed.
Lemma covers_cons r rs b : covers (r :: rs) b ↔ r.1 <= b < r.2 ∨ covers rs b.
Proof. apply Exists_cons. Qed.
Lemma covers_nil b : ¬ covers [] b.
Proof. intros H. by apply Exists_nil in H. Qed.

Lemma ranges_from_weaken lo lo' rs : lo' <= lo → ranges_from lo rs → ranges_from lo' rs.
Proof. intros Hl H. destruct H; constructor; try done. lia. Qed.
Lemma ranges_from_covers lo rs b : ranges_from lo rs → covers rs b → lo <= b.
Proof.
  induction 1 as [lo|lo s e rs Hlo Hse _ IH]; [by intros ?%covers_nil|].
  rewrite covers_cons; cbn. intros [?|?%IH]; lia.
Qed.

Lemma cut_range_covers cut held b :
  cut.1 < cut.2 → covers (cut_range cut held) b ↔ held.1 <= b < held.2 ∧ ¬ cut.1 <= b < cut.2.
Proof.
  intros Hc. unfold cut_range, overlaps.
  destruct (Z.ltb_spec (Z.max held.1 cut.1) (Z.min held.2 cut.2)).
  - rewrite !filter_cons, filter_nil; cbn [fst snd].
    repeat case_decide; rewrite ?covers_cons; cbn [fst snd];
      pose proof (covers_nil b); intuition lia.
  - rewrite covers_cons. pose proof (covers_nil b). intuition lia.
Qed.

Lemma subtract_covers rs cut b :
  cut.1 < cut.2 → covers (subtract rs cut) b ↔ covers rs b ∧ ¬ cut.1 <= b < cut.2.
Proof.
  intros Hc. rewrite subtract_flat_map. induction rs as [|r rs IH]; cbn.
  { pose proof (covers_nil b). tauto. }
  rewrite covers_app, covers_cons, IH, cut_range_covers by done. tauto.
Qed.

Lemma cut_range_from lo cut s e rs :
  cut.1 < cut.2 → lo <= s → s < e → ranges_from (e + 1) rs →
  ranges_from lo (cut_range cut (s, e) ++ rs).
Proof.
  intros Hc Hlo Hse Hrs. unfold cut_range, overlaps; cbn [fst snd].
  destruct (Z.ltb_spec (Z.max s cut.1) (Z.min e cut.2)); [|by constructor].
  rewrite !filter_cons, filter_nil; cbn [fst snd].
  repeat case_decide; cbn [app];
    repeat (constructor; [lia|lia|]); (eapply ranges_from_weaken; [|done]); lia.
Qed.

Lemma subtract_from lo rs cut :
  cut.1 < cut.2 → ranges_from lo rs → ranges_from lo (subtract rs cut).
Proof.
  intros Hc. rewrite subtract_flat_map. induction 1 as [lo|lo s e rs Hlo Hse _ IH]; cbn.
  - constructor.
  - by apply cut_range_from.
Qed.

(** Two ranges with at least one byte between them. *)
Definition apart (r1 r2 : Range) : Prop := r1.2 < r2.1 ∨ r2.2 < r1.1.

Lemma retain_apart_spec lo rs new kept new' :
  retain_apart rs new = (kept, new') → ranges_from lo rs → new.1 < new.2 →
  ranges_from lo kept ∧ Z.min lo new.1 <= new'.1 <= new.1 ∧ new.2 <= new'.2 ∧
  (new.2 < lo → new' = new) ∧ Forall (λ r, apart r new') kept ∧
  ∀ b, covers kept b ∨ new'.1 <= b < new'.2 ↔ covers rs b ∨ new.1 <= b < new.2.
Proof.
  intros Hr Hf. revert new kept new' Hr.
  induction Hf as [lo|lo s e rs Hlo Hse Hrs IH]; intros new kept new' Hr Hne; cbn in Hr.
  { injection Hr as <- <-. split_and!; try lia; try done; by constructor. }
  destruct (Z.leb_spec s new.2) as [H1|H1]; destruct (Z.leb_spec new.1 e) as [H2|H2];
    cbn [andb] in Hr.
  1: { destruct (IH _ _ _ Hr) as (Hk & Hlo' & Hhi & _ & Hap & Hcov); cbn [fst snd] in *; [lia|].
       split_and!; try lia; try done.
       - eapply ranges_from_weaken; [|done]. lia.
       - intros b. rewrite Hcov, covers_cons; cbn. intuition lia. }
  all: destruct (retain_apart rs new) as [kept0 new0] eqn:Hr0; injection Hr as <- <-;
    destruct (IH _ _ _ Hr0 Hne) as (Hk & Hlo' & Hhi & Hsame & Hap & Hcov).
  all: split_and!; try lia; try done.
  all: try (intros b; rewrite !covers_cons; cbn [fst snd]; specialize (Hcov b); tauto).
  all: try (by constructor).
  all: try (intros ?; apply Hsame; lia).
  all: constructor; [unfold apart; cbn [fst snd]|done].
  - left. lia.
  - rewrite Hsame by lia. lia.
Qed.

Lemma insert_apart lo kept new :
  ranges_from lo kept → lo <= new.1 → new.1 < new.2 → Forall (λ r, apart r new) kept →
  let l := vec_insert (default (length kept) (position (λ held : Range, new.2 <? held.1) kept))
             new kept in
  ranges_from lo l ∧ ∀ b, covers l b ↔ covers kept b ∨ new.1 <= b < new.2.
Proof.
  intros Hk. induction Hk as [lo|lo s e rs Hlo Hse Hrs IH]; intros Hl Hn Hap; cbn zeta.
  { cbn. destruct new as [ns ne]. split.
    - constructor; [done|done|constructor].
    - intros b. rewrite covers_cons. cbn. tauto. }
  rewrite Forall_cons in Hap. destruct Hap as [Hse' Hap]. unfold apart in Hse'; cbn in Hse'.
  cbn [position length fst snd]. destruct (Z.ltb_spec new.2 s) as [Hlt|Hge]; cbn [default].
  - unfold vec_insert, id; cbn [take drop app].
    destruct new as [ns ne]; cbn [fst snd] in *. split.
    + constructor; [done|done|]. constructor; [lia|done|done].
    + intros b. rewrite (covers_cons (ns, ne)). cbn [fst snd]. tauto.
  - destruct (IH ltac:(lia) Hn Hap) as [Hfrom Hcov]. set (p := position _ rs) in *.
    assert (vec_insert (default (S (length rs)) (S <$> p)) new ((s, e) :: rs) =
      (s, e) :: vec_insert (default (length rs) p) new rs) as -> by (by destruct p).
    split; [by constructor|]. intros b. rewrite !covers_cons, Hcov. cbn [fst snd]. tauto.
Qed.

Lemma add_spec rs new :
  ranges_ok rs → 0 <= new.1 < new.2 →
  ranges_ok (add rs new) ∧ ∀ b, covers (add rs new) b ↔ covers rs b ∨ new.1 <= b < new.2.
Proof.
  intros Hrs Hn. unfold add. destruct (retain_apart rs new) as [kept new'] eqn:Hr.
  destruct (retain_apart_spec _ _ _ _ _ Hr Hrs) as (Hk & Hlo & Hhi & _ & Hap & Hcov); [lia|].
  destruct (insert_apart 0 kept new') as [Hfrom Hins]; try done; try lia.
  split; [done|]. intros b. by rewrite Hins, Hcov.
Qed.

Lemma subtract_ok rs cut : cut.1 < cut.2 → ranges_ok rs → ranges_ok (subtract rs cut).
Proof. apply subtract_from. Qed.
#[export] Hint Resolve subtract_ok : core.

(** ** Carriers *)

(** The failures a list of entries carries; each tags its node once. *)
Definition carried (l : list Tainted) : list FailureId := failure <$> l.
Definition carries (l : list Tainted) (f : FailureId) : Z :=
  if decide (f ∈ carried l) then 1 else 0.
(** The graph counts every failure the entries carry. *)
Definition counted (g : ErrorGraph) (l : list Tainted) : Prop :=
  ∀ f, f ∈ carried l → 0 < tags g f.

Definition entry_ok (e : Tainted) : Prop := ranges_ok (ranges e) ∧ ranges e ≠ [].
(** No byte has two claims. *)
Definition claims (l : list Tainted) (b : Z) (f : FailureId) : Prop :=
  ∃ e, e ∈ l ∧ failure e = f ∧ covers (ranges e) b.
Definition exclusive (l : list Tainted) : Prop :=
  ∀ b f f', claims l b f → claims l b f' → f = f'.

Record entries_ok (l : list Tainted) : Prop := mk_entries_ok {
  ok_failures : NoDup (carried l);
  ok_ranges : Forall entry_ok l;
  ok_exclusive : exclusive l;
}.
Definition taint_ok (t : Taint) : Prop := entries_ok (entries t).

(** The failure that claims a byte: the abstract state of a taint. *)
Definition owner (t : Taint) (b : Z) : option FailureId :=
  failure <$> head (filter (λ e, covers (ranges e) b) (entries t)).

Lemma claims_nil b f : ¬ claims [] b f.
Proof. intros (e & He & _). by apply not_elem_of_nil in He. Qed.
Lemma claims_cons e l b f :
  claims (e :: l) b f ↔ (failure e = f ∧ covers (ranges e) b) ∨ claims l b f.
Proof.
  unfold claims. setoid_rewrite elem_of_cons. split.
  - intros (e' & [->|He] & Hf & Hc); [by left|right; eauto].
  - intros [[Hf Hc]|(e' & He & Hf & Hc)]; eauto.
Qed.
Lemma claims_app l1 l2 b f : claims (l1 ++ l2) b f ↔ claims l1 b f ∨ claims l2 b f.
Proof.
  induction l1 as [|e l1 IH]; cbn.
  - pose proof (claims_nil b f). tauto.
  - rewrite !claims_cons, IH. tauto.
Qed.
Lemma claims_carried l b f : claims l b f → f ∈ carried l.
Proof. intros (e & He & <- & _). by apply list_elem_of_fmap_2. Qed.

Lemma carries_cons e l f :
  failure e ∉ carried l → carries (e :: l) f = single (failure e) 1 f + carries l f.
Proof.
  intros Hn. unfold carries, single; cbn. destruct (decide (f = failure e)) as [->|Hne].
  - rewrite decide_True by (by left). by rewrite decide_False.
  - rewrite (decide_ext _ (f ∈ carried l)); [done|]. rewrite elem_of_cons. tauto.
Qed.

Lemma owner_Some t b f : taint_ok t → owner t b = Some f ↔ claims (entries t) b f.
Proof.
  intros Hok. unfold owner. destruct t as [l]; cbn in *. split.
  - intros Ho. apply fmap_Some in Ho as (e & He & ->). exists e.
    apply head_Some_elem_of in He. apply list_elem_of_filter in He as [Hc He]. done.
  - intros (e & He & <- & Hc).
    destruct (filter (λ e, covers (ranges e) b) l) as [|e' l'] eqn:Hf.
    + assert (e ∈ filter (λ e, covers (ranges e) b) l) as Hin by (by apply list_elem_of_filter).
      rewrite Hf in Hin. by apply not_elem_of_nil in Hin.
    + cbn. f_equal. assert (e' ∈ filter (λ e, covers (ranges e) b) l) as Hin.
      { rewrite Hf. by left. }
      apply list_elem_of_filter in Hin as [Hc' He'].
      apply (ok_exclusive l Hok b); [by exists e'|by exists e].
Qed.

Lemma owner_None t b : taint_ok t → owner t b = None ↔ ∀ f, ¬ claims (entries t) b f.
Proof.
  intros Hok. rewrite eq_None_not_Some. split.
  - intros Hn f Hc. apply Hn. exists f. by apply owner_Some.
  - intros Hn [f Hf]. apply (Hn f). by apply owner_Some.
Qed.

(** ** [retain_mut] cuts the range out of the other failures' entries *)
Fixpoint cut_pure (keep : option FailureId) (range : Range) (l : list Tainted) : list Tainted :=
  match l with
  | [] => []
  | e :: l =>
      if decide (keep = Some (failure e)) then e :: cut_pure keep range l
      else let rest := subtract (ranges e) range in
           if decide (rest = []) then cut_pure keep range l
           else mk_Tainted (failure e) rest :: cut_pure keep range l
  end.

Lemma cut_pure_carried keep range l f :
  f ∈ carried (cut_pure keep range l) → f ∈ carried l.
Proof.
  induction l as [|e l IH]; cbn; [done|].
  repeat case_decide; cbn; rewrite ?elem_of_cons; tauto.
Qed.

Lemma cut_pure_kept f range l : f ∈ carried l → f ∈ carried (cut_pure (Some f) range l).
Proof.
  induction l as [|e l IH]; cbn; [done|]. rewrite elem_of_cons.
  intros [->|Hf]; [rewrite decide_True by done; by left|].
  repeat case_decide; cbn; rewrite ?elem_of_cons; auto.
Qed.

Lemma cut_pure_claims keep range l b f : range.1 < range.2 →
  claims (cut_pure keep range l) b f ↔
  claims l b f ∧ (keep = Some f ∨ ¬ range.1 <= b < range.2).
Proof.
  intros Hr. induction l as [|e l IH]; cbn.
  { pose proof (claims_nil b f). tauto. }
  case_decide as Hk; [|case_decide as He]; rewrite ?claims_cons, IH; cbn;
    pose proof (subtract_covers (ranges e) range b Hr) as Hc.
  - intuition congruence.
  - rewrite He in Hc. pose proof (covers_nil b). intuition congruence.
  - rewrite Hc. intuition congruence.
Qed.

Lemma cut_pure_ok keep range l : range.1 < range.2 → entries_ok l → entries_ok (cut_pure keep range l).
Proof.
  intros Hr [Hnd Hrs Hex]. split.
  - clear Hrs Hex. induction l as [|e l IH]; cbn; [done|].
    cbn in Hnd. apply NoDup_cons in Hnd as [Hni Hnd]. specialize (IH Hnd).
    repeat case_decide; try done; cbn; apply NoDup_cons; split; try done;
      by intros Hin%cut_pure_carried.
  - clear Hnd Hex. induction Hrs as [|e l [Ho Hne] _ IH]; cbn; [done|].
    repeat case_decide; try done; constructor; try done. split; cbn; auto.
  - intros b f f'. rewrite !cut_pure_claims by done. intros [? _] [? _]. by eapply Hex.
Qed.

Lemma wp_cut_entries keep range l g :
  NoDup (carried l) → counted g l →
  wp (cut_entries keep range l) g (λ l' g',
    l' = cut_pure keep range l ∧
    shifted (λ f, carries (cut_pure keep range l) f - carries l f) g g').
Proof.
  revert g. induction l as [|e l IH]; intros g Hnd Hct; cbn [cut_entries].
  { apply wp_ret. split; [done|]. eapply shifted_ext; [|apply shifted_refl]. intros; cbn. lia. }
  cbn in Hnd. apply NoDup_cons in Hnd as [Hni Hnd].
  assert (counted g l) as Hct' by (intros f Hf; apply Hct; by right).
  assert (failure e ∉ carried (cut_pure keep range l)) as Hni'.
  { by intros Hin%cut_pure_carried. }
  cbn [cut_pure]. rewrite decide_bool_decide. case_bool_decide as Hk.
  { apply wp_fmap. eapply wp_mono; [by apply IH|]. intros l' g' [-> Hs]. split; [done|].
    eapply shifted_ext; [|done]. intros f. rewrite !carries_cons by done. lia. }
  rewrite decide_bool_decide. case_bool_decide as He.
  - destruct (tags_pos g (failure e)) as (n & Hn & Hpos); [apply Hct; by left|].
    wp_seq wp_untag; [done|rewrite Hpos; apply Hct; by left|]. intros [] g1 Hs1.
    assert (∀ f, f ≠ failure e → nodes g1 !! f = nodes g !! f) as Hsame.
    { intros f Hf. rewrite (proj2 Hs1). unfold single. rewrite decide_False by done.
      apply retag_0. }
    eapply wp_mono; [apply IH; [done|]|].
    { intros f Hf. unfold tags. rewrite Hsame; [by apply Hct'|]. by intros ->. }
    intros l' g' [-> Hs2]. split; [done|].
    assert (∀ f, carries (cut_pure keep range l) f - carries l f <= 0) as Hneg.
    { intros f. unfold carries. repeat case_decide; try lia.
      exfalso. eauto using cut_pure_carried. }
    eapply shifted_ext, (shifted_trans _ _ g g1 g'); [|..|exact Hs1|exact Hs2].
    + intros f. cbn beta. rewrite (carries_cons e l) by done.
      unfold single. case_decide; lia.
    + intros f n' _. unfold single. case_decide as Hf; [|by left].
      subst f. right; left. unfold carries. rewrite !decide_False by done. done.
  - apply wp_fmap. eapply wp_mono; [by apply IH|]. intros l' g' [-> Hs]. split; [done|].
    eapply shifted_ext; [|done]. intros f. rewrite !carries_cons by done. cbn. lia.
Qed.

(** ** The operations *)
Lemma alter_first_Some f h l l' : alter_first f h l = Some l' →
  ∃ e l1 l2, l = l1 ++ e :: l2 ∧ failure e = f ∧
    l' = l1 ++ mk_Tainted f (h (ranges e)) :: l2.
Proof.
  revert l'. induction l as [|e l IH]; intros l'; cbn; [done|]. case_decide as Hf.
  - intros [= <-]. subst f. by exists e, [], l.
  - intros (l0 & Hl0 & ->)%fmap_Some. destruct (IH _ Hl0) as (e' & l1 & l2 & -> & Hf' & ->).
    by exists e', (e :: l1), l2.
Qed.
Lemma alter_first_None f h l : alter_first f h l = None → f ∉ carried l.
Proof.
  induction l as [|e l IH]; cbn; [intros _; apply not_elem_of_nil|].
  case_decide; [done|]. intros Hn%fmap_None. rewrite not_elem_of_cons. split; [done|auto].
Qed.

(** Giving the bytes of [range] to [f] once every other claim on them is
    gone. *)
Lemma give_ok l range f l' : 0 <= range.1 < range.2 → entries_ok l →
  (∀ b f', claims l b f' → f' = f ∨ ¬ range.1 <= b < range.2) →
  (alter_first f (λ rs, add rs range) l = Some l' ∨
   alter_first f (λ rs, add rs range) l = None ∧ l' = l ++ [mk_Tainted f [range]]) →
  entries_ok l' ∧
  (∀ b f', claims l' b f' ↔ if decide (range.1 <= b < range.2) then f' = f else claims l b f') ∧
  ∀ f', carries l' f' = if decide (f' = f) then 1 else carries l f'.
Proof.
  intros Hr [Hnd Hrs Hex] Hcut Hl.
  assert (carried l' = carried l ∧ f ∈ carried l ∨ carried l' = carried l ++ [f] ∧ f ∉ carried l)
    as Hcar.
  { destruct Hl as [Hl|[Hn ->]].
    - apply alter_first_Some in Hl as (e & l1 & l2 & -> & <- & ->). left.
      unfold carried. rewrite !fmap_app, !fmap_cons. split; [done|set_solver].
    - right. unfold carried. rewrite fmap_app. split; [done|by eapply alter_first_None]. }
  assert (∀ b f', claims l' b f' ↔ if decide (range.1 <= b < range.2) then f' = f else claims l b f')
    as Hclaims.
  { intros b f'. specialize (Hcut b f'). destruct Hl as [Hl|[Hn ->]].
    - apply alter_first_Some in Hl as (e & l1 & l2 & -> & <- & ->).
      rewrite claims_app, claims_cons in Hcut.
      apply Forall_app in Hrs as [_ [[He _] _]%Forall_cons].
      destruct (decide (range.1 <= b < range.2)) as [Hin|Hout];
        rewrite !claims_app, !claims_cons; cbn [failure ranges];
        rewrite (proj2 (add_spec (ranges e) range He Hr)); intuition congruence.
    - rewrite claims_app, claims_cons; cbn [failure ranges]. rewrite covers_cons.
      pose proof (covers_nil b). pose proof (claims_nil b f').
      destruct (decide (range.1 <= b < range.2)) as [Hin|Hout]; intuition congruence. }
  split; [split|split].
  - destruct Hcar as [[-> _]|[-> Hni]]; [done|]. apply NoDup_app. split_and!; [done| |].
    + intros x Hx Hx'. apply list_elem_of_singleton in Hx' as ->. done.
    + apply NoDup_singleton.
  - destruct Hl as [Hl|[Hn ->]].
    + apply alter_first_Some in Hl as (e & l1 & l2 & -> & <- & ->).
      apply Forall_app in Hrs as [H1 [[He Hne] H2]%Forall_cons].
      apply Forall_app. split; [done|]. constructor; [|done].
      destruct (add_spec (ranges e) range He Hr) as [Hok Hcov]. split; cbn; [done|].
      intros Hnil. rewrite Hnil in Hcov. apply (covers_nil range.1), Hcov. right. lia.
    + apply Forall_app. split; [done|]. constructor; [|constructor].
      split; cbn; [|done]. destruct range as [s e]. constructor; cbn in Hr; [lia|lia|constructor].
  - intros b f1 f2. rewrite !Hclaims. case_decide; [congruence|]. by apply Hex.
  - done.
  - intros f'. unfold carries. destruct Hcar as [[-> Hin]|[-> Hni]].
    { destruct (decide (f' = f)) as [->|Hne]; [by rewrite decide_True|done]. }
    destruct (decide (f' = f)) as [->|Hne]; [rewrite decide_True; [done|set_solver]|].
    apply decide_ext. set_solver.
Qed.

Lemma shifted_counted l l' g g' :
  shifted (λ f, carries l' f - carries l f) g g' → counted g l →
  (∀ f, f ∈ carried l' → f ∉ carried l → is_Some (nodes g !! f) ∧ 0 <= tags g f) →
  counted g' l'.
Proof.
  intros Hs Hc Hnew f Hf. destruct (decide (f ∈ carried l)) as [Hin|Hni].
  - destruct (tags_pos g f (Hc f Hin)) as (n & Hn & _). specialize (Hc f Hin).
    rewrite (shifted_tags _ _ _ _ Hs) by (by eexists). unfold carries.
    rewrite !decide_True by done. lia.
  - destruct (Hnew f Hf Hni) as [Hn Hpos]. rewrite (shifted_tags _ _ _ _ Hs) by done.
    unfold carries. rewrite decide_True, decide_False by done. lia.
Qed.

Lemma owner_ext t t' b :
  taint_ok t → taint_ok t' →
  (∀ f, claims (entries t') b f ↔ claims (entries t) b f) → owner t' b = owner t b.
Proof.
  intros Hok Hok' He. destruct (owner t b) as [f|] eqn:Ho.
  - apply owner_Some, He in Ho; [|done]. by apply owner_Some.
  - apply owner_None; [done|]. intros f Hc%He. by apply (proj1 (owner_None t b Hok) Ho f).
Qed.

Lemma wp_taint t range f g n :
  taint_ok t → counted g (entries t) → 0 <= range.1 →
  nodes g !! f = Some n → 0 <= tagged n →
  (f ∉ carried (entries t) → tagged n < u32_max) →
  wp (taint t range f) g (λ t' g',
    taint_ok t' ∧ counted g' (entries t') ∧
    (∀ b, owner t' b = if decide (range.1 <= b < range.2) then Some f else owner t b) ∧
    shifted (λ f', carries (entries t') f' - carries (entries t) f') g g').
Proof.
  intros Hok Hct Hlo Hn Htag Hmax. unfold taint, range_is_empty.
  destruct (Z.ltb_spec range.1 range.2) as [Hr|Hr]; cbn [negb].
  2: { apply wp_ret. split_and!; [done|done| |].
       - intros b. by rewrite decide_False by lia.
       - eapply shifted_ext; [|apply shifted_refl]. intros; cbn. lia. }
  wp_seq wp_cut_entries; [apply Hok|done|]. intros l g1 [-> Hs1].
  set (cut := cut_pure (Some f) range (entries t)) in *.
  assert (entries_ok cut) as Hcut by by apply cut_pure_ok.
  assert (∀ b f', claims cut b f' → f' = f ∨ ¬ range.1 <= b < range.2) as Hothers.
  { intros b f' [_ [[= ->]|?]]%cut_pure_claims; tauto. }
  assert (∀ t', entries_ok (entries t') →
    (∀ b f', claims (entries t') b f' ↔
       if decide (range.1 <= b < range.2) then f' = f else claims cut b f') →
    ∀ b, owner t' b = if decide (range.1 <= b < range.2) then Some f else owner t b) as Howner.
  { intros t' Hok' Hcl b. specialize (Hcl b). case_decide as Hb.
    - apply owner_Some; [done|]. by apply Hcl.
    - apply owner_ext; [done|done|]. intros f'. rewrite Hcl. unfold cut.
      rewrite cut_pure_claims by done. tauto. }
  destruct (alter_first f (λ rs, add rs range) cut) as [l'|] eqn:Hal.
  - destruct (give_ok cut range f l') as (Hok' & Hcl & Hcar); [lia|done|done|by left|].
    assert (∀ f', carries l' f' - carries (entries t) f' = carries cut f' - carries (entries t) f')
      as Hsame.
    { intros f'. rewrite Hcar. case_decide as Hf'; [subst f'|done].
      unfold carries at 2. rewrite decide_True; [done|].
      destruct (decide (f ∈ carried cut)) as [|Hni]; [done|].
      apply alter_first_Some in Hal as (e & l1 & l2 & -> & <- & _).
      destruct Hni. unfold carried. rewrite fmap_app, fmap_cons. set_solver. }
    apply wp_ret. cbn [entries]. split_and!; [done| |by apply Howner|].
    + eapply shifted_counted; [eapply shifted_ext, Hs1; intros; by rewrite Hsame|done|].
      intros f' Hf' Hni. exfalso. apply Hni, (cut_pure_carried (Some f) range). fold cut.
      specialize (Hcar f'). unfold carries in Hcar. rewrite decide_True in Hcar by done.
      apply alter_first_Some in Hal as (e & l1 & l2 & Hcl' & Hfe & ->). rewrite Hcl'.
      unfold carried in *. rewrite fmap_app, fmap_cons in *. cbn in Hf'. by rewrite <- Hfe in Hf'.
    + eapply shifted_ext, Hs1. intros; by rewrite Hsame.
  - destruct (give_ok cut range f (cut ++ [mk_Tainted f [range]])) as (Hok' & Hcl & Hcar);
      [lia|done|done|by right|].
    assert (f ∉ carried cut) as Hni by by eapply alter_first_None.
    assert (f ∉ carried (entries t)) as Hni' by by intros Hin%(cut_pure_kept f range).
    assert (nodes g1 !! f = Some n) as Hn1.
    { rewrite (proj2 Hs1), Hn. unfold carries. rewrite !decide_False by done. apply retag_0. }
    wp_seq wp_tag; [done|by auto|]. intros [] g2 Hs2. apply wp_ret. cbn [entries].
    assert (shifted (λ f', carries (cut ++ [mk_Tainted f [range]]) f' - carries (entries t) f') g g2)
      as Hs.
    { eapply shifted_ext, (shifted_trans _ _ g g1 g2); [| |exact Hs1|exact Hs2].
      - intros f'. rewrite Hcar. unfold single. case_decide as Hf'; [subst f'|lia].
        unfold carries. rewrite !(decide_False (P := f ∈ _)) by done. done.
      - intros f' n' _. unfold single. case_decide as Hf'; [subst f'|by right; left].
        left. unfold carries. by rewrite !decide_False. }
    split_and!; [done| |by apply Howner|done].
    eapply shifted_counted; [done|done|]. intros f' Hf' Hold.
    unfold carried in Hf'. rewrite fmap_app in Hf'. apply elem_of_app in Hf' as [Hf'|Hf'].
    + by apply cut_pure_carried in Hf'.
    + apply list_elem_of_singleton in Hf' as ->. cbn. unfold tags. rewrite Hn.
      split; [by eexists|lia].
Qed.

(** C39: tainting a range with a failure makes that failure the owner of every
    byte of the range and changes no other byte; the entries stay sorted,
    disjoint and never empty, no byte has two owners, and the counts of the
    error graph move by exactly the difference of the failures carried: a
    failure that lost its last byte is released, a new one is tagged once,
    and one already carried is not tagged again. *)
Theorem taint_spec t range f g n :
  taint_ok t → counted g (entries t) → 0 <= range.1 →
  nodes g !! f = Some n → 0 <= tagged n →
  (f ∉ carried (entries t) → tagged n < u32_max) →
  wp (taint t range f) g (λ t' g',
    taint_ok t' ∧ counted g' (entries t') ∧
    (∀ b, owner t' b = if decide (range.1 <= b < range.2) then Some f else owner t b) ∧
    shifted (λ f', carries (entries t') f' - carries (entries t) f') g g').
Proof. apply wp_taint. Qed.

Lemma wp_written t range g :
  taint_ok t → counted g (entries t) →
  wp (written t range) g (λ t' g',
    taint_ok t' ∧ counted g' (entries t') ∧
    (∀ b, owner t' b = if decide (range.1 <= b < range.2) then None else owner t b) ∧
    shifted (λ f, carries (entries t') f - carries (entries t) f) g g').
Proof.
  intros Hok Hct. unfold written, range_is_empty.
  destruct (Z.ltb_spec range.1 range.2) as [Hr|Hr]; cbn [negb].
  2: { apply wp_ret. split_and!; [done|done| |].
       - intros b. by rewrite decide_False by lia.
       - eapply shifted_ext; [|apply shifted_refl]. intros; cbn. lia. }
  apply wp_fmap. eapply wp_mono; [apply wp_cut_entries; [apply Hok|done]|].
  intros l g1 [-> Hs1]. cbn [entries].
  set (cut := cut_pure None range (entries t)) in *.
  assert (taint_ok (mk_Taint cut)) as Hcut by by apply cut_pure_ok.
  split_and!; [done| | |done].
  - eapply shifted_counted; [done|done|]. by intros f Hf%cut_pure_carried Hni.
  - intros b. case_decide as Hb.
    + apply owner_None; [done|]. cbn [entries]. intros f. unfold cut.
      rewrite cut_pure_claims by done. intros [_ [?|?]]; done.
    + apply owner_ext; [done|done|]. intros f. cbn [entries]. unfold cut.
      rewrite cut_pure_claims by done. tauto.
Qed.

(** A write that lands in a range ends every claim on the bytes of the
    range and on no other byte, and releases exactly the failures that are
    left claiming nothing. *)
Theorem written_spec t range g :
  taint_ok t → counted g (entries t) →
  wp (written t range) g (λ t' g',
    taint_ok t' ∧ counted g' (entries t') ∧
    (∀ b, owner t' b = if decide (range.1 <= b < range.2) then None else owner t b) ∧
    shifted (λ f, carries (entries t') f - carries (entries t) f) g g').
Proof. apply wp_written. Qed.

Lemma wp_untag_all l g :
  NoDup (carried l) → counted g l →
  wp (untag_all l) g (λ _ g', shifted (λ f, - carries l f) g g').
Proof.
  revert g. induction l as [|e l IH]; intros g Hnd Hct; cbn [untag_all].
  { apply wp_ret. eapply shifted_ext, shifted_refl. done. }
  cbn in Hnd. apply NoDup_cons in Hnd as [Hni Hnd].
  destruct (tags_pos g (failure e)) as (n & Hn & Hpos); [apply Hct; by left|].
  wp_seq wp_untag; [done|rewrite Hpos; apply Hct; by left|]. intros [] g1 Hs1.
  eapply wp_mono; [apply IH; [done|]|].
  { intros f Hf. unfold tags. rewrite (proj2 Hs1). unfold single.
    rewrite decide_False by by intros ->. rewrite retag_0. apply Hct. by right. }
  intros [] g' Hs2. eapply shifted_ext, (shifted_trans _ _ g g1 g'); [| |exact Hs1|exact Hs2].
  - intros f. cbn beta. rewrite (carries_cons e l) by done. unfold single. case_decide; lia.
  - intros f n' _. unfold single. case_decide as Hf; [|by left].
    subst f. right; left. unfold carries. by rewrite decide_False.
Qed.

(** [clear] releases every claim, once. *)
Lemma clear_spec t g :
  taint_ok t → counted g (entries t) →
  wp (clear t) g (λ t' g', t' = taint_default ∧ shifted (λ f, - carries (entries t) f) g g').
Proof.
  intros Hok Hct. wp_seq wp_untag_all; [apply Hok|done|]. intros [] g' Hs. by apply wp_ret.
Qed.

Lemma taint_default_ok : taint_ok taint_default.
Proof. split; [constructor|constructor|]. by intros b f f' ?%claims_nil. Qed.
#[export] Hint Resolve taint_default_ok : core.

Lemma covers_meets rs range :
  existsb (λ held, overlaps held range) rs = true ↔ ∃ b, range.1 <= b < range.2 ∧ covers rs b.
Proof.
  rewrite existsb_exists. unfold covers. setoid_rewrite Exists_exists. split.
  - intros (r & Hr & Ho). unfold overlaps in Ho. apply Z.ltb_lt in Ho.
    exists (Z.max r.1 range.1). split; [lia|]. exists r.
    split; [by apply list_elem_of_In|lia].
  - intros (b & Hb & r & Hr & Hrb). exists r. split; [by apply list_elem_of_In|].
    apply Z.ltb_lt. lia.
Qed.

Lemma failure_in_owner t range : taint_ok t →
  match failure_in t range with
  | Some f => ∃ b, range.1 <= b < range.2 ∧ owner t b = Some f
  | None => ∀ b, range.1 <= b < range.2 → owner t b = None
  end.
Proof.
  intros Hok. unfold failure_in. destruct (find _ (entries t)) as [e|] eqn:Hf; cbn.
  - apply find_some in Hf as [He Ho]. apply covers_meets in Ho as (b & Hb & Hc).
    exists b. split; [done|]. apply owner_Some; [done|]. exists e. by rewrite list_elem_of_In.
  - intros b Hb. apply owner_None; [done|]. intros f (e & He & _ & Hc).
    apply list_elem_of_In in He. pose proof (find_none _ _ Hf e He) as Hno.
    assert (existsb (λ held, overlaps held range) (ranges e) = true) as Hyes.
    { apply covers_meets. eauto. }
    congruence.
Qed.

(** [failure] over a range names a failure exactly when some byte of the
    range has an owner, and the failure it names owns one of them; an empty
    range names none. *)
Theorem failure_in_spec t range : taint_ok t →
  match failure_in t range with
  | Some f => ∃ b, range.1 <= b < range.2 ∧ owner t b = Some f
  | None => ∀ b, range.1 <= b < range.2 → owner t b = None
  end.
Proof. apply failure_in_owner. Qed.

(** ** The carriers of a device

    All the allocations of a device share one graph.  The graph is exact when
    the count of every node is the number of allocations carrying it. *)
Definition carriers (ts : list Taint) (f : FailureId) : Z :=
  sum_Z ((λ t, carries (entries t) f) <$> ts).
Definition exact (g : ErrorGraph) (ts : list Taint) : Prop :=
  Forall taint_ok ts ∧ ∀ f, tags g f = carriers ts f.

Inductive taint_op :=
| DoTaint (range : Range) (f : FailureId)
| DoWritten (range : Range)
| DoClear.
Definition run_op (op : taint_op) (t : Taint) : M ErrorGraph Taint :=
  match op with
  | DoTaint range f => taint t range f
  | DoWritten range => written t range
  | DoClear => clear t
  end.

Lemma carries_range l f : 0 <= carries l f <= 1.
Proof. unfold carries. case_decide; lia. Qed.
Lemma carriers_range ts f : 0 <= carriers ts f <= Z.of_nat (length ts).
Proof.
  induction ts as [|t ts IH]; [cbn; lia|]. unfold carriers in *. rewrite fmap_cons, sum_Z_cons.
  pose proof (carries_range (entries t) f). cbn [length]. lia.
Qed.
Lemma carriers_middle ts1 t ts2 f :
  carriers (ts1 ++ t :: ts2) f = carries (entries t) f + carriers (ts1 ++ ts2) f.
Proof.
  unfold carriers. rewrite !fmap_app, fmap_cons, !sum_Z_app, sum_Z_cons. lia.
Qed.

Lemma ranges_ok_covers rs : ranges_ok rs → rs ≠ [] → ∃ b, covers rs b.
Proof.
  intros H Hne. inversion H as [|lo s e rs' _ Hse _]; subst; [done|].
  exists s. apply covers_cons. left; cbn. lia.
Qed.
(** The failures a taint carries are the owners of its bytes. *)
Lemma carried_owner t f : taint_ok t → f ∈ carried (entries t) ↔ ∃ b, owner t b = Some f.
Proof.
  intros Hok. split.
  - intros (e & -> & He)%list_elem_of_fmap.
    pose proof (proj1 (Forall_forall _ _) (ok_ranges _ Hok) e He) as [Hr Hne].
    destruct (ranges_ok_covers _ Hr Hne) as [b Hb]. exists b. apply owner_Some; [done|].
    by exists e.
  - intros [b Hb%owner_Some]; [|done]. by eapply claims_carried.
Qed.

Lemma exact_counted g ts1 t ts2 : exact g (ts1 ++ t :: ts2) → counted g (entries t).
Proof.
  intros [_ He] f Hf. rewrite He, carriers_middle.
  pose proof (carriers_range (ts1 ++ ts2) f).
  assert (carries (entries t) f = 1) by (unfold carries; by rewrite decide_True). lia.
Qed.

Lemma exact_shifted g g' ts1 t t' ts2 :
  exact g (ts1 ++ t :: ts2) → taint_ok t' →
  (∀ f, f ∈ carried (entries t') → f ∉ carried (entries t) → is_Some (nodes g !! f)) →
  shifted (λ f, carries (entries t') f - carries (entries t) f) g g' →
  exact g' (ts1 ++ t' :: ts2).
Proof.
  intros Hex Hok Hnew Hs. pose proof (exact_counted _ _ _ _ Hex) as Hct.
  destruct Hex as [Hoks Hex]. split.
  { apply Forall_app in Hoks as [H1 [_ H2]%Forall_cons]. apply Forall_app. by split; [|constructor]. }
  intros f. specialize (Hex f). rewrite carriers_middle in *.
  destruct (nodes g !! f) as [n|] eqn:Hn.
  - rewrite (shifted_tags _ _ _ _ Hs) by by eexists. lia.
  - assert (tags g f = 0) as H0 by (unfold tags; by rewrite Hn).
    assert (tags g' f = 0) as H0' by (unfold tags; by rewrite (proj2 Hs), Hn).
    pose proof (carriers_range (ts1 ++ ts2) f). pose proof (carries_range (entries t) f).
    pose proof (carries_range (entries t') f).
    enough (carries (entries t') f = 0) by lia.
    unfold carries. case_decide as Hin; [|done].
    destruct (decide (f ∈ carried (entries t))) as [Hin'|Hni].
    + specialize (Hct f Hin'). lia.
    + destruct (Hnew f Hin Hni) as [n' ?]. congruence.
Qed.

Lemma wp_run_op g ts1 t ts2 op :
  exact g (ts1 ++ t :: ts2) → Z.of_nat (length (ts1 ++ t :: ts2)) <= u32_max →
  match op with DoTaint range f => 0 <= range.1 ∧ is_Some (nodes g !! f) | _ => True end →
  wp (run_op op t) g (λ t' g', exact g' (ts1 ++ t' :: ts2)).
Proof.
  intros Hex Hlen Hop. pose proof (exact_counted _ _ _ _ Hex) as Hct.
  assert (taint_ok t) as Hok by by destruct Hex as [[_ [? _]%Forall_cons]%Forall_app _].
  destruct op as [range f|range|]; cbn [run_op].
  - destruct Hop as [Hlo [n Hn]].
    assert (tagged n = carriers (ts1 ++ t :: ts2) f) as Htag.
    { rewrite <- (proj2 Hex f). unfold tags. by rewrite Hn. }
    rewrite carriers_middle in Htag. pose proof (carriers_range (ts1 ++ ts2) f) as Hrest.
    pose proof (carries_range (entries t) f) as Hc. rewrite !length_app in *; cbn [length] in *.
    eapply wp_mono; [eapply (wp_taint t range f g n); try done; [lia|]|].
    { intros Hni. unfold carries in Htag. rewrite decide_False in Htag by done. lia. }
    intros t' g' (Hok' & _ & Ho & Hs). eapply exact_shifted; [done|done| |done].
    intros f' Hf' Hni. apply carried_owner in Hf' as [b Hb]; [|done]. rewrite Ho in Hb.
    case_decide; [injection Hb as <-; by eexists|].
    exfalso. apply Hni, carried_owner; eauto.
  - eapply wp_mono; [by apply wp_written|]. intros t' g' (Hok' & _ & Ho & Hs).
    eapply exact_shifted; [done|done| |done].
    intros f' Hf' Hni. apply carried_owner in Hf' as [b Hb]; [|done]. rewrite Ho in Hb.
    case_decide; [done|]. exfalso. apply Hni, carried_owner; eauto.
  - eapply wp_mono; [by apply clear_spec|]. intros t' g' [-> Hs].
    eapply exact_shifted; [done|apply taint_default_ok| |].
    + intros f Hf. by apply not_elem_of_nil in Hf.
    + eapply shifted_ext; [|done]. intros f. cbn beta.
      assert (carries (entries taint_default) f = 0) as -> by reflexivity. lia.
Qed.

(** The reference counting of failures is exact.  With fewer than [2^32]
    allocations, no sequence of taints, writes and clears on the allocations
    of a device panics or underflows a count, each keeps the invariants of the
    taint it changes, and after each of them the count of every failure is the
    number of allocations still claiming a byte for it: a failure is forgotten
    neither early nor late. *)
Theorem device_counts_exact g ts1 t ts2 op :
  exact g (ts1 ++ t :: ts2) → Z.of_nat (length (ts1 ++ t :: ts2)) <= u32_max →
  match op with DoTaint range f => 0 <= range.1 ∧ is_Some (nodes g !! f) | _ => True end →
  wp (run_op op t) g (λ t' g', exact g' (ts1 ++ t' :: ts2)).
Proof. apply wp_run_op. Qed.

(** ** Witnesses *)
Definition witness_graph : ErrorGraph :=
  mk_ErrorGraph {[ 1 := mk_Failure TornDown 1 [] 0; 2 := mk_Failure Skipped 0 [] 0 ]} 2.
Definition witness_taint : Taint := mk_Taint [mk_Tainted 1 [(0, 100)]].

Lemma witness_taint_ok : taint_ok witness_taint.
Proof.
  split; cbn.
  - apply NoDup_singleton.
  - constructor; [|constructor]. split; [|done]. cbn. constructor; [lia|lia|constructor].
  - intros b f f' (e & ->%list_elem_of_singleton & <- & _) (e' & ->%list_elem_of_singleton & <- & _).
    done.
Qed.
Lemma witness_exact : exact witness_graph [witness_taint].
Proof.
  split; [constructor; [apply witness_taint_ok|constructor]|].
  intros f. unfold tags, carriers, carries; cbn.
  destruct (decide (f = 1)) as [->|H1]; [vm_compute; reflexivity|].
  rewrite (lookup_insert_ne _ 1) by done.
  rewrite decide_False by by intros ?%list_elem_of_singleton.
  destruct (decide (f = 2)) as [->|H2]; [reflexivity|].
  by rewrite lookup_singleton_ne.
Qed.
Lemma witness_counted : counted witness_graph (entries witness_taint).
Proof. apply (exact_counted _ [] _ []), witness_exact. Qed.

Lemma taint_spec_witness :
  wp (taint witness_taint (25, 75) 2) witness_graph (λ t' g',
    (entries t' = [mk_Tainted 1 [(0, 25); (75, 100)]; mk_Tainted 2 [(25, 75)]] ∧ tags g' 2 = 1) ∧
    ∀ b, owner t' b = if decide (25 <= b < 75) then Some 2 else owner witness_taint b).
Proof.
  apply wp_conj; [vm_compute; auto|].
  eapply wp_mono; [apply (taint_spec witness_taint (25, 75) 2 witness_graph (mk_Failure Skipped 0 [] 0)
    witness_taint_ok witness_counted)|]; cbn; [lia|reflexivity|lia|lia|].
  intros t' g' (_ & _ & Ho & _). exact Ho.
Defined.

Lemma written_spec_witness :
  wp (written witness_taint (40, 60)) witness_graph (λ t' g',
    entries t' = [mk_Tainted 1 [(0, 40); (60, 100)]] ∧
    ∀ b, owner t' b = if decide (40 <= b < 60) then None else owner witness_taint b).
Proof.
  apply wp_conj; [vm_compute; auto|].
  eapply wp_mono;
    [apply (written_spec witness_taint (40, 60) witness_graph witness_taint_ok witness_counted)|].
  intros t' g' (_ & _ & Ho & _). exact Ho.
Defined.

Lemma failure_in_spec_witness :
  failure_in witness_taint (90, 110) = Some 1 ∧ ∃ b, 90 <= b < 110 ∧ owner witness_taint b = Some 1.
Proof. split; [reflexivity|]. apply (failure_in_spec witness_taint (90, 110) witness_taint_ok). Defined.

Lemma device_counts_exact_witness :
  wp (run_op (DoTaint (0, 100) 2) witness_taint) witness_graph (λ t' g', exact g' [t']).
Proof.
  apply (device_counts_exact witness_graph [] witness_taint [] (DoTaint (0, 100) 2) witness_exact).
  - cbn. lia.
  - cbn. split; [lia|]. vm_compute. by eexists.
Defined.
