(* ===== verification/Storage.v ===== *)
(** * Storage

    [cubecl-runtime/src/storage/base.rs]: storage handles and the interface of
    the storages that allocate device memory, as a class with the promises the
    pools rely on; and [cubecl-server/src/storage/bytes_cpu.rs], the storage in
    host memory, as an instance that keeps them.

    [World] is the state the memory management shares: the store of
    descriptors, the error graph of the device, the counter of the storage ids
    and the storage itself. *)

From S2P Require Export Handle Taint.
From stdpp Require Import list.
#[local] Open Scope Z_scope.

Abbreviation StorageId := Z (only parsing).

Record StorageUtilization := mk_StorageUtilization { offset : Z; size : Z }.
Record StorageHandle := mk_StorageHandle { storage_id : StorageId; utilization : StorageUtilization }.

#[global] Instance StorageUtilization_eq_dec : EqDecision StorageUtilization.
Proof. solve_decision. Defined.
#[global] Instance StorageHandle_eq_dec : EqDecision StorageHandle.
Proof. solve_decision. Defined.

Definition handle_size (h : StorageHandle) : Z := size (utilization h).
Definition handle_offset (h : StorageHandle) : Z := offset (utilization h).
(** [StorageHandle::offset_start] and [offset_end]: the handle with bytes
    taken off its start, or off its end. *)
Definition offset_start (h : StorageHandle) (offset_bytes : Z) : option StorageHandle :=
  offset ← add_u64 (handle_offset h) offset_bytes;
  size ← sub_u64 (handle_size h) offset_bytes;
  Some (mk_StorageHandle (storage_id h) (mk_StorageUtilization offset size)).
Definition offset_end (h : StorageHandle) (offset_bytes : Z) : option StorageHandle :=
  size ← sub_u64 (handle_size h) offset_bytes;
  Some (mk_StorageHandle (storage_id h) (mk_StorageUtilization (handle_offset h) size)).

Definition with_storage_id (id : StorageId) (h : StorageHandle) : StorageHandle :=
  mk_StorageHandle id (utilization h).
Definition with_utilization (u : StorageUtilization) (h : StorageHandle) : StorageHandle :=
  mk_StorageHandle (storage_id h) u.
Definition with_size (n : Z) (h : StorageHandle) : StorageHandle :=
  with_utilization (mk_StorageUtilization (handle_offset h) n) h.

(** ** The shared state *)
Record World (St : Type) := mk_World {
  memory : Memory;
  failures : ErrorGraph;
  storage_ids : Z;     (* the COUNTER of StorageId::new *)
  storage : St;
}.
Arguments mk_World {St}. Arguments memory {St}. Arguments failures {St}.
Arguments storage_ids {St}. Arguments storage {St}.

Section world.
Context {St A : Type}.
Implicit Types (w : World St).

Definition with_memory (m : Memory) w := mk_World m (failures w) (storage_ids w) (storage w).
Definition with_failures (g : ErrorGraph) w := mk_World (memory w) g (storage_ids w) (storage w).
Definition with_storage (st : St) w := mk_World (memory w) (failures w) (storage_ids w) st.

Definition on_memory (m : M Memory A) : M (World St) A := λ w,
  match m (memory w) with Some (a, mem) => Some (a, with_memory mem w) | None => None end.
Definition on_failures (m : M ErrorGraph A) : M (World St) A := λ w,
  match m (failures w) with Some (a, g) => Some (a, with_failures g w) | None => None end.

Lemma wp_on_memory m w (Q : A → World St → Prop) :
  wp m (memory w) (λ a mem, Q a (with_memory mem w)) → wp (on_memory m) w Q.
Proof. unfold wp, on_memory. by destruct (m (memory w)) as [[a mem]|]. Qed.
Lemma wp_on_failures m w (Q : A → World St → Prop) :
  wp m (failures w) (λ a g, Q a (with_failures g w)) → wp (on_failures m) w Q.
Proof. unfold wp, on_failures. by destruct (m (failures w)) as [[a g]|]. Qed.
End world.

(** [StorageId::new] *)
Definition storage_id_new {St} : M (World St) StorageId :=
  w ← get;
  _ ← put (mk_World (memory w) (failures w) ((storage_ids w + 1) mod 2^64) (storage w));
  if storage_ids w =? u64_max then panic else mret (storage_ids w).

(** ** Sums over a map *)
Definition map_sum (m : gmap Z Z) : Z := map_fold (λ _ n acc, n + acc) 0 m.
Lemma map_sum_insert i n m : m !! i = None → map_sum (<[i := n]> m) = n + map_sum m.
Proof. intros Hi. unfold map_sum. rewrite map_fold_insert_L; [done| |done]. intros; lia. Qed.
Lemma map_sum_delete i n m : m !! i = Some n → map_sum (delete i m) = map_sum m - n.
Proof.
  intros Hi. rewrite <- (insert_id m i n Hi) at 2. rewrite <- insert_delete_eq.
  rewrite map_sum_insert by apply lookup_delete_eq. lia.
Qed.
Lemma map_sum_nonneg m : (∀ i n, m !! i = Some n → 0 <= n) → 0 <= map_sum m.
Proof.
  induction m as [|i n m Hi IH] using map_ind; intros Hn; [done|].
  rewrite map_sum_insert by done. pose proof (Hn i n (lookup_insert_eq _ _ _)).
  enough (0 <= map_sum m) by lia. apply IH. intros j k Hj. apply (Hn j).
  rewrite lookup_insert_ne; [done|]. congruence.
Qed.

(** ** The interface of a storage

    [held] is what a storage holds from the device: the allocations by id,
    with their sizes. *)
Class ComputeStorage (St : Type) := {
  storage_alignment : St → Z;
  storage_get : St → StorageHandle → result StorageHandle IoError;
  storage_alloc : Z → M (World St) (result StorageHandle IoError);
  storage_dealloc : StorageId → St → option St;
  storage_flush : St → St;
  bytes_allocated : St → Z;
  held : St → gmap StorageId Z;
}.

Definition storage_bytes `{ComputeStorage St} (st : St) : Z :=
  map_sum (held st).

(** What a call of [alloc] may do to the world: take ids, and on success hold
    one more allocation, under an id that was taken. *)
Definition alloc_result `{ComputeStorage St} (size : Z) (w : World St)
    (r : result StorageHandle IoError) (w' : World St) : Prop :=
  memory w' = memory w ∧ failures w' = failures w ∧ storage_ids w <= storage_ids w' ∧
  match r with
  | Ok h => utilization h = mk_StorageUtilization 0 size ∧
            storage_ids w <= storage_id h < storage_ids w' ∧
            held (storage w') = <[storage_id h := size]> (held (storage w))
  | Err _ => held (storage w') = held (storage w)
  end.

(** The promises of a storage.  [storage_ok] is its own invariant;
    [can_alloc] the sizes it can be asked for without a panic. *)
Class ComputeStorageLaws (St : Type) `{ComputeStorage St} := {
  storage_ok : World St → Prop;
  can_alloc : Z → World St → Prop;
  storage_ok_bytes w : storage_ok w → bytes_allocated (storage w) = storage_bytes (storage w);
  storage_alloc_ok size w : storage_ok w → can_alloc size w →
    wp (storage_alloc size) w (λ r w', storage_ok w' ∧ alloc_result size w r w');
  storage_dealloc_ok id w : storage_ok w →
    ∃ st', storage_dealloc id (storage w) = Some st' ∧ storage_ok (with_storage st' w) ∧
           held st' = delete id (held (storage w));
  storage_flush_ok w : storage_ok w →
    storage_ok (with_storage (storage_flush (storage w)) w) ∧
    held (storage_flush (storage w)) = held (storage w);
  storage_ok_ids w id n : storage_ok w → held (storage w) !! id = Some n →
    0 <= id < storage_ids w ∧ 0 <= n;
  storage_ok_bound w : storage_ok w → 0 <= storage_ids w <= u64_max;
  (** nothing but the storage and its ids matters to the storage *)
  storage_ok_other w w' : storage_ok w → storage w' = storage w →
    storage_ids w <= storage_ids w' <= u64_max → storage_ok w';
}.

Definition dealloc `{ComputeStorage St} (id : StorageId) : M (World St) unit :=
  w ← get; st ← lift (storage_dealloc id (storage w)); modify (with_storage st).
Definition flush `{ComputeStorage St} : M (World St) unit :=
  modify (λ w, with_storage (storage_flush (storage w)) w).

(** ** Host memory *)
Module Bytes.
Record BytesStorage := mk_BytesStorage {
allocations : gmap StorageId Z;   (* the layouts of [memory] *)
allocated : Z;
}.
Definition ALIGNMENT : Z := 64.

Section bytes.
(** The system allocator's answer for a size: whether [alloc_zeroed] gives
  memory or a null pointer. *)
Context (alloc_zeroed : BytesStorage → Z → bool).

(** [Layout::from_size_align(size, ALIGNMENT).unwrap()]: the size rounded up
  to the alignment must not pass [isize::MAX]. *)
Definition layout_from_size (size : Z) : option Z :=
if decide (size <= isize_max - (ALIGNMENT - 1)) then Some size else None.

(** The resource is the pointer with the handle's utilization; the pointer
  is the allocation's, which the id names. *)
Definition get_resource (st : BytesStorage) (h : StorageHandle) : result StorageHandle IoError :=
match allocations st !! storage_id h with
| None => Err (StorageHandleNotFound "the bytes storage")
| Some _ => Ok h
end.

Definition alloc (size : Z) : M (World BytesStorage) (result StorageHandle IoError) :=
id ← storage_id_new;
st ← gets storage;
allocated' ← lift (add_u64 (allocated st) size);
let handle := mk_StorageHandle id (mk_StorageUtilization 0 size) in
if size =? 0 then
  _ ← modify (with_storage (mk_BytesStorage (<[id := 0]> (allocations st)) allocated'));
  mret (Ok handle)
else
  layout ← lift (layout_from_size size);
  if negb (alloc_zeroed st size) then
    allocated'' ← lift (sub_u64 allocated' size);
    _ ← modify (with_storage (mk_BytesStorage (allocations st) allocated''));
    mret (Err (BufferTooBig size))
  else
    _ ← modify (with_storage (mk_BytesStorage (<[id := layout]> (allocations st)) allocated'));
    mret (Ok handle).

Definition dealloc (id : StorageId) (st : BytesStorage) : option BytesStorage :=
match allocations st !! id with
| None => Some st
| Some layout =>
    allocated ← sub_u64 (allocated st) layout;
    Some (mk_BytesStorage (delete id (allocations st)) allocated)
end.

#[export] Instance storage_bytes_storage : ComputeStorage BytesStorage := {|
storage_alignment _ := ALIGNMENT;
storage_get := get_resource;
storage_alloc := alloc;
storage_dealloc := dealloc;
storage_flush st := st;
bytes_allocated := allocated;
held := allocations;
|}.

Definition ok (w : World BytesStorage) : Prop :=
0 <= storage_ids w <= u64_max ∧ allocated (storage w) = map_sum (allocations (storage w)) ∧
∀ id n, allocations (storage w) !! id = Some n → 0 <= id < storage_ids w ∧ 0 <= n.
Definition room (size : Z) (w : World BytesStorage) : Prop :=
0 <= size <= isize_max - (ALIGNMENT - 1) ∧ storage_ids w < u64_max ∧
allocated (storage w) + size <= u64_max.

Lemma alloc_ok size w : ok w → room size w →
wp (alloc size) w (λ r w', ok w' ∧ alloc_result size w r w').
Proof.
intros (Hids & Hsum & Hent) ((Hs0 & Hs) & Hid & Hroom).
assert (allocations (storage w) !! storage_ids w = None) as Hfresh.
{ destruct (allocations (storage w) !! storage_ids w) as [n|] eqn:Hn; [|done].
  apply Hent in Hn. lia. }
assert (∀ a b st' c, a = storage_ids w + 1 →
  allocations st' = <[storage_ids w := size]> (allocations (storage w)) →
  allocated st' = allocated (storage w) + size →
  ok (mk_World b c a st')) as Hins.
{ intros a b st' c -> Ha Hb. split; cbn; [lia|]. rewrite Ha, Hb, map_sum_insert by done.
  split; [lia|]. intros id n. rewrite lookup_insert. case_decide as Hi.
  - intros [= <-]. lia.
  - intros Hn%Hent. lia. }
assert (0 <= allocated (storage w)).
{ rewrite Hsum. apply map_sum_nonneg. intros i n Hn%Hent. lia. }
unfold wp, alloc, storage_id_new, mbind, M_bind, get, put, gets, modify, lift, mret, M_ret.
destruct (Z.eqb_spec (storage_ids w) u64_max); [lia|]. cbn [storage].
rewrite add_u64_Some by lia. rewrite Z.mod_small by lia.
destruct (Z.eqb_spec size 0) as [->|Hne].
- split; [by apply Hins|]. repeat split; cbn; lia.
- unfold layout_from_size. rewrite decide_True by lia. destruct (alloc_zeroed _ size); cbn [negb].
  + split; [by apply Hins|]. repeat split; cbn; lia.
  + rewrite sub_u64_Some by lia. split.
    * split; cbn; [lia|]. split; [lia|]. intros id k Hk%Hent. lia.
    * repeat split; cbn; lia.
Qed.

#[export] Instance bytes_storage_laws : ComputeStorageLaws BytesStorage.
Proof.
refine {| storage_ok := ok; can_alloc := room; storage_alloc_ok := alloc_ok |}.
- intros w (_ & Hs & _). exact Hs.
- intros id w (Hids & Hsum & Hent). cbn. unfold dealloc.
  destruct (allocations (storage w) !! id) as [n|] eqn:Hn.
  + pose proof (map_sum_nonneg (delete id (allocations (storage w)))) as Hpos.
    rewrite (map_sum_delete _ _ _ Hn) in Hpos.
    rewrite sub_u64_Some; [|rewrite Hsum; enough (0 <= map_sum (allocations (storage w)) - n) by lia;
      apply Hpos; intros i k [_ Hk]%lookup_delete_Some; apply Hent in Hk; lia].
    eexists. split; [done|]. split; [|done]. split; cbn; [done|].
    rewrite (map_sum_delete _ _ _ Hn). split; [lia|].
    intros i k [_ Hk]%lookup_delete_Some. by apply Hent.
  + eexists. split; [done|]. split; [by destruct w|]. by rewrite delete_id.
- intros w Hok. split; [by destruct w|done].
- intros w id n (_ & _ & Hent) Hn. by apply Hent.
- by intros w (Hids & _).
- intros w w' (Hids0 & Hsum & Hent) Hst Hids. rewrite <- Hst in *. split; [lia|split; [done|]].
  + intros id n Hn%Hent. lia.
Defined.
End bytes.
End Bytes.

Lemma storage_ok_same `{ComputeStorageLaws St} (w w' : World St) :
  storage_ok w → storage w' = storage w → storage_ids w' = storage_ids w → storage_ok w'.
Proof.
  intros Hok Hs Hi. pose proof (storage_ok_bound _ Hok). eapply storage_ok_other; [done|done|lia].
Qed.

Lemma wp_storage_id_new {St} (w : World St) (Q : Z → World St → Prop) :
  0 <= storage_ids w < u64_max →
  Q (storage_ids w) (mk_World (memory w) (failures w) (storage_ids w + 1) (storage w)) →
  wp storage_id_new w Q.
Proof.
  intros Hb HQ. unfold wp, storage_id_new, mbind, M_bind, get, put, mret, M_ret.
  destruct (Z.eqb_spec (storage_ids w) u64_max); [lia|]. by rewrite Z.mod_small by lia.
Qed.
