(* ===== verification/Slices.v ===== *)
(** * Slices

    [cubecl-server/src/memory_management/memory_pool/base.rs]: the slices the
    pools hand out, the padding they add, and how a fresh page is mapped; and
    the predicates the pools' invariants are made of:
    - [slot]: a handle is held by the slice at an index of a page, and its
      descriptor says so;
    - [laid]: slices follow each other in a page without overlapping;
    - [covered]: the error graph counts the failures a list of taints carries;
    - [evolve]: what an operation may do to descriptors it does not own. *)

From S2P Require Export Storage.
From stdpp Require Import list.
#[local] Open Scope Z_scope.

Record Slice := mk_Slice {
  slice_storage : StorageHandle;
  handle : ManagedMemoryId;
  padding : Z;
  cursor : Z;
  mapped : bool;
  tainted : Taint;
}.

Definition with_handle (h : ManagedMemoryId) (s : Slice) : Slice :=
  mk_Slice (slice_storage s) h (padding s) (cursor s) (mapped s) (tainted s).
Definition with_tainted (t : Taint) (s : Slice) : Slice :=
  mk_Slice (slice_storage s) (handle s) (padding s) (cursor s) (mapped s) t.
Definition with_cursor (c : Z) (s : Slice) : Slice :=
  mk_Slice (slice_storage s) (handle s) (padding s) c (mapped s) (tainted s).
Definition with_slice_storage (st : StorageHandle) (s : Slice) : Slice :=
  mk_Slice st (handle s) (padding s) (cursor s) (mapped s) (tainted s).
Definition with_padding (n : Z) (s : Slice) : Slice :=
  mk_Slice (slice_storage s) (handle s) n (cursor s) (mapped s) (tainted s).
Definition with_mapped (b : bool) (s : Slice) : Slice :=
  mk_Slice (slice_storage s) (handle s) (padding s) (cursor s) b (tainted s).

Definition slice_size (s : Slice) : Z := handle_size (slice_storage s).
Definition slice_offset (s : Slice) : Z := handle_offset (slice_storage s).
Definition effective_size (s : Slice) : option Z := add_u64 (slice_size s) (padding s).

Definition calculate_padding (size memory_alignment : Z) : option Z :=
  if decide (memory_alignment = 0) then None
  else let remainder := size mod memory_alignment in
       Some (if decide (remainder = 0) then 0 else memory_alignment - remainder).

Inductive PageMapping := Eager | Lazy.
#[global] Instance PageMapping_eq_dec : EqDecision PageMapping.
Proof. solve_decision. Defined.
(** [PageMapping::current], given whether the thread is under a dry run. *)
Definition mapping_current (dry_run : bool) : PageMapping := if dry_run then Lazy else Eager.

Section ops.
Context {St : Type}.

Definition slice_new (st : StorageHandle) (padding : Z) : M (World St) Slice :=
  h ← on_memory handle_new;
  mret (mk_Slice st h padding 0 true taint_default).

Definition slice_is_free (s : Slice) : M (World St) bool :=
  on_memory (handle_is_free (handle s)).

(** Dropping a slice drops the handle it holds. *)
Definition slice_drop (s : Slice) : M (World St) unit := on_memory (handle_drop (handle s)).

(** The assignment of the handle drops the one that was there. *)
Definition slice_bind (s : Slice) (h : ManagedMemoryId) : M (World St) Slice :=
  t ← on_failures (clear (tainted s));
  _ ← on_memory (handle_drop (handle s));
  mret (with_handle h (with_tainted t s)).

Definition hand_over (s target : Slice) : M (World St) (Slice * Slice) :=
  _ ← on_failures (clear (tainted target));
  target_location ← on_memory (location (handle target));
  source_location ← on_memory (location (handle s));
  freed ← on_memory handle_new;
  _ ← on_memory (update_location freed source_location);
  _ ← on_memory (update_location (handle s) target_location);
  _ ← on_memory (handle_drop (handle target));
  mret (with_handle freed (with_tainted taint_default s),
        with_handle (handle s) (with_cursor (cursor s) (with_tainted (tainted s) target))).

Context `{ComputeStorage St}.

Definition mapping_storage_handle (mapping : PageMapping) (size : Z) :
    M (World St) (result StorageHandle IoError) :=
  match mapping with
  | Eager => storage_alloc size
  | Lazy => id ← storage_id_new; mret (Ok (mk_StorageHandle id (mk_StorageUtilization 0 size)))
  end.

Definition slice_materialize (s : Slice) : M (World St) (result unit IoError * Slice) :=
  effective_size ← lift (effective_size s);
  r ← storage_alloc effective_size;
  match r with
  | Err err => mret (Err (StorageMappingFailed effective_size err), s)
  | Ok real =>
      mret (Ok tt, with_mapped true
                     (with_slice_storage (with_storage_id (storage_id real) (slice_storage s)) s))
  end.
End ops.

(** ** Padding *)
Lemma calculate_padding_spec size align :
  0 < align → ∃ p, calculate_padding size align = Some p ∧ 0 <= p < align ∧ (align | size + p).
Proof.
  intros Ha. unfold calculate_padding. rewrite decide_False by lia.
  pose proof (Z.mod_pos_bound size align Ha). eexists. split; [done|].
  case_decide as Hr; split; try lia.
  - rewrite Z.add_0_r. by apply Z.mod_divide; [lia|].
  - exists (size / align + 1). pose proof (Z.div_mod size align). lia.
Qed.

(** ** Descriptors an operation does not own *)
Definition counts (m : Memory) (id : Z) : option (Z * Z) :=
  (λ d, (handles d, bindings d)) <$> descriptors m !! id.

Definition memory_wf (m : Memory) : Prop :=
  0 <= COUNTER m <= u64_max ∧
  ∀ id d, descriptors m !! id = Some d → 0 <= id < COUNTER m ∧ 0 <= handles d ∧ 0 <= bindings d.

(** From [m] to [m'], only the descriptors in [moved] had their location
    changed, and only those in [counted] had their owners change; the rest of
    what was allocated in [m] is as it was. *)
Record evolve (moved counted : list Z) (m m' : Memory) : Prop := mk_evolve {
  ev_wf : memory_wf m → memory_wf m';
  ev_counter : COUNTER m <= COUNTER m';
  ev_same id : id < COUNTER m → id ∉ moved → id ∉ counted →
    descriptors m' !! id = descriptors m !! id;
  ev_counts id : id < COUNTER m → id ∉ counted → counts m' id = counts m id;
}.

Lemma evolve_refl m : evolve [] [] m m.
Proof. split; [done|lia|done|done]. Qed.
Lemma evolve_trans a b c d m1 m2 m3 :
  evolve a b m1 m2 → evolve c d m2 m3 → evolve (a ++ c) (b ++ d) m1 m3.
Proof.
  intros [Hw1 Hc1 Hs1 Ht1] [Hw2 Hc2 Hs2 Ht2]. split; [auto|lia| |].
  - intros id Hid Ha Hb. rewrite !not_elem_of_app in *. rewrite Hs2, Hs1; [done|tauto..|lia|tauto|tauto].
  - intros id Hid Hb. rewrite not_elem_of_app in Hb. rewrite Ht2, Ht1; [done|tauto..|lia|tauto].
Qed.
(** Ids that did not exist at the start need not be listed. *)
Lemma evolve_weaken a b c d m m' :
  (∀ id, id < COUNTER m → id ∈ a → id ∈ c ∨ id ∈ d) → (∀ id, id < COUNTER m → id ∈ b → id ∈ d) →
  evolve a b m m' → evolve c d m m'.
Proof.
  intros Ha Hb [Hw Hc Hs Ht]. split; [done|done| |].
  - intros id Hid Hc' Hd'. apply Hs; [done|..]; intros Hin.
    + destruct (Ha id Hid Hin); done.
    + by apply Hd', Hb.
  - intros id Hid Hd'. apply Ht; [done|]. intros Hin. by apply Hd', Hb.
Qed.

(** The handles that were made on the way from [m] to [m'] have one owner
    each, the slice they were made for. *)
Definition fresh_free (m m' : Memory) : Prop :=
  ∀ id, COUNTER m <= id < COUNTER m' → counts m' id = Some (1, 0).
Lemma fresh_free_none m m' : COUNTER m' = COUNTER m → fresh_free m m'.
Proof. intros Hc id Hid. lia. Qed.
Lemma fresh_free_trans a b m1 m2 m3 :
  evolve a b m2 m3 → (∀ id, id ∈ b → id < COUNTER m1) → fresh_free m1 m2 → fresh_free m2 m3 →
  fresh_free m1 m3.
Proof.
  intros He Hb H1 H2 id Hid. destruct (decide (id < COUNTER m2)) as [Hlt|Hge].
  - rewrite (ev_counts _ _ _ _ He) by (done || intros Hin%Hb; lia). apply H1. lia.
  - apply H2. lia.
Qed.

(** The handle of the slice at index [k] of the page [base] names. *)
Definition slot (m : Memory) (base : MemoryLocation) (k : Z) (id : Z) : Prop :=
  ∃ d, descriptors m !! id = Some d ∧ loc_of d = with_slice k base ∧ 1 <= handles d.
Definition freed (m : Memory) (id : Z) : bool :=
  match descriptors m !! id with Some d => is_free d | None => false end.

Lemma freed_counts m m' id : counts m' id = counts m id → freed m' id = freed m id.
Proof.
  unfold counts, freed, is_free.
  destruct (descriptors m' !! id), (descriptors m !! id); cbn; intros [=]; try done.
  congruence.
Qed.
Lemma fresh_is_free m m' id : fresh_free m m' → COUNTER m <= id < COUNTER m' → freed m' id = true.
Proof.
  intros Hf Hid%Hf. unfold counts, freed, is_free in *.
  destruct (descriptors m' !! id) as [d|]; [|done]. cbn in Hid. injection Hid as -> ->. done.
Qed.
Lemma slot_known m base k id : memory_wf m → slot m base k id → 0 <= id < COUNTER m.
Proof. intros [_ Hm] (d & Hd & _). apply Hm in Hd. tauto. Qed.
Lemma slot_evolve moved counted m m' base k id :
  memory_wf m → evolve moved counted m m' → slot m base k id →
  id ∉ moved → id ∉ counted → slot m' base k id.
Proof.
  intros Hm He Hs Hmv Hct. pose proof (slot_known _ _ _ _ Hm Hs) as Hid.
  destruct Hs as (d & Hd & Hl & Hh). exists d. split; [|done].
  rewrite (ev_same _ _ _ _ He) by (done || lia). done.
Qed.

Section store.
Context (id : Z) (m : Memory) (Hm : memory_wf m).

Lemma store_update d d' :
  descriptors m !! id = Some d → 0 <= handles d' → 0 <= bindings d' →
  evolve [id] [id] m (with_descriptors <[id := d']> m).
Proof.
  intros Hd Hh Hb. split; cbn; [|lia| |].
  - intros _. destruct Hm as [Hc Hds]. split; [done|]. cbn. intros id' d0.
    rewrite lookup_insert. case_decide as Hi; [subst id'; intros [= <-]|by intros ?%Hds].
    apply Hds in Hd. lia.
  - intros id' _ Hn _. rewrite lookup_insert_ne; [done|]. intros ->. set_solver.
  - intros id' _ Hn. unfold counts; cbn. rewrite lookup_insert_ne; [done|]. intros ->. set_solver.
Qed.
Lemma store_move d bits :
  descriptors m !! id = Some d →
  evolve [id] [] m (with_descriptors <[id := mk_Descriptor bits (handles d) (bindings d)]> m).
Proof.
  intros Hd. assert (0 <= handles d ∧ 0 <= bindings d) as [Hh Hb] by apply (proj2 Hm id d Hd).
  destruct (store_update d (mk_Descriptor bits (handles d) (bindings d)) Hd Hh Hb)
    as [Hw Hc Hs _].
  split; [done|done| |].
  - intros id' Hid Hn _. apply Hs; done.
  - intros id' _ _. unfold counts; cbn. rewrite lookup_insert.
    case_decide as Hi; [subst id'; by rewrite Hd|done].
Qed.

Lemma wp_slot_update_slice base k k' (Q : unit → Memory → Prop) :
  slot m base k id → location_ok base → 0 <= k' <= u32_max →
  (∀ m', evolve [id] [] m m' → COUNTER m' = COUNTER m → slot m' base k' id → Q tt m') →
  wp (update_slice id k') m Q.
Proof.
  intros (d & Hd & Hl & Hh) Hb Hk HQ. eapply wp_modify_location; [done|]. apply HQ.
  - by eapply store_move.
  - done.
  - eexists. cbn. rewrite lookup_insert_eq. split; [done|]. split; [|done].
    unfold loc_of at 1; cbn. rewrite Hl.
    change (with_slice k' (with_slice k base)) with (with_slice k' base).
    by rewrite from_bits_to_bits by auto.
Qed.

Lemma wp_slot_update_location base k d (Q : unit → Memory → Prop) :
  descriptors m !! id = Some d → 1 <= handles d → location_ok base → 0 <= k <= u32_max →
  (∀ m', evolve [id] [] m m' → COUNTER m' = COUNTER m → slot m' base k id → Q tt m') →
  wp (update_location id (with_slice k base)) m Q.
Proof.
  intros Hd Hh Hb Hk HQ. eapply wp_update_location; [done|]. apply HQ.
  - by eapply store_move.
  - done.
  - eexists. cbn. rewrite lookup_insert_eq. split; [done|]. split; [|done].
    unfold loc_of; cbn. by rewrite from_bits_to_bits by auto.
Qed.

Lemma wp_drop_owner d (Q : unit → Memory → Prop) :
  descriptors m !! id = Some d → 1 <= handles d →
  (∀ m', evolve [] [id] m m' → COUNTER m' = COUNTER m → Q tt m') →
  wp (handle_drop id) m Q.
Proof.
  intros Hd Hh HQ. eapply wp_handle_drop; [done|lia|].
  assert (0 <= bindings d) as Hb by apply (proj2 Hm id d Hd).
  apply HQ; [|done]. eapply evolve_weaken, (store_update d _ Hd); cbn; try lia; set_solver.
Qed.

Lemma wp_clone_owner base k (Q : unit → Memory → Prop) :
  slot m base k id →
  (∀ m', evolve [] [id] m m' → COUNTER m' = COUNTER m → slot m' base k id →
     counts m' id = (λ c, (c.1 + 1, c.2)) <$> counts m id → Q tt m') →
  wp (handle_clone id) m Q.
Proof.
  intros (d & Hd & Hl & Hh) HQ. eapply wp_handle_clone; [done|].
  assert (0 <= bindings d) as Hb by apply (proj2 Hm id d Hd).
  apply HQ; [|done| |].
  - eapply evolve_weaken, (store_update d _ Hd); cbn; try lia; set_solver.
  - eexists. cbn. rewrite lookup_insert_eq. split; [done|]. cbn. split; [done|lia].
  - unfold counts; cbn. by rewrite lookup_insert_eq, Hd.
Qed.
End store.

Lemma wp_new_owner m (Q : Z → Memory → Prop) :
  memory_wf m → COUNTER m < u64_max →
  (∀ m', evolve [] [] m m' → COUNTER m' = COUNTER m + 1 →
     descriptors m' !! COUNTER m = Some (mk_Descriptor (to_bits location_uninit) 1 0) →
     Q (COUNTER m) m') →
  wp handle_new m Q.
Proof.
  intros [Hc Hd] Hlt HQ. apply wp_handle_new; [lia|].
  apply HQ; [|done|cbn; by rewrite lookup_insert_eq].
  split; cbn; [|lia| |].
  - intros _. split; cbn; [lia|]. intros id d. rewrite lookup_insert. case_decide as Hi.
    + intros [= <-]; cbn. lia.
    + intros H%Hd. lia.
  - intros id Hid _ _. rewrite lookup_insert_ne; [done|lia].
  - intros id Hid _. unfold counts; cbn. rewrite lookup_insert_ne; [done|lia].
Qed.

(** ** Slices that follow each other *)
Fixpoint laid (align lo hi : Z) (l : list Slice) : Prop :=
  match l with
  | [] => lo <= hi
  | s :: l => lo <= slice_offset s ∧ (align | slice_offset s) ∧ 0 <= slice_size s ∧ 0 <= padding s ∧
              laid align (slice_offset s + slice_size s + padding s) hi l
  end.

Lemma laid_bounds align lo hi l : laid align lo hi l → lo <= hi.
Proof. revert lo. induction l as [|s l IH]; intros lo; cbn; [done|]. intros (?&?&?&?&?%IH). lia. Qed.
Lemma laid_app align lo hi l1 l2 :
  laid align lo hi (l1 ++ l2) ↔ ∃ mid, laid align lo mid l1 ∧ laid align mid hi l2.
Proof.
  revert lo. induction l1 as [|s l1 IH]; intros lo; cbn.
  - split; [intros H; by exists lo|]. intros (mid & H1 & H2).
    destruct l2; cbn in *; [lia|]. destruct H2 as (?&?&?&?&?). split_and!; [lia|done..].
  - rewrite IH. split.
    + intros (?&?&?&?&mid&?&?). exists mid. done.
    + intros (mid&(?&?&?&?&?)&?). split_and!; try done. by exists mid.
Qed.
Lemma laid_lower align lo lo' hi l : laid align lo hi l → lo' <= lo → laid align lo' hi l.
Proof. destruct l; cbn; [lia|]. intros (?&?&?&?&?) ?. split_and!; [lia|done..]. Qed.

(** Two slices of a page share no byte. *)
Lemma laid_disjoint align lo hi l i j s t :
  laid align lo hi l → (i < j)%nat → l !! i = Some s → l !! j = Some t →
  slice_offset s + slice_size s + padding s <= slice_offset t.
Proof.
  revert lo i j. induction l as [|u l IH]; intros lo i j Hl Hij Hi Hj; [done|].
  destruct j as [|j]; [lia|]. cbn in Hl, Hj. destruct Hl as (_&_&?&?&Hl).
  destruct i as [|i]; [|eapply IH; [done| |done|done]; lia].
  injection Hi as ->. clear IH. remember (slice_offset s + _ + _) as lo' eqn:Hlo'. clear Hlo'.
  revert lo' j Hl Hij Hj. induction l as [|v l IH]; intros lo' j Hl _ Hj; [done|].
  cbn in Hl. destruct Hl as (?&_&?&?&Hl). destruct j as [|j]; [injection Hj as ->; lia|].
  specialize (IH _ j Hl ltac:(lia) Hj). lia.
Qed.
Lemma laid_within align lo hi l s :
  laid align lo hi l → s ∈ l →
  lo <= slice_offset s ∧ (align | slice_offset s) ∧ 0 <= slice_size s ∧ 0 <= padding s ∧
  slice_offset s + slice_size s + padding s <= hi.
Proof.
  intros Hl (l1 & l2 & ->)%list_elem_of_split. apply laid_app in Hl as (mid & H1 & H2).
  apply laid_bounds in H1. cbn in H2. destruct H2 as (?&?&?&?&H2%laid_bounds).
  split_and!; [lia|done..].
Qed.

(** ** Counted taints *)
Definition covered (g : ErrorGraph) (ts : list Taint) : Prop :=
  Forall taint_ok ts ∧ ∀ f, carriers ts f <= tags g f.

Lemma carriers_app ts1 ts2 f : carriers (ts1 ++ ts2) f = carriers ts1 f + carriers ts2 f.
Proof. unfold carriers. by rewrite fmap_app, sum_Z_app. Qed.
Lemma carriers_cons t ts f : carriers (t :: ts) f = carries (entries t) f + carriers ts f.
Proof. done. Qed.

Lemma carriers_default f : carriers [taint_default] f = 0.
Proof. reflexivity. Qed.

Lemma covered_counted g t ts : covered g (t :: ts) → counted g (entries t).
Proof.
  intros [_ Hc] f Hf. specialize (Hc f). rewrite carriers_cons in Hc.
  pose proof (carriers_range ts f). unfold carries in Hc. rewrite decide_True in Hc by done. lia.
Qed.
(** Releases leave the other carriers covered. *)
Lemma covered_shifted g g' o ts ts' :
  covered g (o ++ ts) → Forall taint_ok ts' → (∀ f, carriers ts' f <= carriers ts f) →
  shifted (λ f, carriers ts' f - carriers ts f) g g' → covered g' (o ++ ts').
Proof.
  intros [Hok Hc] Hok' Hle Hs. apply Forall_app in Hok as [Ho _]. split.
  { by apply Forall_app. }
  intros f. specialize (Hc f). specialize (Hle f). rewrite carriers_app in *.
  destruct (nodes g !! f) as [n|] eqn:Hn.
  - rewrite (shifted_tags _ _ _ _ Hs) by by eexists. lia.
  - unfold tags in *. rewrite Hn in Hc. rewrite (proj2 Hs), Hn. cbn.
    pose proof (carriers_range o f). lia.
Qed.
Lemma covered_perm g ts ts' : ts ≡ₚ ts' → covered g ts → covered g ts'.
Proof.
  intros Hp [Hok Hc]. split; [by rewrite <- Hp|]. intros f. rewrite <- (Hc f).
  clear Hok Hc. enough (carriers ts' f = carriers ts f) by lia.
  induction Hp as [|t ts ts' _ IH|t t' ts|ts1 ts2 ts3 _ IH1 _ IH2]; try done;
    rewrite ?carriers_cons in *; lia.
Qed.

Lemma wp_clear_covered t ts g (Q : Taint → ErrorGraph → Prop) :
  covered g (t :: ts) →
  (∀ g', shifted (λ f, - carries (entries t) f) g g' → covered g' ts → Q taint_default g') →
  wp (clear t) g Q.
Proof.
  intros Hc HQ. eapply wp_mono; [apply clear_spec|].
  - by destruct Hc as [[? _]%Forall_cons _].
  - by eapply covered_counted.
  - intros t' g' [-> Hs]. apply HQ; [done|].
    assert (covered g' (ts ++ [taint_default])) as [Hok Hc'].
    { eapply (covered_shifted g g' ts [t]).
      - eapply covered_perm, Hc. rewrite Permutation_app_comm. done.
      - constructor; [apply taint_default_ok|constructor].
      - intros f. pose proof (carriers_range [t] f). rewrite carriers_default. lia.
      - eapply shifted_ext, Hs. intros f. cbn beta. rewrite carriers_default.
        rewrite carriers_cons. change (carriers [] f) with 0. lia. }
    apply Forall_app in Hok as [Hok _]. split; [done|].
    intros f. specialize (Hc' f). rewrite carriers_app, carriers_default in Hc'. lia.
Qed.

(** ** Released claims

    Every failure the taints [ts] carried has been released, once for each of
    them that carried it. *)
Definition released (g g' : ErrorGraph) (ts : list Taint) : Prop :=
  shifted (λ f, - carriers ts f) g g'.

Lemma released_nil g : released g g [].
Proof. eapply shifted_ext, shifted_refl. done. Qed.
Lemma released_perm g g' ts ts' : ts ≡ₚ ts' → released g g' ts → released g g' ts'.
Proof.
  intros Hp Hr. eapply shifted_ext, Hr. intros f. f_equal. clear Hr.
  induction Hp as [|t ts ts' _ IH|t t' ts|ts1 ts2 ts3 _ IH1 _ IH2]; try done;
    rewrite ?carriers_cons in *; lia.
Qed.
Lemma covered_app_l g ts1 ts2 : covered g (ts1 ++ ts2) → covered g ts1.
Proof.
  intros [Hok Hc]. split; [by apply Forall_app in Hok as [? _]|]. intros f. specialize (Hc f).
  rewrite carriers_app in Hc. pose proof (carriers_range ts2 f). lia.
Qed.
Lemma covered_app_r g ts1 ts2 : covered g (ts1 ++ ts2) → covered g ts2.
Proof. intros H. apply (covered_app_l g ts2 ts1). by eapply covered_perm; [apply Permutation_app_comm|]. Qed.

Lemma covered_released g g' ts1 ts2 : covered g (ts1 ++ ts2) → released g g' ts1 → covered g' ts2.
Proof.
  intros Hc Hr.
  assert (covered g' (ts2 ++ [])) as H.
  { eapply (covered_shifted g g' ts2 ts1 []).
    - eapply covered_perm; [apply Permutation_app_comm|done].
    - constructor.
    - intros f. pose proof (carriers_range ts1 f). change (carriers [] f) with 0. lia.
    - eapply shifted_ext, Hr. intros f. cbn beta. change (carriers [] f) with 0. lia. }
  by rewrite app_nil_r in H.
Qed.
Lemma released_app g1 g2 g3 ts1 ts2 :
  covered g1 (ts1 ++ ts2) → released g1 g2 ts1 → released g2 g3 ts2 → released g1 g3 (ts1 ++ ts2).
Proof.
  intros [_ Hc] H1 H2. eapply shifted_ext, (shifted_trans _ _ g1 g2 g3); [| |exact H1|exact H2].
  - intros f. cbn beta. rewrite carriers_app. lia.
  - intros f n Hn. right; right. specialize (Hc f). rewrite carriers_app in Hc.
    unfold tags in Hc. rewrite Hn in Hc.
    pose proof (carriers_range ts1 f). pose proof (carriers_range ts2 f). lia.
Qed.

Lemma wp_clear_released t ts g (Q : Taint → ErrorGraph → Prop) :
  covered g (t :: ts) →
  (∀ g', released g g' [t] → covered g' ts → Q taint_default g') →
  wp (clear t) g Q.
Proof.
  intros Hc HQ. apply (wp_clear_covered t ts); [done|]. intros g' Hs Hc'. apply HQ; [|done].
  eapply shifted_ext, Hs. intros f. rewrite carriers_cons. change (carriers [] f) with 0. lia.
Qed.

(** ** The bytes slices take *)
Definition eff (s : Slice) : Z := slice_size s + padding s.
Definition effs (l : list Slice) : Z := sum_Z (eff <$> l).

Lemma effs_cons s l : effs (s :: l) = eff s + effs l.
Proof. done. Qed.
Lemma effs_app l1 l2 : effs (l1 ++ l2) = effs l1 + effs l2.
Proof. unfold effs. by rewrite fmap_app, sum_Z_app. Qed.
Lemma effs_snoc l s : effs (l ++ [s]) = effs l + eff s.
Proof. rewrite effs_app, effs_cons. change (effs []) with 0. lia. Qed.
Lemma laid_effs align lo hi l : laid align lo hi l → 0 <= effs l <= hi - lo.
Proof.
  revert lo. induction l as [|s l IH]; intros lo; cbn [laid].
  - change (effs []) with 0. lia.
  - intros (?&_&?&?&?%IH). rewrite effs_cons. unfold eff. lia.
Qed.
Lemma laid_effs_from align lo hi s l :
  laid align lo hi (s :: l) → slice_offset s + effs (s :: l) <= hi.
Proof. cbn [laid]. intros (_&_&?&?&H%laid_effs). rewrite effs_cons. unfold eff. lia. Qed.
