(* ===== verification/Usage.v ===== *)
(** * Memory usage reports

    [cubecl-runtime/src/memory_management/base.rs]: what a pool, a stream and
    a device say they hold, and the totals taken over them. *)

From S2P Require Export Server.
From stdpp Require Import list.
#[local] Open Scope Z_scope.

Record MemoryUsage := mk_MemoryUsage {
  number_allocs : Z;
  bytes_in_use : Z;
  bytes_padding : Z;
  bytes_reserved : Z;
}.
Definition usage_default : MemoryUsage := mk_MemoryUsage 0 0 0 0.

Definition combine (u v : MemoryUsage) : option MemoryUsage :=
  allocs ← add_u64 (number_allocs u) (number_allocs v);
  in_use ← add_u64 (bytes_in_use u) (bytes_in_use v);
  padding ← add_u64 (bytes_padding u) (bytes_padding v);
  reserved ← add_u64 (bytes_reserved u) (bytes_reserved v);
  Some (mk_MemoryUsage allocs in_use padding reserved).

Inductive MemoryPoolKind :=
| KindSliced (page_size max_slice_size : Z)
| KindAdaptive (page_size outdated_pages : Z)
| KindExclusive (max_alloc_size : Z)
| KindDirect
| KindPersistent.

Record MemoryPoolReport := mk_MemoryPoolReport {
  kind : MemoryPoolKind;
  pool_usage : MemoryUsage;
  report_pages : Z;
  report_pages_peak : Z;
  pages_unmapped : Z;
  report_largest_alloc : Z;
}.
Record MemoryPoolsReport := mk_MemoryPoolsReport {
  dynamic : list MemoryPoolReport;
  persistent : MemoryPoolReport;
  dedicated : MemoryPoolReport;
}.
Record AuxiliaryMemoryReport := mk_AuxiliaryMemoryReport {
  auxiliary_name : string;
  auxiliary_pools : MemoryPoolsReport;
}.
Record StreamMemoryReport := mk_StreamMemoryReport {
  report_stream : Z;
  stream_pools : MemoryPoolsReport;
  auxiliary : list AuxiliaryMemoryReport;
}.
Record MemoryReport := mk_MemoryReport { streams : list StreamMemoryReport }.

(** [iter.fold(start, |usage, x| usage.combine(f(x)))] *)
Fixpoint combine_all {A} (f : A → option MemoryUsage) (l : list A) (usage : MemoryUsage) :
    option MemoryUsage :=
  match l with
  | [] => Some usage
  | x :: l => v ← f x; usage ← combine usage v; combine_all f l usage
  end.
Definition pools_usage (r : MemoryPoolsReport) : option MemoryUsage :=
  combine_all (λ pool, Some (pool_usage pool)) (dynamic r ++ [persistent r; dedicated r]) usage_default.
Definition stream_usage (r : StreamMemoryReport) : option MemoryUsage :=
  usage ← pools_usage (stream_pools r);
  combine_all (λ memory, pools_usage (auxiliary_pools memory)) (auxiliary r) usage.
Definition report_usage (r : MemoryReport) : option MemoryUsage :=
  combine_all stream_usage (streams r) usage_default.

(** Every pool a report covers. *)
Definition pools_of (r : MemoryPoolsReport) : list MemoryPoolReport :=
  dynamic r ++ [persistent r; dedicated r].
Definition pools_of_stream (r : StreamMemoryReport) : list MemoryPoolReport :=
  pools_of (stream_pools r) ++ flat_map (λ m, pools_of (auxiliary_pools m)) (auxiliary r).
Definition pools_of_report (r : MemoryReport) : list MemoryPoolReport :=
  flat_map pools_of_stream (streams r).

(** The four numbers of a usage, and their plain sums. *)
Definition numbers (u : MemoryUsage) : list Z :=
  [number_allocs u; bytes_in_use u; bytes_padding u; bytes_reserved u].
Definition usage_add (u v : MemoryUsage) : MemoryUsage :=
  mk_MemoryUsage (number_allocs u + number_allocs v) (bytes_in_use u + bytes_in_use v)
    (bytes_padding u + bytes_padding v) (bytes_reserved u + bytes_reserved v).
Definition usage_sum (l : list MemoryUsage) : MemoryUsage := foldr usage_add usage_default l.
Definition usage_ok (u : MemoryUsage) : Prop := Forall (λ n, 0 <= n) (numbers u).
Definition usage_fits (u : MemoryUsage) : Prop := Forall (λ n, n <= u64_max) (numbers u).

Lemma usage_eq u v : numbers u = numbers v → u = v.
Proof. destruct u, v. unfold numbers; cbn. by intros [= -> -> -> ->]. Qed.
Lemma usage_add_default u : usage_add usage_default u = u.
Proof. by destruct u. Qed.
Lemma usage_add_assoc u v x : usage_add u (usage_add v x) = usage_add (usage_add u v) x.
Proof. apply usage_eq. unfold numbers; cbn. by rewrite !Z.add_assoc. Qed.
Lemma usage_sum_cons u l : usage_sum (u :: l) = usage_add u (usage_sum l).
Proof. done. Qed.
Lemma usage_sum_app l k : usage_sum (l ++ k) = usage_add (usage_sum l) (usage_sum k).
Proof.
  induction l as [|u l IH]; [by rewrite usage_add_default|].
  by rewrite <- app_comm_cons, !usage_sum_cons, IH, usage_add_assoc.
Qed.
Lemma usage_add_ok u v : usage_ok u → usage_ok v → usage_ok (usage_add u v).
Proof. unfold usage_ok, numbers; cbn. rewrite !Forall_cons. intuition lia. Qed.
Lemma usage_sum_ok l : Forall usage_ok l → usage_ok (usage_sum l).
Proof. induction 1 as [|u l Hu _ IH]; [by repeat constructor|]. by apply usage_add_ok. Qed.
Lemma usage_fits_add u v : usage_ok v → usage_fits (usage_add u v) → usage_fits u.
Proof. unfold usage_ok, usage_fits, numbers. cbn. rewrite !Forall_cons. intuition lia. Qed.

Lemma usage_fits_r u v : usage_ok u → usage_fits (usage_add u v) → usage_fits v.
Proof. unfold usage_ok, usage_fits, numbers. cbn. rewrite !Forall_cons. intuition lia. Qed.

Lemma combine_fits u v : usage_fits (usage_add u v) → combine u v = Some (usage_add u v).
Proof.
  unfold usage_fits, numbers; cbn. rewrite !Forall_cons. intros (?&?&?&?&_).
  unfold combine. by rewrite !add_u64_Some by lia.
Qed.

Lemma combine_all_sum {A} (f : A → option MemoryUsage) (g : A → MemoryUsage) l u :
  Forall (λ x, usage_ok (g x)) l → usage_fits (usage_add u (usage_sum (g <$> l))) →
  (∀ x, x ∈ l → usage_fits (g x) → f x = Some (g x)) → usage_ok u →
  combine_all f l u = Some (usage_add u (usage_sum (g <$> l))).
Proof.
  intros Hok. revert u. induction Hok as [|x l Hx Hok IH]; intros u Hfit Hf Hu.
  { cbn. f_equal. apply usage_eq. unfold numbers; cbn. by rewrite !Z.add_0_r. }
  change (usage_sum (g <$> x :: l)) with (usage_add (g x) (usage_sum (g <$> l))) in *.
  rewrite usage_add_assoc in *. cbn [combine_all].
  assert (usage_ok (usage_sum (g <$> l))) as Hrest by (apply usage_sum_ok; by apply Forall_fmap).
  assert (usage_fits (usage_add u (g x))) as Hux by by eapply usage_fits_add.
  rewrite Hf; [|by left|].
  2: { by eapply usage_fits_r, Hux. }
  cbn. rewrite combine_fits by done. cbn. apply IH; [done| |].
  - intros y Hy. apply Hf. by right.
  - by apply usage_add_ok.
Qed.

Definition pools_sum (r : MemoryPoolsReport) : MemoryUsage := usage_sum (pool_usage <$> pools_of r).
Definition stream_sum (r : StreamMemoryReport) : MemoryUsage :=
  usage_sum (pool_usage <$> pools_of_stream r).

Lemma pools_usage_sum r : Forall usage_ok (pool_usage <$> pools_of r) → usage_fits (pools_sum r) →
  pools_usage r = Some (pools_sum r).
Proof.
  intros Hok Hfit. unfold pools_usage.
  rewrite (combine_all_sum _ pool_usage); rewrite ?usage_add_default; try done.
  - rewrite Forall_fmap in Hok. exact Hok.
  - by repeat constructor.
Qed.

Lemma usage_sum_flat {A} (f : A → list MemoryUsage) l :
  usage_sum (flat_map f l) = usage_sum (usage_sum ∘ f <$> l).
Proof. 
  induction l as [|x l IH]; [done|].
  by rewrite fmap_cons, usage_sum_cons, <- IH; cbn [flat_map]; rewrite usage_sum_app.
Qed.
Lemma fmap_flat_map {A B C} (g : B → C) (f : A → list B) l :
  g <$> flat_map f l = flat_map (λ x, g <$> f x) l.
Proof. induction l as [|x l IH]; cbn; [done|]. by rewrite fmap_app, IH. Qed.

Lemma stream_usage_sum r : Forall usage_ok (pool_usage <$> pools_of_stream r) →
  usage_fits (stream_sum r) → stream_usage r = Some (stream_sum r).
Proof.
  unfold stream_sum, pools_of_stream. rewrite fmap_app, usage_sum_app, fmap_flat_map, usage_sum_flat.
  intros [Hp Ha]%Forall_app Hfit. unfold stream_usage.
  assert (Forall (λ m, Forall usage_ok (pool_usage <$> pools_of (auxiliary_pools m))) (auxiliary r))
    as Haux.
  { apply Forall_forall. intros m Hm. apply Forall_forall. intros u Hu.
    apply (proj1 (Forall_forall _ _) Ha). apply list_elem_of_In, in_flat_map.
    exists m. by rewrite <- !list_elem_of_In. }
  assert (Forall (λ m, usage_ok (pools_sum (auxiliary_pools m))) (auxiliary r)) as Haux'.
  { eapply Forall_impl; [done|]. intros m Hm. by apply usage_sum_ok. }
  rewrite pools_usage_sum; [|done|].
  2: { eapply usage_fits_add, Hfit. apply usage_sum_ok. by apply Forall_fmap. }
  cbn. apply (combine_all_sum _ (λ m, pools_sum (auxiliary_pools m))); try done.
  - intros m Hm Hf. apply pools_usage_sum; [|done]. by apply (proj1 (Forall_forall _ _) Haux).
  - by apply usage_sum_ok.
Qed.

(** The usage of a device is the sum of the usages of every pool of every
    stream, the auxiliary memories included, each counted once; no addition on
    the way overflows when the totals fit. *)
Theorem report_usage_is_total r :
  Forall usage_ok (pool_usage <$> pools_of_report r) →
  usage_fits (usage_sum (pool_usage <$> pools_of_report r)) →
  report_usage r = Some (usage_sum (pool_usage <$> pools_of_report r)).
Proof.
  unfold pools_of_report. rewrite fmap_flat_map, usage_sum_flat. intros Hok Hfit.
  assert (Forall (λ s, Forall usage_ok (pool_usage <$> pools_of_stream s)) (streams r)) as Hs.
  { apply Forall_forall. intros m Hm. apply Forall_forall. intros u Hu.
    apply (proj1 (Forall_forall _ _) Hok). apply list_elem_of_In, in_flat_map.
    exists m. by rewrite <- !list_elem_of_In. }
  unfold report_usage. rewrite (combine_all_sum _ stream_sum); rewrite ?usage_add_default; try done.
  - eapply Forall_impl; [done|]. intros s ?. by apply usage_sum_ok.
  - intros s Hin Hf. apply stream_usage_sum; [|done]. by apply (proj1 (Forall_forall _ _) Hs).
  - by repeat constructor.
Qed.

Lemma report_usage_is_total_witness :
  let pool n := mk_MemoryPoolReport KindDirect (mk_MemoryUsage n (10 * n) 1 (20 * n)) 1 1 0 0 in
  let pools := mk_MemoryPoolsReport [pool 1; pool 2] (pool 3) (pool 4) in
  report_usage (mk_MemoryReport
    [mk_StreamMemoryReport 0 pools []; mk_StreamMemoryReport 1 pools [mk_AuxiliaryMemoryReport "a" pools]])
  = Some (mk_MemoryUsage 30 300 12 600).
Proof.
  apply report_usage_is_total; unfold usage_ok, usage_fits;
    apply (bool_decide_unpack _); vm_compute; exact I.
Defined.
