(* ===== verification/MemoryPage.v ===== *)
(** * Memory pages

    [cubecl-server/src/memory_management/memory_pool/memory_page.rs]: a page
    carves slices out of one storage buffer.  [slices_tmp], a scratch vector
    that is empty between calls, is the list under construction of the loops
    that fill it. *)

From S2P Require Export Slices Usage.
From stdpp Require Import list.
#[local] Open Scope Z_scope.

Record MemoryPage := mk_MemoryPage {
  page_storage : StorageHandle;
  slices : list Slice;
  alignment : Z;
  location_base : MemoryLocation;
  page_mapped : bool;
  guards : Z;   (* Arc::strong_count(&self.guards) *)
}.

Definition with_slices (l : list Slice) (p : MemoryPage) : MemoryPage :=
  mk_MemoryPage (page_storage p) l (alignment p) (location_base p) (page_mapped p) (guards p).

Definition is_mapped (p : MemoryPage) : bool := page_mapped p.
Definition page_guard (p : MemoryPage) : MemoryPage :=
  mk_MemoryPage (page_storage p) (slices p) (alignment p) (location_base p) (page_mapped p)
    (guards p + 1).
Definition is_guarded (p : MemoryPage) : bool := 1 <? guards p.
Definition page_size (p : MemoryPage) : Z := handle_size (page_storage p).
Definition page_storage_id (p : MemoryPage) : StorageId := storage_id (page_storage p).

(** [MemoryJob] and [MemoryTask]: the runs of free slices to merge. *)
Record MemoryTask := mk_MemoryTask {
  start_index : nat;
  count : nat;
  task_cursor : nat;
  task_size : Z;
}.
Definition MemoryTask_default : MemoryTask := mk_MemoryTask 0 0 0 0.
Inductive MemoryTaskStatus := Merging | StartMerging | Ignoring | Completed.

(** The [debug_assert!] is a panic. *)
Definition tag_coalesce (index : nat) (task : MemoryTask) : option MemoryTask :=
  let start := if decide (count task = 0%nat) then index else start_index task in
  if decide (start + count task = index)%nat
  then Some (mk_MemoryTask start (count task + 1) (task_cursor task) (task_size task))
  else None.

Definition on_coalesce (index : nat) (task : MemoryTask) : MemoryTaskStatus * MemoryTask :=
  let index_current := (start_index task + task_cursor task)%nat in
  if decide (index_current = index) then
    let cursor := (task_cursor task + 1)%nat in
    let task := mk_MemoryTask (start_index task) (count task) cursor (task_size task) in
    if decide (cursor = 1%nat) then (StartMerging, task)
    else if decide (cursor = count task) then (Completed, task) else (Merging, task)
  else (Ignoring, task).

(** [MemoryJob::add]: the tasks with [task] pushed if it merges anything, and
    the task that replaces it. *)
Definition job_add (tasks : list MemoryTask) (task : MemoryTask) : list MemoryTask * MemoryTask :=
  if decide (count task < 2)%nat then (tasks, MemoryTask_default)
  else (tasks ++ [task], MemoryTask_default).

(** [MemoryPage::summary] *)
Record MemoryBlock := mk_MemoryBlock { block_is_free : bool; block_size : Z }.
Record MemoryPageSummary := mk_MemoryPageSummary {
  blocks : list MemoryBlock;
  amount_free : Z; amount_full : Z; amount_total : Z;
  num_free : Z; num_full : Z; num_total : Z;
}.

Section page.
Context {St : Type}.

Definition page_new (storage : StorageHandle) (alignment : Z) (base : MemoryLocation)
    (mapping : PageMapping) : M (World St) MemoryPage :=
  slice ← slice_new storage 0;
  _ ← on_memory (update_location (handle slice) (with_slice 0 base));
  mret (mk_MemoryPage storage [slice] alignment base (bool_decide (mapping = Eager)) 1).

(** [self.slices.iter().all(Slice::is_free)] *)
Fixpoint all_free (l : list Slice) : M (World St) bool :=
  match l with
  | [] => mret true
  | s :: l => free ← slice_is_free s; if free : bool then all_free l else mret false
  end.
Definition is_empty (p : MemoryPage) : M (World St) bool := all_free (slices p).

Fixpoint live_slices (l : list Slice) : M (World St) (list Slice) :=
  match l with
  | [] => mret []
  | s :: l => free ← slice_is_free s; rest ← live_slices l;
              mret (if free : bool then rest else s :: rest)
  end.
Definition live (p : MemoryPage) : M (World St) (list Slice) := live_slices (slices p).

Definition slice_at (p : MemoryPage) (index : nat) : option Slice := slices p !! index.

Definition rebind_storage (id : StorageId) (p : MemoryPage) : MemoryPage :=
  mk_MemoryPage (with_storage_id id (page_storage p))
    ((λ s, with_slice_storage (with_storage_id id (slice_storage s)) s) <$> slices p)
    (alignment p) (location_base p) true (guards p).

Definition page_bind (p : MemoryPage) (reserved new : ManagedMemoryId) (cursor : Z) :
    M (World St) (result unit IoError * MemoryPage) :=
  location ← on_memory (location reserved);
  let index := Z.to_nat (slice location) in
  s ← lift (slices p !! index);
  _ ← on_memory (update_location new location);
  s ← slice_bind (with_cursor cursor s) new;
  _ ← on_memory (handle_drop reserved);
  mret (Ok tt, with_slices (<[index := s]> (slices p)) p).

Fixpoint usage_of (l : list Slice) (usage : MemoryUsage) : M (World St) MemoryUsage :=
  match l with
  | [] => mret usage
  | s :: l =>
      eff ← lift (effective_size s);
      reserved ← lift (add_u64 (bytes_reserved usage) eff);
      free ← slice_is_free s;
      if free : bool then
        usage_of l (mk_MemoryUsage (number_allocs usage) (bytes_in_use usage)
                      (bytes_padding usage) reserved)
      else
        allocs ← lift (add_u64 (number_allocs usage) 1);
        in_use ← lift (add_u64 (bytes_in_use usage) (slice_size s));
        padding ← lift (add_u64 (bytes_padding usage) (padding s));
        usage_of l (mk_MemoryUsage allocs in_use padding reserved)
  end.
Definition memory_usage (p : MemoryPage) : M (World St) MemoryUsage :=
  usage_of (slices p) (mk_MemoryUsage 0 0 0 0).

Fixpoint summary_of (memory_blocks : bool) (l : list Slice) (sum : MemoryPageSummary) :
    M (World St) MemoryPageSummary :=
  match l with
  | [] => mret sum
  | s :: l =>
      free ← slice_is_free s;
      eff ← lift (effective_size s);
      let blocks := if memory_blocks then blocks sum ++ [mk_MemoryBlock free eff] else blocks sum in
      if free : bool then
        amount ← lift (add_u64 (amount_free sum) eff);
        summary_of memory_blocks l
          (mk_MemoryPageSummary blocks amount (amount_full sum) (amount_total sum)
             (num_free sum + 1) (num_full sum) (num_total sum))
      else
        amount ← lift (add_u64 (amount_full sum) eff);
        summary_of memory_blocks l
          (mk_MemoryPageSummary blocks (amount_free sum) amount (amount_total sum)
             (num_free sum) (num_full sum + 1) (num_total sum))
  end.
Definition summary (p : MemoryPage) (memory_blocks : bool) : M (World St) MemoryPageSummary :=
  sum ← summary_of memory_blocks (slices p) (mk_MemoryPageSummary [] 0 0 0 0 0 0);
  mret (mk_MemoryPageSummary (blocks sum) (amount_free sum) (amount_full sum) (page_size p)
          (num_free sum) (num_full sum) (Z.of_nat (length (slices p)))).

(** The search of [try_reserve]: the first slice that is large enough and
    free. *)
Fixpoint find_slot (effective_size : Z) (l : list Slice) (index : nat) :
    M (World St) (option (nat * Slice)) :=
  match l with
  | [] => mret None
  | s :: l =>
      free ← (if effective_size <=? slice_size s then slice_is_free s else mret false);
      if free : bool then mret (Some (index, s)) else find_slot effective_size l (S index)
  end.

(** The loop of [add_new_slice] over the drained slices. *)
Fixpoint add_loop (base : MemoryLocation) (index_previous : nat) (reserved_size_previous : Z)
    (l : list Slice) (index_current : nat) (new_slice : option Slice) (slices_tmp : list Slice) :
    M (World St) (list Slice) :=
  match l with
  | [] => mret slices_tmp
  | s :: l =>
      let pos := as_u32 (Z.of_nat (length slices_tmp)) in
      if decide (index_current = index_previous) then
        let s := with_slice_storage (with_size reserved_size_previous (slice_storage s)) s in
        _ ← on_memory (update_slice (handle s) pos);
        let slices_tmp := slices_tmp ++ [s] in
        let pos := as_u32 (Z.of_nat (length slices_tmp)) in
        new ← lift new_slice;
        _ ← on_memory (update_location (handle new) (with_slice pos base));
        add_loop base index_previous reserved_size_previous l (index_current + 2) None
          (slices_tmp ++ [new])
      else
        _ ← on_memory (update_slice (handle s) pos);
        add_loop base index_previous reserved_size_previous l (index_current + 1) new_slice
          (slices_tmp ++ [s])
  end.
Definition add_new_slice (p : MemoryPage) (index_previous : nat) (reserved_size_previous : Z)
    (new_slice : Slice) : M (World St) MemoryPage :=
  l ← add_loop (location_base p) index_previous reserved_size_previous (slices p) 0
        (Some new_slice) [];
  mret (with_slices l p).

Definition try_reserve (p : MemoryPage) (size : Z) :
    M (World St) (option ManagedMemoryId * MemoryPage) :=
  padding ← lift (calculate_padding size (alignment p));
  effective_size ← lift (add_u64 size padding);
  found ← find_slot effective_size (slices p) 0;
  match found with
  | None => mret (None, p)
  | Some (index, s) =>
      let can_be_split := effective_size <? slice_size s in
      _ ← on_memory (handle_clone (handle s));
      let storage_old := slice_storage s in
      let s' := with_padding padding (with_slice_storage (with_size size (slice_storage s)) s) in
      let p := with_slices (<[index := s']> (slices p)) p in
      if can_be_split then
        rest ← lift (offset_start storage_old effective_size);
        new_slice ← slice_new rest 0;
        p ← add_new_slice p index size new_slice;
        mret (Some (handle s), p)
      else mret (Some (handle s), p)
  end.

(** [find] and [find_mut], which differ in the borrow they take. *)
Definition page_find (p : MemoryPage) (binding : ManagedMemoryId) :
    M (World St) (result Slice IoError) :=
  location ← on_memory (location binding);
  mret (match slices p !! Z.to_nat (slice location) with
        | Some s => Ok s
        | None => Err (NotFound "Memory slice doesn't exist")
        end).

Fixpoint shed_slices (l : list Slice) : M (World St) (list Slice) :=
  match l with
  | [] => mret []
  | s :: l => t ← on_failures (clear (tainted s)); (with_tainted t s ::.) <$> shed_slices l
  end.
Definition shed (p : MemoryPage) : M (World St) MemoryPage :=
  l ← shed_slices (slices p); mret (with_slices l p).

Fixpoint update_pages (page : Z) (l : list Slice) : M (World St) unit :=
  match l with
  | [] => mret tt
  | s :: l => _ ← on_memory (update_page (handle s) page); update_pages page l
  end.
Definition page_update_page (page : Z) (p : MemoryPage) : M (World St) MemoryPage :=
  _ ← update_pages page (slices p);
  mret (mk_MemoryPage (page_storage p) (slices p) (alignment p)
          (with_page page (location_base p)) (page_mapped p) (guards p)).

Fixpoint memory_job (l : list Slice) (index : nat) (tasks : list MemoryTask) (task : MemoryTask) :
    M (World St) (list MemoryTask) :=
  match l with
  | [] => mret (job_add tasks task).1
  | s :: l =>
      free ← slice_is_free s;
      if free : bool then
        eff ← lift (effective_size s);
        total ← lift (add_u64 (task_size task) eff);
        task ← lift (tag_coalesce index
                 (mk_MemoryTask (start_index task) (count task) (task_cursor task) total));
        memory_job l (S index) tasks task
      else
        let '(tasks, task) := job_add tasks task in
        memory_job l (S index) tasks task
  end.

(** The loop of [coalesce] over the drained slices.  A slice that is not
    pushed is dropped at the end of its turn. *)
Fixpoint coalesce_loop (page_storage : StorageHandle) (base : MemoryLocation) (l : list Slice)
    (index : nat) (task : option MemoryTask) (tasks : list MemoryTask) (offset size : Z)
    (slices_tmp : list Slice) : M (World St) (list Slice) :=
  match l with
  | [] => mret slices_tmp
  | s :: l =>
      let '(status, task) := match task with
                             | Some task => let '(status, task) := on_coalesce index task in
                                            (status, Some task)
                             | None => (Ignoring, None)
                             end in
      match status with
      | StartMerging =>
          size ← lift (effective_size s);
          _ ← on_failures (clear (tainted s));
          _ ← slice_drop s;
          coalesce_loop page_storage base l (S index) task tasks (slice_offset s) size slices_tmp
      | Merging =>
          eff ← lift (effective_size s);
          size ← lift (add_u64 size eff);
          _ ← on_failures (clear (tainted s));
          _ ← slice_drop s;
          coalesce_loop page_storage base l (S index) task tasks offset size slices_tmp
      | Ignoring =>
          _ ← on_memory (update_slice (handle s) (as_u32 (Z.of_nat (length slices_tmp))));
          coalesce_loop page_storage base l (S index) task tasks offset size (slices_tmp ++ [s])
      | Completed =>
          let pos := as_u32 (Z.of_nat (length slices_tmp)) in
          eff ← lift (effective_size s);
          size ← lift (add_u64 size eff);
          _ ← on_failures (clear (tainted s));
          let storage := with_utilization (mk_StorageUtilization offset size) page_storage in
          merged ← slice_new storage 0;
          _ ← on_memory (update_location (handle merged) (with_slice pos base));
          _ ← slice_drop s;
          coalesce_loop page_storage base l (S index) (head tasks) (tail tasks) offset size
            (slices_tmp ++ [merged])
      end
  end.
Definition coalesce (p : MemoryPage) : M (World St) MemoryPage :=
  tasks ← memory_job (slices p) 0 [] MemoryTask_default;
  match tasks with
  | [] => mret p
  | task :: tasks =>
      l ← coalesce_loop (page_storage p) (location_base p) (slices p) 0 (Some task) tasks 0 0 [];
      mret (with_slices l p)
  end.
End page.

(** ** The invariant of a page *)

(** The slices of [l] are the slices of the page [base] from index [start]. *)
Definition slots (m : Memory) (base : MemoryLocation) (start : nat) (l : list Slice) : Prop :=
  ∀ i s, l !! i = Some s → slot m base (Z.of_nat (start + i)) (handle s).
Definition handles_of (l : list Slice) : list ManagedMemoryId := handle <$> l.
Definition taints_of (l : list Slice) : list Taint := tainted <$> l.

Record page_ok (m : Memory) (p : MemoryPage) : Prop := mk_page_ok {
  page_slots : slots m (location_base p) 0 (slices p);
  page_distinct : NoDup (handles_of (slices p));
  page_laid : laid (alignment p) 0 (page_size p) (slices p);
  page_aligned : 0 < alignment p;
  page_fits : page_size p <= u64_max;
  page_ids : Forall (λ s, storage_id (slice_storage s) = page_storage_id p) (slices p);
  page_base : location_ok (location_base p) ∧ init (location_base p) = 1;
  page_count : Z.of_nat (length (slices p)) <= u32_max;
}.

(** Every slice of the page is in the page, aligned, and disjoint from the
    slices after it; the binding of a slice's handle leads back to it. *)
Record page_inv {St} (w : World St) (p : MemoryPage) : Prop := mk_page_inv {
  inv_memory : memory_wf (memory w);
  inv_page : page_ok (memory w) p;
  inv_taints : covered (failures w) (taints_of (slices p));
}.

Lemma slots_nil m base k : slots m base k [].
Proof. intros i s. by rewrite lookup_nil. Qed.
Lemma slots_cons m base k s l :
  slots m base k (s :: l) ↔ slot m base (Z.of_nat k) (handle s) ∧ slots m base (S k) l.
Proof.
  unfold slots. split.
  - intros H. split; [specialize (H 0%nat s eq_refl); by rewrite Nat.add_0_r in H|].
    intros i t Ht. specialize (H (S i) t Ht). by rewrite Nat.add_succ_r in H.
  - intros [Hs Hl] [|i] t Ht; [injection Ht as <-; by rewrite Nat.add_0_r|].
    rewrite Nat.add_succ_r. by apply Hl.
Qed.
Lemma slots_app m base k l1 l2 :
  slots m base k (l1 ++ l2) ↔ slots m base k l1 ∧ slots m base (k + length l1) l2.
Proof.
  revert k. induction l1 as [|s l1 IH]; intros k; cbn.
  - rewrite Nat.add_0_r. pose proof (slots_nil m base k). tauto.
  - rewrite !slots_cons, IH, Nat.add_succ_r. tauto.
Qed.

(** The slices of [l] are slices of the page, wherever. *)
Definition placed (m : Memory) (base : MemoryLocation) (l : list Slice) : Prop :=
  ∀ s, s ∈ l → ∃ k, slot m base k (handle s).
Lemma slots_placed m base k l : slots m base k l → placed m base l.
Proof. intros H s [i Hi]%list_elem_of_lookup. eauto. Qed.
Lemma placed_cons m base s l :
  placed m base (s :: l) ↔ (∃ k, slot m base k (handle s)) ∧ placed m base l.
Proof.
  unfold placed. setoid_rewrite elem_of_cons. split; [eauto 10|].
  intros [H1 H2] t [->|?]; auto.
Qed.
Lemma placed_app m base l1 l2 : placed m base (l1 ++ l2) ↔ placed m base l1 ∧ placed m base l2.
Proof. unfold placed. setoid_rewrite elem_of_app. split; [eauto 10|]. intros [H1 H2] t [?|?]; auto. Qed.

Lemma placed_known m base l s : memory_wf m → placed m base l → s ∈ l → 0 <= handle s < COUNTER m.
Proof. intros Hm Hp [k Hk]%Hp. by eapply slot_known. Qed.

Section frame.
Context (m m' : Memory) (a b : list Z) (base : MemoryLocation) (l : list Slice).
Context (Hm : memory_wf m) (He : evolve a b m m').
Context (Hl : ∀ s, s ∈ l → handle s ∉ a ∧ handle s ∉ b).
Lemma slots_evolve k : slots m base k l → slots m' base k l.
Proof.
  intros Hs i s Hi. pose proof (Hl s (list_elem_of_lookup_2 _ _ _ Hi)) as [??].
  eapply slot_evolve; eauto.
Qed.
Lemma placed_evolve : placed m base l → placed m' base l.
Proof. intros Hp s Hs. destruct (Hp s Hs) as [k Hk], (Hl s Hs). exists k. by eapply slot_evolve. Qed.
End frame.

Lemma handles_app l1 l2 : handles_of (l1 ++ l2) = handles_of l1 ++ handles_of l2.
Proof. apply fmap_app. Qed.
Lemma taints_app l1 l2 : taints_of (l1 ++ l2) = taints_of l1 ++ taints_of l2.
Proof. apply fmap_app. Qed.
Lemma handles_cons s l : handles_of (s :: l) = handle s :: handles_of l.
Proof. done. Qed.
Lemma taints_cons s l : taints_of (s :: l) = tainted s :: taints_of l.
Proof. done. Qed.
Lemma handle_in s l : s ∈ l → handle s ∈ handles_of l.
Proof. apply list_elem_of_fmap_2. Qed.

(** ** Renumbering the slices of a page *)
Definition renumbered {St} (base : MemoryLocation) (start : nat) (l : list Slice)
    (w w' : World St) : Prop :=
  evolve (handles_of l) [] (memory w) (memory w') ∧ COUNTER (memory w') = COUNTER (memory w) ∧
  slots (memory w') base start l ∧ w' = with_memory (memory w') w.

Section renumber.
Context {St : Type} (base : MemoryLocation) (Hbase : location_ok base).
Implicit Types (w : World St).

(** One slice, then the others. *)
Lemma renumbered_cons start s l w w1 w' :
  memory_wf (memory w) → handle s ∉ handles_of l →
  renumbered base start [s] w w1 → renumbered base (S start) l w1 w' →
  renumbered base start (s :: l) w w'.
Proof.
  intros Hm Hn (He1 & Hc1 & Hs1 & Hw1) (He2 & Hc2 & Hs2 & Hw2).
  pose proof (ev_wf _ _ _ _ He1 Hm) as Hm1.
  split; [exact (evolve_trans _ _ _ _ _ _ _ He1 He2)|]. split; [lia|]. split.
  - apply slots_cons. split; [|done]. apply slots_cons in Hs1 as [Hs1 _].
    eapply slot_evolve; [exact Hm1|exact He2|done|done|apply not_elem_of_nil].
  - rewrite Hw2, Hw1. done.
Qed.

Lemma renumbered_nil start w : renumbered base start [] w w.
Proof. split; [apply evolve_refl|]. split; [done|]. split; [apply slots_nil|by destruct w]. Qed.

(** A turn of a loop that gives [s] the index [pos]. *)
Lemma wp_renumber_turn {A} s pos l (k : M (World St) A) w (Q : A → World St → Prop) :
  memory_wf (memory w) → (∃ i, slot (memory w) base i (handle s)) →
  Z.of_nat pos <= u32_max → handle s ∉ handles_of l → placed (memory w) base l →
  (∀ w', renumbered base pos [s] w w' → memory_wf (memory w') → placed (memory w') base l →
     wp k w' Q) →
  wp (_ ← on_memory (update_slice (handle s) (as_u32 (Z.of_nat pos))); k) w Q.
Proof.
  intros Hm [i Hi] Hp Hn Hl HQ. apply wp_bind, wp_on_memory. rewrite as_u32_small by lia.
  eapply wp_slot_update_slice; [done|done|done|lia|]. intros m' He Hc Hs.
  assert (placed m' base l) as Hl'.
  { eapply placed_evolve; [done|done| |done]. intros t Ht. split; [|apply not_elem_of_nil].
    intros Heq%list_elem_of_singleton. apply Hn. rewrite <- Heq. by apply handle_in. }
  apply HQ; [|by apply (ev_wf _ _ _ _ He)|done].
  split; [done|]. split; [done|]. split; [|done].
  apply slots_cons. split; [done|apply slots_nil].
Qed.

(** A slice with an owner, in no page yet. *)
Definition owned (m : Memory) (id : Z) : Prop :=
  ∃ d, descriptors m !! id = Some d ∧ 1 <= handles d.
Lemma owned_evolve a b m m' id : memory_wf m → evolve a b m m' →
  id ∉ a → id ∉ b → owned m id → owned m' id.
Proof.
  intros Hm He Ha Hb (d & Hd & Hh). exists d. split; [|done].
  rewrite (ev_same _ _ _ _ He); [done|apply Hm in Hd; tauto|done|done].
Qed.

Lemma wp_place_turn {A} s pos l (k : M (World St) A) w (Q : A → World St → Prop) :
  memory_wf (memory w) → owned (memory w) (handle s) →
  Z.of_nat pos <= u32_max → handle s ∉ handles_of l → placed (memory w) base l →
  (∀ w', renumbered base pos [s] w w' → memory_wf (memory w') → placed (memory w') base l →
     wp k w' Q) →
  wp (_ ← on_memory (update_location (handle s) (with_slice (as_u32 (Z.of_nat pos)) base)); k) w Q.
Proof.
  intros Hm (d & Hd & Hh) Hp Hn Hl HQ. apply wp_bind, wp_on_memory.
  rewrite as_u32_small by lia.
  eapply wp_slot_update_location; [done|done|done|done|lia|]. intros m' He Hc Hs.
  apply HQ; [|by apply (ev_wf _ _ _ _ He)|].
  - split; [done|]. split; [done|]. split; [|done].
    apply slots_cons. split; [done|apply slots_nil].
  - eapply placed_evolve; [done|done| |done]. intros t Ht. split; [|apply not_elem_of_nil].
    intros Heq%list_elem_of_singleton. apply Hn. rewrite <- Heq. by apply handle_in.
Qed.

Lemma wp_add_loop_rest prev size l cur tmp w :
  memory_wf (memory w) → placed (memory w) base l → NoDup (handles_of l) →
  Z.of_nat (length tmp + length l) <= u32_max → (prev < cur)%nat →
  wp (add_loop base prev size l cur None tmp) w (λ l' w',
    l' = tmp ++ l ∧ renumbered base (length tmp) l w w').
Proof.
  revert cur tmp w. induction l as [|s l IH]; intros cur tmp w Hm Hp Hnd Hlen Hcur; cbn [add_loop].
  { apply wp_ret. split; [by rewrite app_nil_r|]. apply renumbered_nil. }
  cbn in Hnd, Hlen. apply NoDup_cons in Hnd as [Hni Hnd]. apply placed_cons in Hp as [Hs Hp].
  rewrite decide_False by lia. apply (wp_renumber_turn s _ l); [done|done|lia|done|done|].
  intros w1 Hr1 Hm1 Hp1. eapply wp_mono; [apply IH; try done; rewrite ?length_app; cbn; lia|].
  intros l' w' [-> Hr2]. split; [by rewrite <- app_assoc|].
  rewrite length_app in Hr2; cbn in Hr2. rewrite Nat.add_1_r in Hr2.
  by eapply renumbered_cons.
Qed.

Definition shrunk (size : Z) (s : Slice) : Slice :=
  with_slice_storage (with_size size (slice_storage s)) s.

Lemma wp_add_loop prev size l1 s l2 new cur tmp w :
  memory_wf (memory w) → placed (memory w) base (l1 ++ s :: l2) →
  owned (memory w) (handle new) → NoDup (handles_of (l1 ++ s :: new :: l2)) →
  Z.of_nat (length tmp + length l1 + length l2 + 2) <= u32_max → (prev = cur + length l1)%nat →
  wp (add_loop base prev size (l1 ++ s :: l2) cur (Some new) tmp) w (λ l' w',
    l' = tmp ++ l1 ++ shrunk size s :: new :: l2 ∧
    renumbered base (length tmp) (l1 ++ shrunk size s :: new :: l2) w w').
Proof.
  revert cur tmp w. induction l1 as [|t l1 IH]; intros cur tmp w Hm Hp Ho Hnd Hlen Hprev.
  - cbn in Hprev, Hnd, Hlen. apply NoDup_cons in Hnd as [Hs Hnd]. apply NoDup_cons in Hnd as [Hn Hnd].
    rewrite not_elem_of_cons in Hs. destruct Hs as [Hsn Hs].
    apply placed_cons in Hp as [Hps Hp]. cbn [app add_loop]. rewrite decide_True by lia.
    apply (wp_renumber_turn (shrunk size s) _ l2); [done|done|lia|done|done|].
    intros w1 Hr1 Hm1 Hp1. apply wp_bind, (wp_lift _ new); [done|]. rewrite !length_app.
    apply (wp_place_turn new _ l2); [done| |cbn; lia|done|done|].
    { destruct Hr1 as [He1 _]. eapply owned_evolve; [exact Hm|done| |apply not_elem_of_nil|done].
      by intros ?%list_elem_of_singleton. }
    intros w2 Hr2 Hm2 Hp2.
    eapply wp_mono; [apply wp_add_loop_rest; try done; rewrite ?length_app; cbn; lia|].
    intros l' w' [-> Hr3]. rewrite !length_app in Hr3; cbn in Hr2, Hr3.
    replace (length tmp + 1 + 1)%nat with (S (S (length tmp))) in Hr3 by lia.
    rewrite Nat.add_1_r in Hr2. split; [by rewrite <- !app_assoc|].
    eapply renumbered_cons; [done| |exact Hr1|].
    { cbn. rewrite not_elem_of_cons. done. }
    by eapply renumbered_cons.
  - cbn in Hprev, Hnd, Hlen. apply NoDup_cons in Hnd as [Ht Hnd].
    apply placed_cons in Hp as [Hpt Hp]. cbn [app add_loop]. rewrite decide_False by lia.
    assert (handle t ∉ handles_of (l1 ++ s :: l2) ∧ handle t ≠ handle new) as [Ht' Htn].
    { change (handle t ∉ handles_of (l1 ++ s :: new :: l2)) in Ht.
      rewrite handles_app in *. set_solver. }
    apply (wp_renumber_turn t _ (l1 ++ s :: l2)); [done|done|lia|done|done|].
    intros w1 Hr1 Hm1 Hp1.
    eapply wp_mono; [apply IH; try done; try (rewrite ?length_app; cbn; lia)|].
    { destruct Hr1 as [He1 _]. eapply owned_evolve; [exact Hm|done| |apply not_elem_of_nil|done].
      intros ?%list_elem_of_singleton. by apply Htn. }
    intros l' w' [-> Hr2]. split; [by rewrite <- app_assoc|].
    rewrite length_app in Hr2; cbn in Hr2. rewrite Nat.add_1_r in Hr2.
    eapply renumbered_cons; [done| |done|done].
    rewrite handles_app in *. set_solver.
Qed.
End renumber.

(** ** [try_reserve] *)
Definition fits (m : Memory) (effective_size : Z) (s : Slice) : bool :=
  (effective_size <=? slice_size s) && freed m (handle s).

Section reserve.
Context {St : Type}.
Implicit Types (w : World St).

Lemma wp_slice_is_free base s w (Q : bool → World St → Prop) :
  (∃ k, slot (memory w) base k (handle s)) →
  Q (freed (memory w) (handle s)) w → wp (slice_is_free s) w Q.
Proof.
  intros (k & d & Hd & _) HQ. apply wp_on_memory. eapply wp_handle_is_free; [done|].
  unfold freed in HQ. rewrite Hd in HQ. by destruct w.
Qed.

Lemma wp_find_slot base eff l i w (Q : option (nat * Slice) → World St → Prop) :
  placed (memory w) base l →
  (Forall (λ s, fits (memory w) eff s = false) l → Q None w) →
  (∀ l1 s l2, l = l1 ++ s :: l2 → fits (memory w) eff s = true →
     Forall (λ s, fits (memory w) eff s = false) l1 → Q (Some ((i + length l1)%nat, s)) w) →
  wp (find_slot eff l i) w Q.
Proof.
  revert i Q. induction l as [|s l IH]; intros i Q Hp Hnone Hsome; cbn [find_slot].
  { apply wp_ret, Hnone. constructor. }
  apply placed_cons in Hp as [Hs Hp]. apply wp_bind.
  assert (wp (if fits (memory w) eff s then mret (Some (i, s)) else find_slot eff l (S i)) w Q) as Hk.
  { destruct (fits (memory w) eff s) eqn:Hf.
    - apply wp_ret. specialize (Hsome [] s l eq_refl Hf ltac:(constructor)). cbn in Hsome.
      by rewrite Nat.add_0_r in Hsome.
    - apply IH; [done| |].
      + intros Hl. apply Hnone. by constructor.
      + intros l1 t l2 -> Ht Hl1. specialize (Hsome (s :: l1) t l2 eq_refl Ht). cbn in Hsome.
        rewrite Nat.add_succ_r in Hsome. apply Hsome. by constructor. }
  unfold fits in Hk. destruct (eff <=? slice_size s); cbn [andb] in Hk.
  - by eapply wp_slice_is_free.
  - by apply wp_ret.
Qed.

(** What the slice [s], large enough for [eff] bytes, becomes when [size]
    bytes padded to [eff] are carved from it: itself, and the slice of what
    is left when something is. *)
Definition carve (size padding : Z) (s : Slice) (h : Z) : list Slice :=
  let eff := size + padding in
  with_padding padding (shrunk size s) ::
  if eff <? slice_size s
  then [mk_Slice (mk_StorageHandle (storage_id (slice_storage s))
                    (mk_StorageUtilization (slice_offset s + eff) (slice_size s - eff)))
          h 0 0 true taint_default]
  else [].

Lemma laid_carve align lo hi l1 s l2 size padding h :
  laid align lo hi (l1 ++ s :: l2) → 0 <= size → 0 <= padding → (align | size + padding) →
  size + padding <= slice_size s →
  laid align lo hi (l1 ++ carve size padding s h ++ l2).
Proof.
  intros Hl Hs Hp Ha Hle. apply laid_app in Hl as (mid & H1 & H2). apply laid_app. exists mid.
  split; [done|]. cbn in H2. destruct H2 as (Hlo & Hdiv & Hsz & Hpad & H2).
  unfold carve. destruct (Z.ltb_spec (size + padding) (slice_size s)) as [Hlt|Hge]; cbn.
  - split_and!; try done; try (unfold slice_offset, slice_size in *; cbn; lia).
    + unfold slice_offset; cbn. by apply Z.divide_add_r.
    + eapply laid_lower; [done|]. unfold slice_offset, slice_size in *; cbn. lia.
  - split_and!; try done. eapply laid_lower; [done|].
    unfold slice_offset, slice_size in *; cbn. lia.
Qed.

Lemma covered_default g ts : covered g ts → covered g (taint_default :: ts).
Proof.
  intros [Hok Hc]. split; [by constructor|]. intros f. rewrite carriers_cons.
  assert (carries (entries taint_default) f = 0) as -> by reflexivity. apply Hc.
Qed.
Lemma covered_carve g o l1 s l2 size padding h :
  covered g (o ++ taints_of (l1 ++ s :: l2)) →
  covered g (o ++ taints_of (l1 ++ carve size padding s h ++ l2)).
Proof.
  intros Hc. unfold carve. destruct (_ <? _); rewrite !taints_app, !taints_cons in *.
  - eapply covered_perm, (covered_default _ _ Hc).
    change (taint_default :: o ++ taints_of l1 ++ tainted s :: taints_of l2 ≡ₚ
            o ++ taints_of l1 ++ tainted s :: taint_default :: taints_of l2).
    by rewrite (Permutation_swap taint_default), !Permutation_middle.
  - exact Hc.
Qed.

Lemma wp_page_clone base l h w (Q : unit → World St → Prop) :
  memory_wf (memory w) → placed (memory w) base l → NoDup (handles_of l) → h ∈ handles_of l →
  (∀ m', memory_wf m' → evolve [] [h] (memory w) m' → COUNTER m' = COUNTER (memory w) →
     counts m' h = (λ c, (c.1 + 1, c.2)) <$> counts (memory w) h →
     (∀ k s, s ∈ l → slot (memory w) base k (handle s) → slot m' base k (handle s)) →
     Q tt (with_memory m' w)) →
  wp (on_memory (handle_clone h)) w Q.
Proof.
  intros Hm Hp Hnd (s & -> & Hs)%list_elem_of_fmap HQ. apply wp_on_memory.
  destruct (Hp s Hs) as [k Hk]. eapply wp_clone_owner; [done|exact Hk|].
  intros m' He Hc Hslot Hcounts. apply HQ; try done; [by apply (ev_wf _ _ _ _ He)|].
  intros k' t Ht Hk'. destruct (decide (handle t = handle s)) as [Heq|Hne].
  - rewrite Heq in *. destruct Hk as (d & Hd & Hl & _), Hk' as (d' & Hd' & Hl' & _).
    assert (with_slice k base = with_slice k' base) as Hkk by congruence.
    injection Hkk as ->. done.
  - eapply slot_evolve; [done|done|done|apply not_elem_of_nil|].
    by intros ?%list_elem_of_singleton.
Qed.

(** [r] is what [try_reserve] answered on page [p], and [p'] the page it left. *)
Definition reserve_result (size padding : Z) (p : MemoryPage) (m : Memory)
    (r : option ManagedMemoryId) (p' : MemoryPage) (m' : Memory) : Prop :=
  let eff := size + padding in
  match r with
  | None => p' = p ∧ m' = m ∧ Forall (λ s, fits m eff s = false) (slices p)
  | Some h => ∃ l1 s l2,
      slices p = l1 ++ s :: l2 ∧ handle s = h ∧ fits m eff s = true ∧
      Forall (λ s, fits m eff s = false) l1 ∧
      slices p' = l1 ++ carve size padding s (COUNTER m) ++ l2 ∧
      counts m' h = (λ c, (c.1 + 1, c.2)) <$> counts m h
  end.
End reserve.

Lemma page_inv_placed {St} (w : World St) p :
  page_inv w p → placed (memory w) (location_base p) (slices p).
Proof. intros [_ [Hs _ _ _ _ _ _ _] _]. by eapply slots_placed. Qed.

(** The parts of the invariant that only depend on the slices. *)
Lemma page_inv_intro {St} (w w' : World St) p l :
  page_inv w p → memory_wf (memory w') → slots (memory w') (location_base p) 0 l →
  NoDup (handles_of l) → laid (alignment p) 0 (page_size p) l →
  Forall (λ s, storage_id (slice_storage s) = page_storage_id p) l →
  Z.of_nat (length l) <= u32_max → covered (failures w') (taints_of l) →
  page_inv w' (with_slices l p).
Proof. intros [_ [_ _ _ Ha Hf _ Hb _] _] ???????. by split; [|split|]. Qed.

Section reserve_spec.
Context {St : Type}.
Implicit Types (w : World St).

(** [try_reserve], with what it does to the rest of the world. *)
Lemma wp_try_reserve p size w :
  page_inv w p → 0 <= size → size + alignment p <= u64_max →
  COUNTER (memory w) < u64_max → Z.of_nat (length (slices p)) < u32_max →
  wp (try_reserve p size) w (λ '(r, p') w', ∃ padding,
    calculate_padding size (alignment p) = Some padding ∧
    page_inv w' p' ∧ p' = with_slices (slices p') p ∧
    reserve_result size padding p (memory w) r p' (memory w') ∧
    evolve (handles_of (slices p)) (option_list r) (memory w) (memory w') ∧
    COUNTER (memory w') <= COUNTER (memory w) + 1 ∧
    w' = with_memory (memory w') w).
Proof.
  intros Hinv Hsize Hfit Hroom Hcount. pose proof (page_inv_placed _ _ Hinv) as Hpl.
  pose proof Hinv as [Hm [Hslots Hnd Hlaid Hal Hpsize Hids [Hbase Hinit] Hlen] Htaints].
  destruct (calculate_padding_spec size (alignment p) Hal) as (padding & Hpad & Hpb & Hdiv).
  unfold try_reserve. apply wp_bind, (wp_lift _ padding); [done|].
  apply wp_bind, (wp_lift _ (size + padding)); [by rewrite add_u64_Some by lia|].
  apply wp_bind. apply (wp_find_slot (location_base p)); [done| |].
  { intros Hno. apply wp_ret. exists padding. split_and!; try done; try (by destruct p); try (by destruct w); lia. }
  intros l1 s l2 Hsplit Hfits Hno. cbn [Nat.add].
  rewrite Hsplit in *. set (h := handle s).
  assert (h ∈ handles_of (l1 ++ s :: l2)) as Hin by (apply handle_in; set_solver).
  assert (0 <= h < COUNTER (memory w)) as Hh.
  { apply (placed_known _ (location_base p) (l1 ++ s :: l2)); [done|done|set_solver]. }
  apply wp_bind. apply (wp_page_clone (location_base p) (l1 ++ s :: l2)); [done..|].
  intros m1 Hm1 He1 Hc1 Hcounts1 Hkeep.
  set (w1 := with_memory m1 w).
  assert (slots m1 (location_base p) 0 (l1 ++ s :: l2)) as Hslots1.
  { intros i t Ht. apply Hkeep; [by eapply list_elem_of_lookup_2|]. by apply Hslots. }
  assert (size + padding <= slice_size s) as Hle.
  { unfold fits in Hfits. apply andb_prop in Hfits as [Hfits _]. lia. }
  assert (Forall (λ t, storage_id (slice_storage t) = page_storage_id p)
    (l1 ++ carve size padding s (COUNTER (memory w)) ++ l2)) as Hids'.
  { apply Forall_app in Hids as [? [Hs ?]%Forall_cons]. apply Forall_app. split; [done|].
    unfold carve. destruct (_ <? _); repeat constructor; done. }
  pose proof (laid_carve _ _ _ l1 s l2 size padding (COUNTER (memory w)) Hlaid Hsize
    (proj1 Hpb) Hdiv Hle) as Hlaid'.
  assert (∀ g, covered g (taints_of (l1 ++ s :: l2)) →
    covered g (taints_of (l1 ++ carve size padding s (COUNTER (memory w)) ++ l2))) as Htaints'.
  { intros g. apply (covered_carve g []). }
  rewrite length_app in Hcount; cbn [length] in Hcount.
  unfold carve in Hlaid', Hids', Htaints'.
  rewrite insert_middle. destruct (Z.ltb_spec (size + padding) (slice_size s)) as [Hlt|Hge].
  - assert (slice_offset s + slice_size s <= page_size p) as Hoff.
    { pose proof (laid_within _ _ _ _ s Hlaid ltac:(set_solver)). lia. }
    assert (0 <= slice_offset s) as Hoff0.
    { pose proof (laid_within _ _ _ _ s Hlaid ltac:(set_solver)). lia. }
    apply wp_bind. eapply wp_lift.
    { unfold offset_start. fold (slice_offset s) (slice_size s).
      rewrite add_u64_Some, sub_u64_Some by lia. reflexivity. }
    apply wp_bind. unfold slice_new. apply wp_bind, wp_on_memory.
    eapply wp_new_owner; [done|cbn; lia|]. intros m2 He2 Hc2 Hnew.
    change (memory w1) with m1 in *. rewrite Hc1 in *. apply wp_ret.
    set (new := mk_Slice _ (COUNTER (memory w)) 0 0 true taint_default) in *.
    pose proof (ev_wf _ _ _ _ He2 Hm1) as Hm2.
    assert (COUNTER (memory w) ∉ handles_of (l1 ++ s :: l2)) as Hfresh.
    { intros (t & Ht & Htin)%list_elem_of_fmap.
      pose proof (placed_known _ _ _ t Hm Hpl Htin). lia. }
    apply wp_bind. unfold add_new_slice. apply wp_bind.
    set (s' := with_padding padding _).
    assert (placed m2 (location_base p) (l1 ++ s' :: l2)) as Hpl2.
    { eapply (placed_evolve m1); [done|done| |].
      - intros t Ht. split; apply not_elem_of_nil.
      - intros t [Ht|[->|Ht]%elem_of_cons]%elem_of_app.
        + apply (slots_placed _ _ _ _ Hslots1). set_solver.
        + apply (slots_placed _ _ _ _ Hslots1 s). set_solver.
        + apply (slots_placed _ _ _ _ Hslots1). set_solver. }
    assert (NoDup (handles_of (l1 ++ s' :: new :: l2))) as Hnd'.
    { rewrite handles_app, !handles_cons in *. cbn [handle] in *.
      rewrite Permutation_app_comm in *. cbn [app] in *.
      apply NoDup_cons in Hnd as [Hs Hnd]. repeat rewrite NoDup_cons.
      change (handle s') with (handle s). change (handle new) with (COUNTER (memory w)).
      rewrite elem_of_cons. split_and!; [|set_solver|done].
      intros [Heq|?]; [|done]. apply Hfresh. rewrite <- Heq. set_solver. }
    eapply wp_mono.
    { apply (wp_add_loop (location_base p) Hbase _ size l1 s' l2 new 0 []); try done.
      - exists (mk_Descriptor (to_bits location_uninit) 1 0). done.
      - cbn. lia. }
    intros l' w' [-> (He3 & Hc3 & Hslots3 & Hw')]. cbn [app length] in *.
    apply wp_ret, wp_ret. exists padding.
    assert (memory_wf (memory w')) as Hm' by apply (ev_wf _ _ _ _ He3 Hm2).
    assert (shrunk size s' = s') as Hs' by done. rewrite Hs' in *.
    split_and!; try done.
    + apply (page_inv_intro w w' p); try done.
      * rewrite length_app; cbn. lia.
      * rewrite Hw'. apply Htaints'. done.
    + exists l1, s, l2. split_and!; try done.
      * unfold carve. by rewrite (proj2 (Z.ltb_lt _ _) Hlt).
      * etrans; [apply (ev_counts _ _ _ _ He3 h); [cbn; lia|apply not_elem_of_nil]|].
        etrans; [apply (ev_counts _ _ _ _ He2 h); [cbn; lia|apply not_elem_of_nil]|done].
    + eapply evolve_weaken, evolve_trans, evolve_trans; [| |exact He1|exact He2|exact He3]; cbn [app].
      * intros id Hid. rewrite !handles_app, !handles_cons in *.
        change (handle s') with (handle s). change (handle new) with (COUNTER (memory w)).
        set_unfold. intuition lia.
      * intros id _. cbn. done.
    + cbn in *. lia.
  - apply wp_ret. exists padding. set (s' := with_padding padding _) in *.
    split_and!; try done.
    + apply (page_inv_intro w _ p); try done.
      * apply slots_app in Hslots1 as [H1 [H2 H3]%slots_cons]. apply slots_app.
        split; [done|]. by apply slots_cons.
      * rewrite handles_app, handles_cons in *. done.
      * rewrite !length_app in *. done.
      * by apply Htaints'.
    + exists l1, s, l2. split_and!; try done.
      unfold carve. by rewrite (proj2 (Z.ltb_ge _ _) Hge).
    + eapply evolve_weaken, He1; set_solver.
    + cbn. lia.
Qed.
End reserve_spec.

(** ** A page to try the properties on

    32 bytes at alignment 4: two free slices that carry no failure, and a
    live one. *)
Definition page_example : MemoryPage :=
  let st o n := mk_StorageHandle 7 (mk_StorageUtilization o n) in
  mk_MemoryPage (st 0 32)
    [mk_Slice (st 0 8) 0 0 0 true taint_default; mk_Slice (st 8 8) 1 0 0 true taint_default;
     mk_Slice (st 16 10) 2 2 5 true taint_default; mk_Slice (st 28 4) 3 0 0 true taint_default]
    4 (location_new 1 0 0) true 1.
Definition world_example {St} (st : St) : World St :=
  let d k h b := mk_Descriptor (to_bits (location_new 1 0 k)) h b in
  mk_World (mk_Memory 4 {[ 0 := d 0 1 0; 1 := d 1 1 0; 2 := d 2 1 1; 3 := d 3 1 0 ]})
    graph_default 8 st.

Lemma page_example_inv {St} (st : St) : page_inv (world_example st) page_example.
Proof.
  split.
  - split; [cbn; lia|]. apply (bool_decide_unpack (map_Forall (λ id d,
      0 <= id < 4 ∧ 0 <= handles d ∧ 0 <= bindings d) (descriptors (memory (world_example st))))).
    vm_compute. exact I.
  - split; cbn; try lia; try done.
    + intros [|[|[|[|i]]]] s [= <-]; eexists; (split; [reflexivity|split; [reflexivity|cbn; lia]]).
    + apply (bool_decide_unpack _). vm_compute. exact I.
    + split_and!; try lia; by apply Z.mod_divide.
    + repeat constructor.
  - split; [repeat (constructor; [apply taint_default_ok|]); constructor|].
    intros f. unfold tags. cbn. rewrite lookup_empty. done.
Qed.

(** ** Reserving *)

(** [try_reserve] carves from the first free slice that is large enough,
    and answers [None] exactly when there is none, leaving the page alone.
    What it answers is the handle of that slice, which from then on is the
    requested size with the padding that rounds it up to the alignment, and
    has one more owner; what is left of the slice is a fresh free slice right
    after it; the other slices are untouched, in the same order.  The page
    keeps its invariant, so that the reserved bytes are aligned, in the page
    and in no other slice. *)
Theorem try_reserve_first_fit {St} (p : MemoryPage) (size : Z) (w : World St) :
  page_inv w p → 0 <= size → size + alignment p <= u64_max →
  COUNTER (memory w) < u64_max → Z.of_nat (length (slices p)) < u32_max →
  wp (try_reserve p size) w (λ '(r, p') w', ∃ padding,
    0 <= padding < alignment p ∧ (alignment p | size + padding) ∧
    page_inv w' p' ∧ reserve_result size padding p (memory w) r p' (memory w')).
Proof.
  intros Hinv Hs Hf Hc Hl. eapply wp_mono; [by apply wp_try_reserve|].
  intros [r p'] w' (padding & Hpad & Hinv' & _ & Hres & _).
  destruct (calculate_padding_spec size (alignment p)) as (padding' & Hpad' & Hb & Hd);
    [apply (page_aligned _ _ (inv_page _ _ Hinv))|].
  rewrite Hpad in Hpad'. injection Hpad' as <-. by exists padding.
Qed.

Lemma try_reserve_first_fit_witness :
  wp (try_reserve page_example 5) (world_example tt) (λ '(r, p') w',
    (r = Some 0 ∧ slice_size <$> slices p' = [5; 8; 10; 4]) ∧
    ∃ padding, reserve_result 5 padding page_example (memory (world_example tt)) r p' (memory w')).
Proof.
  assert (∀ (m : M (World unit) (option Z * MemoryPage)) w (Q Q' : option Z → MemoryPage → World unit → Prop),
    wp m w (λ '(r, p') w', Q r p' w') → wp m w (λ '(r, p') w', Q' r p' w') →
    wp m w (λ '(r, p') w', Q r p' w' ∧ Q' r p' w')) as Hconj.
  { intros m w Q Q'. unfold wp. by destruct (m w) as [[[]]|]. }
  apply Hconj; [vm_compute; auto|].
  eapply wp_mono; [apply (try_reserve_first_fit page_example 5 (world_example tt) (page_example_inv tt));
    cbn; lia|].
  intros [r p'] w' (padding & _ & _ & _ & H). by exists padding.
Defined.
