(* ===== verification/Coalesce.v ===== *)
(** * Coalescing

    [MemoryPage::coalesce] walks a page twice: [memory_job] collects the runs
    of two or more free slices as tasks, and the loop follows the tasks to
    merge each run into one slice.  The reference it is compared with is the
    page cut in [blocks]: a slice that stays, or a maximal run of free slices
    that becomes one. *)

From S2P Require Export MemoryPage.
From stdpp Require Import list.
#[local] Open Scope Z_scope.

Inductive block :=
| Kept (s : Slice)
| Merged (s t : Slice) (run : list Slice).

Definition block_slices (b : block) : list Slice :=
  match b with Kept s => [s] | Merged s t run => s :: t :: run end.
Definition block_count (b : block) : nat := length (block_slices b).

(** Cut a run of free slices: alone, a slice stays. *)
Definition flush_run (run : list Slice) : list block :=
  match run with
  | [] => []
  | [s] => [Kept s]
  | s :: t :: run => [Merged s t run]
  end.
Fixpoint blocks_of (m : Memory) (run : list Slice) (l : list Slice) : list block :=
  match l with
  | [] => flush_run run
  | s :: l => if freed m (handle s) then blocks_of m (run ++ [s]) l
              else flush_run run ++ Kept s :: blocks_of m [] l
  end.

Definition slices_of (bs : list block) : list Slice := flat_map block_slices bs.
Definition dropped (bs : list block) : list Slice :=
  flat_map (λ b, match b with Kept _ => [] | Merged s t run => s :: t :: run end) bs.
Definition kept (bs : list block) : list Slice :=
  flat_map (λ b, match b with Kept s => [s] | Merged _ _ _ => [] end) bs.

(** The slice a run becomes, under the fresh handle [h]. *)
Definition merge (page_storage : StorageHandle) (h : Z) (s : Slice) (run : list Slice) : Slice :=
  mk_Slice (with_utilization (mk_StorageUtilization (slice_offset s) (effs (s :: run))) page_storage)
    h 0 0 true taint_default.
Fixpoint fuse (page_storage : StorageHandle) (h : Z) (bs : list block) : list Slice :=
  match bs with
  | [] => []
  | Kept s :: bs => s :: fuse page_storage h bs
  | Merged s t run :: bs => merge page_storage h s (t :: run) :: fuse page_storage (h + 1) bs
  end.
Definition merges (bs : list block) : Z :=
  sum_Z ((λ b, match b with Kept _ => 0 | Merged _ _ _ => 1 end) <$> bs).

(** The tasks of the blocks from index [start] on. *)
Fixpoint tasks_of (start : nat) (bs : list block) : list MemoryTask :=
  match bs with
  | [] => []
  | Kept _ :: bs => tasks_of (S start) bs
  | Merged s t run :: bs =>
      mk_MemoryTask start (S (S (length run))) 0 (effs (s :: t :: run))
        :: tasks_of (start + S (S (length run))) bs
  end.

Lemma slices_of_app bs1 bs2 : slices_of (bs1 ++ bs2) = slices_of bs1 ++ slices_of bs2.
Proof. apply flat_map_app. Qed.
Lemma slices_of_flush run : slices_of (flush_run run) = run.
Proof. destruct run as [|s [|t run]]; cbn; rewrite ?app_nil_r; done. Qed.
Lemma slices_of_blocks m run l : slices_of (blocks_of m run l) = run ++ l.
Proof.
  revert run. induction l as [|s l IH]; intros run; cbn.
  - by rewrite slices_of_flush, app_nil_r.
  - destruct (freed m (handle s)).
    + rewrite IH. by rewrite <- app_assoc.
    + rewrite slices_of_app, slices_of_flush. cbn. by rewrite IH.
Qed.
Lemma slices_kept_dropped bs : slices_of bs ≡ₚ dropped bs ++ kept bs.
Proof.
  induction bs as [|[s|s t run] bs IH]; [done| |]; cbn.
  - rewrite IH. by rewrite Permutation_middle.
  - rewrite IH. by rewrite <- app_assoc.
Qed.

Definition task_run (start : nat) (run : list Slice) : MemoryTask :=
  match run with
  | [] => MemoryTask_default
  | _ => mk_MemoryTask start (length run) 0 (effs run)
  end.

Lemma tasks_of_app start bs1 bs2 :
  tasks_of start (bs1 ++ bs2) = tasks_of start bs1 ++ tasks_of (start + length (slices_of bs1)) bs2.
Proof.
  revert start. induction bs1 as [|[s|s t run] bs1 IH]; intros start; cbn.
  - by rewrite Nat.add_0_r.
  - rewrite IH. do 2 f_equal. unfold slices_of. lia.
  - rewrite IH. cbn. do 3 f_equal. rewrite length_app. unfold slices_of. lia.
Qed.
Lemma job_add_run tasks start run :
  job_add tasks (task_run start run) = (tasks ++ tasks_of start (flush_run run), MemoryTask_default).
Proof.
  destruct run as [|s [|t run]]; unfold job_add; cbn; rewrite ?app_nil_r; try done.
Qed.

Section job.
Context {St : Type} (base : MemoryLocation).
Implicit Types (w : World St).

Lemma tag_coalesce_run start run s :
  (tag_coalesce (start + length run)
     (mk_MemoryTask (start_index (task_run start run)) (count (task_run start run))
        (task_cursor (task_run start run)) (effs run + eff s)))
  = Some (task_run start (run ++ [s])).
Proof.
  unfold tag_coalesce. destruct run as [|t run].
  - cbn [task_run length count start_index task_cursor app MemoryTask_default].
    rewrite decide_True by done. rewrite decide_True by done. unfold effs; cbn.
    by rewrite Nat.add_0_r, Z.add_0_r.
  - cbn [task_run count start_index app task_cursor task_size].
    destruct (decide (length (t :: run) = 0%nat)) as [H0|_]; [done|].
    rewrite decide_True by done.
    change (t :: run ++ [s]) with ((t :: run) ++ [s]).
    by rewrite effs_snoc, length_app.
Qed.

Lemma wp_memory_job l start run tasks w :
  placed (memory w) base l → 0 <= effs (run ++ l) <= u64_max →
  Forall (λ s, 0 <= eff s) (run ++ l) →
  wp (memory_job l (start + length run) tasks (task_run start run)) w (λ r w',
    w' = w ∧ r = tasks ++ tasks_of start (blocks_of (memory w) run l)).
Proof.
  revert start run tasks. induction l as [|s l IH]; intros start run tasks Hp He Hpos;
    cbn [memory_job blocks_of].
  { apply wp_ret. by rewrite job_add_run. }
  apply placed_cons in Hp as [Hs Hp]. apply wp_bind. apply (wp_slice_is_free base); [done|].
  rewrite effs_app, effs_cons in He. apply Forall_app in Hpos as [Hrun [Hs0 Hl]%Forall_cons].
  assert (0 <= effs run ∧ 0 <= effs l) as [Her Hel].
  { split; apply sum_Z_nonneg, Forall_fmap; eapply Forall_impl; try done; done. }
  destruct (freed (memory w) (handle s)).
  - assert (effective_size s = Some (eff s)) as Heff.
    { unfold effective_size. rewrite add_u64_Some; [done|]. unfold eff in *. lia. }
    apply wp_bind. eapply wp_lift; [done|]. apply wp_bind, (wp_lift _ (effs run + eff s)).
    { destruct run; cbn [task_run task_size MemoryTask_default]; rewrite add_u64_Some; (done || lia). }
    apply wp_bind. eapply wp_lift; [apply tag_coalesce_run|].
    replace (S (start + length run)) with (start + length (run ++ [s]))%nat
      by (rewrite length_app; cbn; lia).
    apply IH; [done| |].
    + rewrite effs_app, effs_snoc. lia.
    + rewrite !Forall_app. repeat constructor; try done.
  - rewrite job_add_run.
    pose proof (IH (S (start + length run)) [] (tasks ++ tasks_of start (flush_run run)) Hp) as IH'.
    cbn [length app task_run] in IH'. rewrite Nat.add_0_r in IH'.
    eapply wp_mono; [apply IH'; [lia|done]|].
    + intros r w' [-> ->]. split; [done|]. rewrite <- app_assoc. f_equal.
      rewrite tasks_of_app, slices_of_flush. done.
Qed.
End job.

(** ** The loop, block by block *)

(** What the loop did once the slices [ds] are dropped and, if [new] is
    given, a fresh slice was put at that index of the page. *)
Definition dropping {St} (ds : list Slice) (w w' : World St) : Prop :=
  evolve [] (handles_of ds) (memory w) (memory w') ∧
  released (failures w) (failures w') (taints_of ds) ∧
  storage_ids w' = storage_ids w ∧ storage w' = storage w.

Definition coalesced {St} (ps : StorageHandle) (base : MemoryLocation) (start : nat)
    (bs : list block) (w w' : World St) : Prop :=
  evolve (handles_of (kept bs)) (handles_of (dropped bs)) (memory w) (memory w') ∧
  COUNTER (memory w') = COUNTER (memory w) + merges bs ∧
  fresh_free (memory w) (memory w') ∧
  slots (memory w') base start (fuse ps (COUNTER (memory w)) bs) ∧
  released (failures w) (failures w') (taints_of (dropped bs)) ∧
  storage_ids w' = storage_ids w ∧ storage w' = storage w.

Section loop.
Context {St : Type} (ps : StorageHandle) (base : MemoryLocation) (Hbase : location_ok base).
Implicit Types (w : World St).

(** The slices the loop has yet to see. *)
Record pending (l : list Slice) (w : World St) : Prop := mk_pending {
  pending_memory : memory_wf (memory w);
  pending_placed : placed (memory w) base l;
  pending_distinct : NoDup (handles_of l);
  pending_taints : covered (failures w) (taints_of l);
  pending_sizes : Forall (λ s, 0 <= eff s) l;
}.

Lemma pending_app l1 l2 w : pending (l1 ++ l2) w → pending l1 w.
Proof.
  intros [Hm Hp Hnd Ht Hs]. rewrite handles_app, taints_app in *. split; try done.
  - by apply placed_app in Hp as [? _].
  - by apply NoDup_app in Hnd as [? _].
  - by eapply covered_app_l.
  - by apply Forall_app in Hs as [? _].
Qed.
Lemma pending_nonneg l w : pending l w → 0 <= effs l.
Proof. intros [_ _ _ _ Hs]. apply sum_Z_nonneg, Forall_fmap. by eapply Forall_impl; [done|]. Qed.
Lemma pending_effective s l w : pending (s :: l) w → eff s <= u64_max →
  effective_size s = Some (eff s).
Proof. intros [_ _ _ _ [Hs _]%Forall_cons] Hb. unfold effective_size. by rewrite add_u64_Some. Qed.

(** Dropping [s] leaves the others pending. *)
Lemma pending_drop s l w w' :
  pending (s :: l) w → evolve [] [handle s] (memory w) (memory w') →
  covered (failures w') (taints_of l) → pending l w'.
Proof.
  intros [Hm Hp Hnd Ht Hs] He Hc. cbn in Hnd. apply NoDup_cons in Hnd as [Hni Hnd].
  apply Forall_cons in Hs as [_ Hs]. apply placed_cons in Hp as [_ Hp].
  split; [by apply (ev_wf _ _ _ _ He)| |done..].
  eapply placed_evolve; [done|exact He| |done]. intros t Hin. split; [apply not_elem_of_nil|].
  intros Heq%list_elem_of_singleton. apply Hni. rewrite <- Heq. by apply handle_in.
Qed.
Lemma pending_keep s l w w' :
  pending (s :: l) w → evolve [handle s] [] (memory w) (memory w') →
  failures w' = failures w → pending l w'.
Proof.
  intros [Hm Hp Hnd Ht Hs] He Hf. cbn in Hnd. apply NoDup_cons in Hnd as [Hni Hnd].
  apply Forall_cons in Hs as [_ Hs]. apply placed_cons in Hp as [_ Hp].
  split; [by apply (ev_wf _ _ _ _ He)| |done|rewrite Hf; by apply (covered_app_r _ [tainted s])|done].
  eapply placed_evolve; [done|exact He| |done]. intros t Hin. split; [|apply not_elem_of_nil].
  intros Heq%list_elem_of_singleton. apply Hni. rewrite <- Heq. by apply handle_in.
Qed.

(** A turn that drops [s]. *)
Lemma wp_drop_turn {A} s l (k : M (World St) A) w (Q : A → World St → Prop) :
  pending (s :: l) w →
  (∀ w', dropping [s] w w' → COUNTER (memory w') = COUNTER (memory w) → pending l w' → wp k w' Q) →
  wp (_ ← on_failures (clear (tainted s)); _ ← slice_drop s; k) w Q.
Proof.
  intros Hpend HQ. pose proof Hpend as [Hm Hp Hnd Ht Hs].
  apply wp_bind, wp_on_failures. apply (wp_clear_released _ (taints_of l)); [done|].
  intros g' Hr Hc. apply wp_bind. unfold slice_drop. apply wp_on_memory.
  apply placed_cons in Hp as [(i & d & Hd & _ & Hh) Hp].
  eapply wp_drop_owner; [done|done|done|]. intros m' He Hcount.
  apply HQ; [|done|].
  - split_and!; try done.
  - by eapply pending_drop.
Qed.

Definition merged_run (ds : list Slice) (pos : nat) (w w' : World St) : Prop :=
  dropping ds w w' ∧ COUNTER (memory w') = COUNTER (memory w) + 1 ∧
  fresh_free (memory w) (memory w') ∧
  slot (memory w') base (Z.of_nat pos) (COUNTER (memory w)).

(** A turn that drops [s] and puts the merged slice at [pos]. *)
Lemma wp_complete_turn {A} s l st pos (k : Slice → M (World St) A) w (Q : A → World St → Prop) :
  pending (s :: l) w → COUNTER (memory w) < u64_max → Z.of_nat pos <= u32_max →
  (∀ w', merged_run [s] pos w w' → pending l w' →
     wp (k (mk_Slice st (COUNTER (memory w)) 0 0 true taint_default)) w' Q) →
  wp (_ ← on_failures (clear (tainted s)); merged ← slice_new st 0;
      _ ← on_memory (update_location (handle merged) (with_slice (as_u32 (Z.of_nat pos)) base));
      _ ← slice_drop s; k merged) w Q.
Proof.
  intros Hpend Hroom Hpos HQ. pose proof Hpend as [Hm Hp Hnd Ht Hs].
  apply wp_bind, wp_on_failures. apply (wp_clear_released _ (taints_of l)); [done|].
  intros g' Hr Hc. apply wp_bind. unfold slice_new. apply wp_bind, wp_on_memory.
  apply wp_new_owner; [done|done|]. intros m1 He1 Hc1 Hnew. apply wp_ret.
  apply wp_bind, wp_on_memory. rewrite as_u32_small by lia. cbn [handle].
  pose proof (ev_wf _ _ _ _ He1 Hm) as Hm1. eapply wp_slot_update_location; [done|exact Hnew|cbn; lia|done|lia|].
  intros m2 He2 Hc2 Hslot. pose proof (ev_wf _ _ _ _ He2 Hm1) as Hm2.
  apply placed_cons in Hp as [[i Hi] Hp]. pose proof (slot_known _ _ _ _ Hm Hi) as Hid.
  cbn [memory with_memory with_failures] in *.
  assert (handle s ≠ COUNTER (memory w)) as Hne by lia.
  assert (slot m2 base i (handle s)) as (d & Hd & _ & Hh).
  { eapply slot_evolve; [exact Hm1|exact He2| |by intros ?%list_elem_of_singleton|apply not_elem_of_nil].
    eapply slot_evolve; [exact Hm|exact He1|done|apply not_elem_of_nil..]. }
  apply wp_bind. unfold slice_drop. apply wp_on_memory.
  eapply wp_drop_owner; [done|done|done|]. intros m3 He3 Hc3. cbn [memory with_memory] in *.
  assert (evolve [] [handle s] (memory w) m3) as He.
  { eapply evolve_weaken, evolve_trans, evolve_trans; [| |exact He1|exact He2|exact He3]; cbn [app].
    - intros id Hlt ->%list_elem_of_singleton. lia.
    - done. }
  apply HQ; [|by eapply pending_drop].
  split; [|split; [cbn; lia|split]].
  - split_and!; try done.
  - intros id Hcid. cbn [memory with_memory] in *. assert (id = COUNTER (memory w)) as -> by lia.
    rewrite (ev_counts _ _ _ _ He3), (ev_counts _ _ _ _ He2);
      try apply not_elem_of_nil; try lia; [by unfold counts; rewrite Hnew|].
    by intros ?%list_elem_of_singleton.
  - eapply slot_evolve; [exact Hm2|exact He3|done|apply not_elem_of_nil|].
    by intros ?%list_elem_of_singleton.
Qed.

Lemma merged_run_cons s ds pos w w1 w' :
  pending (s :: ds) w → dropping [s] w w1 → COUNTER (memory w1) = COUNTER (memory w) →
  merged_run ds pos w1 w' → merged_run (s :: ds) pos w w'.
Proof.
  intros [_ _ _ Ht _] (He1 & Hr1 & Hi1 & Hs1) Hc1 ((He2 & Hr2 & Hi2 & Hs2) & Hc2 & Hff & Hslot).
  unfold fresh_free in *. rewrite Hc1 in *. split; [|done]. split; [exact (evolve_trans _ _ _ _ _ _ _ He1 He2)|].
  split; [exact (released_app _ _ _ [tainted s] _ Ht Hr1 Hr2)|]. split; congruence.
Qed.

(** The rest of a run, after [cursor] of its slices. *)
Lemma wp_run r rest l start cursor size_ tasks off sz tmp w (Q : list Slice → World St → Prop) :
  pending ((r :: rest) ++ l) w → COUNTER (memory w) < u64_max →
  Z.of_nat (length tmp) <= u32_max → (1 <= cursor)%nat →
  0 <= sz → sz + effs (r :: rest) <= u64_max →
  (∀ w', merged_run (r :: rest) (length tmp) w w' → pending l w' →
     wp (coalesce_loop ps base l (start + (cursor + S (length rest))) (head tasks) (tail tasks)
           off (sz + effs (r :: rest))
           (tmp ++ [mk_Slice (with_utilization (mk_StorageUtilization off (sz + effs (r :: rest))) ps)
                      (COUNTER (memory w)) 0 0 true taint_default])) w' Q) →
  wp (coalesce_loop ps base ((r :: rest) ++ l) (start + cursor)
        (Some (mk_MemoryTask start (cursor + S (length rest)) cursor size_)) tasks off sz tmp) w Q.
Proof.
  revert r cursor sz w. induction rest as [|r' rest IH];
    intros r cursor sz w Hpend Hroom Hpos Hcur Hsz Hfit HQ; cbn [app coalesce_loop];
    unfold on_coalesce at 1; cbn [start_index task_cursor count task_size];
    rewrite decide_True, (decide_False (P := (cursor + 1 = 1)%nat)) by lia;
    pose proof (pending_nonneg _ _ (pending_app _ _ _ Hpend)) as Hpos0;
    assert (0 <= eff r) by (apply pending_app in Hpend as [_ _ _ _ [? _]%Forall_cons]; done).
  - rewrite decide_True by (cbn; lia). unfold effs in *; cbn [fmap list_fmap sum_Z foldr] in *.
    apply wp_bind. eapply wp_lift; [eapply pending_effective; [done|lia]|].
    apply wp_bind, (wp_lift _ (sz + eff r)); [apply add_u64_Some; lia|].
    apply (wp_complete_turn r l); [done|done|done|]. intros w' Hrun Hpend'.
    rewrite Z.add_0_r in HQ. cbn [length] in HQ.
    replace (S (start + cursor)) with (start + (cursor + 1))%nat by lia. by apply HQ.
  - rewrite decide_False by (cbn; lia). rewrite effs_cons in *.
    assert (0 <= effs (r' :: rest)) as Hpos1.
    { destruct Hpend as [_ _ _ _ [_ Hs]%Forall_cons]. rewrite app_comm_cons in Hs.
      apply Forall_app in Hs as [Hs _]. by apply sum_Z_nonneg, Forall_fmap. }
    apply wp_bind. eapply wp_lift; [eapply pending_effective; [done|lia]|].
    apply wp_bind, (wp_lift _ (sz + eff r)); [apply add_u64_Some; lia|].
    apply (wp_drop_turn r ((r' :: rest) ++ l)); [done|]. intros w1 Hd1 Hc1 Hpend1.
    replace (S (start + cursor)) with (start + (cursor + 1))%nat by lia.
    replace (cursor + S (length (r' :: rest)))%nat with ((cursor + 1) + S (length rest))%nat
      by (cbn; lia).
    apply (IH r' (cursor + 1)%nat (sz + eff r) w1); try lia; try done.
    intros w' Hrun Hpend'. rewrite Hc1.
    replace (sz + eff r + effs (r' :: rest)) with (sz + (eff r + effs (r' :: rest))) by lia.
    replace (start + (cursor + 1 + S (length rest)))%nat
      with (start + (cursor + S (length (r' :: rest))))%nat by (cbn; lia).
    apply HQ; [|done]. eapply merged_run_cons; [|done..].
    by apply (pending_app (r :: r' :: rest) l).
Qed.

Lemma coalesced_cons start b bs w w1 w' :
  pending (slices_of (b :: bs)) w →
  coalesced ps base start [b] w w1 → coalesced ps base (S start) bs w1 w' →
  coalesced ps base start (b :: bs) w w'.
Proof.
  intros [Hm Hp Hnd Ht _] (He1 & Hc1 & Hf1 & Hs1 & Hr1 & Hi1 & Hst1)
    (He2 & Hc2 & Hf2 & Hs2 & Hr2 & Hi2 & Hst2).
  pose proof (ev_wf _ _ _ _ He1 Hm) as Hm1.
  assert (kept (b :: bs) = kept [b] ++ kept bs ∧ dropped (b :: bs) = dropped [b] ++ dropped bs)
    as [Hk Hd] by (destruct b; cbn; by rewrite ?app_nil_r).
  assert (merges (b :: bs) = merges [b] + merges bs) as Hmg.
  { unfold merges. rewrite !fmap_cons, !sum_Z_cons. change (sum_Z (_ <$> [])) with 0. lia. }
  assert (∀ id, id ∈ handles_of (kept bs) ∨ id ∈ handles_of (dropped bs) →
    id ∉ handles_of (block_slices b) ∧ id < COUNTER (memory w)) as Hlater.
  { intros id Hid. assert (id ∈ handles_of (slices_of bs)) as Hin.
    { unfold handles_of. rewrite slices_kept_dropped, fmap_app, elem_of_app. tauto. }
    change (slices_of (b :: bs)) with (block_slices b ++ slices_of bs) in *.
    rewrite handles_app in Hnd. apply NoDup_app in Hnd as (_ & Hdisj & _).
    split; [intros ?; by eapply Hdisj|].
    apply list_elem_of_fmap in Hin as (s & -> & Hs).
    apply (placed_known _ base _ s Hm Hp). set_solver. }
  split; [|split; [lia|split; [|split; [|split]]]].
  - rewrite Hk, Hd, !handles_app. by eapply evolve_trans.
  - eapply fresh_free_trans; [exact He2| |done|done]. intros id Hid. by apply Hlater; right.
  - assert (∃ x, fuse ps (COUNTER (memory w)) (b :: bs) = x :: fuse ps (COUNTER (memory w1)) bs ∧
      fuse ps (COUNTER (memory w)) [b] = [x] ∧
      (handle x ∈ handles_of (block_slices b) ∨ COUNTER (memory w) <= handle x)) as (x & -> & Hx & Hhx).
    { rewrite Hc1. destruct b as [s|s t run]; eexists; split_and!; try done.
      - cbn. by rewrite Z.add_0_r.
      - left. cbn. by left.
      - right. cbn. lia. }
    rewrite Hx in Hs1. apply slots_cons in Hs1 as [Hs1 _]. apply slots_cons. split; [|done].
    eapply slot_evolve; [exact Hm1|exact He2|done|..]; intros Hin;
      [destruct (Hlater (handle x)) as [? ?]; [by left|] |
       destruct (Hlater (handle x)) as [? ?]; [by right|]]; destruct Hhx; (done || lia).
  - rewrite Hd, taints_app. eapply released_app; [|done|done].
    apply (covered_app_l _ _ (taints_of (kept (b :: bs)))). rewrite <- taints_app, <- taints_app, <- Hd.
    eapply covered_perm, Ht. unfold taints_of. by rewrite slices_kept_dropped.
  - split; congruence.
Qed.

Lemma tasks_of_after start bs t : head (tasks_of start bs) = Some t →
  (start <= start_index t)%nat ∧ task_cursor t = 0%nat.
Proof.
  revert start. induction bs as [|[s|s u run] bs IH]; intros start; cbn; [done| |].
  - intros H%IH. destruct H. split; [lia|done].
  - intros [= <-]. split; [cbn; lia|done].
Qed.

Lemma wp_coalesce_loop bs idx off sz tmp w :
  pending (slices_of bs) w → COUNTER (memory w) + merges bs <= u64_max →
  Z.of_nat (length tmp + length (slices_of bs)) <= u32_max → effs (slices_of bs) <= u64_max →
  wp (coalesce_loop ps base (slices_of bs) idx (head (tasks_of idx bs)) (tail (tasks_of idx bs))
        off sz tmp) w (λ l' w',
    l' = tmp ++ fuse ps (COUNTER (memory w)) bs ∧ coalesced ps base (length tmp) bs w w').
Proof.
  revert idx off sz tmp w. induction bs as [|b bs IH]; intros idx off sz tmp w Hpend Hroom Hlen Hfit.
  { apply wp_ret. split; [by rewrite app_nil_r|]. unfold coalesced.
    change (merges []) with 0. split_and!; try done; try lia; [by apply fresh_free_none|apply released_nil]. }
  pose proof (pending_nonneg _ _ Hpend) as Hpos.
  assert (∀ w1 off sz, coalesced ps base (length tmp) [b] w w1 → pending (slices_of bs) w1 →
    wp (coalesce_loop ps base (slices_of bs) (idx + block_count b)
          (head (tasks_of (idx + block_count b) bs)) (tail (tasks_of (idx + block_count b) bs))
          off sz (tmp ++ fuse ps (COUNTER (memory w)) [b])) w1 (λ l' w',
      l' = tmp ++ fuse ps (COUNTER (memory w)) (b :: bs) ∧
      coalesced ps base (length tmp) (b :: bs) w w')) as Hnext.
  { clear off sz. intros w1 off sz Hco Hpend1. pose proof Hco as (_ & Hc1 & _).
    unfold merges in *. rewrite !fmap_cons, !sum_Z_cons in *.
    change (sum_Z (_ <$> [])) with 0 in Hc1.
    change (slices_of (b :: bs)) with (block_slices b ++ slices_of bs) in *.
    rewrite effs_app in *. rewrite length_app in Hlen.
    assert (length (fuse ps (COUNTER (memory w)) [b]) = 1%nat) as Hone by by destruct b.
    assert (1 <= length (block_slices b))%nat by (destruct b; cbn; lia).
    assert (0 <= effs (block_slices b)) by (apply (pending_nonneg _ w); by eapply pending_app).
    eapply wp_mono; [apply IH; try done; rewrite ?length_app; lia|].
    intros l' w' [-> Hco']. rewrite length_app, Hone, Nat.add_1_r in Hco'. split.
    - rewrite <- app_assoc, Hc1. f_equal. destruct b; cbn; [by rewrite Z.add_0_r|done].
    - by eapply coalesced_cons. }
  destruct b as [s|s t run]; change (slices_of (_ :: bs)) with (block_slices (Kept s) ++ slices_of bs) in * ||
    change (slices_of (_ :: bs)) with (block_slices (Merged s t run) ++ slices_of bs) in *;
    cbn [block_slices block_count app length] in *.
  - cbn [coalesce_loop tasks_of].
    replace (match head (tasks_of (S idx) bs) with
             | Some task => let '(status, task) := on_coalesce idx task in (status, Some task)
             | None => (Ignoring, None) end) with (Ignoring, head (tasks_of (S idx) bs)).
    2: { destruct (head (tasks_of (S idx) bs)) as [t|] eqn:Ht; [|done].
         apply tasks_of_after in Ht as [Hge Hcur]. unfold on_coalesce. rewrite Hcur.
         by rewrite decide_False by lia. }
    pose proof Hpend as [Hm Hp Hnd _ _]. cbn in Hnd. apply NoDup_cons in Hnd as [Hni _].
    apply placed_cons in Hp as [Hs Hp].
    apply (wp_renumber_turn base Hbase s _ (slices_of bs)); [done|done|lia|done|done|].
    intros w1 (He1 & Hc1 & Hs1 & Hw1) Hm1 Hp1. rewrite <- Nat.add_1_r at 1 2 3. apply Hnext.
    + split_and!; try done; [cbn; lia|by apply fresh_free_none|rewrite Hw1; apply released_nil|by rewrite Hw1..].
    + eapply pending_keep; [done|done|by rewrite Hw1].
  - cbn [coalesce_loop tasks_of head tail]. unfold on_coalesce at 1.
    cbn [start_index task_cursor count task_size]. rewrite decide_True by lia.
    rewrite decide_True by done. rewrite effs_cons in *.
    assert (0 <= effs (slices_of bs) ∧ 0 <= eff s ∧ 0 <= effs (t :: run)) as (Hp1 & Hp2 & Hp3).
    { destruct Hpend as [_ _ _ _ [Hs Hss]%Forall_cons].
      change (t :: run ++ slices_of bs) with ((t :: run) ++ slices_of bs) in Hss.
      apply Forall_app in Hss as [Ht Hss].
      split_and!; [by apply sum_Z_nonneg, Forall_fmap|done|by apply sum_Z_nonneg, Forall_fmap]. }
    change (t :: run ++ slices_of bs) with ((t :: run) ++ slices_of bs) in Hfit.
    rewrite effs_app in Hfit.
    apply wp_bind. eapply wp_lift; [eapply pending_effective; [done|lia]|].
    apply (wp_drop_turn s ((t :: run) ++ slices_of bs)); [done|]. intros w1 Hd1 Hc1 Hpend1.
    unfold merges in Hroom. rewrite fmap_cons, sum_Z_cons in Hroom.
    assert (0 <= merges bs) as Hmg by (unfold merges; apply sum_Z_nonneg, Forall_fmap;
      apply Forall_true; by intros []).
    unfold merges in Hmg. rewrite <- (Nat.add_1_r idx).
    replace (S (S (length run))) with (1 + S (length run))%nat by done.
    apply (wp_run t run (slices_of bs)); [done|lia|lia|lia|lia|lia|].
    intros w2 Hrun Hpend2. rewrite Hc1 in *.
    change (eff s + effs (t :: run)) with (effs (s :: t :: run)).
    assert (merged_run (s :: t :: run) (length tmp) w w2) as ((He & Hr & Hi & Hst) & Hc2 & Hff & Hslot).
    { eapply merged_run_cons; [|done..]. by apply (pending_app (s :: t :: run) (slices_of bs)). }
    apply Hnext; [|done]. unfold coalesced. cbn [kept dropped flat_map app fuse].
    rewrite app_nil_r. split_and!; try done.
    apply slots_cons. split; [done|apply slots_nil].
Qed.
End loop.

(** ** The invariant after coalescing *)
Lemma laid_fuse align ps lo hi h bs :
  laid align lo hi (slices_of bs) → laid align lo hi (fuse ps h bs).
Proof.
  revert lo h. induction bs as [|b bs IH]; intros lo h; [done|].
  change (slices_of (b :: bs)) with (block_slices b ++ slices_of bs).
  intros (mid & Hb & Hbs)%laid_app. destruct b as [s|s t run]; cbn [block_slices fuse] in *.
  - cbn in Hb. destruct Hb as (?&?&?&?&?). cbn [laid]. split_and!; try done.
    eapply laid_lower; [by apply IH|done].
  - pose proof (laid_effs_from _ _ _ _ _ Hb) as Hend. pose proof (laid_effs _ _ _ _ Hb) as Hpos.
    destruct Hb as (?&?&?&?&_). cbn [laid].
    change (slice_offset (merge ps h s (t :: run))) with (slice_offset s).
    change (slice_size (merge ps h s (t :: run))) with (effs (s :: t :: run)).
    change (padding (merge ps h s (t :: run))) with 0.
    split; [done|]. split; [done|]. split; [lia|]. split; [done|].
    eapply laid_lower; [by apply IH|lia].
Qed.

Lemma effs_fuse ps h bs : effs (fuse ps h bs) = effs (slices_of bs).
Proof.
  revert h. induction bs as [|b bs IH]; intros h; [done|].
  change (slices_of (b :: bs)) with (block_slices b ++ slices_of bs). rewrite effs_app.
  destruct b as [s|s t run]; cbn [fuse block_slices]; rewrite effs_cons, IH.
  - rewrite effs_cons. change (effs []) with 0. lia.
  - unfold merge, eff at 1, slice_size; cbn. lia.
Qed.

Lemma fuse_handles ps h bs id :
  id ∈ handles_of (fuse ps h bs) → id ∈ handles_of (kept bs) ∨ h <= id.
Proof.
  revert h. induction bs as [|[s|s t run] bs IH]; intros h; cbn; [by intros ?%not_elem_of_nil|..];
    intros [->|Hin]%elem_of_cons; rewrite ?elem_of_cons.
  - by left; left.
  - destruct (IH _ Hin); [by left; right|by right].
  - right. lia.
  - destruct (IH _ Hin); [by left|right; lia].
Qed.
Lemma fuse_distinct ps h bs :
  NoDup (handles_of (kept bs)) → (∀ id, id ∈ handles_of (kept bs) → id < h) →
  NoDup (handles_of (fuse ps h bs)).
Proof.
  revert h. induction bs as [|[s|s t run] bs IH]; intros h Hnd Hlt; cbn in *; [done|..].
  - apply NoDup_cons in Hnd as [Hni Hnd]. apply NoDup_cons. split.
    + intros [Hin|Hle]%fuse_handles; [done|]. specialize (Hlt (handle s)). set_unfold. lia.
    + apply IH; [done|]. intros id Hid. apply Hlt. by right.
  - apply NoDup_cons. split.
    + intros [Hin%Hlt|Hle]%fuse_handles; lia.
    + apply IH; [done|]. intros id Hid%Hlt. lia.
Qed.
Lemma fuse_length ps h bs : (length (fuse ps h bs) <= length (slices_of bs))%nat.
Proof.
  revert h. induction bs as [|[s|s t run] bs IH]; intros h; cbn; [done| |].
  - apply le_n_S, IH.
  - rewrite length_app. specialize (IH (h + 1)). unfold slices_of in IH. lia.
Qed.
Lemma fuse_ids ps h bs :
  Forall (λ s, storage_id (slice_storage s) = storage_id ps) (slices_of bs) →
  Forall (λ s, storage_id (slice_storage s) = storage_id ps) (fuse ps h bs).
Proof.
  revert h. induction bs as [|b bs IH]; intros h; [done|].
  change (slices_of (b :: bs)) with (block_slices b ++ slices_of bs).
  intros [Hb Hbs]%Forall_app. destruct b as [s|s t run]; cbn; constructor; auto.
  by apply Forall_cons in Hb as [? _].
Qed.
Lemma fuse_taints_ok ps h bs :
  Forall taint_ok (taints_of (kept bs)) → Forall taint_ok (taints_of (fuse ps h bs)).
Proof.
  revert h. induction bs as [|[s|s t run] bs IH]; intros h Hok; [done|..]; cbn in *.
  - apply Forall_cons in Hok as [? ?]. constructor; auto.
  - constructor; auto.
Qed.
Lemma carriers_fuse ps h bs f :
  carriers (taints_of (fuse ps h bs)) f = carriers (taints_of (kept bs)) f.
Proof.
  revert h. induction bs as [|[s|s t run] bs IH]; intros h; [done|..].
  - change (kept (Kept s :: bs)) with (s :: kept bs). cbn [fuse].
    by rewrite !taints_cons, !carriers_cons, IH.
  - change (kept (Merged s t run :: bs)) with (kept bs). cbn [fuse].
    by rewrite !taints_cons, !carriers_cons, IH.
Qed.
Lemma covered_app_fuse g ps h bs o :
  covered g (taints_of (kept bs) ++ o) → covered g (taints_of (fuse ps h bs) ++ o).
Proof.
  intros [Hok Hc]. split.
  - apply Forall_app in Hok as [? ?]. apply Forall_app. split; [by apply fuse_taints_ok|done].
  - intros f. rewrite carriers_app, carriers_fuse, <- carriers_app. apply Hc.
Qed.
Lemma covered_fuse g ps h bs : covered g (taints_of (kept bs)) → covered g (taints_of (fuse ps h bs)).
Proof.
  intros Hc. rewrite <- (app_nil_r (taints_of _)). apply covered_app_fuse. by rewrite app_nil_r.
Qed.

Lemma fuse_no_tasks ps h start bs : tasks_of start bs = [] →
  fuse ps h bs = slices_of bs ∧ merges bs = 0 ∧ dropped bs = [].
Proof.
  revert start. induction bs as [|[s|s t run] bs IH]; intros start; cbn; [done| |done].
  intros (Hf & Hm & Hd)%IH. split_and!; [by f_equal|exact Hm|exact Hd].
Qed.

Definition page_blocks (m : Memory) (p : MemoryPage) : list block := blocks_of m [] (slices p).

Lemma page_blocks_slices m p : slices_of (page_blocks m p) = slices p.
Proof. apply slices_of_blocks. Qed.

(** [coalesce] against its reference. *)
Lemma wp_coalesce {St} (p : MemoryPage) (w : World St) :
  page_inv w p → COUNTER (memory w) + merges (page_blocks (memory w) p) <= u64_max →
  wp (coalesce p) w (λ p' w',
    page_inv w' p' ∧ p' = with_slices (slices p') p ∧
    slices p' = fuse (page_storage p) (COUNTER (memory w)) (page_blocks (memory w) p) ∧
    coalesced (page_storage p) (location_base p) 0 (page_blocks (memory w) p) w w').
Proof.
  intros Hinv Hroom. pose proof (page_inv_placed _ _ Hinv) as Hpl.
  pose proof Hinv as [Hm [Hslots Hnd Hlaid Hal Hpsize Hids [Hbase Hinit] Hlen] Htaints].
  pose proof (page_blocks_slices (memory w) p) as Hbs. set (bs := page_blocks (memory w) p) in *.
  assert (Forall (λ s, 0 <= eff s) (slices p)) as Hpos.
  { apply Forall_forall. intros s Hs. pose proof (laid_within _ _ _ _ _ Hlaid Hs). unfold eff. lia. }
  pose proof (laid_effs _ _ _ _ Hlaid) as Heffs.
  unfold coalesce. apply wp_bind.
  eapply wp_mono; [apply (wp_memory_job (location_base p) _ 0 [] []); [done|cbn [app]; lia|done]|].
  intros r w' [-> ->]. cbn [app]. change (blocks_of (memory w) [] (slices p)) with bs.
  destruct (tasks_of 0 bs) as [|task tasks] eqn:Htasks.
  { destruct (fuse_no_tasks (page_storage p) (COUNTER (memory w)) _ _ Htasks) as (Hf & Hmg & Hd).
    apply wp_ret. rewrite Hf, Hbs. split_and!; [done|by destruct p|done|].
    unfold coalesced. rewrite Hf, Hmg, Hd, Hbs. split_and!; try done; try lia; [by apply fresh_free_none|apply released_nil]. }
  apply wp_bind. rewrite <- Hbs at 1.
  replace (Some task) with (head (tasks_of 0 bs)) by by rewrite Htasks.
  replace tasks with (tail (tasks_of 0 bs)) by by rewrite Htasks.
  eapply wp_mono; [apply (wp_coalesce_loop (page_storage p) (location_base p) Hbase bs)|];
    rewrite ?Hbs; try done; try (cbn; lia); try (by split).
  intros l' w' [-> Hco]. cbn [app length] in *. apply wp_ret.
  pose proof Hco as (He & Hc & _ & Hs & Hr & _).
  assert (∀ id, id ∈ handles_of (kept bs) → id < COUNTER (memory w)) as Hknown.
  { intros id (s & -> & Hin)%list_elem_of_fmap.
    apply (placed_known _ (location_base p) (slices p)); [done|done|].
    rewrite <- Hbs, slices_kept_dropped. set_solver. }
  split_and!; try done.
  apply (page_inv_intro w w' p); try done.
  - by apply (ev_wf _ _ _ _ He).
  - apply fuse_distinct; [|done]. unfold handles_of in *.
    rewrite <- Hbs, slices_kept_dropped, fmap_app in Hnd. by apply NoDup_app in Hnd as (_ & _ & ?).
  - apply laid_fuse. by rewrite Hbs.
  - apply fuse_ids. by rewrite Hbs.
  - pose proof (fuse_length (page_storage p) (COUNTER (memory w)) bs). rewrite Hbs in *. lia.
  - apply covered_fuse. eapply covered_released, Hr. eapply covered_perm, Htaints.
    unfold taints_of. rewrite <- Hbs, slices_kept_dropped at 1. by rewrite fmap_app.
Qed.

(** ** What coalescing means for the slices *)
Definition free_flags (m : Memory) (l : list Slice) : list bool := (λ s, freed m (handle s)) <$> l.
Definition live_of (m : Memory) (l : list Slice) : list Slice :=
  filter (λ s, freed m (handle s) = false) l.

(** No two neighbours are both free. *)
Fixpoint sparse (l : list bool) : Prop :=
  match l with
  | [] => True
  | b :: l' => ¬ (b = true ∧ head l' = Some true) ∧ sparse l'
  end.

Definition block_free (m : Memory) (b : block) : bool :=
  match b with Kept s => freed m (handle s) | Merged _ _ _ => true end.
Definition block_ok (m : Memory) (b : block) : Prop :=
  match b with
  | Kept _ => True
  | Merged s t run => Forall (λ s, freed m (handle s) = true) (s :: t :: run)
  end.

Lemma blocks_ok m run l :
  Forall (λ s, freed m (handle s) = true) run → Forall (block_ok m) (blocks_of m run l).
Proof.
  assert (∀ run, Forall (λ s, freed m (handle s) = true) run → Forall (block_ok m) (flush_run run))
    as Hflush.
  { intros [|s [|t run']] Hr; cbn; repeat constructor; try done;
      by rewrite !Forall_cons in Hr; destruct Hr as (?&?&?). }
  revert run. induction l as [|s l IH]; intros run Hr; cbn; [auto|].
  destruct (freed m (handle s)) eqn:Hs.
  - apply IH, Forall_app. split; [done|by constructor].
  - apply Forall_app. split; [auto|]. constructor; [done|]. apply IH. constructor.
Qed.

Lemma blocks_sparse m run l :
  Forall (λ s, freed m (handle s) = true) run → sparse (block_free m <$> blocks_of m run l).
Proof.
  assert (∀ run (bs : list block), sparse (block_free m <$> bs) →
    (run ≠ [] → head (block_free m <$> bs) ≠ Some true) →
    sparse (block_free m <$> flush_run run ++ bs)) as Hflush.
  { intros [|s [|t run']] bs Hbs Hh; cbn; [done|..]; (split; [|done]); intros [_ ?]; by apply Hh. }
  revert run. induction l as [|s l IH]; intros run Hr; cbn.
  - rewrite <- (app_nil_r (flush_run run)). apply Hflush; done.
  - destruct (freed m (handle s)) eqn:Hs.
    + apply IH, Forall_app. split; [done|by constructor].
    + apply Hflush; cbn; rewrite Hs; [|done]. split; [by intros []|]. by apply IH.
Qed.

(** A page with no two free neighbours has nothing to merge. *)
Lemma sparse_no_tasks m run l start :
  (length run <= 1)%nat → Forall (λ s, freed m (handle s) = true) run →
  sparse (free_flags m (run ++ l)) → tasks_of start (blocks_of m run l) = [].
Proof.
  revert run start. induction l as [|s l IH]; intros run start Hlen Hr Hsp; cbn.
  - destruct run as [|? [|? ?]]; cbn in *; done || lia.
  - destruct (freed m (handle s)) eqn:Hs.
    + apply IH.
      * destruct run as [|t [|? ?]]; cbn in *; [lia| |lia].
        destruct Hsp as [Hno _]. rewrite Hs in Hno. destruct Hno. split; [|done].
        by apply Forall_cons in Hr as [? _].
      * apply Forall_app. split; [done|by constructor].
      * by rewrite <- app_assoc.
    + rewrite tasks_of_app, slices_of_flush. cbn.
      rewrite (IH []); cbn; [|lia|constructor|].
      * destruct run as [|t [|? ?]]; cbn in *; done || lia.
      * destruct run as [|t [|? ?]]; cbn in *; [tauto|tauto|lia].
Qed.

Section flags.
Context (m m' : Memory) (ps : StorageHandle).

Lemma fuse_flags h bs :
  (∀ s, s ∈ kept bs → freed m' (handle s) = freed m (handle s)) →
  (∀ id, h <= id < h + merges bs → freed m' id = true) →
  free_flags m' (fuse ps h bs) = block_free m <$> bs.
Proof.
  revert h. induction bs as [|[s|s t run] bs IH]; intros h Hk Hn; [done|..].
  - change (kept (Kept s :: bs)) with (s :: kept bs) in Hk.
    change (merges (Kept s :: bs)) with (0 + merges bs) in Hn.
    cbn. f_equal; [apply Hk; by left|]. apply IH; [intros; apply Hk; by right|].
    intros; apply Hn; lia.
  - change (kept (Merged s t run :: bs)) with (kept bs) in Hk.
    change (merges (Merged s t run :: bs)) with (1 + merges bs) in Hn.
    assert (0 <= merges bs) as Hmg.
    { apply sum_Z_nonneg, Forall_fmap, Forall_true. by intros []. }
    cbn. f_equal; [apply Hn; lia|]. apply IH; [done|]. intros; apply Hn; lia.
Qed.

Lemma fuse_live h bs :
  Forall (block_ok m) bs →
  (∀ s, s ∈ kept bs → freed m' (handle s) = freed m (handle s)) →
  (∀ id, h <= id < h + merges bs → freed m' id = true) →
  live_of m' (fuse ps h bs) = live_of m (slices_of bs).
Proof.
  intros Hok. revert h. induction Hok as [|b bs Hb _ IH]; intros h Hk Hn; [done|].
  change (slices_of (b :: bs)) with (block_slices b ++ slices_of bs).
  unfold live_of in *. rewrite filter_app. destruct b as [s|s t run].
  - change (kept (Kept s :: bs)) with (s :: kept bs) in Hk.
    change (merges (Kept s :: bs)) with (0 + merges bs) in Hn. cbn [fuse block_slices].
    rewrite !filter_cons, filter_nil, (Hk s) by by left.
    assert (∀ s, s ∈ kept bs → freed m' (handle s) = freed m (handle s)) as Hk'.
    { intros; apply Hk; by right. }
    case_decide; cbn [app]; rewrite IH; try done; intros; apply Hn; lia.
  - change (kept (Merged s t run :: bs)) with (kept bs) in Hk.
    change (merges (Merged s t run :: bs)) with (1 + merges bs) in Hn.
    assert (0 <= merges bs) as Hmg.
    { apply sum_Z_nonneg, Forall_fmap, Forall_true. by intros []. }
    cbn [fuse]. rewrite filter_cons, decide_False by (cbn; rewrite Hn; [done|lia]).
    rewrite IH by (done || intros; apply Hn; lia).
    assert (filter (λ s, freed m (handle s) = false) (block_slices (Merged s t run)) = []) as ->; [|done].
    cbn [block_slices]. cbn in Hb. clear -Hb. induction Hb as [|x l Hx _ IH]; [done|].
    rewrite filter_cons, decide_False by congruence. done.
Qed.
End flags.

Lemma coalesced_flags {St} ps base p (w w' : World St) :
  page_inv w p → coalesced ps base 0 (page_blocks (memory w) p) w w' →
  (∀ s, s ∈ kept (page_blocks (memory w) p) →
     freed (memory w') (handle s) = freed (memory w) (handle s)) ∧
  (∀ id, COUNTER (memory w) <= id < COUNTER (memory w) + merges (page_blocks (memory w) p) →
     freed (memory w') id = true).
Proof.
  intros Hinv (He & Hc & Hf & _). set (bs := page_blocks (memory w) p) in *. split.
  - intros s Hs. apply freed_counts. assert (s ∈ slices p) as Hin.
    { rewrite <- (page_blocks_slices (memory w)). fold bs. rewrite slices_kept_dropped. set_solver. }
    pose proof (placed_known _ _ _ _ (inv_memory _ _ Hinv) (page_inv_placed _ _ Hinv) Hin).
    apply (ev_counts _ _ _ _ He); [lia|]. intros Hd.
    pose proof (page_distinct _ _ (inv_page _ _ Hinv)) as Hnd. unfold handles_of in Hnd, Hd.
    rewrite <- (page_blocks_slices (memory w)) in Hnd. fold bs in Hnd.
    rewrite slices_kept_dropped, fmap_app in Hnd. apply NoDup_app in Hnd as (_ & Hdis & _).
    apply (Hdis (handle s)); [done|]. by apply list_elem_of_fmap_2.
  - intros id Hid. eapply fresh_is_free; [done|lia].
Qed.

Lemma coalesced_sparse {St} base p p' (w w' : World St) :
  page_inv w p → slices p' = fuse (page_storage p) (COUNTER (memory w)) (page_blocks (memory w) p) →
  coalesced (page_storage p) base 0 (page_blocks (memory w) p) w w' →
  sparse (free_flags (memory w') (slices p')).
Proof.
  intros Hinv Hs Hco. destruct (coalesced_flags _ _ _ _ _ Hinv Hco) as [Hk Hn].
  rewrite Hs, (fuse_flags _ _ _ _ _ Hk Hn). apply blocks_sparse. constructor.
Qed.

Lemma merges_length bs : merges bs <= Z.of_nat (length (slices_of bs)).
Proof.
  induction bs as [|[s|s t run] bs IH]; [done|..].
  - change (merges (Kept s :: bs)) with (0 + merges bs). cbn [slices_of flat_map block_slices app length].
    fold (slices_of bs). lia.
  - change (merges (Merged s t run :: bs)) with (1 + merges bs).
    change (slices_of (_ :: bs)) with ((s :: t :: run) ++ slices_of bs).
    rewrite length_app. cbn [length]. lia.
Qed.

(** [coalesce] with room for a handle per slice. *)
Lemma wp_coalesce_room {St} (p : MemoryPage) (w : World St) (Q : MemoryPage → World St → Prop) :
  page_inv w p → COUNTER (memory w) + Z.of_nat (length (slices p)) <= u64_max →
  (∀ p' w', page_inv w' p' → p' = with_slices (slices p') p →
     slices p' = fuse (page_storage p) (COUNTER (memory w)) (page_blocks (memory w) p) →
     coalesced (page_storage p) (location_base p) 0 (page_blocks (memory w) p) w w' → Q p' w') →
  wp (coalesce p) w Q.
Proof.
  intros Hinv Hroom HQ. eapply wp_mono; [apply wp_coalesce; [done|]|].
  - pose proof (merges_length (page_blocks (memory w) p)) as Hm.
    rewrite page_blocks_slices in Hm. lia.
  - intros p' w' (?&?&?&?). by apply HQ.
Qed.

(** C3: coalescing by tasks is merging the maximal runs of free slices.  The
    slices a page is left with are those of the reference [fuse] over the
    blocks of the page: every slice outside a run of two or more free ones is
    the same and in the same place, each such run is one fresh slice from the
    first byte of its first slice, as long as its slices together, and the
    failures the merged slices carried are released, once each. *)
Theorem coalesce_is_fuse {St} (p : MemoryPage) (w : World St) :
  page_inv w p → COUNTER (memory w) + Z.of_nat (length (slices p)) <= u64_max →
  wp (coalesce p) w (λ p' w',
    let bs := page_blocks (memory w) p in
    p' = with_slices (fuse (page_storage p) (COUNTER (memory w)) bs) p ∧
    slices_of bs = slices p ∧ Forall (block_ok (memory w)) bs ∧
    released (failures w) (failures w') (taints_of (dropped bs))).
Proof.
  intros Hinv Hroom. apply wp_coalesce_room; [done|done|]. intros p' w' _ Hp Hs (_&_&_&_&Hr&_).
  split_and!; [by rewrite Hp, Hs|apply page_blocks_slices|apply blocks_ok; constructor|done].
Qed.

(** What coalescing guarantees the owners of a page.  It keeps the page's
    invariant; every live slice keeps its handle, its bytes, its cursor and
    its taint, in the same order; no two neighbours are left free; not a byte
    of the slices is lost; and coalescing again changes nothing. *)
Theorem coalesce_correct {St} (p : MemoryPage) (w : World St) :
  page_inv w p → COUNTER (memory w) + Z.of_nat (length (slices p)) <= u64_max →
  wp (coalesce p) w (λ p' w',
    page_inv w' p' ∧
    live_of (memory w') (slices p') = live_of (memory w) (slices p) ∧
    sparse (free_flags (memory w') (slices p')) ∧
    effs (slices p') = effs (slices p) ∧
    coalesce p' w' = Some (p', w')).
Proof.
  intros Hinv Hroom. apply wp_coalesce_room; [done|done|]. intros p' w' Hinv' Hp Hs Hco.
  destruct (coalesced_flags _ _ _ _ _ Hinv Hco) as [Hk Hn].
  pose proof (coalesced_sparse _ _ _ _ _ Hinv Hs Hco) as Hsp.
  split_and!; [done| |done| |].
  - rewrite Hs, (fuse_live _ _ _ _ _ (blocks_ok _ _ _ (Forall_nil_2 _)) Hk Hn).
    f_equal. apply page_blocks_slices.
  - by rewrite Hs, effs_fuse, page_blocks_slices.
  - pose proof (page_inv_placed _ _ Hinv') as Hpl'.
    pose proof (page_laid _ _ (inv_page _ _ Hinv')) as Hlaid.
    pose proof (laid_effs _ _ _ _ Hlaid) as Heffs.
    pose proof (page_fits _ _ (inv_page _ _ Hinv')) as Hfits.
    unfold coalesce, mbind, M_bind.
    pose proof (wp_memory_job (location_base p') (slices p') 0 [] [] w' Hpl') as Hjob.
    cbn [app length task_run Nat.add] in Hjob. unfold wp in Hjob.
    destruct (memory_job (slices p') 0 [] MemoryTask_default w') as [[r w'']|]; cycle 1.
    { exfalso. apply Hjob; [lia|]. apply Forall_forall. intros s Hin.
      pose proof (laid_within _ _ _ _ _ Hlaid Hin). unfold eff. lia. }
    destruct Hjob as [-> ->]; [lia| |].
    { apply Forall_forall. intros s Hin. pose proof (laid_within _ _ _ _ _ Hlaid Hin). unfold eff. lia. }
    rewrite (sparse_no_tasks _ [] _ _) by (done || (cbn; lia) || constructor). done.
Qed.

(** ** Witnesses *)

Lemma coalesce_is_fuse_witness :
  wp (coalesce page_example) (world_example tt) (λ p' w',
    slice_size <$> slices p' = [16; 10; 4] ∧
    p' = with_slices (fuse (page_storage page_example) 4 (page_blocks (memory (world_example tt)) page_example))
           page_example).
Proof.
  apply wp_conj; [vm_compute; reflexivity|].
  eapply wp_mono; [apply (coalesce_is_fuse page_example (world_example tt) (page_example_inv tt)); cbn; lia|].
  intros p' w' [Hp _]. exact Hp.
Defined.

Lemma coalesce_correct_witness :
  wp (coalesce page_example) (world_example tt) (λ p' w',
    effs (slices p') = 32 ∧ live_of (memory w') (slices p') = live_of (memory (world_example tt)) (slices page_example)).
Proof.
  eapply wp_mono; [apply (coalesce_correct page_example (world_example tt) (page_example_inv tt)); cbn; lia|].
  intros p' w' (_ & Hl & _ & He & _). split; [rewrite He; reflexivity|exact Hl].
Defined.
