(* ===== verification/Steps.v ===== *)
(** * Steps of a pool

    A pool runs operations page after page.  [steps l l' w w'] is what all of
    them have in common, for an operation that replaces the slices [l] by
    [l']: only the handles of [l] and fresh ones change, and every claim the
    slices of [l'] do not carry any more is released.  Steps on disjoint
    slices compose, which is what lifts the page's theorems to pools. *)

From S2P Require Export Coalesce.
From stdpp Require Import list.
#[local] Open Scope Z_scope.

Record steps {St} (l l' : list Slice) (w w' : World St) : Prop := mk_steps {
  steps_evolve : evolve (handles_of l) (handles_of l) (memory w) (memory w');
  steps_handles id : id ∈ handles_of l' →
    id ∈ handles_of l ∨ COUNTER (memory w) <= id < COUNTER (memory w');
  steps_taints o : covered (failures w) (o ++ taints_of l) → covered (failures w') (o ++ taints_of l');
}.

(** No live slice of [l] is moved, changed or lost. *)
Definition keeps_live (m m' : Memory) (l l' : list Slice) : Prop :=
  ∀ s, s ∈ l → freed m (handle s) = false → s ∈ l' ∧ freed m' (handle s) = false.

Definition known (m : Memory) (l : list Slice) : Prop :=
  ∀ id, id ∈ handles_of l → id < COUNTER m.
Definition same_storage {St} (w w' : World St) : Prop :=
  storage_ids w' = storage_ids w ∧ storage w' = storage w.

Lemma known_app m l1 l2 : known m (l1 ++ l2) ↔ known m l1 ∧ known m l2.
Proof.
  unfold known. setoid_rewrite handles_app. setoid_rewrite elem_of_app.
  split; [auto 10|]. intros [H1 H2] id [?|?]; auto.
Qed.
Lemma keeps_live_refl m l : keeps_live m m l l.
Proof. by intros s ? ?. Qed.
Lemma keeps_live_trans m1 m2 m3 l1 l2 l3 :
  keeps_live m1 m2 l1 l2 → keeps_live m2 m3 l2 l3 → keeps_live m1 m3 l1 l3.
Proof. intros H1 H2 s Hs Hf. destruct (H1 s Hs Hf). by apply H2. Qed.

Section steps.
Context {St : Type}.
Implicit Types (w : World St).

Lemma steps_refl l w : steps l l w w.
Proof. split; [|by left|done]. eapply evolve_weaken, evolve_refl; set_solver. Qed.

Lemma steps_trans l1 l2 l3 w1 w2 w3 :
  known (memory w1) l1 → steps l1 l2 w1 w2 → steps l2 l3 w2 w3 → steps l1 l3 w1 w3.
Proof.
  intros Hk [He1 Hh1 Ht1] [He2 Hh2 Ht2]. split.
  - eapply evolve_weaken, evolve_trans; [| |exact He1|exact He2]; intros id Hid;
      rewrite elem_of_app; (intros [?|Hin%Hh1]; [tauto|]); intuition lia.
  - pose proof (ev_counter _ _ _ _ He1). pose proof (ev_counter _ _ _ _ He2).
    intros id [Hin%Hh1|?]%Hh2; intuition lia.
  - auto.
Qed.

Lemma steps_app l1 l1' l2 l2' w1 w2 w3 :
  steps l1 l1' w1 w2 → steps l2 l2' w2 w3 → steps (l1 ++ l2) (l1' ++ l2') w1 w3.
Proof.
  intros [He1 Hh1 Ht1] [He2 Hh2 Ht2]. split.
  - rewrite !handles_app. by eapply evolve_trans.
  - pose proof (ev_counter _ _ _ _ He1). pose proof (ev_counter _ _ _ _ He2).
    intros id. rewrite !handles_app, !elem_of_app. intros [Hin%Hh1|Hin%Hh2]; intuition lia.
  - intros o Hc. rewrite !taints_app in *. rewrite app_assoc. apply Ht2.
    rewrite <- app_assoc. eapply covered_perm, (Ht1 (o ++ taints_of l2)).
    + by rewrite <- app_assoc, (Permutation_app_comm (taints_of l2)).
    + eapply covered_perm, Hc. by rewrite <- app_assoc, (Permutation_app_comm (taints_of l1)).
Qed.

(** An operation on one page leaves the slices of the others alone. *)
Lemma steps_frame_l l1 l2 l2' w w' : steps l2 l2' w w' → steps (l1 ++ l2) (l1 ++ l2') w w'.
Proof. intros H. eapply steps_app; [apply steps_refl|done]. Qed.
Lemma steps_frame_r l1 l1' l2 w w' : steps l1 l1' w w' → steps (l1 ++ l2) (l1' ++ l2) w w'.
Proof. intros H. eapply steps_app; [done|apply steps_refl]. Qed.

Lemma steps_distinct l1 l1' l2 l2' w1 w2 w3 :
  known (memory w1) (l1 ++ l2) → NoDup (handles_of (l1 ++ l2)) →
  NoDup (handles_of l1') → NoDup (handles_of l2') →
  steps l1 l1' w1 w2 → steps l2 l2' w2 w3 → NoDup (handles_of (l1' ++ l2')).
Proof.
  intros [Hk1 Hk2]%known_app Hnd Hn1 Hn2 [He1 Hh1 _] [_ Hh2 _].
  rewrite handles_app in *. apply NoDup_app in Hnd as (_ & Hd & _).
  apply NoDup_app. split_and!; try done. intros id Hin1%Hh1 Hin2%Hh2.
  pose proof (ev_counter _ _ _ _ He1).
  destruct Hin1 as [Hin1|?], Hin2 as [Hin2|?]; [by apply (Hd id)|..];
    try apply Hk1 in Hin1; try apply Hk2 in Hin2; lia.
Qed.

Lemma keeps_live_frame l k k' w w' :
  known (memory w) l → steps k k' w w' → NoDup (handles_of (l ++ k)) →
  ∀ s, s ∈ l → freed (memory w') (handle s) = freed (memory w) (handle s).
Proof.
  intros Hk [He _ _] Hnd s Hs. apply freed_counts, (ev_counts _ _ _ _ He).
  - by apply Hk, handle_in.
  - rewrite handles_app in Hnd. apply NoDup_app in Hnd as (_ & Hd & _).
    by apply Hd, handle_in.
Qed.

Lemma keeps_live_app l1 l1' l2 l2' w1 w2 w3 :
  known (memory w1) (l1 ++ l2) → NoDup (handles_of (l1 ++ l2)) →
  known (memory w2) l1' → NoDup (handles_of l1') →
  steps l1 l1' w1 w2 → steps l2 l2' w2 w3 →
  keeps_live (memory w1) (memory w2) l1 l1' → keeps_live (memory w2) (memory w3) l2 l2' →
  (∀ s, s ∈ l1' → freed (memory w3) (handle s) = freed (memory w2) (handle s)) ∧
  keeps_live (memory w1) (memory w3) (l1 ++ l2) (l1' ++ l2').
Proof.
  intros Hk Hnd Hk1 Hnd1 Hst1 Hst2 Hl1 Hl2.
  assert (NoDup (handles_of l2)) as Hnd2.
  { rewrite handles_app in Hnd. by apply NoDup_app in Hnd as (_ & _ & ?). }
  assert (∀ s, s ∈ l1' → freed (memory w3) (handle s) = freed (memory w2) (handle s)) as Hlater.
  { eapply (keeps_live_frame l1' l2); [done|exact Hst2|].
    eapply (steps_distinct _ _ l2 l2); [exact Hk|exact Hnd|done|done|exact Hst1|apply steps_refl]. }
  split; [done|]. intros s. rewrite !elem_of_app. intros [Hs|Hs] Hf.
  - destruct (Hl1 s Hs Hf) as [Hin Hf1]. split; [by left|]. by rewrite Hlater.
  - destruct (Hl2 s Hs) as [Hin Hf2]; [|by split; [right|]]. rewrite <- Hf.
    eapply (keeps_live_frame l2 l1); [|exact Hst1| |done].
    + by apply known_app in Hk as [_ ?].
    + rewrite handles_app in *. by rewrite Permutation_app_comm.
Qed.
End steps.

(** ** Pages *)
Lemma page_ok_evolve m m' a b p :
  memory_wf m → page_ok m p → evolve a b m m' →
  (∀ id, id ∈ handles_of (slices p) → id ∉ a ∧ id ∉ b) → page_ok m' p.
Proof.
  intros Hm [Hs ?????? ?] He Hd. split; try done.
  eapply slots_evolve; [done|done| |done]. intros s Hin. by apply Hd, handle_in.
Qed.

Section page_steps.
Context {St : Type}.
Implicit Types (w : World St) (p : MemoryPage).

Lemma page_known w p : page_inv w p → known (memory w) (slices p).
Proof.
  intros Hinv id (s & -> & Hs)%list_elem_of_fmap.
  by apply (placed_known _ _ _ _ (inv_memory _ _ Hinv) (page_inv_placed _ _ Hinv) Hs).
Qed.

Lemma coalesced_steps p w w' :
  page_inv w p →
  coalesced (page_storage p) (location_base p) 0 (page_blocks (memory w) p) w w' →
  steps (slices p) (fuse (page_storage p) (COUNTER (memory w)) (page_blocks (memory w) p)) w w'.
Proof.
  intros Hinv (He & Hc & _ & Hs & Hr & _). set (bs := page_blocks (memory w) p) in *.
  assert (slices p ≡ₚ dropped bs ++ kept bs) as Hperm.
  { unfold bs. rewrite <- slices_kept_dropped. by rewrite page_blocks_slices. }
  assert (∀ id, id ∈ handles_of (slices p) ↔ id ∈ handles_of (dropped bs) ∨ id ∈ handles_of (kept bs))
    as Hin.
  { intros id. unfold handles_of. rewrite Hperm, fmap_app, elem_of_app. done. }
  split.
  - eapply evolve_weaken, He; intros id _; rewrite Hin; tauto.
  - intros id Hid. destruct (fuse_handles _ _ _ _ Hid) as [?|Hle]; [rewrite Hin; tauto|].
    right. split; [done|]. apply list_elem_of_fmap in Hid as (s & -> & [i Hi]%list_elem_of_lookup).
    pose proof (ev_wf _ _ _ _ He (inv_memory _ _ Hinv)) as Hm'.
    by apply (slot_known _ _ _ _ Hm' (Hs i s Hi)).
  - intros o Hcov.
    assert (covered (failures w) (taints_of (dropped bs) ++ (o ++ taints_of (kept bs)))) as Hcov'.
    { eapply covered_perm, Hcov. unfold taints_of. rewrite Hperm, fmap_app.
      rewrite !app_assoc. by rewrite (Permutation_app_comm o). }
    pose proof (covered_released _ _ _ _ Hcov' Hr) as Hcov2.
    eapply covered_perm; [apply Permutation_app_comm|].
    apply covered_app_fuse. by eapply covered_perm; [apply Permutation_app_comm|].
Qed.

Lemma coalesced_keeps p w w' :
  page_inv w p →
  coalesced (page_storage p) (location_base p) 0 (page_blocks (memory w) p) w w' →
  keeps_live (memory w) (memory w') (slices p)
    (fuse (page_storage p) (COUNTER (memory w)) (page_blocks (memory w) p)).
Proof.
  intros Hinv Hco s Hs Hf. destruct (coalesced_flags _ _ _ _ _ Hinv Hco) as [Hk Hn].
  assert (s ∈ live_of (memory w) (slices p)) as Hlive by by apply list_elem_of_filter.
  pose proof (fuse_live _ _ (page_storage p) _ _ (blocks_ok _ _ _ (Forall_nil_2 _)) Hk Hn) as Heq.
  rewrite slices_of_blocks in Heq. cbn [app] in Heq. rewrite <- Heq in Hlive.
  by apply list_elem_of_filter in Hlive as [? ?].
Qed.

Lemma reserve_steps p size padding r p' w w' :
  page_inv w p → reserve_result size padding p (memory w) r p' (memory w') →
  evolve (handles_of (slices p)) (option_list r) (memory w) (memory w') →
  failures w' = failures w → page_inv w' p' →
  steps (slices p) (slices p') w w' ∧ keeps_live (memory w) (memory w') (slices p) (slices p').
Proof.
  intros Hinv Hres He Hf Hinv'. destruct r as [h|]; cbn in Hres.
  2: { destruct Hres as (-> & Hm & _). split; [|rewrite Hm; apply keeps_live_refl].
       split; [|by left|by rewrite Hf]. rewrite Hm. eapply evolve_weaken, evolve_refl; set_solver. }
  destruct Hres as (l1 & s & l2 & Hp & Hh & Hfit & _ & Hp' & _).
  assert (h ∈ handles_of (slices p)) as Hin.
  { rewrite Hp, handles_app, handles_cons. set_solver. }
  split; [split|].
  - eapply evolve_weaken, He; cbn; [tauto|]. intros id _ ->%list_elem_of_singleton. done.
  - intros id (t & -> & [i Hi]%list_elem_of_lookup)%list_elem_of_fmap.
    pose proof (slot_known _ _ _ _ (inv_memory _ _ Hinv')
      (page_slots _ _ (inv_page _ _ Hinv') i t Hi)) as Hkn.
    apply list_elem_of_lookup_2 in Hi. rewrite Hp', Hp in *. unfold carve in Hi.
    rewrite handles_app, handles_cons, elem_of_app, elem_of_cons.
    apply elem_of_app in Hi as [Hi|Hi]; [left; left; by apply handle_in|].
    apply elem_of_cons in Hi as [->|Hi]; [by left; right; left|].
    apply elem_of_app in Hi as [Hi|Hi].
    + destruct (_ <? _); [|by apply not_elem_of_nil in Hi].
      apply list_elem_of_singleton in Hi as ->. right. cbn in *. lia.
    + left; right; right. by apply handle_in.
  - intros o Hc. rewrite Hf, Hp'. rewrite Hp in Hc. by apply covered_carve.
  - intros t Ht Hfree. assert (t ≠ s) as Hne.
    { intros ->. unfold fits in Hfit. apply andb_prop in Hfit as [_ Hfit]. congruence. }
    split.
    + rewrite Hp in Ht. rewrite Hp'. clear -Ht Hne. set_solver.
    + rewrite <- Hfree. apply freed_counts, (ev_counts _ _ _ _ He).
      * by apply (page_known w p Hinv), handle_in.
      * cbn. intros Heq%list_elem_of_singleton. subst h.
        apply Hne. apply list_elem_of_lookup in Ht as [i Hi].
        assert (slices p !! length l1 = Some s) as Hl1 by (rewrite Hp; apply lookup_middle).
        pose proof (page_distinct _ _ (inv_page _ _ Hinv)) as Hnd.
        assert (i = length l1) as ->; [|congruence].
        eapply (NoDup_lookup _ _ _ (handle t) Hnd); unfold handles_of; rewrite list_lookup_fmap;
          [by rewrite Hi|by rewrite Hl1, Heq].
Qed.

(** The slice behind the handle [try_reserve] answered with. *)
Lemma reserve_result_live p size padding h p' m' w :
  page_inv w p → reserve_result size padding p (memory w) (Some h) p' m' →
  ∃ s, s ∈ slices p' ∧ handle s = h ∧ slice_size s = size ∧ padding = Slices.padding s ∧
       freed m' h = false.
Proof.
  intros Hinv (l1 & s & l2 & Hsp & Hh & Hfits & _ & Hsp' & Hcnt).
  exists (with_padding padding (shrunk size s)). split_and!; try done.
  - rewrite Hsp'. unfold carve. set_solver.
  - apply andb_prop in Hfits as [_ Hfree]. subst h.
    assert (slices p !! length l1 = Some s) as Hi by (rewrite Hsp; apply lookup_middle).
    destruct (page_slots _ _ (inv_page _ _ Hinv) _ _ Hi) as (d & Hd & _ & Hpos).
    assert (0 <= bindings d) by by apply (proj2 (inv_memory _ _ Hinv) _ _ Hd).
    unfold freed, counts in *. rewrite Hd in *.
    destruct (descriptors m' !! handle s) as [d'|]; [|done]. cbn in Hcnt.
    injection Hcnt as Hh Hb. unfold is_free in *. apply Z.leb_gt. lia.
Qed.

(** What a pool's search does on one page: coalesce, then reserve. *)
Definition page_reserve (page : MemoryPage) (size : Z) :
    M (World St) (option ManagedMemoryId * MemoryPage) :=
  page ← coalesce page; try_reserve page size.

Lemma wp_page_reserve p size w :
  page_inv w p → 0 <= size → size + alignment p <= u64_max →
  COUNTER (memory w) + Z.of_nat (length (slices p)) < u64_max →
  Z.of_nat (length (slices p)) < u32_max →
  wp (page_reserve p size) w (λ '(r, p') w', ∃ padding,
    calculate_padding size (alignment p) = Some padding ∧
    page_inv w' p' ∧ p' = with_slices (slices p') p ∧
    steps (slices p) (slices p') w w' ∧
    keeps_live (memory w) (memory w') (slices p) (slices p') ∧
    COUNTER (memory w') <= COUNTER (memory w) + Z.of_nat (length (slices p)) + 1 ∧
    same_storage w w' ∧
    match r with
    | Some h => ∃ s, s ∈ slices p' ∧ handle s = h ∧ slice_size s = size ∧ padding = Slices.padding s ∧
                     freed (memory w') h = false
    | None => Forall (λ s, fits (memory w') (size + padding) s = false) (slices p') ∧
              sparse (free_flags (memory w') (slices p'))
    end).
Proof.
  intros Hinv Hsize Hfit Hroom Hcount. unfold page_reserve. apply wp_bind.
  apply wp_coalesce_room; [done|lia|]. intros p1 w1 Hinv1 Hp1 Hs1 Hco.
  pose proof (coalesced_steps _ _ _ Hinv Hco) as Hst1. pose proof (coalesced_sparse _ _ _ _ _ Hinv Hs1 Hco) as Hsp.
  pose proof (coalesced_keeps _ _ _ Hinv Hco) as Hk1. rewrite <- Hs1 in Hst1, Hk1.
  pose proof (fuse_length (page_storage p) (COUNTER (memory w)) (page_blocks (memory w) p)) as Hlen.
  rewrite <- Hs1, page_blocks_slices in Hlen.
  pose proof (merges_length (page_blocks (memory w) p)) as Hmg. rewrite page_blocks_slices in Hmg.
  destruct Hco as (_ & Hc1 & _ & _ & _ & Hi1 & Hst).
  assert (alignment p1 = alignment p) as Hal by by rewrite Hp1.
  eapply wp_mono; [apply wp_try_reserve; [done|done|by rewrite Hal|lia|lia]|].
  intros [r p'] w' (padding & Hpad & Hinv' & Hp' & Hres & He & Hc' & Hw').
  rewrite Hal in Hpad. exists padding. split; [done|]. split; [done|].
  assert (failures w' = failures w1) as Hfw by by rewrite Hw'.
  destruct (reserve_steps _ _ _ _ _ _ _ Hinv1 Hres He Hfw Hinv') as [Hst2 Hk2].
  split; [rewrite Hp', Hp1 at 1; done|].
  split; [eapply steps_trans; [by apply page_known|done|done]|].
  split; [by eapply keeps_live_trans|]. split; [lia|].
  split; [by rewrite Hw'|]. destruct r as [h|].
  - destruct (reserve_result_live _ _ _ _ _ _ _ Hinv1 Hres) as (s & ? & ? & ? & ? & ?). by exists s.
  - destruct Hres as (-> & Hm' & Hno). by rewrite Hm'.
Qed.
End page_steps.

(** ** A fresh page *)
Section page_new.
Context {St : Type}.
Implicit Types (w : World St).

Lemma wp_page_new st align base mapping w :
  memory_wf (memory w) → COUNTER (memory w) < u64_max → covered (failures w) [] →
  location_ok base → init base = 1 → 0 < align →
  handle_offset st = 0 → 0 <= handle_size st <= u64_max →
  wp (page_new st align base mapping) w (λ p w',
    page_inv w' p ∧ steps [] (slices p) w w' ∧ COUNTER (memory w') = COUNTER (memory w) + 1 ∧
    same_storage w w' ∧ failures w' = failures w ∧
    p = mk_MemoryPage st [mk_Slice st (COUNTER (memory w)) 0 0 true taint_default] align base
          (bool_decide (mapping = Eager)) 1 ∧
    freed (memory w') (COUNTER (memory w)) = true).
Proof.
  intros Hm Hroom Hcov0 Hb Hi Ha Hoff Hsz. unfold page_new, slice_new.
  apply wp_bind, wp_bind, wp_on_memory. eapply wp_new_owner; [done|done|]. intros m1 He1 Hc1 Hd1.
  apply wp_ret, wp_bind, wp_on_memory. cbn [handle memory with_memory].
  pose proof (ev_wf _ _ _ _ He1 Hm) as Hm1.
  eapply wp_slot_update_location; [done|exact Hd1|cbn; lia|done|lia|]. intros m2 He2 Hc2 Hs2.
  apply wp_ret. pose proof (ev_wf _ _ _ _ He2 Hm1) as Hm2.
  set (s := mk_Slice st (COUNTER (memory w)) 0 0 true taint_default).
  pose proof (covered_default _ _ Hcov0) as Hcov.
  assert (page_inv (with_memory m2 w) (mk_MemoryPage st [s] align base (bool_decide (mapping = Eager)) 1))
    as Hinv.
  { split; [done| |done]. split; cbn; try done; try lia.
    - apply slots_cons. split; [exact Hs2|apply slots_nil].
    - apply NoDup_singleton.
    - unfold slice_offset, slice_size, page_size; cbn. rewrite Hoff.
      split_and!; try lia. by exists 0.
    - unfold page_size; cbn. lia.
    - repeat constructor. }
  split; [done|]. split; [split|split_and!; try done].
  - cbn. eapply evolve_weaken, evolve_trans; [| |exact He1|exact He2]; cbn; [|done].
    intros id Hid ->%list_elem_of_singleton. lia.
  - intros id ->%list_elem_of_singleton. right. cbn. lia.
  - intros o Hc. rewrite app_nil_r in Hc. cbn [slices taints_of fmap list_fmap].
    eapply covered_perm; [apply Permutation_app_comm|].
    by apply covered_default.
  - cbn. lia.
  - cbn. apply (fresh_is_free (memory w)); [|lia]. intros id Hid.
    assert (id = COUNTER (memory w)) as -> by lia.
    rewrite (ev_counts _ _ _ _ He2); [by unfold counts; rewrite Hd1|lia|apply not_elem_of_nil].
Qed.
End page_new.
