(* ===== verification/SlicedPool.v ===== *)
(** * Sliced pools

    [cubecl-server/src/memory_management/memory_pool/sliced_pool.rs]: a pool
    that carves slices out of pages of one size. *)

From S2P Require Export Steps.
From stdpp Require Import list.
#[local] Open Scope Z_scope.

(** [Cleanup] of [memory_manage.rs], and [SlicedLayout]. *)
Inductive Cleanup := Periodic | Explicit.
#[global] Instance Cleanup_eq_dec : EqDecision Cleanup.
Proof. solve_decision. Defined.
Record SlicedLayout := mk_SlicedLayout {
  layout_page_size : Z; layout_max_slice_size : Z; layout_alignment : Z; layout_pool : Z;
}.

Record SlicedPool := mk_SlicedPool {
  pages : list (MemoryPage * StorageId);
  sliced_page_size : Z;
  max_slice_size : Z;
  near_page_size : bool;
  sliced_alignment : Z;
  sliced_base : MemoryLocation;
  pages_peak : Z;
  largest_alloc : Z;
}.
Definition with_pages (l : list (MemoryPage * StorageId)) (p : SlicedPool) : SlicedPool :=
  mk_SlicedPool l (sliced_page_size p) (max_slice_size p) (near_page_size p) (sliced_alignment p)
    (sliced_base p) (pages_peak p) (largest_alloc p).
Definition with_marks (peak largest : Z) (p : SlicedPool) : SlicedPool :=
  mk_SlicedPool (pages p) (sliced_page_size p) (max_slice_size p) (near_page_size p)
    (sliced_alignment p) (sliced_base p) peak largest.

Definition sliced_new (layout : SlicedLayout) : SlicedPool :=
  mk_SlicedPool [] (layout_page_size layout)
    (Z.min (layout_max_slice_size layout) (layout_page_size layout)) true
    (layout_alignment layout) (location_new (layout_pool layout) 0 0) 0 0.
Definition up_to_max_slice (p : SlicedPool) : SlicedPool :=
  mk_SlicedPool (pages p) (sliced_page_size p) (max_slice_size p) false (sliced_alignment p)
    (sliced_base p) (pages_peak p) (largest_alloc p).

Definition pages_held (p : SlicedPool) : Z := Z.of_nat (length (pages p)).
Definition sliced_is_empty (p : SlicedPool) : bool := bool_decide (pages p = []).

(** [accept]; [diff * 5] can overflow. *)
Definition sliced_accept (p : SlicedPool) (size : Z) : option bool :=
  if size <=? max_slice_size p then Some true
  else if near_page_size p then
    match sub_u64 (sliced_page_size p) size with
    | Some diff => d ← mul_u64 diff 5; Some (d <? sliced_page_size p)
    | None => Some false
    end
  else Some false.

Section pool.
Context {St : Type} `{ComputeStorage St}.

Definition sliced_slice_at (p : SlicedPool) (location : MemoryLocation) : option Slice :=
  '(page, _) ← pages p !! Z.to_nat (Handle.page location);
  slice_at page (Z.to_nat (Handle.slice location)).
Definition storage_at (p : SlicedPool) (location : MemoryLocation) : option (option StorageHandle) :=
  '(page, _) ← pages p !! Z.to_nat (Handle.page location);
  if negb (is_mapped page) then Some None
  else s ← sliced_slice_at p location; Some (Some (slice_storage s)).

(** The search of [reserve_free] over the pages. *)
Fixpoint reserve_pages (l : list (MemoryPage * StorageId)) (size : Z) :
    M (World St) (option ManagedMemoryId * list (MemoryPage * StorageId)) :=
  match l with
  | [] => mret (None, [])
  | (page, id) :: l =>
      if is_guarded page then
        '(r, l) ← reserve_pages l size; mret (r, (page, id) :: l)
      else
        page ← coalesce page;
        '(r, page) ← try_reserve page size;
        match r with
        | Some handle => mret (Some handle, (page, id) :: l)
        | None => '(r, l) ← reserve_pages l size; mret (r, (page, id) :: l)
        end
  end.
Definition reserve_free (p : SlicedPool) (size : Z) :
    M (World St) (option ManagedMemoryId * SlicedPool) :=
  '(handle, l) ← reserve_pages (pages p) size;
  let p := with_pages l p in
  mret (handle, match handle with
                | Some _ => with_marks (pages_peak p) (Z.max (largest_alloc p) size) p
                | None => p
                end).

Definition alloc_page (p : SlicedPool) (size : Z) (mapping : PageMapping) :
    M (World St) (result ManagedMemoryId IoError * SlicedPool) :=
  let base := with_page (as_u16 (Z.of_nat (length (pages p)))) (sliced_base p) in
  r ← mapping_storage_handle mapping (sliced_page_size p);
  match r with
  | Err e => mret (Err e, p)
  | Ok handle =>
      page ← page_new handle (sliced_alignment p) base mapping;
      '(r, page) ← try_reserve page size;
      reserved ← lift r;   (* the [expect] *)
      let p := with_pages (pages p ++ [(page, page_storage_id page)]) p in
      mret (Ok reserved, with_marks (Z.max (pages_peak p) (Z.of_nat (length (pages p))))
                           (Z.max (largest_alloc p) size) p)
  end.

Definition map_page (p : SlicedPool) (index : nat) : M (World St) (result unit IoError * SlicedPool) :=
  '(page, _) ← lift (pages p !! index);
  if is_mapped page then mret (Ok tt, p)
  else
    let size := page_size page in
    r ← storage_alloc size;
    match r with
    | Err err => mret (Err (StorageMappingFailed size err), p)
    | Ok real =>
        mret (Ok tt, with_pages (<[index := (rebind_storage (storage_id real) page,
                                             storage_id real)]> (pages p)) p)
    end.
Definition mapped_storage_at (p : SlicedPool) (location : MemoryLocation) :
    M (World St) (result StorageHandle IoError * SlicedPool) :=
  '(r, p) ← map_page p (Z.to_nat (Handle.page location));
  match r with
  | Err e => mret (Err e, p)
  | Ok _ => s ← lift (sliced_slice_at p location); mret (Ok (slice_storage s), p)
  end.

(** A dropped page drops the handles its slices hold. *)
Fixpoint drop_slices (l : list Slice) : M (World St) unit :=
  match l with
  | [] => mret tt
  | s :: l => _ ← slice_drop s; drop_slices l
  end.
Fixpoint release_pages (l pages_tmp : list (MemoryPage * StorageId)) :
    M (World St) (list (MemoryPage * StorageId)) :=
  match l with
  | [] => mret pages_tmp
  | (page, id) :: l =>
      page ← coalesce page;
      empty ← is_empty page;
      if empty && negb (is_guarded page) then
        page ← shed page;
        _ ← (if is_mapped page then dealloc id else mret tt);
        _ ← drop_slices (slices page);
        release_pages l pages_tmp
      else
        page ← page_update_page (as_u16 (Z.of_nat (length pages_tmp))) page;
        release_pages l (pages_tmp ++ [(page, id)])
  end.
Definition release_empty (p : SlicedPool) : M (World St) SlicedPool :=
  l ← release_pages (pages p) []; mret (with_pages l p).

(** [impl MemoryPool for SlicedPool] *)
Definition sliced_find (p : SlicedPool) (binding : ManagedMemoryId) :
    M (World St) (result Slice IoError) :=
  location ← on_memory (location binding);
  match pages p !! Z.to_nat (Handle.page location) with
  | None => mret (Err (NotFound "Memory page doesn't exist"))
  | Some (page, _) => page_find page binding
  end.
Definition sliced_alloc (p : SlicedPool) (size : Z) (mapping : PageMapping) :
    M (World St) (result ManagedMemoryId IoError * SlicedPool) := alloc_page p size mapping.
(** [MemoryPool::reserve], the provided method. *)
Definition sliced_reserve (p : SlicedPool) (size : Z) (mapping : PageMapping) :
    M (World St) (result ManagedMemoryId IoError * SlicedPool) :=
  '(r, p) ← reserve_free p size;
  match r with
  | Some handle => mret (Ok handle, p)
  | None => sliced_alloc p size mapping
  end.
Definition sliced_materialize (p : SlicedPool) (binding : ManagedMemoryId) :
    M (World St) (result unit IoError * SlicedPool) :=
  location ← on_memory (location binding);
  let page_index := Z.to_nat (Handle.page location) in
  claimed ← (match pages p !! page_index with
             | None => mret false
             | Some (page, _) =>
                 r ← page_find page binding;
                 mret (match r with
                       | Ok s => bool_decide (handle s = binding)
                       | Err _ => false
                       end)
             end);
  if negb claimed then mret (Ok tt, p) else map_page p page_index.
Definition sliced_guard (p : SlicedPool) (location : MemoryLocation) : option SlicedPool :=
  let index := Z.to_nat (Handle.page location) in
  '(page, id) ← pages p !! index;
  Some (with_pages (<[index := (page_guard page, id)]> (pages p)) p).
Fixpoint usage_pages (l : list (MemoryPage * StorageId)) (usage : MemoryUsage) :
    M (World St) MemoryUsage :=
  match l with
  | [] => mret usage
  | (page, _) :: l =>
      u ← memory_usage page; usage ← lift (Usage.combine usage u); usage_pages l usage
  end.
Definition sliced_usage (p : SlicedPool) : M (World St) MemoryUsage :=
  usage_pages (pages p) usage_default.
Definition sliced_report (p : SlicedPool) : M (World St) MemoryPoolReport :=
  usage ← sliced_usage p;
  mret (mk_MemoryPoolReport (KindSliced (sliced_page_size p) (max_slice_size p)) usage
          (pages_held p) (pages_peak p)
          (Z.of_nat (length (filter (λ pg, is_mapped pg.1 = false) (pages p)))) (largest_alloc p)).
Definition sliced_cleanup (p : SlicedPool) (cleanup : Cleanup) : M (World St) SlicedPool :=
  if decide (cleanup = Explicit) then release_empty p else mret p.
Definition sliced_bind (p : SlicedPool) (reserved assigned : ManagedMemoryId) (cursor : Z) :
    M (World St) (result unit IoError * SlicedPool) :=
  location ← on_memory (location reserved);
  let index := Z.to_nat (Handle.page location) in
  '(page, id) ← lift (pages p !! index);
  '(r, page) ← page_bind page reserved assigned cursor;
  mret (r, with_pages (<[index := (page, id)]> (pages p)) p).
End pool.

(** ** Emptying and renumbering a page *)
Section release.
Context {St : Type}.
Implicit Types (w : World St).

Lemma wp_all_free base l w (Q : bool → World St → Prop) :
  placed (memory w) base l → Q (forallb (λ s, freed (memory w) (handle s)) l) w →
  wp (all_free l) w Q.
Proof.
  induction l as [|s l IH]; intros Hp HQ; cbn [all_free]; [by apply wp_ret|].
  apply placed_cons in Hp as [Hs Hp]. cbn in HQ. apply wp_bind, (wp_slice_is_free base); [done|].
  destruct (freed (memory w) (handle s)); [by apply IH|by apply wp_ret].
Qed.

Lemma wp_update_pages base n start l w :
  memory_wf (memory w) → location_ok base → 0 <= n <= u16_max →
  slots (memory w) base start l → NoDup (handles_of l) →
  Z.of_nat (start + length l) <= u32_max + 1 →
  wp (update_pages n l) w (λ _ w',
    evolve (handles_of l) [] (memory w) (memory w') ∧
    COUNTER (memory w') = COUNTER (memory w) ∧
    slots (memory w') (with_page n base) start l ∧ w' = with_memory (memory w') w).
Proof.
  intros Hm Hb Hn. revert start w Hm. induction l as [|s l IH]; intros start w Hm Hs Hnd Hlen;
    cbn [update_pages].
  { apply wp_ret. split_and!; try done. by destruct w. }
  apply slots_cons in Hs as [(d & Hd & Hl & Hh) Hs]. cbn in Hnd, Hlen.
  apply NoDup_cons in Hnd as [Hni Hnd].
  apply wp_bind, wp_on_memory. eapply wp_modify_location; [done|]. rewrite Hl.
  set (m1 := with_descriptors _ _).
  assert (evolve [handle s] [] (memory w) m1) as He1 by by eapply store_move.
  assert (slot m1 (with_page n base) (Z.of_nat start) (handle s)) as Hs1.
  { eexists. cbn. rewrite lookup_insert_eq. split; [done|]. split; [|done].
    change (with_page n (with_slice (Z.of_nat start) base))
      with (with_slice (Z.of_nat start) (with_page n base)).
    unfold loc_of; cbn. rewrite from_bits_to_bits; [done|].
    apply with_slice_ok; [by apply with_page_ok|lia]. }
  pose proof (ev_wf _ _ _ _ He1 Hm) as Hm1.
  eapply wp_mono; [apply (IH (S start)); [done| |done|lia]|].
  { cbn. eapply (slots_evolve (memory w)); [done|exact He1| |done]. intros t Ht.
    split; [|apply not_elem_of_nil]. intros Heq%list_elem_of_singleton. apply Hni.
    rewrite <- Heq. by apply handle_in. }
  intros [] w' (He & Hc & Hs' & Hw'). split_and!; [| |apply slots_cons; split; [|done]|by rewrite Hw'].
  - exact (evolve_trans _ _ _ _ _ _ _ He1 He).
  - by rewrite Hc.
  - eapply slot_evolve; [exact Hm1|exact He|done|done|apply not_elem_of_nil].
Qed.

Definition renumber_page (n : Z) (p : MemoryPage) : MemoryPage :=
  mk_MemoryPage (page_storage p) (slices p) (alignment p) (with_page n (location_base p))
    (page_mapped p) (guards p).

Lemma wp_page_update_page n p w :
  page_inv w p → 0 <= n <= u16_max →
  wp (page_update_page n p) w (λ p' w',
    p' = renumber_page n p ∧ page_inv w' p' ∧ steps (slices p) (slices p') w w' ∧
    keeps_live (memory w) (memory w') (slices p) (slices p') ∧
    COUNTER (memory w') = COUNTER (memory w) ∧ same_storage w w').
Proof.
  intros Hinv Hn. pose proof Hinv as [Hm [Hs Hnd Hlaid Hal Hf Hids [Hb Hi] Hlen] Ht].
  unfold page_update_page. apply wp_bind.
  eapply wp_mono; [apply (wp_update_pages (location_base p) n 0); try done; cbn; lia|].
  intros [] w' (He & Hc & Hs' & Hw'). apply wp_ret.
  assert (failures w' = failures w) as Hg by by rewrite Hw'.
  split_and!; try done.
  - split; [by apply (ev_wf _ _ _ _ He)| |by rewrite Hg].
    split; try done. split; [by apply with_page_ok|done].
  - split; [|by left|by rewrite Hg]. eapply evolve_weaken, He; cbn; [tauto|set_solver].
  - intros s Hin Hfree. split; [done|]. rewrite <- Hfree.
    apply freed_counts, (ev_counts _ _ _ _ He); [|apply not_elem_of_nil].
    apply (page_known w p Hinv). by apply handle_in.
  - by rewrite Hw'.
Qed.

(** [shed], then dropping the slices: the page is gone from the memory. *)
Lemma wp_shed_slices o l w :
  covered (failures w) (taints_of l ++ o) →
  wp (shed_slices l) w (λ l' w',
    handles_of l' = handles_of l ∧ memory w' = memory w ∧ covered (failures w') o ∧
    released (failures w) (failures w') (taints_of l) ∧ same_storage w w').
Proof.
  revert w. induction l as [|s l IH]; intros w Hc; cbn [shed_slices].
  { apply wp_ret. split_and!; try done. apply released_nil. }
  apply wp_bind, wp_on_failures. apply (wp_clear_released _ (taints_of l ++ o)); [done|].
  intros g' Hr Hc'. apply wp_fmap. eapply wp_mono; [by apply IH|].
  intros l' w' (Hh & Hm & Hc2 & Hr2 & Hs). split_and!; try done.
  - by rewrite !handles_cons, Hh.
  - eapply (released_app _ _ _ [tainted s]); [|exact Hr|exact Hr2].
    by apply (covered_app_l _ (taints_of (s :: l)) o).
Qed.

Lemma wp_drop_slices l w :
  memory_wf (memory w) → NoDup (handles_of l) → (∀ s, s ∈ l → owned (memory w) (handle s)) →
  wp (drop_slices l) w (λ _ w',
    evolve [] (handles_of l) (memory w) (memory w') ∧ COUNTER (memory w') = COUNTER (memory w) ∧
    w' = with_memory (memory w') w).
Proof.
  revert w. induction l as [|s l IH]; intros w Hm Hnd Ho; cbn [drop_slices].
  { apply wp_ret. split_and!; try done. by destruct w. }
  cbn in Hnd. apply NoDup_cons in Hnd as [Hni Hnd].
  destruct (Ho s) as (d & Hd & Hh); [by left|].
  apply wp_bind. unfold slice_drop. apply wp_on_memory. eapply wp_drop_owner; [done|done|done|].
  intros m1 He1 Hc1. pose proof (ev_wf _ _ _ _ He1 Hm) as Hm1.
  eapply wp_mono; [apply IH; [done|done|]|].
  { intros t Ht. eapply owned_evolve; [exact Hm|exact He1|apply not_elem_of_nil| |apply Ho; by right].
    intros Heq%list_elem_of_singleton. apply Hni. rewrite <- Heq. by apply handle_in. }
  intros [] w' (He & Hc & Hw'). cbn in *. split_and!; [|lia|by rewrite Hw'].
  exact (evolve_trans _ _ _ _ _ _ _ He1 He).
Qed.
End release.

(** ** The invariant of a list of pages *)
Abbreviation PageEntry := (MemoryPage * StorageId)%type (only parsing).

Definition pages_slices (l : list PageEntry) : list Slice := flat_map (λ pg, slices pg.1) l.

Record pages_inv {St} (w : World St) (l : list PageEntry) : Prop := mk_pages_inv {
  pages_memory : memory_wf (memory w);
  pages_ok : Forall (λ pg, page_ok (memory w) pg.1) l;
  pages_distinct : NoDup (handles_of (pages_slices l));
  pages_taints : covered (failures w) (taints_of (pages_slices l));
}.

Lemma pages_slices_app l1 l2 : pages_slices (l1 ++ l2) = pages_slices l1 ++ pages_slices l2.
Proof. apply flat_map_app. Qed.
Lemma pages_slices_cons pg l : pages_slices (pg :: l) = slices pg.1 ++ pages_slices l.
Proof. done. Qed.

Section pages_inv.
Context {St : Type}.
Implicit Types (w : World St) (l : list PageEntry) (pg : PageEntry).


Lemma page_ok_known w p : memory_wf (memory w) → page_ok (memory w) p → known (memory w) (slices p).
Proof.
  intros Hm Hok id (s & -> & [i Hi]%list_elem_of_lookup)%list_elem_of_fmap.
  by apply (slot_known _ _ _ _ Hm (page_slots _ _ Hok i s Hi)).
Qed.
Lemma pages_known w l : pages_inv w l → known (memory w) (pages_slices l).
Proof.
  intros [Hm Hok _ _]. induction Hok as [|pg l Hpg _ IH]; [by intros id ?%not_elem_of_nil|].
  rewrite pages_slices_cons. apply known_app. split; [by apply page_ok_known|done].
Qed.

Lemma pages_inv_head w pg l : pages_inv w (pg :: l) → page_inv w pg.1.
Proof.
  intros [Hm [Hok _]%Forall_cons Hnd Ht]. rewrite pages_slices_cons, taints_app in Ht.
  split; [done|done|by eapply covered_app_l].
Qed.

(** An operation on the first page keeps the invariant of the others. *)
Lemma pages_inv_tail w w1 pg (l' : list Slice) l :
  pages_inv w (pg :: l) → steps (slices pg.1) l' w w1 → pages_inv w1 l.
Proof.
  intros [Hm [_ Hok]%Forall_cons Hnd Ht] [He Hh Hst].
  rewrite pages_slices_cons, handles_app in Hnd. rewrite pages_slices_cons, taints_app in Ht.
  apply NoDup_app in Hnd as (_ & Hdis & Hnd). split; [by apply (ev_wf _ _ _ _ He)| |done|].
  - apply Forall_forall. intros pg' Hin. eapply page_ok_evolve; [done| |done|].
    + by apply (proj1 (Forall_forall _ _) Hok).
    + intros id Hid. assert (id ∈ handles_of (pages_slices l)) as Hidl.
      { apply list_elem_of_fmap in Hid as (s & -> & Hs). apply handle_in.
        unfold pages_slices. apply list_elem_of_In, in_flat_map. exists pg'.
        by rewrite <- !list_elem_of_In. }
      split; intros ?; by eapply Hdis.
  - eapply (covered_app_l _ _ (taints_of l')), Hst. by eapply covered_perm; [apply Permutation_app_comm|].
Qed.

(** The first page, then the others. *)
Lemma pages_inv_cons w w1 w2 pg p' id' l l' :
  pages_inv w (pg :: l) → steps (slices pg.1) (slices p') w w1 → page_inv w1 p' →
  steps (pages_slices l) (pages_slices l') w1 w2 → pages_inv w2 l' →
  pages_inv w2 ((p', id') :: l') ∧ steps (pages_slices (pg :: l)) (pages_slices ((p', id') :: l')) w w2.
Proof.
  intros Hinv Hst1 Hp' Hst2 Hl'. pose proof (pages_known _ _ Hinv) as Hk.
  pose proof Hinv as [Hm _ Hnd Ht]. rewrite pages_slices_cons in Hk, Hnd, Ht.
  assert (steps (pages_slices (pg :: l)) (pages_slices ((p', id') :: l')) w w2) as Hst.
  { rewrite !pages_slices_cons. by eapply steps_app. }
  assert (NoDup (handles_of (slices p' ++ pages_slices l'))) as Hnd'.
  { eapply steps_distinct; [exact Hk|exact Hnd| |apply (pages_distinct _ _ Hl')|exact Hst1|exact Hst2].
    apply (page_distinct _ _ (inv_page _ _ Hp')). }
  split; [split|done].
  - apply (pages_memory _ _ Hl').
  - constructor; [|apply (pages_ok _ _ Hl')]. cbn [fst].
    eapply page_ok_evolve; [apply (inv_memory _ _ Hp')|apply (inv_page _ _ Hp')|
      apply (steps_evolve _ _ _ _ Hst2)|].
    intros id Hid. assert (id ∉ handles_of (pages_slices l)); [|done]. intros Hin.
    apply (steps_handles _ _ _ _ Hst1) in Hid as [Hid|Hid].
    + rewrite handles_app in Hnd. apply NoDup_app in Hnd as (_ & Hdis & _). by apply (Hdis id).
    + apply known_app in Hk as [_ Hk]. apply Hk in Hin. lia.
  - done.
  - apply (steps_taints _ _ _ _ Hst []). done.
Qed.
End pages_inv.

(** ** Reserving in the pages held *)

(** A page and what an operation on it left: the carving may change, the rest
    does not; a guarded page is left as it is. *)
Definition same_page (pg pg' : PageEntry) : Prop :=
  pg'.2 = pg.2 ∧ pg'.1 = with_slices (slices pg'.1) pg.1 ∧ (is_guarded pg.1 = true → pg' = pg).

Lemma same_page_refl pg : same_page pg pg.
Proof. by destruct pg as [[] ?]. Qed.

(** The slice a reservation of [size] bytes answered with. *)
Definition reserved_slice (m : Memory) (size h : Z) (s : Slice) : Prop :=
  handle s = h ∧ slice_size s = size ∧ freed m h = false.

(** The handles a search may take: one for each run merged, one for a split. *)
Definition search_room (l : list PageEntry) : Z :=
  sum_Z ((λ pg, Z.of_nat (length (slices pg.1)) + 1) <$> l).

Section reserve.
Context {St : Type}.
Context (size align : Z) (Hsize : 0 <= size) (Hfit : size + align <= u64_max).
Implicit Types (w : World St) (l : list PageEntry).

Definition search_ok (w : World St) (l : list PageEntry) : Prop :=
  Forall (λ pg, alignment pg.1 = align ∧ Z.of_nat (length (slices pg.1)) < u32_max) l ∧
  COUNTER (memory w) + search_room l <= u64_max.

(** What the search answers, in terms of the pages it leaves. *)
Definition search_result (m : Memory) (r : option ManagedMemoryId) (l : list PageEntry) : Prop :=
  match r with
  | Some h => ∃ pg s, pg ∈ l ∧ is_guarded pg.1 = false ∧ s ∈ slices pg.1 ∧ reserved_slice m size h s
  | None => ∃ padding, calculate_padding size align = Some padding ∧
      Forall (λ pg, is_guarded pg.1 = false →
        Forall (λ s, fits m (size + padding) s = false) (slices pg.1) ∧ sparse (free_flags m (slices pg.1))) l
  end.

Definition searched (l l' : list PageEntry) (w w' : World St) : Prop :=
  pages_inv w' l' ∧ Forall2 same_page l l' ∧
  steps (pages_slices l) (pages_slices l') w w' ∧
  keeps_live (memory w) (memory w') (pages_slices l) (pages_slices l') ∧
  COUNTER (memory w') <= COUNTER (memory w) + search_room l ∧
  same_storage w w'.

Lemma search_room_nonneg l : 0 <= search_room l.
Proof. apply sum_Z_nonneg, Forall_fmap, Forall_true. intros pg; cbn. lia. Qed.
Lemma search_room_cons pg l :
  search_room (pg :: l) = Z.of_nat (length (slices pg.1)) + 1 + search_room l.
Proof. done. Qed.

Lemma searched_refl l w : pages_inv w l → searched l l w w.
Proof.
  intros Hinv. unfold searched. pose proof (search_room_nonneg l).
  split_and!; try done; [|apply steps_refl|lia].
  apply Forall_Forall2_diag, Forall_true. apply same_page_refl.
Qed.

(** A page the search is done with, then what it did on the others. *)
Lemma searched_cons pg p' l l' w w1 w' :
  pages_inv w (pg :: l) → page_inv w1 p' →
  steps (slices pg.1) (slices p') w w1 → keeps_live (memory w) (memory w1) (slices pg.1) (slices p') →
  same_page pg (p', pg.2) → same_storage w w1 →
  COUNTER (memory w1) <= COUNTER (memory w) + Z.of_nat (length (slices pg.1)) + 1 →
  searched l l' w1 w' →
  searched (pg :: l) ((p', pg.2) :: l') w w' ∧
  ∀ s, s ∈ slices p' → freed (memory w') (handle s) = freed (memory w1) (handle s).
Proof.
  intros Hinv Hp' Hst1 Hk1 Hsame Hss1 Hc1 (Hinv' & Hall & Hst2 & Hk2 & Hc2 & Hss2).
  destruct (pages_inv_cons w w1 w' pg p' pg.2 l l' Hinv Hst1 Hp' Hst2 Hinv') as [Hinv'' Hst].
  pose proof (pages_known _ _ Hinv) as Hk. pose proof (pages_distinct _ _ Hinv) as Hnd.
  rewrite pages_slices_cons in Hk, Hnd.
  destruct (keeps_live_app _ _ _ _ w w1 w' Hk Hnd (page_known _ _ Hp')
    (page_distinct _ _ (inv_page _ _ Hp')) Hst1 Hst2 Hk1 Hk2) as [Hlater Hlive].
  split; [|done]. unfold searched. rewrite search_room_cons. split_and!; try done.
  - by constructor.
  - lia.
  - destruct Hss1, Hss2. split; congruence.
Qed.

(** The answer of the others, given that the first page has none. *)
Lemma search_result_cons m m1 r pg l :
  (∀ s, s ∈ slices pg.1 → freed m (handle s) = freed m1 (handle s)) →
  (is_guarded pg.1 = false → ∀ padding, calculate_padding size align = Some padding →
     Forall (λ s, fits m1 (size + padding) s = false) (slices pg.1) ∧ sparse (free_flags m1 (slices pg.1))) →
  search_result m r l → search_result m r (pg :: l).
Proof.
  intros Hsame Hno Hres. destruct r as [h|].
  - destruct Hres as (pg' & s & Hin & ?). exists pg', s. split; [by right|done].
  - destruct Hres as (padding & Hpad & Hl). exists padding. split; [done|]. constructor; [|done].
    intros Hg. destruct (Hno Hg padding Hpad) as [Hf Hsp]. split.
    + apply Forall_forall. intros s Hin. pose proof (proj1 (Forall_forall _ _) Hf s Hin) as Hfs. cbn in Hfs.
      unfold fits in *. by rewrite Hsame.
    + assert (free_flags m (slices pg.1) = free_flags m1 (slices pg.1)) as ->; [|done].
      apply list_fmap_ext. intros i s Hs. apply list_elem_of_lookup_2 in Hs. by apply Hsame.
Qed.

Lemma wp_reserve_pages l w :
  0 < align → pages_inv w l → search_ok w l →
  wp (reserve_pages l size) w (λ '(r, l') w', searched l l' w w' ∧ search_result (memory w') r l').
Proof.
  intros Hpos. revert w. induction l as [|[p id] l IH]; intros w Hinv Hok; cbn [reserve_pages].
  { apply wp_ret. split; [by apply searched_refl|].
    destruct (calculate_padding_spec size align Hpos) as (padding & Hpad & _). by exists padding. }
  destruct Hok as [[[Hal Hlen] Hok]%Forall_cons Hroom]. cbn [fst] in *.
  rewrite search_room_cons in Hroom; cbn [fst] in Hroom. pose proof (search_room_nonneg l) as Hr0.
  pose proof (pages_inv_head _ _ _ Hinv) as Hp. cbn [fst] in Hp.
  assert (same_page (p, id) (p, id)) as Hself by apply same_page_refl.
  destruct (is_guarded p) eqn:Hg.
  - assert (pages_inv w l) as Hl by (eapply pages_inv_tail, steps_refl; done).
    apply wp_bind. eapply wp_mono; [apply IH; [done|split; [done|lia]]|].
    intros [r l'] w' [Hs Hr]. apply wp_ret.
    destruct (searched_cons (p, id) p l l' w w w') as [Hs' Hlater]; cbn [fst snd]; try done;
      try apply steps_refl; try lia.
    split; [done|]. eapply (search_result_cons _ _ _ (p, id)); cbn [fst]; [done|congruence|done].
  - pose proof (wp_page_reserve p size w Hp Hsize) as Hpr. rewrite Hal in Hpr.
    specialize (Hpr Hfit ltac:(lia) Hlen). unfold page_reserve in Hpr.
    apply wp_bind_inv in Hpr. apply wp_bind.
    eapply wp_mono; [exact Hpr|]. cbn beta. intros p1 w1 Hpr1. apply wp_bind.
    eapply wp_mono; [exact Hpr1|]. clear p1 w1 Hpr Hpr1.
    intros [r p'] w1 (padding & Hpad & Hp' & Hshape & Hst & Hk & Hc & Hss & Hres).
    assert (same_page (p, id) (p', id)) as Hsame.
    { split_and!; [done|done|]. cbn. congruence. }
    assert (pages_inv w1 l) as Hl1 by (by eapply (pages_inv_tail _ _ (p, id))).
    destruct r as [h|].
    + apply wp_ret. destruct Hres as (s & Hin & Hh & Hsz & _ & Hfree).
      destruct (searched_cons (p, id) p' l l w w1 w1) as [Hs' _]; cbn [fst snd]; try done;
        [by apply searched_refl|].
      split; [done|]. exists (p', id), s. split; [by left|]. split; [|done].
      cbn. by rewrite Hshape.
    + apply wp_bind. eapply wp_mono; [apply IH; [done|split; [done|lia]]|].
      intros [r l'] w' [Hs Hr]. apply wp_ret.
      destruct (searched_cons (p, id) p' l l' w w1 w') as [Hs' Hlater]; cbn [fst snd]; try done.
      split; [done|]. eapply (search_result_cons _ _ _ (p', id)); cbn [fst]; [done| |done].
      intros _ padding' Hpad'. assert (padding' = padding) as -> by congruence. done.
Qed.
End reserve.

(** ** The invariant of a sliced pool *)
Record page_of (p : SlicedPool) (i : nat) (pg : PageEntry) : Prop := mk_page_of {
  of_base : location_base pg.1 = with_page (Z.of_nat i) (sliced_base p);
  of_id : pg.2 = page_storage_id pg.1;
  of_alignment : alignment pg.1 = sliced_alignment p;
  of_size : page_size pg.1 = sliced_page_size p;
}.
Record layout_ok (p : SlicedPool) : Prop := mk_layout_ok {
  layout_base : location_ok (sliced_base p) ∧ init (sliced_base p) = 1;
  layout_aligned : 0 < sliced_alignment p ∧ (sliced_alignment p | sliced_page_size p);
  layout_sizes : 0 <= sliced_page_size p ∧ sliced_page_size p * 5 + sliced_alignment p <= u64_max;
  layout_slices : max_slice_size p <= sliced_page_size p;
}.
Record sliced_inv {St} (w : World St) (p : SlicedPool) : Prop := mk_sliced_inv {
  sliced_pages : pages_inv w (pages p);
  sliced_at i pg : pages p !! i = Some pg → page_of p i pg;
  sliced_count : Z.of_nat (length (pages p)) <= u16_max + 1;
  sliced_layout : layout_ok p;
}.

Section sliced.
Context {St : Type} `{ComputeStorageLaws St}.
Implicit Types (w : World St) (p : SlicedPool).

Lemma sliced_new_inv w layout :
  memory_wf (memory w) → covered (failures w) [] → layout_ok (sliced_new layout) →
  sliced_inv w (sliced_new layout).
Proof.
  intros Hm Hc Hl. split; [|done|cbn; lia|done]. split; [done|constructor|constructor|done].
Qed.

Lemma same_page_of p p' i pg pg' :
  sliced_base p' = sliced_base p → sliced_alignment p' = sliced_alignment p →
  sliced_page_size p' = sliced_page_size p →
  same_page pg pg' → page_of p i pg → page_of p' i pg'.
Proof.
  intros Hb Ha Hs (Hid & Hp & _) [H1 H2 H3 H4].
  split; rewrite Hp; unfold page_size, page_storage_id in *;
    cbn [location_base with_slices alignment page_storage]; congruence.
Qed.

(** The page and the slice a handle's location leads to. *)
Lemma sliced_lookup w p i pg s :
  sliced_inv w p → pages p !! i = Some pg → s ∈ slices pg.1 →
  ∃ k, slices pg.1 !! k = Some s ∧ Z.of_nat i <= u16_max ∧
       slot (memory w) (with_page (Z.of_nat i) (sliced_base p)) (Z.of_nat k) (handle s).
Proof.
  intros [[_ Hok _ _] Hat Hcount Hlay] Hi [k Hk]%list_elem_of_lookup. exists k. split; [done|].
  split; [apply lookup_lt_Some in Hi; lia|].
  rewrite <- (of_base _ _ _ (Hat i pg Hi)). apply (page_slots _ _ (proj1 (Forall_lookup _ _) Hok i pg Hi) k s Hk).
Qed.

Lemma wp_sliced_find w p i pg s :
  sliced_inv w p → pages p !! i = Some pg → s ∈ slices pg.1 →
  wp (sliced_find p (handle s)) w (λ r w', r = Ok s ∧ w' = w).
Proof.
  intros Hinv Hi Hs. destruct (sliced_lookup _ _ _ _ _ Hinv Hi Hs) as (k & Hk & Hb & (d & Hd & Hl & _)).
  unfold sliced_find. apply wp_bind, wp_on_memory. eapply wp_location; [done|]. rewrite Hl.
  cbn. rewrite Nat2Z.id, Hi. destruct pg as [page id]. cbn [fst] in *. unfold page_find.
  apply wp_bind, wp_on_memory. eapply wp_location; [done|]. rewrite Hl. cbn.
  rewrite Nat2Z.id, Hk. apply wp_ret. split; [done|]. by destruct w.
Qed.

Lemma sliced_searched w w' p p' size l' :
  sliced_inv w p → searched (pages p) l' w w' →
  pages p' = l' → sliced_base p' = sliced_base p → sliced_alignment p' = sliced_alignment p →
  sliced_page_size p' = sliced_page_size p → max_slice_size p' = max_slice_size p →
  0 <= size → sliced_inv w' p'.
Proof.
  intros [Hpg Hat Hcount [Hb Ha Hs Hm]] (Hinv' & Hall & _) Hp' H1 H2 H3 H4 _.
  split; [by rewrite Hp'| | |].
  - intros i pg' Hi. rewrite Hp' in Hi.
    destruct (Forall2_lookup_r _ _ _ _ _ Hall Hi) as (pg & Hi' & Hsame).
    eapply same_page_of; [done|done|done|exact Hsame|by apply Hat].
  - rewrite Hp', <- (Forall2_length _ _ _ Hall). done.
  - split; by rewrite ?H1, ?H2, ?H3, ?H4.
Qed.

(** C1: reserving in the pages a pool holds.  The pool keeps its invariant;
    guarded pages are not touched and no live slice is moved, changed or
    lost; an answer is the handle of a slice of exactly the size asked, live
    from now on, which [find] leads to; and [None] means that every unguarded
    page is left without two free neighbours and without a free slice large
    enough.  The pages are aligned as the pool is, have fewer than 2^32 - 1
    slices, and the counter of handles has room ([search_ok]). *)
Theorem reserve_free_correct w p size :
  sliced_inv w p → 0 <= size → size + sliced_alignment p <= u64_max →
  search_ok (sliced_alignment p) w (pages p) →
  wp (reserve_free p size) w (λ '(r, p') w',
    sliced_inv w' p' ∧
    Forall2 same_page (pages p) (pages p') ∧
    keeps_live (memory w) (memory w') (pages_slices (pages p)) (pages_slices (pages p')) ∧
    search_result size (sliced_alignment p) (memory w') r (pages p') ∧
    (∀ h, r = Some h → wp (sliced_find p' h) w' (λ f w'',
       ∃ s, f = Ok s ∧ reserved_slice (memory w') size h s ∧ w'' = w'))).
Proof.
  intros Hinv Hsize Hfit Hok. unfold reserve_free. apply wp_bind.
  eapply wp_mono; [apply (wp_reserve_pages size (sliced_alignment p)); try done|].
  - by destruct (layout_aligned _ (sliced_layout _ _ Hinv)).
  - apply (sliced_pages _ _ Hinv).
  - intros [r l'] w' [Hs Hr]. apply wp_ret.
    set (p' := match r with Some _ => _ | None => _ end).
    assert (pages p' = l') as Hp' by (unfold p'; by destruct r).
    assert (sliced_inv w' p') as Hinv'.
    { eapply (sliced_searched w w' p p'); try done; unfold p'; by destruct r. }
    pose proof Hs as (_ & Hall & _ & Hk & _). rewrite Hp'. split_and!; try done.
    intros h ->. cbn in Hr. destruct Hr as (pg & s & Hpg & _ & Hin & Hsl).
    apply list_elem_of_lookup in Hpg as [i Hi]. rewrite <- Hp' in Hi.
    pose proof Hsl as (<- & _).
    eapply wp_mono; [eapply (wp_sliced_find _ p' i pg s); done|].
    intros f w'' [-> ->]. by exists s.
Qed.

(** ** A new page *)
Lemma pages_inv_snoc w w' (l : list PageEntry) pg :
  pages_inv w l → steps [] (slices pg.1) w w' → page_inv w' pg.1 → pages_inv w' (l ++ [pg]).
Proof.
  intros Hinv [He Hh Ht] Hp. pose proof (pages_known _ _ Hinv) as Hk.
  destruct Hinv as [Hm Hok Hnd Hc]. split.
  - apply (inv_memory _ _ Hp).
  - apply Forall_app. split; [|by constructor; [apply (inv_page _ _ Hp)|]].
    eapply Forall_impl; [exact Hok|]. intros pg' Hpg'.
    eapply page_ok_evolve; [done|done|exact He|]. intros id _. split; apply not_elem_of_nil.
  - rewrite pages_slices_app, handles_app. apply NoDup_app. split_and!; [done| |].
    + intros id Hin Hin'. cbn in Hin'. rewrite app_nil_r in Hin'.
      apply Hk in Hin. destruct (Hh id Hin') as [?%not_elem_of_nil|?]; [done|lia].
    + cbn. rewrite app_nil_r. apply (page_distinct _ _ (inv_page _ _ Hp)).
  - rewrite pages_slices_app, taints_app. cbn. rewrite app_nil_r.
    apply (Ht (taints_of (pages_slices l))). cbn. by rewrite app_nil_r.
Qed.

Lemma pages_inv_same w w' (l : list PageEntry) :
  memory w' = memory w → failures w' = failures w → pages_inv w l → pages_inv w' l.
Proof. intros Hm Hf [? ? ? ?]. by split; rewrite ?Hm, ?Hf. Qed.

(** An accepted size fits a page once padded. *)
Lemma accept_fits p size padding :
  layout_ok p → sliced_accept p size = Some true → 0 <= size →
  calculate_padding size (sliced_alignment p) = Some padding →
  size <= sliced_page_size p ∧ size + padding <= sliced_page_size p.
Proof.
  intros [_ [Ha [q Hq]] [Hs Hs5] Hm] Hacc Hsize Hpad.
  assert (size <= sliced_page_size p) as Hle.
  { unfold sliced_accept in Hacc. destruct (Z.leb_spec size (max_slice_size p)); [lia|].
    destruct (near_page_size p); [|done]. unfold sub_u64 in Hacc.
    destruct (decide (size <= sliced_page_size p)); [done|done]. }
  split; [done|].
  destruct (calculate_padding_spec size (sliced_alignment p) Ha) as (padding' & Hpad' & Hb & [k Hk]).
  assert (padding' = padding) as -> by congruence.
  assert (k < q + 1) by nia. nia.
Qed.

Definition mapping_room (mapping : PageMapping) (size : Z) w : Prop :=
  match mapping with Eager => can_alloc size w | Lazy => storage_ids w < u64_max end.

Lemma wp_mapping_storage_handle mapping size w :
  storage_ok w → mapping_room mapping size w →
  wp (mapping_storage_handle mapping size) w (λ r w',
    storage_ok w' ∧ memory w' = memory w ∧ failures w' = failures w ∧
    match r with
    | Ok h => utilization h = mk_StorageUtilization 0 size ∧
              held (storage w') = match mapping with
                                  | Eager => <[storage_id h := size]> (held (storage w))
                                  | Lazy => held (storage w)
                                  end ∧
              held (storage w) !! storage_id h = None
    | Err _ => held (storage w') = held (storage w) ∧ mapping = Eager
    end).
Proof.
  intros Hok Hroom. pose proof (storage_ok_bound _ Hok) as Hb.
  assert (∀ id, storage_ids w <= id → held (storage w) !! id = None) as Hfresh.
  { intros id Hid. destruct (held (storage w) !! id) as [n|] eqn:Hn; [|done].
    apply (storage_ok_ids _ _ _ Hok) in Hn. lia. }
  destruct mapping; cbn [mapping_storage_handle mapping_room] in *.
  - eapply wp_mono; [by apply storage_alloc_ok|]. intros r w' (Hok' & Hm & Hf & Hids & Hr).
    split_and!; try done. destruct r as [h|e]; [|done].
    destruct Hr as (Hu & Hid & Hh). split_and!; try done. apply Hfresh. lia.
  - apply wp_bind, wp_storage_id_new; [lia|]. apply wp_ret.
    split_and!; try done; [|apply Hfresh; cbn; lia].
    eapply storage_ok_other; [done|done|cbn; lia].
Qed.

(** Allocating a page.  For a size the pool accepts, the page is large
    enough, so that the [expect] never fires: either the storage refuses and
    the pool is as it was, or the pool has one more page at the end, every
    other page untouched, the answer is the handle of a live slice of
    exactly the size asked that [find] leads to, and the storage holds one
    more allocation of the page size, under the id of the page, when the
    mapping is eager, and nothing more when it is lazy. *)
Theorem alloc_page_correct w p size mapping :
  sliced_inv w p → storage_ok w → mapping_room mapping (sliced_page_size p) w →
  sliced_accept p size = Some true → 0 <= size →
  COUNTER (memory w) + 2 <= u64_max → Z.of_nat (length (pages p)) <= u16_max →
  wp (alloc_page p size mapping) w (λ '(r, p') w',
    sliced_inv w' p' ∧ storage_ok w' ∧
    match r with
    | Err e => p' = p ∧ memory w' = memory w ∧ held (storage w') = held (storage w)
    | Ok h => ∃ pg, pages p' = pages p ++ [pg] ∧ page_mapped pg.1 = bool_decide (mapping = Eager) ∧
        held (storage w) !! pg.2 = None ∧
        held (storage w') = match mapping with
                            | Eager => <[pg.2 := sliced_page_size p]> (held (storage w))
                            | Lazy => held (storage w)
                            end ∧
        keeps_live (memory w) (memory w') (pages_slices (pages p)) (pages_slices (pages p)) ∧
        wp (sliced_find p' h) w' (λ f w'', ∃ s, f = Ok s ∧ reserved_slice (memory w') size h s)
    end).
Proof.
  intros Hinv Hst Hroom Hacc Hsize Hc Hlen. unfold alloc_page.
  pose proof Hinv as [Hpg Hat Hcount Hlay]. pose proof Hlay as [[Hb Hbi] [Ha Had] [Hs Hs5] Hmax].
  destruct (calculate_padding_spec size (sliced_alignment p) Ha) as (padding & Hpad & Hpb & _).
  destruct (accept_fits _ _ _ Hlay Hacc Hsize Hpad) as [Hle Hlep].
  apply wp_bind. eapply wp_mono; [by apply wp_mapping_storage_handle|].
  intros [h|e] w1 (Hst1 & Hm1 & Hf1 & Hr).
  2: { apply wp_ret. destruct Hr as [Hheld _]. split_and!; try done.
       split; try done. by eapply pages_inv_same. }
  destruct Hr as (Hu & Hheld & Hfresh). pose proof (pages_inv_same _ _ _ Hm1 Hf1 Hpg) as Hpg1.
  rewrite as_u16_small by lia.
  apply wp_bind. eapply wp_mono.
  { apply wp_page_new; [by apply (pages_memory _ _ Hpg1)|rewrite Hm1; lia| |apply with_page_ok; [done|lia]|done|done|..].
    - eapply (covered_app_r _ (taints_of (pages_slices (pages p)))). rewrite app_nil_r.
      apply (pages_taints _ _ Hpg1).
    - unfold handle_offset. by rewrite Hu.
    - unfold handle_size. rewrite Hu. cbn. lia. }
  intros page w2 (Hinv2 & Hst2 & Hc2 & Hss2 & Hf2 & Hpage & Hfree2). rewrite Hm1 in *.
  apply wp_bind. eapply wp_mono.
  { apply wp_try_reserve; [done|done|rewrite Hpage; cbn; lia|lia|rewrite Hpage; cbn; lia]. }
  intros [r page'] w3 (padding' & Hpad' & Hinv3 & Hpage' & Hres & He3 & Hc3 & Hw3).
  assert (alignment page = sliced_alignment p) as Hal by by rewrite Hpage.
  rewrite Hal in Hpad'. assert (padding' = padding) as -> by congruence.
  destruct r as [reserved|].
  2: { exfalso. destruct Hres as (_ & _ & Hno). rewrite Hpage in Hno. cbn [slices] in Hno.
       apply Forall_cons in Hno as [Hno _]. unfold fits, slice_size, handle_size in Hno. cbn in Hno.
       rewrite Hfree2, Hu in Hno. cbn in Hno. apply andb_false_iff in Hno as [Hno|Hno]; [|done].
       apply Z.leb_gt in Hno. lia. }
  destruct (reserve_steps page size padding (Some reserved) page' w2 w3 Hinv2 Hres He3) as [Hst23 _];
    [by rewrite Hw3|done|].
  assert (steps [] (slices page') w1 w3) as Hst13.
  { eapply steps_trans; [by intros id ?%not_elem_of_nil|exact Hst2|exact Hst23]. }
  apply wp_bind, (wp_lift _ reserved); [done|]. apply wp_ret.
  set (pg := (page', page_storage_id page')). set (p' := with_marks _ _ _).
  assert (storage w3 = storage w1 ∧ storage_ids w3 = storage_ids w1) as [Hs3 Hi3].
  { destruct Hss2. rewrite Hw3. done. }
  assert (sliced_inv w3 p') as Hinv'.
  { split; [by eapply pages_inv_snoc| | |by destruct Hlay].
    - cbn [p' pages with_marks with_pages]. intros i pg' [[_ Hi]|[Hi <-]]%lookup_snoc_Some.
      + destruct (Hat i pg' Hi). done.
      + subst i. split; cbn [pg fst snd]; rewrite Hpage', Hpage; try done.
        unfold page_size, handle_size; cbn. by rewrite Hu.
    - cbn. rewrite length_app; cbn. lia. }
  split; [done|]. split; [by eapply storage_ok_same|]. exists pg.
  assert (pg.2 = storage_id h) as Hid by (cbn; rewrite Hpage', Hpage; done).
  split_and!; [done|cbn; by rewrite Hpage', Hpage|by rewrite Hid|by rewrite Hid, Hs3| |].
  - intros s Hin Hf. split; [done|]. rewrite <- Hf, <- Hm1.
    eapply (keeps_live_frame _ []); [|exact Hst13| |done].
    + by apply pages_known.
    + rewrite app_nil_r. apply (pages_distinct _ _ Hpg).
  - destruct (reserve_result_live _ _ _ _ _ _ _ Hinv2 Hres) as (s & Hin & Hh & Hsz & _ & Hf).
    rewrite <- Hh. eapply wp_mono.
    + eapply (wp_sliced_find w3 p' (length (pages p)) pg s); [done| |done].
      cbn. by rewrite lookup_app_r, Nat.sub_diag by lia.
    + intros f w'' [-> ->]. exists s. split; [done|]. split_and!; try done. by rewrite Hh.
Qed.

(** ** Giving empty pages back *)

(** The storage after the pages [gone] went back: an unmapped page has
    nothing to give. *)
Definition give_back (h : gmap StorageId Z) (gone : list PageEntry) : gmap StorageId Z :=
  foldl (λ h pg, if page_mapped pg.1 then delete pg.2 h else h) h gone.

Definition empty_page (m : Memory) (pg : PageEntry) : Prop :=
  is_guarded pg.1 = false ∧ Forall (λ s, freed m (handle s) = true) (slices pg.1).
Definition busy_page (m : Memory) (pg : PageEntry) : Prop :=
  is_guarded pg.1 = true ∨ ∃ s, s ∈ slices pg.1 ∧ freed m (handle s) = false.

(** [pg'] is what is left of [pg], at index [i] of the pool. *)
Definition moved_to (i : nat) (pg pg' : PageEntry) : Prop :=
  pg'.2 = pg.2 ∧ pg'.1 = renumber_page (Z.of_nat i) (with_slices (slices pg'.1) pg.1).

Record gave_back (start : nat) (l out gone : list PageEntry) w w' : Prop := mk_gave_back {
  gb_inv : pages_inv w' out;
  gb_steps : steps (pages_slices l) (pages_slices out) w w';
  gb_live : keeps_live (memory w) (memory w') (pages_slices l) (pages_slices out);
  gb_counter : COUNTER (memory w') <= COUNTER (memory w) + search_room l;
  gb_storage : storage_ok w' ∧ held (storage w') = give_back (held (storage w)) gone;
  gb_out i pg' : out !! i = Some pg' →
    busy_page (memory w') pg' ∧ ∃ pg, pg ∈ l ∧ moved_to (start + i) pg pg';
  gb_gone : Forall (λ pg, pg ∈ l ∧ empty_page (memory w) pg) gone;
  gb_ids : snd <$> l ≡ₚ (snd <$> out) ++ (snd <$> gone);
}.

Lemma wp_dealloc id w (Q : unit → World St → Prop) :
  storage_ok w →
  (∀ w', storage_ok w' → memory w' = memory w → failures w' = failures w →
     held (storage w') = delete id (held (storage w)) → Q tt w') →
  wp (dealloc id) w Q.
Proof.
  intros Hok HQ. destruct (storage_dealloc_ok id w Hok) as (st' & Hd & Hok' & Hh).
  unfold dealloc. apply wp_bind, wp_gets.
  apply wp_bind. eapply wp_lift; [exact Hd|]. apply wp_modify. by apply HQ.
Qed.

Lemma gave_back_nil start w :
  memory_wf (memory w) → covered (failures w) [] → storage_ok w → gave_back start [] [] [] w w.
Proof.
  intros Hm Hc Hok. split; try done.
  - split; [done|constructor|constructor|done].
  - apply steps_refl.
  - change (search_room []) with 0. lia.
Qed.

(** A page the loop is done with: kept with the index [start]. *)
Lemma gave_back_keep start pg (p' : MemoryPage) l out gone w w1 w' :
  pages_inv w (pg :: l) → page_inv w1 p' →
  steps (slices pg.1) (slices p') w w1 → keeps_live (memory w) (memory w1) (slices pg.1) (slices p') →
  moved_to start pg (p', pg.2) → busy_page (memory w1) (p', pg.2) →
  COUNTER (memory w1) <= COUNTER (memory w) + Z.of_nat (length (slices pg.1)) + 1 →
  storage w1 = storage w →
  gave_back (S start) l out gone w1 w' →
  gave_back start (pg :: l) ((p', pg.2) :: out) gone w w'.
Proof.
  intros Hinv Hp' Hst1 Hk1 Hmv Hbusy Hc1 Hs1 [Hinv' Hst2 Hk2 Hc2 [Hok Hheld] Hout Hgone Hids].
  destruct (pages_inv_cons w w1 w' pg p' pg.2 l out Hinv Hst1 Hp' Hst2 Hinv') as [Hinv'' Hst].
  pose proof (pages_known _ _ Hinv) as Hk. pose proof (pages_distinct _ _ Hinv) as Hnd.
  pose proof (pages_inv_head _ _ _ Hinv) as Hp.
  rewrite pages_slices_cons in Hk, Hnd.
  destruct (keeps_live_app _ _ _ _ w w1 w' Hk Hnd (page_known _ _ Hp')
    (page_distinct _ _ (inv_page _ _ Hp')) Hst1 Hst2 Hk1 Hk2) as [Hlater Hlive].
  split; try done.
  - rewrite search_room_cons. lia.
  - by rewrite Hheld, Hs1.
  - intros [|i] pg' Hi.
    + injection Hi as <-. rewrite Nat.add_0_r. split; [|exists pg; split; [by left|done]].
      destruct Hbusy as [?|(s & Hs & Hf)]; [by left|right]. exists s. split; [done|].
      cbn in Hs. by rewrite Hlater.
    + destruct (Hout i pg' Hi) as [? (pg0 & Hin & Hmv')]. split; [done|]. exists pg0.
      split; [by right|]. by rewrite Nat.add_succ_r.
  - eapply Forall_impl; [exact Hgone|]. intros pg0 [Hin [Hg Hfree]].
    split; [by right|]. split; [done|]. apply Forall_forall. intros s Hs.
    rewrite <- (proj1 (Forall_forall _ _) Hfree s Hs). symmetry.
    eapply (keeps_live_frame (pages_slices l) (slices pg.1)); [|exact Hst1| |].
    + by apply known_app in Hk as [_ ?].
    + rewrite handles_app in *. by rewrite Permutation_app_comm.
    + unfold pages_slices. apply list_elem_of_In, in_flat_map. exists pg0.
      by rewrite <- !list_elem_of_In.
  - cbn. by rewrite Hids.
Qed.

(** A page given back. *)
Lemma gave_back_drop start pg l out gone w w1 w' :
  pages_inv w (pg :: l) → steps (slices pg.1) [] w w1 → empty_page (memory w) pg →
  COUNTER (memory w1) <= COUNTER (memory w) + Z.of_nat (length (slices pg.1)) + 1 →
  held (storage w1) = give_back (held (storage w)) [pg] →
  gave_back start l out gone w1 w' →
  gave_back start (pg :: l) out (pg :: gone) w w'.
Proof.
  intros Hinv Hst1 Hempty Hc1 Hs1 [Hinv' Hst2 Hk2 Hc2 [Hok Hheld] Hout Hgone Hids].
  pose proof (pages_known _ _ Hinv) as Hk. pose proof (pages_distinct _ _ Hinv) as Hnd.
  rewrite pages_slices_cons in Hk, Hnd.
  assert (∀ s, s ∈ pages_slices l →
    freed (memory w1) (handle s) = freed (memory w) (handle s)) as Hlater.
  { eapply (keeps_live_frame _ (slices pg.1)); [|exact Hst1|].
    + by apply known_app in Hk as [_ ?].
    + rewrite handles_app in *. by rewrite Permutation_app_comm. }
  split; try done.
  - rewrite pages_slices_cons. change (pages_slices out) with ([] ++ pages_slices out).
    by eapply steps_app.
  - intros s. rewrite pages_slices_cons, elem_of_app. intros [Hs|Hs] Hf.
    + pose proof (proj1 (Forall_forall _ _) (proj2 Hempty) s Hs) as Hfree. cbn in Hfree. congruence.
    + apply Hk2; [done|]. by rewrite Hlater.
  - rewrite search_room_cons. lia.
  - split; [done|]. by rewrite Hheld, Hs1.
  - intros i pg' Hi. destruct (Hout i pg' Hi) as [? (pg0 & Hin & Hmv')]. split; [done|].
    exists pg0. split; [by right|done].
  - constructor; [by split; [left|]|]. eapply Forall_impl; [exact Hgone|].
    intros pg0 [Hin [Hg Hfree]]. split; [by right|]. split; [done|]. apply Forall_forall.
    intros s Hs. rewrite <- (proj1 (Forall_forall _ _) Hfree s Hs). symmetry. apply Hlater.
    unfold pages_slices. apply list_elem_of_In, in_flat_map. exists pg0. by rewrite <- !list_elem_of_In.
  - cbn. rewrite Hids. by rewrite Permutation_middle.
Qed.

(** [shed], [dealloc] and the drop of an empty page. *)
Lemma wp_discard (p : MemoryPage) id w (k : M (World St) (list PageEntry))
    (R : list PageEntry → World St → Prop) :
  page_inv w p → storage_ok w →
  (∀ w', steps (slices p) [] w w' → COUNTER (memory w') = COUNTER (memory w) → storage_ok w' →
     held (storage w') = give_back (held (storage w)) [(p, id)] → wp k w' R) →
  wp (page ← shed p; _ ← (if is_mapped page then dealloc id else mret tt);
      _ ← drop_slices (slices page); k) w R.
Proof.
  intros Hinv Hok HR. pose proof Hinv as [Hm Hpok Ht].
  apply wp_bind. unfold shed. apply wp_bind.
  eapply wp_mono; [apply (wp_shed_slices []); by rewrite app_nil_r|].
  intros l1 w1 (Hh1 & Hm1 & _ & Hr1 & [Hi1 Hs1]). apply wp_ret. cbn [is_mapped with_slices page_mapped slices].
  assert (storage_ok w1) as Hok1 by by eapply storage_ok_same.
  assert (∀ w2, storage_ok w2 → memory w2 = memory w → failures w2 = failures w1 →
    held (storage w2) = give_back (held (storage w)) [(p, id)] →
    wp (_ ← drop_slices l1; k) w2 R) as Hlast.
  { intros w2 Hok2 Hm2 Hf2 Hh2. apply wp_bind.
    eapply wp_mono; [apply wp_drop_slices|].
    - by rewrite Hm2.
    - rewrite Hh1. apply (page_distinct _ _ Hpok).
    - intros s Hs. assert (handle s ∈ handles_of (slices p)) as Hin by (rewrite <- Hh1; by apply handle_in).
      apply list_elem_of_fmap in Hin as (t & -> & [i Hi]%list_elem_of_lookup).
      destruct (page_slots _ _ Hpok i t Hi) as (d & Hd & _ & Hd'). exists d. by rewrite Hm2.
    - intros [] w3 (He3 & Hc3 & Hw3). rewrite Hm2, Hh1 in *. apply HR; [|done| |by rewrite Hw3].
      + split; [by eapply evolve_weaken; [| |exact He3]; cbn; set_solver|by intros id' ?%not_elem_of_nil|].
        intros o Hc. rewrite app_nil_r, Hw3. cbn [failures with_memory]. rewrite Hf2.
        eapply covered_released, Hr1. by eapply covered_perm; [apply Permutation_app_comm|].
      + by eapply storage_ok_same; [exact Hok2|rewrite Hw3..]. }
  apply wp_bind. unfold is_mapped; cbn. destruct (page_mapped p) eqn:Hmap.
  - apply wp_dealloc; [done|]. intros w2 Hok2 Hm2 Hf2 Hh2.
    apply Hlast; [done|congruence|done|]. cbn. by rewrite Hmap, Hh2, Hs1.
  - apply wp_ret, Hlast; try done. cbn. by rewrite Hmap, Hs1.
Qed.

Lemma wp_release_pages l tmp w :
  pages_inv w l → storage_ok w → COUNTER (memory w) + search_room l <= u64_max →
  Z.of_nat (length tmp + length l) <= u16_max + 1 →
  wp (release_pages l tmp) w (λ l' w',
    ∃ out gone, l' = tmp ++ out ∧ gave_back (length tmp) l out gone w w').
Proof.
  revert tmp w. induction l as [|[p id] l IH]; intros tmp w Hinv Hok Hroom Hlen; cbn [release_pages].
  { apply wp_ret. exists [], []. split; [by rewrite app_nil_r|].
    apply gave_back_nil; [apply (pages_memory _ _ Hinv)|apply (pages_taints _ _ Hinv)|done]. }
  rewrite search_room_cons in Hroom; cbn [fst length] in *. pose proof (search_room_nonneg l) as Hr0.
  pose proof (pages_inv_head _ _ _ Hinv) as Hp. cbn [fst] in Hp.
  apply wp_bind, wp_coalesce_room; [done|lia|]. intros p1 w1 Hp1 Hshape Hs1 Hco.
  pose proof (coalesced_steps _ _ _ Hp Hco) as Hst1.
  pose proof (coalesced_keeps _ _ _ Hp Hco) as Hk1. rewrite <- Hs1 in Hst1, Hk1.
  pose proof (merges_length (page_blocks (memory w) p)) as Hmg. rewrite page_blocks_slices in Hmg.
  destruct Hco as (_ & Hc1 & _ & _ & _ & Hi1 & Hsto1).
  assert (storage_ok w1) as Hok1 by by eapply storage_ok_same.
  assert (is_guarded p1 = is_guarded p ∧ page_mapped p1 = page_mapped p) as [Hg Hmap].
  { by rewrite Hshape. }
  apply wp_bind. unfold is_empty.
  apply (wp_all_free (location_base p1)); [by apply page_inv_placed|].
  destruct (forallb (λ s, freed (memory w1) (handle s)) (slices p1) && negb (is_guarded p1)) eqn:Hdrop.
  - apply andb_prop in Hdrop as [Hall Hng]. rewrite Hg in Hng. apply negb_true_iff in Hng.
    apply (wp_discard p1 id); [done|done|]. intros w2 Hst2 Hc2 Hok2 Hh2.
    pose proof (steps_trans _ _ _ _ _ _ (page_known _ _ Hp) Hst1 Hst2) as Hst.
    eapply wp_mono; [apply IH; [by eapply (pages_inv_tail _ _ (p, id))|done|lia|lia]|].
    intros l' w' (out & gone & -> & Hgb). exists out, ((p, id) :: gone). split; [done|].
    eapply (gave_back_drop _ (p, id)); [done|exact Hst| |cbn; lia| |done].
    + split; [done|]. apply Forall_forall. intros s Hs. cbn in *.
      destruct (freed (memory w) (handle s)) eqn:Hf; [done|]. destruct (Hk1 s Hs Hf) as [Hin Hf1].
      rewrite forallb_forall in Hall. rewrite Hall in Hf1; [done|]. by apply list_elem_of_In.
    + rewrite Hh2, Hsto1. cbn. by rewrite Hmap.
  - rewrite as_u16_small by lia. apply wp_bind.
    eapply wp_mono; [apply wp_page_update_page; [done|lia]|].
    intros p2 w2 (Hp2 & Hinv2 & Hst2 & Hk2 & Hc2 & [Hi2 Hsto2]).
    pose proof (steps_trans _ _ _ _ _ _ (page_known _ _ Hp) Hst1 Hst2) as Hst.
    eapply wp_mono; [apply IH|].
    + by eapply (pages_inv_tail _ _ (p, id)).
    + by eapply storage_ok_same.
    + lia.
    + rewrite length_app; cbn. lia.
    + intros l' w' (out & gone & -> & Hgb). exists ((p2, id) :: out), gone.
      split; [by rewrite <- app_assoc|]. rewrite length_app, Nat.add_1_r in Hgb.
      eapply (gave_back_keep _ (p, id)); [done|done|exact Hst| | | |cbn; lia|by rewrite Hsto2|done].
      * by eapply keeps_live_trans.
      * split; [done|]. cbn. by rewrite Hp2, Hshape.
      * apply andb_false_iff in Hdrop as [Hdrop|Hdrop].
        -- right. cbn [fst]. apply not_true_iff_false in Hdrop. rewrite forallb_forall in Hdrop.
           destruct (decide (Exists (λ s, freed (memory w1) (handle s) = false) (slices p1))) as [Hex|Hno].
           ++ apply Exists_exists in Hex as (s & Hs & Hf). exists s. by apply Hk2.
           ++ exfalso. apply Hdrop. intros s Hs%list_elem_of_In. destruct (freed _ _) eqn:Hf; [done|].
              exfalso. apply Hno, Exists_exists. by exists s.
        -- left. cbn. rewrite Hp2. cbn. apply negb_false_iff in Hdrop. done.
Qed.

(** C2: giving empty pages back.  Exactly the pages on which nothing was
    live and that no guard held are gone, and the storage is left with
    exactly the allocations of the others and the pages that had none: a
    page that was never mapped costs no call.  The pages kept are busy or
    guarded, renumbered without a gap, and keep every live slice as it was,
    to which its owners' bindings still lead. *)
Theorem release_empty_correct w p :
  sliced_inv w p → storage_ok w → COUNTER (memory w) + search_room (pages p) <= u64_max →
  wp (release_empty p) w (λ p' w',
    sliced_inv w' p' ∧ storage_ok w' ∧ Forall (busy_page (memory w')) (pages p') ∧
    keeps_live (memory w) (memory w') (pages_slices (pages p)) (pages_slices (pages p')) ∧
    ∃ gone, Forall (λ pg, pg ∈ pages p ∧ empty_page (memory w) pg) gone ∧
      (snd <$> pages p ≡ₚ (snd <$> pages p') ++ (snd <$> gone)) ∧
      held (storage w') = give_back (held (storage w)) gone).
Proof.
  intros [Hpg Hat Hcount Hlay] Hok Hroom. unfold release_empty. apply wp_bind.
  eapply wp_mono; [apply wp_release_pages; [done|done|done|cbn; lia]|].
  intros l' w' (out & gone & -> & [Hinv Hst Hk Hc [Hok' Hheld] Hout Hgone Hids]). cbn [app length] in *.
  apply wp_ret. split; [split; [done| | |by destruct Hlay]|split_and!; try done].
  - cbn [pages with_pages]. intros i pg' Hi. destruct (Hout i pg' Hi) as (_ & pg & Hin & [Hid Hp]).
    apply list_elem_of_lookup in Hin as [j Hj]. destruct (Hat j pg Hj) as [Hb Hid' Ha Hs].
    unfold page_size, page_storage_id in *. cbn [Nat.add] in Hp.
    split; rewrite Hp; unfold page_size, page_storage_id;
      cbn [location_base renumber_page with_slices alignment page_storage]; try congruence.
    + by rewrite Hb.
    + exact Ha.
    + exact Hs.
  - cbn. pose proof (Permutation_length Hids) as Hlen. rewrite length_app, !length_fmap in Hlen. lia.
  - cbn. apply Forall_lookup. intros i pg' Hi. by destruct (Hout i pg' Hi).
  - by exists gone.
Qed.

(** ** Materializing *)
Definition rebound (id : StorageId) (s : Slice) : Slice :=
  with_slice_storage (with_storage_id id (slice_storage s)) s.

Lemma rebind_inv id (p : MemoryPage) w : page_inv w p → page_inv w (rebind_storage id p).
Proof.
  intros [Hm [Hs Hnd Hlaid Hal Hf Hids Hb Hlen] Ht].
  assert (handles_of (slices (rebind_storage id p)) = handles_of (slices p)) as Hh.
  { unfold handles_of. cbn. by rewrite <- list_fmap_compose. }
  split; [done| |].
  - split; [|by rewrite Hh| |exact Hal|exact Hf| |exact Hb|].
    + intros i s Hi. cbn in Hi. rewrite list_lookup_fmap in Hi.
      apply fmap_Some in Hi as (t & Ht' & ->). exact (Hs i t Ht').
    + clear -Hlaid. cbn. change (page_size (rebind_storage id p)) with (page_size p).
      revert Hlaid. generalize 0 as lo. induction (slices p) as [|s l IH]; intros lo; [done|].
      cbn. intros (?&?&?&?&?). split_and!; try done. by apply IH.
    + cbn. apply Forall_fmap, Forall_true. done.
    + cbn. by rewrite length_fmap.
  - unfold taints_of in *. cbn. by rewrite <- list_fmap_compose.
Qed.
Lemma rebind_steps id (p : MemoryPage) w : steps (slices p) (slices (rebind_storage id p)) w w.
Proof.
  split.
  - eapply evolve_weaken, evolve_refl; set_solver.
  - intros x. unfold handles_of. cbn. rewrite <- list_fmap_compose. by left.
  - intros o Hc. unfold taints_of in *. cbn. by rewrite <- list_fmap_compose.
Qed.

Lemma pages_inv_insert w i pg pg' (l : list PageEntry) :
  pages_inv w l → l !! i = Some pg → page_inv w pg'.1 → steps (slices pg.1) (slices pg'.1) w w →
  handles_of (slices pg'.1) = handles_of (slices pg.1) →
  pages_inv w (<[i := pg']> l).
Proof.
  intros [Hm Hok Hnd Ht] Hi Hp Hst Hh.
  pose proof (take_drop_middle l i pg Hi) as Hl. rewrite (insert_take_drop l i pg') by (by eapply lookup_lt_Some).
  set (l1 := take i l) in *. set (l2 := drop (S i) l) in *. rewrite <- Hl in *. clear Hl.
  rewrite !pages_slices_app, !pages_slices_cons in *. split; [done| | |].
  - apply Forall_app in Hok as [? [? ?]%Forall_cons]. apply Forall_app. split; [done|].
    constructor; [apply (inv_page _ _ Hp)|done].
  - rewrite !pages_slices_app, !pages_slices_cons, !handles_app, Hh. by rewrite !handles_app in Hnd.
  - rewrite pages_slices_app, pages_slices_cons, !taints_app in *.
    eapply covered_perm, (steps_taints _ _ _ _ Hst (taints_of (pages_slices l1) ++ taints_of (pages_slices l2))).
    + rewrite <- app_assoc. by rewrite (Permutation_app_comm (taints_of (pages_slices l2))).
    + eapply covered_perm, Ht.
      rewrite <- app_assoc. by rewrite (Permutation_app_comm (taints_of (pages_slices l2))).
Qed.

(** [binding] names the allocation of a slice of the page at [i]. *)
Definition claims_page (p : SlicedPool) (binding : ManagedMemoryId) (i : nat) (pg : PageEntry) : Prop :=
  pages p !! i = Some pg ∧ binding ∈ handles_of (slices pg.1).

Definition materialized (p : SlicedPool) (i : nat) (pg : PageEntry) (r : result unit IoError)
    (p' : SlicedPool) w w' : Prop :=
  if page_mapped pg.1 then r = Ok tt ∧ p' = p ∧ w' = w
  else match r with
       | Ok _ => ∃ id, p' = with_pages (<[i := (rebind_storage id pg.1, id)]> (pages p)) p ∧
                       held (storage w) !! id = None ∧
                       held (storage w') = <[id := sliced_page_size p]> (held (storage w))
       | Err e => p' = p ∧ held (storage w') = held (storage w) ∧
                  ∃ e', e = StorageMappingFailed (sliced_page_size p) e'
       end.

Lemma wp_map_page w p i pg :
  sliced_inv w p → storage_ok w → can_alloc (sliced_page_size p) w → pages p !! i = Some pg →
  wp (map_page p i) w (λ '(r, p') w',
    storage_ok w' ∧ sliced_inv w' p' ∧ memory w' = memory w ∧ materialized p i pg r p' w w').
Proof.
  intros Hinv Hok Hroom Hi. pose proof Hinv as [Hpg Hat Hcount Hlay].
  destruct pg as [page id]. destruct (Hat _ _ Hi) as [Hb Hid Ha Hs]. cbn [fst snd] in *.
  unfold map_page, materialized. apply wp_bind. eapply wp_lift; [done|]. cbn [fst]. unfold is_mapped.
  destruct (page_mapped page); [by apply wp_ret|]. rewrite Hs.
  apply wp_bind. eapply wp_mono; [by apply storage_alloc_ok|].
  intros r w1 (Hok1 & Hm1 & Hf1 & Hids & Hr). pose proof (pages_inv_same _ _ _ Hm1 Hf1 Hpg) as Hpg1.
  destruct r as [real|err]; apply wp_ret.
  - destruct Hr as (Hu & Hid1 & Hh). split_and!; try done.
    + split; [| | |by destruct Hlay].
      * eapply pages_inv_insert; [done|done| |apply rebind_steps|].
        -- apply rebind_inv. eapply (pages_inv_head _ (page, id) []).
           destruct Hpg1 as [Hm Hpok Hnd Ht].
           pose proof (take_drop_middle _ _ _ Hi) as Hl. rewrite <- Hl in Hpok, Hnd, Ht.
           apply Forall_app in Hpok as [_ [Hpok _]%Forall_cons].
           rewrite pages_slices_app, pages_slices_cons, ?handles_app, ?taints_app in *.
           apply NoDup_app in Hnd as (_ & _ & Hnd). apply NoDup_app in Hnd as (Hnd & _).
           split; [done|by constructor|by rewrite pages_slices_cons, app_nil_r|].
           rewrite pages_slices_cons, app_nil_r.
           by eapply covered_app_l, covered_app_r.
        -- unfold handles_of. cbn. by rewrite <- list_fmap_compose.
      * intros j pg' Hj. cbn in Hj. destruct (decide (i = j)) as [<-|Hne].
        -- rewrite list_lookup_insert_eq in Hj by (by eapply lookup_lt_Some). injection Hj as <-. done.
        -- rewrite list_lookup_insert_ne in Hj by done. by destruct (Hat j pg' Hj).
      * cbn. by rewrite length_insert.
    + exists (storage_id real). split_and!; try done.
      destruct (held (storage w) !! storage_id real) as [n|] eqn:Hn; [|done].
      apply (storage_ok_ids _ _ _ Hok) in Hn. lia.
  - split_and!; try done; try (by eexists).
Qed.

(** Backing an allocation.  A binding no slice of the pool holds, even
    one whose stale location leads to another allocation's slice, changes
    nothing.  A binding the pool holds gets its page backed: once, by one
    allocation of the page size, under whose id the page keeps the same
    slices at the same places; or the pool is as it was and the storage's
    error is reported. *)
Theorem materialize_correct w p binding d :
  sliced_inv w p → storage_ok w → can_alloc (sliced_page_size p) w →
  descriptors (memory w) !! binding = Some d →
  wp (sliced_materialize p binding) w (λ '(r, p') w',
    storage_ok w' ∧ sliced_inv w' p' ∧ memory w' = memory w ∧
    ((∀ i pg, ¬ claims_page p binding i pg) → r = Ok tt ∧ p' = p ∧ w' = w) ∧
    ∀ i pg, claims_page p binding i pg → materialized p i pg r p' w w').
Proof.
  intros Hinv Hok Hroom Hd. unfold sliced_materialize.
  apply wp_bind, wp_on_memory. eapply wp_location; [done|].
  replace (with_memory (memory w) w) with w by by destruct w.
  set (i := Z.to_nat (Handle.page (loc_of d))). set (k := Z.to_nat (Handle.slice (loc_of d))).
  set (c := match pages p !! i with
            | Some pg => match slices pg.1 !! k with
                         | Some s => bool_decide (handle s = binding) | None => false end
            | None => false end).
  apply wp_bind. apply (wp_mono _ _ (λ b w', b = c ∧ w' = w)).
  { unfold c. destruct (pages p !! i) as [[page id]|]; [|by apply wp_ret].
    cbn [fst]. apply wp_bind. unfold page_find. apply wp_bind, wp_on_memory.
    eapply wp_location; [done|]. apply wp_ret, wp_ret. fold k.
    split; [|by destruct w]. by destruct (slices page !! k). }
  intros b w' [-> ->].
  assert (∀ j pg, claims_page p binding j pg → j = i ∧ c = true) as Hclaim.
  { intros j pg [Hj (s & Hh & Hs)%list_elem_of_fmap].
    destruct (sliced_lookup _ _ _ _ _ Hinv Hj Hs) as (k' & Hk' & _ & d' & Hd' & Hl & _).
    rewrite <- Hh, Hd in Hd'. injection Hd' as <-.
    assert (i = j) as Hij by (unfold i; rewrite Hl; cbn; lia).
    assert (k = k') as Hkk by (unfold k; rewrite Hl; cbn; lia).
    split; [done|]. unfold c. rewrite Hij, Hj, Hkk, Hk'. by apply bool_decide_eq_true. }
  destruct c eqn:Hc; cbn [negb].
  - unfold c in Hc. destruct (pages p !! i) as [pg|] eqn:Hi; [|done].
    destruct (slices pg.1 !! k) as [s|] eqn:Hs; [|done]. apply bool_decide_eq_true in Hc.
    assert (claims_page p binding i pg) as Hcl.
    { split; [done|]. rewrite <- Hc. by eapply handle_in, list_elem_of_lookup_2. }
    eapply wp_mono; [by apply (wp_map_page w p i pg)|].
    intros [r p'] w' (Hok' & Hinv' & Hm' & Hmat). split_and!; try done.
    + intros Hno. by destruct (Hno i pg).
    + intros j pg' Hcl'. destruct (Hclaim _ _ Hcl') as [-> _]. destruct Hcl' as [Hj _].
      by rewrite Hi in Hj; injection Hj as <-.
  - apply wp_ret. split_and!; try done. intros j pg Hcl. by destruct (Hclaim _ _ Hcl).
Qed.
End sliced.

(** ** A pool to try the properties on

    One page of 32 bytes, in host memory. *)
Section witnesses.
Let answer (st : Bytes.BytesStorage) (n : Z) : bool := true.
#[local] Instance bytes : ComputeStorage Bytes.BytesStorage := Bytes.storage_bytes_storage answer.
#[local] Instance bytes_laws : ComputeStorageLaws Bytes.BytesStorage :=
  Bytes.bytes_storage_laws answer.

Definition pool_example : SlicedPool :=
  mk_SlicedPool [(page_example, 7)] 32 32 true 4 (location_new 1 0 0) 1 10.
Definition pool_world : World Bytes.BytesStorage :=
  world_example (Bytes.mk_BytesStorage {[ 7 := 32 ]} 32).

Lemma pool_example_layout : layout_ok pool_example.
Proof.
  split; cbn; [|split; [lia|by exists 8]|lia|lia]. split; [|done].
  unfold location_ok; cbn. lia.
Qed.
Lemma pool_example_inv : sliced_inv pool_world pool_example.
Proof.
  pose proof (page_example_inv (Bytes.mk_BytesStorage {[ 7 := 32 ]} 32)) as [Hm Hp Ht].
  split; [|intros [|[|i]] pg [= <-]; done|cbn; lia|apply pool_example_layout].
  split; [done|by constructor| |done].
  apply (page_distinct _ _ Hp).
Qed.
Lemma pool_world_ok : storage_ok pool_world.
Proof.
  split; cbn; [lia|]. split; [reflexivity|]. intros id n.
  rewrite lookup_singleton_Some. lia.
Qed.

Lemma reserve_free_correct_witness :
  wp (reserve_free pool_example 6) pool_world (λ '(r, p') w',
    sliced_inv w' p' ∧ search_result 6 4 (memory w') r (pages p')).
Proof.
  eapply wp_mono; [apply (reserve_free_correct pool_world pool_example 6 pool_example_inv)|].
  - lia.
  - cbn. lia.
  - split; [repeat constructor|]; vm_compute; done.
  - intros [r p'] w' (? & _ & _ & ? & _). split; assumption.
Defined.

Lemma alloc_page_correct_witness :
  wp (alloc_page pool_example 10 Eager) pool_world (λ '(r, p') w',
    sliced_inv w' p' ∧ storage_ok w').
Proof.
  eapply wp_mono; [apply (alloc_page_correct pool_world pool_example 10 Eager pool_example_inv
    pool_world_ok)|].
  - change (Bytes.room 32 pool_world). unfold Bytes.room, Bytes.ALIGNMENT; cbn. lia.
  - reflexivity.
  - lia.
  - cbn. lia.
  - cbn. lia.
  - intros [r p'] w' (? & ? & _). split; assumption.
Defined.

Lemma release_empty_correct_witness :
  wp (release_empty pool_example) pool_world (λ p' w',
    sliced_inv w' p' ∧ Forall (busy_page (memory w')) (pages p')).
Proof.
  eapply wp_mono; [apply (release_empty_correct pool_world pool_example pool_example_inv
    pool_world_ok)|].
  - vm_compute. done.
  - intros p' w' (? & _ & ? & _). split; assumption.
Defined.

Lemma materialize_correct_witness :
  wp (sliced_materialize pool_example 2) pool_world (λ '(r, p') w',
    r = Ok tt ∧ p' = pool_example ∧ w' = pool_world).
Proof.
  eapply wp_mono; [apply (materialize_correct pool_world pool_example 2
    (mk_Descriptor (to_bits (location_new 1 0 2)) 1 1) pool_example_inv pool_world_ok)|].
  - change (Bytes.room 32 pool_world). unfold Bytes.room, Bytes.ALIGNMENT; cbn. lia.
  - reflexivity.
  - intros [r p'] w' (_ & _ & _ & _ & Hc). apply (Hc 0%nat (page_example, 7)).
    split; [reflexivity|]. apply (bool_decide_unpack _). vm_compute. exact I.
Defined.
End witnesses.
