(* ===== verification/DirectPool.v ===== *)
(** * Direct pools

    [cubecl-server/src/memory_management/memory_pool/direct_pool.rs]: a pool
    that does no carving.  Every slice owns its device allocation; a slice
    given back leaves a tombstone, whose index a later slice takes. *)

From S2P Require Export SlicedPool.
From stdpp Require Import list.
#[local] Open Scope Z_scope.

Abbreviation DirectEntry := (option Slice) (only parsing).

Record DirectPool := mk_DirectPool {
  direct_slices : list DirectEntry;
  vacant : list nat;                (* a stack, its top at the end *)
  direct_alignment : Z;
  direct_base : MemoryLocation;
  reclaim_at : option Z;
  direct_peak : Z;
  direct_largest : Z;
}.
Definition with_entries (l : list DirectEntry) (v : list nat) (p : DirectPool) : DirectPool :=
  mk_DirectPool l v (direct_alignment p) (direct_base p) (reclaim_at p) (direct_peak p)
    (direct_largest p).
Definition with_direct_marks (peak largest : Z) (p : DirectPool) : DirectPool :=
  mk_DirectPool (direct_slices p) (vacant p) (direct_alignment p) (direct_base p) (reclaim_at p)
    peak largest.

Definition direct_new (alignment pool_pos : Z) (reclaim_at : option Z) : DirectPool :=
  mk_DirectPool [] [] alignment (location_new pool_pos 0 0) reclaim_at 0 0.

Definition direct_live (p : DirectPool) : list Slice := omap id (direct_slices p).
Definition direct_accept (p : DirectPool) (size : Z) : bool := true.

(** [map(effective_size).sum()] *)
Fixpoint sum_effective (l : list Slice) (acc : Z) : option Z :=
  match l with
  | [] => Some acc
  | s :: l => eff ← effective_size s; acc ← add_u64 acc eff; sum_effective l acc
  end.
Definition direct_reserved (p : DirectPool) : option Z := sum_effective (direct_live p) 0.

Section direct.
Context {St : Type} `{ComputeStorage St}.

(** The loop of [release_free].  A dropped slice drops its handle. *)
Fixpoint release_loop (l : list DirectEntry) (index : nat) (ceiling headroom reserved : Z)
    (vacant : list nat) (released : bool) : M (World St) (list DirectEntry * list nat * bool) :=
  match l with
  | [] => mret ([], vacant, released)
  | entry :: l =>
      let keep reserved vacant released entry :=
        '(l, vacant, released) ← release_loop l (S index) ceiling headroom reserved vacant released;
        mret (entry :: l, vacant, released) in
      total ← lift (add_u64 reserved headroom);
      if total <=? ceiling then mret (entry :: l, vacant, released)
      else
        match entry with
        | None => keep reserved vacant released None
        | Some s =>
            free ← slice_is_free s;
            if negb free then keep reserved vacant released (Some s)
            else
              _ ← (if mapped s then dealloc (storage_id (slice_storage s)) else mret tt);
              _ ← on_failures (clear (tainted s));
              eff ← lift (effective_size s);
              reserved ← lift (sub_u64 reserved eff);
              _ ← slice_drop s;
              keep reserved (vacant ++ [index]) true None
        end
  end.
Definition release_free (p : DirectPool) (headroom : Z) : M (World St) (bool * DirectPool) :=
  match reclaim_at p with
  | None => mret (false, p)
  | Some ceiling =>
      reserved ← lift (direct_reserved p);
      total ← lift (add_u64 reserved headroom);
      if total <=? ceiling then mret (false, p)
      else
        '(l, vacant, released) ←
          release_loop (direct_slices p) 0 ceiling headroom reserved (vacant p) false;
        mret (released, with_entries l vacant p)
  end.
Definition reclaim (p : DirectPool) : M (World St) (bool * DirectPool) := release_free p 0.

(** [impl MemoryPool for DirectPool] *)
Definition direct_find (p : DirectPool) (binding : ManagedMemoryId) :
    M (World St) (result Slice IoError) :=
  location ← on_memory (location binding);
  mret (match direct_slices p !! Z.to_nat (Handle.slice location) with
        | Some (Some s) => Ok s
        | _ => Err (NotFound "Memory slice doesn't exist")
        end).

(** The search of [try_reserve]: the first free slice of the size. *)
Fixpoint find_exact (effective : Z) (l : list DirectEntry) (index : nat) :
    M (World St) (option (nat * Slice)) :=
  match l with
  | [] => mret None
  | None :: l => find_exact effective l (S index)
  | Some s :: l =>
      free ← slice_is_free s;
      if free : bool then
        eff ← lift (effective_size s);
        if eff =? effective then mret (Some (index, s)) else find_exact effective l (S index)
      else find_exact effective l (S index)
  end.
Definition direct_try_reserve (p : DirectPool) (size : Z) :
    M (World St) (option ManagedMemoryId * DirectPool) :=
  padding ← lift (calculate_padding size (direct_alignment p));
  effective ← lift (add_u64 size padding);
  found ← find_exact effective (direct_slices p) 0;
  match found with
  | None => mret (None, p)
  | Some (index, s) =>
      let s := with_padding padding
                 (with_slice_storage (with_utilization (mk_StorageUtilization 0 size) (slice_storage s)) s) in
      _ ← on_memory (handle_clone (handle s));
      let p := with_entries (<[index := Some s]> (direct_slices p)) (vacant p) p in
      mret (Some (handle s), with_direct_marks (direct_peak p) (Z.max (direct_largest p) size) p)
  end.

Definition direct_alloc (p : DirectPool) (size : Z) (mapping : PageMapping) :
    M (World St) (result ManagedMemoryId IoError * DirectPool) :=
  padding ← lift (calculate_padding size (direct_alignment p));
  effective ← lift (add_u64 size padding);
  r ← mapping_storage_handle mapping effective;
  match r with
  | Err e => mret (Err e, p)
  | Ok storage_handle =>
      s ← slice_new storage_handle padding;
      let s := with_mapped (bool_decide (mapping = Eager)) s in
      let s := with_slice_storage (with_utilization (mk_StorageUtilization 0 size) (slice_storage s)) s in
      let '(index, l, v) := match vec_pop (vacant p) with
                            | Some (index, v) => (index, direct_slices p, v)
                            | None => (length (direct_slices p), direct_slices p ++ [None], [])
                            end in
      _ ← on_memory (update_location (handle s)
            (with_slice (as_u32 (Z.of_nat index)) (direct_base p)));
      _ ← on_memory (handle_clone (handle s));
      _ ← lift (l !! index);
      let p := with_entries (<[index := Some s]> l) v p in
      mret (Ok (handle s), with_direct_marks
              (Z.max (direct_peak p) (Z.of_nat (length (direct_live p))))
              (Z.max (direct_largest p) size) p)
  end.
Definition direct_reserve (p : DirectPool) (size : Z) (mapping : PageMapping) :
    M (World St) (result ManagedMemoryId IoError * DirectPool) :=
  '(r, p) ← direct_try_reserve p size;
  match r with
  | Some handle => mret (Ok handle, p)
  | None => direct_alloc p size mapping
  end.

Definition direct_materialize (p : DirectPool) (binding : ManagedMemoryId) :
    M (World St) (result unit IoError * DirectPool) :=
  location ← on_memory (location binding);
  let index := Z.to_nat (Handle.slice location) in
  match direct_slices p !! index with
  | Some (Some s) =>
      if mapped s || negb (bool_decide (handle s = binding)) then mret (Ok tt, p)
      else
        '(r, s) ← slice_materialize s;
        mret (r, with_entries (<[index := Some s]> (direct_slices p)) (vacant p) p)
  | _ => mret (Ok tt, p)
  end.

(** The guard of an allocation is a binding of its handle. *)
Definition direct_guard (p : DirectPool) (location : MemoryLocation) :
    M (World St) (option ManagedMemoryId) :=
  match direct_slices p !! Z.to_nat (Handle.slice location) with
  | Some (Some s) =>
      _ ← on_memory (handle_clone (handle s)); _ ← on_memory (binding (handle s));
      mret (Some (handle s))
  | _ => mret None
  end.

Fixpoint direct_usage_of (l : list Slice) (usage : MemoryUsage) : M (World St) MemoryUsage :=
  match l with
  | [] => mret usage
  | s :: l =>
      free ← slice_is_free s;
      eff ← lift (effective_size s);
      reserved ← lift (add_u64 (bytes_reserved usage) eff);
      if free : bool then
        direct_usage_of l (mk_MemoryUsage (number_allocs usage) (bytes_in_use usage)
                             (bytes_padding usage) reserved)
      else
        in_use ← lift (add_u64 (bytes_in_use usage) (slice_size s));
        padding ← lift (add_u64 (bytes_padding usage) (padding s));
        direct_usage_of l (mk_MemoryUsage (number_allocs usage + 1) in_use padding reserved)
  end.
Definition direct_usage (p : DirectPool) : M (World St) MemoryUsage :=
  direct_usage_of (direct_live p) (mk_MemoryUsage 0 0 0 0).
Definition direct_report (p : DirectPool) : M (World St) MemoryPoolReport :=
  usage ← direct_usage p;
  mret (mk_MemoryPoolReport KindDirect usage (Z.of_nat (length (direct_live p))) (direct_peak p)
          (Z.of_nat (length (filter (λ s, mapped s = false) (direct_live p)))) (direct_largest p)).

(** The loop of [cleanup]. *)
Fixpoint cleanup_loop (l : list DirectEntry) (index : nat) (vacant : list nat) :
    M (World St) (list DirectEntry * list nat) :=
  match l with
  | [] => mret ([], vacant)
  | entry :: l =>
      let keep vacant entry :=
        '(l, vacant) ← cleanup_loop l (S index) vacant; mret (entry :: l, vacant) in
      match entry with
      | None => keep vacant None
      | Some s =>
          free ← slice_is_free s;
          if negb free then keep vacant (Some s)
          else
            _ ← (if mapped s then dealloc (storage_id (slice_storage s)) else mret tt);
            _ ← on_failures (clear (tainted s));
            _ ← slice_drop s;
            keep (vacant ++ [index]) None
      end
  end.
Definition direct_cleanup (p : DirectPool) (cleanup : Cleanup) : M (World St) DirectPool :=
  if decide (cleanup = Periodic) then mret p
  else '(l, v) ← cleanup_loop (direct_slices p) 0 (vacant p); mret (with_entries l v p).

(** An error drops both handles it was given.  The cursor is not used. *)
Definition direct_bind (p : DirectPool) (reserved assigned : ManagedMemoryId) (_cursor : Z) :
    M (World St) (result unit IoError * DirectPool) :=
  location_ ← on_memory (location reserved);
  let index := Z.to_nat (Handle.slice location_) in
  match direct_slices p !! index with
  | Some (Some s) =>
      _ ← on_memory (update_location assigned location_);
      s ← slice_bind s assigned;
      _ ← on_memory (handle_drop reserved);
      mret (Ok tt, with_entries (<[index := Some s]> (direct_slices p)) (vacant p) p)
  | _ =>
      _ ← on_memory (handle_drop reserved); _ ← on_memory (handle_drop assigned);
      mret (Err (NotFound "Memory slice doesn't exist"), p)
  end.
End direct.

(** ** The invariant of a direct pool *)
Definition slice_id (s : Slice) : StorageId := storage_id (slice_storage s).

Record entry_ok (m : Memory) (p : DirectPool) (i : nat) (s : Slice) : Prop := mk_entry_ok {
  entry_slot : slot m (direct_base p) (Z.of_nat i) (handle s);
  entry_offset : slice_offset s = 0;
  entry_sizes : 0 <= slice_size s ∧ 0 <= padding s ∧ eff s <= u64_max;
  entry_aligned : (direct_alignment p | eff s);
}.

(** Every slice owns its device allocation, of the size [need] says; one that
    is not mapped owns none yet. *)
Record owns {St} `{ComputeStorage St} (need : Slice → Z) (w : World St) (l : list Slice) : Prop := mk_owns {
  dev_ids : NoDup (slice_id <$> l);
  dev_known : Forall (λ s, slice_id s < storage_ids w) l;
  dev_held : Forall (λ s, held (storage w) !! slice_id s = if mapped s then Some (need s) else None) l;
}.
(** In a direct pool, as large as the slice with its padding. *)
Abbreviation device_ok := (owns eff).

Record direct_inv {St} `{ComputeStorage St} (w : World St) (p : DirectPool) : Prop := mk_direct_inv {
  dir_memory : memory_wf (memory w);
  dir_entries i s : direct_slices p !! i = Some (Some s) → entry_ok (memory w) p i s;
  dir_distinct : NoDup (handles_of (direct_live p));
  dir_taints : covered (failures w) (taints_of (direct_live p));
  dir_vacant : NoDup (vacant p) ∧ ∀ i, i ∈ vacant p ↔ direct_slices p !! i = Some None;
  dir_base : location_ok (direct_base p) ∧ init (direct_base p) = 1;
  dir_alignment : 0 < direct_alignment p;
  dir_count : Z.of_nat (length (direct_slices p)) <= u32_max + 1;
  dir_device : device_ok w (direct_live p);
}.

(** ** Lists of entries *)
Lemma live_insert (l : list DirectEntry) i e s :
  l !! i = Some e → omap id (<[i := Some s]> l) ≡ₚ s :: omap id (<[i := None]> l).
Proof.
  intros Hi. pose proof (take_drop_middle l i e Hi) as Hl.
  assert (i < length l)%nat as Hlt by by eapply lookup_lt_Some.
  rewrite !insert_take_drop by done. rewrite !omap_app. cbn. by rewrite Permutation_middle.
Qed.
Lemma live_remove (l : list DirectEntry) i s :
  l !! i = Some (Some s) → omap id l ≡ₚ s :: omap id (<[i := None]> l).
Proof. intros Hi. by rewrite <- (live_insert l i (Some s)), list_insert_id. Qed.
Lemma live_tombstone (l : list DirectEntry) i : l !! i = Some None → <[i := None]> l = l.
Proof. apply list_insert_id. Qed.
Lemma live_elem (l : list DirectEntry) s : s ∈ omap id l ↔ ∃ i, l !! i = Some (Some s).
Proof.
  rewrite list_elem_of_omap. split.
  - intros (e & [i Hi]%list_elem_of_lookup & He). cbn in He. subst e. by exists i.
  - intros [i Hi]. exists (Some s). split; [by eapply list_elem_of_lookup_2|done].
Qed.

Lemma device_ok_perm {St} `{ComputeStorage St} need (w : World St) l l' :
  l ≡ₚ l' → owns need w l → owns need w l'.
Proof. intros Hp [? ? ?]. split; by rewrite <- Hp. Qed.
Lemma device_ok_cons {St} `{ComputeStorage St} need (w : World St) s l :
  owns need w (s :: l) ↔ (slice_id s ∉ slice_id <$> l) ∧ slice_id s < storage_ids w ∧
    held (storage w) !! slice_id s = (if mapped s then Some (need s) else None) ∧ owns need w l.
Proof.
  split.
  - intros [[? ?]%NoDup_cons [? ?]%Forall_cons [? ?]%Forall_cons]. done.
  - intros (? & ? & ? & [? ? ?]). split; [by apply NoDup_cons|by constructor..].
Qed.
Lemma device_ok_held {St} `{ComputeStorage St} need (w w' : World St) l :
  storage_ids w <= storage_ids w' →
  (∀ id, id ∈ slice_id <$> l → held (storage w') !! id = held (storage w) !! id) →
  owns need w l → owns need w' l.
Proof.
  intros Hids Hh [Hnd Hk Hd]. split; [done| |].
  - eapply Forall_impl; [exact Hk|]. cbn. lia.
  - apply Forall_forall. intros s Hs. pose proof (proj1 (Forall_forall _ _) Hd s Hs) as H1.
    cbn in H1. rewrite <- H1. apply Hh. by apply list_elem_of_fmap_2.
Qed.

(** A handle cloned from a slice is live. *)
Lemma freed_clone m m' base k id :
  memory_wf m → slot m base k id → counts m' id = (λ c, (c.1 + 1, c.2)) <$> counts m id →
  freed m' id = false.
Proof.
  intros Hm (d & Hd & _ & Hd1) Hcounts. unfold freed, counts in *. rewrite Hd in Hcounts.
  destruct (descriptors m' !! id) as [d'|]; [|done]. cbn in Hcounts. injection Hcounts as Hh Hb.
  pose proof (proj2 Hm _ _ Hd). unfold is_free. rewrite Hh, Hb. apply Z.leb_gt. cbn. lia.
Qed.

(** A fresh handle that is given a place and cloned for its client. *)
Definition placed_new (m : Memory) (base : MemoryLocation) (k : Z) (m' : Memory) : Prop :=
  evolve [] [] m m' ∧ slot m' base k (COUNTER m) ∧ freed m' (COUNTER m) = false.
Lemma wp_place_new m base k :
  memory_wf m → COUNTER m < u64_max → location_ok base → 0 <= k <= u32_max →
  wp handle_new m (λ id m2, id = COUNTER m ∧
    wp (update_location id (with_slice k base)) m2 (λ _ m3,
      wp (handle_clone id) m3 (λ _ m4, placed_new m base k m4))).
Proof.
  intros Hm Hc Hb Hk. eapply wp_new_owner; [done|done|]. intros m2 Hev2 Hc2 Hnew. split; [done|].
  pose proof (ev_wf _ _ _ _ Hev2 Hm) as Hm2.
  eapply (wp_slot_update_location _ _ Hm2 base k); [exact Hnew|done|done|done|].
  intros m3 Hev3 Hc3 Hslot3. pose proof (ev_wf _ _ _ _ Hev3 Hm2) as Hm3.
  eapply wp_clone_owner; [exact Hm3|exact Hslot3|]. intros m4 Hev4 Hc4 Hslot4 Hcounts4.
  split; [|split; [done|by eapply (freed_clone m3)]].
  eapply evolve_weaken, evolve_trans, evolve_trans; [| |exact Hev2|exact Hev3|exact Hev4];
    intros id Hlt; cbn; rewrite ?app_nil_r; intros Hin; set_unfold in Hin; lia.
Qed.

Section direct_specs.
Context {St : Type} `{ComputeStorageLaws St}.
Implicit Types (w : World St) (p : DirectPool).

(** ** Giving slices back *)
Definition give_slice (h : gmap StorageId Z) (s : Slice) : gmap StorageId Z :=
  if mapped s then delete (slice_id s) h else h.
Definition give_slices (h : gmap StorageId Z) (gone : list Slice) : gmap StorageId Z :=
  foldl give_slice h gone.

(** From [p] to [p'] the slices [gone], all free, were given back. *)
Record gave w w' p p' (gone : list Slice) : Prop := mk_gave {
  gv_inv : direct_inv w' p';
  gv_ok : storage_ok w';
  gv_perm : direct_live p ≡ₚ gone ++ direct_live p';
  gv_free : Forall (λ s, freed (memory w) (handle s) = true) gone;
  gv_frame s : s ∈ direct_live p' → freed (memory w') (handle s) = freed (memory w) (handle s);
  gv_held : held (storage w') = give_slices (held (storage w)) gone;
  gv_same : p' = with_entries (direct_slices p') (vacant p') p;
  gv_length : length (direct_slices p') = length (direct_slices p);
  gv_entries i e : direct_slices p' !! i = Some (Some e) → direct_slices p !! i = Some (Some e);
  gv_steps : steps (direct_live p) (direct_live p') w w';
  gv_counter : COUNTER (memory w') = COUNTER (memory w);
}.

Lemma gave_refl w p : direct_inv w p → storage_ok w → gave w w p p [].
Proof. intros Hinv Hok. split; try done; [by destruct p|apply steps_refl]. Qed.

Lemma direct_known w p : direct_inv w p → known (memory w) (direct_live p).
Proof.
  intros Hinv id (s & -> & (i & Hi)%live_elem)%list_elem_of_fmap.
  eapply slot_known; [apply (dir_memory _ _ Hinv)|apply (entry_slot _ _ _ _ (dir_entries _ _ Hinv i s Hi))].
Qed.

Lemma gave_trans w w1 w2 p p1 p2 g1 g2 :
  direct_inv w p → gave w w1 p p1 g1 → gave w1 w2 p1 p2 g2 → gave w w2 p p2 (g1 ++ g2).
Proof.
  intros Hinv H1 H2. split.
  - apply (gv_inv _ _ _ _ _ H2).
  - apply (gv_ok _ _ _ _ _ H2).
  - rewrite (gv_perm _ _ _ _ _ H1), (gv_perm _ _ _ _ _ H2). by rewrite app_assoc.
  - apply Forall_app. split; [apply (gv_free _ _ _ _ _ H1)|].
    apply Forall_forall. intros s Hs. rewrite <- (gv_frame _ _ _ _ _ H1).
    + by apply (proj1 (Forall_forall _ _) (gv_free _ _ _ _ _ H2)).
    + rewrite (gv_perm _ _ _ _ _ H2). apply elem_of_app. by left.
  - intros s Hs. rewrite (gv_frame _ _ _ _ _ H2) by done. apply (gv_frame _ _ _ _ _ H1).
    rewrite (gv_perm _ _ _ _ _ H2). apply elem_of_app. by right.
  - unfold give_slices. rewrite foldl_app, (gv_held _ _ _ _ _ H2), (gv_held _ _ _ _ _ H1). done.
  - rewrite (gv_same _ _ _ _ _ H2), (gv_same _ _ _ _ _ H1). done.
  - by rewrite (gv_length _ _ _ _ _ H2), (gv_length _ _ _ _ _ H1).
  - intros i e He. by apply (gv_entries _ _ _ _ _ H1), (gv_entries _ _ _ _ _ H2).
  - eapply steps_trans; [by apply direct_known|apply (gv_steps _ _ _ _ _ H1)|apply (gv_steps _ _ _ _ _ H2)].
  - by rewrite (gv_counter _ _ _ _ _ H2), (gv_counter _ _ _ _ _ H1).
Qed.

(** One slice given back: its allocation, its claims, then its handle. *)
Lemma wp_give_slice s w (Q : unit → World St → Prop) :
  storage_ok w →
  (∀ w', storage_ok w' → memory w' = memory w → failures w' = failures w →
     storage_ids w' = storage_ids w → held (storage w') = give_slice (held (storage w)) s → Q tt w') →
  wp (if mapped s then dealloc (storage_id (slice_storage s)) else mret tt) w Q.
Proof.
  intros Hok HQ. unfold give_slice in HQ. destruct (mapped s); [|by apply wp_ret, HQ].
  destruct (storage_dealloc_ok (storage_id (slice_storage s)) w Hok) as (st' & Hd & Hok' & Hh).
  unfold dealloc. apply wp_bind, wp_gets. apply wp_bind. eapply wp_lift; [exact Hd|].
  apply wp_modify. by apply HQ.
Qed.

Lemma give_slice_other h s id : id ≠ slice_id s → give_slice h s !! id = h !! id.
Proof. intros Hne. unfold give_slice. destruct (mapped s); [|done]. by apply lookup_delete_ne. Qed.

Definition without (i : nat) p : DirectPool :=
  with_entries (<[i := None]> (direct_slices p)) (vacant p ++ [i]) p.

Lemma gave_one w w1 g m p i s :
  direct_inv w p → direct_slices p !! i = Some (Some s) → freed (memory w) (handle s) = true →
  storage_ok w1 → memory w1 = memory w → failures w1 = failures w → storage_ids w1 = storage_ids w →
  held (storage w1) = give_slice (held (storage w)) s →
  released (failures w) g [tainted s] → evolve [] [handle s] (memory w) m →
  COUNTER m = COUNTER (memory w) →
  gave w (mk_World m g (storage_ids w1) (storage w1)) p (without i p) [s].
Proof.
  intros Hinv Hi Hfree Hok1 Hm1 Hf1 Hids1 Hh1 Hrel Hev Hcount.
  pose proof Hinv as [Hm He Hnd Ht [Hvn Hv] Hb Ha Hc Hdev].
  pose proof (live_remove _ _ _ Hi) as Hperm.
  assert (direct_live p ≡ₚ s :: direct_live (without i p)) as Hp by exact Hperm.
  pose proof (direct_known _ _ Hinv) as Hknown.
  assert (handle s ∉ handles_of (direct_live (without i p)) ∧ NoDup (handles_of (direct_live (without i p))))
    as [Hs Hnd'].
  { unfold handles_of in *. rewrite Hp in Hnd. by apply NoDup_cons in Hnd. }
  assert (∀ j t, direct_slices (without i p) !! j = Some (Some t) → j ≠ i ∧ direct_slices p !! j = Some (Some t))
    as Hother.
  { intros j t Hj. cbn in Hj. destruct (decide (i = j)) as [->|Hne].
    - rewrite list_lookup_insert_eq in Hj by (by eapply lookup_lt_Some). done.
    - rewrite list_lookup_insert_ne in Hj by done. done. }
  assert (∀ j t, direct_slices (without i p) !! j = Some (Some t) → handle t ∉ [handle s]) as Hne.
  { intros j t Hj Heq%list_elem_of_singleton. apply Hs. rewrite <- Heq.
    apply handle_in, live_elem. by exists j. }
  assert (∀ o, covered (failures w) (o ++ taints_of (direct_live p)) →
    covered g (o ++ taints_of (direct_live (without i p)))) as Hcov.
  { intros o Ho. eapply covered_released, Hrel. eapply covered_perm, Ho.
    unfold taints_of. rewrite Hp. cbn. by rewrite <- Permutation_middle. }
  assert (device_ok (mk_World m g (storage_ids w1) (storage w1)) (direct_live (without i p))) as Hdev'.
  { eapply (device_ok_perm _ _ _ _ Hp) in Hdev. apply device_ok_cons in Hdev as (Hni & _ & _ & Hdev).
    eapply device_ok_held, Hdev; cbn; [lia|]. intros id Hid. rewrite Hh1.
    apply give_slice_other. by intros ->. }
  split; try done.
  - split; try done; cbn.
    + by apply (ev_wf _ _ _ _ Hev).
    + intros j t Hj. destruct (Hother j t Hj) as [Hji Hj']. destruct (He j t Hj') as [Hsl ? ? ?].
      split; try done. cbn. eapply slot_evolve; [exact Hm|exact Hev|done|apply not_elem_of_nil|by eapply Hne].
    + apply (Hcov []). done.
    + split.
      * apply NoDup_app. split_and!; [done| |apply NoDup_singleton].
        intros j Hj ->%list_elem_of_singleton. apply Hv in Hj. congruence.
      * intros j. rewrite elem_of_app, list_elem_of_singleton, Hv.
        destruct (decide (i = j)) as [->|Hij].
        -- rewrite list_lookup_insert_eq by (by eapply lookup_lt_Some). tauto.
        -- rewrite list_lookup_insert_ne by done. split; [intros [?|?]; congruence|by left].
    + by rewrite length_insert.
  - eapply storage_ok_same; [exact Hok1|done|done].
  - by repeat constructor.
  - intros t (j & Hj)%live_elem. apply freed_counts, (ev_counts _ _ _ _ Hev); [|by eapply Hne].
    apply Hknown, handle_in, live_elem. exists j. by apply Hother.
  - cbn. by rewrite length_insert.
  - intros j e Hj. by apply Hother.
  - split; cbn.
    + eapply evolve_weaken, Hev; cbn.
      * intros id _ ?%not_elem_of_nil; done.
      * intros id _ ->%list_elem_of_singleton. apply handle_in, live_elem. by exists i.
    + intros id Hid. left. unfold handles_of in *. rewrite Hp. cbn. by right.
    + exact Hcov.
Qed.

Lemma wp_shed_one p i s w w1 (Q : Taint → World St → Prop) :
  direct_inv w p → direct_slices p !! i = Some (Some s) → failures w1 = failures w →
  (∀ g, released (failures w) g [tainted s] → Q taint_default (with_failures g w1)) →
  wp (on_failures (clear (tainted s))) w1 Q.
Proof.
  intros Hinv Hi Hf HQ. apply wp_on_failures. rewrite Hf.
  eapply (wp_clear_released _ (taints_of (omap id (<[i := None]> (direct_slices p))))).
  - eapply covered_perm, (dir_taints _ _ Hinv). unfold taints_of, direct_live.
    by rewrite (live_remove _ _ _ Hi).
  - intros g Hg _. by apply HQ.
Qed.
Lemma wp_drop_one p i s w w1 (Q : unit → World St → Prop) :
  direct_inv w p → direct_slices p !! i = Some (Some s) → memory w1 = memory w →
  (∀ m, evolve [] [handle s] (memory w) m → COUNTER m = COUNTER (memory w) →
     Q tt (with_memory m w1)) →
  wp (slice_drop s) w1 Q.
Proof.
  intros Hinv Hi Hm HQ. apply wp_on_memory. rewrite Hm.
  destruct (entry_slot _ _ _ _ (dir_entries _ _ Hinv i s Hi)) as (d & Hd & _ & Hh).
  eapply wp_drop_owner; [apply (dir_memory _ _ Hinv)|done|done|]. by apply HQ.
Qed.
Lemma wp_entry_is_free p i s w (Q : bool → World St → Prop) :
  direct_inv w p → direct_slices p !! i = Some (Some s) →
  Q (freed (memory w) (handle s)) w → wp (slice_is_free s) w Q.
Proof.
  intros Hinv Hi HQ. destruct (entry_slot _ _ _ _ (dir_entries _ _ Hinv i s Hi)) as (d & Hd & _).
  apply wp_on_memory. eapply wp_handle_is_free; [done|]. unfold freed in HQ. rewrite Hd in HQ.
  by destruct w.
Qed.

Lemma wp_cleanup_loop l done_ p w :
  direct_slices p = done_ ++ l → direct_inv w p → storage_ok w →
  wp (cleanup_loop l (length done_) (vacant p)) w (λ '(l', v) w', ∃ gone,
    gave w w' p (with_entries (done_ ++ l') v p) gone ∧
    Forall (λ s, freed (memory w') (handle s) = false) (omap id l')).
Proof.
  revert done_ p w. induction l as [|e l IH]; intros done_ p w Hl Hinv Hok; cbn [cleanup_loop].
  { apply wp_ret. exists []. split; [|constructor]. rewrite app_nil_r in *.
    replace (with_entries done_ (vacant p) p) with p by (rewrite <- Hl; by destruct p).
    by apply gave_refl. }
  assert (direct_slices p = (done_ ++ [e]) ++ l) as Hl' by (by rewrite <- app_assoc).
  assert (direct_slices p !! length done_ = Some e) as Hi by (rewrite Hl; apply lookup_middle).
  assert (∀ w1 p1 e' g1, direct_slices p1 = (done_ ++ [e']) ++ l →
    gave w w1 p p1 g1 → (∀ s, e' = Some s → freed (memory w1) (handle s) = false) →
    wp ('(l, vacant) ← cleanup_loop l (S (length done_)) (vacant p1); mret (e' :: l, vacant)) w1
      (λ '(l', v) w', ∃ gone, gave w w' p (with_entries (done_ ++ l') v p) gone ∧
        Forall (λ s, freed (memory w') (handle s) = false) (omap id l'))) as Hrest.
  { intros w1 p1 e' g1 Hp1 Hg1 He'. apply wp_bind.
    specialize (IH (done_ ++ [e']) p1 w1 Hp1 (gv_inv _ _ _ _ _ Hg1) (gv_ok _ _ _ _ _ Hg1)).
    rewrite length_app, Nat.add_1_r in IH. eapply wp_mono; [exact IH|].
    intros [l' v] w' (gone & Hg2 & Hall). apply wp_ret. exists (g1 ++ gone).
    rewrite <- app_assoc in Hg2. cbn [app] in Hg2.
    assert (with_entries (done_ ++ e' :: l') v p1 = with_entries (done_ ++ e' :: l') v p) as Heq.
    { rewrite (gv_same _ _ _ _ _ Hg1). done. }
    split.
    - rewrite <- Heq. by eapply gave_trans.
    - destruct e' as [s|]; cbn; [|done]. constructor; [|done].
      rewrite (gv_frame _ _ _ _ _ Hg2); [by apply He'|]. apply live_elem.
      exists (length done_). cbn. apply lookup_middle. }
  destruct e as [s|]; [|by eapply Hrest; [|by apply gave_refl|]].
  apply wp_bind. eapply wp_entry_is_free; [done|done|].
  destruct (freed (memory w) (handle s)) eqn:Hfree; cbn [negb];
    [|eapply Hrest; [done|by apply gave_refl|by intros ? [= <-]]].
  apply wp_bind, wp_give_slice; [done|]. intros w1 Hok1 Hm1 Hf1 Hids1 Hh1.
  apply wp_bind. eapply wp_shed_one; [done|done|done|]. intros g Hg.
  apply wp_bind. eapply wp_drop_one; [done|done|done|]. intros m Hev Hc.
  apply (Hrest _ (without (length done_) p) None [s]).
  - cbn. rewrite Hl, insert_middle. by rewrite <- app_assoc.
  - apply (gave_one w w1); done.
  - done.
Qed.

Lemma effs_perm l l' : l ≡ₚ l' → effs l = effs l'.
Proof.
  induction 1 as [|s l l' _ IH|s t l|l1 l2 l3 _ IH1 _ IH2]; [done|..]; rewrite ?effs_cons in *; lia.
Qed.
Lemma direct_eff w p s : direct_inv w p → s ∈ direct_live p → 0 <= eff s <= u64_max.
Proof.
  intros Hinv (i & Hi)%live_elem. destruct (entry_sizes _ _ _ _ (dir_entries _ _ Hinv i s Hi)) as (?&?&?).
  unfold eff in *. lia.
Qed.
Lemma direct_effs_nonneg w p : direct_inv w p → 0 <= effs (direct_live p).
Proof.
  intros Hinv. apply sum_Z_nonneg, Forall_fmap, Forall_forall. intros s Hs.
  cbn. apply (direct_eff _ _ _ Hinv) in Hs. lia.
Qed.
Lemma effective_size_eff w p i s :
  direct_inv w p → direct_slices p !! i = Some (Some s) → effective_size s = Some (eff s).
Proof.
  intros Hinv Hi. apply add_u64_Some. apply (entry_sizes _ _ _ _ (dir_entries _ _ Hinv i s Hi)).
Qed.

(** What a search for room under the ceiling leaves in the entries [l] it
    looks at: enough room, or nothing free; no entry given back after one that
    is kept and free; and the last one given back was needed. *)
Definition made_room (m : Memory) (ceiling headroom : Z) (l l' : list DirectEntry) p'
    (gone : list Slice) : Prop :=
  (effs (direct_live p') + headroom <= ceiling ∨
   Forall (λ s, freed m (handle s) = false) (omap id l')) ∧
  (∀ i j s s', l' !! i = Some (Some s) → freed m (handle s) = true →
     l !! j = Some (Some s') → l' !! j = Some None → (j < i)%nat) ∧
  (∀ s, last gone = Some s → ceiling < effs (direct_live p') + eff s + headroom).

Lemma made_room_cons m ceiling headroom e e' l l' p' gone gone' :
  made_room m ceiling headroom l l' p' gone →
  (∀ s, e' = Some s → freed m (handle s) = false) → (e' = e ∨ e' = None) →
  gone' = gone ∨ (∃ s, gone' = s :: gone ∧ (gone = [] → ceiling < effs (direct_live p') + eff s + headroom)) →
  made_room m ceiling headroom (e :: l) (e' :: l') p' gone'.
Proof.
  intros (Hroom & Hord & Hlast) He' Hee Hgone. split_and!.
  - destruct Hroom as [?|Hall]; [by left|right]. destruct e' as [s|]; cbn; [|done].
    constructor; [by apply He'|done].
  - intros [|i] [|j] s s' Hi Hf Hj Hj'; cbn in *; try lia.
    + destruct Hee as [->| ->]; congruence.
    + injection Hi as ->. rewrite He' in Hf by done. done.
    + enough (j < i)%nat by lia. eauto.
  - intros s Hs. destruct Hgone as [->|(t & -> & Ht)]; [by apply Hlast|].
    destruct gone as [|u gone]; [injection Hs as <-; by apply Ht|by apply Hlast].
Qed.

Lemma wp_release_loop ceiling headroom l done_ p w released :
  direct_slices p = done_ ++ l → direct_inv w p → storage_ok w →
  0 <= headroom → effs (direct_live p) + headroom <= u64_max →
  wp (release_loop l (length done_) ceiling headroom (effs (direct_live p)) (vacant p) released) w
    (λ '(l', v, r) w', ∃ gone,
      gave w w' p (with_entries (done_ ++ l') v p) gone ∧
      r = released || bool_decide (gone ≠ []) ∧
      made_room (memory w') ceiling headroom l l' (with_entries (done_ ++ l') v p) gone).
Proof.
  intros Hl Hinv Hok Hh. revert done_ p w released Hl Hinv Hok.
  induction l as [|e l IH]; intros done_ p w released Hl Hinv Hok Hb; cbn [release_loop].
  { apply wp_ret. exists []. rewrite app_nil_r in *.
    replace (with_entries done_ (vacant p) p) with p by (rewrite <- Hl; by destruct p).
    split; [by apply gave_refl|]. split; [by rewrite orb_false_r|].
    split_and!; [right; constructor|by intros ? ? ? ? ?|done]. }
  assert (direct_slices p = (done_ ++ [e]) ++ l) as Hl' by (by rewrite <- app_assoc).
  assert (direct_slices p !! length done_ = Some e) as Hi by (rewrite Hl; apply lookup_middle).
  apply wp_bind. eapply wp_lift; [by apply add_u64_Some|].
  destruct (Z.leb_spec (effs (direct_live p) + headroom) ceiling) as [Hle|Hover].
  { apply wp_ret. exists [].
    replace (with_entries (done_ ++ e :: l) (vacant p) p) with p by (rewrite <- Hl; by destruct p).
    split; [by apply gave_refl|]. split; [by rewrite orb_false_r|].
    split_and!; [by left| |done]. intros i j s s' _ _ Hj Hj'. congruence. }
  assert (∀ w1 p1 e' g1 released', direct_slices p1 = (done_ ++ [e']) ++ l →
    gave w w1 p p1 g1 → (∀ s, e' = Some s → freed (memory w1) (handle s) = false) →
    (e' = e ∧ g1 = [] ∧ released' = released ∨
     ∃ s, e = Some s ∧ e' = None ∧ g1 = [s] ∧ released' = true) →
    effs (direct_live p1) + headroom <= u64_max →
    wp ('(l, vacant, released) ←
          release_loop l (S (length done_)) ceiling headroom (effs (direct_live p1)) (vacant p1) released';
        mret (e' :: l, vacant, released)) w1
      (λ '(l', v, r) w', ∃ gone, gave w w' p (with_entries (done_ ++ l') v p) gone ∧
        r = released || bool_decide (gone ≠ []) ∧
        made_room (memory w') ceiling headroom (e :: l) l' (with_entries (done_ ++ l') v p) gone)) as Hrest.
  { intros w1 p1 e' g1 released' Hp1 Hg1 He' Hcase Hb1. apply wp_bind.
    specialize (IH (done_ ++ [e']) p1 w1 released' Hp1 (gv_inv _ _ _ _ _ Hg1) (gv_ok _ _ _ _ _ Hg1) Hb1).
    rewrite length_app, Nat.add_1_r in IH. eapply wp_mono; [exact IH|].
    intros [[l' v] r] w' (gone & Hg2 & Hr & Hroom). apply wp_ret. exists (g1 ++ gone).
    rewrite <- app_assoc in Hg2, Hroom. cbn [app] in Hg2, Hroom.
    assert (with_entries (done_ ++ e' :: l') v p1 = with_entries (done_ ++ e' :: l') v p) as Heq.
    { by rewrite (gv_same _ _ _ _ _ Hg1). }
    rewrite Heq in Hg2, Hroom. split; [by eapply gave_trans|].
    assert (∀ s, e' = Some s → freed (memory w') (handle s) = false) as He2.
    { intros s ->. rewrite (gv_frame _ _ _ _ _ Hg2); [by apply He'|]. apply live_elem.
      exists (length done_). cbn. apply lookup_middle. }
    destruct Hcase as [(-> & -> & ->)|(s & -> & -> & -> & ->)].
    - split; [done|]. eapply made_room_cons; [done|done|by left|by left].
    - split; [rewrite Hr; cbn; by rewrite orb_true_r|].
      eapply made_room_cons; [done|done|by right|]. right. exists s. split; [done|]. intros ->.
      pose proof (gv_perm _ _ _ _ _ Hg2) as Hp2. cbn [app] in Hp2.
      rewrite <- (effs_perm _ _ Hp2).
      pose proof (effs_perm _ _ (gv_perm _ _ _ _ _ Hg1)) as He1. cbn [app] in He1.
      rewrite effs_cons in He1. lia. }
  destruct e as [s|]; [|eapply Hrest; [done|by apply gave_refl|done|by left|done]].
  apply wp_bind. eapply wp_entry_is_free; [done|done|].
  destruct (freed (memory w) (handle s)) eqn:Hfree; cbn [negb];
    [|eapply Hrest; [done|by apply gave_refl|by intros ? [= <-]|by left|done]].
  apply wp_bind, wp_give_slice; [done|]. intros w1 Hok1 Hm1 Hf1 Hids1 Hh1.
  apply wp_bind. eapply wp_shed_one; [done|done|done|]. intros g Hg.
  pose proof (live_remove _ _ _ Hi) as Hperm. apply effs_perm in Hperm.
  rewrite effs_cons in Hperm. fold (direct_live p) in Hperm.
  pose proof (direct_eff w p s Hinv ltac:(apply live_elem; by eexists)) as Hes.
  assert (gave w w p p []) as Hg0 by by apply gave_refl.
  apply wp_bind. eapply wp_lift; [by eapply effective_size_eff|].
  apply wp_bind. eapply wp_lift.
  { apply sub_u64_Some. pose proof (direct_effs_nonneg w p Hinv).
    assert (0 <= effs (omap id (<[length done_ := None]> (direct_slices p)))); [|lia].
    apply sum_Z_nonneg, Forall_fmap, Forall_forall. intros t Ht. cbn.
    eapply (direct_eff w p t Hinv). unfold direct_live. rewrite (live_remove _ _ _ Hi). by right. }
  apply wp_bind. eapply wp_drop_one; [done|done|done|]. intros m Hev Hc.
  assert (effs (direct_live p) - eff s = effs (direct_live (without (length done_) p))) as Heffs.
  { change (direct_live (without (length done_) p)) with
      (omap id (<[length done_ := None]> (direct_slices p))). lia. }
  rewrite Heffs.
  apply (Hrest _ (without (length done_) p) None [s]).
  - cbn. rewrite Hl, insert_middle. by rewrite <- app_assoc.
  - apply (gave_one w w1); done.
  - done.
  - right. by exists s.
  - lia.
Qed.

Lemma sum_effective_eff w p l acc :
  direct_inv w p → (∀ s, s ∈ l → s ∈ direct_live p) → 0 <= acc → acc + effs l <= u64_max →
  sum_effective l acc = Some (acc + effs l).
Proof.
  intros Hinv. revert acc. induction l as [|s l IH]; intros acc Hin Ha Hb; cbn [sum_effective].
  { change (effs []) with 0. by rewrite Z.add_0_r. }
  rewrite effs_cons in *. pose proof (Hin s ltac:(by left)) as Hs.
  pose proof (direct_eff w p s Hinv Hs).
  assert (0 <= effs l).
  { apply sum_Z_nonneg, Forall_fmap, Forall_forall. intros t Ht. cbn.
    apply (direct_eff w p t Hinv), Hin. by right. }
  apply live_elem in Hs as [i Hi]. rewrite (effective_size_eff w p i s Hinv Hi). cbn [mbind option_bind].
  rewrite add_u64_Some by lia. cbn [mbind option_bind].
  rewrite IH; [f_equal; lia|intros t Ht; apply Hin; by right|lia|lia].
Qed.
Lemma gave_keeps_live w w' p p' gone :
  gave w w' p p' gone → keeps_live (memory w) (memory w') (direct_live p) (direct_live p').
Proof.
  intros Hg s Hs Hf. rewrite (gv_perm _ _ _ _ _ Hg) in Hs. apply elem_of_app in Hs as [Hs|Hs].
  - pose proof (proj1 (Forall_forall _ _) (gv_free _ _ _ _ _ Hg) s Hs) as Hfree. cbn in Hfree. congruence.
  - split; [done|]. by rewrite (gv_frame _ _ _ _ _ Hg).
Qed.

(** Returning slices to the driver.  Without a watermark nothing moves.
    With one, free slices go back in index order, only as long as the reserved
    bytes and the headroom exceed it: afterwards there is room or nothing free
    is left, no slice was given back after a free one that is kept, and the
    last one given back was needed.  What goes back is exactly the device
    allocations of the mapped ones, with their claims; every other slice, live
    or free, is where it was, and each index given back is vacant. *)
Theorem release_free_correct w p headroom :
  direct_inv w p → storage_ok w → 0 <= headroom → effs (direct_live p) + headroom <= u64_max →
  wp (release_free p headroom) w (λ '(released, p') w', ∃ gone,
    direct_inv w' p' ∧ storage_ok w' ∧
    keeps_live (memory w) (memory w') (direct_live p) (direct_live p') ∧
    direct_live p ≡ₚ gone ++ direct_live p' ∧
    Forall (λ s, freed (memory w) (handle s) = true) gone ∧
    held (storage w') = give_slices (held (storage w)) gone ∧
    released = bool_decide (gone ≠ []) ∧
    match reclaim_at p with
    | None => gone = []
    | Some ceiling =>
        made_room (memory w') ceiling headroom (direct_slices p) (direct_slices p') p' gone
    end).
Proof.
  intros Hinv Hok Hh Hb. unfold release_free.
  assert (∀ w' p' gone, gave w w' p p' gone →
    direct_inv w' p' ∧ storage_ok w' ∧
    keeps_live (memory w) (memory w') (direct_live p) (direct_live p') ∧
    direct_live p ≡ₚ gone ++ direct_live p' ∧
    Forall (λ s, freed (memory w) (handle s) = true) gone ∧
    held (storage w') = give_slices (held (storage w)) gone) as Hgave.
  { intros w' p' gone Hg. pose proof (gave_keeps_live _ _ _ _ _ Hg). by destruct Hg. }
  destruct (reclaim_at p) as [ceiling|].
  2: { apply wp_ret. exists [].
       destruct (Hgave w p [] ltac:(by apply gave_refl)) as (?&?&?&?&?&?). done. }
  pose proof (direct_effs_nonneg w p Hinv).
  apply wp_bind. eapply wp_lift.
  { unfold direct_reserved. apply (sum_effective_eff w p); [done|done|lia|lia]. }
  rewrite Z.add_0_l. apply wp_bind. eapply wp_lift; [by apply add_u64_Some|].
  destruct (Z.leb_spec (effs (direct_live p) + headroom) ceiling) as [Hle|Hover].
  - apply wp_ret. exists []. destruct (Hgave w p [] ltac:(by apply gave_refl)) as (?&?&?&?&?&?).
    split_and!; try done. split_and!; [by left| |done]. intros i j s s' _ _ Hj Hj'. congruence.
  - apply wp_bind. eapply wp_mono; [apply (wp_release_loop ceiling headroom _ [] p w false); done|].
    intros [[l' v] r] w' (gone & Hg & Hr & Hroom). apply wp_ret. exists gone.
    destruct (Hgave _ _ _ Hg) as (?&?&?&?&?&?). by split_and!.
Qed.

(** An explicit cleanup keeps nothing that is free, whatever the watermark. *)
Lemma wp_direct_cleanup w p :
  direct_inv w p → storage_ok w →
  wp (direct_cleanup p Explicit) w (λ p' w', ∃ gone,
    gave w w' p p' gone ∧ Forall (λ s, freed (memory w') (handle s) = false) (direct_live p')).
Proof.
  intros Hinv Hok. unfold direct_cleanup. rewrite decide_False by done.
  apply wp_bind. eapply wp_mono; [apply (wp_cleanup_loop _ [] p w); done|].
  intros [l' v] w' (gone & Hg & Hall). apply wp_ret. by exists gone.
Qed.

(** ** Reserving *)
Lemma wp_find_exact n l done_ p w (Q : option (nat * Slice) → World St → Prop) :
  direct_slices p = done_ ++ l → direct_inv w p →
  (Forall (λ s, freed (memory w) (handle s) = true → eff s ≠ n) (omap id l) → Q None w) →
  (∀ i s, direct_slices p !! i = Some (Some s) → freed (memory w) (handle s) = true → eff s = n →
     Q (Some (i, s)) w) →
  wp (find_exact n l (length done_)) w Q.
Proof.
  intros Hl Hinv. revert done_ Hl. induction l as [|e l IH]; intros done_ Hl Hno Hyes; cbn [find_exact].
  { apply wp_ret, Hno. constructor. }
  assert (direct_slices p = (done_ ++ [e]) ++ l) as Hl' by (by rewrite <- app_assoc).
  assert (direct_slices p !! length done_ = Some e) as Hi by (rewrite Hl; apply lookup_middle).
  specialize (IH (done_ ++ [e]) Hl'). rewrite length_app, Nat.add_1_r in IH.
  destruct e as [s|]; [|apply IH; [by intros; apply Hno|done]].
  apply wp_bind. eapply wp_entry_is_free; [done|done|].
  destruct (freed (memory w) (handle s)) eqn:Hf.
  - apply wp_bind. eapply wp_lift; [by eapply effective_size_eff|].
    destruct (Z.eqb_spec (eff s) n) as [Heq|Hne]; [by apply wp_ret, Hyes|].
    apply IH; [|done]. intros Hall. apply Hno. cbn. by constructor.
  - apply IH; [|done]. intros Hall. apply Hno. cbn. constructor; [congruence|done].
Qed.

Lemma live_insert_elem (l : list DirectEntry) i e s t :
  l !! i = Some e → (t ∈ omap id (<[i := Some s]> l) ↔ t = s ∨ t ∈ omap id (<[i := None]> l)).
Proof. intros Hi. rewrite (live_insert _ _ _ _ Hi). apply elem_of_cons. Qed.

Lemma wp_direct_find w p i s :
  direct_inv w p → direct_slices p !! i = Some (Some s) →
  wp (direct_find p (handle s)) w (λ f w', f = Ok s ∧ w' = w).
Proof.
  intros Hinv Hi. destruct (entry_slot _ _ _ _ (dir_entries _ _ Hinv i s Hi)) as (d & Hd & Hl & _).
  unfold direct_find. apply wp_bind, wp_on_memory. eapply wp_location; [done|]. apply wp_ret.
  rewrite Hl. cbn. rewrite Nat2Z.id, Hi. split; [done|]. by destruct w.
Qed.

(** The live slices other than the one at [i]. *)
Definition others p (i : nat) : list Slice := omap id (<[i := None]> (direct_slices p)).

Lemma others_live p i e : direct_slices p !! i = Some e → ∀ t, t ∈ others p i → t ∈ direct_live p.
Proof.
  intros Hi t (j & Hj)%live_elem. apply live_elem. exists j.
  destruct (decide (i = j)) as [->|Hne].
  - by rewrite list_lookup_insert_eq in Hj by (by eapply lookup_lt_Some).
  - by rewrite list_lookup_insert_ne in Hj.
Qed.
Lemma others_tombstone p i : direct_slices p !! i = Some None → others p i = direct_live p.
Proof. intros Hi. unfold others. by rewrite live_tombstone. Qed.

(** Putting a slice at an index. *)
Lemma direct_insert w w' p i e s v :
  direct_inv w p → direct_slices p !! i = Some e → memory_wf (memory w') →
  (∀ t base k, t ∈ others p i → slot (memory w) base k (handle t) → slot (memory w') base k (handle t)) →
  entry_ok (memory w') p i s → handle s ∉ handles_of (others p i) →
  covered (failures w') (tainted s :: taints_of (others p i)) →
  device_ok w' (s :: others p i) →
  NoDup v → (∀ j, j ∈ v ↔ j ≠ i ∧ j ∈ vacant p) →
  direct_inv w' (with_entries (<[i := Some s]> (direct_slices p)) v p).
Proof.
  intros Hinv Hi Hm Hslots Hs Hni Ht Hdev Hvn Hv. pose proof (live_insert _ _ _ s Hi) as Hp.
  set (p' := with_entries _ _ _). assert (direct_live p' ≡ₚ s :: others p i) as Hp' by exact Hp.
  split; try done.
  - intros j t Hj. cbn in Hj. destruct (decide (i = j)) as [<-|Hne].
    + rewrite list_lookup_insert_eq in Hj by (by eapply lookup_lt_Some). injection Hj as <-. by destruct Hs.
    + rewrite list_lookup_insert_ne in Hj by done. destruct (dir_entries _ _ Hinv j t Hj) as [Hsl ? ? ?].
      split; try done. cbn. apply Hslots; [|done]. apply live_elem. exists j.
      by rewrite list_lookup_insert_ne.
  - unfold handles_of in *. rewrite Hp'. cbn. apply NoDup_cons. split; [done|].
    pose proof (dir_distinct _ _ Hinv) as Hnd. destruct e as [s0|].
    + unfold handles_of, direct_live in Hnd. rewrite (live_remove _ _ _ Hi) in Hnd.
      by apply NoDup_cons in Hnd as [_ ?].
    + by rewrite others_tombstone.
  - eapply covered_perm, Ht. unfold taints_of. by rewrite Hp'.
  - split; [done|]. intros j. cbn. rewrite Hv, (proj2 (dir_vacant _ _ Hinv)).
    destruct (decide (i = j)) as [<-|Hne].
    + rewrite list_lookup_insert_eq by (by eapply lookup_lt_Some). split; [tauto|done].
    + rewrite list_lookup_insert_ne by done. split; [tauto|]. intros Hj. split; [congruence|done].
  - apply (dir_base _ _ Hinv).
  - apply (dir_alignment _ _ Hinv).
  - cbn. rewrite length_insert. apply (dir_count _ _ Hinv).
  - by eapply device_ok_perm; [symmetry; exact Hp'|].
Qed.
Lemma direct_inv_marks w p a b : direct_inv w p → direct_inv w (with_direct_marks a b p).
Proof. intros [? He ? ? ? ? ? ? ?]. split; try done. intros i s Hi. by destruct (He i s Hi). Qed.

(** What a reservation of [size] bytes answers with: the slice at [i]. *)
Record direct_reserved_at w p (size h : Z) (i : nat) (s : Slice) : Prop := mk_direct_reserved_at {
  dr_at : direct_slices p !! i = Some (Some s);
  dr_handle : handle s = h;
  dr_size : slice_size s = size ∧ calculate_padding size (direct_alignment p) = Some (padding s);
  dr_live : freed (memory w) h = false;
}.

Lemma wp_direct_try_reserve w p size :
  direct_inv w p → storage_ok w → 0 <= size → size + direct_alignment p <= u64_max →
  wp (direct_try_reserve p size) w (λ '(r, p') w',
    direct_inv w' p' ∧ storage_ok w' ∧
    keeps_live (memory w) (memory w') (direct_live p) (direct_live p') ∧
    storage w' = storage w ∧
    match r with
    | None => p' = p ∧ w' = w ∧ ∀ padding, calculate_padding size (direct_alignment p) = Some padding →
        Forall (λ s, freed (memory w) (handle s) = true → eff s ≠ size + padding) (direct_live p)
    | Some h => ∃ i s s0, direct_reserved_at w' p' size h i s ∧ mapped s = mapped s0 ∧
        direct_slices p !! i = Some (Some s0) ∧ freed (memory w) (handle s0) = true ∧ eff s0 = eff s ∧
        calculate_padding size (direct_alignment p) = Some (padding s)
    end).
Proof.
  intros Hinv Hok Hsize Hfit. pose proof (dir_alignment _ _ Hinv) as Ha. unfold direct_try_reserve.
  destruct (calculate_padding_spec size _ Ha) as (padding_ & Hpad & Hpb & Hdiv).
  apply wp_bind. eapply wp_lift; [exact Hpad|].
  apply wp_bind. eapply wp_lift; [by apply add_u64_Some; lia|].
  apply wp_bind. apply (wp_find_exact _ (direct_slices p) [] p); [done|done| |].
  { intros Hno. apply wp_ret. split_and!; try done.
    intros padding' Hpad'. by assert (padding' = padding_) as -> by congruence. }
  intros i s0 Hi Hfree Heff. pose proof (dir_entries _ _ Hinv i s0 Hi) as [Hslot Hoff Hsz Hal].
  pose proof (dir_memory _ _ Hinv) as Hm. set (s := with_padding padding_ _).
  assert (s0 ∈ direct_live p) as Hlive by (apply live_elem; by exists i).
  apply wp_bind, wp_on_memory. eapply wp_clone_owner; [done|exact Hslot|].
  intros m Hev Hc Hslot' Hcounts. apply wp_ret. set (w' := with_memory m w).
  change (handle s) with (handle s0) in *.
  assert (eff s = eff s0) as Hes by (rewrite Heff; done).
  pose proof (dir_distinct _ _ Hinv) as Hnd. unfold handles_of, direct_live in Hnd.
  rewrite (live_remove _ _ _ Hi) in Hnd. apply NoDup_cons in Hnd as [Hni Hnd].
  assert (∀ t, t ∈ others p i → handle t ∉ [handle s0]) as Hne.
  { intros t Ht Heq%list_elem_of_singleton. apply Hni. rewrite <- Heq. by apply list_elem_of_fmap_2. }
  assert (∀ t, t ∈ others p i → handle t < COUNTER (memory w)) as Hk.
  { intros t Ht. apply (direct_known _ _ Hinv), handle_in. by eapply others_live. }
  assert (freed m (handle s0) = false) as Hlive' by by eapply freed_clone.
  assert (∀ t, t ∈ others p i → freed m (handle t) = freed (memory w) (handle t)) as Hsame.
  { intros t Ht. apply freed_counts, (ev_counts _ _ _ _ Hev); [by apply Hk|by apply Hne]. }
  split; [|split_and!].
  - apply direct_inv_marks. eapply (direct_insert w); [done|exact Hi|by apply (ev_wf _ _ _ _ Hev)| | |exact Hni| | |..].
    + intros t base k Ht Hs. eapply slot_evolve; [exact Hm|exact Hev|done|apply not_elem_of_nil|by apply Hne].
    + split; [exact Hslot'|done|cbn; unfold eff in *; cbn in *; lia|by rewrite Hes].
    + eapply covered_perm, (dir_taints _ _ Hinv). unfold taints_of, direct_live.
      by rewrite (live_remove _ _ _ Hi).
    + pose proof (dir_device _ _ Hinv) as Hdev.
      eapply device_ok_perm in Hdev; [|apply (live_remove _ _ _ Hi)].
      apply device_ok_cons in Hdev as (Hd1 & Hd2 & Hd3 & Hd4). apply device_ok_cons.
      split_and!; [exact Hd1|exact Hd2| |by eapply device_ok_held, Hd4].
      change (slice_id s) with (slice_id s0). change (mapped s) with (mapped s0). by rewrite Hes.
    + apply (dir_vacant _ _ Hinv).
    + intros j. split; [|tauto]. intros Hj. split; [|done]. intros ->.
      apply (dir_vacant _ _ Hinv) in Hj. congruence.
  - by eapply storage_ok_same.
  - intros t Ht Hf. cbn. destruct (decide (handle t = handle s0)) as [Heq|Hneq].
    { rewrite Heq in Hf. congruence. }
    unfold direct_live in Ht. rewrite (live_remove _ _ _ Hi) in Ht.
    apply elem_of_cons in Ht as [->|Ht]; [done|]. fold (others p i) in Ht.
    split; [|by rewrite Hsame]. unfold direct_live; cbn. eapply live_insert_elem; [done|by right].
  - done.
  - exists i, s, s0. split; [|done]. split; try done.
    cbn. apply list_lookup_insert_eq. by eapply lookup_lt_Some.
Qed.

(** The index a fresh slice takes, and the entries with its tombstone. *)
Definition direct_slot p : nat * list DirectEntry * list nat :=
  match vec_pop (vacant p) with
  | Some (index, v) => (index, direct_slices p, v)
  | None => (length (direct_slices p), direct_slices p ++ [None], [])
  end.
Lemma direct_slot_ok w p :
  direct_inv w p → Z.of_nat (length (direct_slices p)) <= u32_max →
  let '(i, l, v) := direct_slot p in
  ∃ u, direct_inv w (with_entries l u p) ∧ omap id l = direct_live p ∧ l !! i = Some None ∧
    NoDup v ∧ (∀ j, j ∈ v ↔ j ≠ i ∧ j ∈ u) ∧ Z.of_nat i <= u32_max ∧
    ∀ s, direct_slices p !! i ≠ Some (Some s).
Proof.
  intros Hinv Hlen. pose proof (dir_vacant _ _ Hinv) as [Hvn Hv]. unfold direct_slot, vec_pop.
  destruct (vacant p) as [|i v _] eqn:Hvac using rev_ind.
  - cbn. exists [length (direct_slices p)].
    assert (omap id (direct_slices p ++ [None]) = direct_live p) as Hlive.
    { rewrite omap_app. cbn. apply app_nil_r. }
    split; [split; try (by destruct Hinv)|split_and!].
    + intros j s Hj. cbn in Hj. apply lookup_snoc_Some in Hj as [[_ Hj]|[_ ?]]; [|done].
      by destruct (dir_entries _ _ Hinv j s Hj).
    + unfold direct_live; cbn. rewrite Hlive. apply (dir_distinct _ _ Hinv).
    + unfold direct_live; cbn. rewrite Hlive. apply (dir_taints _ _ Hinv).
    + split; [apply NoDup_singleton|]. intros j. cbn. rewrite list_elem_of_singleton, lookup_snoc_Some.
      rewrite <- Hv. split; [by right|]. intros [[_ Hj%not_elem_of_nil]|[? _]]; done.
    + cbn. rewrite length_app; cbn. lia.
    + unfold direct_live; cbn. rewrite Hlive. apply (dir_device _ _ Hinv).
    + exact Hlive.
    + apply lookup_middle.
    + constructor.
    + intros j. rewrite list_elem_of_singleton. split; [by intros ?%not_elem_of_nil|tauto].
    + done.
    + intros s. by rewrite lookup_end.
  - rewrite last_snoc, removelast_last. exists (vacant p).
    assert (direct_slices p !! i = Some None) as Hi.
    { apply Hv, elem_of_app. right. by left. }
    apply NoDup_app in Hvn as (Hn & Hd & _). split_and!.
    + by destruct p.
    + done.
    + done.
    + done.
    + rewrite Hvac. intros j. rewrite elem_of_app, list_elem_of_singleton. split.
      * intros Hj. split; [|by left]. intros ->. apply (Hd i Hj). by left.
      * tauto.
    + apply lookup_lt_Some in Hi. lia.
    + intros s. rewrite Hi. done.
Qed.

(** The id of a fresh allocation is one no slice has had. *)
Lemma wp_mapping_fresh mapping size w :
  storage_ok w → mapping_room mapping size w →
  wp (mapping_storage_handle mapping size) w (λ r w',
    storage_ok w' ∧ memory w' = memory w ∧ failures w' = failures w ∧
    storage_ids w <= storage_ids w' ∧
    match r with
    | Ok h => utilization h = mk_StorageUtilization 0 size ∧
        storage_ids w <= storage_id h < storage_ids w' ∧
        held (storage w') = match mapping with
                            | Eager => <[storage_id h := size]> (held (storage w))
                            | Lazy => held (storage w)
                            end ∧
        held (storage w) !! storage_id h = None
    | Err _ => held (storage w') = held (storage w)
    end).
Proof.
  intros Hok Hroom. pose proof (storage_ok_bound _ Hok) as Hb.
  assert (∀ id, storage_ids w <= id → held (storage w) !! id = None) as Hfresh.
  { intros id Hid. destruct (held (storage w) !! id) as [n|] eqn:Hn; [|done].
    apply (storage_ok_ids _ _ _ Hok) in Hn. lia. }
  destruct mapping; cbn [mapping_storage_handle mapping_room] in *.
  - eapply wp_mono; [by apply storage_alloc_ok|]. intros r w' (Hok' & Hm & Hf & Hids & Hr).
    split_and!; try done. destruct r as [h|e]; [|done].
    destruct Hr as (Hu & Hid & Hh). split_and!; try done; try lia. apply Hfresh. lia.
  - apply wp_bind, wp_storage_id_new; [lia|]. apply wp_ret. cbn.
    split_and!; try done; try lia; [|apply Hfresh; cbn; lia].
    eapply storage_ok_other; [done|done|cbn; lia].
Qed.

Lemma wp_direct_alloc w p size mapping padding_ :
  direct_inv w p → storage_ok w → 0 <= size →
  calculate_padding size (direct_alignment p) = Some padding_ → 0 <= padding_ →
  (direct_alignment p | size + padding_) →
  size + padding_ <= u64_max → mapping_room mapping (size + padding_) w →
  COUNTER (memory w) < u64_max → Z.of_nat (length (direct_slices p)) <= u32_max →
  wp (direct_alloc p size mapping) w (λ '(r, p') w',
    direct_inv w' p' ∧ storage_ok w' ∧
    keeps_live (memory w) (memory w') (direct_live p) (direct_live p') ∧
    match r with
    | Err e => p' = p ∧ memory w' = memory w ∧ held (storage w') = held (storage w)
    | Ok h => ∃ i s, direct_reserved_at w' p' size h i s ∧ mapped s = bool_decide (mapping = Eager) ∧
        (∀ s0, direct_slices p !! i ≠ Some (Some s0)) ∧ held (storage w) !! slice_id s = None ∧
        held (storage w') = match mapping with
                            | Eager => <[slice_id s := size + padding_]> (held (storage w))
                            | Lazy => held (storage w)
                            end
    end).
Proof.
  intros Hinv Hok Hsize Hpad Hp0 Hdiv Hfit Hroom Hcount Hlen. unfold direct_alloc.
  apply wp_bind. eapply wp_lift; [exact Hpad|].
  apply wp_bind. eapply wp_lift; [by apply add_u64_Some|].
  apply wp_bind. eapply wp_mono; [by apply (wp_mapping_fresh mapping _ w)|].
  intros [h|e] w1 (Hok1 & Hm1 & Hf1 & Hids & Hr).
  2: { apply wp_ret. split_and!; try done; [|by rewrite Hm1].
       destruct Hinv as [? ? ? ? ? ? ? ? Hdev]. split; rewrite ?Hm1, ?Hf1; try done.
       eapply device_ok_held, Hdev; [done|by rewrite Hr]. }
  destruct Hr as (Hu & Hid & Hheld & Hfresh). pose proof (dir_memory _ _ Hinv) as Hm.
  pose proof (direct_slot_ok w p Hinv Hlen) as Hslot.
  destruct (direct_slot p) as [[i l] v] eqn:Hds.
  destruct Hslot as (u & Hinv1 & Hlive & Hi & Hvn & Hv & Hib & Hni).
  set (p1 := with_entries l u p) in *.
  pose proof (wp_place_new (memory w) (direct_base p) (Z.of_nat i) Hm Hcount
    (proj1 (dir_base _ _ Hinv)) ltac:(lia)) as Hplace.
  apply wp_bind. unfold slice_new. apply wp_bind, wp_on_memory. rewrite Hm1.
  eapply wp_mono; [exact Hplace|]. intros id m2 [-> Hplace2]. apply wp_ret.
  set (s := with_slice_storage _ _). cbn [handle] in *. fold (direct_slot p). rewrite Hds.
  rewrite as_u32_small by lia. apply wp_bind, wp_on_memory. cbn [memory with_memory].
  eapply wp_mono; [exact Hplace2|]. intros [] m3 Hplace3.
  apply wp_bind, wp_on_memory. cbn [memory with_memory].
  eapply wp_mono; [exact Hplace3|]. intros [] m4 (Hev & Hslot4 & Hlive4).
  apply wp_bind. eapply wp_lift; [exact Hi|]. apply wp_ret.
  set (w' := with_memory m4 _). set (p' := with_direct_marks _ _ _).
  change (handle s) with (COUNTER (memory w)) in *.
  assert (others p1 i = direct_live p) as Hoth by (unfold others; by rewrite live_tombstone).
  assert (∀ t, t ∈ direct_live p → handle t < COUNTER (memory w)) as Hk.
  { intros t Ht. by apply (direct_known _ _ Hinv), handle_in. }
  assert (held (storage w') = held (storage w1)) as Hheld' by done.
  split; [|split_and!].
  - apply direct_inv_marks.
    change (with_entries (<[i := Some s]> l) v p) with (with_entries (<[i := Some s]> (direct_slices p1)) v p1).
    eapply (direct_insert w); [done|exact Hi|exact (ev_wf _ _ _ _ Hev Hm)| | | | | |done|done].
    + intros t base k Ht Hs. rewrite Hoth in Ht.
      eapply slot_evolve; [exact Hm|exact Hev|done|apply not_elem_of_nil..].
    + split; cbn.
      * exact Hslot4.
      * unfold slice_offset, handle_offset; cbn. done.
      * unfold eff, slice_size, handle_size; cbn. lia.
      * exact Hdiv.
    + rewrite Hoth. intros Hin%(direct_known _ _ Hinv). cbn in Hin. lia.
    + rewrite Hoth. change (failures w') with (failures w1). rewrite Hf1.
      apply covered_default, (dir_taints _ _ Hinv).
    + rewrite Hoth. apply device_ok_cons.
      pose proof (dir_device _ _ Hinv) as Hdev.
      assert (∀ id, id ∈ slice_id <$> direct_live p → id ≠ storage_id h) as Hids'.
      { intros id' (t & -> & Ht)%list_elem_of_fmap.
        pose proof (proj1 (Forall_forall _ _) (dev_known _ _ _ Hdev) t Ht) as Hkn. cbn in Hkn. lia. }
      split_and!; [intros Hin; by eapply Hids'|cbn; lia| |].
      * change (slice_id s) with (storage_id h). rewrite Hheld', Hheld. cbn [mapped s with_slice_storage with_mapped].
        destruct mapping; cbn; [by rewrite lookup_insert_eq|done].
      * eapply device_ok_held, Hdev; [cbn; lia|]. intros id' Hin. rewrite Hheld', Hheld.
        destruct mapping; [|done]. rewrite lookup_insert_ne; [done|]. intros <-. by eapply Hids'.
  - by eapply storage_ok_same.
  - intros t Ht Hf. split.
    + unfold direct_live; cbn. eapply live_insert_elem; [exact Hi|]. right.
      change l with (direct_slices p1). fold (others p1 i). by rewrite Hoth.
    + rewrite <- Hf. apply freed_counts, (ev_counts _ _ _ _ Hev); [by apply Hk|apply not_elem_of_nil].
  - exists i, s. split; [|split; [done|split; [exact Hni|split; [exact Hfresh|by rewrite Hheld', Hheld]]]].
    split; [|done|done|exact Hlive4].
    cbn. apply list_lookup_insert_eq. by eapply lookup_lt_Some.
Qed.

(** A reservation in a direct pool.  It answers the handle of a slice of
    exactly the size asked, at the start of a device allocation of that size
    rounded up to the alignment, live from now on and which [find] leads to;
    no live slice is moved, changed or lost.  When a free slice has an
    allocation of exactly that size the storage is not asked for anything;
    only when there is none does the pool allocate, once, and not at all when
    the mapping is lazy.  A refusal of the storage leaves the pool as it was. *)
Theorem direct_reserve_correct w p size mapping padding_ :
  direct_inv w p → storage_ok w → 0 <= size → size + direct_alignment p <= u64_max →
  calculate_padding size (direct_alignment p) = Some padding_ →
  mapping_room mapping (size + padding_) w →
  COUNTER (memory w) < u64_max → Z.of_nat (length (direct_slices p)) <= u32_max →
  wp (direct_reserve p size mapping) w (λ '(r, p') w',
    direct_inv w' p' ∧ storage_ok w' ∧
    keeps_live (memory w) (memory w') (direct_live p) (direct_live p') ∧
    match r with
    | Err e => p' = p ∧ memory w' = memory w ∧ held (storage w') = held (storage w)
    | Ok h => ∃ i s, direct_reserved_at w' p' size h i s ∧
        wp (direct_find p' h) w' (λ f w'', f = Ok s ∧ w'' = w') ∧
        ((∃ s0, direct_slices p !! i = Some (Some s0) ∧ freed (memory w) (handle s0) = true ∧
            eff s0 = size + padding_ ∧ storage w' = storage w) ∨
         (Forall (λ s0, freed (memory w) (handle s0) = true → eff s0 ≠ size + padding_) (direct_live p) ∧
          (∀ s0, direct_slices p !! i ≠ Some (Some s0)) ∧
          held (storage w') = match mapping with
                              | Eager => <[slice_id s := size + padding_]> (held (storage w))
                              | Lazy => held (storage w)
                              end))
    end).
Proof.
  intros Hinv Hok Hsize Hfit Hpad Hroom Hcount Hlen. unfold direct_reserve.
  destruct (calculate_padding_spec size _ (dir_alignment _ _ Hinv)) as (padding' & Hpad' & Hpb & Hdiv).
  assert (padding' = padding_) as -> by congruence.
  assert (∀ w' p' h i s, direct_inv w' p' → direct_reserved_at w' p' size h i s →
    wp (direct_find p' h) w' (λ f w'', f = Ok s ∧ w'' = w')) as Hfind.
  { intros w' p' h i s Hinv' [Hi <- _ _]. by eapply wp_direct_find. }
  apply wp_bind. eapply wp_mono; [by apply wp_direct_try_reserve|].
  intros [r p'] w' (Hinv' & Hok' & Hkeep & Hst & Hr). destruct r as [h|].
  - apply wp_ret. destruct Hr as (i & s & s0 & Hat & _ & Hi & Hfree & Heff & Hps).
    split_and!; try done. exists i, s. split; [done|]. split; [by eapply Hfind|]. left.
    exists s0. split_and!; try done. rewrite Heff. destruct Hat as [_ _ [Hsz Hp] _].
    unfold eff. rewrite Hsz. congruence.
  - destruct Hr as (-> & -> & Hno).
    eapply wp_mono; [by apply (wp_direct_alloc w p size mapping padding_); try lia|].
    intros [r p'] w' (Hinv2 & Hok2 & Hkeep2 & Hr). split_and!; try done.
    destruct r as [h|e]; [|done]. destruct Hr as (i & s & Hat & _ & Hni & _ & Hheld).
    exists i, s. split; [done|]. split; [by eapply Hfind|]. right. split; [by apply Hno|done].
Qed.

(** ** Binding *)

(** Two owners of a handle are dropped, one after the other. *)
Lemma wp_drop_two id m d :
  memory_wf m → descriptors m !! id = Some d → 2 <= handles d →
  wp (handle_drop id) m (λ _ m2, wp (handle_drop id) m2 (λ _ m', evolve [] [id] m m')).
Proof.
  intros Hm Hd Hh. pose proof (proj2 Hm _ _ Hd) as [_ [_ Hb]].
  set (d1 := mk_Descriptor (location_bits d) (handles d - 1) (bindings d)).
  set (d2 := mk_Descriptor (location_bits d) (handles d1 - 1) (bindings d)).
  eapply wp_handle_drop; [exact Hd|lia|].
  pose proof (store_update id m Hm d d1 Hd ltac:(cbn; lia) ltac:(cbn; lia)) as Hev1.
  set (m1 := with_descriptors <[id:=d1]> m) in *.
  assert (descriptors m1 !! id = Some d1) as Hd1 by apply lookup_insert_eq.
  eapply wp_handle_drop; [exact Hd1|cbn; lia|].
  pose proof (store_update id m1 (ev_wf _ _ _ _ Hev1 Hm) d1 d2 Hd1 ltac:(cbn; lia) ltac:(cbn; lia)) as Hev2.
  eapply evolve_weaken, evolve_trans; [| |exact Hev1|exact Hev2]; intros id' _; set_solver.
Qed.

(** The slice a binding leaves behind: the same place, free of claims, under
    the handle that was assigned. *)
Definition bound_to (assigned : ManagedMemoryId) (s : Slice) : Slice :=
  with_handle assigned (with_tainted taint_default s).

(** Binding a client's handle to a reserved slice of a direct pool.  The
    slice is held under the assigned handle, which [find] leads to, and by
    nothing under the reserved one; its claims are released; every other slice
    is left alone.  The cursor passed is not recorded: the slice keeps the one
    it had, that of its first reservation. *)
Theorem direct_bind_correct w p i s d ds assigned cursor_ :
  direct_inv w p → direct_slices p !! i = Some (Some s) →
  descriptors (memory w) !! handle s = Some ds → 2 <= handles ds →
  descriptors (memory w) !! assigned = Some d → 1 <= handles d →
  assigned ∉ handles_of (direct_live p) →
  wp (direct_bind p (handle s) assigned cursor_) w (λ '(r, p') w',
    let s' := bound_to assigned s in
    r = Ok tt ∧ direct_inv w' p' ∧ storage w' = storage w ∧
    direct_slices p' = <[i := Some s']> (direct_slices p) ∧
    wp (direct_find p' assigned) w' (λ f w'', f = Ok s' ∧ w'' = w') ∧
    released (failures w) (failures w') [tainted s] ∧
    (∀ t, t ∈ others p i → freed (memory w') (handle t) = freed (memory w) (handle t)) ∧
    cursor s' = cursor s).
Proof.
  intros Hinv Hi Hds Hh2 Hd Hh1 Hna. unfold direct_bind.
  pose proof (dir_entries _ _ Hinv i s Hi) as [Hslot Hoff Hsz Hal].
  pose proof (dir_memory _ _ Hinv) as Hm. destruct (dir_base _ _ Hinv) as [Hb Hb1].
  destruct Hslot as (ds' & Hds' & Hl & _). assert (ds' = ds) as -> by congruence. clear Hds'.
  apply wp_bind, wp_on_memory. eapply wp_location; [exact Hds|]. rewrite Hl.
  change (Handle.slice (with_slice (Z.of_nat i) (direct_base p))) with (Z.of_nat i).
  rewrite Nat2Z.id, Hi. replace (with_memory (memory w) w) with w by by destruct w.
  assert (Z.of_nat i <= u32_max) as Hib.
  { apply lookup_lt_Some in Hi. pose proof (dir_count _ _ Hinv). lia. }
  assert (handle s ∉ [assigned]) as Hne.
  { intros <-%list_elem_of_singleton. apply Hna, handle_in, live_elem. by exists i. }
  apply wp_bind, wp_on_memory. eapply (wp_slot_update_location _ _ Hm); [exact Hd|done|done|lia|].
  intros m1 Hev1 Hc1 Hslot1. apply wp_bind. unfold slice_bind. apply wp_bind.
  eapply (wp_shed_one p i s w (with_memory m1 w)); [done|done|done|]. intros g Hrel. cbn [with_failures with_memory memory].
  assert (descriptors m1 !! handle s = Some ds) as Hds1.
  { rewrite <- Hds. apply (ev_same _ _ _ _ Hev1); [|done|apply not_elem_of_nil].
    apply (proj2 Hm _ _ Hds). }
  pose proof (wp_drop_two (handle s) m1 ds (ev_wf _ _ _ _ Hev1 Hm) Hds1 Hh2) as Hdrop.
  apply wp_bind, wp_on_memory. eapply wp_mono; [exact Hdrop|]. intros [] m2 Hdrop2. apply wp_ret.
  apply wp_bind, wp_on_memory. eapply wp_mono; [exact Hdrop2|]. intros [] m3 Hev3. apply wp_ret.
  set (w' := with_memory m3 _). set (s' := bound_to assigned s).
  assert (evolve [assigned] [handle s] (memory w) m3) as Hev by exact (evolve_trans _ _ _ _ _ _ _ Hev1 Hev3).
  assert (descriptors m3 !! assigned = descriptors m1 !! assigned) as Hsame.
  { apply (ev_same _ _ _ _ Hev3); [|apply not_elem_of_nil|].
    - rewrite Hc1. apply (proj2 Hm _ _ Hd).
    - intros Heq%list_elem_of_singleton. apply Hne. rewrite Heq. by left. }
  assert (∀ t, t ∈ others p i → handle t ∉ [assigned] ∧ handle t ∉ [handle s]) as Hoth.
  { intros t Ht. split; intros Heq%list_elem_of_singleton.
    - apply Hna. rewrite <- Heq. apply handle_in. by eapply others_live.
    - pose proof (dir_distinct _ _ Hinv) as Hnd. unfold handles_of, direct_live in Hnd.
      rewrite (live_remove _ _ _ Hi) in Hnd. apply NoDup_cons in Hnd as [Hni _]. apply Hni.
      rewrite <- Heq. by apply list_elem_of_fmap_2. }
  assert (direct_inv w' (with_entries (<[i := Some s']> (direct_slices p)) (vacant p) p)) as Hinv'.
  { pose proof (dir_vacant _ _ Hinv) as [Hvn Hv].
    pose proof (dir_taints _ _ Hinv) as Ht. pose proof (dir_device _ _ Hinv) as Hdev.
    eapply device_ok_perm in Hdev; [|apply (live_remove _ _ _ Hi)].
    eapply (direct_insert w); [done|exact Hi|exact (ev_wf _ _ _ _ Hev Hm)| | | | | |done|].
    - intros t base k Htin Hs. destruct (Hoth t Htin). by eapply slot_evolve.
    - split; [|done..]. destruct Hslot1 as (d' & Hd' & ?). exists d'. split; [|done].
      cbn. by rewrite Hsame.
    - intros Hin. apply Hna. apply list_elem_of_fmap in Hin as (t & Heq & Htin).
      destruct (Hoth t Htin) as [Hn _]. exfalso. apply Hn. rewrite <- Heq. by left.
    - apply covered_default, (covered_released (failures w) g [tainted s]); [|done].
      eapply covered_perm, Ht. unfold taints_of, direct_live. by rewrite (live_remove _ _ _ Hi).
    - apply device_ok_cons in Hdev as (? & ? & ? & Hdev). apply device_ok_cons.
      split_and!; [done..|by eapply device_ok_held, Hdev].
    - intros j. split; [|tauto]. intros Hj. split; [|done]. intros ->. apply Hv in Hj. congruence. }
  split_and!; try done.
  - assert (direct_slices (with_entries (<[i := Some s']> (direct_slices p)) (vacant p) p) !! i = Some (Some s'))
      as Hi' by (cbn; apply list_lookup_insert_eq; by eapply lookup_lt_Some).
    by apply (wp_direct_find _ _ _ _ Hinv' Hi').
  - intros t Ht. destruct (Hoth t Ht). apply freed_counts, (ev_counts _ _ _ _ Hev); [|done].
    apply (direct_known _ _ Hinv), handle_in. by eapply others_live.
Qed.
End direct_specs.

Section witnesses.
Let answer (st : Bytes.BytesStorage) (n : Z) : bool := true.
#[local] Instance direct_bytes : ComputeStorage Bytes.BytesStorage :=
  Bytes.storage_bytes_storage answer.
#[local] Instance direct_bytes_laws : ComputeStorageLaws Bytes.BytesStorage :=
  Bytes.bytes_storage_laws answer.

Definition direct_example : DirectPool :=
  let st k n := mk_StorageHandle k (mk_StorageUtilization 0 n) in
  mk_DirectPool
    [Some (mk_Slice (st 7 6) 0 2 5 true taint_default);
     Some (mk_Slice (st 5 8) 1 0 0 true taint_default); None]
    [2%nat] 4 (location_new 1 0 0) (Some 8) 16 8.
Definition direct_world : World Bytes.BytesStorage :=
  let d k h b := mk_Descriptor (to_bits (location_new 1 0 k)) h b in
  mk_World (mk_Memory 3 {[ 0 := d 0 1 0; 1 := d 1 2 0; 2 := mk_Descriptor 0 1 0 ]}) graph_default 8
    (Bytes.mk_BytesStorage {[ 7 := 8; 5 := 8 ]} 16).

Lemma direct_world_ok : storage_ok direct_world.
Proof.
  split; cbn; [lia|]. split; [reflexivity|]. intros id n Hn.
  apply lookup_insert_Some in Hn as [[<- <-]|[_ [<- <-]%lookup_singleton_Some]]; lia.
Qed.
Lemma direct_example_inv : direct_inv direct_world direct_example.
Proof.
  split.
  - split; [cbn; lia|]. apply (bool_decide_unpack (map_Forall (λ id d,
      0 <= id < 3 ∧ 0 <= handles d ∧ 0 <= bindings d) (descriptors (memory direct_world)))).
    vm_compute. exact I.
  - intros [|[|[|i]]] s [= <-]; (split; [by eexists|done|cbn; unfold eff, slice_size; cbn; lia|by apply Z.mod_divide]).
  - apply (bool_decide_unpack _). vm_compute. exact I.
  - split; [repeat (constructor; [apply taint_default_ok|]); constructor|].
    intros f. unfold tags. cbn. rewrite lookup_empty. done.
  - split; [apply NoDup_singleton|]. intros i. cbn. rewrite list_elem_of_singleton.
    destruct i as [|[|[|i]]]; cbn; done.
  - split; [|done]. unfold location_ok; cbn. lia.
  - cbn. lia.
  - cbn. lia.
  - split.
    + apply (bool_decide_unpack _). vm_compute. exact I.
    + cbn. repeat (constructor; [cbn; lia|]). constructor.
    + cbn. repeat (constructor; [reflexivity|]). constructor.
Qed.

Lemma release_free_correct_witness :
  wp (release_free direct_example 4) direct_world (λ '(released, p') w',
    direct_inv w' p' ∧ storage_ok w').
Proof.
  eapply wp_mono; [apply (release_free_correct direct_world direct_example 4 direct_example_inv
    direct_world_ok)|].
  - lia.
  - vm_compute. done.
  - intros [r p'] w' (gone & ? & ? & _). split; assumption.
Defined.

Lemma direct_reserve_correct_witness :
  wp (direct_reserve direct_example 10 Eager) direct_world (λ '(r, p') w',
    direct_inv w' p' ∧ storage_ok w').
Proof.
  eapply wp_mono; [apply (direct_reserve_correct direct_world direct_example 10 Eager 2
    direct_example_inv direct_world_ok)|].
  - lia.
  - cbn. lia.
  - reflexivity.
  - change (Bytes.room 12 direct_world). unfold Bytes.room, Bytes.ALIGNMENT; cbn. lia.
  - cbn. lia.
  - cbn. lia.
  - intros [r p'] w' (? & ? & _). split; assumption.
Defined.

Lemma direct_bind_correct_witness :
  let s := mk_Slice (mk_StorageHandle 5 (mk_StorageUtilization 0 8)) 1 0 0 true taint_default in
  wp (direct_bind direct_example 1 2 9) direct_world (λ '(r, p') w',
    r = Ok tt ∧ direct_inv w' p' ∧ cursor (bound_to 2 s) = 0).
Proof.
  intros s. change 1 with (handle s).
  eapply wp_mono; [eapply (direct_bind_correct direct_world direct_example 1 s _ _ 2 9 direct_example_inv)|].
  - reflexivity.
  - reflexivity.
  - cbn. lia.
  - reflexivity.
  - cbn. lia.
  - cbn. intros Hin. set_unfold in Hin. lia.
  - intros [r p'] w' (? & ? & _ & _ & _ & _ & _ & Hc). split; [assumption|]. split; assumption.
Defined.

(** The free slice of eight bytes is the one that goes, and takes its
    allocation with it; with room to spare nothing does. *)
Example release_free_ex :
  wp (release_free direct_example 4) direct_world (λ '(released, p') w',
    released = true ∧ slice_id <$> direct_live p' = [5] ∧ vacant p' = [2; 0]%nat) ∧
  wp (direct_reserve direct_example 5 Eager) direct_world (λ '(r, p') w',
    r = Ok 0 ∧ slice_size <$> direct_live p' = [5; 8]).
Proof. split; vm_compute; auto. Qed.
End witnesses.
