(* ===== verification/PersistentPool.v ===== *)
(** * Persistent pools

    [cubecl-server/src/memory_management/memory_pool/persistent_pool.rs]: a
    pool for allocations that stay, such as weights.  Every slice owns its
    device allocation, and a map from padded sizes to the indices of the slices
    of that size finds the one to reuse. *)

From S2P Require Export DirectPool.
From stdpp Require Import list.
#[local] Open Scope Z_scope.

Record PersistentPool := mk_PersistentPool {
  kept_slices : list Slice;
  sizes : gmap Z (list nat);
  persistent_alignment : Z;
  persistent_max_alloc_size : Z;
  persistent_base : MemoryLocation;
  persistent_peak : Z;
  persistent_largest : Z;
}.
Definition with_kept (l : list Slice) (sz : gmap Z (list nat)) (p : PersistentPool) : PersistentPool :=
  mk_PersistentPool l sz (persistent_alignment p) (persistent_max_alloc_size p) (persistent_base p)
    (persistent_peak p) (persistent_largest p).
Definition with_persistent_marks (peak largest : Z) (p : PersistentPool) : PersistentPool :=
  mk_PersistentPool (kept_slices p) (sizes p) (persistent_alignment p)
    (persistent_max_alloc_size p) (persistent_base p) peak largest.

Definition persistent_new (max_alloc_size alignment pool_pos : Z) : PersistentPool :=
  mk_PersistentPool [] ∅ alignment max_alloc_size (location_new pool_pos 0 0) 0 0.
Definition persistent_accept (p : PersistentPool) (size : Z) : bool :=
  size <=? persistent_max_alloc_size p.
Definition has_size (p : PersistentPool) (size : Z) : option bool :=
  padding ← calculate_padding size (persistent_alignment p);
  effective_size ← add_u64 size padding;
  Some (bool_decide (is_Some (sizes p !! effective_size))).

(** [match sizes.get_mut(&size) { Some(vals) => vals.push(pos), None => insert(size, vec![pos]) }] *)
Definition push_position (effective_size : Z) (pos : nat) (sz : gmap Z (list nat)) : gmap Z (list nat) :=
  match sz !! effective_size with
  | Some vals => <[effective_size := vals ++ [pos]]> sz
  | None => <[effective_size := [pos]]> sz
  end.

Section persistent.
Context {St : Type} `{ComputeStorage St}.

Definition persistent_find (p : PersistentPool) (binding : ManagedMemoryId) :
    M (World St) (result Slice IoError) :=
  location ← on_memory (location binding);
  mret (match kept_slices p !! Z.to_nat (Handle.slice location) with
        | Some s => Ok s
        | None => Err (NotFound "Memory slice doesn't exist")
        end).

(** The loop of [try_reserve] over the positions of a size. *)
Fixpoint find_position (slices : list Slice) (positions : list nat) :
    M (World St) (option (nat * Slice)) :=
  match positions with
  | [] => mret None
  | pos :: positions =>
      s ← lift (slices !! pos);
      free ← slice_is_free s;
      if free : bool then mret (Some (pos, s)) else find_position slices positions
  end.
Definition persistent_try_reserve (p : PersistentPool) (size : Z) :
    M (World St) (option ManagedMemoryId * PersistentPool) :=
  padding ← lift (calculate_padding size (persistent_alignment p));
  effective_size ← lift (add_u64 size padding);
  match sizes p !! effective_size with
  | None => mret (None, p)
  | Some positions =>
      found ← find_position (kept_slices p) positions;
      match found with
      | None => mret (None, p)
      | Some (pos, s) =>
          let s := with_slice_storage (with_utilization (mk_StorageUtilization 0 size) (slice_storage s)) s in
          _ ← on_memory (handle_clone (handle s));
          let p := with_kept (<[pos := s]> (kept_slices p)) (sizes p) p in
          mret (Some (handle s),
                with_persistent_marks (persistent_peak p) (Z.max (persistent_largest p) size) p)
      end
  end.

Definition persistent_alloc (p : PersistentPool) (size : Z) (mapping : PageMapping) :
    M (World St) (result ManagedMemoryId IoError * PersistentPool) :=
  padding ← lift (calculate_padding size (persistent_alignment p));
  effective_size ← lift (add_u64 size padding);
  r ← mapping_storage_handle mapping effective_size;
  match r with
  | Err e => mret (Err e, p)
  | Ok storage_handle =>
      s ← slice_new storage_handle padding;
      let s := with_mapped (bool_decide (mapping = Eager)) s in
      let s := with_slice_storage (with_utilization (mk_StorageUtilization 0 size) (slice_storage s)) s in
      let slice_pos := length (kept_slices p) in
      let location := with_slice (as_u32 (Z.of_nat slice_pos)) (persistent_base p) in
      _ ← on_memory (update_location (handle s) location);
      _ ← on_memory (handle_clone (handle s));
      let l := kept_slices p ++ [s] in
      let p := with_kept l (push_position effective_size slice_pos (sizes p)) p in
      mret (Ok (handle s),
            with_persistent_marks (Z.max (persistent_peak p) (Z.of_nat (length l)))
              (Z.max (persistent_largest p) size) p)
  end.
(** [MemoryPool::reserve] *)
Definition persistent_reserve (p : PersistentPool) (size : Z) (mapping : PageMapping) :
    M (World St) (result ManagedMemoryId IoError * PersistentPool) :=
  '(r, p) ← persistent_try_reserve p size;
  match r with
  | Some handle => mret (Ok handle, p)
  | None => persistent_alloc p size mapping
  end.

Definition persistent_materialize (p : PersistentPool) (binding : ManagedMemoryId) :
    M (World St) (result unit IoError * PersistentPool) :=
  location ← on_memory (location binding);
  let index := Z.to_nat (Handle.slice location) in
  match kept_slices p !! index with
  | None => mret (Ok tt, p)
  | Some s =>
      if mapped s || negb (bool_decide (handle s = binding)) then mret (Ok tt, p)
      else
        '(r, s) ← slice_materialize s;
        mret (r, with_kept (<[index := s]> (kept_slices p)) (sizes p) p)
  end.

Definition persistent_guard (p : PersistentPool) (location : MemoryLocation) :
    M (World St) (option ManagedMemoryId) :=
  match kept_slices p !! Z.to_nat (Handle.slice location) with
  | None => mret None
  | Some s =>
      _ ← on_memory (handle_clone (handle s)); _ ← on_memory (binding (handle s));
      mret (Some (handle s))
  end.

(** [filter(|slice| !slice.is_free())] *)
Fixpoint used_slices (l : list Slice) : M (World St) (list Slice) :=
  match l with
  | [] => mret []
  | s :: l =>
      free ← slice_is_free s;
      used ← used_slices l;
      mret (if free : bool then used else s :: used)
  end.
Definition persistent_usage (p : PersistentPool) : M (World St) MemoryUsage :=
  used ← used_slices (kept_slices p);
  in_use ← lift (sum_u64 (slice_size <$> used));
  padding ← lift (sum_u64 (padding <$> used));
  reserved ← lift (sum_effective (kept_slices p) 0);
  mret (mk_MemoryUsage (Z.of_nat (length used)) in_use padding reserved).
Definition persistent_report (p : PersistentPool) : M (World St) MemoryPoolReport :=
  usage ← persistent_usage p;
  mret (mk_MemoryPoolReport KindPersistent usage (Z.of_nat (length (kept_slices p)))
          (persistent_peak p) (Z.of_nat (length (filter (λ s, mapped s = false) (kept_slices p))))
          (persistent_largest p)).

(** The loop of [cleanup], with the slices and the sizes rebuilt so far. *)
Fixpoint rebuild_loop (l slices : list Slice) (sz : gmap Z (list nat)) :
    M (World St) (list Slice * gmap Z (list nat)) :=
  match l with
  | [] => mret (slices, sz)
  | s :: l =>
      free ← slice_is_free s;
      if free : bool then
        _ ← on_failures (clear (tainted s));
        _ ← (if mapped s then dealloc (storage_id (slice_storage s)) else mret tt);
        _ ← slice_drop s;
        rebuild_loop l slices sz
      else
        let slice_pos := length slices in
        effective_size ← lift (effective_size s);
        _ ← on_memory (update_slice (handle s) (as_u32 (Z.of_nat slice_pos)));
        rebuild_loop l (slices ++ [s]) (push_position effective_size slice_pos sz)
  end.
Definition persistent_cleanup (p : PersistentPool) (cleanup : Cleanup) :
    M (World St) PersistentPool :=
  if decide (cleanup = Explicit) then
    '(slices, sz) ← rebuild_loop (kept_slices p) [] ∅;
    _ ← flush;
    mret (with_kept slices sz p)
  else mret p.

Definition persistent_bind (p : PersistentPool) (old new : ManagedMemoryId) (cursor : Z) :
    M (World St) (result unit IoError * PersistentPool) :=
  location_ ← on_memory (location old);
  let index := Z.to_nat (Handle.slice location_) in
  s ← lift (kept_slices p !! index);
  _ ← on_memory (update_location new location_);
  s ← slice_bind (with_cursor cursor s) new;
  _ ← on_memory (handle_drop old);
  mret (Ok tt, with_kept (<[index := s]> (kept_slices p)) (sizes p) p).
End persistent.

(** ** The invariant of a persistent pool *)

(** [size] rounded up to the alignment. *)
Definition round_up (align size : Z) : Z := size + (- size) mod align.

Lemma round_up_spec align size :
  0 < align → (align | round_up align size) ∧ size <= round_up align size < size + align.
Proof.
  intros Ha. unfold round_up. pose proof (Z.mod_pos_bound (- size) align Ha).
  split; [|lia]. exists (- ((- size) / align)). pose proof (Z.div_mod (- size) align). lia.
Qed.
Lemma round_up_unique align size n :
  0 < align → (align | n) → size <= n < size + align → n = round_up align size.
Proof.
  intros Ha [a ->] Hn. destruct (round_up_spec align size Ha) as [[b Hb] Hr].
  rewrite Hb in *. f_equal. nia.
Qed.
Lemma padding_round_up align size pad :
  0 < align → calculate_padding size align = Some pad → size + pad = round_up align size.
Proof.
  intros Ha Hp. destruct (calculate_padding_spec size align Ha) as (pad' & Hp' & ? & ?).
  assert (pad' = pad) as -> by congruence. apply round_up_unique; [done|done|lia].
Qed.

(** The positions of a key in a list of keys. *)
Definition positions_from (n : nat) (keys : list Z) (k : Z) : list nat :=
  (λ x, x.1) <$> filter (λ x, x.2 = k) (zip (seq n (length keys)) keys).
Abbreviation positions_of := (positions_from 0).
(** The map [sz] is the index of the list [keys]. *)
Definition indexes (sz : gmap Z (list nat)) (keys : list Z) : Prop :=
  ∀ k, sz !! k = match positions_of keys k with [] => None | l => Some l end.

Lemma positions_from_snoc n keys k0 k :
  positions_from n (keys ++ [k0]) k =
  positions_from n keys k ++ (if decide (k0 = k) then [(n + length keys)%nat] else []).
Proof.
  unfold positions_from. rewrite length_app, seq_app. cbn.
  rewrite zip_with_app by (by rewrite length_seq). rewrite filter_app, fmap_app. f_equal.
  cbn. by destruct (decide (k0 = k)).
Qed.
Lemma positions_elem keys k i : i ∈ positions_of keys k ↔ keys !! i = Some k.
Proof.
  induction keys as [|k0 keys IH] using rev_ind; [set_solver|].
  rewrite positions_from_snoc, elem_of_app, IH, lookup_snoc_Some. cbn.
  destruct (decide (k0 = k)) as [->|Hne].
  - rewrite list_elem_of_singleton. split.
    + intros [Hi| ->]; [left; split; [by eapply lookup_lt_Some|done]|by right].
    + intros [[_ ?]|[-> _]]; [by left|by right].
  - split.
    + intros [Hi|Hi%not_elem_of_nil]; [|done]. left. split; [by eapply lookup_lt_Some|done].
    + intros [[_ ?]|[_ ?]]; [by left|done].
Qed.
Lemma indexes_empty : indexes ∅ [].
Proof. intros k. by rewrite lookup_empty. Qed.
Lemma indexes_push sz keys k :
  indexes sz keys → indexes (push_position k (length keys) sz) (keys ++ [k]).
Proof.
  intros Hi k'. unfold push_position. rewrite positions_from_snoc. cbn.
  pose proof (Hi k) as Hk. pose proof (Hi k') as Hk'. destruct (decide (k = k')) as [<-|Hne].
  - rewrite Hk. destruct (positions_of keys k); by rewrite lookup_insert_eq.
  - rewrite app_nil_r, <- Hk'. destruct (sz !! k); by rewrite lookup_insert_ne.
Qed.
Lemma indexes_lookup sz keys k :
  indexes sz keys → ∀ i, i ∈ default [] (sz !! k) ↔ keys !! i = Some k.
Proof.
  intros Hi i. rewrite <- positions_elem, Hi. by destruct (positions_of keys k).
Qed.

(** The slice [s] is at index [i], and [key] names its size.  A key that is a
    multiple of the alignment, which the sizes asked for are, is the size of
    the device allocation of the slice. *)
Record kept_ok (m : Memory) (p : PersistentPool) (i : nat) (key : Z) (s : Slice) : Prop := mk_kept_ok {
  kept_slot : slot m (persistent_base p) (Z.of_nat i) (handle s);
  kept_offset : slice_offset s = 0;
  kept_sizes : 0 <= slice_size s ∧ 0 <= padding s < persistent_alignment p ∧ eff s <= u64_max;
  kept_key : (persistent_alignment p | key) → key = round_up (persistent_alignment p) (slice_size s);
}.

(** Every mapped slice owns a device allocation, the size of the slice rounded
    up to the alignment; one that is not mapped owns none. *)
Abbreviation kept_device align := (owns (λ s, round_up align (slice_size s))).

Record persistent_inv {St} `{ComputeStorage St} (w : World St) (p : PersistentPool) : Prop :=
    mk_persistent_inv {
  per_memory : memory_wf (memory w);
  per_keys : ∃ keys, indexes (sizes p) keys ∧ length keys = length (kept_slices p) ∧
    ∀ i k s, keys !! i = Some k → kept_slices p !! i = Some s → kept_ok (memory w) p i k s;
  per_distinct : NoDup (handles_of (kept_slices p));
  per_taints : covered (failures w) (taints_of (kept_slices p));
  per_base : location_ok (persistent_base p) ∧ init (persistent_base p) = 1;
  per_alignment : 0 < persistent_alignment p;
  per_count : Z.of_nat (length (kept_slices p)) <= u32_max + 1;
  per_device : kept_device (persistent_alignment p) w (kept_slices p);
}.

Section persistent_specs.
Context {St : Type} `{ComputeStorageLaws St}.
Implicit Types (w : World St) (p : PersistentPool).

Lemma per_kept w p i s :
  persistent_inv w p → kept_slices p !! i = Some s → ∃ key, kept_ok (memory w) p i key s.
Proof.
  intros Hinv Hi. destruct (per_keys _ _ Hinv) as (keys & _ & Hlen & Hk).
  destruct (lookup_lt_is_Some_2 keys i) as [key Hkey]; [|by exists key; eapply Hk].
  rewrite Hlen. by eapply lookup_lt_Some.
Qed.
Lemma persistent_known w p : persistent_inv w p → known (memory w) (kept_slices p).
Proof.
  intros Hinv id (s & -> & [i Hi]%list_elem_of_lookup)%list_elem_of_fmap.
  destruct (per_kept _ _ _ _ Hinv Hi) as [key Hk].
  eapply slot_known; [apply (per_memory _ _ Hinv)|apply (kept_slot _ _ _ _ _ Hk)].
Qed.
Lemma wp_kept_is_free p i s w (Q : bool → World St → Prop) :
  persistent_inv w p → kept_slices p !! i = Some s → Q (freed (memory w) (handle s)) w →
  wp (slice_is_free s) w Q.
Proof.
  intros Hinv Hi. destruct (per_kept _ _ _ _ Hinv Hi) as [key Hk].
  apply (wp_slice_is_free (persistent_base p)). eexists. apply (kept_slot _ _ _ _ _ Hk).
Qed.

(** The first free slice among the positions, when there is one. *)
Lemma wp_find_position p positions w (Q : option (nat * Slice) → World St → Prop) :
  persistent_inv w p → Forall (λ i, is_Some (kept_slices p !! i)) positions →
  (Forall (λ i, ∀ s, kept_slices p !! i = Some s → freed (memory w) (handle s) = false) positions →
     Q None w) →
  (∀ i s, i ∈ positions → kept_slices p !! i = Some s → freed (memory w) (handle s) = true →
     Q (Some (i, s)) w) →
  wp (find_position (kept_slices p) positions) w Q.
Proof.
  intros Hinv. revert Q. induction positions as [|i positions IH]; intros Q Hsome Hno Hyes; cbn [find_position].
  { apply wp_ret, Hno. constructor. }
  apply Forall_cons in Hsome as [[s Hi] Hsome].
  apply wp_bind. eapply wp_lift; [done|]. apply wp_bind. eapply wp_kept_is_free; [done|done|].
  destruct (freed (memory w) (handle s)) eqn:Hf.
  - apply wp_ret. eapply Hyes; [by left|done|done].
  - apply IH; [done| |].
    + intros Hall. apply Hno. constructor; [|done]. intros s' Hs'. congruence.
    + intros j t Hj. apply Hyes. by right.
Qed.

Lemma wp_persistent_find w p i s :
  persistent_inv w p → kept_slices p !! i = Some s →
  wp (persistent_find p (handle s)) w (λ f w', f = Ok s ∧ w' = w).
Proof.
  intros Hinv Hi. destruct (per_kept _ _ _ _ Hinv Hi) as [key Hk].
  destruct (kept_slot _ _ _ _ _ Hk) as (d & Hd & Hl & _).
  unfold persistent_find. apply wp_bind, wp_on_memory. eapply wp_location; [done|]. apply wp_ret.
  rewrite Hl. cbn. rewrite Nat2Z.id, Hi. split; [done|]. by destruct w.
Qed.

Lemma persistent_inv_marks w p a b : persistent_inv w p → persistent_inv w (with_persistent_marks a b p).
Proof.
  intros [? (keys & Hi & Hl & Hk) ? ? ? ? ? ?]. split; try done. exists keys. split_and!; try done.
  intros i k s Hki Hs. by destruct (Hk i k s Hki Hs).
Qed.

(** The slices other than the one at [i] have other handles. *)
Lemma kept_other w p i j s t :
  persistent_inv w p → kept_slices p !! i = Some s → kept_slices p !! j = Some t → i ≠ j →
  handle t ≠ handle s.
Proof.
  intros Hinv Hi Hj Hne Heq. apply Hne. eapply (NoDup_lookup _ i j (handle s) (per_distinct _ _ Hinv)).
  - unfold handles_of. by rewrite list_lookup_fmap, Hi.
  - unfold handles_of. rewrite list_lookup_fmap, Hj. cbn. congruence.
Qed.

Lemma fmap_insert_same {B} (f : Slice → B) (l : list Slice) i s s' :
  l !! i = Some s → f s' = f s → f <$> <[i := s']> l = f <$> l.
Proof. intros Hi Hf. rewrite list_fmap_insert, Hf. apply list_insert_id. by rewrite list_lookup_fmap, Hi. Qed.

(** Replacing a slice by one with the same handle, allocation and claims. *)
Lemma persistent_replace w w' p i s s' :
  persistent_inv w p → kept_slices p !! i = Some s →
  handle s' = handle s → slice_id s' = slice_id s → mapped s' = mapped s → tainted s' = tainted s →
  round_up (persistent_alignment p) (slice_size s') = round_up (persistent_alignment p) (slice_size s) →
  slice_offset s' = 0 → 0 <= slice_size s' → 0 <= padding s' < persistent_alignment p → eff s' <= u64_max →
  evolve [] [handle s] (memory w) (memory w') →
  slot (memory w') (persistent_base p) (Z.of_nat i) (handle s) →
  failures w' = failures w → storage w' = storage w → storage_ids w' = storage_ids w →
  persistent_inv w' (with_kept (<[i := s']> (kept_slices p)) (sizes p) p).
Proof.
  intros Hinv Hi Hh Hid Hmp Ht Hru Hoff Hsz Hpad Heff Hev Hslot Hf Hst Hids.
  pose proof Hinv as [Hm (keys & Hix & Hlen & Hk) Hnd Htn Hb Ha Hc [Hd1 Hd2 Hd3]].
  assert (i < length (kept_slices p))%nat as Hlt by by eapply lookup_lt_Some.
  split; cbn; try done.
  - by apply (ev_wf _ _ _ _ Hev).
  - exists keys. split; [done|]. split; [by rewrite length_insert|]. intros j k t Hkj Hj.
    destruct (decide (i = j)) as [<-|Hne].
    + rewrite list_lookup_insert_eq in Hj by done. injection Hj as <-.
      destruct (Hk i k s Hkj Hi) as [_ _ _ Hkey].
      split; cbn; [by rewrite Hh|done|done|]. rewrite Hru. exact Hkey.
    + rewrite list_lookup_insert_ne in Hj by done. destruct (Hk j k t Hkj Hj) as [Hs ? ? ?].
      split; try done. cbn. eapply slot_evolve; [exact Hm|exact Hev|done|apply not_elem_of_nil|].
      rewrite list_elem_of_singleton. by eapply kept_other.
  - unfold handles_of in *. by erewrite fmap_insert_same.
  - unfold taints_of in *. rewrite Hf. by erewrite fmap_insert_same.
  - by rewrite length_insert.
  - split.
    + by erewrite fmap_insert_same.
    + rewrite Hids. apply Forall_insert; [done|]. rewrite Hid.
      by apply (proj1 (Forall_lookup _ _) Hd2 i).
    + rewrite Hst. apply Forall_insert; [done|]. rewrite Hid, Hmp, Hru.
      by apply (proj1 (Forall_lookup _ _) Hd3 i).
Qed.

(** ** Reserving *)

(** What a reservation of [size] bytes answers with: the slice at [i]. *)
Record kept_reserved w p (size h : Z) (i : nat) (s : Slice) : Prop := mk_kept_reserved {
  kr_at : kept_slices p !! i = Some s;
  kr_handle : handle s = h;
  kr_size : slice_size s = size ∧ slice_offset s = 0;
  kr_held : held (storage w) !! slice_id s =
    if mapped s then Some (round_up (persistent_alignment p) size) else None;
  kr_live : freed (memory w) h = false;
}.

Definition no_free_at w p (key : Z) : Prop :=
  ∀ i s, i ∈ default [] (sizes p !! key) → kept_slices p !! i = Some s →
    freed (memory w) (handle s) = false.

Lemma wp_persistent_try_reserve w p size :
  persistent_inv w p → storage_ok w → 0 <= size → size + persistent_alignment p <= u64_max →
  wp (persistent_try_reserve p size) w (λ '(r, p') w',
    persistent_inv w' p' ∧ storage_ok w' ∧
    keeps_live (memory w) (memory w') (kept_slices p) (kept_slices p') ∧
    storage w' = storage w ∧
    match r with
    | None => p' = p ∧ w' = w ∧ no_free_at w p (round_up (persistent_alignment p) size)
    | Some h => ∃ i s s0, kept_reserved w' p' size h i s ∧
        kept_slices p !! i = Some s0 ∧ freed (memory w) (handle s0) = true ∧
        handle s0 = h ∧ slice_id s0 = slice_id s ∧ mapped s0 = mapped s
    end).
Proof.
  intros Hinv Hok Hsize Hfit. pose proof (per_alignment _ _ Hinv) as Ha. unfold persistent_try_reserve.
  destruct (calculate_padding_spec size _ Ha) as (padding_ & Hpad & Hpb & Hdiv).
  pose proof (padding_round_up _ _ _ Ha Hpad) as Hru. pose proof (round_up_spec _ size Ha) as [Hrd Hrb].
  apply wp_bind. eapply wp_lift; [exact Hpad|].
  apply wp_bind. eapply wp_lift; [by apply add_u64_Some; lia|]. rewrite Hru.
  destruct (per_keys _ _ Hinv) as (keys & Hix & Hlen & Hk).
  pose proof (indexes_lookup _ _ (round_up (persistent_alignment p) size) Hix) as Hin.
  destruct (sizes p !! _) as [positions|] eqn:Hpos; cbn [default] in Hin.
  2: { apply wp_ret. split_and!; try done. intros i s. rewrite Hpos. by intros ?%not_elem_of_nil. }
  apply wp_bind. apply (wp_find_position p); [done| | |].
  - apply Forall_forall. intros i Hi%Hin. apply lookup_lt_is_Some_2. rewrite <- Hlen.
    by eapply lookup_lt_Some.
  - intros Hall. apply wp_ret. split_and!; try done. intros i s. rewrite Hpos. cbn. intros Hi Hs.
    by apply (proj1 (Forall_forall _ _) Hall i).
  - intros i s0 Hkey%Hin Hi Hfree. destruct (Hk i _ s0 Hkey Hi) as [Hslot Hoff [Hs1 [Hs2 Hs3]] Hkeyok].
    specialize (Hkeyok Hrd). pose proof (per_memory _ _ Hinv) as Hm. set (s := with_slice_storage _ _).
    apply wp_bind, wp_on_memory. eapply wp_clone_owner; [done|exact Hslot|].
    intros m Hev Hc Hslot' Hcounts. apply wp_ret. set (w' := with_memory m w).
    change (handle s) with (handle s0). assert (freed m (handle s0) = false) as Hlive by by eapply freed_clone.
    split; [|split_and!].
    + apply persistent_inv_marks. eapply (persistent_replace w); try done.
      cbn. unfold eff, slice_size, handle_size. cbn. lia.
    + by eapply storage_ok_same.
    + intros t [j Hj]%list_elem_of_lookup Hf. cbn. destruct (decide (i = j)) as [<-|Hne]; [congruence|].
      split.
      * apply list_elem_of_lookup. exists j. by rewrite list_lookup_insert_ne.
      * rewrite <- Hf. apply freed_counts, (ev_counts _ _ _ _ Hev).
        -- by eapply (persistent_known _ _ Hinv), handle_in, list_elem_of_lookup_2.
        -- rewrite list_elem_of_singleton. by apply (kept_other w p i j s0 t).
    + done.
    + exists i, s, s0. split; [|done]. split; try done.
      * cbn. apply list_lookup_insert_eq. by eapply lookup_lt_Some.
      * change (slice_id s) with (slice_id s0). change (mapped s) with (mapped s0). cbn.
        rewrite Hkeyok. by apply (proj1 (Forall_lookup _ _) (dev_held _ _ _ (per_device _ _ Hinv)) i).
Qed.

Lemma Forall_snoc_iff {A} (P : A → Prop) l x : Forall P (l ++ [x]) ↔ Forall P l ∧ P x.
Proof. rewrite Forall_app, Forall_singleton. done. Qed.

(** A device allocation of its own for one more slice. *)
Lemma kept_device_snoc w w' align l s :
  kept_device align w l → storage_ids w <= slice_id s < storage_ids w' →
  held (storage w') !! slice_id s = (if mapped s then Some (round_up align (slice_size s)) else None) →
  (∀ id, id ≠ slice_id s → held (storage w') !! id = held (storage w) !! id) →
  kept_device align w' (l ++ [s]).
Proof.
  intros [Hn Hk Hh] Hid Hs Hother.
  assert (∀ t, t ∈ l → slice_id t < storage_ids w) as Hlt by by apply Forall_forall.
  split.
  - rewrite fmap_app. apply NoDup_app. split_and!; [done| |apply NoDup_singleton].
    intros id (t & -> & Ht%Hlt)%list_elem_of_fmap Heq%list_elem_of_singleton. lia.
  - apply Forall_snoc_iff. split; [|lia]. eapply Forall_impl; [exact Hk|]. cbn. lia.
  - apply Forall_snoc_iff. split; [|done]. apply Forall_forall. intros t Ht.
    rewrite Hother; [by apply (proj1 (Forall_forall _ _) Hh t)|]. specialize (Hlt t Ht). lia.
Qed.

Lemma persistent_snoc w w' p s key :
  persistent_inv w p → Z.of_nat (length (kept_slices p)) <= u32_max →
  handle s = COUNTER (memory w) → tainted s = taint_default →
  placed_new (memory w) (persistent_base p) (Z.of_nat (length (kept_slices p))) (memory w') →
  failures w' = failures w → storage_ids w <= slice_id s < storage_ids w' →
  slice_offset s = 0 → 0 <= slice_size s → 0 <= padding s < persistent_alignment p → eff s <= u64_max →
  key = round_up (persistent_alignment p) (slice_size s) →
  held (storage w') !! slice_id s = (if mapped s then Some key else None) →
  (∀ id, id ≠ slice_id s → held (storage w') !! id = held (storage w) !! id) →
  persistent_inv w'
    (with_kept (kept_slices p ++ [s]) (push_position key (length (kept_slices p)) (sizes p)) p).
Proof.
  intros Hinv Hlen0 Hh Ht (Hev & Hslot & Hlive) Hf Hid Hoff Hsz Hpad Heff Hkey Hheld Hother.
  pose proof Hinv as [Hm (keys & Hix & Hlen & Hk) Hnd Htn Hb Ha Hc Hdev].
  split; cbn; try done.
  - by apply (ev_wf _ _ _ _ Hev).
  - exists (keys ++ [key]). split; [rewrite <- Hlen; by apply indexes_push|].
    split; [rewrite !length_app; cbn; lia|]. intros i k t Hki Hi.
    apply lookup_snoc_Some in Hki as [[Hlt Hki]|[-> <-]].
    + rewrite lookup_app_l in Hi by lia. destruct (Hk i k t Hki Hi) as [Hs ? ? ?].
      split; try done. cbn. eapply slot_evolve; [exact Hm|exact Hev|done|apply not_elem_of_nil..].
    + rewrite Hlen in *. rewrite lookup_middle in Hi. injection Hi as <-.
      split; [by rewrite Hh|done|done|done].
  - unfold handles_of in *. rewrite fmap_app. apply NoDup_app. split_and!; [done| |apply NoDup_singleton].
    intros id Hin%(persistent_known _ _ Hinv) Heq%list_elem_of_singleton. lia.
  - unfold taints_of. rewrite Hf, fmap_app. cbn. rewrite Ht.
    eapply covered_perm; [apply Permutation_app_comm|]. by apply covered_default.
  - rewrite length_app; cbn. lia.
  - rewrite Hkey in Hheld. by eapply kept_device_snoc.
Qed.

Lemma wp_persistent_alloc w p size mapping :
  persistent_inv w p → storage_ok w → 0 <= size → size + persistent_alignment p <= u64_max →
  mapping_room mapping (round_up (persistent_alignment p) size) w →
  COUNTER (memory w) < u64_max → Z.of_nat (length (kept_slices p)) <= u32_max →
  wp (persistent_alloc p size mapping) w (λ '(r, p') w',
    persistent_inv w' p' ∧ storage_ok w' ∧
    keeps_live (memory w) (memory w') (kept_slices p) (kept_slices p') ∧
    match r with
    | Err e => p' = p ∧ memory w' = memory w ∧ held (storage w') = held (storage w)
    | Ok h => ∃ s, kept_reserved w' p' size h (length (kept_slices p)) s ∧
        mapped s = bool_decide (mapping = Eager) ∧ held (storage w) !! slice_id s = None
    end).
Proof.
  intros Hinv Hok Hsize Hfit Hroom Hcount Hlen. unfold persistent_alloc.
  pose proof (per_alignment _ _ Hinv) as Ha.
  destruct (calculate_padding_spec size _ Ha) as (padding_ & Hpad & Hpb & Hdiv).
  pose proof (padding_round_up _ _ _ Ha Hpad) as Hru.
  apply wp_bind. eapply wp_lift; [exact Hpad|].
  apply wp_bind. eapply wp_lift; [by apply add_u64_Some; lia|]. rewrite Hru.
  apply wp_bind. eapply wp_mono; [by apply (wp_mapping_fresh mapping _ w)|].
  intros [h|e] w1 (Hok1 & Hm1 & Hf1 & Hids & Hr).
  2: { apply wp_ret. split_and!; try done; [|by rewrite Hm1].
       destruct Hinv as [? ? ? ? ? ? ? [? Hk Hh]]. split; rewrite ?Hm1, ?Hf1; try done.
       split; [done| |by rewrite Hr]. eapply Forall_impl; [exact Hk|]. cbn. lia. }
  destruct Hr as (Hu & Hid & Hheld & Hfresh).
  pose proof (wp_place_new (memory w) (persistent_base p) _ (per_memory _ _ Hinv) Hcount
    (proj1 (per_base _ _ Hinv)) (conj (Zle_0_nat (length (kept_slices p))) Hlen)) as Hplace.
  apply wp_bind. unfold slice_new. apply wp_bind, wp_on_memory. rewrite Hm1.
  eapply wp_mono; [exact Hplace|]. intros id m2 [-> Hplace2]. apply wp_ret.
  set (s := with_slice_storage _ _). rewrite as_u32_small by lia.
  apply wp_bind, wp_on_memory. cbn [memory with_memory].
  eapply wp_mono; [exact Hplace2|]. intros [] m3 Hplace3.
  apply wp_bind, wp_on_memory. cbn [memory with_memory].
  eapply wp_mono; [exact Hplace3|]. intros [] m4 Hplace4. apply wp_ret.
  set (w' := with_memory m4 _).
  assert (held (storage w') !! slice_id s =
    if mapped s then Some (round_up (persistent_alignment p) size) else None) as Hs.
  { change (held (storage w1) !! storage_id h = if mapped s then Some (round_up (persistent_alignment p) size) else None).
    rewrite Hheld. destruct mapping; cbn; [by rewrite lookup_insert_eq|done]. }
  split; [|split_and!].
  - apply persistent_inv_marks. apply (persistent_snoc w); try done.
    + cbn. unfold eff, slice_size, handle_size. cbn. lia.
    + intros id Hne. change (held (storage w1) !! id = held (storage w) !! id).
      change (slice_id s) with (storage_id h) in Hne.
      rewrite Hheld. destruct mapping; [by rewrite lookup_insert_ne|done].
  - by eapply storage_ok_same.
  - intros t Ht Hf. destruct Hplace4 as (Hev & _). split; [cbn; apply elem_of_app; by left|].
    rewrite <- Hf. apply freed_counts, (ev_counts _ _ _ _ Hev); [|apply not_elem_of_nil].
    by apply (persistent_known _ _ Hinv), handle_in.
  - exists s. split; [|done]. split; try done.
    + cbn. apply lookup_middle.
    + apply Hplace4.
Qed.

(** A reservation in a persistent pool.  It answers the handle of a live
    slice of exactly the size asked, alone in its device allocation, which
    holds that size rounded up to the alignment; [find] leads to it; no live
    slice is moved, changed or lost.  A free slice listed under the padded size
    is reused without asking the storage for anything; only when there is none
    does the pool allocate, once, and not at all when the mapping is lazy.  A
    refusal of the storage leaves the pool as it was. *)
Theorem persistent_reserve_correct w p size mapping :
  persistent_inv w p → storage_ok w → 0 <= size → size + persistent_alignment p <= u64_max →
  mapping_room mapping (round_up (persistent_alignment p) size) w →
  COUNTER (memory w) < u64_max → Z.of_nat (length (kept_slices p)) <= u32_max →
  wp (persistent_reserve p size mapping) w (λ '(r, p') w',
    persistent_inv w' p' ∧ storage_ok w' ∧
    keeps_live (memory w) (memory w') (kept_slices p) (kept_slices p') ∧
    match r with
    | Err e => p' = p ∧ memory w' = memory w ∧ held (storage w') = held (storage w)
    | Ok h => ∃ i s, kept_reserved w' p' size h i s ∧
        wp (persistent_find p' h) w' (λ f w'', f = Ok s ∧ w'' = w') ∧
        ((∃ s0, kept_slices p !! i = Some s0 ∧ freed (memory w) (handle s0) = true ∧
            handle s0 = h ∧ slice_id s0 = slice_id s ∧ storage w' = storage w) ∨
         (no_free_at w p (round_up (persistent_alignment p) size) ∧
          i = length (kept_slices p) ∧ held (storage w) !! slice_id s = None ∧
          mapped s = bool_decide (mapping = Eager)))
    end).
Proof.
  intros Hinv Hok Hsize Hfit Hroom Hcount Hlen. unfold persistent_reserve.
  assert (∀ w' p' h i s, persistent_inv w' p' → kept_reserved w' p' size h i s →
    wp (persistent_find p' h) w' (λ f w'', f = Ok s ∧ w'' = w')) as Hfind.
  { intros w' p' h i s Hinv' [Hi <- _ _ _]. by eapply wp_persistent_find. }
  apply wp_bind. eapply wp_mono; [by apply wp_persistent_try_reserve|].
  intros [r p'] w' (Hinv' & Hok' & Hkeep & Hst & Hr). destruct r as [h|].
  - apply wp_ret. destruct Hr as (i & s & s0 & Hat & Hi & Hfree & Hh & Hid & _).
    split_and!; try done. exists i, s. split; [done|]. split; [by eapply Hfind|]. left. by exists s0.
  - destruct Hr as (-> & -> & Hno).
    eapply wp_mono; [by apply (wp_persistent_alloc w p size mapping)|].
    intros [r p'] w' (Hinv2 & Hok2 & Hkeep2 & Hr). split_and!; try done.
    destruct r as [h|e]; [|done]. destruct Hr as (s & Hat & Hmp & Hnone).
    exists (length (kept_slices p)), s. split; [done|]. split; [by eapply Hfind|]. by right.
Qed.

(** ** Cleaning up *)

(** In the middle of the rebuild: [out] is where the kept slices are, [l] what
    is left of the old ones, from index [start]. *)
Record rebuilding w p (out : list Slice) (start : nat) (l : list Slice) : Prop := mk_rebuilding {
  rb_memory : memory_wf (memory w);
  rb_ok : storage_ok w;
  rb_out i s : out !! i = Some s → slot (memory w) (persistent_base p) (Z.of_nat i) (handle s);
  rb_todo i s : l !! i = Some s →
    slot (memory w) (persistent_base p) (Z.of_nat (start + i)) (handle s);
  rb_distinct : NoDup (handles_of (out ++ l));
  rb_taints : covered (failures w) (taints_of (out ++ l));
  rb_device : kept_device (persistent_alignment p) w (out ++ l);
  rb_sizes : Forall (λ s, slice_offset s = 0 ∧ 0 <= slice_size s ∧
    0 <= padding s < persistent_alignment p ∧ eff s <= u64_max) (out ++ l);
}.

Lemma rebuilding_start w p : persistent_inv w p → storage_ok w → rebuilding w p [] 0 (kept_slices p).
Proof.
  intros Hinv Hok. split; try done.
  - apply (per_memory _ _ Hinv).
  - intros i s Hi. destruct (per_kept _ _ _ _ Hinv Hi) as [key Hk]. apply (kept_slot _ _ _ _ _ Hk).
  - apply (per_distinct _ _ Hinv).
  - apply (per_taints _ _ Hinv).
  - apply (per_device _ _ Hinv).
  - apply Forall_lookup. intros i s Hi. destruct (per_kept _ _ _ _ Hinv Hi) as [key Hk].
    destruct (kept_sizes _ _ _ _ _ Hk) as (?&?&?). split; [apply (kept_offset _ _ _ _ _ Hk)|done].
Qed.

(** The keys after a rebuild are the sizes the slices take. *)
Lemma rebuilding_end w p out start sz :
  0 < persistent_alignment p → location_ok (persistent_base p) ∧ init (persistent_base p) = 1 →
  rebuilding w p out start [] → indexes sz (eff <$> out) →
  Z.of_nat (length out) <= u32_max + 1 → persistent_inv w (with_kept out sz p).
Proof.
  intros Ha Hb Hr Hix Hlen.
  destruct Hr as [Hm Hok Hout _ Hnd Ht Hdev Hsz]. rewrite app_nil_r in *.
  split; cbn; try done. exists (eff <$> out). split; [done|]. split; [by rewrite length_fmap|].
  intros i k s Hk Hs. rewrite list_lookup_fmap, Hs in Hk. injection Hk as <-.
  destruct (proj1 (Forall_lookup _ _) Hsz i s Hs) as (? & ? & ? & ?). split; cbn; try done.
  - by apply Hout.
  - intros Hdiv. apply round_up_unique; [done|done|]. unfold eff. lia.
Qed.

Lemma rebuilding_slot w p out start s l :
  rebuilding w p out start (s :: l) → slot (memory w) (persistent_base p) (Z.of_nat start) (handle s).
Proof. intros Hr. rewrite <- (Nat.add_0_r start). by apply (rb_todo _ _ _ _ _ Hr 0%nat). Qed.
Lemma rebuilding_others w p out start s l :
  rebuilding w p out start (s :: l) → ∀ t, t ∈ out ++ l → handle t ∉ [handle s].
Proof.
  intros Hr t Ht Heq%list_elem_of_singleton. pose proof (rb_distinct _ _ _ _ _ Hr) as Hnd.
  unfold handles_of in Hnd. rewrite <- Permutation_middle in Hnd. cbn in Hnd.
  apply NoDup_cons in Hnd as [Hni _]. apply Hni. rewrite <- Heq. by apply list_elem_of_fmap_2.
Qed.
Lemma rebuilding_slots w w' p out start s l moved counted :
  rebuilding w p out start (s :: l) → evolve moved counted (memory w) (memory w') →
  (∀ id, id ∈ moved ++ counted → id = handle s) →
  (∀ i t, out !! i = Some t → slot (memory w') (persistent_base p) (Z.of_nat i) (handle t)) ∧
  (∀ i t, l !! i = Some t → slot (memory w') (persistent_base p) (Z.of_nat (S start + i)) (handle t)).
Proof.
  intros Hr Hev Hmc.
  assert (∀ t k, t ∈ out ++ l → slot (memory w) (persistent_base p) k (handle t) →
    slot (memory w') (persistent_base p) k (handle t)) as Hslot.
  { intros t k Ht Hs. pose proof (rebuilding_others _ _ _ _ _ _ Hr t Ht) as Hne.
    eapply slot_evolve; [apply (rb_memory _ _ _ _ _ Hr)|exact Hev|done|..]; intros Hin; apply Hne;
      rewrite (Hmc (handle t)) by (apply elem_of_app; tauto); by left. }
  split; intros i t Hi; apply Hslot.
  - apply elem_of_app. left. by eapply list_elem_of_lookup_2.
  - by apply (rb_out _ _ _ _ _ Hr).
  - apply elem_of_app. right. by eapply list_elem_of_lookup_2.
  - replace (S start + i)%nat with (start + S i)%nat by lia. by apply (rb_todo _ _ _ _ _ Hr (S i)).
Qed.

(** A free slice goes, and its allocation with it. *)
Lemma rebuilding_drop w p out start s l m g w1 :
  rebuilding w p out start (s :: l) → storage_ok w1 → storage_ids w1 = storage_ids w →
  held (storage w1) = give_slice (held (storage w)) s →
  evolve [] [handle s] (memory w) m → released (failures w) g [tainted s] →
  rebuilding (mk_World m g (storage_ids w1) (storage w1)) p out (S start) l.
Proof.
  intros Hr Hok1 Hids1 Hh1 Hev Hrel.
  destruct (rebuilding_slots w (mk_World m g (storage_ids w1) (storage w1)) _ _ _ _ _ _ _ Hr Hev)
    as [Hs1 Hs2].
  { intros id Hin. set_solver. }
  assert (out ++ s :: l ≡ₚ s :: out ++ l) as Hp by by rewrite Permutation_middle.
  destruct Hr as [Hm Hok _ _ Hnd Ht Hdev Hsz]. split; try done.
  - by apply (ev_wf _ _ _ _ Hev).
  - by eapply storage_ok_same.
  - unfold handles_of in *. rewrite Hp in Hnd. by apply NoDup_cons in Hnd as [_ ?].
  - eapply covered_released, Hrel. eapply covered_perm, Ht. unfold taints_of. by rewrite Hp.
  - eapply (device_ok_perm _ _ _ _ Hp) in Hdev. apply device_ok_cons in Hdev as (Hni & _ & _ & Hdev).
    eapply device_ok_held, Hdev; cbn; [lia|]. intros id Hid. rewrite Hh1.
    apply give_slice_other. by intros ->.
  - rewrite Hp in Hsz. by apply Forall_cons in Hsz as [_ ?].
Qed.

(** A live slice moves to the end of what is kept. *)
Lemma rebuilding_keep w p out start s l m :
  rebuilding w p out start (s :: l) → evolve [handle s] [] (memory w) m →
  slot m (persistent_base p) (Z.of_nat (length out)) (handle s) →
  rebuilding (with_memory m w) p (out ++ [s]) (S start) l.
Proof.
  intros Hr Hev Hslot.
  destruct (rebuilding_slots w (with_memory m w) _ _ _ _ _ _ _ Hr Hev) as [Hs1 Hs2].
  { intros id Hin. set_solver. }
  destruct Hr as [Hm Hok _ _ Hnd Ht Hdev Hsz]. split; rewrite <- ?app_assoc; try done.
  - by apply (ev_wf _ _ _ _ Hev).
  - by eapply storage_ok_same.
  - intros i t [[Hlt Hi]|[-> <-]]%lookup_snoc_Some; [by apply Hs1|done].
  - by eapply device_ok_held, Hdev.
Qed.

Lemma filter_same {A} (P Q : A → Prop) `{!∀ x, Decision (P x), !∀ x, Decision (Q x)} (l : list A) :
  (∀ x, x ∈ l → P x ↔ Q x) → filter P l = filter Q l.
Proof.
  induction l as [|x l IH]; intros Hpq; [done|]. rewrite !filter_cons.
  rewrite IH by (intros y Hy; apply Hpq; by right). pose proof (Hpq x ltac:(by left)).
  by repeat case_decide; try tauto.
Qed.

Definition kept_of (m : Memory) (l : list Slice) : list Slice :=
  filter (λ s, freed m (handle s) = false) l.
Definition gone_of (m : Memory) (l : list Slice) : list Slice :=
  filter (λ s, freed m (handle s) = true) l.

Lemma kept_gone_same m m' l :
  (∀ s, s ∈ l → freed m' (handle s) = freed m (handle s)) →
  kept_of m' l = kept_of m l ∧ gone_of m' l = gone_of m l.
Proof. intros Hf. by split; apply filter_same; intros s Hs; rewrite Hf. Qed.

Lemma kept_gone_perm m l : l ≡ₚ gone_of m l ++ kept_of m l.
Proof.
  induction l as [|s l IH]; [done|]. unfold gone_of, kept_of in *. rewrite !filter_cons.
  rewrite IH at 1. destruct (freed m (handle s)); repeat case_decide; try done.
  by rewrite Permutation_middle.
Qed.
Lemma kept_of_in m l s : s ∈ kept_of m l → s ∈ l.
Proof. intros Hs. rewrite (kept_gone_perm m l). apply elem_of_app. by right. Qed.
Lemma kept_gone_cons m s l :
  (kept_of m (s :: l), gone_of m (s :: l)) =
  if freed m (handle s) then (kept_of m l, s :: gone_of m l) else (s :: kept_of m l, gone_of m l).
Proof. unfold kept_of, gone_of. rewrite !filter_cons. by destruct (freed m (handle s)). Qed.

Definition rebuilt w w' p (out : list Slice) (start : nat) (l out' : list Slice)
    (sz' : gmap Z (list nat)) : Prop :=
  out' = out ++ kept_of (memory w) l ∧
  rebuilding w' p out' (start + length l) [] ∧ indexes sz' (eff <$> out') ∧
  held (storage w') = give_slices (held (storage w)) (gone_of (memory w) l) ∧
  released (failures w) (failures w') (taints_of (gone_of (memory w) l)) ∧
  ∀ s, s ∈ out' → freed (memory w') (handle s) = freed (memory w) (handle s).

Lemma wp_rebuild_loop l p out start sz w :
  rebuilding w p out start l → indexes sz (eff <$> out) →
  Z.of_nat (length out + length l) <= u32_max + 1 → 0 < persistent_alignment p →
  location_ok (persistent_base p) →
  wp (rebuild_loop l out sz) w (λ '(out', sz') w', rebuilt w w' p out start l out' sz').
Proof.
  intros Hr Hix Hlen Ha Hb. revert out start sz w Hr Hix Hlen.
  induction l as [|s l IH]; intros out start sz w Hr Hix Hlen; cbn [rebuild_loop].
  { apply wp_ret. split_and!; [by rewrite app_nil_r|by rewrite Nat.add_0_r|done|done|apply released_nil|done]. }
  pose proof (rebuilding_slot _ _ _ _ _ _ Hr) as Hslot. pose proof (rb_memory _ _ _ _ _ Hr) as Hm.
  pose proof (rebuilding_others _ _ _ _ _ _ Hr) as Hne.
  assert (out ++ s :: l ≡ₚ s :: out ++ l) as Hp by by rewrite Permutation_middle.
  assert (∀ m moved counted, evolve moved counted (memory w) m → counted = [handle s] ∨ counted = [] →
    ∀ t, t ∈ out ++ l → freed m (handle t) = freed (memory w) (handle t)) as Hsame.
  { intros m moved counted Hev Hc t Ht. apply freed_counts, (ev_counts _ _ _ _ Hev).
    - assert (t ∈ out ++ s :: l) as Hin by (rewrite Hp; by right).
      apply elem_of_app in Hin as [[i Hi]%list_elem_of_lookup|[i Hi]%list_elem_of_lookup].
      + by eapply (slot_known _ _ _ _ Hm), (rb_out _ _ _ _ _ Hr).
      + by eapply (slot_known _ _ _ _ Hm), (rb_todo _ _ _ _ _ Hr).
    - destruct Hc as [->| ->]; [by apply Hne|apply not_elem_of_nil]. }
  apply wp_bind, (wp_slice_is_free (persistent_base p)); [by eexists|].
  destruct (freed (memory w) (handle s)) eqn:Hf.
  - apply wp_bind, wp_on_failures. eapply (wp_clear_released _ (taints_of (out ++ l))).
    { eapply covered_perm, (rb_taints _ _ _ _ _ Hr). unfold taints_of. by rewrite Hp. }
    intros g Hrel Hcov. apply wp_bind, wp_give_slice.
    { by eapply storage_ok_same; [apply (rb_ok _ _ _ _ _ Hr)|..]. }
    intros w1 Hok1 Hm1 Hf1 Hids1 Hh1. apply wp_bind, wp_on_memory. rewrite Hm1.
    destruct Hslot as (d & Hd & Hl & Hd1). eapply wp_drop_owner; [exact Hm|exact Hd|done|].
    intros m Hev Hc. replace (with_memory m w1) with (mk_World m g (storage_ids w1) (storage w1))
      by (unfold with_memory; by rewrite Hf1).
    pose proof (rebuilding_drop _ _ _ _ _ _ m g w1 Hr Hok1 Hids1 Hh1 Hev Hrel) as Hr'.
    eapply wp_mono; [apply (IH _ _ _ _ Hr'); [done|cbn in Hlen; lia]|].
    intros [out' sz'] w' (-> & Hr2 & Hix2 & Hh2 & Hrel2 & Hsame2). cbn [memory failures storage] in *.
    destruct (kept_gone_same (memory w) m l) as [Hk Hg].
    { intros t Ht. apply (Hsame m _ _ Hev); [by left|]. apply elem_of_app. by right. }
    rewrite Hk in *. rewrite Hg in *.
    pose proof (kept_gone_cons (memory w) s l) as Hkg. rewrite Hf in Hkg. injection Hkg as Hk' Hg'.
    split_and!; rewrite ?Hk', ?Hg'; try done.
    + cbn. by rewrite Nat.add_succ_r.
    + cbn. unfold give_slices in *. rewrite Hh2, Hh1. done.
    + eapply (released_app _ g _ [tainted s]); [|done|done].
      eapply (covered_app_l _ _ (taints_of (out ++ kept_of (memory w) l))), covered_perm, (rb_taints _ _ _ _ _ Hr).
      unfold taints_of. rewrite Hp, (kept_gone_perm (memory w) l) at 1. cbn. f_equiv.
      rewrite !fmap_app. solve_Permutation.
    + intros t Ht. rewrite Hsame2 by done. apply (Hsame m _ _ Hev); [by left|].
      apply elem_of_app in Ht as [Ht|Ht%kept_of_in]; apply elem_of_app; tauto.
  - assert (effective_size s = Some (eff s)) as Heff.
    { apply add_u64_Some. pose proof (rb_sizes _ _ _ _ _ Hr) as Hsz. rewrite Hp in Hsz.
      apply Forall_cons in Hsz as [? _]. tauto. }
    apply wp_bind. eapply wp_lift; [exact Heff|]. apply wp_bind, wp_on_memory.
    cbn in Hlen. rewrite as_u32_small by lia.
    eapply (wp_slot_update_slice _ _ Hm); [exact Hslot|done|lia|]. intros m Hev Hc Hslot'.
    pose proof (rebuilding_keep _ _ _ _ _ _ m Hr Hev Hslot') as Hr'.
    assert (indexes (push_position (eff s) (length out) sz) (eff <$> out ++ [s])) as Hix'.
    { rewrite fmap_app, <- (length_fmap eff out). by apply indexes_push. }
    eapply wp_mono; [apply (IH _ _ _ _ Hr' Hix'); rewrite length_app; cbn; lia|].
    intros [out' sz'] w' (-> & Hr2 & Hix2 & Hh2 & Hrel2 & Hsame2).
    cbn [memory failures storage with_memory] in *.
    assert (∀ t, t ∈ out ++ s :: l → freed m (handle t) = freed (memory w) (handle t)) as Hsame'.
    { intros t. rewrite Hp. intros [->|Ht]%elem_of_cons; [|by apply (Hsame m _ _ Hev); [right|]].
      apply freed_counts, (ev_counts _ _ _ _ Hev); [|apply not_elem_of_nil].
      by eapply (slot_known _ _ _ _ Hm). }
    destruct (kept_gone_same (memory w) m l) as [Hk Hg].
    { intros t Ht. apply Hsame', elem_of_app. right. by right. }
    rewrite Hk in *. rewrite Hg in *.
    pose proof (kept_gone_cons (memory w) s l) as Hkg. rewrite Hf in Hkg. injection Hkg as Hk' Hg'.
    rewrite <- app_assoc in *. cbn [app] in *.
    split_and!; rewrite ?Hk', ?Hg'; try done.
    + cbn. by rewrite Nat.add_succ_r.
    + intros t Ht. rewrite Hsame2 by done. apply Hsame'.
      apply elem_of_app in Ht as [Ht|[->|Ht%kept_of_in]%elem_of_cons]; apply elem_of_app; [by left|right..].
      * by left.
      * by right.
Qed.

(** Cleaning up a persistent pool.  The periodic cleanup does nothing.  An
    explicit one keeps exactly the live slices, in their order, each where
    [find] leads to from its handle, and lists every one of them under the
    bytes it takes; every free slice goes back, with its claims and, if it was
    mapped, its device allocation; nothing else is given back. *)
Theorem persistent_cleanup_correct w p cleanup :
  persistent_inv w p → storage_ok w →
  wp (persistent_cleanup p cleanup) w (λ p' w',
    persistent_inv w' p' ∧ storage_ok w' ∧
    keeps_live (memory w) (memory w') (kept_slices p) (kept_slices p') ∧
    match cleanup with
    | Periodic => p' = p ∧ w' = w
    | Explicit =>
        let gone := gone_of (memory w) (kept_slices p) in
        kept_slices p' = kept_of (memory w) (kept_slices p) ∧
        indexes (sizes p') (eff <$> kept_slices p') ∧
        held (storage w') = give_slices (held (storage w)) gone ∧
        released (failures w) (failures w') (taints_of gone) ∧
        ∀ s, s ∈ kept_slices p' → wp (persistent_find p' (handle s)) w' (λ f w'', f = Ok s ∧ w'' = w')
    end).
Proof.
  intros Hinv Hok. unfold persistent_cleanup. destruct cleanup; cbn [decide].
  { apply wp_ret. split_and!; try done. }
  pose proof (per_alignment _ _ Hinv) as Ha. destruct (per_base _ _ Hinv) as [Hb Hb1].
  pose proof (per_count _ _ Hinv) as Hcount.
  apply wp_bind. eapply wp_mono; [apply (wp_rebuild_loop _ p [] 0 ∅ w (rebuilding_start _ _ Hinv Hok));
    [apply indexes_empty|done..]|].
  intros [out' sz'] w1 (-> & Hr & Hix & Hh & Hrel & Hsame). cbn [app] in *.
  apply wp_bind, wp_modify, wp_ret. destruct (storage_flush_ok w1 (rb_ok _ _ _ _ _ Hr)) as [Hok' Hheld].
  set (w' := with_storage _ w1) in *.
  assert (held (storage w') = held (storage w1)) as Hheld' by exact Hheld. set (kept := kept_of (memory w) (kept_slices p)) in *.
  assert (rebuilding w' p kept (length (kept_slices p)) []) as Hr'.
  { destruct Hr as [Hm _ Ho Ht Hn Htn Hd Hs]. split; try done.
    eapply device_ok_held, Hd; [done|]. intros id _. by rewrite Hheld'. }
  assert (persistent_inv w' (with_kept kept sz' p)) as Hinv'.
  { eapply rebuilding_end; [done|done|exact Hr'|exact Hix|].
    assert (length kept <= length (kept_slices p))%nat; [|lia].
    unfold kept. pose proof (Permutation_length (kept_gone_perm (memory w) (kept_slices p))) as Hl.
    rewrite length_app in Hl. lia. }
  split_and!; [done|done| |done|done|by rewrite Hheld'|done|].
  - intros s Hs Hf. assert (s ∈ kept) as Hk by (apply list_elem_of_filter; done).
    split; [done|]. rewrite <- Hf. by apply Hsame.
  - intros s [i Hi]%list_elem_of_lookup. by eapply wp_persistent_find.
Qed.
End persistent_specs.

Section witnesses.
Let answer (st : Bytes.BytesStorage) (n : Z) : bool := true.
#[local] Instance persistent_bytes : ComputeStorage Bytes.BytesStorage :=
  Bytes.storage_bytes_storage answer.
#[local] Instance persistent_bytes_laws : ComputeStorageLaws Bytes.BytesStorage :=
  Bytes.bytes_storage_laws answer.

(** Two slices listed under eight bytes, the first one free. *)
Definition persistent_example : PersistentPool :=
  let st k n := mk_StorageHandle k (mk_StorageUtilization 0 n) in
  mk_PersistentPool
    [mk_Slice (st 7 6) 0 2 5 true taint_default; mk_Slice (st 5 8) 1 0 0 true taint_default]
    {[ 8 := [0; 1]%nat ]} 4 1024 (location_new 255 0 0) 2 8.
Definition persistent_world : World Bytes.BytesStorage :=
  let d k h b := mk_Descriptor (to_bits (location_new 255 0 k)) h b in
  mk_World (mk_Memory 2 {[ 0 := d 0 1 0; 1 := d 1 1 1 ]}) graph_default 8
    (Bytes.mk_BytesStorage {[ 7 := 8; 5 := 8 ]} 16).

Lemma persistent_world_ok : storage_ok persistent_world.
Proof.
  split; cbn; [lia|]. split; [reflexivity|]. intros id n Hn.
  apply lookup_insert_Some in Hn as [[<- <-]|[_ [<- <-]%lookup_singleton_Some]]; lia.
Qed.
Lemma persistent_example_inv : persistent_inv persistent_world persistent_example.
Proof.
  split.
  - split; [cbn; lia|]. apply (bool_decide_unpack (map_Forall (λ id d,
      0 <= id < 2 ∧ 0 <= handles d ∧ 0 <= bindings d) (descriptors (memory persistent_world)))).
    vm_compute. exact I.
  - exists [8; 8]. split; [|split; [done|]].
    + intros k. destruct (decide (k = 8)) as [->|Hk]; [done|]. cbn.
      rewrite lookup_singleton_ne by done. by rewrite !decide_False.
    + intros [|[|i]] k s [= <-] [= <-]; (split; [by eexists|done|cbn; unfold eff, slice_size; cbn; lia|done]).
  - apply (bool_decide_unpack _). vm_compute. exact I.
  - split; [repeat (constructor; [apply taint_default_ok|]); constructor|].
    intros f. unfold tags. cbn. rewrite lookup_empty. done.
  - split; [|done]. unfold location_ok; cbn. lia.
  - cbn. lia.
  - cbn. lia.
  - split.
    + apply (bool_decide_unpack _). vm_compute. exact I.
    + cbn. repeat (constructor; [cbn; lia|]). constructor.
    + cbn. repeat (constructor; [reflexivity|]). constructor.
Qed.

Lemma persistent_reserve_correct_witness :
  wp (persistent_reserve persistent_example 7 Eager) persistent_world (λ '(r, p') w',
    persistent_inv w' p' ∧ storage_ok w').
Proof.
  eapply wp_mono; [apply (persistent_reserve_correct persistent_world persistent_example 7 Eager
    persistent_example_inv persistent_world_ok)|].
  - lia.
  - cbn. lia.
  - change (Bytes.room 8 persistent_world). unfold Bytes.room, Bytes.ALIGNMENT; cbn. lia.
  - cbn. lia.
  - cbn. lia.
  - intros [r p'] w' (? & ? & _). split; assumption.
Defined.

Lemma persistent_cleanup_correct_witness :
  wp (persistent_cleanup persistent_example Explicit) persistent_world (λ p' w',
    persistent_inv w' p' ∧ slice_id <$> kept_slices p' = [5]).
Proof.
  eapply wp_mono; [apply (persistent_cleanup_correct persistent_world persistent_example Explicit
    persistent_example_inv persistent_world_ok)|].
  intros p' w' (? & _ & _ & Hk & _). split; [assumption|]. rewrite Hk. reflexivity.
Defined.

(** Reserve under a dry run, drop, reserve a little less, resolve, drop, and
    reserve the first size again. *)
Definition shrink_and_regrow (p : PersistentPool) (large small : Z) :
    M (World Bytes.BytesStorage) (option ManagedMemoryId * PersistentPool) :=
  '(r, p) ← persistent_reserve p large Lazy;
  match r with
  | Err _ => mret (None, p)
  | Ok h =>
      _ ← on_memory (handle_drop h);
      '(r, p) ← persistent_try_reserve p small;
      match r with
      | None => mret (None, p)
      | Some h =>
          '(_, p) ← persistent_materialize p h;
          _ ← on_memory (handle_drop h);
          persistent_try_reserve p large
      end
  end.

(** [try_reserve] gives a reused slice its new size and leaves the padding
    of the old one, so that the bytes the slice takes are not those it is
    listed under any more.  A lazily reserved slice of eight bytes that is
    reused for five is backed by five bytes when it is resolved, and is then
    handed out again for eight: the client holds a handle of a live slice of
    eight bytes in a device allocation of five. *)
Theorem persistent_padding_drift :
  wp (shrink_and_regrow (persistent_new 1024 4 255) 8 5)
    (mk_World (mk_Memory 0 ∅) graph_default 0 (Bytes.mk_BytesStorage ∅ 0)) (λ '(r, p) w,
    ∃ h s, r = Some h ∧ persistent_find p h w = Some (Ok s, w) ∧ handle s = h ∧
      freed (memory w) h = false ∧ mapped s = true ∧ slice_offset s = 0 ∧
      slice_size s = 8 ∧ held (storage w) !! slice_id s = Some 5).
Proof.
  apply wp_spec. eexists _, _. split; [vm_compute; reflexivity|].
  eexists _, _. split_and!; [reflexivity|vm_compute; reflexivity|reflexivity..].
Qed.
End witnesses.
