(* ===== verification/ExclusivePool.v ===== *)
(** * Exclusive pools

    [cubecl-server/src/memory_management/memory_pool/exclusive_pool.rs]: a pool
    that gives every allocation a page of its own and reuses the pages that
    are free; and [dynamic/exclusive.rs]: a pool for every bucket of sizes.
    The average size and the bucket sizes are 64-bit floats, modelled by the
    binary floats of the Standard Library; the logarithm and the exponential
    of the platform are parameters. *)

From Stdlib Require Import SpecFloat.
From S2P Require Export PersistentPool.
From stdpp Require Import list strings pretty.
#[local] Open Scope Z_scope.

(** ** Floats *)
Abbreviation f64 := spec_float.
Definition f64_of (n : Z) : f64 := binary_normalize 53 1024 n 0 false.
Definition f64_add : f64 → f64 → f64 := SFadd 53 1024.
Definition f64_sub : f64 → f64 → f64 := SFsub 53 1024.
Definition f64_mul : f64 → f64 → f64 := SFmul 53 1024.
Definition f64_div : f64 → f64 → f64 := SFdiv 53 1024.
(** [as u64]: towards zero, within the range. *)
Definition f64_to_u64 (x : f64) : Z :=
  match x with
  | S754_infinity false => u64_max
  | S754_finite false m e =>
      Z.min u64_max (if 0 <=? e then Zpos m * 2 ^ e else Zpos m / 2 ^ (- e))
  | _ => 0
  end.
(** [round] of a positive number: halves go up. *)
Definition f64_round (x : f64) : f64 :=
  match x with
  | S754_finite false m e => if 0 <=? e then x else f64_of ((2 * Zpos m + 2 ^ (- e)) / 2 ^ (1 - e))
  | _ => x
  end.

(** [SIZE_AVG_DECAY], 0.01. *)
Definition SIZE_AVG_DECAY : f64 := S754_finite false 5764607523034235 (-59).
Definition ALLOC_AFTER_FREE : Z := 5.

Example decay_ex : SIZE_AVG_DECAY = f64_div (f64_of 1) (f64_of 100).
Proof. vm_compute. reflexivity. Qed.

(** ** The pool *)
Record ExclusivePage := mk_ExclusivePage {
  page_slice : Slice;
  alloc_size : Z;
  free_count : Z;
}.
Record ExclusiveLayout := mk_ExclusiveLayout {
  layout_max_alloc_size : Z;
  layout_alignment : Z;
  layout_dealloc_period : Z;
  layout_pool : Z;
}.
Record ExclusiveMemoryPool := mk_ExclusivePool {
  excl_pages : list ExclusivePage;
  excl_alignment : Z;
  dealloc_period : Z;
  last_dealloc_check : Z;
  excl_max_alloc_size : Z;
  cur_avg_size : f64;
  excl_base : MemoryLocation;
  excl_peak : Z;
  excl_largest : Z;
}.
Definition with_excl_pages (l : list ExclusivePage) (p : ExclusiveMemoryPool) : ExclusiveMemoryPool :=
  mk_ExclusivePool l (excl_alignment p) (dealloc_period p) (last_dealloc_check p) (excl_max_alloc_size p)
    (cur_avg_size p) (excl_base p) (excl_peak p) (excl_largest p).
Definition with_excl_check (n : Z) (p : ExclusiveMemoryPool) : ExclusiveMemoryPool :=
  mk_ExclusivePool (excl_pages p) (excl_alignment p) (dealloc_period p) n (excl_max_alloc_size p)
    (cur_avg_size p) (excl_base p) (excl_peak p) (excl_largest p).
Definition with_excl_avg (x : f64) (p : ExclusiveMemoryPool) : ExclusiveMemoryPool :=
  mk_ExclusivePool (excl_pages p) (excl_alignment p) (dealloc_period p) (last_dealloc_check p)
    (excl_max_alloc_size p) x (excl_base p) (excl_peak p) (excl_largest p).
Definition with_excl_marks (peak largest : Z) (p : ExclusiveMemoryPool) : ExclusiveMemoryPool :=
  mk_ExclusivePool (excl_pages p) (excl_alignment p) (dealloc_period p) (last_dealloc_check p)
    (excl_max_alloc_size p) (cur_avg_size p) (excl_base p) peak largest.

(** The remainder and the assertion panic. *)
Definition exclusive_new (layout : ExclusiveLayout) : option ExclusiveMemoryPool :=
  if decide (layout_alignment layout = 0) then None
  else if decide (layout_max_alloc_size layout mod layout_alignment layout = 0) then
    Some (mk_ExclusivePool [] (layout_alignment layout) (layout_dealloc_period layout) 0
            (layout_max_alloc_size layout) (f64_div (f64_of (layout_max_alloc_size layout)) (f64_of 2))
            (location_new (layout_pool layout) 0 0) 0 0)
  else None.
Definition exclusive_accept (p : ExclusiveMemoryPool) (size : Z) : bool := size <=? excl_max_alloc_size p.

(** A page serves [size] bytes: the whole of it for the slice. *)
Definition serve (size padding : Z) (s : Slice) : Slice :=
  with_padding padding (with_slice_storage (with_utilization (mk_StorageUtilization 0 size) (slice_storage s)) s).

Section exclusive.
Context {St : Type} `{ComputeStorage St}.

(** [filter] and [min_by_key]: the first of the free pages that fit whose
    count is the least. *)
Fixpoint get_free_page (pages : list ExclusivePage) (size : Z) (index : nat) (best : option (nat * Z)) :
    M (World St) (option nat) :=
  match pages with
  | [] => mret (fst <$> best)
  | page :: pages =>
      free ← (if size <=? alloc_size page then slice_is_free (page_slice page) else mret false);
      let best := if free : bool then
                    match best with
                    | Some (_, c) => if free_count page <? c then Some (index, free_count page) else best
                    | None => Some (index, free_count page)
                    end
                  else best in
      get_free_page pages size (S index) best
  end.

(** The exponential moving average of the sizes asked for. *)
Definition averaged (p : ExclusiveMemoryPool) (size : Z) : ExclusiveMemoryPool :=
  with_excl_avg (f64_add (f64_mul (cur_avg_size p) (f64_sub (f64_of 1) SIZE_AVG_DECAY))
                         (f64_mul (f64_of size) SIZE_AVG_DECAY)) p.
Definition exclusive_try_reserve (p : ExclusiveMemoryPool) (size : Z) :
    M (World St) (option ManagedMemoryId * ExclusiveMemoryPool) :=
  let p := averaged p size in
  padding ← lift (calculate_padding size (excl_alignment p));
  found ← get_free_page (excl_pages p) size 0 None;
  match found with
  | None => mret (None, p)
  | Some index =>
      page ← lift (excl_pages p !! index);
      let page := mk_ExclusivePage (serve size padding (page_slice page)) (alloc_size page)
                    (sat_sub (free_count page) 1) in
      _ ← on_memory (handle_clone (handle (page_slice page)));
      let p := with_excl_pages (<[index := page]> (excl_pages p)) p in
      mret (Some (handle (page_slice page)), with_excl_marks (excl_peak p) (Z.max (excl_largest p) size) p)
  end.

Definition exclusive_alloc_page (p : ExclusiveMemoryPool) (size : Z) :
    M (World St) (result nat IoError * ExclusiveMemoryPool) :=
  alloc_size ← lift (next_multiple_of (Z.max (f64_to_u64 (cur_avg_size p)) size) (excl_alignment p));
  r ← storage_alloc alloc_size;
  match r with
  | Err e => mret (Err e, p)
  | Ok storage =>
      padding ← lift (calculate_padding size (excl_alignment p));
      s ← slice_new storage padding;
      let l := excl_pages p ++ [mk_ExclusivePage (serve size padding s) alloc_size (ALLOC_AFTER_FREE - 1)] in
      let p := with_excl_pages l p in
      mret (Ok (length l - 1)%nat, with_excl_marks (Z.max (excl_peak p) (Z.of_nat (length l))) (excl_largest p) p)
  end.
Definition exclusive_alloc (p : ExclusiveMemoryPool) (size : Z) :
    M (World St) (result ManagedMemoryId IoError * ExclusiveMemoryPool) :=
  if excl_max_alloc_size p <? size then mret (Err (BufferTooBig size), p)
  else
    '(r, p) ← exclusive_alloc_page p size;
    match r with
    | Err e => mret (Err e, p)
    | Ok idx =>
        page ← lift (excl_pages p !! idx);
        let id := handle (page_slice page) in
        _ ← on_memory (handle_clone id);
        _ ← on_memory (update_location id (with_page (as_u16 (Z.of_nat idx)) (excl_base p)));
        mret (Ok id, with_excl_marks (excl_peak p) (Z.max (excl_largest p) size) p)
    end.

Definition exclusive_guard (p : ExclusiveMemoryPool) (location : MemoryLocation) :
    M (World St) (option ManagedMemoryId) :=
  match excl_pages p !! Z.to_nat (Handle.page location) with
  | None => mret None
  | Some page =>
      _ ← on_memory (handle_clone (handle (page_slice page))); _ ← on_memory (binding (handle (page_slice page)));
      mret (Some (handle (page_slice page)))
  end.

Definition exclusive_usage (p : ExclusiveMemoryPool) : M (World St) MemoryUsage :=
  used ← used_slices (page_slice <$> excl_pages p);
  in_use ← lift (sum_u64 (slice_size <$> used));
  padding ← lift (sum_u64 (padding <$> used));
  reserved ← lift (sum_u64 (alloc_size <$> excl_pages p));
  mret (mk_MemoryUsage (Z.of_nat (length used)) in_use padding reserved).
Definition exclusive_report (p : ExclusiveMemoryPool) : M (World St) MemoryPoolReport :=
  usage ← exclusive_usage p;
  mret (mk_MemoryPoolReport (KindExclusive (excl_max_alloc_size p)) usage
          (Z.of_nat (length (excl_pages p))) (excl_peak p) 0 (excl_largest p)).

(** The loop of [cleanup], with the pages kept so far. *)
Fixpoint sweep_loop (cleanup : Cleanup) (l pages_tmp : list ExclusivePage) :
    M (World St) (list ExclusivePage) :=
  match l with
  | [] => mret pages_tmp
  | page :: l =>
      let keep page :=
        _ ← on_memory (update_page (handle (page_slice page)) (as_u16 (Z.of_nat (length pages_tmp))));
        sweep_loop cleanup l (pages_tmp ++ [page]) in
      free ← slice_is_free (page_slice page);
      if free : bool then
        free_count ← lift (if decide (free_count page + 1 <= u32_max) then Some (free_count page + 1) else None);
        if (ALLOC_AFTER_FREE <=? free_count) || bool_decide (cleanup = Explicit) then
          _ ← on_failures (clear (tainted (page_slice page)));
          _ ← dealloc (storage_id (slice_storage (page_slice page)));
          _ ← slice_drop (page_slice page);
          sweep_loop cleanup l pages_tmp
        else keep (mk_ExclusivePage (page_slice page) (alloc_size page) free_count)
      else keep page
  end.
Definition exclusive_cleanup (p : ExclusiveMemoryPool) (alloc_nr : Z) (cleanup : Cleanup) :
    M (World St) ExclusiveMemoryPool :=
  let check_period := dealloc_period p / ALLOC_AFTER_FREE in
  due ← (if bool_decide (cleanup = Explicit) then mret true
         else since ← lift (sub_u64 alloc_nr (last_dealloc_check p)); mret (check_period <=? since));
  if due : bool then
    l ← sweep_loop cleanup (excl_pages p) [];
    mret (with_excl_pages l (with_excl_check alloc_nr p))
  else mret p.

(** Periodic cleanups at the allocation counts [nrs]. *)
Fixpoint cleanups (p : ExclusiveMemoryPool) (nrs : list Z) : M (World St) ExclusiveMemoryPool :=
  match nrs with
  | [] => mret p
  | n :: nrs => p ← exclusive_cleanup p n Periodic; cleanups p nrs
  end.

Definition exclusive_bind (p : ExclusiveMemoryPool) (old new : ManagedMemoryId) (cursor : Z) :
    M (World St) (result unit IoError * ExclusiveMemoryPool) :=
  location_ ← on_memory (location old);
  let index := Z.to_nat (Handle.page location_) in
  page ← lift (excl_pages p !! index);
  _ ← on_memory (update_location new location_);
  s ← slice_bind (page_slice page) new;
  _ ← on_memory (handle_drop old);
  mret (Ok tt, with_excl_pages (<[index := mk_ExclusivePage (with_cursor cursor s) (alloc_size page) (free_count page)]>
                                  (excl_pages p)) p).

Definition exclusive_find (p : ExclusiveMemoryPool) (binding : ManagedMemoryId) :
    M (World St) (result Slice IoError) :=
  location ← on_memory (location binding);
  mret (match excl_pages p !! Z.to_nat (Handle.page location) with
        | Some page => Ok (page_slice page)
        | None => Err (NotFound ("Memory page " +:+ pretty (Handle.page location) +:+ " doesn't exist"))
        end).
End exclusive.

(** ** A pool per bucket of sizes *)
Definition MIN_BUCKET_SIZE : Z := 1024 * 32.
Definition MAX_BUCKETS : nat := 24.
Definition BASE_DEALLOC_PERIOD : Z := 5000.
Definition DEALLOC_SCALE : Z := 1024 * 1024 * 1024.

(** [Vec::dedup] *)
Fixpoint vec_dedup (l : list Z) : list Z :=
  match l with
  | x :: (y :: _) as l => if x =? y then vec_dedup l else x :: vec_dedup l
  | _ => l
  end.

Section buckets.
Context (ln exp : f64 → f64).
Definition bucket_size (max_size alignment : Z) (index : nat) : option Z :=
  let log_min := ln (f64_of MIN_BUCKET_SIZE) in
  let log_range := f64_sub (ln (f64_of max_size)) log_min in
  let position := f64_div (f64_of (Z.of_nat index)) (f64_of (Z.of_nat MAX_BUCKETS - 1)) in
  next_multiple_of (f64_to_u64 (exp (f64_add log_min (f64_mul log_range position)))) alignment.
Definition bucket_sizes (max_size alignment : Z) : option (list Z) :=
  vec_dedup <$> mapM (bucket_size max_size alignment) (seq 0 MAX_BUCKETS).

Definition dealloc_period_of (size : Z) : Z :=
  f64_to_u64 (f64_mul (f64_of BASE_DEALLOC_PERIOD)
    (f64_round (f64_add (f64_of 1) (f64_div (f64_of size) (f64_of DEALLOC_SCALE))))).
Definition exclusive_pools_new (max_page_size alignment : Z) : option (list ExclusiveMemoryPool) :=
  sizes ← bucket_sizes max_page_size alignment;
  mapM (λ '(index, size), exclusive_new
    (mk_ExclusiveLayout size alignment (dealloc_period_of size) (as_u8 (Z.of_nat index))))
    (imap (λ index size, (index, size)) sizes).
End buckets.

Section exclusive_pools.
Context {St : Type} `{ComputeStorage St}.

(** [filter(accept)] and [find_map(try_reserve)]: a pool that was tried keeps
    its new average. *)
Fixpoint pools_try_reserve (buckets : list ExclusiveMemoryPool) (size : Z) :
    M (World St) (option ManagedMemoryId * list ExclusiveMemoryPool) :=
  match buckets with
  | [] => mret (None, [])
  | p :: buckets =>
      if exclusive_accept p size then
        '(r, p) ← exclusive_try_reserve p size;
        match r with
        | Some handle => mret (Some handle, p :: buckets)
        | None => '(r, buckets) ← pools_try_reserve buckets size; mret (r, p :: buckets)
        end
      else '(r, buckets) ← pools_try_reserve buckets size; mret (r, p :: buckets)
  end.
Fixpoint pools_alloc (buckets : list ExclusiveMemoryPool) (size : Z) :
    M (World St) (result ManagedMemoryId IoError * list ExclusiveMemoryPool) :=
  match buckets with
  | [] => mret (Err (BufferTooBig size), [])
  | p :: buckets =>
      if exclusive_accept p size then '(r, p) ← exclusive_alloc p size; mret (r, p :: buckets)
      else '(r, buckets) ← pools_alloc buckets size; mret (r, p :: buckets)
  end.
Definition pools_reserve (buckets : list ExclusiveMemoryPool) (size : Z) :
    M (World St) (result ManagedMemoryId IoError * list ExclusiveMemoryPool) :=
  '(r, buckets) ← pools_try_reserve buckets size;
  match r with
  | Some handle => mret (Ok handle, buckets)
  | None => pools_alloc buckets size
  end.
Fixpoint pools_cleanup (buckets : list ExclusiveMemoryPool) (alloc_nr : Z) (cleanup : Cleanup) :
    M (World St) (list ExclusiveMemoryPool) :=
  match buckets with
  | [] => mret []
  | p :: buckets =>
      p ← exclusive_cleanup p alloc_nr cleanup;
      buckets ← pools_cleanup buckets alloc_nr cleanup;
      mret (p :: buckets)
  end.
Fixpoint pools_report (buckets : list ExclusiveMemoryPool) : M (World St) (list MemoryPoolReport) :=
  match buckets with
  | [] => mret []
  | p :: buckets => r ← exclusive_report p; l ← pools_report buckets; mret (r :: l)
  end.
End exclusive_pools.

(** ** The invariant of an exclusive pool *)
Definition page_id (pg : ExclusivePage) : StorageId := slice_id (page_slice pg).
Definition page_handle (pg : ExclusivePage) : Z := handle (page_slice pg).
Definition page_handles (l : list ExclusivePage) : list Z := page_handle <$> l.
Definition page_taints (l : list ExclusivePage) : list Taint := (λ pg, tainted (page_slice pg)) <$> l.

(** The page [pg] carries the number [k]. *)
Record excl_page_ok (m : Memory) (p : ExclusiveMemoryPool) (k : Z) (pg : ExclusivePage) : Prop := mk_excl_page_ok {
  ep_slot : slot m (with_page k (excl_base p)) 0 (page_handle pg);
  ep_offset : slice_offset (page_slice pg) = 0;
  ep_sizes : 0 <= slice_size (page_slice pg) ∧ 0 <= padding (page_slice pg) ∧
             eff (page_slice pg) <= alloc_size pg <= u64_max;
  ep_aligned : (excl_alignment p | eff (page_slice pg)) ∧ (excl_alignment p | alloc_size pg);
  ep_count : 0 <= free_count pg < ALLOC_AFTER_FREE;
}.

(** The pages [out] carry their indices, the pages [todo] some number; every
    page owns its device allocation. *)
Record excl_pages_inv {St} `{ComputeStorage St} (w : World St) (p : ExclusiveMemoryPool)
    (out todo : list ExclusivePage) : Prop := mk_excl_pages_inv {
  xi_memory : memory_wf (memory w);
  xi_out i pg : out !! i = Some pg → excl_page_ok (memory w) p (Z.of_nat i) pg;
  xi_todo pg : pg ∈ todo → ∃ k, excl_page_ok (memory w) p k pg;
  xi_distinct : NoDup (page_handles (out ++ todo));
  xi_taints : covered (failures w) (page_taints (out ++ todo));
  xi_ids : NoDup (page_id <$> out ++ todo);
  xi_known pg : pg ∈ out ++ todo → page_id pg < storage_ids w;
  xi_held pg : pg ∈ out ++ todo → held (storage w) !! page_id pg = Some (alloc_size pg);
  xi_base : location_ok (excl_base p) ∧ init (excl_base p) = 1 ∧ Handle.slice (excl_base p) = 0;
  xi_alignment : 0 < excl_alignment p;
}.
Abbreviation excl_inv w p := (excl_pages_inv w p (excl_pages p) []).
(** As many pages as the numbers of a location. *)
Definition excl_room (n : nat) : Prop := Z.of_nat n <= u16_max + 1.

Section exclusive_specs.
Context {St : Type} `{ComputeStorageLaws St}.
Implicit Types (w : World St) (p : ExclusiveMemoryPool) (pg : ExclusivePage).

Lemma excl_ok_any w p out todo pg :
  excl_pages_inv w p out todo → pg ∈ out ++ todo → ∃ k, excl_page_ok (memory w) p k pg.
Proof.
  intros Hinv [[i Hi]%list_elem_of_lookup|Ht]%elem_of_app; [|by eapply xi_todo].
  exists (Z.of_nat i). by eapply xi_out.
Qed.
Lemma excl_handle_known w p out todo pg :
  excl_pages_inv w p out todo → pg ∈ out ++ todo → page_handle pg < COUNTER (memory w).
Proof.
  intros Hinv Hp. destruct (excl_ok_any _ _ _ _ _ Hinv Hp) as [k Hk].
  eapply slot_known; [apply (xi_memory _ _ _ _ Hinv)|apply (ep_slot _ _ _ _ Hk)].
Qed.
Lemma excl_other w p out todo pg pg' i j :
  excl_pages_inv w p out todo → (out ++ todo) !! i = Some pg → (out ++ todo) !! j = Some pg' → i ≠ j →
  page_handle pg' ≠ page_handle pg.
Proof.
  intros Hinv Hi Hj Hne Heq. apply Hne. eapply (NoDup_lookup _ i j (page_handle pg) (xi_distinct _ _ _ _ Hinv)).
  - unfold page_handles. by rewrite list_lookup_fmap, Hi.
  - unfold page_handles. rewrite list_lookup_fmap, Hj. cbn. by rewrite Heq.
Qed.
Lemma wp_page_is_free w p out todo pg (Q : bool → World St → Prop) :
  excl_pages_inv w p out todo → pg ∈ out ++ todo → Q (freed (memory w) (page_handle pg)) w →
  wp (slice_is_free (page_slice pg)) w Q.
Proof.
  intros Hinv Hp. destruct (excl_ok_any _ _ _ _ _ Hinv Hp) as [k Hk].
  apply (wp_slice_is_free (with_page k (excl_base p))). eexists. apply (ep_slot _ _ _ _ Hk).
Qed.
Lemma excl_page_evolve m m' p k pg moved counted :
  memory_wf m → evolve moved counted m m' → page_handle pg ∉ moved → page_handle pg ∉ counted →
  excl_page_ok m p k pg → excl_page_ok m' p k pg.
Proof. intros Hm Hev Hmv Hct [Hs ? ? ? ?]. split; try done. by eapply slot_evolve. Qed.

(** ** The page that is reused *)
Definition candidate (m : Memory) (size : Z) (pg : ExclusivePage) : Prop :=
  size <= alloc_size pg ∧ freed m (page_handle pg) = true.
(** The first candidate of [l] with the least count. *)
Definition best_of (m : Memory) (size : Z) (l : list ExclusivePage) (best : option (nat * Z)) : Prop :=
  match best with
  | None => ∀ pg, pg ∈ l → ¬ candidate m size pg
  | Some (i, c) => ∃ pg, l !! i = Some pg ∧ candidate m size pg ∧ free_count pg = c ∧
      ∀ j pg', l !! j = Some pg' → candidate m size pg' → c <= free_count pg' ∧ ((j < i)%nat → c < free_count pg')
  end.
Lemma best_of_snoc m size l best pg :
  best_of m size l best →
  best_of m size (l ++ [pg])
    (if (size <=? alloc_size pg) && freed m (page_handle pg)
     then match best with
          | Some (_, c) => if free_count pg <? c then Some (length l, free_count pg) else best
          | None => Some (length l, free_count pg)
          end
     else best).
Proof.
  intros Hb. assert ((size <=? alloc_size pg) && freed m (page_handle pg) = true ↔ candidate m size pg) as Hc.
  { unfold candidate. rewrite andb_true_iff, Z.leb_le. done. }
  destruct ((size <=? alloc_size pg) && freed m (page_handle pg)); cbn.
  - assert (candidate m size pg) as Hpg by by apply Hc. destruct best as [[i c]|].
    + destruct Hb as (pb & Hi & Hcb & Hfc & Hmin). destruct (Z.ltb_spec (free_count pg) c).
      * exists pg. split; [by apply lookup_middle|]. split; [done|]. split; [done|]. intros j pg' Hj Hc'.
        apply lookup_snoc_Some in Hj as [[Hlt Hj]|[-> <-]]; [|lia].
        destruct (Hmin j pg' Hj Hc'). lia.
      * exists pb. split; [by apply lookup_app_l_Some|]. split; [done|]. split; [done|]. intros j pg' Hj Hc'.
        apply lookup_snoc_Some in Hj as [[Hlt Hj]|[-> <-]]; [by apply Hmin|].
        apply lookup_lt_Some in Hi. lia.
    + exists pg. split; [by apply lookup_middle|]. split; [done|]. split; [done|]. intros j pg' Hj Hc'.
      apply lookup_snoc_Some in Hj as [[Hlt Hj]|[-> <-]]; [|lia]. exfalso.
      by eapply Hb; [eapply list_elem_of_lookup_2|].
  - assert (¬ candidate m size pg) as Hpg by by intros ?%Hc. destruct best as [[i c]|].
    + destruct Hb as (pb & Hi & Hcb & Hfc & Hmin). exists pb. split; [by apply lookup_app_l_Some|].
      split; [done|]. split; [done|]. intros j pg' Hj Hc'.
      apply lookup_snoc_Some in Hj as [[Hlt Hj]|[-> <-]]; [by apply Hmin|done].
    + intros pg' [Hin| ->%list_elem_of_singleton]%elem_of_app; [by apply Hb|done].
Qed.

Lemma wp_get_free_page p size l pre best w (Q : option nat → World St → Prop) :
  excl_inv w p → excl_pages p = pre ++ l → best_of (memory w) size pre best →
  (∀ best, best_of (memory w) size (excl_pages p) best → Q (fst <$> best) w) →
  wp (get_free_page l size (length pre) best) w Q.
Proof.
  intros Hinv. revert pre best. induction l as [|pg l IH]; intros pre best Hp Hb HQ; cbn [get_free_page].
  { apply wp_ret, HQ. by rewrite Hp, app_nil_r. }
  assert (pg ∈ excl_pages p ++ []) as Hin by (rewrite app_nil_r, Hp; set_solver).
  apply (best_of_snoc _ _ _ _ pg) in Hb.
  specialize (IH (pre ++ [pg]) _ ltac:(by rewrite <- app_assoc) Hb HQ).
  rewrite length_app, Nat.add_1_r in IH. apply wp_bind. destruct (Z.leb_spec size (alloc_size pg)); cbn [andb] in IH.
  - eapply wp_page_is_free; [exact Hinv|exact Hin|]. exact IH.
  - by apply wp_ret.
Qed.

(** ** Reserving *)
(** The allocation answered: the page at [i] holds it, its handle is live. *)
Record excl_reserved w p (size h : Z) (i : nat) pg : Prop := mk_excl_reserved {
  er_at : excl_pages p !! i = Some pg;
  er_handle : page_handle pg = h;
  er_size : slice_size (page_slice pg) = size ∧ slice_offset (page_slice pg) = 0;
  er_held : held (storage w) !! page_id pg = Some (alloc_size pg) ∧ size <= alloc_size pg;
  er_live : freed (memory w) h = false;
}.
(** The pages but the one at [i] are the same, and as free as they were. *)
Definition excl_others w w' p p' (i : nat) : Prop :=
  ∀ j pg, j ≠ i → excl_pages p !! j = Some pg →
    excl_pages p' !! j = Some pg ∧ freed (memory w') (page_handle pg) = freed (memory w) (page_handle pg).

Lemma excl_inv_marks w p out todo a b :
  excl_pages_inv w p out todo → excl_pages_inv w (with_excl_marks a b p) out todo.
Proof.
  intros [? Ho Ht ? ? ? ? ? ? ?]. split; try done.
  - intros i pg Hi. by destruct (Ho i pg Hi).
  - intros pg Hi. destruct (Ht pg Hi) as [k Hk]. exists k. by destruct Hk.
Qed.
Lemma excl_inv_avg w p out todo x :
  excl_pages_inv w p out todo → excl_pages_inv w (with_excl_avg x p) out todo.
Proof.
  intros [? Ho Ht ? ? ? ? ? ? ?]. split; try done.
  - intros i pg Hi. by destruct (Ho i pg Hi).
  - intros pg Hi. destruct (Ht pg Hi) as [k Hk]. exists k. by destruct Hk.
Qed.
(** The pages given are those of the pool, whatever the pool lists. *)
Lemma excl_inv_list w p out todo l :
  excl_pages_inv w p out todo → excl_pages_inv w (with_excl_pages l p) out todo.
Proof.
  intros [? Ho Ht ? ? ? ? ? ? ?]. split; try done.
  - intros i pg Hi. by destruct (Ho i pg Hi).
  - intros pg Hi. destruct (Ht pg Hi) as [k Hk]. exists k. by destruct Hk.
Qed.

(** The page at [i] is replaced by one of the same handle and allocation. *)
Lemma excl_replace w m p i pg pg' :
  excl_inv w p → excl_pages p !! i = Some pg →
  page_handle pg' = page_handle pg → page_id pg' = page_id pg → alloc_size pg' = alloc_size pg →
  tainted (page_slice pg') = tainted (page_slice pg) →
  evolve [] [page_handle pg] (memory w) m →
  excl_page_ok m p (Z.of_nat i) pg' →
  excl_inv (with_memory m w) (with_excl_pages (<[i := pg']> (excl_pages p)) p).
Proof.
  intros Hinv Hi Hh Hid Ha Ht Hev Hok. apply excl_inv_list. cbn.
  pose proof Hinv as [Hm Ho _ Hnd Htn Hids Hk Hhd Hb Hal]. rewrite app_nil_r in *.
  assert (i < length (excl_pages p))%nat as Hlt by by eapply lookup_lt_Some.
  assert (∀ {B} (f : ExclusivePage → B), f pg' = f pg → f <$> <[i := pg']> (excl_pages p) = f <$> excl_pages p)
    as Hsame.
  { intros B f Hf. rewrite list_fmap_insert, Hf. apply list_insert_id. by rewrite list_lookup_fmap, Hi. }
  split; rewrite ?app_nil_r; cbn; try done.
  - by apply (ev_wf _ _ _ _ Hev).
  - intros j pgj Hj. destruct (decide (i = j)) as [<-|Hne].
    + rewrite list_lookup_insert_eq in Hj by done. by injection Hj as <-.
    + rewrite list_lookup_insert_ne in Hj by done.
      eapply excl_page_evolve; [exact Hm|exact Hev|apply not_elem_of_nil| |by apply Ho].
      rewrite list_elem_of_singleton. eapply (excl_other w p (excl_pages p) []); rewrite ?app_nil_r; done.
  - by intros pg0 ?%not_elem_of_nil.
  - unfold page_handles in *. by rewrite Hsame.
  - unfold page_taints in *. by rewrite Hsame.
  - by rewrite Hsame.
  - intros pg0 [j Hj]%list_elem_of_lookup. destruct (decide (i = j)) as [<-|Hne].
    + rewrite list_lookup_insert_eq in Hj by done. injection Hj as <-. rewrite Hid. by eapply Hk, list_elem_of_lookup_2.
    + rewrite list_lookup_insert_ne in Hj by done. by eapply Hk, list_elem_of_lookup_2.
  - intros pg0 [j Hj]%list_elem_of_lookup. destruct (decide (i = j)) as [<-|Hne].
    + rewrite list_lookup_insert_eq in Hj by done. injection Hj as <-. rewrite Hid, Ha. by eapply Hhd, list_elem_of_lookup_2.
    + rewrite list_lookup_insert_ne in Hj by done. by eapply Hhd, list_elem_of_lookup_2.
Qed.

Lemma excl_others_insert w m p p' i pg pg' :
  excl_inv w p → excl_pages p !! i = Some pg → evolve [] [page_handle pg] (memory w) m →
  excl_pages p' = <[i := pg']> (excl_pages p) → excl_others w (with_memory m w) p p' i.
Proof.
  intros Hinv Hi Hev Hp' j pgj Hj Hpj. rewrite Hp', list_lookup_insert_ne by done. split; [done|].
  apply freed_counts, (ev_counts _ _ _ _ Hev).
  - eapply excl_handle_known; [exact Hinv|]. rewrite app_nil_r. by eapply list_elem_of_lookup_2.
  - rewrite list_elem_of_singleton. eapply (excl_other w p (excl_pages p) []); rewrite ?app_nil_r; done.
Qed.

Lemma wp_exclusive_try_reserve w p size :
  excl_inv w p → storage_ok w → 0 <= size →
  wp (exclusive_try_reserve p size) w (λ '(r, p') w',
    excl_inv w' p' ∧ storage_ok w' ∧ storage w' = storage w ∧ excl_max_alloc_size p' = excl_max_alloc_size p ∧
    excl_alignment p' = excl_alignment p ∧ length (excl_pages p') = length (excl_pages p) ∧
    match r with
    | None => w' = w ∧ p' = averaged p size ∧ ∀ pg, pg ∈ excl_pages p → ¬ candidate (memory w) size pg
    | Some h => ∃ i pg pg', excl_pages p !! i = Some pg ∧ candidate (memory w) size pg ∧
        (∀ j pgj, excl_pages p !! j = Some pgj → candidate (memory w) size pgj → free_count pg <= free_count pgj) ∧
        excl_reserved w' p' size h i pg' ∧ page_handle pg = h ∧ page_id pg' = page_id pg ∧
        free_count pg' <= free_count pg ∧ excl_others w w' p p' i
    end).
Proof.
  intros Hinv Hok Hsize. unfold exclusive_try_reserve. set (p1 := averaged p size).
  assert (excl_inv w p1) as Hinv1 by by apply excl_inv_avg.
  pose proof (xi_alignment _ _ _ _ Hinv) as Ha.
  destruct (calculate_padding_spec size _ Ha) as (pad & Hpad & Hpb & Hdiv).
  apply wp_bind. eapply wp_lift; [exact Hpad|].
  apply wp_bind, (wp_get_free_page p1 size (excl_pages p1) [] None); [done|done|by intros pg ?%not_elem_of_nil|].
  intros [[i c]|] Hbest; cbn [fst option_fmap option_map fmap].
  2: { apply wp_ret. by split_and!. }
  destruct Hbest as (pg & Hi & [Hfit Hfree] & <- & Hmin).
  apply wp_bind. eapply wp_lift; [exact Hi|]. change (excl_pages p1) with (excl_pages p) in Hi, Hmin.
  pose proof (xi_out _ _ _ _ Hinv i pg Hi) as [Hslot Hoff [Hs1 [Hs2 Hs3]] [Hal1 Hal2] Hcount].
  pose proof (xi_memory _ _ _ _ Hinv) as Hm. set (pg' := mk_ExclusivePage _ _ _).
  apply wp_bind, wp_on_memory. eapply wp_clone_owner; [exact Hm|exact Hslot|].
  intros m Hev _ Hslot' Hcounts. apply wp_ret. change (handle (page_slice pg')) with (page_handle pg).
  assert (size + pad <= alloc_size pg) as Hround.
  { by eapply multiple_above. }
  assert (excl_page_ok m p (Z.of_nat i) pg') as Hok'.
  { split; [done|done|cbn..].
    - unfold eff, slice_size, handle_size; cbn. lia.
    - split; [|done]. unfold eff, slice_size, handle_size; cbn. done.
    - unfold ALLOC_AFTER_FREE, sat_sub in *. lia. }
  assert (freed m (page_handle pg) = false) as Hlive by by eapply freed_clone.
  split; [|split_and!; try done].
  - apply excl_inv_marks. apply (excl_replace w m p1 i pg pg'); try done. by destruct Hok'.
  - by eapply storage_ok_same.
  - cbn. by rewrite length_insert.
  - exists i, pg, pg'. split; [done|]. split; [done|]. split; [intros j pgj Hj Hc; by apply (Hmin j pgj)|].
    split; [|split_and!; try done].
    + split; [cbn; by apply list_lookup_insert_eq; eapply lookup_lt_Some|done|done| |done].
      split; [|done]. change (page_id pg') with (page_id pg). cbn.
      apply (xi_held _ _ _ _ Hinv). rewrite app_nil_r. by eapply list_elem_of_lookup_2.
    + cbn. unfold sat_sub. destruct Hcount. lia.
    + by eapply (excl_others_insert w m p _ i pg pg').
Qed.

Lemma with_slice_page base n : Handle.slice base = 0 → with_slice 0 (with_page n base) = with_page n base.
Proof. destruct base. cbn. by intros ->. Qed.

(** A fresh handle that is cloned for its client, then given the page [n]. *)
Definition paged_new (m : Memory) (base : MemoryLocation) (n : Z) (m' : Memory) : Prop :=
  evolve [] [] m m' ∧ slot m' (with_page n base) 0 (COUNTER m) ∧ freed m' (COUNTER m) = false.
Lemma wp_paged_new m base n :
  memory_wf m → COUNTER m < u64_max → location_ok base → Handle.slice base = 0 → 0 <= n <= u16_max →
  wp handle_new m (λ id m2, id = COUNTER m ∧
    wp (handle_clone id) m2 (λ _ m3,
      wp (update_location id (with_page n base)) m3 (λ _ m4, paged_new m base n m4))).
Proof.
  intros Hm Hc Hb Hs Hn. eapply wp_new_owner; [done|done|]. intros m2 Hev2 Hc2 Hnew. split; [done|].
  pose proof (ev_wf _ _ _ _ Hev2 Hm) as Hm2.
  assert (slot m2 location_uninit 0 (COUNTER m)) as Hslot2.
  { eexists. split; [exact Hnew|]. split; [|done]. vm_compute. done. }
  eapply wp_clone_owner; [exact Hm2|exact Hslot2|]. intros m3 Hev3 Hc3 Hslot3 Hcounts3.
  pose proof (ev_wf _ _ _ _ Hev3 Hm2) as Hm3. pose proof Hslot3 as (d & Hd & _ & Hh).
  rewrite <- (with_slice_page base n Hs).
  eapply (wp_slot_update_location _ _ Hm3 (with_page n base) 0); [exact Hd|done|auto|done|].
  intros m4 Hev4 Hc4 Hslot4. split; [|split; [done|]].
  - eapply evolve_weaken, evolve_trans, evolve_trans; [| |exact Hev2|exact Hev3|exact Hev4];
      intros id Hlt; cbn; rewrite ?app_nil_r; intros Hin; set_unfold in Hin; lia.
  - rewrite (freed_counts m3).
    + by eapply (freed_clone m2).
    + apply (ev_counts _ _ _ _ Hev4); [lia|apply not_elem_of_nil].
Qed.

Lemma excl_snoc w w' p pg :
  excl_inv w p → page_handle pg = COUNTER (memory w) → tainted (page_slice pg) = taint_default →
  evolve [] [] (memory w) (memory w') →
  excl_page_ok (memory w') p (Z.of_nat (length (excl_pages p))) pg →
  failures w' = failures w → storage_ids w <= page_id pg < storage_ids w' →
  held (storage w') = <[page_id pg := alloc_size pg]> (held (storage w)) →
  excl_inv w' (with_excl_pages (excl_pages p ++ [pg]) p).
Proof.
  intros Hinv Hh Ht Hev Hok Hf Hid Hheld. apply excl_inv_list. cbn.
  pose proof Hinv as [Hm Ho _ Hnd Htn Hids Hk Hhd Hb Hal]. rewrite app_nil_r in *.
  assert (∀ pg0, pg0 ∈ excl_pages p → page_id pg0 ≠ page_id pg) as Hne.
  { intros pg0 Hpg%Hk. lia. }
  split; rewrite ?app_nil_r; try done.
  - by apply (ev_wf _ _ _ _ Hev).
  - intros i pg0 Hi. apply lookup_snoc_Some in Hi as [[Hlt Hi]|[-> <-]]; [|done].
    eapply excl_page_evolve; [exact Hm|exact Hev|apply not_elem_of_nil..|by apply Ho].
  - by intros pg0 ?%not_elem_of_nil.
  - unfold page_handles in *. rewrite fmap_app. apply NoDup_app. split_and!; [done| |apply NoDup_singleton].
    intros id (pg0 & -> & Hpg)%list_elem_of_fmap Heq%list_elem_of_singleton.
    pose proof (excl_handle_known _ _ _ _ pg0 Hinv ltac:(by rewrite app_nil_r)). lia.
  - unfold page_taints in *. rewrite Hf, fmap_app. cbn. rewrite Ht.
    eapply covered_perm; [apply Permutation_app_comm|]. by apply covered_default.
  - rewrite fmap_app. apply NoDup_app. split_and!; [done| |apply NoDup_singleton].
    intros id (pg0 & -> & Hpg)%list_elem_of_fmap Heq%list_elem_of_singleton. by apply (Hne pg0).
  - intros pg0 [Hpg%Hk| ->%list_elem_of_singleton]%elem_of_app; lia.
  - intros pg0 [Hpg| ->%list_elem_of_singleton]%elem_of_app; rewrite Hheld.
    + rewrite lookup_insert_ne by (intros Heq; by apply (Hne pg0)). by apply Hhd.
    + by rewrite lookup_insert_eq.
Qed.

(** The bytes a fresh page takes: the average, or the size when it is larger,
    rounded up. *)
Definition fresh_size p (size : Z) : Z := Z.max (f64_to_u64 (cur_avg_size p)) size.

Lemma wp_exclusive_alloc w p size :
  excl_inv w p → storage_ok w → 0 <= size <= excl_max_alloc_size p →
  fresh_size p size + excl_alignment p <= u64_max →
  (∀ n, fresh_size p size <= n < fresh_size p size + excl_alignment p → can_alloc n w) →
  COUNTER (memory w) < u64_max → excl_room (S (length (excl_pages p))) →
  wp (exclusive_alloc p size) w (λ '(r, p') w',
    excl_inv w' p' ∧ storage_ok w' ∧
    match r with
    | Err e => p' = p ∧ memory w' = memory w ∧ held (storage w') = held (storage w)
    | Ok h => ∃ pg, excl_reserved w' p' size h (length (excl_pages p)) pg ∧
        excl_pages p' = excl_pages p ++ [pg] ∧ fresh_size p size <= alloc_size pg ∧
        held (storage w) !! page_id pg = None ∧
        excl_others w w' p p' (length (excl_pages p))
    end).
Proof.
  intros Hinv Hok Hsize Hfit Hcan Hcount Hroom. unfold exclusive_alloc.
  pose proof (xi_alignment _ _ _ _ Hinv) as Ha. rewrite (proj2 (Z.ltb_ge _ _)) by lia.
  destruct (next_multiple_of_spec (fresh_size p size) (excl_alignment p)) as (n & Hn & Hnb & Hdn); [lia|unfold fresh_size; lia|lia|].
  apply wp_bind. unfold exclusive_alloc_page. apply wp_bind. eapply wp_lift; [exact Hn|].
  apply wp_bind. eapply wp_mono; [apply storage_alloc_ok; [done|by apply Hcan]|].
  intros [sh|e] w1 (Hok1 & Hm1 & Hf1 & Hids & Hr).
  2: { apply wp_ret, wp_ret. split_and!; try done.
       destruct Hinv as [? Ho Ht ? ? ? Hk Hhd ? ?]. split; rewrite ?Hm1, ?Hf1; try done.
       - intros pg Hpg%Hk. lia.
       - intros pg Hpg. rewrite Hr. by apply Hhd. }
  destruct Hr as (Hu & Hid & Hheld). destruct (calculate_padding_spec size _ Ha) as (pad & Hpad & Hpb & Hdiv).
  apply wp_bind. eapply wp_lift; [exact Hpad|].
  destruct (xi_base _ _ _ _ Hinv) as (Hb1 & Hb2 & Hb3).
  assert (0 <= Z.of_nat (length (excl_pages p)) <= u16_max) as Hlen by (unfold excl_room in Hroom; lia).
  pose proof (wp_paged_new (memory w) (excl_base p) _ (xi_memory _ _ _ _ Hinv) Hcount Hb1 Hb3 Hlen) as Hnew.
  apply wp_bind. unfold slice_new. apply wp_bind, wp_on_memory. rewrite Hm1.
  eapply wp_mono; [exact Hnew|]. intros id m2 [-> Hnew2]. apply wp_ret, wp_ret. cbn [excl_pages with_excl_marks with_excl_pages].
  set (pg := mk_ExclusivePage _ _ _). rewrite length_app. cbn [length]. rewrite Nat.add_sub.
  apply wp_bind. eapply wp_lift; [by apply lookup_middle|].
  change (handle (page_slice pg)) with (COUNTER (memory w)).
  apply wp_bind, wp_on_memory. cbn [memory with_memory]. eapply wp_mono; [exact Hnew2|]. intros [] m3 Hnew3.
  rewrite as_u16_small by lia.
  apply wp_bind, wp_on_memory. cbn [memory with_memory]. eapply wp_mono; [exact Hnew3|].
  intros [] m4 (Hev & Hslot & Hlive). apply wp_ret. set (w' := with_memory m4 _).
  assert (size <= fresh_size p size) as Hle by (unfold fresh_size; lia).
  assert (size + pad <= n) as Hround by (eapply multiple_above; try done; lia).
  assert (excl_page_ok m4 p (Z.of_nat (length (excl_pages p))) pg) as Hokpg.
  { split; [done|done|cbn..].
    - unfold eff, slice_size, handle_size; cbn. lia.
    - split; [|done]. unfold eff, slice_size, handle_size; cbn. done.
    - unfold ALLOC_AFTER_FREE. lia. }
  assert (held (storage w') = <[page_id pg := alloc_size pg]> (held (storage w))) as Hheld' by exact Hheld.
  split; [|split; [by eapply storage_ok_same|]].
  - do 2 apply excl_inv_marks. by apply (excl_snoc w).
  - exists pg. split; [|split_and!; [done|cbn; lia| |]].
    + split; [cbn; by apply lookup_middle|done|done| |done]. split; [|cbn; lia].
      rewrite Hheld'. by rewrite lookup_insert_eq.
    + destruct (held (storage w) !! page_id pg) as [k|] eqn:Hk; [|done].
      apply (storage_ok_ids _ _ _ Hok) in Hk. change (page_id pg) with (storage_id sh) in Hk. lia.
    + intros j pgj Hj Hpj. cbn. split; [by apply lookup_app_l_Some|].
      apply freed_counts, (ev_counts _ _ _ _ Hev); [|apply not_elem_of_nil].
      eapply excl_handle_known; [exact Hinv|]. rewrite app_nil_r. by eapply list_elem_of_lookup_2.
Qed.

(** ** Cleaning up *)

(** What a pass makes of a page: one that is found free for the fifth time, or
    free at all in an explicit cleanup, goes. *)
Definition aged (m : Memory) (cleanup : Cleanup) pg : option ExclusivePage :=
  if freed m (page_handle pg) then
    if (ALLOC_AFTER_FREE <=? free_count pg + 1) || bool_decide (cleanup = Explicit) then None
    else Some (mk_ExclusivePage (page_slice pg) (alloc_size pg) (free_count pg + 1))
  else Some pg.
Definition released_page (m : Memory) (cleanup : Cleanup) (h : gmap StorageId Z) pg : gmap StorageId Z :=
  match aged m cleanup pg with None => delete (page_id pg) h | Some _ => h end.

Lemma aged_ext m m' cleanup pg :
  freed m' (page_handle pg) = freed m (page_handle pg) → aged m' cleanup pg = aged m cleanup pg.
Proof. intros Hf. unfold aged. by rewrite Hf. Qed.
Lemma aged_same m cleanup pg pg' :
  aged m cleanup pg = Some pg' → page_slice pg' = page_slice pg ∧ alloc_size pg' = alloc_size pg.
Proof. unfold aged. repeat case_match; by intros [= <-]. Qed.

Lemma aged_all m m' cleanup (l : list ExclusivePage) :
  (∀ pg, pg ∈ l → aged m cleanup pg = aged m' cleanup pg) → omap (aged m cleanup) l = omap (aged m' cleanup) l.
Proof.
  induction l as [|x l IH]; intros Hl; [done|]. cbn. rewrite Hl by by left.
  rewrite IH; [done|]. intros pg ?. apply Hl. by right.
Qed.
Lemma released_all m m' cleanup (l : list ExclusivePage) h :
  (∀ pg, pg ∈ l → aged m cleanup pg = aged m' cleanup pg) →
  foldl (released_page m cleanup) h l = foldl (released_page m' cleanup) h l.
Proof.
  revert h. induction l as [|x l IH]; intros h Hl; [done|]. cbn.
  unfold released_page at 2 4. rewrite (Hl x) by by left. apply IH. intros pg ?. apply Hl. by right.
Qed.
Lemma wp_dealloc_ids id w (Q : unit → World St → Prop) :
  storage_ok w →
  (∀ w', storage_ok w' → memory w' = memory w → failures w' = failures w → storage_ids w' = storage_ids w →
     held (storage w') = delete id (held (storage w)) → Q tt w') →
  wp (dealloc id) w Q.
Proof.
  intros Hok HQ. destruct (storage_dealloc_ok id w Hok) as (st' & Hd & Hok' & Hh).
  unfold dealloc. apply wp_bind, wp_gets. apply wp_bind. eapply wp_lift; [exact Hd|].
  apply wp_modify. by apply HQ.
Qed.

Lemma wp_slot_update_page id m base k n (Q : unit → Memory → Prop) :
  memory_wf m → slot m (with_page k base) 0 id → location_ok base → 0 <= n <= u16_max →
  (∀ m', evolve [id] [] m m' → COUNTER m' = COUNTER m → slot m' (with_page n base) 0 id → Q tt m') →
  wp (update_page id n) m Q.
Proof.
  intros Hm (d & Hd & Hl & Hh) Hb Hn HQ. eapply wp_modify_location; [done|]. apply HQ.
  - by eapply store_move.
  - done.
  - eexists. cbn. rewrite lookup_insert_eq. split; [done|]. split; [|done].
    unfold loc_of at 1; cbn. rewrite Hl. apply from_bits_to_bits.
    change (with_page n (with_slice 0 (with_page k base))) with (with_slice 0 (with_page n base)).
    apply with_slice_ok; [by apply with_page_ok|lia].
Qed.

Lemma excl_perm {B} (f : ExclusivePage → B) out pg todo :
  f <$> out ++ pg :: todo ≡ₚ f pg :: (f <$> out ++ todo).
Proof. rewrite !fmap_app. cbn. by rewrite Permutation_middle. Qed.

(** The head of [todo] goes. *)
Lemma excl_gone w w' p out pg todo m g :
  excl_pages_inv w p out (pg :: todo) → evolve [] [page_handle pg] (memory w) m →
  released (failures w) g [tainted (page_slice pg)] → memory w' = m → failures w' = g →
  storage_ids w' = storage_ids w → held (storage w') = delete (page_id pg) (held (storage w)) →
  excl_pages_inv w' p out todo.
Proof.
  intros [Hm Ho Ht Hnd Htn Hids Hk Hhd Hb Hal] Hev Hrel <- <- Hi Hh. set (m := memory w') in *.
  unfold page_handles in *. rewrite excl_perm in Hnd. apply NoDup_cons in Hnd as [Hni Hnd].
  rewrite excl_perm in Hids. apply NoDup_cons in Hids as [Hnid Hids].
  assert (∀ pg0, pg0 ∈ out ++ todo → pg0 ∈ out ++ pg :: todo) as Hsub by set_solver.
  assert (∀ k pg0, pg0 ∈ out ++ todo → excl_page_ok (memory w) p k pg0 → excl_page_ok m p k pg0) as Hev'.
  { intros k pg0 Hin Hok. eapply excl_page_evolve; [exact Hm|exact Hev|apply not_elem_of_nil| |done].
    rewrite list_elem_of_singleton. intros Heq. apply Hni. rewrite <- Heq. by apply list_elem_of_fmap_2. }
  split; try done.
  - by apply (ev_wf _ _ _ _ Hev).
  - intros i pg0 Hpg. apply Hev'; [|by apply Ho]. apply elem_of_app. left. by eapply list_elem_of_lookup_2.
  - intros pg0 Hpg. destruct (Ht pg0 ltac:(by right)) as [k Hok]. exists k. apply Hev'; [set_solver|done].
  - eapply covered_released, Hrel. eapply covered_perm, Htn. unfold page_taints. by rewrite excl_perm.
  - intros pg0 Hpg. rewrite Hi. by apply Hk, Hsub.
  - intros pg0 Hpg. rewrite Hh, lookup_delete_ne; [by apply Hhd, Hsub|].
    intros Heq. apply Hnid. rewrite Heq. by apply list_elem_of_fmap_2.
Qed.
(** It is kept, at the end of [out]. *)
Lemma excl_kept w p out pg pg' todo m :
  excl_pages_inv w p out (pg :: todo) → evolve [page_handle pg] [] (memory w) m →
  page_slice pg' = page_slice pg → alloc_size pg' = alloc_size pg → 0 <= free_count pg' < ALLOC_AFTER_FREE →
  slot m (with_page (Z.of_nat (length out)) (excl_base p)) 0 (page_handle pg) →
  excl_pages_inv (with_memory m w) p (out ++ [pg']) todo.
Proof.
  intros [Hm Ho Ht Hnd Htn Hids Hk Hhd Hb Hal] Hev Hs Ha Hc Hslot.
  assert (∀ {B} (f : ExclusivePage → B), f pg' = f pg → f <$> (out ++ [pg']) ++ todo = f <$> out ++ pg :: todo) as Hsame.
  { intros B f Hf. rewrite !fmap_app. cbn. rewrite Hf, <- app_assoc. done. }
  unfold page_handles in *. pose proof Hnd as Hnd'. rewrite excl_perm in Hnd'. apply NoDup_cons in Hnd' as [Hni _].
  assert (∀ k pg0, pg0 ∈ out ++ todo → excl_page_ok (memory w) p k pg0 → excl_page_ok m p k pg0) as Hev'.
  { intros k pg0 Hin Hok. eapply excl_page_evolve; [exact Hm|exact Hev| |apply not_elem_of_nil|done].
    rewrite list_elem_of_singleton. intros Heq. apply Hni. rewrite <- Heq. by apply list_elem_of_fmap_2. }
  assert (∀ pg0, pg0 ∈ (out ++ [pg']) ++ todo → ∃ pg1, pg1 ∈ out ++ pg :: todo ∧ page_id pg0 = page_id pg1 ∧ alloc_size pg0 = alloc_size pg1) as Hin.
  { intros pg0. rewrite <- app_assoc. cbn. intros [Hpg|[->|Hpg]%elem_of_cons]%elem_of_app.
    - exists pg0. set_solver.
    - exists pg. unfold page_id. rewrite Hs, Ha. set_solver.
    - exists pg0. set_solver. }
  split; cbn; try done.
  - by apply (ev_wf _ _ _ _ Hev).
  - intros i pg0 [[Hlt Hpg]|[-> <-]]%lookup_snoc_Some.
    + apply Hev'; [|by apply Ho]. apply elem_of_app. left. by eapply list_elem_of_lookup_2.
    + destruct (Ht pg ltac:(by left)) as [k [_ ? ? ? _]]. unfold page_handle in *.
      split; unfold page_handle; rewrite ?Hs, ?Ha; done.
  - intros pg0 Hpg. destruct (Ht pg0 ltac:(by right)) as [k Hok]. exists k. apply Hev'; [set_solver|done].
  - unfold page_handles. rewrite Hsame; [done|]. unfold page_handle. by rewrite Hs.
  - unfold page_taints in *. rewrite Hsame; [done|]. by rewrite Hs.
  - rewrite Hsame; [done|]. unfold page_id. by rewrite Hs.
  - intros pg0 (pg1 & Hin1 & -> & _)%Hin. by apply Hk.
  - intros pg0 (pg1 & Hin1 & -> & ->)%Hin. by apply Hhd.
Qed.

Lemma wp_sweep_loop cleanup todo out p w :
  excl_pages_inv w p out todo → storage_ok w → excl_room (length out + length todo) →
  wp (sweep_loop cleanup todo out) w (λ l w',
    excl_pages_inv w' p l [] ∧ storage_ok w' ∧
    l = out ++ omap (aged (memory w) cleanup) todo ∧
    (∀ pg, pg ∈ l → freed (memory w') (page_handle pg) = freed (memory w) (page_handle pg)) ∧
    held (storage w') = foldl (released_page (memory w) cleanup) (held (storage w)) todo).
Proof.
  revert out w. induction todo as [|pg todo IH]; intros out w Hinv Hok Hroom; cbn [sweep_loop].
  { apply wp_ret. split_and!; try done. by rewrite app_nil_r. }
  pose proof (xi_memory _ _ _ _ Hinv) as Hm. destruct (xi_base _ _ _ _ Hinv) as (Hb1 & Hb2 & Hb3).
  destruct (xi_todo _ _ _ _ Hinv pg ltac:(by left)) as [k Hpk]. pose proof (ep_count _ _ _ _ Hpk) as Hc.
  assert (page_handles (out ++ pg :: todo) ≡ₚ page_handle pg :: page_handles (out ++ todo)) as Hperm
    by apply excl_perm.
  pose proof (xi_distinct _ _ _ _ Hinv) as Hnd. rewrite Hperm in Hnd. apply NoDup_cons in Hnd as [Hni Hnd].
  (* the other pages are as free as they were *)
  assert (∀ m moved counted, evolve moved counted (memory w) m → (∀ h, h ∈ counted → h = page_handle pg) →
    ∀ pg0, pg0 ∈ out ++ todo → freed m (page_handle pg0) = freed (memory w) (page_handle pg0)) as Hsame.
  { intros m moved counted Hev Hct pg0 Hpg. apply freed_counts, (ev_counts _ _ _ _ Hev).
    - eapply excl_handle_known; [exact Hinv|]. set_solver.
    - intros Heq%Hct. apply Hni. rewrite <- Heq. by apply list_elem_of_fmap_2. }
  assert (∀ w1 pg', page_slice pg' = page_slice pg → alloc_size pg' = alloc_size pg →
    0 <= free_count pg' < ALLOC_AFTER_FREE → aged (memory w) cleanup pg = Some pg' → w1 = w →
    wp (_ ← on_memory (update_page (handle (page_slice pg')) (as_u16 (Z.of_nat (length out))));
        sweep_loop cleanup todo (out ++ [pg'])) w1 (λ l w',
      excl_pages_inv w' p l [] ∧ storage_ok w' ∧ l = out ++ omap (aged (memory w) cleanup) (pg :: todo) ∧
      (∀ pg, pg ∈ l → freed (memory w') (page_handle pg) = freed (memory w) (page_handle pg)) ∧
      held (storage w') = foldl (released_page (memory w) cleanup) (held (storage w)) (pg :: todo))) as Hkeep.
  { intros w1 pg' Hs Ha Hc' Hag ->. cbn in Hroom. unfold excl_room in Hroom. rewrite as_u16_small by lia.
    apply wp_bind, wp_on_memory. rewrite Hs. eapply wp_slot_update_page; [exact Hm|apply (ep_slot _ _ _ _ Hpk)|done|lia|].
    intros m Hev _ Hslot. pose proof (excl_kept w p out pg pg' todo m Hinv Hev Hs Ha Hc' Hslot) as Hinv'.
    eapply wp_mono; [apply IH; [exact Hinv'|by eapply storage_ok_same|unfold excl_room; rewrite length_app; cbn; lia]|].
    intros l w' (Hl1 & Hl2 & -> & Hl4 & Hl5). cbn [memory with_memory storage] in *.
    assert (∀ pg0, pg0 ∈ todo → aged m cleanup pg0 = aged (memory w) cleanup pg0) as Hag'.
    { intros pg0 Hpg. apply aged_ext, (Hsame m _ _ Hev); [by intros h ?%not_elem_of_nil|set_solver]. }
    pose proof (aged_all m (memory w) cleanup todo Hag') as Hom.
    split; [done|]. split; [done|]. split; [cbn; by rewrite Hag, <- app_assoc, Hom|]. split.
    - intros pg0 Hpg. rewrite Hl4 by done. rewrite Hom, <- app_assoc in Hpg. cbn in Hpg.
      apply freed_counts, (ev_counts _ _ _ _ Hev); [|apply not_elem_of_nil].
      apply elem_of_app in Hpg as [Hpg|[->|(pg1 & Hpg & Hag1)%list_elem_of_omap]%elem_of_cons].
      + eapply excl_handle_known; [exact Hinv|set_solver].
      + unfold page_handle. rewrite Hs. eapply excl_handle_known; [exact Hinv|set_solver].
      + apply aged_same in Hag1 as [Hs1 _]. unfold page_handle. rewrite Hs1.
        eapply (excl_handle_known _ _ _ _ pg1); [exact Hinv|set_solver].
    - rewrite Hl5, (released_all m (memory w)) by exact Hag'. cbn. unfold released_page at 3. by rewrite Hag. }
  apply wp_bind, (wp_page_is_free w p out (pg :: todo)); [done|set_solver|].
  destruct (freed (memory w) (page_handle pg)) eqn:Hf.
  2: { apply Hkeep; try done. unfold aged. by rewrite Hf. }
  apply wp_bind. eapply wp_lift; [apply decide_True; unfold ALLOC_AFTER_FREE in *; lia|].
  destruct ((ALLOC_AFTER_FREE <=? free_count pg + 1) || bool_decide (cleanup = Explicit)) eqn:Hgo.
  2: { apply orb_false_iff in Hgo as Hgo'. apply Hkeep; try done; cbn.
       - apply proj1, Z.leb_gt in Hgo'. lia.
       - unfold aged. by rewrite Hf, Hgo. }
  apply wp_bind, wp_on_failures. eapply (wp_clear_released _ (page_taints (out ++ todo))).
  { eapply covered_perm, (xi_taints _ _ _ _ Hinv). apply (excl_perm (λ pg, tainted (page_slice pg))). }
  intros g Hrel _. apply wp_bind, wp_dealloc_ids; [by eapply storage_ok_same|]. intros w1 Hok1 Hm1 Hf1 Hids1 Hh1.
  apply wp_bind, wp_on_memory. rewrite Hm1.
  destruct (ep_slot _ _ _ _ Hpk) as (d & Hd & Hl & Hd1). eapply wp_drop_owner; [exact Hm|exact Hd|done|].
  intros m Hev _. set (w2 := with_memory m w1).
  assert (excl_pages_inv w2 p out todo) as Hinv2.
  { by apply (excl_gone w w2 p out pg todo m g). }
  eapply wp_mono; [apply IH; [exact Hinv2|by eapply storage_ok_same|cbn in Hroom; by unfold excl_room in *; lia]|].
  intros l w' (Hl1 & Hl2 & -> & Hl4 & Hl5). split; [done|]. split; [done|].
  assert (∀ pg0, pg0 ∈ todo → aged m cleanup pg0 = aged (memory w) cleanup pg0) as Hag'.
  { intros pg0 Hpg. apply aged_ext, (Hsame m _ _ Hev); [by intros h ?%list_elem_of_singleton|set_solver]. }
  assert (aged (memory w) cleanup pg = None) as Hag by (unfold aged; by rewrite Hf, Hgo).
  rewrite (aged_all (memory w2) (memory w)) by exact Hag'.
  split; [cbn; by rewrite Hag|]. split.
  - intros pg0 Hpg. rewrite Hl4 by by rewrite (aged_all (memory w2) (memory w)) by exact Hag'.
    apply elem_of_app in Hpg as [Hpg|(pg1 & Hpg & Hag1)%list_elem_of_omap].
    + apply (Hsame m _ _ Hev); [by intros h ?%list_elem_of_singleton|set_solver].
    + apply aged_same in Hag1 as [Hs1 _]. unfold page_handle. rewrite Hs1.
      apply (Hsame m _ _ Hev); [by intros h ?%list_elem_of_singleton|set_solver].
  - rewrite Hl5, (released_all (memory w2) (memory w)) by exact Hag'. cbn [foldl]. f_equal.
    unfold released_page. by rewrite Hag.
Qed.

(** Every page is yet to be looked at. *)
Lemma excl_start w p : excl_inv w p → excl_pages_inv w p [] (excl_pages p).
Proof.
  intros [Hm Ho Ht Hnd Htn Hids Hk Hhd Hb Hal]. rewrite app_nil_r in *. split; try done.
  intros pg [i Hi]%list_elem_of_lookup. exists (Z.of_nat i). by apply Ho.
Qed.

Lemma wp_exclusive_cleanup w p alloc_nr cleanup :
  excl_inv w p → storage_ok w → excl_room (length (excl_pages p)) →
  last_dealloc_check p <= alloc_nr →
  wp (exclusive_cleanup p alloc_nr cleanup) w (λ p' w',
    excl_inv w' p' ∧ storage_ok w' ∧
    (∀ pg, pg ∈ excl_pages p' → freed (memory w') (page_handle pg) = freed (memory w) (page_handle pg)) ∧
    if decide (cleanup = Explicit ∨ dealloc_period p / ALLOC_AFTER_FREE <= alloc_nr - last_dealloc_check p) then
      p' = with_excl_pages (omap (aged (memory w) cleanup) (excl_pages p)) (with_excl_check alloc_nr p) ∧
      held (storage w') = foldl (released_page (memory w) cleanup) (held (storage w)) (excl_pages p)
    else p' = p ∧ w' = w).
Proof.
  intros Hinv Hok Hroom Hnr. unfold exclusive_cleanup. apply wp_bind.
  set (P := cleanup = Explicit ∨ _). assert (wp (if bool_decide (cleanup = Explicit) then mret true
      else since ← lift (sub_u64 alloc_nr (last_dealloc_check p));
           mret (dealloc_period p / ALLOC_AFTER_FREE <=? since)) w (λ due w', due = bool_decide P ∧ w' = w)) as Hdue.
  { subst P. destruct (bool_decide_reflect (cleanup = Explicit)) as [He|Hp].
    - apply wp_ret. split; [|done]. by rewrite bool_decide_eq_true_2 by by left.
    - apply wp_bind. eapply wp_lift; [by apply sub_u64_Some|]. apply wp_ret. split; [|done].
      apply eq_true_iff_eq. rewrite bool_decide_eq_true, Z.leb_le. tauto. }
  eapply wp_mono; [exact Hdue|]. intros due w1 [-> ->]. destruct (bool_decide_reflect P) as [Hd|Hd].
  - apply wp_bind. eapply wp_mono; [apply (wp_sweep_loop cleanup (excl_pages p) [] p); [by apply excl_start|done|done]|].
    intros l w' (Hinv' & Hok' & -> & Hf & Hh). apply wp_ret. rewrite decide_True by done.
    split_and!; try done. apply excl_inv_list. destruct Hinv' as [? Ho ? ? ? ? ? ? ? ?]. split; try done.
    + intros i pg Hi. by destruct (Ho i pg Hi).
    + by intros pg ?%not_elem_of_nil.
  - apply wp_ret. by rewrite decide_False.
Qed.

(** ** Several passes *)

(** Every count in [nrs] is a period or more after the one before. *)
Fixpoint due_passes (period last : Z) (nrs : list Z) : Prop :=
  match nrs with
  | [] => True
  | n :: nrs => period / ALLOC_AFTER_FREE <= n - last ∧ due_passes period n nrs
  end.
(** A page after [k] passes that find it free, or live, every time. *)
Definition aged_by (m : Memory) (k : nat) pg : option ExclusivePage :=
  if freed m (page_handle pg) then
    if (ALLOC_AFTER_FREE <=? free_count pg + Z.of_nat k) then None
    else Some (mk_ExclusivePage (page_slice pg) (alloc_size pg) (free_count pg + Z.of_nat k))
  else Some pg.

Lemma aged_by_0 m pg : 0 <= free_count pg < ALLOC_AFTER_FREE → aged_by m 0 pg = Some pg.
Proof.
  intros Hc. unfold aged_by. rewrite Z.add_0_r, (proj2 (Z.leb_gt _ _)) by lia.
  destruct pg. by destruct (freed _ _).
Qed.
Lemma aged_by_succ m m' k pg :
  0 <= free_count pg → (∀ pg', aged m Periodic pg = Some pg' → freed m' (page_handle pg) = freed m (page_handle pg)) →
  aged m Periodic pg ≫= aged_by m' k = aged_by m (S k) pg.
Proof.
  unfold aged, aged_by. rewrite bool_decide_eq_false_2, orb_false_r by done.
  destruct (freed m (page_handle pg)) eqn:Hf; intros Hc Hsame.
  - destruct (Z.leb_spec ALLOC_AFTER_FREE (free_count pg + 1)).
    + cbn. rewrite (proj2 (Z.leb_le _ _)) by lia. done.
    + cbn. unfold page_handle in *. cbn. rewrite (Hsame _ eq_refl).
      replace (free_count pg + 1 + Z.of_nat k) with (free_count pg + Z.of_nat (S k)) by lia. done.
  - cbn. by rewrite (Hsame _ eq_refl).
Qed.
(** Only the pages that go are given back. *)
Lemma released_other m cleanup l h id :
  (∀ pg, pg ∈ l → aged m cleanup pg = None → page_id pg ≠ id) →
  foldl (released_page m cleanup) h l !! id = h !! id.
Proof.
  revert h. induction l as [|pg l IH]; intros h Hl; [done|]. cbn [foldl].
  rewrite IH by (intros pg0 ?; apply Hl; by right). unfold released_page.
  destruct (aged m cleanup pg) eqn:Ha; [done|]. apply lookup_delete_ne, Hl; [by left|done].
Qed.
Lemma released_none m cleanup l h id :
  h !! id = None → foldl (released_page m cleanup) h l !! id = None.
Proof.
  revert h. induction l as [|pg l IH]; intros h Hh; [done|]. cbn [foldl]. apply IH.
  unfold released_page. destruct (aged m cleanup pg); [done|]. by rewrite lookup_delete_None; right.
Qed.
Lemma released_gone m cleanup l h pg :
  pg ∈ l → aged m cleanup pg = None → foldl (released_page m cleanup) h l !! page_id pg = None.
Proof.
  intros Hin Ha. revert h. induction l as [|x l IH]; [by apply not_elem_of_nil in Hin|]. intros h. cbn [foldl].
  apply elem_of_cons in Hin as [->|Hin]; [|by apply IH].
  apply released_none. unfold released_page. rewrite Ha. apply lookup_delete_eq.
Qed.

Lemma wp_cleanups nrs p w :
  excl_inv w p → storage_ok w → excl_room (length (excl_pages p)) → 0 <= dealloc_period p →
  due_passes (dealloc_period p) (last_dealloc_check p) nrs →
  wp (cleanups p nrs) w (λ p' w',
    excl_inv w' p' ∧ storage_ok w' ∧
    excl_pages p' = omap (aged_by (memory w) (length nrs)) (excl_pages p) ∧
    (∀ id, held (storage w) !! id = None → held (storage w') !! id = None) ∧
    (∀ pg, pg ∈ excl_pages p → aged_by (memory w) (length nrs) pg = None →
       held (storage w') !! page_id pg = None)).
Proof.
  revert p w. induction nrs as [|n nrs IH]; intros p w Hinv Hok Hroom Hper Hdue; cbn [cleanups].
  - apply wp_ret. assert (∀ pg, pg ∈ excl_pages p → aged_by (memory w) 0 pg = Some pg) as H0'.
    { intros pg [i Hi]%list_elem_of_lookup. apply aged_by_0, (ep_count _ _ _ _ (xi_out _ _ _ _ Hinv i pg Hi)). }
    split; [done|]. split; [done|]. split; [|split; [done|]].
    + cbn [length]. rewrite (omap_ext_in _ Some) by done. symmetry. apply omap_some.
    + cbn. intros pg Hpg. by rewrite H0'.
  - destruct Hdue as [Hdue Hrest]. pose proof (Z.div_pos (dealloc_period p) ALLOC_AFTER_FREE Hper ltac:(done)).
    apply wp_bind. eapply wp_mono; [apply (wp_exclusive_cleanup w p n Periodic); [done..|lia]|].
    intros p1 w1 (Hinv1 & Hok1 & Hf1 & Hp1). rewrite decide_True in Hp1 by by right. destruct Hp1 as [-> Hh1].
    cbn [excl_pages with_excl_pages with_excl_check] in Hf1.
    assert (∀ pg, pg ∈ excl_pages p →
      aged (memory w) Periodic pg ≫= aged_by (memory w1) (length nrs) = aged_by (memory w) (S (length nrs)) pg) as Hag.
    { intros pg Hpg. apply list_elem_of_lookup in Hpg as Hl. destruct Hl as [i Hi].
      apply aged_by_succ; [apply (ep_count _ _ _ _ (xi_out _ _ _ _ Hinv i pg Hi))|].
      intros pg' Hpg'. pose proof (aged_same _ _ _ _ Hpg') as [Hs _].
      assert (page_handle pg' = page_handle pg) as <- by (unfold page_handle; by rewrite Hs). apply Hf1, list_elem_of_omap. by exists pg. }
    eapply wp_mono; [apply IH; try done|].
    + cbn. pose proof (omap_length_le (aged (memory w) Periodic) (excl_pages p)). unfold excl_room in *. lia.
    + cbn [excl_pages with_excl_pages with_excl_check length]. intros p' w' (Hinv' & Hok' & Hp' & Hmono & Hgone).
      split; [done|]. split; [done|]. split; [|split].
      * rewrite Hp', omap_omap. by apply omap_ext_in.
      * intros id Hid. apply Hmono. rewrite Hh1. by apply released_none.
      * intros pg Hpg Ha. destruct (aged (memory w) Periodic pg) as [pg1|] eqn:Ha1.
        -- pose proof (aged_same _ _ _ _ Ha1) as [Hs _]. unfold page_id. rewrite <- Hs. apply Hgone.
           ++ apply list_elem_of_omap. by exists pg.
           ++ specialize (Hag pg Hpg). rewrite Ha1 in Hag. cbn in Hag. by rewrite Hag.
        -- apply Hmono. rewrite Hh1. by apply released_gone.
Qed.

(** Reserving in an exclusive pool.  When a free page is large enough the
    first of those with the least count serves the allocation; otherwise a page
    is made for it, at least as large as the average of the sizes asked for.
    Either way the page holds the size at its start in a device allocation of
    its own that is large enough, the handle answered is live and leads to it,
    and every other page is as it was.  A refusal of the device leaves the
    pages alone.  Nothing panics. *)
Theorem exclusive_reserve_correct w p size :
  let n := fresh_size (averaged p size) size in
  excl_inv w p → storage_ok w → 0 <= size <= excl_max_alloc_size p →
  n + excl_alignment p <= u64_max → (∀ k, n <= k < n + excl_alignment p → can_alloc k w) →
  COUNTER (memory w) < u64_max → excl_room (S (length (excl_pages p))) →
  wp (pools_reserve [p] size) w (λ '(r, l) w', ∃ p', l = [p'] ∧ excl_inv w' p' ∧ storage_ok w' ∧
    match r with
    | Ok h => ∃ i pg', excl_reserved w' p' size h i pg' ∧ excl_others w w' p p' i ∧
        match excl_pages p !! i with
        | Some pg => candidate (memory w) size pg ∧ page_handle pg = h ∧ page_id pg' = page_id pg ∧
            held (storage w') = held (storage w) ∧ length (excl_pages p') = length (excl_pages p) ∧
            ∀ j pgj, excl_pages p !! j = Some pgj → candidate (memory w) size pgj → free_count pg <= free_count pgj
        | None => (∀ pg, pg ∈ excl_pages p → ¬ candidate (memory w) size pg) ∧
            excl_pages p' = excl_pages p ++ [pg'] ∧ n <= alloc_size pg' ∧ held (storage w) !! page_id pg' = None
        end
    | Err e => (∀ pg, pg ∈ excl_pages p → ¬ candidate (memory w) size pg) ∧
        excl_pages p' = excl_pages p ∧ memory w' = memory w ∧ held (storage w') = held (storage w)
    end).
Proof.
  intros n Hinv Hok Hsize Hfit Hcan Hcount Hroom. unfold pools_reserve. cbn [pools_try_reserve].
  assert (exclusive_accept p size = true) as Hacc by (apply Z.leb_le; lia). rewrite Hacc.
  apply wp_bind, wp_bind. eapply wp_mono; [apply (wp_exclusive_try_reserve w p size); [done|done|lia]|].
  intros [[h|] p'] w' (Hinv' & Hok' & Hst & _ & _ & Hlen & Hr).
  - do 2 apply wp_ret. exists p'. split; [done|]. split; [done|]. split; [done|].
    destruct Hr as (i & pg & pg' & Hi & Hc & Hmin & Hres & Hh & Hid & _ & Hoth).
    exists i, pg'. rewrite Hi. split_and!; try done. by rewrite Hst.
  - destruct Hr as (-> & -> & Hno). apply wp_bind, wp_ret, wp_ret. cbn [pools_alloc].
    change (exclusive_accept (averaged p size) size) with (exclusive_accept p size). rewrite Hacc.
    apply wp_bind. eapply wp_mono; [apply (wp_exclusive_alloc w (averaged p size) size); [by apply excl_inv_avg|done..]|].
    intros [[h|e] p'] w' (Hinv2 & Hok2 & Hr); apply wp_ret; exists p'; (split; [done|]; split; [done|]; split; [done|]).
    + destruct Hr as (pg' & Hres & Hp' & Hle & Hnew & Hoth). exists (length (excl_pages p)), pg'.
      rewrite lookup_ge_None_2 by done. split_and!; done.
    + destruct Hr as (-> & Hm & Hh). by split_and!.
Qed.

(** Cleaning up an exclusive pool.  A periodic cleanup that is not due does
    nothing.  Otherwise every live page stays, in order, with a location that
    leads to it; of the free ones those found free for the fifth time go, with
    their claims and their device allocation, or all of them when the cleanup is
    explicit, and the others stay with one more to their count. *)
Theorem exclusive_cleanup_correct w p alloc_nr cleanup :
  excl_inv w p → storage_ok w → excl_room (length (excl_pages p)) → last_dealloc_check p <= alloc_nr →
  wp (exclusive_cleanup p alloc_nr cleanup) w (λ p' w',
    excl_inv w' p' ∧ storage_ok w' ∧
    if decide (cleanup = Explicit ∨ dealloc_period p / ALLOC_AFTER_FREE <= alloc_nr - last_dealloc_check p) then
      last_dealloc_check p' = alloc_nr ∧
      excl_pages p' = omap (aged (memory w) cleanup) (excl_pages p) ∧
      (∀ pg, pg ∈ excl_pages p → freed (memory w) (page_handle pg) = false →
         pg ∈ excl_pages p' ∧ freed (memory w') (page_handle pg) = false ∧
         held (storage w') !! page_id pg = Some (alloc_size pg)) ∧
      (∀ pg, pg ∈ excl_pages p → aged (memory w) cleanup pg = None → held (storage w') !! page_id pg = None) ∧
      (∀ id, id ∉ page_id <$> excl_pages p → held (storage w') !! id = held (storage w) !! id)
    else p' = p ∧ w' = w).
Proof.
  intros Hinv Hok Hroom Hnr. eapply wp_mono; [by apply wp_exclusive_cleanup|].
  intros p' w' (Hinv' & Hok' & Hf & Hr). split; [done|]. split; [done|]. case_decide; [|done].
  destruct Hr as [-> Hh]. split; [done|]. split; [done|]. split; [|split].
  - intros pg Hpg Hl. assert (pg ∈ omap (aged (memory w) cleanup) (excl_pages p)) as Hin.
    { apply list_elem_of_omap. exists pg. split; [done|]. unfold aged. by rewrite Hl. }
    split; [done|]. split; [by rewrite Hf|]. apply (xi_held _ _ _ _ Hinv'). by rewrite app_nil_r.
  - intros pg Hpg Ha. rewrite Hh. by apply released_gone.
  - intros id Hid. rewrite Hh. apply released_other. intros pg Hpg _ <-. by apply Hid, list_elem_of_fmap_2.
Qed.

(** C9: a page that stays free does not stay long: after five periodic
    cleanups that are due, whatever the pool held, exactly the live pages are
    left, in their order, and the device allocation of every free one is
    given back. *)
Theorem free_pages_released w p nrs :
  excl_inv w p → storage_ok w → excl_room (length (excl_pages p)) → 0 <= dealloc_period p →
  due_passes (dealloc_period p) (last_dealloc_check p) nrs → ALLOC_AFTER_FREE <= Z.of_nat (length nrs) →
  wp (cleanups p nrs) w (λ p' w', excl_inv w' p' ∧ storage_ok w' ∧
    excl_pages p' = filter (λ pg, freed (memory w) (page_handle pg) = false) (excl_pages p) ∧
    ∀ pg, pg ∈ excl_pages p → freed (memory w) (page_handle pg) = true → held (storage w') !! page_id pg = None).
Proof.
  intros Hinv Hok Hroom Hper Hdue Hlen. eapply wp_mono; [by apply wp_cleanups|].
  intros p' w' (Hinv' & Hok' & Hp' & _ & Hgone). split; [done|]. split; [done|].
  assert (∀ pg, pg ∈ excl_pages p → aged_by (memory w) (length nrs) pg =
    if freed (memory w) (page_handle pg) then None else Some pg) as Hag.
  { intros pg [i Hi]%list_elem_of_lookup. pose proof (ep_count _ _ _ _ (xi_out _ _ _ _ Hinv i pg Hi)).
    unfold aged_by. destruct (Z.leb_spec ALLOC_AFTER_FREE (free_count pg + Z.of_nat (length nrs))); [done|lia]. }
  split.
  - rewrite Hp', (omap_ext_in _ _ _ Hag). clear. induction (excl_pages p) as [|pg l IH]; [done|].
    rewrite filter_cons. cbn. by destruct (freed (memory w) (page_handle pg)); cbn; rewrite IH.
  - intros pg Hpg Hfr. apply Hgone; [done|]. by rewrite Hag, Hfr.
Qed.
End exclusive_specs.

(** ** The bucket sizes *)
Lemma vec_dedup_sub l x : x ∈ vec_dedup l → x ∈ l.
Proof.
  revert x. induction l as [|a [|b l] IH]; intros x; [done|done|].
  change (vec_dedup (a :: b :: l)) with (if a =? b then vec_dedup (b :: l) else a :: vec_dedup (b :: l)).
  destruct (a =? b); [by intros ?%IH; right|].
  intros [->|?%IH]%elem_of_cons; [by left|by right].
Qed.
Lemma vec_dedup_length l : (length (vec_dedup l) <= length l)%nat.
Proof.
  induction l as [|a [|b l] IH]; [done|done|].
  change (vec_dedup (a :: b :: l)) with (if a =? b then vec_dedup (b :: l) else a :: vec_dedup (b :: l)).
  destruct (a =? b); cbn [length] in *; lia.
Qed.

Section bucket_specs.
Context (ln exp : f64 → f64).

Lemma f64_to_u64_bounds x : 0 <= f64_to_u64 x <= u64_max.
Proof.
  destruct x as [[]|[]| |[] m e]; cbn [f64_to_u64]; try (split; done).
  destruct (Z.leb_spec 0 e); [|pose proof (Z.div_pos (Zpos m) (2 ^ (- e)) ltac:(lia) ltac:(lia)); lia].
  assert (0 < 2 ^ e) by lia. lia.
Qed.

Lemma exclusive_new_ok layout :
  0 < layout_alignment layout → (layout_alignment layout | layout_max_alloc_size layout) →
  exclusive_new layout = Some (mk_ExclusivePool [] (layout_alignment layout) (layout_dealloc_period layout) 0
    (layout_max_alloc_size layout) (f64_div (f64_of (layout_max_alloc_size layout)) (f64_of 2))
    (location_new (layout_pool layout) 0 0) 0 0).
Proof.
  intros Ha Hd. unfold exclusive_new. rewrite decide_False by lia. rewrite decide_True; [done|].
  apply Z.mod_divide; [lia|done].
Qed.
Lemma mapM_new_ok alignment l :
  0 < alignment → Forall (λ '(_, size), (alignment | size)) l →
  ∃ ps, mapM (λ '(index, size), exclusive_new (mk_ExclusiveLayout size alignment (dealloc_period_of size)
    (as_u8 (Z.of_nat index)))) l = Some ps ∧ excl_max_alloc_size <$> ps = snd <$> l ∧
    Forall (λ p, excl_pages p = [] ∧ excl_alignment p = alignment) ps.
Proof.
  intros Ha. induction l as [|[i size] l IH]; intros Hl; [by exists []|].
  apply Forall_cons in Hl as [Hsize Hl]. destruct (IH Hl) as (ps & Hps & Hmax & Hall). clear IH.
  eexists (_ :: ps). split; [|split].
  - cbn [mapM]. rewrite Hps, (exclusive_new_ok (mk_ExclusiveLayout size alignment _ _)) by done. done.
  - cbn. by rewrite Hmax.
  - by constructor.
Qed.

Lemma bucket_size_ok max_page_size alignment i size :
  0 < alignment → bucket_size ln exp max_page_size alignment i = Some size →
  (alignment | size) ∧ 0 <= size <= u64_max.
Proof.
  intros Ha. unfold bucket_size. set (x := f64_to_u64 _). pose proof (f64_to_u64_bounds _ : 0 <= x <= _) as Hx.
  unfold next_multiple_of. rewrite decide_False by lia. case_decide as Hd.
  - intros [= <-]. split; [apply Z.mod_divide; [lia|done]|done].
  - intros Hs. unfold add_u64 in Hs. case_decide as Hb; [|done]. injection Hs as <-.
    pose proof (Z.mod_pos_bound x alignment Ha). split; [|lia].
    exists (x / alignment + 1). pose proof (Z.div_mod x alignment). lia.
Qed.

(** When no bucket size overflows, every bucket is a multiple of the alignment
    and every pool is made: its assertion holds, whatever the platform's
    logarithm and exponential. *)
Theorem exclusive_pools_new_correct max_page_size alignment sizes :
  0 < alignment → bucket_sizes ln exp max_page_size alignment = Some sizes →
  Forall (λ size, (alignment | size) ∧ 0 <= size <= u64_max) sizes ∧ (length sizes <= MAX_BUCKETS)%nat ∧
  ∃ l, exclusive_pools_new ln exp max_page_size alignment = Some l ∧
    excl_max_alloc_size <$> l = sizes ∧
    Forall (λ p, excl_pages p = [] ∧ excl_alignment p = alignment) l.
Proof.
  intros Ha Hs. unfold exclusive_pools_new. rewrite Hs. cbn [mbind option_bind].
  unfold bucket_sizes in Hs. apply fmap_Some in Hs as (l & Hl & ->). apply mapM_Some in Hl.
  assert (Forall (λ size, (alignment | size) ∧ 0 <= size <= u64_max) (vec_dedup l)) as Hall.
  { apply Forall_forall. intros size Hin%vec_dedup_sub.
    apply list_elem_of_lookup in Hin as [i Hi]. destruct (Forall2_lookup_r _ _ _ _ _ Hl Hi) as (j & _ & Hj).
    by eapply bucket_size_ok. }
  split; [done|]. split.
  { etrans; [apply vec_dedup_length|]. by rewrite <- (Forall2_length _ _ _ Hl), length_seq. }
  destruct (mapM_new_ok alignment (imap (λ index size, (index, size)) (vec_dedup l)) Ha) as (ps & Hps & Hmax & Hp).
  - apply Forall_forall. intros [i size] Hin. apply list_elem_of_lookup in Hin as [j Hj].
    rewrite list_lookup_imap in Hj. apply fmap_Some in Hj as (size' & Hj & [= -> ->]).
    rewrite Forall_lookup in Hall. by apply (Hall _ _ Hj).
  - exists ps. split; [done|]. split; [|done]. rewrite Hmax. apply list_eq. intros i.
    rewrite list_lookup_fmap, list_lookup_imap. by destruct (vec_dedup l !! i).
Qed.
End bucket_specs.

Section witnesses.
Let answer (st : Bytes.BytesStorage) (n : Z) : bool := true.
#[local] Instance exclusive_bytes : ComputeStorage Bytes.BytesStorage :=
  Bytes.storage_bytes_storage answer.
#[local] Instance exclusive_bytes_laws : ComputeStorageLaws Bytes.BytesStorage :=
  Bytes.bytes_storage_laws answer.

(** A free page of sixteen bytes and a live one of eight. *)
Definition exclusive_example : ExclusiveMemoryPool :=
  let st k n := mk_StorageHandle k (mk_StorageUtilization 0 n) in
  mk_ExclusivePool
    [mk_ExclusivePage (mk_Slice (st 7 6) 0 2 5 true taint_default) 16 3;
     mk_ExclusivePage (mk_Slice (st 5 8) 1 0 0 true taint_default) 8 4]
    4 10 0 1024 (f64_of 16) (location_new 3 0 0) 2 8.
Definition exclusive_world : World Bytes.BytesStorage :=
  let d k h b := mk_Descriptor (to_bits (with_page k (location_new 3 0 0))) h b in
  mk_World (mk_Memory 2 {[ 0 := d 0 1 0; 1 := d 1 2 1 ]}) graph_default 8
    (Bytes.mk_BytesStorage {[ 7 := 16; 5 := 8 ]} 24).

Lemma exclusive_world_ok : storage_ok exclusive_world.
Proof.
  split; cbn; [lia|]. split; [reflexivity|]. intros id n Hn.
  apply lookup_insert_Some in Hn as [[<- <-]|[_ [<- <-]%lookup_singleton_Some]]; lia.
Qed.
Lemma exclusive_example_inv : excl_inv exclusive_world exclusive_example.
Proof.
  split.
  - split; [cbn; lia|]. apply (bool_decide_unpack (map_Forall (λ id d,
      0 <= id < 2 ∧ 0 <= handles d ∧ 0 <= bindings d) (descriptors (memory exclusive_world)))).
    vm_compute. exact I.
  - assert (∀ a b c, (4 | c) → a = c → (4 | a) ∧ (4 | 4 * b)) as Hdiv.
    { intros a b c Hc ->. split; [done|]. exists b. lia. }
    intros [|[|i]] pg [= <-]; split; cbn; unfold eff, slice_size, ALLOC_AFTER_FREE; cbn; try done; try lia.
    + eexists. split_and!; [reflexivity|vm_compute; reflexivity|done].
    + apply (Hdiv 8 4 8); [by exists 2|done].
    + eexists. split_and!; [reflexivity|vm_compute; reflexivity|done].
    + apply (Hdiv 8 2 8); [by exists 2|done].
  - by intros pg ?%not_elem_of_nil.
  - apply (bool_decide_unpack _). vm_compute. exact I.
  - split; [repeat (constructor; [apply taint_default_ok|]); constructor|].
    intros f. unfold tags. cbn. rewrite lookup_empty. done.
  - apply (bool_decide_unpack _). vm_compute. exact I.
  - intros pg [i Hi]%list_elem_of_lookup. destruct i as [|[|[|i]]]; try done; by injection Hi as <-.
  - intros pg [i Hi]%list_elem_of_lookup. destruct i as [|[|[|i]]]; try done; by injection Hi as <-.
  - split; [|done]. unfold location_ok; cbn. lia.
  - done.
Qed.

Lemma exclusive_reserve_correct_witness :
  wp (pools_reserve [exclusive_example] 7) exclusive_world (λ '(r, l) w',
    ∃ p', l = [p'] ∧ excl_inv w' p' ∧ storage_ok w').
Proof.
  eapply wp_mono; [apply (exclusive_reserve_correct exclusive_world exclusive_example 7
    exclusive_example_inv exclusive_world_ok)|].
  - cbn. lia.
  - vm_compute. done.
  - intros k Hk. assert (15 <= k < 19) as Hb by exact Hk.
    change (Bytes.room k exclusive_world). unfold Bytes.room, Bytes.ALIGNMENT; cbn. lia.
  - cbn. lia.
  - unfold excl_room. cbn. lia.
  - intros [r l] w' (p' & ? & ? & ? & _). exists p'. split_and!; assumption.
Defined.

Lemma exclusive_cleanup_correct_witness :
  wp (exclusive_cleanup exclusive_example 6 Periodic) exclusive_world (λ p' w',
    excl_inv w' p' ∧ free_count <$> excl_pages p' = [4; 4]).
Proof.
  eapply wp_mono; [apply (exclusive_cleanup_correct exclusive_world exclusive_example 6 Periodic
    exclusive_example_inv exclusive_world_ok)|].
  - unfold excl_room. cbn. lia.
  - cbn. lia.
  - intros p' w' (? & _ & Hr). split; [assumption|]. rewrite decide_True in Hr by (right; vm_compute; discriminate).
    destruct Hr as (_ & -> & _). reflexivity.
Defined.

Lemma free_pages_released_witness :
  wp (cleanups exclusive_example [2; 4; 6; 8; 11]) exclusive_world (λ p' w',
    excl_inv w' p' ∧ page_id <$> excl_pages p' = [5] ∧ held (storage w') !! 7 = None).
Proof.
  eapply wp_mono; [apply (free_pages_released exclusive_world exclusive_example [2; 4; 6; 8; 11]
    exclusive_example_inv exclusive_world_ok)|].
  - unfold excl_room. cbn. lia.
  - cbn. lia.
  - cbn. unfold ALLOC_AFTER_FREE. repeat split; vm_compute; discriminate.
  - vm_compute. discriminate.
  - intros p' w' (? & _ & Hp & Hgone). split; [assumption|]. rewrite Hp. split; [reflexivity|].
    apply (Hgone (mk_ExclusivePage (mk_Slice (mk_StorageHandle 7 (mk_StorageUtilization 0 6)) 0 2 5 true taint_default) 16 3));
      [left|reflexivity].
Defined.
End witnesses.
