(* ===== verification/Relocation.v ===== *)
(** * Relocation

    [cubecl-server/src/memory_management/relocation]: when live allocations
    are moved off outdated pages ([trigger.rs]), which pages are emptied and
    in what order ([analysis.rs]), the copies a move waits for ([base.rs],
    [copy_queue.rs]), and the order of the steps over the streams of a server
    ([streams.rs]).  The pools that plan and commit the moves are in
    [Arena.v]. *)

From Stdlib Require Import Sorted.
From S2P Require Export SlicedPool.
From stdpp Require Import list strings.
#[local] Open Scope Z_scope.

(** ** When *)
Inductive TargetRoom := Held | MayAllocate.

Record ArenaShape := mk_ArenaShape {
  current_pages : Z;
  outdated_pools : nat;
  shape_outdated_pages : Z;
  outdated_guarded : nat;
}.
#[global] Instance ArenaShape_eq_dec : EqDecision ArenaShape.
Proof. solve_decision. Defined.
Record ArenaState := mk_ArenaState {
  state_page_size : Z;
  state_has_outdated : bool;
  state_full : bool;
  state_shape : ArenaShape;
}.
Record RelocationTrigger := mk_RelocationTrigger {
  capacity : option Z;
  stalled_shape : option ArenaShape;
}.
Inductive RelocationNeed := NeedNothing | NeedArenaFull | UnderPressure (capacity page_size : Z).
#[global] Instance RelocationNeed_eq_dec : EqDecision RelocationNeed.
Proof. solve_decision. Defined.
Inductive RelocationReason := ReasonExplicit | ReasonMemoryPressure | ReasonArenaFull | ReasonCapture.
Inductive MemoryPressure := Low | High.

Definition trigger_new (capacity : option Z) : RelocationTrigger := mk_RelocationTrigger capacity None.
Definition trigger_need (t : RelocationTrigger) (arena : ArenaState) : RelocationNeed :=
  if negb (state_has_outdated arena) || bool_decide (stalled_shape t = Some (state_shape arena)) then NeedNothing
  else if state_full arena then NeedArenaFull
  else match capacity t with
       | Some capacity => UnderPressure capacity (state_page_size arena)
       | None => NeedNothing
       end.
Definition trigger_moved (t : RelocationTrigger) : RelocationTrigger := mk_RelocationTrigger (capacity t) None.
Definition trigger_stalled (t : RelocationTrigger) (arena : ArenaState) : RelocationTrigger :=
  mk_RelocationTrigger (capacity t) (Some (state_shape arena)).

Definition memory_pressure (allocated capacity page_size : Z) : option MemoryPressure :=
  next ← add_u64 allocated page_size;
  Some (if sat_sub capacity page_size <? next then High else Low).
(** [allocated] is what the closure answers, [None] when it panics; it is only
    asked under pressure. *)
Definition need_reason (need : RelocationNeed) (allocated : option Z) : option (option RelocationReason) :=
  match need with
  | NeedNothing => Some None
  | NeedArenaFull => Some (Some ReasonArenaFull)
  | UnderPressure capacity page_size =>
      allocated ← allocated;
      pressure ← memory_pressure allocated capacity page_size;
      Some (match pressure with High => Some ReasonMemoryPressure | Low => None end)
  end.
Definition reason_room (reason : RelocationReason) : TargetRoom :=
  match reason with
  | ReasonExplicit | ReasonMemoryPressure => Held
  | ReasonArenaFull | ReasonCapture => MayAllocate
  end.

(** ** What *)
Record LiveAllocation := mk_LiveAllocation { live_handle : ManagedMemoryId; live_size : Z }.
Record MovablePage := mk_MovablePage { page_live : list LiveAllocation }.

Section analysis.
Context {St : Type}.

(** [page.live().any(|slice| slice.handle.is_bound())] *)
Fixpoint any_bound (l : list Slice) : M (World St) bool :=
  match l with
  | [] => mret false
  | s :: l =>
      bound ← on_memory (handle_is_bound (handle s));
      if bound : bool then mret true else any_bound l
  end.
(** Every live slice with a clone of its handle. *)
Fixpoint live_allocations (l : list Slice) : M (World St) (list LiveAllocation) :=
  match l with
  | [] => mret []
  | s :: l =>
      _ ← on_memory (handle_clone (handle s));
      (mk_LiveAllocation (handle s) (slice_size s) ::.) <$> live_allocations l
  end.
Definition movable_page (page : MemoryPage) : M (World St) (option MovablePage) :=
  l ← live page;
  bound ← any_bound l;
  if bound : bool then mret None
  else
    allocations ← live_allocations l;
    mret (if decide (allocations = []) then None else Some (mk_MovablePage allocations)).
Fixpoint outdated_pages_new (pages : list MemoryPage) : M (World St) (list MovablePage) :=
  match pages with
  | [] => mret []
  | page :: pages =>
      if is_guarded page then outdated_pages_new pages
      else
        r ← movable_page page;
        rest ← outdated_pages_new pages;
        mret (match r with Some page => page :: rest | None => rest end)
  end.
End analysis.

#[global] Instance LiveAllocation_eq_dec : EqDecision LiveAllocation.
Proof. solve_decision. Defined.

Definition live_bytes (page : MovablePage) : option Z := sum_u64 (live_size <$> page_live page).
#[global] Arguments live_bytes : simpl never.

(** [sort_by_key]: stable. *)
Fixpoint insert_by_key {A} (x : Z * A) (l : list (Z * A)) : list (Z * A) :=
  match l with
  | [] => [x]
  | y :: l' => if x.1 <=? y.1 then x :: l else y :: insert_by_key x l'
  end.
Definition sort_by_key {A} (l : list (Z * A)) : list (Z * A) := foldr insert_by_key [] l.
(** The sort looks at no key of a list of one. *)
Definition plan_pages (pages : list MovablePage) : option (list MovablePage) :=
  match pages with
  | [] | [_] => Some pages
  | _ => keyed ← mapM (λ page, bytes ← live_bytes page; Some (bytes, page)) pages;
         Some (snd <$> sort_by_key keyed)
  end.

(** ** The copies *)
Record StorageCopy := mk_StorageCopy { copy_source : StorageHandle; copy_target : StorageHandle }.
Record Move := mk_Move {
  move_allocation : ManagedMemoryId;
  move_target : ManagedMemoryId;
  move_copy : option StorageCopy;
}.
(** [Relocation] and [Landed]: only [relocation_copy] makes one of the other. *)
Record PlannedRelocation := mk_Relocation { planned_moves : list Move }.
Record Landed := mk_Landed { landed_moves : list Move }.

Definition relocation_len (r : PlannedRelocation) : nat := length (planned_moves r).
Definition relocation_is_empty (r : PlannedRelocation) : bool := bool_decide (relocation_len r = 0%nat).

Class CopyQueue (Q St : Type) := {
  wait_device : M Q (result unit ServerError);
  queue_copy : StorageCopy → M (St * Q) (result unit IoError);
  wait_copies : M Q (result unit ServerError);
}.

Section copy.
Context {Q St : Type} `{CopyQueue Q St}.

Definition on_queue {A} (m : M Q A) : M (World St * Q) A := λ '(w, q),
  match m q with Some (a, q) => Some (a, (w, q)) | None => None end.
Definition on_storage_queue {A} (m : M (St * Q) A) : M (World St * Q) A := λ '(w, q),
  match m (storage w, q) with
  | Some (a, (st, q)) => Some (a, (with_storage st w, q))
  | None => None
  end.
Definition on_world {A} (m : M (World St) A) : M (World St * Q) A := λ '(w, q),
  match m w with Some (a, w) => Some (a, (w, q)) | None => None end.

(** Dropping a move drops the two handles it holds. *)
Fixpoint drop_moves (moves : list Move) : M (World St) unit :=
  match moves with
  | [] => mret tt
  | relocated :: moves =>
      _ ← on_memory (handle_drop (move_allocation relocated));
      _ ← on_memory (handle_drop (move_target relocated));
      drop_moves moves
  end.

(** [filter_map] and [try_for_each] *)
Fixpoint enqueue_copies (moves : list Move) : M (World St * Q) (result unit IoError) :=
  match moves with
  | [] => mret (Ok tt)
  | relocated :: moves =>
      match move_copy relocated with
      | None => enqueue_copies moves
      | Some copy =>
          r ← on_storage_queue (queue_copy copy);
          match r with Err e => mret (Err e) | Ok _ => enqueue_copies moves end
      end
  end.
Definition relocation_copy (r : PlannedRelocation) : M (World St * Q) (result Landed ServerError) :=
  let abandon e := _ ← on_world (drop_moves (planned_moves r)); mret (Err e) in
  ready ← on_queue wait_device;
  match ready with
  | Err e => abandon e
  | Ok _ =>
      enqueued ← enqueue_copies (planned_moves r);
      landed ← on_queue wait_copies;
      match enqueued, landed with
      | Err e, _ => abandon (Io e)
      | Ok _, Err e => abandon e
      | Ok _, Ok _ => mret (Ok (mk_Landed (planned_moves r)))
      end
  end.
End copy.

(** ** The steps over the streams of a server *)
Class RelocatingStreams (R : Type) := {
  recording : M R bool;
  has_outdated : M R bool;
  relocation_need : M R RelocationNeed;
  streams_bytes_allocated : M R Z;
  finish : M R unit;
  relocate_memory : RelocationReason → M R unit;
  device_has_outdated : M R bool;
  relocate_device_memory : RelocationReason → M R unit;
  cleanup_memory : M R unit;
}.
Definition recording_refusal : ServerError :=
  Generic "memory_cleanup: a stream is recording a graph, whose pages keep their addresses until it seals".

Section streams.
Context {R : Type} `{RelocatingStreams R}.

Definition refuse_while_recording : M R (result unit ServerError) :=
  b ← recording; mret (if b : bool then Err recording_refusal else Ok tt).
(** [self.recording() || !self.has_outdated()]: the second is not asked when
    the first holds. *)
Definition relocate_streams (reason : RelocationReason) : M R unit :=
  b ← recording;
  if b : bool then mret tt
  else
    outdated ← has_outdated;
    if negb outdated then mret tt
    else _ ← finish; relocate_memory reason.
Definition reclaim : M R (result unit ServerError) :=
  r ← refuse_while_recording;
  match r with
  | Err e => mret (Err e)
  | Ok _ => _ ← relocate_streams ReasonExplicit; _ ← cleanup_memory; mret (Ok tt)
  end.
Definition relocate_when_wanted : M R unit :=
  need ← relocation_need;
  if decide (need = NeedNothing) then mret tt
  else
    b ← recording;
    if b : bool then mret tt
    else
      (* the closure runs when the need depends on the bytes *)
      allocated ← (match need with
                   | UnderPressure _ _ => Some <$> streams_bytes_allocated
                   | _ => mret None
                   end);
      reason ← lift (need_reason need allocated);
      match reason with
      | None => mret tt
      | Some reason => _ ← finish; relocate_memory reason
      end.
Definition relocate_device (reason : RelocationReason) : M R unit :=
  b ← recording;
  if b : bool then mret tt
  else
    outdated ← device_has_outdated;
    if negb outdated then mret tt
    else _ ← finish; relocate_device_memory reason.
End streams.

(** ** The trigger *)

(** What wants a relocation, and why: nothing unless something is outdated and
    the pools changed since the last one that moved nothing; a full arena
    always; and otherwise, on a device that says what it holds, once the next
    two pages would not fit. *)
Lemma trigger_spec t arena allocated :
  0 <= allocated → 0 < state_page_size arena → allocated + state_page_size arena <= u64_max →
  (∀ c, capacity t = Some c → 0 <= c) →
  need_reason (trigger_need t arena) (Some allocated) = Some
    (if negb (state_has_outdated arena) || bool_decide (stalled_shape t = Some (state_shape arena)) then None
     else if state_full arena then Some ReasonArenaFull
     else match capacity t with
          | Some c => if decide (c < allocated + 2 * state_page_size arena) then Some ReasonMemoryPressure else None
          | None => None
          end).
Proof.
  intros Ha Hp Hs Hc. unfold trigger_need. destruct (negb _ || _); [done|]. destruct (state_full arena); [done|].
  destruct (capacity t) as [c|]; [|done]. cbn. unfold memory_pressure. rewrite add_u64_Some by lia. cbn.
  specialize (Hc c eq_refl). unfold sat_sub.
  destruct (Z.ltb_spec (Z.max 0 (c - state_page_size arena)) (allocated + state_page_size arena)); case_decide; try done; lia.
Qed.
(** A relocation that moved nothing is not wanted again before the pools
    change, and one that moved something may be. *)
Lemma stalled_then_nothing t arena : trigger_need (trigger_stalled t arena) arena = NeedNothing.
Proof. unfold trigger_need. cbn. by rewrite bool_decide_eq_true_2, orb_true_r. Qed.

(** ** The plan *)
Section sort.
Context {A : Type}.
Implicit Types (l : list (Z * A)) (x : Z * A).
Abbreviation by_key := (λ x y : Z * A, x.1 <= y.1).

Lemma insert_by_key_perm x l : insert_by_key x l ≡ₚ x :: l.
Proof. induction l as [|y l IH]; [done|]. cbn. destruct (x.1 <=? y.1); [done|]. rewrite IH. constructor. Qed.
Lemma sort_by_key_perm l : sort_by_key l ≡ₚ l.
Proof. induction l as [|x l IH]; [done|]. cbn. by rewrite insert_by_key_perm, IH. Qed.
Lemma insert_by_key_sorted x l : Sorted by_key l → Sorted by_key (insert_by_key x l).
Proof.
  induction 1 as [|y l Hl IH Hy]; [repeat constructor|]. cbn. destruct (Z.leb_spec x.1 y.1).
  - repeat (constructor; try done).
  - constructor; [done|]. destruct l as [|z l]; cbn; [constructor; lia|].
    inversion Hy; subst. destruct (x.1 <=? z.1); constructor; [lia|done].
Qed.
Lemma sort_by_key_sorted l : Sorted by_key (sort_by_key l).
Proof. induction l as [|x l IH]; [constructor|]. by apply insert_by_key_sorted. Qed.
End sort.

Definition bytes_of (page : MovablePage) : Z := sum_Z (live_size <$> page_live page).
Definition bytes_fit (page : MovablePage) : Prop :=
  Forall (Z.le 0) (live_size <$> page_live page) ∧ bytes_of page <= u64_max.
Definition cheapest_first (l : list MovablePage) : Prop := Sorted (λ p q, bytes_of p <= bytes_of q) l.

Lemma plan_pages_spec l :
  Forall bytes_fit l → ∃ l', plan_pages l = Some l' ∧ l' ≡ₚ l ∧ cheapest_first l'.
Proof.
  intros Hl. assert (mapM (λ page, bytes ← live_bytes page; Some (bytes, page)) l = Some ((λ p, (bytes_of p, p)) <$> l)) as Hm.
  { induction Hl as [|p l [Hp Hb] Hl IH]; [done|].
    assert (live_bytes p = Some (bytes_of p)) as Hp' by by apply sum_u64_Some. cbn. rewrite Hp'. cbn. by rewrite IH. }
  assert (∃ l', Some (snd <$> sort_by_key ((λ p, (bytes_of p, p)) <$> l)) = Some l' ∧ l' ≡ₚ l ∧ cheapest_first l') as Hs.
  { eexists. split; [done|]. split.
    - rewrite sort_by_key_perm, <- list_fmap_compose. by rewrite list_fmap_id.
    - pose proof (sort_by_key_sorted ((λ p, (bytes_of p, p)) <$> l)) as Hsort.
      assert (Forall (λ x : Z * MovablePage, x.1 = bytes_of x.2) (sort_by_key ((λ p, (bytes_of p, p)) <$> l))) as Hk.
      { rewrite sort_by_key_perm. apply Forall_fmap, Forall_true. done. }
      unfold cheapest_first. induction Hsort as [|x l1 H1 IH Hx]; [constructor|].
      apply Forall_cons in Hk as [Hk1 Hk]. cbn. constructor; [by apply IH|].
      destruct Hx as [|y l2 Hy]; cbn; constructor. apply Forall_cons in Hk as [Hk2 _]. lia. }
  destruct l as [|p [|q l]]; [exists []; repeat constructor|exists [p]; repeat constructor|].
  unfold plan_pages. rewrite Hm. exact Hs.
Qed.

(** ** Clones of handles *)
Lemma with_memory_same {St} (w : World St) : with_memory (memory w) w = w.
Proof. by destruct w. Qed.
Definition occurs (id : Z) (l : list Z) : Z := Z.of_nat (length (filter (λ h, h = id) l)).
Lemma occurs_cons id h l : occurs id (h :: l) = (if decide (h = id) then 1 else 0) + occurs id l.
Proof. unfold occurs. rewrite filter_cons. case_decide; cbn [length]; lia. Qed.
Lemma occurs_app id l1 l2 : occurs id (l1 ++ l2) = occurs id l1 + occurs id l2.
Proof. unfold occurs. rewrite filter_app, length_app. lia. Qed.
Lemma occurs_none id l : id ∉ l → occurs id l = 0.
Proof.
  induction l as [|h l IH]; [done|]. intros [Hh Hl]%not_elem_of_cons. rewrite occurs_cons, decide_False, IH by done. done.
Qed.
Lemma occurs_bounds id l : 0 <= occurs id l.
Proof. unfold occurs. lia. Qed.

(** From [m] to [m'], every handle of [ids] was cloned, once for each time it
    occurs, and nothing else happened. *)
Record cloned (ids : list Z) (m m' : Memory) : Prop := mk_cloned {
  cl_evolve : evolve [] ids m m';
  cl_counter : COUNTER m' = COUNTER m;
  cl_counts id : id < COUNTER m → counts m' id = (λ c, (c.1 + occurs id ids, c.2)) <$> counts m id;
}.
Lemma cloned_nil m : cloned [] m m.
Proof.
  split; [apply evolve_refl|done|]. intros id _. unfold occurs; cbn.
  destruct (counts m id) as [[h b]|]; [|done]. cbn. by rewrite Z.add_0_r.
Qed.
Lemma cloned_trans a b m1 m2 m3 : cloned a m1 m2 → cloned b m2 m3 → cloned (a ++ b) m1 m3.
Proof.
  intros [E1 C1 N1] [E2 C2 N2]. split; [exact (evolve_trans _ _ _ _ _ _ _ E1 E2)|by rewrite C2|].
  intros id Hid. rewrite N2, N1 by lia. rewrite <- option_fmap_compose.
  destruct (counts m1 id) as [[h b']|]; [|done]. cbn. rewrite occurs_app. do 2 f_equal. lia.
Qed.
Lemma wp_handle_cloned id m (Q : unit → Memory → Prop) :
  memory_wf m → is_Some (descriptors m !! id) →
  (∀ m', cloned [id] m m' → Q tt m') → wp (handle_clone id) m Q.
Proof.
  intros Hm [d Hd] HQ. assert (0 <= handles d ∧ 0 <= bindings d) as [Hh Hb] by apply (proj2 Hm id d Hd).
  eapply wp_handle_clone; [done|]. apply HQ. split; [|done|].
  - eapply evolve_weaken, (store_update _ _ Hm d _ Hd); cbn; try lia; set_solver.
  - intros id' _. unfold counts; cbn. rewrite lookup_insert, occurs_cons. case_decide as He.
    + subst id'. rewrite Hd. done.
    + change (occurs id' []) with 0. destruct (descriptors m !! id'); [|done]. cbn. by rewrite Z.add_0_r.
Qed.

Definition bound_in (m : Memory) (id : Z) : bool :=
  match descriptors m !! id with Some d => is_bound d | None => false end.
Lemma counts_known m id d : descriptors m !! id = Some d → counts m id = Some (handles d, bindings d).
Proof. intros Hd. unfold counts. by rewrite Hd. Qed.
(** Cloning handles that are live, or not at all, frees and binds nothing. *)
Lemma cloned_freed ids m m' h :
  memory_wf m → cloned ids m m' → (∀ id, id ∈ ids → freed m id = false) → h < COUNTER m →
  freed m' h = freed m h.
Proof.
  intros Hm Hc Hl Hh. destruct (decide (h ∈ ids)) as [Hin|Hni].
  - specialize (Hl h Hin). pose proof (cl_counts _ _ _ Hc h Hh) as Hn. rewrite Hl. unfold freed, counts in *.
    destruct (descriptors m !! h) as [d|]; cbn in Hn; destruct (descriptors m' !! h) as [d'|]; try done.
    injection Hn as H1 H2. unfold is_free in *. apply Z.leb_gt in Hl. apply Z.leb_gt.
    pose proof (occurs_bounds h ids). lia.
  - apply freed_counts, (ev_counts _ _ _ _ (cl_evolve _ _ _ Hc)); done.
Qed.
Lemma cloned_bound ids m m' h : cloned ids m m' → h < COUNTER m → bound_in m' h = bound_in m h.
Proof.
  intros Hc Hh. pose proof (cl_counts _ _ _ Hc h Hh) as Hn. unfold bound_in, counts in *.
  destruct (descriptors m !! h) as [d|], (descriptors m' !! h) as [d'|]; try done.
  cbn in Hn. injection Hn as H1 H2. unfold is_bound. rewrite H1, H2.
  apply eq_true_iff_eq. rewrite !Z.ltb_lt. lia.
Qed.

(** ** What is moved *)
Section plan.
Context {St : Type}.
Implicit Types (w : World St) (page : MemoryPage).

Definition allocation_of (s : Slice) : LiveAllocation := mk_LiveAllocation (handle s) (slice_size s).
(** The live slices of an unguarded page that has some, none of them bound. *)
Definition movable (m : Memory) page : option MovablePage :=
  let l := live_of m (slices page) in
  if is_guarded page || existsb (λ s, bound_in m (handle s)) l || bool_decide (l = []) then None
  else Some (mk_MovablePage (allocation_of <$> l)).
Definition plan_handles (plan : list MovablePage) : list Z := flat_map (λ p, live_handle <$> page_live p) plan.
(** The store knows the handles of a page. *)
Definition page_known (m : Memory) page : Prop := ∀ s, s ∈ slices page → is_Some (descriptors m !! handle s).

Lemma wp_live_slices l w (Q : list Slice → World St → Prop) :
  (∀ s, s ∈ l → is_Some (descriptors (memory w) !! handle s)) →
  Q (live_of (memory w) l) w → wp (live_slices l) w Q.
Proof.
  revert Q. induction l as [|s l IH]; intros Q Hl HQ; [by apply wp_ret|]. cbn [live_slices].
  destruct (Hl s ltac:(by left)) as [d Hd]. apply wp_bind. unfold slice_is_free, handle_is_free.
  apply wp_on_memory, wp_fmap. eapply wp_descriptor; [done|]. rewrite with_memory_same.
  apply wp_bind, IH; [intros t Ht; apply Hl; by right|]. apply wp_ret.
  assert (freed (memory w) (handle s) = is_free d) as Hf by (unfold freed; by rewrite Hd).
  unfold live_of in *. rewrite filter_cons in HQ. destruct (is_free d); [by rewrite decide_False in HQ by by rewrite Hf|].
  by rewrite decide_True in HQ by done.
Qed.
Lemma wp_any_bound l w (Q : bool → World St → Prop) :
  (∀ s, s ∈ l → is_Some (descriptors (memory w) !! handle s)) →
  Q (existsb (λ s, bound_in (memory w) (handle s)) l) w → wp (any_bound l) w Q.
Proof.
  induction l as [|s l IH]; intros Hl HQ; [by apply wp_ret|]. cbn [any_bound existsb] in *.
  destruct (Hl s ltac:(by left)) as [d Hd]. apply wp_bind. unfold handle_is_bound.
  apply wp_on_memory, wp_fmap. eapply wp_descriptor; [done|]. rewrite with_memory_same.
  unfold bound_in in HQ at 1. rewrite Hd in HQ. destruct (is_bound d); [by apply wp_ret|].
  apply IH; [intros t Ht; apply Hl; by right|done].
Qed.
Lemma wp_live_allocations l w :
  memory_wf (memory w) → (∀ s, s ∈ l → is_Some (descriptors (memory w) !! handle s)) →
  wp (live_allocations l) w (λ r w', r = allocation_of <$> l ∧ w' = with_memory (memory w') w ∧
    cloned (handles_of l) (memory w) (memory w')).
Proof.
  revert w. induction l as [|s l IH]; intros w Hm Hl; cbn [live_allocations].
  { apply wp_ret. split_and!; [done|by destruct w|apply cloned_nil]. }
  apply wp_bind, wp_on_memory, wp_handle_cloned; [done|apply Hl; by left|]. intros m Hc.
  apply wp_fmap. eapply wp_mono; [apply (IH (with_memory m w))|].
  - cbn. by apply (ev_wf _ _ _ _ (cl_evolve _ _ _ Hc)).
  - intros t Ht. cbn. destruct (Hl t ltac:(by right)) as [d Hd].
    assert (handle t < COUNTER (memory w)) as Hlt by by eapply (proj2 Hm).
    pose proof (cl_counts _ _ _ Hc _ Hlt) as Hn. unfold counts in Hn. rewrite Hd in Hn.
    destruct (descriptors m !! handle t); [by eexists|done].
  - intros r w' (-> & Hw & Hc'). split; [done|]. split; [by rewrite Hw|].
    by apply (cloned_trans [handle s] _ _ m).
Qed.
End plan.

Section outdated.
Context {St : Type}.
Implicit Types (w : World St) (page : MemoryPage).

Lemma cloned_known ids m m' id : memory_wf m → cloned ids m m' → is_Some (descriptors m !! id) → is_Some (descriptors m' !! id).
Proof.
  intros Hm Hc [d Hd]. assert (id < COUNTER m) as Hlt by by eapply (proj2 Hm).
  pose proof (cl_counts _ _ _ Hc _ Hlt) as Hn. unfold counts in Hn. rewrite Hd in Hn.
  destruct (descriptors m' !! id); [by eexists|done].
Qed.
Lemma cloned_perm ids ids' m m' : ids ≡ₚ ids' → cloned ids m m' → cloned ids' m m'.
Proof.
  intros Hp [He Hc Hn]. split; [|done|].
  - eapply evolve_weaken, He; intros id _; rewrite ?Hp; auto.
  - intros id Hid. rewrite Hn by done.
    assert (occurs id ids = occurs id ids') as ->; [|done]. unfold occurs. f_equal. apply Permutation_length. by rewrite Hp.
Qed.
Lemma live_of_sub m l s : s ∈ live_of m l → s ∈ l ∧ freed m (handle s) = false.
Proof. unfold live_of. rewrite list_elem_of_filter. tauto. Qed.
Lemma movable_live m page p a :
  movable m page = Some p → a ∈ page_live p →
  ∃ s, s ∈ slices page ∧ a = allocation_of s ∧ freed m (handle s) = false ∧ bound_in m (handle s) = false.
Proof.
  unfold movable. destruct (is_guarded page); [done|]. cbn [orb].
  destruct (existsb _ _) eqn:Hb; [done|]. case_bool_decide; [done|]. intros [= <-]. cbn.
  intros (s & -> & Hs)%list_elem_of_fmap. exists s. apply live_of_sub in Hs as Hs'. destruct Hs' as [Hin Hf].
  split_and!; try done. destruct (bound_in m (handle s)) eqn:He; [|done].
  rewrite <- not_true_iff_false in Hb. exfalso. apply Hb, existsb_exists. exists s.
  split; [by apply list_elem_of_In|done].
Qed.

Lemma wp_movable_page page w :
  memory_wf (memory w) → page_known (memory w) page → is_guarded page = false →
  wp (movable_page page) w (λ r w', r = movable (memory w) page ∧ w' = with_memory (memory w') w ∧
    cloned (plan_handles (option_list r)) (memory w) (memory w')).
Proof.
  intros Hm Hk Hg. unfold movable_page, movable. rewrite Hg. cbn [orb].
  apply wp_bind, wp_live_slices; [done|]. apply wp_bind, wp_any_bound.
  { intros s [Hs _]%live_of_sub. by apply Hk. }
  destruct (existsb _ _); cbn [orb].
  { apply wp_ret. split_and!; [done|by rewrite with_memory_same|apply cloned_nil]. }
  apply wp_bind. eapply wp_mono; [apply wp_live_allocations; [done|]|].
  { intros s [Hs _]%live_of_sub. by apply Hk. }
  intros r w' (-> & Hw & Hc). apply wp_ret.
  destruct (live_of (memory w) (slices page)) as [|s l] eqn:Hl.
  - rewrite decide_True, bool_decide_eq_true_2 by done. done.
  - rewrite decide_False, bool_decide_eq_false_2 by done. split; [done|]. split; [done|].
    change (plan_handles _) with ((live_handle <$> (allocation_of <$> s :: l)) ++ []).
    rewrite app_nil_r, <- list_fmap_compose. exact Hc.
Qed.

Lemma movable_cloned ids m m' page :
  memory_wf m → cloned ids m m' → (∀ id, id ∈ ids → freed m id = false) → page_known m page →
  movable m' page = movable m page.
Proof.
  intros Hm Hc Hl Hk. assert (∀ s, s ∈ slices page → handle s < COUNTER m) as Hlt.
  { intros s [d Hd]%Hk. by eapply (proj2 Hm). }
  assert (live_of m' (slices page) = live_of m (slices page)) as Hlive.
  { assert (∀ l, l ⊆ slices page → live_of m' l = live_of m l) as Hsub; [|by apply Hsub].
    induction l as [|s l IH]; intros Hin; [done|]. unfold live_of in *. rewrite !filter_cons.
    assert (freed m' (handle s) = freed m (handle s)) as Hf.
    { apply (cloned_freed ids); [done..|]. apply Hlt, Hin. by left. }
    rewrite IH by (intros t Ht; apply Hin; by right).
    destruct (decide (freed m (handle s) = false)); [rewrite decide_True|rewrite decide_False]; try done; by rewrite Hf. }
  unfold movable. rewrite Hlive.
  assert (existsb (λ s, bound_in m' (handle s)) (live_of m (slices page)) =
          existsb (λ s, bound_in m (handle s)) (live_of m (slices page))) as ->; [|done].
  assert (∀ l, l ⊆ slices page → existsb (λ s, bound_in m' (handle s)) l = existsb (λ s, bound_in m (handle s)) l) as Hb.
  { induction l as [|s l IH]; intros Hsub; [done|]. cbn. rewrite IH by (intros t Ht; apply Hsub; by right).
    f_equal. apply (cloned_bound ids); [done|]. apply Hlt, Hsub. by left. }
  apply Hb. by intros s [? _]%live_of_sub.
Qed.

Lemma wp_outdated_pages pages w :
  memory_wf (memory w) → (∀ page, page ∈ pages → page_known (memory w) page) →
  wp (outdated_pages_new pages) w (λ l w', l = omap (movable (memory w)) pages ∧
    w' = with_memory (memory w') w ∧ cloned (plan_handles l) (memory w) (memory w')).
Proof.
  revert w. induction pages as [|page pages IH]; intros w Hm Hk; cbn [outdated_pages_new].
  { apply wp_ret. split_and!; [done|by rewrite with_memory_same|apply cloned_nil]. }
  destruct (is_guarded page) eqn:Hg.
  { cbn. unfold movable at 1. rewrite Hg. cbn. apply IH; [done|]. intros p Hp. apply Hk. by right. }
  apply wp_bind. eapply wp_mono; [apply wp_movable_page; [done|apply Hk; by left|done]|].
  intros r w1 (-> & Hw1 & Hc1). set (r := movable (memory w) page) in *.
  assert (∀ id, id ∈ plan_handles (option_list r) → freed (memory w) id = false) as Hl.
  { intros id. destruct r as [p|] eqn:Hr; cbn; [|by intros ?%not_elem_of_nil].
    rewrite app_nil_r. intros (a & -> & Ha)%list_elem_of_fmap.
    by destruct (movable_live _ _ _ _ Hr Ha) as (s & _ & -> & Hf & _). }
  apply wp_bind. eapply wp_mono; [apply IH|].
  - by apply (ev_wf _ _ _ _ (cl_evolve _ _ _ Hc1)).
  - intros p Hp s Hs. eapply cloned_known; [exact Hm|exact Hc1|]. by apply (Hk p); [right|].
  - intros rest w2 (-> & Hw2 & Hc2). apply wp_ret.
    assert (omap (movable (memory w1)) pages = omap (movable (memory w)) pages) as Hom.
    { apply omap_ext_in. intros p Hp. eapply movable_cloned; [exact Hm|exact Hc1|done|]. by apply Hk; right. }
    rewrite Hom in *.
    cbn. fold r. split; [by destruct r|]. split; [by rewrite Hw2, Hw1|].
    replace (plan_handles _) with (plan_handles (option_list r) ++ plan_handles (omap (movable (memory w)) pages)).
    + by eapply cloned_trans.
    + destruct r; cbn; by rewrite ?app_nil_r.
Qed.

Lemma plan_handles_perm l l' : l ≡ₚ l' → plan_handles l ≡ₚ plan_handles l'.
Proof. intros Hp. unfold plan_handles. by rewrite Hp. Qed.

(** The plan of a relocation.  It empties exactly the outdated pages that
    hold something live, that no guard keeps and on which no live allocation is
    bound, the cheapest first; every live allocation of such a page is in it
    once, held by one more handle; it frees and moves nothing. *)
Theorem outdated_plan pages w :
  memory_wf (memory w) → (∀ page, page ∈ pages → page_known (memory w) page) →
  Forall bytes_fit (omap (movable (memory w)) pages) →
  wp (l ← outdated_pages_new pages; lift (plan_pages l)) w (λ plan w',
    plan ≡ₚ omap (movable (memory w)) pages ∧ cheapest_first plan ∧
    w' = with_memory (memory w') w ∧ cloned (plan_handles plan) (memory w) (memory w') ∧
    ∀ p a, p ∈ plan → a ∈ page_live p → ∃ page s, page ∈ pages ∧ is_guarded page = false ∧
      s ∈ slices page ∧ a = allocation_of s ∧
      freed (memory w) (handle s) = false ∧ bound_in (memory w) (handle s) = false).
Proof.
  intros Hm Hk Hfit. apply wp_bind. eapply wp_mono; [by apply wp_outdated_pages|].
  intros l w' (-> & Hw & Hc). destruct (plan_pages_spec _ Hfit) as (plan & Hplan & Hp & Hs).
  eapply wp_lift; [exact Hplan|]. split_and!; try done.
  - eapply cloned_perm, Hc. by apply plan_handles_perm.
  - intros p a Hin Ha. rewrite Hp in Hin. apply list_elem_of_omap in Hin as (page & Hin & Hmv).
    destruct (movable_live _ _ _ _ Hmv Ha) as (s & ? & ? & ? & ?). exists page, s. split_and!; try done.
    unfold movable in Hmv. by destruct (is_guarded page).
Qed.
End outdated.

(** ** The order of the copies *)

(** From [m] to [m'], one owner of every handle of [ids] is gone, once for each
    time it occurs, and nothing else happened. *)
Record dropped (ids : list Z) (m m' : Memory) : Prop := mk_dropped {
  dr_evolve : evolve [] ids m m';
  dr_counter : COUNTER m' = COUNTER m;
  dr_counts id : id < COUNTER m → counts m' id = (λ c, (c.1 - occurs id ids, c.2)) <$> counts m id;
}.
Lemma dropped_nil m : dropped [] m m.
Proof.
  split; [apply evolve_refl|done|]. intros id _. unfold occurs; cbn.
  destruct (counts m id) as [[h b]|]; [|done]. cbn. by rewrite Z.sub_0_r.
Qed.
Lemma dropped_trans a b m1 m2 m3 : dropped a m1 m2 → dropped b m2 m3 → dropped (a ++ b) m1 m3.
Proof.
  intros [E1 C1 N1] [E2 C2 N2]. split; [exact (evolve_trans _ _ _ _ _ _ _ E1 E2)|by rewrite C2|].
  intros id Hid. rewrite N2, N1 by lia. rewrite <- option_fmap_compose.
  destruct (counts m1 id) as [[h b']|]; [|done]. cbn. rewrite occurs_app. do 2 f_equal. lia.
Qed.
Lemma wp_handle_dropped id m (Q : unit → Memory → Prop) :
  memory_wf m → owned m id → (∀ m', dropped [id] m m' → Q tt m') → wp (handle_drop id) m Q.
Proof.
  intros Hm (d & Hd & Hh) HQ. assert (0 <= handles d ∧ 0 <= bindings d) as [_ Hb] by apply (proj2 Hm id d Hd).
  eapply wp_handle_drop; [done|lia|]. apply HQ. split; [|done|].
  - eapply evolve_weaken, (store_update _ _ Hm d _ Hd); cbn; try lia; set_solver.
  - intros id' _. unfold counts; cbn. rewrite lookup_insert, occurs_cons. case_decide as He.
    + subst id'. rewrite Hd. done.
    + change (occurs id' []) with 0. destruct (descriptors m !! id'); [|done]. cbn. by rewrite Z.sub_0_r.
Qed.

Inductive QueueCall := CalledWaitDevice | CalledCopy (copy : StorageCopy) | CalledWaitCopies.
(** A call with the error it answered. *)
Abbreviation CallLog := (list (QueueCall * option ServerError)).

(** What a relocation asks of its queue: the wait for the device before any
    copy, and the wait for the copies after the last, whether or not one of them
    was refused; it succeeds when every answer did. *)
Inductive copies_log (copies : list StorageCopy) : CallLog → option ServerError → Prop :=
| log_device e : copies_log copies [(CalledWaitDevice, Some e)] (Some e)
| log_refused k copy e landed :
    copies !! k = Some copy →
    copies_log copies ((CalledWaitDevice, None) :: ((λ c, (CalledCopy c, None)) <$> take k copies) ++
                       [(CalledCopy copy, Some (Io e)); (CalledWaitCopies, landed)]) (Some (Io e))
| log_landed landed :
    copies_log copies ((CalledWaitDevice, None) :: ((λ c, (CalledCopy c, None)) <$> copies) ++
                       [(CalledWaitCopies, landed)]) landed.

Section copies.
Context {Q St : Type} `{CopyQueue Q St}.
(** The queue never panics. *)
Context (wait_device_total : ∀ q : Q, is_Some (wait_device (St := St) q)).
Context (queue_copy_total : ∀ c (s : St * Q), is_Some (queue_copy c s)).
Context (wait_copies_total : ∀ q : Q, is_Some (wait_copies (St := St) q)).

Definition answer {E} (f : E → ServerError) (r : result unit E) : option ServerError :=
  match r with Ok _ => None | Err e => Some (f e) end.
Definition log_call {E} (f : E → ServerError) (call : QueueCall) (m : M Q (result unit E)) :
    M (Q * CallLog) (result unit E) := λ '(q, log),
  '(r, q) ← m q; Some (r, (q, log ++ [(call, answer f r)])).
(** The queue, with a log of the calls. *)
#[local] Instance logged_queue : CopyQueue (Q * CallLog) St := {|
  wait_device := log_call id CalledWaitDevice (wait_device (St := St));
  queue_copy c := λ '(st, (q, log)),
    '(r, (st, q)) ← queue_copy c (st, q); Some (r, (st, (q, log ++ [(CalledCopy c, answer Io r)])));
  wait_copies := log_call id CalledWaitCopies (wait_copies (St := St));
|}.

Definition moves_handles (moves : list Move) : list Z :=
  flat_map (λ r, [move_allocation r; move_target r]) moves.

Lemma wp_drop_moves moves (w : World St) :
  memory_wf (memory w) → NoDup (moves_handles moves) → (∀ id, id ∈ moves_handles moves → owned (memory w) id) →
  wp (drop_moves moves) w (λ _ w', w' = with_memory (memory w') w ∧
    dropped (moves_handles moves) (memory w) (memory w')).
Proof.
  revert w. induction moves as [|r moves IH]; intros w Hm Hnd Ho; cbn [drop_moves].
  { apply wp_ret. split; [by rewrite with_memory_same|apply dropped_nil]. }
  cbn in Hnd. apply NoDup_cons in Hnd as [Hn1 Hnd]. apply NoDup_cons in Hnd as [Hn2 Hnd].
  apply wp_bind, wp_on_memory, wp_handle_dropped; [done|apply Ho; cbn; left|]. intros m1 H1.
  pose proof (ev_wf _ _ _ _ (dr_evolve _ _ _ H1) Hm) as Hm1.
  assert (∀ id, id ∈ move_target r :: moves_handles moves → owned m1 id) as Ho1.
  { intros id Hid. eapply owned_evolve; [exact Hm|exact (dr_evolve _ _ _ H1)|apply not_elem_of_nil| |].
    - intros ->%list_elem_of_singleton. done.
    - apply Ho. cbn. by right. }
  apply wp_bind, wp_on_memory, wp_handle_dropped; [done|apply Ho1; by left|]. intros m2 H2. cbn in H2.
  eapply wp_mono; [apply (IH (with_memory m2 (with_memory m1 w)))|].
  - cbn. by apply (ev_wf _ _ _ _ (dr_evolve _ _ _ H2)).
  - done.
  - intros id Hid. cbn. eapply owned_evolve; [exact Hm1|exact (dr_evolve _ _ _ H2)|apply not_elem_of_nil| |].
    + intros ->%list_elem_of_singleton. done.
    + apply Ho1. by right.
  - intros _ w' (Hw & H3). split; [by rewrite Hw|].
    by apply (dropped_trans [_] _ _ m1), (dropped_trans [_] _ _ m2).
Qed.

Definition logged (l : list StorageCopy) : CallLog := (λ c, (CalledCopy c, None)) <$> l.

Lemma wp_enqueue moves (w : World St) (q : Q) (log : CallLog) :
  wp (enqueue_copies moves) (w, (q, log)) (λ r '(w', (q', log')),
    memory w' = memory w ∧ failures w' = failures w ∧
    match r with
    | Ok _ => log' = log ++ logged (omap move_copy moves)
    | Err e => ∃ k c, omap move_copy moves !! k = Some c ∧
        log' = log ++ logged (take k (omap move_copy moves)) ++ [(CalledCopy c, Some (Io e))]
    end).
Proof.
  revert w q log. induction moves as [|r moves IH]; intros w q log; cbn [enqueue_copies].
  { apply wp_ret. split_and!; [done|done|]. cbn. by rewrite app_nil_r. }
  destruct (move_copy r) as [c|] eqn:Hc; cbn [omap list_omap]; rewrite Hc; [|apply IH].
  apply wp_bind. destruct (queue_copy_total c (storage w, q)) as [[a [st q1]] Ha].
  unfold wp, on_storage_queue; cbn. rewrite Ha. cbn.
  destruct a as [[]|e].
  - eapply wp_mono; [apply IH|]. intros a [w' [q' log']] (Hm & Hf & Hl). split_and!; [done|done|].
    destruct a as [[]|e].
    + rewrite Hl. cbn. by rewrite <- app_assoc.
    + destruct Hl as (k & c' & Hk & ->). exists (S k), c'. split; [done|]. cbn. by rewrite <- !app_assoc.
  - split_and!; [done|done|]. exists 0%nat, c. split; [done|]. done.
Qed.

(** The order of a relocation.  The queue is asked to wait for the device
    before the first copy and for the copies after the last, even when one is
    refused, so that no target is freed while a copy may write it; the
    relocation lands exactly when every answer was a success, and otherwise
    fails with the first error and gives both handles of every move back. *)
Theorem relocation_copy_ordered r (w : World St) (q : Q) :
  memory_wf (memory w) → NoDup (moves_handles (planned_moves r)) →
  (∀ id, id ∈ moves_handles (planned_moves r) → owned (memory w) id) →
  wp (relocation_copy r) (w, (q, [])) (λ res '(w', (q', log)),
    failures w' = failures w ∧
    match res with
    | Ok landed => landed_moves landed = planned_moves r ∧ memory w' = memory w ∧
        copies_log (omap move_copy (planned_moves r)) log None
    | Err e => dropped (moves_handles (planned_moves r)) (memory w) (memory w') ∧
        copies_log (omap move_copy (planned_moves r)) log (Some e)
    end).
Proof.
  intros Hm Hnd Ho. set (copies := omap move_copy (planned_moves r)).
  assert (∀ (w1 : World St) e (s : Q * CallLog), memory w1 = memory w → failures w1 = failures w → copies_log copies (snd s) (Some e) →
    wp (_ ← on_world (drop_moves (planned_moves r)); mret (Err e)) (w1, s) (λ (res : result Landed ServerError) '(w', (q', log)),
      failures w' = failures w ∧ match res with
      | Ok landed => landed_moves landed = planned_moves r ∧ memory w' = memory w ∧ copies_log copies log None
      | Err e => dropped (moves_handles (planned_moves r)) (memory w) (memory w') ∧ copies_log copies log (Some e)
      end)) as Habandon.
  { intros w1 e [q1 log] Hm1 Hf1 Hlog. apply wp_bind. rewrite <- Hm1 in Hm, Ho.
    pose proof (wp_drop_moves (planned_moves r) w1 Hm Hnd Ho) as Hd. unfold wp, on_world in *.
    destruct (drop_moves (planned_moves r) w1) as [[[] w2]|]; [|done]. destruct Hd as [Hw2 Hd]. cbn.
    rewrite Hm1 in Hd. split; [|done]. by rewrite Hw2. }
  unfold relocation_copy. apply wp_bind. destruct (wait_device_total q) as [[ready q1] Hq].
  unfold wp at 1, on_queue; cbn. unfold log_call. rewrite Hq. cbn.
  destruct ready as [[]|e]; cbn [answer].
  2: { apply Habandon; [done|done|]. cbn. constructor. }
  apply wp_bind. eapply wp_mono; [apply wp_enqueue|]. intros enqueued [w2 [q2 log2]] (Hm2 & Hf2 & Hlog2).
  apply wp_bind. destruct (wait_copies_total q2) as [[landed q3] Hq3].
  unfold wp at 1, on_queue; cbn. unfold log_call. rewrite Hq3. cbn.
  destruct enqueued as [[]|e].
  - destruct landed as [[]|e]; cbn [answer].
    + split; [done|]. split; [done|]. split; [done|]. rewrite Hlog2, <- app_assoc. cbn. constructor.
    + apply Habandon; [done|done|]. cbn. rewrite Hlog2, <- app_assoc. cbn. constructor.
  - apply Habandon; [done|done|]. cbn. destruct Hlog2 as (k & c & Hk & ->). rewrite <- !app_assoc. cbn.
    by econstructor.
Qed.
End copies.

(** ** The order of the steps over the streams *)
Inductive StreamStep :=
| AskedRecording (answer : bool)
| Finished
| MovedMemory (reason : RelocationReason)
| MovedDevice (reason : RelocationReason)
| CleanedUp.

(** Asked whether a stream records; if none does and something is outdated,
    every stream's work is finished, then memory moves. *)
Inductive relocation_log (moved : StreamStep) : list StreamStep → Prop :=
| log_recording : relocation_log moved [AskedRecording true]
| log_nothing : relocation_log moved [AskedRecording false]
| log_moved : relocation_log moved [AskedRecording false; Finished; moved].

Section stream_order.
Context {R : Type} `{RelocatingStreams R}.
(** The streams never panic, and the bytes they hold and a page fit [u64]. *)
Record streams_total : Prop := mk_streams_total {
  st_recording (r : R) : is_Some (recording r);
  st_outdated (r : R) : is_Some (has_outdated r);
  st_need (r : R) : is_Some (relocation_need r);
  st_finish (r : R) : is_Some (finish r);
  st_relocate reason (r : R) : is_Some (relocate_memory reason r);
  st_device_outdated (r : R) : is_Some (device_has_outdated r);
  st_relocate_device reason (r : R) : is_Some (relocate_device_memory reason r);
  st_cleanup (r : R) : is_Some (cleanup_memory r);
  st_bytes (r r1 r2 : R) capacity page_size b :
    relocation_need r = Some (UnderPressure capacity page_size, r1) → recording r1 = Some (b, r2) →
    ∃ a r3, streams_bytes_allocated r2 = Some (a, r3) ∧ a + page_size <= u64_max;
}.

Definition tell {A} (step : A → list StreamStep) (m : M R A) : M (R * list StreamStep) A := λ '(r, log),
  '(a, r) ← m r; Some (a, (r, log ++ step a)).
(** The streams, with a log of the steps that matter. *)
#[local] Instance logged_streams : RelocatingStreams (R * list StreamStep) := {|
  recording := tell (λ b, [AskedRecording b]) recording;
  has_outdated := tell (λ _, []) has_outdated;
  relocation_need := tell (λ _, []) relocation_need;
  streams_bytes_allocated := tell (λ _, []) streams_bytes_allocated;
  finish := tell (λ _, [Finished]) finish;
  relocate_memory reason := tell (λ _, [MovedMemory reason]) (relocate_memory reason);
  device_has_outdated := tell (λ _, []) device_has_outdated;
  relocate_device_memory reason := tell (λ _, [MovedDevice reason]) (relocate_device_memory reason);
  cleanup_memory := tell (λ _, [CleanedUp]) cleanup_memory;
|}.
Context (total : streams_total).
Implicit Types (r : R) (log : list StreamStep).

Lemma wp_tell {A} step (m : M R A) r log (P : A → R * list StreamStep → Prop) :
  is_Some (m r) → (∀ a r', m r = Some (a, r') → P a (r', log ++ step a)) → wp (tell step m) (r, log) P.
Proof. intros [[a r'] Hm] HP. unfold wp, tell. rewrite Hm. cbn. by apply HP. Qed.
#[local] Ltac told h := apply wp_bind, wp_tell; [apply h; exact total|].

Lemma wp_relocate_log reason r log :
  wp (relocate_streams reason) (r, log) (λ _ '(_, log'),
    ∃ l, relocation_log (MovedMemory reason) l ∧ log' = log ++ l).
Proof.
  unfold relocate_streams. told st_recording. intros [] r1 _.
  { apply wp_ret. eexists. split; [constructor|done]. }
  told st_outdated. intros [] r2 _; cbn [negb].
  2: { apply wp_ret. eexists. split; [apply log_nothing|by rewrite app_nil_r]. }
  told st_finish. intros [] r3 _. apply wp_tell; [by apply st_relocate|]. intros [] r4 _.
  eexists. split; [apply log_moved|]. by rewrite app_nil_r, <- !app_assoc.
Qed.

(** The order of the steps of a relocation over the streams of a server.
    Nothing is finished, moved or cleaned up when a stream records a graph, and
    [reclaim] refuses; memory moves only right after every stream's work was
    finished, and [reclaim] cleans up after what could move moved. *)
Theorem relocation_steps_ordered reason r :
  wp (relocate_streams reason) (r, []) (λ _ '(_, log), relocation_log (MovedMemory reason) log) ∧
  wp (relocate_device reason) (r, []) (λ _ '(_, log), relocation_log (MovedDevice reason) log) ∧
  wp relocate_when_wanted (r, []) (λ _ '(_, log), log = [] ∨ ∃ reason, relocation_log (MovedMemory reason) log) ∧
  wp reclaim (r, []) (λ res '(_, log),
    match res with
    | Err e => e = recording_refusal ∧ log = [AskedRecording true]
    | Ok _ => ∃ l, relocation_log (MovedMemory ReasonExplicit) l ∧ log = AskedRecording false :: l ++ [CleanedUp]
    end).
Proof.
  split_and!.
  - eapply wp_mono; [apply wp_relocate_log|]. intros _ [r' log] (l & Hl & ->). exact Hl.
  - unfold relocate_device. told st_recording. intros [] r1 _; [apply wp_ret; constructor|].
    told st_device_outdated. intros [] r2 _; cbn [negb]; [|apply wp_ret; constructor].
    told st_finish. intros [] r3 _. apply wp_tell; [by apply st_relocate_device|]. intros [] r4 _. constructor.
  - unfold relocate_when_wanted. told st_need. intros need r1 Hneed. case_decide as Hn; [apply wp_ret; by left|].
    apply wp_bind, wp_tell; [by apply st_recording|]. intros [] r2 Hrec; [apply wp_ret; right; by exists reason; constructor|].
    assert (∀ reason' r3, wp (_ ← finish; relocate_memory reason') (r3, [AskedRecording false]) (λ _ '(_, log),
      log = [] ∨ ∃ reason, relocation_log (MovedMemory reason) log)) as Hmove.
    { intros reason' r3. told st_finish. intros [] r4 _. apply wp_tell; [by apply st_relocate|]. intros [] r5 _.
      right. exists reason'. constructor. }
    destruct need as [| |c p]; [done| |].
    + apply wp_bind, wp_ret, wp_bind. eapply wp_lift; [done|]. apply Hmove.
    + destruct (st_bytes total r r1 r2 c p false Hneed Hrec) as (a & r3 & Ha & Hfit).
      apply wp_bind, wp_fmap, wp_tell; [by eexists|]. rewrite Ha. intros a' r3' [= <- <-].
      apply wp_bind. eapply wp_lift.
      { cbn. unfold memory_pressure. rewrite add_u64_Some by done. done. }
      cbn. destruct (sat_sub c p <? a + p); [apply Hmove|apply wp_ret; right; by exists reason; constructor].
  - unfold reclaim, refuse_while_recording. apply wp_bind. told st_recording. intros [] r1 _; apply wp_ret; [by apply wp_ret|].
    apply wp_bind. eapply wp_mono; [apply wp_relocate_log|]. intros _ [r2 log] (l & Hl & ->).
    told st_cleanup. intros [] r3 _. apply wp_ret. exists l. split; [done|]. done.
Qed.
End stream_order.

Section witnesses.
#[local] Existing Instance logged_queue.
#[local] Existing Instance logged_streams.
(** Two outdated pages of one live slice each, the first of which is bound, and
    one of eight bytes of which four are free. *)
Definition relocation_pages : list MemoryPage :=
  let st n := mk_StorageHandle 7 (mk_StorageUtilization 0 n) in
  let s h n := mk_Slice (st n) h 0 0 true taint_default in
  [mk_MemoryPage (st 8) [s 0 8] 4 (location_new 2 0 0) true 1;
   mk_MemoryPage (st 8) [s 1 8] 4 (location_new 2 1 0) true 1;
   mk_MemoryPage (st 8) [s 2 4; s 3 4] 4 (location_new 2 2 0) true 1].
Definition relocation_memory : Memory :=
  let d h b := mk_Descriptor 0 h b in mk_Memory 4 {[ 0 := d 2 1; 1 := d 2 0; 2 := d 1 0; 3 := d 2 0 ]}.
Definition relocation_world : World unit := mk_World relocation_memory graph_default 8 tt.
Lemma relocation_memory_wf : memory_wf relocation_memory.
Proof.
  split; [cbn; lia|]. apply (bool_decide_unpack (map_Forall (λ id d,
    0 <= id < 4 ∧ 0 <= handles d ∧ 0 <= bindings d) (descriptors relocation_memory))).
  vm_compute. exact I.
Qed.

Lemma outdated_plan_witness :
  wp (l ← outdated_pages_new relocation_pages; lift (plan_pages l)) relocation_world (λ plan w',
    plan ≡ₚ [mk_MovablePage [mk_LiveAllocation 1 8]; mk_MovablePage [mk_LiveAllocation 3 4]] ∧
    cheapest_first plan).
Proof.
  eapply wp_mono; [apply (outdated_plan relocation_pages relocation_world relocation_memory_wf)|].
  - intros page [i Hi]%list_elem_of_lookup s [j Hj]%list_elem_of_lookup.
    destruct i as [|[|[|i]]]; [..|done]; injection Hi as <-;
      destruct j as [|[|j]]; try done; injection Hj as <-; by eexists.
  - apply Forall_cons. split; [|apply Forall_cons; split; [|constructor]];
      (split; [cbn; repeat constructor; done|vm_compute; discriminate]).
  - intros plan w' (Hp & Hs & _). split; [exact Hp|exact Hs].
Defined.

(** A queue that takes every copy. *)
#[local] Instance unit_queue : CopyQueue unit unit := {|
  wait_device := mret (Ok tt); queue_copy _ := mret (Ok tt); wait_copies := mret (Ok tt);
|}.
Lemma relocation_copy_ordered_witness :
  let st n := mk_StorageHandle n (mk_StorageUtilization 0 8) in
  let r := mk_Relocation [mk_Move 1 3 (Some (mk_StorageCopy (st 7) (st 8)))] in
  wp (relocation_copy r) (relocation_world, (tt, [])) (λ res '(_, (_, log)),
    match res with Ok _ => copies_log [mk_StorageCopy (st 7) (st 8)] log None | Err e => True end).
Proof.
  intros st r. eapply wp_mono; [apply (relocation_copy_ordered (ltac:(by eexists)) (ltac:(by eexists))
    (ltac:(by eexists)) r relocation_world tt relocation_memory_wf)|].
  - apply (bool_decide_unpack _). vm_compute. exact I.
  - intros id [i Hi]%list_elem_of_lookup. destruct i as [|[|i]]; [..|done]; injection Hi as <-;
      (eexists; split; [reflexivity|cbn; lia]).
  - intros [landed|e] [w' [q log]] [_ Hr]; [|exact I]. apply (proj2 (proj2 Hr)).
Defined.

(** Streams that want a relocation under pressure, one page from full. *)
#[local] Instance pressed_streams : RelocatingStreams unit := {|
  recording := mret false; has_outdated := mret true; relocation_need := mret (UnderPressure 8 4);
  streams_bytes_allocated := mret 5; finish := mret tt; relocate_memory _ := mret tt;
  device_has_outdated := mret true; relocate_device_memory _ := mret tt; cleanup_memory := mret tt;
|}.
Lemma pressed_total : streams_total (R := unit).
Proof. split; try by eexists. intros r r1 r2 c p b [= <- <- <-] _. exists 5, r2. split; [done|]. lia. Qed.
Lemma relocation_steps_ordered_witness :
  wp (relocate_device ReasonCapture) (tt, []) (λ _ '(_, log), relocation_log (MovedDevice ReasonCapture) log).
Proof. exact (proj1 (proj2 (relocation_steps_ordered pressed_total ReasonCapture tt))). Defined.
(** The device holds five of eight bytes, and the next page takes four. *)
Example relocation_under_pressure :
  relocate_when_wanted (tt, []) =
  Some (tt, (tt, [AskedRecording false; Finished; MovedMemory ReasonMemoryPressure])).
Proof. reflexivity. Qed.
End witnesses.
