(* ===== verification/Arena.v ===== *)
(** * The arena of page sizes

    [cubecl-server/src/memory_management/dynamic/arena.rs]: sliced pools, one
    per page size the allocations of a workload grew through; the current one
    carves every new allocation, the outdated ones drain. *)

From S2P Require Export Relocation.
From stdpp Require Import list strings.
#[local] Open Scope Z_scope.

Definition ARENA_SLOTS : nat := 64.
Definition PAGE_SLACK : Z := 1024 * 1024.
Definition PAGE_GRANULE : Z := 1024 * 1024.

(** [MemoryDeviceProperties] of [cubecl-ir/src/properties.rs]; a capacity of
    zero is no capacity. *)
Record MemoryDeviceProperties := mk_MemoryDeviceProperties {
  device_max_page_size : Z;
  device_alignment : Z;
  device_max_memory : option Z;
}.
Definition properties_new (max_page_size alignment : Z) : MemoryDeviceProperties :=
  mk_MemoryDeviceProperties max_page_size alignment None.
Definition set_max_memory (max_memory : Z) (p : MemoryDeviceProperties) : MemoryDeviceProperties :=
  mk_MemoryDeviceProperties (device_max_page_size p) (device_alignment p)
    (if decide (max_memory = 0) then None else Some max_memory).

(** ** The size of the pages *)
Record PageSizing := mk_PageSizing {
  min_page_size : Z;
  max_page_size : Z;
  sizing_alignment : Z;
}.
Inductive Fit := Fits | Grow (page_size : Z) | TooLarge.

Definition sizing_new (min_page_size : Z) (properties : MemoryDeviceProperties) : option PageSizing :=
  let alignment := device_alignment properties in
  if decide (alignment = 0) then None
  else
    let max_page_size := Z.max (device_max_page_size properties / alignment * alignment) alignment in
    floor ← next_multiple_of (Z.max min_page_size alignment) alignment;
    Some (mk_PageSizing (Z.min floor max_page_size) max_page_size alignment).

Definition sizing_fit (sizing : PageSizing) (size page_size : Z) : option Fit :=
  padding ← calculate_padding size (sizing_alignment sizing);
  needed ← add_u64 size padding;
  if needed <=? page_size then Some Fits
  else if max_page_size sizing <? needed then Some TooLarge
  else
    granules ← next_multiple_of (sat_add u64_max size PAGE_SLACK) PAGE_GRANULE;
    aligned ← next_multiple_of granules (sizing_alignment sizing);
    Grow <$> clamp aligned (min_page_size sizing) (max_page_size sizing).
Definition sizing_pool (sizing : PageSizing) (page_size index : Z) : SlicedPool :=
  sliced_new (mk_SlicedLayout page_size page_size (sizing_alignment sizing) index).

(** ** The arena *)
Record PoolArena := mk_PoolArena {
  arena_slots : list (option SlicedPool);
  first_index : Z;
  current : nat;
  outdated : list nat;
  sizing : PageSizing;
}.
Definition with_arena_slots (l : list (option SlicedPool)) (a : PoolArena) : PoolArena :=
  mk_PoolArena l (first_index a) (current a) (outdated a) (sizing a).
Definition with_arena_outdated (l : list nat) (a : PoolArena) : PoolArena :=
  mk_PoolArena (arena_slots a) (first_index a) (current a) l (sizing a).

Definition arena_new (sizing : PageSizing) (first_index : Z) : PoolArena :=
  mk_PoolArena (Some (sizing_pool sizing (min_page_size sizing) first_index) :: replicate (ARENA_SLOTS - 1) None)
    first_index 0 [] sizing.

(** The slot a pool index names: [checked_sub]. *)
Definition arena_slot (a : PoolArena) (index : Z) : option nat :=
  if first_index a <=? index then Some (Z.to_nat (index - first_index a)) else None.
Definition arena_pool (a : PoolArena) (index : Z) : option SlicedPool :=
  slot ← arena_slot a index; pool ← arena_slots a !! slot; pool.
(** What is done through [pool_mut]. *)
Definition arena_set_pool (a : PoolArena) (index : Z) (p : SlicedPool) : PoolArena :=
  match arena_slot a index with
  | Some slot => with_arena_slots (<[slot := Some p]> (arena_slots a)) a
  | None => a
  end.
Definition arena_has_outdated (a : PoolArena) : bool := bool_decide (outdated a ≠ []).

(** The index and the [expect] panic. *)
Definition arena_current (a : PoolArena) : option SlicedPool := pool ← arena_slots a !! current a; pool.
Definition with_current (p : SlicedPool) (a : PoolArena) : PoolArena :=
  with_arena_slots (<[current a := Some p]> (arena_slots a)) a.
(** [filter_map(|slot| self.slots[*slot].as_ref())] *)
Definition outdated_of (a : PoolArena) : option (list SlicedPool) :=
  omap id <$> mapM (λ slot, arena_slots a !! slot) (outdated a).

Definition arena_state (a : PoolArena) : option ArenaState :=
  cur ← arena_current a;
  old ← outdated_of a;
  held ← sum_u64 (pages_held <$> old);
  Some (mk_ArenaState (sliced_page_size cur) (arena_has_outdated a)
    (bool_decide (length (outdated a) + 1 = ARENA_SLOTS)%nat)
    (mk_ArenaShape (pages_held cur) (length (outdated a)) held
       (length (filter (λ pg : MemoryPage * StorageId, is_guarded pg.1 = true) (mjoin (pages <$> old)))))).

(** [pair_mut]: two distinct slots that both hold a pool. *)
Definition arena_pair (a : PoolArena) (source target : Z) : option (SlicedPool * SlicedPool) :=
  i ← arena_slot a source;
  j ← arena_slot a target;
  if decide (i = j) then None
  else p ← arena_pool a source; q ← arena_pool a target; Some (p, q).

(** A slice written where [slice_at] read it. *)
Definition sliced_set_slice (p : SlicedPool) (location : MemoryLocation) (s : Slice) : SlicedPool :=
  let index := Z.to_nat (Handle.page location) in
  match pages p !! index with
  | Some (page, id) =>
      with_pages (<[index := (with_slices (<[Z.to_nat (Handle.slice location) := s]> (slices page)) page, id)]>
        (pages p)) p
  | None => p
  end.

Section arena.
Context {St : Type} `{ComputeStorage St}.

(** A refused first page leaves the new pool empty: dropping it drops
    nothing.  The pool index is computed in a [u8]. *)
Definition arena_grow (a : PoolArena) (size page_size : Z) (mapping : PageMapping) :
    M (World St) (result ManagedMemoryId IoError * PoolArena) :=
  match position (λ slot : option SlicedPool, match slot with None => true | Some _ => false end) (arena_slots a) with
  | None => mret (Err (PageSizesExhausted size), a)
  | Some slot =>
      let index := first_index a + as_u8 (Z.of_nat slot) in
      index ← lift (if index <=? u8_max then Some index else None);
      '(r, pool) ← sliced_alloc (sizing_pool (sizing a) page_size index) size mapping;
      match r with
      | Err e => mret (Err e, a)
      | Ok handle =>
          mret (Ok handle, mk_PoolArena (<[slot := Some pool]> (arena_slots a)) (first_index a) slot
                             (outdated a ++ [current a]) (sizing a))
      end
  end.
Definition arena_reserve (a : PoolArena) (size : Z) (mapping : PageMapping) :
    M (World St) (result ManagedMemoryId IoError * PoolArena) :=
  cur ← lift (arena_current a);
  fit ← lift (sizing_fit (sizing a) size (sliced_page_size cur));
  match fit with
  | Fits => '(r, cur) ← sliced_reserve cur size mapping; mret (r, with_current cur a)
  | Grow page_size => arena_grow a size page_size mapping
  | TooLarge => mret (Err (BufferTooBig size), a)
  end.
Definition arena_try_reserve (a : PoolArena) (size : Z) :
    M (World St) (option ManagedMemoryId * PoolArena) :=
  cur ← lift (arena_current a);
  fit ← lift (sizing_fit (sizing a) size (sliced_page_size cur));
  match fit with
  | Fits => '(r, cur) ← reserve_free cur size; mret (r, with_current cur a)
  | Grow _ | TooLarge => mret (None, a)
  end.

(** [retain]: the slots that keep a pool, and the slots. *)
Fixpoint drain_loop (outdated : list nat) (l : list (option SlicedPool)) :
    M (World St) (list nat * list (option SlicedPool)) :=
  match outdated with
  | [] => mret ([], l)
  | slot :: outdated =>
      pool ← lift (l !! slot);
      match pool with
      | None => drain_loop outdated l
      | Some pool =>
          pool ← release_empty pool;
          if sliced_is_empty pool then drain_loop outdated (<[slot := None]> l)
          else
            '(kept, l) ← drain_loop outdated (<[slot := Some pool]> l);
            mret (slot :: kept, l)
      end
  end.
Definition arena_drain (a : PoolArena) : M (World St) PoolArena :=
  '(kept, l) ← drain_loop (outdated a) (arena_slots a);
  mret (with_arena_outdated kept (with_arena_slots l a)).
Definition arena_cleanup (a : PoolArena) (cleanup : Cleanup) : M (World St) PoolArena :=
  cur ← lift (arena_current a);
  cur ← sliced_cleanup cur cleanup;
  arena_drain (with_current cur a).

Fixpoint sliced_reports (l : list SlicedPool) : M (World St) (list MemoryPoolReport) :=
  match l with
  | [] => mret []
  | p :: l => r ← sliced_report p; (r ::.) <$> sliced_reports l
  end.
Definition arena_report (a : PoolArena) : M (World St) (list MemoryPoolReport) :=
  cur ← lift (arena_current a);
  old ← lift (outdated_of a);
  held ← lift (sum_u64 (pages_held <$> old));
  r ← sliced_report cur;
  rest ← sliced_reports old;
  mret (mk_MemoryPoolReport (KindAdaptive (sliced_page_size cur) held) (pool_usage r) (report_pages r)
          (report_pages_peak r) (pages_unmapped r) (report_largest_alloc r) :: rest).

(** ** Relocation *)

(** Every way out without a move drops the handle of the allocation. *)
Definition plan_move (a : PoolArena) (allocation : LiveAllocation) (room : TargetRoom) :
    M (World St) (option Move * PoolArena) :=
  let abandon a := _ ← on_memory (handle_drop (live_handle allocation)); mret (None, a) in
  source ← on_memory (location (live_handle allocation));
  match arena_pool a (Handle.pool source) with
  | None => abandon a
  | Some pool =>
      source_storage ← lift (storage_at pool source);
      cur ← lift (arena_current a);
      '(r, cur) ← reserve_free cur (live_size allocation);
      '(target, cur) ← (match r, room with
        | Some target, _ => mret (Some target, cur)
        | None, Held => mret (None, cur)
        | None, MayAllocate =>
            '(r, cur) ← sliced_alloc cur (live_size allocation) Eager;
            mret (match r with Ok target => Some target | Err _ => None end, cur)
        end);
      match target with
      | None => abandon (with_current cur a)
      | Some target =>
          match source_storage with
          | None => mret (Some (mk_Move (live_handle allocation) target None), with_current cur a)
          | Some source =>
              target_location ← on_memory (location target);
              '(r, cur) ← mapped_storage_at cur target_location;
              match r with
              | Ok storage =>
                  mret (Some (mk_Move (live_handle allocation) target (Some (mk_StorageCopy source storage))),
                        with_current cur a)
              | Err _ => _ ← on_memory (handle_drop target); abandon (with_current cur a)
              end
          end
      end
  end.
Fixpoint drop_allocations (l : list LiveAllocation) : M (World St) unit :=
  match l with
  | [] => mret tt
  | allocation :: l => _ ← on_memory (handle_drop (live_handle allocation)); drop_allocations l
  end.
(** The moves of a page, all or none of them. *)
Fixpoint plan_page (a : PoolArena) (live : list LiveAllocation) (room : TargetRoom) (moves : list Move) :
    M (World St) (list Move * PoolArena) :=
  match live with
  | [] => mret (moves, a)
  | allocation :: live =>
      '(r, a) ← plan_move a allocation room;
      match r with
      | Some relocated => plan_page a live room (moves ++ [relocated])
      | None => _ ← drop_moves moves; _ ← drop_allocations live; mret ([], a)
      end
  end.
Fixpoint plan_loop (a : PoolArena) (plan : list MovablePage) (room : TargetRoom) (moves : list Move) :
    M (World St) (list Move * PoolArena) :=
  match plan with
  | [] => mret (moves, a)
  | page :: plan =>
      '(l, a) ← plan_page a (page_live page) room [];
      plan_loop a plan room (moves ++ l)
  end.
Definition arena_plan (a : PoolArena) (room : TargetRoom) : M (World St) (PlannedRelocation * PoolArena) :=
  old ← lift (outdated_of a);
  l ← outdated_pages_new (fst <$> mjoin (pages <$> old));
  plan ← lift (plan_pages l);
  '(moves, a) ← plan_loop a plan room [];
  mret (mk_Relocation moves, a).

Definition commit_move (a : PoolArena) (relocated : Move) : M (World St) PoolArena :=
  source ← on_memory (location (move_allocation relocated));
  destination ← on_memory (location (move_target relocated));
  _ ← on_memory (handle_drop (move_target relocated));
  _ ← on_memory (handle_drop (move_allocation relocated));
  match arena_pair a (Handle.pool source) (Handle.pool destination) with
  | None => mret a
  | Some (source_pool, target_pool) =>
      s ← lift (sliced_slice_at source_pool source);
      t ← lift (sliced_slice_at target_pool destination);
      '(s, t) ← hand_over s t;
      mret (arena_set_pool
              (arena_set_pool a (Handle.pool source) (sliced_set_slice source_pool source s))
              (Handle.pool destination) (sliced_set_slice target_pool destination t))
  end.
Fixpoint commit_loop (a : PoolArena) (moves : list Move) : M (World St) PoolArena :=
  match moves with
  | [] => mret a
  | relocated :: moves => a ← commit_move a relocated; commit_loop a moves
  end.
Definition arena_commit (a : PoolArena) (landed : Landed) : M (World St) PoolArena :=
  a ← commit_loop a (landed_moves landed); arena_drain a.
End arena.

(** ** The size of the pages *)
Record sizing_ok (s : PageSizing) : Prop := mk_sizing_ok {
  so_alignment : 0 < sizing_alignment s;
  so_min : (sizing_alignment s | min_page_size s);
  so_max : (sizing_alignment s | max_page_size s);
  so_order : sizing_alignment s <= min_page_size s <= max_page_size s;
}.

Lemma sizing_new_ok floor properties :
  0 < device_alignment properties →
  Z.max floor (device_alignment properties) + device_alignment properties <= u64_max →
  ∃ s, sizing_new floor properties = Some s ∧ sizing_ok s ∧
    sizing_alignment s = device_alignment properties ∧
    (device_alignment properties <= device_max_page_size properties →
     max_page_size s <= device_max_page_size properties < max_page_size s + sizing_alignment s).
Proof.
  intros Ha Hf. unfold sizing_new. set (align := device_alignment properties) in *. rewrite decide_False by lia.
  destruct (next_multiple_of_spec (Z.max floor align) align) as (n & Hn & Hb & Hd); [lia|lia|lia|].
  rewrite Hn. cbn. eexists. split; [done|].
  set (m := Z.max _ align). assert ((align | m)) as Hm.
  { unfold m. destruct (Z.max_spec (device_max_page_size properties / align * align) align) as [[_ ->]|[_ ->]].
    - apply Z.divide_refl.
    - apply Z.divide_factor_r. }
  split; [split; cbn|]; try done; try lia.
  - destruct (Z.min_spec n m) as [[_ ->]|[_ ->]]; done.
  - split; [done|]. cbn. intros Hle. unfold m.
    pose proof (Z.div_mod (device_max_page_size properties) align) as Hdm.
    pose proof (Z.mod_pos_bound (device_max_page_size properties) align Ha).
    assert (1 <= device_max_page_size properties / align) by (apply Z.div_le_lower_bound; lia). nia.
Qed.

(** How an allocation fits.  [Fits] means that a page of the current size
    holds it once padded, [TooLarge] that no page of the device does, and
    otherwise it grows to a page that holds it, larger than the current one,
    aligned, between the smallest and the largest page, and with a megabyte to
    spare unless the device's largest page is what limits it. *)
Theorem fit_correct s size page_size :
  sizing_ok s → 0 <= size → size + PAGE_SLACK + PAGE_GRANULE + sizing_alignment s <= u64_max →
  ∃ padding f, calculate_padding size (sizing_alignment s) = Some padding ∧
    sizing_fit s size page_size = Some f ∧
    match f with
    | Fits => size + padding <= page_size
    | TooLarge => page_size < size + padding ∧ max_page_size s < size + padding
    | Grow n => page_size < size + padding <= n ∧ (sizing_alignment s | n) ∧
        min_page_size s <= n <= max_page_size s ∧ (size + PAGE_SLACK <= n ∨ n = max_page_size s)
    end.
Proof.
  intros [Ha Hmin Hmax Hord] Hsize Hfit. destruct (calculate_padding_spec size _ Ha) as (padding & Hp & Hpb & Hd).
  unfold PAGE_SLACK, PAGE_GRANULE in *.
  exists padding. unfold sizing_fit. rewrite Hp. cbn. rewrite add_u64_Some by lia. cbn.
  destruct (Z.leb_spec (size + padding) page_size); [by exists Fits|].
  destruct (Z.ltb_spec (max_page_size s) (size + padding)); [by exists TooLarge|].
  unfold PAGE_SLACK, PAGE_GRANULE, sat_add. rewrite Z.min_r by lia.
  destruct (next_multiple_of_spec (size + 1024 * 1024) (1024 * 1024)) as (g & Hg & Hgb & _); [lia|lia|lia|].
  rewrite Hg. cbn. destruct (next_multiple_of_spec g (sizing_alignment s)) as (n & Hn & Hnb & Hnd); [lia|lia|lia|].
  rewrite Hn. cbn. rewrite clamp_Some by lia. cbn. eexists (Grow _). split; [done|].
  split; [done|]. pose proof (multiple_above _ size padding n Hd Hnd Hpb ltac:(lia)).
  split; [lia|]. split; [|split; lia].
  destruct (Z.min_spec (max_page_size s) n) as [[_ ->]|[_ ->]];
    [destruct (Z.max_spec (min_page_size s) (max_page_size s)) as [[_ ->]|[_ ->]]
    |destruct (Z.max_spec (min_page_size s) n) as [[_ ->]|[_ ->]]]; done.
Qed.
Lemma fit_correct_witness :
  let s := mk_PageSizing 2097152 16777216 32 in
  ∃ padding f, calculate_padding 10485761 32 = Some padding ∧ sizing_fit s 10485761 2097152 = Some f ∧
    match f with Grow n => 10485761 + padding <= n ∧ (32 | n) | _ => False end.
Proof.
  intros s. destruct (fit_correct s 10485761 2097152) as (padding & f & Hp & Hf & Hr).
  - split; cbn; [lia|by exists 65536|by exists 524288|lia].
  - lia.
  - vm_compute. discriminate.
  - exists padding, f. split; [exact Hp|]. split; [exact Hf|].
    assert (f = Grow 12582912) as -> by (cut (Some f = Some (Grow 12582912)); [congruence|rewrite <- Hf; reflexivity]).
    destruct Hr as (Hr & Hd & _). split; [apply Hr|exact Hd].
Defined.
