(* ===== verification/Dynamic.v ===== *)
(** * Dynamic memory

    [cubecl-server/src/memory_management/dynamic/adaptive.rs] and [base.rs]:
    the pools a stream allocates from as it runs, and which of them serves
    what. *)

From Stdlib Require Import SpecFloat.
From S2P Require Export Arena ExclusivePool.
From stdpp Require Import list strings.
#[local] Open Scope Z_scope.

Definition TINY_POOL : Z := 0.
Definition SMALL_POOL : Z := 1.
Definition ARENA_POOLS : Z := 2.
Definition SMALL_PAGE : Z := 8 * 1024 * 1024.
Definition SMALL_SLICE : Z := 64 * 1024.
Definition MIN_PAGE : Z := 2 * 1024 * 1024.
(** The fixed positions of [policy.rs]. *)
Definition PERSISTENT_POOL_POS : Z := u8_max.
Definition DEDICATED_POOL_POS : Z := u8_max - 1.

(** The assertion of [adaptive.rs]: the pools of the arena stay clear of the
    fixed positions. *)
Lemma arena_clear_of_fixed : ARENA_POOLS + Z.of_nat ARENA_SLOTS <= DEDICATED_POOL_POS.
Proof. vm_compute. discriminate. Qed.

(** ** Adaptive memory *)
Record AdaptiveMemory := mk_AdaptiveMemory {
  tiny : ExclusiveMemoryPool;
  small : SlicedPool;
  arena : PoolArena;
  trigger : RelocationTrigger;
}.
Definition with_tiny (p : ExclusiveMemoryPool) (m : AdaptiveMemory) : AdaptiveMemory :=
  mk_AdaptiveMemory p (small m) (arena m) (trigger m).
Definition with_small (p : SlicedPool) (m : AdaptiveMemory) : AdaptiveMemory :=
  mk_AdaptiveMemory (tiny m) p (arena m) (trigger m).
Definition with_arena (a : PoolArena) (m : AdaptiveMemory) : AdaptiveMemory :=
  mk_AdaptiveMemory (tiny m) (small m) a (trigger m).
Definition with_trigger (t : RelocationTrigger) (m : AdaptiveMemory) : AdaptiveMemory :=
  mk_AdaptiveMemory (tiny m) (small m) (arena m) t.

Definition adaptive_new (properties : MemoryDeviceProperties) : option AdaptiveMemory :=
  let alignment := device_alignment properties in
  sizing ← sizing_new (Z.min MIN_PAGE (device_max_page_size properties)) properties;
  tiny ← exclusive_new (mk_ExclusiveLayout 0 alignment u64_max TINY_POOL);
  small_page ← next_multiple_of SMALL_PAGE alignment;
  small_slice ← next_multiple_of SMALL_SLICE alignment;
  Some (mk_AdaptiveMemory tiny
          (up_to_max_slice (sliced_new (mk_SlicedLayout small_page small_slice alignment SMALL_POOL)))
          (arena_new sizing ARENA_POOLS) (trigger_new (device_max_memory properties))).

(** A pool behind [&dyn MemoryPool]. *)
Inductive MemoryPool :=
| Exclusively (p : ExclusiveMemoryPool)
| Sliced (p : SlicedPool)
| Persistently (p : PersistentPool)
| Directly (p : DirectPool).

Definition adaptive_pool (m : AdaptiveMemory) (index : Z) : option MemoryPool :=
  if decide (index = TINY_POOL) then Some (Exclusively (tiny m))
  else if decide (index = SMALL_POOL) then Some (Sliced (small m))
  else Sliced <$> arena_pool (arena m) index.
(** What is done through [pool_mut]; a pool does not change its kind. *)
Definition adaptive_set_pool (m : AdaptiveMemory) (index : Z) (p : MemoryPool) : AdaptiveMemory :=
  match p with
  | Exclusively p => if decide (index = TINY_POOL) then with_tiny p m else m
  | Sliced p =>
      if decide (index = TINY_POOL) then m
      else if decide (index = SMALL_POOL) then with_small p m
      else with_arena (arena_set_pool (arena m) index p) m
  | Persistently _ | Directly _ => m
  end.

Section adaptive.
Context {St : Type} `{ComputeStorage St}.

(** [MemoryPool::reserve], the provided method. *)
Definition exclusive_reserve (p : ExclusiveMemoryPool) (size : Z) :
    M (World St) (result ManagedMemoryId IoError * ExclusiveMemoryPool) :=
  '(r, p) ← exclusive_try_reserve p size;
  match r with
  | Some handle => mret (Ok handle, p)
  | None => exclusive_alloc p size
  end.

(** The provided [materialize] of an exclusive pool does nothing. *)
Definition adaptive_materialize (m : AdaptiveMemory) (binding : ManagedMemoryId) :
    M (World St) (result unit IoError * AdaptiveMemory) :=
  location ← on_memory (location binding);
  let index := Handle.pool location in
  if decide (index = TINY_POOL) then mret (Ok tt, m)
  else if decide (index = SMALL_POOL) then
    '(r, p) ← sliced_materialize (small m) binding; mret (r, with_small p m)
  else match arena_pool (arena m) index with
       | Some p =>
           '(r, p) ← sliced_materialize p binding;
           mret (r, with_arena (arena_set_pool (arena m) index p) m)
       | None => mret (Ok tt, m)
       end.

Definition adaptive_reserve (m : AdaptiveMemory) (size : Z) (mapping : PageMapping) :
    M (World St) (result ManagedMemoryId IoError * AdaptiveMemory) :=
  if exclusive_accept (tiny m) size then
    '(r, p) ← exclusive_reserve (tiny m) size; mret (r, with_tiny p m)
  else
    accepted ← lift (sliced_accept (small m) size);
    if accepted : bool then
      '(r, p) ← sliced_reserve (small m) size mapping; mret (r, with_small p m)
    else
      '(r, a) ← arena_reserve (arena m) size mapping; mret (r, with_arena a m).
Definition adaptive_try_reserve (m : AdaptiveMemory) (size : Z) :
    M (World St) (option ManagedMemoryId * AdaptiveMemory) :=
  if exclusive_accept (tiny m) size then
    '(r, p) ← exclusive_try_reserve (tiny m) size; mret (r, with_tiny p m)
  else
    accepted ← lift (sliced_accept (small m) size);
    if accepted : bool then
      '(r, p) ← reserve_free (small m) size; mret (r, with_small p m)
    else
      '(r, a) ← arena_try_reserve (arena m) size; mret (r, with_arena a m).

Definition adaptive_has_outdated (m : AdaptiveMemory) : bool := arena_has_outdated (arena m).
Definition adaptive_relocation_need (m : AdaptiveMemory) : option RelocationNeed :=
  if negb (adaptive_has_outdated m) then Some NeedNothing
  else trigger_need (trigger m) <$> arena_state (arena m).

Definition adaptive_relocate {Q} `{CopyQueue Q St} (m : AdaptiveMemory) (reason : RelocationReason) :
    M (World St * Q) AdaptiveMemory :=
  let stalled m :=
    state ← lift (arena_state (arena m));
    mret (with_trigger (trigger_stalled (trigger m) state) m) in
  '(relocation, a) ← on_world (arena_plan (arena m) (reason_room reason));
  let m := with_arena a m in
  if relocation_is_empty relocation then stalled m
  else
    r ← relocation_copy relocation;
    match r with
    | Ok landed =>
        a ← on_world (arena_commit (arena m) landed);
        _ ← on_world flush;
        mret (with_trigger (trigger_moved (trigger m)) (with_arena a m))
    | Err _ => stalled m
    end.

Definition adaptive_cleanup (m : AdaptiveMemory) (alloc_nr : Z) (cleanup : Cleanup) :
    M (World St) AdaptiveMemory :=
  p ← exclusive_cleanup (tiny m) alloc_nr cleanup;
  let m := with_tiny p m in
  p ← sliced_cleanup (small m) cleanup;
  let m := with_small p m in
  a ← arena_cleanup (arena m) cleanup;
  mret (with_arena a m).
Definition adaptive_report (m : AdaptiveMemory) : M (World St) (list MemoryPoolReport) :=
  r ← exclusive_report (tiny m);
  s ← sliced_report (small m);
  l ← arena_report (arena m);
  mret (r :: s :: l).
End adaptive.

(** ** Dynamic memory *)
Inductive MemoryConfiguration := ExclusivePages | AdaptivePages.
Inductive DynamicMemory :=
| Exclusive (pools : list ExclusiveMemoryPool)
| Adaptive (memory : AdaptiveMemory).

Definition dynamic_new (ln exp : f64 → f64) (properties : MemoryDeviceProperties)
    (config : MemoryConfiguration) : option DynamicMemory :=
  match config with
  | ExclusivePages =>
      Exclusive <$> exclusive_pools_new ln exp (device_max_page_size properties) (device_alignment properties)
  | AdaptivePages => Adaptive <$> adaptive_new properties
  end.

Definition dynamic_pool (d : DynamicMemory) (index : Z) : option MemoryPool :=
  match d with
  | Exclusive pools => Exclusively <$> pools !! Z.to_nat index
  | Adaptive memory => adaptive_pool memory index
  end.
Definition dynamic_set_pool (d : DynamicMemory) (index : Z) (p : MemoryPool) : DynamicMemory :=
  match d, p with
  | Exclusive pools, Exclusively p => Exclusive (<[Z.to_nat index := p]> pools)
  | Exclusive pools, _ => d
  | Adaptive memory, _ => Adaptive (adaptive_set_pool memory index p)
  end.

Section dynamic.
Context {St : Type} `{ComputeStorage St}.

Definition dynamic_materialize (d : DynamicMemory) (binding : ManagedMemoryId) :
    M (World St) (result unit IoError * DynamicMemory) :=
  match d with
  | Exclusive _ => mret (Ok tt, d)
  | Adaptive memory => '(r, memory) ← adaptive_materialize memory binding; mret (r, Adaptive memory)
  end.
Definition dynamic_reserve (d : DynamicMemory) (size : Z) (mapping : PageMapping) :
    M (World St) (result ManagedMemoryId IoError * DynamicMemory) :=
  match d with
  | Exclusive pools => '(r, pools) ← pools_reserve pools size; mret (r, Exclusive pools)
  | Adaptive memory => '(r, memory) ← adaptive_reserve memory size mapping; mret (r, Adaptive memory)
  end.
Definition dynamic_try_reserve (d : DynamicMemory) (size : Z) :
    M (World St) (option ManagedMemoryId * DynamicMemory) :=
  match d with
  | Exclusive pools => '(r, pools) ← pools_try_reserve pools size; mret (r, Exclusive pools)
  | Adaptive memory => '(r, memory) ← adaptive_try_reserve memory size; mret (r, Adaptive memory)
  end.
Definition dynamic_has_outdated (d : DynamicMemory) : bool :=
  match d with Exclusive _ => false | Adaptive memory => adaptive_has_outdated memory end.
Definition dynamic_relocation_need (d : DynamicMemory) : option RelocationNeed :=
  match d with Exclusive _ => Some NeedNothing | Adaptive memory => adaptive_relocation_need memory end.
Definition dynamic_relocate {Q} `{CopyQueue Q St} (d : DynamicMemory) (reason : RelocationReason) :
    M (World St * Q) DynamicMemory :=
  match d with
  | Exclusive _ => mret d
  | Adaptive memory => Adaptive <$> adaptive_relocate memory reason
  end.
Definition dynamic_cleanup (d : DynamicMemory) (alloc_nr : Z) (cleanup : Cleanup) :
    M (World St) DynamicMemory :=
  match d with
  | Exclusive pools => Exclusive <$> pools_cleanup pools alloc_nr cleanup
  | Adaptive memory => Adaptive <$> adaptive_cleanup memory alloc_nr cleanup
  end.
Definition dynamic_report (d : DynamicMemory) : M (World St) (list MemoryPoolReport) :=
  match d with
  | Exclusive pools => pools_report pools
  | Adaptive memory => adaptive_report memory
  end.
End dynamic.
