(* ===== verification/Indexing.v ===== *)
(** * Indices

    [cubecl-zspace/src/indexing/wrapping.rs] and [errors.rs]: indices that
    count from the end when they are negative, and the row-major index of
    coordinates.  A [Shape] is its list of dimensions; [isize] values are [Z]s
    in their range, and an index of any integer type is the [isize] its
    [as_index] gives. *)

From S2P Require Export Prelude.
From stdpp Require Import list.
#[local] Open Scope Z_scope.

Abbreviation isize_min := (-9223372036854775808).
Definition is_isize (x : Z) : Prop := isize_min <= x <= isize_max.
(** [x as isize] for a [usize]. *)
Definition as_isize (x : Z) : Z := if x <=? isize_max then x else x - (u64_max + 1).
Definition add_isize (a b : Z) : option Z :=
  if decide (isize_min <= a + b <= isize_max) then Some (a + b) else None.
(** [isize::rem_euclid]: panics on zero and on the one quotient that
    overflows. *)
Definition rem_euclid (a b : Z) : option Z :=
  if decide (b = 0) then None
  else if decide (a = isize_min ∧ b = -1) then None
  else Some (a mod Z.abs b).

Inductive IndexKind := Element | Dimension.
Inductive BoundsError :=
| Generic (message : list Z)
| Index (kind : IndexKind) (index : Z) (bounds : Z * Z).

Definition try_wrap (source_idx source_size : Z) (kind : IndexKind) (wrap_scalar : bool) :
    option (result Z BoundsError) :=
  let wrap size :=
    if (0 <=? source_idx) && (source_idx <? size) then Some (Ok source_idx)
    else
      idx ← (if source_idx <? 0 then add_isize source_idx (as_isize size) else Some source_idx);
      if (idx <? 0) || (size <=? idx)
      then Some (Err (Index kind source_idx (0, as_isize size)))
      else Some (Ok idx) in
  if 0 <? source_size then wrap source_size
  else if negb wrap_scalar then Some (Err (Index kind source_idx (0, 0)))
  else wrap 1.

(** The [expect] is a panic. *)
Definition expect_wrap (idx size : Z) (kind : IndexKind) (wrap_scalar : bool) : option Z :=
  r ← try_wrap idx size kind wrap_scalar;
  match r with Ok i => Some i | Err _ => None end.

Record IndexWrap := mk_IndexWrap { wrap_kind : IndexKind; wrap_scalar : bool }.
Definition wrap_index_kind : IndexWrap := mk_IndexWrap Element false.
Definition wrap_dim_kind : IndexWrap := mk_IndexWrap Dimension false.
Definition with_wrap_scalar (b : bool) (w : IndexWrap) : IndexWrap := mk_IndexWrap (wrap_kind w) b.
Definition wrapper_try_wrap (w : IndexWrap) (idx size : Z) : option (result Z BoundsError) :=
  try_wrap idx size (wrap_kind w) (wrap_scalar w).
Definition wrapper_expect_wrap (w : IndexWrap) (idx size : Z) : option Z :=
  expect_wrap idx size (wrap_kind w) (wrap_scalar w).
Definition expect_elem (idx size : Z) : option Z := wrapper_expect_wrap wrap_index_kind idx size.
Definition expect_dim (idx size : Z) : option Z := wrapper_expect_wrap wrap_dim_kind idx size.
Definition try_dim_index (idx size : Z) : option (result Z BoundsError) :=
  wrapper_try_wrap wrap_dim_kind idx size.

Definition wrap_index (idx size : Z) : option Z :=
  if decide (size = 0) then Some 0
  else
    wrapped ← rem_euclid idx (as_isize size);
    if wrapped <? 0 then add_isize wrapped (as_isize size) else Some wrapped.

(** The loop of [ravel_index], from the last dimension to the first: the
    index and the stride reached. *)
Fixpoint ravel_loop (l : list (Z * Z)) : option (Z * Z) :=
  match l with
  | [] => Some (0, 1)
  | (idx, dim) :: l =>
      '(ravel_idx, stride) ← ravel_loop l;
      coord ← expect_elem idx dim;
      step ← mul_u64 coord stride;
      ravel_idx ← add_u64 ravel_idx step;
      stride ← mul_u64 stride dim;
      Some (ravel_idx, stride)
  end.
Definition ravel_index (indices shape : list Z) : option Z :=
  if decide (length shape = length indices) then fst <$> ravel_loop (zip indices shape) else None.

Example ravel_ex : ravel_index [1; -1; 0] [2; 3; 4] = Some 20.
Proof. reflexivity. Qed.
Example wrap_ex : expect_dim (-1) 4 = Some 3 ∧ expect_dim 4 4 = None.
Proof. split; reflexivity. Qed.

(** ** Wrapping *)

(** The index [i] stands for: itself, or counted from the end. *)
Definition wrapped (i size : Z) : Z := if decide (i < 0) then i + size else i.

Lemma as_isize_small x : 0 <= x <= isize_max → as_isize x = x.
Proof. intros. unfold as_isize. destruct (Z.leb_spec x isize_max); lia. Qed.
Lemma add_isize_Some a b : isize_min <= a + b <= isize_max → add_isize a b = Some (a + b).
Proof. intros. unfold add_isize. by rewrite decide_True. Qed.

Lemma wrapped_mod i size : - size <= i < size → wrapped i size = i mod size.
Proof.
  intros. unfold wrapped. case_decide; [|rewrite Z.mod_small; lia].
  rewrite <- (Z.mod_small (i + size) size) by lia.
  rewrite Zplus_mod, Z_mod_same_full, Z.add_0_r. apply Zmod_mod.
Qed.

Lemma try_wrap_in i size kind scalar :
  is_isize i → 0 < size <= isize_max → - size <= i < size →
  try_wrap i size kind scalar = Some (Ok (wrapped i size)).
Proof.
  intros Hi Hs Hr. unfold is_isize in Hi. unfold try_wrap, wrapped.
  destruct (Z.ltb_spec 0 size); [|lia]. rewrite as_isize_small by lia.
  case_decide; destruct (Z.leb_spec 0 i); try lia; cbn [andb].
  - destruct (Z.ltb_spec i 0); [|lia]. rewrite add_isize_Some by lia. cbn.
    destruct (Z.ltb_spec (i + size) 0), (Z.leb_spec size (i + size)); cbn; try done; lia.
  - destruct (Z.ltb_spec i size); [done|lia].
Qed.
Lemma try_wrap_out i size kind scalar :
  is_isize i → 0 < size <= isize_max → ¬ (- size <= i < size) →
  try_wrap i size kind scalar = Some (Err (Index kind i (0, size))).
Proof.
  intros Hi Hs Hr. unfold is_isize in Hi. unfold try_wrap.
  destruct (Z.ltb_spec 0 size); [|lia]. rewrite as_isize_small by lia.
  destruct (Z.leb_spec 0 i), (Z.ltb_spec i size), (Z.ltb_spec i 0); cbn [andb]; try lia.
  - cbn. destruct (Z.ltb_spec i 0), (Z.leb_spec size i); cbn; try done; lia.
  - rewrite add_isize_Some by lia. cbn.
    destruct (Z.ltb_spec (i + size) 0), (Z.leb_spec size (i + size)); cbn; try done; lia.
Qed.
Lemma expect_elem_Some i size c :
  is_isize i → 0 <= size <= isize_max → expect_elem i size = Some c →
  - size <= i < size ∧ c = wrapped i size ∧ 0 <= c < size.
Proof.
  intros Hi Hs He. unfold expect_elem, wrapper_expect_wrap, expect_wrap in He. cbn in He.
  destruct (decide (size = 0)) as [->|Hz]; [done|].
  destruct (decide (- size <= i < size)) as [Hr|Hr].
  - rewrite try_wrap_in in He by (done || lia). cbn in He. injection He as <-.
    split; [done|]. split; [done|]. unfold wrapped. case_decide; lia.
  - by rewrite try_wrap_out in He by (done || lia).
Qed.

(** An index is accepted exactly when it is in [-size, size), and then
    stands for the index it is equal to modulo the size, as [wrap_index]
    reads it too; otherwise the error names the index and the bounds.  An
    empty range accepts nothing, unless it is a scalar, of which 0 and -1 are
    the one element. *)
Theorem try_wrap_correct (i size : Z) (kind : IndexKind) (scalar : bool) :
  is_isize i → 0 <= size <= isize_max →
  let size' := if decide (size = 0) then if scalar then 1 else 0 else size in
  (- size' <= i < size' → ∃ k, try_wrap i size kind scalar = Some (Ok k) ∧
     0 <= k < size' ∧ k = i mod size' ∧ (0 < size → wrap_index i size = Some k)) ∧
  (¬ (- size' <= i < size') → try_wrap i size kind scalar = Some (Err (Index kind i (0, size')))).
Proof.
  intros Hi Hs size'. unfold size'. case_decide as Hz; [subst; destruct scalar|].
  - split; intros Hr.
    + exists 0. assert (i = 0 ∨ i = -1) as [-> | ->] by lia; by vm_compute.
    + change (try_wrap i 0 kind true) with (try_wrap i 1 kind true).
      by apply try_wrap_out.
  - split; intros Hr; [lia|done].
  - split; intros Hr; [|apply try_wrap_out; [done|lia|done]].
    exists (wrapped i size). rewrite try_wrap_in by (done || lia).
    assert (0 <= wrapped i size < size) as Hb by (unfold wrapped; case_decide; lia).
    split_and!; try lia; [done|by apply wrapped_mod|]. intros _.
    unfold wrap_index. rewrite decide_False, as_isize_small by lia.
    unfold rem_euclid. rewrite decide_False by lia. rewrite decide_False by lia.
    rewrite Z.abs_eq, <- wrapped_mod by lia. cbn.
    by destruct (Z.ltb_spec (wrapped i size) 0); [lia|].
Qed.
Lemma try_wrap_correct_witness :
  (∃ k, try_wrap (-2) 5 Element false = Some (Ok k) ∧ k = 3) ∧
  try_wrap 5 5 Element false = Some (Err (Index Element 5 (0, 5))).
Proof.
  split.
  - destruct (proj1 (try_wrap_correct (-2) 5 Element false ltac:(unfold is_isize; lia) ltac:(lia)))
      as (k & Hk & _ & -> & _); [rewrite decide_False by done; lia|]. eexists. split; [exact Hk|reflexivity].
  - apply (proj2 (try_wrap_correct 5 5 Element false ltac:(unfold is_isize; lia) ltac:(lia))).
    rewrite decide_False by done. lia.
Defined.
