(* ===== verification/Shape.v ===== *)
(** * Shapes

    [cubecl-zspace/src/shape.rs]: the shape of a tensor and the operations
    that make a new shape from old ones.  [Shape] wraps a vector of [usize];
    here it is the list of its dimensions.  The texts of [Invalid] errors are
    kept without the shapes they format. *)

From S2P Require Export Indexing.
From stdpp Require Import list strings.
#[local] Open Scope Z_scope.

Abbreviation Shape := (list Z) (only parsing).

Inductive MetadataError :=
| RankMismatch (left right : nat)
| IncompatibleDims (left right : Z) (dim : nat)
| OutOfBounds (dim rank : nat)
| IncompatibleShapes (left right : Shape)
| Invalid (reason : string).
Definition empty_error : MetadataError := Invalid "Shape is empty.".

(** [iter().product()] from [acc]. *)
Fixpoint product_from (acc : Z) (l : list Z) : option Z :=
  match l with
  | [] => Some acc
  | d :: l => acc ← mul_u64 acc d; product_from acc l
  end.
Definition num_elements (s : Shape) : option Z := product_from 1 s.
Definition rank (s : Shape) : nat := length s.
Definition flatten (s : Shape) : option Shape := n ← num_elements s; Some [n].

Definition flatten_dims (s : Shape) (start_dim end_dim : Z) : option Shape :=
  start ← expect_dim start_dim (Z.of_nat (rank s));
  end_ ← expect_dim end_dim (Z.of_nat (rank s));
  if decide (start <= end_) then
    let start := Z.to_nat start in
    let end_ := Z.to_nat end_ in
    flattened_size ← product_from 1 (take (end_ + 1 - start) (drop start s));
    Some (take start s ++ flattened_size :: drop (end_ + 1) s)
  else None.

(** [SmallVec::insert] and [remove] panic past the end. *)
Definition shape_insert (index : nat) (size : Z) (s : Shape) : option Shape :=
  if decide (index <= length s)%nat then Some (vec_insert index size s) else None.
Definition shape_remove (index : nat) (s : Shape) : option (Z * Shape) :=
  d ← s !! index; Some (d, vec_remove index s).
Definition shape_push (size : Z) (s : Shape) : Shape := s ++ [size].

Definition swap (i j : nat) (l : list Z) : option (list Z) :=
  a ← l !! i; b ← l !! j; Some (<[j := a]> (<[i := b]> l)).
Definition swapped (s : Shape) (dim1 dim2 : nat) : option (result Shape MetadataError) :=
  if decide (rank s <= dim1)%nat then Some (Err (OutOfBounds dim1 (rank s)))
  else if decide (rank s <= dim2)%nat then Some (Err (OutOfBounds dim2 (rank s)))
  else Ok <$> swap dim1 dim2 s.

(** [permute] of a shape and of strides; an axis out of range is a panic. *)
Definition permute (s : list Z) (axes : list nat) : option (result (list Z) MetadataError) :=
  if decide (length axes = length s) then Ok <$> mapM (λ i, s !! i) axes
  else Some (Err (RankMismatch (length s) (length axes))).
Definition permuted (s : Shape) (axes : list nat) : option (result Shape MetadataError) :=
  permute s axes.

Definition repeat (s : Shape) (dim : nat) (times : Z) : option (result Shape MetadataError) :=
  match s !! dim with
  | None => Some (Err (OutOfBounds dim (rank s)))
  | Some d => d ← mul_u64 d times; Some (Ok (<[dim := d]> s))
  end.
Definition reduce (s : Shape) (dim : nat) : result Shape MetadataError :=
  if decide (rank s <= dim)%nat then Err (OutOfBounds dim (rank s)) else Ok (<[dim := 1]> s).

(** The loop of [cat] over the shapes after the first. *)
Fixpoint cat_loop (shape : Shape) (shapes : list Shape) (dim : nat) :
    option (result Shape MetadataError) :=
  match shapes with
  | [] => Some (Ok shape)
  | s :: shapes =>
      if decide (rank s ≠ rank shape) then Some (Err (RankMismatch (rank shape) (rank s)))
      else if decide (take dim s ≠ take dim shape ∨ drop (dim + 1) s ≠ drop (dim + 1) shape)
      then Some (Err (IncompatibleShapes shape s))
      else
        a ← shape !! dim; b ← s !! dim; d ← add_u64 a b;
        cat_loop (<[dim := d]> shape) shapes dim
  end.
Definition cat (shapes : list Shape) (dim : nat) : option (result Shape MetadataError) :=
  match shapes with
  | [] => Some (Err empty_error)
  | first :: shapes =>
      if decide (rank first <= dim)%nat then Some (Err (OutOfBounds dim (rank first)))
      else cat_loop first shapes dim
  end.

(** The two loops of [broadcast_many]: over the dimensions of a shape, and
    over the shapes after the first. *)
Fixpoint broadcast_dims (lhs rhs : Shape) (dim : nat) : result Shape MetadataError :=
  match lhs, rhs with
  | d_lhs :: lhs, d_rhs :: rhs =>
      let keep d := result_map (cons d) (broadcast_dims lhs rhs (S dim)) in
      if decide (d_lhs = d_rhs) then keep d_lhs
      else if decide (d_lhs = 1) then keep d_rhs
      else if decide (d_rhs = 1) then keep d_lhs
      else Err (IncompatibleDims d_lhs d_rhs dim)
  | _, _ => Ok lhs
  end.
Fixpoint broadcast_loop (broadcasted : Shape) (rank_ : nat) (shapes : list Shape) :
    result Shape MetadataError :=
  match shapes with
  | [] => Ok broadcasted
  | s :: shapes =>
      if decide (rank s ≠ rank_) then Err (RankMismatch rank_ (rank s))
      else match broadcast_dims broadcasted s 0 with
           | Ok b => broadcast_loop b rank_ shapes
           | Err e => Err e
           end
  end.
Definition broadcast_many (shapes : list Shape) : result Shape MetadataError :=
  match shapes with
  | [] => Err empty_error
  | first :: shapes => broadcast_loop first (rank first) shapes
  end.
Definition broadcast (s other : Shape) : result Shape MetadataError := broadcast_many [s; other].

(** The loop of [expand], over both shapes from their last dimensions. *)
Fixpoint expand_loop (target self : Shape) (i target_rank : nat) : option MetadataError :=
  match target, self with
  | dim_target :: target, dim_self :: self =>
      if decide (dim_self ≠ dim_target ∧ dim_self ≠ 1)
      then Some (IncompatibleDims dim_self dim_target (target_rank - i - 1))
      else expand_loop target self (S i) target_rank
  | _, _ => None
  end.
Definition expand (s target : Shape) : result Shape MetadataError :=
  if decide (rank target < rank s)%nat then Err (RankMismatch (rank s) (rank target))
  else match expand_loop (reverse target) (reverse s) 0 (rank target) with
       | Some e => Err e
       | None => Ok target
       end.

(** The loop of [reshape] over the arguments: the index to infer, the
    dimensions, and the product of the dimensions known. *)
Fixpoint reshape_loop (s : Shape) (args : list Z) (idx : nat) (infer_index : option nat)
    (dims : Shape) (new_size : Z) : option (result (option nat * Shape * Z) MetadataError) :=
  match args with
  | [] => Some (Ok (infer_index, dims, new_size))
  | a :: args =>
      if 0 <? a then
        new_size ← mul_u64 new_size a;
        reshape_loop s args (S idx) infer_index (dims ++ [a]) new_size
      else if a =? 0 then
        d ← s !! idx;
        new_size ← mul_u64 new_size d;
        reshape_loop s args (S idx) infer_index (dims ++ [d]) new_size
      else if a =? -1 then
        match infer_index with
        | None => reshape_loop s args (S idx) (Some idx) (dims ++ [1]) new_size
        | Some _ => Some (Err (Invalid "Repeated -1 in reshape"))
        end
      else Some (Err (Invalid
             "The given shape cannot contain negative dimensions (other than -1)."))
  end.
(** [is_multiple_of] is total: only zero is a multiple of zero.  Dividing by
    zero is a panic. *)
Definition is_multiple_of (a b : Z) : bool := if decide (b = 0) then bool_decide (a = 0) else a mod b =? 0.
Definition div_u64 (a b : Z) : option Z := if decide (b = 0) then None else Some (a / b).
Definition reshape (s : Shape) (args : list Z) : option (result Shape MetadataError) :=
  '(infer_index, dims, new_size) ←? reshape_loop s args 0 None [] 1;
  source_size ← num_elements s;
  match infer_index with
  | None =>
      if decide (source_size ≠ new_size)
      then Some (Err (Invalid
             "The given shape doesn't have the same number of elements as the current shape."))
      else Some (Ok dims)
  | Some idx =>
      if negb (is_multiple_of source_size new_size)
      then Some (Err (Invalid "Cannot infer a valid target shape."))
      else d ← div_u64 source_size new_size; Some (Ok (<[idx := d]> dims))
  end.

(** [rank - n] on [usize]. *)
Definition sub_usize (a b : nat) : option nat := if decide (b <= a)%nat then Some (a - b)%nat else None.
Definition calculate_matmul_output (lhs rhs : Shape) : option (result Shape MetadataError) :=
  let rank_ := rank lhs in
  if decide (rank_ ≠ rank rhs) then Some (Err (RankMismatch rank_ (rank rhs)))
  else
    last ← sub_usize rank_ 1; k ← lhs !! last;
    last2 ← sub_usize rank_ 2; k' ← rhs !! last2;
    if decide (k ≠ k') then Some (Err (IncompatibleShapes lhs rhs))
    else
      shape ←? (if decide (2 < rank_)%nat
                then Some (broadcast (take last2 lhs) (take last2 rhs)) else Some (Ok []));
      m ← lhs !! last2; n ← rhs !! last;
      Some (Ok (shape ++ [m; n])).

Example reshape_ex : reshape [2; 3; 4] [0; -1] = Some (Ok [2; 12]).
Proof. reflexivity. Qed.
Example broadcast_ex : broadcast [1; 3; 1] [2; 1; 1] = Ok [2; 3; 1].
Proof. reflexivity. Qed.
Example flatten_dims_ex : flatten_dims [2; 3; 4] 1 (-1) = Some [2; 12].
Proof. reflexivity. Qed.
Example matmul_ex : calculate_matmul_output [5; 1; 2; 3] [1; 7; 3; 4] = Some (Ok [5; 7; 2; 4]).
Proof. reflexivity. Qed.

(** ** Products of dimensions *)
Definition prod_Z (l : list Z) : Z := foldr Z.mul 1 l.

Lemma prod_Z_cons d l : prod_Z (d :: l) = d * prod_Z l.
Proof. done. Qed.
Lemma prod_Z_app l1 l2 : prod_Z (l1 ++ l2) = prod_Z l1 * prod_Z l2.
Proof.
  induction l1 as [|d l1 IH]; [by rewrite Z.mul_1_l|].
  rewrite <- app_comm_cons, !prod_Z_cons, IH. ring.
Qed.
Lemma prod_Z_nonneg l : Forall (Z.le 0) l → 0 <= prod_Z l.
Proof. induction 1; [done|]. rewrite prod_Z_cons. by apply Z.mul_nonneg_nonneg. Qed.
Lemma prod_Z_pos l : Forall (Z.le 1) l → 1 <= prod_Z l.
Proof. induction 1; [done|]. rewrite prod_Z_cons. nia. Qed.

Lemma mul_u64_inv a b c : mul_u64 a b = Some c → c = a * b ∧ a * b <= u64_max.
Proof. unfold mul_u64. case_decide; [by intros [= <-]|done]. Qed.
Lemma add_u64_inv a b c : add_u64 a b = Some c → c = a + b ∧ a + b <= u64_max.
Proof. unfold add_u64. case_decide; [by intros [= <-]|done]. Qed.
Lemma product_from_inv acc l k : product_from acc l = Some k → k = acc * prod_Z l.
Proof.
  revert acc. induction l as [|d l IH]; intros acc; cbn [product_from].
  { intros [= <-]. by rewrite Z.mul_1_r. }
  intros (acc' & [-> _]%mul_u64_inv & ->%IH)%bind_Some. rewrite prod_Z_cons. ring.
Qed.
Lemma product_from_Some acc l :
  0 <= acc → Forall (Z.le 1) l → acc * prod_Z l <= u64_max →
  product_from acc l = Some (acc * prod_Z l).
Proof.
  intros Ha Hl. revert acc Ha. induction Hl as [|d l Hd Hl IH]; intros acc Ha Hp; cbn [product_from].
  { by rewrite Z.mul_1_r. }
  rewrite prod_Z_cons in *. pose proof (prod_Z_pos l Hl).
  rewrite mul_u64_Some by nia. cbn. rewrite IH by nia. f_equal. ring.
Qed.
Lemma num_elements_inv s n : num_elements s = Some n → n = prod_Z s.
Proof. intros ->%product_from_inv. lia. Qed.

(** ** Reshape *)

(** The dimensions the arguments fix, a dimension to infer counted as one. *)
Fixpoint known_from (s : Shape) (i : nat) (args : list Z) : option Shape :=
  match args with
  | [] => Some []
  | a :: args =>
      d ← (if decide (0 < a) then Some a else if decide (a = 0) then s !! i else Some 1);
      ds ← known_from s (S i) args; Some (d :: ds)
  end.

(** What the arguments ask of the new shape: a positive one is the dimension,
    a zero copies the dimension of the old shape, a -1 is any size. *)
Fixpoint agrees (s : Shape) (i : nat) (args : list Z) (d : Shape) : Prop :=
  match args, d with
  | [], [] => True
  | a :: args, x :: d =>
      (if decide (0 < a) then x = a
       else if decide (a = 0) then s !! i = Some x else a = -1 ∧ 0 <= x) ∧
      agrees s (S i) args d
  | _, _ => False
  end.
Definition reshaped (s : Shape) (args : list Z) (d : Shape) : Prop :=
  agrees s 0 args d ∧ (length (filter (λ a, a = (-1)%Z) args) <= 1)%nat ∧ prod_Z d = prod_Z s.

Lemma split_nonneg (args : list Z) :
  ∃ l rest, args = l ++ rest ∧ Forall (Z.le 0) l ∧ (rest = [] ∨ ∃ a r, rest = a :: r ∧ a < 0).
Proof.
  induction args as [|a args (l & rest & -> & Hl & Hr)].
  { exists [], []. split_and!; [done|constructor|by left]. }
  destruct (decide (0 <= a)).
  - exists (a :: l), rest. split_and!; [done|by constructor|done].
  - exists [], (a :: l ++ rest). split_and!; [done|constructor|right; exists a, (l ++ rest); split; [done|lia]].
Qed.
Lemma agrees_app s i l1 l2 d :
  agrees s i (l1 ++ l2) d ↔
  ∃ d1 d2, d = d1 ++ d2 ∧ agrees s i l1 d1 ∧ agrees s (i + length l1) l2 d2.
Proof.
  revert i d. induction l1 as [|a l1 IH]; intros i d; cbn.
  - rewrite Nat.add_0_r. split; [intros; by exists [], d|].
    intros (d1 & d2 & -> & H1 & H2). by destruct d1.
  - rewrite <- Nat.add_succ_comm. destruct d as [|x d].
    + split; [done|]. intros ([|y d1] & d2 & Heq & H1 & H2); done.
    + rewrite IH. split.
      * intros (Hx & d1 & d2 & -> & H1 & H2). by exists (x :: d1), d2.
      * intros ([|y d1] & d2 & Heq & H1 & H2); [done|]. injection Heq as -> ->.
        destruct H1. split; [done|by exists d1, d2].
Qed.
Lemma agrees_nonneg s i l ks d :
  Forall (Z.le 0) l → known_from s i l = Some ks → (agrees s i l d ↔ d = ks).
Proof.
  intros Hl. revert i ks d. induction Hl as [|a l Ha Hl IH]; intros i ks d; cbn.
  { intros [= <-]. by destruct d. }
  intros (x & Hx & (ds & Hds & [= <-])%bind_Some)%bind_Some. destruct d as [|y d]; [done|].
  rewrite (IH _ _ _ Hds). split.
  - intros [Hy ->]. f_equal. repeat case_decide; simplify_eq; try done. lia.
  - intros [= -> ->]. split; [|done]. repeat case_decide; simplify_eq; try done; lia.
Qed.
Lemma known_from_app s i l1 l2 ks :
  known_from s i (l1 ++ l2) = Some ks →
  ∃ k1 k2, ks = k1 ++ k2 ∧ known_from s i l1 = Some k1 ∧ length k1 = length l1 ∧
    known_from s (i + length l1) l2 = Some k2.
Proof.
  revert i ks. induction l1 as [|a l1 IH]; intros i ks; cbn.
  { intros H. exists [], ks. by rewrite Nat.add_0_r. }
  intros (x & Hx & (ds & Hds & [= <-])%bind_Some)%bind_Some.
  apply IH in Hds as (k1 & k2 & -> & H1 & Hlen & H2). exists (x :: k1), k2.
  rewrite Hx; cbn. rewrite H1; cbn. rewrite <- Nat.add_succ_comm.
  split_and!; [done|done|lia|done].
Qed.
Lemma known_from_neg s i a l :
  a < 0 → known_from s i (a :: l) = (ds ← known_from s (S i) l; Some (1 :: ds)).
Proof. intros. cbn [known_from]. by rewrite !decide_False by lia. Qed.
Lemma product_from_app acc l1 l2 :
  product_from acc (l1 ++ l2) = (k ← product_from acc l1; product_from k l2).
Proof.
  revert acc. induction l1 as [|d l1 IH]; intros acc; [done|]. cbn.
  destruct (mul_u64 acc d); cbn; [apply IH|done].
Qed.

Lemma reshape_loop_nonneg s l rest i infer dims acc ks k :
  Forall (Z.le 0) l → known_from s i l = Some ks → product_from acc ks = Some k →
  reshape_loop s (l ++ rest) i infer dims acc =
  reshape_loop s rest (i + length l) infer (dims ++ ks) k.
Proof.
  intros Hl. revert i dims acc ks. induction Hl as [|a l Ha Hl IH]; intros i dims acc ks; cbn.
  { intros [= <-] [= <-]. by rewrite Nat.add_0_r, app_nil_r. }
  intros (x & Hx & (ds & Hds & [= <-])%bind_Some)%bind_Some.
  intros (acc' & Hm & Hp)%bind_Some. rewrite <- Nat.add_succ_comm.
  assert (∀ x, dims ++ x :: ds = (dims ++ [x]) ++ ds) as Happ by (intros; by rewrite <- app_assoc).
  destruct (Z.ltb_spec 0 a).
  - rewrite decide_True in Hx by done. injection Hx as <-. rewrite Hm; cbn. rewrite Happ. by apply IH.
  - rewrite decide_False, decide_True in Hx by lia.
    destruct (Z.eqb_spec a 0); [|lia]. rewrite Hx; cbn. rewrite Hm; cbn. rewrite Happ. by apply IH.
Qed.

Lemma filter_nonneg l : Forall (Z.le 0) l → filter (λ a, a = -1) l = [].
Proof. induction 1 as [|a l Ha Hl IH]; [done|]. rewrite filter_cons_False; [done|lia]. Qed.
Lemma agrees_negative s i l1 a l2 d :
  a < 0 → agrees s i (l1 ++ a :: l2) d → a = -1.
Proof.
  intros Ha (d1 & d2 & -> & _ & H)%agrees_app. destruct d2 as [|x d2]; [done|]. cbn in H.
  destruct H as [H _]. rewrite !decide_False in H by lia. tauto.
Qed.
Lemma agrees_infer s i l1 l2 k1 k2 d :
  Forall (Z.le 0) l1 → Forall (Z.le 0) l2 → known_from s i l1 = Some k1 →
  known_from s (S (i + length l1)) l2 = Some k2 →
  (agrees s i (l1 ++ -1 :: l2) d ↔ ∃ x, d = k1 ++ x :: k2 ∧ 0 <= x).
Proof.
  intros Hl1 Hl2 Hk1 Hk2. rewrite agrees_app. split.
  - intros (d1 & d2 & -> & ->%(agrees_nonneg _ _ _ _ _ Hl1 Hk1) & H2).
    destruct d2 as [|x d2]; [done|]. cbn in H2. destruct H2 as [[_ Hx] H2].
    exists x. apply (agrees_nonneg _ _ _ _ _ Hl2 Hk2) in H2 as ->. done.
  - intros (x & -> & Hx). exists k1, (x :: k2). split; [done|].
    split; [by apply (agrees_nonneg _ _ _ _ _ Hl1 Hk1)|]. cbn. split; [done|].
    by apply (agrees_nonneg _ _ _ _ _ Hl2 Hk2).
Qed.
(** What [reshape] answers when it does not panic. *)
Definition reshape_answers (s : Shape) (args : list Z) : Prop :=
  ∃ r, reshape s args = Some r ∧ (∀ d, r = Ok d ↔ reshaped s args d) ∧
    (∀ e, r = Err e → ∃ m, e = Invalid m).

Lemma reshape_answers_err s args m :
  reshape s args = Some (Err (Invalid m)) → (∀ d, ¬ reshaped s args d) → reshape_answers s args.
Proof.
  intros Hm Hno. exists (Err (Invalid m)). split_and!; [done| |].
  - intros d. split; [done|intros Hd; by apply Hno in Hd].
  - intros e [= <-]. by exists m.
Qed.
Lemma reshape_exact s l ks k n :
  Forall (Z.le 0) l → known_from s 0 l = Some ks → product_from 1 ks = Some k →
  num_elements s = Some n → reshape_answers s l.
Proof.
  intros Hl Hks Hk Hn. pose proof (num_elements_inv _ _ Hn) as Hns.
  pose proof (product_from_inv _ _ _ Hk) as Hkk.
  assert (reshape s l = if decide (n ≠ k)
    then Some (Err (Invalid "The given shape doesn't have the same number of elements as the current shape."))
    else Some (Ok ks)) as Hr.
  { unfold reshape. rewrite <- (app_nil_r l).
    rewrite (reshape_loop_nonneg _ _ _ _ _ _ _ _ _ Hl Hks Hk). cbn. by rewrite Hn. }
  case_decide.
  - eapply reshape_answers_err; [exact Hr|].
    intros d (->%(agrees_nonneg _ _ _ _ _ Hl Hks) & _ & Hp). lia.
  - exists (Ok ks). split_and!; [done| |done]. intros d. unfold reshaped.
    rewrite (agrees_nonneg _ _ _ _ _ Hl Hks), filter_nonneg by done.
    split; [intros [= <-]; split_and!; cbn; try done; lia|by intros (-> & _)].
Qed.
(** An argument below -1. *)
Lemma reshape_refused s l1 a r ks k :
  Forall (Z.le 0) l1 → a < -1 →
  known_from s 0 (l1 ++ a :: r) = Some ks → product_from 1 ks = Some k →
  reshape_answers s (l1 ++ a :: r).
Proof.
  intros Hl1 Ha Hks Hk.
  apply known_from_app in Hks as (k1 & k2 & -> & Hk1 & _ & Hk2).
  rewrite product_from_app in Hk. apply bind_Some in Hk as (p1 & Hp1 & Hp2).
  eapply reshape_answers_err.
  - unfold reshape. rewrite (reshape_loop_nonneg _ _ _ _ _ _ _ _ _ Hl1 Hk1 Hp1). cbn.
    destruct (Z.ltb_spec 0 a), (Z.eqb_spec a 0), (Z.eqb_spec a (-1)); try lia. done.
  - intros d (Hag & _). apply agrees_negative in Hag; lia.
Qed.
Lemma product_from_one l acc k :
  product_from acc (1 :: l) = Some k → product_from acc l = Some k.
Proof. cbn. intros (acc' & [-> _]%mul_u64_inv & H)%bind_Some. by rewrite Z.mul_1_r in H. Qed.
(** A second negative argument. *)
Lemma reshape_twice s l1 l2 a r ks k :
  Forall (Z.le 0) l1 → Forall (Z.le 0) l2 → a < 0 →
  known_from s 0 (l1 ++ -1 :: l2 ++ a :: r) = Some ks → product_from 1 ks = Some k →
  reshape_answers s (l1 ++ -1 :: l2 ++ a :: r).
Proof.
  intros Hl1 Hl2 Ha Hks Hk.
  apply known_from_app in Hks as (k1 & k' & -> & Hk1 & _ & Hk').
  rewrite known_from_neg in Hk' by lia. cbn [Nat.add] in Hk'. apply bind_Some in Hk' as (k2' & Hk2' & [= <-]).
  apply known_from_app in Hk2' as (k2 & k3 & -> & Hk2 & _ & _).
  rewrite product_from_app in Hk. apply bind_Some in Hk as (p1 & Hp1 & Hp2%product_from_one).
  rewrite product_from_app in Hp2. apply bind_Some in Hp2 as (p2 & Hp2 & _).
  assert (∃ m, reshape s (l1 ++ -1 :: l2 ++ a :: r) = Some (Err (Invalid m))) as [m Hm].
  { unfold reshape. rewrite (reshape_loop_nonneg _ _ _ _ _ _ _ _ _ Hl1 Hk1 Hp1). cbn.
    rewrite (reshape_loop_nonneg _ _ _ _ _ _ _ _ _ Hl2 Hk2 Hp2). cbn.
    destruct (Z.ltb_spec 0 a), (Z.eqb_spec a 0), (Z.eqb_spec a (-1)); try lia; cbn; by eexists. }
  apply (reshape_answers_err _ _ _ Hm). intros d (Hag & Hcount & _).
  rewrite app_comm_cons, app_assoc in Hag. apply agrees_negative in Hag as ->; [|done].
  rewrite filter_app, filter_cons_True, filter_app, filter_cons_True, !length_app in Hcount by done.
  cbn in Hcount. rewrite length_app in Hcount. cbn in Hcount. lia.
Qed.
(** One dimension to infer. *)
Lemma reshape_infer s l1 l2 ks k n :
  Forall (Z.le 0) l1 → Forall (Z.le 0) l2 →
  known_from s 0 (l1 ++ -1 :: l2) = Some ks → product_from 1 ks = Some k →
  num_elements s = Some n → 0 <= n → 0 < k → reshape_answers s (l1 ++ -1 :: l2).
Proof.
  intros Hl1 Hl2 Hks Hk Hn Hn0 Hpos. pose proof (num_elements_inv _ _ Hn) as Hns.
  apply known_from_app in Hks as (k1 & k' & -> & Hk1 & Hlen & Hk').
  rewrite known_from_neg in Hk' by lia. cbn [Nat.add] in Hk'. apply bind_Some in Hk' as (k2 & Hk2 & [= <-]).
  rewrite product_from_app in Hk. apply bind_Some in Hk as (p1 & Hp1 & Hp2%product_from_one).
  pose proof (product_from_inv _ _ _ Hp1) as Hq1. pose proof (product_from_inv _ _ _ Hp2) as Hq2.
  pose proof (λ d, agrees_infer s 0 l1 l2 k1 k2 d Hl1 Hl2 Hk1 Hk2) as Hag.
  assert (reshape s (l1 ++ -1 :: l2) =
    if decide (n mod k = 0) then Some (Ok (k1 ++ n / k :: k2))
    else Some (Err (Invalid "Cannot infer a valid target shape."))) as Hr.
  { unfold reshape. rewrite (reshape_loop_nonneg _ _ _ _ _ _ _ _ _ Hl1 Hk1 Hp1). cbn.
    rewrite <- (app_nil_r l2).
    rewrite (reshape_loop_nonneg _ _ _ _ _ _ _ _ _ Hl2 Hk2 Hp2). cbn. rewrite Hn. cbn.
    unfold is_multiple_of, div_u64. rewrite !(decide_False (P := k = 0)) by lia.
    destruct (Z.eqb_spec (n mod k) 0); case_decide; try done. cbn.
    do 2 f_equal. rewrite <- app_assoc; cbn. rewrite <- Hlen. by rewrite insert_middle. }
  pose proof (Z.div_mod n k ltac:(lia)) as Hdm. case_decide as Hd.
  - exists (Ok (k1 ++ n / k :: k2)). split_and!; [done| |done]. intros d. unfold reshaped.
    rewrite Hag, filter_app, filter_cons_True, !filter_nonneg by done. split.
    + intros [= <-]. split_and!; [|cbn; lia|].
      * eexists. split; [done|]. apply Z.div_pos; lia.
      * rewrite prod_Z_app, prod_Z_cons. nia.
    + intros ((x & -> & Hx) & _ & Hp). rewrite prod_Z_app, prod_Z_cons in Hp.
      do 3 f_equal. symmetry. apply Z.div_unique_exact; [lia|]. nia.
  - eapply reshape_answers_err; [exact Hr|]. intros d ((x & -> & Hx)%Hag & _ & Hp).
    apply Hd, Z.mod_divide; [lia|]. exists x. rewrite prod_Z_app, prod_Z_cons in Hp. nia.
Qed.

(** Reshape answers with the one shape the arguments describe: as many
    dimensions as arguments, the positive ones as given, a zero copied from
    the old shape, at most one -1, which becomes whatever keeps the number of
    elements; and with an error exactly when there is no such shape.  It does
    not panic as long as a copied dimension exists, the sizes fit in a
    [usize], and a dimension is not to be inferred next to an empty one. *)
Theorem reshape_correct (s : Shape) (args : list Z) (ks : Shape) (k n : Z) :
  Forall (Z.le 0) s → num_elements s = Some n →
  known_from s 0 args = Some ks → product_from 1 ks = Some k → (-1 ∈ args → 0 < k) →
  ∃ r, reshape s args = Some r ∧ (∀ d, r = Ok d ↔ reshaped s args d) ∧
    (∀ e, r = Err e → ∃ m, e = Invalid m).
Proof.
  intros Hs Hn Hks Hk Hpos.
  destruct (split_nonneg args) as (l1 & rest & -> & Hl1 & [->|(a & r & -> & Ha)]).
  { rewrite app_nil_r in *. by eapply reshape_exact. }
  destruct (decide (a = -1)) as [->|Ha1]; [|eapply reshape_refused; try done; lia].
  destruct (split_nonneg r) as (l2 & rest & -> & Hl2 & [->|(a & r2 & -> & Ha2)]).
  - rewrite app_nil_r in *. eapply reshape_infer; try done.
    + rewrite (num_elements_inv _ _ Hn). by apply prod_Z_nonneg.
    + apply Hpos, elem_of_app. right. by left.
  - by eapply reshape_twice.
Qed.
Lemma reshape_correct_witness :
  ∃ r, reshape [2; 3; 4] [0; -1] = Some r ∧ r = Ok [2; 12] ∧
    (∀ d, r = Ok d ↔ reshaped [2; 3; 4] [0; -1] d).
Proof.
  destruct (reshape_correct [2; 3; 4] [0; -1] [2; 1] 2 24) as (r & Hr & Hd & _);
    [repeat constructor; lia|done|done|done|lia|].
  exists r. split; [done|]. split; [|done]. by injection Hr as <-.
Defined.

(** An empty dimension kept by a 0 next to one to infer.  Whatever the
    other arguments are, nothing can be inferred from the size of an empty
    shape: [reshape] does not answer with an error but divides by zero. *)
Theorem reshape_empty_panics (s : Shape) (ks : Shape) (l1 l2 : list Z) :
  num_elements s = Some 0 → Forall (Z.le 0) l1 → Forall (Z.le 0) l2 →
  known_from s 0 (l1 ++ -1 :: l2) = Some ks → product_from 1 ks = Some 0 →
  reshape s (l1 ++ -1 :: l2) = None.
Proof.
  intros Hn Hl1 Hl2 Hks Hk.
  apply known_from_app in Hks as (k1 & k' & -> & Hk1 & Hlen & Hk').
  rewrite known_from_neg in Hk' by lia. cbn [Nat.add] in Hk'. apply bind_Some in Hk' as (k2 & Hk2 & [= <-]).
  rewrite product_from_app in Hk. apply bind_Some in Hk as (p1 & Hp1 & Hp2%product_from_one).
  unfold reshape. rewrite (reshape_loop_nonneg _ _ _ _ _ _ _ _ _ Hl1 Hk1 Hp1). cbn.
  rewrite <- (app_nil_r l2), (reshape_loop_nonneg _ _ _ _ _ _ _ _ _ Hl2 Hk2 Hp2).
  cbn. by rewrite Hn.
Qed.
Lemma reshape_empty_panics_witness : reshape [0; 3] [0; -1] = None.
Proof. apply (reshape_empty_panics [0; 3] [0; 1] [0] []); try done; repeat constructor; lia. Defined.

(** ** Broadcasting *)

(** A dimension that expands to another. *)
Definition dim_le (a b : Z) : Prop := a = b ∨ a = 1.
#[global] Instance dim_le_preorder : PreOrder dim_le.
Proof.
  split; [by left|]. intros a b c [-> | ->] [-> | ->]; unfold dim_le; tauto.
Qed.

Lemma dim_le_refl l : Forall2 dim_le l l.
Proof. induction l; constructor; [by left|done]. Qed.
Lemma dim_le_antisym l k : Forall2 dim_le l k → Forall2 dim_le k l → l = k.
Proof.
  induction 1 as [|a b l k Hab Hlk IH]; [done|]. intros [Hba Hkl]%Forall2_cons.
  f_equal; [destruct Hab, Hba; congruence|by apply IH].
Qed.
Lemma expand_loop_None target self i r :
  length self = length target →
  expand_loop target self i r = None ↔ Forall2 dim_le self target.
Proof.
  revert self i. induction target as [|t target IH]; intros [|a self] i Hlen; try done; cbn.
  rewrite Forall2_cons. unfold dim_le at 1. case_decide as Hd.
  - split; [done|]. intros [[]]; tauto.
  - rewrite IH by (cbn in Hlen; lia). destruct (decide (a = t)), (decide (a = 1)); tauto.
Qed.
(** Expanding within one rank. *)
Lemma expand_same_rank s d : rank s = rank d → expand s d = Ok d ↔ Forall2 dim_le s d.
Proof.
  unfold rank. intros Hr. unfold expand, rank. rewrite decide_False by lia.
  pose proof (expand_loop_None (reverse d) (reverse s) 0 (length d)
    ltac:(by rewrite !length_reverse)) as Hl.
  assert (Forall2 dim_le s d ↔ Forall2 dim_le (reverse s) (reverse d)) as ->.
  { split; [apply Forall2_reverse|]. intros HF%Forall2_reverse.
    by rewrite !reverse_involutive in HF. }
  rewrite <- Hl. by destruct (expand_loop _ _ _ _).
Qed.

Lemma broadcast_dims_spec lhs rhs i :
  length lhs = length rhs →
  match broadcast_dims lhs rhs i with
  | Ok b => Forall2 dim_le lhs b ∧ Forall2 dim_le rhs b ∧
      ∀ d, Forall2 dim_le lhs d → Forall2 dim_le rhs d → Forall2 dim_le b d
  | Err _ => ∀ d, Forall2 dim_le lhs d → ¬ Forall2 dim_le rhs d
  end.
Proof.
  revert rhs i. induction lhs as [|a lhs IH]; intros [|b rhs] i Hlen; try done; cbn.
  specialize (IH rhs (S i) ltac:(cbn in Hlen; lia)).
  unfold dim_le in *. repeat case_decide; subst.
  4: { intros [|x d] Ha Hb; [inversion Ha|]. apply Forall2_cons in Ha, Hb. lia. }
  all: destruct (broadcast_dims lhs rhs (S i)) as [m|e]; cbn;
    [destruct IH as (Hl & Hr & Hlub); split_and!; [constructor; tauto..|]
    |]; intros [|x d] Ha Hb; try (by inversion Ha);
    apply Forall2_cons in Ha as [Hax Ha], Hb as [Hbx Hb].
  all: try (constructor; [tauto|by apply Hlub]); by eapply IH.
Qed.

(** One rank, and every shape expands to [d]. *)
Definition expand_to (d : Shape) (shapes : list Shape) : Prop :=
  Forall (λ s, rank s = rank d ∧ expand s d = Ok d) shapes.
Lemma expand_to_le d shapes :
  expand_to d shapes ↔ Forall (λ s, Forall2 dim_le s d) shapes.
Proof.
  unfold expand_to. apply Forall_proper; [|done]. intros s. split.
  - intros [Hr He]. by apply expand_same_rank in He.
  - intros HF. assert (rank s = rank d) as Hr by by eapply Forall2_length.
    split; [done|]. by apply expand_same_rank.
Qed.

Lemma broadcast_loop_spec b shapes :
  match broadcast_loop b (rank b) shapes with
  | Ok d => Forall (λ s, Forall2 dim_le s d) (b :: shapes) ∧
      ∀ d', Forall (λ s, Forall2 dim_le s d') (b :: shapes) → Forall2 dim_le d d'
  | Err _ => ∀ d, ¬ Forall (λ s, Forall2 dim_le s d) (b :: shapes)
  end.
Proof.
  revert b. induction shapes as [|s shapes IH]; intros b; cbn.
  { split; [by constructor; [apply dim_le_refl|constructor]|]. by intros d [Hd _]%Forall_cons. }
  case_decide as Hr.
  { intros d [Hb [Hs _]%Forall_cons]%Forall_cons. apply Hr. unfold rank.
    by rewrite (Forall2_length _ _ _ Hb), (Forall2_length _ _ _ Hs). }
  unfold rank in Hr.
  pose proof (broadcast_dims_spec b s 0 ltac:(done)) as Hb.
  destruct (broadcast_dims b s 0) as [m|e].
  - destruct Hb as (Hbm & Hsm & Hlub). specialize (IH m).
    assert (rank m = rank b) as Hm by (symmetry; by eapply Forall2_length).
    rewrite Hm in IH. destruct (broadcast_loop m (rank b) shapes) as [d|e].
    + destruct IH as [[Hmd Hall]%Forall_cons Hd]. split.
      * constructor; [|constructor]; [by etrans| |done]. by etrans.
      * intros d' [Hb' [Hs' Hall']%Forall_cons]%Forall_cons. apply Hd.
        constructor; [by apply Hlub|done].
    + intros d [Hb' [Hs' Hall']%Forall_cons]%Forall_cons. apply (IH d).
      constructor; [by apply Hlub|done].
  - intros d [Hb' [Hs' _]%Forall_cons]%Forall_cons. by apply (Hb d).
Qed.

(** Broadcasting is the least upper bound for expansion.  The shape
    answered is one every input expands to, and that expands to any other such
    shape; an error means that there is no such shape at all, or no input. *)
Theorem broadcast_many_least (shapes : list Shape) :
  match broadcast_many shapes with
  | Ok d => shapes ≠ [] ∧ expand_to d shapes ∧
      ∀ d', expand_to d' shapes → rank d = rank d' ∧ expand d d' = Ok d'
  | Err _ => shapes = [] ∨ ∀ d, ¬ expand_to d shapes
  end.
Proof.
  destruct shapes as [|b shapes]; [by left|]. cbn [broadcast_many].
  pose proof (broadcast_loop_spec b shapes) as Hl.
  destruct (broadcast_loop b (rank b) shapes) as [d|e].
  - destruct Hl as [Hall Hlub]. split; [done|]. split; [by apply expand_to_le|].
    intros d' Hd'%expand_to_le%Hlub. assert (rank d = rank d') as Hr by by eapply Forall2_length.
    split; [done|]. by apply expand_same_rank.
  - right. intros d Hd%expand_to_le. by apply (Hl d).
Qed.

(** The shape of a matrix product.  Shapes of one rank of at least two are
    batches of matrices: the inner dimensions must be equal, the batches are
    broadcast and the outer dimensions follow; each way it can fail is the
    error named.  Shapes of one rank below two are not refused: they panic. *)
Theorem matmul_output_correct (lhs rhs : Shape) (m k k' n : Z) :
  calculate_matmul_output (lhs ++ [m; k]) (rhs ++ [k'; n]) = Some (
    if decide (rank lhs = rank rhs) then
      if decide (k = k')
      then result_map (λ b, b ++ [m; n]) (broadcast lhs rhs)
      else Err (IncompatibleShapes (lhs ++ [m; k]) (rhs ++ [k'; n]))
    else Err (RankMismatch (rank lhs + 2) (rank rhs + 2))) ∧
  ∀ s t, rank s = rank t → (rank s < 2)%nat → calculate_matmul_output s t = None.
Proof.
  split.
  - unfold calculate_matmul_output, rank. rewrite !length_app; cbn [length].
    destruct (decide (length lhs = length rhs)) as [Hr|Hr].
    2: { rewrite decide_True by lia. done. }
    rewrite (decide_False (P := _ ≠ _)) by lia. unfold sub_usize.
    rewrite (decide_True (P := (1 <= _)%nat)) by lia. cbn [mbind option_bind].
    rewrite (decide_True (P := (2 <= _)%nat)) by lia. cbn [mbind option_bind].
    replace (length lhs + 2 - 1)%nat with (S (length lhs)) by lia.
    replace (length lhs + 2 - 2)%nat with (length lhs) by lia.
    assert (∀ (l : list Z) a b, (l ++ [a; b]) !! S (length l) = Some b) as Hl1.
    { intros. rewrite lookup_app_r by lia. by replace (S (length l) - length l)%nat with 1%nat by lia. }
    assert (∀ (l : list Z) a b, (l ++ [a; b]) !! length l = Some a) as Hl0 by (intros; apply lookup_middle).
    assert ((rhs ++ [k'; n]) !! length lhs = Some k') as -> by by rewrite Hr.
    assert ((rhs ++ [k'; n]) !! S (length lhs) = Some n) as -> by by rewrite Hr.
    assert (take (length lhs) (rhs ++ [k'; n]) = rhs) as -> by by apply take_app_length'.
    rewrite Hl1, Hl0, take_app_length. cbn [mbind option_bind].
    destruct (decide (k ≠ k')) as [Hk|Hk]; [by rewrite decide_False|].
    apply dec_stable in Hk. rewrite (decide_True (P := k = k')) by done.
    case_decide as H2.
    + unfold try_bind; cbn [mbind option_bind]. by destruct (broadcast lhs rhs).
    + destruct lhs, rhs; cbn in H2, Hr; try lia. done.
  - intros s t Hr H2. unfold calculate_matmul_output. rewrite decide_False by lia.
    destruct s as [|a [|b s]], t as [|a' [|b' t]]; cbn in Hr, H2; try lia; done.
Qed.

(** ** Concatenation *)

(** The shape with [k] between [pre] and [post]. *)
Definition with_dim (pre post : Shape) (k : Z) : Shape := pre ++ k :: post.

Lemma with_dim_split s dim k : s !! dim = Some k → s = with_dim (take dim s) (drop (dim + 1) s) k.
Proof. intros Hk. unfold with_dim. rewrite Nat.add_1_r. symmetry. by apply take_drop_middle. Qed.
Lemma with_dim_parts pre post k :
  take (length pre) (with_dim pre post k) = pre ∧
  drop (length pre + 1) (with_dim pre post k) = post ∧
  with_dim pre post k !! length pre = Some k ∧
  rank (with_dim pre post k) = (length pre + S (length post))%nat.
Proof.
  unfold with_dim, rank. split_and!; [apply take_app_length| |apply lookup_middle|by rewrite length_app].
  rewrite Nat.add_1_r. change (k :: post) with ([k] ++ post). rewrite app_assoc.
  rewrite drop_app_length'; [done|]. rewrite length_app; cbn; lia.
Qed.

Lemma cat_loop_Some pre post k sizes :
  0 <= k → Forall (Z.le 0) sizes → k + sum_Z sizes <= u64_max →
  cat_loop (with_dim pre post k) (with_dim pre post <$> sizes) (length pre) =
    Some (Ok (with_dim pre post (k + sum_Z sizes))).
Proof.
  intros Hk Hs. revert k Hk. induction Hs as [|x sizes Hx Hs IH]; intros k Hk Hb; cbn [fmap list_fmap cat_loop].
  { by rewrite Z.add_0_r. }
  rewrite sum_Z_cons in *. pose proof (sum_Z_nonneg sizes Hs).
  destruct (with_dim_parts pre post k) as (Ht & Hd & Hl & Hr).
  destruct (with_dim_parts pre post x) as (Htx & Hdx & Hlx & Hrx).
  rewrite Ht, Hd, Hl, Hr, Htx, Hdx, Hlx, Hrx. rewrite !decide_False by tauto. cbn.
  rewrite add_u64_Some by lia. cbn. unfold with_dim at 1. rewrite insert_middle.
  fold (with_dim pre post (k + x)). rewrite IH by lia. by rewrite Z.add_assoc.
Qed.
Lemma cat_loop_inv pre post k shapes d :
  cat_loop (with_dim pre post k) shapes (length pre) = Some (Ok d) →
  ∃ sizes, shapes = with_dim pre post <$> sizes ∧ d = with_dim pre post (k + sum_Z sizes) ∧
    (Forall (Z.le 0) sizes → 0 <= k → sizes = [] ∨ k + sum_Z sizes <= u64_max).
Proof.
  revert k. induction shapes as [|s shapes IH]; intros k; cbn [cat_loop].
  { intros [= <-]. exists []. cbn. rewrite Z.add_0_r. split_and!; [done|done|by left]. }
  destruct (with_dim_parts pre post k) as (Ht & Hd & Hl & Hr). rewrite Ht, Hd, Hl.
  case_decide as Hrk; [done|]. case_decide as Heq; [done|].
  intros (a & [= <-] & (x & Hx & (y & [-> Hb]%add_u64_inv & Hc)%bind_Some)%bind_Some)%bind_Some.
  unfold with_dim at 1 in Hc. rewrite insert_middle in Hc. apply IH in Hc as (sizes & -> & -> & Hs).
  exists (x :: sizes). rewrite sum_Z_cons. split_and!; cbn [fmap list_fmap].
  - f_equal. apply with_dim_split in Hx. rewrite Hx.
    f_equal; apply dec_stable; tauto.
  - f_equal. lia.
  - intros Hs0 Hk0. right. apply Forall_cons in Hs0 as [Hx0 Hs0].
    destruct (Hs Hs0 ltac:(lia)) as [->|Hs']; cbn; lia.
Qed.
Lemma sum_prod pre post sizes :
  prod_Z (with_dim pre post (sum_Z sizes)) = sum_Z (prod_Z <$> (with_dim pre post <$> sizes)).
Proof.
  unfold with_dim. induction sizes as [|k sizes IH]; rewrite prod_Z_app, prod_Z_cons in *.
  { cbn. ring. }
  cbn [fmap list_fmap]. rewrite !sum_Z_cons, <- IH, prod_Z_app, prod_Z_cons. ring.
Qed.

(** Concatenation.  It succeeds exactly on shapes that differ in the one
    dimension only, whose sizes it adds, and whose sum fits in a [usize]; the
    result has the elements of all the inputs together. *)
Theorem cat_correct (shapes : list Shape) (dim : nat) (d : Shape) :
  Forall (Forall is_u64) shapes →
  (cat shapes dim = Some (Ok d) ↔
    ∃ pre post sizes, sizes ≠ [] ∧ length pre = dim ∧ shapes = with_dim pre post <$> sizes ∧
      d = with_dim pre post (sum_Z sizes) ∧ sum_Z sizes <= u64_max) ∧
  (cat shapes dim = Some (Ok d) → prod_Z d = sum_Z (prod_Z <$> shapes)).
Proof.
  intros Hall.
  assert (∀ pre post sizes, shapes = with_dim pre post <$> sizes → Forall is_u64 sizes) as Hu.
  { intros pre post sizes ->. rewrite Forall_fmap in Hall. eapply Forall_impl; [exact Hall|].
    intros k Hk. cbn in Hk. unfold with_dim in Hk. by apply Forall_app in Hk as [_ [Hk _]%Forall_cons]. }
  assert (cat shapes dim = Some (Ok d) →
    ∃ pre post sizes, sizes ≠ [] ∧ length pre = dim ∧ shapes = with_dim pre post <$> sizes ∧
      d = with_dim pre post (sum_Z sizes) ∧ sum_Z sizes <= u64_max) as Hinv.
  { unfold cat. destruct shapes as [|s shapes]; [done|]. case_decide as Hd; [done|].
    unfold rank in Hd. destruct (lookup_lt_is_Some_2 s dim ltac:(lia)) as [k Hk].
    pose proof (with_dim_split _ _ _ Hk) as Hs. set (pre := take dim s) in Hs.
    set (post := drop (dim + 1) s) in Hs. intros Hc.
    assert (length pre = dim) as Hlen by (unfold pre; rewrite length_take; lia).
    rewrite Hs, <- Hlen in Hc. apply cat_loop_inv in Hc as (sizes & Heq & -> & Hb).
    exists pre, post, (k :: sizes).
    assert (s :: shapes = with_dim pre post <$> k :: sizes) as He by (cbn; by rewrite <- Hs, Heq).
    split_and!; [done|done|done|done|]. apply Hu in He. apply Forall_cons in He as [Hk0 Hs0].
    unfold is_u64 in Hk0. rewrite sum_Z_cons. destruct Hb as [->|Hb]; [|lia|cbn; lia|done].
    eapply Forall_impl; [exact Hs0|]. unfold is_u64. lia. }
  split; [split; [done|]|].
  - intros (pre & post & sizes & Hne & <- & Heq & -> & Hb).
    pose proof (Hu _ _ _ Heq) as Hs. subst shapes. destruct sizes as [|k sizes]; [done|].
    cbn [fmap list_fmap cat]. destruct (with_dim_parts pre post k) as (_ & _ & _ & Hr).
    rewrite decide_False by lia. rewrite sum_Z_cons in *.
    apply Forall_cons in Hs as [Hk Hs]. unfold is_u64 in Hk. apply cat_loop_Some; [lia| |done].
    eapply Forall_impl; [exact Hs|]. unfold is_u64. lia.
  - intros (pre & post & sizes & _ & _ & -> & -> & _)%Hinv. apply sum_prod.
Qed.
Lemma cat_correct_witness :
  cat [[2; 3]; [2; 4]] 1 = Some (Ok [2; 7]) ∧ prod_Z [2; 7] = 6 + 8.
Proof.
  destruct (cat_correct [[2; 3]; [2; 4]] 1 [2; 7]) as [[_ Hcat] Hprod].
  { repeat constructor; lia. }
  assert (cat [[2; 3]; [2; 4]] 1 = Some (Ok [2; 7])) as Hok.
  { apply Hcat. exists [2], [], [3; 4]. split_and!; [done|done|done|done|cbn; lia]. }
  split; [done|]. by rewrite (Hprod Hok).
Defined.

(** ** Flattening *)

(** Flattening a range of dimensions, given by indices that may count from
    the end, puts one dimension of as many elements in their place; nothing
    else changes, so that the number of elements is the same. *)
Theorem flatten_dims_correct (a b c : Shape) (start_dim end_dim n : Z) :
  b ≠ [] → Z.of_nat (length (a ++ b ++ c)) <= isize_max →
  let r := Z.of_nat (length (a ++ b ++ c)) in
  start_dim = Z.of_nat (length a) ∨ start_dim = Z.of_nat (length a) - r →
  end_dim = Z.of_nat (length (a ++ b)) - 1 ∨ end_dim = Z.of_nat (length (a ++ b)) - 1 - r →
  num_elements b = Some n →
  flatten_dims (a ++ b ++ c) start_dim end_dim = Some (a ++ n :: c) ∧
  prod_Z (a ++ n :: c) = prod_Z (a ++ b ++ c).
Proof.
  intros Hb Hlen r Hstart Hend Hn. split.
  2: { apply num_elements_inv in Hn as ->. rewrite !prod_Z_app, prod_Z_cons. ring. }
  assert (0 < length b)%nat as Hb0 by (destruct b; [done|cbn; lia]).
  unfold r in *. rewrite !length_app in *. unfold flatten_dims, rank. rewrite !length_app.
  assert (∀ i j, (i = j ∨ i = j - Z.of_nat (length a + (length b + length c))) →
    0 <= j < Z.of_nat (length a + (length b + length c)) →
    expect_dim i (Z.of_nat (length a + (length b + length c))) = Some j) as He.
  { intros i j Hij Hj. unfold expect_dim, wrapper_expect_wrap, expect_wrap. cbn.
    rewrite try_wrap_in by (unfold is_isize; lia). cbn. f_equal. unfold wrapped. case_decide; lia. }
  rewrite (He _ _ Hstart) by lia. cbn [mbind option_bind]. rewrite (He _ _ Hend) by lia.
  cbn [mbind option_bind]. rewrite decide_True by lia.
  replace (Z.to_nat (Z.of_nat (length a))) with (length a) by lia.
  replace (Z.to_nat (Z.of_nat (length a + length b) - 1) + 1)%nat with (length a + length b)%nat by lia.
  rewrite drop_app_length, take_app_length.
  replace (length a + length b - length a)%nat with (length b) by lia. rewrite take_app_length.
  unfold num_elements in Hn. rewrite Hn. cbn. rewrite app_assoc, drop_app_length'; [done|].
  by rewrite length_app.
Qed.
Lemma flatten_dims_correct_witness :
  flatten_dims [2; 3; 4; 5] 1 (-2) = Some [2; 12; 5] ∧ prod_Z [2; 12; 5] = prod_Z [2; 3; 4; 5].
Proof.
  apply (flatten_dims_correct [2] [3; 4] [5] 1 (-2) 12); cbn; try done; lia.
Defined.
