(* ===== verification/ShapeText.v ===== *)
(** * The text of a shape

    [Display] and [FromStr] of [Shape] in [cubecl-zspace/src/shape.rs].  Texts
    are lists of characters of [ascii]: a text outside of it, where Rust's
    [trim] knows more white space, is not covered. *)

From S2P Require Export Shape.
From stdpp Require Import list strings.
From Stdlib Require Import Ascii.
#[local] Open Scope Z_scope.

Abbreviation text := (list ascii) (only parsing).
Inductive ExpressionError :=
| ParseError (message : string) (source : text)
| InvalidExpression (message : string) (source : text).

Definition code (c : ascii) : Z := Z.of_nat (nat_of_ascii c).
Definition char (n : Z) : ascii := ascii_of_nat (Z.to_nat n).

(** [char::is_whitespace] and [str::trim] on [ascii]. *)
Definition is_whitespace (c : ascii) : bool := (9 <=? code c) && (code c <=? 13) || (code c =? 32).
Fixpoint trim_start (s : text) : text :=
  match s with [] => [] | c :: s' => if is_whitespace c then trim_start s' else s end.
Definition trim (s : text) : text := reverse (trim_start (reverse (trim_start s))).

Definition strip_prefix (c : ascii) (s : text) : option text :=
  match s with x :: s => if decide (x = c) then Some s else None | [] => None end.
Definition strip_suffix (c : ascii) (s : text) : option text :=
  reverse <$> strip_prefix c (reverse s).

(** [str::split] on one character: always one piece at least. *)
Fixpoint split (c : ascii) (s : text) : list text :=
  match s with
  | [] => [[]]
  | x :: s =>
      if decide (x = c) then [] :: split c s
      else match split c s with p :: ps => (x :: p) :: ps | [] => [[x]] end
  end.

(** [str::parse::<usize>]: an optional plus and at least one digit, without
    overflow. *)
Fixpoint parse_digits (acc : Z) (s : text) : option Z :=
  match s with
  | [] => Some acc
  | c :: s =>
      if (48 <=? code c) && (code c <=? 57) then
        acc ← mul_u64 acc 10; acc ← add_u64 acc (code c - 48); parse_digits acc s
      else None
  end.
Definition parse_usize (s : text) : option Z :=
  match s with
  | [] => None
  | c :: s' =>
      if decide (code c = 43) then if decide (s' = []) then None else parse_digits 0 s'
      else parse_digits 0 s
  end.

(** The loop over [DELIMS]. *)
Fixpoint strip_delims (delims : list (ascii * ascii)) (s : text) : option text :=
  match delims with
  | [] => Some s
  | (open, close) :: delims =>
      match strip_prefix open s with
      | Some p => trim <$> strip_suffix close p
      | None => strip_delims delims s
      end
  end.
Definition DELIMS : list (ascii * ascii) := [("[", "]"); ("(", ")")]%char.
Definition from_str (source : text) : result Shape ExpressionError :=
  match strip_delims DELIMS (trim source) with
  | None => Err (ParseError "Unbalanced delimiters" source)
  | Some [] => Ok []
  | Some s =>
      match mapM (λ dim, parse_usize (trim dim)) (split ","%char s) with
      | Some dims => Ok dims
      | None => Err (ParseError "Unable to parse shape" source)
      end
  end.

(** Formatting: the decimal digits of a [usize], of which there are at most
    twenty, and the list of dimensions in brackets. *)
Fixpoint digits (fuel : nat) (n : Z) : text :=
  match fuel with
  | O => []
  | S fuel => (if decide (n < 10) then [] else digits fuel (n / 10)) ++ [char (48 + n mod 10)]
  end.
Definition fmt_usize (n : Z) : text := digits 20 n.
Fixpoint fmt_dims (s : Shape) : text :=
  match s with
  | [] => []
  | [d] => fmt_usize d
  | d :: s => fmt_usize d ++ [","; " "]%char ++ fmt_dims s
  end.
Definition fmt_shape (s : Shape) : text := "["%char :: fmt_dims s ++ ["]"%char].

Example fmt_ex : fmt_shape [2; 34; 0] = String.list_ascii_of_string "[2, 34, 0]".
Proof. reflexivity. Qed.
Example from_str_ex :
  from_str (String.list_ascii_of_string " ( 2 ,+3,4 ) ") = Ok [2; 3; 4]
  ∧ from_str (String.list_ascii_of_string "[1)") = Err (ParseError "Unbalanced delimiters" (String.list_ascii_of_string "[1)")).
Proof. split; reflexivity. Qed.

(** ** Characters of a formatted shape *)
Definition is_digit (c : ascii) : Prop := 48 <= code c <= 57.

Lemma code_char n : 0 <= n < 256 → code (char n) = n.
Proof. intros. unfold code, char. rewrite nat_ascii_embedding; lia. Qed.
Lemma digits_all fuel n : 0 <= n → Forall is_digit (digits fuel n).
Proof.
  revert n. induction fuel as [|fuel IH]; intros n Hn; cbn [digits]; [constructor|].
  pose proof (Z.mod_pos_bound n 10 ltac:(lia)). apply Forall_app. split.
  - case_decide; [constructor|]. apply IH, Z.div_pos; lia.
  - repeat constructor; rewrite code_char; lia.
Qed.
Lemma fmt_usize_nonempty n : fmt_usize n ≠ [].
Proof. unfold fmt_usize. cbn [digits]. by intros [_ ?]%app_nil. Qed.
Lemma digit_not_space c : is_digit c → is_whitespace c = false.
Proof.
  unfold is_digit, is_whitespace. intros H.
  destruct (Z.leb_spec 9 (code c)), (Z.leb_spec (code c) 13), (Z.eqb_spec (code c) 32); try done; lia.
Qed.
Lemma digit_not (c x : ascii) : is_digit c → ¬ is_digit x → c ≠ x.
Proof. by intros Hc Hx ->. Qed.

Lemma parse_digits_app acc s c :
  parse_digits acc (s ++ [c]) = (acc ← parse_digits acc s; parse_digits acc [c]).
Proof.
  revert acc. induction s as [|x s IH]; intros acc; [done|]. cbn [app parse_digits].
  destruct ((48 <=? code x) && (code x <=? 57)); [|done].
  destruct (mul_u64 acc 10) as [m|]; [|done]. cbn [mbind option_bind].
  destruct (add_u64 m (code x - 48)); [|done]. apply IH.
Qed.
Lemma parse_digits_digits fuel n :
  0 <= n <= u64_max → n < 10 ^ Z.of_nat fuel → parse_digits 0 (digits fuel n) = Some n.
Proof.
  revert n. induction fuel as [|fuel IH]; intros n Hn Hf; cbn [digits].
  { cbn in Hf. assert (n = 0) as -> by lia. done. }
  pose proof (Z.mod_pos_bound n 10 ltac:(lia)). pose proof (Z.div_mod n 10 ltac:(lia)).
  rewrite Nat2Z.inj_succ, Z.pow_succ_r in Hf by lia.
  assert (parse_digits 0 (if decide (n < 10) then [] else digits fuel (n / 10)) = Some (n / 10)) as Hd.
  { case_decide; [cbn; rewrite Z.div_small by lia; done|].
    apply IH; [split; [apply Z.div_pos; lia|]|]; [|apply Z.div_lt_upper_bound; lia]. lia. }
  rewrite parse_digits_app, Hd. cbn [mbind option_bind parse_digits].
  rewrite code_char by lia.
  destruct (Z.leb_spec 48 (48 + n mod 10)), (Z.leb_spec (48 + n mod 10) 57); try lia. cbn [andb].
  rewrite mul_u64_Some by lia. cbn [mbind option_bind]. rewrite add_u64_Some by lia.
  cbn [mbind option_bind]. f_equal. lia.
Qed.
Lemma parse_fmt n : is_u64 n → parse_usize (fmt_usize n) = Some n.
Proof.
  unfold is_u64. intros Hn. pose proof (digits_all 20 n ltac:(lia)) as Hall.
  pose proof (parse_digits_digits 20 n Hn) as Hp. pose proof (fmt_usize_nonempty n) as Hne.
  unfold fmt_usize in *. destruct (digits 20 n) as [|c s]; [done|].
  apply Forall_cons in Hall as [Hc _]. unfold parse_usize. unfold is_digit in Hc.
  rewrite decide_False by lia. apply Hp. change (10 ^ Z.of_nat 20) with 100000000000000000000. lia.
Qed.

(** ** Trimming and splitting *)
Definition solid (s : text) : Prop := Forall (λ c, is_whitespace c = false) s.

Lemma trim_start_solid c s : is_whitespace c = false → trim_start (c :: s) = c :: s.
Proof. intros Hc. cbn. by rewrite Hc. Qed.
(** Only the two ends matter. *)
Lemma trim_ends a s b :
  is_whitespace a = false → is_whitespace b = false → trim (a :: s ++ [b]) = a :: s ++ [b].
Proof.
  intros Ha Hb. unfold trim. rewrite trim_start_solid by done.
  change (a :: s ++ [b]) with ((a :: s) ++ [b]). rewrite reverse_app.
  change (reverse [b] ++ reverse (a :: s)) with (b :: reverse (a :: s)).
  rewrite trim_start_solid by done. by rewrite reverse_cons, reverse_involutive.
Qed.
Lemma trim_solid s : solid s → trim s = s.
Proof.
  unfold solid. intros Hs. destruct s as [|a s]; [done|]. apply Forall_cons in Hs as [Ha Hs].
  destruct s as [|b s _] using rev_ind; [unfold trim; by rewrite trim_start_solid; cbn; rewrite ?Ha|].
  apply Forall_app in Hs as [_ [Hb _]%Forall_cons]. by apply trim_ends.
Qed.
Lemma trim_space s : trim (" "%char :: s) = trim s.
Proof. done. Qed.

Lemma split_none c s : c ∉ s → split c s = [s].
Proof.
  induction s as [|x s IH]; intros Hc; [done|]. apply not_elem_of_cons in Hc as [Hx Hs].
  cbn [split]. rewrite decide_False by done. by rewrite IH.
Qed.
Lemma split_sep c s rest : c ∉ s → split c (s ++ c :: rest) = s :: split c rest.
Proof.
  induction s as [|x s IH]; intros Hc; cbn [app split].
  { by rewrite decide_True. }
  apply not_elem_of_cons in Hc as [Hx Hs]. rewrite decide_False by done. by rewrite IH.
Qed.

Lemma fmt_digits d : is_u64 d → Forall is_digit (fmt_usize d).
Proof. unfold is_u64. intros. apply digits_all. lia. Qed.
Lemma fmt_solid d : is_u64 d → solid (fmt_usize d).
Proof. intros. eapply Forall_impl; [by apply fmt_digits|]. apply digit_not_space. Qed.
Lemma fmt_no x d : is_u64 d → ¬ is_digit x → x ∉ fmt_usize d.
Proof.
  intros Hd Hx Hin. pose proof (fmt_digits d Hd) as Hall. rewrite Forall_forall in Hall.
  by apply Hx, Hall.
Qed.
Lemma comma_not_digit : ¬ is_digit ","%char.
Proof. unfold is_digit. by vm_compute; intros [Hc _]; apply Hc. Qed.

Definition parse_dims (s : text) : option Shape :=
  mapM (λ dim, parse_usize (trim dim)) (split ","%char s).
Lemma parse_dims_fmt s lead :
  s ≠ [] → Forall is_u64 s → lead = [] ∨ lead = [" "%char] → parse_dims (lead ++ fmt_dims s) = Some s.
Proof.
  intros Hne Hs. revert lead. induction Hs as [|d s Hd Hs IH]; intros lead Hl; [done|].
  assert (∀ p, trim (lead ++ p) = trim p) as Htrim.
  { intros p. destruct Hl as [-> | ->]; [done|]. apply trim_space. }
  assert (","%char ∉ lead ++ fmt_usize d) as Hno.
  { intros [Hin|Hin]%elem_of_app; [|by apply (fmt_no _ d Hd comma_not_digit)].
    destruct Hl as [-> | ->]; [by apply elem_of_nil in Hin|]. by apply list_elem_of_singleton in Hin. }
  unfold parse_dims. destruct s as [|e s].
  - cbn [fmt_dims]. rewrite split_none by done. cbn [mapM].
    rewrite Htrim, trim_solid, parse_fmt by (done || by apply fmt_solid). done.
  - specialize (IH ltac:(done) [" "%char] ltac:(by right)). unfold parse_dims in IH.
    change (fmt_dims (d :: e :: s)) with (fmt_usize d ++ ","%char :: [" "%char] ++ fmt_dims (e :: s)).
    rewrite app_assoc, split_sep by done. cbn [mapM].
    rewrite Htrim, trim_solid, parse_fmt by (done || by apply fmt_solid). cbn [mbind option_bind].
    by rewrite IH.
Qed.

(** The dimensions start and end with a digit. *)
Lemma fmt_dims_ends s :
  s ≠ [] → Forall is_u64 s →
  (∃ a l, fmt_dims s = a :: l ∧ is_digit a) ∧ (∃ l b, fmt_dims s = l ++ [b] ∧ is_digit b).
Proof.
  intros Hne Hs.
  assert (∀ d, is_u64 d → (∃ a l, fmt_usize d = a :: l ∧ is_digit a) ∧
    (∃ l b, fmt_usize d = l ++ [b] ∧ is_digit b)) as Hd.
  { intros d Hd. pose proof (fmt_digits d Hd) as Hall. pose proof (fmt_usize_nonempty d) as Hn. split.
    - destruct (fmt_usize d) as [|a l]; [done|]. apply Forall_cons in Hall as []. by exists a, l.
    - destruct (fmt_usize d) as [|b l _] using rev_ind; [done|].
      apply Forall_app in Hall as [_ [Hb _]%Forall_cons]. by exists l, b. }
  induction Hs as [|d s Hu Hs IH]; [done|]. destruct (Hd d Hu) as [(a & l & Ha & Hda) (l' & b & Hb & Hdb)].
  destruct s as [|e s].
  - split; [by exists a, l|by exists l', b].
  - destruct (IH ltac:(done)) as [_ (l2 & b2 & He & Hb2)].
    change (fmt_dims (d :: e :: s)) with (fmt_usize d ++ [","; " "]%char ++ fmt_dims (e :: s)). split.
    + rewrite Ha. by eexists a, _.
    + rewrite He. exists (fmt_usize d ++ [","; " "]%char ++ l2), b2. by rewrite <- !app_assoc.
Qed.
Lemma trim_fmt_dims s : Forall is_u64 s → trim (fmt_dims s) = fmt_dims s.
Proof.
  intros Hs. destruct (decide (s = [])) as [->|Hne]; [done|].
  destruct (fmt_dims_ends s Hne Hs) as [(a & l & Ha & Hda) (l' & b & Hb & Hdb)].
  rewrite Ha in *. destruct l as [|x l _] using rev_ind.
  { apply trim_solid. repeat constructor. by apply digit_not_space. }
  rewrite app_comm_cons in Hb. apply app_inj_tail in Hb as [_ ->].
  apply trim_ends; by apply digit_not_space.
Qed.

Lemma from_str_dims source s :
  Forall is_u64 s → strip_delims DELIMS (trim source) = Some (fmt_dims s) → from_str source = Ok s.
Proof.
  intros Hs Hd. unfold from_str. rewrite Hd.
  destruct (decide (s = [])) as [->|Hne]; [done|].
  pose proof (parse_dims_fmt s [] Hne Hs (or_introl eq_refl)) as Hp. cbn [app] in Hp.
  unfold parse_dims in Hp. rewrite Hp.
  by destruct (fmt_dims_ends s Hne Hs) as [(a & l & -> & _) _].
Qed.
Lemma strip_suffix_end c s : strip_suffix c (s ++ [c]) = Some s.
Proof.
  unfold strip_suffix. rewrite reverse_app. change (reverse [c] ++ reverse s) with (c :: reverse s).
  cbn [strip_prefix]. rewrite decide_True by done. cbn. by rewrite reverse_involutive.
Qed.
Lemma not_digit c : bool_decide (48 <= code c <= 57) = false → ¬ is_digit c.
Proof. apply bool_decide_eq_false. Qed.
Lemma trim_delims open close s :
  is_whitespace open = false → is_whitespace close = false →
  trim (open :: fmt_dims s ++ [close]) = open :: fmt_dims s ++ [close].
Proof. apply trim_ends. Qed.

(** ** What is accepted *)
(** The characters a list of dimensions is written with: no bracket is one. *)
Definition dim_char (c : ascii) : Prop := is_digit c ∨ code c = 43 ∨ c = ","%char ∨ is_whitespace c = true.
Lemma bracket_not_dim c : c ∈ ["["; "]"; "("; ")"]%char → ¬ dim_char c.
Proof.
  rewrite !elem_of_cons, elem_of_nil. unfold dim_char, is_digit.
  intros [->|[->|[->|[->|[]]]]] [H|[H|[H|H]]]; try discriminate; by vm_compute in H; destruct H.
Qed.
Lemma parse_digits_chars acc s n : parse_digits acc s = Some n → Forall is_digit s.
Proof.
  revert acc. induction s as [|c s IH]; intros acc; [constructor|]. cbn [parse_digits].
  destruct (Z.leb_spec 48 (code c)) as [Ha|], (Z.leb_spec (code c) 57) as [Hb|]; cbn [andb]; try done.
  intros (m & _ & (k & _ & H%IH)%bind_Some)%bind_Some. constructor; [by split|done].
Qed.
Lemma parse_usize_chars s n : parse_usize s = Some n → Forall dim_char s.
Proof.
  assert (∀ s, Forall is_digit s → Forall dim_char s) as Hd by (intros; eapply Forall_impl; [done|by left]).
  destruct s as [|c s]; cbn [parse_usize]; [done|]. case_decide as Hc; [case_decide; [done|]|]; intros Hp%parse_digits_chars%Hd; [|done].
  constructor; [by right; left|done].
Qed.
Lemma trim_start_chars s : Forall dim_char (trim_start s) → Forall dim_char s.
Proof.
  induction s as [|c s IH]; [done|]. cbn [trim_start]. destruct (is_whitespace c) eqn:Hw; [|done].
  intros H. constructor; [by right; right; right|by apply IH].
Qed.
Lemma trim_chars s : Forall dim_char (trim s) → Forall dim_char s.
Proof. unfold trim. rewrite Forall_reverse. intros H%trim_start_chars. rewrite Forall_reverse in H. by apply trim_start_chars. Qed.
Lemma split_chars s : Forall (Forall dim_char) (split ","%char s) → Forall dim_char s.
Proof.
  induction s as [|c s IH]; [done|]. cbn [split]. case_decide as Hc.
  - intros [_ H]%Forall_cons. constructor; [by right; right; left|by apply IH].
  - destruct (split ","%char s) as [|p ps]; intros [Hp Hps]%Forall_cons; apply Forall_cons in Hp as [Hp1 Hp2]; constructor; auto.
Qed.
Lemma parse_dims_chars s dims : parse_dims s = Some dims → Forall dim_char s.
Proof.
  intros H%mapM_Some. apply split_chars. clear -H. induction H; constructor; [|done]. by eapply trim_chars, parse_usize_chars.
Qed.
Lemma strip_prefix_Some c s p : strip_prefix c s = Some p ↔ s = c :: p.
Proof. destruct s as [|x s]; cbn; [done|]. case_decide; naive_solver. Qed.
Lemma strip_suffix_Some c s p : strip_suffix c s = Some p ↔ s = p ++ [c].
Proof.
  unfold strip_suffix. rewrite fmap_Some. setoid_rewrite strip_prefix_Some. split.
  - intros (r & Hr & ->). by rewrite <- (reverse_involutive s), Hr, reverse_cons.
  - intros ->. exists (reverse p). by rewrite reverse_app, reverse_involutive.
Qed.
Lemma strip_suffix_None c s : strip_suffix c s = None ↔ ¬ ∃ p, s = p ++ [c].
Proof.
  rewrite eq_None_not_Some. split; intros H [p Hp]; apply H; exists p; [by apply strip_suffix_Some|by apply strip_suffix_Some in Hp].
Qed.
(** A text between the brackets of a pair. *)
Definition bracketed (s inner : text) : Prop := s = "["%char :: inner ++ ["]"%char] ∨ s = "("%char :: inner ++ [")"%char].
(** A text that starts with a bracket whose own closing bracket does not end it. *)
Definition left_open (s : text) : Prop :=
  (∃ rest, s = "["%char :: rest ∧ ¬ ∃ inner, rest = inner ++ ["]"%char]) ∨ (∃ rest, s = "("%char :: rest ∧ ¬ ∃ inner, rest = inner ++ [")"%char]).
Lemma strip_delims_cases s :
  match strip_delims DELIMS s with
  | None => left_open s
  | Some r => r = s ∧ ¬ left_open s ∨ ∃ inner, bracketed s inner ∧ r = trim inner
  end.
Proof.
  cbn [strip_delims DELIMS]. unfold left_open, bracketed.
  destruct (strip_prefix "["%char s) as [p|] eqn:E1; [apply strip_prefix_Some in E1 as ->|].
  { destruct (strip_suffix "]"%char p) as [q|] eqn:E2; [apply strip_suffix_Some in E2 as ->; cbn; right; eauto|].
    cbn. left. exists p. split; [done|]. by apply strip_suffix_None. }
  destruct (strip_prefix "("%char s) as [p|] eqn:E2; [apply strip_prefix_Some in E2 as ->|].
  { destruct (strip_suffix ")"%char p) as [q|] eqn:E3; [apply strip_suffix_Some in E3 as ->; cbn; right; eauto|].
    cbn. right. exists p. split; [done|]. by apply strip_suffix_None. }
  left. split; [done|]. by intros [(r & -> & _)|(r & -> & _)].
Qed.
Lemma from_str_accepts source s : from_str source = Ok s →
  ∃ inner, (trim source = inner ∨ bracketed (trim source) inner) ∧ Forall dim_char inner.
Proof.
  unfold from_str. pose proof (strip_delims_cases (trim source)) as Hs. destruct (strip_delims DELIMS (trim source)) as [r|]; [|done].
  intros H. assert (Forall dim_char r) as Hr.
  { destruct r as [|c r]; [done|]. change (mapM _ (split ","%char (c :: r))) with (parse_dims (c :: r)) in H.
    destruct (parse_dims (c :: r)) eqn:E; [|done]. by eapply parse_dims_chars. }
  destruct Hs as [[<- _]|(inner & Hb & ->)]; [exists r; auto|]. exists inner. split; [by right|by apply trim_chars].
Qed.
Lemma bracketed_closed s inner : bracketed s inner → ¬ left_open s.
Proof. intros [-> | ->] [(r & [= <-] & H)|(r & [= <-] & H)]; apply H; by exists inner. Qed.
Lemma from_str_unbalanced source : from_str source = Err (ParseError "Unbalanced delimiters" source) ↔ left_open (trim source).
Proof.
  unfold from_str. pose proof (strip_delims_cases (trim source)) as Hs. destruct (strip_delims DELIMS (trim source)) as [r|]; [|by split].
  assert (¬ left_open (trim source)) as Hn by (destruct Hs as [[_ ?]|(inner & Hb & _)]; [done|by eapply bracketed_closed]).
  split; [|done]. destruct r; [done|]. by destruct (mapM _ _).
Qed.

(** C40: a formatted shape parses back to itself; so it does in round brackets
    and with spaces around, or with no bracket at all.  Unbalanced delimiters are
    an error: a text is refused for them exactly when it starts with a bracket
    and does not end with the closing bracket of the same pair, and whatever is
    accepted holds no other bracket, between those of one pair or without any. *)
Theorem shape_text_roundtrip (s : Shape) :
  Forall is_u64 s →
  from_str (fmt_shape s) = Ok s ∧
  from_str (" "%char :: "("%char :: fmt_dims s ++ [")"%char]) = Ok s ∧
  from_str (fmt_dims s) = Ok s ∧
  (∀ source, from_str source = Err (ParseError "Unbalanced delimiters" source) ↔ left_open (trim source)) ∧
  (∀ source s', from_str source = Ok s' →
    ∃ inner, (trim source = inner ∨ bracketed (trim source) inner) ∧ ∀ c, c ∈ ["["; "]"; "("; ")"]%char → c ∉ inner).
Proof.
  intros Hs. pose proof (trim_fmt_dims s Hs) as Htrim. split_and!.
  - apply from_str_dims; [done|]. unfold fmt_shape. rewrite trim_delims by done.
    cbn [strip_delims DELIMS strip_prefix]. rewrite decide_True by done.
    rewrite strip_suffix_end. cbn. by rewrite Htrim.
  - apply from_str_dims; [done|]. rewrite trim_space, trim_delims by done.
    cbn [strip_delims DELIMS strip_prefix]. rewrite decide_False, decide_True by done.
    rewrite strip_suffix_end. cbn. by rewrite Htrim.
  - apply from_str_dims; [done|]. rewrite Htrim.
    destruct (decide (s = [])) as [->|Hne]; [done|].
    destruct (fmt_dims_ends s Hne Hs) as [(a & l & -> & Ha) _].
    cbn [strip_delims DELIMS strip_prefix].
    rewrite !decide_False; [done| |]; apply digit_not; (done || by apply not_digit).
  - apply from_str_unbalanced.
  - intros source s' (inner & Hi & Hc)%from_str_accepts. exists inner. split; [done|]. intros c Hb Hin.
    rewrite Forall_forall in Hc. by eapply bracket_not_dim, Hc.
Qed.
Lemma shape_text_roundtrip_witness : from_str (fmt_shape [2; 300]) = Ok [2; 300].
Proof.
  destruct (shape_text_roundtrip [2; 300]) as [Hok _]; [|exact Hok].
  unfold is_u64. repeat constructor; lia.
Defined.
