(* ===== verification/Layout.v ===== *)
(** * Strides and layouts

    [cubecl-zspace/src/strides.rs] and [striding/]: the strides of a tensor,
    the row-major strides of a shape, and the checks that a pair of a shape
    and strides is laid out in rows.  [Strides] is the list of the strides. *)

From S2P Require Export Shape.
From stdpp Require Import list strings.
#[local] Open Scope Z_scope.

Abbreviation Strides := (list Z) (only parsing).

Definition strides_rank (s : Strides) : nat := length s.
Definition strides_insert (index : nat) (stride : Z) (s : Strides) : option Strides :=
  if decide (index <= length s)%nat then Some (vec_insert index stride s) else None.
Definition strides_remove (index : nat) (s : Strides) : option (Z * Strides) :=
  d ← s !! index; Some (d, vec_remove index s).
Definition strides_push (stride : Z) (s : Strides) : Strides := s ++ [stride].
Definition strides_permute (s : Strides) (axes : list nat) : option (result Strides MetadataError) :=
  if decide (length axes = length s) then Ok <$> mapM (λ i, s !! i) axes
  else Some (Err (RankMismatch (length s) (length axes))).

(** The loop of [row_major_contiguous_strides], [i] from [n - 1] down to 0. *)
Fixpoint row_major_loop (shape : Shape) (n : nat) (strides : Strides) : option Strides :=
  match n with
  | O => Some strides
  | S i =>
      s ← strides !! S i; d ← shape !! S i; x ← mul_u64 s d;
      row_major_loop shape i (<[i := x]> strides)
  end.
Definition row_major_contiguous_strides (shape : Shape) : option Strides :=
  let rank := length shape in
  let strides := replicate rank 1 in
  if decide (1 < rank)%nat then row_major_loop shape (rank - 1) strides else Some strides.

Record StrideRecord := mk_StrideRecord { record_shape : Shape; record_strides : Strides }.
(** The strides go through [isize] and back: one that does not fit is a
    panic. *)
Definition from_usize_strides (shape : Shape) (strides : Strides) : option StrideRecord :=
  if decide (Forall (λ s, 0 <= as_isize s) strides) then Some (mk_StrideRecord shape strides) else None.
Inductive StrideError :=
| MalformedRanks (record : StrideRecord)
| UnsupportedRank (rank : nat) (record : StrideRecord)
| StrideInvalid (message : string) (record : StrideRecord).

Definition try_check_matching_ranks (shape : Shape) (strides : Strides) :
    option (result nat StrideError) :=
  let rank := length shape in
  if decide (length strides ≠ rank) then
    record ← from_usize_strides shape strides; Some (Err (MalformedRanks record))
  else Some (Ok rank).

(** The loop of both checks: [n] turns from [i]. *)
Fixpoint contiguous_loop (shape : Shape) (strides : Strides) (i n : nat) : option bool :=
  match n with
  | O => Some true
  | S n =>
      s ← strides !! i; d ← shape !! S i; s' ← strides !! S i; p ← mul_u64 d s';
      if decide (s ≠ p) then Some false else contiguous_loop shape strides (S i) n
  end.
(** The loop runs whatever was found before it. *)
Definition try_check_pitched_row_major_strides (shape : Shape) (strides : Strides) :
    option (result unit StrideError) :=
  rank ←? try_check_matching_ranks shape strides;
  if decide (rank = 0%nat) then
    record ← from_usize_strides shape strides; Some (Err (UnsupportedRank rank record))
  else
    last ← strides !! (rank - 1)%nat;
    let valid_layout := bool_decide (last = 1 ∧ Forall (λ s, s ≠ 0) strides) in
    valid_layout ←
      (if valid_layout && bool_decide (1 < rank)%nat then
         pitch ← strides !! (rank - 2)%nat; row ← shape !! (rank - 1)%nat;
         rows ← contiguous_loop shape strides 0 (rank - 2);
         Some (negb (pitch <? row) && rows)
       else Some valid_layout);
    if valid_layout : bool then Some (Ok tt)
    else
      record ← from_usize_strides shape strides;
      Some (Err (StrideInvalid "strides are not valid pitched row major order" record)).
Definition try_check_contiguous_row_major_strides (shape : Shape) (strides : Strides) :
    option (result unit StrideError) :=
  rank ←? try_check_matching_ranks shape strides;
  if decide (rank = 0%nat) then
    record ← from_usize_strides shape strides; Some (Err (UnsupportedRank rank record))
  else
    last ← strides !! (rank - 1)%nat;
    let valid_layout := bool_decide (last = 1) in
    valid_layout ←
      (if valid_layout && bool_decide (1 < rank)%nat
       then contiguous_loop shape strides 0 (rank - 1) else Some valid_layout);
    if valid_layout : bool then Some (Ok tt)
    else
      record ← from_usize_strides shape strides;
      Some (Err (StrideInvalid "strides are not contiguous in row major order" record)).

(** The [has_] forms panic on the errors about ranks. *)
Definition has_pitched_row_major_strides (shape : Shape) (strides : Strides) : option bool :=
  r ← try_check_pitched_row_major_strides shape strides;
  match r with
  | Ok _ => Some true
  | Err (StrideInvalid _ _) => Some false
  | Err _ => None
  end.
Definition has_contiguous_row_major_strides (shape : Shape) (strides : Strides) : option bool :=
  r ← try_check_contiguous_row_major_strides shape strides;
  match r with
  | Ok _ => Some true
  | Err (StrideInvalid _ _) => Some false
  | Err _ => None
  end.

Example row_major_ex : row_major_contiguous_strides [1; 2; 3] = Some [6; 3; 1].
Proof. reflexivity. Qed.
Example pitched_ex : has_pitched_row_major_strides [2; 3] [4; 1] = Some true
  ∧ has_pitched_row_major_strides [2; 5] [4; 1] = Some false.
Proof. split; reflexivity. Qed.

(** ** Row-major strides *)

(** The reference: a stride is the product of the dimensions after it. *)
Fixpoint strides_of (shape : Shape) : Strides :=
  match shape with [] => [] | _ :: shape => prod_Z shape :: strides_of shape end.
Definition strides_fit (shape : Shape) : Prop := Forall (λ s, s <= u64_max) (strides_of shape).

Lemma strides_of_length shape : length (strides_of shape) = length shape.
Proof. induction shape; cbn; lia. Qed.
Lemma strides_of_drop shape i :
  strides_of shape !! i = (if decide (i < length shape)%nat then Some (prod_Z (drop (S i) shape)) else None).
Proof.
  revert i. induction shape as [|d shape IH]; intros i; [done|]. destruct i as [|i]; cbn.
  { by rewrite drop_0. }
  rewrite IH. repeat case_decide; try done; lia.
Qed.
Lemma row_major_loop_spec shape n :
  strides_fit shape → (n < length shape)%nat →
  row_major_loop shape n (replicate n 1 ++ strides_of (drop n shape)) = Some (strides_of shape).
Proof.
  intros Hfit. induction n as [|i IH]; intros Hn; cbn [row_major_loop]; [by rewrite drop_0|].
  assert (∃ d rest, drop (S i) shape = d :: rest) as (d & rest & Hdrop).
  { destruct (drop (S i) shape) as [|d rest] eqn:He; [|by exists d, rest].
    apply (f_equal length) in He. rewrite length_drop in He; cbn in He; lia. }
  assert (shape !! S i = Some d) as Hd.
  { rewrite <- (Nat.add_0_r (S i)), <- lookup_drop, Hdrop. done. }
  rewrite Hdrop. cbn [strides_of].
  rewrite lookup_app_r by (rewrite length_replicate; lia). rewrite length_replicate, Nat.sub_diag.
  cbn [lookup list_lookup mbind option_bind]. rewrite Hd. cbn [mbind option_bind].
  destruct (lookup_lt_is_Some_2 shape i ltac:(lia)) as [e He].
  pose proof (drop_S shape e i He) as Hdi. rewrite Hdrop in Hdi.
  assert (prod_Z rest * d <= u64_max) as Hb.
  { unfold strides_fit in Hfit. rewrite Forall_lookup in Hfit.
    assert (strides_of shape !! i = Some (prod_Z (d :: rest))) as Hl.
    { rewrite strides_of_drop, decide_True by lia. by rewrite Hdrop. }
    apply Hfit in Hl. rewrite prod_Z_cons in Hl. lia. }
  rewrite mul_u64_Some by done. cbn [mbind option_bind].
  rewrite <- IH by lia. f_equal. rewrite replicate_S_end, <- app_assoc.
  rewrite insert_app_r_alt by (rewrite length_replicate; lia).
  rewrite length_replicate, Nat.sub_diag. cbn. rewrite Hdi. cbn. by rewrite Z.mul_comm.
Qed.
Lemma row_major_strides_of shape :
  strides_fit shape → row_major_contiguous_strides shape = Some (strides_of shape).
Proof.
  intros Hfit. unfold row_major_contiguous_strides. case_decide as Hr.
  - rewrite <- (row_major_loop_spec shape (length shape - 1)) by (done || lia). f_equal.
    assert (length shape = length shape - 1 + 1)%nat as Hlen by lia. rewrite Hlen at 1.
    rewrite replicate_add. f_equal.
    destruct (drop (length shape - 1) shape) as [|d [|e l]] eqn:He; [| done|];
      apply (f_equal length) in He; rewrite length_drop in He; cbn in He; lia.
  - destruct shape as [|d [|e l]]; cbn in Hr; try done; lia.
Qed.

(** ** The contiguous check *)
Definition follows (shape : Shape) (strides : Strides) (i : nat) : Prop :=
  ∃ s d s', strides !! i = Some s ∧ shape !! S i = Some d ∧ strides !! S i = Some s' ∧
    s = d * s' ∧ d * s' <= u64_max.

Lemma contiguous_loop_true shape strides i n :
  contiguous_loop shape strides i n = Some true ↔
  ∀ j, (i <= j < i + n)%nat → follows shape strides j.
Proof.
  revert i. induction n as [|n IH]; intros i; cbn [contiguous_loop]; [split; [intros; lia|done]|].
  split.
  - intros (s & Hs & (d & Hd & (s' & Hs' & (p & [-> Hb]%mul_u64_inv & Hp)%bind_Some)
      %bind_Some)%bind_Some)%bind_Some.
    case_decide as Heq; [done|]. intros j Hj.
    destruct (decide (j = i)) as [->|]; [by exists s, d, s'|]. by apply (proj1 (IH (S i)) Hp); lia.
  - intros Hall. destruct (Hall i ltac:(lia)) as (s & d & s' & Hs & Hd & Hs' & -> & Hb).
    rewrite Hs; cbn. rewrite Hd; cbn. rewrite Hs'; cbn. rewrite mul_u64_Some by done. cbn.
    rewrite decide_False by auto. apply IH. intros j Hj. apply Hall. lia.
Qed.
Lemma follows_cons d shape s strides i :
  follows (d :: shape) (s :: strides) (S i) ↔ follows shape strides i.
Proof. done. Qed.
Lemma strides_of_follows shape strides :
  length strides = length shape → shape ≠ [] → strides_fit shape →
  (strides = strides_of shape ↔
    last strides = Some 1 ∧ ∀ j, (j < length shape - 1)%nat → follows shape strides j).
Proof.
  revert strides. induction shape as [|d shape IH]; intros [|s strides] Hlen Hne Hfit; try done.
  apply Forall_cons in Hfit as [Hs Hfit]. cbn [strides_of length] in *.
  destruct shape as [|d' shape], strides as [|s' strides]; cbn [length] in Hlen; try lia.
  { split; [intros [= ->]; split; [done|cbn; lia]|]. intros [Hl _]. cbn in Hl. by injection Hl as ->. }
  specialize (IH (s' :: strides) ltac:(cbn; lia) ltac:(done) Hfit).
  assert (last (s :: s' :: strides) = last (s' :: strides)) as -> by done. split.
  - intros [= -> -> ->]. destruct (proj1 IH eq_refl) as [Hl Hall]. split; [done|].
    intros [|j] Hj; [|apply follows_cons, Hall; cbn in *; lia]. eexists _, d', _.
    split_and!; [done|done|done|done|]. by rewrite prod_Z_cons in Hs.
  - intros [Hl Hall].
    assert (s' :: strides = strides_of (d' :: shape)) as Heq.
    { apply IH. split; [done|]. intros j Hj. apply (follows_cons d _ s), Hall. cbn in *; lia. }
    rewrite Heq. destruct (Hall 0%nat ltac:(cbn; lia)) as (x & y & z & [= <-] & [= <-] & [= <-] & -> & _).
    cbn [strides_of] in Heq. injection Heq as -> ->. by rewrite prod_Z_cons.
Qed.
Lemma last_lookup_pred (l : list Z) : last l = l !! (length l - 1)%nat.
Proof. rewrite last_lookup. f_equal. lia. Qed.

(** The contiguous check accepts exactly the strides the builder makes for
    the shape: one layout, the row-major one without gaps.  The rank of the
    shape is what the other errors are about. *)
Theorem contiguous_is_row_major (shape : Shape) (strides : Strides) :
  shape ≠ [] → strides_fit shape →
  (try_check_contiguous_row_major_strides shape strides = Some (Ok tt) ↔
   row_major_contiguous_strides shape = Some strides).
Proof.
  intros Hne Hfit. rewrite row_major_strides_of by done.
  assert (0 < length shape)%nat as Hpos by (destruct shape; [done|cbn; lia]).
  unfold try_check_contiguous_row_major_strides, try_check_matching_ranks.
  case_decide as Hlen.
  { split; [by destruct (from_usize_strides shape strides)|]. intros [= <-].
    by rewrite strides_of_length in Hlen. }
  unfold try_bind; cbn [mbind option_bind].
  rewrite (decide_False (P := length shape = 0%nat)) by lia.
  pose proof (strides_of_follows shape strides Hlen Hne Hfit) as Hfol.
  rewrite last_lookup_pred, Hlen in Hfol.
  destruct (lookup_lt_is_Some_2 strides (length shape - 1) ltac:(lia)) as [last_ Hlast].
  rewrite Hlast in *. cbn [mbind option_bind].
  assert ((valid_layout ←
      (if bool_decide (last_ = 1) && bool_decide (1 < length shape)%nat
       then contiguous_loop shape strides 0 (length shape - 1) else Some (bool_decide (last_ = 1)));
    if valid_layout : bool then Some (Ok tt)
    else record ← from_usize_strides shape strides;
         Some (Err (StrideInvalid "strides are not contiguous in row major order" record)))
    = Some (Ok tt) ↔ last_ = 1 ∧ contiguous_loop shape strides 0 (length shape - 1) = Some true) as ->.
  { case_bool_decide as H1; cbn [andb].
    - case_bool_decide as H2.
      + destruct (contiguous_loop _ _ _ _) as [[]|]; cbn; [tauto| |split; [done|by intros [_ ?]]].
        split; [by destruct (from_usize_strides shape strides)|by intros [_ ?]].
      + replace (length shape - 1)%nat with 0%nat by lia. by cbn.
    - cbn. split; [by destruct (from_usize_strides shape strides)|by intros [? _]]. }
  rewrite contiguous_loop_true. split.
  - intros [-> Hall]. f_equal. symmetry. apply Hfol. split; [done|]. intros j Hj. apply Hall. lia.
  - intros [= <-]. destruct (proj1 Hfol eq_refl) as [[= ->] Hall]. split; [done|].
    intros j Hj. apply Hall. lia.
Qed.
Lemma contiguous_is_row_major_witness :
  try_check_contiguous_row_major_strides [2; 3; 4] [12; 4; 1] = Some (Ok tt).
Proof.
  apply (contiguous_is_row_major [2; 3; 4] [12; 4; 1]); [done| |reflexivity].
  repeat constructor; cbn; lia.
Defined.

(** ** Addresses *)

(** The element at coordinates [c], as an offset. *)
Definition offset_of (c : list Z) (strides : Strides) : Z := sum_Z (zip_with Z.mul c strides).
Definition in_bounds (c : list Z) (shape : Shape) : Prop := Forall2 (λ i d, 0 <= i < d) c shape.

(** Each stride steps over everything the dimensions after it reach. *)
Fixpoint separated (shape : Shape) (strides : Strides) : Prop :=
  match shape, strides with
  | [], [] => True
  | _ :: shape, s :: strides =>
      (∀ c, in_bounds c shape → 0 <= offset_of c strides < s) ∧ separated shape strides
  | _, _ => False
  end.

Lemma offset_of_cons i c s strides : offset_of (i :: c) (s :: strides) = i * s + offset_of c strides.
Proof. done. Qed.
Lemma separated_injective shape strides c c' :
  separated shape strides → in_bounds c shape → in_bounds c' shape →
  offset_of c strides = offset_of c' strides → c = c'.
Proof.
  intros Hsep Hc. revert strides c' Hsep.
  induction Hc as [|i d c shape Hi Hc IH]; intros [|s strides] c' Hsep Hc'; try done.
  { by inversion Hc'. }
  destruct Hsep as [Hspan Hsep].
  inversion Hc' as [|i' d' c0 shape' Hi' Hc0]; subst. rewrite !offset_of_cons. intros Heq.
  pose proof (Hspan _ Hc). pose proof (Hspan _ Hc0).
  assert (i = i') as -> by nia. f_equal. apply (IH strides); [done|done|]. lia.
Qed.

Lemma strides_of_bound shape c :
  in_bounds c shape → 0 <= offset_of c (strides_of shape) < prod_Z shape.
Proof.
  induction 1 as [|i d c shape Hi Hc IH]; [cbn; lia|].
  cbn [strides_of]. rewrite offset_of_cons, prod_Z_cons. nia.
Qed.
Lemma strides_of_separated shape : separated shape (strides_of shape).
Proof.
  induction shape as [|d shape IH]; [done|]. split; [|done]. intros c. apply strides_of_bound.
Qed.
Lemma strides_of_onto shape k :
  0 <= k < prod_Z shape → Forall (Z.le 0) shape →
  ∃ c, in_bounds c shape ∧ offset_of c (strides_of shape) = k.
Proof.
  intros Hk Hs. revert k Hk. induction Hs as [|d shape Hd Hs IH]; intros k Hk.
  { exists []. split; [constructor|cbn in *; lia]. }
  rewrite prod_Z_cons in Hk. pose proof (prod_Z_nonneg shape Hs).
  assert (0 < prod_Z shape) by nia.
  pose proof (Z.div_mod k (prod_Z shape) ltac:(lia)).
  pose proof (Z.mod_pos_bound k (prod_Z shape) ltac:(lia)).
  destruct (IH (k mod prod_Z shape)) as (c & Hc & Ho); [lia|].
  exists (k / prod_Z shape :: c). cbn [strides_of]. rewrite offset_of_cons, Ho. split; [|lia].
  constructor; [|done]. split; [apply Z.div_pos; lia|]. apply Z.div_lt_upper_bound; lia.
Qed.

Lemma ravel_loop_spec idx shape :
  Forall2 (λ i d, is_isize i ∧ - d <= i < d) idx shape →
  Forall (λ d, d <= isize_max) shape → prod_Z shape <= u64_max →
  in_bounds (zip_with wrapped idx shape) shape ∧
  ravel_loop (zip idx shape) =
    Some (offset_of (zip_with wrapped idx shape) (strides_of shape), prod_Z shape).
Proof.
  induction 1 as [|i d idx shape [Hi Hr] Hidx IH]; intros Hmax Hp; [split; [constructor|done]|].
  apply Forall_cons in Hmax as [Hd Hmax]. rewrite prod_Z_cons in *.
  assert (1 <= prod_Z shape) as H1.
  { apply prod_Z_pos. clear -Hidx. induction Hidx as [|? ? ? ? [] ?]; constructor; [lia|done]. }
  destruct IH as [Hin Hloop]; [done|nia|].
  assert (0 <= wrapped i d < d) as Hw by (unfold wrapped; case_decide; lia).
  pose proof (strides_of_bound _ _ Hin) as Hb.
  split; [by constructor|].
  cbn [zip_with zip ravel_loop strides_of]. rewrite Hloop. cbn [mbind option_bind].
  unfold expect_elem, wrapper_expect_wrap, expect_wrap. cbn [wrap_kind wrap_scalar wrap_index_kind].
  rewrite try_wrap_in by (done || lia). cbn [mbind option_bind].
  rewrite !mul_u64_Some by nia. cbn [mbind option_bind].
  rewrite add_u64_Some by nia. cbn [mbind option_bind].
  rewrite offset_of_cons. do 2 f_equal; lia.
Qed.

Lemma strides_fit_prod shape :
  Forall (Z.le 1) shape → prod_Z shape <= u64_max → strides_fit shape.
Proof.
  intros Hs Hp. unfold strides_fit. induction Hs as [|d shape Hd Hs IH]; [constructor|].
  rewrite prod_Z_cons in Hp. pose proof (prod_Z_pos shape Hs).
  constructor; [nia|]. apply IH. nia.
Qed.

(** Raveling is addressing with the row-major strides.  Coordinates in
    range, from the start or from the end, ravel to the offset the strides the
    builder makes for the shape give them; no step overflows when the number
    of elements does not; and every offset below the number of elements is
    that of exactly one vector of coordinates counted from the start. *)
Theorem ravel_is_row_major (shape : Shape) :
  Forall (λ d, 1 <= d <= isize_max) shape → prod_Z shape <= u64_max →
  ∃ strides, row_major_contiguous_strides shape = Some strides ∧
    (∀ idx, Forall2 (λ i d, is_isize i ∧ - d <= i < d) idx shape →
       ravel_index idx shape = Some (offset_of (zip_with wrapped idx shape) strides)) ∧
    (∀ k, 0 <= k < prod_Z shape →
       ∃ c, in_bounds c shape ∧ offset_of c strides = k ∧
         ∀ c', in_bounds c' shape → offset_of c' strides = k → c' = c).
Proof.
  intros Hs Hp.
  assert (Forall (Z.le 1) shape) as Hs1 by (eapply Forall_impl; [exact Hs|]; cbn; lia).
  assert (Forall (Z.le 0) shape) as Hs0 by (eapply Forall_impl; [exact Hs|]; cbn; lia).
  exists (strides_of shape). split; [by apply row_major_strides_of, strides_fit_prod|]. split.
  - intros idx Hidx. unfold ravel_index.
    rewrite decide_True by by rewrite (Forall2_length _ _ _ Hidx).
    destruct (ravel_loop_spec idx shape Hidx) as [_ ->]; [|done|done].
    eapply Forall_impl; [exact Hs|]. cbn; lia.
  - intros k Hk. destruct (strides_of_onto shape k Hk Hs0) as (c & Hc & Ho).
    exists c. split_and!; [done|done|]. intros c' Hc' Ho'.
    eapply separated_injective; [apply strides_of_separated|done|done|]. by rewrite Ho, Ho'.
Qed.
Lemma ravel_is_row_major_witness : ravel_index [1; -1; 0] [2; 3; 4] = Some 20.
Proof.
  destruct (ravel_is_row_major [2; 3; 4]) as (strides & Hs & Hr & _); [repeat constructor; lia|cbn; lia|].
  injection Hs as <-. rewrite Hr; [reflexivity|]. unfold is_isize. repeat constructor; lia.
Defined.

(** ** The pitched check *)

(** All but the last stride are multiples of the pitch, that of the last row. *)
Lemma pitched_separated shape strides :
  length strides = length shape → last strides = Some 1 →
  (∀ j, (j < length shape - 2)%nat → follows shape strides j) →
  (∀ p d, strides !! (length shape - 2)%nat = Some p → last shape = Some d →
     (1 < length shape)%nat → d <= p) →
  Forall (Z.le 1) shape → Forall (Z.le 0) strides → separated shape strides.
Proof.
  revert strides. induction shape as [|d shape IH]; intros [|s strides] Hlen Hl Hfol Hp Hs1 Hs0; try done.
  apply Forall_cons in Hs1 as [Hd Hs1], Hs0 as [Hs Hs0]. cbn [length] in *.
  destruct shape as [|d' shape], strides as [|s' strides]; cbn [length] in Hlen; try lia.
  { split; [|done]. intros c Hc. inversion Hc; subst. cbn in Hl. injection Hl as ->. cbn. lia. }
  assert (separated (d' :: shape) (s' :: strides)) as Hsep.
  { apply IH; [cbn; lia|done| | |done|done].
    - intros j Hj. apply (follows_cons d _ s), Hfol. cbn in *; lia.
    - intros p e He Hle Hlt. apply (Hp p e); [|done|cbn; lia].
      replace (S (length (d' :: shape)) - 2)%nat with (S (length (d' :: shape) - 2)) by lia. done. }
  split; [|done]. intros c Hc. inversion Hc as [|i e c0 sh Hi Hc0]; subst.
  destruct Hsep as [Hspan _]. pose proof (Hspan _ Hc0) as Hc0b. rewrite offset_of_cons.
  apply Forall_cons in Hs0 as [Hs0 _].
  destruct shape as [|d2 shape].
  - destruct strides; [|cbn in Hlen; lia]. cbn in Hl. injection Hl as ->. inversion Hc0; subst.
    cbn in *. specialize (Hp s d' eq_refl eq_refl ltac:(lia)). lia.
  - destruct (Hfol 0%nat) as (x & y & z & [= <-] & [= <-] & [= <-] & -> & _); [cbn; lia|]. nia.
Qed.

(** What the check says of a layout it accepts. *)
Lemma pitched_check_inv shape strides :
  try_check_pitched_row_major_strides shape strides = Some (Ok tt) →
  length strides = length shape ∧ last strides = Some 1 ∧ (∀ j, (j < length shape - 2)%nat → follows shape strides j) ∧
  (∀ p d, strides !! (length shape - 2)%nat = Some p → last shape = Some d → (1 < length shape)%nat → d <= p).
Proof.
  intros Hok. unfold try_check_pitched_row_major_strides, try_check_matching_ranks in Hok.
  case_decide as Hlen; [by destruct (from_usize_strides shape strides)|].
  unfold try_bind in Hok; cbn [mbind option_bind] in Hok.
  case_decide as H0; [by destruct (from_usize_strides shape strides)|].
  apply bind_Some in Hok as (last_ & Hlast & Hok).
  case_bool_decide as Hv; [|by cbn in Hok; destruct (from_usize_strides shape strides)].
  destruct Hv as [-> Hnz].
  split; [done|]. split; [by rewrite last_lookup_pred, Hlen|].
  case_bool_decide as H1; cbn [andb] in Hok; [|split; intros; lia].
  apply bind_Some in Hok as (v & (pitch & Hpitch & (row & Hrow & (rows & Hrows & [= <-])
    %bind_Some)%bind_Some)%bind_Some & Hok).
  destruct (Z.ltb_spec pitch row) as [|Hpr];
    [by cbn in Hok; destruct (from_usize_strides shape strides)|].
  destruct rows; [|by cbn in Hok; destruct (from_usize_strides shape strides)]. split.
  - intros j Hj. apply (proj1 (contiguous_loop_true shape strides 0 _) Hrows). lia.
  - intros p d Hp Hd _. rewrite last_lookup_pred in Hd. simplify_eq. lia.
Qed.

(** A layout the pitched check accepts never gives two elements one
    address: coordinates in the shape that have the same offset are the same,
    whatever padding the pitch leaves at the end of the rows. *)
Theorem pitched_addresses_distinct (shape : Shape) (strides : Strides) (c c' : list Z) :
  Forall is_u64 shape → Forall is_u64 strides →
  try_check_pitched_row_major_strides shape strides = Some (Ok tt) →
  in_bounds c shape → in_bounds c' shape → offset_of c strides = offset_of c' strides → c = c'.
Proof.
  intros Hu Hus Hok Hc. eapply separated_injective; [|done].
  apply pitched_check_inv in Hok as (Hlen & Hl & Hfol & Hp). apply pitched_separated; try done.
  - clear -Hc. induction Hc; constructor; [lia|done].
  - eapply Forall_impl; [exact Hus|]. unfold is_u64; lia.
Qed.
Lemma pitched_addresses_distinct_witness : offset_of [1; 2] [4; 1] ≠ offset_of [1; 1] [4; 1].
Proof.
  intros Heq. enough ([1; 2] = [1; 1]) by done.
  apply (pitched_addresses_distinct [2; 3] [4; 1]); try done;
    try (repeat constructor; lia); unfold is_u64; repeat constructor; lia.
Defined.
