(* ===== verification/Metadata.v ===== *)
(** * Tiling and metadata

    [cubecl-zspace/src/tiling.rs] and [metadata.rs]: how many fragments each
    logical dimension of a tensor is stored as, packed in one [u16], and the
    shape, strides and tiling of a tensor together. *)

From S2P Require Export Layout.
From stdpp Require Import list strings.
#[local] Open Scope Z_scope.

Definition MAX_LOGICAL_DIMS : nat := 8.
Definition MAX_FRAGMENTS : nat := 4.
Abbreviation Tiling := Z (only parsing).
Definition UNTILED : Tiling := 0.

(** [iter().sum()] of [u16] values. *)
Fixpoint sum_u16 (acc : Z) (l : list Z) : option Z :=
  match l with
  | [] => Some acc
  | x :: l => if decide (acc + x <= u16_max) then sum_u16 (acc + x) l else None
  end.
(** [((count - 1) as u16) << (2 * dim)], from dimension [dim] on. *)
Fixpoint fields (dim : Z) (fragments : list Z) : list Z :=
  match fragments with
  | [] => []
  | count :: fragments => as_u16 (Z.shiftl (as_u16 (count - 1)) (2 * dim)) :: fields (dim + 1) fragments
  end.
Definition tiling_new (fragments : list Z) : option (result Tiling MetadataError) :=
  if decide (MAX_LOGICAL_DIMS < length fragments)%nat
  then Some (Err (Invalid "at most 8 logical dims"))
  else if decide (Forall (λ f, 1 <= f <= Z.of_nat MAX_FRAGMENTS) fragments)
  then Ok <$> sum_u16 0 (fields 0 fragments)
  else Some (Err (Invalid "1 to 4 fragments a dim")).

(** Shifting a [u16] by 16 or more is a panic. *)
Definition levels (t : Tiling) (dim : nat) : option Z :=
  if decide (2 * Z.of_nat dim < 16) then Some (Z.land (Z.shiftr t (2 * Z.of_nat dim)) 3) else None.
Definition fragments (t : Tiling) (logical_rank : nat) : option (list Z) :=
  mapM (λ dim, l ← levels t dim; Some (l + 1)) (seq 0 logical_rank).
Definition tiling_logical_rank (t : Tiling) (rank : nat) : option (result nat MetadataError) :=
  extra ← mapM (levels t) (seq 0 MAX_LOGICAL_DIMS);
  let refused := Some (Err (Invalid "tiling does not fit the buffer")) in
  if decide (Z.of_nat rank < sum_Z extra) then refused
  else
    let logical := Z.to_nat (Z.of_nat rank - sum_Z extra) in
    fr ← fragments t logical;
    again ← tiling_new fr;
    match again with
    | Ok t' => if decide (t' = t) then Some (Ok logical) else refused
    | Err _ => refused
    end.
Definition tiling_is_tiled (t : Tiling) : bool := negb (t =? 0).

Record Metadata := mk_Metadata {
  shape : Shape;
  strides : Strides;
  tiling : Tiling;
}.
(** The [debug_assert_eq!] and [assert_untiled] are panics. *)
Definition metadata_new (shape : Shape) (strides : Strides) : option Metadata :=
  if decide (length shape = length strides) then Some (mk_Metadata shape strides UNTILED) else None.
Definition metadata_rank (m : Metadata) : nat := length (shape m).
Definition with_tiling (t : Tiling) (m : Metadata) : option (result Metadata MetadataError) :=
  _ ←? tiling_logical_rank t (metadata_rank m);
  Some (Ok (mk_Metadata (shape m) (strides m) t)).
Definition is_tiled (m : Metadata) : bool := tiling_is_tiled (tiling m).
Definition metadata_logical_rank (m : Metadata) : option (result nat MetadataError) :=
  tiling_logical_rank (tiling m) (metadata_rank m).

(** The two loops of [logical_shape]: over the logical dimensions of a level,
    and [n] levels from [level]; the extents and the next physical dimension. *)
Fixpoint level_loop (dims : Shape) (level : Z) (fragments : list Z) (dim : nat)
    (acc : Shape * nat) : option (Shape * nat) :=
  match fragments with
  | [] => Some acc
  | count :: fragments =>
      acc ← (if level <? count then
               e ← acc.1 !! dim; d ← dims !! acc.2; x ← mul_u64 e d;
               Some (<[dim := x]> acc.1, S acc.2)
             else Some acc);
      level_loop dims level fragments (S dim) acc
  end.
Fixpoint levels_loop (dims : Shape) (fragments : list Z) (level : Z) (n : nat)
    (acc : Shape * nat) : option (Shape * nat) :=
  match n with
  | O => Some acc
  | S n =>
      acc ← level_loop dims level fragments 0 acc;
      levels_loop dims fragments (level + 1) n acc
  end.
Definition logical_shape (m : Metadata) : option (result Shape MetadataError) :=
  logical ←? metadata_logical_rank m;
  fr ← fragments (tiling m) logical;
  '(extents, _) ← levels_loop (shape m) fr 0 MAX_FRAGMENTS (replicate (length fr) 1, 0%nat);
  Some (Ok extents).

Definition assert_untiled (m : Metadata) : option unit := if is_tiled m then None else Some tt.
Definition metadata_num_elements (m : Metadata) : option Z := num_elements (shape m).
Definition metadata_swap (dim0 dim1 : nat) (m : Metadata) : option Metadata :=
  _ ← assert_untiled m;
  s ← swap dim0 dim1 (shape m); t ← swap dim0 dim1 (strides m);
  Some (mk_Metadata s t (tiling m)).
(** The shape is permuted first: an error of the strides leaves it so. *)
Definition metadata_permute (axes : list nat) (m : Metadata) :
    option (result unit MetadataError * Metadata) :=
  _ ← assert_untiled m;
  r ← permute (shape m) axes;
  match r with
  | Err e => Some (Err e, m)
  | Ok s =>
      r ← strides_permute (strides m) axes;
      match r with
      | Err e => Some (Err e, mk_Metadata s (strides m) (tiling m))
      | Ok t => Some (Ok tt, mk_Metadata s t (tiling m))
      end
  end.
Definition metadata_insert (index : nat) (dim stride : Z) (m : Metadata) : option Metadata :=
  _ ← assert_untiled m;
  s ← shape_insert index dim (shape m); t ← strides_insert index stride (strides m);
  Some (mk_Metadata s t (tiling m)).
Definition metadata_remove (index : nat) (m : Metadata) : option ((Z * Z) * Metadata) :=
  _ ← assert_untiled m;
  '(d, s) ← shape_remove index (shape m); '(e, t) ← strides_remove index (strides m);
  Some ((d, e), mk_Metadata s t (tiling m)).
Definition metadata_push (dim stride : Z) (m : Metadata) : option Metadata :=
  _ ← assert_untiled m;
  Some (mk_Metadata (shape_push dim (shape m)) (strides_push stride (strides m)) (tiling m)).

Example tiling_ex : tiling_new [1; 2; 2] = Some (Ok 20)
  ∧ fragments 20 3 = Some [1; 2; 2] ∧ tiling_logical_rank 20 5 = Some (Ok 3%nat).
Proof. split_and!; reflexivity. Qed.
Example logical_shape_ex :
  logical_shape (mk_Metadata [2; 128; 344; 32; 32] [1; 1; 1; 1; 1] 20) = Some (Ok [2; 4096; 11008]).
Proof. reflexivity. Qed.

(** ** Tilings *)
Definition fragments_ok (fr : list Z) : Prop :=
  (length fr <= MAX_LOGICAL_DIMS)%nat ∧ Forall (λ f, 1 <= f <= Z.of_nat MAX_FRAGMENTS) fr.

#[global] Instance fragments_ok_dec fr : Decision (fragments_ok fr).
Proof. unfold fragments_ok. apply _. Defined.

(** The packed word as a number in base four. *)
Fixpoint packed (fr : list Z) : Z :=
  match fr with [] => 0 | c :: fr => (c - 1) + 4 * packed fr end.

Lemma packed_bound fr :
  Forall (λ f, 1 <= f <= Z.of_nat MAX_FRAGMENTS) fr → 0 <= packed fr < 4 ^ Z.of_nat (length fr).
Proof.
  induction 1 as [|c fr Hc Hfr IH]; [cbn; lia|]. cbn [packed length].
  rewrite Nat2Z.inj_succ, Z.pow_succ_r by lia. unfold MAX_FRAGMENTS in Hc. lia.
Qed.
Lemma pow4 i : 0 <= i → 2 ^ (2 * i) = 4 ^ i.
Proof. intros. by rewrite Z.pow_mul_r by lia. Qed.

Lemma sum_fields fr dim acc :
  0 <= dim → dim + Z.of_nat (length fr) <= 8 →
  Forall (λ f, 1 <= f <= Z.of_nat MAX_FRAGMENTS) fr →
  0 <= acc < 4 ^ dim →
  sum_u16 acc (fields dim fr) = Some (acc + 4 ^ dim * packed fr).
Proof.
  intros Hd Hlen Hfr. revert dim acc Hd Hlen.
  induction Hfr as [|c fr Hc Hfr IH]; intros dim acc Hd Hlen Ha; cbn [fields sum_u16 packed].
  { f_equal. lia. }
  unfold MAX_FRAGMENTS in Hc. cbn [length] in Hlen.
  assert (4 ^ dim * 4 = 4 ^ (dim + 1)) as Hpow by (rewrite Z.pow_add_r by lia; lia).
  assert (4 ^ (dim + 1) <= 4 ^ 8) as Hmax by (apply Z.pow_le_mono_r; lia).
  change (4 ^ 8) with 65536 in Hmax.
  rewrite (as_u16_small (c - 1)) by lia. rewrite Z.shiftl_mul_pow2, pow4 by lia.
  rewrite as_u16_small by nia. rewrite decide_True by nia.
  rewrite IH by (lia || nia). f_equal. rewrite <- Hpow. ring.
Qed.
Lemma tiling_new_ok fr : fragments_ok fr → tiling_new fr = Some (Ok (packed fr)).
Proof.
  intros [Hlen Hfr]. unfold tiling_new. rewrite decide_False by lia. rewrite decide_True by done.
  unfold MAX_LOGICAL_DIMS in Hlen.
  rewrite sum_fields by (done || lia). cbn. do 2 f_equal. lia.
Qed.

Lemma levels_packed fr i :
  Forall (λ f, 1 <= f <= Z.of_nat MAX_FRAGMENTS) fr → (i < 8)%nat →
  levels (packed fr) i = Some (from_option (λ c, c - 1) 0 (fr !! i)).
Proof.
  intros Hfr Hi. unfold levels. rewrite decide_True by lia. f_equal.
  change 3 with (Z.ones 2). rewrite Z.land_ones, Z.shiftr_div_pow2, pow4 by lia.
  change (2 ^ 2) with 4. clear Hi. revert i.
  induction Hfr as [|c fr Hc Hfr IH]; intros i; cbn [packed].
  { by rewrite Z.div_0_l by lia. }
  unfold MAX_FRAGMENTS in Hc. destruct i as [|i].
  - cbn [lookup list_lookup from_option]. change (4 ^ Z.of_nat 0) with 1.
    rewrite Z.div_1_r, (Z.mul_comm 4), Z_mod_plus_full. rewrite Z.mod_small; lia.
  - cbn [lookup list_lookup]. rewrite <- IH, Nat2Z.inj_succ, Z.pow_succ_r by lia.
    rewrite <- Z.div_div by lia. f_equal. f_equal.
    rewrite (Z.mul_comm 4), Z.div_add by lia. rewrite Z.div_small; lia.
Qed.
Lemma mapM_levels fr i n :
  Forall (λ f, 1 <= f <= Z.of_nat MAX_FRAGMENTS) fr → (i + n <= 8)%nat →
  mapM (levels (packed fr)) (seq i n) =
    Some ((λ j, from_option (λ c, c - 1) 0 (fr !! j)) <$> seq i n).
Proof.
  intros Hfr. revert i. induction n as [|n IH]; intros i Hi; [done|].
  cbn [seq mapM]. rewrite levels_packed by (done || lia). cbn [mbind option_bind].
  rewrite IH by lia. done.
Qed.
Lemma sum_levels (fr : list Z) n :
  (length fr <= n)%nat →
  sum_Z ((λ j, from_option (λ c, c - 1) 0 (fr !! j)) <$> seq 0 n) = sum_Z fr - Z.of_nat (length fr).
Proof.
  revert n. induction fr as [|c fr IH]; intros n Hn.
  - assert (∀ i, sum_Z ((λ j, from_option (λ c, c - 1) 0 (([] : list Z) !! j)) <$> seq i n) = 0) as H0.
    { clear Hn. induction n as [|n IHn]; intros i; [done|]. cbn [seq fmap list_fmap].
      by rewrite sum_Z_cons, IHn. }
    by rewrite H0.
  - destruct n as [|n]; [cbn in Hn; lia|]. cbn [length] in *. cbn [seq].
    rewrite fmap_cons, <- fmap_S_seq, <- list_fmap_compose, !sum_Z_cons.
    pose proof (IH n ltac:(lia)) as IHn.
    etrans; [apply f_equal2; [reflexivity|exact IHn]|]. cbn. lia.
Qed.
Lemma fragments_packed fr :
  fragments_ok fr → fragments (packed fr) (length fr) = Some fr.
Proof.
  intros [Hlen Hfr]. unfold fragments, MAX_LOGICAL_DIMS in *.
  assert (∀ l i, (i + length l <= 8)%nat → (∀ j c, l !! j = Some c → fr !! (i + j)%nat = Some c) →
    mapM (λ dim, x ← levels (packed fr) dim; Some (x + 1)) (seq i (length l)) = Some l) as Hgen.
  { intros l. induction l as [|c l IH]; intros i Hi Hl; [done|]. cbn [seq mapM length] in *.
    rewrite levels_packed by (done || lia).
    pose proof (Hl 0%nat c eq_refl) as Hc. rewrite Nat.add_0_r in Hc. rewrite Hc. cbn [mbind option_bind from_option].
    rewrite IH; [|lia|].
    - cbn. do 2 f_equal. lia.
    - intros j x Hx. specialize (Hl (S j) x Hx). by rewrite Nat.add_succ_r in Hl. }
  apply (Hgen fr 0%nat); [lia|done].
Qed.

Lemma logical_rank_packed fr rank :
  fragments_ok fr → Z.of_nat rank = sum_Z fr →
  tiling_logical_rank (packed fr) rank = Some (Ok (length fr)).
Proof.
  intros Hok Hr. pose proof Hok as [Hlen Hfr]. unfold tiling_logical_rank.
  rewrite mapM_levels by done. cbn [mbind option_bind].
  rewrite sum_levels by done. rewrite decide_False by lia.
  replace (Z.to_nat (Z.of_nat rank - (sum_Z fr - Z.of_nat (length fr)))) with (length fr) by lia.
  rewrite fragments_packed by done. cbn [mbind option_bind].
  rewrite tiling_new_ok by done. cbn [mbind option_bind]. by rewrite decide_True.
Qed.
Lemma mapM_length {A B} (f : A → option B) l k : mapM f l = Some k → length k = length l.
Proof.
  revert k. induction l as [|x l IH]; intros k; cbn; [by intros [= <-]|].
  intros (y & _ & (k' & Hk & [= <-])%bind_Some)%bind_Some. cbn. by rewrite (IH _ Hk).
Qed.
Lemma logical_rank_inv t rank n :
  tiling_logical_rank t rank = Some (Ok n) →
  ∃ fr, fragments_ok fr ∧ t = packed fr ∧ length fr = n ∧ fragments t n = Some fr ∧
    Z.of_nat rank = sum_Z fr.
Proof.
  unfold tiling_logical_rank. intros (extra & Hextra & H)%bind_Some. case_decide as Hx; [done|].
  apply bind_Some in H as (fr & Hfr & (again & Hnew & H)%bind_Some).
  destruct again as [t'|]; [|done]. case_decide as Ht; [|done]. injection H as <-. subst t'.
  assert (length fr = Z.to_nat (Z.of_nat rank - sum_Z extra)) as Hlen.
  { apply mapM_length in Hfr. by rewrite length_seq in Hfr. }
  assert (fragments_ok fr) as Hok.
  { unfold tiling_new in Hnew. case_decide; [done|]. case_decide; [|done]. split; [lia|done]. }
  rewrite tiling_new_ok in Hnew by done. injection Hnew as <-.
  exists fr. split_and!; try done. destruct Hok as [Hl Hf].
  rewrite mapM_levels in Hextra by done. apply (inj Some) in Hextra. subst extra.
  rewrite sum_levels in Hx, Hlen by done. lia.
Qed.

(** The packing of a tiling.  Up to eight dimensions of one to four
    fragments each fit in the sixteen bits, from which the fragments are read
    back, and a buffer with as many physical dimensions as fragments stands
    for as many dimensions as were packed; anything else is refused. *)
Theorem tiling_roundtrip (fr : list Z) :
  if decide (fragments_ok fr) then
    ∃ t, tiling_new fr = Some (Ok t) ∧ 0 <= t <= u16_max ∧ fragments t (length fr) = Some fr ∧
      ∀ rank, Z.of_nat rank = sum_Z fr → tiling_logical_rank t rank = Some (Ok (length fr))
  else ∃ m, tiling_new fr = Some (Err (Invalid m)).
Proof.
  case_decide as Hok.
  - exists (packed fr). split_and!.
    + by apply tiling_new_ok.
    + apply (packed_bound fr (proj2 Hok)).
    + pose proof (packed_bound fr (proj2 Hok)) as Hb. destruct Hok as [Hlen _].
      assert (4 ^ Z.of_nat (length fr) <= 4 ^ 8) as Hmax.
      { apply Z.pow_le_mono_r; unfold MAX_LOGICAL_DIMS in Hlen; lia. }
      change (4 ^ 8) with 65536 in Hmax. lia.
    + by apply fragments_packed.
    + intros rank Hr. by apply logical_rank_packed.
  - unfold tiling_new. case_decide; [by eexists|]. case_decide; [|by eexists].
    exfalso. apply Hok. split; [lia|done].
Qed.

(** ** Logical shapes *)

(** The logical dimension each physical dimension is a fragment of. *)
Fixpoint level_labels (level : Z) (fr : list Z) (dim : nat) : list nat :=
  match fr with
  | [] => []
  | c :: fr => (if level <? c then [dim] else []) ++ level_labels level fr (S dim)
  end.
Fixpoint labels (fr : list Z) (level : Z) (n : nat) : list nat :=
  match n with O => [] | S n => level_labels level fr 0 ++ labels fr (level + 1) n end.

(** Multiplying the dimensions in order into the extents of their labels. *)
Fixpoint gather (dims : Shape) (ls : list nat) (acc : Shape * nat) : option (Shape * nat) :=
  match ls with
  | [] => Some acc
  | dim :: ls =>
      e ← acc.1 !! dim; d ← dims !! acc.2; x ← mul_u64 e d;
      gather dims ls (<[dim := x]> acc.1, S acc.2)
  end.
Lemma gather_app dims l1 l2 acc :
  gather dims (l1 ++ l2) acc = (acc ← gather dims l1 acc; gather dims l2 acc).
Proof.
  revert acc. induction l1 as [|dim l1 IH]; intros acc; [done|]. cbn [app gather].
  destruct (acc.1 !! dim) as [e|]; [|done]. cbn [mbind option_bind].
  destruct (dims !! acc.2) as [d|]; [|done]. cbn [mbind option_bind].
  destruct (mul_u64 e d); [|done]. apply IH.
Qed.
Lemma level_loop_gather dims level fr dim acc :
  level_loop dims level fr dim acc = gather dims (level_labels level fr dim) acc.
Proof.
  revert dim acc. induction fr as [|c fr IH]; intros dim acc; [done|].
  cbn [level_loop level_labels]. destruct (level <? c); cbn [app gather]; [|apply IH].
  destruct (acc.1 !! dim) as [e|]; [|done]. cbn [mbind option_bind].
  destruct (dims !! acc.2) as [d|]; [|done]. cbn [mbind option_bind].
  destruct (mul_u64 e d); [|done]. apply IH.
Qed.
Lemma levels_loop_gather dims fr level n acc :
  levels_loop dims fr level n acc = gather dims (labels fr level n) acc.
Proof.
  revert level acc. induction n as [|n IH]; intros level acc; [done|].
  cbn [levels_loop labels]. rewrite level_loop_gather, gather_app.
  destruct (gather dims (level_labels level fr 0) acc); [|done]. apply IH.
Qed.

(** What the logical dimension [i] collects. *)
Definition collected (i : nat) (ls : list nat) (dims : Shape) : Z :=
  prod_Z (snd <$> filter (λ p : nat * Z, p.1 = i) (zip ls dims)).

Lemma collected_cons i dim ls d dims :
  collected i (dim :: ls) (d :: dims) = (if decide (dim = i) then d else 1) * collected i ls dims.
Proof.
  unfold collected. cbn [zip zip_with]. case_decide.
  - by rewrite filter_cons_True.
  - by rewrite filter_cons_False, Z.mul_1_l.
Qed.
Lemma prod_Z_insert (l : list Z) i e x :
  l !! i = Some e → prod_Z (<[i := e * x]> l) = prod_Z l * x.
Proof.
  revert i. induction l as [|y l IH]; intros [|i] Hi; try done; cbn in Hi.
  - injection Hi as ->. cbn [insert list_insert]. rewrite !prod_Z_cons. ring.
  - cbn [insert list_insert]. rewrite !prod_Z_cons, IH by done. ring.
Qed.
Lemma prod_Z_elem (l : list Z) i e :
  Forall (Z.le 1) l → l !! i = Some e → 1 <= e <= prod_Z l.
Proof.
  intros Hl. revert i. induction Hl as [|y l Hy Hl IH]; intros [|i] Hi; try done; cbn in Hi;
    rewrite prod_Z_cons; pose proof (prod_Z_pos l Hl).
  - injection Hi as ->. nia.
  - apply IH in Hi. nia.
Qed.
Lemma gather_spec dims ls ext phys :
  (phys + length ls = length dims)%nat → Forall (Z.le 1) dims → Forall (Z.le 1) ext →
  Forall (λ dim, (dim < length ext)%nat) ls → prod_Z ext * prod_Z (drop phys dims) <= u64_max →
  ∃ ext', gather dims ls (ext, phys) = Some (ext', length dims) ∧ length ext' = length ext ∧
    prod_Z ext' = prod_Z ext * prod_Z (drop phys dims) ∧
    ∀ i e, ext !! i = Some e → ext' !! i = Some (e * collected i ls (drop phys dims)).
Proof.
  intros Hlen Hd. revert ext phys Hlen.
  induction ls as [|dim ls IH]; intros ext phys Hlen He Hls Hp; cbn [gather length] in *.
  { assert (phys = length dims) as -> by lia. rewrite drop_all. exists ext.
    split_and!; [done|done|cbn; lia|]. intros i e Hi. rewrite Hi. f_equal. cbn. lia. }
  apply Forall_cons in Hls as [Hdim Hls].
  destruct (lookup_lt_is_Some_2 ext dim Hdim) as [e Hext].
  destruct (lookup_lt_is_Some_2 dims phys ltac:(lia)) as [d Hdims].
  pose proof (drop_S dims d phys Hdims) as Hdrop. rewrite Hdrop in *. rewrite prod_Z_cons in Hp |- *.
  pose proof (prod_Z_elem ext dim e He Hext) as Heb.
  assert (1 <= d) as Hd1 by (by apply (proj1 (Forall_lookup _ _) Hd phys)).
  assert (1 <= prod_Z (drop (S phys) dims)) as Hrest by (apply prod_Z_pos; by apply Forall_drop).
  assert (e * d <= prod_Z ext * d * 1) as Hed by nia.
  assert (prod_Z ext * d * 1 <= prod_Z ext * d * prod_Z (drop (S phys) dims)) as Hed'.
  { apply Z.mul_le_mono_nonneg_l; nia. }
  cbn [fst snd]. rewrite Hext, Hdims. cbn [mbind option_bind].
  rewrite mul_u64_Some by lia. cbn [mbind option_bind].
  destruct (IH (<[dim := e * d]> ext) (S phys)) as (ext' & Hg & Hlen' & Hprod & Hc).
  - lia.
  - apply Forall_insert; [done|nia].
  - by rewrite length_insert.
  - rewrite prod_Z_insert by done. lia.
  - exists ext'. rewrite length_insert in Hlen'. rewrite prod_Z_insert in Hprod by done.
    split_and!; [done|done|lia|]. intros i e0 Hi. rewrite collected_cons. case_decide as Hdi.
    + subst i. assert (e0 = e) as -> by congruence. rewrite (Hc dim (e * d)).
      * f_equal. ring.
      * by apply list_lookup_insert_eq.
    + rewrite (Hc i e0); [f_equal; ring|]. by rewrite list_lookup_insert_ne.
Qed.

Lemma labels_length fr n :
  Forall (λ f, 1 <= f) fr →
  Z.of_nat (length (labels fr 0 n)) = sum_Z ((λ c, Z.min c (Z.of_nat n)) <$> fr).
Proof.
  intros Hfr.
  assert (∀ level dim, Z.of_nat (length (level_labels level fr dim)) =
    sum_Z ((λ c, if level <? c then 1 else 0) <$> fr)) as Hlevel.
  { intros level. induction fr as [|c l IH]; intros dim; [done|].
    apply Forall_cons in Hfr as [_ Hfr]. cbn [level_labels]. rewrite length_app, fmap_cons, sum_Z_cons.
    rewrite Nat2Z.inj_add, (IH Hfr). by destruct (level <? c). }
  assert (∀ level, 0 <= level → Z.of_nat (length (labels fr level n)) =
    sum_Z ((λ c, Z.min (Z.max 0 (c - level)) (Z.of_nat n)) <$> fr)) as Hgen.
  { induction n as [|n IH]; intros level Hlv; cbn [labels].
    - clear -Hfr. induction fr as [|c l IH]; [done|]. apply Forall_cons in Hfr as [_ Hfr].
      rewrite fmap_cons, sum_Z_cons, <- (IH Hfr). cbn [length]. lia.
    - rewrite length_app, Nat2Z.inj_add, Hlevel, IH by lia.
      clear. induction fr as [|c l IH]; [done|]. rewrite !fmap_cons, !sum_Z_cons, <- IH.
      destruct (Z.ltb_spec level c); lia. }
  rewrite Hgen by lia. f_equal. apply list_fmap_ext. intros i c Hi.
  assert (1 <= c) by by apply (proj1 (Forall_lookup _ _) Hfr i). lia.
Qed.
Lemma labels_bound fr level n : Forall (λ dim, (dim < length fr)%nat) (labels fr level n).
Proof.
  assert (∀ fr level dim, Forall (λ j, (j < dim + length fr)%nat) (level_labels level fr dim)) as Hl.
  { clear. intros fr level. induction fr as [|c l IH]; intros dim; cbn [level_labels length]; [constructor|].
    apply Forall_app. split; [destruct (level <? c); repeat constructor; lia|].
    eapply Forall_impl; [apply IH|]. cbn. lia. }
  revert level. induction n as [|n IH]; intros level; cbn [labels]; [constructor|].
  apply Forall_app. split; [apply (Hl fr level 0%nat)|apply IH].
Qed.

(** The shape a tiled buffer stands for.  A buffer whose tiling fits its
    rank has one logical extent per logical dimension, the product of the
    physical dimensions that are its fragments, level by level; every physical
    dimension is in exactly one, so that the two shapes have the same number
    of elements, and no product overflows when that one does not. *)
Theorem logical_shape_correct (m : Metadata) (n : nat) (fr : list Z) :
  metadata_logical_rank m = Some (Ok n) → fragments (tiling m) n = Some fr →
  Forall (Z.le 1) (shape m) → prod_Z (shape m) <= u64_max →
  ∃ extents, logical_shape m = Some (Ok extents) ∧ length extents = n ∧
    prod_Z extents = prod_Z (shape m) ∧
    ∀ i, (i < n)%nat →
      extents !! i = Some (collected i (labels fr 0 MAX_FRAGMENTS) (shape m)).
Proof.
  intros Hn Hfr Hs Hp. unfold logical_shape. rewrite Hn. unfold try_bind; cbn [mbind option_bind].
  rewrite Hfr. cbn [mbind option_bind]. rewrite levels_loop_gather.
  unfold metadata_logical_rank in Hn.
  apply logical_rank_inv in Hn as (fr' & [Hlen Hok] & Ht & <- & Hf' & Hr).
  assert (fr = fr') as -> by congruence. clear Hf' Hfr.
  assert (Z.of_nat (length (labels fr' 0 MAX_FRAGMENTS)) = sum_Z fr') as Hll.
  { rewrite labels_length; [|eapply Forall_impl; [exact Hok|]; cbn; lia]. f_equal.
    rewrite <- (list_fmap_id fr') at 2. apply list_fmap_ext. intros i c Hi. cbn.
    assert (1 <= c <= Z.of_nat MAX_FRAGMENTS) by by apply (proj1 (Forall_lookup _ _) Hok i).
    unfold MAX_FRAGMENTS in *. lia. }
  assert (∀ k, prod_Z (replicate k 1) = 1) as Hones.
  { intros k. induction k as [|k IH]; [done|]. cbn [replicate]. rewrite prod_Z_cons, IH. lia. }
  destruct (gather_spec (shape m) (labels fr' 0 MAX_FRAGMENTS) (replicate (length fr') 1) 0)
    as (ext & Hg & Hle & Hprod & Hc).
  - unfold metadata_rank in Hr. lia.
  - done.
  - apply Forall_replicate. lia.
  - rewrite length_replicate. apply labels_bound.
  - rewrite Hones, drop_0. lia.
  - rewrite Hg. cbn. exists ext. rewrite length_replicate in Hle. rewrite Hones, drop_0 in Hprod.
    split_and!; [done|done|lia|]. intros i Hi. rewrite (Hc i 1); [by rewrite drop_0, Z.mul_1_l|].
    apply lookup_replicate. done.
Qed.
Lemma logical_shape_correct_witness (m := mk_Metadata [2; 128; 344; 32; 32] [1; 1; 1; 1; 1] 20) :
  ∃ extents, logical_shape m = Some (Ok extents) ∧ prod_Z extents = prod_Z [2; 128; 344; 32; 32].
Proof.
  destruct (logical_shape_correct m 3 [1; 2; 2]) as (extents & Hl & _ & Hp & _);
    [done|done|repeat constructor; lia|cbn; lia|]. by exists extents.
Defined.

Lemma packed_ones n : packed (replicate n 1) = 0.
Proof. induction n as [|n IH]; [done|]. cbn [replicate packed]. rewrite IH. lia. Qed.
Lemma ones_ok n : (n <= MAX_LOGICAL_DIMS)%nat → fragments_ok (replicate n 1).
Proof.
  intros. split; [by rewrite length_replicate|]. apply Forall_replicate. unfold MAX_FRAGMENTS. lia.
Qed.
Lemma fragments_untiled n :
  (n <= MAX_LOGICAL_DIMS)%nat → fragments UNTILED n = Some (replicate n 1).
Proof.
  intros Hn. pose proof (fragments_packed _ (ones_ok n Hn)) as Hf.
  by rewrite packed_ones, length_replicate in Hf.
Qed.
Lemma fragments_past t n : (MAX_LOGICAL_DIMS < n)%nat → fragments t n = None.
Proof.
  unfold MAX_LOGICAL_DIMS, fragments. intros Hn. destruct (mapM _ _) as [l|] eqn:Hl; [|done].
  apply mapM_Some_1 in Hl. apply Forall2_lookup with (i := 8%nat) in Hl.
  rewrite lookup_seq_lt in Hl by done. by inversion Hl.
Qed.
Lemma untiled_logical_rank rank :
  tiling_logical_rank UNTILED rank =
    if decide (rank <= MAX_LOGICAL_DIMS)%nat then Some (Ok rank) else None.
Proof.
  case_decide as Hr.
  - pose proof (logical_rank_packed (replicate rank 1) rank (ones_ok rank Hr)) as Hl.
    rewrite packed_ones, length_replicate in Hl. apply Hl.
    clear. induction rank as [|n IH]; [done|]. cbn [replicate]. rewrite sum_Z_cons, <- IH. lia.
  - unfold tiling_logical_rank. change (mapM (levels UNTILED) _) with (Some (replicate 8 0)).
    cbn [mbind option_bind]. change (sum_Z (replicate 8 0)) with 0.
    rewrite decide_False by lia. rewrite fragments_past by lia. done.
Qed.
Lemma level_loop_past dims level n dim acc :
  1 <= level → level_loop dims level (replicate n 1) dim acc = Some acc.
Proof.
  intros Hl. revert dim. induction n as [|n IH]; intros dim; [done|]. cbn [replicate level_loop].
  destruct (Z.ltb_spec level 1); [lia|]. apply IH.
Qed.
Lemma level_loop_untiled_from dims rest done_ :
  dims = done_ ++ rest → Forall is_u64 dims →
  level_loop dims 0 (replicate (length rest) 1) (length done_)
    (done_ ++ replicate (length rest) 1, length done_) = Some (dims, length dims).
Proof.
  revert done_. induction rest as [|d rest IH]; intros done_ -> Hu; cbn [length replicate level_loop].
  { by rewrite app_nil_r. }
  change (0 <? 1) with true. cbn [fst snd]. rewrite !lookup_middle. cbn [mbind option_bind].
  assert (is_u64 d) as Hd by (apply Forall_app in Hu as [_ [Hd _]%Forall_cons]; done).
  unfold is_u64 in Hd. rewrite mul_u64_Some, Z.mul_1_l by lia. cbn [mbind option_bind].
  rewrite insert_middle. specialize (IH (done_ ++ [d])).
  rewrite length_app, Nat.add_1_r, <- !app_assoc in IH. by apply IH.
Qed.
Lemma level_loop_untiled dims :
  Forall is_u64 dims →
  level_loop dims 0 (replicate (length dims) 1) 0 (replicate (length dims) 1, 0%nat) =
    Some (dims, length dims).
Proof. apply (level_loop_untiled_from dims dims []). done. Qed.

(** An untiled buffer of up to eight dimensions stands for its own shape,
    as the documentation has it; one of more than eight is not refused: the
    number of fragments of the ninth dimension is a shift past the width of
    the word, a panic. *)
Theorem untiled_logical_shape (m : Metadata) :
  tiling m = UNTILED → Forall is_u64 (shape m) →
  logical_shape m =
    if decide (metadata_rank m <= MAX_LOGICAL_DIMS)%nat then Some (Ok (shape m)) else None.
Proof.
  intros Ht Hu. unfold logical_shape, metadata_logical_rank, metadata_rank.
  rewrite Ht. rewrite untiled_logical_rank. case_decide as Hr; [|done].
  unfold try_bind; cbn [mbind option_bind]. rewrite fragments_untiled by done.
  cbn [mbind option_bind]. rewrite length_replicate.
  unfold MAX_FRAGMENTS. cbn [levels_loop].
  rewrite level_loop_untiled by done. cbn [mbind option_bind].
  do 3 (rewrite level_loop_past by lia; cbn [mbind option_bind]). done.
Qed.
Lemma untiled_logical_shape_witness :
  logical_shape (mk_Metadata [2; 3] [3; 1] UNTILED) = Some (Ok [2; 3]) ∧
  logical_shape (mk_Metadata (replicate 9 1) (replicate 9 1) UNTILED) = None.
Proof.
  split; rewrite untiled_logical_shape; try done; unfold is_u64; repeat constructor; cbn; lia.
Defined.
