(* ===== verification/DropQueue.v ===== *)
(** * Drop queue

    [cubecl-server/src/memory_management/drop_queue/]: host memory a device
    still reads is kept until a fence says that it has.  The fence of a backend
    is an interface; what the device has read is a timeline, of which the
    interface promises that a fence waits for what was submitted before it. *)

From S2P Require Export Server.
From stdpp Require Import list.
#[local] Open Scope Z_scope.

(** An allocation of host memory: which one, and how many bytes of it are
    used. *)
Record Bytes := mk_Bytes { bytes_id : Z; bytes_len : Z }.

(** ** [FlushingPolicy] and its state *)
Record FlushingPolicy := mk_FlushingPolicy { max_bytes_count : Z; max_bytes_size : Z }.
Definition policy_default : FlushingPolicy := mk_FlushingPolicy 64 (64 * 1024 * 1024).

Record FlushingPolicyState := mk_FlushingPolicyState { bytes_count : Z; bytes_size : Z }.
Definition policy_reset : FlushingPolicyState := mk_FlushingPolicyState 0 0.
(** [u32::try_from(n).unwrap_or(u32::MAX)] *)
Definition u32_or_max (n : Z) : Z := if n <=? u32_max then n else u32_max.
Definition policy_register (b : Bytes) (st : FlushingPolicyState) : FlushingPolicyState :=
  mk_FlushingPolicyState (sat_add u32_max (bytes_count st) 1)
    (sat_add u32_max (bytes_size st) (u32_or_max (bytes_len b))).
Definition policy_should_flush (policy : FlushingPolicy) (st : FlushingPolicyState) : bool :=
  (max_bytes_count policy <=? bytes_count st) || (max_bytes_size policy <=? bytes_size st).

(** ** The queue *)

(** [Fence]: waiting for what the device was given before it. *)
Class Fence (F D : Type) := fence_wait : F → M D (result unit ServerError).
(** [Fence::sync]: the fault a wait reveals is not looked at. *)
Definition fence_sync `{Fence F D} (f : F) : M D unit := _ ← fence_wait f; mret tt.

Record PendingDropQueue (F : Type) := mk_PendingDropQueue {
  fence : option F;
  pending : list Bytes;
  staged : list Bytes;
  policy : FlushingPolicy;
  policy_state : FlushingPolicyState;
}.
Arguments mk_PendingDropQueue {F}. Arguments fence {F}. Arguments pending {F}.
Arguments staged {F}. Arguments policy {F}. Arguments policy_state {F}.

(** The device, and the allocations dropped so far, in order. *)
Record DropWorld (D : Type) := mk_DropWorld { device : D; dropped : list Bytes }.
Arguments mk_DropWorld {D}. Arguments device {D}. Arguments dropped {D}.

Section queue.
Context {F D : Type} `{Fence F D}.
Implicit Types (q : PendingDropQueue F) (w : DropWorld D).

Definition on_device {A} (m : M D A) : M (DropWorld D) A := λ w,
  match m (device w) with Some (a, d) => Some (a, mk_DropWorld d (dropped w)) | None => None end.
(** Dropping a [Bytes] frees its allocation; [Vec::clear] drops the elements
    in order. *)
Definition drop_bytes (l : list Bytes) : M (DropWorld D) unit :=
  modify (λ w, mk_DropWorld (device w) (dropped w ++ l)).

Definition queue_new (policy : FlushingPolicy) : PendingDropQueue F :=
  mk_PendingDropQueue None [] [] policy policy_reset.
Definition push (bytes : Bytes) (q : PendingDropQueue F) : PendingDropQueue F :=
  mk_PendingDropQueue (fence q) (pending q) (staged q ++ [bytes]) (policy q)
    (policy_register bytes (policy_state q)).
Definition should_flush (q : PendingDropQueue F) : bool :=
  policy_should_flush (policy q) (policy_state q).

Definition take_fence (q : PendingDropQueue F) : PendingDropQueue F :=
  mk_PendingDropQueue None (pending q) (staged q) (policy q) (policy_state q).
(** [pending.clear()] *)
Definition clear_pending (q : PendingDropQueue F) : M (DropWorld D) (PendingDropQueue F) :=
  _ ← drop_bytes (pending q);
  mret (mk_PendingDropQueue (fence q) [] (staged q) (policy q) (policy_state q)).

Definition flush (factory : M D F) (q : PendingDropQueue F) :
    M (DropWorld D) (PendingDropQueue F) :=
  if bool_decide (pending q = []) && bool_decide (staged q = []) then mret q
  else
    q ← (match fence q with
         | Some event =>
             let q := take_fence q in
             _ ← on_device (fence_sync event);
             clear_pending q
         | None => mret q
         end);
    q ← (if negb (bool_decide (pending q = [])) then
           event ← on_device factory;
           _ ← on_device (fence_sync event);
           clear_pending q
         else mret q);
    event ← on_device factory;
    mret (mk_PendingDropQueue (Some event) (staged q) (pending q) (policy q) policy_reset).

Definition drain (factory : M D F) (q : PendingDropQueue F) :
    M (DropWorld D) (PendingDropQueue F) :=
  q ← flush factory q; flush factory q.
End queue.

(** ** What a fence promises

    [submitted] counts the commands given to the device, [completed] those it
    is done with; a fence made now marks at least what was submitted, and a
    wait ends, with a fault or not, when the device is past the mark. *)
Class FenceLaws (F D : Type) `{Fence F D} (factory : M D F) := {
  submitted : D → Z;
  completed : D → Z;
  mark : F → Z;
  factory_law d : wp factory d (λ f d',
    submitted d <= mark f <= submitted d' ∧ completed d <= completed d');
  wait_law f d : mark f <= submitted d → wp (fence_wait f) d (λ _ d',
    submitted d <= submitted d' ∧ completed d <= completed d' ∧ mark f <= completed d');
}.

Definition total_len (l : list Bytes) : Z := sum_Z (bytes_len <$> l).
#[global] Arguments total_len : simpl never.

Section specs.
Context {F D : Type} `{Fence F D} (factory : M D F) `{!FenceLaws F D factory}.
(** The last command that reads an allocation. *)
Context (reads : Bytes → Z).
Implicit Types (q : PendingDropQueue F) (w : DropWorld D) (b : Bytes).

(** Later on the timeline. *)
Definition later (d d' : D) : Prop := submitted d <= submitted d' ∧ completed d <= completed d'.
#[local] Instance later_refl : Reflexive later.
Proof. intros d. split; lia. Qed.
#[local] Instance later_trans : Transitive later.
Proof. intros d1 d2 d3 [] []. split; lia. Qed.

(** The counters are those of the staged allocations, up to [u32::MAX]. *)
Definition policy_exact q : Prop :=
  bytes_count (policy_state q) = Z.min u32_max (Z.of_nat (length (staged q))) ∧
  bytes_size (policy_state q) = Z.min u32_max (total_len (staged q)).

Record queue_inv w q : Prop := mk_queue_inv {
  inv_fence : match fence q with
              | None => pending q = []
              | Some f => mark f <= submitted (device w) ∧
                  Forall (λ b, reads b <= mark f) (pending q)
              end;
  inv_staged : Forall (λ b, reads b <= submitted (device w) ∧ 0 <= bytes_len b) (staged q);
  inv_dropped : Forall (λ b, reads b <= completed (device w)) (dropped w);
  inv_policy : policy_exact q;
}.

Lemma queue_inv_new w policy :
  Forall (λ b, reads b <= completed (device w)) (dropped w) → queue_inv w (queue_new policy).
Proof. intros Hd. by split. Qed.

Lemma queue_inv_later d d' l q :
  later d d' → queue_inv (mk_DropWorld d l) q → queue_inv (mk_DropWorld d' l) q.
Proof.
  intros [Hs Hc] [Hf Hst Hd Hp]. split; [| | |done]; cbn in *.
  - destruct (fence q); [|done]. destruct Hf as [Hm Hf]. split; [lia|done].
  - eapply Forall_impl; [exact Hst|]. cbn. lia.
  - eapply Forall_impl; [exact Hd|]. cbn. lia.
Qed.

Lemma total_len_app l1 l2 : total_len (l1 ++ l2) = total_len l1 + total_len l2.
Proof. unfold total_len. by rewrite fmap_app, sum_Z_app. Qed.
Lemma total_len_nonneg l : Forall (λ b, 0 <= bytes_len b) l → 0 <= total_len l.
Proof. intros Hl. apply sum_Z_nonneg, Forall_fmap, Hl. Qed.

Lemma policy_exact_push b q :
  Forall (λ b, 0 <= bytes_len b) (staged q) → 0 <= bytes_len b →
  policy_exact q → policy_exact (push b q).
Proof.
  intros Hl%total_len_nonneg Hb [Hc Hs]. unfold policy_exact; cbn.
  assert (total_len [b] = bytes_len b) as Hone by (unfold total_len; cbn; lia).
  rewrite Hc, Hs, length_app, total_len_app, Hone. unfold sat_add, u32_or_max; cbn.
  destruct (Z.leb_spec (bytes_len b) u32_max); lia.
Qed.

Lemma queue_inv_push w q b :
  queue_inv w q → reads b <= submitted (device w) → 0 <= bytes_len b → queue_inv w (push b q).
Proof.
  intros [Hf Hst Hd Hp] Hr Hb. split; [done| |done|]; cbn.
  - apply Forall_app. split; [done|]. by constructor.
  - apply policy_exact_push; [|done|done]. eapply Forall_impl; [exact Hst|]. by intros ? [].
Qed.

Lemma wp_on_device {A} (m : M D A) w (Q : A → DropWorld D → Prop) :
  wp m (device w) (λ a d, Q a (mk_DropWorld d (dropped w))) → wp (on_device m) w Q.
Proof. unfold wp, on_device. by destruct (m (device w)) as [[a d]|]. Qed.

Lemma wp_fence_sync f d :
  mark f <= submitted d → wp (fence_sync f) d (λ _ d', later d d' ∧ mark f <= completed d').
Proof.
  intros Hm. apply wp_bind. eapply wp_mono; [by apply wait_law|].
  intros r d' (? & ? & ?). by apply wp_ret.
Qed.

(** The end of a flush, when nothing is pending any more. *)
Lemma wp_rotate w q :
  Forall (λ b, reads b <= submitted (device w)) (staged q) →
  Forall (λ b, reads b <= completed (device w)) (dropped w) →
  wp (event ← on_device factory;
      mret (mk_PendingDropQueue (Some event) (staged q) [] (policy q) policy_reset)) w
    (λ q' w', queue_inv w' q' ∧ later (device w) (device w') ∧ dropped w' = dropped w ∧
      pending q' = staged q ∧ staged q' = [] ∧ policy q' = policy q).
Proof.
  intros Hst Hd. apply wp_bind, wp_on_device. eapply wp_mono; [apply factory_law|].
  intros f d' [[Hm1 Hm2] Hc]. apply wp_ret.
  split_and!; [|split; cbn; lia|done..].
  split; cbn; [split; [lia|]|constructor| |split; reflexivity].
  - eapply Forall_impl; [exact Hst|]. cbn. lia.
  - eapply Forall_impl; [exact Hd|]. cbn. lia.
Qed.

(** A flush drops what is pending and makes what is staged pending. *)
Lemma wp_flush w q :
  queue_inv w q →
  wp (flush factory q) w (λ q' w',
    queue_inv w' q' ∧ later (device w) (device w') ∧
    dropped w' = dropped w ++ pending q ∧ pending q' = staged q ∧ staged q' = [] ∧
    policy q' = policy q).
Proof.
  intros Hinv. pose proof Hinv as [Hf Hst Hd Hp]. unfold flush.
  destruct (bool_decide (pending q = []) && bool_decide (staged q = [])) eqn:He.
  { apply andb_true_iff in He as [Hpe%bool_decide_eq_true Hse%bool_decide_eq_true].
    apply wp_ret. rewrite Hpe, Hse, app_nil_r. by split_and!. }
  clear He. destruct (fence q) as [f|] eqn:Hfence.
  - destruct Hf as [Hm Hf]. apply wp_bind, wp_bind, wp_on_device.
    eapply wp_mono; [by apply wp_fence_sync|]. intros _ d' [Hlat Hmark].
    apply wp_bind, wp_modify, wp_ret; cbn. apply wp_bind, wp_ret; cbn.
    eapply wp_mono; [apply (wp_rotate (mk_DropWorld d' (dropped w ++ pending q)) q); cbn|].
    + eapply Forall_impl; [exact Hst|]. cbn. intros b [? _]. etrans; [done|]. apply Hlat.
    + apply Forall_app. split; (eapply Forall_impl; [done|]; cbn; intros b ?); [|lia].
      etrans; [done|]. apply Hlat.
    + cbn. intros q' w' (? & ? & ? & ? & ? & ?). split_and!; try done. by etrans.
  - apply wp_bind, wp_ret. rewrite Hf. apply wp_bind, wp_ret; cbn. rewrite Hf.
    eapply wp_mono; [apply (wp_rotate w q); [|done]|].
    + eapply Forall_impl; [exact Hst|]. by intros b [].
    + intros q' w' (? & ? & ? & ? & ? & ?). rewrite app_nil_r. by split_and!.
Qed.

(** ** Runs of the queue *)

(** A push hands over bytes all of whose readers were submitted; the device
    works, and takes other commands, at any time. *)
Inductive queue_step : DropWorld D * PendingDropQueue F * list Bytes →
    DropWorld D * PendingDropQueue F * list Bytes → Prop :=
| step_push w q l b :
    reads b <= submitted (device w) → 0 <= bytes_len b →
    queue_step (w, q, l) (w, push b q, l ++ [b])
| step_flush w q l w' q' :
    flush factory q w = Some (q', w') → queue_step (w, q, l) (w', q', l)
| step_drain w q l w' q' :
    drain factory q w = Some (q', w') → queue_step (w, q, l) (w', q', l)
| step_device w q l d :
    later (device w) d → queue_step (w, q, l) (mk_DropWorld d (dropped w), q, l).

(** What holds of the queue, the device and the bytes pushed so far. *)
Definition run_inv (s : DropWorld D * PendingDropQueue F * list Bytes) : Prop :=
  let '(w, q, l) := s in queue_inv w q ∧ l = dropped w ++ pending q ++ staged q.

(** Two flushes leave nothing behind. *)
Lemma wp_drain w q :
  queue_inv w q →
  wp (drain factory q) w (λ q' w',
    queue_inv w' q' ∧ later (device w) (device w') ∧
    dropped w' = dropped w ++ pending q ++ staged q ∧ pending q' = [] ∧ staged q' = []).
Proof.
  intros Hinv. apply wp_bind. eapply wp_mono; [by apply wp_flush|].
  intros q1 w1 (Hinv1 & Hl1 & Hd1 & Hp1 & Hs1 & _).
  eapply wp_mono; [by apply wp_flush|].
  intros q2 w2 (Hinv2 & Hl2 & Hd2 & Hp2 & Hs2 & _). split_and!; [done|by etrans| |congruence|done].
  by rewrite Hd2, Hd1, Hp1, app_assoc.
Qed.

Lemma run_inv_step s s' : run_inv s → queue_step s s' → run_inv s'.
Proof.
  intros Hs Hst. destruct Hst as [w q l b Hr Hb|w q l w' q' Hf|w q l w' q' Hf|w q l d Hl];
    destruct Hs as [Hinv ->]; cbn.
  - split; [by apply queue_inv_push|]. by rewrite <- !app_assoc.
  - pose proof (wp_flush w q Hinv) as Hw. unfold wp in Hw. rewrite Hf in Hw.
    destruct Hw as (? & _ & -> & -> & -> & _). split; [done|]. by rewrite app_nil_r, app_assoc.
  - pose proof (wp_drain w q Hinv) as Hw. unfold wp in Hw. rewrite Hf in Hw.
    destruct Hw as (? & _ & -> & -> & ->). split; [done|]. by rewrite !app_nil_r.
  - split; [|done]. destruct w as [d0 dr]. by eapply queue_inv_later.
Qed.

(** C38: the queue over any run of pushes, flushes and drains, with the device
    working in between.  No allocation is dropped before the device has read
    it; the allocations are dropped once each, in the order they came, and
    none is lost: what came is what was dropped, what waits for the fence and
    what is staged.  A flush is asked for exactly when the staged allocations
    reach a limit of the policy, counted up to [u32::MAX].  A drain always
    returns, and leaves nothing held. *)
Theorem drop_queue_safe d policy w q l :
  rtc queue_step (mk_DropWorld d [], queue_new policy, []) (w, q, l) →
  Forall (λ b, reads b <= completed (device w)) (dropped w) ∧
  l = dropped w ++ pending q ++ staged q ∧
  (should_flush q = true ↔
    max_bytes_count (DropQueue.policy q) <= Z.min u32_max (Z.of_nat (length (staged q))) ∨
    max_bytes_size (DropQueue.policy q) <= Z.min u32_max (total_len (staged q))) ∧
  wp (drain factory q) w (λ q' w', dropped w' = l ∧ pending q' = [] ∧ staged q' = []).
Proof.
  intros Hrun. assert (run_inv (w, q, l)) as [Hinv ->].
  { assert (run_inv (mk_DropWorld d [], queue_new policy, [])) as H0
      by (split; [by apply queue_inv_new; constructor|done]).
    revert H0. induction Hrun as [s|s1 s2 s3 Hst _ IH]; [done|]. intros H1.
    apply IH. by eapply run_inv_step. }
  split_and!; [apply Hinv|done| |].
  - destruct (inv_policy _ _ Hinv) as [Hc Hs]. unfold should_flush, policy_should_flush.
    rewrite Hc, Hs, orb_true_iff, !Z.leb_le. done.
  - eapply wp_mono; [by apply wp_drain|]. by intros q' w' (_ & _ & ? & ? & ?).
Qed.
End specs.

(** ** A device *)
Section timeline.

(** A device that counts the commands it was given and those it is done with,
    and whose waits report a fault when it has one. *)
Record Timeline := mk_Timeline { given : Z; done_with : Z; fault : option ServerError }.
#[local] Instance timeline_fence : Fence Z Timeline := λ f d,
  Some (match fault d with Some e => Err e | None => Ok tt end,
        mk_Timeline (given d) (Z.max (done_with d) f) (fault d)).
Definition timeline_signal : M Timeline Z := λ d,
  Some (given d + 1, mk_Timeline (given d + 1) (done_with d) (fault d)).
#[local] Instance timeline_laws : FenceLaws Z Timeline timeline_signal.
Proof.
  refine (Build_FenceLaws _ _ _ _ given done_with id _ _).
  - intros d. cbn. lia.
  - intros f d Hf. cbn in *. lia.
Defined.

Definition bytes_read (b : Bytes) : Z := bytes_id b.

(** Two allocations go through the queue of a device that faulted. *)
Lemma drop_queue_safe_witness :
  let d0 := mk_Timeline 4 2 (Some TornDown) in
  let d1 := mk_Timeline 5 2 (Some TornDown) in
  let a := mk_Bytes 3 100 in let b := mk_Bytes 5 7 in
  ∃ q, rtc (queue_step timeline_signal bytes_read) (mk_DropWorld d0 [], queue_new policy_default, [])
         (mk_DropWorld d1 [], q, [a; b]) ∧
    pending q = [a] ∧ staged q = [b] ∧
    wp (drain timeline_signal q) (mk_DropWorld d1 []) (λ q' w', dropped w' = [a; b]).
Proof.
  intros d0 d1 a b.
  assert (rtc (queue_step timeline_signal bytes_read)
    (mk_DropWorld d0 [], queue_new policy_default, [])
    (mk_DropWorld d1 [], mk_PendingDropQueue (Some 5) [a] [b] policy_default
       (policy_register b policy_reset), [a; b])) as Hrun.
  { eapply rtc_l; [eapply (step_push _ _ _ _ [] a); cbn; lia|].
    eapply rtc_l; [eapply step_flush; reflexivity|].
    eapply rtc_l; [eapply (step_push _ _ _ _ [a] b); cbn; lia|]. apply rtc_refl. }
  eexists. split; [exact Hrun|]. split; [done|]. split; [done|].
  eapply wp_mono; [apply (drop_queue_safe timeline_signal bytes_read d0 policy_default _ _ _ Hrun)|].
  intros q' w' [? _]. assumption.
Defined.
End timeline.
