(* ===== verification/Streams.v ===== *)
(** * Streams and their failures

    [cubecl-server/src/stream/base.rs]: the pool of backend streams, and the
    recording of a failure on the memory work was to write; and
    [cubecl-server/src/stream/failures.rs]: the store of a device's failures
    and the scope of a write.  The memory of a stream is an interface
    ([StreamMemory]) whose laws are those of the taint of each allocation. *)

From S2P Require Export Handle Taint.
From stdpp Require Import list.
#[local] Open Scope Z_scope.

Abbreviation StreamId := Z (only parsing).

(** [cubecl-runtime/src/server/handle.rs] *)
Record BufferBinding := mk_BufferBinding {
  binding_memory : ManagedMemoryId;
  binding_offset_start : option Z;
  binding_offset_end : option Z;
  binding_stream : StreamId;
  binding_size : Z;
}.
Definition binding_range (b : BufferBinding) : option Range :=
  end_ ← sub_u64 (binding_size b) (default 0 (binding_offset_end b));
  Some (default 0 (binding_offset_start b), end_).

(** ** The pool of streams *)
Record StreamPool (S : Type) := mk_StreamPool {
  streams : list (option S);
  max_streams : nat;
}.
Arguments mk_StreamPool {S}. Arguments streams {S}. Arguments max_streams {S}.
Definition with_streams {S} (l : list (option S)) (p : StreamPool S) : StreamPool S :=
  mk_StreamPool l (max_streams p).

Definition stream_index (stream_id : StreamId) (max_streams : nat) : option nat :=
  if decide (max_streams = 0%nat) then None
  else Some (Z.to_nat (stream_id mod Z.of_nat max_streams)).

Section pool.
Context {S : Type}.
Implicit Types (p : StreamPool S).

Definition pool_new (max_streams num_special : Z) : StreamPool S :=
  mk_StreamPool (replicate (Z.to_nat (sat_add u8_max max_streams num_special)) None)
    (Z.to_nat max_streams).
(** [streams_mut] and [streams]: the ones that were initialized. *)
Definition pool_streams p : list S := omap id (streams p).
Definition stream_ids p : list StreamId :=
  omap (λ '(i, s), (λ _ : S, Z.of_nat i) <$> s) (imap (λ i s, (i, s)) (take (max_streams p) (streams p))).
(** The stream at an index, created when there is none.  An index past the
    end is undefined behaviour. *)
Definition get_mut_index (create : S) (index : nat) p : option (S * StreamPool S) :=
  entry ← streams p !! index;
  match entry with
  | Some s => Some (s, p)
  | None => Some (create, with_streams (<[index := Some create]> (streams p)) p)
  end.
Definition get_mut (create : S) (stream_id : StreamId) p : option (S * StreamPool S) :=
  index ← stream_index stream_id (max_streams p); get_mut_index create index p.
Definition get_special (create : S) (index : nat) p : option (S * StreamPool S) :=
  get_mut_index create (max_streams p + index)%nat p.
(** [try_get] and [try_get_mut]: a panic past the end. *)
Definition try_get p (stream_id : StreamId) : option (option S) :=
  index ← stream_index stream_id (max_streams p); streams p !! index.

(** The slots of a new pool: the regular ones, which every id has one of, and
    the special ones, which exist as long as they and the regular ones are no
    more than a [u8] counts. *)
Lemma pool_new_slots (create : S) max special id :
  0 < max → 0 <= special → max + special <= u8_max →
  is_Some (get_mut create id (pool_new max special)) ∧
  ∀ i, Z.of_nat i < special → is_Some (get_special create i (pool_new max special)).
Proof.
  intros Hm Hs Hu. assert (∀ i, Z.of_nat i < max + special →
    is_Some (get_mut_index create i (pool_new max special))) as Hget.
  { intros i Hi. unfold get_mut_index. cbn. rewrite lookup_replicate_2; [by eexists|unfold sat_add; lia]. }
  split; [|intros i Hi; apply Hget; cbn; lia]. unfold get_mut, stream_index. cbn.
  rewrite decide_False by lia. cbn. apply Hget.
  pose proof (Z.mod_pos_bound id (Z.of_nat (Z.to_nat max)) ltac:(lia)). lia.
Qed.
(** With 255 regular slots there is no room for a special one. *)
Lemma no_special_slot (create : S) : get_special create 0 (pool_new 255 1) = None.
Proof. reflexivity. Qed.
End pool.

(** ** The memory of a stream *)
Class StreamMemory (S : Type) := {
  memory_failure : S → BufferBinding → option (option FailureId);
  memory_taint : S → BufferBinding → FailureId → M ErrorGraph S;
  memory_written : S → BufferBinding → M ErrorGraph S;
}.

(** [ReadFailure] *)
Record ReadFailure := mk_ReadFailure {
  read_failure_id : FailureId;
  read_needed : ManagedMemoryId;
  read_error : ServerError;
}.

(** The pool of a device, what its failures mean, and the pooled write set. *)
Record Device (S : Type) := mk_Device {
  device_pool : StreamPool S;
  graph : ErrorGraph;
  scratch : list BufferBinding;
}.
Arguments mk_Device {S}. Arguments device_pool {S}. Arguments graph {S}. Arguments scratch {S}.

Section failures.
Context {S : Type} `{StreamMemory S}.
Implicit Types (d : Device S).

Definition with_pool (p : StreamPool S) d := mk_Device p (graph d) (scratch d).
Definition with_graph (g : ErrorGraph) d := mk_Device (device_pool d) g (scratch d).
Definition with_scratch (l : list BufferBinding) d := mk_Device (device_pool d) (graph d) l.
Definition on_graph {A} (m : M ErrorGraph A) : M (Device S) A := λ d,
  match m (graph d) with Some (a, g) => Some (a, with_graph g d) | None => None end.

(** The loop of [taint_with], and that of [written]. *)
Definition stream_update (f : S → BufferBinding → M ErrorGraph S) (handle : BufferBinding) :
    M (Device S) unit :=
  d ← get;
  stream ← lift (try_get (device_pool d) (binding_stream handle));
  match stream with
  | None => mret tt
  | Some s =>
      index ← lift (stream_index (binding_stream handle) (max_streams (device_pool d)));
      s ← on_graph (f s handle);
      modify (λ d, with_pool (with_streams (<[index := Some s]> (streams (device_pool d))) (device_pool d)) d)
  end.
Fixpoint update_all (f : S → BufferBinding → M ErrorGraph S) (handles : list BufferBinding) :
    M (Device S) unit :=
  match handles with
  | [] => mret tt
  | handle :: handles => _ ← stream_update f handle; update_all f handles
  end.
Definition taint_with (failure : FailureId) (handles : list BufferBinding) : M (Device S) unit :=
  update_all (λ s handle, memory_taint s handle failure) handles.
Definition taint_all (error : ServerError) (handles : list BufferBinding) : M (Device S) unit :=
  failure ← on_graph (insert_failure error);
  _ ← taint_with failure handles;
  on_graph (prune failure).
Definition written_all (handles : list BufferBinding) : M (Device S) unit :=
  update_all memory_written handles.

(** ** The failure store *)

(** [pool.try_get(&handle.stream)?.failure(handle)] *)
Definition handle_failure d (handle : BufferBinding) : option (option FailureId) :=
  stream ← try_get (device_pool d) (binding_stream handle);
  match stream with None => Some None | Some s => memory_failure s handle end.

(** The claims [ensure_written] reports, from the store of the handles. *)
Definition descriptor_allocated (dsc : Descriptor) : bool :=
  negb (init (from_bits (location_bits dsc)) =? 0).
Fixpoint read_claims (m : Memory) d (handles : list BufferBinding) : option (list Claim) :=
  match handles with
  | [] => Some []
  | handle :: handles =>
      dsc ← descriptors m !! binding_memory handle;
      if negb (descriptor_allocated dsc) then
        claims ← read_claims m d handles; Some (Unallocated (binding_memory handle) :: claims)
      else
        failure ← handle_failure d handle;
        claims ← read_claims m d handles;
        Some (match failure with None => claims | Some f => Failed f (binding_memory handle) :: claims end)
  end.
Definition ensure_written (m : Memory) d (handles : list BufferBinding) :
    option (result unit ServerError) :=
  claims ← read_claims m d handles; Some (reports (graph d) claims).

Fixpoint read_failure d (reads : list BufferBinding) : option (option ReadFailure) :=
  match reads with
  | [] => Some None
  | handle :: reads =>
      failure ← handle_failure d handle;
      match f ← failure; e ← error_of (graph d) f; Some (mk_ReadFailure f (binding_memory handle) e) with
      | Some found => Some (Some found)
      | None => read_failure d reads
      end
  end.

Definition propagate (found : ReadFailure) (kernel : KernelId) (handles : list BufferBinding) :
    M (Device S) unit :=
  _ ← on_graph (record_skip (read_failure_id found)
        (mk_Skip kernel (read_needed found) (binding_memory <$> handles)));
  _ ← taint_with (read_failure_id found) handles;
  modify (with_scratch []).

Definition write_set : M (Device S) (list BufferBinding) :=
  d ← get; _ ← modify (with_scratch []); mret (scratch d).
Definition enter_write (handles : list BufferBinding) : M (Device S) (option FailureId) :=
  if bool_decide (handles = []) then mret None
  else
    provisional ← on_graph (insert_failure TornDown);
    _ ← taint_with provisional handles;
    mret (Some provisional).
Definition exit_write (provisional : option FailureId) (handles : list BufferBinding)
    (error : option ServerError) : M (Device S) unit :=
  _ ← (match error with
       | None => written_all handles
       | Some e => match provisional with Some p => on_graph (replace p e) | None => mret tt end
       end);
  _ ← (match provisional with Some p => on_graph (prune p) | None => mret tt end);
  modify (with_scratch []).
End failures.

(** ** What the memory of a stream promises

    [claims_of] is the taint of every allocation the memory holds; a binding it
    does not hold is left alone. *)
Definition run_claim (o : option FailureId) (t : Taint) (r : Range) : M ErrorGraph Taint :=
  match o with Some f => taint t r f | None => written t r end.

Definition claim_op {S : Type} `{StreamMemory S} (o : option FailureId) (s : S) (b : BufferBinding) :
    M ErrorGraph S :=
  match o with Some f => memory_taint s b f | None => memory_written s b end.

Class StreamMemoryLaws (S : Type) `{StreamMemory S} := {
  claims_of : S → gmap ManagedMemoryId Taint;
  memory_failure_law s b r : binding_range b = Some r →
    memory_failure s b = Some (t ← claims_of s !! binding_memory b; failure_in t r);
  memory_update_law s b r o g : binding_range b = Some r →
    let op := claim_op o s b in
    match claims_of s !! binding_memory b with
    | None => op g = Some (s, g)
    | Some t => ∀ t' g', run_claim o t r g = Some (t', g') →
        ∃ s', op g = Some (s', g') ∧ claims_of s' = <[binding_memory b := t']> (claims_of s)
    end;
}.

(** ** The claims of a device *)
Section claims.
Context {S : Type} `{StreamMemoryLaws S}.
Implicit Types (l : list (option S)) (d : Device S) (b : BufferBinding).

Definition stream_taints (s : S) : list Taint := (map_to_list (claims_of s)).*2.
Definition taints_in l : list Taint := flat_map (λ o, from_option stream_taints [] o) l.

(** The failure that owns a byte of an allocation of the stream at a slot. *)
Definition owner_at l (i : nat) (id : ManagedMemoryId) (byte : Z) : option FailureId :=
  s ← l !! i; s ← s; t ← claims_of s !! id; owner t byte.
Definition held_at l (i : nat) (id : ManagedMemoryId) : Prop :=
  ∃ s t, l !! i = Some (Some s) ∧ claims_of s !! id = Some t.

Lemma stream_taints_split s id t :
  claims_of s !! id = Some t →
  ∃ rest, stream_taints s ≡ₚ t :: rest ∧
    ∀ s' t', claims_of s' = <[id := t']> (claims_of s) → stream_taints s' ≡ₚ t' :: rest.
Proof.
  intros Ht. exists (map_to_list (delete id (claims_of s))).*2. unfold stream_taints. split.
  - by rewrite <- (map_to_list_delete _ _ _ Ht).
  - intros s' t' ->. rewrite <- insert_delete_eq, map_to_list_insert; [done|].
    apply lookup_delete_eq.
Qed.
Lemma taints_split l i s id t :
  l !! i = Some (Some s) → claims_of s !! id = Some t →
  ∃ rest, taints_in l ≡ₚ t :: rest ∧
    ∀ s' t', claims_of s' = <[id := t']> (claims_of s) → taints_in (<[i := Some s']> l) ≡ₚ t' :: rest.
Proof.
  intros Hi Ht. destruct (stream_taints_split s id t Ht) as (rest & Hr & Hr').
  assert (i < length l)%nat as Hlt by by eapply lookup_lt_Some.
  exists (rest ++ taints_in (take i l) ++ taints_in (drop (1 + i) l)). unfold taints_in. split.
  - rewrite <- (take_drop_middle l i (Some s) Hi) at 1. rewrite flat_map_app. cbn. rewrite Hr.
    solve_Permutation.
  - intros s' t' Hs'. rewrite insert_take_drop, flat_map_app by done. cbn. rewrite (Hr' s' t' Hs').
    solve_Permutation.
Qed.

Lemma carriers_perm ts ts' f : ts ≡ₚ ts' → carriers ts f = carriers ts' f.
Proof. unfold carriers. induction 1; rewrite ?fmap_cons, ?sum_Z_cons in *; lia. Qed.
Lemma exact_perm g ts ts' : ts ≡ₚ ts' → exact g ts → exact g ts'.
Proof. intros Hp [Hok He]. split; [by rewrite <- Hp|]. intros f. by rewrite He, (carriers_perm _ _ _ Hp). Qed.

(** One allocation tainted or written. *)
Lemma wp_run_claim o t r g ts :
  exact g (t :: ts) → Z.of_nat (length (t :: ts)) <= u32_max → 0 <= r.1 →
  (∀ f, o = Some f → is_Some (nodes g !! f)) →
  wp (run_claim o t r) g (λ t' g',
    exact g' (t' :: ts) ∧
    (∀ byte, owner t' byte = if decide (r.1 <= byte < r.2) then o else owner t byte) ∧
    shifted (λ f, carries (entries t') f - carries (entries t) f) g g').
Proof.
  intros Hex Hlen Hr Ho. assert (taint_ok t) as Hok by by destruct Hex as [[? _]%Forall_cons _].
  pose proof (exact_counted g [] t ts Hex) as Hct.
  destruct o as [f|]; cbn [run_claim].
  - destruct (Ho f eq_refl) as [n Hn].
    pose proof (wp_run_op g [] t ts (DoTaint r f) Hex Hlen) as H1. cbn [app] in H1.
    specialize (H1 ltac:(split; [done|by eexists])).
    assert (tagged n = carriers (t :: ts) f) as Htag.
    { rewrite <- (proj2 Hex f). unfold tags. by rewrite Hn. }
    pose proof (carriers_range (t :: ts) f) as Hcr. pose proof (carriers_range ts f) as Hcr'.
    assert (carriers (t :: ts) f = carries (entries t) f + carriers ts f) as Hcons by done.
    eapply wp_mono; [eapply wp_conj; [exact H1|apply (wp_taint t r f g n)]|]; try done; [lia| |].
    + intros Hni. unfold carries in Hcons. rewrite decide_False in Hcons by done. cbn in Hlen. lia.
    + intros t' g' [? (_ & _ & ? & ?)]. done.
  - pose proof (wp_run_op g [] t ts (DoWritten r) Hex Hlen I) as H1.
    eapply wp_mono; [eapply wp_conj; [exact H1|by apply wp_written]|].
    intros t' g' [? (_ & _ & ? & ?)]. done.
Qed.

(** ** Updates of a device *)

(** The bytes a binding names, in the allocation it names on the stream it was
    created on. *)
Definition names (max : nat) (i : nat) (id : ManagedMemoryId) (byte : Z) (b : BufferBinding) : Prop :=
  stream_index (binding_stream b) max = Some i ∧ binding_memory b = id ∧
  match binding_range b with Some r => r.1 <= byte < r.2 | None => False end.
#[global] Instance names_dec max i id byte b : Decision (names max i id byte b).
Proof. unfold names. destruct (binding_range b); apply _. Defined.
Definition named (max : nat) (bs : list BufferBinding) i id byte : Prop :=
  Exists (names max i id byte) bs.

(** No offset is past the end or below the start of its buffer. *)
Definition binding_ok b : Prop := ∃ r, binding_range b = Some r ∧ 0 <= r.1.

Record device_inv (idle : option FailureId) d : Prop := mk_device_inv {
  di_exact : exact (graph d) (taints_in (streams (device_pool d)));
  di_wf : graph_wf (graph d);
  di_busy f n : nodes (graph d) !! f = Some n → idle ≠ Some f → 0 < tagged n;
  di_total : Z.of_nat (length (taints_in (streams (device_pool d)))) <= u32_max;
  di_slots : (0 < max_streams (device_pool d) <= length (streams (device_pool d)))%nat;
}.

(** From [g] to [g'] no failure was minted, changed or brought back, and [o]
    was not lost. *)
Record kept (o : option FailureId) (g g' : ErrorGraph) : Prop := mk_kept {
  kept_minted : minted g' = minted g;
  kept_nodes f n' : nodes g' !! f = Some n' → ∃ n k, nodes g !! f = Some n ∧ n' = with_tagged k n;
  kept_still f : o = Some f → is_Some (nodes g !! f) → is_Some (nodes g' !! f);
}.
Lemma kept_refl o g : kept o g g.
Proof. split; [done| |done]. intros f n' Hn. exists n', (tagged n'). by rewrite with_tagged_id. Qed.
Lemma kept_trans o g1 g2 g3 : kept o g1 g2 → kept o g2 g3 → kept o g1 g3.
Proof.
  intros [Hm1 Hn1 Hs1] [Hm2 Hn2 Hs2]. split; [congruence| |auto].
  intros f n3 Hn3. destruct (Hn2 f n3 Hn3) as (n2 & k2 & Hn2' & ->).
  destruct (Hn1 f n2 Hn2') as (n1 & k1 & Hn1' & ->). by exists n1, k2.
Qed.

(** The bytes the bindings [bs] name are owned by [o], the others are as they
    were. *)
Record updated (o : option FailureId) (bs : list BufferBinding) d d' : Prop := mk_updated {
  up_graph : kept o (graph d) (graph d');
  up_scratch : scratch d' = scratch d;
  up_max : max_streams (device_pool d') = max_streams (device_pool d);
  up_held i id : held_at (streams (device_pool d')) i id ↔ held_at (streams (device_pool d)) i id;
  up_named i id byte : named (max_streams (device_pool d)) bs i id byte →
    held_at (streams (device_pool d)) i id → owner_at (streams (device_pool d')) i id byte = o;
  up_other i id byte : ¬ named (max_streams (device_pool d)) bs i id byte →
    owner_at (streams (device_pool d')) i id byte = owner_at (streams (device_pool d)) i id byte;
}.
Lemma updated_nil o d : updated o [] d d.
Proof. split; try done; [apply kept_refl|]. by intros i id byte ?%Exists_nil. Qed.
Lemma updated_app o bs1 bs2 d1 d2 d3 :
  updated o bs1 d1 d2 → updated o bs2 d2 d3 → updated o (bs1 ++ bs2) d1 d3.
Proof.
  intros [Hg1 Hs1 Hm1 Hh1 Hn1 Ho1] [Hg2 Hs2 Hm2 Hh2 Hn2 Ho2]. rewrite Hm1 in *.
  split; [by eapply kept_trans|congruence|congruence| | |].
  - intros i id. by rewrite Hh2.
  - intros i id byte Hn Hh. destruct (decide (named (max_streams (device_pool d1)) bs2 i id byte)) as [H2|H2].
    + apply Hn2; [done|]. by apply Hh1.
    + rewrite Ho2 by done. apply Hn1; [|done]. by apply Exists_app in Hn as [?|?].
  - intros i id byte Hn. unfold named in Hn. rewrite Exists_app in Hn.
    rewrite Ho2, Ho1; [done|tauto|tauto].
Qed.

(** A shift that leaves [o] no less tagged keeps it. *)
Lemma shifted_kept o δ g g' : shifted δ g g' → (∀ f, o = Some f → 0 <= δ f) → kept o g g'.
Proof.
  intros [Hm Hs] Hδ. split; [done| |].
  - intros f n'. rewrite Hs. unfold retag. destruct (nodes g !! f) as [n|]; cbn; [|done].
    case_decide; [done|]. intros [= <-]. by exists n, (tagged n + δ f).
  - intros f Ho [n Hn]. rewrite Hs, Hn. unfold retag; cbn. specialize (Hδ f Ho).
    rewrite decide_False by lia. by eexists.
Qed.
Lemma shifted_busy idle δ g g' :
  shifted δ g g' → (∀ f n, nodes g !! f = Some n → idle ≠ Some f → 0 < tagged n) →
  (∀ f n, nodes g !! f = Some n → 0 <= tagged n + δ f) →
  ∀ f n, nodes g' !! f = Some n → idle ≠ Some f → 0 < tagged n.
Proof.
  intros [_ Hs] Hb Hnn f n'. rewrite Hs. unfold retag. destruct (nodes g !! f) as [n|] eqn:Hn; cbn; [|done].
  case_decide as Hd; [done|]. intros [= <-] Hi. specialize (Hb f n Hn Hi). specialize (Hnn f n Hn). cbn. lia.
Qed.
(** The counts of a well-formed graph stay in range when they are exact. *)
Lemma kept_wf o g g' ts :
  kept o g g' → graph_wf g → exact g' ts → Z.of_nat (length ts) <= u32_max → graph_wf g'.
Proof.
  intros [Hm Hn _] [Hpos Hwf] [_ Hex] Hlen. split; [lia|]. intros f n' Hn'.
  destruct (Hn f n' Hn') as (n & k & Hg & ->). destruct (Hwf f n Hg) as (? & ? & ? & ?).
  specialize (Hex f). unfold tags in Hex. rewrite Hn' in Hex. cbn in Hex.
  pose proof (carriers_range ts f). rewrite Hm. cbn. split_and!; try done; lia.
Qed.

Lemma held_insert l i s s' id t' :
  l !! i = Some (Some s) → is_Some (claims_of s !! id) → claims_of s' = <[id := t']> (claims_of s) →
  ∀ j id', held_at (<[i := Some s']> l) j id' ↔ held_at l j id'.
Proof.
  intros Hi [t Ht] Hs' j id'. unfold held_at. assert (i < length l)%nat as Hlt by by eapply lookup_lt_Some.
  destruct (decide (i = j)) as [<-|Hne].
  - rewrite list_lookup_insert_eq by done. split.
    + intros (s1 & t1 & [= <-] & Ht1). rewrite Hs', lookup_insert_Some in Ht1.
      destruct Ht1 as [[<- <-]|[_ ?]]; [by exists s, t|by exists s, t1].
    + intros (s1 & t1 & [= <-]%(eq_trans (eq_sym Hi)) & Ht1). exists s'. rewrite Hs'.
      destruct (decide (id = id')) as [<-|Hne].
      * exists t'. by rewrite lookup_insert_eq.
      * exists t1. by rewrite lookup_insert_ne.
  - by rewrite list_lookup_insert_ne.
Qed.
Lemma owner_insert l i s s' id t t' :
  l !! i = Some (Some s) → claims_of s !! id = Some t → claims_of s' = <[id := t']> (claims_of s) →
  ∀ j id' byte, owner_at (<[i := Some s']> l) j id' byte =
    if decide (j = i ∧ id' = id) then owner t' byte else owner_at l j id' byte.
Proof.
  intros Hi Ht Hs' j id' byte. unfold owner_at. assert (i < length l)%nat as Hlt by by eapply lookup_lt_Some.
  destruct (decide (i = j)) as [<-|Hne].
  - rewrite list_lookup_insert_eq, Hi by done. cbn. rewrite Hs'.
    destruct (decide (id = id')) as [<-|Hne].
    + rewrite lookup_insert_eq, decide_True by done. done.
    + rewrite lookup_insert_ne, decide_False by naive_solver. done.
  - rewrite list_lookup_insert_ne, decide_False by naive_solver. done.
Qed.

Lemma slot_of_binding idle d b :
  device_inv idle d → ∃ i o, stream_index (binding_stream b) (max_streams (device_pool d)) = Some i ∧
    streams (device_pool d) !! i = Some o ∧ try_get (device_pool d) (binding_stream b) = Some o.
Proof.
  intros Hinv. destruct (di_slots _ _ Hinv) as [Hpos Hle]. unfold try_get, stream_index.
  rewrite decide_False by lia. cbn.
  pose proof (Z.mod_pos_bound (binding_stream b) (Z.of_nat (max_streams (device_pool d))) ltac:(lia)).
  destruct (lookup_lt_is_Some_2 (streams (device_pool d))
    (Z.to_nat (binding_stream b mod Z.of_nat (max_streams (device_pool d))))) as [o Ho]; [lia|].
  by eexists _, o.
Qed.

(** A failure that claims more bytes is not carried less. *)
Lemma claim_keeps f t t' (r : Range) :
  taint_ok t → taint_ok t' →
  (∀ byte, owner t' byte = if decide (r.1 <= byte < r.2) then Some f else owner t byte) →
  0 <= carries (entries t') f - carries (entries t) f.
Proof.
  intros Hok Hok' Hown. unfold carries. destruct (decide (f ∈ carried (entries t))) as [Hin|]; [|case_decide; lia].
  rewrite decide_True; [lia|]. apply carried_owner in Hin as [byte Hb]; [|done].
  apply carried_owner; [done|]. exists byte. rewrite Hown. by case_decide.
Qed.

Lemma wp_stream_update idle o d b :
  device_inv idle d → binding_ok b → (∀ f, o = Some f → is_Some (nodes (graph d) !! f)) →
  wp (stream_update (claim_op o) b) d (λ _ d', device_inv idle d' ∧ updated o [b] d d').
Proof.
  intros Hinv (r & Hr & Hr0) Hnode. pose proof Hinv as [Hex Hwf Hbusy Htot Hslots].
  destruct (slot_of_binding _ _ b Hinv) as (i & e & Hi & He & Hget).
  unfold stream_update. apply wp_bind, wp_gets, wp_bind. eapply wp_lift; [exact Hget|].
  assert (∀ j id byte, named (max_streams (device_pool d)) [b] j id byte ↔
    j = i ∧ id = binding_memory b ∧ r.1 <= byte < r.2) as Hnamed.
  { intros j id byte. unfold named. rewrite Exists_cons, Exists_nil. unfold names. rewrite Hr, Hi.
    split; [intros [(? & ? & ?)|[]]; naive_solver|naive_solver]. }
  destruct e as [s|].
  2: { apply wp_ret. split; [done|]. split; try done; [apply kept_refl|].
       intros j id byte [-> _]%Hnamed (s & t & Hs & _). congruence. }
  apply wp_bind. eapply wp_lift; [exact Hi|].
  pose proof (memory_update_law s b r o (graph d) Hr) as Hlaw. cbn in Hlaw.
  destruct (claims_of s !! binding_memory b) as [t|] eqn:Ht.
  - destruct (taints_split _ _ _ _ _ He Ht) as (rest & Hp & Hp').
    pose proof (wp_run_claim o t r (graph d) rest (exact_perm _ _ _ Hp Hex)
      ltac:(rewrite <- (Permutation_length Hp); done) Hr0 Hnode) as Hrun.
    apply wp_spec in Hrun as (t' & g' & Hrun & Hex' & Hown & Hsh).
    destruct (Hlaw t' g' Hrun) as (s' & Hop & Hs').
    apply wp_bind. unfold wp at 1, on_graph. rewrite Hop. apply wp_modify.
    pose proof (exact_perm _ _ _ Hp Hex) as Hex0.
    assert (kept o (graph d) g') as Hkept.
    { eapply shifted_kept; [exact Hsh|]. intros f ->. eapply claim_keeps; [| |exact Hown].
      - by destruct Hex0 as [[? _]%Forall_cons _].
      - by destruct Hex' as [[? _]%Forall_cons _]. }
    set (l' := <[i := Some s']> (streams (device_pool d))).
    assert (taints_in l' ≡ₚ t' :: rest) as Hpl by by apply Hp'.
    assert (Z.of_nat (length (taints_in l')) <= u32_max) as Hlen.
    { rewrite (Permutation_length Hpl). by rewrite (Permutation_length Hp) in Htot. }
    assert (exact g' (taints_in l')) as Hexl by by eapply exact_perm.
    split; split; cbn; try done.
    + by eapply kept_wf.
    + eapply shifted_busy; [exact Hsh|done|]. intros f n Hn. destruct Hex0 as [_ Hc].
      specialize (Hc f). unfold tags in Hc. rewrite Hn in Hc.
      change (carriers (t :: rest) f) with (carries (entries t) f + carriers rest f) in Hc.
      pose proof (carriers_range rest f). pose proof (carries_range (entries t') f). lia.
    + unfold l'. by rewrite length_insert.
    + intros j id. by eapply held_insert.
    + intros j id byte (-> & -> & Hb)%Hnamed _. unfold l'. erewrite owner_insert by done.
      rewrite decide_True by done. rewrite Hown. by rewrite decide_True.
    + intros j id byte Hn. unfold l'. erewrite owner_insert by done. case_decide as Hd; [|done].
      destruct Hd as [-> ->]. rewrite Hown, decide_False.
      * unfold owner_at. rewrite He. cbn. by rewrite Ht.
      * intros Hb. apply Hn, Hnamed. done.
  - apply wp_bind. unfold wp at 1, on_graph. rewrite Hlaw. apply wp_modify.
    rewrite list_insert_id by done.
    match goal with |- device_inv _ ?d' ∧ _ => assert (d' = d) as -> by (by destruct d as [[] ? ?]) end.
    split; [done|]. split; try done; [apply kept_refl|].
    intros j id byte (-> & -> & _)%Hnamed (s' & t' & Hs' & Ht'). congruence.
Qed.

Lemma wp_update_all idle o bs d :
  device_inv idle d → Forall binding_ok bs → (∀ f, o = Some f → is_Some (nodes (graph d) !! f)) →
  wp (update_all (claim_op o) bs) d (λ _ d', device_inv idle d' ∧ updated o bs d d').
Proof.
  intros Hinv Hok. revert d Hinv. induction Hok as [|b bs Hb _ IH]; intros d Hinv Hnode; cbn [update_all].
  { apply wp_ret. split; [done|apply updated_nil]. }
  apply wp_bind. eapply wp_mono; [by eapply wp_stream_update|]. intros [] d1 [Hinv1 Hup1].
  eapply wp_mono; [apply IH; [done|]|].
  { intros f Hf. apply (kept_still _ _ _ (up_graph _ _ _ _ Hup1) f Hf). auto. }
  intros [] d2 [Hinv2 Hup2]. split; [done|]. by eapply (updated_app _ [b]).
Qed.

(** ** Failures minted, replaced and pruned *)
Lemma carried_in_taints l f :
  0 < carriers (taints_in l) f ↔ ∃ t, t ∈ taints_in l ∧ f ∈ carried (entries t).
Proof.
  generalize (taints_in l). intros ts. induction ts as [|t ts IH].
  { unfold carriers; cbn. split; [lia|]. by intros (? & ?%not_elem_of_nil & _). }
  change (carriers (t :: ts) f) with (carries (entries t) f + carriers ts f).
  pose proof (carriers_range ts f). setoid_rewrite elem_of_cons. unfold carries. split.
  - intros Hpos. case_decide as Hin; [by exists t; auto|].
    destruct (proj1 IH) as (t' & ? & ?); [lia|]. by exists t'; auto.
  - intros (t' & [->|Ht'] & Hin); [by rewrite decide_True by done; lia|].
    pose proof (proj2 IH (ex_intro _ t' (conj Ht' Hin))). case_decide; lia.
Qed.
Lemma taints_elem l t :
  t ∈ taints_in l ↔ ∃ i s id, l !! i = Some (Some s) ∧ claims_of s !! id = Some t.
Proof.
  unfold taints_in. rewrite list_elem_of_In, in_flat_map. split.
  - intros (o & Ho & Ht). apply list_elem_of_In, list_elem_of_lookup in Ho as [i Hi].
    destruct o as [s|]; [|done]. cbn in Ht. apply list_elem_of_In, list_elem_of_fmap in Ht as ([id t'] & -> & Hin).
    apply elem_of_map_to_list in Hin. by exists i, s, id.
  - intros (i & s & id & Hi & Ht). exists (Some s). split; [apply list_elem_of_In; by eapply list_elem_of_lookup_2|].
    cbn. apply list_elem_of_In, list_elem_of_fmap. exists (id, t). split; [done|]. by apply elem_of_map_to_list.
Qed.
(** A failure is counted exactly when it owns a byte somewhere. *)
Lemma tags_owner g l f :
  exact g (taints_in l) → 0 < tags g f ↔ ∃ i id byte, owner_at l i id byte = Some f.
Proof.
  intros [Hok Hex]. rewrite Hex, carried_in_taints. split.
  - intros (t & Ht & Hf). pose proof (proj1 (Forall_forall _ _) Hok t Ht) as Htok.
    apply carried_owner in Hf as [byte Hb]; [|done]. apply taints_elem in Ht as (i & s & id & Hi & Hs).
    exists i, id, byte. unfold owner_at. rewrite Hi. cbn. by rewrite Hs.
  - intros (i & id & byte & Ho). unfold owner_at in Ho.
    destruct (l !! i) as [[s|]|] eqn:Hi; [|done..]. cbn in Ho.
    destruct (claims_of s !! id) as [t|] eqn:Ht; [|done]. cbn in Ho. exists t.
    assert (t ∈ taints_in l) as Hin by (apply taints_elem; by exists i, s, id).
    split; [done|]. pose proof (proj1 (Forall_forall _ _) Hok t Hin) as Htok.
    apply carried_owner; [done|]. by exists byte.
Qed.

Lemma tags_nonneg g ts f : exact g ts → 0 <= tags g f.
Proof. intros [_ ->]. apply carriers_range. Qed.

Definition same_claims d d' : Prop :=
  device_pool d' = device_pool d ∧ scratch d' = scratch d.

Lemma wp_insert_failure e d :
  device_inv None d → minted (graph d) < u64_max →
  wp (on_graph (insert_failure e)) d (λ f d', f = minted (graph d) + 1 ∧ device_inv (Some f) d' ∧
    same_claims d d' ∧ minted (graph d') = f ∧ nodes (graph d) !! f = None ∧
    nodes (graph d') = <[f := mk_Failure e 0 [] 0]> (nodes (graph d))).
Proof.
  intros Hinv Hlt. destruct Hinv as [Hex [Hm Hwf] Hbusy Htot Hslots].
  set (f := minted (graph d) + 1).
  assert (nodes (graph d) !! f = None) as Hf.
  { destruct (nodes (graph d) !! f) as [n|] eqn:Hn; [|done]. apply Hwf in Hn. lia. }
  unfold wp, on_graph, insert_failure, mbind, M_bind, get, gets, put, lift; cbn.
  rewrite add_u64_Some by lia. cbn. fold f. split_and!; try done. split; cbn; try done.
  - destruct Hex as [Hok Hex]. split; [done|]. intros f'. rewrite <- Hex. unfold tags. cbn.
    rewrite lookup_insert. case_decide as Hff; [|done]. subst f'. by rewrite Hf.
  - split; cbn; [lia|]. intros f' n. rewrite lookup_insert_Some. intros [[<- <-]|[_ Hn%Hwf]]; cbn; lia.
  - intros f' n. rewrite lookup_insert_Some. intros [[<- <-]|[_ Hn]]; [done|]. intros _. by eapply Hbusy.
Qed.

Lemma wp_prune f d :
  device_inv (Some f) d →
  wp (on_graph (prune f)) d (λ _ d', device_inv None d' ∧ same_claims d d' ∧
    minted (graph d') = minted (graph d) ∧
    nodes (graph d') = if decide (tags (graph d) f = 0) then delete f (nodes (graph d)) else nodes (graph d)).
Proof.
  intros Hinv. destruct Hinv as [Hex [Hm Hwf] Hbusy Htot Hslots].
  unfold wp, on_graph, prune, mbind, M_bind, get, gets; cbn.
  assert (tags (graph d) f = from_option tagged 0 (nodes (graph d) !! f)) as Htags
    by (unfold tags; by destruct (nodes (graph d) !! f)).
  assert (∀ n, nodes (graph d) !! f = Some n → tagged n ≠ 0 → device_inv None d) as Hkeep.
  { intros n Hn Ht. split; try done. intros f' n' Hn' _. destruct (decide (f' = f)) as [->|Hne].
    - assert (n' = n) as -> by congruence. apply Hwf in Hn as (_ & ? & _). lia.
    - eapply Hbusy; [done|intros [= <-]; congruence]. }
  destruct (nodes (graph d) !! f) as [n|] eqn:Hn; cbn in Htags; rewrite Htags.
  2: { cbn. replace (with_graph (graph d) d) with d by by destruct d.
       rewrite delete_id by done. case_decide; split_and!; try done; (split; try done;
         intros f' n' Hn' _; eapply Hbusy; [done|intros [= <-]; congruence]). }
  destruct (Z.eqb_spec (tagged n) 0) as [H0'|Hne].
  - rewrite decide_True by done. cbn. split_and!; try done. split; cbn; try done.
    + destruct Hex as [Hok Hex]. split; [done|]. intros f'. rewrite <- Hex. unfold tags; cbn.
      rewrite lookup_delete. case_decide as Hff; [|done]. subst f'. rewrite Hn. done.
    + split; cbn; [done|]. intros f' n' [_ Hn']%lookup_delete_Some. by apply Hwf.
    + intros f' n' [Hne Hn']%lookup_delete_Some _. eapply Hbusy; [done|intros [= <-]; congruence].
  - rewrite decide_False by done. cbn. replace (with_graph (graph d) d) with d by by destruct d.
    split_and!; try done. by eapply Hkeep.
Qed.

Lemma wp_replace idle f e n d :
  device_inv idle d → nodes (graph d) !! f = Some n →
  wp (on_graph (replace f e)) d (λ _ d', device_inv idle d' ∧ same_claims d d' ∧
    minted (graph d') = minted (graph d) ∧
    nodes (graph d') = <[f := mk_Failure e (tagged n) (skipped n) (skipped_total n)]> (nodes (graph d))).
Proof.
  intros [Hex [Hm Hwf] Hbusy Htot Hslots] Hn.
  unfold wp, on_graph, replace, mbind, M_bind, get, gets; cbn. rewrite Hn. cbn.
  split_and!; try done. split; cbn; try done.
  - destruct Hex as [Hok Hex]. split; [done|]. intros f'. rewrite <- Hex. unfold tags; cbn.
    rewrite lookup_insert. case_decide as Hf; [|done]. subst f'. by rewrite Hn.
  - split; cbn; [done|]. intros f' n'. rewrite lookup_insert_Some. intros [[<- <-]|[_ Hn'%Hwf]]; [|done].
    apply Hwf in Hn. done.
  - intros f' n'. rewrite lookup_insert_Some. intros [[<- <-]|[_ Hn']]; cbn; [|by eapply Hbusy].
    intros Hi. by eapply Hbusy.
Qed.

(** After [enter_write] the write set is owned by a failure of its own. *)
Definition entered (f : FailureId) (handles : list BufferBinding) d d1 : Prop :=
  device_inv (Some f) d1 ∧ f = minted (graph d) + 1 ∧ minted (graph d1) = f ∧
  nodes (graph d) !! f = None ∧ is_Some (nodes (graph d1) !! f) ∧
  ∃ d0, same_claims d d0 ∧ device_inv (Some f) d0 ∧
    nodes (graph d0) = <[f := mk_Failure TornDown 0 [] 0]> (nodes (graph d)) ∧
    updated (Some f) handles d0 d1.

Lemma wp_enter_write handles d :
  device_inv None d → Forall binding_ok handles → minted (graph d) < u64_max → handles ≠ [] →
  wp (enter_write handles) d (λ p d1, ∃ f, p = Some f ∧ entered f handles d d1).
Proof.
  intros Hinv Hok Hlt Hne. unfold enter_write. rewrite bool_decide_eq_false_2 by done.
  apply wp_bind. eapply wp_mono; [by apply wp_insert_failure|].
  intros f d0 (Hf & Hinv0 & Hsame & Hm & Hnone & Hn). apply wp_bind.
  eapply wp_mono; [apply (wp_update_all _ (Some f) handles d0 Hinv0 Hok)|].
  { intros f' [= <-]. rewrite Hn, lookup_insert_eq. by eexists. }
  intros [] d1 [Hinv1 Hup]. apply wp_ret. exists f. split; [done|].
  split_and!; try done.
  - by rewrite (kept_minted _ _ _ (up_graph _ _ _ _ Hup)).
  - apply (kept_still _ _ _ (up_graph _ _ _ _ Hup) f); [done|]. rewrite Hn, lookup_insert_eq. by eexists.
  - by exists d0.
Qed.

(** What a failure means, as long as the device holds it. *)
Lemma entered_error f handles d d1 f' n :
  entered f handles d d1 → nodes (graph d1) !! f' = Some n →
  if decide (f' = f) then error n = TornDown else error_of (graph d) f' = Some (error n).
Proof.
  intros (_ & _ & _ & _ & _ & d0 & _ & _ & Hn0 & Hup) Hn.
  destruct (kept_nodes _ _ _ (up_graph _ _ _ _ Hup) f' n Hn) as (n0 & k & Hn0' & ->).
  rewrite Hn0, lookup_insert in Hn0'. unfold error_of.
  destruct (decide (f = f')) as [<-|Hne].
  - rewrite decide_True by done. by injection Hn0' as <-.
  - rewrite decide_False by done. by rewrite Hn0'.
Qed.

(** No claim changes but on the bytes the bindings name. *)
Definition unchanged_but (handles : list BufferBinding) d d' : Prop :=
  ∀ i id byte, ¬ named (max_streams (device_pool d)) handles i id byte →
    owner_at (streams (device_pool d')) i id byte = owner_at (streams (device_pool d)) i id byte.
(** A failure that was held means what it meant. *)
Definition still_means d d' : Prop :=
  ∀ f n, nodes (graph d') !! f = Some n → f <= minted (graph d) → error_of (graph d) f = Some (error n).
(** The bytes named that an allocation holds are owned by a fresh failure. *)
Definition all_failed (e : ServerError) (handles : list BufferBinding) d d' : Prop :=
  ∀ i id byte, named (max_streams (device_pool d)) handles i id byte →
    held_at (streams (device_pool d)) i id →
    ∃ f, minted (graph d) < f ∧ owner_at (streams (device_pool d')) i id byte = Some f ∧
      error_of (graph d') f = Some e.

Lemma owner_held l i id byte f : owner_at l i id byte = Some f → held_at l i id.
Proof.
  unfold owner_at, held_at. destruct (l !! i) as [[s|]|]; [|done..]. cbn.
  destruct (claims_of s !! id) as [t|] eqn:Ht; [|done]. by exists s, t.
Qed.

Section entered.
Context (f : FailureId) (handles : list BufferBinding) (d d1 : Device S).
Context (Hinv : device_inv None d) (Hent : entered f handles d d1).

Lemma entered_unchanged : unchanged_but handles d d1.
Proof.
  destruct Hent as (_ & _ & _ & _ & _ & d0 & [Hp _] & _ & _ & [_ _ _ _ _ Ho]).
  intros i id byte. rewrite <- Hp. apply Ho.
Qed.
Lemma entered_means : still_means d d1.
Proof.
  intros f' n Hn Hle. pose proof (entered_error _ _ _ _ _ _ Hent Hn) as He.
  destruct Hent as (_ & Hf & _). by rewrite decide_False in He by lia.
Qed.
Lemma entered_held i id : held_at (streams (device_pool d1)) i id ↔ held_at (streams (device_pool d)) i id.
Proof.
  destruct Hent as (_ & _ & _ & _ & _ & d0 & [Hp _] & _ & _ & [_ _ _ Hh _ _]). rewrite Hh. by rewrite Hp.
Qed.
Lemma entered_max : max_streams (device_pool d1) = max_streams (device_pool d).
Proof. destruct Hent as (_ & _ & _ & _ & _ & d0 & [Hp _] & _ & _ & [_ _ Hm _ _ _]). congruence. Qed.
Lemma entered_named i id byte :
  named (max_streams (device_pool d)) handles i id byte → held_at (streams (device_pool d)) i id →
  owner_at (streams (device_pool d1)) i id byte = Some f.
Proof.
  destruct Hent as (_ & _ & _ & _ & _ & d0 & [Hp _] & _ & _ & [_ _ _ _ Hn _]). rewrite <- Hp. apply Hn.
Qed.
Lemma entered_failed : all_failed TornDown handles d d1.
Proof.
  intros i id byte Hn Hh. exists f. pose proof Hent as (_ & Hf & _ & _ & [n Hd1] & _).
  split; [lia|]. split; [by apply entered_named|].
  pose proof (entered_error _ _ _ _ _ _ Hent Hd1) as He. rewrite decide_True in He by done.
  unfold error_of. rewrite Hd1. cbn. by rewrite He.
Qed.
Lemma entered_fresh i id byte :
  owner_at (streams (device_pool d1)) i id byte = Some f →
  named (max_streams (device_pool d)) handles i id byte.
Proof.
  intros Ho. destruct (decide (named (max_streams (device_pool d)) handles i id byte)) as [|Hn]; [done|].
  rewrite entered_unchanged in Ho by done. exfalso.
  assert (0 < tags (graph d) f) as Hpos by (eapply tags_owner; [apply (di_exact _ _ Hinv)|by eauto]).
  destruct Hent as (_ & _ & _ & Hnone & _). unfold tags in Hpos. rewrite Hnone in Hpos. lia.
Qed.

(** The work was enqueued. *)
Lemma wp_exit_written :
  Forall binding_ok handles →
  wp (exit_write (Some f) handles None) d1 (λ _ d2,
    device_inv None d2 ∧ scratch d2 = [] ∧ unchanged_but handles d d2 ∧ still_means d d2 ∧
    (∀ i id byte, named (max_streams (device_pool d)) handles i id byte →
       owner_at (streams (device_pool d2)) i id byte = None) ∧
    ∀ f', is_Some (nodes (graph d2) !! f') → f' <= minted (graph d)).
Proof.
  intros Hok. pose proof Hent as (Hinv1 & Hf & Hm1 & Hnone & _).
  unfold exit_write. apply wp_bind. eapply wp_mono; [apply (wp_update_all _ None handles d1 Hinv1 Hok); done|].
  intros [] d2 [Hinv2 [Hg2 _ Hmax2 Hh2 Hn2 Ho2]]. rewrite entered_max in *.
  assert (∀ i id byte, named (max_streams (device_pool d)) handles i id byte →
    owner_at (streams (device_pool d2)) i id byte = None) as Hnamed.
  { intros i id byte Hn. destruct (owner_at (streams (device_pool d2)) i id byte) as [f'|] eqn:Ho; [|done].
    rewrite <- Ho. apply Hn2; [done|]. apply Hh2. by eapply owner_held. }
  assert (tags (graph d2) f = 0) as Htag.
  { pose proof (tags_nonneg _ _ f (di_exact _ _ Hinv2)).
    destruct (decide (0 < tags (graph d2) f)) as [Hpos|]; [|lia]. exfalso.
    eapply tags_owner in Hpos as (i & id & byte & Ho); [|apply (di_exact _ _ Hinv2)].
    destruct (decide (named (max_streams (device_pool d)) handles i id byte)) as [Hn|Hn].
    - rewrite Hnamed in Ho by done. done.
    - rewrite Ho2 in Ho by done. by apply Hn, entered_fresh. }
  apply wp_bind. eapply wp_mono; [by apply wp_prune|].
  intros [] d3 (Hinv3 & [Hp3 _] & Hm3 & Hn3). rewrite decide_True in Hn3 by done. apply wp_modify.
  assert (still_means d d3 ∧ ∀ f', is_Some (nodes (graph d3) !! f') → f' <= minted (graph d)) as [Hmeans Hold].
  { assert (∀ f' n, nodes (graph d3) !! f' = Some n → f' ≠ f ∧ error_of (graph d) f' = Some (error n)) as H3.
    { intros f' n. rewrite Hn3. intros [Hne Hn]%lookup_delete_Some. split; [done|].
      destruct (kept_nodes _ _ _ Hg2 f' n Hn) as (n1 & k & Hd1 & ->).
      pose proof (entered_error _ _ _ _ _ _ Hent Hd1) as He. by rewrite decide_False in He. }
    split; [intros f' n Hn _; by apply H3|]. intros f' [n Hn].
    destruct (H3 f' n Hn) as [_ He]. unfold error_of in He.
    destruct (nodes (graph d) !! f') as [n0|] eqn:Hn0; [|done].
    apply (proj2 (di_wf _ _ Hinv)) in Hn0. lia. }
  split_and!; try done.
  - by destruct Hinv3.
  - intros i id byte Hn. cbn. rewrite Hp3, Ho2 by done. by apply entered_unchanged.
  - intros i id byte Hn. cbn. rewrite Hp3. by apply Hnamed.
Qed.

(** The work was not. *)
Lemma wp_exit_failed e :
  wp (exit_write (Some f) handles (Some e)) d1 (λ _ d2,
    device_inv None d2 ∧ scratch d2 = [] ∧ unchanged_but handles d d2 ∧ still_means d d2 ∧
    all_failed e handles d d2).
Proof.
  pose proof Hent as (Hinv1 & Hf & Hm1 & Hnone & [n Hd1] & _).
  unfold exit_write. apply wp_bind. eapply wp_mono; [by eapply wp_replace|].
  intros [] d2 (Hinv2 & [Hp2 _] & Hm2 & Hn2).
  apply wp_bind. eapply wp_mono; [by apply wp_prune|].
  intros [] d3 (Hinv3 & [Hp3 _] & Hm3 & Hn3). apply wp_modify.
  assert (∀ f' n', nodes (graph d3) !! f' = Some n' → nodes (graph d2) !! f' = Some n') as Hsub.
  { intros f' n'. rewrite Hn3. case_decide; [|done]. by intros [_ ?]%lookup_delete_Some. }
  split_and!; try done.
  - by destruct Hinv3.
  - intros i id byte Hn. cbn. rewrite Hp3, Hp2. by apply entered_unchanged.
  - intros f' n' Hn'%Hsub Hle. rewrite Hn2, lookup_insert_ne in Hn' by lia. by apply entered_means.
  - intros i id byte Hn Hh. exists f. cbn. rewrite Hp3, Hp2. split; [lia|].
    pose proof (entered_named i id byte Hn Hh) as Ho. split; [done|].
    assert (0 < tags (graph d2) f) as Hpos.
    { eapply tags_owner; [apply (di_exact _ _ Hinv2)|]. rewrite Hp2. eauto. }
    unfold error_of. rewrite Hn3, decide_False, Hn2, lookup_insert_eq by lia. done.
Qed.
End entered.

(** ** Reads *)

(** The failure that owns a byte [b] names, if one does. *)
Definition clean d b : Prop :=
  ∀ i id byte, names (max_streams (device_pool d)) i id byte b →
    owner_at (streams (device_pool d)) i id byte = None.
Definition fails_with d b (f : FailureId) : Prop :=
  ∃ i id byte, names (max_streams (device_pool d)) i id byte b ∧
    owner_at (streams (device_pool d)) i id byte = Some f.

Lemma handle_failure_spec idle d b :
  device_inv idle d → binding_ok b →
  ∃ o, handle_failure d b = Some o ∧
    match o with None => clean d b | Some f => fails_with d b f ∧ is_Some (error_of (graph d) f) end.
Proof.
  intros Hinv (r & Hr & _). destruct (slot_of_binding _ _ b Hinv) as (i & e & Hi & He & Hget).
  unfold handle_failure, clean, fails_with, names. rewrite Hget, Hr, Hi. cbn.
  destruct e as [s|]; [|exists None; split; [done|]; intros ? id byte ([= <-] & _ & _); unfold owner_at; by rewrite He].
  rewrite (memory_failure_law s b r Hr). eexists; split; [done|].
  destruct (claims_of s !! binding_memory b) as [t|] eqn:Ht; cbn.
  2: { intros ? id byte ([= <-] & <- & _). unfold owner_at. rewrite He. cbn. by rewrite Ht. }
  assert (taint_ok t) as Hok.
  { destruct (di_exact _ _ Hinv) as [Hall _]. eapply (proj1 (Forall_forall _ _) Hall).
    apply taints_elem. eauto. }
  assert (∀ byte, owner_at (streams (device_pool d)) i (binding_memory b) byte = owner t byte) as Ho.
  { intros byte. unfold owner_at. rewrite He. cbn. by rewrite Ht. }
  pose proof (failure_in_owner t r Hok) as Hf. destruct (failure_in t r) as [f|].
  - destruct Hf as (byte & Hb & Hf). rewrite <- Ho in Hf. split; [by exists i, (binding_memory b), byte|].
    assert (0 < tags (graph d) f) as Htag by (eapply tags_owner; [apply (di_exact _ _ Hinv)|eauto]).
    unfold tags, error_of in *. destruct (nodes (graph d) !! f) as [n|]; [by eexists|lia].
  - intros ? id byte ([= <-] & <- & Hb). rewrite Ho. by apply Hf.
Qed.

(** A buffer that was given memory. *)
Definition allocated (m : Memory) b : Prop :=
  from_option descriptor_allocated false (descriptors m !! binding_memory b) = true.

Lemma read_claims_spec idle d (m : Memory) handles :
  device_inv idle d → Forall binding_ok handles →
  Forall (λ b, is_Some (descriptors m !! binding_memory b)) handles →
  ∃ claims, read_claims m d handles = Some claims ∧
    (claims = [] ↔ Forall (λ b, allocated m b ∧ clean d b) handles) ∧
    ∀ f id, Failed f id ∈ claims → is_Some (error_of (graph d) f) ∧
      ∃ b, b ∈ handles ∧ binding_memory b = id ∧ fails_with d b f.
Proof.
  intros Hinv Hok Hm. induction handles as [|b handles IH]; cbn [read_claims].
  { exists []. split_and!; [done|done|]. by intros ? ? ?%not_elem_of_nil. }
  apply Forall_cons in Hok as [Hb Hok]. apply Forall_cons in Hm as [[dsc Hd] Hm].
  destruct (IH Hok Hm) as (claims & -> & Hnil & Hin). rewrite Hd. cbn.
  assert (allocated m b ↔ descriptor_allocated dsc = true) as Ha by (unfold allocated; by rewrite Hd).
  destruct (descriptor_allocated dsc); cbn.
  2: { eexists; split; [done|]. rewrite Forall_cons, <- Hnil. split; [naive_solver|]. intros f id [?|H']%elem_of_cons; [done|].
       destruct (Hin f id H') as (? & b' & ? & ?). set_solver. }
  destruct (handle_failure_spec _ _ b Hinv Hb) as (o & -> & Ho). cbn. eexists; split; [done|].
  rewrite Forall_cons, <- Hnil. destruct o as [f'|].
  - destruct Ho as [Hf' He']. split.
    + split; [done|]. intros [[_ Hc] _]. destruct Hf' as (i & id & byte & Hn & Hf'). by rewrite Hc in Hf'.
    + intros f id [[= -> ->]|H']%elem_of_cons; [split; [done|]; exists b; set_solver|].
      destruct (Hin f id H') as (? & b' & ? & ?). set_solver.
  - split; [naive_solver|]. intros f id H'. destruct (Hin f id H') as (? & b' & ? & ?). set_solver.
Qed.

Lemma read_failure_spec idle d reads :
  device_inv idle d → Forall binding_ok reads →
  ∃ res, read_failure d reads = Some res ∧
    match res with
    | None => Forall (clean d) reads
    | Some found => ∃ pre b post, reads = pre ++ b :: post ∧ Forall (clean d) pre ∧
        fails_with d b (read_failure_id found) ∧ read_needed found = binding_memory b ∧
        error_of (graph d) (read_failure_id found) = Some (read_error found)
    end.
Proof.
  intros Hinv Hok. induction Hok as [|b reads Hb _ IH]; cbn [read_failure]; [by exists None|].
  destruct (handle_failure_spec _ _ b Hinv Hb) as (o & -> & Ho). cbn. destruct o as [f|]; cbn.
  - destruct Ho as [Hf [e He]]. rewrite He. cbn. eexists; split; [done|]. exists [], b, reads. cbn. auto.
  - destruct IH as (res & -> & IH). exists res. split; [done|]. destruct res as [found|]; [|by constructor].
    destruct IH as (pre & b' & post & -> & Hpre & IH). exists (b :: pre), b', post. auto.
Qed.

(** C4: what a read is told.  When the buffers' handles exist, the check before a
    read succeeds exactly when every buffer was allocated and no byte it names
    has an owner, and otherwise answers with an error that names each failure once;
    the check before a launch finds nothing exactly when no byte read has an
    owner, and otherwise the first buffer that has one, a failure that owns
    one of its bytes and the error that failure means. *)
Theorem reads_answered idle d (m : Memory) handles :
  device_inv idle d → Forall binding_ok handles →
  Forall (λ b, is_Some (descriptors m !! binding_memory b)) handles →
  (∃ res, ensure_written m d handles = Some res ∧
    (res = Ok tt ↔ Forall (λ b, allocated m b ∧ clean d b) handles) ∧
    ∀ e, res = Err e → ∃ claims, e = Several (omap (claim_error (graph d)) (distinct_claims [] claims)) ∧
      (∀ f id, Failed f id ∈ claims → ∃ b, b ∈ handles ∧ binding_memory b = id ∧ fails_with d b f)) ∧
  (∃ res, read_failure d handles = Some res ∧
    match res with
    | None => Forall (clean d) handles
    | Some found => ∃ pre b post, handles = pre ++ b :: post ∧ Forall (clean d) pre ∧
        fails_with d b (read_failure_id found) ∧ read_needed found = binding_memory b ∧
        error_of (graph d) (read_failure_id found) = Some (read_error found)
    end).
Proof.
  intros Hinv Hok Hm. split; [|by eapply read_failure_spec].
  destruct (read_claims_spec _ _ _ _ Hinv Hok Hm) as (claims & Hc & Hnil & Hin).
  unfold ensure_written. rewrite Hc. cbn. eexists; split; [done|].
  destruct (reports_result (graph d) claims) as [HOk HErr]. split.
  - rewrite HOk, <- Hnil. split; [|intros ->; by intros c ?%not_elem_of_nil].
    destruct claims as [|c claims]; [done|]. intros H'.
    destruct (H' c ltac:(left)) as (f & id & -> & Hf).
    destruct (Hin f id ltac:(left)) as [[e He] _]. unfold error_of in He. by rewrite Hf in He.
  - intros e He. exists claims. split; [by apply HErr|]. intros f id Hf. by apply Hin.
Qed.

(** The scope of a write.  Entering it over a write set makes every byte of
    the set that an allocation holds fail with a fresh failure, so that a body
    that is torn down leaves no byte readable that it did not write; leaving
    it when the work was enqueued releases every claim on those bytes and
    leaves no failure behind; leaving it with an error makes them all fail
    with that error.  Either way no other byte of any stream changes owner, no
    failure still held changes its meaning, and the counts stay exact. *)
Theorem write_scope handles (err : option ServerError) d :
  device_inv None d → Forall binding_ok handles → minted (graph d) < u64_max →
  wp (enter_write handles) d (λ p d1,
    (p = None ↔ handles = []) ∧ unchanged_but handles d d1 ∧ still_means d d1 ∧
    all_failed TornDown handles d d1 ∧
    wp (exit_write p handles err) d1 (λ _ d2,
      device_inv None d2 ∧ scratch d2 = [] ∧ unchanged_but handles d d2 ∧ still_means d d2 ∧
      match err with
      | None =>
          (∀ i id byte, named (max_streams (device_pool d)) handles i id byte →
             owner_at (streams (device_pool d2)) i id byte = None) ∧
          ∀ f, is_Some (nodes (graph d2) !! f) → f <= minted (graph d)
      | Some e => all_failed e handles d d2
      end)).
Proof.
  intros Hinv Hok Hlt. destruct (decide (handles = [])) as [->|Hne].
  - assert (still_means d d) as Hm by (intros f n Hn _; unfold error_of; by rewrite Hn).
    apply wp_ret. split_and!; try done; [by intros i id byte ?%Exists_nil|].
    destruct err; apply wp_bind, wp_ret, wp_bind, wp_ret, wp_modify; split_and!; try done;
      try by destruct Hinv.
    1, 2: by intros i id byte ?%Exists_nil.
    intros f [n Hn]. apply (proj2 (di_wf _ _ Hinv)) in Hn. lia.
  - eapply wp_mono; [by apply wp_enter_write|]. intros p d1 (f & -> & Hent).
    split_and!; [done|by eapply entered_unchanged|by eapply entered_means|by eapply entered_failed|].
    destruct err as [e|]; [by apply wp_exit_failed|by apply wp_exit_written].
Qed.
(** ** Skipped work *)
Lemma wp_record_skip idle f r n d :
  device_inv idle d → nodes (graph d) !! f = Some n → skipped_total n < u64_max →
  wp (on_graph (record_skip f r)) d (λ _ d', device_inv idle d' ∧ same_claims d d' ∧
    minted (graph d') = minted (graph d) ∧
    ∃ older, nodes (graph d') =
      <[f := mk_Failure (error n) (tagged n) (older ++ [r]) (skipped_total n + 1)]> (nodes (graph d))).
Proof.
  intros [Hex [Hm Hwf] Hbusy Htot Hslots] Hn Hlt. destruct (Hwf f n Hn) as (Hf & Ht & Hl & Hs).
  unfold wp, on_graph, record_skip, mbind, M_bind, get, lift; cbn. rewrite Hn, add_u64_Some by lia. cbn.
  set (older := if decide _ then _ else _).
  assert (length older < MAX_SKIPPED)%nat as Ho.
  { unfold older. case_decide as Hd; [|lia]. unfold MAX_SKIPPED in *. destruct (skipped n); cbn in *; lia. }
  assert (length older <= length (skipped n))%nat as Ho' by (unfold older; case_decide; [destruct (skipped n)|]; cbn; lia).
  split_and!; try done; [|by exists older]. split; cbn; try done.
  - destruct Hex as [Hok Hex]. split; [done|]. intros f'. rewrite <- Hex. unfold tags; cbn.
    rewrite lookup_insert. case_decide as Hd; [|done]. subst f'. by rewrite Hn.
  - split; cbn; [done|]. intros f' n'. rewrite lookup_insert_Some. intros [[<- <-]|[_ Hn'%Hwf]]; [|done].
    cbn. rewrite length_app. cbn. split_and!; lia.
  - intros f' n'. rewrite lookup_insert_Some. intros [[<- <-]|[_ Hn']]; cbn; [|by eapply Hbusy].
    intros Hi. by eapply Hbusy.
Qed.

(** A launch skipped because of a failure hands that failure to everything it
    was to write: every byte of its write set that an allocation holds is
    owned by the failure found, which keeps its error and gains the record of
    the skip; no other byte changes owner, and no failure still held changes its
    error. *)
Theorem propagate_correct (found : ReadFailure) k handles n d :
  device_inv None d → Forall binding_ok handles →
  nodes (graph d) !! read_failure_id found = Some n → skipped_total n < u64_max →
  wp (propagate found k handles) d (λ _ d',
    device_inv None d' ∧ scratch d' = [] ∧ unchanged_but handles d d' ∧ still_means d d' ∧
    (∀ i id byte, named (max_streams (device_pool d)) handles i id byte →
       held_at (streams (device_pool d)) i id →
       owner_at (streams (device_pool d')) i id byte = Some (read_failure_id found)) ∧
    ∃ n', nodes (graph d') !! read_failure_id found = Some n' ∧ error n' = error n ∧
      last (skipped n') = Some (mk_Skip k (read_needed found) (binding_memory <$> handles)) ∧
      skipped_total n' = skipped_total n + 1).
Proof.
  intros Hinv Hok Hn Hlt. unfold propagate. apply wp_bind.
  eapply wp_mono; [by eapply wp_record_skip|]. intros [] d1 (Hinv1 & [Hp1 _] & Hm1 & older & Hn1).
  apply wp_bind. eapply wp_mono; [apply (wp_update_all _ (Some (read_failure_id found)) handles d1 Hinv1 Hok)|].
  { intros f [= <-]. rewrite Hn1, lookup_insert_eq. by eexists. }
  intros [] d2 [Hinv2 [Hg2 _ Hmax2 Hh2 Hn2 Ho2]]. apply wp_modify. rewrite Hp1 in *.
  split_and!; try done; [by destruct Hinv2| |].
  - intros f n' Hf _. destruct (kept_nodes _ _ _ Hg2 f n' Hf) as (n1 & j & Hf1 & ->). cbn.
    unfold error_of. rewrite Hn1, lookup_insert_Some in Hf1.
    destruct Hf1 as [[<- <-]|[_ Hf1]]; [by rewrite Hn|by rewrite Hf1].
  - destruct (kept_still _ _ _ Hg2 (read_failure_id found) eq_refl) as [n' Hn'].
    { rewrite Hn1, lookup_insert_eq. by eexists. }
    destruct (kept_nodes _ _ _ Hg2 _ _ Hn') as (n1 & j & Hf1 & ->).
    rewrite Hn1, lookup_insert_eq in Hf1. injection Hf1 as <-. eexists; split; [done|]. cbn.
    split_and!; [done|by rewrite last_snoc|done].
Qed.

(** Work that failed before it ran claims what it was to write: the bytes of its
    write set that an allocation holds are owned by a fresh failure that
    means its error, and no failure is left behind that owns no byte. *)
Theorem taint_all_correct e handles d :
  device_inv None d → Forall binding_ok handles → minted (graph d) < u64_max →
  wp (taint_all e handles) d (λ _ d',
    device_inv None d' ∧ scratch d' = scratch d ∧ unchanged_but handles d d' ∧ still_means d d' ∧
    all_failed e handles d d').
Proof.
  intros Hinv Hok Hlt. unfold taint_all. apply wp_bind.
  eapply wp_mono; [by apply wp_insert_failure|].
  intros f d0 (Hf & Hinv0 & [Hp0 Hs0] & Hm & Hnone & Hn). apply wp_bind.
  eapply wp_mono; [apply (wp_update_all _ (Some f) handles d0 Hinv0 Hok)|].
  { intros f' [= <-]. rewrite Hn, lookup_insert_eq. by eexists. }
  intros [] d1 [Hinv1 [Hg1 Hs1 Hmax1 Hh1 Hn1 Ho1]]. rewrite Hp0 in *.
  eapply wp_mono; [by apply wp_prune|]. intros [] d2 (Hinv2 & [Hp2 Hs2] & Hm2 & Hn2).
  assert (∀ f' n', nodes (graph d2) !! f' = Some n' → nodes (graph d1) !! f' = Some n') as Hsub.
  { intros f' n'. rewrite Hn2. case_decide; [|done]. by intros [_ ?]%lookup_delete_Some. }
  assert (∀ f' n', nodes (graph d1) !! f' = Some n' →
    ∃ n0, <[f := mk_Failure e 0 [] 0]> (nodes (graph d)) !! f' = Some n0 ∧ error n' = error n0) as Herr.
  { intros f' n' Hf'. destruct (kept_nodes _ _ _ Hg1 f' n' Hf') as (n0 & k & Hn0 & ->).
    rewrite Hn in Hn0. by exists n0. }
  split_and!; try done; [congruence| | |].
  - intros i id byte Hni. rewrite Hp2. by apply Ho1.
  - intros f' n' Hn'%Hsub Hle. destruct (Herr f' n' Hn') as (n0 & Hn0 & ->).
    rewrite lookup_insert_ne in Hn0 by lia. unfold error_of. by rewrite Hn0.
  - intros i id byte Hni Hh. exists f. rewrite Hp2. split; [lia|].
    pose proof (Hn1 i id byte Hni Hh) as Ho. split; [done|].
    assert (0 < tags (graph d1) f) as Hpos by (eapply tags_owner; [apply (di_exact _ _ Hinv1)|eauto]).
    rewrite decide_False in Hn2 by lia. unfold error_of. rewrite Hn2.
    unfold tags in Hpos. destruct (nodes (graph d1) !! f) as [n1|] eqn:Hf1; [|lia].
    destruct (Herr f n1 Hf1) as (n0 & Hn0 & Hen). rewrite lookup_insert_eq in Hn0.
    injection Hn0 as <-. cbn. by rewrite Hen.
Qed.
End claims.

(** ** A memory that is a map of taints *)
Module Held.
Abbreviation held := (gmap ManagedMemoryId Taint).
Definition held_update (o : option FailureId) (s : held) (b : BufferBinding) : M ErrorGraph held :=
  r ← lift (binding_range b);
  match s !! binding_memory b with
  | None => mret s
  | Some t => t ← run_claim o t r; mret (<[binding_memory b := t]> s)
  end.
#[export] Instance held_memory : StreamMemory held := {|
  memory_failure s b := r ← binding_range b; Some (t ← s !! binding_memory b; failure_in t r);
  memory_taint s b f := held_update (Some f) s b;
  memory_written s b := held_update None s b;
|}.
#[export] Program Instance held_laws : StreamMemoryLaws held := {| claims_of s := s |}.
Next Obligation. intros s b r Hr. cbn. by rewrite Hr. Qed.
Next Obligation.
  intros s b r o g Hr op. assert (op = held_update o s b) as -> by by destruct o.
  unfold held_update. rewrite Hr. destruct (s !! binding_memory b) as [t|] eqn:Ht; cbn; [|done].
  intros t' g' Hrun. exists (<[binding_memory b := t']> s). split; [|done].
  unfold mbind, M_bind, lift. by rewrite Hrun.
Qed.

(** A device of two streams; the first holds memory 7, whose first hundred bytes
    carry the failure 1, and memory 8. *)
Definition slots : list (option held) := [Some {[ 7 := witness_taint; 8 := taint_default ]}; None; None].
Definition one_graph : ErrorGraph := mk_ErrorGraph {[ 1 := mk_Failure TornDown 1 [] 0 ]} 1.
Definition device : Device held := mk_Device (mk_StreamPool slots 2) one_graph [].
Definition at_memory (id : ManagedMemoryId) (offset : Z) : BufferBinding :=
  mk_BufferBinding id (Some offset) None 4 200.
Definition handles_store : Memory :=
  mk_Memory 9 {[ 7 := mk_Descriptor (to_bits (mk_MemoryLocation 0 0 0 1)) 1 1;
                 8 := mk_Descriptor (to_bits (mk_MemoryLocation 0 0 0 1)) 1 1 ]}.

Lemma device_ok : device_inv None device.
Proof.
  split; cbn.
  - apply (exact_perm _ [witness_taint; taint_default]); [vm_compute; by constructor|].
    split; [by constructor; [apply witness_taint_ok|constructor; [apply taint_default_ok|]]|].
    intros f. unfold tags, carriers, carries; cbn.
    destruct (decide (f = 1)) as [->|H1]; [vm_compute; reflexivity|].
    rewrite lookup_singleton_ne by done. cbn.
    rewrite !decide_False; [done|by intros ?%not_elem_of_nil|by intros ?%list_elem_of_singleton].
  - split; [done|]. intros f n. cbn. intros [<- <-]%lookup_singleton_Some. cbn. lia.
  - intros f n [<- <-]%lookup_singleton_Some. done.
  - vm_compute. done.
  - lia.
Qed.
Lemma bindings_ok : Forall binding_ok [at_memory 7 50; at_memory 8 0].
Proof. repeat constructor; by eexists. Qed.
End Held.
Import Held.

Lemma write_scope_witness :
  wp (enter_write [at_memory 7 50; at_memory 8 0]) device (λ p d1,
    (p = Some 2 ∧ owner_at (streams (device_pool d1)) 0 7 60 = Some 2 ∧
     owner_at (streams (device_pool d1)) 0 7 40 = Some 1) ∧
    wp (exit_write p [at_memory 7 50; at_memory 8 0] None) d1 (λ _ d2,
      device_inv None d2)).
Proof.
  apply wp_conj; [vm_compute; auto|].
  eapply wp_mono; [apply (write_scope _ None device device_ok bindings_ok)|]; [done|].
  intros p d1 (_ & _ & _ & _ & Hexit). eapply wp_mono; [exact Hexit|]. cbn. tauto.
Defined.

Lemma reads_answered_witness :
  (∃ e, ensure_written handles_store device [at_memory 8 0; at_memory 7 50] = Some (Err e)) ∧
  ensure_written handles_store device [at_memory 8 0; at_memory 7 100] = Some (Ok tt) ∧
  ∃ res, read_failure device [at_memory 7 50] = Some res ∧ res ≠ None.
Proof.
  split; [eexists; vm_compute; reflexivity|]. split; [vm_compute; reflexivity|].
  destruct (reads_answered None device handles_store [at_memory 7 50])
    as [_ (res & Hres & _)]; [apply device_ok|repeat constructor; by eexists|..].
  - constructor; [by eexists|constructor].
  - exists res. split; [exact Hres|]. intros ->. vm_compute in Hres. discriminate.
Defined.

Lemma propagate_correct_witness :
  wp (propagate (mk_ReadFailure 1 7 TornDown) (mk_KernelId "k" 0) [at_memory 8 0]) device
    (λ _ d', owner_at (streams (device_pool d')) 0 8 3 = Some 1 ∧ device_inv None d').
Proof.
  apply wp_conj; [vm_compute; auto|].
  eapply wp_mono; [eapply (propagate_correct (mk_ReadFailure 1 7 TornDown) _ [at_memory 8 0] _ device
    device_ok); [repeat constructor; by eexists|reflexivity|done]|].
  cbn. tauto.
Defined.

Lemma taint_all_correct_witness :
  wp (taint_all Skipped [at_memory 8 0]) device
    (λ _ d', owner_at (streams (device_pool d')) 0 8 3 = Some 2 ∧ device_inv None d').
Proof.
  apply wp_conj; [vm_compute; auto|].
  eapply wp_mono; [apply (taint_all_correct Skipped [at_memory 8 0] device device_ok);
    [repeat constructor; by eexists|done]|].
  cbn. tauto.
Defined.
