(* ===== verification/Launching.v ===== *)
(** * The geometry of a launch

    [cubecl-runtime/src/server/base.rs], [cubecl-ir/src/settings.rs] and
    [cubecl-server/src/validation.rs]: the cubes and units a launch is spread
    over, and the limits of the hardware they are checked against.  32-bit
    integers; an overflow is a panic. *)

From S2P Require Export Streams.
From stdpp Require Import list.
#[local] Open Scope Z_scope.

Definition mul_u32 (a b : Z) : option Z := if a * b <=? u32_max then Some (a * b) else None.
(** [u32::div_ceil] by a positive number. *)
Definition div_ceil (a b : Z) : Z := (a + b - 1) / b.

(** ** [Dim3] *)
Record Dim3 := mk_Dim3 { dim_x : Z; dim_y : Z; dim_z : Z }.
Definition new_1d (x : Z) : Dim3 := mk_Dim3 x 1 1.
Definition new_2d (x y : Z) : Dim3 := mk_Dim3 x y 1.
Definition num_elems (d : Dim3) : option Z := xy ← mul_u32 (dim_x d) (dim_y d); mul_u32 xy (dim_z d).
Definition can_contain (d other : Dim3) : bool :=
  (dim_x other <=? dim_x d) && (dim_y other <=? dim_y d) && (dim_z other <=? dim_z d).

(** The hardware, as far as a launch reads it. *)
Record HardwareProperties := mk_HardwareProperties {
  plane_size_max : Z;
  max_cube_count : Z * Z * Z;
  max_units_per_cube : Z;
  max_cube_dim : Z * Z * Z;
  num_cpu_cores : option Z;
}.

(** ** Cubes *)
Inductive CubeCount := Static (x y z : Z) | Dynamic (b : BufferBinding).
Inductive CubeCountSelection := Exact (c : CubeCount) | Approx (c : CubeCount) (actual : Z).
(** The loop of [reduce_count]: the count of a dimension is halved and the next
    one doubled, which overflows after 32 rounds at most. *)
Fixpoint halve (fuel : nat) (count next max : Z) : option (Z * Z) :=
  match fuel with
  | O => None
  | S fuel =>
      let count := div_ceil count 2 in
      next ← mul_u32 next 2;
      if count <=? max then Some (count, next) else halve fuel count next max
  end.
Definition reduce_count (count next max : Z) : option (bool * Z * Z) :=
  if count <=? max then Some (true, count, next)
  else '(count, next) ← halve 33 count next max; Some (false, count, next).
Definition cube_count_spread (max : Z * Z * Z) (num_cubes : Z) : option (Z * Z * Z) :=
  '(fits, x, y) ← reduce_count num_cubes 1 max.1.1;
  if fits : bool then Some (x, y, 1)
  else '(_, y, z) ← reduce_count y 1 max.1.2; Some (x, y, z).
Definition selection_new (h : HardwareProperties) (num_cubes : Z) : option CubeCountSelection :=
  '(x, y, z) ← cube_count_spread (max_cube_count h) num_cubes;
  xy ← mul_u32 x y; actual ← mul_u32 xy z;
  Some (if actual =? num_cubes then Exact (Static x y z) else Approx (Static x y z) actual).
Definition has_idle (s : CubeCountSelection) : bool := match s with Approx _ _ => true | Exact _ => false end.
Definition selection_cube_count (s : CubeCountSelection) : CubeCount := match s with Exact c => c | Approx c _ => c end.
Definition cube_count_is_empty (c : CubeCount) : bool :=
  match c with Static x y z => (x =? 0) || (y =? 0) || (z =? 0) | Dynamic _ => false end.

Example safe_num_cubes_even : cube_count_spread (32, 32, 32) 2048 = Some (32, 32, 2).
Proof. reflexivity. Qed.
Example safe_num_cubes_odd : cube_count_spread (48, 32, 16) 3177 = Some (25, 32, 4).
Proof. reflexivity. Qed.

(** ** Units *)
Definition NUM_PLANE_MAX : Z := 8.
Definition checked_quotient (a b : Z) : option Z := if decide (b = 0) then None else Some (a / b).
Definition calculate_plane_count_per_cube (working_units plane_dim : Z) (cores : option Z) : option Z :=
  match cores with
  | Some cores => Some (Z.min cores working_units)
  | None =>
      planes ← checked_quotient working_units plane_dim;
      Some (2 ^ Z.min (Z.log2 NUM_PLANE_MAX) (Z.log2 (Z.max 1 planes)))
  end.
Definition cube_dim_new (h : HardwareProperties) (working_units : Z) : option Dim3 :=
  plane_count ← calculate_plane_count_per_cube (as_u32 working_units) (plane_size_max h) (num_cpu_cores h);
  limit ← checked_quotient (max_units_per_cube h) (plane_size_max h);
  Some (new_2d (plane_size_max h) (Z.max (Z.min limit plane_count) 1)).

(** ** Validation *)
Definition dim_of (d : Z * Z * Z) : Dim3 := mk_Dim3 d.1.1 d.1.2 d.2.
Definition of_dim (d : Dim3) : Z * Z * Z := (dim_x d, dim_y d, dim_z d).
Definition validate_cube_dim (h : HardwareProperties) (requested : Dim3) : result unit LaunchError :=
  let max := dim_of (max_cube_dim h) in
  if can_contain max requested then Ok tt
  else Err (LaunchTooManyResources (CubeDim (of_dim requested) (of_dim max))).
Definition validate_units (h : HardwareProperties) (requested : Dim3) : option (result unit LaunchError) :=
  requested ← num_elems requested;
  Some (if max_units_per_cube h <? requested then Err (LaunchTooManyResources (Units requested (max_units_per_cube h))) else Ok tt).

(** ** How cubes are spread *)
Lemma mul_u32_Some a b : a * b <= u32_max → mul_u32 a b = Some (a * b).
Proof. intros H. unfold mul_u32. by rewrite (proj2 (Z.leb_le _ _) H). Qed.
Lemma div_ceil_spec a b : 0 < b → b * (div_ceil a b - 1) < a <= b * div_ceil a b.
Proof. intros Hb. unfold div_ceil. pose proof (Z.div_mod (a + b - 1) b). pose proof (Z.mod_pos_bound (a + b - 1) b Hb). nia. Qed.
Lemma div_ceil_unique a b q : 0 < b → b * (q - 1) < a <= b * q → div_ceil a b = q.
Proof. intros Hb Hq. pose proof (div_ceil_spec a b Hb). nia. Qed.
Lemma div_ceil_twice a b : 0 < b → div_ceil (div_ceil a b) 2 = div_ceil a (b * 2).
Proof. intros Hb. symmetry. apply div_ceil_unique; [lia|]. pose proof (div_ceil_spec a b Hb). pose proof (div_ceil_spec (div_ceil a b) 2). nia. Qed.
Lemma halve_spec n k max fuel :
  0 <= k <= 31 → 1 <= max → 0 <= n <= 2 ^ 31 → (32 - k < Z.of_nat fuel) → max < div_ceil n (2 ^ k) →
  ∃ a, halve fuel (div_ceil n (2 ^ k)) (2 ^ k) max = Some (div_ceil n (2 ^ a), 2 ^ a) ∧ k < a <= 31 ∧
    div_ceil n (2 ^ a) <= max ∧ max < div_ceil n (2 ^ (a - 1)).
Proof.
  revert k. induction fuel as [|fuel IH]; intros k Hk Hm Hn Hf Hlt; [lia|]. cbn [halve].
  pose proof (Z.pow_pos_nonneg 2 k ltac:(lia) ltac:(lia)) as Hp. rewrite div_ceil_twice by lia. replace (2 ^ k * 2) with (2 ^ (k + 1)) by (rewrite Z.pow_add_r; lia).
  assert (k < 31) as Hk31.
  { destruct (decide (k = 31)) as [->|]; [|lia]. exfalso. pose proof (div_ceil_spec n (2 ^ 31) ltac:(lia)). nia. }
  assert (2 ^ (k + 1) <= 2 ^ 31) as Hle by (apply Z.pow_le_mono_r; lia).
  replace (2 ^ (k + 1)) with (2 ^ k * 2) at 1 by (rewrite Z.pow_add_r; lia).
  rewrite mul_u32_Some by (rewrite Z.pow_add_r in Hle by lia; lia). cbn. replace (2 ^ k * 2) with (2 ^ (k + 1)) by (rewrite Z.pow_add_r; lia).
  destruct (Z.leb_spec (div_ceil n (2 ^ (k + 1))) max) as [Hdone|Hmore].
  - exists (k + 1). split_and!; [done|lia|lia|done|]. by replace (k + 1 - 1) with k by lia.
  - destruct (IH (k + 1)) as (a & Ha & ? & ? & ?); [lia..|]. exists a. split_and!; [done|lia|lia|done|done].
Qed.
Lemma reduce_count_spec n max : 1 <= max → 0 <= n <= 2 ^ 31 →
  (n <= max ∧ reduce_count n 1 max = Some (true, n, 1)) ∨
  ∃ a, 0 < a <= 31 ∧ reduce_count n 1 max = Some (false, div_ceil n (2 ^ a), 2 ^ a) ∧ div_ceil n (2 ^ a) <= max ∧ max < div_ceil n (2 ^ (a - 1)).
Proof.
  intros Hm Hn. unfold reduce_count. destruct (Z.leb_spec n max) as [Hle|Hlt]; [by left|right].
  assert (div_ceil n (2 ^ 0) = n) as H0 by (apply div_ceil_unique; lia).
  destruct (halve_spec n 0 max 33) as (a & Ha & ? & ? & ?); [lia..|]. rewrite H0 in Ha. change (2 ^ 0) with 1 in Ha.
  exists a. rewrite Ha. split_and!; [lia|lia|done|done|done].
Qed.
Lemma div_ceil_power a b : 0 <= b <= a → div_ceil (2 ^ a) (2 ^ b) = 2 ^ (a - b).
Proof.
  intros Hab. pose proof (Z.pow_pos_nonneg 2 b ltac:(lia) ltac:(lia)). assert (2 ^ a = 2 ^ b * 2 ^ (a - b)) as ->.
  { rewrite <- Z.pow_add_r by lia. f_equal. lia. }
  apply div_ceil_unique; [lia|]. rewrite Z.mul_sub_distr_l. lia.
Qed.
Lemma power_least n max a a' : 0 <= max → 0 < a → 0 <= a' → max < div_ceil n (2 ^ (a - 1)) → n <= max * 2 ^ a' → 2 ^ a <= 2 ^ a'.
Proof.
  intros Hm Ha Ha' Hlt Hn. apply Z.pow_le_mono_r; [lia|]. destruct (decide (a <= a')) as [|Hgt]; [done|exfalso].
  assert (2 ^ a' <= 2 ^ (a - 1)) as Hp by (apply Z.pow_le_mono_r; lia). pose proof (Z.pow_pos_nonneg 2 a' ltac:(lia) ltac:(lia)).
  pose proof (div_ceil_spec n (2 ^ (a - 1)) (Z.pow_pos_nonneg 2 (a - 1) ltac:(lia) ltac:(lia))). nia.
Qed.
Lemma cubes_spread mx my mz n : 1 <= mx → 1 <= my → 0 <= n <= 2 ^ 31 →
  ∃ x y z, cube_count_spread (mx, my, mz) n = Some (x, y, z) ∧ 0 <= x <= mx ∧ 1 <= y <= my ∧ 1 <= z ∧
    n <= x * (y * z) < n + y * z ∧ y * z <= 2 ^ 31 ∧
    (n <= mx → (x, y, z) = (n, 1, 1)) ∧
    (∀ a, 0 <= a → n <= mx * 2 ^ a → y * z <= 2 ^ a) ∧ (∀ b, 0 <= b → y * z <= my * 2 ^ b → z <= 2 ^ b).
Proof.
  intros Hx Hy Hn. unfold cube_count_spread. cbn [fst snd].
  assert (∀ a, 0 <= a → 1 <= 2 ^ a) as H1 by (intros a Ha; pose proof (Z.pow_pos_nonneg 2 a ltac:(lia) ltac:(lia)); lia).
  destruct (reduce_count_spec n mx Hx Hn) as [[Hle ->]|(a & Ha & -> & Hlea & Hlta)].
  { exists n, 1, 1. cbn. split_and!; try done; try lia; intros; rewrite ?Z.mul_1_l; by apply H1. }
  assert (2 ^ a <= 2 ^ 31) as Hp by (apply Z.pow_le_mono_r; lia). pose proof (H1 a ltac:(lia)) as Hpa.
  pose proof (div_ceil_spec n (2 ^ a) ltac:(lia)) as Hd. assert (mx < n) as Hmn.
  { pose proof (H1 (a - 1) ltac:(lia)). pose proof (div_ceil_spec n (2 ^ (a - 1)) ltac:(lia)). nia. }
  cbn. destruct (reduce_count_spec (2 ^ a) my Hy) as [[Hle ->]|(b & Hb & -> & Hleb & Hltb)]; [lia| |].
  - cbn. eexists _, _, _. split; [done|]. split_and!; try lia.
    + intros a' Ha' Hn'. rewrite Z.mul_1_r. apply (power_least n mx); [lia..|done|done].
  - assert (b <= a) as Hba.
    { destruct (decide (b <= a)) as [|Hgt]; [done|exfalso]. assert (2 ^ a <= 2 ^ (b - 1)) by (apply Z.pow_le_mono_r; lia).
      pose proof (div_ceil_spec (2 ^ a) (2 ^ (b - 1)) ltac:(lia)). nia. }
    rewrite div_ceil_power in Hleb |- * by lia. pose proof (H1 b ltac:(lia)) as Hpb. pose proof (H1 (a - b) ltac:(lia)) as Hpab.
    assert (2 ^ (a - b) * 2 ^ b = 2 ^ a) as Hmul by (rewrite <- Z.pow_add_r by lia; f_equal; lia).
    cbn. eexists _, _, _. split; [done|]. rewrite Hmul. split_and!; try lia.
    + intros a' Ha' Hn'. apply (power_least n mx); [lia..|done|done].
    + intros b' Hb' Hn'. apply (power_least (2 ^ a) my); [lia..|done|done].
Qed.

(** Of at most 2^31 cubes on a hardware with at least one in each
    dimension, the count chosen holds them all within the limits of the first
    two dimensions, leaves fewer than one row idle, answers whether any is, and
    is the exact count when that fits; the rows are the fewest, doubling, for
    which the first dimension fits, and so is the third for the second.  The
    default number of units is within the units of a cube, one plane at least,
    and is refused by the validation exactly when a dimension is too large. *)
Theorem default_launch_fits h n working_units :
  1 <= (max_cube_count h).1.1 → 1 <= (max_cube_count h).1.2 → 0 <= n <= 2 ^ 31 →
  1 <= plane_size_max h <= max_units_per_cube h → max_units_per_cube h <= u32_max → 0 <= working_units →
  match num_cpu_cores h with Some c => 0 <= c | None => True end →
  (∃ x y z s, selection_new h n = Some s ∧ selection_cube_count s = Static x y z ∧
     0 <= x <= (max_cube_count h).1.1 ∧ 1 <= y <= (max_cube_count h).1.2 ∧ 1 <= z ∧
     n <= x * (y * z) < n + y * z ∧ has_idle s = negb (x * (y * z) =? n) ∧
     (n <= (max_cube_count h).1.1 → s = Exact (Static n 1 1)) ∧
     (∀ a, 0 <= a → n <= (max_cube_count h).1.1 * 2 ^ a → y * z <= 2 ^ a) ∧
     (∀ b, 0 <= b → y * z <= (max_cube_count h).1.2 * 2 ^ b → z <= 2 ^ b)) ∧
  (∃ planes, cube_dim_new h working_units = Some (new_2d (plane_size_max h) planes) ∧ 1 <= planes ∧
     validate_units h (new_2d (plane_size_max h) planes) = Some (Ok tt) ∧
     (validate_cube_dim h (new_2d (plane_size_max h) planes) = Ok tt ↔
       plane_size_max h <= (max_cube_dim h).1.1 ∧ planes <= (max_cube_dim h).1.2 ∧ 1 <= (max_cube_dim h).2)).
Proof.
  intros Hx Hy Hn Hplane Hu Hw Hcores. split.
  - destruct (max_cube_count h) as [[mx my] mz] eqn:Hmax. cbn [fst snd] in *.
    destruct (cubes_spread mx my mz n Hx Hy Hn) as (x & y & z & Hs & Hbx & Hby & Hz & Hcov & Hbig & Hex & Hrows & Hz').
    unfold selection_new. rewrite Hmax, Hs. cbn. rewrite mul_u32_Some by nia. cbn. rewrite mul_u32_Some by nia. cbn. rewrite <- Z.mul_assoc.
    eexists x, y, z, _. split; [done|]. split_and!; try done; try lia.
    + by destruct (_ =? n).
    + by destruct (_ =? n).
    + intros Hle. specialize (Hex Hle). injection Hex as -> -> ->. by rewrite !Z.mul_1_r, Z.eqb_refl.
  - unfold cube_dim_new, calculate_plane_count_per_cube, checked_quotient. rewrite !decide_False by lia.
    set (limit := max_units_per_cube h / plane_size_max h). assert (plane_size_max h * limit <= max_units_per_cube h) as Hlim by (apply Z.mul_div_le; lia).
    assert (1 <= limit) as Hlim1 by (apply Z.div_le_lower_bound; lia).
    assert (∀ count, ∃ planes, Some (new_2d (plane_size_max h) (Z.max (Z.min limit count) 1)) = Some (new_2d (plane_size_max h) planes) ∧ 1 <= planes ∧
      validate_units h (new_2d (plane_size_max h) planes) = Some (Ok tt) ∧
      (validate_cube_dim h (new_2d (plane_size_max h) planes) = Ok tt ↔
        plane_size_max h <= (max_cube_dim h).1.1 ∧ planes <= (max_cube_dim h).1.2 ∧ 1 <= (max_cube_dim h).2)) as Hgen.
    { intros count. eexists. split; [done|]. split; [lia|]. split.
      - unfold validate_units, num_elems. cbn. rewrite mul_u32_Some by nia. cbn. rewrite mul_u32_Some by nia. cbn.
        rewrite (proj2 (Z.ltb_ge _ _)); [done|nia].
      - unfold validate_cube_dim, can_contain. cbn. rewrite <- !Z.leb_le. destruct (_ <=? _), (_ <=? _), (_ <=? _); cbn; naive_solver. }
    destruct (num_cpu_cores h); cbn; apply Hgen.
Qed.
Definition small_gpu : HardwareProperties := mk_HardwareProperties 32 (48, 32, 16) 256 (256, 256, 64) None.
Lemma default_launch_fits_witness : ∃ x y z s, selection_new small_gpu 3177 = Some s ∧ selection_cube_count s = Static x y z ∧
  3177 <= x * (y * z) < 3177 + y * z ∧ has_idle s = true ∧ validate_units small_gpu (new_2d 32 8) = Some (Ok tt).
Proof.
  destruct (default_launch_fits small_gpu 3177 100000) as [(x & y & z & s & Hs & Hc & _ & _ & _ & Hcov & _) (planes & Hd & _ & Hv & _)];
    [cbn; lia..|exact I|].
  exists x, y, z, s. split_and!; [exact Hs|exact Hc|lia|lia| |reflexivity].
  assert (has_idle <$> selection_new small_gpu 3177 = Some true) as Hi by reflexivity. rewrite Hs in Hi. injection Hi as ->. reflexivity.
Defined.
