(* ===== verification/Allocator.v ===== *)
(** * Layouts of a batch of tensors

    [cubecl-server/src/allocator.rs] with the handles of
    [cubecl-runtime/src/server/handle.rs] and the layout types of
    [cubecl-runtime/src/server/base.rs]: how the tensors a client asks for are
    carved out of one allocation, contiguous or with padded rows, and the
    geometry of a copy to or from padded rows.  The allocation a handle names
    is counted in the store of descriptors; the service is not represented. *)

From S2P Require Export Layout Streams.
From stdpp Require Import list.
#[local] Open Scope Z_scope.

(** ** Handles *)
Record BufferHandle := mk_BufferHandle {
  handle_memory : ManagedMemoryId;
  handle_offset_start : option Z;
  handle_offset_end : option Z;
  handle_stream : StreamId;
  handle_size : Z;
}.
Definition handle_from_memory (id : ManagedMemoryId) (stream : StreamId) (size : Z) : BufferHandle :=
  mk_BufferHandle id None None stream size.
Definition buffer_new (stream : StreamId) (size : Z) : M Memory BufferHandle :=
  id ← handle_new; mret (handle_from_memory id stream size).
(** The copy counts as one more handle of the allocation. *)
Definition buffer_clone (h : BufferHandle) : M Memory BufferHandle :=
  _ ← handle_clone (handle_memory h); mret h.
Definition buffer_can_mut (h : BufferHandle) : M Memory bool := can_mut <$> descriptor (handle_memory h).
Definition add_offset (o : option Z) (offset : Z) : option (option Z) :=
  match o with
  | Some val => Some <$> add_u64 val offset
  | None => Some (Some offset)
  end.
Definition buffer_offset_start (offset : Z) (h : BufferHandle) : option BufferHandle :=
  o ← add_offset (handle_offset_start h) offset;
  Some (mk_BufferHandle (handle_memory h) o (handle_offset_end h) (handle_stream h) (handle_size h)).
Definition buffer_offset_end (offset : Z) (h : BufferHandle) : option BufferHandle :=
  o ← add_offset (handle_offset_end h) offset;
  Some (mk_BufferHandle (handle_memory h) (handle_offset_start h) o (handle_stream h) (handle_size h)).
Definition size_in_used (h : BufferHandle) : option Z :=
  n ← sub_u64 (handle_size h) (default 0 (handle_offset_start h));
  sub_u64 n (default 0 (handle_offset_end h)).
(** The binding of a handle, and what it names. *)
Definition as_binding (h : BufferHandle) : BufferBinding :=
  mk_BufferBinding (handle_memory h) (handle_offset_start h) (handle_offset_end h) (handle_stream h) (handle_size h).
Definition buffer_binding (h : BufferHandle) : M Memory BufferBinding :=
  _ ← binding (handle_memory h); mret (as_binding h).
Record CopyDescriptor := mk_CopyDescriptor {
  copy_handle : BufferBinding;
  copy_shape : Shape;
  copy_strides : Strides;
  copy_elem_size : Z;
}.
Definition copy_descriptor (shape : Shape) (strides : Strides) (elem_size : Z) (h : BufferHandle) :
    M Memory CopyDescriptor :=
  b ← buffer_binding h; mret (mk_CopyDescriptor b shape strides elem_size).

(** ** What is asked for *)
Inductive MemoryLayoutStrategy := ContiguousLayout | OptimizedLayout.
Record MemoryLayoutDescriptor := mk_MemoryLayoutDescriptor {
  layout_strategy : MemoryLayoutStrategy;
  layout_shape : Shape;
  layout_elem_size : Z;
}.
Definition layout_optimized : Shape → Z → MemoryLayoutDescriptor := mk_MemoryLayoutDescriptor OptimizedLayout.
Definition layout_contiguous : Shape → Z → MemoryLayoutDescriptor := mk_MemoryLayoutDescriptor ContiguousLayout.
Record MemoryLayout := mk_MemoryLayout { layout_memory : BufferHandle; layout_strides : Strides }.

(** [0..rank - 1] panics for a scalar. *)
Definition contiguous_strides (shape : Shape) : option Strides :=
  if decide (length shape = 0%nat) then None
  else row_major_loop shape (length shape - 1) (replicate (length shape) 1).

(** ** The policies

    The size in bytes and the strides of one tensor. *)
Inductive LayoutPolicy :=
| ContiguousMemoryLayoutPolicy (mem_alignment : Z)
| PitchedMemoryLayoutPolicy (mem_alignment : Z).
Definition mem_alignment (p : LayoutPolicy) : Z :=
  match p with ContiguousMemoryLayoutPolicy a | PitchedMemoryLayoutPolicy a => a end.

Definition contiguous_layout (d : MemoryLayoutDescriptor) : option (Z * Strides) :=
  n ← num_elements (layout_shape d); size ← mul_u64 n (layout_elem_size d);
  strides ← contiguous_strides (layout_shape d); Some (size, strides).
Definition pitched_layout (align : Z) (d : MemoryLayoutDescriptor) : option (Z * Strides) :=
  let shape := layout_shape d in
  let elem_size := layout_elem_size d in
  let last_dim := default 1 (last shape) in
  pitch_align ← match layout_strategy d with
                | ContiguousLayout => Some 1
                | OptimizedLayout => optimal_align last_dim elem_size align
                end;
  let rank := length shape in
  let width := default 1 (last shape) in
  height ← product_from 1 (drop 1 (reverse shape));
  let height := Z.max height 1 in
  width_bytes ← mul_u64 width elem_size;
  pitch ← next_multiple_of width_bytes pitch_align;
  size ← mul_u64 height pitch;
  let strides := replicate rank 1 in
  strides ← (if decide (1 < rank)%nat then p ← div_u64 pitch elem_size; Some (<[(rank - 2)%nat := p]> strides)
             else Some strides);
  strides ← (if decide (2 < rank)%nat then row_major_loop shape (rank - 2) strides else Some strides);
  Some (size, strides).
Definition one_layout (p : LayoutPolicy) : MemoryLayoutDescriptor → option (Z * Strides) :=
  match p with
  | ContiguousMemoryLayoutPolicy _ => contiguous_layout
  | PitchedMemoryLayoutPolicy align => pitched_layout align
  end.

(** The pass over the descriptors, with [total_size]. *)
Fixpoint lay_out (p : LayoutPolicy) (ds : list MemoryLayoutDescriptor) (total : Z) :
    option (list (Z * Strides) * Z) :=
  match ds with
  | [] => Some ([], total)
  | d :: ds =>
      '(size, strides) ← one_layout p d;
      aligned ← next_multiple_of size (mem_alignment p);
      total ← add_u64 total aligned;
      '(l, total) ← lay_out p ds total;
      Some ((size, strides) :: l, total)
  end.

(** The base handle is taken by value: it is dropped at the end. *)
Fixpoint offset_loop (base : BufferHandle) (offset : Z) (sizes : list Z) (align : Z) : M Memory (list BufferHandle) :=
  match sizes with
  | [] => mret []
  | size :: sizes =>
      h ← buffer_clone base;
      h ← lift (buffer_offset_start offset h);
      rest ← lift (n ← sub_u64 (handle_size base) offset; sub_u64 n size);
      h ← lift (buffer_offset_end rest h);
      aligned ← lift (next_multiple_of size align);
      offset ← lift (add_u64 offset aligned);
      hs ← offset_loop base offset sizes align;
      mret (h :: hs)
  end.
Definition offset_handles (base : BufferHandle) (sizes : list Z) (align : Z) : M Memory (list BufferHandle) :=
  hs ← offset_loop base 0 sizes align;
  _ ← handle_drop (handle_memory base);
  mret hs.

Definition apply_policy (p : LayoutPolicy) (stream : StreamId) (ds : list MemoryLayoutDescriptor) :
    M Memory (BufferHandle * list MemoryLayout) :=
  '(l, total) ← lift (lay_out p ds 0);
  base ← buffer_new stream total;
  copy ← buffer_clone base;
  hs ← offset_handles copy l.*1 (mem_alignment p);
  mret (base, zip_with mk_MemoryLayout hs l.*2).

(** ** The geometry of a copy *)
Record Pitch := mk_Pitch { width_bytes : Z; pitch_height : Z; stride_bytes : Z }.
(** A stride that is not there is a panic. *)
Definition pitch_of (shape : Shape) (strides : Strides) (elem_size : Z) : option (option Pitch) :=
  let rank := length shape in
  let width := default 1 (last shape) in
  if decide (rank < 2)%nat then Some None
  else
    s ← strides !! (rank - 2)%nat;
    if decide (s = width) then Some None
    else
      width_bytes ← mul_u64 width elem_size;
      height ← product_from 1 (drop 1 (reverse shape));
      stride_bytes ← mul_u64 s elem_size;
      Some (Some (mk_Pitch width_bytes height stride_bytes)).

Example contiguous_rows_have_no_pitch :
  pitch_of [4; 8] [8; 1] 4 = Some None ∧ pitch_of [8] [1] 4 = Some None ∧ pitch_of [] [] 4 = Some None.
Proof. split_and!; reflexivity. Qed.
Example padded_rows_report_width_height_and_stride :
  pitch_of [4; 8] [12; 1] 4 = Some (Some (mk_Pitch 32 4 48)) ∧
  pitch_of [2; 3; 8] [36; 12; 1] 4 = Some (Some (mk_Pitch 32 6 48)).
Proof. split; reflexivity. Qed.
(** A scalar has a layout under the pitched policy only. *)
Example contiguous_scalar_panics :
  contiguous_layout (layout_contiguous [] 4) = None ∧ pitched_layout 64 (layout_contiguous [] 4) = Some (4, []) ∧
  row_major_contiguous_strides [] = Some [].
Proof. split_and!; reflexivity. Qed.
Example pitched_batch :
  fst <$> apply_policy (PitchedMemoryLayoutPolicy 64) 7 [layout_optimized [2; 3; 5] 4; layout_contiguous [3] 2] (mk_Memory 0 ∅) =
  Some (mk_BufferHandle 0 None None 7 256,
        [mk_MemoryLayout (mk_BufferHandle 0 (Some 0) (Some 64) 7 256) [24; 8; 1];
         mk_MemoryLayout (mk_BufferHandle 0 (Some 192) (Some 58) 7 256) [1]]).
Proof. vm_compute. reflexivity. Qed.

(** ** Sizes *)

(** The product of the dimensions, an empty one counted as one: every partial
    product of the loops is below it. *)
Definition extent (shape : Shape) : Z := prod_Z (Z.max 1 <$> shape).

Lemma extent_cons d shape : extent (d :: shape) = Z.max 1 d * extent shape.
Proof. done. Qed.
Lemma extent_app s1 s2 : extent (s1 ++ s2) = extent s1 * extent s2.
Proof. unfold extent. by rewrite fmap_app, prod_Z_app. Qed.
Lemma extent_pos shape : 1 <= extent shape.
Proof. apply prod_Z_pos. apply Forall_fmap, Forall_true. intros; cbn; lia. Qed.
Lemma prod_extent shape : Forall (Z.le 0) shape → 0 <= prod_Z shape <= extent shape.
Proof.
  induction 1 as [|d shape Hd Hs IH]; [done|]. rewrite prod_Z_cons, extent_cons. pose proof (extent_pos shape). nia.
Qed.
Lemma extent_reverse shape : extent (reverse shape) = extent shape.
Proof.
  induction shape as [|d shape IH]; [done|]. rewrite reverse_cons, extent_app, IH, !extent_cons. cbn. lia.
Qed.
Lemma prod_reverse shape : prod_Z (reverse shape) = prod_Z shape.
Proof.
  induction shape as [|d shape IH]; [done|]. rewrite reverse_cons, prod_Z_app, IH, !prod_Z_cons. change (prod_Z []) with 1. ring.
Qed.
Lemma product_from_extent acc l :
  0 <= acc → Forall (Z.le 0) l → Z.max 1 acc * extent l <= u64_max → product_from acc l = Some (acc * prod_Z l).
Proof.
  intros Ha Hl. revert acc Ha. induction Hl as [|d l Hd Hl IH]; intros acc Ha Hp; cbn [product_from].
  { by rewrite Z.mul_1_r. }
  rewrite prod_Z_cons, extent_cons in *. pose proof (extent_pos l).
  assert (Z.max 1 (acc * d) <= Z.max 1 acc * Z.max 1 d) as Hm by nia.
  assert (Z.max 1 (acc * d) * extent l <= u64_max) as Hb.
  { etransitivity; [|exact Hp]. rewrite Z.mul_assoc. apply Z.mul_le_mono_nonneg_r; lia. }
  rewrite mul_u64_Some by nia. cbn. rewrite IH by (done || nia). f_equal. ring.
Qed.

(** [next_multiple_of], as a value. *)
Definition aligned (align x : Z) : Z := x + (- x) mod align.
Lemma aligned_bounds align x : 0 < align → x <= aligned align x < x + align ∧ (align | aligned align x).
Proof.
  intros Ha. unfold aligned. pose proof (Z.mod_pos_bound (- x) align Ha). split; [lia|].
  apply Z.mod_divide; [lia|]. rewrite Z.add_mod_idemp_r by lia. by rewrite Z.add_opp_diag_r, Z.mod_0_l by lia.
Qed.
Lemma next_multiple_aligned x align :
  0 < align → 0 <= x → x + align <= u64_max → next_multiple_of x align = Some (aligned align x).
Proof.
  intros Ha Hx Hb. unfold next_multiple_of, aligned. rewrite decide_False by lia.
  pose proof (Z.mod_pos_bound x align Ha). case_decide as H0.
  - rewrite Z.mod_opp_l_z by lia. f_equal; lia.
  - rewrite Z.mod_opp_l_nz by lia. by rewrite add_u64_Some by lia.
Qed.

Lemma optimal_align_bound shape elem_size align :
  0 <= shape → 1 <= elem_size → shape * elem_size <= 2 ^ 63 → 16 <= align →
  ∃ a, optimal_align shape elem_size align = Some a ∧ 1 <= a ∧
    if decide (shape = 1) then a = elem_size else a <= align.
Proof.
  intros Hs He Hb Ha. unfold optimal_align. destruct (Z.eqb_spec shape 1) as [->|Hne].
  { exists elem_size. split_and!; [done|lia|by rewrite decide_True]. }
  rewrite mul_u64_Some by lia. cbn.
  assert (∃ p, next_power_of_two (shape * elem_size) = Some p) as [p ->].
  { destruct (decide (1 <= shape)).
    - destruct (next_power_of_two_spec (shape * elem_size)) as (k & _ & -> & _); [nia|by eexists].
    - assert (shape = 0) as -> by lia. by eexists. }
  cbn. rewrite clamp_Some by done. eexists. split_and!; [done|lia|]. rewrite decide_False by done. lia.
Qed.

Lemma div_shrinks a e : 0 <= a → 1 <= e → 0 <= a / e <= a.
Proof. intros Ha He. split; [apply Z.div_pos; lia|]. apply Z.div_le_upper_bound; nia. Qed.

(** ** Rows

    The strides of rows that are [p] elements apart. *)
Definition pitched_strides (dims : Shape) (p : Z) : Strides := ((λ s, s * p) <$> strides_of dims) ++ [1].

Lemma pitched_strides_length dims p : length (pitched_strides dims p) = S (length dims).
Proof. unfold pitched_strides. rewrite length_app, length_fmap, strides_of_length. cbn. lia. Qed.
Lemma strides_of_rows dims w : strides_of (dims ++ [w]) = pitched_strides dims w.
Proof.
  unfold pitched_strides. induction dims as [|d dims IH]; [done|]. cbn. rewrite IH. f_equal.
  rewrite prod_Z_app. cbn. lia.
Qed.
Lemma pitched_lookup dims p j :
  (j < length dims)%nat → pitched_strides dims p !! j = Some (prod_Z (drop (S j) dims) * p).
Proof.
  intros Hj. unfold pitched_strides. rewrite lookup_app_l by (rewrite length_fmap, strides_of_length; lia).
  rewrite list_lookup_fmap, strides_of_drop, decide_True by done. done.
Qed.
Lemma pitched_last dims p : pitched_strides dims p !! length dims = Some 1.
Proof.
  unfold pitched_strides. rewrite lookup_app_r by (rewrite length_fmap, strides_of_length; lia).
  by rewrite length_fmap, strides_of_length, Nat.sub_diag.
Qed.
Lemma prod_drop_bound dims j : Forall (Z.le 0) dims → 0 <= prod_Z (drop j dims) <= extent dims.
Proof.
  intros Hd. pose proof (prod_extent (drop j dims) ltac:(by apply Forall_drop)).
  pose proof (extent_app (take j dims) (drop j dims)) as He. rewrite take_drop in He.
  pose proof (extent_pos (take j dims)). pose proof (extent_pos (drop j dims)). nia.
Qed.
Lemma pitched_follows dims w p j :
  Forall (Z.le 0) dims → 0 <= p → extent dims * p <= u64_max → (S j < length dims)%nat →
  follows (dims ++ [w]) (pitched_strides dims p) j.
Proof.
  intros Hd Hp Hb Hj. destruct (lookup_lt_is_Some_2 dims (S j) Hj) as [d Hdj].
  eexists _, d, _. rewrite !pitched_lookup by lia. split_and!; [done| |done| |].
  - by rewrite lookup_app_l by lia.
  - rewrite (drop_S _ _ _ Hdj), prod_Z_cons. ring.
  - pose proof (prod_drop_bound dims (S j) Hd) as Hx. rewrite (drop_S _ _ _ Hdj), prod_Z_cons in Hx. nia.
Qed.
(** The loop fills in what follows from the strides that are there. *)
Lemma row_major_follows shape strides n :
  (n < length strides)%nat → (∀ j, (j < n)%nat → follows shape strides j) →
  row_major_loop shape n (replicate n 1 ++ drop n strides) = Some strides.
Proof.
  induction n as [|i IH]; intros Hn Hall; cbn [row_major_loop]; [by rewrite drop_0|].
  destruct (Hall i ltac:(lia)) as (s & d & s' & Hs & Hd & Hs' & -> & Hb).
  rewrite lookup_app_r by (rewrite length_replicate; lia). rewrite length_replicate, Nat.sub_diag, lookup_drop, Nat.add_0_r.
  rewrite Hs'; cbn [mbind option_bind]. rewrite Hd; cbn [mbind option_bind]. rewrite mul_u64_Some by lia; cbn [mbind option_bind].
  rewrite <- IH by (intros; try apply Hall; lia). f_equal.
  rewrite replicate_S_end, <- app_assoc, insert_app_r_alt by (rewrite length_replicate; lia).
  rewrite length_replicate, Nat.sub_diag, (drop_S _ _ _ Hs). cbn. do 2 f_equal. lia.
Qed.

(** A layout with room for [size] bytes: rows of [w] elements, [p] apart. *)
Inductive laid (elem_size size : Z) : Shape → Strides → Prop :=
| laid_scalar : elem_size <= size → laid elem_size size [] []
| laid_rows dims w p : 0 <= w <= p → prod_Z dims * p * elem_size <= size →
    laid elem_size size (dims ++ [w]) (pitched_strides dims p).

Lemma offset_pitched r x dims p :
  length r = length dims → offset_of (r ++ [x]) (pitched_strides dims p) = offset_of r (strides_of dims) * p + x.
Proof.
  unfold pitched_strides. revert dims. induction r as [|i r IH]; intros [|d dims] Hl; try done; [cbn; lia|].
  cbn [strides_of fmap list_fmap]. rewrite <- !app_comm_cons, !offset_of_cons, IH by (cbn in Hl; lia). ring.
Qed.
Lemma in_rows c dims w :
  in_bounds c (dims ++ [w]) → ∃ r x, c = r ++ [x] ∧ in_bounds r dims ∧ 0 <= x < w.
Proof.
  intros (r & xs & Hr & Hx & ->)%Forall2_app_inv_r. inversion Hx as [|x ? xs' ? Hxw Hn]; subst. inversion Hn; subst.
  by exists r, x.
Qed.
(** The elements are in the room there is, and apart. *)
Lemma laid_inside elem_size size shape strides c :
  1 <= elem_size → laid elem_size size shape strides → in_bounds c shape →
  0 <= offset_of c strides * elem_size ∧ offset_of c strides * elem_size + elem_size <= size.
Proof.
  intros He [Hs|dims w p Hw Hp] Hc.
  { inversion Hc; subst. cbn. lia. }
  apply in_rows in Hc as (r & x & -> & Hr & Hx). pose proof (strides_of_bound _ _ Hr) as Hb.
  rewrite offset_pitched by (by eapply Forall2_length). set (o := offset_of r (strides_of dims)) in *.
  assert (0 <= o * p) by nia. assert (0 <= (prod_Z dims - o - 1) * p) by nia.
  split; [nia|]. assert (o * p + x + 1 <= prod_Z dims * p) by nia. nia.
Qed.
Lemma laid_apart elem_size size shape strides c c' :
  laid elem_size size shape strides → in_bounds c shape → in_bounds c' shape →
  offset_of c strides = offset_of c' strides → c = c'.
Proof.
  intros [Hs|dims w p Hw Hp] Hc Hc'.
  { inversion Hc; inversion Hc'; by subst. }
  apply in_rows in Hc as (r & x & -> & Hr & Hx), Hc' as (r' & x' & -> & Hr' & Hx').
  rewrite !offset_pitched by (by eapply Forall2_length). intros Heq.
  assert (offset_of r (strides_of dims) = offset_of r' (strides_of dims)) as Hrr by nia.
  assert (x = x') as -> by nia. f_equal. by eapply separated_injective; [apply strides_of_separated|..].
Qed.
Lemma laid_accepted elem_size size shape strides :
  laid elem_size size shape strides → shape ≠ [] → Forall (Z.le 1) shape → 1 <= elem_size → size <= u64_max →
  try_check_pitched_row_major_strides shape strides = Some (Ok tt).
Proof.
  intros [Hs|dims w p Hw Hp] Hne H1 He Hsize; [done|]. apply Forall_app in H1 as [H1 Hw1]. rewrite Forall_singleton in Hw1.
  pose proof (prod_Z_pos dims H1) as Hd1.
  assert (Forall (Z.le 0) dims) as H0 by (eapply Forall_impl; [exact H1|cbn; lia]).
  assert (prod_Z dims * p <= u64_max) as Hfit by nia.
  unfold try_check_pitched_row_major_strides, try_check_matching_ranks, try_bind.
  rewrite decide_False by (rewrite pitched_strides_length, length_app; cbn; lia). cbn [mbind option_bind].
  rewrite length_app, Nat.add_1_r, decide_False by done.
  replace (S (length dims) - 1)%nat with (length dims) by lia.
  rewrite pitched_last. cbn [mbind option_bind].
  assert (Forall (λ s, s ≠ 0) (pitched_strides dims p)) as Hnz.
  { unfold pitched_strides. apply Forall_app. split; [|by apply Forall_singleton]. apply Forall_fmap, Forall_lookup.
    intros i s. rewrite strides_of_drop. case_decide; [|done]. intros [= <-] Hz.
    change (prod_Z (drop (S i) dims) * p = 0) in Hz. pose proof (prod_Z_pos (drop (S i) dims) ltac:(by apply Forall_drop)). nia. }
  rewrite (bool_decide_eq_true_2 (1 = 1 ∧ _)) by done. cbn [andb].
  case_bool_decide as Hr; [|done]. replace (S (length dims) - 2)%nat with (length dims - 1)%nat by lia.
  rewrite pitched_lookup, drop_ge by lia. cbn [mbind option_bind]. change (prod_Z []) with 1.
  rewrite lookup_app_r, Nat.sub_diag by lia. cbn [lookup list_lookup mbind option_bind].
  assert (contiguous_loop (dims ++ [w]) (pitched_strides dims p) 0 (length dims - 1) = Some true) as ->.
  { apply contiguous_loop_true. intros j Hj. destruct (lookup_lt_is_Some_2 dims (S j) ltac:(lia)) as [d Hdj].
    eexists _, d, _. rewrite !pitched_lookup by lia. split_and!; [done| |done| |].
    - by rewrite lookup_app_l by lia.
    - rewrite (drop_S _ _ _ Hdj), prod_Z_cons. ring.
    - pose proof (prod_Z_pos (drop (S (S j)) dims) ltac:(by apply Forall_drop)).
      pose proof (prod_Z_pos (take (S j) dims) ltac:(by apply Forall_take)).
      pose proof (prod_Z_app (take (S j) dims) (drop (S j) dims)) as Ha. rewrite take_drop, (drop_S _ _ _ Hdj), prod_Z_cons in Ha.
      apply Forall_lookup_1 with (i := S j) (x := d) in H1; [|done]. nia. }
  cbn. destruct (Z.ltb_spec (1 * p) w); [lia|done].
Qed.

(** ** The layout of one tensor *)

(** What a tensor takes at most: its rows, each padded, and the end. *)
Definition room (align : Z) (d : MemoryLayoutDescriptor) : Z :=
  extent (drop 1 (reverse (layout_shape d))) * (Z.max 1 (default 1 (last (layout_shape d))) * layout_elem_size d + align) + align.
Definition policy_ok (p : LayoutPolicy) : Prop :=
  match p with ContiguousMemoryLayoutPolicy a => 0 < a | PitchedMemoryLayoutPolicy a => 16 <= a end.
Definition request_ok (p : LayoutPolicy) (d : MemoryLayoutDescriptor) : Prop :=
  Forall (Z.le 0) (layout_shape d) ∧ 1 <= layout_elem_size d ∧
  match p with ContiguousMemoryLayoutPolicy _ => layout_shape d ≠ [] | _ => True end.

Lemma room_rows align s dims w e :
  room align (mk_MemoryLayoutDescriptor s (dims ++ [w]) e) = extent dims * (Z.max 1 w * e + align) + align.
Proof. unfold room. cbn [layout_shape layout_elem_size]. rewrite reverse_snoc, last_snoc. cbn [drop]. change (default 1 (Some w)) with w. by rewrite drop_0, extent_reverse. Qed.

Lemma contiguous_layout_spec align s dims w e :
  0 < align → Forall (Z.le 0) (dims ++ [w]) → 1 <= e → extent dims * (Z.max 1 w * e + align) + align <= 2 ^ 63 →
  contiguous_layout (mk_MemoryLayoutDescriptor s (dims ++ [w]) e) = Some (prod_Z dims * w * e, pitched_strides dims w).
Proof.
  intros Ha Hs He Hroom. unfold contiguous_layout. cbn [layout_shape layout_elem_size].
  pose proof (extent_app dims [w]) as Hx. pose proof (extent_pos dims) as Hd. pose proof (prod_extent _ Hs) as Hp.
  assert (extent [w] = Z.max 1 w) as Hw by (unfold extent; cbn; lia). rewrite Hw in Hx.
  assert (extent (dims ++ [w]) * e <= 2 ^ 63) as Hfit by (rewrite Hx; nia).
  unfold num_elements. rewrite product_from_extent by (done || nia). cbn [mbind option_bind].
  rewrite mul_u64_Some by nia. cbn [mbind option_bind].
  assert (contiguous_strides (dims ++ [w]) = Some (pitched_strides dims w)) as ->.
  { rewrite <- strides_of_rows, <- row_major_strides_of.
    - unfold contiguous_strides, row_major_contiguous_strides. rewrite length_app, Nat.add_1_r. cbn [length].
      rewrite decide_False by done. case_decide; [done|]. by replace (length dims) with 0%nat by lia.
    - apply Forall_lookup. intros i x. rewrite strides_of_drop. case_decide; [|done]. intros [= <-].
      pose proof (prod_drop_bound (dims ++ [w]) (S i) Hs). nia. }
  cbn. do 2 f_equal. rewrite prod_Z_app. cbn. lia.
Qed.

Lemma pitched_layout_spec align s dims w e :
  16 <= align → Forall (Z.le 0) (dims ++ [w]) → 1 <= e → extent dims * (Z.max 1 w * e + align) + align <= 2 ^ 63 →
  ∃ pitch, w * e <= pitch <= Z.max 1 w * e + align ∧
  pitched_layout align (mk_MemoryLayoutDescriptor s (dims ++ [w]) e) =
    Some (Z.max (prod_Z dims) 1 * pitch, pitched_strides dims (if decide (dims = []) then w else pitch / e)).
Proof.
  intros Ha Hs He Hroom. unfold pitched_layout. cbn [layout_shape layout_elem_size layout_strategy].
  apply Forall_app in Hs as [Hs Hw]. rewrite Forall_singleton in Hw.
  pose proof (extent_pos dims) as Hd. pose proof (prod_extent _ Hs) as Hp.
  rewrite last_snoc. change (default 1 (Some w)) with w.
  set (x := w * e). assert (0 <= x) as Hx by (subst x; nia). assert (x <= Z.max 1 w * e) as Hxm by (subst x; nia).
  assert (Z.max 1 w * e + align <= 2 ^ 63 - 16) as Hrow by nia.
  assert (∃ a, match s with ContiguousLayout => Some 1 | OptimizedLayout => optimal_align w e align end = Some a ∧
    1 <= a ∧ x <= aligned a x <= Z.max 1 w * e + align ∧ x + a <= u64_max) as (a & -> & Ha1 & Hpitch & Hover).
  { destruct s.
    - exists 1. pose proof (aligned_bounds 1 x ltac:(lia)). split_and!; [done|lia..].
    - destruct (optimal_align_bound w e align) as (a & Heq & Ha1 & Hc); [done|done|subst x; lia|done|].
      exists a. split; [done|]. split; [done|]. pose proof (aligned_bounds a x ltac:(lia)) as [Hb Hdiv]. case_decide as H1.
      + subst a w. assert (aligned e x = e) as Heq'.
        { unfold aligned. subst x. rewrite Z.mul_1_l, Z.mod_opp_l_z; [lia|lia|]. by apply Z.mod_same; lia. }
        rewrite Heq' in *. subst x. lia.
      + lia. }
  exists (aligned a x). split; [done|]. cbn [mbind option_bind].
  rewrite reverse_snoc. cbn [drop]. rewrite drop_0.
  rewrite product_from_extent by (rewrite ?extent_reverse; first [done | by apply Forall_reverse | nia]). cbn [mbind option_bind].
  rewrite prod_reverse, Z.mul_1_l. rewrite mul_u64_Some by (fold x; lia). cbn [mbind option_bind]. fold x.
  rewrite next_multiple_aligned by lia. cbn [mbind option_bind].
  set (pitch := aligned a x) in *.
  assert (extent dims * pitch <= 2 ^ 63) as Hfit by nia.
  rewrite mul_u64_Some by nia. cbn [mbind option_bind].
  rewrite length_app. cbn [length]. destruct dims as [|d dims']; [done|]. set (dims := d :: dims') in *.
  rewrite (decide_False (P := dims = [])) by done.
  assert (length dims = S (length dims')) as Hlen by done. rewrite decide_True by lia.
  unfold div_u64. rewrite decide_False by lia. cbn [mbind option_bind].
  set (p := pitch / e).
  assert (0 <= p <= pitch) as Hpb.
  { apply div_shrinks; lia. }
  replace (length dims + 1 - 2)%nat with (length dims') by lia.
  assert (<[length dims' := p]> (replicate (length dims + 1) 1) =
    replicate (length dims') 1 ++ drop (length dims') (pitched_strides dims p)) as ->.
  { rewrite (drop_S _ (1 * p)) by (rewrite pitched_lookup, drop_ge by lia; done).
    rewrite (drop_S _ 1) by (rewrite <- Hlen; apply pitched_last).
    rewrite drop_ge by (rewrite pitched_strides_length; lia).
    replace (length dims + 1)%nat with (length dims' + 2)%nat by lia. rewrite replicate_add.
    rewrite insert_app_r_alt by (rewrite length_replicate; lia). rewrite length_replicate, Nat.sub_diag, Z.mul_1_l. done. }
  assert ((if decide (2 < length dims + 1)%nat then
    row_major_loop (dims ++ [w]) (length dims') (replicate (length dims') 1 ++ drop (length dims') (pitched_strides dims p))
    else Some (replicate (length dims') 1 ++ drop (length dims') (pitched_strides dims p))) = Some (pitched_strides dims p)) as ->; [|done].
  case_decide.
  - apply row_major_follows; [rewrite pitched_strides_length; lia|]. intros j Hj. apply pitched_follows; [done|lia|nia|lia].
  - by replace (length dims') with 0%nat by lia.
Qed.

Lemma one_layout_spec p d :
  policy_ok p → request_ok p d → room (mem_alignment p) d <= 2 ^ 63 →
  ∃ size strides, one_layout p d = Some (size, strides) ∧
    0 <= size <= room (mem_alignment p) d - mem_alignment p ∧ laid (layout_elem_size d) size (layout_shape d) strides.
Proof.
  destruct d as [s shape e]. intros Hp (Hs & He & Hne) Hroom. cbn [layout_shape layout_elem_size] in *.
  destruct shape as [|w dims _] using rev_ind.
  - destruct p as [align|align]; [done|]. cbn [one_layout mem_alignment policy_ok] in *. exists e, [].
    change (room align (mk_MemoryLayoutDescriptor s [] e)) with (1 * (1 * e + align) + align) in *.
    destruct (optimal_align_bound 1 e align) as (a & Ha & Ha1 & Hae); [lia..|done|].
    unfold pitched_layout. cbn [layout_shape layout_elem_size layout_strategy last default from_option].
    change (id 1) with 1.
    assert (∃ a, match s with ContiguousLayout => Some 1 | OptimizedLayout => optimal_align 1 e align end = Some a ∧
      1 <= a <= e ∧ aligned a e = e) as (b & -> & Hb & Hbe).
    { destruct s.
      - exists 1. split_and!; [done|lia|lia|]. unfold aligned. rewrite Z.mod_1_r. lia.
      - exists a. rewrite decide_True in Hae by done. subst a. split_and!; [done|lia|lia|].
        unfold aligned. rewrite Z.mod_opp_l_z; [lia|lia|]. apply Z.mod_same; lia. }
    cbn [mbind option_bind]. change (product_from 1 (drop 1 (reverse []))) with (Some 1). cbn [mbind option_bind].
    rewrite mul_u64_Some, Z.mul_1_l by lia. cbn [mbind option_bind]. rewrite next_multiple_aligned, Hbe by lia.
    cbn [mbind option_bind]. change (Z.max 1 1) with 1. rewrite mul_u64_Some, Z.mul_1_l by lia.
    split_and!; [done|lia|lia|constructor; cbn; lia].
  - rewrite room_rows in *. pose proof (extent_pos dims) as Hd.
    pose proof Hs as Hs'. apply Forall_app in Hs' as [Hd0 Hw]. rewrite Forall_singleton in Hw.
    pose proof (prod_extent _ Hd0) as Hpe.
    destruct p as [align|align]; cbn [one_layout mem_alignment policy_ok] in *.
    + rewrite (contiguous_layout_spec align) by done. eexists _, _. split; [done|].
      assert (prod_Z dims * w * e <= extent dims * (Z.max 1 w * e)) as Hle.
      { rewrite <- Z.mul_assoc. apply Z.mul_le_mono_nonneg; nia. }
      split; [nia|]. constructor; nia.
    + destruct (pitched_layout_spec align s dims w e) as (pitch & Hb & ->); [done..|]. eexists _, _. split; [done|].
      assert (0 <= w * e) by nia.
      assert (Z.max (prod_Z dims) 1 * pitch <= extent dims * (Z.max 1 w * e + align)) as Hle.
      { apply Z.mul_le_mono_nonneg; lia. }
      split; [nia|]. constructor.
      * case_decide; [lia|]. split; [done|]. apply Z.div_le_lower_bound; lia.
      * case_decide as Hc; [subst dims; cbn; lia|]. rewrite <- Z.mul_assoc.
        assert (pitch / e * e <= pitch) by (rewrite Z.mul_comm; apply Z.mul_div_le; lia).
        assert (0 <= pitch / e * e) by (apply Z.mul_nonneg_nonneg; [apply Z.div_pos; lia|lia]).
        apply Z.mul_le_mono_nonneg; lia.
Qed.

(** ** The batch *)
Definition sum_room (align : Z) (ds : list MemoryLayoutDescriptor) : Z := sum_Z (room align <$> ds).

Lemma room_pos p d : policy_ok p → request_ok p d → 0 < mem_alignment p <= room (mem_alignment p) d.
Proof.
  intros Hp (Hs & He & _). assert (0 < mem_alignment p) as Ha by (destruct p; cbn in *; lia). unfold room.
  pose proof (extent_pos (drop 1 (reverse (layout_shape d)))). nia.
Qed.
Lemma lay_out_spec p ds total :
  policy_ok p → Forall (request_ok p) ds → 0 <= total → total + sum_room (mem_alignment p) ds <= 2 ^ 63 →
  ∃ l, lay_out p ds total = Some (l, total + sum_Z (aligned (mem_alignment p) <$> l.*1)) ∧
    Forall2 (λ d r, 0 <= r.1 ∧ r.1 + mem_alignment p <= 2 ^ 63 ∧ laid (layout_elem_size d) r.1 (layout_shape d) r.2) ds l ∧
    sum_Z (aligned (mem_alignment p) <$> l.*1) <= sum_room (mem_alignment p) ds.
Proof.
  intros Hp Hds. revert total. induction Hds as [|d ds Hd Hds IH]; intros total Ht Hb.
  { exists []. cbn. rewrite Z.add_0_r. split_and!; [done|constructor|done]. }
  unfold sum_room in *. rewrite fmap_cons, sum_Z_cons in *. pose proof (room_pos p d Hp Hd) as Hpos.
  assert (0 <= sum_Z (room (mem_alignment p) <$> ds)) as Hrest.
  { apply sum_Z_nonneg, Forall_fmap. eapply Forall_impl; [exact Hds|]. intros x Hx. cbn.
    pose proof (room_pos p x Hp Hx). lia. }
  destruct (one_layout_spec p d) as (size & strides & Hone & Hsize & Hlaid); [done|done|lia|].
  cbn [lay_out]. rewrite Hone. cbn [mbind option_bind].
  pose proof (aligned_bounds (mem_alignment p) size ltac:(lia)) as [Hal _].
  rewrite next_multiple_aligned by lia. cbn [mbind option_bind]. rewrite add_u64_Some by lia. cbn [mbind option_bind].
  destruct (IH (total + aligned (mem_alignment p) size)) as (l & -> & Hl & Hsum); [lia|lia|].
  exists ((size, strides) :: l). cbn [mbind option_bind fmap list_fmap fst]. rewrite sum_Z_cons. split_and!.
  - do 2 f_equal. lia.
  - constructor; [cbn; split_and!; [lia|lia|done]|done].
  - lia.
Qed.

(** The handles of a batch, from the byte [offset] on. *)
Fixpoint carve (base : BufferHandle) (align offset : Z) (sizes : list Z) : list BufferHandle :=
  match sizes with
  | [] => []
  | size :: sizes =>
      mk_BufferHandle (handle_memory base) (Some offset) (Some (handle_size base - offset - size))
        (handle_stream base) (handle_size base) :: carve base align (offset + aligned align size) sizes
  end.
Lemma wp_offset_loop base align sizes offset m b n k (Q : list BufferHandle → Memory → Prop) :
  0 < align → handle_offset_start base = None → handle_offset_end base = None →
  Forall (λ s, 0 <= s ∧ s + align <= u64_max) sizes → 0 <= offset →
  offset + sum_Z (aligned align <$> sizes) <= handle_size base → handle_size base <= u64_max →
  descriptors m !! handle_memory base = Some (mk_Descriptor b n k) →
  Q (carve base align offset sizes)
    (with_descriptors <[handle_memory base := mk_Descriptor b (n + Z.of_nat (length sizes)) k]> m) →
  wp (offset_loop base offset sizes align) m Q.
Proof.
  intros Ha Hs He Hsz. revert offset m n Q. induction Hsz as [|size sizes [Hs0 Hs1] Hsz IH]; intros offset m n Q Ho Hb Hu Hd HQ.
  { apply wp_ret. cbn in HQ. rewrite Z.add_0_r in HQ. unfold with_descriptors in HQ. rewrite insert_id in HQ by done. by destruct m. }
  rewrite fmap_cons, sum_Z_cons in Hb. pose proof (aligned_bounds align size Ha) as [Hal _].
  assert (0 <= sum_Z (aligned align <$> sizes)) as Hrest.
  { apply sum_Z_nonneg, Forall_fmap. eapply Forall_impl; [exact Hsz|]. intros x [Hx _]. cbn.
    pose proof (aligned_bounds align x Ha). lia. }
  cbn [offset_loop]. apply wp_bind, wp_bind. eapply wp_handle_clone; [done|]. apply wp_ret.
  apply wp_bind. eapply wp_lift; [unfold buffer_offset_start, add_offset; by rewrite Hs|].
  apply wp_bind. eapply wp_lift; [rewrite sub_u64_Some by lia; cbn; by rewrite sub_u64_Some by lia|].
  apply wp_bind. eapply wp_lift; [unfold buffer_offset_end, add_offset; cbn; by rewrite He|].
  apply wp_bind. eapply wp_lift; [by apply next_multiple_aligned; lia|].
  apply wp_bind. eapply wp_lift; [by apply add_u64_Some; lia|].
  apply wp_bind. eapply IH; [lia|lia|done|cbn; by rewrite lookup_insert_eq|].
  apply wp_ret. cbn. unfold with_descriptors in *. cbn. rewrite insert_insert_eq. cbn [carve length] in HQ.
  replace (n + 1 + Z.of_nat (length sizes)) with (n + Z.of_nat (S (length sizes))) by lia. exact HQ.
Qed.

(** Where the tensor at [i] starts. *)
Definition start_of (align : Z) (sizes : list Z) (i : nat) : Z := sum_Z (aligned align <$> take i sizes).
Lemma carve_lookup base align offset sizes i :
  carve base align offset sizes !! i =
  (size ← sizes !! i; let start := offset + start_of align sizes i in
   Some (mk_BufferHandle (handle_memory base) (Some start) (Some (handle_size base - start - size))
     (handle_stream base) (handle_size base))).
Proof.
  revert offset i. induction sizes as [|s sizes IH]; intros offset i; [done|]. destruct i as [|i]; cbn [carve lookup list_lookup].
  - unfold start_of. cbn. by rewrite Z.add_0_r.
  - rewrite IH. destruct (sizes !! i) as [size|]; [|done]. cbn [mbind option_bind]. unfold start_of. rewrite firstn_cons, fmap_cons, sum_Z_cons. by rewrite Z.add_assoc.
Qed.
Lemma start_S align sizes i size :
  sizes !! i = Some size → start_of align sizes (S i) = start_of align sizes i + aligned align size.
Proof. intros Hi. unfold start_of. rewrite (take_S_r _ _ _ Hi), fmap_app, sum_Z_app. cbn. lia. Qed.
Lemma start_le align sizes i j :
  0 < align → Forall (Z.le 0) sizes → (i <= j)%nat → start_of align sizes i <= start_of align sizes j.
Proof.
  intros Ha Hs Hij. replace j with (i + (j - i))%nat by lia. unfold start_of.
  rewrite <- take_take_drop, fmap_app, sum_Z_app.
  enough (0 <= sum_Z (aligned align <$> take (j - i) (drop i sizes))) by lia.
  apply sum_Z_nonneg, Forall_fmap, Forall_take, Forall_drop. eapply Forall_impl; [exact Hs|]. intros x Hx. cbn.
  pose proof (aligned_bounds align x Ha). lia.
Qed.
Lemma start_next align sizes i j size :
  0 < align → Forall (Z.le 0) sizes → sizes !! i = Some size → (i < j)%nat →
  start_of align sizes i + size <= start_of align sizes j.
Proof.
  intros Ha Hs Hi Hj. pose proof (start_le align sizes (S i) j Ha Hs ltac:(lia)) as Hle.
  rewrite (start_S _ _ _ _ Hi) in Hle. pose proof (aligned_bounds align size Ha). lia.
Qed.
Lemma start_total align sizes i : (length sizes <= i)%nat → start_of align sizes i = sum_Z (aligned align <$> sizes).
Proof. intros Hi. unfold start_of. by rewrite take_ge. Qed.
Lemma start_divides align sizes i : 0 < align → (align | start_of align sizes i).
Proof.
  intros Ha. unfold start_of. induction (take i sizes) as [|x l IH]; [by exists 0|].
  rewrite fmap_cons, sum_Z_cons. apply Z.divide_add_r; [|done]. by apply aligned_bounds.
Qed.

Lemma wp_apply_policy p stream ds m :
  policy_ok p → Forall (request_ok p) ds → sum_room (mem_alignment p) ds <= 2 ^ 63 → 0 <= COUNTER m < u64_max →
  wp (apply_policy p stream ds) m (λ r m', ∃ l, let total := sum_Z (aligned (mem_alignment p) <$> l.*1) in
    Forall2 (λ d r, 0 <= r.1 ∧ laid (layout_elem_size d) r.1 (layout_shape d) r.2) ds l ∧
    total <= sum_room (mem_alignment p) ds ∧
    r = (handle_from_memory (COUNTER m) stream total,
         zip_with mk_MemoryLayout (carve (handle_from_memory (COUNTER m) stream total) (mem_alignment p) 0 l.*1) l.*2) ∧
    m' = mk_Memory (COUNTER m + 1)
      (<[COUNTER m := mk_Descriptor (to_bits location_uninit) (1 + Z.of_nat (length ds)) 0]> (descriptors m))).
Proof.
  intros Hp Hds Hb Hc. assert (0 < mem_alignment p) as Ha by (destruct p; cbn in *; lia).
  destruct (lay_out_spec p ds 0) as (l & Hl & Hall & Hsum); [done|done|done|lia|]. rewrite Z.add_0_l in Hl.
  set (total := sum_Z (aligned (mem_alignment p) <$> l.*1)) in *.
  unfold apply_policy. apply wp_bind. eapply wp_lift; [exact Hl|].
  apply wp_bind, wp_bind, wp_handle_new; [done|]. apply wp_ret, wp_bind, wp_bind.
  eapply wp_handle_clone; [cbn; by rewrite lookup_insert_eq|]. apply wp_ret, wp_bind, wp_bind.
  eapply wp_offset_loop with (b := to_bits location_uninit) (n := 2) (k := 0); try done.
  { apply Forall_fmap, Forall_lookup. intros i r Hr.
    destruct (Forall2_lookup_r _ _ _ _ _ Hall Hr) as (d & _ & H0 & H1 & _). cbn. lia. }
  { cbn. fold total. lia. }
  { cbn. by rewrite lookup_insert_eq. }
  apply wp_bind. eapply wp_handle_drop; [cbn; by rewrite lookup_insert_eq|cbn; lia|].
  apply wp_ret, wp_ret. exists l. split_and!; [|done|done|].
  - eapply Forall2_impl; [exact Hall|]. cbn. intros d r (H0 & _ & H2). done.
  - unfold with_descriptors. cbn. rewrite !insert_insert_eq, length_fmap, <- (Forall2_length _ _ _ Hall).
    do 4 f_equal. lia.
Qed.

(** The bytes of the element at [c], in the allocation of the handle. *)
Definition element_bytes (d : MemoryLayoutDescriptor) (l : MemoryLayout) (c : list Z) : option Range :=
  '(start, _) ← binding_range (as_binding (layout_memory l));
  let first := start + offset_of c (layout_strides l) * layout_elem_size d in
  Some (first, first + layout_elem_size d).

Section batch.
Context (p : LayoutPolicy) (stream : StreamId) (ds : list MemoryLayoutDescriptor) (id : ManagedMemoryId).
Context (l : list (Z * Strides)) (Ha : 0 < mem_alignment p).
Context (Hall : Forall2 (λ d r, 0 <= r.1 ∧ laid (layout_elem_size d) r.1 (layout_shape d) r.2) ds l).
Context (Hpos : Forall (λ d, 1 <= layout_elem_size d) ds).
Let total := sum_Z (aligned (mem_alignment p) <$> l.*1).
Let base := handle_from_memory id stream total.
Let layouts := zip_with mk_MemoryLayout (carve base (mem_alignment p) 0 l.*1) l.*2.

Lemma sizes_nonneg : Forall (Z.le 0) l.*1.
Proof.
  apply Forall_fmap, Forall_lookup. intros i r Hr. by destruct (Forall2_lookup_r _ _ _ _ _ Hall Hr) as (d & _ & H0 & _).
Qed.
Lemma layout_lookup i lay :
  layouts !! i = Some lay → ∃ d r, ds !! i = Some d ∧ l !! i = Some r ∧ 0 <= r.1 ∧
    laid (layout_elem_size d) r.1 (layout_shape d) r.2 ∧ layout_strides lay = r.2 ∧
    layout_memory lay = mk_BufferHandle id (Some (start_of (mem_alignment p) l.*1 i))
      (Some (total - start_of (mem_alignment p) l.*1 i - r.1)) stream total.
Proof.
  unfold layouts. intros Hl. apply lookup_zip_with_Some in Hl as (h & st & -> & Hh & Hst).
  rewrite list_lookup_fmap in Hst. destruct (l !! i) as [r|] eqn:Hr; [|done]. injection Hst as <-.
  rewrite carve_lookup, list_lookup_fmap, Hr in Hh. injection Hh as <-.
  destruct (Forall2_lookup_r _ _ _ _ _ Hall Hr) as (d & Hd & H0 & Hlaid). by exists d, r.
Qed.
Lemma layouts_length : length layouts = length ds.
Proof.
  unfold layouts. rewrite length_zip_with. enough (length (carve base (mem_alignment p) 0 l.*1) = length l) as ->.
  { rewrite length_fmap, (Forall2_length _ _ _ Hall). lia. }
  rewrite <- (length_fmap fst l). generalize l.*1, 0. induction l0 as [|s l0 IH]; intros z; cbn; [done|]. by rewrite IH.
Qed.
Lemma layout_range i d lay :
  layouts !! i = Some lay → ds !! i = Some d →
  ∃ start end_, binding_range (as_binding (layout_memory lay)) = Some (start, end_) ∧
    start = start_of (mem_alignment p) l.*1 i ∧ 0 <= start <= end_ ∧ end_ <= start_of (mem_alignment p) l.*1 (S i) ∧
    end_ <= total ∧ laid (layout_elem_size d) (end_ - start) (layout_shape d) (layout_strides lay).
Proof.
  intros Hlay Hd. apply layout_lookup in Hlay as (d' & r & Hd' & Hr & H0 & Hlaid & Hst & Hm).
  rewrite Hd in Hd'. injection Hd' as <-. pose proof sizes_nonneg as Hs.
  assert (l.*1 !! i = Some r.1) as Hri by by rewrite list_lookup_fmap, Hr.
  pose proof (start_next _ _ _ (S i) _ Ha Hs Hri ltac:(lia)) as Hn.
  pose proof (start_le (mem_alignment p) _ 0 i Ha Hs ltac:(lia)) as H1.
  pose proof (start_le (mem_alignment p) _ (S i) (S i + length l) Ha Hs ltac:(lia)) as H2.
  rewrite (start_total _ _ (S i + length l)) in H2 by (rewrite length_fmap; lia). fold total in H2. change (start_of _ _ 0) with 0 in H1.
  set (start := start_of (mem_alignment p) l.*1 i) in *. exists start, (start + r.1).
  rewrite Hm, Hst. unfold binding_range, as_binding. cbn. rewrite sub_u64_Some by lia. cbn.
  split_and!; try done; try lia; [do 2 f_equal; lia|]. by replace (start + r.1 - start) with r.1 by lia.
Qed.
(** The ranges of two layouts follow one another. *)
Lemma ranges_apart i j lay lay' r r' :
  (i < j)%nat → layouts !! i = Some lay → layouts !! j = Some lay' →
  binding_range (as_binding (layout_memory lay)) = Some r → binding_range (as_binding (layout_memory lay')) = Some r' → r.2 <= r'.1.
Proof.
  intros Hij Hi Hj Hr Hr'. destruct (layout_lookup _ _ Hi) as (d & ? & Hd & _). destruct (layout_lookup _ _ Hj) as (d' & ? & Hd' & _).
  destruct (layout_range i d lay Hi Hd) as (start & end_ & Hri & _ & _ & Hend & _).
  destruct (layout_range j d' lay' Hj Hd') as (start' & end' & Hrj & -> & _).
  rewrite Hr in Hri. rewrite Hr' in Hrj. injection Hri as ->. injection Hrj as ->. cbn.
  pose proof (start_le (mem_alignment p) _ (S i) j Ha sizes_nonneg ltac:(lia)). lia.
Qed.
Lemma element_inside i d lay c :
  layouts !! i = Some lay → ds !! i = Some d → in_bounds c (layout_shape d) →
  ∃ first last_, element_bytes d lay c = Some (first, last_) ∧
    start_of (mem_alignment p) l.*1 i <= first ∧ first < last_ <= start_of (mem_alignment p) l.*1 (S i) ∧
    ∃ end_, binding_range (as_binding (layout_memory lay)) = Some (start_of (mem_alignment p) l.*1 i, end_) ∧ last_ <= end_.
Proof.
  intros Hlay Hd Hc. destruct (layout_range i d lay Hlay Hd) as (start & end_ & Hr & -> & H0 & H1 & _ & Hlaid).
  pose proof (Forall_lookup_1 _ _ _ _ Hpos Hd) as He. cbn in He.
  pose proof (laid_inside _ _ _ _ _ He Hlaid Hc) as [Hf Hl].
  unfold element_bytes. rewrite Hr. cbn. eexists _, _. split; [done|]. split; [lia|]. split; [lia|].
  exists end_. split; [done|lia].
Qed.
Lemma elements_apart i j d d' lay lay' c c' first last_ first' last_' byte :
  layouts !! i = Some lay → layouts !! j = Some lay' → ds !! i = Some d → ds !! j = Some d' →
  in_bounds c (layout_shape d) → in_bounds c' (layout_shape d') →
  element_bytes d lay c = Some (first, last_) → element_bytes d' lay' c' = Some (first', last_') →
  first <= byte < last_ → first' <= byte < last_' → i = j ∧ c = c'.
Proof.
  intros Hi Hj Hd Hd' Hc Hc' He He' Hb Hb'. pose proof sizes_nonneg as Hs.
  destruct (element_inside _ _ _ _ Hi Hd Hc) as (? & ? & He2 & Hlo & Hhi & _). rewrite He in He2. injection He2 as <- <-.
  destruct (element_inside _ _ _ _ Hj Hd' Hc') as (? & ? & He3 & Hlo' & Hhi' & _). rewrite He' in He3. injection He3 as <- <-.
  destruct (decide (i < j)%nat) as [Hlt|Hge].
  { pose proof (start_le (mem_alignment p) _ (S i) j Ha Hs ltac:(lia)). lia. }
  destruct (decide (j < i)%nat) as [Hlt|Hge'].
  { pose proof (start_le (mem_alignment p) _ (S j) i Ha Hs ltac:(lia)). lia. }
  assert (i = j) as <- by lia. split; [done|]. simplify_eq.
  destruct (layout_range i d lay Hi Hd) as (start & end_ & Hr & _ & _ & _ & _ & Hlaid).
  eapply laid_apart; [exact Hlaid|done|done|].
  unfold element_bytes in He, He'. rewrite Hr in He, He'. cbn in He, He'. injection He as <- <-. injection He' as <- <-.
  pose proof (Forall_lookup_1 _ _ _ _ Hpos Hd) as Hel. cbn in Hel. nia.
Qed.
End batch.

(** ** What a policy promises *)

(** C28: under both policies, while the padded tensors of a batch fit in half of
    the address space, the batch is carved out of one allocation, of which the
    base and each layout hold a handle: each layout starts on the alignment and
    ends inside the allocation, where the next one has not started; its strides
    are accepted by the pitched check when it has elements, every element is
    inside its layout, and no two elements of the whole batch share a byte.  A
    scalar needs the pitched policy. *)
Theorem layouts_carved p stream ds m :
  policy_ok p → Forall (request_ok p) ds → sum_room (mem_alignment p) ds <= 2 ^ 63 → 0 <= COUNTER m < u64_max →
  wp (apply_policy p stream ds) m (λ '(base, layouts) m',
    base = handle_from_memory (COUNTER m) stream (handle_size base) ∧ handle_size base <= sum_room (mem_alignment p) ds ∧
    m' = mk_Memory (COUNTER m + 1)
      (<[COUNTER m := mk_Descriptor (to_bits location_uninit) (1 + Z.of_nat (length ds)) 0]> (descriptors m)) ∧
    length layouts = length ds ∧
    (∀ i d l, ds !! i = Some d → layouts !! i = Some l →
      handle_memory (layout_memory l) = COUNTER m ∧
      (∃ start end_, binding_range (as_binding (layout_memory l)) = Some (start, end_) ∧
         (mem_alignment p | start) ∧ 0 <= start <= end_ ∧ end_ <= handle_size base ∧
         ∀ c, in_bounds c (layout_shape d) → ∃ first last_,
           element_bytes d l c = Some (first, last_) ∧ start <= first ∧ last_ <= end_) ∧
      (layout_shape d ≠ [] → Forall (Z.le 1) (layout_shape d) →
         try_check_pitched_row_major_strides (layout_shape d) (layout_strides l) = Some (Ok tt))) ∧
    (∀ i j l l' r r', (i < j)%nat → layouts !! i = Some l → layouts !! j = Some l' →
      binding_range (as_binding (layout_memory l)) = Some r → binding_range (as_binding (layout_memory l')) = Some r' → r.2 <= r'.1) ∧
    (∀ i j d d' l l' c c' first last_ first' last_' byte,
      layouts !! i = Some l → layouts !! j = Some l' → ds !! i = Some d → ds !! j = Some d' →
      in_bounds c (layout_shape d) → in_bounds c' (layout_shape d') →
      element_bytes d l c = Some (first, last_) → element_bytes d' l' c' = Some (first', last_') →
      first <= byte < last_ → first' <= byte < last_' → i = j ∧ c = c')).
Proof.
  intros Hp Hds Hb Hc. assert (0 < mem_alignment p) as Ha by (destruct p; cbn in *; lia).
  assert (Forall (λ d, 1 <= layout_elem_size d) ds) as Hel by (eapply Forall_impl; [exact Hds|]; by intros d (_ & He & _)).
  eapply wp_mono; [by apply wp_apply_policy|]. intros r m' (l & Hall & Hsum & -> & ->). cbn [handle_size handle_from_memory].
  split_and!; [done|exact Hsum|done|by apply (layouts_length p stream ds)| | |].
  - intros i d lay Hd Hlay. destruct (layout_lookup p stream ds (COUNTER m) l Hall _ _ Hlay) as (d' & r & _ & _ & _ & _ & _ & Hm).
    destruct (layout_range p stream ds (COUNTER m) l Ha Hall _ _ _ Hlay Hd) as (start & end_ & Hr & -> & H0 & _ & Ht & Hlaid).
    split_and!; [by rewrite Hm| |].
    + eexists _, end_. split; [done|]. split_and!; [by apply start_divides|lia|lia|done|]. intros c Hin.
      destruct (element_inside p stream ds (COUNTER m) l Ha Hall Hel _ _ _ _ Hlay Hd Hin)
        as (first & last_ & He & Hlo & _ & end' & Hr' & Hle). rewrite Hr in Hr'. injection Hr' as <-. by exists first, last_.
    + intros Hne H1. eapply laid_accepted; [exact Hlaid|done|done| |].
      * by apply (Forall_lookup_1 _ _ _ _ Hel Hd).
      * lia.
  - intros i j lay lay' rg rg'. by apply (ranges_apart p stream ds (COUNTER m) l Ha Hall).
  - intros i j d d' lay lay' c c' f1 l1 f2 l2 byte. by apply (elements_apart p stream ds (COUNTER m) l Ha Hall Hel).
Qed.
Lemma layouts_carved_witness :
  wp (apply_policy (PitchedMemoryLayoutPolicy 64) 7 [layout_optimized [2; 3; 5] 4; layout_contiguous [3] 2]) (mk_Memory 0 ∅)
    (λ '(base, layouts) _, length layouts = 2%nat ∧ handle_size base <= 2 ^ 63).
Proof.
  eapply wp_mono; [apply layouts_carved|].
  - cbn; lia.
  - repeat constructor; cbn; lia.
  - vm_compute. discriminate.
  - cbn; lia.
  - intros [base layouts] m' (_ & Hs & _ & Hl & _). split; [done|]. etransitivity; [exact Hs|]. vm_compute. discriminate.
Defined.

(** ** What a copy moves *)
(** The strides that follow from those of the last two dimensions. *)
Lemma rows_of_follows dims w strides p :
  length strides = S (length dims) → last strides = Some 1 →
  (∀ j, (j < length dims - 1)%nat → follows (dims ++ [w]) strides j) →
  (dims ≠ [] → strides !! (length dims - 1)%nat = Some p) → strides = pitched_strides dims p.
Proof.
  revert strides. induction dims as [|d dims IH]; intros [|s strides] Hlen Hl Hfol Hp; try done.
  { destruct strides; [|done]. cbn in Hl. by injection Hl as ->. }
  cbn in Hlen. destruct dims as [|d' dims].
  - destruct strides as [|s' [|]]; try done. cbn in Hl. injection Hl as ->. specialize (Hp ltac:(done)). cbn in Hp.
    injection Hp as ->. unfold pitched_strides. cbn. f_equal. lia.
  - assert (strides = pitched_strides (d' :: dims) p) as ->.
    { apply IH; [lia|by destruct strides| |].
      - intros j Hj. apply (proj1 (follows_cons d _ s _ _)), (Hfol (S j)). cbn in *; lia.
      - intros _. specialize (Hp ltac:(done)). cbn in Hp |- *. by rewrite Nat.sub_0_r in *. }
    destruct (Hfol 0%nat) as (x & y & z & [= <-] & [= <-] & Hz & -> & _); [cbn; lia|].
    change (pitched_strides (d' :: dims) p !! 0%nat = Some z) in Hz. rewrite pitched_lookup in Hz by (cbn; lia).
    injection Hz as <-. unfold pitched_strides. cbn [strides_of fmap list_fmap app drop]. rewrite drop_0, prod_Z_cons. f_equal. ring.
Qed.
Lemma checked_rows shape strides :
  try_check_pitched_row_major_strides shape strides = Some (Ok tt) → (1 < length shape)%nat →
  ∃ dims w p, dims ≠ [] ∧ shape = dims ++ [w] ∧ strides = pitched_strides dims p ∧ w <= p ∧
    strides !! (length shape - 2)%nat = Some p.
Proof.
  intros (Hlen & Hl & Hfol & Hp)%pitched_check_inv Hr.
  destruct shape as [|w dims _] using rev_ind; [cbn in Hr; lia|]. rewrite length_app, Nat.add_1_r in *.
  destruct (lookup_lt_is_Some_2 strides (S (length dims) - 2) ltac:(lia)) as [p Hlp].
  exists dims, w, p. assert (dims ≠ []) as Hne by (intros ->; cbn in Hr; lia). split; [done|]. split; [done|].
  split; [|split; [|done]].
  - apply (rows_of_follows _ w); [done|done| |].
    + intros j Hj. apply Hfol. lia.
    + intros _. by replace (length dims - 1)%nat with (S (length dims) - 2)%nat by lia.
  - by apply (Hp p w); [|rewrite last_snoc|lia].
Qed.

(** Of a layout the pitched check accepts and whose rows fit in the address
    space, [Pitch::of] answers no pitch only when the strides are those of the
    row-major order, so that one linear copy moves it; otherwise the copy of the
    pitch it answers moves exactly the elements, each to a place of its own in
    one row, and steps over padding only. *)
Theorem pitch_of_correct shape strides elem_size :
  try_check_pitched_row_major_strides shape strides = Some (Ok tt) → Forall (Z.le 1) shape → 1 <= elem_size →
  (∀ p, strides !! (length shape - 2)%nat = Some p → prod_Z (drop 1 (reverse shape)) * p * elem_size <= u64_max) →
  ∃ o, pitch_of shape strides elem_size = Some o ∧
  match o with
  | None => strides = strides_of shape
  | Some pt =>
      width_bytes pt < stride_bytes pt ∧
      (∀ c, in_bounds c shape → ∃ row col, 0 <= row < pitch_height pt ∧ 0 <= col ∧
         (col + 1) * elem_size <= width_bytes pt ∧
         offset_of c strides * elem_size = row * stride_bytes pt + col * elem_size) ∧
      (∀ row col, 0 <= row < pitch_height pt → 0 <= col → (col + 1) * elem_size <= width_bytes pt →
         ∃ c, in_bounds c shape ∧ offset_of c strides * elem_size = row * stride_bytes pt + col * elem_size)
  end.
Proof.
  intros Hok H1 He Hfit. unfold pitch_of. case_decide as Hr.
  { exists None. split; [done|]. apply pitched_check_inv in Hok as (Hlen & Hl & _).
    destruct shape as [|d [|]]; cbn in Hr; [|destruct strides as [|s [|]]; try done; cbn in Hl; by injection Hl as ->|lia].
    by destruct strides. }
  destruct (checked_rows _ _ Hok) as (dims & w & p & Hne & -> & -> & Hwp & Hp); [lia|]. clear Hok.
  specialize (Hfit p Hp). rewrite reverse_snoc in *. cbn [drop] in *. rewrite drop_0, prod_reverse in Hfit. rewrite drop_0.
  apply Forall_app in H1 as [H1 Hw]. rewrite Forall_singleton in Hw. pose proof (prod_Z_pos dims H1) as Hd.
  rewrite Hp, last_snoc. cbn [mbind option_bind]. change (default 1 (Some w)) with w. case_decide as Heq.
  { exists None. split; [done|]. subst p. by rewrite strides_of_rows. }
  assert (p * elem_size <= u64_max) by nia. assert (1 <= p * elem_size) by nia.
  assert (prod_Z dims <= u64_max) by (rewrite <- Z.mul_assoc in Hfit; nia).
  rewrite mul_u64_Some by nia. cbn [mbind option_bind].
  assert (product_from 1 (reverse dims) = Some (prod_Z dims)) as ->.
  { rewrite product_from_Some, prod_reverse, Z.mul_1_l; [done|lia|by apply Forall_reverse|rewrite prod_reverse; lia]. }
  cbn [mbind option_bind]. rewrite mul_u64_Some by nia. cbn [mbind option_bind].
  eexists. split; [done|]. cbn [width_bytes pitch_height stride_bytes]. split_and!; [nia| |].
  - intros c Hc. apply in_rows in Hc as (r & x & -> & Hin & Hx). exists (offset_of r (strides_of dims)), x.
    rewrite offset_pitched by (by eapply Forall2_length). split; [by apply strides_of_bound|]. split; [lia|]. split; [nia|ring].
  - intros row col Hrow Hcol Hx. destruct (strides_of_onto dims row Hrow) as (r & Hin & <-).
    { eapply Forall_impl; [exact H1|cbn; lia]. }
    exists (r ++ [col]). rewrite offset_pitched by (by eapply Forall2_length). split; [|ring].
    apply Forall2_app; [done|]. constructor; [nia|constructor].
Qed.
Lemma pitch_of_correct_witness :
  ∃ o, pitch_of [2; 3; 8] [36; 12; 1] 4 = Some o ∧ ∃ pt, o = Some pt ∧ width_bytes pt < stride_bytes pt.
Proof.
  destruct (pitch_of_correct [2; 3; 8] [36; 12; 1] 4) as (o & Ho & Hpt).
  - reflexivity.
  - repeat constructor; lia.
  - lia.
  - intros p [= <-]. vm_compute. discriminate.
  - exists o. split; [exact Ho|]. vm_compute in Ho. injection Ho as <-. eexists. split; [reflexivity|]. apply Hpt.
Defined.
