(* ===== verification/Manager.v ===== *)
(** * The memory manager

    [cubecl-server/src/memory_management/memory_manage.rs]: reserves memory in
    the pools the allocation mode routes to, and finds allocations by the
    location their handles carry.  Its storage is the one of the [World]; the
    logger and the name are left out. *)

From S2P Require Export Dynamic.
From S2P Require Import Streams.
From stdpp Require Import list strings pretty.
#[local] Open Scope Z_scope.

Inductive PoolPosition := PersistentPosition | DedicatedPosition | DynamicPosition (index : Z).
Definition pool_position (pool : Z) : PoolPosition :=
  if decide (pool = PERSISTENT_POOL_POS) then PersistentPosition
  else if decide (pool = DEDICATED_POOL_POS) then DedicatedPosition
  else DynamicPosition pool.
Definition pool_missing (index : Z) : IoError :=
  NotFound ("Memory pool " +:+ pretty index +:+ " doesn't exist").

Inductive PageUpdate := Allow | AddOnly | Forbidden.
(** [MemoryAllocationMode] of [policy.rs], [PersistentMemory] of
    [config/memory.rs]. *)
Inductive MemoryAllocationMode := ModeAuto | ModePersistent | ModeDedicated.
#[global] Instance MemoryAllocationMode_eq_dec : EqDecision MemoryAllocationMode.
Proof. solve_decision. Defined.
Inductive PersistentMemory := Enabled | SizeMatch | Disabled | Enforced.
#[global] Instance PersistentMemory_eq_dec : EqDecision PersistentMemory.
Proof. solve_decision. Defined.
Inductive MemoryAllocationOption := FromConfig | Provided (mode : MemoryAllocationMode).

Record MemoryManagement := mk_MemoryManagement {
  mm_persistent : PersistentPool;
  mm_dedicated : DirectPool;
  mm_pools : DynamicMemory;
  alloc_reserve_count : Z;
  mm_mode : MemoryAllocationMode;
  base_mode : MemoryAllocationMode;
  windows : list MemoryAllocationMode;   (* the innermost last *)
  mm_config : PersistentMemory;
}.
Definition with_persistent (p : PersistentPool) (mm : MemoryManagement) : MemoryManagement :=
  mk_MemoryManagement p (mm_dedicated mm) (mm_pools mm) (alloc_reserve_count mm) (mm_mode mm) (base_mode mm)
    (windows mm) (mm_config mm).
Definition with_dedicated (p : DirectPool) (mm : MemoryManagement) : MemoryManagement :=
  mk_MemoryManagement (mm_persistent mm) p (mm_pools mm) (alloc_reserve_count mm) (mm_mode mm) (base_mode mm)
    (windows mm) (mm_config mm).
Definition with_dynamic (d : DynamicMemory) (mm : MemoryManagement) : MemoryManagement :=
  mk_MemoryManagement (mm_persistent mm) (mm_dedicated mm) d (alloc_reserve_count mm) (mm_mode mm) (base_mode mm)
    (windows mm) (mm_config mm).
Definition with_reserve_count (n : Z) (mm : MemoryManagement) : MemoryManagement :=
  mk_MemoryManagement (mm_persistent mm) (mm_dedicated mm) (mm_pools mm) n (mm_mode mm) (base_mode mm)
    (windows mm) (mm_config mm).
Definition with_windows (l : list MemoryAllocationMode) (mode : MemoryAllocationMode) (mm : MemoryManagement) :
    MemoryManagement :=
  mk_MemoryManagement (mm_persistent mm) (mm_dedicated mm) (mm_pools mm) (alloc_reserve_count mm) mode
    (base_mode mm) l (mm_config mm).

Definition from_configuration (ln exp : f64 → f64) (properties : MemoryDeviceProperties)
    (layout : MemoryConfiguration) (config : PersistentMemory) (memory : MemoryAllocationOption) :
    option MemoryManagement :=
  pools ← dynamic_new ln exp properties layout;
  let mode := match memory with
              | Provided mode => mode
              | FromConfig => match config with
                              | Enabled | SizeMatch | Disabled => ModeAuto
                              | Enforced => ModePersistent
                              end
              end in
  Some (mk_MemoryManagement
    (persistent_new (device_max_page_size properties) (device_alignment properties) PERSISTENT_POOL_POS)
    (direct_new (device_alignment properties) DEDICATED_POOL_POS (Some 0)) pools 0 mode mode [] config).

(** What a window puts in force. *)
Definition in_force (mm : MemoryManagement) (mode : MemoryAllocationMode) : MemoryAllocationMode :=
  match mode with
  | ModePersistent =>
      match mm_config mm with
      | Enabled | SizeMatch => mode
      | Disabled | Enforced => base_mode mm
      end
  | _ => mode
  end.
(** [self.mode(mode)]; [Vec::pop] of an empty vector does nothing. *)
Definition set_mode (mm : MemoryManagement) (mode : MemoryAllocationMode) : MemoryManagement :=
  let l := match mode with
           | ModeAuto => removelast (windows mm)
           | ModePersistent | ModeDedicated => windows mm ++ [in_force mm mode]
           end in
  with_windows l (default (base_mode mm) (last l)) mm.

(** ** Finding an allocation *)

(** The pool [location] names, or the error that none is there. *)
Definition mm_pool (mm : MemoryManagement) (location : MemoryLocation) : result MemoryPool IoError :=
  match pool_position (Handle.pool location) with
  | PersistentPosition => Ok (Persistently (mm_persistent mm))
  | DedicatedPosition => Ok (Directly (mm_dedicated mm))
  | DynamicPosition index =>
      match dynamic_pool (mm_pools mm) index with
      | Some p => Ok p
      | None => Err (pool_missing index)
      end
  end.
Definition mm_set_pool (mm : MemoryManagement) (location : MemoryLocation) (p : MemoryPool) : MemoryManagement :=
  match pool_position (Handle.pool location), p with
  | PersistentPosition, Persistently p => with_persistent p mm
  | DedicatedPosition, Directly p => with_dedicated p mm
  | DynamicPosition index, _ => with_dynamic (dynamic_set_pool (mm_pools mm) index p) mm
  | _, _ => mm
  end.

(** The slice written where [find_mut] read it. *)
Definition pool_set_slice (p : MemoryPool) (location : MemoryLocation) (s : Slice) : MemoryPool :=
  match p with
  | Exclusively p =>
      let index := Z.to_nat (Handle.page location) in
      Exclusively (match excl_pages p !! index with
                   | Some pg => with_excl_pages (<[index := mk_ExclusivePage s (alloc_size pg) (free_count pg)]>
                                                   (excl_pages p)) p
                   | None => p
                   end)
  | Sliced p => Sliced (sliced_set_slice p location s)
  | Persistently p => Persistently (with_kept (<[Z.to_nat (Handle.slice location) := s]> (kept_slices p)) (sizes p) p)
  | Directly p =>
      Directly (with_entries (<[Z.to_nat (Handle.slice location) := Some s]> (direct_slices p)) (vacant p) p)
  end.

(** [PageGuard]: a count on the page, or a binding of the allocation. *)
Inductive PageGuard := GuardsPage | GuardsAllocation (binding : ManagedMemoryId).

Section manager.
Context {St : Type} `{ComputeStorage St}.

Definition pool_find (p : MemoryPool) (binding : ManagedMemoryId) : M (World St) (result Slice IoError) :=
  match p with
  | Exclusively p => exclusive_find p binding
  | Sliced p => sliced_find p binding
  | Persistently p => persistent_find p binding
  | Directly p => direct_find p binding
  end.
Definition pool_bind (p : MemoryPool) (reserved assigned : ManagedMemoryId) (cursor : Z) :
    M (World St) (result unit IoError * MemoryPool) :=
  match p with
  | Exclusively p => '(r, p) ← exclusive_bind p reserved assigned cursor; mret (r, Exclusively p)
  | Sliced p => '(r, p) ← sliced_bind p reserved assigned cursor; mret (r, Sliced p)
  | Persistently p => '(r, p) ← persistent_bind p reserved assigned cursor; mret (r, Persistently p)
  | Directly p => '(r, p) ← direct_bind p reserved assigned cursor; mret (r, Directly p)
  end.
Definition pool_guard (p : MemoryPool) (location : MemoryLocation) :
    M (World St) (option PageGuard * MemoryPool) :=
  match p with
  | Exclusively q => r ← exclusive_guard q location; mret (GuardsAllocation <$> r, p)
  | Sliced q => mret (match sliced_guard q location with
                      | Some q => (Some GuardsPage, Sliced q)
                      | None => (None, p)
                      end)
  | Persistently q => r ← persistent_guard q location; mret (GuardsAllocation <$> r, p)
  | Directly q => r ← direct_guard q location; mret (GuardsAllocation <$> r, p)
  end.

(** [allocated(descriptor)] *)
Definition allocated (id : ManagedMemoryId) : M (World St) (result MemoryLocation IoError) :=
  b ← on_memory (is_allocated id);
  if negb b then mret (Err (NotFound "Memory location was never initialized"))
  else Ok <$> on_memory (location id).
Definition owned_by (s : Slice) (binding : ManagedMemoryId) : result unit IoError :=
  if decide (handle s = binding) then Ok tt
  else Err (NotFound "Memory location points to a different allocation").

(** [find], and [find_mut] with the location it found the slice at. *)
Definition mm_find_mut (mm : MemoryManagement) (binding : ManagedMemoryId) :
    M (World St) (result (MemoryLocation * Slice) IoError) :=
  location ←? allocated binding;
  p ←? mret (mm_pool mm location);
  s ←? pool_find p binding;
  _ ←? mret (owned_by s binding);
  mret (Ok (location, s)).
Definition mm_find (mm : MemoryManagement) (binding : ManagedMemoryId) : M (World St) (result Slice IoError) :=
  result_map snd <$> mm_find_mut mm binding.
Definition mm_update (mm : MemoryManagement) (location : MemoryLocation) (s : Slice) : MemoryManagement :=
  match mm_pool mm location with
  | Ok p => mm_set_pool mm location (pool_set_slice p location s)
  | Err _ => mm
  end.

(** The binding is dropped when the call returns. *)
Definition get_cursor (mm : MemoryManagement) (binding : ManagedMemoryId) : M (World St) (result Z IoError) :=
  r ← mm_find mm binding;
  _ ← on_memory (binding_drop binding);
  mret (result_map cursor r).

Definition mm_materialize (mm : MemoryManagement) (binding : ManagedMemoryId) :
    M (World St) (result unit IoError * MemoryManagement) :=
  location ← on_memory (location binding);
  if init location =? 0 then mret (Ok tt, mm)
  else match pool_position (Handle.pool location) with
       | PersistentPosition =>
           '(r, p) ← persistent_materialize (mm_persistent mm) binding; mret (r, with_persistent p mm)
       | DedicatedPosition =>
           '(r, p) ← direct_materialize (mm_dedicated mm) binding; mret (r, with_dedicated p mm)
       | DynamicPosition _ =>
           '(r, d) ← dynamic_materialize (mm_pools mm) binding; mret (r, with_dynamic d mm)
       end.
Definition get_storage (mm : MemoryManagement) (binding : ManagedMemoryId) :
    M (World St) (result StorageHandle IoError * MemoryManagement) :=
  '(r, mm) ← mm_materialize mm binding;
  r ← (match r with
       | Err e => mret (Err e)
       | Ok _ => result_map slice_storage <$> mm_find mm binding
       end);
  _ ← on_memory (binding_drop binding);
  mret (r, mm).
Definition get_resource (mm : MemoryManagement) (binding : ManagedMemoryId) (start end_ : option Z) :
    M (World St) (result StorageHandle IoError * MemoryManagement) :=
  '(r, mm) ← get_storage mm binding;
  match r with
  | Err e => mret (Err e, mm)
  | Ok handle =>
      handle ← lift (match start with Some offset => offset_start handle offset | None => Some handle end);
      handle ← lift (match end_ with Some offset => offset_end handle offset | None => Some handle end);
      st ← gets storage;
      mret (storage_get st handle, mm)
  end.
Definition mm_bytes_allocated (_mm : MemoryManagement) : M (World St) Z := bytes_allocated <$> gets storage.
Definition mm_relocation_need (mm : MemoryManagement) : option RelocationNeed := dynamic_relocation_need (mm_pools mm).
Definition mm_has_outdated (mm : MemoryManagement) : bool := dynamic_has_outdated (mm_pools mm).
Definition mm_relocate {Q} `{CopyQueue Q St} (mm : MemoryManagement) (reason : RelocationReason) :
    M (World St * Q) MemoryManagement :=
  d ← dynamic_relocate (mm_pools mm) reason; mret (with_dynamic d mm).
Definition mm_guard (mm : MemoryManagement) (location : MemoryLocation) :
    M (World St) (option PageGuard * MemoryManagement) :=
  match mm_pool mm location with
  | Err _ => mret (None, mm)
  | Ok p => '(r, p) ← pool_guard p location; mret (r, mm_set_pool mm location p)
  end.

(** ** Cleaning up and reserving *)
Definition mm_cleanup (mm : MemoryManagement) (cleanup : Cleanup) : M (World St) MemoryManagement :=
  p ← persistent_cleanup (mm_persistent mm) cleanup;
  '(freed, q) ← reclaim (mm_dedicated mm);
  _ ← (if freed : bool then flush else mret tt);
  d ← dynamic_cleanup (mm_pools mm) (alloc_reserve_count mm) cleanup;
  _ ← (if decide (cleanup = Explicit) then flush else mret tt);
  mret (with_dynamic d (with_dedicated q (with_persistent p mm))).

(** [dry_run] is what [PageMapping::current] reads. *)
Definition reserve_adding (mm : MemoryManagement) (size : Z) (dry_run : bool) :
    M (World St) (result ManagedMemoryId IoError * MemoryManagement) :=
  n ← lift (add_u64 (alloc_reserve_count mm) 1);
  let mm := with_reserve_count n mm in
  let mapping := mapping_current dry_run in
  if decide (mm_mode mm = ModeDedicated) then
    '(r, p) ← direct_alloc (mm_dedicated mm) size mapping; mret (r, with_dedicated p mm)
  else
    let persistent_mode := bool_decide (mm_mode mm = ModePersistent) in
    let size_match := bool_decide (mm_config mm = SizeMatch) in
    '(held, mm) ← (if persistent_mode || size_match
                   then '(r, p) ← persistent_try_reserve (mm_persistent mm) size; mret (r, with_persistent p mm)
                   else mret (None, mm));
    match held with
    | Some handle => mret (Ok handle, mm)
    | None =>
        kept ← (if persistent_mode then mret true
                else if size_match then lift (has_size (mm_persistent mm) size) else mret false);
        if kept : bool then
          '(r, p) ← persistent_alloc (mm_persistent mm) size mapping; mret (r, with_persistent p mm)
        else
          '(r, d) ← dynamic_reserve (mm_pools mm) size mapping; mret (r, with_dynamic d mm)
    end.
Definition reserve_held (mm : MemoryManagement) (size : Z) :
    M (World St) (option ManagedMemoryId * MemoryManagement) :=
  match mm_mode mm with
  | ModeDedicated => '(r, p) ← direct_try_reserve (mm_dedicated mm) size; mret (r, with_dedicated p mm)
  | ModePersistent => '(r, p) ← persistent_try_reserve (mm_persistent mm) size; mret (r, with_persistent p mm)
  | ModeAuto =>
      '(r, mm) ← (if decide (mm_config mm = SizeMatch)
                  then '(r, p) ← persistent_try_reserve (mm_persistent mm) size; mret (r, with_persistent p mm)
                  else mret (None, mm));
      match r with
      | Some handle => mret (Some handle, mm)
      | None => '(r, d) ← dynamic_try_reserve (mm_pools mm) size; mret (r, with_dynamic d mm)
      end
  end.
Definition mm_reserve (mm : MemoryManagement) (size : Z) (update : PageUpdate) (dry_run : bool) :
    M (World St) (result ManagedMemoryId IoError * MemoryManagement) :=
  match update with
  | Allow => mm ← mm_cleanup mm Periodic; reserve_adding mm size dry_run
  | AddOnly => reserve_adding mm size dry_run
  | Forbidden =>
      '(r, mm) ← reserve_held mm size;
      mret (match r with Some handle => Ok handle | None => Err (PageUpdateForbidden size) end, mm)
  end.

Definition memory_report (mm : MemoryManagement) : M (World St) MemoryPoolsReport :=
  dynamic ← dynamic_report (mm_pools mm);
  persistent ← persistent_report (mm_persistent mm);
  dedicated ← direct_report (mm_dedicated mm);
  mret (mk_MemoryPoolsReport dynamic persistent dedicated).

(** An error drops both handles. *)
Definition mm_bind (mm : MemoryManagement) (reserved assigned : ManagedMemoryId) (cursor : Z) :
    M (World St) (result unit IoError * MemoryManagement) :=
  let refuse e := _ ← on_memory (handle_drop reserved); _ ← on_memory (handle_drop assigned); mret (Err e, mm) in
  r ← allocated reserved;
  match r with
  | Err e => refuse e
  | Ok location =>
      match mm_pool mm location with
      | Err e => refuse e
      | Ok p => '(r, p) ← pool_bind p reserved assigned cursor; mret (r, mm_set_pool mm location p)
      end
  end.

(** ** Failures *)
Definition mm_failure (mm : MemoryManagement) (binding : ManagedMemoryId) (range : Range) :
    M (World St) (option FailureId) :=
  r ← mm_find mm binding;
  mret (match r with Ok s => failure_in (tainted s) range | Err _ => None end).
Definition mm_claim (f : Taint → M ErrorGraph Taint) (mm : MemoryManagement) (binding : ManagedMemoryId) :
    M (World St) MemoryManagement :=
  r ← mm_find_mut mm binding;
  match r with
  | Err _ => mret mm
  | Ok (location, s) => t ← on_failures (f (tainted s)); mret (mm_update mm location (with_tainted t s))
  end.
Definition mm_taint (mm : MemoryManagement) (binding : ManagedMemoryId) (range : Range) (failure : FailureId) :
    M (World St) MemoryManagement :=
  mm_claim (λ t, taint t range failure) mm binding.
Definition mm_written (mm : MemoryManagement) (binding : ManagedMemoryId) (range : Range) :
    M (World St) MemoryManagement :=
  mm_claim (λ t, written t range) mm binding.
End manager.

(** ** Allocation windows *)
Definition run_modes (calls : list MemoryAllocationMode) (mm : MemoryManagement) : MemoryManagement :=
  foldl set_mode mm calls.
(** Every window that is opened is closed. *)
Inductive well_bracketed : list MemoryAllocationMode → Prop :=
| bracket_nil : well_bracketed []
| bracket_cons opens inner rest : opens ≠ ModeAuto → well_bracketed inner → well_bracketed rest →
    well_bracketed (opens :: inner ++ ModeAuto :: rest).
(** The mode in force is that of the innermost window. *)
Definition mode_ok (mm : MemoryManagement) : Prop := mm_mode mm = default (base_mode mm) (last (windows mm)).

Lemma run_modes_app l1 l2 mm : run_modes (l1 ++ l2) mm = run_modes l2 (run_modes l1 mm).
Proof. apply foldl_app. Qed.
Lemma set_mode_ok mm mode : mode_ok (set_mode mm mode).
Proof. done. Qed.
Lemma set_mode_open mm mode :
  mode ≠ ModeAuto → set_mode mm mode = with_windows (windows mm ++ [in_force mm mode]) (in_force mm mode) mm.
Proof. intros Hm. unfold set_mode. destruct mode; [done|by rewrite last_snoc|by rewrite last_snoc]. Qed.
Lemma set_mode_close mm mode : mode_ok mm → mode ≠ ModeAuto → set_mode (set_mode mm mode) ModeAuto = mm.
Proof.
  intros Hok Hm. rewrite (set_mode_open _ _ Hm). unfold set_mode. cbn. rewrite removelast_last.
  destruct mm. cbn in *. by rewrite <- Hok.
Qed.

(** Allocation windows nest.  Whatever windows a caller opens and closes
    again, the windows and the mode are then exactly what they were; so, while
    a window is open, every allocation between the windows opened and closed
    inside it is made in the mode that window puts in force: the one asked
    for, or, for a persistent window that the configuration overrides, the
    configured one. *)
Theorem windows_nest calls mm :
  well_bracketed calls → mode_ok mm →
  run_modes calls mm = mm ∧
  ∀ opens, opens ≠ ModeAuto → mm_mode (run_modes (opens :: calls) mm) =
    match opens, mm_config mm with
    | ModePersistent, (Disabled | Enforced) => base_mode mm
    | _, _ => opens
    end.
Proof.
  intros Hb Hok. assert (∀ mm, mode_ok mm → run_modes calls mm = mm) as Hrun.
  { clear Hok mm. induction Hb as [|opens inner rest Ho Hi IHi Hr IHr]; intros mm Hok; [done|].
    change (run_modes (inner ++ ModeAuto :: rest) (set_mode mm opens) = mm).
    rewrite run_modes_app, IHi by apply set_mode_ok.
    change (run_modes rest (set_mode (set_mode mm opens) ModeAuto) = mm). rewrite set_mode_close by done. by apply IHr. }
  split; [by apply Hrun|]. intros opens Ho. change (mm_mode (run_modes calls (set_mode mm opens)) = match opens, mm_config mm with
    | ModePersistent, (Disabled | Enforced) => base_mode mm | _, _ => opens end).
  rewrite Hrun by apply set_mode_ok. rewrite (set_mode_open _ _ Ho). cbn.
  unfold in_force. destruct opens; [done| |done]. by destruct (mm_config mm).
Qed.

(** ** The cell a location names *)
Definition pool_find_at (p : MemoryPool) (l : MemoryLocation) : result Slice IoError :=
  match p with
  | Exclusively p =>
      match excl_pages p !! Z.to_nat (Handle.page l) with
      | Some pg => Ok (page_slice pg)
      | None => Err (NotFound ("Memory page " +:+ pretty (Handle.page l) +:+ " doesn't exist"))
      end
  | Sliced p =>
      match pages p !! Z.to_nat (Handle.page l) with
      | None => Err (NotFound "Memory page doesn't exist")
      | Some (page, _) =>
          match slices page !! Z.to_nat (Handle.slice l) with
          | Some s => Ok s
          | None => Err (NotFound "Memory slice doesn't exist")
          end
      end
  | Persistently p =>
      match kept_slices p !! Z.to_nat (Handle.slice l) with
      | Some s => Ok s
      | None => Err (NotFound "Memory slice doesn't exist")
      end
  | Directly p =>
      match direct_slices p !! Z.to_nat (Handle.slice l) with
      | Some (Some s) => Ok s
      | _ => Err (NotFound "Memory slice doesn't exist")
      end
  end.
Definition mm_cell (mm : MemoryManagement) (l : MemoryLocation) : result Slice IoError :=
  match mm_pool mm l with Ok p => pool_find_at p l | Err e => Err e end.
(** What [find] answers, for the descriptor of the binding. *)
Definition found (mm : MemoryManagement) (binding : ManagedMemoryId) (d : Descriptor) : result Slice IoError :=
  if init (loc_of d) =? 0 then Err (NotFound "Memory location was never initialized")
  else match mm_cell mm (loc_of d) with
       | Ok s => if decide (handle s = binding) then Ok s
                 else Err (NotFound "Memory location points to a different allocation")
       | Err e => Err e
       end.

(** Writing a cell that holds a slice changes that cell and no other. *)
Lemma pool_set_slice_at p l s0 s l' :
  pool_find_at p l = Ok s0 →
  pool_find_at (pool_set_slice p l s) l' = pool_find_at p l' ∨
  pool_find_at p l' = Ok s0 ∧ pool_find_at (pool_set_slice p l s) l' = Ok s.
Proof.
  destruct p as [p|p|p|p]; cbn; intros Hl.
  - destruct (excl_pages p !! Z.to_nat (Handle.page l)) as [pg|] eqn:Hi; [|by left]. injection Hl as <-. cbn.
    destruct (decide (Z.to_nat (Handle.page l) = Z.to_nat (Handle.page l'))) as [He|Hne].
    + right. rewrite <- He, Hi. rewrite list_lookup_insert_eq by by eapply lookup_lt_Some. done.
    + left. by rewrite list_lookup_insert_ne.
  - unfold sliced_set_slice. destruct (pages p !! Z.to_nat (Handle.page l)) as [[page id]|] eqn:Hi; [|by left].
    destruct (slices page !! Z.to_nat (Handle.slice l)) as [t|] eqn:Hk; [|done]. injection Hl as ->. cbn.
    destruct (decide (Z.to_nat (Handle.page l) = Z.to_nat (Handle.page l'))) as [He|Hne].
    + rewrite <- He, Hi. rewrite list_lookup_insert_eq by by eapply lookup_lt_Some. cbn.
      destruct (decide (Z.to_nat (Handle.slice l) = Z.to_nat (Handle.slice l'))) as [Hs|Hs].
      * right. rewrite <- Hs, Hk. rewrite list_lookup_insert_eq by by eapply lookup_lt_Some. done.
      * left. by rewrite list_lookup_insert_ne.
    + left. by rewrite list_lookup_insert_ne.
  - destruct (kept_slices p !! Z.to_nat (Handle.slice l)) as [t|] eqn:Hi; [|done]. injection Hl as ->.
    destruct (decide (Z.to_nat (Handle.slice l) = Z.to_nat (Handle.slice l'))) as [He|Hne].
    + right. rewrite <- He, Hi. rewrite list_lookup_insert_eq by by eapply lookup_lt_Some. done.
    + left. by rewrite list_lookup_insert_ne.
  - destruct (direct_slices p !! Z.to_nat (Handle.slice l)) as [[t|]|] eqn:Hi; [|done|done]. injection Hl as ->.
    destruct (decide (Z.to_nat (Handle.slice l) = Z.to_nat (Handle.slice l'))) as [He|Hne].
    + right. rewrite <- He, Hi. rewrite list_lookup_insert_eq by by eapply lookup_lt_Some. done.
    + left. by rewrite list_lookup_insert_ne.
Qed.
Lemma pool_set_slice_here p l s0 s : pool_find_at p l = Ok s0 → pool_find_at (pool_set_slice p l s) l = Ok s.
Proof.
  destruct p as [p|p|p|p]; cbn; intros Hl.
  - destruct (excl_pages p !! Z.to_nat (Handle.page l)) as [pg|] eqn:Hi; [|done]. cbn.
    by rewrite list_lookup_insert_eq by by eapply lookup_lt_Some.
  - unfold sliced_set_slice. destruct (pages p !! Z.to_nat (Handle.page l)) as [[page id]|] eqn:Hi; [|done].
    destruct (slices page !! Z.to_nat (Handle.slice l)) as [t|] eqn:Hk; [|done]. cbn.
    rewrite list_lookup_insert_eq by by eapply lookup_lt_Some. cbn.
    by rewrite list_lookup_insert_eq by by eapply lookup_lt_Some.
  - destruct (kept_slices p !! Z.to_nat (Handle.slice l)) as [t|] eqn:Hi; [|done].
    by rewrite list_lookup_insert_eq by by eapply lookup_lt_Some.
  - destruct (direct_slices p !! Z.to_nat (Handle.slice l)) as [[t|]|] eqn:Hi; [|done|done].
    by rewrite list_lookup_insert_eq by by eapply lookup_lt_Some.
Qed.

Definition same_kind (p p' : MemoryPool) : Prop :=
  match p, p' with
  | Exclusively _, Exclusively _ | Sliced _, Sliced _ | Persistently _, Persistently _ | Directly _, Directly _ => True
  | _, _ => False
  end.
Lemma pool_set_slice_kind p l s : same_kind p (pool_set_slice p l s).
Proof. by destruct p. Qed.

(** After [f] became [f'], every key reads as before or as the new value where
    the old one was. *)
Definition replaced {A B} (f f' : A → B) (old new : B) : Prop := ∀ i, f' i = f i ∨ f i = old ∧ f' i = new.

Lemma arena_set_pool_at a i p p' :
  arena_pool a i = Some p →
  arena_pool (arena_set_pool a i p') i = Some p' ∧
  replaced (arena_pool a) (arena_pool (arena_set_pool a i p')) (Some p) (Some p').
Proof.
  unfold arena_set_pool, arena_pool. destruct (arena_slot a i) as [k|] eqn:Hk; [|done]. cbn.
  intros Hp. apply bind_Some in Hp as (o & Ho & ->).
  assert (k < length (arena_slots a))%nat as Hlt by by eapply lookup_lt_Some.
  assert (∀ j, arena_slot (with_arena_slots (<[k := Some p']> (arena_slots a)) a) j = arena_slot a j) as Hs by done.
  split.
  - rewrite Hs, Hk. cbn. by rewrite list_lookup_insert_eq.
  - intros j. rewrite Hs. destruct (arena_slot a j) as [k'|]; [|by left]. cbn.
    destruct (decide (k = k')) as [<-|Hne]; [|left; by rewrite list_lookup_insert_ne].
    right. by rewrite Ho, list_lookup_insert_eq.
Qed.
Lemma adaptive_set_pool_at m i p p' :
  adaptive_pool m i = Some p → same_kind p p' →
  adaptive_pool (adaptive_set_pool m i p') i = Some p' ∧
  replaced (adaptive_pool m) (adaptive_pool (adaptive_set_pool m i p')) (Some p) (Some p').
Proof.
  unfold adaptive_pool. intros Hp Hk. destruct (decide (i = TINY_POOL)) as [->|Ht].
  { injection Hp as <-. destruct p'; try done. cbn. split; [done|]. intros j. case_decide; [by right|by left]. }
  destruct (decide (i = SMALL_POOL)) as [->|Hs].
  { injection Hp as <-. destruct p' as [|p'| |]; try done. cbn. split; [done|]. intros j.
    case_decide; [by left|]. case_decide; [by right|by left]. }
  apply fmap_Some in Hp as (q & Hq & ->). destruct p' as [|p'| |]; try done. cbn.
  rewrite (decide_False _ _ Ht), (decide_False _ _ Hs). cbn.
  destruct (arena_set_pool_at _ _ _ p' Hq) as [Hhere Hrep]. rewrite Hhere. split; [done|]. intros j.
  case_decide; [by left|]. case_decide; [by left|].
  destruct (Hrep j) as [->|[-> ->]]; [by left|by right].
Qed.
Lemma dynamic_set_pool_at d i p p' :
  dynamic_pool d i = Some p → same_kind p p' →
  dynamic_pool (dynamic_set_pool d i p') i = Some p' ∧
  replaced (dynamic_pool d) (dynamic_pool (dynamic_set_pool d i p')) (Some p) (Some p').
Proof.
  destruct d as [pools|m]; cbn; [|apply adaptive_set_pool_at].
  intros (q & Hq & ->)%fmap_Some Hk. destruct p' as [p'| | |]; try done. cbn.
  assert (Z.to_nat i < length pools)%nat as Hlt by by eapply lookup_lt_Some.
  rewrite list_lookup_insert_eq by done. split; [done|]. intros j. cbn.
  destruct (decide (Z.to_nat i = Z.to_nat j)) as [<-|Hne]; [|left; by rewrite list_lookup_insert_ne].
  right. by rewrite Hq, list_lookup_insert_eq.
Qed.
Lemma mm_set_pool_at mm l p p' :
  mm_pool mm l = Ok p → same_kind p p' →
  mm_pool (mm_set_pool mm l p') l = Ok p' ∧
  replaced (mm_pool mm) (mm_pool (mm_set_pool mm l p')) (Ok p) (Ok p').
Proof.
  unfold mm_pool, mm_set_pool. intros Hp Hk. destruct (pool_position (Handle.pool l)) as [| |i] eqn:Hl.
  - injection Hp as <-. destruct p' as [| |p'|]; try done. split; [done|]. intros l'.
    destruct (pool_position (Handle.pool l')); [by right|by left|by left].
  - injection Hp as <-. destruct p' as [| | |p']; try done. split; [done|]. intros l'.
    destruct (pool_position (Handle.pool l')); [by left|by right|by left].
  - destruct (dynamic_pool (mm_pools mm) i) as [q|] eqn:Hq; [|done]. injection Hp as ->.
    destruct (dynamic_set_pool_at _ _ _ p' Hq Hk) as [Hhere Hrep].
    cbn. rewrite Hhere. split; [by destruct p'|]. intros l'.
    destruct (pool_position (Handle.pool l')) as [| |j] eqn:Hl'; [by destruct p'; left|by destruct p'; left|].
    cbn. destruct (Hrep j) as [Hj|[Hj Hj']].
    + left. destruct p'; cbn; by rewrite Hj.
    + right. split; [by rewrite Hj|]. destruct p'; cbn; by rewrite Hj'.
Qed.

(** Writing the cell of an allocation. *)
Lemma mm_update_at mm l s0 s :
  mm_cell mm l = Ok s0 →
  mm_cell (mm_update mm l s) l = Ok s ∧ replaced (mm_cell mm) (mm_cell (mm_update mm l s)) (Ok s0) (Ok s).
Proof.
  unfold mm_cell at 1, mm_update. destruct (mm_pool mm l) as [p|] eqn:Hp; [|done]. intros Hl.
  destruct (mm_set_pool_at mm l p _ Hp (pool_set_slice_kind p l s)) as [Hhere Hrep]. split.
  - unfold mm_cell. rewrite Hhere. by eapply pool_set_slice_here.
  - intros l'. unfold mm_cell. destruct (Hrep l') as [->|[-> ->]]; [by left|].
    destruct (pool_set_slice_at p l s0 s l' Hl) as [->|[-> ->]]; [by left|by right].
Qed.

(** ** Finding an allocation *)
Section find.
Context {St : Type} `{ComputeStorage St}.
Implicit Types (w : World St) (mm : MemoryManagement).

Lemma on_memory_location w b d :
  descriptors (memory w) !! b = Some d → on_memory (location b) w = Some (loc_of d, w).
Proof. intros Hd. unfold on_memory, location, descriptor, mbind, M_bind, get, lift. rewrite Hd. by destruct w. Qed.
Lemma pool_find_eq p b d w :
  descriptors (memory w) !! b = Some d → pool_find p b w = Some (pool_find_at p (loc_of d), w).
Proof.
  intros Hd. pose proof (on_memory_location w b d Hd) as Hl.
  destruct p as [p|p|p|p]; cbn [pool_find pool_find_at]; unfold exclusive_find, sliced_find, persistent_find, direct_find;
    unfold mbind at 1, M_bind at 1; rewrite Hl.
  - by destruct (excl_pages p !! Z.to_nat (Handle.page (loc_of d))).
  - destruct (pages p !! Z.to_nat (Handle.page (loc_of d))) as [[page id]|]; [|done].
    unfold page_find, mbind at 1, M_bind at 1. rewrite Hl.
    by destruct (slices page !! Z.to_nat (Handle.slice (loc_of d))).
  - by destruct (kept_slices p !! Z.to_nat (Handle.slice (loc_of d))).
  - by destruct (direct_slices p !! Z.to_nat (Handle.slice (loc_of d))) as [[]|].
Qed.
Lemma allocated_eq b d w :
  descriptors (memory w) !! b = Some d →
  allocated b w = Some (if init (loc_of d) =? 0 then Err (NotFound "Memory location was never initialized")
                        else Ok (loc_of d), w).
Proof.
  intros Hd. assert (on_memory (is_allocated b) w = Some (negb (init (loc_of d) =? 0), w)) as Ha.
  { unfold on_memory, is_allocated, location, descriptor, mbind, M_bind, get, lift. rewrite Hd. by destruct w. }
  unfold allocated, mbind, M_bind. rewrite Ha. destruct (init (loc_of d) =? 0); [done|]. cbn [negb].
  unfold fmap, M_fmap. by rewrite (on_memory_location w b d Hd).
Qed.
Lemma mm_find_mut_eq mm b d w :
  descriptors (memory w) !! b = Some d →
  mm_find_mut mm b w = Some (match found mm b d with Ok s => Ok (loc_of d, s) | Err e => Err e end, w).
Proof.
  intros Hd. unfold mm_find_mut, try_bind at 1, mbind at 1, M_bind at 1. rewrite (allocated_eq b d w Hd).
  unfold found, mm_cell. destruct (init (loc_of d) =? 0); [done|].
  unfold try_bind at 1, mbind at 1, M_bind at 1. cbn [mret M_ret].
  destruct (mm_pool mm (loc_of d)) as [p|e]; [|done].
  unfold try_bind at 1, mbind at 1, M_bind at 1. rewrite (pool_find_eq p b d w Hd).
  destruct (pool_find_at p (loc_of d)) as [s|e]; [|done].
  unfold owned_by. by destruct (decide (handle s = b)).
Qed.
Lemma mm_find_eq mm b d w : descriptors (memory w) !! b = Some d → mm_find mm b w = Some (found mm b d, w).
Proof.
  intros Hd. unfold mm_find, fmap, M_fmap. rewrite (mm_find_mut_eq mm b d w Hd). by destruct (found mm b d).
Qed.
Lemma found_Ok mm b d s :
  found mm b d = Ok s → handle s = b ∧ init (loc_of d) ≠ 0 ∧ mm_cell mm (loc_of d) = Ok s.
Proof.
  unfold found. destruct (Z.eqb_spec (init (loc_of d)) 0); [done|]. destruct (mm_cell mm (loc_of d)) as [t|]; [|done].
  case_decide; [|done]. intros [= ->]. done.
Qed.
(** The same slice, or none. *)
Definition agree (r r' : result Slice IoError) : Prop :=
  match r, r' with Ok t, Ok t' => t = t' | Err _, Err _ => True | _, _ => False end.
(** Writing the cell of one allocation changes what no other finds. *)
Lemma found_update mm b d s s' b' d' :
  found mm b d = Ok s → b' ≠ b → b' ≠ handle s' →
  agree (found (mm_update mm (loc_of d) s') b' d') (found mm b' d').
Proof.
  intros (Hh & Hi & Hc)%found_Ok Hne Hne'. destruct (mm_update_at _ _ _ s' Hc) as [_ Hrep]. unfold found.
  destruct (init (loc_of d') =? 0); [done|]. destruct (Hrep (loc_of d')) as [->|[-> ->]].
  - destruct (mm_cell mm (loc_of d')) as [t|]; [|done]. by case_decide.
  - rewrite !decide_False by congruence. done.
Qed.
End find.

(** ** The claims of a manager *)

(** The taint of every allocation the manager finds. *)
Definition claims_in (m : Memory) (mm : MemoryManagement) : gmap ManagedMemoryId Taint :=
  map_imap (λ id d, match found mm id d with Ok s => Some (tainted s) | Err _ => None end) (descriptors m).

Section claims.
Context {St : Type}.
Implicit Types (w : World St) (mm : MemoryManagement).

Lemma claims_in_lookup m mm id d :
  descriptors m !! id = Some d →
  claims_in m mm !! id = match found mm id d with Ok s => Some (tainted s) | Err _ => None end.
Proof. intros Hd. unfold claims_in. rewrite map_lookup_imap, Hd. done. Qed.
Lemma claims_in_update m mm id d s t :
  descriptors m !! id = Some d → found mm id d = Ok s →
  claims_in m (mm_update mm (loc_of d) (with_tainted t s)) = <[id := t]> (claims_in m mm).
Proof.
  intros Hd Hs. apply map_eq. intros id'. unfold claims_in at 1. rewrite map_lookup_imap.
  destruct (found_Ok _ _ _ _ Hs) as (Hh & Hi & Hc).
  destruct (decide (id' = id)) as [->|Hne].
  - rewrite lookup_insert_eq, Hd. cbn. destruct (mm_update_at _ _ _ (with_tainted t s) Hc) as [Hhere _].
    unfold found. rewrite (proj2 (Z.eqb_neq _ _) Hi), Hhere, decide_True by done. done.
  - rewrite lookup_insert_ne by done. unfold claims_in. rewrite map_lookup_imap.
    destruct (descriptors m !! id') as [d'|]; [|done]. cbn.
    pose proof (found_update mm id d s (with_tainted t s) id' d' Hs Hne) as He.
    cbn in He. rewrite Hh in He. specialize (He Hne).
    destruct (found (mm_update mm _ _) id' d'), (found mm id' d'); try done. by cbn in He; subst.
Qed.

Lemma run_bind {S A B} (m : M S A) (f : A → M S B) s a s' : m s = Some (a, s') → (m ≫= f) s = f a s'.
Proof. intros Hm. unfold mbind, M_bind. by rewrite Hm. Qed.
Lemma mm_failure_spec mm id d r w :
  descriptors (memory w) !! id = Some d →
  mm_failure mm id r w = Some (t ← claims_in (memory w) mm !! id; failure_in t r, w).
Proof.
  intros Hd. unfold mm_failure. rewrite (run_bind _ _ _ _ _ (mm_find_eq mm id d w Hd)), (claims_in_lookup _ _ _ _ Hd).
  by destruct (found mm id d).
Qed.
Lemma mm_claim_spec f mm id d w :
  descriptors (memory w) !! id = Some d →
  match claims_in (memory w) mm !! id with
  | None => mm_claim f mm id w = Some (mm, w)
  | Some t => ∀ t' g', f t (failures w) = Some (t', g') →
      ∃ mm', mm_claim f mm id w = Some (mm', with_failures g' w) ∧
        claims_in (memory w) mm' = <[id := t']> (claims_in (memory w) mm)
  end.
Proof.
  intros Hd. rewrite (claims_in_lookup _ _ _ _ Hd). unfold mm_claim.
  rewrite (run_bind _ _ _ _ _ (mm_find_mut_eq mm id d w Hd)). destruct (found mm id d) as [s|e] eqn:Hs; [|done].
  intros t' g' Hf. rewrite (run_bind _ _ w t' (with_failures g' w)) by (unfold on_failures; by rewrite Hf).
  eexists. split; [done|]. by apply claims_in_update.
Qed.

(** What a manager knows of failures.  The failure of a range of a binding
    is the one that claims it in the taint of the allocation the binding finds,
    if there is one; tainting a range, or writing it, changes the taint of that
    allocation as the taint of a slice does, and no other allocation's,
    whichever pool holds it; a binding that finds no allocation is left
    alone. *)
Theorem manager_claims mm id d r (o : option FailureId) w :
  descriptors (memory w) !! id = Some d →
  mm_failure mm id r w = Some (t ← claims_in (memory w) mm !! id; failure_in t r, w) ∧
  let op := match o with Some f => mm_taint mm id r f | None => mm_written mm id r end in
  match claims_in (memory w) mm !! id with
  | None => op w = Some (mm, w)
  | Some t => ∀ t' g', run_claim o t r (failures w) = Some (t', g') →
      ∃ mm', op w = Some (mm', with_failures g' w) ∧
        claims_in (memory w) mm' = <[id := t']> (claims_in (memory w) mm)
  end.
Proof.
  intros Hd. split; [by eapply mm_failure_spec|].
  pose proof (mm_claim_spec (λ t, run_claim o t r) mm id d w Hd) as Hspec.
  destruct o; exact Hspec.
Qed.

(** C10: a binding never finds another allocation.  Whatever the manager and
    the store hold, stale locations included, [find] answers without touching
    anything, and what it answers is the slice at the location of the binding,
    in the pool the location names, whose handle is the binding. *)
Theorem find_is_own mm id d w :
  descriptors (memory w) !! id = Some d →
  ∃ r, mm_find mm id w = Some (r, w) ∧
    match r with
    | Ok s => handle s = id ∧ init (loc_of d) ≠ 0 ∧
        ∃ p, mm_pool mm (loc_of d) = Ok p ∧ pool_find_at p (loc_of d) = Ok s
    | Err _ => init (loc_of d) = 0 ∨
        ∀ p s, mm_pool mm (loc_of d) = Ok p → pool_find_at p (loc_of d) = Ok s → handle s ≠ id
    end.
Proof.
  intros Hd. exists (found mm id d). split; [by apply mm_find_eq|].
  destruct (found mm id d) as [s|e] eqn:Hs.
  - apply found_Ok in Hs as (Hh & Hi & Hc). split; [done|]. split; [done|]. unfold mm_cell in Hc.
    destruct (mm_pool mm (loc_of d)) as [p|]; [by exists p|done].
  - unfold found in Hs. destruct (Z.eqb_spec (init (loc_of d)) 0); [by left|]. right. intros p s Hp Hc Hh.
    unfold mm_cell in Hs. rewrite Hp, Hc in Hs. by rewrite decide_True in Hs.
Qed.
End claims.

(** ** A manager is the memory of a stream

    For a fixed store of descriptors, as [impl StreamMemory for Stream] of the
    backends ([cubecl-cuda/src/compute/stream.rs]) forwards to the manager.  A
    binding is an owner of its descriptor, so that one the store does not know
    does not exist; it finds nothing here. *)
Section stream_memory.
Context (m : Memory).

Definition in_store (g : ErrorGraph) : World unit := mk_World m g 0 tt.
Definition with_known {A} (b : BufferBinding) (default_ : A) (op : M (World unit) A) : M ErrorGraph A := λ g,
  match descriptors m !! binding_memory b with
  | None => Some (default_, g)
  | Some _ => match op (in_store g) with Some (a, w) => Some (a, failures w) | None => None end
  end.
Instance manager_memory : StreamMemory MemoryManagement := {|
  memory_failure mm b :=
    r ← binding_range b; fst <$> with_known b None (mm_failure mm (binding_memory b) r) graph_default;
  memory_taint mm b f :=
    r ← lift (binding_range b); with_known b mm (mm_taint mm (binding_memory b) r f);
  memory_written mm b :=
    r ← lift (binding_range b); with_known b mm (mm_written mm (binding_memory b) r);
|}.
Program Instance manager_laws : StreamMemoryLaws MemoryManagement := {| claims_of mm := claims_in m mm |}.
Next Obligation.
  intros mm b r Hr. cbn. rewrite Hr. cbn. unfold with_known.
  destruct (descriptors m !! binding_memory b) as [d|] eqn:Hd.
  - by rewrite (mm_failure_spec mm _ d r (in_store graph_default) Hd).
  - unfold claims_in. by rewrite map_lookup_imap, Hd.
Qed.
Next Obligation.
  intros mm b r o g Hr op.
  assert (op g = with_known b mm (mm_claim (λ t, run_claim o t r) mm (binding_memory b)) g) as ->.
  { subst op. destruct o; cbn; unfold mbind, M_bind, lift; by rewrite Hr. }
  unfold with_known. destruct (descriptors m !! binding_memory b) as [d|] eqn:Hd.
  - pose proof (mm_claim_spec (λ t, run_claim o t r) mm _ d (in_store g) Hd) as Hspec. cbn in Hspec.
    destruct (claims_in m mm !! binding_memory b) as [t|].
    + intros t' g' Hrun. destruct (Hspec t' g' Hrun) as (mm' & -> & Hc). by exists mm'.
    + by rewrite Hspec.
  - unfold claims_in. by rewrite map_lookup_imap, Hd.
Qed.
End stream_memory.

(** ** Binding *)

(** The store after [assigned] took over from [reserved], which lost the owner
    the slice was and the one the caller was. *)
Definition taken_over (reserved assigned : ManagedMemoryId) (dr da : Descriptor) (m : Memory) : Memory :=
  with_descriptors (λ ds,
    <[reserved := mk_Descriptor (location_bits dr) (handles dr - 2) (bindings dr)]>
      (<[assigned := mk_Descriptor (to_bits (loc_of dr)) (handles da) (bindings da)]> ds)) m.

Section bind.
Context {St : Type}.
Implicit Types (w : World St) (mm : MemoryManagement).
Context (reserved assigned : ManagedMemoryId) (Hne : reserved ≠ assigned).
Context (dr da : Descriptor) (ts : list Taint).

Record can_bind w (s : Slice) : Prop := mk_can_bind {
  cb_reserved : descriptors (memory w) !! reserved = Some dr;
  cb_assigned : descriptors (memory w) !! assigned = Some da;
  cb_handle : handle s = reserved;
  cb_owners : 2 <= handles dr;
  cb_taints : covered (failures w) (tainted s :: ts);
}.

Lemma wp_rebind {B} s w (k : Slice → M (World St) B) (Q : B → World St → Prop) :
  can_bind w s →
  (∀ g, covered g ts → wp (k (with_handle assigned (with_tainted taint_default s)))
     (with_failures g (with_memory (taken_over reserved assigned dr da (memory w)) w)) Q) →
  wp (_ ← on_memory (update_location assigned (loc_of dr)); s ← slice_bind s assigned;
      _ ← on_memory (handle_drop reserved); k s) w Q.
Proof.
  intros [Hr Ha Hh Ho Ht] HQ. apply wp_bind, wp_on_memory. eapply wp_update_location; [done|].
  apply wp_bind. unfold slice_bind. apply wp_bind, wp_on_failures. cbn [failures with_memory].
  eapply wp_clear_released; [exact Ht|]. intros g Hrel Hcov. apply wp_bind, wp_on_memory. rewrite Hh. cbn [memory with_memory with_failures].
  eapply wp_handle_drop; [cbn; by rewrite lookup_insert_ne|lia|]. apply wp_ret.
  apply wp_bind, wp_on_memory. cbn [memory with_memory with_failures].
  eapply wp_handle_drop; [cbn; by rewrite lookup_insert_eq|cbn; lia|].
  specialize (HQ g Hcov). unfold with_memory, with_failures in *. cbn in *.
  unfold with_descriptors in *. cbn in *. rewrite insert_insert_eq.
  replace (handles dr - 1 - 1) with (handles dr - 2) by lia. exact HQ.
Qed.

Lemma wp_pool_bind p s cursor w (Q : result unit IoError * MemoryPool → World St → Prop) :
  can_bind w s → pool_find_at p (loc_of dr) = Ok s →
  (∀ g s', covered g ts → handle s' = assigned → tainted s' = taint_default → slice_storage s' = slice_storage s →
     Q (Ok tt, pool_set_slice p (loc_of dr) s')
       (with_failures g (with_memory (taken_over reserved assigned dr da (memory w)) w))) →
  wp (pool_bind p reserved assigned cursor) w Q.
Proof.
  intros Hb Hs HQ. assert (∀ B (k : MemoryLocation → M (World St) B) Q', wp (k (loc_of dr)) w Q' →
    wp (l ← on_memory (location reserved); k l) w Q') as Hloc.
  { intros B k Q' HQ'. unfold wp. rewrite (run_bind _ _ w (loc_of dr) w); [exact HQ'|].
    apply on_memory_location, Hb. }
  assert (can_bind w (with_cursor cursor s)) as Hbc by (destruct Hb; by split).
  destruct p as [p|p|p|p]; cbn [pool_find_at pool_bind] in *; apply wp_bind.
  - destruct (excl_pages p !! Z.to_nat (Handle.page (loc_of dr))) as [pg|] eqn:Hi; [|done]. injection Hs as <-.
    apply Hloc, wp_bind. eapply wp_lift; [exact Hi|]. apply (wp_rebind _ w _ _ Hb). intros g Hg. do 2 apply wp_ret.
    match goal with |- context [Exclusively ?q] =>
      replace (Exclusively q) with (pool_set_slice (Exclusively p) (loc_of dr)
        (with_cursor cursor (with_handle assigned (with_tainted taint_default (page_slice pg))))) end.
    + by apply HQ.
    + cbn [pool_set_slice]. rewrite Hi. done.
  - destruct (pages p !! Z.to_nat (Handle.page (loc_of dr))) as [[page id]|] eqn:Hi; [|done].
    destruct (slices page !! Z.to_nat (Handle.slice (loc_of dr))) as [t|] eqn:Hk; [|done]. injection Hs as ->.
    apply Hloc, wp_bind. eapply wp_lift; [exact Hi|]. apply wp_bind. unfold page_bind. apply Hloc, wp_bind.
    eapply wp_lift; [exact Hk|]. apply (wp_rebind _ w _ _ Hbc). intros g Hg. do 3 apply wp_ret.
    match goal with |- context [Sliced ?q] =>
      replace (Sliced q) with (pool_set_slice (Sliced p) (loc_of dr)
        (with_handle assigned (with_tainted taint_default (with_cursor cursor s)))) end.
    + by apply HQ.
    + cbn [pool_set_slice]. unfold sliced_set_slice. rewrite Hi. done.
  - destruct (kept_slices p !! Z.to_nat (Handle.slice (loc_of dr))) as [t|] eqn:Hi; [|done]. injection Hs as ->.
    apply Hloc, wp_bind. eapply wp_lift; [exact Hi|]. apply (wp_rebind _ w _ _ Hbc). intros g Hg. do 2 apply wp_ret.
    by apply (HQ g (with_handle assigned (with_tainted taint_default (with_cursor cursor s)))).
  - destruct (direct_slices p !! Z.to_nat (Handle.slice (loc_of dr))) as [[t|]|] eqn:Hi; [|done|done]. injection Hs as ->.
    apply Hloc. rewrite Hi. apply (wp_rebind _ w _ _ Hb). intros g Hg. do 2 apply wp_ret.
    by apply (HQ g (with_handle assigned (with_tainted taint_default s))).
Qed.
End bind.

(** Binding hands the allocation over.  The handle assigned finds from then
    on the memory that was reserved, free of the claims of the allocation
    before, which are released; the handle reserved, stale from then on, finds
    nothing; and every other handle finds what it found. *)
Theorem bind_hands_over {St} (w : World St) mm reserved assigned dr da s ts cursor :
  reserved ≠ assigned → can_bind reserved assigned dr da ts w s → found mm reserved dr = Ok s →
  wp (mm_bind mm reserved assigned cursor) w (λ '(r, mm') w',
    r = Ok tt ∧ covered (failures w') ts ∧ same_storage w w' ∧
    (∃ s', mm_find mm' assigned w' = Some (Ok s', w') ∧
       slice_storage s' = slice_storage s ∧ tainted s' = taint_default) ∧
    (∃ e, mm_find mm' reserved w' = Some (Err e, w')) ∧
    ∀ id d, id ≠ reserved → id ≠ assigned → descriptors (memory w) !! id = Some d →
      ∃ r r', mm_find mm id w = Some (r, w) ∧ mm_find mm' id w' = Some (r', w') ∧ agree r' r).
Proof.
  intros Hne Hb Hs. pose proof Hb as [Hr Ha Hh Ho Ht]. destruct (found_Ok _ _ _ _ Hs) as (_ & Hi & Hc).
  unfold mm_bind. apply wp_bind. unfold wp at 1. rewrite (allocated_eq reserved dr w Hr), (proj2 (Z.eqb_neq _ _) Hi).
  unfold mm_cell in Hc. destruct (mm_pool mm (loc_of dr)) as [p|] eqn:Hp; [|done].
  apply wp_bind. eapply (wp_pool_bind reserved assigned Hne dr da ts p s cursor w); [exact Hb|exact Hc|].
  intros g s' Hg Hh' Ht' Hst. apply wp_ret.
  assert (mm_set_pool mm (loc_of dr) (pool_set_slice p (loc_of dr) s') = mm_update mm (loc_of dr) s') as ->
    by (unfold mm_update; by rewrite Hp).
  assert (mm_cell mm (loc_of dr) = Ok s) as Hcell by (unfold mm_cell; by rewrite Hp).
  destruct (mm_update_at _ _ _ s' Hcell) as [Hhere _]. set (m' := taken_over _ _ _ _ _).
  assert (descriptors m' !! assigned = Some (mk_Descriptor (to_bits (loc_of dr)) (handles da) (bindings da))) as Ha'.
  { cbn. by rewrite lookup_insert_ne, lookup_insert_eq. }
  assert (descriptors m' !! reserved = Some (mk_Descriptor (location_bits dr) (handles dr - 2) (bindings dr))) as Hr'.
  { cbn. by rewrite lookup_insert_eq. }
  assert (loc_of (mk_Descriptor (to_bits (loc_of dr)) (handles da) (bindings da)) = loc_of dr) as Hla.
  { unfold loc_of at 1. cbn [location_bits]. apply from_bits_to_bits, from_bits_ok. }
  split; [done|]. split; [done|]. split; [done|]. split; [|split].
  - exists s'. split; [|done]. erewrite mm_find_eq by exact Ha'. unfold found.
    rewrite Hla, (proj2 (Z.eqb_neq _ _) Hi), Hhere, decide_True by done. done.
  - eexists. erewrite mm_find_eq by exact Hr'. unfold found.
    change (loc_of (mk_Descriptor (location_bits dr) _ _)) with (loc_of dr).
    rewrite (proj2 (Z.eqb_neq _ _) Hi), Hhere, decide_False by congruence. done.
  - intros id d Hidr Hida Hd. exists (found mm id d), (found (mm_update mm (loc_of dr) s') id d).
    split; [by apply mm_find_eq|]. split.
    + apply mm_find_eq. cbn. by rewrite !lookup_insert_ne.
    + apply (found_update mm reserved dr s); [done|done|congruence].
Qed.


(** ** Witnesses *)
Section witnesses.
Let answer (st : Bytes.BytesStorage) (n : Z) : bool := true.
#[local] Instance manager_bytes : ComputeStorage Bytes.BytesStorage := Bytes.storage_bytes_storage answer.

(** The manager of [persistent_example], inside a persistent window. *)
Definition manager_example : MemoryManagement :=
  mk_MemoryManagement persistent_example (direct_new 4 DEDICATED_POOL_POS (Some 0)) (Exclusive [exclusive_example])
    7 ModePersistent ModeAuto [ModePersistent] Enabled.
Definition manager_world : World Bytes.BytesStorage :=
  let d k h b := mk_Descriptor (to_bits (location_new 255 0 k)) h b in
  mk_World (mk_Memory 3 {[ 0 := d 0 1 0; 1 := d 1 2 1; 2 := mk_Descriptor 0 1 1 ]}) graph_default 8
    (Bytes.mk_BytesStorage {[ 7 := 8; 5 := 8 ]} 16).

Lemma windows_nest_witness :
  run_modes [ModePersistent; ModeDedicated; ModeAuto; ModeAuto] manager_example = manager_example.
Proof.
  apply (windows_nest [ModePersistent; ModeDedicated; ModeAuto; ModeAuto] manager_example).
  - apply (bracket_cons ModePersistent [ModeDedicated; ModeAuto] []); [done| |constructor].
    apply (bracket_cons ModeDedicated [] []); [done|constructor|constructor].
  - reflexivity.
Defined.

Lemma manager_claims_witness :
  let w := with_failures witness_graph manager_world in
  ∃ t g, run_claim (Some 2) taint_default (2, 4) witness_graph = Some (t, g) ∧
    claims_in (memory w) manager_example !! 1 = Some taint_default ∧
    ∃ mm', mm_taint manager_example 1 (2, 4) 2 w = Some (mm', with_failures g w) ∧
      claims_in (memory w) mm' = <[1 := t]> (claims_in (memory w) manager_example).
Proof.
  intros w. destruct (manager_claims manager_example 1 (mk_Descriptor (to_bits (location_new 255 0 1)) 2 1) (2, 4)
    (Some 2) w) as [_ Hc]; [reflexivity|].
  destruct (claims_in (memory w) manager_example !! 1) as [t|] eqn:Ht; [|vm_compute in Ht; discriminate].
  assert (t = taint_default) as -> by (vm_compute in Ht; by injection Ht as <-).
  destruct (run_claim (Some 2) taint_default (2, 4) witness_graph) as [[t g]|] eqn:Hr; [|vm_compute in Hr; discriminate].
  exists t, g. split; [reflexivity|]. split; [reflexivity|]. apply Hc. exact Hr.
Defined.

Lemma find_is_own_witness :
  ∃ s, mm_find manager_example 1 manager_world = Some (Ok s, manager_world) ∧ handle s = 1.
Proof.
  destruct (find_is_own manager_example 1 (mk_Descriptor (to_bits (location_new 255 0 1)) 2 1) manager_world)
    as ([s|e] & Hf & Hr); [reflexivity| |vm_compute in Hf; discriminate].
  exists s. split; [exact Hf|apply Hr].
Defined.

Lemma bind_hands_over_witness :
  wp (mm_bind manager_example 1 2 3) manager_world (λ '(r, mm') w',
    ∃ s, mm_find mm' 2 w' = Some (Ok s, w') ∧ slice_size s = 8).
Proof.
  eapply wp_mono; [apply (bind_hands_over manager_world manager_example 1 2
    (mk_Descriptor (to_bits (location_new 255 0 1)) 2 1) (mk_Descriptor 0 1 1)
    (mk_Slice (mk_StorageHandle 5 (mk_StorageUtilization 0 8)) 1 0 0 true taint_default) [taint_default] 3)|].
  - lia.
  - split; [reflexivity|reflexivity|reflexivity|cbn; lia|].
    split; [repeat (constructor; [apply taint_default_ok|]); constructor|].
    intros f. unfold tags. cbn. rewrite lookup_empty. done.
  - vm_compute. reflexivity.
  - intros [r mm'] w' (_ & _ & _ & (s & Hs & Hst & _) & _). exists s. split; [exact Hs|].
    unfold slice_size. rewrite Hst. reflexivity.
Defined.
End witnesses.
