(* ===== verification/Effects.v ===== *)
(** * What a reservation may do to the storage

    A reservation states how much of the storage it may touch ([PageUpdate] of
    [cubecl-server/src/memory_management/memory_manage.rs]): the operations it
    runs through, from the pages up to the manager, are followed to the calls
    of the storage. *)

From S2P Require Export Manager.
From stdpp Require Import list.
#[local] Open Scope Z_scope.

(** Every run of [m] relates the worlds before and after. *)
Definition respects {St A} (R : relation (World St)) (m : M (World St) A) : Prop :=
  ∀ w a w', m w = Some (a, w') → R w w'.

(** A relation that says nothing of the descriptors and the failures. *)
Class StorageRelation {St} (R : relation (World St)) := {
  relation_pre :: PreOrder R;
  relation_storage w w' : storage w' = storage w → storage_ids w' = storage_ids w → R w w';
}.

Create HintDb respects.

Section rules.
Context {St : Type} (R : relation (World St)) `{!StorageRelation R}.

Lemma respects_ret {A} (a : A) : respects R (mret a).
Proof. by intros w b w' [= <- <-]. Qed.
Lemma respects_bind {A B} (m : M (World St) A) (f : A → M (World St) B) :
  respects R m → (∀ a, respects R (f a)) → respects R (m ≫= f).
Proof.
  intros Hm Hf w b w'. unfold mbind, M_bind. destruct (m w) as [[a w1]|] eqn:E; [|done].
  intros Hb. etrans; [by eapply Hm|by eapply Hf].
Qed.
Lemma respects_fmap {A B} (m : M (World St) A) (f : A → B) : respects R m → respects R (f <$> m).
Proof.
  intros Hm w b w'. unfold fmap, M_fmap. destruct (m w) as [[a w1]|] eqn:E; [|done].
  intros [= <- <-]. by eapply Hm.
Qed.
Lemma respects_lift {A} (o : option A) : respects R (lift o).
Proof. intros w a w'. destruct o; [|done]. by intros [= <- <-]. Qed.
Lemma respects_memory {A} (m : M Memory A) : respects R (on_memory m).
Proof.
  intros w a w'. unfold on_memory. destruct (m (memory w)) as [[b mem]|]; [|done]. intros [= <- <-].
  by apply relation_storage.
Qed.
Lemma respects_failures {A} (m : M ErrorGraph A) : respects R (on_failures m).
Proof.
  intros w a w'. unfold on_failures. destruct (m (failures w)) as [[b g]|]; [|done]. intros [= <- <-].
  by apply relation_storage.
Qed.
End rules.
#[export] Instance same_storage_relation {St} : StorageRelation (St := St) same_storage.
Proof.
  split; [split|].
  - by intros w.
  - intros w1 w2 w3 [H1 H2] [H3 H4]. by split; etrans.
  - by split.
Qed.
#[export] Hint Resolve same_storage_relation respects_ret respects_lift respects_memory respects_failures : respects.

(** Follows the definition of an operation. *)
Ltac respects := repeat first
  [ solve [eauto 2 with respects]
  | apply respects_bind; [exact _| |intros ?]
  | apply respects_fmap
  | progress cbn beta iota zeta
  | case_match ].

(** ** Searching the pools *)
Section search.
Context {St : Type} `{ComputeStorage St} (R : relation (World St)) `{!StorageRelation R}.

Lemma respects_is_free s : respects R (slice_is_free s).
Proof. unfold slice_is_free. respects. Qed.
Hint Resolve respects_is_free : respects.
Lemma respects_slice_new st n : respects R (slice_new st n).
Proof. unfold slice_new. respects. Qed.
Lemma respects_slice_drop s : respects R (slice_drop s).
Proof. unfold slice_drop. respects. Qed.
Hint Resolve respects_slice_new respects_slice_drop : respects.

Lemma respects_memory_job l : ∀ i tasks task, respects R (memory_job l i tasks task).
Proof. induction l as [|s l IH]; intros i tasks task; cbn; respects. Qed.
Lemma respects_coalesce_loop st base l : ∀ i task tasks offset size tmp,
  respects R (coalesce_loop st base l i task tasks offset size tmp).
Proof. induction l as [|s l IH]; intros; cbn; respects. Qed.
Hint Resolve respects_memory_job respects_coalesce_loop : respects.
Lemma respects_coalesce p : respects R (coalesce p).
Proof. unfold coalesce. respects. Qed.
Lemma respects_find_slot n l : ∀ i, respects R (find_slot n l i).
Proof. induction l as [|s l IH]; intros i; cbn; respects. Qed.
Lemma respects_add_loop base i n l : ∀ j new tmp, respects R (add_loop base i n l j new tmp).
Proof. induction l as [|s l IH]; intros; cbn; respects. Qed.
Hint Resolve respects_coalesce respects_find_slot respects_add_loop : respects.
Lemma respects_try_reserve p n : respects R (try_reserve p n).
Proof. unfold try_reserve, add_new_slice. respects. Qed.
Hint Resolve respects_try_reserve : respects.
End search.
#[export] Hint Resolve respects_is_free respects_slice_new respects_slice_drop respects_coalesce respects_try_reserve : respects.

(** What [try_reserve] of a pool runs leaves the storage alone. *)
Section held.
Context {St : Type} `{ComputeStorage St} (R : relation (World St)) `{!StorageRelation R}.

Lemma respects_reserve_pages n l : respects R (reserve_pages l n).
Proof. induction l as [|[pg id] l IH]; cbn; respects. Qed.
Hint Resolve respects_reserve_pages : respects.
Lemma respects_reserve_free p n : respects R (reserve_free p n).
Proof. unfold reserve_free. respects. Qed.
Lemma respects_find_exact n l : ∀ i, respects R (find_exact n l i).
Proof. induction l as [|[s|] l IH]; intros i; cbn; respects. Qed.
Hint Resolve respects_find_exact : respects.
Lemma respects_direct_try_reserve p n : respects R (direct_try_reserve p n).
Proof. unfold direct_try_reserve. respects. Qed.
Lemma respects_find_position l js : respects R (find_position l js).
Proof. induction js as [|i js IH]; cbn; respects. Qed.
Hint Resolve respects_find_position : respects.
Lemma respects_persistent_try_reserve p n : respects R (persistent_try_reserve p n).
Proof. unfold persistent_try_reserve. respects. Qed.
Lemma respects_get_free_page l n : ∀ i best, respects R (get_free_page l n i best).
Proof. induction l as [|pg l IH]; intros; cbn; respects. Qed.
Hint Resolve respects_get_free_page : respects.
Lemma respects_exclusive_try_reserve p n : respects R (exclusive_try_reserve p n).
Proof. unfold exclusive_try_reserve. respects. Qed.
Hint Resolve respects_reserve_free respects_direct_try_reserve respects_persistent_try_reserve
  respects_exclusive_try_reserve : respects.
Lemma respects_pools_try_reserve l n : respects R (pools_try_reserve l n).
Proof. induction l as [|p l IH]; cbn; respects. Qed.
Lemma respects_arena_try_reserve a n : respects R (arena_try_reserve a n).
Proof. unfold arena_try_reserve. respects. Qed.
Hint Resolve respects_pools_try_reserve respects_arena_try_reserve : respects.
Lemma respects_adaptive_try_reserve m n : respects R (adaptive_try_reserve m n).
Proof. unfold adaptive_try_reserve. respects. Qed.
Hint Resolve respects_adaptive_try_reserve : respects.
Lemma respects_dynamic_try_reserve d n : respects R (dynamic_try_reserve d n).
Proof. unfold dynamic_try_reserve. respects. Qed.
Hint Resolve respects_dynamic_try_reserve : respects.
Lemma respects_reserve_held mm n : respects R (reserve_held mm n).
Proof. unfold reserve_held. respects. Qed.
End held.
#[export] Hint Resolve respects_reserve_free respects_direct_try_reserve respects_persistent_try_reserve
  respects_exclusive_try_reserve respects_pools_try_reserve respects_dynamic_try_reserve respects_reserve_held : respects.

(** ** One allocation

    What [alloc] of a pool runs asks the storage for at most one allocation, or
    draws at most one storage id for a page it leaves unmapped. *)
Section once.
Context {St : Type} `{ComputeStorage St}.
Implicit Types (w : World St) (mm : MemoryManagement).

Inductive storage_step w w' : Prop :=
| step_alloc size r : storage_alloc size w = Some (r, w') → storage_step w w'
| step_id id : storage_id_new w = Some (id, w') → storage_step w w'.
Definition adds_once w w' : Prop :=
  same_storage w w' ∨ ∃ w1 w2, same_storage w w1 ∧ storage_step w1 w2 ∧ same_storage w2 w'.

Lemma once_aside {A} (m : M (World St) A) : respects same_storage m → respects adds_once m.
Proof. intros Hm w a w' Hr. left. by eapply Hm. Qed.
Lemma once_step {A} (m : M (World St) A) : (∀ w a w', m w = Some (a, w') → storage_step w w') → respects adds_once m.
Proof. intros Hm w a w' Hr. right. exists w, w'. split; [done|]. split; [by eapply Hm|done]. Qed.
Lemma once_after {A B} (m : M (World St) A) (f : A → M (World St) B) :
  respects same_storage m → (∀ a, respects adds_once (f a)) → respects adds_once (m ≫= f).
Proof.
  intros Hm Hf w b w'. unfold mbind, M_bind. destruct (m w) as [[a w1]|] eqn:E; [|done]. intros Hb.
  specialize (Hm _ _ _ E). destruct (Hf _ _ _ _ Hb) as [Hs|(w2 & w3 & H2 & H3 & H4)]; [left; by etrans|].
  right. exists w2, w3. split; [by etrans|done].
Qed.
Lemma once_before {A B} (m : M (World St) A) (f : A → M (World St) B) :
  respects adds_once m → (∀ a, respects same_storage (f a)) → respects adds_once (m ≫= f).
Proof.
  intros Hm Hf w b w'. unfold mbind, M_bind. destruct (m w) as [[a w1]|] eqn:E; [|done]. intros Hb.
  specialize (Hf _ _ _ _ Hb). destruct (Hm _ _ _ E) as [Hs|(w2 & w3 & H2 & H3 & H4)]; [left; by etrans|].
  right. exists w2, w3. split; [done|]. split; [done|by etrans].
Qed.
End once.

(** The steps before and after the one that allocates leave the storage alone. *)
Ltac adding := repeat first
  [ solve [eauto 2 with respects]
  | apply once_aside; solve [respects]
  | apply once_before; [|intros ?; solve [respects]]
  | apply once_after; [solve [respects]|intros ?]
  | progress cbn beta iota zeta
  | case_match ].

Section add.
Context {St : Type} `{ComputeStorage St}.
Abbreviation once := (respects (St := St) adds_once).

Lemma once_storage_alloc n : once (storage_alloc n).
Proof. apply once_step. intros. by eapply step_alloc. Qed.
Lemma once_storage_id : once storage_id_new.
Proof. apply once_step. intros. by eapply step_id. Qed.
Hint Resolve once_storage_alloc once_storage_id : respects.
Lemma once_mapping_storage mapping n : once (mapping_storage_handle mapping n).
Proof. unfold mapping_storage_handle. adding. Qed.
Hint Resolve once_mapping_storage : respects.
Lemma respects_page_new st align base mapping : respects (St := St) same_storage (page_new st align base mapping).
Proof. unfold page_new. respects. Qed.
Hint Resolve respects_page_new : respects.
Lemma once_sliced_alloc p n mapping : once (sliced_alloc p n mapping).
Proof. unfold sliced_alloc, alloc_page. adding. Qed.
Lemma once_direct_alloc p n mapping : once (direct_alloc p n mapping).
Proof. unfold direct_alloc. adding. Qed.
Lemma once_persistent_alloc p n mapping : once (persistent_alloc p n mapping).
Proof. unfold persistent_alloc. adding. Qed.
Lemma once_exclusive_alloc p n : once (exclusive_alloc p n).
Proof. unfold exclusive_alloc, exclusive_alloc_page. adding. Qed.
Hint Resolve once_sliced_alloc once_direct_alloc once_persistent_alloc once_exclusive_alloc : respects.
Lemma once_pools_alloc l n : once (pools_alloc l n).
Proof. induction l as [|p l IH]; cbn; adding. Qed.
Hint Resolve once_pools_alloc : respects.
Lemma once_pools_reserve l n : once (pools_reserve l n).
Proof. unfold pools_reserve. adding. Qed.
Lemma once_sliced_reserve p n mapping : once (sliced_reserve p n mapping).
Proof. unfold sliced_reserve. adding. Qed.
Lemma once_arena_grow a n k mapping : once (arena_grow a n k mapping).
Proof. unfold arena_grow. adding. Qed.
Hint Resolve once_pools_reserve once_sliced_reserve once_arena_grow : respects.
Lemma once_arena_reserve a n mapping : once (arena_reserve a n mapping).
Proof. unfold arena_reserve. adding. Qed.
Hint Resolve once_arena_reserve : respects.
Lemma once_adaptive_reserve m n mapping : once (adaptive_reserve m n mapping).
Proof. unfold adaptive_reserve, exclusive_reserve. adding. Qed.
Hint Resolve once_adaptive_reserve : respects.
Lemma once_dynamic_reserve d n mapping : once (dynamic_reserve d n mapping).
Proof. unfold dynamic_reserve. adding. Qed.
Hint Resolve once_dynamic_reserve : respects.
Lemma once_reserve_adding mm n dry_run : once (reserve_adding mm n dry_run).
Proof. unfold reserve_adding. adding. Qed.
End add.
#[export] Hint Resolve once_reserve_adding : respects.

(** ** The promise of a page update *)
(** Takes a run apart into the runs of its steps. *)
Ltac run_inv := repeat first
  [ match goal with
    | Hr : (_ ≫= _) _ = Some _ |- _ =>
        let a := fresh "a" in let s := fresh "w" in let Ha := fresh "Ha" in
        apply bind_run in Hr as (a & s & Ha & Hr)
    | Hr : mret _ _ = Some _ |- _ => injection Hr as ?; subst
    | Hr : lift _ _ = Some _ |- _ => unfold lift in Hr
    | Hr : panic _ = Some _ |- _ => discriminate Hr
    end
  | progress simplify_eq
  | case_match ].

Section promise.
Context {St : Type} `{ComputeStorage St}.
Implicit Types (w : World St) (mm : MemoryManagement).

(** A reservation in the mode in force leaves the pools of the other modes
    alone. *)
Definition leaves_pools mm mm' : Prop :=
  match mm_mode mm with
  | ModeDedicated => mm_persistent mm' = mm_persistent mm ∧ mm_pools mm' = mm_pools mm
  | ModePersistent => mm_dedicated mm' = mm_dedicated mm ∧ mm_pools mm' = mm_pools mm
  | ModeAuto =>
      mm_dedicated mm' = mm_dedicated mm ∧ (mm_config mm ≠ SizeMatch → mm_persistent mm' = mm_persistent mm)
  end.
Definition same_policy mm mm' : Prop :=
  mm_mode mm' = mm_mode mm ∧ base_mode mm' = base_mode mm ∧ windows mm' = windows mm ∧ mm_config mm' = mm_config mm.

Lemma reserve_held_pools mm n r mm' w w' :
  reserve_held mm n w = Some (r, mm', w') →
  leaves_pools mm mm' ∧ same_policy mm mm' ∧ alloc_reserve_count mm' = alloc_reserve_count mm.
Proof. unfold reserve_held, leaves_pools, same_policy. intros Hr. run_inv; cbn; done. Qed.
Lemma reserve_adding_pools mm n dry_run r mm' w w' :
  reserve_adding mm n dry_run w = Some (r, mm', w') →
  leaves_pools mm mm' ∧ same_policy mm mm' ∧ alloc_reserve_count mm' = alloc_reserve_count mm + 1.
Proof.
  unfold reserve_adding, leaves_pools, same_policy, add_u64. intros Hr. run_inv; cbn in *;
    repeat case_bool_decide; simplify_eq/=; split_and!; try intros ?; try done; try congruence.
Qed.

(** The promise of a page update.  A reservation that may not update pages
    leaves the storage exactly as it was, unmapped pages included, whether it
    finds memory or not; one that may only add asks the storage for at most one
    allocation, or draws at most one id for a page it leaves unmapped, and gives
    nothing back; either changes no pool but those the mode in force routes to,
    and no part of the allocation policy. *)
Theorem reserve_promise mm size update dry_run r mm' w w' :
  mm_reserve mm size update dry_run w = Some (r, mm', w') → update ≠ Allow →
  leaves_pools mm mm' ∧ same_policy mm mm' ∧
  match update with
  | Forbidden => same_storage w w' ∧ alloc_reserve_count mm' = alloc_reserve_count mm ∧
      ∀ e, r = Err e → e = PageUpdateForbidden size
  | _ => adds_once w w' ∧ alloc_reserve_count mm' = alloc_reserve_count mm + 1
  end.
Proof.
  intros Hr Hu. destruct update; [done| |]; cbn [mm_reserve] in Hr.
  - pose proof (once_reserve_adding mm size dry_run _ _ _ Hr). by apply reserve_adding_pools in Hr as (? & ? & ?).
  - apply bind_run in Hr as ([h mm1] & w1 & Hr & [= <- <- <-]).
    pose proof (respects_reserve_held same_storage mm size _ _ _ Hr). apply reserve_held_pools in Hr as (? & ? & ?).
    split_and!; try done. intros e He. by destruct h; simplify_eq.
Qed.
End promise.

(** ** Using what is allocated

    Resolving a resource maps the page that a dry run left without memory;
    guards, reports and bindings leave the storage alone. *)
Section resources.
Context {St : Type} `{ComputeStorage St} (R : relation (World St)) `{!StorageRelation R}.

Lemma respects_gets {A} (f : World St → A) : respects R (gets f).
Proof. by intros w a w' [= _ <-]. Qed.
Hint Resolve respects_gets : respects.
Lemma respects_page_find pg b : respects R (page_find pg b).
Proof. unfold page_find. respects. Qed.
Hint Resolve respects_page_find : respects.
Lemma respects_pool_find p b : respects R (pool_find p b).
Proof. destruct p; unfold pool_find, exclusive_find, sliced_find, persistent_find, direct_find; respects. Qed.
Hint Resolve respects_pool_find : respects.
Lemma respects_mm_find mm b : respects R (mm_find mm b).
Proof. unfold mm_find, mm_find_mut, allocated. respects. Qed.
Hint Resolve respects_mm_find : respects.
Lemma respects_slice_bind s h : respects R (slice_bind s h).
Proof. unfold slice_bind. respects. Qed.
Hint Resolve respects_slice_bind : respects.
Lemma respects_mm_bind mm reserved assigned cursor : respects R (mm_bind mm reserved assigned cursor).
Proof.
  assert (∀ p, respects R (pool_bind p reserved assigned cursor)) as Hp.
  { intros []; unfold pool_bind, exclusive_bind, sliced_bind, page_bind, persistent_bind, direct_bind; respects. }
  unfold mm_bind, allocated. respects.
Qed.
Lemma respects_mm_guard mm location : respects R (mm_guard mm location).
Proof. unfold mm_guard, pool_guard, exclusive_guard, persistent_guard, direct_guard. respects. Qed.
Lemma respects_memory_usage pg : respects R (memory_usage pg).
Proof.
  unfold memory_usage. generalize (mk_MemoryUsage 0 0 0 0). induction (slices pg) as [|s l IH]; intros u; cbn; respects.
Qed.
Hint Resolve respects_memory_usage : respects.
Lemma respects_usage_pages l u : respects R (usage_pages l u).
Proof. revert u. induction l as [|[pg id] l IH]; intros u; cbn; respects. Qed.
Hint Resolve respects_usage_pages : respects.
Lemma respects_sliced_report p : respects R (sliced_report p).
Proof. unfold sliced_report, sliced_usage. respects. Qed.
Lemma respects_used_slices l : respects R (used_slices l).
Proof. induction l as [|s l IH]; cbn; respects. Qed.
Hint Resolve respects_sliced_report respects_used_slices : respects.
Lemma respects_exclusive_report p : respects R (exclusive_report p).
Proof. unfold exclusive_report, exclusive_usage. respects. Qed.
Hint Resolve respects_exclusive_report : respects.
Lemma respects_pools_report l : respects R (pools_report l).
Proof. induction l as [|p l IH]; cbn; respects. Qed.
Lemma respects_sliced_reports l : respects R (sliced_reports l).
Proof. induction l as [|p l IH]; cbn; respects. Qed.
Lemma respects_direct_usage l u : respects R (direct_usage_of l u).
Proof. revert u. induction l as [|s l IH]; intros u; cbn; respects. Qed.
Hint Resolve respects_pools_report respects_sliced_reports respects_direct_usage : respects.
Lemma respects_memory_report mm : respects R (memory_report mm).
Proof.
  unfold memory_report, dynamic_report, adaptive_report, arena_report, persistent_report, direct_report. respects.
Qed.

Section allocating.
Context (Halloc : ∀ n, respects R (storage_alloc n)).
Hint Resolve Halloc : respects.
Lemma respects_slice_materialize s : respects R (slice_materialize s).
Proof. unfold slice_materialize. respects. Qed.
Hint Resolve respects_slice_materialize : respects.
Lemma respects_sliced_materialize p b : respects R (sliced_materialize p b).
Proof. unfold sliced_materialize, map_page. respects. Qed.
Hint Resolve respects_sliced_materialize : respects.
Lemma respects_materialize mm b : respects R (mm_materialize mm b).
Proof.
  unfold mm_materialize, persistent_materialize, direct_materialize, dynamic_materialize, adaptive_materialize. respects.
Qed.
Hint Resolve respects_materialize : respects.
Lemma respects_get_resource mm b start end_ : respects R (Manager.get_resource mm b start end_).
Proof. unfold Manager.get_resource, get_storage. respects. Qed.
End allocating.
End resources.

(** A storage that is asked for memory and for nothing else. *)
Definition only_allocates {St} `{ComputeStorage St} : relation (World St) :=
  rtc (λ w w', same_storage w w' ∨ ∃ n r, storage_alloc n w = Some (r, w')).
#[export] Instance only_allocates_relation {St} `{ComputeStorage St} : StorageRelation (St := St) only_allocates.
Proof. split; [apply _|]. intros w w' Hs Hi. apply rtc_once. by left. Qed.
Lemma respects_only_alloc {St} `{ComputeStorage St} n : respects (St := St) only_allocates (storage_alloc n).
Proof. intros w r w' Hr. apply rtc_once. right. by eexists _, _. Qed.
#[export] Hint Resolve only_allocates_relation respects_only_alloc respects_mm_bind respects_mm_guard respects_memory_report
  respects_get_resource : respects.

Section witnesses.
Let answer (st : Bytes.BytesStorage) (n : Z) : bool := true.
#[local] Instance effects_bytes : ComputeStorage Bytes.BytesStorage := Bytes.storage_bytes_storage answer.

Lemma reserve_promise_witness :
  ∃ r mm' w', mm_reserve manager_example 7 Forbidden false manager_world = Some (Ok r, mm', w') ∧
    same_storage manager_world w' ∧ mm_pools mm' = mm_pools manager_example.
Proof.
  destruct (mm_reserve manager_example 7 Forbidden false manager_world) as [[[[h|e] mm'] w']|] eqn:Hr;
    [|vm_compute in Hr; discriminate|vm_compute in Hr; discriminate].
  destruct (reserve_promise manager_example 7 Forbidden false (Ok h) mm' manager_world w' Hr ltac:(done))
    as (Hp & _ & Hs & _).
  exists h, mm', w'. split; [reflexivity|]. split; [exact Hs|]. apply Hp.
Defined.
End witnesses.
