(* ===== verification/MetadataCache.v ===== *)
(** * The cache of metadata buffers

    [cubecl-server/src/metadata_cache.rs]: the device buffers that hold the
    metadata of launches, found by the words they were built from, bounded in
    normal operation and pinned for the graphs that recorded them.  A hash map
    or set that is iterated lists its elements in an order the model takes as
    a parameter. *)

From S2P Require Export Prelude.
From stdpp Require Import list gmap fin_sets sorting.
#[local] Open Scope Z_scope.

Abbreviation InfoCacheKey := (list Z) (only parsing).
Abbreviation GraphId := Z (only parsing).

(** [CacheMode::Normal] and [Capture] *)
Inductive CacheMode := NormalMode | CaptureMode.
#[global] Instance CacheMode_eq_dec : EqDecision CacheMode.
Proof. solve_decision. Defined.

(** ** The policy *)
Record MetadataCachePolicy := mk_MetadataCachePolicy {
  max_entries : Z;
  max_cached_size : Z;
  policy_mode : CacheMode;
}.
Definition policy_new (max_entries max_cached_size : Z) : MetadataCachePolicy :=
  mk_MetadataCachePolicy max_entries max_cached_size NormalMode.
Definition policy_default : MetadataCachePolicy := policy_new 4096 2048.
Definition policy_set_mode (mode : CacheMode) (p : MetadataCachePolicy) : MetadataCachePolicy :=
  mk_MetadataCachePolicy (max_entries p) (max_cached_size p) mode.
Definition policy_should_cache (p : MetadataCachePolicy) (size : Z) : bool :=
  match policy_mode p with
  | CaptureMode => true
  | NormalMode => (0 <? max_entries p) && (size <=? max_cached_size p)
  end.
Definition policy_capacity (p : MetadataCachePolicy) : option Z :=
  match policy_mode p with
  | CaptureMode => None
  | NormalMode => Some (max_entries p)
  end.
Definition pins_entries (p : MetadataCachePolicy) : bool := bool_decide (policy_mode p = CaptureMode).

(** ** The cache *)
Record CacheEntry (V : Type) := mk_CacheEntry { entry_value : V; last_used : Z; locks : Z }.
Arguments mk_CacheEntry {V}. Arguments entry_value {V}. Arguments last_used {V}. Arguments locks {V}.
Inductive CacheLookup (V : Type) := Hit (value : V) | Build (store : bool).
Arguments Hit {V}. Arguments Build {V}.

Record MetadataInfoCache (V : Type) := mk_MetadataInfoCache {
  cache_entries : gmap InfoCacheKey (CacheEntry V);
  cache_policy : MetadataCachePolicy;
  cache_clock : Z;
  pending : gset InfoCacheKey;
  graph_locks : gmap GraphId (list InfoCacheKey);
}.
Arguments mk_MetadataInfoCache {V}. Arguments cache_entries {V}. Arguments cache_policy {V}.
Arguments cache_clock {V}. Arguments pending {V}. Arguments graph_locks {V}.

(** [Iterator::min_by_key]: the first of the least. *)
Fixpoint min_by_key {A} (key : A → Z) (l : list A) : option A :=
  match l with
  | [] => None
  | x :: l => match min_by_key key l with
              | Some y => if key x <=? key y then Some x else Some y
              | None => Some x
              end
  end.

Section cache.
Context {V : Type}.
Implicit Types (c : MetadataInfoCache V) (key words : InfoCacheKey).
Abbreviation Cache := (MetadataInfoCache V).
Abbreviation Entries := (gmap InfoCacheKey (CacheEntry V)).

Definition with_cache_entries (es : Entries) c : Cache :=
  mk_MetadataInfoCache es (cache_policy c) (cache_clock c) (pending c) (graph_locks c).
Definition with_cache_policy (p : MetadataCachePolicy) c : Cache :=
  mk_MetadataInfoCache (cache_entries c) p (cache_clock c) (pending c) (graph_locks c).
Definition with_clock (n : Z) c : Cache :=
  mk_MetadataInfoCache (cache_entries c) (cache_policy c) n (pending c) (graph_locks c).
Definition with_pending (s : gset InfoCacheKey) c : Cache :=
  mk_MetadataInfoCache (cache_entries c) (cache_policy c) (cache_clock c) s (graph_locks c).
Definition with_graph_locks (m : gmap GraphId (list InfoCacheKey)) c : Cache :=
  mk_MetadataInfoCache (cache_entries c) (cache_policy c) (cache_clock c) (pending c) m.

Definition cache_new (policy : MetadataCachePolicy) : Cache := mk_MetadataInfoCache ∅ policy 0 ∅ ∅.
Definition set_cache_mode (mode : CacheMode) c : Cache := with_cache_policy (policy_set_mode mode (cache_policy c)) c.
Definition should_cache c (size : Z) : bool := policy_should_cache (cache_policy c) size.
Definition cache_len c : Z := Z.of_nat (size (cache_entries c)).
Definition cache_is_empty c : bool := bool_decide (cache_entries c = ∅).
Definition cache_clear c : Cache := with_cache_entries ∅ c.
Definition clear_unpinned c : Cache :=
  with_cache_entries (filter (λ ke : InfoCacheKey * CacheEntry V, 0 < locks ke.2) (cache_entries c)) c.

Context (entry_order : Entries → list (InfoCacheKey * CacheEntry V)).
Context (set_order : gset InfoCacheKey → list InfoCacheKey).

(** [size_of_val] of the words. *)
Definition words_size words : Z := 8 * Z.of_nat (length words).

(** The key of a pin is cloned before the count, which is a [u32], goes up. *)
Definition cache_get key : M Cache (option V) :=
  c ← get;
  clock ← lift (add_u64 (cache_clock c) 1);
  let pin := pins_entries (cache_policy c) && negb (bool_decide (key ∈ pending c)) in
  let c := with_clock clock c in
  match cache_entries c !! key with
  | None => _ ← put c; mret None
  | Some entry =>
      n ← lift (if pin then if decide (locks entry + 1 <= u32_max) then Some (locks entry + 1) else None
                else Some (locks entry));
      let c := if pin then with_pending ({[key]} ∪ pending c) c else c in
      _ ← put (with_cache_entries (<[key := mk_CacheEntry (entry_value entry) clock n]> (cache_entries c)) c);
      mret (Some (entry_value entry))
  end.
Definition cache_lookup (mode : CacheMode) words : M Cache (CacheLookup V) :=
  _ ← modify (set_cache_mode mode);
  c ← get;
  if negb (should_cache c (words_size words)) then mret (Build false)
  else
    r ← cache_get words;
    mret (match r with Some value => Hit value | None => Build true end).

Definition lru_victim (es : Entries) : option InfoCacheKey :=
  fst <$> min_by_key (λ ke, last_used ke.2) (filter (λ ke : InfoCacheKey * CacheEntry V, locks ke.2 = 0) (entry_order es)).
Definition evict_least_recently_used c : Cache :=
  match lru_victim (cache_entries c) with
  | Some key => with_cache_entries (delete key (cache_entries c)) c
  | None => c
  end.
Definition cache_insert key (value : V) c : Cache :=
  let insert c :=
    let pin := pins_entries (cache_policy c) in
    let c := if pin then with_pending ({[key]} ∪ pending c) c else c in
    with_cache_entries
      (<[key := mk_CacheEntry value (cache_clock c) (if pin then 1 else 0)]> (cache_entries c)) c in
  match policy_capacity (cache_policy c) with
  | Some capacity =>
      if capacity =? 0 then c
      else if capacity <=? cache_len c then insert (evict_least_recently_used c) else insert c
  | None => insert c
  end.
Definition cache_store words (value : V) c : Cache := cache_insert words value c.

(** [drain().collect()] *)
Definition capture_commit (graph : GraphId) c : Cache :=
  if decide (pending c = ∅) then c
  else with_graph_locks (<[graph := set_order (pending c)]> (graph_locks c)) (with_pending ∅ c).

Definition unlock key (es : Entries) : Entries :=
  alter (λ e, mk_CacheEntry (entry_value e) (last_used e) (sat_sub (locks e) 1)) key es.
Definition capture_discard c : Cache :=
  with_cache_entries (foldl (λ es key, unlock key es) (cache_entries c) (set_order (pending c))) (with_pending ∅ c).

(** The body of the loop of [graph_release]. *)
Definition release_key (es : Entries) key : Entries :=
  match es !! key with
  | Some entry => if sat_sub (locks entry) 1 =? 0 then delete key es else unlock key es
  | None => es
  end.
Definition graph_release (graph : GraphId) c : Cache :=
  match graph_locks c !! graph with
  | None => c
  | Some keys =>
      with_cache_entries (foldl release_key (cache_entries c) keys) (with_graph_locks (delete graph (graph_locks c)) c)
  end.
End cache.

(** ** The operations of a server on its cache

    A launch looks up the words it needs, and keeps the buffer it built when
    it was told to; a capture is committed to a graph or discarded, and a graph
    is released; an explicit cleanup drops what no graph pins. *)
Inductive CacheOp (V : Type) :=
| Look (mode : CacheMode) (words : InfoCacheKey)
| Keep (words : InfoCacheKey) (value : V)
| Commit (graph : GraphId)
| Discard
| Release (graph : GraphId)
| ClearUnpinned.
Arguments Look {V}. Arguments Keep {V}. Arguments Commit {V}. Arguments Discard {V}. Arguments Release {V}.
Arguments ClearUnpinned {V}.

Lemma min_by_key_spec {A} (key : A → Z) l :
  match min_by_key key l with
  | Some x => x ∈ l ∧ ∀ y, y ∈ l → key x <= key y
  | None => l = []
  end.
Proof.
  induction l as [|x l IH]; [done|]. cbn. destruct (min_by_key key l) as [y|].
  - destruct IH as [Hy Hmin]. destruct (Z.leb_spec (key x) (key y)).
    + split; [by left|]. intros z [->|Hz]%elem_of_cons; [lia|]. specialize (Hmin z Hz). lia.
    + split; [by right|]. intros z [->|Hz]%elem_of_cons; [lia|]. by apply Hmin.
  - subst l. split; [by left|]. intros z ->%list_elem_of_singleton. lia.
Qed.

(** A step that changes one key, over distinct keys. *)
Lemma foldl_keys {V} (f : gmap InfoCacheKey V → InfoCacheKey → gmap InfoCacheKey V) (g : option V → option V)
    (keys : list InfoCacheKey) :
  (∀ es key k, f es key !! k = if decide (k = key) then g (es !! k) else es !! k) → NoDup keys →
  ∀ es k, foldl f es keys !! k = if decide (k ∈ keys) then g (es !! k) else es !! k.
Proof.
  intros Hf. induction 1 as [|key keys Hk Hnd IH]; intros es k; [by rewrite decide_False by apply not_elem_of_nil|].
  cbn [foldl]. rewrite IH, !Hf. destruct (decide (k = key)) as [->|Hne].
  - rewrite decide_False by done. rewrite decide_True by by left. done.
  - destruct (decide (k ∈ keys)); [rewrite decide_True by by right|rewrite decide_False by by intros [?|?]%elem_of_cons]; done.
Qed.

Section pins.
Context {V : Type}.
Implicit Types (c : MetadataInfoCache V) (key k : InfoCacheKey) (m : gmap GraphId (list InfoCacheKey)).

(** The graphs that pinned a key. *)
Definition holders m key : Z := Z.of_nat (size (filter (λ gk : GraphId * list InfoCacheKey, key ∈ gk.2) m)).
(** The pins of a key: one for each of its graphs, and one for the capture
    that is recorded. *)
Definition pins c key : Z := holders (graph_locks c) key + (if decide (key ∈ pending c) then 1 else 0).

Lemma holders_nonneg m key : 0 <= holders m key.
Proof. unfold holders. lia. Qed.
Lemma pins_nonneg c key : 0 <= pins c key.
Proof. unfold pins. pose proof (holders_nonneg (graph_locks c) key). case_decide; lia. Qed.
Lemma holders_insert m g ks key :
  m !! g = None → holders (<[g := ks]> m) key = holders m key + (if decide (key ∈ ks) then 1 else 0).
Proof.
  intros Hg. unfold holders. case_decide as Hk.
  - rewrite map_filter_insert_True by done. rewrite map_size_insert_None; [lia|].
    apply map_lookup_filter_None. by left.
  - rewrite map_filter_insert_False by done. rewrite delete_id by done. lia.
Qed.
Lemma holders_delete m g ks key :
  m !! g = Some ks → holders (delete g m) key = holders m key - (if decide (key ∈ ks) then 1 else 0).
Proof.
  intros Hg. rewrite <- (insert_id m g ks Hg) at 2. rewrite <- insert_delete_eq.
  rewrite (holders_insert _ g ks key) by apply lookup_delete_eq. lia.
Qed.
Lemma holders_pos m g ks key : m !! g = Some ks → key ∈ ks → 0 < holders m key.
Proof.
  intros Hg Hk. pose proof (holders_delete m g ks key Hg) as Hd. rewrite decide_True in Hd by done.
  pose proof (holders_nonneg (delete g m) key). lia.
Qed.
Lemma holders_bound m key : holders m key <= Z.of_nat (size m).
Proof. unfold holders. apply inj_le, map_subseteq_size, map_filter_subseteq. Qed.

Record cache_inv c : Prop := mk_cache_inv {
  ci_locks k e : cache_entries c !! k = Some e → locks e = pins c k;
  ci_pinned k : 0 < pins c k → is_Some (cache_entries c !! k);
  ci_distinct g ks : graph_locks c !! g = Some ks → NoDup ks;
  ci_clock : 0 <= cache_clock c;
  ci_used k e : cache_entries c !! k = Some e → last_used e <= cache_clock c;
}.

Lemma cache_new_inv p : cache_inv (cache_new p).
Proof. split; cbn; intros *; rewrite ?lookup_empty; try done. Qed.
End pins.

(** ** What the operations do to the entries and the pins *)
Section specs.
Context {V : Type} (entry_order : gmap InfoCacheKey (CacheEntry V) → list (InfoCacheKey * CacheEntry V)).
Context (set_order : gset InfoCacheKey → list InfoCacheKey).
Context (entry_order_all : ∀ es, entry_order es ≡ₚ map_to_list es).
Context (set_order_all : ∀ s, set_order s ≡ₚ elements s).
Implicit Types (c : MetadataInfoCache V) (key k words : InfoCacheKey) (value : V).
Abbreviation Cache := (MetadataInfoCache V).
Abbreviation insert_in := (cache_insert entry_order).
Abbreviation commit_in := (capture_commit set_order).
Abbreviation discard_in := (capture_discard set_order).

Definition run_op (op : CacheOp V) : M Cache (option (CacheLookup V)) :=
  match op with
  | Look mode words => Some <$> cache_lookup mode words
  | Keep words value => _ ← modify (insert_in words value); mret None
  | Commit graph => _ ← modify (commit_in graph); mret None
  | Discard => _ ← modify discard_in; mret None
  | Release graph => _ ← modify (graph_release graph); mret None
  | ClearUnpinned => _ ← modify clear_unpinned; mret None
  end.
(** A buffer is kept after a miss; a graph has an id of its own. *)
Definition allowed (op : CacheOp V) c : Prop :=
  match op with
  | Keep words _ => cache_entries c !! words = None
  | Commit graph => graph_locks c !! graph = None
  | _ => True
  end.
(** The clock and the counts of pins are machine integers. *)
Definition counts_fit c : Prop := cache_clock c < u64_max ∧ Z.of_nat (size (graph_locks c)) < u32_max.

Lemma set_order_elem s k : k ∈ set_order s ↔ k ∈ s.
Proof. rewrite (set_order_all s). apply elem_of_elements. Qed.
Lemma set_order_distinct s : NoDup (set_order s).
Proof. rewrite (set_order_all s). apply NoDup_elements. Qed.
Lemma entry_order_elem es k e : (k, e) ∈ entry_order es ↔ es !! k = Some e.
Proof. rewrite (entry_order_all es). apply elem_of_map_to_list. Qed.

Lemma unlock_lookup (es : gmap InfoCacheKey (CacheEntry V)) key k :
  unlock key es !! k = if decide (k = key) then
      (λ e, mk_CacheEntry (entry_value e) (last_used e) (sat_sub (locks e) 1)) <$> es !! k else es !! k.
Proof.
  unfold unlock. case_decide as Hk; [subst; apply lookup_alter_eq|]. by apply lookup_alter_ne.
Qed.
Definition released (o : option (CacheEntry V)) : option (CacheEntry V) :=
  e ← o; if sat_sub (locks e) 1 =? 0 then None
         else Some (mk_CacheEntry (entry_value e) (last_used e) (sat_sub (locks e) 1)).
Lemma release_lookup (es : gmap InfoCacheKey (CacheEntry V)) key k :
  release_key es key !! k = if decide (k = key) then released (es !! k) else es !! k.
Proof.
  unfold release_key, released. destruct (es !! key) as [e|] eqn:He.
  - destruct (sat_sub (locks e) 1 =? 0) eqn:Hn.
    + case_decide as Hk; [subst; rewrite lookup_delete_eq, He; cbn; by rewrite Hn|]. by apply lookup_delete_ne.
    + rewrite unlock_lookup. case_decide as Hk; [subst; rewrite He; cbn; by rewrite Hn|done].
  - case_decide as Hk; [subst; by rewrite He|done].
Qed.

(** *** Keeping a buffer *)
Lemma lru_victim_spec es :
  match lru_victim entry_order es with
  | Some key => ∃ e, es !! key = Some e ∧ locks e = 0 ∧
      ∀ k e', es !! k = Some e' → locks e' = 0 → last_used e <= last_used e'
  | None => ∀ k e, es !! k = Some e → locks e ≠ 0
  end.
Proof.
  unfold lru_victim. set (l := filter _ _).
  assert (∀ k e, (k, e) ∈ l ↔ es !! k = Some e ∧ locks e = 0) as Hl.
  { intros k e. unfold l. rewrite list_elem_of_filter, entry_order_elem. tauto. }
  pose proof (min_by_key_spec (λ ke, last_used ke.2) l) as Hmin.
  destruct (min_by_key _ l) as [[k e]|]; cbn.
  - destruct Hmin as [[He H0]%Hl Hmin]. exists e. split; [done|]. split; [done|]. intros k' e' He' H0'.
    apply (Hmin (k', e')). by apply Hl.
  - intros k e He H0. assert ((k, e) ∈ l) as Hin by by apply Hl. rewrite Hmin in Hin. by apply not_elem_of_nil in Hin.
Qed.

(** What [insert] does to the entries before it adds its own. *)
Definition made_room c : MetadataInfoCache V :=
  match policy_capacity (cache_policy c) with
  | Some capacity => if capacity <=? cache_len c then evict_least_recently_used entry_order c else c
  | None => c
  end.
Definition disabled c : bool := bool_decide (policy_capacity (cache_policy c) = Some 0).
Definition kept key value c : MetadataInfoCache V :=
  let pin := pins_entries (cache_policy c) in
  with_cache_entries (<[key := mk_CacheEntry value (cache_clock c) (if pin then 1 else 0)]> (cache_entries (made_room c)))
    (with_pending (if pin then {[key]} ∪ pending c else pending c) c).
Lemma insert_kept key value c : insert_in key value c = if disabled c then c else kept key value c.
Proof.
  unfold cache_insert, kept, disabled, made_room, evict_least_recently_used. destruct c as [es p n pd gl]. cbn.
  destruct (policy_capacity p) as [cap|]; cbn; [|by destruct (pins_entries p)].
  destruct (Z.eqb_spec cap 0) as [->|Hcap]; [by rewrite bool_decide_eq_true_2|].
  rewrite bool_decide_eq_false_2 by congruence.
  destruct (cap <=? _); [destruct (lru_victim entry_order es)|]; cbn; by destruct (pins_entries p).
Qed.
Lemma made_room_lookup c k :
  cache_entries (made_room c) !! k = cache_entries c !! k ∨
  cache_entries (made_room c) !! k = None ∧ ∃ e, cache_entries c !! k = Some e ∧ locks e = 0.
Proof.
  unfold made_room. destruct (policy_capacity _) as [cap|]; [|by left]. destruct (cap <=? cache_len c); [|by left].
  unfold evict_least_recently_used. pose proof (lru_victim_spec (cache_entries c)) as Hv.
  destruct (lru_victim entry_order (cache_entries c)) as [v|]; [|by left]. cbn.
  destruct (decide (k = v)) as [->|Hne]; [right|left; by rewrite lookup_delete_ne].
  rewrite lookup_delete_eq. destruct Hv as (e & He & H0 & _). split; [done|by exists e].
Qed.

(** *** The invariant *)

(** A buffer that is pinned before and after is the same buffer. *)
Definition same_buffers c c' : Prop :=
  ∀ k e, cache_entries c !! k = Some e → 0 < pins c k → 0 < pins c' k →
    ∃ e', cache_entries c' !! k = Some e' ∧ entry_value e' = entry_value e.
Definition locks_after (op : CacheOp V) c : gmap GraphId (list InfoCacheKey) :=
  match op with
  | Commit graph => if decide (pending c = ∅) then graph_locks c
                    else <[graph := set_order (pending c)]> (graph_locks c)
  | Release graph => delete graph (graph_locks c)
  | _ => graph_locks c
  end.
Definition step_ok (op : CacheOp V) c c' : Prop :=
  cache_inv c' ∧ same_buffers c c' ∧ graph_locks c' = locks_after op c.

Lemma pins_bound c k : Z.of_nat (size (graph_locks c)) < u32_max → pins c k <= u32_max.
Proof. intros Hs. unfold pins. pose proof (holders_bound (graph_locks c) k). case_decide; lia. Qed.
Lemma pins_pending c key k :
  key ∉ pending c → pins (with_pending ({[key]} ∪ pending c) c) k = pins c k + (if decide (k = key) then 1 else 0).
Proof.
  intros Hk. unfold pins. cbn. destruct (decide (k = key)) as [->|Hne].
  - rewrite decide_True by set_solver. rewrite decide_False by done. lia.
  - destruct (decide (k ∈ pending c)); [rewrite decide_True by (apply elem_of_union; by right)
      |rewrite decide_False by by intros [->%elem_of_singleton|?]%elem_of_union]; lia.
Qed.

Lemma look_ok mode words c :
  cache_inv c → counts_fit c → wp (cache_lookup mode words) c (λ r c',
    step_ok (Look mode words) c c' ∧
    match r with
    | Hit v => ∃ e, cache_entries c !! words = Some e ∧ v = entry_value e
    | Build store => store = true → cache_entries c !! words = None ∧ cache_entries c' !! words = None
    end).
Proof.
  intros [Hl Hp Hd Hc Hu] [Hclock Hsize]. unfold cache_lookup. apply wp_bind, wp_modify, wp_bind.
  unfold wp at 1. cbn [get]. set (c1 := set_cache_mode mode c).
  assert (∀ es, cache_inv es → same_buffers c es → graph_locks es = graph_locks c → step_ok (Look mode words) c es) as Hok
    by (intros; split; [done|]; split; done).
  destruct (negb (should_cache c1 (words_size words))).
  { apply wp_ret. split; [|done]. apply Hok; [by split|intros k e He; by exists e|done]. }
  apply wp_bind. unfold cache_get. apply wp_bind. unfold wp at 1. cbn [get]. apply wp_bind.
  eapply wp_lift; [apply add_u64_Some; cbn; lia|]. cbn [cache_clock c1 with_clock set_cache_mode with_cache_policy cache_entries].
  set (pin := pins_entries _ && _). destruct (cache_entries c !! words) as [e|] eqn:He.
  - pose proof (Hl words e He) as Hle. pose proof (pins_bound c words Hsize).
    assert (pin = true → words ∉ pending c) as Hpin.
    { intros [_ Hn]%andb_true_iff. apply negb_true_iff, bool_decide_eq_false in Hn. exact Hn. }
    assert (pin = true → locks e + 1 <= u32_max) as Hfit.
    { intros Hpt. rewrite Hle. unfold pins. rewrite decide_False by by apply Hpin.
      pose proof (holders_bound (graph_locks c) words). lia. }
    apply wp_bind. eapply (wp_lift _ (locks e + (if pin then 1 else 0))).
    { destruct pin; [rewrite decide_True; [done|by apply Hfit]|]. f_equal. lia. }
    apply wp_bind. unfold wp, put. cbn [mret M_ret]. set (c' := with_cache_entries _ _).
    assert (∀ k, pins c' k = pins c k + (if pin then if decide (k = words) then 1 else 0 else 0)) as Hpins.
    { intros k. destruct pin; [|unfold pins; cbn; lia]. etrans; [|apply pins_pending; by apply Hpin]. done. }
    assert (cache_clock c' = cache_clock c + 1) as Hclk by by destruct pin.
    assert (graph_locks c' = graph_locks c) as Hgl by by destruct pin.
    assert (∀ k, cache_entries c' !! k = if decide (k = words) then
      Some (mk_CacheEntry (entry_value e) (cache_clock c + 1) (locks e + (if pin then 1 else 0))) else cache_entries c !! k) as Hes.
    { intros k. assert (cache_entries c' = <[words := mk_CacheEntry (entry_value e) (cache_clock c + 1)
        (locks e + (if pin then 1 else 0))]> (cache_entries c)) as -> by by destruct pin.
      case_decide; [subst; apply lookup_insert_eq|by apply lookup_insert_ne]. }
    split; [apply Hok; [split| |done]|by exists e].
    + intros k e'. rewrite Hes, Hpins. case_decide as Hk.
      * subst k. intros [= <-]. cbn. rewrite Hle, ?decide_True by done. by destruct pin.
      * intros He'. rewrite (Hl k e' He'). rewrite ?decide_False by done. destruct pin; lia.
    + intros k. rewrite Hes, Hpins. case_decide as Hk; [by eexists|]. rewrite ?decide_False by done. intros Hpos. apply Hp. destruct pin; lia.
    + by rewrite Hgl.
    + lia.
    + intros k e'. rewrite Hes, Hclk. case_decide; [intros [= <-]; cbn; lia|]. intros He'. specialize (Hu k e' He'). lia.
    + intros k e' He' _ _. rewrite Hes. case_decide as Hk; [|by exists e']. subst k. eexists. split; [done|]. cbn. congruence.
  - apply wp_bind. unfold wp, put. cbn [mret M_ret]. split; [|done].
    apply Hok; [split|intros k e He'; by exists e|done]; cbn; try done.
    + lia.
    + intros k e He'. specialize (Hu k e He'). lia.
Qed.

Lemma absent_unpinned c k : cache_inv c → cache_entries c !! k = None → pins c k = 0.
Proof.
  intros Hc Hk. pose proof (pins_nonneg c k). destruct (decide (0 < pins c k)) as [Hp|]; [|lia].
  apply (ci_pinned c Hc) in Hp as [e He]. congruence.
Qed.
Lemma same_buffers_sub c c' :
  (∀ k, cache_entries c' !! k = cache_entries c !! k ∨ pins c k = 0 ∨ pins c' k = 0) → same_buffers c c'.
Proof.
  intros Hs k e He Hp Hp'. destruct (Hs k) as [Hk|[?|?]]; [|lia|lia]. exists e. by rewrite Hk.
Qed.

Lemma keep_ok words value c :
  cache_inv c → cache_entries c !! words = None → step_ok (Keep words value) c (insert_in words value c).
Proof.
  intros Hc Hw. pose proof (absent_unpinned c words Hc Hw) as Hw0. rewrite insert_kept.
  destruct (disabled c); [split; [done|]; split; [intros k e ?; by exists e|done]|].
  pose proof Hc as [Hl Hp Hd Hclk Hu]. set (pin := pins_entries (cache_policy c)).
  assert (words ∉ pending c) as Hpd.
  { unfold pins in Hw0. pose proof (holders_nonneg (graph_locks c) words). case_decide; [lia|done]. }
  assert (∀ k, pins (kept words value c) k = pins c k + (if pin then if decide (k = words) then 1 else 0 else 0)) as Hpins.
  { intros k. unfold kept. fold pin. destruct pin; [|unfold pins; cbn; lia]. etrans; [|by apply pins_pending]. done. }
  assert (∀ k, cache_entries (kept words value c) !! k = if decide (k = words) then
    Some (mk_CacheEntry value (cache_clock c) (if pin then 1 else 0)) else cache_entries (made_room c) !! k) as Hes.
  { intros k. unfold kept. cbn. case_decide; [subst; apply lookup_insert_eq|by apply lookup_insert_ne]. }
  assert (∀ k, cache_entries (made_room c) !! k = cache_entries c !! k ∨
    cache_entries (made_room c) !! k = None ∧ pins c k = 0) as Hroom.
  { intros k. destruct (made_room_lookup c k) as [?|(? & e & He & H0)]; [by left|right]. split; [done|].
    by rewrite <- (Hl k e He). }
  split; [split|split; [|done]]; try done.
  - intros k e. rewrite Hes, Hpins. case_decide; [subst; intros [= <-]; cbn; rewrite Hw0; by destruct pin|].
    destruct (Hroom k) as [->|[-> _]]; [|done]. intros He. rewrite (Hl k e He). destruct pin; lia.
  - intros k. rewrite Hes, Hpins. case_decide; [by eexists|]. intros Hpos.
    assert (0 < pins c k) as Hk by (destruct pin; lia). destruct (Hroom k) as [->|[_ ?]]; [by apply Hp|lia].
  - intros k e. rewrite Hes. case_decide; [intros [= <-]; cbn; lia|]. destruct (Hroom k) as [->|[-> _]]; [apply Hu|done].
  - apply same_buffers_sub. intros k. rewrite Hes. case_decide; [subst; by right; left|].
    destruct (Hroom k) as [->|[_ ?]]; [by left|by right; left].
Qed.

Lemma commit_ok graph c :
  cache_inv c → graph_locks c !! graph = None → step_ok (Commit graph) c (commit_in graph c).
Proof.
  intros Hc Hg. pose proof Hc as [Hl Hp Hd Hclk Hu]. unfold step_ok, capture_commit. cbn.
  destruct (decide (pending c = ∅)) as [He|He]; [split; [done|]; split; [intros k e ?; by exists e|done]|].
  set (c' := with_graph_locks _ _). assert (∀ k, pins c' k = pins c k) as Hpins.
  { intros k. unfold pins. cbn. rewrite holders_insert by done. rewrite (decide_False (P := k ∈ ∅)) by set_solver.
    destruct (decide (k ∈ pending c)) as [Hk|Hk];
      [rewrite decide_True by by apply set_order_elem|rewrite decide_False by by rewrite set_order_elem]; lia. }
  split; [split|split; [|done]]; cbn; try done.
  - intros k e Hk. rewrite Hpins. by apply Hl.
  - intros k. rewrite Hpins. apply Hp.
  - intros g ks [[_ <-]|[_ Hks]]%lookup_insert_Some; [apply set_order_distinct|by eapply Hd].
  - apply same_buffers_sub. intros k. by left.
Qed.

Lemma unlock_all_lookup (es : gmap InfoCacheKey (CacheEntry V)) keys k :
  NoDup keys → foldl (λ es key, unlock key es) es keys !! k =
    if decide (k ∈ keys) then (λ e, mk_CacheEntry (entry_value e) (last_used e) (sat_sub (locks e) 1)) <$> es !! k
    else es !! k.
Proof.
  intros Hnd. apply (foldl_keys (λ es key, unlock key es)
    (fmap (λ e, mk_CacheEntry (entry_value e) (last_used e) (sat_sub (locks e) 1)))); [|done].
  intros. apply unlock_lookup.
Qed.
Lemma discard_ok c : cache_inv c → step_ok Discard c (discard_in c).
Proof.
  intros Hc. pose proof Hc as [Hl Hp Hd Hclk Hu]. unfold step_ok, capture_discard. set (c' := with_cache_entries _ _).
  assert (∀ k, pins c' k = pins c k - (if decide (k ∈ pending c) then 1 else 0)) as Hpins.
  { intros k. unfold pins. cbn. rewrite (decide_False (P := k ∈ ∅)) by set_solver. lia. }
  assert (∀ k, cache_entries c' !! k = if decide (k ∈ pending c) then
    (λ e, mk_CacheEntry (entry_value e) (last_used e) (sat_sub (locks e) 1)) <$> cache_entries c !! k
    else cache_entries c !! k) as Hes.
  { intros k. cbn. rewrite unlock_all_lookup by apply set_order_distinct.
    apply decide_ext, set_order_elem. }
  assert (∀ k, k ∈ pending c → 0 < pins c k) as Hpos.
  { intros k Hk. unfold pins. rewrite decide_True by done. pose proof (holders_nonneg (graph_locks c) k). lia. }
  split; [split|split; [|done]]; cbn; try done.
  - intros k e. rewrite Hes, Hpins. case_decide as Hk; [|intros He; rewrite (Hl k e He); lia].
    destruct (cache_entries c !! k) as [e0|] eqn:He0; [|done]. intros [= <-]. cbn. unfold sat_sub.
    rewrite (Hl k e0 He0). specialize (Hpos k Hk). lia.
  - intros k. rewrite Hes, Hpins. intros Hk. assert (0 < pins c k) as [e He]%Hp by (case_decide; lia). rewrite He. by case_decide.
  - intros k e. rewrite Hes. case_decide; [|apply Hu]. destruct (cache_entries c !! k) as [e0|] eqn:He0; [|done].
    intros [= <-]. cbn. by apply (Hu k).
  - intros k e He _ _. rewrite Hes, He. case_decide; by eexists.
Qed.

Lemma release_all_lookup (es : gmap InfoCacheKey (CacheEntry V)) keys k :
  NoDup keys → foldl release_key es keys !! k = if decide (k ∈ keys) then released (es !! k) else es !! k.
Proof. intros Hnd. apply foldl_keys; [|done]. intros. apply release_lookup. Qed.
Lemma release_ok graph c : cache_inv c → step_ok (Release graph) c (graph_release graph c).
Proof.
  intros Hc. pose proof Hc as [Hl Hp Hd Hclk Hu]. unfold step_ok, graph_release. cbn.
  destruct (graph_locks c !! graph) as [keys|] eqn:Hg.
  2: { rewrite delete_id by done. split; [done|]. split; [intros k e ?; by exists e|done]. }
  set (c' := with_cache_entries _ _). assert (∀ k, pins c' k = pins c k - (if decide (k ∈ keys) then 1 else 0)) as Hpins.
  { intros k. unfold pins. cbn. rewrite (holders_delete _ _ keys) by done. lia. }
  assert (∀ k, cache_entries c' !! k = if decide (k ∈ keys) then released (cache_entries c !! k) else cache_entries c !! k) as Hes.
  { intros k. cbn. apply release_all_lookup. by eapply Hd. }
  assert (∀ k e, k ∈ keys → cache_entries c !! k = Some e → 0 < locks e) as Hpos.
  { intros k e Hk He. rewrite (Hl k e He). unfold pins. pose proof (holders_pos _ _ _ _ Hg Hk). case_decide; lia. }
  assert (∀ k, match cache_entries c' !! k with
    | Some e' => ∃ e, cache_entries c !! k = Some e ∧ entry_value e' = entry_value e ∧ last_used e' = last_used e ∧
        locks e' = locks e - (if decide (k ∈ keys) then 1 else 0)
    | None => ∀ e, cache_entries c !! k = Some e → k ∈ keys ∧ locks e = 1
    end) as Hcell.
  { intros k. rewrite Hes. destruct (cache_entries c !! k) as [e|] eqn:He; [|by case_decide].
    case_decide as Hk; [|exists e; split_and!; try done; lia]. specialize (Hpos k e Hk He). cbn. unfold sat_sub.
    destruct (Z.eqb_spec (Z.max 0 (locks e - 1)) 0); [intros ? [= <-]; split; [done|lia]|].
    exists e. split_and!; try done. cbn. lia. }
  split; [split|split; [|done]]; try done.
  - intros k e' He'. specialize (Hcell k). rewrite He' in Hcell. destruct Hcell as (e & He & _ & _ & ->).
    by rewrite Hpins, (Hl k e He).
  - intros k. rewrite Hpins. intros Hk. assert (0 < pins c k) as [e He]%Hp by (case_decide; lia). specialize (Hcell k).
    destruct (cache_entries c' !! k); [by eexists|]. destruct (Hcell e He) as [Hin H1]. rewrite decide_True in Hk by done.
    rewrite (Hl k e He) in H1. lia.
  - intros g ks. change (graph_locks c') with (delete graph (graph_locks c)). intros [_ Hks]%lookup_delete_Some. by eapply Hd.
  - intros k e' He'. specialize (Hcell k). rewrite He' in Hcell. destruct Hcell as (e & He & _ & -> & _). by apply (Hu k).
  - intros k e He _ Hk. rewrite Hpins in Hk. specialize (Hcell k). destruct (cache_entries c' !! k) as [e'|].
    + destruct Hcell as (e0 & He0 & Hv & _). exists e'. split; [done|congruence].
    + destruct (Hcell e He) as [Hin H1]. rewrite decide_True in Hk by done. rewrite (Hl k e He) in H1. lia.
Qed.

Lemma clear_unpinned_lookup c k :
  cache_entries (clear_unpinned c) !! k =
    (e ← cache_entries c !! k; if decide (0 < locks e) then Some e else None).
Proof.
  cbn. rewrite map_lookup_filter. destruct (cache_entries c !! k) as [e|]; [|done]. cbn.
  destruct (decide (0 < locks e)); [by rewrite option_guard_True|by rewrite option_guard_False].
Qed.
Lemma clear_unpinned_ok c : cache_inv c → step_ok ClearUnpinned c (clear_unpinned c).
Proof.
  intros Hc. pose proof Hc as [Hl Hp Hd Hclk Hu].
  assert (∀ k e, cache_entries (clear_unpinned c) !! k = Some e ↔ cache_entries c !! k = Some e ∧ 0 < locks e) as Hes.
  { intros k e. rewrite clear_unpinned_lookup. destruct (cache_entries c !! k) as [e0|]; cbn; [|naive_solver].
    case_decide; naive_solver. }
  split; [split|split; [|done]]; try done.
  - intros k e [He _]%Hes. by apply Hl.
  - intros k Hk. destruct (Hp k Hk) as [e He]. exists e. apply Hes. split; [done|]. by rewrite (Hl k e He).
  - intros k e [He _]%Hes. by apply (Hu k).
  - intros k e He Hk _. exists e. split; [|done]. apply Hes. split; [done|]. by rewrite (Hl k e He).
Qed.

Lemma run_op_ok op c :
  cache_inv c → allowed op c → counts_fit c → wp (run_op op) c (λ _ c', step_ok op c c').
Proof.
  intros Hc Ha Hf. destruct op; cbn [run_op];
    try (apply wp_bind, wp_modify, wp_ret; first [by apply keep_ok|by apply commit_ok|by apply discard_ok
      |by apply release_ok|by apply clear_unpinned_ok]).
  apply wp_fmap. eapply wp_mono; [by apply look_ok|]. by intros r c' [? _].
Qed.

Lemma graph_pins c graph keys k : graph_locks c !! graph = Some keys → k ∈ keys → 0 < pins c k.
Proof. intros Hg Hk. unfold pins. pose proof (holders_pos _ _ _ _ Hg Hk). case_decide; lia. Qed.

(** *** What recordings and graphs hold, by the history alone

    A recording holds the buffers its launches used while it captured: those it
    found and those it had built.  A commit hands them to a graph. *)
Record Holding := mk_Holding {
  latest_mode : CacheMode;
  in_recording : gmap InfoCacheKey V;
  held_by : gmap GraphId (gmap InfoCacheKey V);
}.
Definition holding_new (p : MetadataCachePolicy) : Holding := mk_Holding (policy_mode p) ∅ ∅.
Definition record_use words value (h : Holding) : Holding :=
  match latest_mode h with
  | CaptureMode => mk_Holding CaptureMode (<[words := value]> (in_recording h)) (held_by h)
  | NormalMode => h
  end.
Definition observe (op : CacheOp V) (r : option (CacheLookup V)) (h : Holding) : Holding :=
  match op with
  | Look mode words =>
      let h := mk_Holding mode (in_recording h) (held_by h) in
      match r with Some (Hit value) => record_use words value h | _ => h end
  | Keep words value => record_use words value h
  | Commit graph => if decide (in_recording h = ∅) then h
                    else mk_Holding (latest_mode h) ∅ (<[graph := in_recording h]> (held_by h))
  | Discard => mk_Holding (latest_mode h) ∅ (held_by h)
  | Release graph => mk_Holding (latest_mode h) (in_recording h) (delete graph (held_by h))
  | ClearUnpinned => h
  end.
(** A buffer a recording or a graph holds, and how many do. *)
Definition holds (h : Holding) k value : Prop :=
  in_recording h !! k = Some value ∨ ∃ graph m, held_by h !! graph = Some m ∧ m !! k = Some value.
Definition holder_count (h : Holding) k : Z :=
  (if decide (is_Some (in_recording h !! k)) then 1 else 0) +
  Z.of_nat (size (filter (λ gm : GraphId * gmap InfoCacheKey V, is_Some (gm.2 !! k)) (held_by h))).

(** A server uses a new cache. *)
Inductive cache_run : Cache → Holding → Prop :=
| run_new p : cache_run (cache_new p) (holding_new p)
| run_more c h op r c' :
    cache_run c h → allowed op c → counts_fit c → run_op op c = Some (r, c') → cache_run c' (observe op r h).

(** The cache and the history agree. *)
Definition same_keys c (h : Holding) : Prop :=
  (∀ k, k ∈ pending c ↔ is_Some (in_recording h !! k)) ∧
  ∀ g, match graph_locks c !! g, held_by h !! g with
       | Some ks, Some m => ∀ k, k ∈ ks ↔ is_Some (m !! k)
       | None, None => True
       | _, _ => False
       end.
Record agree c (h : Holding) : Prop := mk_agree {
  ag_inv : cache_inv c;
  ag_mode : latest_mode h = policy_mode (cache_policy c);
  ag_keys : same_keys c h;
  ag_values k value : holds h k value → ∃ e, cache_entries c !! k = Some e ∧ entry_value e = value;
}.

Lemma agree_pins c h k : same_keys c h → pins c k = holder_count h k.
Proof.
  intros [Hp Hg]. unfold pins, holder_count.
  assert (holders (graph_locks c) k =
    Z.of_nat (size (filter (λ gm : GraphId * gmap InfoCacheKey V, is_Some (gm.2 !! k)) (held_by h)))) as Hs.
  { unfold holders. rewrite <- !size_dom. do 2 f_equal. apply set_eq. intros g. rewrite !elem_of_dom.
    unfold is_Some. setoid_rewrite map_lookup_filter_Some. specialize (Hg g). cbn [fst snd].
    destruct (graph_locks c !! g) as [ks|], (held_by h !! g) as [m|]; try done; [|naive_solver].
    specialize (Hg k). unfold is_Some in Hg. naive_solver. }
  rewrite Hs. rewrite (decide_ext _ _ _ _ (Hp k)). lia.
Qed.
Lemma holds_pinned c h k value : same_keys c h → holds h k value → 0 < pins c k.
Proof.
  intros [Hp Hg] Hh. unfold pins. pose proof (holders_nonneg (graph_locks c) k).
  destruct Hh as [Hr|(g & m & Hm & Hk)].
  - rewrite decide_True; [lia|]. apply Hp. by eexists.
  - specialize (Hg g). rewrite Hm in Hg. destruct (graph_locks c !! g) as [ks|] eqn:Hks; [|done].
    pose proof (holders_pos _ _ _ k Hks (proj2 (Hg k) (mk_is_Some _ _ Hk))). case_decide; lia.
Qed.

(** What an operation does to the mode and to the keys a recording pinned, and
    the buffer it answers or keeps. *)
Definition used (op : CacheOp V) (r : option (CacheLookup V)) : option (InfoCacheKey * V) :=
  match op, r with
  | Look _ words, Some (Hit value) => Some (words, value)
  | Keep words value, _ => Some (words, value)
  | _, _ => None
  end.
Definition mode_after (op : CacheOp V) c : CacheMode :=
  match op with Look mode _ => mode | _ => policy_mode (cache_policy c) end.
Definition pending_after (op : CacheOp V) (r : option (CacheLookup V)) c : gset InfoCacheKey :=
  match op with
  | Commit _ | Discard => ∅
  | _ => match mode_after op c, used op r with
         | CaptureMode, Some (words, _) => {[words]} ∪ pending c
         | _, _ => pending c
         end
  end.
Lemma run_op_marks op c r c' : run_op op c = Some (r, c') →
  policy_mode (cache_policy c') = mode_after op c ∧ pending c' = pending_after op r c ∧
  (∀ words value, mode_after op c = CaptureMode → used op r = Some (words, value) →
     ∃ e, cache_entries c' !! words = Some e ∧ entry_value e = value).
Proof.
  destruct op as [mode words|words value|g| |g|]; cbn [run_op].
  - unfold cache_lookup, cache_get, mbind, M_bind, fmap, M_fmap. cbn. set (c1 := set_cache_mode mode c).
    destruct (negb (should_cache c1 (words_size words))); cbn; [intros [= <- <-]; cbn; by destruct mode|].
    destruct (add_u64 (cache_clock c) 1) as [n|]; cbn; [|done]. unfold pins_entries. cbn.
    destruct (cache_entries c !! words) as [e|]; cbn; [|intros [= <- <-]; cbn; by destruct mode].
    destruct mode; cbn.
    + rewrite bool_decide_eq_false_2 by done. cbn. intros [= <- <-]. done.
    + rewrite bool_decide_eq_true_2 by done. cbn. destruct (bool_decide (words ∈ pending c)) eqn:Hin; cbn.
      * apply bool_decide_eq_true in Hin. intros [= <- <-]. cbn. split; [done|]. split; [set_solver|].
        intros ? ? _ [= <- <-]. rewrite lookup_insert_eq. by eexists.
      * destruct (decide (locks e + 1 <= u32_max)); cbn; [|done]. intros [= <- <-]. cbn. split; [done|]. split; [done|].
        intros ? ? _ [= <- <-]. rewrite lookup_insert_eq. by eexists.
  - unfold mbind, M_bind. cbn. intros [= <- <-]. rewrite insert_kept. unfold disabled, policy_capacity, kept, pins_entries.
    destruct (policy_mode (cache_policy c)) eqn:Hm; cbn.
    + destruct (bool_decide _); cbn; rewrite ?Hm; [done|]. by rewrite bool_decide_eq_false_2.
    + rewrite (bool_decide_eq_false_2 (None = Some 0)) by done. cbn. rewrite Hm, bool_decide_eq_true_2 by done. split; [done|]. split; [done|].
      intros ? ? _ [= <- <-]. rewrite lookup_insert_eq. by eexists.
  - unfold mbind, M_bind. cbn. intros [= <- <-]. unfold capture_commit. case_decide; cbn; [|done]. done.
  - unfold mbind, M_bind. cbn. intros [= <- <-]. done.
  - unfold mbind, M_bind. cbn. intros [= <- <-]. unfold graph_release. destruct (graph_locks c !! g); cbn; by destruct (policy_mode _).
  - unfold mbind, M_bind. cbn. intros [= <- <-]. by destruct (policy_mode _).
Qed.
Lemma pending_empty c h : same_keys c h → pending c = ∅ ↔ in_recording h = ∅.
Proof.
  intros [Hp _]. rewrite map_empty. rewrite set_eq.
  split; intros He k.
  - apply eq_None_not_Some. rewrite <- Hp, He. set_solver.
  - rewrite Hp, He. split; [by intros [? ?]|set_solver].
Qed.
Lemma record_use_keys words value h :
  (∀ k, is_Some (in_recording (record_use words value h) !! k) ↔
     k ∈ (match latest_mode h with CaptureMode => {[words]} | NormalMode => ∅ end : gset InfoCacheKey) ∨ is_Some (in_recording h !! k)) ∧
  held_by (record_use words value h) = held_by h ∧ latest_mode (record_use words value h) = latest_mode h.
Proof.
  unfold record_use. destruct (latest_mode h) eqn:Hm; cbn; (split; [|done]); intros k; [set_solver|].
  rewrite lookup_insert_is_Some. destruct (decide (words = k)); set_solver.
Qed.
Lemma record_use_holds words value h k v :
  holds (record_use words value h) k v → holds h k v ∨ latest_mode h = CaptureMode ∧ k = words ∧ v = value.
Proof.
  unfold record_use, holds. destruct (latest_mode h) eqn:Hm; cbn; [by left|].
  intros [[[-> ->]|[? ?]]%lookup_insert_Some|?]; [by right|by left; left|by left; right].
Qed.
Lemma observe_holds op r c h k v :
  agree c h → holds (observe op r h) k v → holds h k v ∨ mode_after op c = CaptureMode ∧ used op r = Some (k, v).
Proof.
  intros Ha. destruct op as [mode words|words value|g| |g|]; cbn.
  - destruct r as [[value|]|]; [|by left..]. intros [?|(? & -> & ->)]%record_use_holds; [by left|by right].
  - intros [?|(Hm & -> & ->)]%record_use_holds; [by left|right]. by rewrite <- (ag_mode _ _ Ha).
  - case_decide; [by left|]. unfold holds; cbn. intros [?|(g' & m & [[_ <-]|[_ Hm]]%lookup_insert_Some & Hk)]; [done| |]; left; [by left|right].
    by exists g', m.
  - unfold holds; cbn. intros [?|?]; [done|]. left. by right.
  - unfold holds; cbn. intros [?|(g' & m & [_ Hm]%lookup_delete_Some & Hk)]; left; [by left|right]. by exists g', m.
  - by left.
Qed.
Lemma observe_keys op r c c' h :
  agree c h → pending c' = pending_after op r c → graph_locks c' = locks_after op c → same_keys c' (observe op r h).
Proof.
  intros Ha Hp Hl. pose proof (ag_mode _ _ Ha) as Hm. pose proof (ag_keys _ _ Ha) as Hsk. pose proof Hsk as [Hk Hg].
  pose proof (pending_empty _ _ Hsk) as He. unfold same_keys. rewrite Hp, Hl.
  assert (∀ words value m, m = latest_mode h →
    ∀ k, k ∈ match m with CaptureMode => {[words]} ∪ pending c | NormalMode => pending c end ↔
    is_Some (in_recording (record_use words value h) !! k)) as Huse.
  { intros words value m -> k. destruct (record_use_keys words value h) as (-> & _ & _). rewrite <- Hk.
    destruct (latest_mode h); set_solver. }
  destruct op as [mode words|words value|g| |g|]; cbn.
  - destruct r as [[value|]|]; cbn; [|destruct mode; by split..]. set (h' := mk_Holding mode (in_recording h) (held_by h)).
    destruct (record_use_keys words value h') as (Hr & -> & _). split; [|done].
    intros k. rewrite Hr. change (in_recording h') with (in_recording h). rewrite <- Hk. cbn. destruct mode; set_solver.
  - destruct (record_use_keys words value h) as (_ & -> & _). split; [|done]. intros k. unfold mode_after. by apply Huse.
  - split.
    + intros k. case_decide as Hr; [rewrite Hr|]; cbn; rewrite lookup_empty; split; (set_solver || by intros []).
    + rewrite (decide_ext _ _ _ _ He). case_decide; [done|]. cbn. intros g'. destruct (decide (g = g')) as [<-|Hne].
      * rewrite !lookup_insert_eq. intros k. by rewrite set_order_elem.
      * rewrite !lookup_insert_ne by done. apply Hg.
  - split; [|done]. intros k. rewrite lookup_empty. split; (set_solver || by intros []).
  - split; [intros k; destruct (policy_mode _); apply Hk|]. intros g'. destruct (decide (g = g')) as [<-|Hne].
    + by rewrite !lookup_delete_eq.
    + rewrite !lookup_delete_ne by done. apply Hg.
  - split; [|done]. intros k. destruct (policy_mode _); apply Hk.
Qed.
Lemma agree_step op r c c' h :
  agree c h → allowed op c → counts_fit c → run_op op c = Some (r, c') → agree c' (observe op r h).
Proof.
  intros Ha Hal Hf Hr. pose proof (run_op_ok op c (ag_inv _ _ Ha) Hal Hf) as Hok. unfold wp in Hok. rewrite Hr in Hok.
  destruct Hok as (Hi & Hs & Hl), (run_op_marks _ _ _ _ Hr) as (Hm & Hp & Hu).
  pose proof (observe_keys _ _ _ _ _ Ha Hp Hl) as Hk. split; [done| |done|].
  - rewrite Hm. pose proof (ag_mode _ _ Ha) as Hmode. destruct op as [mode words|words value| | | |]; cbn; try done.
    + destruct r as [[value|]|]; [|done..]. by destruct (record_use_keys words value (mk_Holding mode (in_recording h) (held_by h))) as (_ & _ & ->).
    + by destruct (record_use_keys words value h) as (_ & _ & ->).
    + by case_decide.
  - intros k v Hh. destruct (observe_holds _ _ _ _ _ _ Ha Hh) as [Hb|[Hc Hus]]; [|by apply Hu].
    destruct (ag_values _ _ Ha k v Hb) as (e & He & <-).
    exact (Hs k e He (holds_pinned _ _ _ _ (ag_keys _ _ Ha) Hb) (holds_pinned _ _ _ _ Hk Hh)).
Qed.
Lemma cache_run_agrees c h : cache_run c h → agree c h.
Proof.
  induction 1 as [p|c h op r c' _ IH Hal Hf Hr]; [|by eapply agree_step].
  split; [apply cache_new_inv|done| |].
  - split; [intros k; cbn; rewrite lookup_empty; split; [set_solver|by intros []]|done].
  - intros k v [Hh|(? & ? & Hh & _)]; cbn in Hh; by rewrite lookup_empty in Hh.
Qed.

(** C14: a graph replays against the buffers it recorded.  A server starts
    from an empty cache and uses it in any way, with cleanups, evictions,
    discarded captures and the releases of graphs, provided it keeps a buffer
    only for words that are not cached, gives each live graph an id of its own,
    and the clock and the number of the graphs fit their types.  Then every
    buffer that the launches of the recording used, and every buffer of the
    recording of a graph that was not released since, is cached under its words
    and is the very buffer that was used; every entry counts as many locks as
    there are such holders; and the next use does not panic. *)
Theorem pinned_until_released c h :
  cache_run c h →
  (∀ k value, holds h k value → ∃ e, cache_entries c !! k = Some e ∧ entry_value e = value) ∧
  (∀ k e, cache_entries c !! k = Some e → locks e = holder_count h k) ∧
  ∀ op, allowed op c → counts_fit c → ∃ r c', run_op op c = Some (r, c').
Proof.
  intros Hr%cache_run_agrees. split; [apply Hr|]. split.
  - intros k e He. rewrite (ci_locks _ (ag_inv _ _ Hr) _ _ He). apply agree_pins, Hr.
  - intros op Ha Hf. pose proof (run_op_ok op c (ag_inv _ _ Hr) Ha Hf) as Hok. apply wp_spec in Hok as (r & c2 & Hrun & _). eauto.
Qed.

(** What a release frees: the entries of the graph that nothing else pins, and
    no other. *)
Lemma graph_release_frees c graph keys k e :
  cache_inv c → graph_locks c !! graph = Some keys → cache_entries c !! k = Some e →
  cache_entries (graph_release graph c) !! k = None ↔ k ∈ keys ∧ pins c k = 1.
Proof.
  intros Hc Hg He. unfold graph_release. rewrite Hg. cbn. rewrite release_all_lookup by by eapply ci_distinct.
  pose proof (ci_locks c Hc k e He) as Hl. case_decide as Hk; rewrite He; [|naive_solver].
  pose proof (graph_pins _ _ _ k Hg Hk). cbn. unfold sat_sub. destruct (Z.eqb_spec (Z.max 0 (locks e - 1)) 0); naive_solver lia.
Qed.

Definition has_unpinned c : bool := bool_decide (lru_victim entry_order (cache_entries c) ≠ None).
Lemma has_unpinned_spec c : has_unpinned c = true ↔ ∃ k e, cache_entries c !! k = Some e ∧ locks e = 0.
Proof.
  unfold has_unpinned. rewrite bool_decide_eq_true. pose proof (lru_victim_spec (cache_entries c)) as Hv.
  destruct (lru_victim _ _) as [k|]; [destruct Hv as (e & ? & ? & _)|]; split; try done; [by eauto|].
  intros (k & e & He & H0). by destruct (Hv k e He).
Qed.

(** The cache is bounded and forgets the least recently used buffer.  In
    normal operation a buffer that is kept is found again by its words; when
    the cache is full it takes the place of the least recently used of the
    buffers no graph pins, and of no other; the cache grows at its bound only
    when every buffer is pinned. *)
Theorem store_evicts_lru words value c :
  cache_inv c → cache_entries c !! words = None → policy_mode (cache_policy c) = NormalMode →
  0 < max_entries (cache_policy c) → counts_fit c →
  let c' := cache_store entry_order words value c in
  cache_entries c' !! words = Some (mk_CacheEntry value (cache_clock c) 0) ∧
  (∀ k, k ≠ words → cache_entries c' !! k = cache_entries c !! k ∨
     cache_entries c' !! k = None ∧ max_entries (cache_policy c) <= cache_len c ∧
     ∃ e, cache_entries c !! k = Some e ∧ locks e = 0 ∧
       ∀ k' e', cache_entries c !! k' = Some e' → locks e' = 0 → last_used e <= last_used e') ∧
  cache_len c' = cache_len c + (if (max_entries (cache_policy c) <=? cache_len c) && has_unpinned c then 0 else 1) ∧
  (words_size words <= max_cached_size (cache_policy c) →
     wp (cache_lookup NormalMode words) c' (λ r _, r = Hit value)).
Proof.
  intros Hc Hw Hm Hcap [Hclk Hsize] c'. destruct (keep_ok words value c Hc Hw) as (Hc' & _ & _).
  change (cache_inv c') in Hc'. assert (policy_capacity (cache_policy c) = Some (max_entries (cache_policy c))) as Hcp
    by (unfold policy_capacity; by rewrite Hm).
  assert (c' = kept words value c) as Heq.
  { unfold c', cache_store. rewrite insert_kept. unfold disabled. rewrite bool_decide_eq_false_2; [done|]. rewrite Hcp. intros [= H0]. lia. }
  assert (cache_entries c' = <[words := mk_CacheEntry value (cache_clock c) 0]> (cache_entries (made_room c))) as Hes.
  { rewrite Heq. unfold kept, pins_entries. cbn. rewrite Hm. done. }
  assert (cache_policy c' = cache_policy c ∧ cache_clock c' = cache_clock c) as [Hpol Hck] by by rewrite Heq.
  unfold made_room, evict_least_recently_used in Hes. rewrite Hcp in Hes.
  pose proof (lru_victim_spec (cache_entries c)) as Hv. unfold has_unpinned.
  assert (cache_entries c' !! words = Some (mk_CacheEntry value (cache_clock c) 0)) as Hhit by by rewrite Hes, lookup_insert_eq.
  split; [done|]. split; [|split].
  - intros k Hk. rewrite Hes, lookup_insert_ne by done.
    destruct (Z.leb_spec (max_entries (cache_policy c)) (cache_len c)); [|by left].
    destruct (lru_victim entry_order (cache_entries c)) as [v|]; [|by left]. cbn.
    destruct (decide (k = v)) as [->|Hne]; [right; by rewrite lookup_delete_eq|left; by rewrite lookup_delete_ne].
  - unfold cache_len. rewrite Hes. destruct (Z.leb_spec (max_entries (cache_policy c)) (cache_len c)) as [Hfull|Hfree]; cbn [andb].
    + destruct (lru_victim entry_order (cache_entries c)) as [v|]; cbn.
      * destruct Hv as (e & He & _). rewrite map_size_insert_None.
        { rewrite map_size_delete_Some by by eexists. pose proof (map_size_ne_0_lookup_2 (cache_entries c) v ltac:(by eexists)).
          unfold cache_len in Hfull. rewrite (proj2 (Z.leb_le _ _)) by done. cbn. lia. }
        rewrite lookup_delete_ne; [done|]. intros ->. congruence.
      * rewrite map_size_insert_None, andb_false_r by done. lia.
    + unfold cache_len in Hfree. rewrite map_size_insert_None, (proj2 (Z.leb_gt _ _)) by done. cbn. lia.
  - intros Hfit. unfold cache_lookup. apply wp_bind, wp_modify, wp_bind. unfold wp at 1. cbn [get].
    unfold should_cache, policy_should_cache. cbn [policy_mode policy_set_mode cache_policy set_cache_mode with_cache_policy max_entries max_cached_size].
    rewrite Hpol, (proj2 (Z.ltb_lt _ _)), (proj2 (Z.leb_le _ _)) by done. cbn [andb negb]. apply wp_bind.
    unfold cache_get. apply wp_bind. unfold wp at 1. cbn [get]. apply wp_bind. cbn [cache_clock set_cache_mode with_cache_policy].
    eapply wp_lift; [rewrite Hck; apply add_u64_Some; lia|]. cbn [cache_entries with_clock set_cache_mode with_cache_policy].
    rewrite Hhit. unfold pins_entries. cbn. done.
Qed.
End specs.

(** ** Witnesses *)
Section witnesses.
Abbreviation entry_list := (λ es : gmap InfoCacheKey (CacheEntry Z), map_to_list es).
Abbreviation key_list := (λ s : gset InfoCacheKey, elements s).

(** A buffer is built while the graph 7 records; then another one takes the
    only place of the cache that is not pinned. *)
Definition example_ops : list (CacheOp Z) :=
  [Look CaptureMode [1; 2]; Keep [1; 2] 10; Commit 7; Look NormalMode [3]; Keep [3] 30; Look CaptureMode [1; 2]].
Fixpoint run_all (ops : list (CacheOp Z)) (c : MetadataInfoCache Z) (h : Holding) : option (MetadataInfoCache Z * Holding) :=
  match ops with
  | [] => Some (c, h)
  | op :: ops => '(r, c) ← run_op entry_list key_list op c; run_all ops c (observe op r h)
  end.
Fixpoint all_allowed (ops : list (CacheOp Z)) (c : MetadataInfoCache Z) : bool :=
  match ops with
  | [] => true
  | op :: ops =>
      match op with
      | Keep words _ => bool_decide (cache_entries c !! words = None)
      | Commit graph => bool_decide (graph_locks c !! graph = None)
      | _ => true
      end && (cache_clock c <? u64_max) && (Z.of_nat (size (graph_locks c)) <? u32_max) &&
      match run_op entry_list key_list op c with Some (_, c) => all_allowed ops c | None => false end
  end.
Lemma run_all_runs ops c h c' h' : cache_run entry_list key_list c h → all_allowed ops c = true →
  run_all ops c h = Some (c', h') → cache_run entry_list key_list c' h'.
Proof.
  revert c h. induction ops as [|op ops IH]; intros c h Hc Ha Hr; cbn in *; [by injection Hr as <- <-|].
  destruct (run_op entry_list key_list op c) as [[r c1]|] eqn:Ho; [|done].
  apply andb_true_iff in Ha as [[[Hop H1%Z.ltb_lt]%andb_true_iff H2%Z.ltb_lt]%andb_true_iff Hrest].
  eapply IH; [|exact Hrest|exact Hr]. eapply run_more; [exact Hc| |by split|exact Ho].
  destruct op; cbn in *; try done; by apply bool_decide_eq_true in Hop.
Qed.

Lemma pinned_until_released_witness :
  ∃ c h, run_all example_ops (cache_new (policy_new 1 64)) (holding_new (policy_new 1 64)) = Some (c, h) ∧
    ∃ e, cache_entries c !! [1; 2] = Some e ∧ entry_value e = 10 ∧ locks e = 2.
Proof.
  destruct (run_all example_ops (cache_new (policy_new 1 64)) (holding_new (policy_new 1 64))) as [[c h]|] eqn:Hr;
    [|vm_compute in Hr; discriminate]. exists c, h. split; [reflexivity|].
  destruct (pinned_until_released entry_list key_list (λ _, reflexivity _) (λ _, reflexivity _) c h) as (Hv & Hn & _).
  - eapply run_all_runs; [apply run_new| |exact Hr]. vm_compute. reflexivity.
  - vm_compute in Hr. injection Hr as <- <-. destruct (Hv [1; 2] 10) as (e & He & Hval); [by left|].
    exists e. split; [exact He|]. split; [exact Hval|]. rewrite (Hn _ _ He). vm_compute. reflexivity.
Defined.

Lemma store_evicts_lru_witness :
  let c := mk_MetadataInfoCache {[ [1] := mk_CacheEntry 10 3 0; [2] := mk_CacheEntry 20 5 0 ]} (policy_new 2 64) 6 ∅ ∅ in
  cache_entries (cache_store entry_list [3] 30 c) !! [1] = None ∧ cache_len (cache_store entry_list [3] 30 c) = 2.
Proof.
  intros c. destruct (store_evicts_lru entry_list key_list (λ _, reflexivity _) (λ _, reflexivity _) [3] 30 c)
    as (_ & Hk & Hlen & _).
  - split; cbn; try lia; try done.
    + intros k e [[<- <-]|[_ [<- <-]%lookup_singleton_Some]]%lookup_insert_Some; done.
    + intros k e [[<- <-]|[_ [<- <-]%lookup_singleton_Some]]%lookup_insert_Some; cbn; lia.
  - reflexivity.
  - reflexivity.
  - reflexivity.
  - vm_compute. split; reflexivity.
  - split; [reflexivity|]. rewrite Hlen. reflexivity.
Defined.
End witnesses.
