(* ===== verification/Capture.v ===== *)
(** * The capture of a graph on a stream

    [cubecl-server/src/stream/capture.rs]: where a stream sits in the life of a
    graph capture, what its window records, and the count of the streams of a
    device that record, by which every stream knows what its reservations may
    do to the pages.  Host memory is held by value; its type is a parameter. *)

From S2P Require Export Effects MetadataCache.
From S2P Require Import Streams.
From stdpp Require Import list strings sorting.
#[local] Open Scope Z_scope.

(** ** The life of a capture *)
Inductive StreamCaptureState :=
| NoCapture
| Prepare (owner : StreamId)
| Capture (owner : StreamId).
#[global] Instance StreamCaptureState_eq_dec : EqDecision StreamCaptureState.
Proof. solve_decision. Defined.
Inductive CaptureEnd := Owned (owner : StreamId) | Abandoned (owner : StreamId).

Definition end_owner (e : CaptureEnd) : StreamId := match e with Owned owner | Abandoned owner => owner end.
Definition is_abandoned (e : CaptureEnd) : bool := match e with Abandoned _ => true | Owned _ => false end.
(** The formatted stream ids are left out of the text. *)
Definition abandoned_error (e : CaptureEnd) (caller : StreamId) (doomed : option ServerError) : ServerError :=
  Several (Generic "end_capture: the capture belongs to another logical stream; it is discarded" ::
           option_list doomed).

Definition state_recording (s : StreamCaptureState) : bool := match s with Capture _ => true | _ => false end.
Definition state_active (s : StreamCaptureState) : bool := match s with NoCapture => false | _ => true end.
Definition state_owner (s : StreamCaptureState) : option StreamId :=
  match s with NoCapture => None | Prepare owner | Capture owner => Some owner end.
Definition state_cache_mode (s : StreamCaptureState) : CacheMode :=
  match s with NoCapture => NormalMode | Prepare _ | Capture _ => CaptureMode end.
Definition state_prepare (s : StreamCaptureState) (owner : StreamId) : result StreamCaptureState ServerError :=
  match s with
  | NoCapture => Ok (Prepare owner)
  | Prepare _ => Err (Generic "graph_prepare: a graph capture is already prepared on this stream")
  | Capture _ => Err (Generic "graph_prepare: a graph capture is already recording on this stream")
  end.
Definition state_begin (s : StreamCaptureState) : result StreamCaptureState ServerError :=
  match s with
  | Prepare owner => Ok (Capture owner)
  | NoCapture => Err (Generic "begin_capture: call graph_prepare before starting a capture")
  | Capture _ => Err (Generic "begin_capture: a graph capture is already recording on this stream")
  end.
Definition state_end (s : StreamCaptureState) (caller : StreamId) : result (CaptureEnd * StreamCaptureState) ServerError :=
  match s with
  | Capture owner => Ok (if decide (owner = caller) then Owned owner else Abandoned owner, NoCapture)
  | NoCapture | Prepare _ => Err (Generic "end_capture: no graph capture is recording on this stream")
  end.
Definition state_abort (_ : StreamCaptureState) : StreamCaptureState := NoCapture.

(** ** What a window keeps *)

(** The fields of the binding, which is not owned. *)
Record WeakBufferBinding := mk_WeakBufferBinding { weak_binding : BufferBinding }.
Record TouchedPage := mk_TouchedPage { touched_stream : StreamId; touched_location : MemoryLocation }.
#[global] Instance TouchedPage_eq_dec : EqDecision TouchedPage.
Proof. solve_decision. Defined.

Record StreamCapture (HostBytes : Type) := mk_StreamCapture {
  capture_state : StreamCaptureState;
  recorded : list WeakBufferBinding;
  touched : list TouchedPage;
  primed : list ManagedMemoryId;
  retained_host : list HostBytes;
  capture_failed : option ServerError;
}.
Arguments mk_StreamCapture {HostBytes}. Arguments capture_state {HostBytes}. Arguments recorded {HostBytes}.
Arguments touched {HostBytes}. Arguments primed {HostBytes}. Arguments retained_host {HostBytes}.
Arguments capture_failed {HostBytes}.

(** [BufferBinding::claim_key]: the allocation and the range. *)
Definition claim_key (b : BufferBinding) : option (list Z) :=
  r ← binding_range b; Some [binding_memory b; r.1; r.2].
Definition downgrade (b : BufferBinding) : WeakBufferBinding := mk_WeakBufferBinding b.
Definition weak_upgrade (b : WeakBufferBinding) : M Memory (option BufferBinding) :=
  r ← upgrade (binding_memory (weak_binding b)); mret ((λ _, weak_binding b) <$> r).

(** The derived order: by the fields, in their order. *)
Definition touched_key (t : TouchedPage) : list Z :=
  let l := touched_location t in [touched_stream t; Handle.pool l; Handle.page l; Handle.slice l; init l].
Fixpoint lex_le (l k : list Z) : bool :=
  match l, k with
  | [], _ => true
  | _, [] => false
  | x :: l, y :: k => (x <? y) || (x =? y) && lex_le l k
  end.
Definition key_le {A} (key : A → list Z) : relation A := λ x y, lex_le (key x) (key y).
#[global] Instance key_le_dec {A} (key : A → list Z) x y : Decision (key_le key x y).
Proof. apply _. Defined.

(** [Vec::dedup_by_key]: what is kept, and what is dropped, in order. *)
Fixpoint dedup_from {A} (key : A → list Z) (x : A) (l : list A) : list A * list A :=
  match l with
  | [] => ([x], [])
  | y :: l => if decide (key x = key y) then let '(kept, dropped) := dedup_from key x l in (kept, y :: dropped)
              else let '(kept, dropped) := dedup_from key y l in (x :: kept, dropped)
  end.
Definition dedup_by_key {A} (key : A → list Z) (l : list A) : list A * list A :=
  match l with [] => ([], []) | x :: l => dedup_from key x l end.

(** ** The operations

    A capture shares the count of the recording streams with the captures of
    the other streams of its device, and the store of descriptors with
    everyone. *)
Record CaptureEnv (HostBytes : Type) := mk_CaptureEnv {
  env_store : Memory;
  device_recording : Z;   (* the AtomicUsize of DeviceRecording *)
  env_capture : StreamCapture HostBytes;
}.
Arguments mk_CaptureEnv {HostBytes}. Arguments env_store {HostBytes}. Arguments device_recording {HostBytes}.
Arguments env_capture {HostBytes}.

(** [DeviceRecording] *)
Definition recording_any (n : Z) : bool := 0 <? n.
Definition recording_enter (n : Z) : Z := (n + 1) mod 2 ^ 64.
Definition recording_leave (n : Z) : Z := (n - 1) mod 2 ^ 64.

Section capture.
Context {HostBytes : Type}.
Implicit Types (c : StreamCapture HostBytes).
Abbreviation Env := (CaptureEnv HostBytes).

Definition capture_new : StreamCapture HostBytes := mk_StreamCapture NoCapture [] [] [] [] None.

Definition on_store {A} (m : M Memory A) : M Env A := λ s,
  match m (env_store s) with
  | Some (a, st) => Some (a, mk_CaptureEnv st (device_recording s) (env_capture s))
  | None => None
  end.
Definition set_capture (c : StreamCapture HostBytes) : M Env unit := modify (λ s,
  mk_CaptureEnv (env_store s) (device_recording s) c).
Definition set_recording (f : Z → Z) : M Env unit := modify (λ s,
  mk_CaptureEnv (env_store s) (f (device_recording s)) (env_capture s)).
Definition with_state (st : StreamCaptureState) c : StreamCapture HostBytes :=
  mk_StreamCapture st (recorded c) (touched c) (primed c) (retained_host c) (capture_failed c).
Definition with_recorded (l : list WeakBufferBinding) c : StreamCapture HostBytes :=
  mk_StreamCapture (capture_state c) l (touched c) (primed c) (retained_host c) (capture_failed c).
Definition with_touched (l : list TouchedPage) c : StreamCapture HostBytes :=
  mk_StreamCapture (capture_state c) (recorded c) l (primed c) (retained_host c) (capture_failed c).
Definition with_primed (l : list ManagedMemoryId) c : StreamCapture HostBytes :=
  mk_StreamCapture (capture_state c) (recorded c) (touched c) l (retained_host c) (capture_failed c).
Definition with_retained (l : list HostBytes) c : StreamCapture HostBytes :=
  mk_StreamCapture (capture_state c) (recorded c) (touched c) (primed c) l (capture_failed c).
Definition with_failed (e : option ServerError) c : StreamCapture HostBytes :=
  mk_StreamCapture (capture_state c) (recorded c) (touched c) (primed c) (retained_host c) e.

Definition capture_recording c : bool := state_recording (capture_state c).
Definition capture_active c : bool := state_active (capture_state c).
Definition capture_owner c : option StreamId := state_owner (capture_state c).
Definition capture_cache_mode c : CacheMode := state_cache_mode (capture_state c).
Definition any_recording : M Env bool := gets (λ s, recording_any (device_recording s)).

Fixpoint drop_bindings (l : list ManagedMemoryId) : M Memory unit :=
  match l with
  | [] => mret tt
  | id :: l => _ ← binding_drop id; drop_bindings l
  end.

(** The only caller lends clones, each dropped as it is downgraded. *)
Definition record_into (buffers : list BufferBinding) c : StreamCapture HostBytes :=
  if capture_recording c then with_recorded (recorded c ++ (downgrade <$> buffers)) c else c.
Definition capture_record (buffers : list BufferBinding) : M Env unit :=
  c ← gets env_capture; set_capture (record_into buffers c).
Definition capture_touch (stream : StreamId) (location : MemoryLocation) : M Env unit :=
  c ← gets env_capture;
  if capture_recording c then set_capture (with_touched (touched c ++ [mk_TouchedPage stream location]) c) else mret tt.
Definition take_touched : M Env (list TouchedPage) :=
  c ← gets env_capture;
  _ ← set_capture (with_touched [] c);
  mret (dedup_by_key touched_key (merge_sort (key_le touched_key) (touched c))).1.
Definition page_update : M Env PageUpdate :=
  c ← gets env_capture;
  any ← any_recording;
  mret (match capture_recording c, any with
        | true, _ => Forbidden
        | false, true => AddOnly
        | false, false => Allow
        end).
Definition capture_prime (staging : ManagedMemoryId) : M Env unit :=
  c ← gets env_capture;
  match capture_state c with
  | Prepare _ => _ ← on_store (binding_clone staging); set_capture (with_primed (primed c ++ [staging]) c)
  | _ => mret tt
  end.

Fixpoint upgrade_all (l : list WeakBufferBinding) : M Memory (list BufferBinding) :=
  match l with
  | [] => mret []
  | b :: l => r ← weak_upgrade b; rest ← upgrade_all l;
              mret (match r with Some b => b :: rest | None => rest end)
  end.
(** [sort_unstable_by_key] may leave equal keys in any order; neither it nor
    [dedup_by_key] looks at the key of a list of one. *)
Context (sort_unstable : list (list Z * BufferBinding) → list (list Z * BufferBinding)).
Definition take_recorded : M Env (list BufferBinding) :=
  c ← gets env_capture;
  _ ← set_capture (with_recorded [] c);
  l ← on_store (upgrade_all (recorded c));
  match l with
  | [] | [_] => mret l
  | _ =>
      keyed ← lift (mapM (λ b, key ← claim_key b; Some (key, b)) l);
      let '(kept, dropped) := dedup_by_key fst (sort_unstable keyed) in
      _ ← on_store (drop_bindings ((λ kb : list Z * BufferBinding, binding_memory kb.2) <$> dropped));
      mret (snd <$> kept)
  end.

Definition fail_into (error : ServerError) c : StreamCapture HostBytes :=
  if capture_recording c && bool_decide (capture_failed c = None) then with_failed (Some error) c else c.
Definition capture_fail (error : ServerError) : M Env unit :=
  c ← gets env_capture; set_capture (fail_into error c).
(** The [debug_assert!] is a panic. *)
Definition capture_retain_host (bytes : HostBytes) : M Env unit :=
  c ← gets env_capture;
  if capture_recording c then set_capture (with_retained (retained_host c ++ [bytes]) c) else panic.
Definition take_retained_host : M Env (list HostBytes) :=
  c ← gets env_capture; _ ← set_capture (with_retained [] c); mret (retained_host c).
Definition take_failure : M Env (option ServerError) :=
  c ← gets env_capture; _ ← set_capture (with_failed None c); mret (capture_failed c).

Definition capture_clear : M Env unit :=
  c ← gets env_capture;
  _ ← on_store (drop_bindings (primed c));
  set_capture (mk_StreamCapture (capture_state c) [] [] [] [] None).
Definition capture_prepare (owner : StreamId) : M Env (result unit ServerError) :=
  c ← gets env_capture;
  match state_prepare (capture_state c) owner with
  | Err e => mret (Err e)
  | Ok st => _ ← set_capture (with_state st c); _ ← capture_clear; mret (Ok tt)
  end.
Definition capture_begin : M Env (result unit ServerError) :=
  c ← gets env_capture;
  match state_begin (capture_state c) with
  | Err e => mret (Err e)
  | Ok st =>
      _ ← set_recording recording_enter;
      _ ← on_store (drop_bindings (primed c));
      _ ← set_capture (with_primed [] (with_state st c));
      mret (Ok tt)
  end.
Definition capture_end (caller : StreamId) : M Env (result CaptureEnd ServerError) :=
  c ← gets env_capture;
  match state_end (capture_state c) caller with
  | Err e => mret (Err e)
  | Ok (end_, st) =>
      _ ← set_capture (with_state st c);
      _ ← set_recording recording_leave;
      mret (Ok end_)
  end.
Definition capture_abort : M Env unit :=
  c ← gets env_capture;
  _ ← (if capture_recording c then set_recording recording_leave else mret tt);
  _ ← set_capture (with_state (state_abort (capture_state c)) c);
  capture_clear.
(** [Drop], then the drop of the fields. *)
Definition capture_drop : M Env unit :=
  c ← gets env_capture;
  _ ← (if capture_recording c then set_recording recording_leave else mret tt);
  on_store (drop_bindings (primed c)).
End capture.

(** ** The captures of a device *)
Record RecordingDevice (HostBytes : Type) := mk_RecordingDevice {
  rd_store : Memory;
  rd_count : Z;
  rd_captures : list (StreamCapture HostBytes);
}.
Arguments mk_RecordingDevice {HostBytes}. Arguments rd_store {HostBytes}. Arguments rd_count {HostBytes}.
Arguments rd_captures {HostBytes}.

Section device.
Context {HostBytes : Type}.
Implicit Types (c : StreamCapture HostBytes) (d : RecordingDevice HostBytes).

(** An operation on the capture of the stream at [i]. *)
Definition on_stream {A} (i : nat) (m : M (CaptureEnv HostBytes) A) : M (RecordingDevice HostBytes) A := λ d,
  c ← rd_captures d !! i;
  '(a, s) ← m (mk_CaptureEnv (rd_store d) (rd_count d) c);
  Some (a, mk_RecordingDevice (env_store s) (device_recording s) (<[i := env_capture s]> (rd_captures d))).

(** What happens to a device: other work on its store, a stream that is
    created or dropped, and the operations of the captures. *)
Inductive device_step d : RecordingDevice HostBytes → Prop :=
| step_store m : device_step d (mk_RecordingDevice m (rd_count d) (rd_captures d))
| step_create : Z.of_nat (length (rd_captures d)) < u64_max →
    device_step d (mk_RecordingDevice (rd_store d) (rd_count d) (rd_captures d ++ [capture_new]))
| step_drop i d1 : on_stream i capture_drop d = Some (tt, d1) →
    device_step d (mk_RecordingDevice (rd_store d1) (rd_count d1) (delete i (rd_captures d1)))
| step_record i buffers d1 : on_stream i (capture_record buffers) d = Some (tt, d1) → device_step d d1
| step_touch i stream location d1 : on_stream i (capture_touch stream location) d = Some (tt, d1) → device_step d d1
| step_prime i id d1 : on_stream i (capture_prime id) d = Some (tt, d1) → device_step d d1
| step_fail i e d1 : on_stream i (capture_fail e) d = Some (tt, d1) → device_step d d1
| step_retain i b d1 : on_stream i (capture_retain_host b) d = Some (tt, d1) → device_step d d1
| step_take_touched i l d1 : on_stream i take_touched d = Some (l, d1) → device_step d d1
| step_take_recorded sort i l d1 : on_stream i (take_recorded sort) d = Some (l, d1) → device_step d d1
| step_take_failure i e d1 : on_stream i take_failure d = Some (e, d1) → device_step d d1
| step_take_retained i l d1 : on_stream i take_retained_host d = Some (l, d1) → device_step d d1
| step_prepare i owner r d1 : on_stream i (capture_prepare owner) d = Some (r, d1) → device_step d d1
| step_begin i r d1 : on_stream i capture_begin d = Some (r, d1) → device_step d d1
| step_end i caller r d1 : on_stream i (capture_end caller) d = Some (r, d1) → device_step d d1
| step_abort i d1 : on_stream i capture_abort d = Some (tt, d1) → device_step d d1.

Definition records (c : StreamCapture HostBytes) : Z := if capture_recording c then 1 else 0.
Definition recording_streams d : Z := sum_Z (records <$> rd_captures d).
(** The count is the number of the streams that record. *)
Definition recording_inv d : Prop :=
  rd_count d = recording_streams d ∧ Z.of_nat (length (rd_captures d)) <= u64_max.

(** An operation moves the count with the state of its capture. *)
Definition counts_itself {A} (m : M (CaptureEnv HostBytes) A) : Prop := ∀ s a s',
  m s = Some (a, s') →
  device_recording s' = (device_recording s + records (env_capture s') - records (env_capture s)) mod 2 ^ 64 ∨
  device_recording s' = device_recording s ∧ records (env_capture s') = records (env_capture s).

Lemma sum_records_bound (l : list (StreamCapture HostBytes)) : 0 <= sum_Z (records <$> l) <= Z.of_nat (length l).
Proof.
  induction l as [|c l IH]; [done|]. rewrite fmap_cons, sum_Z_cons. cbn [length]. unfold records at 1 3.
  destruct (capture_recording c); lia.
Qed.
Lemma sum_records_insert (l : list (StreamCapture HostBytes)) i c (c' : StreamCapture HostBytes) :
  l !! i = Some c → sum_Z (records <$> <[i := c']> l) = sum_Z (records <$> l) + records c' - records c.
Proof. apply sum_Z_insert. Qed.
Lemma sum_records_delete (l : list (StreamCapture HostBytes)) i c :
  l !! i = Some c → sum_Z (records <$> delete i l) = sum_Z (records <$> l) - records c.
Proof.
  revert i. induction l as [|x l IH]; intros [|i] Hi; try done.
  - injection Hi as ->. change (delete 0%nat (c :: l)) with l. rewrite fmap_cons, sum_Z_cons. lia.
  - change (delete (S i) (x :: l)) with (x :: delete i l). rewrite !fmap_cons, !sum_Z_cons. rewrite (IH i Hi). lia.
Qed.

Lemma on_stream_inv {A} i (m : M (CaptureEnv HostBytes) A) d a d1 :
  on_stream i m d = Some (a, d1) → ∃ c s, rd_captures d !! i = Some c ∧
    m (mk_CaptureEnv (rd_store d) (rd_count d) c) = Some (a, s) ∧
    d1 = mk_RecordingDevice (env_store s) (device_recording s) (<[i := env_capture s]> (rd_captures d)).
Proof.
  unfold on_stream. destruct (rd_captures d !! i) as [c|]; [|done]. cbn.
  destruct (m _) as [[a' s]|] eqn:Hm; [|done]. intros [= <- <-]. exists c, s. done.
Qed.
Lemma on_stream_ok {A} i (m : M (CaptureEnv HostBytes) A) d a d1 :
  counts_itself m → recording_inv d → on_stream i m d = Some (a, d1) → recording_inv d1.
Proof.
  intros Hm [Hn Hlen] (c & s & Hc & Hs & ->)%on_stream_inv. split; cbn; [|by rewrite length_insert].
  unfold recording_streams in *. rewrite (sum_records_insert _ _ _ _ Hc).
  pose proof (sum_records_bound (<[i := env_capture s]> (rd_captures d))) as Hb.
  rewrite length_insert, (sum_records_insert _ _ _ _ Hc) in Hb.
  destruct (Hm _ _ _ Hs) as [Hd|[Hd Hr]]; rewrite Hd; cbn in *; [|lia].
  rewrite Hn, Z.mod_small; [lia|]. lia.
Qed.
End device.

(** Takes the run of an operation of a capture apart. *)
Ltac run_capture := repeat first
  [ match goal with
    | Hr : (_ ≫= _) _ = Some _ |- _ =>
        let a := fresh "a" in let s := fresh "s" in let Ha := fresh "Ha" in
        apply bind_run in Hr as (a & s & Ha & Hr)
    | Hr : mret _ _ = Some _ |- _ => injection Hr as ?; subst
    | Hr : gets _ _ = Some _ |- _ => injection Hr as ?; subst
    | Hr : modify _ _ = Some _ |- _ => injection Hr as ?; subst
    | Hr : set_capture _ _ = Some _ |- _ => injection Hr as ?; subst
    | Hr : set_recording _ _ = Some _ |- _ => injection Hr as ?; subst
    | Hr : panic _ = Some _ |- _ => discriminate Hr
    | Hr : lift ?o _ = Some _ |- _ => destruct o eqn:?; [injection Hr as ?; subst|discriminate Hr]
    | Hr : on_store ?m ?s = Some _ |- _ =>
        unfold on_store in Hr; destruct (m (env_store s)) as [[? ?]|] eqn:?; [injection Hr as ?; subst|discriminate Hr]
    end
  | progress simplify_eq/=
  | case_match ].

Section counts.
Context {HostBytes : Type}.
Abbreviation counted := (counts_itself (HostBytes := HostBytes)).
Implicit Types (s : CaptureEnv HostBytes).

(** The count moves with the state, or neither moves. *)
Ltac counting :=
  run_capture; unfold records, capture_recording, recording_enter, recording_leave in *; simplify_eq/=;
  repeat match goal with
    | Hs : state_recording ?st = _ |- _ => rewrite Hs in *
    | Hs : state_prepare ?st _ = _ |- _ => destruct st; simplify_eq/=
    | Hs : state_begin ?st = _ |- _ => destruct st; simplify_eq/=
    | Hs : state_end ?st _ = _ |- _ => destruct st; simplify_eq/=
    | Hs : capture_state ?c = _ |- _ => rewrite Hs in *
    end; first [right; done|left; f_equal; lia|idtac].

Lemma counts_record bs : counted (capture_record bs).
Proof. intros s a s' Hr. unfold capture_record, record_into in Hr. counting. Qed.
Lemma counts_touch st l : counted (capture_touch st l).
Proof. intros s a s' Hr. unfold capture_touch in Hr. counting. Qed.
Lemma counts_prime id : counted (capture_prime id).
Proof. intros s a s' Hr. unfold capture_prime in Hr. counting. Qed.
Lemma counts_fail e : counted (capture_fail e).
Proof. intros s a s' Hr. unfold capture_fail, fail_into in Hr. counting. Qed.
Lemma counts_retain b : counted (capture_retain_host b).
Proof. intros s a s' Hr. unfold capture_retain_host in Hr. counting. Qed.
Lemma counts_take_touched : counted take_touched.
Proof. intros s a s' Hr. unfold take_touched in Hr. counting. Qed.
Lemma counts_take_recorded sort : counted (take_recorded sort).
Proof. intros s a s' Hr. unfold take_recorded in Hr. counting. Qed.
Lemma counts_take_failure : counted take_failure.
Proof. intros s a s' Hr. unfold take_failure in Hr. counting. Qed.
Lemma counts_take_retained : counted take_retained_host.
Proof. intros s a s' Hr. unfold take_retained_host in Hr. counting. Qed.
Lemma counts_prepare owner : counted (capture_prepare owner).
Proof. intros s a s' Hr. unfold capture_prepare, capture_clear in Hr. counting. Qed.
Lemma counts_begin : counted capture_begin.
Proof. intros s a s' Hr. unfold capture_begin in Hr. counting. Qed.
Lemma counts_end caller : counted (capture_end caller).
Proof. intros s a s' Hr. unfold capture_end in Hr. counting. Qed.
Lemma counts_abort : counted capture_abort.
Proof. intros s a s' Hr. unfold capture_abort, capture_clear in Hr. counting. Qed.
End counts.

Section recording.
Context {HostBytes : Type}.
Implicit Types (c : StreamCapture HostBytes) (d : RecordingDevice HostBytes).

Lemma drop_stream_ok i d d1 :
  recording_inv d → on_stream i capture_drop d = Some (tt, d1) →
  recording_inv (mk_RecordingDevice (rd_store d1) (rd_count d1) (delete i (rd_captures d1))).
Proof.
  intros [Hn Hlen] (c & s & Hc & Hs & ->)%on_stream_inv. assert (env_capture s = c ∧
    device_recording s = if capture_recording c then recording_leave (rd_count d) else rd_count d) as [Hcap Hrec].
  { unfold capture_drop in Hs. run_capture; done. }
  cbn [rd_captures rd_count rd_store]. rewrite Hcap, (list_insert_id (rd_captures d) i c Hc).
  pose proof (sum_records_bound (delete i (rd_captures d))) as Hb. pose proof (length_delete (rd_captures d) i ltac:(by eexists)) as Hdel.
  rewrite (sum_records_delete _ _ _ Hc) in Hb. unfold recording_streams in Hn.
  split; cbn [rd_captures rd_count]; [|lia]. rewrite Hrec. unfold recording_streams. cbn [rd_captures].
  rewrite (sum_records_delete _ _ _ Hc).
  unfold records in *. destruct (capture_recording c); [|lia]. unfold recording_leave. rewrite Z.mod_small; lia.
Qed.
Lemma device_step_ok d d1 : recording_inv d → device_step d d1 → recording_inv d1.
Proof.
  intros Hd Hstep. destruct Hstep as [| | |? ? ? Hr|? ? ? ? Hr|? ? ? Hr|? ? ? Hr|? ? ? Hr|? ? ? Hr|? ? ? ? Hr|? ? ? Hr|? ? ? Hr
    |? ? ? ? Hr|? ? ? Hr|? ? ? ? Hr|? ? Hr].
  - done.
  - destruct Hd as [Hn Hlen]. split; cbn; [|rewrite length_app; cbn; lia]. unfold recording_streams. cbn.
    rewrite fmap_app, sum_Z_app, Hn. unfold recording_streams. cbn. lia.
  - by eapply drop_stream_ok.
  - eapply on_stream_ok; [apply counts_record|done|exact Hr].
  - eapply on_stream_ok; [apply counts_touch|done|exact Hr].
  - eapply on_stream_ok; [apply counts_prime|done|exact Hr].
  - eapply on_stream_ok; [apply counts_fail|done|exact Hr].
  - eapply on_stream_ok; [apply counts_retain|done|exact Hr].
  - eapply on_stream_ok; [apply counts_take_touched|done|exact Hr].
  - eapply on_stream_ok; [apply counts_take_recorded|done|exact Hr].
  - eapply on_stream_ok; [apply counts_take_failure|done|exact Hr].
  - eapply on_stream_ok; [apply counts_take_retained|done|exact Hr].
  - eapply on_stream_ok; [apply counts_prepare|done|exact Hr].
  - eapply on_stream_ok; [apply counts_begin|done|exact Hr].
  - eapply on_stream_ok; [apply counts_end|done|exact Hr].
  - eapply on_stream_ok; [apply counts_abort|done|exact Hr].
Qed.
Lemma reachable_inv d d1 : recording_inv d → rtc device_step d d1 → recording_inv d1.
Proof. intros Hd Hsteps. induction Hsteps as [|d d1 d2 Hs _ IH]; [done|]. apply IH. by eapply device_step_ok. Qed.

Lemma recording_any_spec d :
  recording_inv d → recording_any (rd_count d) = true ↔ ∃ j c, rd_captures d !! j = Some c ∧ capture_recording c = true.
Proof.
  intros [-> _]. unfold recording_any, recording_streams. rewrite Z.ltb_lt.
  induction (rd_captures d) as [|x l IH]; [split; [done|intros (? & ? & ? & _); done]|].
  rewrite fmap_cons, sum_Z_cons. pose proof (sum_records_bound l) as Hb. split.
  - intros Hpos. destruct (capture_recording x) eqn:Hx; [by exists 0%nat, x|].
    unfold records at 1 in Hpos. rewrite Hx in Hpos. apply IH in Hpos as (j & c & Hj & Hc). by exists (S j), c.
  - intros ([|j] & c & Hj & Hc); [injection Hj as ->; unfold records at 1; rewrite Hc; lia|].
    assert (0 < sum_Z (records <$> l)) by (apply IH; by exists j, c). unfold records at 1. destruct (capture_recording x); lia.
Qed.

Definition updates_of d c : PageUpdate :=
  if capture_recording c then Forbidden else if recording_any (rd_count d) then AddOnly else Allow.
Lemma page_update_eq i c d :
  rd_captures d !! i = Some c → on_stream i page_update d = Some (updates_of d c, d).
Proof.
  intros Hc. unfold on_stream. rewrite Hc. cbn. unfold page_update, any_recording, updates_of.
  unfold mbind, M_bind, gets. cbn. rewrite (list_insert_id _ _ _ Hc). destruct d; cbn.
  by destruct (capture_recording c), (recording_any rd_count0).
Qed.

(** C12: a recording keeps every page of its device.  However the streams of a
    device have been created and dropped, and their captures prepared, opened,
    closed, aborted and used, every stream knows whether any of them records;
    and while one does, whatever a stream reserves in the mode its page update
    allows, nothing is given back to the storage, and the streams that record
    leave the storage exactly as it was. *)
Theorem recording_keeps_pages {St} `{ComputeStorage St} store d i c j cj :
  rtc device_step (mk_RecordingDevice store 0 []) d →
  rd_captures d !! i = Some c → rd_captures d !! j = Some cj → capture_recording cj = true →
  ∃ update, on_stream i page_update d = Some (update, d) ∧
    ∀ mm size dry_run (w : World St) r mm' w', mm_reserve mm size update dry_run w = Some (r, mm', w') →
      adds_once w w' ∧ (capture_recording c = true → same_storage w w').
Proof.
  intros Hreach Hc Hj Hrec. assert (recording_inv d) as Hd by (eapply reachable_inv; [|exact Hreach]; split; done).
  assert (recording_any (rd_count d) = true) as Hany by (apply recording_any_spec; eauto).
  exists (updates_of d c). split; [by apply page_update_eq|]. intros mm size dry_run w r mm' w' Hr.
  unfold updates_of in Hr. destruct (capture_recording c).
  - cbn [mm_reserve] in Hr. apply bind_run in Hr as ([h mm1] & w1 & Hr & [= <- <- <-]).
    pose proof (respects_reserve_held same_storage mm size _ _ _ Hr). split; [by left|done].
  - rewrite Hany in Hr. split; [|done]. by eapply (once_reserve_adding mm size dry_run).
Qed.
End recording.

(** ** Bindings that are lent *)

(** The store with one more binding for every occurrence in [ids]. *)
Definition lend (ids : list ManagedMemoryId) (m : Memory) : Memory :=
  with_descriptors (map_imap (λ id d, Some (mk_Descriptor (location_bits d) (handles d) (bindings d + occurs id ids)))) m.
#[global] Arguments lend : simpl never.

Lemma lend_lookup ids m id :
  descriptors (lend ids m) !! id =
    (λ d, mk_Descriptor (location_bits d) (handles d) (bindings d + occurs id ids)) <$> descriptors m !! id.
Proof. unfold lend. cbn. rewrite map_lookup_imap. by destruct (descriptors m !! id). Qed.
Lemma lend_ext ids ids' m : (∀ id, occurs id ids = occurs id ids') → lend ids m = lend ids' m.
Proof.
  intros Ho. unfold lend, with_descriptors. f_equal. apply map_eq. intros id. rewrite !map_lookup_imap.
  destruct (descriptors m !! id); [|done]. cbn. by rewrite Ho.
Qed.
Lemma lend_nil m : lend [] m = m.
Proof.
  destruct m as [n ds]. unfold lend, with_descriptors. cbn. f_equal. apply map_eq. intros id. rewrite map_lookup_imap.
  destruct (ds !! id) as [[]|]; [|done]. cbn. by rewrite Z.add_0_r.
Qed.
Lemma binding_clone_lend id ids m :
  is_Some (descriptors m !! id) → binding_clone id (lend ids m) = Some (tt, lend (ids ++ [id]) m).
Proof.
  intros [d Hd]. unfold binding_clone, descriptor, mbind, M_bind, get, lift. rewrite lend_lookup, Hd. cbn.
  unfold set_descriptor, modify. do 2 f_equal. unfold lend, with_descriptors. cbn. f_equal. apply map_eq. intros id'.
  rewrite map_lookup_imap. destruct (decide (id' = id)) as [->|Hne].
  - rewrite lookup_insert_eq, Hd. cbn. rewrite occurs_app, occurs_cons, decide_True by done. do 2 f_equal.
    change (occurs id []) with 0. lia.
  - rewrite lookup_insert_ne, map_lookup_imap by done. destruct (descriptors m !! id') as [d'|]; [|done]. cbn.
    rewrite occurs_app, occurs_cons, decide_False by done. do 2 f_equal. change (occurs id' []) with 0. lia.
Qed.
Lemma binding_drop_lend id ids m :
  memory_wf m → is_Some (descriptors m !! id) → binding_drop id (lend (id :: ids) m) = Some (tt, lend ids m).
Proof.
  intros Hm [d Hd]. unfold binding_drop, descriptor, mbind, M_bind, get, lift. rewrite lend_lookup, Hd. cbn.
  pose proof (proj2 Hm id d Hd) as (_ & _ & Hb). pose proof (occurs_bounds id ids).
  rewrite occurs_cons, decide_True by done. rewrite (proj2 (Z.ltb_lt _ _)) by lia.
  unfold set_descriptor, modify. do 2 f_equal. unfold lend, with_descriptors. cbn. f_equal. apply map_eq. intros id'.
  rewrite map_lookup_imap. destruct (decide (id' = id)) as [->|Hne].
  - rewrite lookup_insert_eq, Hd. cbn. do 2 f_equal. lia.
  - rewrite lookup_insert_ne, map_lookup_imap by done. destruct (descriptors m !! id') as [d'|]; [|done]. cbn.
    rewrite occurs_cons, decide_False by done. done.
Qed.
Definition known_ids (m : Memory) (ids : list ManagedMemoryId) : Prop := ∀ id, id ∈ ids → is_Some (descriptors m !! id).
Lemma drop_bindings_lend ids rest m :
  memory_wf m → known_ids m ids → drop_bindings ids (lend (ids ++ rest) m) = Some (tt, lend rest m).
Proof.
  intros Hm. induction ids as [|id ids IH]; intros Hk; [done|]. cbn [drop_bindings app].
  unfold mbind, M_bind. rewrite binding_drop_lend; [|done|apply Hk; by left]. apply IH. intros id' ?. apply Hk. by right.
Qed.

(** ** A whole window *)
Inductive WindowOp (HostBytes : Type) :=
| WRecord (buffers : list BufferBinding)
| WTouch (stream : StreamId) (location : MemoryLocation)
| WPrime (staging : ManagedMemoryId)
| WFail (error : ServerError)
| WRetain (bytes : HostBytes).
Arguments WRecord {HostBytes}. Arguments WTouch {HostBytes}. Arguments WPrime {HostBytes}. Arguments WFail {HostBytes}.
Arguments WRetain {HostBytes}.

Section window.
Context {HostBytes : Type}.
Implicit Types (c : StreamCapture HostBytes) (ops warm : list (WindowOp HostBytes)) (s : CaptureEnv HostBytes).

Definition run_window_op (op : WindowOp HostBytes) : M (CaptureEnv HostBytes) unit :=
  match op with
  | WRecord buffers => capture_record buffers
  | WTouch stream location => capture_touch stream location
  | WPrime staging => capture_prime staging
  | WFail error => capture_fail error
  | WRetain bytes => capture_retain_host bytes
  end.
Fixpoint run_window ops : M (CaptureEnv HostBytes) unit :=
  match ops with [] => mret tt | op :: ops => _ ← run_window_op op; run_window ops end.
(** A capture from its preparation to its end. *)
Definition whole_capture (owner caller : StreamId) warm ops : M (CaptureEnv HostBytes) (result CaptureEnd ServerError) :=
  _ ←? capture_prepare owner;
  _ ← run_window warm;
  _ ←? capture_begin;
  _ ← run_window ops;
  capture_end caller.

Definition recorded_of ops : list WeakBufferBinding :=
  flat_map (λ op, match op with WRecord bs => downgrade <$> bs | _ => [] end) ops.
Definition touched_of ops : list TouchedPage :=
  omap (λ op, match op with WTouch st l => Some (mk_TouchedPage st l) | _ => None end) ops.
Definition primed_of ops : list ManagedMemoryId := omap (λ op, match op with WPrime id => Some id | _ => None end) ops.
Definition failed_of ops : list ServerError := omap (λ op, match op with WFail e => Some e | _ => None end) ops.
Definition retained_of ops : list HostBytes := omap (λ op, match op with WRetain b => Some b | _ => None end) ops.

(** The warmup run only primes. *)
Lemma run_warmup owner warm ids n m :
  retained_of warm = [] → known_ids m (primed_of warm) →
  run_window warm (mk_CaptureEnv (lend ids m) n (mk_StreamCapture (Prepare owner) [] [] ids [] None)) =
    Some (tt, mk_CaptureEnv (lend (ids ++ primed_of warm) m) n
      (mk_StreamCapture (Prepare owner) [] [] (ids ++ primed_of warm) [] None)).
Proof.
  revert ids. induction warm as [|op warm IH]; intros ids Hr Hk; [cbn; by rewrite !app_nil_r|].
  destruct op as [bs|st l|id|e|b]; cbn in Hr, Hk; try (apply (IH ids Hr Hk)); [|done].
  cbn [run_window run_window_op]. unfold mbind, M_bind, capture_prime at 1. cbn. unfold mbind, M_bind, gets. cbn.
  unfold on_store. cbn. rewrite binding_clone_lend by (apply Hk; by left). unfold set_capture, modify. cbn.
  unfold with_primed. cbn. rewrite (IH (ids ++ [id])); [|done|intros ? ?; apply Hk; by right]. by rewrite <- app_assoc.
Qed.
(** The window keeps what it is told, and the first failure. *)
Lemma run_recording owner ops n m rs ts bs (f : option ServerError) :
  run_window ops (mk_CaptureEnv m n (mk_StreamCapture (Capture owner) rs ts [] bs f)) =
    Some (tt, mk_CaptureEnv m n (mk_StreamCapture (Capture owner) (rs ++ recorded_of ops) (ts ++ touched_of ops) []
      (bs ++ retained_of ops) (match f with Some _ => f | None => head (failed_of ops) end))).
Proof.
  revert rs ts bs f. induction ops as [|op ops IH]; intros rs ts bs f.
  - cbn. rewrite !app_nil_r. by destruct f.
  - cbn [run_window]. unfold mbind at 1, M_bind at 1. destruct op as [l|st l|id|e|b]; cbn.
    + unfold capture_record, mbind, M_bind, gets. cbn. unfold set_capture, modify, with_recorded. cbn.
      unfold record_into, with_recorded. cbn. rewrite IH. by rewrite <- app_assoc.
    + unfold capture_touch, mbind, M_bind, gets. cbn. unfold set_capture, modify, with_touched. cbn.
      rewrite IH. by rewrite <- app_assoc.
    + apply IH.
    + unfold capture_fail, mbind, M_bind, gets. cbn. destruct f as [e0|]; cbn.
      * by rewrite IH.
      * unfold set_capture, modify. cbn. unfold with_failed; cbn. by rewrite IH.
    + unfold capture_retain_host, mbind, M_bind, gets. cbn. unfold set_capture, modify, with_retained. cbn.
      rewrite IH. by rewrite <- app_assoc.
Qed.

(** C13: a capture records its window and nothing else.  Prepared on a stream
    without one and closed by any stream, it answers whether the caller is the
    stream that prepared it, and holds then exactly the buffers, the pages and
    the host memory of the window, in their order, and the first failure; what
    happens during the warmup is not recorded, and the staging it primed is
    given back to the pool as the window opens; the stream is free again, and
    the count of the recording streams is as it was. *)
Theorem window_records owner caller warm ops s :
  capture_state (env_capture s) = NoCapture → primed (env_capture s) = [] → memory_wf (env_store s) →
  known_ids (env_store s) (primed_of warm) → retained_of warm = [] → 0 <= device_recording s < u64_max →
  whole_capture owner caller warm ops s = Some
    (Ok (if decide (owner = caller) then Owned owner else Abandoned owner),
     mk_CaptureEnv (env_store s) (device_recording s)
       (mk_StreamCapture NoCapture (recorded_of ops) (touched_of ops) [] (retained_of ops) (head (failed_of ops)))).
Proof.
  destruct s as [m n c]. cbn. intros Hst Hpr Hm Hk Hret Hn. unfold whole_capture, try_bind, mbind, M_bind.
  assert (capture_prepare owner (mk_CaptureEnv m n c) =
    Some (Ok tt, mk_CaptureEnv (lend [] m) n (mk_StreamCapture (Prepare owner) [] [] [] [] None))) as ->.
  { unfold capture_prepare, mbind, M_bind, gets. cbn. rewrite Hst. cbn. unfold mbind, M_bind. cbn.
    unfold capture_clear, mbind, M_bind, gets. cbn. unfold on_store. cbn. rewrite Hpr. cbn. by rewrite lend_nil. }
  cbv beta iota. rewrite (run_warmup owner warm [] n m Hret Hk). cbn [app]. cbv beta iota.
  assert (capture_begin (mk_CaptureEnv (lend (primed_of warm) m) n (mk_StreamCapture (Prepare owner) [] [] (primed_of warm) [] None)) =
    Some (Ok tt, mk_CaptureEnv m (recording_enter n) (mk_StreamCapture (Capture owner) [] [] [] [] None))) as ->.
  { unfold capture_begin, mbind, M_bind, gets. cbn. unfold mbind, M_bind. cbn. unfold on_store. cbn.
    rewrite <- (app_nil_r (primed_of warm)) at 2. rewrite drop_bindings_lend by done. cbn. by rewrite lend_nil. }
  cbv beta iota. rewrite run_recording. cbn [app]. cbv beta iota. unfold capture_end, mbind, M_bind, gets. cbn. unfold mbind, M_bind. cbn.
  assert (recording_leave (recording_enter n) = n) as ->; [|done].
  unfold recording_leave, recording_enter. rewrite (Z.mod_small (n + 1)) by lia. rewrite Z.mod_small; lia.
Qed.
End window.

(** ** What was recorded *)
Lemma lex_le_trans l1 l2 l3 : lex_le l1 l2 = true → lex_le l2 l3 = true → lex_le l1 l3 = true.
Proof.
  revert l2 l3. induction l1 as [|x l1 IH]; intros [|y l2] [|z l3]; try done. cbn.
  rewrite !orb_true_iff, !andb_true_iff, !Z.ltb_lt, !Z.eqb_eq. intros [?|[-> H1]] [?|[-> H2]]; try (left; lia).
  right. split; [done|]. by eapply IH.
Qed.
Lemma lex_le_antisym l1 l2 : lex_le l1 l2 = true → lex_le l2 l1 = true → l1 = l2.
Proof.
  revert l2. induction l1 as [|x l1 IH]; intros [|y l2]; try done. cbn.
  rewrite !orb_true_iff, !andb_true_iff, !Z.ltb_lt, !Z.eqb_eq. intros [?|[-> H1]] [?|[? H2]]; try lia.
  f_equal. by apply IH.
Qed.

Section dedup.
Context {A : Type} (key : A → list Z).
#[local] Instance key_le_trans : Transitive (key_le key).
Proof.
  intros x y z Hxy Hyz. unfold key_le in *. apply Is_true_true. apply Is_true_true in Hxy, Hyz. by eapply lex_le_trans.
Qed.
Lemma key_le_antisym x y : key_le key x y → key_le key y x → key x = key y.
Proof. unfold key_le. rewrite !Is_true_true. apply lex_le_antisym. Qed.

Lemma dedup_from_spec x l :
  StronglySorted (key_le key) (x :: l) →
  ∃ kept dropped, dedup_from key x l = (kept, dropped) ∧ kept ++ dropped ≡ₚ x :: l ∧ NoDup (key <$> kept) ∧
    ∀ k, k ∈ key <$> kept ↔ k ∈ key <$> (x :: l).
Proof.
  revert x. induction l as [|y l IH]; intros x Hs.
  { exists [x], []. split_and!; [done|done|apply NoDup_singleton|done]. }
  apply StronglySorted_inv in Hs as [Hs Hx]. cbn. case_decide as Hk.
  - destruct (IH x) as (kept & dropped & -> & Hp & Hnd & Hin).
    { apply StronglySorted_inv in Hs as [Hs Hy]. constructor; [done|]. by inversion Hx. }
    exists kept, (y :: dropped). split; [done|]. split; [by rewrite <- Permutation_middle, Hp, Permutation_swap|].
    split; [done|]. intros k. rewrite Hin. cbn. rewrite !elem_of_cons. rewrite Hk. tauto.
  - destruct (IH y Hs) as (kept & dropped & -> & Hp & Hnd & Hin).
    exists (x :: kept), dropped. split; [done|]. split; [cbn; by rewrite Hp|]. split.
    + cbn. constructor; [|done]. rewrite Hin. intros (z & Hz & Hzl)%list_elem_of_fmap.
      assert (key_le key x y) as Hxy by by inversion Hx. apply Hk, key_le_antisym; [done|].
      apply elem_of_cons in Hzl as [->|Hzl]; [unfold key_le in *; by rewrite Hz|].
      apply StronglySorted_inv in Hs as [_ Hy]. pose proof (proj1 (Forall_forall _ _) Hy z Hzl) as Hyz.
      unfold key_le in *. by rewrite Hz.
    + intros k. cbn. rewrite !elem_of_cons. rewrite Hin. cbn. by rewrite elem_of_cons.
Qed.
Lemma dedup_spec l :
  Sorted (key_le key) l →
  ∃ kept dropped, dedup_by_key key l = (kept, dropped) ∧ kept ++ dropped ≡ₚ l ∧ NoDup (key <$> kept) ∧
    ∀ k, k ∈ key <$> kept ↔ k ∈ key <$> l.
Proof.
  intros Hs%Sorted_StronglySorted; [|apply _]. destruct l as [|x l]; [|by apply dedup_from_spec].
  exists [], []. split_and!; [done|done|constructor|done].
Qed.
End dedup.

Section taken.
Context {HostBytes : Type} (sort_unstable : list (list Z * BufferBinding) → list (list Z * BufferBinding)).
Context (sort_perm : ∀ l, sort_unstable l ≡ₚ l) (sort_sorted : ∀ l, Sorted (key_le fst) (sort_unstable l)).

(** Something other than the pool holds the allocation. *)
Definition alive (m : Memory) (b : BufferBinding) : bool :=
  match descriptors m !! binding_memory b with Some d => 1 <? handles d + bindings d | None => false end.
Abbreviation ids_of l := (binding_memory <$> l).

Lemma upgrade_all_eq l ids m :
  known_ids m (ids_of (weak_binding <$> l)) → (∀ id b, id ∈ ids → binding_memory b = id → alive m b = true) →
  upgrade_all l (lend ids m) = Some (filter (λ b, alive m b = true) (weak_binding <$> l),
    lend (ids ++ ids_of (filter (λ b, alive m b = true) (weak_binding <$> l))) m).
Proof.
  revert ids. induction l as [|[b] l IH]; intros ids Hk Ha; [cbn; by rewrite app_nil_r|].
  cbn [upgrade_all fmap list_fmap weak_binding]. rewrite filter_cons.
  assert (is_Some (descriptors m !! binding_memory b)) as [d Hd] by (apply Hk; by left).
  assert (known_ids m (ids_of (weak_binding <$> l))) as Hk' by (intros id ?; apply Hk; by right).
  assert (alive m b = (1 <? handles d + bindings d)) as Hal by (unfold alive; by rewrite Hd).
  assert (weak_upgrade (mk_WeakBufferBinding b) (lend ids m) = if alive m b
    then Some (Some b, lend (ids ++ [binding_memory b]) m) else Some (None, lend ids m)) as Hup.
  { unfold weak_upgrade, upgrade, mbind, M_bind. unfold descriptor at 1, mbind, M_bind, get, lift. rewrite lend_lookup.
    cbn [weak_binding]. rewrite Hd. cbn [fmap option_fmap option_map handles bindings].
    pose proof (occurs_bounds (binding_memory b) ids). destruct (alive m b) eqn:Hb.
    - symmetry in Hal. apply Z.ltb_lt in Hal. rewrite (proj2 (Z.leb_gt _ _)) by lia.
      rewrite binding_clone_lend by by eexists. done.
    - symmetry in Hal. apply Z.ltb_ge in Hal. rewrite occurs_none, (proj2 (Z.leb_le _ _)); [done|lia|].
      intros Hin. specialize (Ha _ b Hin eq_refl). congruence. }
  unfold mbind at 1, M_bind at 1. rewrite Hup.
  destruct (alive m b) eqn:Hb.
  - rewrite decide_True by done. unfold mbind, M_bind. rewrite (IH (ids ++ [binding_memory b]) Hk').
    + cbn. by rewrite <- app_assoc.
    + intros id b' [Hin| ->%list_elem_of_singleton]%elem_of_app Hid; [by eapply Ha|]. unfold alive in *. by rewrite Hid.
  - rewrite decide_False by done. unfold mbind, M_bind. rewrite (IH ids Hk' Ha). done.
Qed.

Lemma keyed_eq (l : list BufferBinding) :
  Forall (λ b, is_Some (claim_key b)) l →
  ∃ keyed, mapM (λ b, key ← claim_key b; Some (key, b)) l = Some keyed ∧ keyed.*2 = l ∧
    Forall (λ kb : list Z * BufferBinding, claim_key kb.2 = Some kb.1) keyed.
Proof.
  induction 1 as [|b l [key Hb] _ (keyed & Hm & Hl & Hk)]; [by exists []|].
  exists ((key, b) :: keyed). cbn. rewrite Hb. cbn. rewrite Hm. cbn. split; [done|]. split; [by rewrite Hl|]. by constructor.
Qed.

Lemma take_recorded_eq (s : CaptureEnv HostBytes) :
  let ws := weak_binding <$> recorded (env_capture s) in
  known_ids (env_store s) (ids_of ws) →
  let live := filter (λ b, alive (env_store s) b = true) ws in
  take_recorded sort_unstable s = (match live with
    | [] | [_] => mret live
    | _ => keyed ← lift (mapM (λ b, key ← claim_key b; Some (key, b)) live);
           let '(kept, dropped) := dedup_by_key fst (sort_unstable keyed) in
           _ ← on_store (drop_bindings ((λ kb : list Z * BufferBinding, binding_memory kb.2) <$> dropped));
           mret (snd <$> kept)
    end) (mk_CaptureEnv (lend (ids_of live) (env_store s)) (device_recording s) (with_recorded [] (env_capture s))).
Proof.
  intros ws Hk live. unfold take_recorded. unfold mbind at 1, M_bind at 1. cbn [gets]. unfold mbind at 1, M_bind at 1.
  unfold set_capture, modify. unfold mbind at 1, M_bind at 1. unfold on_store at 1. cbn [env_store device_recording env_capture].
  rewrite <- (lend_nil (env_store s)) at 1. rewrite upgrade_all_eq; [done|done|].
  intros id b Hid. by apply not_elem_of_nil in Hid.
Qed.

(** The write set of a recording.  Of the buffers the window recorded, it
    holds every claim, an allocation and a range of it, whose memory is still
    held by something other than its pool, exactly once, whatever the order an
    unstable sort leaves; each buffer in it owns one binding of its allocation,
    nothing else of the store changes, and the capture forgets the set. *)
Theorem recorded_claims_once (s : CaptureEnv HostBytes) :
  let ws := weak_binding <$> recorded (env_capture s) in
  memory_wf (env_store s) → known_ids (env_store s) (ids_of ws) → Forall (λ b, is_Some (claim_key b)) ws →
  ∃ l, take_recorded sort_unstable s = Some (l, mk_CaptureEnv (lend (ids_of l) (env_store s)) (device_recording s)
        (with_recorded [] (env_capture s))) ∧
    NoDup (claim_key <$> l) ∧
    (∀ b, b ∈ l → b ∈ ws ∧ alive (env_store s) b = true) ∧
    (∀ b, b ∈ ws → alive (env_store s) b = true → ∃ b', b' ∈ l ∧ claim_key b' = claim_key b).
Proof.
  intros ws Hm Hk Hc. set (live := filter (λ b, alive (env_store s) b = true) ws).
  assert (Forall (λ b, is_Some (claim_key b)) live) as Hlive by (apply Forall_forall; intros b [_ Hb]%list_elem_of_filter;
    by apply (proj1 (Forall_forall _ _) Hc)).
  pose proof (take_recorded_eq s Hk) as Htake. cbn zeta in Htake. fold ws live in Htake. rewrite Htake. clear Htake.
  assert (∀ b, b ∈ live ↔ b ∈ ws ∧ alive (env_store s) b = true) as Hin
    by (intros b; unfold live; rewrite list_elem_of_filter; tauto).
  destruct live as [|b1 [|b2 live']] eqn:El.
  { exists []. split; [done|]. split; [constructor|]. split; [by intros b ?%not_elem_of_nil|].
    intros b Hb Ha. exfalso. by apply (not_elem_of_nil b), Hin. }
  { exists [b1]. split; [done|]. split; [apply NoDup_singleton|]. split; [intros b Hb; by apply Hin|].
    intros b Hb Ha. exists b. split; [by apply Hin|done]. }
  rewrite <- El in *. clear El b1 b2 live'. destruct (keyed_eq live Hlive) as (keyed & Hmap & Hsnd & Hkeyed).
  destruct (dedup_spec fst (sort_unstable keyed) (sort_sorted keyed)) as (kept & dropped & Hdd & Hperm & Hnd & Hkeys).
  rewrite (sort_perm keyed) in Hperm.
  assert (∀ kb, kb ∈ kept → claim_key kb.2 = Some kb.1) as Hkk.
  { intros kb Hkb. apply (proj1 (Forall_forall _ _) Hkeyed). rewrite <- Hperm. apply elem_of_app. by left. }
  assert (claim_key <$> kept.*2 = Some <$> kept.*1) as Heq.
  { rewrite <- !list_fmap_compose. apply list_fmap_ext. intros i kb Hkb. apply Hkk. by eapply list_elem_of_lookup_2. }
  exists kept.*2. split; [|split; [|split]].
  - unfold mbind at 1, M_bind at 1, lift. rewrite Hmap, Hdd. unfold mbind, M_bind, on_store. cbn [env_store device_recording env_capture].
    assert (lend (ids_of live) (env_store s) = lend (((λ kb : list Z * BufferBinding, binding_memory kb.2) <$> dropped)
      ++ ids_of kept.*2) (env_store s)) as ->.
    { apply lend_ext. intros id. rewrite <- Hsnd, <- list_fmap_compose. unfold occurs. f_equal. apply Permutation_length.
      rewrite <- Hperm, fmap_app, filter_app, filter_app, Permutation_app_comm. by rewrite <- list_fmap_compose. }
    rewrite drop_bindings_lend; [done|done|]. intros id (kb & -> & Hkb)%list_elem_of_fmap. apply Hk, list_elem_of_fmap_2, Hin.
    rewrite <- Hsnd. apply list_elem_of_fmap_2. rewrite <- Hperm. apply elem_of_app. by right.
  - rewrite Heq. apply NoDup_fmap_2; [by intros ?? [=]|done].
  - intros b (kb & -> & Hkb)%list_elem_of_fmap. apply Hin. rewrite <- Hsnd. apply list_elem_of_fmap_2.
    rewrite <- Hperm. apply elem_of_app. by left.
  - intros b Hb Ha. assert (b ∈ live) as Hbl by by apply Hin. rewrite <- Hsnd in Hbl.
    apply list_elem_of_fmap in Hbl as (kb & -> & Hkb). assert (kb.1 ∈ kept.*1) as (kb' & He & Hkb')%list_elem_of_fmap.
    { apply Hkeys. rewrite (sort_perm keyed). by apply list_elem_of_fmap_2. }
    exists kb'.2. split; [by apply list_elem_of_fmap_2|]. rewrite (Hkk kb' Hkb'), <- He. symmetry.
    by apply (proj1 (Forall_forall _ _) Hkeyed).
Qed.
(** What a run of it answers, from the success of the run alone: one buffer for
    every claim that something holds. *)
Definition one_per_claim (m : Memory) (ws l : list BufferBinding) : Prop :=
  NoDup (claim_key <$> l) ∧ (∀ b, b ∈ l → b ∈ ws) ∧
  ∀ b, b ∈ ws → alive m b = true → ∃ b', b' ∈ l ∧ claim_key b' = claim_key b.
(** No allocation has fewer owners. *)
Definition more_owners (m m' : Memory) : Prop := ∀ id d, descriptors m !! id = Some d →
  ∃ d', descriptors m' !! id = Some d' ∧ handles d + bindings d <= handles d' + bindings d'.
#[export] Instance more_owners_preorder : PreOrder more_owners.
Proof.
  split; [intros m id d Hd; by exists d|]. intros m1 m2 m3 H12 H23 id d Hd. destruct (H12 id d Hd) as (d2 & Hd2 & ?).
  destruct (H23 id d2 Hd2) as (d3 & Hd3 & ?). exists d3. split; [done|lia].
Qed.
Lemma more_owners_alive m m' b : more_owners m m' → alive m b = true → alive m' b = true.
Proof.
  unfold alive. intros Hm. destruct (descriptors m !! binding_memory b) as [d|] eqn:Hd; [|done].
  destruct (Hm _ _ Hd) as (d' & -> & ?). intros ?%Z.ltb_lt. apply Z.ltb_lt. lia.
Qed.
Lemma set_more_owners id d d0 m :
  descriptors m !! id = Some d0 → handles d0 + bindings d0 <= handles d + bindings d → more_owners m (with_descriptors <[id := d]> m).
Proof.
  intros Hd0 Hle j e Hj. cbn. destruct (decide (j = id)) as [->|Hne]; [|rewrite lookup_insert_ne by done; by exists e].
  rewrite lookup_insert_eq. exists d. split; [done|]. congruence.
Qed.
Lemma weak_upgrade_run w m r m' :
  weak_upgrade w m = Some (r, m') → more_owners m m' ∧ (r = None ∨ r = Some (weak_binding w)) ∧
    (alive m (weak_binding w) = true → r = Some (weak_binding w)).
Proof.
  unfold weak_upgrade, upgrade. intros (x & m1 & (d & m2 & Hd & Hr)%bind_run & Hx)%bind_run.
  injection Hx as <- <-. apply bind_run in Hd as (m0 & m3 & [= <- <-] & Hd). unfold lift in Hd.
  destruct (descriptors m !! _) as [d0|] eqn:Hd0; [|done]. injection Hd as <- <-. unfold alive. rewrite Hd0.
  destruct (Z.leb_spec (handles d0 + bindings d0) 1) as [Hle|Hlt].
  - injection Hr as <- <-. split; [done|]. split; [by left|]. intros ?%Z.ltb_lt. lia.
  - apply bind_run in Hr as ([] & m4 & Hc & [= <- <-]). split; [|split; [by right|done]].
    apply bind_run in Hc as (d1 & m5 & Hd1 & [= <-]). apply bind_run in Hd1 as (? & ? & [= <- <-] & Hd1). unfold lift in Hd1.
    rewrite Hd0 in Hd1. injection Hd1 as <- <-. eapply set_more_owners; [exact Hd0|cbn; lia].
Qed.
Lemma upgrade_all_run ws m l m' :
  upgrade_all ws m = Some (l, m') → (∀ b, b ∈ l → b ∈ weak_binding <$> ws) ∧
    ∀ b, b ∈ weak_binding <$> ws → alive m b = true → b ∈ l.
Proof.
  revert m l. induction ws as [|w ws IH]; intros m l Hr; cbn in Hr; [by injection Hr as <- <-|].
  apply bind_run in Hr as (r & m1 & Hw & Hr). apply bind_run in Hr as (rest & m2 & Hrest & [= <- <-]).
  destruct (weak_upgrade_run _ _ _ _ Hw) as (Hm & Hr & Ha). destruct (IH _ _ Hrest) as [Hin Hall]. split.
  - intros b. destruct Hr as [->| ->]; cbn; rewrite ?elem_of_cons; naive_solver.
  - intros b Hb Hab. cbn in Hb. apply elem_of_cons in Hb as [->|Hb]; [rewrite Ha by done; by left|].
    assert (b ∈ rest) by (apply Hall; [done|by eapply more_owners_alive]). destruct r; [by right|done].
Qed.
Lemma mapM_claims (l : list BufferBinding) keyed :
  mapM (λ b, key ← claim_key b; Some (key, b)) l = Some keyed →
  keyed.*2 = l ∧ ∀ kb, kb ∈ keyed → claim_key kb.2 = Some kb.1.
Proof.
  intros Hm%mapM_Some. induction Hm as [|b kb l keyed Hb _ [IHl IHk]]; [by split; [|intros kb ?%elem_of_nil]|].
  destruct (claim_key b) as [key|] eqn:Hk; [|done]. cbn in Hb. injection Hb as <-. cbn. split; [by rewrite IHl|].
  by intros kb [->|?]%elem_of_cons; [|apply IHk].
Qed.
Lemma take_recorded_run (s : CaptureEnv HostBytes) l s' :
  take_recorded sort_unstable s = Some (l, s') → one_per_claim (env_store s) (weak_binding <$> recorded (env_capture s)) l.
Proof.
  unfold take_recorded. intros (c & s0 & [= <- <-] & Hr)%bind_run. apply bind_run in Hr as ([] & s1 & [= <-] & Hr).
  apply bind_run in Hr as (live & s2 & Hl & Hr). unfold on_store in Hl. cbn in Hl.
  destruct (upgrade_all _ _) as [[x m]|] eqn:Hup; [|done]. injection Hl as -> <-. apply upgrade_all_run in Hup as [Hin Hall].
  assert (length live <= 1 → l = live → one_per_claim (env_store s) (weak_binding <$> recorded (env_capture s)) l)%nat as Hfew.
  { intros Hlen ->. split; [|split; [done|]]; [|intros b Hb Ha; exists b; auto].
    destruct live as [|b [|]]; [constructor|apply NoDup_singleton|cbn in Hlen; lia]. }
  destruct live as [|b1 [|b2 live]]; [injection Hr as <- _; apply Hfew; [cbn; lia|done]..|]. clear Hfew.
  apply bind_run in Hr as (keyed & s3 & Hm & Hr). unfold lift in Hm. destruct (mapM _ _) as [k|] eqn:Hk; [|done]. injection Hm as -> <-.
  destruct (mapM_claims _ _ Hk) as [Hsnd Hkey]. set (live' := b1 :: b2 :: live) in *.
  destruct (dedup_spec fst (sort_unstable keyed) (sort_sorted keyed)) as (kept & dropped & Hdd & Hperm & Hnd & Hkeys).
  rewrite (sort_perm keyed) in Hperm. rewrite Hdd in Hr. apply bind_run in Hr as ([] & s4 & _ & [= <- _]).
  assert (∀ kb, kb ∈ kept → kb ∈ keyed) as Hsub by (intros kb Hkb; rewrite <- Hperm; apply elem_of_app; by left).
  split; [|split].
  - assert (claim_key <$> kept.*2 = Some <$> kept.*1) as ->; [|apply NoDup_fmap_2; [by intros ?? [=]|done]].
    rewrite <- !list_fmap_compose. apply list_fmap_ext. intros i kb Hkb. apply Hkey, Hsub. by eapply list_elem_of_lookup_2.
  - intros b (kb & -> & Hkb)%list_elem_of_fmap. apply Hin. rewrite <- Hsnd. by apply list_elem_of_fmap_2, Hsub.
  - intros b Hb Ha. pose proof (Hall b Hb Ha) as Hbl. rewrite <- Hsnd in Hbl. apply list_elem_of_fmap in Hbl as (kb & -> & Hkb).
    assert (kb.1 ∈ kept.*1) as (kb' & He & Hkb')%list_elem_of_fmap.
    { apply Hkeys. rewrite (sort_perm keyed). by apply list_elem_of_fmap_2. }
    exists kb'.2. split; [by apply list_elem_of_fmap_2|]. by rewrite (Hkey kb' (Hsub _ Hkb')), <- He, (Hkey kb Hkb).
Qed.
End taken.

(** ** Witnesses *)
Section witnesses.
Let answer (st : Bytes.BytesStorage) (n : Z) : bool := true.
#[local] Instance capture_bytes : ComputeStorage Bytes.BytesStorage := Bytes.storage_bytes_storage answer.

Definition recording_device : RecordingDevice unit :=
  mk_RecordingDevice (memory manager_world) 1 [mk_StreamCapture (Capture 7) [] [] [] [] None].
Lemma recording_device_reachable : rtc device_step (mk_RecordingDevice (memory manager_world) 0 []) recording_device.
Proof.
  eapply rtc_l; [apply step_create; cbn; lia|].
  eapply rtc_l; [apply (step_prepare _ 0 7 (Ok tt)); reflexivity|].
  apply rtc_once, (step_begin _ 0 (Ok tt)). reflexivity.
Qed.
Lemma recording_keeps_pages_witness :
  ∃ r mm' w', mm_reserve manager_example 7 Forbidden false manager_world = Some (Ok r, mm', w') ∧
    same_storage manager_world w'.
Proof.
  destruct (recording_keeps_pages (memory manager_world) recording_device 0 (mk_StreamCapture (Capture 7) [] [] [] [] None)
    0 (mk_StreamCapture (Capture 7) [] [] [] [] None) recording_device_reachable) as (update & Hu & Hk);
    [reflexivity|reflexivity|reflexivity|].
  assert (update = Forbidden) as -> by (vm_compute in Hu; congruence).
  destruct (mm_reserve manager_example 7 Forbidden false manager_world) as [[[[h|e] mm'] w']|] eqn:Hr;
    [|vm_compute in Hr; discriminate|vm_compute in Hr; discriminate].
  exists h, mm', w'. split; [reflexivity|]. by apply (Hk manager_example 7 false manager_world (Ok h) mm' w' Hr).
Defined.

Lemma manager_memory_wf : memory_wf (memory manager_world).
Proof.
  split; [cbn; lia|]. apply (bool_decide_unpack (map_Forall (λ id d,
    0 <= id < 3 ∧ 0 <= handles d ∧ 0 <= Handle.bindings d) (descriptors (memory manager_world)))).
  vm_compute. exact I.
Qed.
Definition front_half : BufferBinding := mk_BufferBinding 1 None (Some 4) 7 8.
Lemma window_records_witness :
  whole_capture 7 8 [WPrime 2] [WRecord [front_half]; WFail TornDown; WFail Skipped; WRetain tt]
    (mk_CaptureEnv (memory manager_world) 3 capture_new) = Some
    (Ok (Abandoned 7), mk_CaptureEnv (memory manager_world) 3
       (mk_StreamCapture NoCapture [downgrade front_half] [] [] [tt] (Some TornDown))).
Proof.
  apply (window_records 7 8 [WPrime 2] [WRecord [front_half]; WFail TornDown; WFail Skipped; WRetain tt]
    (mk_CaptureEnv (memory manager_world) 3 capture_new)); cbn [env_capture env_store device_recording].
  - reflexivity.
  - reflexivity.
  - apply manager_memory_wf.
  - intros id ->%list_elem_of_singleton. by eexists.
  - reflexivity.
  - lia.
Defined.

Lemma key_le_total {A} (key : A → list Z) x y : key_le key x y ∨ key_le key y x.
Proof.
  unfold key_le. rewrite !Is_true_true. generalize (key x), (key y). intros l. induction l as [|a l IH]; intros [|b k]; cbn; auto.
  destruct (IH k) as [H|H]; rewrite H; destruct (Z.ltb_spec a b), (Z.ltb_spec b a), (Z.eqb_spec a b), (Z.eqb_spec b a); cbn; auto; lia.
Qed.
Lemma recorded_claims_once_witness :
  ∃ l s', take_recorded (HostBytes := unit) (merge_sort (key_le fst))
    (mk_CaptureEnv (memory manager_world) 0 (mk_StreamCapture NoCapture
       [downgrade front_half; mk_WeakBufferBinding (mk_BufferBinding 0 None None 7 8); downgrade front_half] [] [] [] None))
    = Some (l, s') ∧ l = [front_half] ∧ NoDup (claim_key <$> l).
Proof.
  destruct (recorded_claims_once (HostBytes := unit) (merge_sort (key_le fst)) (merge_sort_Permutation _)
    (@Sorted_merge_sort _ (key_le fst) _ (key_le_total fst))
    (mk_CaptureEnv (memory manager_world) 0 (mk_StreamCapture NoCapture
       [downgrade front_half; mk_WeakBufferBinding (mk_BufferBinding 0 None None 7 8); downgrade front_half] [] [] [] None)))
    as (l & Hl & Hnd & _).
  - apply manager_memory_wf.
  - intros id Hid. cbn in Hid. apply elem_of_cons in Hid as [->|[->|[->|[]%not_elem_of_nil]%elem_of_cons]%elem_of_cons]; by eexists.
  - cbn. repeat (constructor; [by eexists|]). constructor.
  - exists l. eexists. split; [exact Hl|]. split; [|exact Hnd]. vm_compute in Hl. by injection Hl as <-.
Defined.
End witnesses.
