(* ===== verification/ExecuteScope.v ===== *)
(** * The scope of a unit of work

    [cubecl-server/src/stream/execute_scope.rs]: work runs inside a scope that
    claims what it is to write before it runs, settles the claim by how it
    ended, skips a launch whose inputs carry a failure, and tells the graph
    capture of its stream.  A server is an interface ([WriteScoped]). *)

From S2P Require Export Capture Streams.
From stdpp Require Import list.
#[local] Open Scope Z_scope.

(** The driver of the streams and the captures are borrowed from the server:
    what is read is written back. *)
Class WriteScoped (Srv S HostBytes : Type) := {
  write_streams : Srv → Device S;
  set_write_streams : Device S → Srv → Srv;
  on_failure : StreamId → ServerError → Srv → Srv;
  capturing : Srv → StreamId → option (StreamCapture HostBytes);
  set_capturing : StreamId → StreamCapture HostBytes → Srv → Srv;
}.
Class WriteScopedLaws (Srv S HostBytes : Type) `{WriteScoped Srv S HostBytes} := {
  streams_set d srv : write_streams (set_write_streams d srv) = d;
  capturing_set_streams d srv st : capturing (set_write_streams d srv) st = capturing srv st;
  streams_on_failure st e srv : write_streams (on_failure st e srv) = write_streams srv;
  capturing_on_failure st e srv st' : capturing (on_failure st e srv) st' = capturing srv st';
  streams_set_capturing st c srv : write_streams (set_capturing st c srv) = write_streams srv;
  capturing_set st c c' srv : capturing srv st = Some c → capturing (set_capturing st c' srv) st = Some c';
}.

Inductive ScopedOutcome (R : Type) := Executed (result : R) | ScopeSkipped | ScopeFailed (e : ServerError).
Arguments Executed {R}. Arguments ScopeSkipped {R}. Arguments ScopeFailed {R}.
Definition into_result {R} (o : ScopedOutcome R) : result R ServerError :=
  match o with Executed r => Ok r | ScopeFailed e => Err e | ScopeSkipped => Err Skipped end.

Inductive Opened :=
| Entered (provisional : option FailureId) (written : list BufferBinding)
| OpenedSkipped.
Record ExecuteScope := mk_ExecuteScope { scope_stream : StreamId; opened : Opened }.
Definition scope_skipped (s : ExecuteScope) : bool := match opened s with OpenedSkipped => true | _ => false end.

Section scope.
Context {Srv S HostBytes : Type} `{StreamMemory S} `{!WriteScoped Srv S HostBytes}.

Definition on_streams {A} (m : M (Device S) A) : M Srv A := λ srv,
  match m (write_streams srv) with Some (a, d) => Some (a, set_write_streams d srv) | None => None end.
Definition server_write_set : M Srv (list BufferBinding) := on_streams write_set.
(** What the capture of the stream is told, when there is one. *)
Definition tell_capture (stream : StreamId) (f : StreamCapture HostBytes → StreamCapture HostBytes) : M Srv unit :=
  modify (λ srv, match capturing srv stream with Some c => set_capturing stream (f c) srv | None => srv end).

Definition scope_over (stream : StreamId) (written : list BufferBinding) : M Srv ExecuteScope :=
  provisional ← on_streams (enter_write written);
  mret (mk_ExecuteScope stream (Entered provisional written)).
Definition scope_launching (kernel : KernelId) (stream : StreamId) (reads written : list BufferBinding) :
    M Srv ExecuteScope :=
  srv ← get;
  found ← lift (read_failure (write_streams srv) reads);
  match found with
  | None => scope_over stream written
  | Some found =>
      _ ← modify (on_failure stream (read_error found));
      _ ← tell_capture stream (fail_into (read_error found));
      _ ← on_streams (propagate found kernel written);
      mret (mk_ExecuteScope stream OpenedSkipped)
  end.
Definition scope_execute {R} (scope : ExecuteScope) (body : M Srv (result R ServerError)) : M Srv (ScopedOutcome R) :=
  match opened scope with
  | OpenedSkipped => mret ScopeSkipped
  | Entered provisional written =>
      r ← body;
      _ ← tell_capture (scope_stream scope) (match r with Ok _ => record_into written | Err e => fail_into e end);
      _ ← on_streams (exit_write provisional written (match r with Ok _ => None | Err e => Some e end));
      match r with
      | Ok a => mret (Executed a)
      | Err e => _ ← modify (on_failure (scope_stream scope) e); mret (ScopeFailed e)
      end
  end.
Definition failed_writing (stream : StreamId) (written : list BufferBinding) (error : ServerError) : M Srv unit :=
  scope ← scope_over stream written;
  _ ← scope_execute (R := unit) scope (mret (Err error));
  mret tt.
End scope.

(** ** What a scope ensures *)
Section spec.
Context {Srv S HostBytes : Type} `{StreamMemoryLaws S} `{!WriteScoped Srv S HostBytes}.
Context `{!WriteScopedLaws Srv S HostBytes}.
Implicit Types (srv : Srv) (d : Device S) (reads written : list BufferBinding).

Lemma wp_on_streams {A} (m : M (Device S) A) srv (Q : A → Srv → Prop) :
  wp m (write_streams srv) (λ a d, Q a (set_write_streams d srv)) → wp (on_streams m) srv Q.
Proof. unfold wp, on_streams. by destruct (m (write_streams srv)) as [[a d]|]. Qed.
(** Telling the capture leaves the streams alone. *)
Lemma wp_tell_capture stream f srv (Q : unit → Srv → Prop) :
  (∀ srv', write_streams srv' = write_streams srv →
     capturing srv' stream = f <$> capturing srv stream → Q tt srv') →
  wp (tell_capture stream f) srv Q.
Proof.
  intros HQ. apply wp_modify. apply HQ.
  - destruct (capturing srv stream); [apply streams_set_capturing|done].
  - destruct (capturing srv stream) as [c|] eqn:Hc; [by eapply capturing_set|by rewrite Hc].
Qed.

(** What the work of a scope may do: [P] relates the server it runs on to the
    one it leaves, and the failures are the scope's to keep. *)
Definition body_ok {R} (P : result R ServerError → Srv → Srv → Prop) (body : M Srv (result R ServerError)) : Prop :=
  ∀ srv, wp body srv (λ r srv', write_streams srv' = write_streams srv ∧ P r srv srv').

(** How a scope over [written] leaves a server, by the outcome of its work. *)
Definition settled {R} (P : result R ServerError → Srv → Srv → Prop) (stream : StreamId) written srv
    (outcome : ScopedOutcome R) srv' : Prop :=
  let d := write_streams srv in let d' := write_streams srv' in
  ∃ r srv1 srv2, P r srv1 srv2 ∧ all_failed TornDown written d (write_streams srv1) ∧
    unchanged_but written d (write_streams srv1) ∧ capturing srv1 stream = capturing srv stream ∧
    match r with
    | Ok a => outcome = Executed a ∧
        (∀ i id byte, named (max_streams (device_pool d)) written i id byte →
           owner_at (streams (device_pool d')) i id byte = None) ∧
        capturing srv' stream = record_into written <$> capturing srv2 stream
    | Err e => outcome = ScopeFailed e ∧ all_failed e written d d' ∧
        capturing srv' stream = fail_into e <$> capturing srv2 stream
    end.
(** No other claim changes, and the counts stay exact. *)
Definition only_claims written srv srv' : Prop :=
  let d := write_streams srv in let d' := write_streams srv' in
  device_inv None d' ∧ scratch d' = [] ∧ unchanged_but written d d' ∧ still_means d d'.

Lemma scope_entered {R} P stream written (body : M Srv (result R ServerError)) srv :
  body_ok P body → device_inv None (write_streams srv) → Forall binding_ok written →
  minted (graph (write_streams srv)) < u64_max →
  wp (scope ← scope_over stream written; scope_execute scope body) srv (λ outcome srv',
    only_claims written srv srv' ∧ settled P stream written srv outcome srv').
Proof.
  intros Hbody Hinv Hok Hlt. apply wp_bind, wp_bind, wp_on_streams.
  (* both ways the work may end *)
  assert (∀ err, wp (enter_write written) (write_streams srv) (λ p d1, unchanged_but written (write_streams srv) d1 ∧
    all_failed TornDown written (write_streams srv) d1 ∧ wp (exit_write p written err) d1 (λ _ d2,
      (device_inv None d2 ∧ scratch d2 = [] ∧ unchanged_but written (write_streams srv) d2 ∧ still_means (write_streams srv) d2) ∧
      match err with
      | None => ∀ i id byte, named (max_streams (device_pool (write_streams srv))) written i id byte →
          owner_at (streams (device_pool d2)) i id byte = None
      | Some e => all_failed e written (write_streams srv) d2
      end))) as Hscope.
  { intros err. eapply wp_mono; [by apply (write_scope written err)|]. intros p d1 (_ & Hu & _ & Hf & Hex).
    split; [done|]. split; [done|]. eapply wp_mono; [exact Hex|]. intros [] d2 (? & ? & ? & ? & Hr).
    split; [done|]. destruct err; [done|apply Hr]. }
  destruct (enter_write written (write_streams srv)) as [[p d1]|] eqn:Hent.
  2: { specialize (Hscope None). unfold wp in Hscope. by rewrite Hent in Hscope. }
  assert (∀ err, wp (exit_write p written err) d1 (λ _ d2,
      (device_inv None d2 ∧ scratch d2 = [] ∧ unchanged_but written (write_streams srv) d2 ∧ still_means (write_streams srv) d2) ∧
      match err with
      | None => ∀ i id byte, named (max_streams (device_pool (write_streams srv))) written i id byte →
          owner_at (streams (device_pool d2)) i id byte = None
      | Some e => all_failed e written (write_streams srv) d2
      end)) as Hexit.
  { intros err. specialize (Hscope err). unfold wp at 1 in Hscope. rewrite Hent in Hscope. by destruct Hscope as (_ & _ & ?). }
  specialize (Hscope None). unfold wp at 1 in Hscope. rewrite Hent in Hscope. destruct Hscope as (Hu1 & Hf1 & _).
  unfold wp at 1. rewrite Hent. apply wp_ret. set (srv1 := set_write_streams d1 srv).
  unfold scope_execute. cbn [opened scope_stream]. apply wp_bind. eapply wp_mono; [apply (Hbody srv1)|].
  intros r srv2 [Hs2 HP]. unfold srv1 in Hs2. rewrite streams_set in Hs2.
  apply wp_bind, wp_tell_capture. intros srv3 Hs3 Hc3. apply wp_bind, wp_on_streams. rewrite Hs3, Hs2.
  eapply wp_mono; [apply Hexit|]. intros [] d2 [Hclaims Hr].
  assert (∀ outcome srv', write_streams srv' = d2 → capturing srv' stream = capturing srv3 stream →
    match r with Ok a => outcome = Executed a | Err e => outcome = ScopeFailed e end →
    only_claims written srv srv' ∧ settled P stream written srv outcome srv') as Hdone.
  { intros outcome srv' Hs' Hc' Hout. unfold only_claims, settled. rewrite Hs'. split; [done|].
    exists r, srv1, srv2. unfold srv1. rewrite streams_set, capturing_set_streams. split_and!; try done.
    rewrite Hc', Hc3. destruct r; done. }
  destruct r as [a|e].
  - apply wp_ret, Hdone; [apply streams_set|apply capturing_set_streams|done].
  - apply wp_bind, wp_modify, wp_ret, Hdone; [|by rewrite capturing_on_failure, capturing_set_streams|done].
    by rewrite streams_on_failure, streams_set.
Qed.

(** C11: a unit of device work keeps the failures of its device true.  When a byte
    a launch reads is owned by a failure, its body does not run: every byte it
    was to write takes that failure, and a recording of its stream is doomed
    with it.  Otherwise the body runs with every byte it is to write claimed,
    so that one that never returns leaves none of them readable; when it
    succeeds those bytes have no owner and a recording remembers them, and when
    it fails they all fail with its error and the recording is doomed.  No
    other byte changes owner, no failure its meaning, and the counts stay
    exact. *)
Theorem scoped_launch {R} P kernel stream reads written (body : M Srv (result R ServerError)) srv :
  body_ok P body → device_inv None (write_streams srv) → Forall binding_ok reads → Forall binding_ok written →
  minted (graph (write_streams srv)) < u64_max →
  (∀ f n, nodes (graph (write_streams srv)) !! f = Some n → skipped_total n < u64_max) →
  wp (scope ← scope_launching kernel stream reads written; scope_execute scope body) srv (λ outcome srv',
    let d := write_streams srv in let d' := write_streams srv' in
    only_claims written srv srv' ∧
    (Forall (clean d) reads ∧ settled P stream written srv outcome srv' ∨
     outcome = ScopeSkipped ∧ ∃ b f e, b ∈ reads ∧ fails_with d b f ∧ error_of (graph d) f = Some e ∧
       error_of (graph d') f = Some e ∧
       (∀ i id byte, named (max_streams (device_pool d)) written i id byte → held_at (streams (device_pool d)) i id →
          owner_at (streams (device_pool d')) i id byte = Some f) ∧
       capturing srv' stream = fail_into e <$> capturing srv stream)).
Proof.
  intros Hbody Hinv Hr Hw Hlt Hskips. destruct (read_failure_spec _ _ reads Hinv Hr) as (res & Hres & Hfound).
  destruct res as [found|].
  2: { pose proof (scope_entered P stream written body srv Hbody Hinv Hw Hlt) as Hent. unfold wp in *.
       replace ((scope ← scope_launching kernel stream reads written; scope_execute scope body) srv)
         with ((scope ← scope_over stream written; scope_execute scope body) srv).
       - destruct ((scope ← scope_over stream written; scope_execute scope body) srv) as [[o srv']|]; [|done].
         destruct Hent. split; [done|]. by left.
       - unfold scope_launching, mbind, M_bind, get, lift. by rewrite Hres. }
  destruct Hfound as (pre & b & post & -> & Hpre & Hfail & Hneed & Herr).
  apply wp_bind. unfold scope_launching. apply wp_bind. unfold wp at 1. cbn [get]. apply wp_bind. eapply wp_lift; [exact Hres|].
  apply wp_bind, wp_modify, wp_bind, wp_tell_capture. intros srv1 Hs1 Hc1. rewrite streams_on_failure in Hs1.
  rewrite capturing_on_failure in Hc1. apply wp_bind, wp_on_streams. rewrite Hs1.
  unfold error_of in Herr. destruct (nodes (graph (write_streams srv)) !! read_failure_id found) as [n|] eqn:Hn; [|done].
  eapply wp_mono; [apply (propagate_correct found kernel written n); [done|done|done|by eapply Hskips]|].
  intros [] d' (Hi & Hsc & Hu & Hm & Hown & n' & Hn' & He' & _). apply wp_ret, wp_ret. unfold only_claims.
  rewrite streams_set. split; [done|]. right. split; [done|].
  exists b, (read_failure_id found), (error n). rewrite capturing_set_streams.
  split_and!; [set_solver|done|unfold error_of; by rewrite Hn|unfold error_of; rewrite Hn'; cbn; by rewrite He'|done|].
  rewrite Hc1. cbn in Herr. by injection Herr as ->.
Qed.

(** Work that failed before it ran: its write set fails with its error. *)
Lemma failed_writing_correct stream written e srv :
  device_inv None (write_streams srv) → Forall binding_ok written → minted (graph (write_streams srv)) < u64_max →
  wp (failed_writing stream written e) srv (λ _ srv',
    only_claims written srv srv' ∧ all_failed e written (write_streams srv) (write_streams srv')).
Proof.
  intros Hinv Hok Hlt.
  pose proof (scope_entered (R := unit) (λ r _ _, r = Err e) stream written (mret (Err e)) srv
    (λ srv', conj eq_refl eq_refl) Hinv Hok Hlt) as Hent.
  unfold failed_writing. apply wp_bind. apply wp_bind_inv in Hent. eapply wp_mono; [exact Hent|].
  intros scope srv1 Hex. apply wp_bind. eapply wp_mono; [exact Hex|].
  intros o srv2 [Hc (r & s1 & s2 & -> & _ & _ & _ & _ & Hf & _)]. by apply wp_ret.
Qed.
End spec.

(** ** A server of two streams, its captures recording *)
Module Scoped.
Import Held.
Abbreviation server := (Device held * StreamCapture unit * list ServerError)%type.
#[export] Instance server_scoped : WriteScoped server held unit := {|
  write_streams srv := srv.1.1;
  set_write_streams d srv := (d, srv.1.2, srv.2);
  on_failure _ e srv := (srv.1, e :: srv.2);
  capturing srv _ := Some srv.1.2;
  set_capturing _ c srv := (srv.1.1, c, srv.2);
|}.
#[export] Instance server_laws : WriteScopedLaws server held unit.
Proof. by split. Qed.
Definition recording : StreamCapture unit := with_state (Capture.Capture 0) capture_new.
Definition scoped_server : server := (device, recording, []).
(** A body that fails on a server that has logged nothing. *)
Definition body : M server (result unit ServerError) :=
  srv ← get; mret (match srv.2 with [] => Err TornDown | _ => Ok tt end).
Definition body_means (r : result unit ServerError) (srv srv' : server) : Prop :=
  srv' = srv ∧ (srv.2 = [] → r = Err TornDown).
Lemma body_is_ok : body_ok body_means body.
Proof. by intros [[d c] [|e l]]. Qed.
(** A launch that reads [reads] and writes memory 8. *)
Definition run (reads : list BufferBinding) : M server (ScopedOutcome unit) :=
  scope ← scope_launching (S := held) (HostBytes := unit) (mk_KernelId "k" 0) 0 reads [at_memory 8 0];
   scope_execute (S := held) (HostBytes := unit) scope body.
Definition claims_kept : server → server → Prop :=
  only_claims (Srv := server) (S := held) (HostBytes := unit) [at_memory 8 0].
End Scoped.
Import Held Scoped.

(** A launch that reads a failed byte is skipped; one that reads none fails with
    its body, and what it was to write with it. *)
Lemma scoped_launch_witness :
  (∃ srv' : server, run [at_memory 7 50] scoped_server = Some (ScopeSkipped, srv') ∧
     owner_at (streams (device_pool srv'.1.1)) 0 8 60 = Some 1) ∧
  wp (run [at_memory 7 100]) scoped_server (λ outcome (srv' : server),
    (outcome = ScopeFailed TornDown ∧ capture_failed srv'.1.2 = Some TornDown) ∧
    claims_kept scoped_server srv').
Proof.
  split; [eexists; vm_compute; split; reflexivity|]. apply wp_conj; [vm_compute; auto|].
  eapply wp_mono; [apply (scoped_launch (S := held) (HostBytes := unit) body_means (mk_KernelId "k" 0) 0
    [at_memory 7 100] [at_memory 8 0] body scoped_server body_is_ok device_ok)|].
  - repeat constructor; by eexists.
  - repeat constructor; by eexists.
  - vm_compute; reflexivity.
  - intros f n. cbn. intros [<- <-]%lookup_singleton_Some. vm_compute; reflexivity.
  - intros outcome srv' [Hc _]. exact Hc.
Defined.
