(* ===== verification/Command.v ===== *)
(** * Commands

    [cubecl-server/src/command/base.rs], [backend.rs], [staging.rs] and
    [stream_copies.rs]: one unit of work of a server against the streams it was
    resolved over.  It allocates and reclaims, moves host memory to the device
    and back, and launches, and each of these defers to the graph capture of
    its stream.  A driver is an interface; what it is given of a stream is the
    stream's signal.  The cursors a pool keeps beside its streams are not
    touched by a command and left out, and so is the service. *)

From S2P Require Export DropQueue Capture Allocator.
From stdpp Require Import list gmap strings.
#[local] Open Scope Z_scope.

#[global] Instance PageUpdate_eq_dec : EqDecision PageUpdate.
Proof. solve_decision. Defined.

(** ** Staging *)
Inductive AllocationProperty := FileBacked | NativeMemory | PinnedMemory | DeviceMemory | OtherMemory.
#[global] Instance AllocationProperty_eq_dec : EqDecision AllocationProperty.
Proof. solve_decision. Defined.

Definition MB : Z := 1024 * 1024.
Definition STAGE_MAX : Z := 100 * MB.
Definition FLUSH_MIN : Z := 10 * MB.
Record Staging := mk_Staging { through_pinned : bool; flush_after : bool }.
Definition staging_of (size : Z) (property : AllocationProperty) : Staging :=
  let file_backed := bool_decide (property = FileBacked) in
  mk_Staging (file_backed || (size <? STAGE_MAX) && bool_decide (property ≠ PinnedMemory))
    (file_backed || (FLUSH_MIN <? size)).

(** ** The layout of a copy *)
Record CopyLayout := mk_CopyLayout {
  layout_of_shape : Shape;
  layout_of_strides : Strides;
  layout_of_elem_size : Z;
  layout_pitch : option Pitch;
}.
Definition copy_layout_of (shape : Shape) (strides : Strides) (elem_size : Z) : option (result CopyLayout IoError) :=
  pitched ← has_pitched_row_major_strides shape strides;
  if negb pitched then Some (Err UnsupportedStrides)
  else pitch ← pitch_of shape strides elem_size; Some (Ok (mk_CopyLayout shape strides elem_size pitch)).

(** ** The driver

    [D] is the device with the context of the driver, [F] a fence, [Sg] the
    signal of a stream and [Args] what a kernel is handed. *)
Class Driver (D F Sg Args : Type) := {
  driver_fence : Sg → M D F;
  driver_waits :: Fence F D;
  pinned_bytes : ManagedMemoryId → StorageHandle → Z → M D Bytes;
  heap_bytes : Z → M D Bytes;
  copy_to_host : StorageHandle → CopyLayout → Bytes → Sg → M D (result unit IoError);
  copy_to_device : StorageHandle → CopyLayout → Bytes → Sg → M D (result unit IoError);
  copy_on_device : StorageHandle → StorageHandle → Sg → M D (result unit IoError);
  wait_outside_streams : M D (result unit ServerError);
  launch : Sg → KernelId → Z * Z * Z → Args → M D (result unit LaunchError * Args);
}.

(** A stream, what the streams share, and a command over them. *)
Record CommandStream (St HSt F Sg : Type) := mk_CommandStream {
  stream_signal : Sg;
  device_manager : MemoryManagement;
  device_storage : St;
  host_manager : MemoryManagement;
  host_storage : HSt;
  stream_queue : PendingDropQueue F;
  stream_capture : StreamCapture Bytes;
  info_cache : MetadataInfoCache BufferHandle;
}.
Record CommandShared (D : Type) := mk_CommandShared {
  shared_memory : Memory;
  shared_failures : ErrorGraph;
  shared_storage_ids : Z;
  shared_recording : Z;
  shared_device : D;
  shared_dropped : list Bytes;
}.
Record Command (St HSt F Sg D : Type) := mk_Command {
  command_pool : StreamPool (CommandStream St HSt F Sg);
  command_shared : CommandShared D;
  command_current : StreamId;
  command_cursor : Z;
}.
Arguments mk_CommandStream {St HSt F Sg}. Arguments stream_signal {St HSt F Sg}. Arguments device_manager {St HSt F Sg}.
Arguments device_storage {St HSt F Sg}. Arguments host_manager {St HSt F Sg}. Arguments host_storage {St HSt F Sg}.
Arguments stream_queue {St HSt F Sg}. Arguments stream_capture {St HSt F Sg}. Arguments info_cache {St HSt F Sg}.
Arguments mk_CommandShared {D}. Arguments shared_memory {D}. Arguments shared_failures {D}.
Arguments shared_storage_ids {D}. Arguments shared_recording {D}. Arguments shared_device {D}. Arguments shared_dropped {D}.
Arguments mk_Command {St HSt F Sg D}. Arguments command_pool {St HSt F Sg D}. Arguments command_shared {St HSt F Sg D}.
Arguments command_current {St HSt F Sg D}. Arguments command_cursor {St HSt F Sg D}.

(** ** What a command reaches of a stream *)
Section stream.
Context {St HSt F Sg D Args : Type} `{ComputeStorage St} `{ComputeStorage HSt} `{!Driver D F Sg Args}.
Abbreviation Stream := (CommandStream St HSt F Sg).
Abbreviation Env := (CommandStream St HSt F Sg * CommandShared D)%type.

Definition with_device (mm : MemoryManagement) (st : St) (s : Stream) : Stream :=
  mk_CommandStream (stream_signal s) mm st (host_manager s) (host_storage s) (stream_queue s) (stream_capture s) (info_cache s).
Definition with_host (mm : MemoryManagement) (st : HSt) (s : Stream) : Stream :=
  mk_CommandStream (stream_signal s) (device_manager s) (device_storage s) mm st (stream_queue s) (stream_capture s) (info_cache s).
Definition with_queue (q : PendingDropQueue F) (s : Stream) : Stream :=
  mk_CommandStream (stream_signal s) (device_manager s) (device_storage s) (host_manager s) (host_storage s) q
    (stream_capture s) (info_cache s).
Definition with_capture (c : StreamCapture Bytes) (s : Stream) : Stream :=
  mk_CommandStream (stream_signal s) (device_manager s) (device_storage s) (host_manager s) (host_storage s) (stream_queue s)
    c (info_cache s).
Definition with_info (c : MetadataInfoCache BufferHandle) (s : Stream) : Stream :=
  mk_CommandStream (stream_signal s) (device_manager s) (device_storage s) (host_manager s) (host_storage s) (stream_queue s)
    (stream_capture s) c.
Definition with_shared_world (m : Memory) (g : ErrorGraph) (ids : Z) (sh : CommandShared D) : CommandShared D :=
  mk_CommandShared m g ids (shared_recording sh) (shared_device sh) (shared_dropped sh).
Definition with_shared_device (d : D) (dropped : list Bytes) (sh : CommandShared D) : CommandShared D :=
  mk_CommandShared (shared_memory sh) (shared_failures sh) (shared_storage_ids sh) (shared_recording sh) d dropped.
Definition with_shared_recording (m : Memory) (n : Z) (sh : CommandShared D) : CommandShared D :=
  mk_CommandShared m (shared_failures sh) (shared_storage_ids sh) n (shared_device sh) (shared_dropped sh).

Definition signal : M Env Sg := gets (λ e, stream_signal e.1).
(** [device_memory] and [host_memory], with the failures of the device. *)
Definition device_memory {A} (op : MemoryManagement → M (World St) (A * MemoryManagement)) : M Env A := λ '(s, sh),
  '(a, mm, w) ← op (device_manager s)
    (mk_World (shared_memory sh) (shared_failures sh) (shared_storage_ids sh) (device_storage s));
  Some (a, (with_device mm (storage w) s, with_shared_world (memory w) (failures w) (storage_ids w) sh)).
Definition host_memory {A} (op : MemoryManagement → M (World HSt) (A * MemoryManagement)) : M Env A := λ '(s, sh),
  '(a, mm, w) ← op (host_manager s)
    (mk_World (shared_memory sh) (shared_failures sh) (shared_storage_ids sh) (host_storage s));
  Some (a, (with_host mm (storage w) s, with_shared_world (memory w) (failures w) (storage_ids w) sh)).
Definition drop_queue (op : PendingDropQueue F → M (DropWorld D) (PendingDropQueue F)) : M Env unit := λ '(s, sh),
  '(q, w) ← op (stream_queue s) (mk_DropWorld (shared_device sh) (shared_dropped sh));
  Some (tt, (with_queue q s, with_shared_device (DropQueue.device w) (DropQueue.dropped w) sh)).
Definition on_capture {A} (op : M (CaptureEnv Bytes) A) : M Env A := λ '(s, sh),
  '(a, e) ← op (mk_CaptureEnv (shared_memory sh) (shared_recording sh) (stream_capture s));
  Some (a, (with_capture (env_capture e) s, with_shared_recording (env_store e) (device_recording e) sh)).
Definition on_descriptors {A} (op : M Memory A) : M Env A := λ '(s, sh),
  '(a, m) ← op (shared_memory sh);
  Some (a, (s, with_shared_world m (shared_failures sh) (shared_storage_ids sh) sh)).
Definition on_driver {A} (op : M D A) : M Env A := λ '(s, sh),
  '(a, d) ← op (shared_device sh); Some (a, (s, with_shared_device d (shared_dropped sh) sh)).
(** Dropping host memory. *)
Definition drop_host (l : list Bytes) : M Env unit :=
  modify (λ '(s, sh), (s, with_shared_device (shared_device sh) (shared_dropped sh ++ l) sh)).

(** The entries a step of the metadata cache removes drop their handles. *)
Context (entry_order : gmap InfoCacheKey (CacheEntry BufferHandle) → list (InfoCacheKey * CacheEntry BufferHandle)).
Fixpoint drop_handles (l : list ManagedMemoryId) : M Memory unit :=
  match l with [] => mret tt | id :: l => _ ← handle_drop id; drop_handles l end.
Definition removed_handles (c c' : MetadataInfoCache BufferHandle) : list ManagedMemoryId :=
  omap (λ ke : InfoCacheKey * CacheEntry BufferHandle,
    if decide (cache_entries c' !! ke.1 = None) then Some (handle_memory (entry_value ke.2)) else None)
    (entry_order (cache_entries c)).
Definition on_info (f : MetadataInfoCache BufferHandle → MetadataInfoCache BufferHandle) : M Env unit :=
  c ← gets (λ e : Env, info_cache e.1);
  _ ← modify (λ e : Env, (with_info (f c) e.1, e.2));
  on_descriptors (drop_handles (removed_handles c (f c))).

(** The queue flushed or drained behind fences of the stream. *)
Definition flush_queue : M Env unit := sg ← signal; drop_queue (DropQueue.flush (driver_fence sg)).
Definition drain_queue : M Env unit := sg ← signal; drop_queue (drain (driver_fence sg)).
Definition queue_push (bytes : Bytes) : M Env unit := drop_queue (λ q, mret (push bytes q)).
End stream.

(** ** The operations *)
Section command.
Context {St HSt F Sg D Args : Type} `{ComputeStorage St} `{ComputeStorage HSt} `{!Driver D F Sg Args}.
Context (entry_order : gmap InfoCacheKey (CacheEntry BufferHandle) → list (InfoCacheKey * CacheEntry BufferHandle)).
(** What the backend creates the stream of an id as, whether the run is dry, and the kind
    of memory of host bytes. *)
Context (new_stream : StreamId → CommandStream St HSt F Sg) (dry_run : bool) (bytes_property : Bytes → AllocationProperty).
Abbreviation Stream := (CommandStream St HSt F Sg).
Abbreviation Env := (CommandStream St HSt F Sg * CommandShared D)%type.
Abbreviation Cmd := (Command St HSt F Sg D).

Definition with_command (p : StreamPool Stream) (sh : CommandShared D) (c : Cmd) : Cmd :=
  mk_Command p sh (command_current c) (command_cursor c).

(** [streams.get(&id)], which creates the stream, and what is done to it. *)
Definition at_stream {A} (id : StreamId) (op : M Env A) : M Cmd A := λ c,
  '(s, p) ← get_mut (new_stream id) id (command_pool c);
  index ← stream_index id (max_streams p);
  '(a, (s, sh)) ← op (s, command_shared c);
  Some (a, with_command (with_streams (<[index := Some s]> (streams p)) p) sh c).
Definition current {A} (op : M Env A) : M Cmd A := c ← get; at_stream (command_current c) op.
Definition all_streams : M Cmd (list Stream) := c ← get; mret (pool_streams (command_pool c)).

(** *** Memory *)
Definition command_resource (b : BufferBinding) : M Cmd (result StorageHandle IoError) :=
  location ← current (on_descriptors (location (binding_memory b)));
  _ ← current (on_capture (capture_touch (binding_stream b) location));
  at_stream (binding_stream b) (device_memory (λ mm,
    Manager.get_resource mm (binding_memory b) (binding_offset_start b) (binding_offset_end b))).
(** [MemoryManagement::managed_resource]: the binding that the resource holds is
    dropped with it. *)
Definition mm_managed_resource (mm : MemoryManagement) (binding : ManagedMemoryId) (start end_ : option Z) :
    M (World St) (result (ManagedMemoryId * StorageHandle) IoError * MemoryManagement) :=
  _ ← on_memory (binding_clone binding);
  '(r, mm) ← Manager.get_resource mm binding start end_;
  match r with
  | Err e => _ ← on_memory (binding_drop binding); mret (Err e, mm)
  | Ok resource => mret (Ok (binding, resource), mm)
  end.
Definition managed_resource (b : BufferBinding) : M Cmd (result (ManagedMemoryId * StorageHandle) IoError) :=
  at_stream (binding_stream b) (device_memory (λ mm,
    mm_managed_resource mm (binding_memory b) (binding_offset_start b) (binding_offset_end b))).
Fixpoint guard_pages (touched : list TouchedPage) : M Cmd (list (TouchedPage * PageGuard)) :=
  match touched with
  | [] => mret []
  | page :: touched =>
      r ← at_stream (touched_stream page) (device_memory (λ mm, mm_guard mm (touched_location page)));
      guards ← guard_pages touched;
      mret (match r with Some guard => (page, guard) :: guards | None => guards end)
  end.
Definition command_memory_report : M Cmd StreamMemoryReport :=
  c ← get;
  pools ← current (device_memory (λ mm, r ← memory_report mm; mret (r, mm)));
  mret (mk_StreamMemoryReport (command_current c) pools []).

(** *** Relocation

    [StreamCopies]: the signals to wait on, the one that carries the copies,
    and the device. *)
Record StreamCopies := mk_StreamCopies { copies_signals : list Sg; copies_queue : Sg; copies_device : D }.
Definition on_copies {A} (op : M D A) : M StreamCopies A := λ q,
  '(a, d) ← op (copies_device q); Some (a, mk_StreamCopies (copies_signals q) (copies_queue q) d).
Fixpoint wait_signals (signals : list Sg) : M D (result unit ServerError) :=
  match signals with
  | [] => mret (Ok tt)
  | signal :: signals => f ← driver_fence signal; _ ←? fence_wait f; wait_signals signals
  end.
#[export] Instance stream_copies : CopyQueue StreamCopies St := {
  wait_device := q ← get; on_copies (_ ←? wait_signals (copies_signals q); wait_outside_streams);
  queue_copy copy := λ '(st, q),
    match storage_get st (copy_source copy), storage_get st (copy_target copy) with
    | Err e, _ | _, Err e => Some (Err e, (st, q))
    | Ok source, Ok target =>
        '(r, q) ← on_copies (copy_on_device source target (copies_queue q)) q; Some (r, (st, q))
    end;
  wait_copies := q ← get; on_copies (f ← driver_fence (copies_queue q); fence_wait f);
}.
(** [MemoryManagement::relocate] of a stream, with the copies on it. *)
Definition relocate_on (signals : list Sg) (reason : RelocationReason) : M Env unit := λ '(s, sh),
  '(mm, (w, q)) ← mm_relocate (device_manager s) reason
    (mk_World (shared_memory sh) (shared_failures sh) (shared_storage_ids sh) (device_storage s),
     mk_StreamCopies signals (stream_signal s) (shared_device sh));
  Some (tt, (with_device mm (storage w) s,
    with_shared_device (copies_device q) (shared_dropped sh)
      (with_shared_world (memory w) (failures w) (storage_ids w) sh))).
Definition relocate_stream (id : StreamId) (reason : RelocationReason) : M Cmd unit :=
  l ← all_streams; at_stream id (relocate_on (stream_signal <$> l) reason).
Definition stream_has_outdated : M Env bool := gets (λ e, mm_has_outdated (device_manager e.1)).
Fixpoint relocate_all (ids : list StreamId) (reason : RelocationReason) : M Cmd unit :=
  match ids with
  | [] => mret tt
  | id :: ids =>
      b ← at_stream id stream_has_outdated;
      _ ← (if b : bool then relocate_stream id reason else mret tt);
      relocate_all ids reason
  end.
#[export] Instance command_relocates : RelocatingStreams Cmd := {
  recording := current (on_capture any_recording);
  has_outdated := current stream_has_outdated;
  relocation_need := e ← current (gets (λ e : Env, mm_relocation_need (device_manager e.1))); lift e;
  streams_bytes_allocated := l ← all_streams; lift (sum_u64 (bytes_allocated ∘ device_storage <$> l));
  finish := mret tt;
  relocate_memory reason := c ← get; relocate_stream (command_current c) reason;
  device_has_outdated := l ← all_streams; mret (existsb (λ s, mm_has_outdated (device_manager s)) l);
  relocate_device_memory reason := c ← get; relocate_all (stream_ids (command_pool c)) reason;
  cleanup_memory := current (device_memory (λ mm, mm ← mm_cleanup mm Explicit; mret (tt, mm)));
}.

(** *** Reclaiming and allocating *)
Definition memory_cleanup : M Cmd (result unit ServerError) :=
  _ ←? refuse_while_recording;
  _ ← current drain_queue;
  _ ← current (on_info entry_order clear_unpinned);
  _ ←? Relocation.reclaim;
  _ ← current (host_memory (λ mm, mm ← mm_cleanup mm Explicit; mret (tt, mm)));
  mret (Ok tt).
Definition flush_drops : M Cmd unit :=
  b ← current (gets (λ e : Env, capture_recording (stream_capture e.1)));
  if b : bool then mret tt else current flush_queue.
Definition allocation_mode (mode : MemoryAllocationMode) : M Cmd unit :=
  current (device_memory (λ mm, mret (tt, set_mode mm mode))).
Definition make_room (e : IoError) : M Cmd unit :=
  match e with
  | PageSizesExhausted _ => relocate_streams ReasonArenaFull
  | _ => _ ← memory_cleanup; mret tt
  end.
Definition reserve_once (size : Z) (update : PageUpdate) : M Cmd (result ManagedMemoryId IoError) :=
  current (device_memory (λ mm, mm_reserve mm size update dry_run)).
Definition reserve_update (size : Z) (update : PageUpdate) : M Cmd (result ManagedMemoryId IoError) :=
  r ← reserve_once size update;
  match r with
  | Ok handle => mret (Ok handle)
  | Err (PageUpdateForbidden n) =>
      _ ← current (on_capture (capture_fail (Io (PageUpdateForbidden n)))); mret (Err (PageUpdateForbidden n))
  | Err e =>
      if bool_decide (update ≠ Allow) || negb (may_succeed_after_reclaim e) then mret (Err e)
      else _ ← make_room e; reserve_once size Allow
  end.
Definition reserve (size : Z) : M Cmd (result ManagedMemoryId IoError) :=
  update ← current (on_capture page_update);
  _ ← (if decide (update = Allow) then relocate_when_wanted else mret tt);
  reserve_update size update.
Definition command_bind (reserved assigned : ManagedMemoryId) : M Cmd (result unit IoError) :=
  c ← get; current (device_memory (λ mm, mm_bind mm reserved assigned (command_cursor c))).
(** Returning early drops the handle. *)
Definition initialize_memory (memory : ManagedMemoryId) (size : Z) : M Cmd unit :=
  r ← reserve size;
  match r with
  | Err (PageUpdateForbidden _) => current (on_descriptors (handle_drop memory))
  | Err _ => panic
  | Ok reserved => r ← command_bind reserved memory; match r with Ok _ => mret tt | Err _ => panic end
  end.
Definition empty (size : Z) : M Cmd (result BufferHandle IoError) :=
  c ← get;
  handle ← current (on_descriptors (buffer_new (command_current c) size));
  r ← reserve size;
  match r with
  | Err e => _ ← current (on_descriptors (handle_drop (handle_memory handle))); mret (Err e)
  | Ok reserved =>
      _ ← current (on_descriptors (handle_clone (handle_memory handle)));
      r ← command_bind reserved (handle_memory handle);
      match r with
      | Err e => _ ← current (on_descriptors (handle_drop (handle_memory handle))); mret (Err e)
      | Ok _ => mret (Ok handle)
      end
  end.

(** *** Host memory *)
Definition pinned_on (size : Z) : M Env (option Bytes) :=
  update ← on_capture page_update;
  r ← host_memory (λ mm, mm_reserve mm size update dry_run);
  match r with
  | Err _ => mret None
  | Ok handle =>
      _ ← on_descriptors (binding handle);
      _ ← on_capture (capture_prime handle);
      _ ← on_descriptors (binding_clone handle);
      r ← host_memory (λ mm, Manager.get_resource mm handle None None);
      match r with
      | Err _ => _ ← on_descriptors (binding_drop handle); mret None
      | Ok resource => Some <$> on_driver (pinned_bytes handle resource size)
      end
  end.
Definition reserve_pinned (size : Z) (origin : option StreamId) : M Cmd (option Bytes) :=
  match origin with Some id => at_stream id (pinned_on size) | None => current (pinned_on size) end.
Definition reserve_cpu (size : Z) (origin : option StreamId) : M Cmd Bytes :=
  r ← reserve_pinned size origin;
  match r with Some bytes => mret bytes | None => current (on_driver (heap_bytes size)) end.

(** *** Copies

    A refused copy drops the binding its descriptor holds. *)
Definition drop_binding (b : BufferBinding) : M Cmd unit := current (on_descriptors (binding_drop (binding_memory b))).
Definition layout_of (d : CopyDescriptor) : M Cmd (result CopyLayout IoError) :=
  r ← lift (copy_layout_of (copy_shape d) (copy_strides d) (copy_elem_size d));
  match r with
  | Err e => _ ← drop_binding (copy_handle d); mret (Err e)
  | Ok layout => mret (Ok layout)
  end.
Definition write_to_cpu (d : CopyDescriptor) (bytes : Bytes) (stream_id : option StreamId) : M Cmd (result unit IoError) :=
  if bytes_len bytes =? 0 then _ ← drop_binding (copy_handle d); mret (Ok tt)
  else
    layout ←? layout_of d;
    resource ←? command_resource (copy_handle d);
    let copy := sg ← signal; on_driver (copy_to_host resource layout bytes sg) in
    match stream_id with Some id => at_stream id copy | None => current copy end.
Definition copy_to_bytes (d : CopyDescriptor) (stream_id : option StreamId) : M Cmd (result Bytes IoError) :=
  num_bytes ← lift (n ← num_elements (copy_shape d); mul_u64 n (copy_elem_size d));
  bytes ← reserve_cpu num_bytes stream_id;
  r ← write_to_cpu d bytes stream_id;
  match r with
  | Err e => _ ← current (drop_host [bytes]); mret (Err e)
  | Ok _ => mret (Ok bytes)
  end.
(** The copies that were enqueued write the buffers collected so far. *)
Definition fence_and_sync : M Env unit := sg ← signal; on_driver (f ← driver_fence sg; fence_sync f).
Fixpoint drop_descriptors (l : list CopyDescriptor) : M Cmd unit :=
  match l with [] => mret tt | d :: l => _ ← drop_binding (copy_handle d); drop_descriptors l end.
Fixpoint copies_loop (descriptors : list CopyDescriptor) (collected : list Bytes) : M Cmd (result (list Bytes) IoError) :=
  match descriptors with
  | [] => mret (Ok collected)
  | d :: descriptors =>
      r ← copy_to_bytes d None;
      match r with
      | Ok bytes => copies_loop descriptors (collected ++ [bytes])
      | Err e =>
          _ ← (if bool_decide (collected = []) then mret tt else current fence_and_sync);
          _ ← drop_descriptors descriptors;
          _ ← current (drop_host collected);
          mret (Err e)
      end
  end.
Definition copies_to_bytes (descriptors : list CopyDescriptor) : M Cmd (result (list Bytes) IoError) :=
  copies_loop descriptors [].

(** What the future of [read_async] holds, and what awaiting it does. *)
Record PendingRead := mk_PendingRead {
  read_held : list ManagedMemoryId;
  read_result : result (list Bytes) IoError;
  read_fence : F;
}.
Fixpoint hold (l : list CopyDescriptor) : M Memory (list ManagedMemoryId) :=
  match l with
  | [] => mret []
  | d :: l => _ ← binding_clone (binding_memory (copy_handle d)); held ← hold l; mret (binding_memory (copy_handle d) :: held)
  end.
Definition read_async (descriptors : list CopyDescriptor) : M Cmd PendingRead :=
  held ← current (on_descriptors (hold descriptors));
  r ← copies_to_bytes descriptors;
  f ← current (sg ← signal; on_driver (driver_fence sg));
  mret (mk_PendingRead held r f).
Definition on_shared_device {A} (op : M D A) : M (CommandShared D) A := λ sh,
  '(a, d) ← op (shared_device sh); Some (a, with_shared_device d (shared_dropped sh) sh).
Definition finish_read (p : PendingRead) : M (CommandShared D) (result (list Bytes) ServerError) :=
  synced ← on_shared_device (fence_wait (read_fence p));
  _ ← (λ sh : CommandShared D, '(_, m) ← drop_bindings (read_held p) (shared_memory sh);
        Some (tt, with_shared_world m (shared_failures sh) (shared_storage_ids sh) sh));
  match synced, read_result p with
  | Err e, Ok l => _ ← modify (λ sh, with_shared_device (shared_device sh) (shared_dropped sh ++ l) sh); mret (Err e)
  | Err e, Err _ => mret (Err e)
  | Ok _, Err e => mret (Err (Io e))
  | Ok _, Ok l => mret (Ok l)
  end.

(** Once the copy is enqueued, its source belongs to the capture or to the drop
    queue. *)
Definition keep_source (staging : Staging) (data : Bytes) : M Env unit :=
  recording ← gets (λ e : Env, capture_recording (stream_capture e.1));
  if recording : bool then on_capture (capture_retain_host data)
  else
    _ ← queue_push data;
    flush ← gets (λ e : Env, flush_after staging || should_flush (stream_queue e.1));
    if flush : bool then flush_queue else mret tt.
Definition write_to_gpu (d : CopyDescriptor) (data : Bytes) : M Cmd (result unit IoError) :=
  let refuse e := _ ← current (drop_host [data]); mret (Err e) in
  let size := bytes_len data in
  if size =? 0 then _ ← drop_binding (copy_handle d); _ ← current (drop_host [data]); mret (Ok tt)
  else
    layout ← layout_of d;
    match layout with
    | Err e => refuse e
    | Ok layout =>
        resource ← command_resource (copy_handle d);
        match resource with
        | Err e => refuse e
        | Ok resource =>
            let staging := staging_of size (bytes_property data) in
            source ← (if through_pinned staging then
                        r ← reserve_pinned size None;
                        match r with
                        | Some buffer => mret buffer
                        | None => current (on_driver (heap_bytes size))
                        end
                      else mret data);
            r ← current (sg ← signal; on_driver (copy_to_device resource layout source sg));
            _ ← (match r with
                 | Err _ => current (drop_host [source])
                 | Ok _ => current (keep_source staging source)
                 end);
            _ ← (if through_pinned staging then current (drop_host [data]) else mret tt);
            mret r
        end
    end.
(** [data] is borrowed: its length is what is read of it. *)
Definition create_with_data (len : Z) : M Cmd (result BufferHandle IoError) :=
  r ← reserve_pinned len None;
  match r with
  | None => mret (Err (UnknownIo "Unable to reserve pinned memory"))
  | Some staging =>
      r ← empty (bytes_len staging);
      match r with
      | Err e => _ ← current (drop_host [staging]); mret (Err e)
      | Ok handle =>
          copy ← current (on_descriptors (buffer_clone handle));
          b ← current (on_descriptors (buffer_binding copy));
          r ← write_to_gpu (mk_CopyDescriptor b [len] [1] 1) staging;
          match r with
          | Err e => _ ← current (on_descriptors (handle_drop (handle_memory handle))); mret (Err e)
          | Ok _ => mret (Ok handle)
          end
      end
  end.

(** *** Waiting and launching *)
Definition command_sync : M Cmd F := current (sg ← signal; on_driver (driver_fence sg)).
Definition kernel (k : KernelId) (count : Z * Z * Z) (args : Args) : M Cmd (result unit LaunchError * Args) :=
  r ← current (sg ← signal; on_driver (launch sg k count args));
  flush ← current (gets (λ e : Env, negb (capture_recording (stream_capture e.1)) && should_flush (stream_queue e.1)));
  _ ← (if flush : bool then current flush_queue else mret tt);
  mret r.
End command.

(** ** Runs of a server *)
Section runs.
Context {St HSt F Sg D Args : Type} `{ComputeStorage St} `{ComputeStorage HSt} `{!Driver D F Sg Args}.
Context (entry_order : gmap InfoCacheKey (CacheEntry BufferHandle) → list (InfoCacheKey * CacheEntry BufferHandle)).
Context (new_stream : StreamId → CommandStream St HSt F Sg) (dry_run : bool) (bytes_property : Bytes → AllocationProperty).
Abbreviation Cmd := (Command St HSt F Sg D).

Inductive CommandOp :=
| OpResource (b : BufferBinding)
| OpManaged (b : BufferBinding)
| OpGuard (touched : list TouchedPage)
| OpReport
| OpMode (mode : MemoryAllocationMode)
| OpReserve (size : Z)
| OpInitialize (memory : ManagedMemoryId) (size : Z)
| OpEmpty (size : Z)
| OpBind (reserved assigned : ManagedMemoryId)
| OpHost (size : Z) (origin : option StreamId)
| OpRead (d : CopyDescriptor) (bytes : Bytes) (stream : option StreamId)
| OpWrite (d : CopyDescriptor) (data : Bytes)
| OpCreate (len : Z)
| OpFlush
| OpKernel (k : KernelId) (count : Z * Z * Z) (args : Args)
| OpCleanup.
Definition run_command (op : CommandOp) : M Cmd unit :=
  match op with
  | OpResource b => _ ← command_resource new_stream b; mret tt
  | OpManaged b => _ ← managed_resource new_stream b; mret tt
  | OpGuard touched => _ ← guard_pages new_stream touched; mret tt
  | OpReport => _ ← command_memory_report new_stream; mret tt
  | OpMode mode => allocation_mode new_stream mode
  | OpReserve size => _ ← reserve entry_order new_stream dry_run size; mret tt
  | OpInitialize memory size => initialize_memory entry_order new_stream dry_run memory size
  | OpEmpty size => _ ← empty entry_order new_stream dry_run size; mret tt
  | OpBind reserved assigned => _ ← command_bind new_stream reserved assigned; mret tt
  | OpHost size origin => _ ← reserve_cpu new_stream dry_run size origin; mret tt
  | OpRead d bytes stream => _ ← write_to_cpu new_stream d bytes stream; mret tt
  | OpWrite d data => _ ← write_to_gpu new_stream dry_run bytes_property d data; mret tt
  | OpCreate len => _ ← create_with_data entry_order new_stream dry_run bytes_property len; mret tt
  | OpFlush => flush_drops new_stream
  | OpKernel k count args => _ ← kernel new_stream k count args; mret tt
  | OpCleanup => _ ← memory_cleanup entry_order new_stream; mret tt
  end.
Fixpoint run_commands (ops : list CommandOp) : M Cmd unit :=
  match ops with [] => mret tt | op :: ops => _ ← run_command op; run_commands ops end.
End runs.

(** ** Following the effects of an operation

    [follows Q m]: every run of [m] relates the states before and after. *)
Definition follows {S A} (Q : relation S) (m : M S A) : Prop := ∀ s a s', m s = Some (a, s') → Q s s'.

Create HintDb follows.
Section follows.
Context {S : Type} (Q : relation S) `{!PreOrder Q}.

Lemma follows_ret {A} (a : A) : follows Q (mret a).
Proof. by intros s b s' [= <- <-]. Qed.
Lemma follows_bind {A B} (m : M S A) (f : A → M S B) :
  follows Q m → (∀ a, follows Q (f a)) → follows Q (m ≫= f).
Proof. intros Hm Hf s b s' (a & s1 & Ha & Hb)%bind_run. etrans; [by eapply Hm|by eapply Hf]. Qed.
Lemma follows_fmap {A B} (m : M S A) (f : A → B) : follows Q m → follows Q (f <$> m).
Proof.
  intros Hm s b s'. unfold fmap, M_fmap. destruct (m s) as [[a s1]|] eqn:Ha; [|done]. intros [= <- <-]. by eapply Hm.
Qed.
Lemma follows_lift {A} (o : option A) : follows Q (lift o).
Proof. intros s a s'. unfold lift. destruct o; [|done]. by intros [= <- <-]. Qed.
Lemma follows_gets {A} (f : S → A) : follows Q (gets f).
Proof. by intros s a s' [= <- <-]. Qed.
Lemma follows_get : follows Q (get : M S S).
Proof. by intros s a s' [= <- <-]. Qed.
Lemma follows_panic {A} : follows Q (panic : M S A).
Proof. done. Qed.
End follows.
Ltac follows_step := first
  [ apply follows_ret; apply _ | apply follows_lift; apply _ | apply follows_gets; apply _
  | apply follows_get; apply _ | apply follows_panic ].

Ltac follows_tac := repeat first
  [ match goal with |- ∀ _, _ => intro end
  | follows_step
  | solve [eauto 6 with follows typeclass_instances]
  | match goal with
    | |- follows _ (_ ≫= _) => apply follows_bind; [apply _| |]
    | |- follows _ (_ <$> _) => apply follows_fmap
    end
  | progress cbn beta iota zeta
  | progress unfold try_bind
  | case_match ].

(** What a step over a stream does to the pool: the slot of the id is written. *)
Lemma at_stream_run {St HSt F Sg D A} (new_stream : StreamId → CommandStream St HSt F Sg) id
    (op : M (CommandStream St HSt F Sg * CommandShared D) A) c a c' :
  at_stream new_stream id op c = Some (a, c') → ∃ i entry s' sh',
    stream_index id (max_streams (command_pool c)) = Some i ∧ streams (command_pool c) !! i = Some entry ∧
    op (default (new_stream id) entry, command_shared c) = Some (a, (s', sh')) ∧
    c' = with_command (with_streams (<[i := Some s']> (streams (command_pool c))) (command_pool c)) sh' c.
Proof.
  unfold at_stream, get_mut, get_mut_index. intros Hr.
  apply bind_Some in Hr as ([s p] & (i & Hi & (entry & He & Hp)%bind_Some)%bind_Some & Hr).
  exists i, entry. destruct entry as [s0|]; simplify_eq; cbn in Hr; rewrite Hi in Hr; cbn in Hr;
    apply bind_Some in Hr as ([b [s' sh']] & Hop & Hr); simplify_eq; exists s', sh'; split_and!; try done.
  unfold with_streams. cbn. by rewrite list_insert_insert_eq.
Qed.

(** ** A simulated driver

    A device that runs what it was given when it is waited on: the copies in
    flight, on a stream and with a ticket, how many fences it made, and the streams
    it records. *)
Module Sim.
Record SimDevice := mk_SimDevice {
  made : list Bytes;
  flight : list (Z * Bytes * Z);
  tickets : Z;
  fences : Z;
  sim_recording : list Z;
}.
Definition fresh_id (l : list Bytes) : Z := 1 + foldr (λ b m, Z.max (bytes_id b) m) 0 l.
Definition sim_bytes (n : Z) : M SimDevice Bytes := λ d,
  let b := mk_Bytes (fresh_id (made d ++ ((λ f : Z * Bytes * Z, f.1.2) <$> flight d))) n in
  Some (b, mk_SimDevice (b :: made d) (flight d) (tickets d) (fences d) (sim_recording d)).
Definition sim_copy (b : Bytes) (sg : Z) : M SimDevice (result unit IoError) := λ d,
  Some (Ok tt, mk_SimDevice (made d) ((sg, b, tickets d) :: flight d) (tickets d + 1) (fences d) (sim_recording d)).
Definition on_stream (sg : Z) (d : SimDevice) : list Z :=
  omap (λ f : Z * Bytes * Z, if decide (f.1.1 = sg) then Some f.2 else None) (flight d).
#[export] Instance sim_driver : Driver SimDevice (Z * list Z) Z unit := {
  driver_fence sg d := Some ((sg, on_stream sg d), mk_SimDevice (made d) (flight d) (tickets d) (fences d + 1) (sim_recording d));
  driver_waits f d := Some (Ok tt, mk_SimDevice (made d)
    (filter (λ x : Z * Bytes * Z, ¬ (x.1.1 = f.1 ∧ x.2 ∈ f.2)) (flight d)) (tickets d) (fences d + 1) (sim_recording d));
  pinned_bytes _ _ n := sim_bytes n;
  heap_bytes n := sim_bytes n;
  copy_to_host _ _ b sg := sim_copy b sg;
  copy_to_device _ _ b sg := sim_copy b sg;
  copy_on_device _ _ _ := λ d, Some (Ok tt, d);
  wait_outside_streams := λ d, Some (Ok tt, d);
  launch _ _ _ _ := λ d, Some ((Ok tt, tt), d);
}.
Definition answer (st : Bytes.BytesStorage) (n : Z) : bool := true.
#[export] Instance sim_storage : ComputeStorage Bytes.BytesStorage := Bytes.storage_bytes_storage answer.
Abbreviation SimStream := (CommandStream Bytes.BytesStorage Bytes.BytesStorage (Z * list Z) Z).
Abbreviation SimCommand := (Command Bytes.BytesStorage Bytes.BytesStorage (Z * list Z) Z SimDevice).
Definition sim_manager : MemoryManagement :=
  mk_MemoryManagement (persistent_new 1024 4 255) (direct_new 4 DEDICATED_POOL_POS None)
    (Exclusive [mk_ExclusivePool [] 4 10 0 1024 (f64_of 16) (location_new 0 0 0) 0 0]) 0 ModeAuto ModeAuto [] Enabled.
Definition sim_storage_new : Bytes.BytesStorage := Bytes.mk_BytesStorage ∅ 0.
Definition sim_stream (c : StreamCapture Bytes) (sg : Z) : SimStream :=
  mk_CommandStream sg sim_manager sim_storage_new sim_manager sim_storage_new
    (queue_new DropQueue.policy_default) c (cache_new MetadataCache.policy_default).
Definition sim_command (c : StreamCapture Bytes) (n : Z) : SimCommand :=
  mk_Command (mk_StreamPool [Some (sim_stream c 0); None] 2)
    (mk_CommandShared (mk_Memory 0 ∅) graph_default 0 n (mk_SimDevice [] [] 0 0 []) []) 0 0.
Definition pageable (b : Bytes) : AllocationProperty := NativeMemory.
Abbreviation sim_run := (run_commands (Args := unit) map_to_list (sim_stream capture_new) false pageable).
End Sim.
