(* ===== verification/CommandRules.v ===== *)
(** * Rules for the effects of commands

    What an operation of a command does to a stream, by the effects it is made
    of: a relation over one stream that every effect respects lifts to one over
    the pool, which every operation then follows. *)

From S2P Require Export Command.
From stdpp Require Import list gmap.
#[local] Open Scope Z_scope.

(** The operations of a capture that open or close no window. *)
Definition keeps_state {A} (op : M (CaptureEnv Bytes) A) : Prop :=
  ∀ e a e', op e = Some (a, e') → capture_state (env_capture e') = capture_state (env_capture e) ∧ device_recording e' = device_recording e.
(** Runs an operation of a capture. *)
Ltac capture_run Hr :=
  unfold mbind, M_bind, mret, M_ret, gets, set_capture, set_recording, modify, panic in Hr; cbn in Hr;
  repeat case_match; simplify_eq/=; done.
Lemma keeps_touch b l : keeps_state (capture_touch b l).
Proof. intros e a e' Hr. unfold capture_touch in Hr. capture_run Hr. Qed.
Lemma keeps_any : keeps_state any_recording.
Proof. by intros e a e' [= <- <-]. Qed.
Lemma keeps_page_update : keeps_state page_update.
Proof. intros e a e' Hr. unfold page_update, any_recording in Hr. capture_run Hr. Qed.
Lemma keeps_fail e : keeps_state (capture_fail e).
Proof. intros x a x' Hr. unfold capture_fail, fail_into in Hr. capture_run Hr. Qed.
Lemma keeps_prime id : keeps_state (capture_prime id).
Proof. intros e a e' Hr. unfold capture_prime, Capture.on_store in Hr. capture_run Hr. Qed.
Lemma keeps_retain b : keeps_state (capture_retain_host b).
Proof. intros e a e' Hr. unfold capture_retain_host in Hr. capture_run Hr. Qed.
#[export] Hint Resolve keeps_touch keeps_any keeps_page_update keeps_fail keeps_prime keeps_retain : follows.

(** ** The streams of a command *)
Section slots.
Context {St HSt F Sg D : Type}.
Implicit Types (c : Command St HSt F Sg D).
Definition stream_at c (i : nat) : option (CommandStream St HSt F Sg) := mjoin (streams (command_pool c) !! i).
Lemma stream_at_insert c i s' (sh' : CommandShared D) entry :
  streams (command_pool c) !! i = Some entry →
  let c' := with_command (with_streams (<[i := Some s']> (streams (command_pool c))) (command_pool c)) sh' c in
  stream_at c' i = Some s' ∧ ∀ j, j ≠ i → stream_at c' j = stream_at c j.
Proof.
  intros He c'. unfold stream_at. cbn. split.
  - by rewrite list_lookup_insert_eq by (by eapply lookup_lt_Some).
  - intros j Hj. by rewrite list_lookup_insert_ne by done.
Qed.

(** The stream a command is issued on, once it was created. *)
Definition current_slot c : option (CommandStream St HSt F Sg) :=
  i ← stream_index (command_current c) (max_streams (command_pool c)); mjoin (streams (command_pool c) !! i).
Lemma current_slot_at c i entry s' (sh' : CommandShared D) :
  streams (command_pool c) !! i = Some entry →
  let c' := with_command (with_streams (<[i := Some s']> (streams (command_pool c))) (command_pool c)) sh' c in
  ∀ s, current_slot c = Some s →
    stream_index (command_current c) (max_streams (command_pool c)) = Some i ∧ entry = Some s ∧ current_slot c' = Some s' ∨
    current_slot c' = Some s.
Proof.
  intros He c' s Hs. unfold current_slot in *. cbn. apply bind_Some in Hs as (j & Hj & Hjs). rewrite Hj. cbn.
  destruct (decide (j = i)) as [->|Hne].
  - left. rewrite He in Hjs. cbn in Hjs. subst entry. rewrite list_lookup_insert_eq by (by eapply lookup_lt_Some). done.
  - right. by rewrite list_lookup_insert_ne by done.
Qed.
(** A step over the current stream runs on it. *)
Lemma current_run {A} new_stream (op : M (CommandStream St HSt F Sg * CommandShared D) A) c s a c' :
  current_slot c = Some s → current new_stream op c = Some (a, c') →
  ∃ s' sh', op (s, command_shared c) = Some (a, (s', sh')) ∧ current_slot c' = Some s' ∧ command_shared c' = sh' ∧
    command_current c' = command_current c.
Proof.
  intros Hs Hr. unfold current in Hr. apply bind_run in Hr as (c0 & c1 & [= <- <-] & Hr).
  apply at_stream_run in Hr as (i & entry & s' & sh' & Hi & He & Hr & ->).
  unfold current_slot in Hs |- *. rewrite Hi in Hs. cbn in Hs. rewrite He in Hs. cbn in Hs. subst entry.
  exists s', sh'. split_and!; [done| |done|done]. cbn. rewrite Hi. cbn.
  by rewrite list_lookup_insert_eq by (by eapply lookup_lt_Some).
Qed.
End slots.

(** ** What the device is asked for

    A relation on the device that fences, waits and copies on it respect holds
    over flushes and relocations. *)
Section device.
Context {St HSt F Sg D Args : Type} `{ComputeStorage St} `{!Driver D F Sg Args}.
Context (RD : relation D) `{!PreOrder RD}.
Context (Hfence : ∀ sg, follows RD (driver_fence sg)) (Hwait : ∀ f, follows RD (fence_wait f)).
Context (Hon_device : ∀ a b sg, follows RD (copy_on_device a b sg)) (Houtside : follows RD wait_outside_streams).

Abbreviation kept_queue := (λ w w' : DropWorld D, RD (DropQueue.device w) (DropQueue.device w')).
#[local] Instance kept_queue_preorder : PreOrder kept_queue.
Proof. split; [by intros w|]. intros w1 w2 w3. apply (transitivity (R := RD)). Qed.
Lemma queue_on_device {A} (op : M D A) : follows RD op → follows kept_queue (DropQueue.on_device op).
Proof.
  intros Hop w a w' Hr. unfold DropQueue.on_device in Hr. destruct (op _) as [[x d]|] eqn:Hd; [|done].
  injection Hr as <- <-. cbn. by eapply Hop.
Qed.
Lemma queue_sync f : follows kept_queue (DropQueue.on_device (fence_sync f)).
Proof. apply queue_on_device. unfold fence_sync. follows_tac. Qed.
Lemma queue_clear (q : PendingDropQueue F) : follows kept_queue (clear_pending q).
Proof. unfold clear_pending, drop_bytes. follows_tac. by intros w a w' [= _ <-]. Qed.
Lemma queue_flush sg (q : PendingDropQueue F) : follows kept_queue (DropQueue.flush (driver_fence sg) q).
Proof.
  assert (follows kept_queue (DropQueue.on_device (driver_fence sg))) as Hf by apply queue_on_device, Hfence.
  unfold DropQueue.flush. follows_tac; auto using queue_sync, queue_clear.
Qed.
Lemma queue_drain sg (q : PendingDropQueue F) : follows kept_queue (drain (driver_fence sg) q).
Proof. unfold drain. follows_tac; apply queue_flush. Qed.

(** *** Relocations

    Their copies are on the device: host memory is not theirs. *)
Abbreviation Copies := (World St * StreamCopies (D := D) (Sg := Sg))%type.
Definition kept_copies (e e' : Copies) : Prop := RD (copies_device e.2) (copies_device e'.2).
#[local] Instance kept_copies_preorder : PreOrder kept_copies.
Proof. split; [intros e; apply (reflexivity (R := RD))|]. intros e1 e2 e3. apply (transitivity (R := RD)). Qed.
Lemma copies_world {A} (m : M (World St) A) : follows kept_copies (on_world (Q := StreamCopies) m).
Proof. intros [w q] a [w' q'] Hr. unfold on_world in Hr. destruct (m w) as [[x w1]|]; [|done]. simplify_eq. apply (reflexivity (R := RD)). Qed.
Lemma copies_on_copies {A} (m : M D A) (k : StreamCopies (D := D) (Sg := Sg)) a k' :
  follows RD m → on_copies m k = Some (a, k') → RD (copies_device k) (copies_device k').
Proof.
  intros Hm Hr. unfold on_copies in Hr. apply bind_Some in Hr as ([x d] & Hx & Hr). simplify_eq. by eapply Hm.
Qed.
Lemma follows_signals l : follows RD (wait_signals l).
Proof. induction l as [|sg l IH]; cbn; follows_tac; auto. Qed.
Lemma copies_waits {A} (m : list Sg → Sg → M D A) :
  (∀ l sg, follows RD (m l sg)) →
  follows kept_copies (on_queue (q ← get; on_copies (m (copies_signals q) (copies_queue q)))).
Proof.
  intros Hm [w q] a [w' q'] Hr. unfold on_queue in Hr. case_match eqn:Hq; [|done]. case_match. simplify_eq.
  apply bind_run in Hq as (q0 & q1 & [= <- <-] & Hq). eapply copies_on_copies; [apply Hm|exact Hq].
Qed.
Lemma copies_enqueue moves : follows kept_copies (enqueue_copies (Q := StreamCopies) moves).
Proof.
  induction moves as [|m moves IH]; cbn; [apply follows_ret, _|]. destruct (move_copy m) as [copy|]; [|done].
  apply follows_bind; [apply _| |intros []; [done|]; apply follows_ret, _].
  intros [w k] a [w' k'] Hr. unfold on_storage_queue in Hr. cbn beta iota in Hr.
  destruct (storage_get _ _) as [source|e]; [|injection Hr as <- <- <-; apply (reflexivity (R := RD))].
  destruct (storage_get _ _) as [target|e]; [|injection Hr as <- <- <-; apply (reflexivity (R := RD))].
  destruct (on_copies _ k) as [[r k1]|] eqn:Hk; cbn in Hr; [|done]. injection Hr as <- <- <-.
  eapply copies_on_copies; [|exact Hk]. apply Hon_device.
Qed.
Lemma device_relocate mm reason : follows kept_copies (mm_relocate mm reason).
Proof.
  assert (∀ r, follows kept_copies (relocation_copy (Q := StreamCopies) (St := St) r)) as Hcopy.
  { intros r. unfold relocation_copy. follows_tac; auto using copies_world, copies_enqueue.
    - apply (copies_waits (λ l _, _ ←? wait_signals l; wait_outside_streams)). intros l sg. follows_tac. apply follows_signals.
    - apply (copies_waits (λ _ sg, f ← driver_fence sg; fence_wait f)). intros l sg.
      follows_tac; auto. }
  unfold mm_relocate, dynamic_relocate, adaptive_relocate. follows_tac; auto using copies_world.
Qed.
End device.

Section rules.
Context {St HSt F Sg D Args : Type} `{ComputeStorage St} `{ComputeStorage HSt} `{!Driver D F Sg Args}.
Context (new_stream : StreamId → CommandStream St HSt F Sg).
Abbreviation Env := (CommandStream St HSt F Sg * CommandShared D)%type.
Abbreviation Cmd := (Command St HSt F Sg D).

(** A relation over a stream that says nothing of what an operation does when it
    neither copies nor waits, and asks the device storage for memory at most. *)
Class PlainEffects (E : relation Env) := {
  plain_env :: PreOrder E;
  plain_memory {A} (op : MemoryManagement → M (World St) (A * MemoryManagement)) :
    (∀ mm, respects only_allocates (op mm)) → follows E (device_memory op);
  plain_host {A} (op : MemoryManagement → M (World HSt) (A * MemoryManagement)) : follows E (host_memory op);
  plain_descriptors {A} (op : M Memory A) : follows E (on_descriptors op);
  plain_capture {A} (op : M (CaptureEnv Bytes) A) : keeps_state op → follows E (on_capture op);
  plain_pinned_bytes m h n : follows E (on_driver (pinned_bytes m h n));
  plain_heap_bytes n : follows E (on_driver (heap_bytes n));
}.
(** Nor when it reclaims, relocates and launches. *)
Class BusyEffects (E : relation Env) := {
  busy_plain :: PlainEffects E;
  busy_memory {A} (op : MemoryManagement → M (World St) (A * MemoryManagement)) : follows E (device_memory op);
  busy_info c : follows E (modify (λ e : Env, (with_info c e.1, e.2)));
  busy_flush : follows E flush_queue;
  busy_drain : follows E drain_queue;
  busy_relocate signals reason : follows E (relocate_on signals reason);
  busy_fence sg : follows E (on_driver (driver_fence sg));
  busy_launch sg k n args : follows E (on_driver (launch sg k n args));
}.
(** Nor whatever it does. *)
Class WholeEffects (E : relation Env) := {
  whole_busy :: BusyEffects E;
  whole_drop_host l : follows E (drop_host l);
  whole_push b : follows E (queue_push b);
  whole_to_host h l b sg : follows E (on_driver (copy_to_host h l b sg));
  whole_to_device h l b sg : follows E (on_driver (copy_to_device h l b sg));
  whole_sync sg : follows E (on_driver (f ← driver_fence sg; fence_sync f));
}.
(** What a step over one stream says of the pool. *)
Class Lifted (E : relation Env) (Q : relation Cmd) := {
  lifted_pre :: PreOrder Q;
  lifted_at {A} id (op : M Env A) : follows E op → follows Q (at_stream new_stream id op);
}.

Context (entry_order : gmap InfoCacheKey (CacheEntry BufferHandle) → list (InfoCacheKey * CacheEntry BufferHandle)).
Context (dry_run : bool) (bytes_property : Bytes → AllocationProperty).

Section plain.
Context (E : relation Env) (Q : relation Cmd) `{!Lifted E Q, !PlainEffects E}.
Abbreviation Follows := (follows Q).

Lemma plain_current {A} (op : M Env A) : follows E op → Follows (current new_stream op).
Proof. intros Hop. unfold current. apply follows_bind; [apply _|apply follows_get, _|]. intros c. by apply lifted_at. Qed.
Lemma plain_gets {A} (f : Env → A) : follows E (gets f).
Proof. apply follows_gets, _. Qed.
Lemma plain_signal : follows E signal.
Proof. apply plain_gets. Qed.
Lemma plain_call {A} (op : Sg → M D A) : (∀ sg, follows E (on_driver (op sg))) → follows E (sg ← signal; on_driver (op sg)).
Proof. intros Hop. apply follows_bind; [apply _|apply plain_signal|done]. Qed.
#[local] Hint Resolve lifted_at plain_current plain_gets plain_signal plain_memory plain_host plain_descriptors plain_capture
  plain_pinned_bytes plain_heap_bytes : follows.

(** What an operation on the memory of the device is, when it is plain. *)
Lemma respects_managed_resource mm b start end_ : respects (St := St) only_allocates (mm_managed_resource mm b start end_).
Proof. unfold mm_managed_resource. respects. Qed.
#[local] Hint Resolve respects_managed_resource : respects.
#[local] Hint Extern 1 (respects _ _) => solve [respects] : follows.
Lemma plain_resource b : Follows (command_resource new_stream b).
Proof. unfold command_resource. follows_tac. Qed.
Lemma plain_managed b : Follows (managed_resource new_stream b).
Proof. unfold managed_resource. follows_tac. Qed.
Lemma plain_drop_binding b : Follows (drop_binding new_stream b).
Proof. unfold drop_binding. follows_tac. Qed.
Lemma plain_guards l : Follows (guard_pages new_stream l).
Proof. induction l as [|p l IH]; cbn; follows_tac. Qed.
Lemma plain_report : Follows (command_memory_report new_stream).
Proof. unfold command_memory_report. follows_tac. Qed.
Lemma plain_mode m : Follows (allocation_mode new_stream m).
Proof. unfold allocation_mode. follows_tac. Qed.
Lemma plain_bind r a : Follows (command_bind new_stream r a).
Proof. unfold command_bind. follows_tac. Qed.
#[local] Hint Resolve plain_drop_binding : follows.
Lemma plain_layout d : Follows (layout_of new_stream d).
Proof. unfold layout_of. follows_tac. Qed.
Lemma plain_pinned_on n : follows E (pinned_on dry_run n).
Proof. unfold pinned_on. follows_tac. Qed.
#[local] Hint Resolve plain_pinned_on : follows.
Lemma plain_pinned n origin : Follows (reserve_pinned new_stream dry_run n origin).
Proof. unfold reserve_pinned. follows_tac. Qed.
#[local] Hint Resolve plain_pinned : follows.
Lemma plain_cpu n origin : Follows (reserve_cpu new_stream dry_run n origin).
Proof. unfold reserve_cpu. follows_tac. Qed.
Lemma plain_drop_descriptors l : Follows (drop_descriptors new_stream l).
Proof. induction l as [|d l IH]; cbn; follows_tac. Qed.
End plain.
#[local] Hint Resolve plain_current plain_gets plain_signal plain_memory plain_host plain_descriptors plain_capture lifted_at
  plain_resource plain_managed plain_drop_binding plain_bind plain_layout plain_pinned plain_cpu plain_drop_descriptors : follows.

Section busy.
Context (E : relation Env) (Q : relation Cmd) `{!Lifted E Q, !BusyEffects E}.
Abbreviation Follows := (follows Q).
#[local] Hint Resolve busy_memory busy_flush busy_drain busy_relocate busy_info : follows.

Lemma busy_once n u : Follows (reserve_once new_stream dry_run n u).
Proof. unfold reserve_once. follows_tac. Qed.
#[local] Hint Resolve busy_once : follows.
Lemma busy_on_info f : follows E (on_info entry_order f).
Proof. unfold on_info. follows_tac. Qed.
#[local] Hint Resolve busy_on_info : follows.
Lemma busy_relocate_stream id reason : Follows (relocate_stream new_stream id reason).
Proof. unfold relocate_stream, all_streams. follows_tac. Qed.
#[local] Hint Resolve busy_relocate_stream : follows.
Lemma busy_relocate_streams reason : Follows (@relocate_streams _ (command_relocates new_stream) reason).
Proof. unfold relocate_streams. cbn. follows_tac. Qed.
Lemma busy_wanted : Follows (@relocate_when_wanted _ (command_relocates new_stream)).
Proof. unfold relocate_when_wanted. cbn. follows_tac. Qed.
#[local] Hint Resolve busy_relocate_streams busy_wanted : follows.
Lemma busy_reclaim : Follows (@Relocation.reclaim _ (command_relocates new_stream)).
Proof. unfold Relocation.reclaim, refuse_while_recording. cbn. follows_tac. Qed.
#[local] Hint Resolve busy_reclaim : follows.
Lemma busy_cleanup : Follows (memory_cleanup entry_order new_stream).
Proof. unfold memory_cleanup, refuse_while_recording. cbn [recording command_relocates]. follows_tac. Qed.
#[local] Hint Resolve busy_cleanup : follows.
Lemma busy_flush_drops : Follows (flush_drops new_stream).
Proof. unfold flush_drops. follows_tac. Qed.
Lemma busy_room e : Follows (make_room entry_order new_stream e).
Proof. unfold make_room. follows_tac. Qed.
#[local] Hint Resolve busy_room : follows.
Lemma busy_update n u : Follows (reserve_update entry_order new_stream dry_run n u).
Proof. unfold reserve_update. follows_tac. Qed.
#[local] Hint Resolve busy_update : follows.
Lemma busy_reserve n : Follows (reserve entry_order new_stream dry_run n).
Proof. unfold reserve. follows_tac. Qed.
#[local] Hint Resolve busy_reserve : follows.
Lemma busy_initialize m n : Follows (initialize_memory entry_order new_stream dry_run m n).
Proof. unfold initialize_memory. follows_tac. Qed.
Lemma busy_empty n : Follows (Command.empty entry_order new_stream dry_run n).
Proof. unfold Command.empty. follows_tac. Qed.
Lemma busy_sync : Follows (command_sync new_stream).
Proof. unfold command_sync. apply (plain_current E Q), plain_call; [apply _|]. intros sg. apply busy_fence. Qed.
Lemma busy_kernel k n args : Follows (kernel new_stream k n args).
Proof. unfold kernel. follows_tac. apply (plain_current E Q), plain_call; [apply _|]. intros sg. apply busy_launch. Qed.
Lemma busy_relocate_all ids reason : Follows (relocate_all new_stream ids reason).
Proof. induction ids as [|id ids IH]; cbn; follows_tac. Qed.
#[local] Hint Resolve busy_relocate_all : follows.
Lemma busy_relocate_device reason : Follows (@relocate_device _ (command_relocates new_stream) reason).
Proof. unfold relocate_device, device_has_outdated, relocate_device_memory. cbn. unfold all_streams. follows_tac. Qed.
End busy.
#[local] Hint Resolve busy_cleanup busy_flush_drops busy_reserve busy_initialize busy_empty busy_sync busy_kernel plain_guards
  plain_report plain_mode busy_flush : follows.

Section whole.
Context (E : relation Env) (Q : relation Cmd) `{!Lifted E Q, !WholeEffects E}.
Abbreviation Follows := (follows Q).
#[local] Hint Resolve whole_drop_host whole_push whole_to_host whole_to_device whole_sync : follows.

Lemma whole_call_host h l b : follows E (sg ← signal; on_driver (copy_to_host h l b sg)).
Proof. follows_tac. Qed.
Lemma whole_call_device h l b : follows E (sg ← signal; on_driver (copy_to_device h l b sg)).
Proof. follows_tac. Qed.
#[local] Hint Resolve whole_call_host whole_call_device : follows.
Lemma whole_write_cpu d bytes origin : Follows (write_to_cpu new_stream d bytes origin).
Proof. unfold write_to_cpu. follows_tac. Qed.
#[local] Hint Resolve whole_write_cpu : follows.
Lemma whole_copy_to_bytes d origin : Follows (copy_to_bytes new_stream dry_run d origin).
Proof. unfold copy_to_bytes. follows_tac. Qed.
#[local] Hint Resolve whole_copy_to_bytes : follows.
Lemma whole_fence_and_sync : Follows (current new_stream fence_and_sync).
Proof. apply (plain_current E Q). unfold fence_and_sync. follows_tac. Qed.
#[local] Hint Resolve whole_fence_and_sync : follows.
Lemma whole_copies ds collected : Follows (copies_loop new_stream dry_run ds collected).
Proof. revert collected. induction ds as [|d ds IH]; intros collected; cbn; follows_tac. Qed.
#[local] Hint Resolve whole_copies : follows.
Lemma whole_read ds : Follows (read_async new_stream dry_run ds).
Proof. unfold read_async, copies_to_bytes. follows_tac. Qed.
Lemma whole_keep staging b : follows E (keep_source staging b).
Proof. unfold keep_source. follows_tac. Qed.
#[local] Hint Resolve whole_keep : follows.
Lemma whole_write d data : Follows (write_to_gpu new_stream dry_run bytes_property d data).
Proof. unfold write_to_gpu. follows_tac. Qed.
#[local] Hint Resolve whole_write : follows.
Lemma whole_create n : Follows (create_with_data entry_order new_stream dry_run bytes_property n).
Proof. unfold create_with_data. follows_tac. Qed.
#[local] Hint Resolve whole_create : follows.
(** Whatever a server runs. *)
Lemma whole_command op : Follows (run_command entry_order new_stream dry_run bytes_property op).
Proof. destruct op; cbn [run_command]; follows_tac. Qed.
End whole.
End rules.
#[export] Hint Resolve lifted_at plain_current plain_gets plain_signal plain_memory plain_host plain_descriptors plain_capture
  plain_resource plain_managed plain_drop_binding plain_bind plain_layout plain_pinned_on plain_pinned plain_cpu
  plain_drop_descriptors plain_guards plain_report plain_mode : follows.
#[export] Hint Resolve busy_memory busy_once busy_flush busy_drain busy_relocate busy_info busy_cleanup busy_flush_drops busy_reserve busy_initialize
  busy_empty busy_sync busy_kernel busy_relocate_all busy_relocate_device busy_on_info : follows.
#[export] Hint Resolve whole_drop_host whole_push whole_command whole_read : follows.
