(* ===== verification/Recorded.v ===== *)
(** * Commands while their stream records

    Nothing may wait on the device while a stream records a graph: what a
    command asks of the driver is followed through every operation. *)

From S2P Require Export CommandRules.
From stdpp Require Import list gmap strings.
#[local] Open Scope Z_scope.

(** ** While the stream records

    A relation on the device that every call respects but the fences, the
    waits and the copies of a relocation. *)
Class UnfencedRelation {D F Sg Args} `{!Driver D F Sg Args} (R : relation D) := {
  unfenced_pre :: PreOrder R;
  unfenced_pinned m h n d b d' : pinned_bytes m h n d = Some (b, d') → R d d';
  unfenced_heap n d b d' : heap_bytes n d = Some (b, d') → R d d';
  unfenced_to_host h l b sg d r d' : copy_to_host h l b sg d = Some (r, d') → R d d';
  unfenced_to_device h l b sg d r d' : copy_to_device h l b sg d = Some (r, d') → R d d';
  unfenced_launch sg k n (args : Args) d r d' : launch sg k n args d = Some (r, d') → R d d';
}.

(** A storage is grown by allocations, and by nothing else: nothing is given
    back, or flushed. *)
Definition grown {St} `{ComputeStorage St} : relation St :=
  rtc (λ st st', ∃ (w w' : World St) n r, storage w = st ∧ storage w' = st' ∧ storage_alloc n w = Some (r, w')).
Lemma only_allocates_grown {St} `{ComputeStorage St} (w w' : World St) : only_allocates w w' → grown (storage w) (storage w').
Proof.
  induction 1 as [w|w1 w2 w3 [[_ Hs]|(n & r & Hr)] _ IH]; [done|by rewrite <- Hs|]. eapply rtc_l; [|exact IH].
  by exists w1, w2, n, r.
Qed.

Section recording.
Context {St HSt F Sg D Args : Type} `{ComputeStorage St} `{ComputeStorage HSt} `{!Driver D F Sg Args}.
Context (R : relation D) `{!UnfencedRelation R}.
Abbreviation Stream := (CommandStream St HSt F Sg).
Abbreviation Env := (CommandStream St HSt F Sg * CommandShared D)%type.
Abbreviation Cmd := (Command St HSt F Sg D).

(** What no step over one stream changes but the life of a capture. *)
Definition unfenced (e e' : Env) : Prop :=
  R (shared_device e.2) (shared_device e'.2) ∧ capture_state (stream_capture e'.1) = capture_state (stream_capture e.1) ∧
  shared_recording e'.2 = shared_recording e.2 ∧ grown (device_storage e.1) (device_storage e'.1).
Definition unfenced_recording (e e' : Env) : Prop :=
  capture_recording (stream_capture e.1) = true → unfenced e e'.

#[local] Instance unfenced_preorder : PreOrder unfenced.
Proof.
  split; [by intros e; split_and!|]. intros e1 e2 e3 (Hr & Hst & Hn & Hg) (Hr' & Hst' & Hn' & Hg').
  split_and!; [by etrans|congruence|congruence|by etrans].
Qed.
#[local] Instance unfenced_recording_preorder : PreOrder unfenced_recording.
Proof.
  split; [by intros e _|]. intros e1 e2 e3 H12 H23 Hr. pose proof (H12 Hr) as H12'. etrans; [exact H12'|]. apply H23.
  destruct H12' as (_ & Hst & _). unfold capture_recording in *. by rewrite Hst.
Qed.
Lemma unfenced_weaken {A} (m : M Env A) : follows unfenced m → follows unfenced_recording m.
Proof. intros Hm e a e' Hr _. by eapply Hm. Qed.

Lemma unfenced_memory {A} (op : MemoryManagement → M (World St) (A * MemoryManagement)) :
  (∀ mm, respects only_allocates (op mm)) → follows unfenced (device_memory (D := D) (HSt := HSt) (F := F) (Sg := Sg) op).
Proof.
  intros Hop [s sh] a [s' sh'] Hr. unfold device_memory in Hr. apply bind_Some in Hr as ([[x mm] w] & Hw & Hr). simplify_eq.
  split_and!; try done. cbn. by apply Hop, only_allocates_grown in Hw.
Qed.
Lemma unfenced_host {A} (op : MemoryManagement → M (World HSt) (A * MemoryManagement)) :
  follows unfenced (host_memory (D := D) (St := St) (F := F) (Sg := Sg) op).
Proof. intros [s sh] a [s' sh'] Hr. unfold host_memory in Hr. apply bind_Some in Hr as ([[x mm] w] & _ & Hr). by simplify_eq. Qed.
Lemma unfenced_descriptors {A} (op : M Memory A) :
  follows unfenced (on_descriptors (D := D) (St := St) (HSt := HSt) (F := F) (Sg := Sg) op).
Proof. intros [s sh] a [s' sh'] Hr. unfold on_descriptors in Hr. apply bind_Some in Hr as ([x m] & _ & Hr). by simplify_eq. Qed.
Lemma unfenced_driver {A} (op : M D A) :
  (∀ d a d', op d = Some (a, d') → R d d') → follows unfenced (on_driver (St := St) (HSt := HSt) (F := F) (Sg := Sg) op).
Proof.
  intros Hop [s sh] a [s' sh'] Hr. unfold on_driver in Hr. apply bind_Some in Hr as ([x d] & Hd & Hr). simplify_eq.
  split_and!; [by eapply Hop|done..].
Qed.
Lemma unfenced_drop_host l : follows unfenced (drop_host (D := D) (St := St) (HSt := HSt) (F := F) (Sg := Sg) l).
Proof. intros [s sh] a [s' sh'] Hr. unfold drop_host, modify in Hr. by simplify_eq. Qed.
Lemma unfenced_capture {A} (op : M (CaptureEnv Bytes) A) :
  keeps_state op → follows unfenced (on_capture (D := D) (St := St) (HSt := HSt) (F := F) (Sg := Sg) op).
Proof.
  intros Hop [s sh] a [s' sh'] Hr. unfold on_capture in Hr. apply bind_Some in Hr as ([x e] & He & Hr). simplify_eq.
  apply Hop in He as [Hst Hn]. by split_and!.
Qed.
#[local] Instance unfenced_effects : PlainEffects unfenced.
Proof.
  split; [apply _|apply @unfenced_memory|apply @unfenced_host|apply @unfenced_descriptors|apply @unfenced_capture|..]; intros;
    apply unfenced_driver; intros d a d'; [apply unfenced_pinned|apply unfenced_heap].
Qed.
End recording.
#[export] Hint Resolve unfenced_drop_host : follows.

Section recorded.
Context {St HSt F Sg D Args : Type} `{ComputeStorage St} `{ComputeStorage HSt} `{!Driver D F Sg Args}.
Context (R : relation D) `{!UnfencedRelation R}.
Context (entry_order : gmap InfoCacheKey (CacheEntry BufferHandle) → list (InfoCacheKey * CacheEntry BufferHandle)).
Context (new_stream : StreamId → CommandStream St HSt F Sg) (dry_run : bool) (bytes_property : Bytes → AllocationProperty).
Abbreviation Env := (CommandStream St HSt F Sg * CommandShared D)%type.
Abbreviation Cmd := (Command St HSt F Sg D).
#[local] Existing Instance unfenced_preorder.
#[local] Existing Instance unfenced_recording_preorder.
#[local] Existing Instance unfenced_effects.

(** It records, and the device counts it. *)
Definition records_now (c : Cmd) : Prop :=
  recording_any (shared_recording (command_shared c)) = true ∧
  ∃ s, current_slot c = Some s ∧ capture_recording (stream_capture s) = true.
(** No stream of the server gives memory of its device storage back. *)
Definition storages_grow (c c' : Cmd) : Prop := ∀ i s, stream_at c i = Some s →
  ∃ s', stream_at c' i = Some s' ∧ grown (device_storage s) (device_storage s').
#[local] Instance storages_grow_preorder : PreOrder storages_grow.
Proof.
  split; [by intros c i s Hs; exists s|]. intros c1 c2 c3 H12 H23 i s Hs. destruct (H12 i s Hs) as (s2 & Hs2 & Hg).
  destruct (H23 i s2 Hs2) as (s3 & Hs3 & Hg'). exists s3. split; [done|by etrans].
Qed.
Definition undisturbed (c c' : Cmd) : Prop :=
  records_now c → records_now c' ∧ R (shared_device (command_shared c)) (shared_device (command_shared c')) ∧ storages_grow c c'.
#[local] Instance undisturbed_preorder : PreOrder undisturbed.
Proof.
  split; [by intros c Hc|]. intros c1 c2 c3 H12 H23 Hc. destruct (H12 Hc) as (Hc2 & Hr & Hg).
  destruct (H23 Hc2) as (Hc3 & Hr' & Hg'). split; [done|]. split; by etrans.
Qed.

(** A step over a stream, whether the current one or another. *)
Lemma undisturbed_step id c i entry s' sh' :
  streams (command_pool c) !! i = Some entry → records_now c →
  (unfenced R (default (new_stream id) entry, command_shared c) (s', sh') ∨
   stream_index (command_current c) (max_streams (command_pool c)) = Some i ∧
   unfenced_recording R (default (new_stream id) entry, command_shared c) (s', sh')) →
  let c' := with_command (with_streams (<[i := Some s']> (streams (command_pool c))) (command_pool c)) sh' c in
  records_now c' ∧ R (shared_device (command_shared c)) (shared_device (command_shared c')) ∧ storages_grow c c'.
Proof.
  intros He (Hany & s & Hs & Hrec) Hstep c'.
  assert (unfenced R (default (new_stream id) entry, command_shared c) (s', sh')) as (HR & Hst & Hn & Hg).
  { destruct Hstep as [Hu|[Hi Hu]]; [done|]. apply Hu. unfold current_slot in Hs. rewrite Hi in Hs. cbn in Hs.
    rewrite He in Hs. cbn in Hs. by subst entry. }
  cbn in HR, Hst, Hn, Hg. split; [|split; [done|]].
  2: { destruct (stream_at_insert c i s' sh' entry He) as [Hat Hother]. intros j x Hx. destruct (decide (j = i)) as [->|Hne].
       - exists s'. split; [exact Hat|]. unfold stream_at in Hx. rewrite He in Hx. cbn in Hx. by subst entry.
       - exists x. split; [|done]. unfold c'. by rewrite Hother. }
  split; [cbn; by rewrite Hn|].
  destruct (current_slot_at c i entry s' sh' He s Hs) as [(_ & -> & Hc')|Hc'].
  - exists s'. split; [done|]. unfold capture_recording in *. by rewrite Hst.
  - by exists s.
Qed.
Lemma undisturbed_at {A} id (op : M Env A) : follows (unfenced R) op → follows undisturbed (at_stream new_stream id op).
Proof.
  intros Hop c a c' (i & entry & s' & sh' & _ & He & Hr & ->)%at_stream_run Hc.
  apply (undisturbed_step id c i entry s' sh' He Hc). left. by eapply Hop.
Qed.
Lemma undisturbed_current {A} (op : M Env A) :
  follows (unfenced_recording R) op → follows undisturbed (current new_stream op).
Proof.
  intros Hop c a c' Hr. unfold current in Hr. apply bind_run in Hr as (c0 & c1 & [= <- <-] & Hr).
  apply at_stream_run in Hr as (i & entry & s' & sh' & Hi & He & Hr & ->). intros Hc.
  apply (undisturbed_step (command_current c) c i entry s' sh' He Hc). right. split; [done|]. by eapply Hop.
Qed.
#[local] Instance undisturbed_lifted : Lifted new_stream (unfenced R) undisturbed.
Proof. split; [apply _|exact @undisturbed_at]. Qed.

(** What is read of the stream while it records. *)
Lemma current_reads {A} (op : M Env A) c a c' :
  records_now c → current new_stream op c = Some (a, c') →
  ∃ s e', capture_recording (stream_capture s) = true ∧ recording_any (shared_recording (command_shared c)) = true ∧
    op (s, command_shared c) = Some (a, e').
Proof.
  intros (Hany & s & Hs & Hrec) Hr. destruct (current_run new_stream op c s a c' Hs Hr) as (s' & sh' & Hop & _). by exists s, (s', sh').
Qed.

(** A call of the driver on the signal of the stream. *)
Lemma unfenced_call {A} (op : Sg → M D A) :
  (∀ sg d a d', op sg d = Some (a, d') → R d d') → follows (unfenced R (St := St) (HSt := HSt) (F := F) (Sg := Sg)) (sg ← signal; on_driver (op sg)).
Proof. intros Hop. apply (plain_call (unfenced R)). intros sg. apply unfenced_driver. intros. by eapply Hop. Qed.

Abbreviation calm := (follows undisturbed).
Lemma calm_to_cpu d bytes id : calm (write_to_cpu new_stream d bytes id).
Proof.
  unfold write_to_cpu. follows_tac; [apply undisturbed_at|apply (plain_current new_stream (unfenced R) undisturbed)]; apply unfenced_call; apply unfenced_to_host.
Qed.

(** Reserving looks at the capture first. *)
Lemma records_update c u c' : records_now c → current new_stream (on_capture page_update) c = Some (u, c') → u = Forbidden.
Proof.
  intros Hc Hr. destruct (current_reads _ c u c' Hc Hr) as (s & e' & Hrec & Hany & Hop).
  unfold on_capture in Hop. apply bind_Some in Hop as ([x e] & He & Hop). simplify_eq.
  unfold page_update, any_recording in He. unfold mbind, M_bind, gets, mret, M_ret in He. cbn in He. rewrite Hrec in He. by simplify_eq.
Qed.
Lemma respects_forbidden mm n : respects (St := St) same_storage (mm_reserve mm n Forbidden dry_run).
Proof. cbn [mm_reserve]. respects. Qed.
Lemma calm_once n : calm (reserve_once new_stream dry_run n Forbidden).
Proof.
  unfold reserve_once. apply (plain_current new_stream (unfenced R) undisturbed), (plain_memory (E := unfenced R)).
  intros mm w a w' [Hi Hs]%respects_forbidden. by apply relation_storage.
Qed.
#[local] Hint Resolve calm_once : follows.
Lemma calm_forbidden n : calm (reserve_update entry_order new_stream dry_run n Forbidden).
Proof. unfold reserve_update. rewrite bool_decide_eq_true_2 by done. follows_tac. Qed.
Lemma calm_reserve n : calm (reserve entry_order new_stream dry_run n).
Proof.
  intros c r c' Hr Hc. unfold reserve in Hr. apply bind_run in Hr as (u & c1 & Hu & Hr).
  pose proof (records_update c u c1 Hc Hu) as ->.
  assert (undisturbed c c1) as H1 by (eapply (plain_current new_stream (unfenced R) undisturbed); [|exact Hu]; follows_tac).
  rewrite decide_False in Hr by done. apply bind_run in Hr as ([] & c2 & [= <-] & Hr).
  apply calm_forbidden in Hr. enough (undisturbed c c') as Hcc by by apply Hcc. by etrans.
Qed.
#[local] Hint Resolve calm_reserve : follows.
Lemma calm_initialize m n : calm (initialize_memory entry_order new_stream dry_run m n).
Proof. unfold initialize_memory. follows_tac. Qed.
Lemma calm_empty n : calm (Command.empty entry_order new_stream dry_run n).
Proof. unfold Command.empty. follows_tac. Qed.
Lemma calm_keep staging data : calm (current new_stream (keep_source (St := St) (HSt := HSt) (D := D) staging data)).
Proof.
  apply undisturbed_current. intros e a e' Hr Hrec. unfold keep_source in Hr.
  apply bind_run in Hr as (b & e1 & [= <- <-] & Hr). rewrite Hrec in Hr.
  eapply (unfenced_capture R); [apply keeps_retain|exact Hr].
Qed.
#[local] Hint Resolve calm_empty calm_keep : follows.
Lemma calm_to_device h l b : calm (current new_stream (sg ← signal (St := St) (HSt := HSt); on_driver (copy_to_device h l b sg))).
Proof. apply (plain_current new_stream (unfenced R) undisturbed), unfenced_call. apply unfenced_to_device. Qed.
#[local] Hint Resolve calm_to_device : follows.
Lemma calm_to_gpu d data : calm (write_to_gpu new_stream dry_run bytes_property d data).
Proof. unfold write_to_gpu. follows_tac. Qed.
#[local] Hint Resolve calm_to_gpu : follows.
Lemma calm_create n : calm (create_with_data entry_order new_stream dry_run bytes_property n).
Proof. unfold create_with_data. follows_tac. Qed.
Lemma calm_flush_drops : calm (flush_drops new_stream).
Proof.
  intros c a c' Hr Hc. unfold flush_drops in Hr. apply bind_run in Hr as (b & c1 & Hb & Hr).
  destruct (current_reads _ c b c1 Hc Hb) as (s & e' & Hrec & _ & [= <- _]). rewrite Hrec in Hr. injection Hr as _ <-.
  eapply (plain_current new_stream (unfenced R) undisturbed); [|exact Hb|exact Hc]. follows_tac.
Qed.
Lemma calm_kernel k n args : calm (kernel new_stream k n args).
Proof.
  intros c a c' Hr Hc. unfold kernel in Hr. apply bind_run in Hr as (r & c1 & Hl & Hr).
  assert (undisturbed c c1) as H1 by (eapply (plain_current new_stream (unfenced R) undisturbed); [apply unfenced_call; intros sg d x d'; apply unfenced_launch|exact Hl]).
  destruct (H1 Hc) as [Hc1 _]. apply bind_run in Hr as (b & c2 & Hb & Hr).
  destruct (current_reads _ c1 b c2 Hc1 Hb) as (s & e' & Hrec & _ & [= <- _]). cbn in Hr. rewrite Hrec in Hr. cbn in Hr.
  apply bind_run in Hr as ([] & c3 & [= <-] & [= _ <-]).
  enough (undisturbed c c2) as Hcc by by apply Hcc. etrans; [exact H1|].
  eapply (plain_current new_stream (unfenced R) undisturbed); [|exact Hb]. follows_tac.
Qed.
(** Cleaning up is refused before anything is waited on. *)
Lemma cleanup_refused c r c' :
  records_now c → memory_cleanup entry_order new_stream c = Some (r, c') → r = Err recording_refusal ∧ undisturbed c c'.
Proof.
  intros Hc Hr. unfold memory_cleanup, try_bind, refuse_while_recording in Hr.
  apply bind_run in Hr as (x & c1 & Hx & Hr). apply bind_run in Hx as (b & c2 & Hb & [= <- <-]).
  cbn [recording command_relocates] in Hb.
  destruct (current_reads _ c b c2 Hc Hb) as (s & e' & Hrec & Hany & Hop).
  unfold on_capture, any_recording, gets in Hop. cbn in Hop. rewrite Hany in Hop. injection Hop as <- _.
  injection Hr as <- <-. split; [done|]. eapply (plain_current new_stream (unfenced R) undisturbed); [|exact Hb]. follows_tac.
Qed.
(** A reservation that finds no room in what the pools hold dooms the
    recording. *)
Lemma records_refusal n e c c' :
  records_now c → reserve entry_order new_stream dry_run n c = Some (Err e, c') →
  e = PageUpdateForbidden n ∧ ∃ s, current_slot c' = Some s ∧ is_Some (capture_failed (stream_capture s)).
Proof.
  intros Hc Hr. unfold reserve in Hr. apply bind_run in Hr as (u & c1 & Hu & Hr).
  pose proof (records_update c u c1 Hc Hu) as ->.
  assert (undisturbed c c1) as H1 by (eapply (plain_current new_stream (unfenced R) undisturbed); [|exact Hu]; follows_tac).
  rewrite decide_False in Hr by done. apply bind_run in Hr as ([] & c2 & [= <-] & Hr).
  destruct (H1 Hc) as [Hc1 _]. unfold reserve_update in Hr. apply bind_run in Hr as (r & c2 & Ho & Hr).
  destruct (calm_once n _ _ _ Ho Hc1) as [(Hany2 & s2 & Hs2 & Hrec2) _].
  destruct (current_reads _ c1 r c2 Hc1 Ho) as (s & [s' sh'] & _ & _ & Hop).
  unfold device_memory, mm_reserve in Hop. apply bind_Some in Hop as ([[x mm] w] & Hm & Hop). injection Hop as <- _ _.
  apply bind_run in Hm as ([h mm1] & w1 & _ & [= <- <- <-]). destruct h as [h|]; [done|].
  apply bind_run in Hr as ([] & c3 & Hf & [= <- <-]). split; [done|].
  destruct (current_run new_stream _ c2 s2 _ _ Hs2 Hf) as (s3 & sh3 & Hop & Hs3 & _). exists s3. split; [done|].
  unfold on_capture, capture_fail in Hop. apply bind_Some in Hop as ([y e] & He & [= _ <- _]).
  unfold mbind, M_bind, gets, set_capture, modify in He. cbn in He. injection He as _ <-. cbn.
  unfold fail_into. rewrite Hrec2. cbn. case_bool_decide as Hn; [by eexists|]. by destruct (capture_failed _).
Qed.

(** A reservation leaves the storage of every stream exactly as it was. *)
Definition same_storages (c c' : Cmd) : Prop := ∀ i, device_storage <$> stream_at c' i = device_storage <$> stream_at c i.
Lemma current_same {A} (op : M Env A) c a c' :
  records_now c → current new_stream op c = Some (a, c') →
  (∀ e x e', op e = Some (x, e') → device_storage e'.1 = device_storage e.1) → same_storages c c'.
Proof.
  intros (_ & s & Hs & _) Hr Hop j. unfold current in Hr. apply bind_run in Hr as (c0 & c1 & [= <- <-] & Hr).
  apply at_stream_run in Hr as (i & entry & s' & sh' & Hi & He & Hr & ->). apply Hop in Hr. cbn in Hr.
  unfold current_slot in Hs. rewrite Hi in Hs. cbn in Hs. rewrite He in Hs. cbn in Hs. subst entry.
  destruct (stream_at_insert c i s' sh' (Some s) He) as [Hat Hother]. destruct (decide (j = i)) as [->|Hne]; [|by rewrite Hother].
  rewrite Hat. unfold stream_at. rewrite He. cbn. by rewrite Hr.
Qed.
Lemma capture_same {A} (op : M (CaptureEnv Bytes) A) (e : Env) x e' : on_capture op e = Some (x, e') → device_storage e'.1 = device_storage e.1.
Proof. destruct e as [s sh]. intros Hr. unfold on_capture in Hr. by apply bind_Some in Hr as ([y d] & _ & [= _ <-]). Qed.
Lemma reserve_same n c r c' : records_now c → reserve entry_order new_stream dry_run n c = Some (r, c') → same_storages c c'.
Proof.
  intros Hc Hr. unfold reserve in Hr. apply bind_run in Hr as (u & c1 & Hu & Hr).
  pose proof (records_update c u c1 Hc Hu) as ->. assert (undisturbed c c1) as H1.
  { eapply (plain_current new_stream (unfenced R) undisturbed); [|exact Hu]. follows_tac. }
  destruct (H1 Hc) as [Hc1 _]. apply (current_same _ _ _ _ Hc) in Hu; [|by intros; eapply capture_same].
  rewrite decide_False in Hr by done. apply bind_run in Hr as ([] & c2 & [= <-] & Hr).
  unfold reserve_update in Hr. apply bind_run in Hr as (h & c2 & Ho & Hr). pose proof (calm_once n _ _ _ Ho Hc1) as [Hc2 _].
  apply (current_same _ _ _ _ Hc1) in Ho.
  2: { intros [s sh] x e' Hop. unfold device_memory in Hop. apply bind_Some in Hop as ([[y mm] w] & Hm & [= _ <-]).
       by apply respects_forbidden in Hm as [_ Hm]. }
  assert (same_storages c c2) as H2 by (intros i; by rewrite Ho, Hu).
  destruct h as [h|e]; [by injection Hr as _ <-|]. destruct e.
  all: try (rewrite bool_decide_eq_true_2 in Hr by done; by injection Hr as _ <-).
  apply bind_run in Hr as ([] & c3 & Hf & [= _ <-]). apply (current_same _ _ _ _ Hc2) in Hf; [|by intros; eapply capture_same].
  intros i. by rewrite Hf.
Qed.

#[local] Hint Resolve calm_initialize calm_to_cpu calm_create calm_flush_drops calm_kernel : follows.
Lemma calm_cleanup : calm (memory_cleanup entry_order new_stream).
Proof. intros c r c' Hr Hc. by destruct (cleanup_refused c r c' Hc Hr) as [_ Hu]; apply Hu. Qed.
#[local] Hint Resolve calm_cleanup : follows.
Lemma calm_command op : calm (run_command entry_order new_stream dry_run bytes_property op).
Proof. destruct op; cbn [run_command]; follows_tac. Qed.
Lemma calm_commands ops : calm (run_commands entry_order new_stream dry_run bytes_property ops).
Proof. induction ops as [|op ops IH]; cbn; [apply follows_ret, _|]. apply follows_bind; [apply _|apply calm_command|done]. Qed.

End recorded.

(** ** On the simulated driver *)
Import Sim.
(** It makes no fence and waits for none. *)
Definition unwaited (d d' : SimDevice) : Prop := fences d' = fences d.
#[export] Instance sim_unfenced : UnfencedRelation unwaited.
Proof.
  split.
  - split; [by intros d|]. unfold unwaited. intros d1 d2 d3. congruence.
  - by intros m h n d b d' [= _ <-].
  - by intros n d b d' [= _ <-].
  - by intros h l b sg d r d' [= _ <-].
  - by intros h l b sg d r d' [= _ <-].
  - by intros sg k n args d r d' [= _ <-].
Qed.

(** A server that is asked for memory its pools do not hold while its stream
    records. *)
Definition sim_ops : list (CommandOp (Args := unit)) :=
  [OpReport; OpHost 16 None; OpEmpty 7; OpCreate 3; OpKernel (mk_KernelId "k" 0) (1, 1, 1) tt; OpFlush].
Definition recording_command : Sim.SimCommand := Sim.sim_command (with_state (Capture.Capture 0) capture_new) 1.
