(* ===== verification/HostMemory.v ===== *)
(** * Host memory and the device

    The copies of [cubecl-server/src/command/base.rs] are enqueued: the device
    reads and writes host memory after the call that asked for it returned.
    What a driver promises of its fences is a class; against it, a server never
    drops a host allocation the device may still use, whatever it runs. *)

From S2P Require Export CommandRules.
From stdpp Require Import list gmap.
#[local] Open Scope Z_scope.

(** What a driver promises of the host memory it is given: the allocations made
    so far, and the tickets of the copies on a stream that still use one. *)
Class HostUse (D Sg : Type) := {
  known : D → Bytes → Prop;
  in_use : D → Sg → Bytes → Z → Prop;
  in_use_known d sg b t : in_use d sg b t → known d b;
}.
Section use.
Context {D Sg : Type} `{!HostUse D Sg}.
Implicit Types (d : D).

(** The device goes on, and starts to use nothing. *)
Definition settles d d' : Prop := (∀ x, known d x → known d' x) ∧ ∀ sg x t, in_use d' sg x t → in_use d sg x t.
(** Or starts to use what it was given to copy, once the copy is enqueued. *)
Definition copies_with d d' (r : result unit IoError) sg b : Prop :=
  (∀ x, known d x → known d' x) ∧
  ∀ sg' x t, in_use d' sg' x t → in_use d sg' x t ∨ r = Ok tt ∧ sg' = sg ∧ x = b.
#[export] Instance settles_preorder : PreOrder settles.
Proof. split; [by intros d|]. intros d1 d2 d3 [Hk Hu] [Hk' Hu']. split; eauto. Qed.
End use.
(** [covers f sg t]: the fence [f] waits for the ticket [t] of the stream. *)
Class HostLaws (D F Sg Args : Type) `{!Driver D F Sg Args, !HostUse D Sg} := {
  covers : F → Sg → Z → Prop;
  pinned_law m h n d b d' : pinned_bytes m h n d = Some (b, d') → settles d d' ∧ ¬ known d b ∧ known d' b;
  heap_law n d b d' : heap_bytes n d = Some (b, d') → settles d d' ∧ ¬ known d b ∧ known d' b;
  driver_fence_law sg d f d' : driver_fence sg d = Some (f, d') → settles d d' ∧ ∀ x t, in_use d' sg x t → covers f sg t;
  driver_wait_law f d r d' : fence_wait f d = Some (r, d') → settles d d' ∧ ∀ sg x t, in_use d' sg x t → ¬ covers f sg t;
  to_host_law h l b sg d r d' : copy_to_host h l b sg d = Some (r, d') → copies_with d d' r sg b;
  to_device_law h l b sg d r d' : copy_to_device h l b sg d = Some (r, d') → copies_with d d' r sg b;
  on_device_law a b sg d r d' : copy_on_device a b sg d = Some (r, d') → settles d d';
  outside_law d r d' : wait_outside_streams d = Some (r, d') → settles d d';
  launch_law sg k n (args : Args) d r d' : launch sg k n args d = Some (r, d') → settles d d';
}.

Section streams.
Context {St HSt F Sg D Args : Type} `{ComputeStorage St} `{ComputeStorage HSt} `{!Driver D F Sg Args, !HostUse D Sg, !HostLaws D F Sg Args}.
Abbreviation Stream := (CommandStream St HSt F Sg).
Abbreviation Env := (CommandStream St HSt F Sg * CommandShared D)%type.
Implicit Types (q : PendingDropQueue F) (d : D) (b : Bytes) (s : Stream) (sh : CommandShared D) (sg : Sg).

Definition unused d b : Prop := ∀ sg t, ¬ in_use d sg b t.
(** What the queue of the stream [sg] holds is used by that stream only, and
    its fence waits for what is pending. *)
Record queue_ok d sg q : Prop := mk_queue_ok {
  ok_pending b : b ∈ DropQueue.pending q → known d b ∧
    ∀ sg' t, in_use d sg' b t → sg' = sg ∧ ∀ f, DropQueue.fence q = Some f → covers f sg t;
  ok_staged b : b ∈ staged q → known d b ∧ ∀ sg' t, in_use d sg' b t → sg' = sg;
}.
Definition dropped_ok d (l : list Bytes) : Prop := ∀ b, b ∈ l → known d b ∧ unused d b.
Definition queued q : list Bytes := DropQueue.pending q ++ staged q.

Lemma queue_ok_settles d d' sg q : settles d d' → queue_ok d sg q → queue_ok d' sg q.
Proof.
  intros [Hk Hu] [Hp Hs]. split; intros b Hb.
  - destruct (Hp b Hb) as [Hkb Hub]. split; [by apply Hk|]. intros sg' t Ht. by apply Hub, Hu.
  - destruct (Hs b Hb) as [Hkb Hub]. split; [by apply Hk|]. intros sg' t Ht. by eapply Hub, Hu.
Qed.
Lemma dropped_ok_settles d d' l : settles d d' → dropped_ok d l → dropped_ok d' l.
Proof. intros [Hk Hu] Hl b Hb. destruct (Hl b Hb) as [Hkb Hub]. split; [by apply Hk|]. intros sg t Ht. by eapply Hub, Hu. Qed.

(** *** Fences *)
Lemma settles_fence sg d f d' : driver_fence sg d = Some (f, d') → settles d d'.
Proof. by intros [? _]%driver_fence_law. Qed.
Lemma settles_wait f d r d' : fence_wait f d = Some (r, d') → settles d d'.
Proof. by intros [? _]%driver_wait_law. Qed.
Lemma sync_done sg f d r d' b :
  (∀ sg' t, in_use d sg' b t → sg' = sg ∧ covers f sg t) → fence_wait f d = Some (r, d') → unused d' b.
Proof.
  intros Hb Hw sg' t Ht. destruct (driver_wait_law f d r d' Hw) as [[_ Hu] Hn].
  destruct (Hb sg' t) as [-> Hcov]; [by apply Hu|]. by eapply Hn.
Qed.

(** Dropping what is pending once the device is done with it. *)
Lemma clear_ok sg q d dropped d' f r :
  (∀ b, b ∈ DropQueue.pending q → ∀ sg' t, in_use d sg' b t → sg' = sg ∧ covers f sg t) →
  fence_wait f d = Some (r, d') → queue_ok d sg q → dropped_ok d dropped →
  settles d d' ∧
  queue_ok d' sg (mk_PendingDropQueue (DropQueue.fence q) [] (staged q) (DropQueue.policy q) (policy_state q)) ∧
  dropped_ok d' (dropped ++ DropQueue.pending q).
Proof.
  intros Hcov Hw Hq Hd. pose proof (settles_wait _ _ _ _ Hw) as Hset. split; [done|]. split.
  - pose proof (queue_ok_settles _ _ _ _ Hset Hq) as [Hp Hst]. split; [|done]. intros b Hb. by apply elem_of_nil in Hb.
  - intros b [Hb|Hb]%elem_of_app; [by apply (dropped_ok_settles _ _ _ Hset Hd)|]. split.
    + destruct Hset as [Hk _]. by apply Hk, Hq.
    + eapply sync_done; [by apply Hcov|exact Hw].
Qed.
(** What was staged is put behind a new fence once nothing is pending. *)
Lemma restage_ok sg q d d' f :
  DropQueue.pending q = [] → driver_fence sg d = Some (f, d') → queue_ok d sg q →
  settles d d' ∧ queue_ok d' sg (mk_PendingDropQueue (Some f) (staged q) (DropQueue.pending q) (DropQueue.policy q) policy_reset).
Proof.
  intros Hp Hf Hq. pose proof (settles_fence _ _ _ _ Hf) as Hset. split; [done|]. apply driver_fence_law in Hf as [_ Hcov].
  apply (queue_ok_settles _ _ _ _ Hset) in Hq as [_ Hst]. split; cbn; [|intros b Hb; rewrite Hp in Hb; by apply elem_of_nil in Hb].
  intros b Hb. destruct (Hst b Hb) as [Hk Hu]. split; [done|]. intros sg' t Ht. pose proof (Hu _ _ Ht) as ->.
  split; [done|]. intros f' [= <-]. by eapply Hcov.
Qed.
(** A flush moves what was staged behind a fence, once what was pending is
    done. *)
Definition flushed sg q (w : DropWorld D) q' (w' : DropWorld D) : Prop :=
  settles (DropQueue.device w) (DropQueue.device w') ∧ queue_ok (DropQueue.device w') sg q' ∧
  dropped_ok (DropQueue.device w') (DropQueue.dropped w') ∧
  DropQueue.dropped w' ++ queued q' ≡ₚ DropQueue.dropped w ++ queued q.
Lemma flush_end sg q d dropped q0 d0 dropped0 f d' :
  settles d0 d → dropped ++ queued q ≡ₚ dropped0 ++ queued q0 →
  DropQueue.pending q = [] → queue_ok d sg q → dropped_ok d dropped → driver_fence sg d = Some (f, d') →
  flushed sg q0 (mk_DropWorld d0 dropped0)
    (mk_PendingDropQueue (Some f) (staged q) (DropQueue.pending q) (DropQueue.policy q) policy_reset) (mk_DropWorld d' dropped).
Proof.
  intros Hset Hin Hp Hq Hd Hf. destruct (restage_ok sg q d d' f Hp Hf Hq) as [Hset' Hq'].
  split; [by etrans|]. split; [done|]. split; [by eapply dropped_ok_settles|]. cbn. rewrite <- Hin.
  unfold queued. cbn. by rewrite Hp, app_nil_r.
Qed.
Lemma flush_ok sg q w q' w' :
  DropQueue.flush (driver_fence sg) q w = Some (q', w') →
  queue_ok (DropQueue.device w) sg q → dropped_ok (DropQueue.device w) (DropQueue.dropped w) → flushed sg q w q' w'.
Proof.
  unfold DropQueue.flush. destruct w as [d dropped]. intros Hr Hq Hd. cbn [DropQueue.device DropQueue.dropped] in Hq, Hd.
  destruct (bool_decide (DropQueue.pending q = []) && bool_decide (staged q = [])).
  { injection Hr as <- <-. by split_and!. }
  unfold on_device, fence_sync, clear_pending, drop_bytes, modify, mbind, M_bind, mret, M_ret in Hr. cbn in Hr.
  destruct (DropQueue.fence q) as [f|] eqn:Hf; cbn in Hr.
  - destruct (fence_wait f d) as [[r d1]|] eqn:Hw; cbn in Hr; [|done].
    destruct (λ Hc, clear_ok sg q d dropped d1 f r Hc Hw Hq Hd) as (Hset1 & Hq1 & Hd1).
    { intros b Hb sg' t Ht. destruct Hq as [Hp _]. destruct (Hp b Hb) as [_ Hu]. destruct (Hu _ _ Ht) as [-> Hc]. by auto. }
    destruct (driver_fence sg d1) as [[f2 d2]|] eqn:Hf2; cbn in Hr; [|done]. injection Hr as <- <-.
    refine (flush_end sg (mk_PendingDropQueue _ [] (staged q) (DropQueue.policy q) (policy_state q)) d1 _ q d dropped f2 d2 Hset1 _ eq_refl _ Hd1 Hf2).
    + unfold queued. cbn. by rewrite <- app_assoc.
    + destruct Hq1 as [_ Hst]. split; [|exact Hst]. intros b Hb. by apply elem_of_nil in Hb.
  - destruct (bool_decide (DropQueue.pending q = [])) eqn:Hp; cbn in Hr.
    + apply bool_decide_eq_true in Hp. destruct (driver_fence sg d) as [[f2 d2]|] eqn:Hf2; cbn in Hr; [|done].
      injection Hr as <- <-. by eapply flush_end.
    + destruct (driver_fence sg d) as [[f1 d0]|] eqn:Hf1; cbn in Hr; [|done].
      pose proof (settles_fence _ _ _ _ Hf1) as Hset0. apply driver_fence_law in Hf1 as [_ Hcov1].
      destruct (fence_wait f1 d0) as [[r d1]|] eqn:Hw; cbn in Hr; [|done].
      pose proof (queue_ok_settles _ _ _ _ Hset0 Hq) as Hq0. pose proof (dropped_ok_settles _ _ _ Hset0 Hd) as Hd0.
      destruct (λ Hc, clear_ok sg q d0 dropped d1 f1 r Hc Hw Hq0 Hd0) as (Hset1 & Hq1 & Hd1).
      { intros b Hb sg' t Ht. destruct Hq0 as [Hpo _]. destruct (Hpo b Hb) as [_ Hu]. destruct (Hu _ _ Ht) as [-> _]. split; [done|]. by eapply Hcov1. }
      destruct (driver_fence sg d1) as [[f2 d2]|] eqn:Hf2; cbn in Hr; [|done]. injection Hr as <- <-.
      refine (flush_end sg (mk_PendingDropQueue _ [] (staged q) (DropQueue.policy q) (policy_state q)) d1 _ q d dropped f2 d2 _ _ eq_refl Hq1 Hd1 Hf2).
      * by etrans.
      * unfold queued. cbn. by rewrite <- app_assoc.
Qed.

Lemma follows_fence sg : follows settles (driver_fence (F := F) (Args := Args) sg).
Proof. intros d f d'. apply settles_fence. Qed.
Lemma follows_wait f : follows settles (fence_wait (D := D) f).
Proof. intros d r d'. apply settles_wait. Qed.
Lemma follows_on_device (a b : StorageHandle) sg : follows settles (copy_on_device (F := F) (Args := Args) a b sg).
Proof. intros d r d'. apply on_device_law. Qed.
Lemma follows_outside : follows settles (wait_outside_streams (F := F) (Args := Args)).
Proof. intros d r d'. apply outside_law. Qed.
End streams.

(** ** Over the streams of a server *)
Section commands.
Context {St HSt F Sg D Args : Type} `{ComputeStorage St} `{ComputeStorage HSt}.
Context `{!Driver D F Sg Args, !HostUse D Sg, !HostLaws D F Sg Args}.
Context (new_stream : StreamId → CommandStream St HSt F Sg) (Hnew : ∀ id, queued (stream_queue (new_stream id)) = []).
Abbreviation Env := (CommandStream St HSt F Sg * CommandShared D)%type.
Abbreviation Cmd := (Command St HSt F Sg D).
Implicit Types (e : Env) (c : Cmd) (b x : Bytes) (l : list Bytes) (id : StreamId).

(** *** Over one stream *)
(** What was dropped, and what is still to be. *)
Definition let_go e : list Bytes := shared_dropped e.2 ++ queued (stream_queue e.1).
Definition outside e b : Prop := b ∉ let_go e.
Definition env_ok e : Prop :=
  queue_ok (shared_device e.2) (stream_signal e.1) (stream_queue e.1) ∧ dropped_ok (shared_device e.2) (shared_dropped e.2) ∧
  NoDup (let_go e).
(** What a step leaves alone, the allocations [l] apart. *)
Record env_apart l e e' : Prop := mk_env_apart {
  env_signal : stream_signal e'.1 = stream_signal e.1;
  env_known x : known (shared_device e.2) x → known (shared_device e'.2) x;
  env_use x sg t : x ∉ l → known (shared_device e.2) x → in_use (shared_device e'.2) sg x t → in_use (shared_device e.2) sg x t;
  env_outside x : x ∉ l → known (shared_device e.2) x → outside e x → outside e' x;
}.
(** A step that uses no host memory. *)
Definition gentle e e' : Prop :=
  env_ok e → env_ok e' ∧ stream_signal e'.1 = stream_signal e.1 ∧
    settles (shared_device e.2) (shared_device e'.2) ∧ let_go e' ≡ₚ let_go e.
#[local] Instance gentle_preorder : PreOrder gentle.
Proof.
  split; [by intros e He; split_and!|]. intros e1 e2 e3 H12 H23 H1. destruct (H12 H1) as (H2 & Hs & Hd & Hx).
  destruct (H23 H2) as (H3 & Hs' & Hd' & Hx'). split_and!; [done|congruence|by etrans|by rewrite Hx'].
Qed.
Lemma gentle_apart l e e' : env_ok e → gentle e e' → env_ok e' ∧ env_apart l e e'.
Proof. intros He Hg. destruct (Hg He) as (He' & Hs & [Hk Hu] & Hx). split; [done|]. split; [done|auto|eauto|].
  intros x _ _. unfold outside. by rewrite Hx. Qed.

Lemma gentle_same e e' :
  stream_signal e'.1 = stream_signal e.1 → stream_queue e'.1 = stream_queue e.1 →
  shared_dropped e'.2 = shared_dropped e.2 → settles (shared_device e.2) (shared_device e'.2) → gentle e e'.
Proof.
  intros Hs Hq Hd Hset (Hok & Hdr & Hnd). unfold env_ok, let_go. rewrite Hs, Hq, Hd. split_and!; try done.
  - by eapply queue_ok_settles.
  - by eapply dropped_ok_settles.
Qed.
Lemma gentle_memory {A} (op : MemoryManagement → M (World St) (A * MemoryManagement)) :
  follows gentle (device_memory (D := D) (HSt := HSt) (F := F) (Sg := Sg) op).
Proof.
  intros [s sh] a [s' sh'] Hr. unfold device_memory in Hr. apply bind_Some in Hr as ([[x mm] w] & _ & [= <- <- <-]).
  by apply gentle_same.
Qed.
Lemma gentle_host {A} (op : MemoryManagement → M (World HSt) (A * MemoryManagement)) :
  follows gentle (host_memory (D := D) (St := St) (F := F) (Sg := Sg) op).
Proof.
  intros [s sh] a [s' sh'] Hr. unfold host_memory in Hr. apply bind_Some in Hr as ([[x mm] w] & _ & [= <- <- <-]).
  by apply gentle_same.
Qed.
Lemma gentle_descriptors {A} (op : M Memory A) :
  follows gentle (on_descriptors (D := D) (St := St) (HSt := HSt) (F := F) (Sg := Sg) op).
Proof.
  intros [s sh] a [s' sh'] Hr. unfold on_descriptors in Hr. apply bind_Some in Hr as ([x m] & _ & [= <- <- <-]).
  by apply gentle_same.
Qed.
Lemma gentle_capture {A} (op : M (CaptureEnv Bytes) A) :
  follows gentle (on_capture (D := D) (St := St) (HSt := HSt) (F := F) (Sg := Sg) op).
Proof.
  intros [s sh] a [s' sh'] Hr. unfold on_capture in Hr. apply bind_Some in Hr as ([x e] & _ & [= <- <- <-]).
  by apply gentle_same.
Qed.
Lemma gentle_driver {A} (op : M D A) :
  follows settles op → follows gentle (on_driver (St := St) (HSt := HSt) (F := F) (Sg := Sg) op).
Proof.
  intros Hop [s sh] a [s' sh'] Hr. unfold on_driver in Hr. apply bind_Some in Hr as ([x d] & Hd & [= <- <- <-]).
  apply gentle_same; try done. by eapply Hop.
Qed.
Lemma gentle_modify (f : Env → Env) : (∀ e, gentle e (f e)) → follows gentle (modify f).
Proof. intros Hf e a e' [= _ <-]. apply Hf. Qed.
Lemma gentle_relocate signals reason : follows gentle (relocate_on (D := D) (HSt := HSt) (F := F) signals reason).
Proof.
  intros [s sh] a [s' sh'] Hr. unfold relocate_on in Hr. apply bind_Some in Hr as ([mm [w q]] & Hm & [= <- <- <-]).
  apply gentle_same; try done.
  by apply (device_relocate settles follows_fence follows_wait follows_on_device follows_outside) in Hm.
Qed.
Lemma gentle_flush : follows gentle (flush_queue (D := D) (St := St) (HSt := HSt) (F := F)).
Proof.
  unfold flush_queue. intros e a e' Hr (Hq & Hd & Hnd). apply bind_run in Hr as (sg & e1 & [= <- <-] & Hr). destruct e as [s sh].
  unfold drop_queue in Hr. apply bind_Some in Hr as ([q w] & Hf & [= _ <-]).
  destruct (flush_ok _ _ _ _ _ Hf Hq Hd) as (Hset & Hq' & Hd' & Hx). split_and!; try done. unfold env_ok, let_go in *. cbn in *. by rewrite Hx.
Qed.
Lemma gentle_drain : follows gentle (drain_queue (D := D) (St := St) (HSt := HSt) (F := F)).
Proof.
  unfold drain_queue, drain. intros e a e' Hr (Hq & Hd & Hnd). apply bind_run in Hr as (sg & e1 & [= <- <-] & Hr). destruct e as [s sh].
  unfold drop_queue in Hr. apply bind_Some in Hr as ([q w] & Hf & [= _ <-]). apply bind_run in Hf as (q1 & w1 & Hf1 & Hf).
  destruct (flush_ok _ _ _ _ _ Hf1 Hq Hd) as (Hset1 & Hq1 & Hd1 & Hx1).
  destruct (flush_ok _ _ _ _ _ Hf Hq1 Hd1) as (Hset & Hq' & Hd' & Hx). unfold env_ok, let_go in *. cbn in *.
  rewrite Hx1 in Hx. rewrite Hx. split_and!; try done. by etrans.
Qed.

(** *** Over the pool *)
Definition signal_at c id : option Sg :=
  i ← stream_index id (max_streams (command_pool c)); stream_signal <$> stream_at c i.
Abbreviation device_of c := (shared_device (command_shared c)).
Abbreviation dropped_of c := (shared_dropped (command_shared c)).
(** Neither dropped nor in a queue. *)
Definition loose c b : Prop := b ∉ dropped_of c ∧ ∀ i s, stream_at c i = Some s → b ∉ queued (stream_queue s).
(** An allocation is dropped, or in a queue, once. *)
Definition let_go_once c : Prop :=
  NoDup (dropped_of c) ∧ (∀ i s, stream_at c i = Some s → NoDup (dropped_of c ++ queued (stream_queue s))) ∧
  ∀ i j s s' b, i ≠ j → stream_at c i = Some s → stream_at c j = Some s' → b ∈ queued (stream_queue s) → b ∉ queued (stream_queue s').
Definition host_inv c : Prop :=
  dropped_ok (device_of c) (dropped_of c) ∧
  (∀ i s, stream_at c i = Some s → queue_ok (device_of c) (stream_signal s) (stream_queue s)) ∧ let_go_once c.
(** What a run leaves alone, the allocations [l] apart. *)
Record apart l c c' : Prop := mk_apart {
  apart_current : command_current c' = command_current c;
  apart_signal id sg : signal_at c id = Some sg → signal_at c' id = Some sg;
  apart_known x : known (device_of c) x → known (device_of c') x;
  apart_use x sg t : x ∉ l → known (device_of c) x → in_use (device_of c') sg x t → in_use (device_of c) sg x t;
  apart_loose x : x ∉ l → known (device_of c) x → loose c x → loose c' x;
}.
Lemma apart_refl l c : apart l c c.
Proof. by split. Qed.
(** The allocations of the second run that the first one made are nobody's. *)
Lemma apart_trans l l' c c1 c2 :
  apart l c c1 → apart l' c1 c2 → (∀ x, known (device_of c) x → x ∈ l' → x ∈ l) → apart l c c2.
Proof.
  intros [Hc Hs Hk Hu Hl] [Hc' Hs' Hk' Hu' Hl'] Hin. split; [congruence|auto|auto| |].
  - intros x sg t Hx Hkx Ht. apply Hu; [done..|]. apply Hu'; [|auto|done]. intros Hx'. by apply Hx, Hin.
  - intros x Hx Hkx Hlx. apply Hl'; [|auto|auto]. intros Hx'. by apply Hx, Hin.
Qed.
Lemma apart_nil l c c' : apart [] c c' → apart l c c'.
Proof.
  intros [Hc Hs Hk Hu Hl]. split; [done..| |].
  - intros x sg t _. apply Hu, not_elem_of_nil.
  - intros x _. apply Hl, not_elem_of_nil.
Qed.
Lemma apart_after l c c1 c2 : apart [] c c1 → apart l c1 c2 → apart l c c2.
Proof. intros Ha%(apart_nil l) Ha'. by eapply apart_trans. Qed.
Definition quiet c c' : Prop := host_inv c → host_inv c' ∧ apart [] c c'.
#[local] Instance quiet_preorder : PreOrder quiet.
Proof.
  split; [by intros c; split; [done|apply apart_refl]|]. intros c1 c2 c3 H12 H23 H1. destruct (H12 H1) as [H2 Ha].
  destruct (H23 H2) as [H3 Ha']. split; [done|]. by eapply apart_trans.
Qed.

Lemma queue_ok_apart (d d' : D) sg (q : PendingDropQueue F) :
  (∀ x, known d x → known d' x) → (∀ x sg' t, x ∈ queued q → known d x → in_use d' sg' x t → in_use d sg' x t) →
  queue_ok d sg q → queue_ok d' sg q.
Proof.
  intros Hk Hu [Hp Hs]. split; intros x Hx.
  - destruct (Hp x Hx) as [Hkx Hux]. split; [auto|]. intros sg' t Ht. apply Hux, Hu; [|done..]. by apply elem_of_app; left.
  - destruct (Hs x Hx) as [Hkx Hux]. split; [auto|]. intros sg' t Ht. eapply Hux, Hu; [|done..]. by apply elem_of_app; right.
Qed.
(** A step over the stream of an id, created if it had to be. *)
Record stepped c id {A} (op : M Env A) (a : A) c' (e e' : Env) : Prop := mk_stepped {
  stepped_run : op e = Some (a, e');
  stepped_before : e.2 = command_shared c;
  stepped_after : command_shared c' = e'.2;
  stepped_ok : env_ok e;
  stepped_outside x : loose c x → outside e x;
  stepped_signal : signal_at c' id = Some (stream_signal e'.1);
  stepped_known_signal sg : signal_at c id = Some sg → stream_signal e.1 = sg;
  stepped_apart l : env_apart l e e' → apart l c c';
  stepped_inv l : (∀ x, x ∈ l → loose c x) → env_apart l e e' → env_ok e' → host_inv c';
  stepped_loose x : loose c x → outside e' x → loose c' x;
}.
Lemma let_go_step c c' i s' :
  stream_at c' i = Some s' → (∀ j, j ≠ i → stream_at c' j = stream_at c j) → NoDup (let_go (s', command_shared c')) →
  (∀ j s x, j ≠ i → stream_at c j = Some s → x ∈ queued (stream_queue s) → x ∉ let_go (s', command_shared c')) →
  let_go_once c → let_go_once c'.
Proof.
  unfold let_go. cbn. intros Hat Hother Hnd Hstay (_ & Hns & Hdis). split; [|split].
  - by apply NoDup_app in Hnd as (? & _).
  - intros j s. destruct (decide (j = i)) as [->|Hne]; [rewrite Hat; by intros [= <-]|]. rewrite Hother by done. intros Hj.
    apply NoDup_app in Hnd as (Hndd & _). apply NoDup_app. split; [done|]. split.
    + intros x Hx Hxq. destruct (Hstay j s x Hne Hj Hxq). apply elem_of_app. by left.
    + specialize (Hns j s Hj). by apply NoDup_app in Hns as (_ & _ & ?).
  - intros j k s t x Hjk. destruct (decide (j = i)) as [->|Hj], (decide (k = i)) as [->|Hk']; rewrite ?Hat, ?Hother by done.
    + done.
    + intros [= <-] Hkt Hx Hxt. destruct (Hstay k t x Hk' Hkt Hxt). apply elem_of_app. by right.
    + intros Hjs [= <-] Hx Hxt. destruct (Hstay j s x Hj Hjs Hx). apply elem_of_app. by right.
    + by apply Hdis.
Qed.
Lemma at_stream_step {A} id (op : M Env A) c a c' :
  at_stream new_stream id op c = Some (a, c') → host_inv c → ∃ e e', stepped c id op a c' e e'.
Proof.
  intros (i & entry & s' & sh' & Hi & He & Hr & ->)%at_stream_run (Hd & Hq & Hnd & Hns & Hdis).
  destruct (stream_at_insert c i s' sh' entry He) as [Hat Hother]. cbn zeta in *. set (c' := with_command _ _ _) in *.
  assert (stream_at c i = entry) as Hentry by (unfold stream_at; by rewrite He).
  assert (∀ x, loose c x → outside (default (new_stream id) entry, command_shared c) x) as Hout.
  { intros x [Hlx Hix]. unfold outside, let_go. cbn. rewrite not_elem_of_app. split; [done|].
    destruct entry as [s0|]; cbn; [by eapply Hix|]. rewrite Hnew. apply not_elem_of_nil. }
  assert (∀ x, loose c x → outside (s', sh') x → loose c' x) as Hloose.
  { intros x [Hlx Hix] Ho. unfold outside, let_go in Ho. rewrite not_elem_of_app in Ho. destruct Ho as [Hod Hoq]. split; [done|]. intros j s.
    destruct (decide (j = i)) as [->|Hne]; [rewrite Hat; by intros [= <-]|]. rewrite Hother by done. apply Hix. }
  assert (∀ l, env_apart l (default (new_stream id) entry, command_shared c) (s', sh') → apart l c c') as Hapart.
  { intros l [Hs Hk Hu Ho]. cbn in *. split; [done| |done|done|].
    - intros id' sg Hsg. unfold signal_at in *. apply bind_Some in Hsg as (j & Hj & Hsg). cbn. rewrite Hj. cbn.
      destruct (decide (j = i)) as [->|Hne]; [|by rewrite Hother]. rewrite Hat. cbn. rewrite Hs. rewrite Hentry in Hsg.
      destruct entry; [done|discriminate Hsg].
    - intros x Hx Hkx Hlx. apply Hloose; [done|]. apply Ho; auto. }
  exists (default (new_stream id) entry, command_shared c), (s', sh'). split; try done.
  - split; [|split; [done|]]; unfold let_go; cbn; (destruct entry as [s0|]; cbn; [eauto|]); specialize (Hnew id).
    + unfold queued in Hnew. apply app_nil in Hnew as [Hp Hst]. split; [rewrite Hp|rewrite Hst]; intros b Hb; by apply elem_of_nil in Hb.
    + by rewrite Hnew, app_nil_r.
  - unfold signal_at. cbn. rewrite Hi. cbn. by rewrite Hat.
  - intros sg Hsg. unfold signal_at in Hsg. rewrite Hi in Hsg. cbn in Hsg. rewrite Hentry in Hsg.
    destruct entry; [by injection Hsg as <-|discriminate Hsg].
  - intros l Hl Hea (Hq' & Hd' & Hnd'). destruct (Hapart l Hea) as [_ _ Hk Hu _]. split; [done|].
    assert (∀ j s x, j ≠ i → stream_at c j = Some s → x ∈ queued (stream_queue s) → x ∉ let_go (s', sh')) as Hstay.
    { intros j s x Hne Hj Hx. assert (known (device_of c) x) as Hkx.
      { destruct (Hq j s Hj) as [Hp Hst]. apply elem_of_app in Hx as [?|?]; [by apply Hp|by apply Hst]. }
      destruct Hea as [_ _ _ Ho]. apply Ho; [|done|].
      - intros Hxl. destruct (Hl x Hxl) as [_ Hix]. by eapply Hix.
      - unfold outside, let_go. cbn. rewrite not_elem_of_app. split.
        + specialize (Hns j s Hj). apply NoDup_app in Hns as (_ & Hns & _). intros Hxd. by apply (Hns x).
        + destruct entry as [s0|]; cbn; [by eapply (Hdis j i)|]. rewrite Hnew. apply not_elem_of_nil. }
    split; [|by eapply let_go_step].
    intros j s.
    destruct (decide (j = i)) as [->|Hne]; [rewrite Hat; by intros [= <-]|]. rewrite Hother by done. intros Hj.
    eapply queue_ok_apart; [exact Hk| |by eapply Hq]. intros x sg' t Hx. apply Hu. intros Hxl. by destruct (Hl x Hxl) as [_ Hix]; eapply Hix.
Qed.
Lemma quiet_at {A} id (op : M Env A) : follows gentle op → follows quiet (at_stream new_stream id op).
Proof.
  intros Hop c a c' Hr Hc. destruct (at_stream_step id op c a c' Hr Hc) as (e & e' & [Hrun Hb Ha Hok Ho Hs Hks Hap Hinv Hl]).
  destruct (gentle_apart [] e e' Hok) as [Hok' Hea]; [by eapply Hop|]. split; [|by apply Hap].
  eapply Hinv; [|exact Hea|done]. intros x Hx. by apply elem_of_nil in Hx.
Qed.

(** *** The operations that use no host memory *)
Context (entry_order : gmap InfoCacheKey (CacheEntry BufferHandle) → list (InfoCacheKey * CacheEntry BufferHandle)).
Context (dry_run : bool) (bytes_property : Bytes → AllocationProperty).
#[local] Instance quiet_lifted : Lifted new_stream gentle quiet.
Proof. split; [apply _|exact @quiet_at]. Qed.
#[local] Instance gentle_effects : BusyEffects gentle.
Proof.
  split; [split|..]; auto using gentle_memory, gentle_host, gentle_descriptors, gentle_capture, gentle_flush, gentle_drain,
    gentle_relocate; try apply _; intros; first [apply gentle_driver | apply gentle_modify].
  - intros d b d' Hr. by apply pinned_law in Hr as (? & _).
  - intros d b d' Hr. by apply heap_law in Hr as (? & _).
  - intros e. by apply gentle_same.
  - apply follows_fence.
  - intros d r d'. apply launch_law.
Qed.
Lemma gentle_call {A} (op : Sg → M D A) : (∀ sg, follows settles (op sg)) → follows gentle (sg ← signal; on_driver (op sg)).
Proof. intros Hop. apply (plain_call gentle). intros sg. by apply gentle_driver. Qed.

(** *** Host memory that a run holds *)
Definition target c (origin : option StreamId) : StreamId := default (command_current c) origin.
Lemma current_eq {A} (op : M Env A) c : current new_stream op c = at_stream new_stream (command_current c) op c.
Proof. done. Qed.

(** Nothing uses it; or one stream only does. *)
Definition idle c b : Prop := known (device_of c) b ∧ loose c b ∧ unused (device_of c) b.
Definition held c id b : Prop :=
  known (device_of c) b ∧ loose c b ∧ ∀ sg t, in_use (device_of c) sg b t → signal_at c id = Some sg.
Lemma idle_held c id b : idle c b → held c id b.
Proof. intros (Hk & Hl & Hu). split; [done|]. split; [done|]. intros sg t Ht. by destruct (Hu sg t). Qed.
Lemma apart_idle l c c' b : apart l c c' → b ∉ l → idle c b → idle c' b.
Proof.
  intros [_ _ Hk Hu Hl] Hb (Hkb & Hlb & Hub). split; [auto|]. split; [auto|]. intros sg t Ht. by eapply Hub, Hu.
Qed.
Lemma apart_held l c c' id b : apart l c c' → b ∉ l → held c id b → held c' id b.
Proof.
  intros [_ Hs Hk Hu Hl] Hb (Hkb & Hlb & Hub). split; [auto|]. split; [auto|]. intros sg t Ht. by eapply Hs, Hub, Hu.
Qed.
(** What nobody knows is in no queue. *)
Lemma unknown_loose c b : host_inv c → ¬ known (device_of c) b → loose c b.
Proof.
  intros (Hd & Hq & _) Hk. split.
  - intros Hb. by destruct (Hd b Hb).
  - intros i s Hs Hb. destruct (Hq i s Hs) as [Hp Hst]. apply Hk. apply elem_of_app in Hb as [Hb|Hb]; [by apply Hp|by apply Hst].
Qed.
(** An operation that allocates. *)
Definition makes {A} (op : M Env A) (b : A → option Bytes) : Prop := follows gentle op ∧
  ∀ e a e' x, op e = Some (a, e') → b a = Some x → env_ok e → ¬ known (shared_device e.2) x ∧ known (shared_device e'.2) x.
Lemma makes_fresh {A} id (op : M Env A) (f : A → option Bytes) c a c' b :
  makes op f → at_stream new_stream id op c = Some (a, c') → f a = Some b → host_inv c → ¬ known (device_of c) b ∧ idle c' b.
Proof.
  intros [Hg Hm] Hr Hf Hc. destruct (at_stream_step id op c a c' Hr Hc) as (e & e' & [Hrun Hb Ha Hok Ho _ _ _ _ Hl]).
  destruct (Hm e a e' b Hrun Hf Hok) as [Hn Hk]. destruct (Hg e a e' Hrun Hok) as (_ & _ & [_ Hu] & Hout).
  rewrite Hb in Hn. split; [done|]. unfold idle. rewrite Ha. split; [done|]. pose proof (unknown_loose c b Hc Hn) as Hlb.
  split; [by apply Hl; [|unfold outside; rewrite Hout; apply Ho]|]. intros sg t Ht%Hu. rewrite Hb in Ht. by eapply Hn, in_use_known.
Qed.
Lemma makes_heap n : makes (on_driver (heap_bytes n)) Some.
Proof.
  split; [apply plain_heap_bytes|]. intros [s sh] b [s' sh'] x Hr [= ->] _. unfold on_driver in Hr.
  apply bind_Some in Hr as ([y d] & Hy & [= <- <- <-]). by apply heap_law in Hy as (_ & ? & ?).
Qed.
Lemma makes_pinned n : makes (pinned_on dry_run n) (λ r, r).
Proof.
  split; [apply (plain_pinned_on dry_run gentle)|]. intros e r e' b Hr -> He. unfold pinned_on in Hr.
  assert (∀ (A : Type) (op : M Env A) e1 a e2, op e1 = Some (a, e2) → follows gentle op → gentle e e1 → gentle e e2) as Hstep.
  { intros A op e1 a e2 Hop Hf Hg. etrans; [exact Hg|by eapply Hf]. }
  apply bind_run in Hr as (u & e1 & Hu & Hr). apply Hstep in Hu; [|apply gentle_capture|done].
  apply bind_run in Hr as (h & e2 & Hh & Hr). apply Hstep in Hh; [|apply gentle_host|done]. destruct h as [h|]; [|done].
  apply bind_run in Hr as (? & e3 & H3 & Hr). apply Hstep in H3; [|apply gentle_descriptors|done].
  apply bind_run in Hr as (? & e4 & H4 & Hr). apply Hstep in H4; [|apply gentle_capture|done].
  apply bind_run in Hr as (? & e5 & H5 & Hr). apply Hstep in H5; [|apply gentle_descriptors|done].
  apply bind_run in Hr as (g & [s6 sh6] & H6 & Hr). apply Hstep in H6; [|apply gentle_host|done]. destruct g as [g|].
  2: { by apply bind_run in Hr as (? & ? & _ & [=]). }
  unfold fmap, M_fmap, on_driver in Hr. destruct (pinned_bytes h g n (shared_device sh6)) as [[y d]|] eqn:Hy; [|done].
  cbn in Hr. injection Hr as <- <-. apply pinned_law in Hy as (_ & Hn & Hk). split; [|done]. intros Hb. apply Hn.
  destruct (H6 He) as (_ & _ & [Hk6 _] & _). by apply Hk6.
Qed.
Lemma reserve_pinned_eq n origin c :
  reserve_pinned new_stream dry_run n origin c = at_stream new_stream (target c origin) (pinned_on dry_run n) c.
Proof. by destruct origin. Qed.
Lemma pinned_fresh n origin c b c' :
  reserve_pinned new_stream dry_run n origin c = Some (Some b, c') → host_inv c → ¬ known (device_of c) b ∧ idle c' b.
Proof. rewrite reserve_pinned_eq. intros Hr. by eapply makes_fresh; [apply makes_pinned|exact Hr|]. Qed.
Lemma heap_fresh n c b c' :
  current new_stream (on_driver (heap_bytes n)) c = Some (b, c') → host_inv c →
  host_inv c' ∧ apart [] c c' ∧ ¬ known (device_of c) b ∧ idle c' b.
Proof.
  rewrite current_eq. intros Hr Hc. destruct (quiet_at _ _ (plain_heap_bytes n) _ _ _ Hr Hc) as [Hc' Ha].
  split; [done|]. split; [done|]. by eapply makes_fresh; [apply makes_heap|exact Hr|..].
Qed.
(** A staging buffer, or any buffer of the size asked for. *)
Lemma cpu_fresh n origin c b c' :
  reserve_cpu new_stream dry_run n origin c = Some (b, c') → host_inv c →
  host_inv c' ∧ apart [] c c' ∧ ¬ known (device_of c) b ∧ idle c' b.
Proof.
  intros Hr Hc. unfold reserve_cpu in Hr. apply bind_run in Hr as (r & c1 & H1 & Hr).
  destruct (plain_pinned new_stream dry_run gentle quiet _ _ _ _ _ H1 Hc) as [Hc1 Ha1]. destruct r as [x|].
  - injection Hr as <- <-. destruct (pinned_fresh _ _ _ _ _ H1 Hc) as [Hn Hi]. done.
  - destruct (heap_fresh _ _ _ _ Hr Hc1) as (Hc' & Ha' & Hn & Hi). split; [done|]. split; [by eapply apart_trans|].
    split; [|done]. intros Hk. apply Hn. by apply Ha1.
Qed.

(** A copy between the device and a buffer. *)
Lemma copied id (op : Sg → M D (result unit IoError)) b c r c' :
  (∀ sg d r d', op sg d = Some (r, d') → copies_with d d' r sg b) →
  at_stream new_stream id (sg ← signal; on_driver (op sg)) c = Some (r, c') → host_inv c → idle c b →
  host_inv c' ∧ apart [b] c c' ∧ held c' id b ∧ (r = Ok tt ∨ idle c' b).
Proof.
  intros Hop Hr Hc (Hkb & Hlb & Hub).
  destruct (at_stream_step _ _ _ _ _ Hr Hc) as (e & e' & [Hrun Hb Ha Hok Ho Hs _ Hap Hinv Hl]).
  apply bind_run in Hrun as (sg & e1 & [= <- <-] & Hrun). destruct e as [s sh]. unfold on_driver in Hrun.
  apply bind_Some in Hrun as ([r' d'] & Hd & [= <- <-]). destruct (Hop _ _ _ _ Hd) as [Hk Hu]. cbn in *. subst sh.
  set (sh := command_shared c) in *. set (e' := (s, with_shared_device d' (shared_dropped sh) sh)) in *.
  assert (env_apart [b] (s, sh) e') as Hea.
  { split; [done|exact Hk| |done]. intros x sg t Hx _ Ht. cbn in Ht. destruct (Hu _ _ _ Ht) as [|(_ & _ & ->)]; [done|].
    by destruct Hx; apply list_elem_of_singleton. }
  assert (env_ok e') as Hok'.
  { destruct Hok as (Hq & Hdr & Hnd). split; [|split; [|exact Hnd]].
    - eapply queue_ok_apart; [exact Hk| |exact Hq]. intros x sg t Hx _ Ht. cbn in Ht. destruct (Hu _ _ _ Ht) as [|(_ & _ & ->)]; [done|].
      destruct (Ho b Hlb). apply elem_of_app. by right.
    - intros x Hx. destruct (Hdr x Hx) as [Hkx Hux]. split; [by apply Hk|]. intros sg t Ht. cbn in Ht.
      destruct (Hu _ _ _ Ht) as [Ht'|(_ & _ & ->)]; [by eapply Hux|]. destruct (Ho b Hlb). apply elem_of_app. by left. }
  split; [eapply Hinv; [|exact Hea|done]; intros x ->%list_elem_of_singleton; done|]. split; [by apply Hap|].
  assert (known (device_of c') b ∧ loose c' b) as [Hkb' Hlb'].
  { rewrite Ha. split; [by apply Hk|]. apply Hl; [done|]. exact (Ho b Hlb). }
  split.
  - split; [done|]. split; [done|]. intros sg t. rewrite Ha. cbn. intros Ht. destruct (Hu _ _ _ Ht) as [Ht'|(_ & -> & _)]; [|done].
    by destruct (Hub sg t).
  - destruct r' as [[]|e]; [by left|right]. split; [done|]. split; [done|]. intros sg t. rewrite Ha. cbn. intros Ht.
    destruct (Hu _ _ _ Ht) as [Ht'|([=] & _)]. by eapply Hub.
Qed.
Lemma dropped_idle l c c' a :
  current new_stream (drop_host l) c = Some (a, c') → host_inv c → NoDup l → (∀ x, x ∈ l → idle c x) → host_inv c' ∧ apart l c c'.
Proof.
  rewrite current_eq. intros Hr Hc Hndl Hi.
  destruct (at_stream_step _ _ _ _ _ Hr Hc) as (e & e' & [Hrun Hb Ha Hok Ho Hs _ Hap Hinv Hl]).
  destruct e as [s sh]. unfold drop_host, modify in Hrun. injection Hrun as _ <-. cbn in Hb. subst sh.
  assert (env_apart l (s, command_shared c) (s, with_shared_device (device_of c) (dropped_of c ++ l) (command_shared c))) as Hea.
  { split; [done|done|done|]. intros x Hx _. unfold outside, let_go. cbn. rewrite !not_elem_of_app. tauto. }
  split; [|by apply Hap]. eapply Hinv; [|exact Hea|].
  - intros x Hx. by destruct (Hi x Hx) as (_ & ? & _).
  - destruct Hok as (Hq & Hd & Hnd). split; [done|]. split.
    + intros x [Hx|Hx]%elem_of_app; [by apply Hd|]. by destruct (Hi x Hx) as (Hk & _ & Hu).
    + unfold let_go in *. cbn in *. rewrite (Permutation_app_comm _ l), <- app_assoc. apply NoDup_app. split; [done|]. split; [|done].
      intros x Hx. apply Ho. by destruct (Hi x Hx) as (_ & ? & _).
Qed.
Lemma dropped_one b c c' a :
  current new_stream (drop_host [b]) c = Some (a, c') → host_inv c → idle c b → host_inv c' ∧ apart [b] c c'.
Proof. intros Hr Hc Hb. apply (dropped_idle [b] c c' a); [done..|apply NoDup_singleton|]. by intros x ->%list_elem_of_singleton. Qed.

(** *** Reading *)
Abbreviation Buffers := (list Bytes).
(** Buffers that copies on the stream of an id may still write. *)
Definition held_all c id l : Prop := ∀ b, b ∈ l → held c id b.
Lemma apart_held_all l l' c c' id : apart l c c' → (∀ b, b ∈ l' → b ∉ l) → held_all c id l' → held_all c' id l'.
Proof. intros Ha Hl Hh b Hb. eapply apart_held; [done|by apply Hl|by apply Hh]. Qed.
Lemma read_one d bytes origin c r c' :
  write_to_cpu new_stream d bytes origin c = Some (r, c') → host_inv c → idle c bytes →
  host_inv c' ∧ apart [bytes] c c' ∧ held c' (target c origin) bytes ∧ (r = Ok tt ∨ idle c' bytes).
Proof.
  intros Hr Hc Hb. unfold write_to_cpu in Hr.
  assert (∀ c1 (r1 : result unit IoError), quiet c c1 → host_inv c1 ∧ apart [bytes] c c1 ∧ held c1 (target c origin) bytes ∧ (r1 = Ok tt ∨ idle c1 bytes)) as Hquiet.
  { intros c1 r1 Hq. destruct (Hq Hc) as [Hc1 Ha]. assert (idle c1 bytes) as Hi by by eapply apart_idle; [exact Ha|apply not_elem_of_nil|].
    split; [done|]. split; [by apply apart_nil|]. split; [by apply idle_held|by right]. }
  destruct (bytes_len bytes =? 0).
  { apply Hquiet. apply bind_run in Hr as ([] & c1 & Hd & [= <- <-]). by eapply (plain_drop_binding new_stream gentle quiet). }
  unfold try_bind in Hr. apply bind_run in Hr as (layout & c1 & H1 & Hr). apply (plain_layout new_stream gentle quiet) in H1.
  destruct layout as [layout|e]; [|injection Hr as <- <-; by apply Hquiet].
  apply bind_run in Hr as (resource & c2 & H2 & Hr). apply (plain_resource new_stream gentle quiet) in H2.
  assert (quiet c c2) as Hq2 by by etrans. destruct resource as [resource|e]; [|injection Hr as <- <-; by apply Hquiet].
  destruct (Hq2 Hc) as [Hc2 Ha2]. assert (idle c2 bytes) as Hb2 by by eapply apart_idle; [exact Ha2|apply not_elem_of_nil|].
  assert (at_stream new_stream (target c2 origin) (sg ← signal; on_driver (copy_to_host resource layout bytes sg)) c2 = Some (r, c')) as Hcopy
    by by destruct origin.
  destruct (copied _ _ _ _ _ _ (λ sg d r d', to_host_law resource layout bytes sg d r d') Hcopy Hc2 Hb2) as (Hc' & Ha' & Hh & Hi).
  split; [done|]. split; [by eapply apart_after|]. split; [|done].
  unfold target in *. by rewrite (apart_current _ _ _ Ha2) in Hh.
Qed.
Lemma not_in_singleton b x : x ≠ b → x ∉ [b].
Proof. by intros Hne ->%list_elem_of_singleton. Qed.
(** A run over buffers it made itself disturbs none it did not. *)
Lemma apart_fresh c c1 c2 b : apart [] c c1 → apart [b] c1 c2 → ¬ known (device_of c) b → apart [] c c2.
Proof. intros Ha Ha' Hb. eapply apart_trans; [done..|]. by intros x Hx ->%list_elem_of_singleton. Qed.
Lemma read_bytes d origin c r c' :
  copy_to_bytes new_stream dry_run d origin c = Some (r, c') → host_inv c →
  host_inv c' ∧ apart [] c c' ∧
  match r with Ok b => ¬ known (device_of c) b ∧ held c' (target c origin) b | Err _ => True end.
Proof.
  intros Hr Hc. unfold copy_to_bytes in Hr. apply bind_run in Hr as (n & c0 & Hn & Hr).
  assert (c0 = c) as -> by by unfold lift in Hn; case_match; simplify_eq. clear Hn.
  apply bind_run in Hr as (b & c1 & H1 & Hr). destruct (cpu_fresh _ _ _ _ _ H1 Hc) as (Hc1 & Ha1 & Hnb & Hib).
  apply bind_run in Hr as (w & c2 & H2 & Hr). destruct (read_one _ _ _ _ _ _ H2 Hc1 Hib) as (Hc2 & Ha2 & Hh2 & Hi2).
  assert (apart [] c c2) as Ha by by eapply apart_fresh. destruct w as [[]|e].
  - injection Hr as <- <-. split; [done|]. split; [done|]. split; [done|]. unfold target in *.
    by rewrite (apart_current _ _ _ Ha1) in Hh2.
  - destruct Hi2 as [[=]|Hi2]. apply bind_run in Hr as ([] & c3 & H3 & [= <- <-]).
    destruct (dropped_one b _ _ _ H3 Hc2 Hi2) as [Hc3 Ha3].
    split; [done|]. split; [|done]. by eapply apart_fresh.
Qed.

(** Waiting for the stream of a run settles what its copies use. *)
Lemma fenced_idle c l a c' :
  current new_stream fence_and_sync c = Some (a, c') → host_inv c → held_all c (command_current c) l →
  host_inv c' ∧ apart [] c c' ∧ ∀ b, b ∈ l → idle c' b.
Proof.
  rewrite current_eq. intros Hr Hc Hl. assert (follows gentle (fence_and_sync (St := St) (HSt := HSt) (F := F) (D := D))) as Hg.
  { apply (gentle_call (λ sg, f ← driver_fence sg; fence_sync f)). intros sg. unfold fence_sync.
    follows_tac; auto using follows_fence, follows_wait. }
  destruct (quiet_at _ _ Hg _ _ _ Hr Hc) as [Hc' Ha']. split; [done|]. split; [done|]. intros b Hb.
  destruct (Hl b Hb) as (Hk & Hlb & Hu). destruct (at_stream_step _ _ _ _ _ Hr Hc) as (e & e' & [Hrun He He' Hok Ho Hs Hks _ _ _]).
  split; [by apply Ha'|]. split; [by apply Ha'; [apply not_elem_of_nil|..]|]. unfold fence_and_sync in Hrun.
  apply bind_run in Hrun as (sg & e1 & [= <- <-] & Hrun). destruct e as [s sh]. unfold on_driver in Hrun.
  apply bind_Some in Hrun as ([x d'] & Hd & [= <- <-]). cbn in *. subst sh. rewrite He'. cbn.
  apply bind_run in Hd as (f & d1 & Hf & Hw). unfold fence_sync in Hw. apply bind_run in Hw as (w & d2 & Hw & [= _ <-]).
  eapply (sync_done (stream_signal s)); [|exact Hw]. intros sg' t Ht.
  assert (stream_signal s = sg') as <-.
  { apply Hks. eapply Hu. apply settles_fence in Hf as [_ Hfu]. by eapply Hfu. }
  split; [done|]. apply driver_fence_law in Hf as [_ Hcov]. by eapply Hcov.
Qed.
Lemma read_loop ds collected c r c' :
  copies_loop new_stream dry_run ds collected c = Some (r, c') → host_inv c → NoDup collected →
  held_all c (command_current c) collected →
  host_inv c' ∧ apart collected c c' ∧
  match r with
  | Ok l => NoDup l ∧ held_all c' (command_current c) l ∧ ∀ b, b ∈ l → b ∈ collected ∨ ¬ known (device_of c) b
  | Err _ => True
  end.
Proof.
  revert collected c. induction ds as [|d ds IH]; intros collected c Hr Hc Hnd Hh; cbn in Hr.
  { injection Hr as <- <-. split; [done|]. split; [apply apart_refl|]. auto. }
  apply bind_run in Hr as (b & c1 & H1 & Hr). destruct (read_bytes _ _ _ _ _ H1 Hc) as (Hc1 & Ha1 & Hb).
  assert (held_all c1 (command_current c) collected) as Hh1.
  { eapply apart_held_all; [exact Ha1| |done]. intros x _. apply not_elem_of_nil. }
  destruct b as [b|e].
  - destruct Hb as [Hnb Hhb]. cbn in Hhb. apply IH in Hr as (Hc' & Ha' & Hl); [|done| |].
    + split; [done|]. split.
      * eapply apart_trans; [by apply apart_nil|exact Ha'|]. intros x Hx [?| ->%list_elem_of_singleton]%elem_of_app; done.
      * destruct r as [l|e]; [|done]. rewrite (apart_current _ _ _ Ha1) in Hl. destruct Hl as (Hnl & Hhl & Hin). split; [done|].
        split; [done|]. intros x Hx. destruct (Hin x Hx) as [[?| ->%list_elem_of_singleton]%elem_of_app|Hn]; [by left|by right|].
        right. intros Hk. by apply Hn, Ha1.
    + apply NoDup_app. split; [done|]. split; [|apply NoDup_singleton]. intros x Hx ->%list_elem_of_singleton.
      by destruct (Hh b Hx) as [Hk _].
    + rewrite (apart_current _ _ _ Ha1). intros x [Hx| ->%list_elem_of_singleton]%elem_of_app; [by apply Hh1|done].
  - apply bind_run in Hr as ([] & c2 & H2 & Hr). apply bind_run in Hr as ([] & c3 & H3 & Hr).
    apply bind_run in Hr as ([] & c4 & H4 & [= <- <-]). rewrite <- (apart_current _ _ _ Ha1) in Hh1.
    assert (host_inv c2 ∧ apart [] c1 c2 ∧ ∀ b, b ∈ collected → idle c2 b) as (Hc2 & Ha2 & Hi2).
    { case_bool_decide as Hnil; [|by eapply fenced_idle]. injection H2 as <-. split; [done|]. split; [apply apart_refl|].
      intros x Hx. rewrite Hnil in Hx. by apply elem_of_nil in Hx. }
    destruct (plain_drop_descriptors new_stream gentle quiet _ _ _ _ H3 Hc2) as [Hc3 Ha3].
    destruct (dropped_idle _ _ _ _ H4 Hc3) as [Hc4 Ha4]; [done|..].
    { intros x Hx. eapply apart_idle; [exact Ha3|apply not_elem_of_nil|by apply Hi2]. }
    split; [done|]. split; [|done]. by eauto using apart_after.
Qed.

(** What a read that was not awaited yet relies on: its fence waits for the
    copies that fill its buffers. *)
Definition read_buffers (p : PendingRead (F := F)) : list Bytes := match read_result p with Ok l => l | Err _ => [] end.
Definition covered c (f : F) b : Prop :=
  known (device_of c) b ∧ loose c b ∧ ∀ sg t, in_use (device_of c) sg b t → covers f sg t.
Lemma apart_covered l c c' f b : apart l c c' → b ∉ l → covered c f b → covered c' f b.
Proof.
  intros [_ _ Hk Hu Hl] Hb (Hkb & Hlb & Hub). split; [auto|]. split; [auto|]. intros sg t Ht. by eapply Hub, Hu.
Qed.
Lemma read_started ds c p c' :
  read_async new_stream dry_run ds c = Some (p, c') → host_inv c →
  host_inv c' ∧ apart [] c c' ∧ NoDup (read_buffers p) ∧
  ∀ b, b ∈ read_buffers p → ¬ known (device_of c) b ∧ covered c' (read_fence p) b.
Proof.
  intros Hr Hc. unfold read_async in Hr. apply bind_run in Hr as (ids & c1 & H1 & Hr).
  destruct (plain_current new_stream gentle quiet _ (plain_descriptors _) _ _ _ H1 Hc) as [Hc1 Ha1]. apply bind_run in Hr as (r & c2 & H2 & Hr).
  destruct (read_loop ds [] c1 r c2 H2 Hc1) as (Hc2 & Ha2 & Hl); [apply NoDup_nil_2|by intros b Hb%elem_of_nil|].
  apply bind_run in Hr as (f & c3 & H3 & [= <- <-]). destruct (busy_sync new_stream gentle quiet _ _ _ H3 Hc2) as [Hc3 Ha3].
  split; [done|]. split; [by eauto using apart_after|]. unfold read_buffers. cbn. destruct r as [l|e]; [|split; [apply NoDup_nil_2|by intros b Hb%elem_of_nil]].
  destruct Hl as (Hnd & Hh & Hin). split; [done|]. intros b Hb. split.
  { destruct (Hin b Hb) as [?%elem_of_nil|Hn]; [done|]. intros Hk. by apply Hn, Ha1. }
  destruct (Hh b Hb) as (Hk & Hlb & Hu). split; [by apply Ha3|]. split; [by apply Ha3; [apply not_elem_of_nil|..]|].
  unfold command_sync in H3. rewrite current_eq in H3. rewrite <- (apart_current _ _ _ Ha2) in Hu.
  destruct (at_stream_step _ _ _ _ _ H3 Hc2) as (e & e' & [Hrun He He' Hok Ho Hs Hks _ _ _]).
  apply bind_run in Hrun as (sg & e1 & [= <- <-] & Hrun). destruct e as [s sh]. unfold on_driver in Hrun.
  apply bind_Some in Hrun as ([x d'] & Hd & [= -> <-]). cbn in *. subst sh. rewrite He'. cbn.
  intros sg t Ht. apply driver_fence_law in Hd as [[_ Hset] Hcov].
  assert (stream_signal s = sg) as <- by by eapply Hks, Hu, Hset. by eapply Hcov.
Qed.

(** Awaiting a read, over what the streams share. *)
Definition await_read (p : PendingRead (F := F)) : M Cmd (result (list Bytes) ServerError) := λ c,
  '(a, sh) ← finish_read p (command_shared c); Some (a, with_command (command_pool c) sh c).
Lemma shared_settled c (sh : CommandShared D) :
  shared_dropped sh = dropped_of c → settles (device_of c) (shared_device sh) → quiet c (with_command (command_pool c) sh c).
Proof.
  intros Hdr Hset (Hd & Hq & Ho). split.
  - split; cbn; [rewrite Hdr; by eapply dropped_ok_settles|]. split.
    + intros i s Hs. eapply queue_ok_settles; [done|]. by apply (Hq i s).
    + unfold let_go_once. cbn. by rewrite Hdr.
  - destruct Hset as [Hk Hu]. split; [done..|eauto|]. intros x _ _ [Hlx Hix]. split; [cbn; by rewrite Hdr|exact Hix].
Qed.
Lemma shared_dropped_ok c (sh : CommandShared D) l :
  shared_dropped sh = dropped_of c ++ l → shared_device sh = device_of c → host_inv c → NoDup l → (∀ b, b ∈ l → idle c b) →
  host_inv (with_command (command_pool c) sh c) ∧ apart l c (with_command (command_pool c) sh c).
Proof.
  intros Hdr Hdev (Hd & Hq & Hnd & Hns & Hdis) Hndl Hi.
  assert (∀ q, NoDup (dropped_of c ++ q) → (∀ b, b ∈ l → b ∉ q) → NoDup ((dropped_of c ++ l) ++ q)) as Hadd.
  { intros q Hq' Hlq. rewrite (Permutation_app_comm _ l), <- app_assoc. apply NoDup_app. split; [done|]. split; [|done].
    intros b Hb. destruct (Hi b Hb) as (_ & [Hbd _] & _). rewrite not_elem_of_app. auto. }
  split.
  - split; cbn; rewrite Hdev; [|split; [done|split; [|split]]]; try rewrite Hdr; [..|done].
    + intros b [Hb|Hb]%elem_of_app; [by apply Hd|]. by destruct (Hi b Hb) as (? & _ & ?).
    + cbn. rewrite Hdr, <- (app_nil_r (_ ++ l)). apply Hadd; [by rewrite app_nil_r|]. intros b _. apply not_elem_of_nil.
    + intros i s Hs. cbn. rewrite Hdr. apply Hadd; [by eapply Hns|]. intros b Hb. destruct (Hi b Hb) as (_ & [_ Hbs] & _). by eapply Hbs.
  - split; try done; cbn; rewrite ?Hdev; try done. intros x Hx _ [Hlx Hix]. split; [cbn; rewrite Hdr, not_elem_of_app; done|exact Hix].
Qed.
Lemma read_awaited p c r c' :
  await_read p c = Some (r, c') → host_inv c → NoDup (read_buffers p) → (∀ b, b ∈ read_buffers p → covered c (read_fence p) b) →
  host_inv c' ∧
  match r with
  | Ok l => apart [] c c' ∧ l = read_buffers p ∧ ∀ b, b ∈ l → idle c' b
  | Err _ => apart (read_buffers p) c c'
  end.
Proof.
  intros Hr Hc Hnd Hp. unfold await_read, finish_read in Hr. apply bind_Some in Hr as ([a sh] & Hr & [= <- <-]).
  apply bind_run in Hr as (synced & sh1 & H1 & Hr). apply bind_run in Hr as ([] & sh2 & H2 & Hr).
  unfold on_shared_device in H1. apply bind_Some in H1 as ([x d1] & Hw & [= <- <-]).
  apply bind_Some in H2 as ([y m] & _ & [= <-]). set (sh2 := with_shared_world _ _ _ _) in *.
  set (c2 := with_command (command_pool c) sh2 c). destruct (shared_settled c sh2) as [Hc2 Ha2]; [done|by eapply settles_wait|done|].
  assert (∀ b, b ∈ read_buffers p → idle c2 b) as Hi.
  { intros b Hb. destruct (Hp b Hb) as (Hk & Hlb & Hu). split; [by apply Ha2|]. split; [by apply Ha2; [apply not_elem_of_nil|..]|].
    intros sg t Ht. destruct (driver_wait_law _ _ _ _ Hw) as [[_ Hset] Hn]. eapply (Hn sg b t Ht), Hu, Hset, Ht. }
  assert ((∃ er, a = Err er) ∧ sh = sh2 ∨
    (∃ er, a = Err er) ∧ shared_dropped sh = dropped_of c2 ++ read_buffers p ∧ shared_device sh = device_of c2 ∨
    a = Ok (read_buffers p) ∧ sh = sh2) as [[[e ->] ->]|[([e ->] & Hdr & Hdev)|[-> ->]]].
  { unfold read_buffers in *. destruct x as [[]|e], (read_result p) as [l|e']; injection Hr as <- <-; [by right; right|left|right; left|left];
      split; try done; by eexists. }
  - split; [done|by apply apart_nil].
  - destruct (shared_dropped_ok c2 sh (read_buffers p) Hdr Hdev Hc2 Hnd Hi) as [Hc' Ha']. split; [done|]. by eapply apart_after.
  - done.
Qed.

(** *** Writing *)
Lemma kept staging b c a c' :
  current new_stream (keep_source (St := St) (HSt := HSt) (D := D) staging b) c = Some (a, c') → host_inv c →
  held c (command_current c) b → host_inv c' ∧ apart [b] c c'.
Proof.
  rewrite current_eq. intros Hr Hc (Hk & Hlb & Hu).
  destruct (at_stream_step _ _ _ _ _ Hr Hc) as (e & e' & [Hrun Hbe Ha Hok Ho Hs Hks Hap Hinv Hl]).
  assert (env_ok e' ∧ env_apart [b] e e') as [Hok' Hea].
  2: { split; [|by apply Hap]. eapply Hinv; [|exact Hea|done]. by intros x ->%list_elem_of_singleton. }
  unfold keep_source in Hrun. apply bind_run in Hrun as (recording & e1 & [= <- <-] & Hrun).
  destruct (capture_recording _); [by eapply gentle_apart, gentle_capture|].
  apply bind_run in Hrun as ([] & e1 & Hpush & Hrun). destruct e as [s sh]. cbn in Hbe. subst sh.
  unfold queue_push, drop_queue in Hpush. injection Hpush as <-.
  set (e1 := (with_queue (push b (stream_queue s)) s, _)) in Hrun.
  assert (env_ok e1) as Hok1.
  { destruct Hok as ([Hp Hst] & Hd & Hnd). split; [|split; [done|]].
    - split; [exact Hp|]. intros x [Hx| ->%list_elem_of_singleton]%elem_of_app; [by apply Hst|].
      split; [done|]. intros sg' t Ht. cbn. symmetry. by eapply Hks, Hu.
    - specialize (Ho b Hlb). unfold outside, let_go, queued in *. cbn in *. rewrite !app_assoc in *. apply NoDup_app.
      split; [done|]. split; [|apply NoDup_singleton]. by intros x Hx ->%list_elem_of_singleton. }
  assert (env_apart [b] (s, command_shared c) e1) as Ha1.
  { split; [done|done|done|]. intros x Hx _. unfold outside, let_go, queued. cbn. rewrite !not_elem_of_app. tauto. }
  enough (gentle e1 e') as Hg.
  { destruct (Hg Hok1) as (Hok' & Hs' & [Hk' Hu'] & Hx'). split; [done|]. destruct Ha1 as [Hs1 Hk1 Hu1 Hx1].
    split; [congruence|auto|eauto|]. intros x Hx Hkx Hox. unfold outside. rewrite Hx'. by apply Hx1. }
  apply bind_run in Hrun as (fl & e2 & [= <- <-] & Hrun). destruct (_ || _); [by eapply gentle_flush|]. injection Hrun as _ <-. reflexivity.
Qed.
(** A source that the device was given, or refused. *)
Lemma sent resource layout staging b c r c1 a c' :
  current new_stream (sg ← signal; on_driver (copy_to_device resource layout b sg)) c = Some (r, c1) →
  (match r with Err _ => current new_stream (drop_host [b]) | Ok _ => current new_stream (keep_source staging b) end) c1 = Some (a, c') →
  host_inv c → idle c b → host_inv c' ∧ apart [b] c c'.
Proof.
  rewrite current_eq. intros H1 H2 Hc Hb.
  destruct (copied _ _ _ _ _ _ (λ sg d r d', to_device_law resource layout b sg d r d') H1 Hc Hb) as (Hc1 & Ha1 & Hh1 & Hi1).
  enough (host_inv c' ∧ apart [b] c1 c') as [Hc' Ha'] by (split; [done|]; by eapply apart_trans). destruct r as [[]|e].
  - apply kept in H2; [done..|]. by rewrite (apart_current _ _ _ Ha1).
  - destruct Hi1 as [[=]|Hi1]. by apply dropped_one in H2.
Qed.
Lemma written d data c r c' :
  write_to_gpu new_stream dry_run bytes_property d data c = Some (r, c') → host_inv c → idle c data →
  host_inv c' ∧ apart [data] c c'.
Proof.
  intros Hr Hc Hi.
  assert (∀ c1 a c2, quiet c c1 → current new_stream (drop_host [data]) c1 = Some (a, c2) → host_inv c2 ∧ apart [data] c c2) as Hrefuse.
  { intros c1 a c2 Hq Hd. destruct (Hq Hc) as [Hc1 Ha1]. destruct (dropped_one data _ _ _ Hd Hc1) as [Hc2 Ha2].
    { eapply apart_idle; [exact Ha1|apply not_elem_of_nil|done]. }
    split; [done|]. by eapply apart_after. }
  unfold write_to_gpu in Hr. destruct (bytes_len data =? 0).
  { apply bind_run in Hr as ([] & c1 & H1 & Hr). apply bind_run in Hr as (a & c2 & H2 & [= <- <-]).
    eapply Hrefuse; [|exact H2]. by eapply (plain_drop_binding new_stream gentle quiet). }
  apply bind_run in Hr as (layout & c1 & H1 & Hr). apply (plain_layout new_stream gentle quiet) in H1. destruct layout as [layout|e].
  2: { apply bind_run in Hr as (a & c2 & H2 & [= <- <-]). by eapply Hrefuse. }
  apply bind_run in Hr as (resource & c2 & H2 & Hr). apply (plain_resource new_stream gentle quiet) in H2. assert (quiet c c2) as Hq by by etrans.
  destruct resource as [resource|e].
  2: { apply bind_run in Hr as (a & c3 & H3 & [= <- <-]). by eapply Hrefuse. }
  destruct (Hq Hc) as [Hc2 Ha2]. assert (idle c2 data) as Hi2 by by eapply apart_idle; [exact Ha2|apply not_elem_of_nil|].
  apply bind_run in Hr as (source & c3 & H3 & Hr). apply bind_run in Hr as (sent_ok & c4 & H4 & Hr).
  apply bind_run in Hr as ([] & c5 & H5 & Hr). apply bind_run in Hr as ([] & c6 & H6 & [= <- <-]).
  destruct (through_pinned _).
  - assert (reserve_cpu new_stream dry_run (bytes_len data) None c2 = Some (source, c3)) as Hcpu by exact H3.
    destruct (cpu_fresh _ _ _ _ _ Hcpu Hc2) as (Hc3 & Ha3 & Hn & Hs). destruct (sent _ _ _ _ _ _ _ _ _ H4 H5 Hc3 Hs) as [Hc5 Ha5].
    assert (apart [] c2 c5) as Ha25 by by eapply apart_fresh.
    destruct (dropped_one data _ _ _ H6 Hc5) as [Hc6 Ha6].
    { eapply apart_idle; [exact Ha25|apply not_elem_of_nil|done]. }
    split; [done|]. by eauto using apart_after.
  - injection H3 as <- <-. injection H6 as <-. destruct (sent _ _ _ _ _ _ _ _ _ H4 H5 Hc2 Hi2) as [Hc5 Ha5].
    split; [done|]. by eapply apart_after.
Qed.
Lemma quiet_create n : follows quiet (create_with_data entry_order new_stream dry_run bytes_property n).
Proof.
  intros c r c' Hr Hc. unfold create_with_data in Hr. apply bind_run in Hr as (staging & c1 & H1 & Hr).
  destruct (plain_pinned new_stream dry_run gentle quiet _ _ _ _ _ H1 Hc) as [Hc1 Ha1]. destruct staging as [b|]; [|by injection Hr as <- <-].
  destruct (pinned_fresh _ _ _ _ _ H1 Hc) as [Hn Hi].
  assert (∀ c2 c3, quiet c1 c2 → (idle c2 b → host_inv c2 → host_inv c3 ∧ apart [b] c2 c3) → host_inv c3 ∧ apart [] c c3) as Hend.
  { intros c2 c3 Hq Hstep. destruct (Hq Hc1) as [Hc2 Ha2]. destruct Hstep as [Hc3 Ha3]; [|done|].
    - eapply apart_idle; [exact Ha2|apply not_elem_of_nil|done].
    - split; [done|]. eapply apart_fresh; [exact Ha1| |exact Hn]. by eapply apart_after. }
  apply bind_run in Hr as (handle & c2 & H2 & Hr). apply (busy_empty new_stream entry_order dry_run gentle quiet) in H2. destruct handle as [handle|e].
  2: { apply bind_run in Hr as ([] & c3 & H3 & [= <- <-]). apply (Hend c2); [done|]. intros Hi2 Hc2. by eapply dropped_one. }
  apply bind_run in Hr as (copy & c3 & H3 & Hr). apply bind_run in Hr as (bound & c4 & H4 & Hr).
  apply bind_run in Hr as (w & c5 & H5 & Hr).
  assert (∀ A (op : M Memory A), follows quiet (current new_stream (on_descriptors op))) as Hdesc by (intros; apply (plain_current new_stream gentle quiet), plain_descriptors).
  apply Hdesc in H3, H4. assert (quiet c1 c4) as Hq4 by (etrans; [exact H2|by etrans]).
  destruct (Hend c4 c5 Hq4) as [Hc5 Ha5]; [intros; by eapply written|].
  destruct w as [[]|e]; [by injection Hr as <- <-|]. apply bind_run in Hr as ([] & c6 & H6 & [= <- <-]). apply Hdesc in H6.
  destruct (H6 Hc5) as [Hc6 Ha6]. split; [done|]. by eapply apart_after.
Qed.

(** *** A server and who holds its host memory

    A command runs over the streams of a server for the one it was issued on.
    What it hands back is [given], until its holder drops it or gives it to a
    copy; a read that was not awaited yet keeps its own buffers. *)
Record Serving := mk_Serving { serving : Cmd; given : list Bytes; reading : list (PendingRead (F := F)) }.
Definition issued c id (cursor : Z) : Cmd := mk_Command (command_pool c) (command_shared c) id cursor.
(** The operations that are handed no host memory and hand none back. *)
Definition hands_nothing (op : CommandOp (Args := Args)) : bool :=
  match op with OpHost _ _ | OpRead _ _ _ | OpWrite _ _ => false | _ => true end.
Inductive host_step : Serving → Serving → Prop :=
| step_issue c l ps id cursor : host_step (mk_Serving c l ps) (mk_Serving (issued c id cursor) l ps)
| step_run op c c' l ps :
    hands_nothing op = true → run_command entry_order new_stream dry_run bytes_property op c = Some (tt, c') →
    host_step (mk_Serving c l ps) (mk_Serving c' l ps)
| step_sync c f c' l ps : command_sync new_stream c = Some (f, c') → host_step (mk_Serving c l ps) (mk_Serving c' l ps)
| step_host n origin c b c' l ps :
    reserve_cpu new_stream dry_run n origin c = Some (b, c') → host_step (mk_Serving c l ps) (mk_Serving c' (b :: l) ps)
| step_drop b c c' l l' ps :
    l ≡ₚ b :: l' → current new_stream (drop_host [b]) c = Some (tt, c') → host_step (mk_Serving c l ps) (mk_Serving c' l' ps)
| step_write d b c r c' l l' ps :
    l ≡ₚ b :: l' → write_to_gpu new_stream dry_run bytes_property d b c = Some (r, c') →
    host_step (mk_Serving c l ps) (mk_Serving c' l' ps)
| step_read ds c p c' l ps :
    read_async new_stream dry_run ds c = Some (p, c') → host_step (mk_Serving c l ps) (mk_Serving c' l (p :: ps))
| step_await p c r c' l ps ps' :
    ps ≡ₚ p :: ps' → await_read p c = Some (r, c') →
    host_step (mk_Serving c l ps) (mk_Serving c' (match r with Ok bs => bs ++ l | Err _ => l end) ps').

(** A server that has used no host memory yet. *)
Definition host_new (s : Serving) : Prop :=
  given s = [] ∧ reading s = [] ∧ dropped_of (serving s) = [] ∧
  ∀ i st, stream_at (serving s) i = Some st → queued (stream_queue st) = [].

Record host_ok (s : Serving) : Prop := mk_host_ok {
  serving_inv : host_inv (serving s);
  held_once : NoDup (given s ++ (reading s ≫= read_buffers));
  given_idle b : b ∈ given s → idle (serving s) b;
  reading_covered p b : p ∈ reading s → b ∈ read_buffers p → covered (serving s) (read_fence p) b;
}.
Lemma host_new_ok s : host_new s → host_ok s.
Proof.
  intros (Hg & Hr & Hd & Hq). split.
  - split; [by rewrite Hd; intros b ?%elem_of_nil|]. split; [|split; [|split]]; rewrite ?Hd.
    + intros i st Hst. apply Hq in Hst. apply app_nil in Hst as [Hp Hs]. split; [rewrite Hp|rewrite Hs]; by intros b ?%elem_of_nil.
    + apply NoDup_nil_2.
    + intros i st Hst. rewrite (Hq i st Hst). apply NoDup_nil_2.
    + intros i j st st' b _ Hst _. rewrite (Hq i st Hst). by intros ?%elem_of_nil.
  - rewrite Hg, Hr. apply NoDup_nil_2.
  - rewrite Hg. by intros b ?%elem_of_nil.
  - rewrite Hr. by intros p b ?%elem_of_nil.
Qed.
(** A run over the buffers [l] keeps what everyone else holds. *)
Lemma host_ok_apart c c' l g g' ps ps' :
  host_ok (mk_Serving c g ps) → host_inv c' → apart l c c' →
  NoDup (g' ++ (ps' ≫= read_buffers)) →
  (∀ b, b ∈ l → b ∉ g' ++ (ps' ≫= read_buffers)) →
  (∀ b, b ∈ g' → b ∈ g ∨ idle c' b) →
  (∀ p b, p ∈ ps' → b ∈ read_buffers p → p ∈ ps ∨ covered c' (read_fence p) b) →
  host_ok (mk_Serving c' g' ps').
Proof.
  intros [Hc Hnd Hg Hr] Hc' Ha Hnd' Hl Hg' Hr'. cbn in *. split; cbn; [done|done| |].
  - intros b Hb. destruct (Hg' b Hb) as [Hb'|]; [|done]. eapply apart_idle; [exact Ha| |by apply Hg]. intros Hbl.
    eapply Hl; [exact Hbl|]. apply elem_of_app. by left.
  - intros p b Hp Hb. destruct (Hr' p b Hp Hb) as [Hp'|]; [|done]. eapply apart_covered; [exact Ha| |by apply (Hr p)]. intros Hbl.
    eapply Hl; [exact Hbl|]. apply elem_of_app. right. apply list_elem_of_bind. by exists p.
Qed.
#[local] Hint Resolve quiet_create : follows.
Lemma quiet_run op : hands_nothing op = true → follows quiet (run_command entry_order new_stream dry_run bytes_property op).
Proof.
  intros Hop. destruct op; try discriminate Hop; cbn [run_command]; follows_tac.
Qed.
Lemma host_ok_quiet c c' g ps : host_ok (mk_Serving c g ps) → quiet c c' → host_ok (mk_Serving c' g ps).
Proof.
  intros Hok Hq. pose proof Hok as [Hc Hnd Hg Hr]. destruct (Hq Hc) as [Hc' Ha].
  eapply host_ok_apart; [exact Hok|done|exact Ha|done| |auto|auto]. by intros b ?%elem_of_nil.
Qed.
Lemma held_known s b : host_ok s → b ∈ given s ++ (reading s ≫= read_buffers) → known (device_of (serving s)) b.
Proof.
  intros [_ _ Hg Hr] [Hb|Hb]%elem_of_app; [by apply Hg|]. apply list_elem_of_bind in Hb as (p & Hb & Hp). by apply (Hr p).
Qed.
(** What the first holder gives up. *)
Lemma host_ok_given b c c' g g' ps :
  g ≡ₚ b :: g' → host_ok (mk_Serving c g ps) → host_inv c' → apart [b] c c' → host_ok (mk_Serving c' g' ps).
Proof.
  intros Hp Hok Hc' Ha. pose proof Hok as [_ Hnd _ _]. cbn in Hnd. rewrite Hp in Hnd. apply NoDup_cons in Hnd as [Hb Hnd].
  eapply host_ok_apart; [exact Hok|done|exact Ha|done| | |auto].
  - by intros x ->%list_elem_of_singleton.
  - intros x Hx. left. rewrite Hp. by right.
Qed.
Lemma host_step_ok s s' : host_step s s' → host_ok s → host_ok s'.
Proof.
  intros [c l ps id cursor|op c c' l ps Hop Hr|c f c' l ps Hr|n origin c b c' l ps Hr|b c c' l l' ps Hp Hr|d b c r c' l l' ps Hp Hr
    |ds c p c' l ps Hr|p c r c' l ps ps' Hp Hr] Hok; pose proof Hok as [Hc Hnd Hg Hrd]; cbn in Hc, Hnd, Hg, Hrd.
  - by split.
  - by eapply host_ok_quiet, quiet_run.
  - by eapply host_ok_quiet, (busy_sync new_stream gentle quiet).
  - destruct (cpu_fresh _ _ _ _ _ Hr Hc) as (Hc' & Ha & Hn & Hi). eapply host_ok_apart; [exact Hok|done|exact Ha| | | |auto].
    + apply NoDup_cons. split; [|done]. intros Hb. by apply Hn, (held_known _ _ Hok).
    + by intros x ?%elem_of_nil.
    + intros x [->|Hx]%elem_of_cons; auto.
  - destruct (dropped_one b _ _ _ Hr Hc) as [Hc' Ha]; [|by eapply host_ok_given].
    apply Hg. rewrite Hp. by left.
  - destruct (written _ _ _ _ _ Hr Hc) as [Hc' Ha]; [apply Hg; rewrite Hp; by left|]. by eapply host_ok_given.
  - destruct (read_started _ _ _ _ Hr Hc) as (Hc' & Ha & Hndp & Hfresh).
    eapply host_ok_apart; [exact Hok|done|exact Ha| |by intros x ?%elem_of_nil|auto|].
    + cbn. rewrite (Permutation_app_swap_app l). apply NoDup_app. split; [done|]. split; [|done]. intros b Hb Hb'.
      destruct (Hfresh b Hb) as [Hn _]. by apply Hn, (held_known _ _ Hok).
    + intros q b [->|Hq]%elem_of_cons Hb; [right; by apply Hfresh|by left].
  - assert (p ∈ ps) as Hin by (rewrite Hp; by left).
    rewrite Hp in Hnd. cbn in Hnd. rewrite (Permutation_app_swap_app l) in Hnd. apply NoDup_app in Hnd as (Hndp & Hdis & Hnd).
    destruct (read_awaited _ _ _ _ Hr Hc Hndp) as (Hc' & Hres); [intros b; by apply Hrd|].
    assert (∀ q b, q ∈ ps' → b ∈ read_buffers q → q ∈ ps ∨ covered c' (read_fence q) b) as Hps.
    { intros q b Hq _. left. rewrite Hp. by right. }
    destruct r as [bs|e].
    + destruct Hres as (Ha & -> & Hi). eapply host_ok_apart; [exact Hok|done|exact Ha| |by intros x ?%elem_of_nil| |exact Hps].
      * rewrite <- app_assoc. by apply NoDup_app.
      * intros b [Hb|Hb]%elem_of_app; [right; by apply Hi|by left].
    + by eapply host_ok_apart; [exact Hok|done|exact Hres|done|exact Hdis|auto|exact Hps].
Qed.

(** C24: whatever a server runs — allocations, copies both ways, launches,
    flushes, relocations, cleanups, reads awaited in any order, over any of its
    streams, with or without faults — a host allocation that it dropped or
    handed back is one the device no longer uses, and none that was handed back
    is kept in a queue or dropped as well.  None is dropped twice, nor handed
    back by two reads: what was dropped, what the queues are yet to drop and
    what the holders have are all different. *)
Theorem host_memory_released s s' :
  host_new s → rtc host_step s s' →
  (∀ b, b ∈ dropped_of (serving s') ∨ b ∈ given s' → unused (device_of (serving s')) b) ∧
  let_go_once (serving s') ∧ (∀ b, b ∈ given s' → loose (serving s') b) ∧
  NoDup (dropped_of (serving s') ++ given s').
Proof.
  intros Hn Hr. assert (host_ok s') as [(Hd & _ & Honce) Hnd Hg _].
  { apply host_new_ok in Hn. induction Hr as [|s1 s2 s3 H12 _ IH]; [done|]. apply IH. by eapply host_step_ok. }
  assert (∀ b, b ∈ given s' → loose (serving s') b) as Hloose by (intros b Hb; by destruct (Hg b Hb) as (_ & ? & _)).
  split; [|split; [|split]]; [|done..|].
  - intros b [Hb|Hb]; [by destruct (Hd b Hb)|by destruct (Hg b Hb) as (_ & _ & ?)].
  - apply NoDup_app in Hnd as (Hnd & _). apply NoDup_app. split; [apply Honce|]. split; [|done].
    intros b Hb Hgb. by destruct (Hloose b Hgb).
Qed.
End commands.

(** ** The simulated driver *)
Import Sim.
#[export] Instance sim_use : HostUse SimDevice Z.
Proof.
  refine {| known d b := b ∈ made d; in_use d sg b t := (sg, b, t) ∈ flight d ∧ b ∈ made d |}. by intros d sg b t [_ ?].
Defined.
Lemma fresh_id_above l b : b ∈ l → bytes_id b < fresh_id l.
Proof.
  unfold fresh_id. induction 1 as [x l|x y l _ IH]; cbn; lia.
Qed.
Lemma sim_bytes_law n d b d' : sim_bytes n d = Some (b, d') → settles d d' ∧ ¬ known d b ∧ known d' b.
Proof.
  unfold sim_bytes. set (l := made d ++ _). intros [= <- <-].
  assert (mk_Bytes (fresh_id l) n ∉ l) as Hn by (intros Hb%fresh_id_above; cbn in Hb; lia).
  unfold l in Hn at 2. apply not_elem_of_app in Hn as [Hm Hf]. split; [|split; [done|by left]]. split.
  - intros x Hx. by right.
  - intros sg x t [Ht Hx]. cbn in Ht, Hx. split; [done|]. apply elem_of_cons in Hx as [->|]; [|done].
    destruct Hf. apply list_elem_of_fmap. by eexists (_, _, _).
Qed.
Lemma sim_copy_law b sg d r d' : sim_copy b sg d = Some (r, d') → copies_with d d' r sg b.
Proof.
  intros [= <- <-]. split; [done|]. intros sg' x t [Ht Hx]. cbn in Ht. apply elem_of_cons in Ht as [[= -> -> _]|Ht]; [by right|by left].
Qed.
#[export] Instance sim_laws : HostLaws SimDevice (Z * list Z) Z unit.
Proof.
  refine {| covers f sg t := f.1 = sg ∧ t ∈ f.2 |}.
  - intros m h n d b d'. apply sim_bytes_law.
  - intros n d b d'. apply sim_bytes_law.
  - intros sg d f d' [= <- <-]. split; [done|]. intros x t [Ht _]. cbn in *. split; [done|]. unfold on_stream.
    apply list_elem_of_omap. exists (sg, x, t). split; [done|]. cbn. by rewrite decide_True.
  - intros f d r d' [= _ <-]. split; [split; [done|]|]; intros sg x t [Ht Hx]; cbn in *; apply list_elem_of_filter in Ht as [Hn Ht];
      [done|]. intros [Hf Hin]. by apply Hn.
  - intros h l b sg d r d'. apply sim_copy_law.
  - intros h l b sg d r d'. apply sim_copy_law.
  - by intros a b sg d r d' [= _ <-].
  - by intros d r d' [= _ <-].
  - by intros sg k n args d r d' [= _ <-].
Defined.

(** A server that stages a write, hands out a buffer and flushes twice: what it
    staged is dropped, once it was waited for. *)
Definition host_ops : list (CommandOp (Args := unit)) := [OpCreate 3; OpFlush; OpFlush].
Definition host_served (c : SimCommand) : Serving := mk_Serving c [] [].
Lemma host_memory_released_witness :
  ∃ c', sim_run host_ops (sim_command capture_new 0) = Some (tt, c') ∧
    shared_dropped (command_shared c') = [mk_Bytes 1 3; mk_Bytes 2 3] ∧
    ∀ b, b ∈ shared_dropped (command_shared c') → unused (shared_device (command_shared c')) b.
Proof.
  destruct (sim_run host_ops (sim_command capture_new 0)) as [[[] c']|] eqn:Hr; [|vm_compute in Hr; discriminate].
  exists c'. split; [done|].
  assert ((λ x, shared_dropped (command_shared x.2)) <$> sim_run host_ops (sim_command capture_new 0) =
    Some [mk_Bytes 1 3; mk_Bytes 2 3]) as Hd by (vm_compute; reflexivity).
  rewrite Hr in Hd. injection Hd as Hd. split; [exact Hd|].
  apply bind_run in Hr as ([] & c1 & H1 & Hr). apply bind_run in Hr as ([] & c2 & H2 & Hr).
  apply bind_run in Hr as ([] & c3 & H3 & Hr). injection Hr as <-.
  destruct (host_memory_released (Args := unit) (sim_stream capture_new) (λ _, eq_refl) map_to_list false pageable
    (host_served (sim_command capture_new 0)) (host_served c3)) as [Hu _].
  - split; [reflexivity|]. split; [reflexivity|]. split; [reflexivity|].
    intros [|[|i]] st Hst; [injection Hst as <-; reflexivity|discriminate Hst|discriminate Hst].
  - apply (rtc_l _ _ (host_served c1)); [eapply step_run with (op := OpCreate 3); [reflexivity|exact H1]|].
    apply (rtc_l _ _ (host_served c2)); [eapply step_run with (op := OpFlush); [reflexivity|exact H2]|].
    apply rtc_once. eapply step_run with (op := OpFlush); [reflexivity|exact H3].
  - intros b Hb. apply Hu. by left.
Defined.
