(* ===== verification/GraphWindow.v ===== *)
(** * Graph windows

    [cubecl-server/src/command/capture.rs]: a window records the launches of a
    stream into a graph.  It is prepared, opened and closed; the graphs are the
    server's, by id.  What a driver does to record is an interface. *)

From S2P Require Export CommandRules.
From stdpp Require Import list gmap strings sorting.
#[local] Open Scope Z_scope.

(** ** [GraphDriver]

    [Exec] is an executable, which is destroyed when it is dropped. *)
Class GraphDriver (D Sg Exec : Type) := {
  graph_begin : Sg → M D (result unit ServerError);
  graph_instantiate : Sg → option ServerError → M D (result Exec ServerError);
  graph_upload : Exec → Sg → M D unit;
  graph_replay : Exec → Sg → M D (result unit ServerError);
  drop_executable : Exec → M D unit;
}.

(** A graph keeps the guards of the pages, the host memory that its copies read
    and the buffers that its launches write. *)
Record Graph (Exec : Type) := mk_Graph {
  graph_exec : Exec;
  graph_guards : list (TouchedPage * PageGuard);
  graph_retained : list Bytes;
  graph_written : list BufferBinding;
}.
Arguments mk_Graph {Exec}. Arguments graph_exec {Exec}. Arguments graph_guards {Exec}.
Arguments graph_retained {Exec}. Arguments graph_written {Exec}.
Record Refused := mk_Refused { refused_error : ServerError; refused_written : list BufferBinding }.
Abbreviation Captures Exec := (gmap GraphId (Graph Exec)).

(** The reason of the failure, in the text, is left out. *)
Definition doomed_by (reason : ServerError) : ServerError :=
  Generic "an operation inside the capture window failed or was skipped, so the recording is missing an operation and cannot seal".

Section window.
Context {St HSt F Sg D Args Exec : Type} `{ComputeStorage St} `{ComputeStorage HSt}.
Context `{!Driver D F Sg Args, !GraphDriver D Sg Exec}.
Context (entry_order : gmap InfoCacheKey (CacheEntry BufferHandle) → list (InfoCacheKey * CacheEntry BufferHandle)).
Context (set_order : gset InfoCacheKey → list InfoCacheKey).
Context (sort_unstable : list (list Z * BufferBinding) → list (list Z * BufferBinding)).
Context (new_stream : StreamId → CommandStream St HSt F Sg).
Abbreviation Env := (CommandStream St HSt F Sg * CommandShared D)%type.
Abbreviation Cmd := (Command St HSt F Sg D).

(** A capture that is cleared drops the host memory it retained. *)
Definition retained_now : M Env (list Bytes) := gets (λ e, retained_host (stream_capture e.1)).
Definition prepare_capture (owner : StreamId) : M Env (result unit ServerError) :=
  retained ← retained_now;
  r ← on_capture (capture_prepare owner);
  match r with Err e => mret (Err e) | Ok _ => _ ← drop_host retained; mret (Ok tt) end.
Definition abort_capture : M Env unit :=
  retained ← retained_now; _ ← on_capture capture_abort; drop_host retained.
Definition discard_info : M Env unit := on_info entry_order (capture_discard set_order).

(** A guard that is a binding drops it; that a page is guarded once less is not
    followed. *)
Definition drop_guard (guard : PageGuard) : M Memory unit :=
  match guard with GuardsPage => mret tt | GuardsAllocation id => binding_drop id end.
Fixpoint drop_guards (guards : list (TouchedPage * PageGuard)) : M Memory unit :=
  match guards with [] => mret tt | g :: guards => _ ← drop_guard g.2; drop_guards guards end.

(** *** [Window] *)
Definition window_prepare (stream_id : StreamId) : M Cmd (result unit ServerError) :=
  _ ←? current new_stream (prepare_capture stream_id);
  _ ← @relocate_device _ (command_relocates new_stream) ReasonCapture;
  mret (Ok tt).
Definition window_begin : M Cmd (result unit ServerError) :=
  _ ←? current new_stream (on_capture capture_begin);
  _ ← current new_stream drain_queue;
  r ← current new_stream (sg ← signal; on_driver (graph_begin sg));
  match r with
  | Err e => _ ← current new_stream discard_info; _ ← current new_stream abort_capture; mret (Err e)
  | Ok _ => mret (Ok tt)
  end.
(** No window to close: what was prepared is unwound. *)
Definition unopened (error : ServerError) : M Cmd (result (Graph Exec) Refused) :=
  written ← current new_stream (on_capture (take_recorded sort_unstable));
  active ← current new_stream (gets (λ e : Env, capture_active (stream_capture e.1)));
  _ ← (if active : bool then _ ← current new_stream discard_info; current new_stream abort_capture else mret tt);
  mret (Err (mk_Refused error written)).
(** An executable of an abandoned window is dropped. *)
Definition owned_executable (outcome : CaptureEnd) (stream_id : StreamId) (doomed : option ServerError)
    (exec : result Exec ServerError) : M Env (result Exec ServerError) :=
  if is_abandoned outcome then
    _ ← (match exec with Ok exec => on_driver (drop_executable exec) | Err _ => mret tt end);
    mret (Err (abandoned_error outcome stream_id doomed))
  else mret exec.
Definition window_instantiate (stream_id : StreamId) (id : GraphId) : M Cmd (result (Graph Exec) Refused) :=
  outcome ← current new_stream (on_capture (capture_end stream_id));
  match outcome with
  | Err error => unopened error
  | Ok outcome =>
      failure ← current new_stream (on_capture take_failure);
      let doomed := doomed_by <$> failure in
      exec ← current new_stream (sg ← signal; on_driver (graph_instantiate sg doomed));
      touched ← current new_stream (on_capture take_touched);
      guards ← guard_pages new_stream touched;
      retained ← current new_stream (on_capture take_retained_host);
      _ ← current new_stream drain_queue;
      written ← current new_stream (on_capture (take_recorded sort_unstable));
      exec ← current new_stream (owned_executable outcome stream_id doomed exec);
      match exec with
      | Ok exec =>
          _ ← current new_stream (on_info entry_order (capture_commit set_order id));
          _ ← current new_stream (sg ← signal; on_driver (graph_upload exec sg));
          mret (Ok (mk_Graph exec guards retained written))
      | Err error =>
          _ ← current new_stream discard_info;
          _ ← current new_stream (drop_host retained);
          _ ← current new_stream (on_descriptors (drop_guards guards));
          mret (Err (mk_Refused error written))
      end
  end.

(** *** [Captures]

    A server with its graphs. *)
Record GraphServer := mk_GraphServer { graph_command : Cmd; graphs : Captures Exec }.
Definition on_command {A} (op : M Cmd A) : M GraphServer A := λ s,
  '(a, c) ← op (graph_command s); Some (a, mk_GraphServer c (graphs s)).
Definition with_graphs (f : Captures Exec → Captures Exec) : M GraphServer unit :=
  modify (λ s, mk_GraphServer (graph_command s) (f (graphs s))).
(** The fields are dropped in their order. *)
Definition drop_graph (g : Graph Exec) : M Cmd unit :=
  _ ← current new_stream (on_driver (drop_executable (graph_exec g)));
  _ ← current new_stream (on_descriptors (drop_guards (graph_guards g)));
  _ ← current new_stream (drop_host (graph_retained g));
  current new_stream (on_descriptors (drop_bindings (binding_memory <$> graph_written g))).
Definition drop_old (old : option (Graph Exec)) : M Cmd unit :=
  match old with Some g => drop_graph g | None => mret tt end.

Definition captures_insert (id : GraphId) (g : Graph Exec) : M GraphServer unit :=
  old ← gets (λ s, graphs s !! id); _ ← with_graphs (insert id g); on_command (drop_old old).
Definition captures_contains (id : GraphId) (s : GraphServer) : bool := bool_decide (is_Some (graphs s !! id)).
Fixpoint clone_bindings (l : list BufferBinding) : M Memory unit :=
  match l with [] => mret tt | b :: l => _ ← binding_clone (binding_memory b); clone_bindings l end.
Definition extend_written (id : GraphId) (written : list BufferBinding) : M GraphServer (list BufferBinding) :=
  g ← gets (λ s, graphs s !! id);
  match g with
  | None => mret written
  | Some g =>
      _ ← on_command (current new_stream (on_descriptors (clone_bindings (graph_written g))));
      mret (written ++ graph_written g)
  end.
Definition captures_replay (id : GraphId) : M GraphServer (result unit ServerError) :=
  g ← gets (λ s, graphs s !! id);
  match g with
  | None => mret (Err (Generic "replay was given an unknown or already-destroyed graph"))
  | Some g => on_command (current new_stream (sg ← signal; on_driver (graph_replay (graph_exec g) sg)))
  end.
Definition captures_destroy (id : GraphId) : M GraphServer unit :=
  old ← gets (λ s, graphs s !! id);
  _ ← with_graphs (delete id);
  _ ← on_command (drop_old old);
  on_command (current new_stream (on_info entry_order (graph_release id))).
End window.

(** ** What a driver promises

    Which streams the driver records: opening starts, closing ends, whether a
    graph comes out of it or not, and nothing else does either. *)
Class DriverRecords (D Sg : Type) := driver_records : D → Sg → bool.
Definition keeps_recording `{DriverRecords D Sg} (d d' : D) : Prop := ∀ sg, driver_records d' sg = driver_records d sg.
#[export] Instance keeps_recording_preorder `{DriverRecords D Sg} : PreOrder keeps_recording.
Proof. split; [by intros d sg|]. intros d1 d2 d3 H12 H23 sg. by rewrite H23, H12. Qed.
Class GraphLaws (D F Sg Args Exec : Type)
    `{!Driver D F Sg Args, !GraphDriver D Sg Exec, !DriverRecords D Sg, !EqDecision Sg} := {
  graph_pinned m h n : follows keeps_recording (pinned_bytes m h n);
  graph_heap n : follows keeps_recording (heap_bytes n);
  graph_fence sg : follows keeps_recording (driver_fence sg);
  graph_wait f : follows keeps_recording (fence_wait f);
  graph_to_host h l b sg : follows keeps_recording (copy_to_host h l b sg);
  graph_to_device h l b sg : follows keeps_recording (copy_to_device h l b sg);
  graph_on_device a b sg : follows keeps_recording (copy_on_device a b sg);
  graph_outside : follows keeps_recording wait_outside_streams;
  graph_launch sg k n (args : Args) : follows keeps_recording (launch sg k n args);
  graph_uploads exec sg : follows keeps_recording (graph_upload exec sg);
  graph_replays exec sg : follows keeps_recording (graph_replay exec sg);
  graph_dropped exec : follows keeps_recording (drop_executable exec);
  graph_begins sg d r d' : graph_begin sg d = Some (r, d') → ∀ x,
    driver_records d' x = match r with Ok _ => if decide (x = sg) then true else driver_records d x | Err _ => driver_records d x end;
  graph_closes sg doomed d r d' : graph_instantiate sg doomed d = Some (r, d') → ∀ x,
    driver_records d' x = if decide (x = sg) then false else driver_records d x;
  graph_doomed sg e d r d' : graph_instantiate sg (Some e) d = Some (r, d') → ∃ e', r = Err e';
}.

(** ** Guarding a page

    A guard of an allocation is one more owner of it. *)
Lemma guarded_owners id (m m1 m2 : Memory) a b :
  handle_clone id m = Some (a, m1) → binding id m1 = Some (b, m2) → more_owners m m2.
Proof.
  unfold handle_clone, binding, binding_clone, handle_drop, descriptor, set_descriptor, mbind, M_bind, get, lift, modify, panic. cbn.
  destruct (descriptors m !! id) as [d|] eqn:Hd; cbn; [|done]. intros [= _ <-]. cbn. rewrite lookup_insert_eq. cbn.
  rewrite lookup_insert_eq. cbn. destruct (Z.ltb_spec 0 (handles d + 1)); [|done]. intros [= _ <-]. intros j e Hj. cbn.
  rewrite !insert_insert_eq. destruct (decide (j = id)) as [->|Hne]; [|rewrite lookup_insert_ne by done; by exists e].
  rewrite lookup_insert_eq. eexists. split; [done|]. cbn. simplify_eq. lia.
Qed.
Section guards.
Context {St : Type} `{ComputeStorage St}.
Implicit Types (w : World St).
Lemma guarded_world {A} id (x : A) w r w' :
  (_ ← on_memory (handle_clone id); _ ← on_memory (binding id); mret x) w = Some (r, w') → more_owners (memory w) (memory w').
Proof.
  unfold on_memory. intros Hr. apply bind_run in Hr as (a & w1 & H1 & Hr). apply bind_run in Hr as (b & w2 & H2 & Hr).
  injection Hr as _ <-.
  destruct (handle_clone id (memory w)) as [[a1 m1]|] eqn:Hc; [|done]. injection H1 as _ <-. cbn in H2.
  destruct (binding id m1) as [[a2 m2]|] eqn:Hb; [|done]. injection H2 as _ <-. by eapply guarded_owners.
Qed.
Lemma guard_more_owners mm location w r w' : mm_guard mm location w = Some (r, w') → more_owners (memory w) (memory w').
Proof.
  unfold mm_guard, pool_guard, exclusive_guard, persistent_guard, direct_guard. intros Hr. case_match; [|by injection Hr as _ <-].
  apply bind_run in Hr as ([x q] & w1 & Hg & [= _ <-]). case_match.
  all: try (apply bind_run in Hg as (y & w2 & Hg & [= _ _ <-]); repeat case_match; try (injection Hg as _ <-; reflexivity); by eapply guarded_world).
  by injection Hg as _ <-.
Qed.
End guards.

Section in_step.
Context {St HSt F Sg D Args Exec : Type} `{ComputeStorage St} `{ComputeStorage HSt}.
Context `{!Driver D F Sg Args, !GraphDriver D Sg Exec, !DriverRecords D Sg, !EqDecision Sg, !GraphLaws D F Sg Args Exec}.
Context (entry_order : gmap InfoCacheKey (CacheEntry BufferHandle) → list (InfoCacheKey * CacheEntry BufferHandle)).
Context (set_order : gset InfoCacheKey → list InfoCacheKey).
Context (sort_unstable : list (list Z * BufferBinding) → list (list Z * BufferBinding)).
Context (new_stream : StreamId → CommandStream St HSt F Sg) (dry_run : bool) (bytes_property : Bytes → AllocationProperty).
(** The streams of a device have signals of their own, and start with no
    capture. *)
Context (slot_signal : nat → Sg) (slots : nat).
Context (signal_inj : ∀ i j, slot_signal i = slot_signal j → i = j).
Context (new_signal : ∀ id i, stream_index id slots = Some i → stream_signal (new_stream id) = slot_signal i).
Context (new_capture : ∀ id, capture_state (stream_capture (new_stream id)) = NoCapture).
Abbreviation Env := (CommandStream St HSt F Sg * CommandShared D)%type.
Abbreviation Cmd := (Command St HSt F Sg D).
Implicit Types (c : Cmd) (e : Env).

(** *** Steps that open and close no window *)
Definition same_window e e' : Prop :=
  stream_signal e'.1 = stream_signal e.1 ∧ capture_state (stream_capture e'.1) = capture_state (stream_capture e.1) ∧
  shared_recording e'.2 = shared_recording e.2 ∧ keeps_recording (shared_device e.2) (shared_device e'.2).
#[local] Instance same_window_preorder : PreOrder same_window.
Proof.
  split; [by intros e|]. intros e1 e2 e3 (Hs & Hc & Hn & Hd) (Hs' & Hc' & Hn' & Hd').
  split; [congruence|]. split; [congruence|]. split; [congruence|]. by etrans.
Qed.
Lemma window_driver {A} (op : M D A) : follows keeps_recording op → follows same_window (on_driver (St := St) (HSt := HSt) (F := F) (Sg := Sg) op).
Proof.
  intros Hop [s sh] a [s' sh'] Hr. unfold on_driver in Hr. apply bind_Some in Hr as ([x d] & Hd & [= <- <- <-]).
  split; [done|]. split; [done|]. split; [done|]. by eapply Hop.
Qed.
Lemma window_queue (op : PendingDropQueue F → M (DropWorld D) (PendingDropQueue F)) :
  (∀ q, follows (λ w w', keeps_recording (DropQueue.device w) (DropQueue.device w')) (op q)) →
  follows same_window (drop_queue (St := St) (HSt := HSt) (Sg := Sg) op).
Proof.
  intros Hop [s sh] a [s' sh'] Hr. unfold drop_queue in Hr. apply bind_Some in Hr as ([q w] & Hf & [= _ <- <-]).
  split; [done|]. split; [done|]. split; [done|]. apply Hop in Hf. exact Hf.
Qed.
Lemma window_modify (f : Env → Env) : (∀ e, same_window e (f e)) → follows same_window (modify f).
Proof. intros Hf e a e' [= _ <-]. apply Hf. Qed.
Lemma window_same e e' :
  stream_signal e'.1 = stream_signal e.1 → stream_capture e'.1 = stream_capture e.1 →
  shared_recording e'.2 = shared_recording e.2 → shared_device e'.2 = shared_device e.2 → same_window e e'.
Proof. intros Hs Hc Hn Hd. split; [done|]. split; [by rewrite Hc|]. split; [done|]. by rewrite Hd. Qed.
Lemma window_memory {A} (op : MemoryManagement → M (World St) (A * MemoryManagement)) :
  follows same_window (device_memory (D := D) (HSt := HSt) (F := F) (Sg := Sg) op).
Proof.
  intros [s sh] a [s' sh'] Hr. unfold device_memory in Hr. apply bind_Some in Hr as ([[x mm] w] & _ & [= <- <- <-]).
  by apply window_same.
Qed.
Lemma window_host {A} (op : MemoryManagement → M (World HSt) (A * MemoryManagement)) :
  follows same_window (host_memory (D := D) (St := St) (F := F) (Sg := Sg) op).
Proof.
  intros [s sh] a [s' sh'] Hr. unfold host_memory in Hr. apply bind_Some in Hr as ([[x mm] w] & _ & [= <- <- <-]).
  by apply window_same.
Qed.
Lemma window_descriptors {A} (op : M Memory A) :
  follows same_window (on_descriptors (D := D) (St := St) (HSt := HSt) (F := F) (Sg := Sg) op).
Proof.
  intros [s sh] a [s' sh'] Hr. unfold on_descriptors in Hr. apply bind_Some in Hr as ([x m] & _ & [= <- <- <-]).
  by apply window_same.
Qed.
Lemma window_capture {A} (op : M (CaptureEnv Bytes) A) :
  keeps_state op → follows same_window (on_capture (D := D) (St := St) (HSt := HSt) (F := F) (Sg := Sg) op).
Proof.
  intros Hop [s sh] a [s' sh'] Hr. unfold on_capture in Hr. apply bind_Some in Hr as ([x e] & He & [= <- <- <-]).
  by apply Hop in He as [Hst Hn].
Qed.
Lemma window_drop_host l : follows same_window (drop_host (D := D) (St := St) (HSt := HSt) (F := F) (Sg := Sg) l).
Proof. apply window_modify. intros [s sh]. by apply window_same. Qed.
Lemma window_push b : follows same_window (queue_push (D := D) (St := St) (HSt := HSt) (F := F) (Sg := Sg) b).
Proof. apply window_queue. by intros q w q' w' [= _ <-]. Qed.
Lemma window_signal : follows same_window (signal (D := D) (St := St) (HSt := HSt) (F := F) (Sg := Sg)).
Proof. apply follows_gets, _. Qed.
Lemma window_flush : follows same_window (flush_queue (D := D) (St := St) (HSt := HSt) (F := F)).
Proof.
  unfold flush_queue. apply follows_bind; [apply _|apply window_signal|]. intros sg. apply window_queue. intros q.
  apply (queue_flush keeps_recording); [exact graph_fence|exact graph_wait].
Qed.
Lemma window_drain : follows same_window (drain_queue (D := D) (St := St) (HSt := HSt) (F := F)).
Proof.
  unfold drain_queue. apply follows_bind; [apply _|apply window_signal|]. intros sg. apply window_queue. intros q.
  apply (queue_drain keeps_recording); [exact graph_fence|exact graph_wait].
Qed.
Lemma window_relocate signals reason : follows same_window (relocate_on (D := D) (HSt := HSt) (F := F) signals reason).
Proof.
  intros [s sh] a [s' sh'] Hr. unfold relocate_on in Hr. apply bind_Some in Hr as ([mm [w q]] & Hm & [= <- <- <-]).
  split; [done|]. split; [done|]. split; [done|].
  by apply (device_relocate keeps_recording graph_fence graph_wait graph_on_device graph_outside) in Hm.
Qed.
Lemma window_sync sg : follows same_window (on_driver (St := St) (HSt := HSt) (f ← driver_fence sg; fence_sync f)).
Proof. apply window_driver. unfold fence_sync. follows_tac; [apply graph_fence|apply graph_wait]. Qed.
#[local] Instance window_effects : WholeEffects same_window.
Proof.
  split; [split; [split|..]|..].
  - apply _.
  - intros A op _. apply window_memory.
  - exact @window_host.
  - exact @window_descriptors.
  - exact @window_capture.
  - intros m h n. apply window_driver, graph_pinned.
  - intros n. apply window_driver, graph_heap.
  - exact @window_memory.
  - intros i. apply window_modify. intros e. by apply window_same.
  - exact window_flush.
  - exact window_drain.
  - exact window_relocate.
  - intros sg. apply window_driver, graph_fence.
  - intros sg k n args. apply window_driver, graph_launch.
  - exact window_drop_host.
  - exact window_push.
  - intros h l b sg. apply window_driver, graph_to_host.
  - intros h l b sg. apply window_driver, graph_to_device.
  - exact window_sync.
Qed.

(** *** The windows of a pool *)
Definition window_of (entry : option (CommandStream St HSt F Sg)) : StreamCaptureState :=
  match entry with Some s => capture_state (stream_capture s) | None => NoCapture end.
Definition windows c : list StreamCaptureState := window_of <$> streams (command_pool c).
Definition recs (st : StreamCaptureState) : Z := if state_recording st then 1 else 0.
Abbreviation device_of c := (shared_device (command_shared c)).
Definition signals_ok c : Prop :=
  max_streams (command_pool c) = slots ∧ ∀ i s, stream_at c i = Some s → stream_signal s = slot_signal i.
(** The driver records the streams whose capture says so, but for the one at
    [i], of which it records [b]; and the count is theirs. *)
Record in_step_but (i : nat) (b : bool) c : Prop := mk_in_step_but {
  but_signals : signals_ok c;
  but_driver j st : windows c !! j = Some st → j ≠ i → driver_records (device_of c) (slot_signal j) = state_recording st;
  but_here : driver_records (device_of c) (slot_signal i) = b;
  but_count : shared_recording (command_shared c) = sum_Z (recs <$> windows c);
  but_slots : Z.of_nat (length (windows c)) <= u64_max;
}.
Definition in_step c : Prop :=
  signals_ok c ∧
  (∀ j st, windows c !! j = Some st → driver_records (device_of c) (slot_signal j) = state_recording st) ∧
  shared_recording (command_shared c) = sum_Z (recs <$> windows c) ∧ Z.of_nat (length (windows c)) <= u64_max.
Lemma in_step_at c i st : windows c !! i = Some st → in_step c ↔ in_step_but i (state_recording st) c.
Proof.
  intros Hi. split.
  - intros (Hs & Hd & Hn & Hl). split; auto.
  - intros [Hs Hd Hh Hn Hl]. split; [done|]. split; [|done]. intros j st' Hj. destruct (decide (j = i)) as [->|Hne]; [|by apply Hd].
    by simplify_eq.
Qed.

(** A step over the stream of an id, and what it makes of the windows. *)
Record stepped_window id {A} (op : M Env A) (a : A) c c' (i : nat) e e' : Prop := mk_stepped_window {
  sw_index : stream_index id slots = Some i;
  sw_run : op e = Some (a, e');
  sw_before : e.2 = command_shared c;
  sw_after : command_shared c' = e'.2;
  sw_signal : stream_signal e.1 = slot_signal i;
  sw_window : windows c !! i = Some (capture_state (stream_capture e.1));
  sw_windows : windows c' = <[i := capture_state (stream_capture e'.1)]> (windows c);
  sw_current : command_current c' = command_current c;
  sw_signals : stream_signal e'.1 = stream_signal e.1 → signals_ok c';
  sw_stream s : stream_at c i = Some s → e.1 = s;
  sw_stream' : stream_at c' i = Some e'.1;
}.
Lemma at_stream_window {A} id (op : M Env A) c a c' :
  at_stream new_stream id op c = Some (a, c') → signals_ok c → ∃ i e e', stepped_window id op a c c' i e e'.
Proof.
  intros (i & entry & s' & sh' & Hi & He & Hr & ->)%at_stream_run [Hmax Hsig]. rewrite Hmax in Hi.
  destruct (stream_at_insert c i s' sh' entry He) as [Hat Hother]. cbn zeta in *. set (c' := with_command _ _ _) in *.
  assert (stream_at c i = entry) as Hentry by (unfold stream_at; by rewrite He).
  assert (stream_signal (default (new_stream id) entry) = slot_signal i) as Hs.
  { destruct entry as [s|]; [by apply Hsig|by apply new_signal]. }
  exists i, (default (new_stream id) entry, command_shared c), (s', sh'). split; try done.
  - unfold windows. rewrite list_lookup_fmap, He. cbn. destruct entry as [s|]; [done|]. cbn. by rewrite new_capture.
  - unfold windows. cbn. by rewrite list_fmap_insert.
  - intros Hs'. split; [done|]. intros j s. destruct (decide (j = i)) as [->|Hne].
    + rewrite Hat. intros [= <-]. cbn in Hs'. by rewrite Hs'.
    + rewrite Hother by done. apply Hsig.
  - intros s Hs0. rewrite Hentry in Hs0. by rewrite Hs0.
Qed.
(** Steps that open and close no window. *)
Definition same_windows c c' : Prop := signals_ok c →
  signals_ok c' ∧ windows c' = windows c ∧ shared_recording (command_shared c') = shared_recording (command_shared c) ∧
  keeps_recording (device_of c) (device_of c') ∧ command_current c' = command_current c.
#[local] Instance same_windows_preorder : PreOrder same_windows.
Proof.
  split; [by intros c Hc|]. intros c1 c2 c3 H12 H23 H1. destruct (H12 H1) as (H2 & Hw & Hn & Hd & Hc).
  destruct (H23 H2) as (H3 & Hw' & Hn' & Hd' & Hc'). split; [done|]. split; [congruence|]. split; [congruence|].
  split; [by etrans|congruence].
Qed.
#[local] Instance same_windows_lifted : Lifted new_stream same_window same_windows.
Proof.
  split; [apply _|]. intros A id op Hop c a c' Hr Hs.
  destruct (at_stream_window id op c a c' Hr Hs) as (i & e & e' & [Hi Hrun Hb Ha Hsg Hw Hw' Hc Hs' _ _]).
  destruct (Hop e a e' Hrun) as (He & Hst & Hn & Hd). split; [by apply Hs'|]. split.
  { rewrite Hw', Hst. by apply list_insert_id. }
  rewrite Ha, <- Hb. split; [done|]. by split.
Qed.
Lemma same_in_step i b c c' : in_step_but i b c → same_windows c c' → in_step_but i b c'.
Proof.
  intros [Hs Hd Hh Hn Hl] Hsame. destruct (Hsame Hs) as (Hs' & Hw & Hn' & Hk & Hc). split; rewrite ?Hw; try done.
  - intros j st Hj Hne. rewrite Hk. by apply Hd.
  - by rewrite Hk.
  - congruence.
Qed.

(** *** Steps that do

    An operation that opens or closes a window moves the count with it. *)
Definition moves_window e e' : Prop :=
  stream_signal e'.1 = stream_signal e.1 ∧ keeps_recording (shared_device e.2) (shared_device e'.2) ∧
  let move := recs (capture_state (stream_capture e'.1)) - recs (capture_state (stream_capture e.1)) in
  shared_recording e'.2 = (shared_recording e.2 + move) mod 2 ^ 64 ∨ shared_recording e'.2 = shared_recording e.2 ∧ move = 0.
Lemma moves_capture {A} (op : M (CaptureEnv Bytes) A) :
  counts_itself op → follows moves_window (on_capture (D := D) (St := St) (HSt := HSt) (F := F) (Sg := Sg) op).
Proof.
  intros Hop [s sh] a [s' sh'] Hr. unfold on_capture in Hr. apply bind_Some in Hr as ([x e] & He & [= <- <- <-]).
  split; [done|]. split; [done|]. apply Hop in He as [Hn|[Hn Hs]]; [left|right]; cbn -[Z.pow Z.modulo] in *; unfold Capture.records, capture_recording in *.
  - rewrite Hn. f_equal. unfold recs. lia.
  - split; [done|]. unfold recs. lia.
Qed.
Lemma moves_then e e1 e' : moves_window e e1 → same_window e1 e' → moves_window e e'.
Proof.
  intros (Hs & Hd & Hn) (Hs' & Hst & Hn' & Hd'). split; [congruence|]. split; [by etrans|]. cbn zeta in *. by rewrite Hst, Hn'.
Qed.
Lemma moves_prepare owner : follows moves_window (prepare_capture (D := D) (St := St) (HSt := HSt) (F := F) (Sg := Sg) owner).
Proof.
  intros e a e' Hr. unfold prepare_capture in Hr. apply bind_run in Hr as (l & e1 & [= <- <-] & Hr).
  apply bind_run in Hr as (r & e1 & H1 & Hr). apply moves_capture in H1; [|apply counts_prepare]. destruct r as [[]|x].
  - eapply moves_then; [exact H1|]. apply bind_run in Hr as ([] & e2 & H2 & [= _ <-]). by eapply window_drop_host.
  - by injection Hr as _ <-.
Qed.
Lemma moves_abort : follows moves_window (abort_capture (D := D) (St := St) (HSt := HSt) (F := F) (Sg := Sg)).
Proof.
  intros e a e' Hr. unfold abort_capture in Hr. apply bind_run in Hr as (l & e1 & [= <- <-] & Hr).
  apply bind_run in Hr as (r & e1 & H1 & Hr). apply moves_capture in H1; [|apply counts_abort].
  eapply moves_then; [exact H1|]. by eapply window_drop_host.
Qed.
Lemma recs_bound l : 0 <= sum_Z (recs <$> l) <= Z.of_nat (length l).
Proof.
  induction l as [|st l IH]; [done|]. rewrite fmap_cons, sum_Z_cons. cbn [length]. unfold recs at 1 3. destruct (state_recording st); lia.
Qed.
Lemma moved_step {A} (op : M Env A) c a c' i b :
  current new_stream op c = Some (a, c') → follows moves_window op → stream_index (command_current c) slots = Some i →
  in_step_but i b c → in_step_but i b c' ∧ command_current c' = command_current c ∧
    ∃ e e', op e = Some (a, e') ∧ windows c !! i = Some (capture_state (stream_capture e.1)) ∧
      windows c' !! i = Some (capture_state (stream_capture e'.1)).
Proof.
  intros Hr Hop Hi [Hs Hd Hh Hn Hl].
  destruct (at_stream_window _ op c a c' Hr Hs) as (i' & e & e' & [Hi' Hrun Hb Ha Hsg Hw Hw' Hc Hs' _ _]). simplify_eq.
  destruct (Hop e a e' Hrun) as (He & Hk & Hmove). rewrite Hb, <- Ha in Hk.
  assert (windows c' !! i = Some (capture_state (stream_capture e'.1))) as Hat.
  { rewrite Hw', list_lookup_insert_eq; [done|]. by eapply lookup_lt_Some. }
  split; [|split; [done|by exists e, e']]. split.
  - by apply Hs'.
  - intros j st Hj Hne. rewrite Hw', list_lookup_insert_ne in Hj by done. rewrite Hk. by apply Hd.
  - by rewrite Hk.
  - pose proof (sum_Z_insert recs (windows c) i _ (capture_state (stream_capture e'.1)) Hw) as Hsum. rewrite <- Hw' in Hsum.
    pose proof (recs_bound (windows c')) as Hbound. rewrite Hw', length_insert, <- Hw' in Hbound. rewrite Ha, Hb in *.
    cbn zeta in Hmove. destruct Hmove as [->|[-> Hz]]; [|lia]. rewrite Hn. rewrite Z.mod_small; [lia|]. lia.
  - by rewrite Hw', length_insert.
Qed.

(** The driver's side of a window. *)
Lemma graph_call {A} (op : Sg → M D A) c a c' i b b' :
  (∀ d d', op (slot_signal i) d = Some (a, d') → driver_records d (slot_signal i) = b →
    ∀ x, driver_records d' x = if decide (x = slot_signal i) then b' else driver_records d x) →
  current new_stream (sg ← signal; on_driver (op sg)) c = Some (a, c') →
  stream_index (command_current c) slots = Some i → in_step_but i b c →
  in_step_but i b' c' ∧ command_current c' = command_current c ∧ windows c' = windows c.
Proof.
  intros Hop Hr Hi [Hs Hd Hh Hn Hl].
  destruct (at_stream_window _ _ c a c' Hr Hs) as (i' & e & e' & [Hi' Hrun Hb Ha Hsg Hw Hw' Hc Hs' _ _]).
  assert (i' = i) as -> by congruence.
  apply bind_run in Hrun as (sg & e1 & [= <- <-] & Hrun). destruct e as [s sh]. cbn in Hb, Hsg, Hw. subst sh. unfold on_driver in Hrun.
  apply bind_Some in Hrun as ([x d] & Hd' & [= -> <-]). cbn in Hw', Hs', Ha. cbn in Hd'. rewrite Hsg in Hd'. specialize (Hop _ _ Hd' Hh).
  rewrite list_insert_id in Hw' by done. split; [|done]. split; rewrite ?Hw', ?Ha; try done.
  - by apply Hs'.
  - intros j st Hj Hne. cbn. rewrite Hop, decide_False; [by apply Hd|]. intros Heq. by apply Hne, signal_inj.
  - cbn. by rewrite Hop, decide_True.
Qed.
(** The window of the current stream, at [i]: its state, and whether the driver
    records. *)
Record at_window (i : nat) (b : bool) (st : StreamCaptureState) c : Prop := mk_at_window {
  aw_index : stream_index (command_current c) slots = Some i;
  aw_but : in_step_but i b c;
  aw_state : windows c !! i = Some st;
}.
Lemma at_window_in_step i st c : at_window i (state_recording st) st c → in_step c.
Proof. intros [_ Hb Hst]. by apply (in_step_at c i st). Qed.
Lemma in_step_at_window {A} (op : M Env A) c a c' :
  current new_stream op c = Some (a, c') → in_step c → ∃ i st, at_window i (state_recording st) st c.
Proof.
  intros Hr Hc. destruct (at_stream_window _ _ c a c' Hr (proj1 Hc)) as (i & e & e' & [Hi _ _ _ _ Hw _ _ _ _ _]).
  exists i, (capture_state (stream_capture e.1)). split; [done| |done]. by apply in_step_at.
Qed.
Lemma window_same_at i b st c c' : at_window i b st c → same_windows c c' → at_window i b st c'.
Proof.
  intros [Hi Hb Hst] Hsame. destruct (Hsame (but_signals _ _ _ Hb)) as (_ & Hw & _ & _ & Hc).
  split; [congruence|by eapply same_in_step|congruence].
Qed.
Lemma window_moves_at {A} (op : M Env A) c a c' i b st :
  current new_stream op c = Some (a, c') → follows moves_window op → at_window i b st c →
  ∃ e e', op e = Some (a, e') ∧ capture_state (stream_capture e.1) = st ∧
    at_window i b (capture_state (stream_capture e'.1)) c'.
Proof.
  intros Hr Hop [Hi Hb Hst]. destruct (moved_step op c a c' i b Hr Hop Hi Hb) as (Hb' & Hc & e & e' & He & Hw & Hw').
  exists e, e'. split; [done|]. split; [congruence|]. split; [congruence|done|done].
Qed.
Lemma window_opens_at c r c' i b st :
  current new_stream (sg ← signal; on_driver (graph_begin sg)) c = Some (r, c') → at_window i b st c →
  at_window i (match r with Ok _ => true | Err _ => b end) st c'.
Proof.
  intros Hr [Hi Hb Hst]. destruct (graph_call graph_begin c r c' i b (match r with Ok _ => true | Err _ => b end)) as (Hb' & Hc & Hw);
    [|done..|split; congruence].
  intros d d' Hd Hbd x. rewrite (graph_begins _ _ _ _ Hd). destruct r; [done|]. case_decide as Hx; [by rewrite Hx|done].
Qed.
Lemma window_closes_at doomed c r c' i b st :
  current new_stream (sg ← signal; on_driver (graph_instantiate sg doomed)) c = Some (r, c') → at_window i b st c →
  at_window i false st c'.
Proof.
  intros Hr [Hi Hb Hst]. destruct (graph_call (λ sg, graph_instantiate sg doomed) c r c' i b false) as (Hb' & Hc & Hw);
    [|done..|split; congruence].
  intros d d' Hd Hbd x. apply (graph_closes _ _ _ _ _ Hd).
Qed.

(** What becomes of the state of a window. *)
Lemma on_capture_run {A} (op : M (CaptureEnv Bytes) A) e a e' :
  on_capture (D := D) (St := St) (HSt := HSt) (F := F) (Sg := Sg) op e = Some (a, e') →
  ∃ x, op (mk_CaptureEnv (shared_memory e.2) (shared_recording e.2) (stream_capture e.1)) = Some (a, x) ∧
    stream_capture e'.1 = env_capture x ∧ shared_dropped e'.2 = shared_dropped e.2 ∧ shared_memory e'.2 = env_store x.
Proof.
  destruct e as [s sh]. intros Hr. unfold on_capture in Hr. apply bind_Some in Hr as ([y x] & Hx & [= <- <-]). by exists x.
Qed.
Lemma clear_state (x : CaptureEnv Bytes) a x' : capture_clear x = Some (a, x') → capture_state (env_capture x') = capture_state (env_capture x).
Proof. intros Hr. unfold capture_clear in Hr. by run_capture. Qed.
Lemma prepare_state owner e r e' :
  prepare_capture owner e = Some (r, e') →
  state_recording (capture_state (stream_capture e'.1)) = state_recording (capture_state (stream_capture e.1)).
Proof.
  intros Hr. unfold prepare_capture in Hr. apply bind_run in Hr as (l & e1 & [= <- <-] & Hr).
  apply bind_run in Hr as (r1 & e1 & H1 & Hr). apply on_capture_run in H1 as (x & Hx & Hc & _).
  assert (state_recording (capture_state (env_capture x)) = state_recording (capture_state (stream_capture e.1))) as Hst.
  { clear Hr Hc. unfold capture_prepare in Hx. apply bind_run in Hx as (c & y & [= <- <-] & Hx). cbn in Hx.
    destruct (capture_state (stream_capture e.1)) eqn:Hst; [|injection Hx as _ <-; by rewrite <- Hst..].
    apply bind_run in Hx as ([] & y & Hy & Hx). injection Hy as <-. apply bind_run in Hx as ([] & z & Hz & [= _ <-]).
    by rewrite (clear_state _ _ _ Hz). }
  rewrite <- Hst, <- Hc. destruct r1; [|by injection Hr as _ <-]. apply bind_run in Hr as ([] & e2 & H2 & [= _ <-]).
  unfold drop_host, modify in H2. injection H2 as <-. by destruct e1.
Qed.
Lemma abort_state e a e' : abort_capture e = Some (a, e') → capture_state (stream_capture e'.1) = NoCapture.
Proof.
  intros Hr. unfold abort_capture in Hr. apply bind_run in Hr as (l & e1 & [= <- <-] & Hr).
  apply bind_run in Hr as ([] & e1 & H1 & Hr). apply on_capture_run in H1 as (x & Hx & Hc & _).
  unfold drop_host, modify in Hr. injection Hr as _ <-. destruct e1 as [s1 sh1]. cbn in *. rewrite Hc.
  unfold capture_abort in Hx. apply bind_run in Hx as (c & y & [= <- <-] & Hx). apply bind_run in Hx as ([] & y & Hy & Hx).
  apply bind_run in Hx as ([] & z & Hz & Hx). injection Hz as <-. by rewrite (clear_state _ _ _ Hx).
Qed.
Lemma begin_state e r e' :
  on_capture capture_begin e = Some (r, e') →
  match r with
  | Ok _ => state_recording (capture_state (stream_capture e.1)) = false ∧ state_recording (capture_state (stream_capture e'.1)) = true
  | Err _ => capture_state (stream_capture e'.1) = capture_state (stream_capture e.1)
  end.
Proof.
  intros (x & Hx & -> & _)%on_capture_run. unfold capture_begin in Hx. apply bind_run in Hx as (c & y & [= <- <-] & Hx). cbn in Hx.
  destruct (capture_state (stream_capture e.1)) eqn:Hst; cbn in Hx; [by injection Hx as <- <-| |by injection Hx as <- <-].
  by run_capture.
Qed.
Lemma end_state caller e r e' :
  on_capture (capture_end caller) e = Some (r, e') →
  match r with
  | Ok outcome => capture_state (stream_capture e'.1) = NoCapture ∧
      (is_abandoned outcome = false → capture_state (stream_capture e.1) = Capture.Capture caller)
  | Err _ => state_recording (capture_state (stream_capture e.1)) = false ∧ stream_capture e'.1 = stream_capture e.1
  end.
Proof.
  intros (x & Hx & -> & _)%on_capture_run. unfold capture_end in Hx. apply bind_run in Hx as (c & y & [= <- <-] & Hx). cbn in Hx.
  destruct (capture_state (stream_capture e.1)) as [|owner|owner] eqn:Hst; cbn in Hx; [by injection Hx as <- <-..|].
  run_capture; [by subst|done].
Qed.
Lemma keeps_take_touched : keeps_state take_touched.
Proof. intros x a x' Hr. unfold take_touched in Hr. by run_capture. Qed.
Lemma keeps_take_recorded : keeps_state (take_recorded sort_unstable).
Proof. intros x a x' Hr. unfold take_recorded in Hr. by run_capture. Qed.
Lemma keeps_take_failure : keeps_state take_failure.
Proof. intros x a x' Hr. unfold take_failure in Hr. by run_capture. Qed.
Lemma keeps_take_retained : keeps_state take_retained_host.
Proof. intros x a x' Hr. unfold take_retained_host in Hr. by run_capture. Qed.

(** *** The windows of a server stay in step *)
Lemma same_current {A} (op : M Env A) c a c' i b st :
  current new_stream op c = Some (a, c') → follows same_window op → at_window i b st c → at_window i b st c'.
Proof. intros Hr Hop Hat. eapply window_same_at; [exact Hat|]. by eapply (plain_current new_stream same_window same_windows). Qed.
Lemma discard_same : follows same_window (discard_info (D := D) (St := St) (HSt := HSt) (F := F) (Sg := Sg) entry_order set_order).
Proof. apply (busy_on_info entry_order same_window). Qed.
Lemma prepare_in_step owner c r c' : window_prepare new_stream owner c = Some (r, c') → in_step c → in_step c'.
Proof.
  intros Hr Hc. unfold window_prepare, try_bind in Hr. apply bind_run in Hr as (r1 & c1 & H1 & Hr).
  destruct (in_step_at_window _ _ _ _ H1 Hc) as (i & st & Hat).
  destruct (window_moves_at _ _ _ _ i _ st H1 (moves_prepare owner) Hat) as (e & e' & He & <- & Hat1).
  rewrite <- (prepare_state _ _ _ _ He) in Hat1. destruct r1 as [[]|x]; [|injection Hr as _ <-; by eapply at_window_in_step].
  apply bind_run in Hr as ([] & c2 & H2 & [= _ <-]). eapply at_window_in_step, window_same_at; [exact Hat1|].
  by eapply (busy_relocate_device new_stream same_window same_windows).
Qed.
Lemma abort_at c a c' i b st : current new_stream abort_capture c = Some (a, c') → at_window i b st c → at_window i b NoCapture c'.
Proof.
  intros Hr Hat. destruct (window_moves_at _ _ _ _ i _ st Hr moves_abort Hat) as (e & e' & He & _ & Hat').
  by rewrite (abort_state _ _ _ He) in Hat'.
Qed.
Lemma begin_in_step c r c' : window_begin entry_order set_order new_stream c = Some (r, c') → in_step c → in_step c'.
Proof.
  intros Hr Hc. unfold window_begin, try_bind in Hr. apply bind_run in Hr as (r1 & c1 & H1 & Hr).
  destruct (in_step_at_window _ _ _ _ H1 Hc) as (i & st & Hat).
  destruct (window_moves_at _ _ _ _ i _ st H1 (moves_capture _ counts_begin) Hat) as (e & e' & He & <- & Hat1).
  apply begin_state in He. destruct r1 as [[]|x]; [|injection Hr as _ <-; rewrite He in Hat1; by eapply at_window_in_step].
  destruct He as [He1 He2]. rewrite He1 in Hat1. apply bind_run in Hr as ([] & c2 & H2 & Hr).
  eapply same_current in H2; [|exact window_drain|exact Hat1]. apply bind_run in Hr as (r2 & c3 & H3 & Hr).
  apply (window_opens_at _ _ _ _ _ _ H3) in H2 as Hat3. destruct r2 as [[]|x].
  - injection Hr as _ <-. rewrite <- He2 in Hat3. by eapply at_window_in_step.
  - apply bind_run in Hr as ([] & c4 & H4 & Hr). apply bind_run in Hr as ([] & c5 & H5 & [= _ <-]).
    eapply same_current in H4; [|exact discard_same|exact Hat3]. apply (abort_at _ _ _ _ _ _ H5) in H4.
    by apply (at_window_in_step i NoCapture).
Qed.
Lemma same_moves e e' : same_window e e' → moves_window e e'.
Proof. intros (Hs & Hst & Hn & Hd). split; [done|]. split; [done|]. right. split; [done|]. rewrite Hst. lia. Qed.
Lemma unopened_at error c r c' i st :
  unopened (Exec := Exec) entry_order set_order sort_unstable new_stream error c = Some (r, c') → at_window i false st c → at_window i false NoCapture c'.
Proof.
  intros Hr Hat. unfold unopened in Hr. apply bind_run in Hr as (written & c1 & H1 & Hr).
  eapply same_current in H1; [|apply window_capture, keeps_take_recorded|exact Hat].
  apply bind_run in Hr as (active & c2 & H2 & Hr).
  destruct (window_moves_at _ _ _ _ i false st H2) as (e & e' & He & Hst & Hat2); [|exact H1|].
  { intros e a e' He. apply same_moves. by eapply (plain_gets same_window). }
  injection He as <- <-. rewrite Hst in Hat2. apply bind_run in Hr as ([] & c3 & H3 & [= _ <-]).
  unfold capture_active in H3. rewrite Hst in H3. destruct (state_active st) eqn:Hact.
  - apply bind_run in H3 as ([] & c4 & H4 & H3). eapply same_current in H4; [|exact discard_same|exact Hat2]. by eapply abort_at.
  - injection H3 as <-. by destruct st.
Qed.
Lemma owned_same outcome caller doomed exec :
  follows same_window (owned_executable (D := D) (St := St) (HSt := HSt) (F := F) (Sg := Sg) outcome caller doomed exec).
Proof. unfold owned_executable. follows_tac. apply window_driver, graph_dropped. Qed.
Lemma upload_same exec : follows same_window (sg ← signal; on_driver (St := St) (HSt := HSt) (F := F) (graph_upload exec sg)).
Proof. apply (plain_call same_window). intros sg. apply window_driver, graph_uploads. Qed.
Lemma instantiate_at caller id c r c' :
  window_instantiate entry_order set_order sort_unstable new_stream caller id c = Some (r, c') → in_step c →
  ∃ i, at_window i false NoCapture c' ∧ stream_index (command_current c) slots = Some i.
Proof.
  intros Hr Hc. unfold window_instantiate in Hr. apply bind_run in Hr as (outcome & c1 & H1 & Hr).
  destruct (in_step_at_window _ _ _ _ H1 Hc) as (i & st & Hat). exists i. split; [|by destruct Hat].
  destruct (window_moves_at _ _ _ _ i _ st H1 (moves_capture _ (counts_end caller)) Hat) as (e & e' & He & <- & Hat1).
  apply end_state in He. destruct outcome as [outcome|x].
  2: { destruct He as [Hst He]. rewrite He, Hst in Hat1. by eapply unopened_at. }
  destruct He as [He _]. rewrite He in Hat1.
  apply bind_run in Hr as (failure & c2 & H2 & Hr). eapply same_current in H2; [|apply window_capture, keeps_take_failure|exact Hat1].
  apply bind_run in Hr as (exec & c3 & H3 & Hr). apply (window_closes_at _ _ _ _ _ _ _ H3) in H2.
  apply bind_run in Hr as (touched & c4 & H4 & Hr). eapply same_current in H4; [|apply window_capture, keeps_take_touched|exact H2].
  apply bind_run in Hr as (guards & c5 & H5 & Hr). eapply window_same_at in H4; [|eapply (plain_guards new_stream same_window same_windows); exact H5].
  apply bind_run in Hr as (retained & c6 & H6 & Hr). eapply same_current in H6; [|apply window_capture, keeps_take_retained|exact H4].
  apply bind_run in Hr as ([] & c7 & H7 & Hr). eapply same_current in H7; [|exact window_drain|exact H6].
  apply bind_run in Hr as (written & c8 & H8 & Hr). eapply same_current in H8; [|apply window_capture, keeps_take_recorded|exact H7].
  apply bind_run in Hr as (exec' & c9 & H9 & Hr). eapply same_current in H9; [|apply owned_same|exact H8]. destruct exec' as [x|x].
  - apply bind_run in Hr as ([] & c10 & H10 & Hr). apply bind_run in Hr as ([] & c11 & H11 & [= _ <-]).
    eapply same_current in H10; [|apply (busy_on_info entry_order same_window)|exact H9]. by eapply same_current; [|apply upload_same|].
  - apply bind_run in Hr as ([] & c10 & H10 & Hr). apply bind_run in Hr as ([] & c11 & H11 & Hr).
    apply bind_run in Hr as ([] & c12 & H12 & [= _ <-]). eapply same_current in H10; [|exact discard_same|exact H9].
    eapply same_current in H11; [|apply window_drop_host|exact H10]. by eapply same_current; [|apply window_descriptors|].
Qed.

(** *** Whatever a server does *)
Lemma same_windows_in_step c c' : same_windows c c' → in_step c → in_step c'.
Proof.
  intros Hsame (Hs & Hd & Hn & Hl). destruct (Hsame Hs) as (Hs' & Hw & Hn' & Hk & _). split; [done|]. rewrite Hw. split; [|split; [congruence|done]].
  intros i st Hi. rewrite Hk. by apply Hd.
Qed.
Lemma recs_pos l : 0 < sum_Z (recs <$> l) ↔ ∃ i st, l !! i = Some st ∧ state_recording st = true.
Proof.
  split.
  - induction l as [|st l IH]; [done|]. rewrite fmap_cons, sum_Z_cons. unfold recs at 1. destruct (state_recording st) eqn:Hst.
    + intros _. by exists 0%nat, st.
    + intros Hl. destruct IH as (i & st' & Hi & Hst'); [done|]. by exists (S i), st'.
  - intros (i & st & Hi & Hst). pose proof (sum_Z_insert recs l i st NoCapture Hi) as Hsum.
    pose proof (recs_bound (<[i := NoCapture]> l)). unfold recs at 3 4 in Hsum. rewrite Hst in Hsum. cbn in Hsum. lia.
Qed.
Lemma windows_lookup c i st :
  windows c !! i = Some st ↔ (∃ s, stream_at c i = Some s ∧ capture_state (stream_capture s) = st) ∨
    streams (command_pool c) !! i = Some None ∧ st = NoCapture.
Proof.
  unfold windows, stream_at. rewrite list_lookup_fmap. destruct (streams (command_pool c) !! i) as [[s|]|]; cbn; naive_solver.
Qed.
Abbreviation Server := (GraphServer (St := St) (HSt := HSt) (F := F) (Sg := Sg) (D := D) (Exec := Exec)).
Definition served_in_step (s : Server) : Prop := in_step (graph_command s).
(** What happens to a server: work that is issued on some stream, the three
    steps of a window, by whoever calls them, and what its graphs are asked. *)
Inductive graph_step (s : Server) : Server → Prop :=
| graph_issues id cursor :
    graph_step s (mk_GraphServer (mk_Command (command_pool (graph_command s)) (command_shared (graph_command s)) id cursor) (graphs s))
| graph_runs op s' :
    on_command (run_command entry_order new_stream dry_run bytes_property op) s = Some (tt, s') → graph_step s s'
| graph_reads ds p s' : on_command (read_async new_stream dry_run ds) s = Some (p, s') → graph_step s s'
| graph_prepares owner r s' : on_command (window_prepare new_stream owner) s = Some (r, s') → graph_step s s'
| graph_opens r s' : on_command (window_begin entry_order set_order new_stream) s = Some (r, s') → graph_step s s'
| graph_ends caller id r s' :
    on_command (window_instantiate entry_order set_order sort_unstable new_stream caller id) s = Some (r, s') → graph_step s s'
| graph_inserts id g s' : captures_insert new_stream id g s = Some (tt, s') → graph_step s s'
| graph_extends id written l s' : extend_written new_stream id written s = Some (l, s') → graph_step s s'
| graph_replayed id r s' : captures_replay new_stream id s = Some (r, s') → graph_step s s'
| graph_destroys id s' : captures_destroy entry_order new_stream id s = Some (tt, s') → graph_step s s'.

Definition same_server (s s' : Server) : Prop := same_windows (graph_command s) (graph_command s').
#[local] Instance same_server_preorder : PreOrder same_server.
Proof. split; [by intros s|]. intros s1 s2 s3. apply (transitivity (R := same_windows)). Qed.
Lemma on_command_run {A} (op : M Cmd A) (s : Server) a s' :
  on_command op s = Some (a, s') → op (graph_command s) = Some (a, graph_command s').
Proof. intros Hr. unfold on_command in Hr. by apply bind_Some in Hr as ([x c] & Hx & [= <- <-]). Qed.
Lemma server_same {A} (op : M Cmd A) : follows same_windows op → follows same_server (on_command (Exec := Exec) op).
Proof. intros Hop s a s' Hr%on_command_run. by eapply Hop. Qed.
Lemma server_graphs f : follows same_server (with_graphs f).
Proof. by intros s a s' [= _ <-]. Qed.
Lemma driver_current {A} (op : M D A) : follows keeps_recording op → follows same_windows (current new_stream (on_driver op)).
Proof. intros Hop. by apply (plain_current new_stream same_window same_windows), window_driver. Qed.
Lemma drop_old_same old : follows same_windows (drop_old (Exec := Exec) new_stream old).
Proof.
  unfold drop_old, drop_graph. follows_tac; [apply driver_current, graph_dropped|..];
    apply (plain_current new_stream same_window same_windows); auto using window_descriptors, window_drop_host.
Qed.
Lemma graph_step_in_step s s' : graph_step s s' → served_in_step s → served_in_step s'.
Proof.
  assert (∀ A (op : M Server A) a s1, follows same_server op → op s = Some (a, s1) → served_in_step s → served_in_step s1) as Hsame.
  { intros A op a s1 Hop Hr. apply same_windows_in_step. by eapply Hop. }
  intros [id cursor|op s1 Hr|ds p s1 Hr|owner r s1 Hr|r s1 Hr|caller id r s1 Hr|id g s1 Hr|id written l s1 Hr|id r s1 Hr|id s1 Hr] Hs.
  - exact Hs.
  - eapply Hsame; [|exact Hr|done]. apply server_same, (whole_command new_stream entry_order dry_run bytes_property same_window same_windows).
  - eapply Hsame; [|exact Hr|done]. apply server_same, (whole_read new_stream dry_run same_window same_windows).
  - apply on_command_run in Hr. by eapply prepare_in_step.
  - apply on_command_run in Hr. by eapply begin_in_step.
  - apply on_command_run in Hr. destruct (instantiate_at _ _ _ _ _ Hr Hs) as (i & Hat & _). by apply (at_window_in_step i NoCapture).
  - eapply Hsame; [|exact Hr|done]. unfold captures_insert. follows_tac; [apply server_graphs|apply server_same, drop_old_same].
  - eapply Hsame; [|exact Hr|done]. unfold extend_written. follows_tac. apply server_same, (plain_current new_stream same_window same_windows), window_descriptors.
  - eapply Hsame; [|exact Hr|done]. unfold captures_replay. follows_tac. apply server_same, (plain_current new_stream same_window same_windows).
    apply (plain_call same_window). intros sg. apply window_driver, graph_replays.
  - eapply Hsame; [|exact Hr|done]. unfold captures_destroy. follows_tac; [apply server_graphs|apply server_same, drop_old_same|].
    apply server_same, (plain_current new_stream same_window same_windows), (busy_on_info entry_order same_window).
Qed.

(** C25: whatever a server runs, on whichever streams, and whoever prepares, opens
    and closes their windows, the driver records exactly the streams whose
    capture says that they record, and the device counts them: none is left
    recording after its window was closed, refused or abandoned. *)
Theorem windows_in_step s s' :
  served_in_step s → rtc graph_step s s' →
  (∀ i st, stream_at (graph_command s') i = Some st →
    driver_records (device_of (graph_command s')) (stream_signal st) = capture_recording (stream_capture st)) ∧
  (recording_any (shared_recording (command_shared (graph_command s'))) = true ↔
    ∃ i st, stream_at (graph_command s') i = Some st ∧ capture_recording (stream_capture st) = true).
Proof.
  intros Hs Hr. assert (served_in_step s') as (Hsig & Hd & Hn & Hl).
  { induction Hr as [|s1 s2 s3 H12 _ IH]; [done|]. apply IH. by eapply graph_step_in_step. }
  split.
  - intros i st Hst. rewrite (proj2 Hsig i st Hst). apply Hd, windows_lookup. left. by exists st.
  - unfold recording_any. rewrite Hn, Z.ltb_lt, recs_pos. split.
    + intros (i & st & [(s0 & Hs0 & <-)|[_ ->]]%windows_lookup & Hrec); [by exists i, s0|discriminate Hrec].
    + intros (i & st & Hst & Hrec). exists i, (capture_state (stream_capture st)). split; [|done]. apply windows_lookup. left. by exists st.
Qed.

(** *** Which window seals

    What a window holds for its graph, which nothing but the close itself
    takes, while no allocation loses an owner. *)
Section kept_fields.
Context {X : Type} (field : StreamCapture Bytes → X).
Definition same_held e e' : Prop :=
  field (stream_capture e'.1) = field (stream_capture e.1) ∧ more_owners (shared_memory e.2) (shared_memory e'.2).
#[export] Instance same_held_preorder : PreOrder same_held.
Proof. split; [by intros e|]. intros e1 e2 e3 [Hf Hm] [Hf' Hm']. split; [congruence|by etrans]. Qed.
Definition held_now c c' : Prop :=
  (∀ s, current_slot c = Some s → ∃ s', current_slot c' = Some s' ∧ field (stream_capture s') = field (stream_capture s)) ∧
  more_owners (shared_memory (command_shared c)) (shared_memory (command_shared c')).
#[export] Instance held_now_preorder : PreOrder held_now.
Proof.
  split; [by intros c; split; [intros s Hs; exists s|]|]. intros c1 c2 c3 [H12 Hm] [H23 Hm']. split; [|by etrans].
  intros s1 H1. destruct (H12 s1 H1) as (s2 & H2 & Hf). destruct (H23 s2 H2) as (s3 & H3 & Hf'). exists s3. split; [done|congruence].
Qed.
Lemma held_at {A} id (op : M Env A) : follows same_held op → follows held_now (at_stream new_stream id op).
Proof.
  intros Hop c a c' (i & entry & s' & sh' & _ & He & Hr & ->)%at_stream_run. destruct (Hop _ _ _ Hr) as [Hf Hm]. split; [|exact Hm].
  intros s Hs. destruct (current_slot_at c i entry s' sh' He s Hs) as [(_ & -> & Hc')|Hc']; [by exists s'|by exists s].
Qed.
Lemma held_current {A} (op : M Env A) c a c' : current new_stream op c = Some (a, c') → follows same_held op → held_now c c'.
Proof. intros Hr Hop. exact (held_at (command_current c) op Hop c a c' Hr). Qed.
Lemma held_capture {A} (op : M (CaptureEnv Bytes) A) :
  (∀ x a x', op x = Some (a, x') → field (env_capture x') = field (env_capture x) ∧ env_store x' = env_store x) →
  follows same_held (on_capture (D := D) (St := St) (HSt := HSt) (F := F) (Sg := Sg) op).
Proof.
  intros Hop e a e' (x & Hx & Hc & _ & Hm)%on_capture_run. unfold same_held. rewrite Hc, Hm. destruct (Hop _ _ _ Hx) as [Hf ->]. done.
Qed.
Lemma held_driver {A} (op : M D A) : follows same_held (sg ← signal; on_driver (St := St) (HSt := HSt) (F := F) (Sg := Sg) op).
Proof.
  intros [s sh] a [s' sh'] Hr. apply bind_run in Hr as (sg & e1 & [= <- <-] & Hr). unfold on_driver in Hr.
  by apply bind_Some in Hr as ([x d] & _ & [= <- <- <-]).
Qed.
Lemma held_drain : follows same_held (drain_queue (St := St) (HSt := HSt) (F := F) (D := D)).
Proof.
  intros [s sh] a [s' sh'] Hr. unfold drain_queue in Hr. apply bind_run in Hr as (sg & e1 & [= <- <-] & Hr). unfold drop_queue in Hr.
  by apply bind_Some in Hr as ([q w] & _ & [= _ <- <-]).
Qed.
Lemma guard_owners mm location (w w' : World St) r : mm_guard mm location w = Some (r, w') → more_owners (memory w) (memory w').
Proof. intros Hr. exact (guard_more_owners mm location w r w' Hr). Qed.
Lemma held_guards touched : follows held_now (guard_pages new_stream touched).
Proof.
  induction touched as [|p l IH]; cbn; [apply follows_ret, _|]. apply follows_bind; [apply _| |intros g; follows_tac].
  apply held_at. intros [s sh] a [s' sh'] Hr. unfold device_memory in Hr. apply bind_Some in Hr as ([[x mm] w] & Hg & [= <- <- <-]).
  split; [done|]. exact (guard_owners _ _ _ _ _ Hg).
Qed.
End kept_fields.
Abbreviation retains := (λ x : StreamCapture Bytes, (retained_host x, capture_failed x)).
Lemma held_end {X} (field : StreamCapture Bytes → X) caller : (∀ st x, field (with_state st x) = field x) →
  follows (same_held field) (on_capture (D := D) (St := St) (HSt := HSt) (F := F) (Sg := Sg) (capture_end caller)).
Proof. intros Hf. apply held_capture. intros x a x' Hr. unfold capture_end in Hr. run_capture; by rewrite ?Hf. Qed.
Lemma held_touched {X} (field : StreamCapture Bytes → X) : (∀ l x, field (with_touched l x) = field x) →
  follows (same_held field) (on_capture (D := D) (St := St) (HSt := HSt) (F := F) (Sg := Sg) take_touched).
Proof. intros Hf. apply held_capture. intros x a x' Hr. unfold take_touched in Hr. run_capture; by rewrite ?Hf. Qed.
Lemma take_failure_run c s f c' :
  current_slot c = Some s → current new_stream (on_capture take_failure) c = Some (f, c') →
  f = capture_failed (stream_capture s) ∧ held_now retained_host c c' ∧ held_now recorded c c'.
Proof.
  intros Hs Hr. split_and!; [|by eapply held_current; [exact Hr|apply held_capture; intros x a x' Hx; unfold take_failure in Hx; run_capture]..].
  destruct (current_run new_stream _ c s f c' Hs Hr) as (s' & sh' & Hop & Hs' & _).
  apply on_capture_run in Hop as (x & Hx & Hc & _). unfold take_failure in Hx. by run_capture.
Qed.
Lemma take_retained_run c s l c' :
  current_slot c = Some s → current new_stream (on_capture take_retained_host) c = Some (l, c') →
  l = retained_host (stream_capture s) ∧ held_now recorded c c'.
Proof.
  intros Hs Hr. split; [|by eapply held_current; [exact Hr|apply held_capture; intros x a x' Hx; unfold take_retained_host in Hx; run_capture]].
  destruct (current_run new_stream _ c s l c' Hs Hr) as (s' & sh' & Hop & _).
  apply on_capture_run in Hop as (x & Hx & _). unfold take_retained_host in Hx. by run_capture.
Qed.
Lemma end_run c s caller r c' :
  current_slot c = Some s → current new_stream (on_capture (capture_end caller)) c = Some (r, c') →
  match r with
  | Ok outcome => is_abandoned outcome = false → capture_state (stream_capture s) = Capture.Capture caller
  | Err _ => state_recording (capture_state (stream_capture s)) = false
  end.
Proof.
  intros Hs Hr. destruct (current_run new_stream _ c s r c' Hs Hr) as (s' & sh' & Hop & _).
  apply end_state in Hop. destruct r; [by destruct Hop|by destruct Hop].
Qed.
Lemma doomed_run c failure x c' :
  current new_stream (sg ← signal; on_driver (graph_instantiate sg (doomed_by <$> failure))) c = Some (Ok x, c') → failure = None.
Proof.
  intros (i & entry & s' & sh' & _ & _ & Hr & _)%at_stream_run. apply bind_run in Hr as (sg & e & _ & Hr).
  destruct e as [s sh]. unfold on_driver in Hr. apply bind_Some in Hr as ([y d] & Hy & [= -> _ _]).
  destruct failure as [e|]; [|done]. by destruct (graph_doomed _ _ _ _ _ Hy).
Qed.
Lemma instantiate_held {X} (field : StreamCapture Bytes → X) c doomed x c' :
  current new_stream (sg ← signal; on_driver (graph_instantiate sg doomed)) c = Some (x, c') → held_now field c c'.
Proof.
  intros Hr. eapply held_current; [exact Hr|]. intros e a e' Hop. apply bind_run in Hop as (sg & e1 & [= <- <-] & Hop).
  eapply (held_driver field (graph_instantiate (stream_signal e.1) _)). exact Hop.
Qed.
(** What is written is taken of what was recorded before, by then. *)
Context (sort_perm : ∀ l, sort_unstable l ≡ₚ l) (sort_sorted : ∀ l, Sorted (key_le fst) (sort_unstable l)).
Lemma written_run c0 c s l c' :
  current_slot c0 = Some s → held_now recorded c0 c → current new_stream (on_capture (take_recorded sort_unstable)) c = Some (l, c') →
  one_per_claim (shared_memory (command_shared c0)) (weak_binding <$> recorded (stream_capture s)) l.
Proof.
  intros Hs [Hh Hm] Hr. destruct (Hh s Hs) as (s1 & Hs1 & <-).
  destruct (current_run new_stream _ c s1 l c' Hs1 Hr) as (s' & sh' & Hop & _). apply on_capture_run in Hop as (x & Hx & _).
  destruct (take_recorded_run sort_unstable sort_perm sort_sorted _ _ _ Hx) as (Hnd & Hin & Hall). cbn in Hin, Hall.
  split; [done|]. split; [done|]. intros b Hb Ha. apply Hall; [done|]. by eapply more_owners_alive.
Qed.
Definition answer_written (r : result (Graph Exec) Refused) : list BufferBinding :=
  match r with Ok g => graph_written g | Err e => refused_written e end.

(** C26: closing leaves the stream out of its window and unrecorded, whoever calls
    it and whatever the driver says.  A graph comes out of it only for the
    owner of a window in which nothing failed, and it keeps all the host
    memory that the window retained; of a window that seals none, that memory
    is dropped.  A graph and a refusal both come with what the launches of the
    window were to write: of the buffers it recorded, one for every claim whose
    memory something still holds, and none twice. *)
Theorem window_sealed caller id c s r c' :
  window_instantiate entry_order set_order sort_unstable new_stream caller id c = Some (r, c') →
  in_step c → current_slot c = Some s →
  (∃ i, stream_index (command_current c) slots = Some i ∧ windows c' !! i = Some NoCapture ∧
    driver_records (device_of c') (slot_signal i) = false) ∧
  one_per_claim (shared_memory (command_shared c)) (weak_binding <$> recorded (stream_capture s)) (answer_written r) ∧
  match r with
  | Ok g => capture_state (stream_capture s) = Capture.Capture caller ∧ capture_failed (stream_capture s) = None ∧
      graph_retained g = retained_host (stream_capture s)
  | Err _ => capture_recording (stream_capture s) = true →
      ∀ b, b ∈ retained_host (stream_capture s) → b ∈ shared_dropped (command_shared c')
  end.
Proof.
  intros Hr Hc Hs. split.
  { destruct (instantiate_at _ _ _ _ _ Hr Hc) as (i & [Hi Hb Hst] & Hi0). exists i. split; [done|]. split; [done|]. by destruct Hb. }
  unfold window_instantiate in Hr. apply bind_run in Hr as (outcome & c1 & H1 & Hr). pose proof (end_run _ _ _ _ _ Hs H1) as Hend.
  pose proof (held_current recorded _ _ _ _ H1 (held_end recorded caller (λ _ _, eq_refl))) as Hw1.
  destruct (held_current retains _ _ _ _ H1 (held_end retains caller (λ _ _, eq_refl))) as [Hh1 _].
  destruct (Hh1 s Hs) as (s1 & Hs1 & [= Hr1 Hf1]). destruct outcome as [outcome|x].
  2: { unfold unopened in Hr. apply bind_run in Hr as (written & c2 & H2 & Hr). repeat (apply bind_run in Hr as (? & ? & _ & Hr)).
       injection Hr as <- _. split; [by eapply written_run|]. unfold capture_recording. by rewrite Hend. }
  apply bind_run in Hr as (failure & c2 & H2 & Hr). destruct (take_failure_run _ _ _ _ Hs1 H2) as (Hfail & Hh2 & Hw2).
  apply bind_run in Hr as (exec & c3 & H3 & Hr).
  apply bind_run in Hr as (touched & c4 & H4 & Hr). apply bind_run in Hr as (guards & c5 & H5 & Hr).
  assert (∀ X (field : StreamCapture Bytes → X), (∀ l x, field (with_touched l x) = field x) → held_now field c2 c5) as Hh25.
  { intros X field Hf. etrans; [by eapply instantiate_held|]. etrans; [|by eapply held_guards].
    eapply held_current; [exact H4|by apply held_touched]. }
  assert (held_now retained_host c1 c5) as [Hh _] by (etrans; [exact Hh2|by apply Hh25]). destruct (Hh s1 Hs1) as (s5 & Hs5 & Hr5).
  apply bind_run in Hr as (retained & c6 & H6 & Hr). destruct (take_retained_run _ _ _ _ Hs5 H6) as [Hret Hw6].
  apply bind_run in Hr as ([] & c7 & H7 & Hr). apply bind_run in Hr as (written & c8 & H8 & Hr).
  assert (one_per_claim (shared_memory (command_shared c)) (weak_binding <$> recorded (stream_capture s)) written) as Hwritten.
  { eapply written_run; [exact Hs| |exact H8]. etrans; [exact Hw1|]. etrans; [exact Hw2|]. etrans; [by apply Hh25|].
    etrans; [exact Hw6|]. eapply held_current; [exact H7|apply held_drain]. }
  apply bind_run in Hr as (exec' & c9 & H9 & Hr). destruct exec' as [x|x].
  - do 2 (apply bind_run in Hr as (? & ? & _ & Hr)). injection Hr as <- _. split; [exact Hwritten|].
    assert (is_abandoned outcome = false ∧ exec = Ok x) as [Ho ->].
    { apply at_stream_run in H9 as (i & entry & s' & sh' & _ & _ & Hop & _). unfold owned_executable in Hop.
      destruct (is_abandoned outcome); [by apply bind_run in Hop as (y & e & _ & [=])|]. by injection Hop as -> _ _. }
    split; [by apply Hend|]. split; [|cbn; congruence]. apply doomed_run in H3. congruence.
  - apply bind_run in Hr as ([] & c10 & H10 & Hr). apply bind_run in Hr as ([] & c11 & H11 & Hr).
    apply bind_run in Hr as ([] & c12 & H12 & [= <- <-]). split; [exact Hwritten|]. intros _ b Hb.
    apply at_stream_run in H11 as (i & entry & s' & sh' & _ & _ & Hop & ->). unfold drop_host, modify in Hop. injection Hop as <- <-.
    apply at_stream_run in H12 as (j & entry' & s'' & sh'' & _ & _ & Hop & ->). unfold on_descriptors in Hop.
    apply bind_Some in Hop as ([y m] & _ & [= _ _ <-]). cbn. apply elem_of_app. right. congruence.
Qed.
End in_step.

(** ** On the simulated driver *)
Import Sim.
#[export] Instance sim_graphs : GraphDriver SimDevice Z Z := {
  graph_begin sg := λ d, Some (if decide (sg ∈ sim_recording d) then (Err TornDown, d)
    else (Ok tt, mk_SimDevice (made d) (flight d) (tickets d) (fences d) (sg :: sim_recording d)));
  graph_instantiate sg doomed := λ d, Some (match doomed with Some e => Err e | None => Ok sg end,
    mk_SimDevice (made d) (flight d) (tickets d) (fences d) (filter (λ x, x ≠ sg) (sim_recording d)));
  graph_upload _ _ := λ d, Some (tt, d);
  graph_replay _ _ := λ d, Some (Ok tt, d);
  drop_executable _ := λ d, Some (tt, d);
}.
#[export] Instance sim_records : DriverRecords SimDevice Z := λ d sg, bool_decide (sg ∈ sim_recording d).
#[export] Instance sim_graph_laws : GraphLaws SimDevice (Z * list Z) Z unit Z.
Proof.
  split; try (intros; intros d a d' Hr; injection Hr as _ <-; intros sg'; done).
  - intros a b sg d r d' Hr. by injection Hr as _ <-.
  - intros sg d r d' Hr x. cbn in Hr. unfold driver_records, sim_records. destruct (decide (sg ∈ sim_recording d)); injection Hr as <- <-; [done|].
    cbn. case_decide as Hx; [by subst; rewrite bool_decide_eq_true_2 by left|]. apply bool_decide_ext. rewrite elem_of_cons. naive_solver.
  - intros sg doomed d r d' Hr x. cbn in Hr. injection Hr as _ <-. unfold driver_records, sim_records. cbn.
    case_decide as Hx; [apply bool_decide_eq_false_2|apply bool_decide_ext]; rewrite list_elem_of_filter; naive_solver.
  - intros sg e d r d' Hr. injection Hr as <- _. by exists e.
Qed.
Definition sim_new (id : StreamId) : SimStream := sim_stream capture_new (id mod 2).
Lemma sim_new_signal id i : stream_index id 2 = Some i → stream_signal (sim_new id) = Z.of_nat i.
Proof.
  unfold stream_index. cbn. intros [= <-]. pose proof (Z.mod_pos_bound id 2 ltac:(lia)). by rewrite Z2Nat.id by lia.
Qed.
Abbreviation sim_in_step := (in_step (Z.of_nat) 2).
Lemma sim_starts_in_step : sim_in_step (sim_command capture_new 0).
Proof.
  split; [split; [reflexivity|]|split; [|split; [reflexivity|vm_compute; discriminate]]].
  - intros [|[|i]] s Hs; [injection Hs as <-; reflexivity|discriminate Hs|discriminate Hs].
  - intros [|[|i]] st Hst; [injection Hst as <-; reflexivity|injection Hst as <-; reflexivity|discriminate Hst].
Qed.
Definition sorted_claims (l : list (list Z * BufferBinding)) : list (list Z * BufferBinding) := merge_sort (key_le fst) l.
Lemma sim_new_capture id : capture_state (stream_capture (sim_new id)) = NoCapture.
Proof. done. Qed.

(** A window that is prepared and opened. *)
Definition sim_server : GraphServer (Exec := Z) := mk_GraphServer (sim_command capture_new 0) ∅.
Definition prepare_sim : M (GraphServer (Exec := Z)) (result unit ServerError) := on_command (window_prepare sim_new 0).
Definition open_sim : M (GraphServer (Exec := Z)) (result unit ServerError) := on_command (window_begin map_to_list elements sim_new).
Abbreviation sim_step := (graph_step map_to_list elements sorted_claims sim_new false pageable).
Lemma windows_in_step_witness :
  ∃ s1 s2, prepare_sim sim_server = Some (Ok tt, s1) ∧ open_sim s1 = Some (Ok tt, s2) ∧
    (∀ i st, stream_at (graph_command s2) i = Some st →
      driver_records (shared_device (command_shared (graph_command s2))) (stream_signal st) = capture_recording (stream_capture st)).
Proof.
  assert (fst <$> prepare_sim sim_server = Some (Ok tt)) as H1 by (vm_compute; reflexivity).
  apply fmap_Some in H1 as ([r1 s1] & H1 & Hr1). cbn in Hr1. subst r1.
  assert ((prepare_sim sim_server ≫= λ x, fst <$> open_sim x.2) = Some (Ok tt)) as H2 by (vm_compute; reflexivity).
  rewrite H1 in H2. apply fmap_Some in H2 as ([r2 s2] & H2 & Hr2). cbn in Hr2. subst r2.
  exists s1, s2. split; [exact H1|]. split; [exact H2|].
  apply (windows_in_step (Exec := Z) map_to_list elements sorted_claims sim_new false pageable Z.of_nat 2
    Nat2Z.inj sim_new_signal sim_new_capture sim_server s2 sim_starts_in_step).
  apply (rtc_l _ _ s1); [exact (graph_prepares _ _ _ _ _ _ _ _ _ _ H1)|apply rtc_once; exact (graph_opens _ _ _ _ _ _ _ _ _ H2)].
Defined.

(** What a copy retains in it stays with the graph. *)
Abbreviation retain_sim := (current sim_new (on_capture (capture_retain_host (mk_Bytes 9 4)))).
Abbreviation close_sim := (window_instantiate (Exec := Z) map_to_list elements sorted_claims sim_new 0 5).
Abbreviation window_sim := (_ ← window_prepare sim_new 0; _ ← window_begin map_to_list elements sim_new; retain_sim).
Lemma window_sim_in_step c : window_sim (sim_command capture_new 0) = Some (tt, c) → sim_in_step c.
Proof.
  intros Hr. apply bind_run in Hr as (r1 & c1 & H1 & Hr). apply bind_run in Hr as (r2 & c2 & H2 & Hr).
  apply (prepare_in_step sim_new Z.of_nat 2 sim_new_signal sim_new_capture) in H1; [|exact sim_starts_in_step].
  apply (begin_in_step map_to_list elements sim_new Z.of_nat 2 Nat2Z.inj sim_new_signal sim_new_capture) in H2; [|exact H1].
  eapply same_windows_in_step; [|exact H2].
  exact (@lifted_at _ _ _ _ _ sim_new _ _ (same_windows_lifted sim_new Z.of_nat 2 sim_new_signal sim_new_capture) _ (command_current c2) _
    (window_capture _ (keeps_retain (mk_Bytes 9 4))) c2 tt c Hr).
Qed.
Lemma window_sealed_witness :
  ∃ c g c', window_sim (sim_command capture_new 0) = Some (tt, c) ∧ close_sim c = Some (Ok g, c') ∧
    graph_retained g = [mk_Bytes 9 4].
Proof.
  destruct (window_sim (sim_command capture_new 0)) as [[[] c]|] eqn:Hr; [|vm_compute in Hr; discriminate].
  assert ((λ x, retained_host ∘ stream_capture <$> current_slot x.2) <$> window_sim (sim_command capture_new 0) = Some (Some [mk_Bytes 9 4]))
    as Hs by (vm_compute; reflexivity).
  rewrite Hr in Hs. injection Hs as Hs. apply fmap_Some in Hs as (s & Hs & Hret).
  assert ((window_sim (sim_command capture_new 0) ≫= λ x, (λ y, match y.1 with Ok _ => true | Err _ => false end) <$> close_sim x.2) = Some true)
    as Hc by (vm_compute; reflexivity).
  rewrite Hr in Hc. apply fmap_Some in Hc as ([[g|e] c'] & Hc & Hok); [|discriminate Hok].
  exists c, g, c'. split; [done|]. split; [exact Hc|].
  destruct (window_sealed (Exec := Z) map_to_list elements sorted_claims sim_new Z.of_nat 2 Nat2Z.inj sim_new_signal sim_new_capture
    (merge_sort_Permutation _) (@Sorted_merge_sort _ (key_le fst) _ (key_le_total fst))
    0 5 c s (Ok g) c' Hc (window_sim_in_step c Hr) Hs) as (_ & _ & _ & _ & Hg).
  unfold compose in Hret. by rewrite Hg, Hret.
Defined.
