(* ===== verification/Collectives.v ===== *)
(** * Collectives across devices

    [cubecl-server/src/command/collective.rs]: the groups a device has joined,
    and its rank in each.  Two devices that disagree on a rank wait for each
    other for ever, so every member has to compute the same ones. *)

From S2P Require Export Capture.
From stdpp Require Import list gmap strings sorting.
#[local] Open Scope Z_scope.

Record DeviceId := mk_DeviceId { type_id : Z; index_id : Z }.
#[global] Instance DeviceId_eq_dec : EqDecision DeviceId.
Proof. solve_decision. Defined.
(** [Ord]: by the type, then the index. *)
Definition device_key (d : DeviceId) : list Z := [type_id d; index_id d].
Definition device_le : relation DeviceId := key_le device_key.
Definition device_sort (l : list DeviceId) : list DeviceId := merge_sort device_le l.

Definition rank_in (device : DeviceId) (devices : list DeviceId) : option nat :=
  position (λ d, index_id d =? index_id device) devices.
Definition peer_of (device : DeviceId) (devices : list DeviceId) : option nat :=
  position (λ d, negb (index_id d =? index_id device)) devices.

(** What a driver supplies: the identifier of a group, the same for every
    device of the process, and joining. *)
Class CollectiveDriver (D Comm Uid : Type) := {
  group_id : Z → M D (result Uid ServerError);
  driver_join : Uid → nat → nat → M D (result Comm ServerError);
}.
Record Collectives (Comm : Type) := mk_Collectives { collective_device : DeviceId; joined : gmap Z Comm }.
Arguments mk_Collectives {Comm}. Arguments collective_device {Comm}. Arguments joined {Comm}.

Section collectives.
Context {D Comm Uid : Type} `{!CollectiveDriver D Comm Uid}.
(** [FixedState::hash_one] of the sorted devices. *)
Context (hash_one : list DeviceId → Z).
Implicit Types (c : Collectives Comm) (l : list DeviceId).

Definition communication_id (l : list DeviceId) : Z := hash_one (device_sort l).
Definition collectives_new (device : DeviceId) : Collectives Comm := mk_Collectives device ∅.
(** The driver's part of [join], as rank [rank] of [ranks]. *)
Definition enter (id : Z) (ranks rank : nat) c : M D (result (option Z) ServerError * Collectives Comm) :=
  uid ← group_id id;
  match uid with
  | Err e => mret (Err e, c)
  | Ok uid =>
      comm ← driver_join uid ranks rank;
      match comm with
      | Err e => mret (Err e, c)
      | Ok comm => mret (Ok (Some id), mk_Collectives (collective_device c) (<[id := comm]> (joined c)))
      end
  end.
(** The device and the group, in the texts, are left out. *)
Definition no_rank : ServerError := Generic "this device is not among those the group was formed over, so it has no rank in it".
Definition join (devices : list DeviceId) c : M D (result (option Z) ServerError * Collectives Comm) :=
  let id := communication_id devices in
  if decide (is_Some (joined c !! id)) then mret (Ok None, c)
  else
    let devices := device_sort devices in
    match rank_in (collective_device c) devices with
    | None => mret (Err no_rank, c)
    | Some rank => enter id (length devices) rank c
    end.
Definition communicator (id : Z) c : result Comm ServerError :=
  match joined c !! id with
  | Some comm => Ok comm
  | None => Err (Generic "no communicator for this group; it has to be joined first")
  end.
Definition peer_rank (devices : list DeviceId) c : result nat ServerError :=
  match peer_of (collective_device c) devices with
  | Some rank => Ok rank
  | None => Err (Generic "every device in the pair is this one, so there is no peer")
  end.

(** ** Ranks *)
Lemma device_le_total d d' : device_le d d' ∨ device_le d' d.
Proof. apply key_le_total. Qed.
Lemma device_sort_perm l : device_sort l ≡ₚ l.
Proof. apply merge_sort_Permutation. Qed.
#[local] Instance device_le_antisym : AntiSymm (=) device_le.
Proof. intros [t i] [t' i'] H1 H2. pose proof (key_le_antisym device_key _ _ H1 H2) as Hk. by injection Hk as -> ->. Qed.
#[local] Instance device_le_trans : Transitive device_le.
Proof. intros d1 d2 d3. apply key_le_trans. Qed.
Lemma device_sort_perm_eq l l' : l ≡ₚ l' → device_sort l = device_sort l'.
Proof.
  intros Hp. unfold device_sort. apply (StronglySorted_unique device_le).
  - apply StronglySorted_merge_sort; [apply _|exact device_le_total].
  - apply StronglySorted_merge_sort; [apply _|exact device_le_total].
  - by rewrite !merge_sort_Permutation.
Qed.
(** A member is ranked, at a device of its index. *)
Lemma member_rank l d : d ∈ l → ∃ r x, rank_in d l = Some r ∧ l !! r = Some x ∧ index_id x = index_id d.
Proof.
  intros Hd. unfold rank_in. destruct (position _ l) as [r|] eqn:Hr.
  - apply position_Some in Hr as [(x & Hx & Heq%Z.eqb_eq) _]. by exists r, x.
  - rewrite position_None, Forall_forall in Hr. specialize (Hr d Hd). by rewrite Z.eqb_refl in Hr.
Qed.
(** In a pair the peer is at the place the device is not. *)
Lemma pair_peer l d d' : index_id d ≠ index_id d' → l ≡ₚ [d; d'] → ∃ r, rank_in d' l = Some r ∧ peer_of d l = Some r.
Proof.
  intros Hne Hp.
  symmetry in Hp; apply Permutation_length_2_inv in Hp as [-> | ->]; unfold rank_in, peer_of; cbn.
  - exists 1%nat. rewrite !Z.eqb_refl, (proj2 (Z.eqb_neq _ _) Hne), (proj2 (Z.eqb_neq _ _) (not_eq_sym Hne)). done.
  - exists 0%nat. rewrite Z.eqb_refl, (proj2 (Z.eqb_neq _ _) (not_eq_sym Hne)). done.
Qed.
(** C29: two devices of one group that are told of it, in whatever order, and
    have not entered it yet, enter it under one identifier and as many ranks,
    each at a rank within the group; they take one rank exactly if they have one
    index, whatever their types, and in a pair of two indices the peer each
    answers is the rank the other took. *)
Theorem ranks_agree c1 c2 l1 l2 :
  l1 ≡ₚ l2 → collective_device c1 ∈ l1 → collective_device c2 ∈ l1 →
  joined c1 !! communication_id l1 = None → joined c2 !! communication_id l1 = None →
  ∃ r1 r2, join l1 c1 = enter (communication_id l1) (length l1) r1 c1
    ∧ join l2 c2 = enter (communication_id l1) (length l1) r2 c2
    ∧ (r1 < length l1)%nat ∧ (r2 < length l1)%nat
    ∧ (r1 = r2 ↔ index_id (collective_device c1) = index_id (collective_device c2))
    ∧ (l1 ≡ₚ [collective_device c1; collective_device c2] → r1 ≠ r2 → peer_rank (device_sort l1) c1 = Ok r2).
Proof.
  intros Hp H1 H2 Hj1 Hj2. pose proof (device_sort_perm_eq _ _ Hp) as Hs.
  rewrite <- device_sort_perm in H1, H2. destruct (member_rank _ _ H1) as (r1 & x1 & Hr1 & Hl1 & Hx1).
  destruct (member_rank _ _ H2) as (r2 & x2 & Hr2 & Hl2 & Hx2). pose proof (Permutation_length (device_sort_perm l1)) as Hlen.
  assert (r1 = r2 ↔ index_id (collective_device c1) = index_id (collective_device c2)) as Heq.
  { split; [intros <-; congruence|]. intros He. unfold rank_in in *. rewrite He in Hr1. congruence. }
  exists r1, r2. split; [|split; [|split; [|split; [|split; [exact Heq|]]]]].
  - unfold join. by rewrite Hj1, Hr1, Hlen.
  - unfold join, communication_id in *. rewrite <- Hs. by rewrite Hj2, Hr2, Hlen.
  - rewrite <- Hlen. by eapply lookup_lt_Some.
  - rewrite <- Hlen. by eapply lookup_lt_Some.
  - intros Hpair Hne. rewrite Heq in Hne. rewrite <- (device_sort_perm l1) in Hpair.
    destruct (pair_peer _ _ _ Hne Hpair) as (r & Hr & Hpeer). unfold peer_rank. rewrite Hpeer. congruence.
Qed.
End collectives.

(** Two devices of one kind, and a driver that hands out its own count. *)
Module Pair.
Definition near : DeviceId := mk_DeviceId 0 3.
Definition far : DeviceId := mk_DeviceId 0 8.
Definition weigh (l : list DeviceId) : Z := fold_right (λ d n, index_id d + 10 * n) 0 l.
#[export] Instance counting_driver : CollectiveDriver nat nat Z :=
  {| group_id := λ id, mret (Ok id); driver_join := λ _ _ _ n, Some (Ok n, S n) |}.
Lemma ranks_agree_witness :
  join (D:=nat) (Comm:=nat) (Uid:=Z) weigh [far; near] (collectives_new near) = enter 83 2 0 (collectives_new near)
  ∧ join (D:=nat) (Comm:=nat) (Uid:=Z) weigh [near; far] (collectives_new far) = enter 83 2 1 (collectives_new far)
  ∧ peer_rank (Comm:=nat) (device_sort [far; near]) (collectives_new near) = Ok 1%nat.
Proof.
  destruct (ranks_agree (D:=nat) (Comm:=nat) (Uid:=Z) weigh (collectives_new near) (collectives_new far) [far; near] [near; far])
    as (r1 & r2 & H1 & H2 & Hb1 & Hb2 & Hne & Hpeer).
  - apply perm_swap.
  - right. left.
  - left.
  - reflexivity.
  - reflexivity.
  - split_and!; [reflexivity|reflexivity|reflexivity].
Defined.
End Pair.
