(* ===== verification/Events.v ===== *)
(** * Device events

    [cubecl-server/src/device_events/base.rs], [event.rs], [fence.rs] and the
    anchors of [profiler.rs]: the events of a device, the fence made of one, the
    pool that recycles them, and the anchors that the windows of a profiler
    share.  A driver is an interface; the drops the code leaves to the compiler
    are calls.  What a driver logs when it refuses to release an event is left
    out. *)

From S2P Require Export Server DropQueue.
From stdpp Require Import list gmap strings.
#[local] Open Scope Z_scope.

(** ** Errors of a driver ([driver.rs]) *)
Record DriverError := mk_DriverError { driver_op : string; driver_status : Z }.
(** The status, in the text, is left out. *)
Definition driver_error (e : DriverError) : ServerError := Generic (driver_op e +:+ " failed with status").
Definition checked (op : string) (status : Z) : result unit DriverError :=
  if status =? 0 then Ok tt else Err (mk_DriverError op status).

(** ** [EventApi] *)
Class EventApi (D Ev Sm : Type) := {
  event_create : M D (result Ev DriverError);
  event_destroy : Ev → M D (result unit DriverError);
  event_record : Ev → Sm → M D (result unit DriverError);
  event_wait : Ev → M D (result unit DriverError);
  event_elapsed : Ev → Ev → M D (result Z DriverError);
  stream_wait_event : Sm → Ev → M D (result unit DriverError);
  stream_create_non_blocking : M D (result Sm DriverError);
  stream_destroy : Sm → M D (result unit DriverError);
}.
(** [Instant::now] *)
Class HostClock (D : Type) := instant_now : M D Z.

(** Outcomes that are expected to be [Ok]. *)
Definition expect {S A E} (r : result A E) : M S A := match r with Ok a => mret a | Err _ => panic end.

(** ** [EventFence] *)
Section fence.
Context {D Ev Sm : Type} `{!EventApi D Ev Sm}.
Definition fence_new (stream : Sm) : M D Ev :=
  event ← event_create; event ← expect event;
  r ← event_record event stream; _ ← expect r;
  mret event.
Definition wait_sync (event : Ev) : M D (result unit ServerError) :=
  r ← event_wait event; _ ← event_destroy event;
  mret (match r with Ok _ => Ok tt | Err e => Err (driver_error e) end).
Definition wait_async (event : Ev) (stream : Sm) : M D unit :=
  r ← stream_wait_event stream event; _ ← expect r; _ ← event_destroy event; mret tt.
#[export] Instance event_fence : Fence Ev D := wait_sync.
End fence.

(** ** The pool

    The free events are shared by whoever holds the pool: the profiler and every
    event that was handed out.  An anchor is a counted cell. *)
Record EventWorld (D Ev : Type) := mk_EventWorld {
  event_device : D;
  free_events : list Ev;
  pool_refs : Z;
  anchor_cells : gmap Z (Ev * Z);
  next_cell : Z;
}.
Arguments mk_EventWorld {D Ev}. Arguments event_device {D Ev}. Arguments free_events {D Ev}. Arguments pool_refs {D Ev}.
Arguments anchor_cells {D Ev}. Arguments next_cell {D Ev}.
Record Anchor := mk_Anchor { anchor_event : Z; anchor_instant : Z }.

Section pool.
Context {D Ev Sm : Type} `{!EventApi D Ev Sm, !HostClock D}.
Abbreviation World := (EventWorld D Ev).
Definition with_event_device (d : D) (w : World) : World :=
  mk_EventWorld d (free_events w) (pool_refs w) (anchor_cells w) (next_cell w).
Definition with_free (free : list Ev) (refs : Z) (w : World) : World :=
  mk_EventWorld (event_device w) free refs (anchor_cells w) (next_cell w).
Definition with_cells (cells : gmap Z (Ev * Z)) (next : Z) (w : World) : World :=
  mk_EventWorld (event_device w) (free_events w) (pool_refs w) cells next.
Definition on_device {A} (op : M D A) : M World A := λ w,
  '(a, d) ← op (event_device w); Some (a, with_event_device d w).

(** Dropping one holder of the pool: the last one releases the free events. *)
Fixpoint destroy_events (l : list Ev) : M D unit :=
  match l with [] => mret tt | e :: l => _ ← event_destroy e; destroy_events l end.
Definition pool_drop : M World unit :=
  w ← get;
  if pool_refs w =? 1 then _ ← on_device (destroy_events (free_events w)); modify (with_free [] 0)
  else put (with_free (free_events w) (pool_refs w - 1) w).
Definition acquire : M World (result Ev DriverError) :=
  w ← get;
  match vec_pop (free_events w) with
  | Some (event, rest) => _ ← put (with_free rest (pool_refs w + 1) w); mret (Ok event)
  | None =>
      event ←? on_device event_create;
      _ ← modify (λ w, with_free (free_events w) (pool_refs w + 1) w); mret (Ok event)
  end.
(** [Drop] of [Pooled]. *)
Definition release (event : Ev) : M World unit :=
  _ ← modify (λ w, with_free (free_events w ++ [event]) (pool_refs w) w); pool_drop.

(** ** Anchors *)
(** Recording an event, which goes back to the pool when it is refused. *)
Definition record_or_release (event : Ev) (stream : Sm) : M World (result unit DriverError) :=
  r ← on_device (event_record event stream);
  match r with Ok _ => mret (Ok tt) | Err e => _ ← release event; mret (Err e) end.
Definition anchor_take (stream : Sm) : M World (result Anchor DriverError) :=
  event ←? acquire;
  _ ←? record_or_release event stream;
  r ← on_device (event_wait event);
  match r with
  | Err e => _ ← release event; mret (Err e)
  | Ok _ =>
      id ← gets next_cell;
      _ ← modify (λ w, with_cells (<[id := (event, 1)]> (anchor_cells w)) (id + 1) w);
      now ← on_device instant_now;
      mret (Ok (mk_Anchor id now))
  end.
Definition anchor_clone (a : Anchor) : M World unit :=
  cell ← gets (λ w, anchor_cells w !! anchor_event a);
  match cell with
  | None => panic
  | Some (event, n) => modify (λ w, with_cells (<[anchor_event a := (event, n + 1)]> (anchor_cells w)) (next_cell w) w)
  end.
Definition anchor_drop (a : Anchor) : M World unit :=
  cell ← gets (λ w, anchor_cells w !! anchor_event a);
  match cell with
  | None => panic
  | Some (event, n) =>
      if n =? 1 then
        _ ← modify (λ w, with_cells (delete (anchor_event a) (anchor_cells w)) (next_cell w) w); release event
      else modify (λ w, with_cells (<[anchor_event a := (event, n - 1)]> (anchor_cells w)) (next_cell w) w)
  end.
(** The event behind an anchor. *)
Definition anchored (a : Anchor) : M World Ev :=
  cell ← gets (λ w, anchor_cells w !! anchor_event a);
  match cell with Some (event, _) => mret event | None => panic end.
End pool.

(** ** Laws of a driver

    What has been created and was not given back.  A new event is none of
    these; an event is given back whether or not the driver reports a failure;
    and the calls on an event are promised for these only, so that a proof
    through the laws never uses an event after it was given back. *)
Class EventLaws (D Ev Sm : Type) `{!EventApi D Ev Sm, !HostClock D} := {
  alive : D → list Ev;
  create_law d : NoDup (alive d) → wp event_create d (λ r d',
    match r with Ok e => e ∉ alive d ∧ alive d' ≡ₚ e :: alive d | Err _ => alive d' ≡ₚ alive d end);
  destroy_law e d : e ∈ alive d → wp (event_destroy e) d (λ _ d', alive d ≡ₚ e :: alive d');
  record_law e stream d : e ∈ alive d → wp (event_record e stream) d (λ _ d', alive d' ≡ₚ alive d);
  wait_event_law e d : e ∈ alive d → wp (event_wait e) d (λ _ d', alive d' ≡ₚ alive d);
  elapsed_law e e' d : e ∈ alive d → e' ∈ alive d → wp (event_elapsed e e') d (λ r d', alive d' ≡ₚ alive d);
  make_stream_law d : wp stream_create_non_blocking d (λ _ d', alive d' ≡ₚ alive d);
  drop_stream_law stream d : wp (stream_destroy stream) d (λ _ d', alive d' ≡ₚ alive d);
  clock_law d : wp instant_now d (λ _ d', alive d' ≡ₚ alive d);
}.

(** ** Who holds an event

    [held] are the events that someone holds, [refs] the cells that someone's
    anchor names, [base] the holders of the pool besides, and [other] events
    the pool has nothing to do with. *)
Definition count (refs : list Z) (id : Z) : Z := Z.of_nat (length (filter (λ x, x = id) refs)).
Definition cell_events {Ev} (cells : gmap Z (Ev * Z)) : list Ev := (map_to_list (fst <$> cells)).*2.
Section ownership.
Context {D Ev Sm : Type} `{EventLaws D Ev Sm} (other : list Ev).
Abbreviation World := (EventWorld D Ev).
Record pool_ok (held : list Ev) (refs : list Z) (base : Z) (w : World) : Prop := mk_pool_ok {
  pool_events : alive (event_device w) ≡ₚ free_events w ++ held ++ cell_events (anchor_cells w) ++ other;
  pool_nodup : NoDup (alive (event_device w));
  pool_count : pool_refs w = base + Z.of_nat (length held) + Z.of_nat (size (anchor_cells w));
  pool_closed : pool_refs w = 0 → free_events w = [];
  pool_cells : ∀ id, match anchor_cells w !! id with Some (_, n) => n = count refs id ∧ 0 < n | None => count refs id = 0 end;
  pool_fresh : ∀ id, is_Some (anchor_cells w !! id) → id < next_cell w;
}.
Lemma count_cons x refs id : count (x :: refs) id = (if decide (x = id) then 1 else 0) + count refs id.
Proof. unfold count. rewrite filter_cons. case_decide; cbn; lia. Qed.
Lemma count_nonneg refs id : 0 <= count refs id.
Proof. unfold count. lia. Qed.
Lemma count_perm refs refs' id : refs ≡ₚ refs' → count refs id = count refs' id.
Proof. unfold count. by intros ->. Qed.
Lemma cells_insert (cells : gmap Z (Ev * Z)) id e n : cells !! id = None → cell_events (<[id := (e, n)]> cells) ≡ₚ e :: cell_events cells.
Proof. intros Hn. unfold cell_events. rewrite fmap_insert, map_to_list_insert; [done|]. by rewrite lookup_fmap, Hn. Qed.
Lemma cells_update (cells : gmap Z (Ev * Z)) id e n n' : cells !! id = Some (e, n) → cell_events (<[id := (e, n')]> cells) = cell_events cells.
Proof. intros Hn. unfold cell_events. rewrite fmap_insert, insert_id; [done|]. by rewrite lookup_fmap, Hn. Qed.
Lemma cells_delete (cells : gmap Z (Ev * Z)) id e n : cells !! id = Some (e, n) → cell_events cells ≡ₚ e :: cell_events (delete id cells).
Proof. intros Hn. rewrite <- (cells_insert _ id e n) by apply lookup_delete_eq. by rewrite insert_delete_eq, insert_id. Qed.
Lemma pool_ok_perm held held' refs refs' base w :
  held ≡ₚ held' → refs ≡ₚ refs' → pool_ok held refs base w → pool_ok held' refs' base w.
Proof.
  intros Hh Hr [He Hn Hc Hz Hl Hf]. split; [by rewrite <- Hh|done|by rewrite <- Hh|done| |done].
  intros id. specialize (Hl id). by rewrite <- (count_perm refs refs' id Hr).
Qed.
(** A call that leaves the events as they were. *)
Lemma wp_device_call {A} (op : M D A) held refs base w (Q : A → World → Prop) :
  pool_ok held refs base w → wp op (event_device w) (λ _ d', alive d' ≡ₚ alive (event_device w)) →
  (∀ a w', pool_ok held refs base w' → Q a w') → wp (on_device op) w Q.
Proof.
  intros Hok (a & d & Hop & Hd)%wp_spec HQ. apply wp_spec. exists a, (with_event_device d w). unfold on_device. rewrite Hop. split; [done|].
  apply HQ. destruct Hok as [He Hn Hc Hz Hl Hf]. split; cbn; try done; [by rewrite Hd|by rewrite Hd].
Qed.
Lemma pool_alive held refs base w e : pool_ok held refs base w → e ∈ held → e ∈ alive (event_device w).
Proof. intros [He _ _ _ _ _] ?. rewrite He, !elem_of_app. auto. Qed.
Lemma pool_nonneg held refs base w : 0 <= base → pool_ok held refs base w → held ≠ [] ∨ 0 < base → 0 < pool_refs w.
Proof. intros Hb [_ _ -> _ _ _]. destruct held; cbn [length]; [intros [?|?]; [done|lia]|lia]. Qed.
Lemma wp_destroy_events l d rest : alive d ≡ₚ l ++ rest → wp (destroy_events l) d (λ _ d', alive d' ≡ₚ rest).
Proof.
  revert d. induction l as [|e l IH]; intros d Hd; [by apply wp_ret|]. cbn [destroy_events]. apply wp_bind.
  eapply wp_mono; [apply (destroy_law e d); rewrite Hd; by left|]. cbn. intros _ d' Hd'. apply IH.
  rewrite Hd in Hd'. cbn in Hd'. by apply Permutation_cons_inv in Hd'.
Qed.

(** ** What each operation does to the holders *)
Lemma wp_pool_drop held refs base w (Q : unit → World → Prop) :
  0 <= base → pool_ok held refs (base + 1) w → (∀ w', pool_ok held refs base w' → Q tt w') → wp pool_drop w Q.
Proof.
  intros Hb [He Hn Hc Hz Hl Hf] HQ. unfold pool_drop. apply wp_bind. cbn. destruct (Z.eqb_spec (pool_refs w) 1) as [H1|H1].
  - apply wp_bind. destruct (proj1 (wp_spec _ _ _) (wp_destroy_events _ _ _ He)) as (u & d & Hd & Ha).
    apply wp_spec. exists u, (with_event_device d w). unfold on_device. rewrite Hd. split; [done|]. apply wp_modify, HQ.
    assert (NoDup (alive d)) as Hnd. { rewrite Ha. rewrite He in Hn. by apply NoDup_app in Hn as (_ & _ & ?). }
    split; cbn; [by rewrite Ha|done|lia|done|done|done].
  - apply HQ. split; cbn; [done|done|lia| |done|done]. intros H0. apply Hz. lia.
Qed.
Lemma wp_release e held refs base w (Q : unit → World → Prop) :
  0 <= base → pool_ok (e :: held) refs base w → (∀ w', pool_ok held refs base w' → Q tt w') → wp (release e) w Q.
Proof.
  intros Hb [He Hn Hc Hz Hl Hf] HQ. unfold release. apply wp_bind, wp_modify. apply (wp_pool_drop held refs base); [done| |done].
  cbn [length] in Hc. split; cbn; [|done|lia|intros; lia|done|done].
  rewrite He, <- !app_assoc. cbn. by rewrite <- !Permutation_middle.
Qed.
Lemma wp_acquire held refs base w (Q : result Ev DriverError → World → Prop) :
  0 <= base → pool_ok held refs base w → 0 < pool_refs w →
  (∀ r w', 0 < pool_refs w' → match r with Ok e => pool_ok (e :: held) refs base w' | Err _ => pool_ok held refs base w' end → Q r w') →
  wp acquire w Q.
Proof.
  intros Hb Hok Hpos HQ. unfold acquire. apply wp_bind. cbn. destruct (vec_pop (free_events w)) as [[e r]|] eqn:Hp.
  - apply vec_pop_Some in Hp. apply (HQ (Ok e)); cbn; [lia|]. destruct Hok as [He Hn Hc Hz Hl Hf].
    split; cbn; [|done|lia|intros; lia|done|done]. rewrite He, Hp, <- !app_assoc. cbn. done.
  - apply vec_pop_None in Hp. unfold try_bind. apply wp_bind. pose proof (create_law (event_device w) (pool_nodup _ _ _ _ Hok)) as Hcr.
    apply wp_spec in Hcr as (r & d & Hd & Ha). apply wp_spec. exists r, (with_event_device d w). unfold on_device. rewrite Hd.
    split; [done|]. destruct Hok as [He Hn Hc Hz Hl Hf]. destruct r as [e|e].
    + apply wp_bind, wp_modify. destruct Ha as [Hne Ha]. apply (HQ (Ok e)); cbn; [lia|].
      split; cbn; [|by rewrite Ha; constructor|lia|intros; lia|done|done]. rewrite Ha, He, Hp. cbn. done.
    + apply (HQ (Err e)); cbn; [lia|]. split; cbn; [by rewrite Ha|by rewrite Ha|done|done|done|done].
Qed.
Lemma wp_record_or_release e stream held refs base w (Q : result unit DriverError → World → Prop) :
  0 <= base → pool_ok (e :: held) refs base w →
  (∀ r w', match r with Ok _ => pool_ok (e :: held) refs base w' | Err _ => pool_ok held refs base w' end → Q r w') →
  wp (record_or_release e stream) w Q.
Proof.
  intros Hb Hok HQ. unfold record_or_release. apply wp_bind. eapply wp_device_call; [exact Hok|apply record_law|].
  { eapply pool_alive; [exact Hok|by left]. }
  intros [u|x] w' Hw'; [by apply (HQ (Ok tt))|]. apply wp_bind. apply (wp_release e held refs base); [done|done|].
  intros w2 Hw2. by apply (HQ (Err x)).
Qed.
Lemma wp_anchor_take stream held refs base w (Q : result Anchor DriverError → World → Prop) :
  0 <= base → pool_ok held refs base w → 0 < pool_refs w →
  (∀ r w', match r with Ok a => pool_ok held (anchor_event a :: refs) base w' | Err _ => pool_ok held refs base w' end → Q r w') →
  wp (anchor_take stream) w Q.
Proof.
  intros Hb Hok Hpos HQ. unfold anchor_take, try_bind. apply wp_bind. apply (wp_acquire held refs base); [done..|].
  intros [e|x] w1 Hp1 H1; [|by apply (HQ (Err x))]. apply wp_bind. apply (wp_record_or_release e stream held refs base); [done..|].
  intros [u|x] w2 H2; [|by apply (HQ (Err x))]. apply wp_bind. eapply wp_device_call; [exact H2|apply wait_event_law|].
  { eapply pool_alive; [exact H2|by left]. }
  intros [u'|x] w3 H3.
  2: { apply wp_bind. apply (wp_release e held refs base); [done..|]. intros w4 H4. by apply (HQ (Err x)). }
  apply wp_bind, wp_gets, wp_bind, wp_modify, wp_bind.
  assert (anchor_cells w3 !! next_cell w3 = None) as Hnew.
  { destruct (anchor_cells w3 !! next_cell w3) eqn:E; [|done]. pose proof (pool_fresh _ _ _ _ H3 _ (ex_intro _ _ E)). lia. }
  eapply (wp_device_call _ held (next_cell w3 :: refs) base); [|apply clock_law|intros now w4 H4; by apply (HQ (Ok _))].
  destruct H3 as [He Hn Hc Hz Hl Hf]. cbn [length] in Hc. split; cbn.
  - rewrite cells_insert by done. rewrite He. cbn. by rewrite <- !Permutation_middle.
  - done.
  - rewrite map_size_insert_None by done. lia.
  - done.
  - intros id. rewrite count_cons. destruct (decide (next_cell w3 = id)) as [<-|Hne].
    + rewrite lookup_insert_eq. specialize (Hl (next_cell w3)). rewrite Hnew in Hl. lia.
    + rewrite lookup_insert_ne by done. exact (Hl id).
  - intros id. destruct (decide (next_cell w3 = id)) as [<-|Hne]; [lia|]. rewrite lookup_insert_ne by done.
    intros Hi. specialize (Hf id Hi). lia.
Qed.
Lemma pool_cell held refs base w id : pool_ok held refs base w → id ∈ refs →
  ∃ e n, anchor_cells w !! id = Some (e, n) ∧ n = count refs id ∧ 0 < n.
Proof.
  intros Hok Hid. pose proof (pool_cells _ _ _ _ Hok id) as Hl. destruct (anchor_cells w !! id) as [[e n]|]; [by exists e, n|].
  exfalso. unfold count in Hl. assert (id ∈ filter (λ x, x = id) refs) as Hin by (apply list_elem_of_filter; done).
  destruct (filter _ refs); [by apply elem_of_nil in Hin|cbn in Hl; lia].
Qed.
Lemma wp_anchor_clone a held refs base w (Q : unit → World → Prop) :
  pool_ok held refs base w → anchor_event a ∈ refs →
  (∀ w', pool_refs w' = pool_refs w → pool_ok held (anchor_event a :: refs) base w' → Q tt w') → wp (anchor_clone a) w Q.
Proof.
  intros Hok Hid HQ. destruct (pool_cell _ _ _ _ _ Hok Hid) as (e & n & Hc & Hn & Hp). unfold anchor_clone. apply wp_bind, wp_gets.
  rewrite Hc. apply wp_modify, HQ; [done|]. destruct Hok as [He Hnd Hct Hz Hl Hf]. split; cbn.
  - by rewrite (cells_update _ _ e n).
  - done.
  - by rewrite map_size_insert_Some by (by eexists).
  - done.
  - intros id. rewrite count_cons. destruct (decide (anchor_event a = id)) as [<-|Hne].
    + rewrite lookup_insert_eq. lia.
    + rewrite lookup_insert_ne by done. exact (Hl id).
  - intros id. destruct (decide (anchor_event a = id)) as [<-|Hne]; [intros _; apply Hf; by eexists|]. by rewrite lookup_insert_ne by done; apply Hf.
Qed.
Lemma wp_anchor_drop a held refs base w (Q : unit → World → Prop) :
  0 <= base → pool_ok held (anchor_event a :: refs) base w → (∀ w', pool_ok held refs base w' → Q tt w') → wp (anchor_drop a) w Q.
Proof.
  intros Hb Hok HQ. destruct (pool_cell _ _ _ _ (anchor_event a) Hok) as (e & n & Hc & Hn & Hp); [by left|]. unfold anchor_drop.
  apply wp_bind, wp_gets. rewrite Hc. rewrite count_cons, decide_True in Hn by done. destruct Hok as [He Hnd Hct Hz Hl Hf].
  pose proof (count_nonneg refs (anchor_event a)) as Hge. assert (∀ id, anchor_event a ≠ id → count (anchor_event a :: refs) id = count refs id) as Hother.
  { intros id Hne. by rewrite count_cons, decide_False. }
  destruct (Z.eqb_spec n 1) as [->|Hn1].
  - apply wp_bind, wp_modify. apply (wp_release e held refs base); [done| |done]. pose proof (map_size_delete_Some (anchor_event a) (anchor_cells w) (ex_intro _ _ Hc)) as Hsize.
    split; cbn.
    + rewrite He, (cells_delete _ _ _ _ Hc). cbn. by rewrite <- !Permutation_middle.
    + done.
    + assert (size (anchor_cells w) ≠ 0%nat). { intros H0%map_size_empty_inv. by rewrite H0 in Hc. } lia.
    + done.
    + intros id. destruct (decide (anchor_event a = id)) as [<-|Hne]; [rewrite lookup_delete_eq; lia|].
      rewrite lookup_delete_ne by done. specialize (Hl id). by rewrite Hother in Hl.
    + intros id [x [_ Hx]%lookup_delete_Some]. apply Hf. by eexists.
  - apply wp_modify, HQ. split; cbn.
    + by rewrite (cells_update _ _ e n).
    + done.
    + by rewrite map_size_insert_Some by (by eexists).
    + done.
    + intros id. destruct (decide (anchor_event a = id)) as [<-|Hne]; [rewrite lookup_insert_eq; lia|].
      rewrite lookup_insert_ne by done. specialize (Hl id). by rewrite Hother in Hl.
    + intros id. destruct (decide (anchor_event a = id)) as [<-|Hne]; [intros _; apply Hf; by eexists|]. by rewrite lookup_insert_ne by done; apply Hf.
Qed.
Lemma wp_anchored a held refs base w (Q : Ev → World → Prop) :
  pool_ok held refs base w → anchor_event a ∈ refs → (∀ e, e ∈ alive (event_device w) → Q e w) → wp (anchored a) w Q.
Proof.
  intros Hok Hid HQ. destruct (pool_cell _ _ _ _ _ Hok Hid) as (e & n & Hc & _). unfold anchored. apply wp_bind, wp_gets. rewrite Hc.
  apply HQ. rewrite (pool_events _ _ _ _ Hok), !elem_of_app, (cells_delete _ _ _ _ Hc). right; right; left. by left.
Qed.
End ownership.
