(* ===== verification/Profiler.v ===== *)
(** * Profilers

    [cubecl-server/src/device_events/profiler.rs] and
    [cubecl-server/src/timestamp_profiler.rs]: windows timed by two events of
    the device, or by two instants of the host.  Closing a window of the device
    answers a read that its caller awaits or drops later, on its own time; both
    profilers keep the same promise of when a window answers, which is the
    class [Profiles].  Instants and durations are nanoseconds. *)

From S2P Require Export Events.
From stdpp Require Import list gmap strings.
#[local] Open Scope Z_scope.

(** ** Errors and ticks ([cubecl-runtime/src/server/base.rs], [cubecl-common/src/profile.rs]) *)
Inductive ProfileError :=
| ProfileUnknown (reason : string)
| ProfileNotRegistered
| ProfileNotMeasured
| ProfileLaunch (e : LaunchError)
| ProfileServer (e : ServerError).
Record ProfileTicks := mk_ProfileTicks { ticks_start : Z; ticks_end : Z }.
(** [Instant::duration_since] saturates. *)
Definition ticks_duration (t : ProfileTicks) : Z := sat_sub (ticks_end t) (ticks_start t).

Definition ANCHOR_MAX_AGE : Z := 1000000000.
Definition UNREADABLE : Z := 3600 * 1000000000.
Definition profile_error (e : DriverError) : ProfileError := ProfileServer (driver_error e).

(** ** [EventProfiler] *)
Record Open (Ev : Type) := mk_Open { open_start : Ev; open_anchor : Anchor }.
Arguments mk_Open {Ev}. Arguments open_start {Ev}. Arguments open_anchor {Ev}.
Record Anchoring (Sm : Type) := mk_Anchoring { anchoring_stream : Sm; anchoring_current : Anchor }.
Arguments mk_Anchoring {Sm}. Arguments anchoring_stream {Sm}. Arguments anchoring_current {Sm}.
Record EventProfiler (Ev Sm : Type) := mk_EventProfiler {
  open_windows : gmap Z (result (Open Ev) ProfileError);
  counter : Z;
  anchoring : option (Anchoring Sm);
}.
Arguments mk_EventProfiler {Ev Sm}. Arguments open_windows {Ev Sm}. Arguments counter {Ev Sm}. Arguments anchoring {Ev Sm}.
(** What the future of a closed window owns. *)
Record PendingProfile (Ev : Type) := mk_PendingProfile { pending_start : Ev; pending_end : Ev; pending_anchor : Anchor }.
Arguments mk_PendingProfile {Ev}. Arguments pending_start {Ev}. Arguments pending_end {Ev}. Arguments pending_anchor {Ev}.

Section profiler.
Context {D Ev Sm : Type} `{!EventApi D Ev Sm, !HostClock D}.
(** The order a hash map of windows is walked in. *)
Context (window_order : gmap Z (result (Open Ev) ProfileError) → list (result (Open Ev) ProfileError)).
Abbreviation World := (EventWorld D Ev).
Abbreviation Env := (EventProfiler Ev Sm * EventWorld D Ev)%type.
Definition on_world {A} (op : M World A) : M Env A := λ '(p, w), '(a, w) ← op w; Some (a, (p, w)).
Definition with_windows (m : gmap Z (result (Open Ev) ProfileError)) : M Env unit :=
  modify (λ '(p, w), (mk_EventProfiler m (counter p) (anchoring p), w)).
Definition with_anchoring (a : option (Anchoring Sm)) : M Env unit :=
  modify (λ '(p, w), (mk_EventProfiler (open_windows p) (counter p) a, w)).
Definition profiler_default : EventProfiler Ev Sm := mk_EventProfiler ∅ 0 None.
(** The pool of a new profiler. *)
Definition pool_default (d : D) : World := mk_EventWorld d [] 1 ∅ 0.

Definition drop_open (o : Open Ev) : M World unit := _ ← release (open_start o); anchor_drop (open_anchor o).
Definition drop_window (s : result (Open Ev) ProfileError) : M World unit :=
  match s with Ok o => drop_open o | Err _ => mret tt end.
Fixpoint drop_windows (l : list (result (Open Ev) ProfileError)) : M World unit :=
  match l with [] => mret tt | s :: l => _ ← drop_window s; drop_windows l end.

(** The stream is not released when the anchor cannot be taken. *)
Definition anchoring_new : M World (result (Anchoring Sm) DriverError) :=
  stream ←? on_device stream_create_non_blocking;
  current ←? anchor_take stream;
  mret (Ok (mk_Anchoring stream current)).
Definition profiler_anchoring : M Env (result (Anchoring Sm) DriverError) :=
  current ← gets (λ e : Env, anchoring e.1);
  match current with
  | Some a => mret (Ok a)
  | None => a ←? on_world anchoring_new; _ ← with_anchoring (Some a); mret (Ok a)
  end.
Definition refresh_anchor (a : Anchoring Sm) : M Env (result (Anchoring Sm) DriverError) :=
  now ← on_world (on_device instant_now);
  if ANCHOR_MAX_AGE <? sat_sub now (anchor_instant (anchoring_current a)) then
    fresh ←? on_world (anchor_take (anchoring_stream a));
    _ ← on_world (anchor_drop (anchoring_current a));
    let a := mk_Anchoring (anchoring_stream a) fresh in
    _ ← with_anchoring (Some a); mret (Ok a)
  else mret (Ok a).
Definition profiler_anchor : M Env (result Anchor DriverError) :=
  a ←? profiler_anchoring;
  a ←? refresh_anchor a;
  _ ← on_world (anchor_clone (anchoring_current a));
  mret (Ok (anchoring_current a)).

(** What is owned is dropped on the way out, the last binding first. *)
Definition unwind_open (o : Open Ev) : M World unit := _ ← anchor_drop (open_anchor o); release (open_start o).
Definition else_drop {A E} (drop : M World unit) (m : M World (result A E)) : M World (result A E) :=
  r ← m; match r with Ok a => mret (Ok a) | Err e => _ ← drop; mret (Err e) end.
Definition profiler_start (stream : Sm) : M Env (result Z ServerError) :=
  r ← (anchor ←? profiler_anchor;
       start ←? on_world (else_drop (anchor_drop anchor) acquire);
       _ ←? on_world (else_drop (anchor_drop anchor) (record_or_release start stream));
       token ← gets (λ e : Env, counter e.1);
       next ← lift (add_u64 token 1);
       old ← gets (λ e : Env, open_windows e.1 !! token);
       _ ← modify (λ e : Env, (mk_EventProfiler (<[token := Ok (mk_Open start anchor)]> (open_windows e.1)) next (anchoring e.1), e.2));
       _ ← on_world (match old with Some s => drop_window s | None => mret tt end);
       mret (Ok token));
  mret (match r with Ok token => Ok token | Err e => Err (driver_error e) end).
Definition profiler_stop (stream : Sm) (token : Z) : M Env (result (PendingProfile Ev) ProfileError) :=
  windows ← gets (λ e : Env, open_windows e.1);
  _ ← with_windows (delete token windows);
  match windows !! token with
  | None => mret (Err ProfileNotRegistered)
  | Some (Err e) => mret (Err e)
  | Some (Ok o) =>
      r ← on_world (end_ ←? else_drop (unwind_open o) acquire;
                    _ ←? else_drop (unwind_open o) (record_or_release end_ stream);
                    mret (Ok end_));
      mret (match r with
            | Ok end_ => Ok (mk_PendingProfile (open_start o) end_ (open_anchor o))
            | Err e => Err (profile_error e)
            end)
  end.
Definition profiler_abandon (token : Z) : M Env unit :=
  windows ← gets (λ e : Env, open_windows e.1);
  _ ← with_windows (delete token windows);
  on_world (match windows !! token with Some s => drop_window s | None => mret tt end).
Definition profiler_failure (error : ServerError) : M Env unit :=
  windows ← gets (λ e : Env, open_windows e.1);
  if bool_decide (windows = ∅) then mret tt
  else
    _ ← with_windows ((λ _, Err (ProfileServer error)) <$> windows);
    on_world (drop_windows (window_order windows)).
(** The fields are dropped in order; the stream of the anchors before them. *)
Definition profiler_drop (p : EventProfiler Ev Sm) : M World unit :=
  _ ← drop_windows (window_order (open_windows p));
  _ ← pool_drop;
  match anchoring p with
  | None => mret tt
  | Some a => _ ← on_device (stream_destroy (anchoring_stream a)); anchor_drop (anchoring_current a)
  end.

(** The future of [stop]: reading the window, and what it owns dropped. *)
Definition read (p : PendingProfile Ev) : M World (result ProfileTicks DriverError) :=
  _ ←? on_device (event_wait (pending_start p));
  _ ←? on_device (event_wait (pending_end p));
  event ← anchored (pending_anchor p);
  offset ←? on_device (event_elapsed event (pending_start p));
  span ←? on_device (event_elapsed (pending_start p) (pending_end p));
  let start := anchor_instant (pending_anchor p) + offset in
  mret (Ok (mk_ProfileTicks start (start + span))).
Definition drop_pending (p : PendingProfile Ev) : M World unit :=
  _ ← release (pending_start p); _ ← release (pending_end p); anchor_drop (pending_anchor p).
Definition await_profile (p : PendingProfile Ev) : M World ProfileTicks :=
  r ← read p;
  ticks ← (match r with
           | Ok ticks => mret ticks
           | Err _ => now ← on_device instant_now; mret (mk_ProfileTicks now (now + UNREADABLE))
           end);
  _ ← drop_pending p;
  mret ticks.
End profiler.

(** ** [TimestampProfiler] *)
Record TimestampProfiler := mk_TimestampProfiler {
  timestamp_state : gmap Z (result Z ProfileError);
  timestamp_counter : Z;
}.
Section timestamps.
Context {D : Type} `{!HostClock D}.
Abbreviation Env := (TimestampProfiler * D)%type.
Definition clock : M Env Z := λ '(p, d), '(now, d) ← instant_now d; Some (now, (p, d)).
Definition timestamp_default : TimestampProfiler := mk_TimestampProfiler ∅ 0.
Definition timestamp_is_empty (p : TimestampProfiler) : bool := bool_decide (timestamp_state p = ∅).
Definition timestamp_start : M Env Z :=
  '(p, _) ← get;
  next ← lift (add_u64 (timestamp_counter p) 1);
  now ← clock;
  _ ← modify (λ e : Env, (mk_TimestampProfiler (<[timestamp_counter p := Ok now]> (timestamp_state p)) next, e.2));
  mret (timestamp_counter p).
Definition timestamp_stop (token : Z) : M Env (result ProfileTicks ProfileError) :=
  '(p, _) ← get;
  _ ← modify (λ e : Env, (mk_TimestampProfiler (delete token (timestamp_state p)) (timestamp_counter p), e.2));
  match timestamp_state p !! token with
  | Some (Ok start) => now ← clock; mret (Ok (mk_ProfileTicks start now))
  | Some (Err e) => mret (Err e)
  | None => mret (Err ProfileNotRegistered)
  end.
Definition timestamp_abandon (token : Z) : M Env unit :=
  modify (λ '(p, d), (mk_TimestampProfiler (delete token (timestamp_state p)) (timestamp_counter p), d)).
Definition timestamp_error (e : ProfileError) : M Env unit :=
  modify (λ '(p, d), (mk_TimestampProfiler ((λ _, Err e) <$> timestamp_state p) (timestamp_counter p), d)).
Definition timestamp_failure (error : ServerError) : M Env unit :=
  '(p, _) ← get; if timestamp_is_empty p then mret tt else timestamp_error (ProfileServer error).
End timestamps.

(** ** Who holds the events of a profiler *)
Definition open_list {Ev} (m : gmap Z (result (Open Ev) ProfileError)) : list (Open Ev) :=
  omap (λ s : result (Open Ev) ProfileError, match s with Ok o => Some o | Err _ => None end) (map_to_list m).*2.
Definition pending_events {Ev} (l : list (PendingProfile Ev)) : list Ev :=
  l ≫= λ p, [pending_start p; pending_end p].
Definition window_events {Ev} (m : gmap Z (result (Open Ev) ProfileError)) : list Ev := open_start <$> open_list m.
Definition window_anchors {Ev} (m : gmap Z (result (Open Ev) ProfileError)) : list Z :=
  (λ o, anchor_event (open_anchor o)) <$> open_list m.
Definition anchoring_cell {Sm} (a : option (Anchoring Sm)) : list Z :=
  match a with Some a => [anchor_event (anchoring_current a)] | None => [] end.

Section held.
Context {D Ev Sm : Type} `{EventLaws D Ev Sm} (other : list Ev).
Context (window_order : gmap Z (result (Open Ev) ProfileError) → list (result (Open Ev) ProfileError)).
Context (window_order_perm : ∀ m, window_order m ≡ₚ (map_to_list m).*2).
Abbreviation World := (EventWorld D Ev).
Abbreviation Env := (EventProfiler Ev Sm * EventWorld D Ev)%type.
(** [held] and [refs] are what others hold: the reads under way and what an
    operation keeps in its variables. *)
Definition env_ok (held : list Ev) (refs : list Z) (e : Env) : Prop :=
  pool_ok other (window_events (open_windows e.1) ++ held) (window_anchors (open_windows e.1) ++ anchoring_cell (anchoring e.1) ++ refs) 1 e.2.

Lemma open_list_insert (m : gmap Z (result (Open Ev) ProfileError)) t s : m !! t = None →
  open_list (<[t := s]> m) ≡ₚ (match s with Ok o => [o] | Err _ => [] end) ++ open_list m.
Proof. intros Hn. unfold open_list. rewrite map_to_list_insert by done. by destruct s. Qed.
Lemma open_list_delete (m : gmap Z (result (Open Ev) ProfileError)) t s : m !! t = Some s →
  open_list m ≡ₚ (match s with Ok o => [o] | Err _ => [] end) ++ open_list (delete t m).
Proof. intros Hs. by rewrite <- open_list_insert, insert_delete_id by (done || apply lookup_delete_eq). Qed.
Lemma open_list_failed (m : gmap Z (result (Open Ev) ProfileError)) e : open_list ((λ _, Err e) <$> m : gmap Z (result (Open Ev) ProfileError)) = [].
Proof. unfold open_list. rewrite map_to_list_fmap. induction (map_to_list m) as [|[k s] l IH]; [done|]. exact IH. Qed.
Definition starts_of (l : list (result (Open Ev) ProfileError)) : list (Open Ev) :=
  omap (λ s : result (Open Ev) ProfileError, match s with Ok o => Some o | Err _ => None end) l.
Lemma starts_order m : starts_of (window_order m) ≡ₚ open_list m.
Proof. unfold starts_of, open_list. by rewrite window_order_perm. Qed.
Lemma env_refs held refs e : env_ok held refs e → 0 < pool_refs e.2.
Proof. intros Hok. eapply (pool_nonneg other); [|exact Hok|]; [lia|]. right. lia. Qed.
Lemma wp_on_world {A} (op : M World A) p w (Q : A → Env → Prop) : wp op w (λ a w', Q a (p, w')) → wp (on_world op) (p, w) Q.
Proof. intros (a & w' & Hop & HQ)%wp_spec. apply wp_spec. exists a, (p, w'). unfold on_world. by rewrite Hop. Qed.
Lemma wp_drop_open o held refs base w (Q : unit → World → Prop) : 0 <= base →
  pool_ok other (open_start o :: held) (anchor_event (open_anchor o) :: refs) base w →
  (∀ w', pool_ok other held refs base w' → Q tt w') → wp (drop_open o) w Q.
Proof.
  intros Hb Hok HQ. unfold drop_open. apply wp_bind. eapply (wp_release other); [done|exact Hok|]. intros w' Hw'.
  by eapply (wp_anchor_drop other).
Qed.
Lemma wp_unwind_open o held refs base w (Q : unit → World → Prop) : 0 <= base →
  pool_ok other (open_start o :: held) (anchor_event (open_anchor o) :: refs) base w →
  (∀ w', pool_ok other held refs base w' → Q tt w') → wp (unwind_open o) w Q.
Proof.
  intros Hb Hok HQ. unfold unwind_open. apply wp_bind. eapply (wp_anchor_drop other); [done|exact Hok|]. intros w' Hw'.
  by eapply (wp_release other).
Qed.
Lemma wp_drop_windows l held refs base w (Q : unit → World → Prop) : 0 <= base →
  pool_ok other ((open_start <$> starts_of l) ++ held) (((λ o, anchor_event (open_anchor o)) <$> starts_of l) ++ refs) base w →
  (∀ w', pool_ok other held refs base w' → Q tt w') → wp (drop_windows l) w Q.
Proof.
  intros Hb. revert w. induction l as [|[o|x] l IH]; intros w Hok HQ; cbn [drop_windows]; [by apply HQ| |].
  - apply wp_bind. eapply wp_drop_open; [done|exact Hok|]. intros w' Hw'. by apply IH.
  - apply wp_bind, wp_ret. by apply IH.
Qed.
Lemma wp_anchoring_new held refs base w (Q : result (Anchoring Sm) DriverError → World → Prop) :
  0 <= base → pool_ok other held refs base w → 0 < pool_refs w →
  (∀ r w', match r with Ok a => pool_ok other held (anchor_event (anchoring_current a) :: refs) base w' | Err _ => pool_ok other held refs base w' end → Q r w') →
  wp anchoring_new w Q.
Proof.
  intros Hb Hok Hpos HQ. unfold anchoring_new, try_bind. apply wp_bind.
  assert (0 < base + Z.of_nat (length held) + Z.of_nat (size (anchor_cells w))) as Hpos' by (by rewrite <- (pool_count _ _ _ _ _ Hok)).
  pose proof (make_stream_law (event_device w)) as (r & d & Hop & Hd)%wp_spec. apply wp_spec. exists r, (with_event_device d w).
  unfold on_device. rewrite Hop. split; [done|].
  assert (pool_ok other held refs base (with_event_device d w)) as Hok'.
  { destruct Hok as [He Hn Hc Hz Hl Hf]. split; cbn; try done; by rewrite Hd. }
  destruct r as [stream|x]; [|by apply (HQ (Err x))]. apply wp_bind. apply (wp_anchor_take other stream held refs base); [done..|].
  intros [a|x] w' Hw'; [by apply (HQ (Ok _))|by apply (HQ (Err x))].
Qed.

(** ** What each operation holds afterwards *)
Definition same_windows (e e' : Env) : Prop := open_windows e'.1 = open_windows e.1 ∧ counter e'.1 = counter e.1.
Lemma env_ok_perm held held' refs refs' e : held ≡ₚ held' → refs ≡ₚ refs' → env_ok held refs e → env_ok held' refs' e.
Proof. intros Hh Hr. apply (pool_ok_perm other); [by rewrite Hh|by rewrite Hr]. Qed.
Lemma wp_profiler_anchoring held refs e (Q : result (Anchoring Sm) DriverError → Env → Prop) :
  env_ok held refs e →
  (∀ r e', same_windows e e' → env_ok held refs e' → (∀ a, r = Ok a → anchoring e'.1 = Some a) → Q r e') → wp profiler_anchoring e Q.
Proof.
  intros Hok HQ. pose proof (env_refs _ _ _ Hok) as Hpos. unfold profiler_anchoring. apply wp_bind, wp_gets. destruct e as [p w].
  destruct p as [m c [a|]]; cbn.
  { apply (HQ (Ok a) (_, w)); [by split|done|]. by intros ? [= <-]. }
  unfold try_bind. apply wp_bind, wp_on_world. eapply (wp_anchoring_new); [|exact Hok|done|]; [lia|].
  intros [a|x] w' Hw'.
  - apply wp_bind, wp_modify. apply (HQ (Ok a)); [by split| |by intros ? [= <-]]. unfold env_ok. cbn.
    by eapply (pool_ok_perm other); [reflexivity| |exact Hw']; cbn; rewrite Permutation_middle.
  - apply (HQ (Err x)); [by split|exact Hw'|done].
Qed.
Lemma wp_refresh_anchor a held refs e (Q : result (Anchoring Sm) DriverError → Env → Prop) :
  env_ok held refs e → anchoring e.1 = Some a →
  (∀ r e', same_windows e e' → env_ok held refs e' → (∀ a, r = Ok a → anchoring e'.1 = Some a) → Q r e') → wp (refresh_anchor a) e Q.
Proof.
  intros Hok Ha HQ. unfold refresh_anchor. destruct e as [[m c b] w]. cbn in Ha. subst b. unfold env_ok in Hok. cbn in Hok.
  apply wp_bind, wp_on_world. eapply (wp_device_call other); [exact Hok|apply clock_law|]. intros now w1 H1. cbn.
  destruct (ANCHOR_MAX_AGE <? _); [|by apply (HQ (Ok a) (_, w1)); [by split|exact H1|intros ? [= <-]]].
  unfold try_bind. apply wp_bind, wp_on_world. eapply (wp_anchor_take other); [|exact H1|by eapply (env_refs held refs (mk_EventProfiler m c (Some a), w1))|]; [lia|].
  intros [fresh|x] w2 H2; [|by apply (HQ (Err x) (_, w2))]. apply wp_bind, wp_on_world.
  eapply (wp_anchor_drop other (anchoring_current a) _ (window_anchors m ++ anchor_event fresh :: refs) 1); [lia| |].
  { eapply (pool_ok_perm other); [reflexivity| |exact H2]. rewrite <- !Permutation_middle. apply perm_swap. }
  intros w3 H3. apply wp_bind, wp_modify. apply (HQ (Ok _)); [by split|exact H3|by intros ? [= <-]].
Qed.
Lemma wp_profiler_anchor held refs e (Q : result Anchor DriverError → Env → Prop) :
  env_ok held refs e →
  (∀ r e', same_windows e e' → match r with Ok a => env_ok held (anchor_event a :: refs) e' | Err _ => env_ok held refs e' end → Q r e') →
  wp profiler_anchor e Q.
Proof.
  intros Hok HQ. unfold profiler_anchor, try_bind. apply wp_bind, (wp_profiler_anchoring held refs); [done|].
  intros [a|x] e1 [S1 C1] H1 A1; [|by apply (HQ (Err x))]. apply wp_bind, (wp_refresh_anchor _ held refs); [done|by apply A1|].
  intros [a'|x] e2 [S2 C2] H2 A2; [|apply (HQ (Err x)); [split; congruence|done]]. specialize (A2 a' eq_refl). destruct e2 as [[m c b] w].
  cbn in A2. subst b. apply wp_bind, wp_on_world. eapply (wp_anchor_clone other); [exact H2|rewrite elem_of_app; right; by left|].
  intros w' _ Hw'. apply (HQ (Ok _)); [split; cbn in *; congruence|]. unfold env_ok. cbn.
  eapply (pool_ok_perm other); [reflexivity| |exact Hw']. cbn. by rewrite <- !Permutation_middle.
Qed.
Lemma wp_profiler_start stream held refs e (Q : result Z ServerError → Env → Prop) :
  env_ok held refs e → counter e.1 < u64_max → open_windows e.1 !! counter e.1 = None →
  (∀ r e', env_ok held refs e' →
    match r with
    | Ok t => t = counter e.1 ∧ counter e'.1 = t + 1 ∧ ∃ o, open_windows e'.1 = <[t := Ok o]> (open_windows e.1)
    | Err _ => same_windows e e'
    end → Q r e') → wp (profiler_start stream) e Q.
Proof.
  intros Hok Hc Hn HQ. unfold profiler_start, try_bind. apply wp_bind, wp_bind, (wp_profiler_anchor held refs); [done|].
  intros [a|x] e1 S1 H1; [|by apply (HQ (Err _))]. pose proof (env_refs _ _ _ H1) as Hpos. destruct e1 as [[m c b] w1], S1 as [Hm Hc1]. cbn in Hm, Hc1, Hpos. subst m c.
  apply wp_bind, wp_on_world. unfold else_drop. apply wp_bind. eapply (wp_acquire other); [|exact H1|done|]; [lia|]. intros [start|x] w2 _ H2.
  2: { apply wp_bind. eapply (wp_anchor_drop other a _ (window_anchors (open_windows e.1) ++ anchoring_cell b ++ refs) 1); [lia| |].
       - eapply (pool_ok_perm other); [reflexivity| |exact H2]. cbn. by rewrite <- !Permutation_middle.
       - intros w3 H3. by apply (HQ (Err _)). }
  apply wp_bind, wp_on_world, wp_bind. eapply (wp_record_or_release other start); [|exact H2|]; [lia|]. intros [u|x] w3 H3.
  2: { apply wp_bind. eapply (wp_anchor_drop other a _ (window_anchors (open_windows e.1) ++ anchoring_cell b ++ refs) 1); [lia| |].
       - eapply (pool_ok_perm other); [reflexivity| |exact H3]. cbn. by rewrite <- !Permutation_middle.
       - intros w4 H4. by apply (HQ (Err _)). }
  apply wp_bind, wp_gets. cbn. apply wp_bind. eapply wp_lift; [apply add_u64_Some; lia|]. apply wp_bind, wp_gets. cbn.
  rewrite Hn. apply wp_bind, wp_modify. cbn. apply wp_bind, wp_on_world, wp_ret. apply (HQ (Ok _)).
  - unfold env_ok in *. cbn in *. unfold window_events, window_anchors. eapply (pool_ok_perm other); [| |exact H3]; cbn.
    + by rewrite (open_list_insert (open_windows e.1) (counter e.1) (Ok (mk_Open start a)) Hn).
    + rewrite (open_list_insert (open_windows e.1) (counter e.1) (Ok (mk_Open start a)) Hn). cbn. by rewrite <- !Permutation_middle.
  - cbn. eauto.
Qed.
Lemma take_window held refs e t (s : result (Open Ev) ProfileError) (Q : unit → Env → Prop) :
  env_ok held refs e → open_windows e.1 !! t = Some s →
  (∀ e', open_windows e'.1 = delete t (open_windows e.1) → counter e'.1 = counter e.1 →
    match s with Ok o => env_ok (open_start o :: held) (anchor_event (open_anchor o) :: refs) e' | Err _ => env_ok held refs e' end → Q tt e') →
  wp (with_windows (delete t (open_windows e.1))) e Q.
Proof.
  intros Hok Hs HQ. destruct e as [[m c b] w]. apply wp_modify, HQ; [done..|]. unfold env_ok in *. cbn in *. unfold window_events, window_anchors in *.
  pose proof (open_list_delete m t s Hs) as Hd. destruct s as [o|x]; cbn in Hd.
  - eapply (pool_ok_perm other); [| |exact Hok]; rewrite Hd; cbn; by rewrite <- !Permutation_middle.
  - eapply (pool_ok_perm other); [| |exact Hok]; by rewrite Hd.
Qed.
Lemma wp_profiler_stop stream t held refs e (Q : result (PendingProfile Ev) ProfileError → Env → Prop) :
  env_ok held refs e →
  (∀ r e', open_windows e'.1 = delete t (open_windows e.1) → counter e'.1 = counter e.1 →
    match r with
    | Ok p => env_ok (pending_start p :: pending_end p :: held) (anchor_event (pending_anchor p) :: refs) e'
    | Err _ => env_ok held refs e'
    end →
    match open_windows e.1 !! t with
    | None => r = Err ProfileNotRegistered
    | Some (Err x) => r = Err x
    | Some (Ok _) => match r with Ok _ => True | Err x => ∃ x', x = profile_error x' end
    end → Q r e') → wp (profiler_stop stream t) e Q.
Proof.
  intros Hok HQ. unfold profiler_stop. apply wp_bind, wp_gets. destruct (open_windows e.1 !! t) as [s|] eqn:Hs.
  2: { apply wp_bind. destruct e as [[m c b] w]. apply wp_modify, wp_ret, HQ; [done..| |done]. cbn in *. by rewrite delete_id. }
  apply wp_bind. eapply take_window; [exact Hok|exact Hs|]. intros e1 S1 C1 H1. destruct s as [o|x]; [|by apply HQ].
  pose proof (env_refs _ _ _ H1) as Hpos. destruct e1 as [p1 w1]. unfold try_bind, else_drop. apply wp_bind, wp_on_world, wp_bind, wp_bind.
  assert (∀ e x w', pool_ok other ((window_events (open_windows p1) ++ open_start o :: held))
      (window_anchors (open_windows p1) ++ anchoring_cell (anchoring p1) ++ anchor_event (open_anchor o) :: refs) 1 w' →
    e = Err (profile_error x) → wp (unwind_open o) w' (λ _ w2, Q e (p1, w2))) as Hback.
  { intros e0 x w' Hw' ->.
    apply (wp_unwind_open o (window_events (open_windows p1) ++ held) (window_anchors (open_windows p1) ++ anchoring_cell (anchoring p1) ++ refs) 1);
      [lia| |intros w2 H2; apply HQ; [done|done|exact H2|by eexists]].
    eapply (pool_ok_perm other); [| |exact Hw']; by rewrite <- ?Permutation_middle. }
  eapply (wp_acquire other); [|exact H1|done|]; [lia|]. intros [end_|x] w2 _ H2.
  2: { apply wp_bind. eapply wp_mono; [by apply (Hback (Err (profile_error x)) x)|]. done. }
  apply wp_ret, wp_bind, wp_bind. eapply (wp_record_or_release other end_); [|exact H2|]; [lia|]. intros [u|x] w3 H3.
  2: { apply wp_bind. eapply wp_mono; [by apply (Hback (Err (profile_error x)) x)|]. done. }
  apply wp_ret, wp_ret, wp_ret, HQ; [done|done| |done]. eapply env_ok_perm; [| |]; [| |]. 3: {
    unfold env_ok. eapply (pool_ok_perm other); [|reflexivity|exact H3]. instantiate (1 := end_ :: open_start o :: held). cbn. by rewrite <- !Permutation_middle. }
  - cbn. apply perm_swap.
  - done.
Qed.
Lemma wp_profiler_abandon t held refs e (Q : unit → Env → Prop) :
  env_ok held refs e →
  (∀ e', open_windows e'.1 = delete t (open_windows e.1) → counter e'.1 = counter e.1 → env_ok held refs e' → Q tt e') →
  wp (profiler_abandon t) e Q.
Proof.
  intros Hok HQ. unfold profiler_abandon. apply wp_bind, wp_gets. destruct (open_windows e.1 !! t) as [s|] eqn:Hs.
  2: { apply wp_bind. destruct e as [[m c b] w]. apply wp_modify, wp_on_world, wp_ret, HQ; [done..|]. cbn in *. by rewrite delete_id. }
  apply wp_bind. eapply take_window; [exact Hok|exact Hs|]. intros [p1 w1] S1 C1 H1. apply wp_on_world. destruct s as [o|x]; [|by apply wp_ret, HQ].
  apply (wp_drop_open o (window_events (open_windows p1) ++ held) (window_anchors (open_windows p1) ++ anchoring_cell (anchoring p1) ++ refs) 1);
    [lia| |intros w2 H2; by apply HQ; [..|exact H2]].
  eapply (pool_ok_perm other); [| |exact H1]; by rewrite <- ?Permutation_middle.
Qed.
Lemma wp_drop_all held refs base m w (Q : unit → World → Prop) : 0 <= base →
  pool_ok other (window_events m ++ held) (window_anchors m ++ refs) base w →
  (∀ w', pool_ok other held refs base w' → Q tt w') → wp (drop_windows (window_order m)) w Q.
Proof.
  intros Hb Hok HQ. eapply (wp_drop_windows _ held refs base); [done| |done]. eapply (pool_ok_perm other); [| |exact Hok].
  - by rewrite (starts_order m).
  - by rewrite (starts_order m).
Qed.
Lemma wp_profiler_failure x held refs e (Q : unit → Env → Prop) :
  env_ok held refs e →
  (∀ e', open_windows e'.1 = (λ _, Err (ProfileServer x)) <$> open_windows e.1 → counter e'.1 = counter e.1 → env_ok held refs e' → Q tt e') →
  wp (profiler_failure window_order x) e Q.
Proof.
  intros Hok HQ. unfold profiler_failure. apply wp_bind, wp_gets. case_bool_decide as Hm.
  { apply wp_ret, HQ; [by rewrite Hm, fmap_empty|done|done]. }
  apply wp_bind. destruct e as [[m c b] w]. apply wp_modify, wp_on_world.
  eapply (wp_drop_all held (anchoring_cell b ++ refs) 1 m); [lia|exact Hok|]. intros w' Hw'. apply HQ; [done|done|].
  unfold env_ok, window_events, window_anchors. cbn. by rewrite open_list_failed.
Qed.
Lemma wp_profiler_drop held refs p w (Q : unit → World → Prop) :
  env_ok held refs (p, w) → (∀ w', pool_ok other held refs 0 w' → Q tt w') → wp (profiler_drop window_order p) w Q.
Proof.
  intros Hok HQ. unfold profiler_drop. apply wp_bind. eapply wp_drop_all; [|exact Hok|]; [lia|]. cbn. intros w1 H1. apply wp_bind.
  eapply (wp_pool_drop other _ _ 0); [lia|exact H1|]. intros w2 H2. destruct (anchoring p) as [a|]; [|by apply HQ].
  apply wp_bind. eapply (wp_device_call other); [exact H2|apply drop_stream_law|]. intros r w3 H3.
  eapply (wp_anchor_drop other); [|exact H3|done]; lia.
Qed.
Lemma wp_drop_pending p held refs base w (Q : unit → World → Prop) : 0 <= base →
  pool_ok other (pending_start p :: pending_end p :: held) (anchor_event (pending_anchor p) :: refs) base w →
  (∀ w', pool_ok other held refs base w' → Q tt w') → wp (drop_pending p) w Q.
Proof.
  intros Hb Hok HQ. unfold drop_pending. apply wp_bind. eapply (wp_release other); [done|exact Hok|]. intros w1 H1.
  apply wp_bind. eapply (wp_release other); [done|exact H1|]. intros w2 H2. by eapply (wp_anchor_drop other).
Qed.
Lemma wp_read p held refs base w (Q : result ProfileTicks DriverError → World → Prop) :
  pool_ok other (pending_start p :: pending_end p :: held) (anchor_event (pending_anchor p) :: refs) base w →
  (∀ r w', pool_ok other (pending_start p :: pending_end p :: held) (anchor_event (pending_anchor p) :: refs) base w' → Q r w') →
  wp (read p) w Q.
Proof.
  intros Hok HQ. unfold read, try_bind.
  assert (∀ w', pool_ok other (pending_start p :: pending_end p :: held) (anchor_event (pending_anchor p) :: refs) base w' →
    pending_start p ∈ alive (event_device w') ∧ pending_end p ∈ alive (event_device w')) as Hlive.
  { intros w' Hw'. split; eapply pool_alive; [exact Hw'|by left|exact Hw'|right; by left]. }
  apply wp_bind. eapply (wp_device_call other); [exact Hok|by apply wait_event_law, Hlive|]. intros [u|x] w1 H1; [|by apply (HQ (Err x))].
  apply wp_bind. eapply (wp_device_call other); [exact H1|by apply wait_event_law, Hlive|]. intros [u2|x] w2 H2; [|by apply (HQ (Err x))].
  apply wp_bind. eapply (wp_anchored other); [exact H2|by left|]. intros ev Hev.
  apply wp_bind. eapply (wp_device_call other); [exact H2|by apply elapsed_law; [|apply Hlive]|]. intros [off|x] w3 H3; [|by apply (HQ (Err x))].
  apply wp_bind. eapply (wp_device_call other); [exact H3|by apply elapsed_law; apply Hlive|]. intros [span|x] w4 H4; [by apply (HQ (Ok _))|by apply (HQ (Err x))].
Qed.
Lemma wp_await_profile p held refs base w (Q : ProfileTicks → World → Prop) : 0 <= base →
  pool_ok other (pending_start p :: pending_end p :: held) (anchor_event (pending_anchor p) :: refs) base w →
  (∀ t w', pool_ok other held refs base w' → Q t w') → wp (await_profile p) w Q.
Proof.
  intros Hb Hok HQ. unfold await_profile. apply wp_bind. eapply wp_read; [exact Hok|]. intros r w1 H1. apply wp_bind. destruct r as [t|x].
  - apply wp_ret, wp_bind. eapply wp_drop_pending; [done|exact H1|]. intros w2 H2. by apply HQ.
  - apply wp_bind. eapply (wp_device_call other); [exact H1|apply clock_law|]. intros now w2 H2.
    apply wp_ret, wp_bind. eapply wp_drop_pending; [done|exact H2|]. intros w3 H3. by apply HQ.
Qed.
End held.

(** ** A profiler and the reads under way

    Reads are awaited or dropped in any order, also after the profiler. *)
Inductive ProfilerCall (Sm : Type) :=
| CallStart (stream : Sm) | CallStop (stream : Sm) (token : Z) | CallAbandon (token : Z) | CallFailure (error : ServerError)
| CallAwait (read : nat) | CallForget (read : nat) | CallDrop.
Arguments CallStart {Sm}. Arguments CallStop {Sm}. Arguments CallAbandon {Sm}. Arguments CallFailure {Sm}.
Arguments CallAwait {Sm}. Arguments CallForget {Sm}. Arguments CallDrop {Sm}.
Record ProfilerSystem (D Ev Sm : Type) := mk_ProfilerSystem {
  profiling : option (EventProfiler Ev Sm);
  event_world : EventWorld D Ev;
  reads : list (PendingProfile Ev);
}.
Arguments mk_ProfilerSystem {D Ev Sm}. Arguments profiling {D Ev Sm}. Arguments event_world {D Ev Sm}. Arguments reads {D Ev Sm}.

Section system.
Context {D Ev Sm : Type} `{EventLaws D Ev Sm}.
Context (window_order : gmap Z (result (Open Ev) ProfileError) → list (result (Open Ev) ProfileError)).
Context (window_order_perm : ∀ m, window_order m ≡ₚ (map_to_list m).*2).
Abbreviation System := (ProfilerSystem D Ev Sm).
Definition system_new (d : D) : System := mk_ProfilerSystem (Some profiler_default) (pool_default d) [].
(** A call on a profiler that was dropped does nothing. *)
Definition on_profiler {A} (op : M (EventProfiler Ev Sm * EventWorld D Ev) A) (k : A → System → System) : M System unit := λ s,
  match profiling s with
  | None => Some (tt, s)
  | Some p => '(a, (p, w)) ← op (p, event_world s); Some (tt, k a (mk_ProfilerSystem (Some p) w (reads s)))
  end.
Definition on_events {A} (op : M (EventWorld D Ev) A) : M System A := λ s,
  '(a, w) ← op (event_world s); Some (a, mk_ProfilerSystem (profiling s) w (reads s)).
Definition take_read {A} (n : nat) (op : PendingProfile Ev → M (EventWorld D Ev) A) : M System unit :=
  s ← get;
  match reads s !! n with
  | None => mret tt
  | Some p => _ ← put (mk_ProfilerSystem (profiling s) (event_world s) (delete n (reads s))); _ ← on_events (op p); mret tt
  end.
Definition run_call (call : ProfilerCall Sm) : M System unit :=
  match call with
  | CallStart stream => on_profiler (profiler_start stream) (λ _ s, s)
  | CallStop stream token => on_profiler (profiler_stop stream token) (λ r s,
      match r with Ok p => mk_ProfilerSystem (profiling s) (event_world s) (p :: reads s) | Err _ => s end)
  | CallAbandon token => on_profiler (profiler_abandon token) (λ _ s, s)
  | CallFailure error => on_profiler (profiler_failure window_order error) (λ _ s, s)
  | CallAwait n => take_read n await_profile
  | CallForget n => take_read n drop_pending
  | CallDrop =>
      s ← get;
      match profiling s with
      | None => mret tt
      | Some p => _ ← put (mk_ProfilerSystem None (event_world s) (reads s)); on_events (profiler_drop window_order p)
      end
  end.
Fixpoint run_calls (calls : list (ProfilerCall Sm)) : M System unit :=
  match calls with [] => mret tt | call :: calls => _ ← run_call call; run_calls calls end.

(** Everything the system owns. *)
Definition system_windows (s : System) : list Ev := match profiling s with Some p => window_events (open_windows p) | None => [] end.
Definition pending_cells (l : list (PendingProfile Ev)) : list Z := (λ p, anchor_event (pending_anchor p)) <$> l.
Definition owned_events (s : System) : list Ev :=
  free_events (event_world s) ++ system_windows s ++ pending_events (reads s) ++ cell_events (anchor_cells (event_world s)).
Definition tokens_ok (p : EventProfiler Ev Sm) : Prop := ∀ t, is_Some (open_windows p !! t) → t < counter p.
Definition system_ok (other : list Ev) (n : Z) (s : System) : Prop :=
  match profiling s with
  | Some p => env_ok other (pending_events (reads s)) (pending_cells (reads s)) (p, event_world s) ∧ tokens_ok p ∧ counter p + n <= u64_max
  | None => pool_ok other (pending_events (reads s)) (pending_cells (reads s)) 0 (event_world s)
  end.
Lemma tokens_fresh p : tokens_ok p → open_windows p !! counter p = None.
Proof. intros Ht. destruct (open_windows p !! counter p) eqn:E; [|done]. specialize (Ht _ (ex_intro _ _ E)). lia. Qed.
Lemma tokens_start p p' t o : tokens_ok p → t = counter p → counter p' = t + 1 → open_windows p' = <[t := Ok o]> (open_windows p) → tokens_ok p'.
Proof.
  intros Ht -> Hc Ho t' Ht'. rewrite Ho in Ht'. rewrite Hc. destruct (decide (counter p = t')) as [<-|Hne]; [lia|].
  rewrite lookup_insert_ne in Ht' by done. specialize (Ht t' Ht'). lia.
Qed.
Lemma tokens_delete p p' t : tokens_ok p → counter p' = counter p → open_windows p' = delete t (open_windows p) → tokens_ok p'.
Proof. intros Ht Hc Ho t' [s Hs]. rewrite Ho in Hs. apply lookup_delete_Some in Hs as [_ Hs]. rewrite Hc. apply Ht. by eexists. Qed.
Lemma tokens_failed p p' e : tokens_ok p → counter p' = counter p → open_windows p' = (λ _, Err e) <$> open_windows p → tokens_ok p'.
Proof. intros Ht Hc Ho t' Hs. rewrite Ho in Hs. rewrite lookup_fmap, fmap_is_Some in Hs. rewrite Hc. by apply Ht. Qed.
Lemma wp_on_profiler {A} (op : M (EventProfiler Ev Sm * EventWorld D Ev) A) k p w l (Q : unit → System → Prop) :
  wp op (p, w) (λ a e, Q tt (k a (mk_ProfilerSystem (Some e.1) e.2 l))) → wp (on_profiler op k) (mk_ProfilerSystem (Some p) w l) Q.
Proof. intros (a & [p' w'] & Hop & HQ)%wp_spec. apply wp_spec. eexists _, _. unfold on_profiler. cbn. rewrite Hop. by split. Qed.
Lemma wp_on_events {A} (op : M (EventWorld D Ev) A) p w l (Q : A → System → Prop) :
  wp op w (λ a w', Q a (mk_ProfilerSystem p w' l)) → wp (on_events op) (mk_ProfilerSystem p w l) Q.
Proof. intros (a & w' & Hop & HQ)%wp_spec. apply wp_spec. eexists _, _. unfold on_events. cbn. rewrite Hop. by split. Qed.
Lemma delete_reads (l : list (PendingProfile Ev)) n p : l !! n = Some p →
  pending_events l ≡ₚ pending_start p :: pending_end p :: pending_events (delete n l) ∧
  pending_cells l ≡ₚ anchor_event (pending_anchor p) :: pending_cells (delete n l).
Proof.
  intros Hp. unfold pending_events, pending_cells. pose proof (delete_Permutation l n p Hp) as Hd. split.
  - rewrite Hd at 1. done.
  - rewrite Hd at 1. done.
Qed.
Lemma wp_take_read {A} n (op : PendingProfile Ev → M (EventWorld D Ev) A) other m s :
  (∀ p held refs base w (Q : A → EventWorld D Ev → Prop), 0 <= base →
    pool_ok other (pending_start p :: pending_end p :: held) (anchor_event (pending_anchor p) :: refs) base w →
    (∀ a w', pool_ok other held refs base w' → Q a w') → wp (op p) w Q) →
  system_ok other m s → wp (take_read n op) s (λ _ s', system_ok other m s').
Proof.
  intros Hop Hs. unfold take_read. apply wp_bind. cbn. destruct (reads s !! n) as [p|] eqn:Hp; [|by apply wp_ret].
  apply wp_bind. cbn. destruct (delete_reads _ _ _ Hp) as [He Hc]. apply wp_bind, wp_on_events. destruct s as [[q|] w l]; cbn in *.
  - destruct Hs as (Hok & Ht & Hn). eapply (Hop p (window_events (open_windows q) ++ pending_events (delete n l))
      (window_anchors (open_windows q) ++ anchoring_cell (anchoring q) ++ pending_cells (delete n l)) 1); [lia| |].
    + eapply (pool_ok_perm other); [| |exact Hok]; cbn; rewrite ?He, ?Hc; by rewrite <- !Permutation_middle.
    + intros a w' Hw'. by apply wp_ret.
  - eapply (Hop p (pending_events (delete n l)) (pending_cells (delete n l)) 0); [lia| |].
    + by eapply (pool_ok_perm other); [| |exact Hs].
    + intros a w' Hw'. by apply wp_ret.
Qed.
Lemma wp_profiler_call call other m s : system_ok other (1 + m) s → 0 <= m → wp (run_call call) s (λ _ s', system_ok other m s').
Proof.
  intros Hs Hm. assert (system_ok other m s) as Hs'.
  { unfold system_ok in *. destruct (profiling s); [|done]. destruct Hs as (? & ? & ?). split_and!; [done|done|lia]. }
  destruct call as [stream|stream t|t|x|n|n|]; cbn [run_call].
  5: { apply wp_take_read; [|done]. intros p held refs base w Q Hb Hw HQ. by eapply (wp_await_profile other). }
  5: { apply wp_take_read; [|done]. intros p held refs base w Q Hb Hw HQ. eapply (wp_drop_pending other); [done|exact Hw|apply HQ]. }
  5: { apply wp_bind. cbn. destruct s as [[p|] w l]; [|by apply wp_ret]. cbn. apply wp_bind. cbn. apply wp_on_events. destruct Hs as (Hok & _ & _).
       by eapply (wp_profiler_drop other window_order window_order_perm); [exact Hok|]. }
  all: destruct s as [[p|] w l]; [|by apply wp_ret]; clear Hs'; destruct Hs as (Hok & Ht & Hn); cbn in Hok, Ht, Hn; apply wp_on_profiler.
  - eapply (wp_profiler_start other); [exact Hok|cbn; lia|by apply tokens_fresh|]. intros [t|y] [p' w'] Hok' Hr; cbn in *.
    + destruct Hr as (-> & Hc & o & Ho). split; [done|]. split; [by eapply tokens_start|cbn; lia].
    + destruct Hr as [Ho Hc]. split; [done|]. unfold tokens_ok. cbn in *. rewrite Ho, Hc. split; [done|lia].
  - eapply (wp_profiler_stop other); [exact Hok|]. intros r [p' w'] Ho Hc Hok' _. cbn in *.
    assert (tokens_ok p') as Ht' by (by eapply tokens_delete). destruct r as [q|y]; cbn; (split; [|split; [done|lia]]); done.
  - eapply (wp_profiler_abandon other); [exact Hok|]. intros [p' w'] Ho Hc Hok'. cbn in *.
    split; [done|]. split; [by eapply tokens_delete|lia].
  - eapply (wp_profiler_failure other window_order window_order_perm); [exact Hok|]. intros [p' w'] Ho Hc Hok'. cbn in *.
    split; [done|]. split; [by eapply tokens_failed|lia].
Qed.
Lemma wp_run_calls calls other s :
  system_ok other (Z.of_nat (length calls)) s → wp (run_calls calls) s (λ _ s', system_ok other 0 s').
Proof.
  revert s. induction calls as [|call calls IH]; intros s Hs; [by apply wp_ret|]. apply wp_bind.
  eapply wp_mono; [apply (wp_profiler_call call other (Z.of_nat (length calls)))|].
  - replace (1 + _) with (Z.of_nat (length (call :: calls))) by (cbn [length]; lia). done.
  - lia.
  - intros a s' Hs'. by apply IH.
Qed.

Lemma pool_empty other w : pool_ok other [] [] 0 w → anchor_cells w = ∅ ∧ free_events w = [].
Proof.
  intros [He Hn Hc Hz Hl Hf]. assert (anchor_cells w = ∅) as Hm.
  { apply map_empty. intros id. specialize (Hl id). destruct (anchor_cells w !! id) as [[e n]|]; [|done]. cbn in Hl. unfold count in Hl. cbn in Hl. lia. }
  split; [done|]. apply Hz. rewrite Hc, Hm. done.
Qed.
(** C30: whatever calls a profiler gets, in whatever order its windows are closed,
    abandoned or failed and its reads awaited or dropped, before or after the
    profiler itself, and whatever the driver refuses, no call panics and no
    event is used or given back twice: the events the driver created are those
    that were there before and, each once, those in the pool, in an open window,
    in a read under way or behind an anchor.  Once the profiler and its reads
    are gone every event has been given back. *)
Theorem events_conserved calls d :
  NoDup (alive d) → Z.of_nat (length calls) <= u64_max →
  wp (run_calls calls) (system_new d) (λ _ s',
    alive (event_device (event_world s')) ≡ₚ owned_events s' ++ alive d ∧ NoDup (owned_events s' ++ alive d) ∧
    (profiling s' = None → reads s' = [] → owned_events s' = [])).
Proof.
  intros Hd Hn. eapply wp_mono; [apply (wp_run_calls calls (alive d) (system_new d))|].
  { split; [|split; [intros t [x Hx]; cbn in Hx; by rewrite lookup_empty in Hx|cbn; lia]]. split; cbn; try done.
    intros id [x Hx]. cbn in Hx. by rewrite lookup_empty in Hx. }
  intros u s' Hs'. assert (alive (event_device (event_world s')) ≡ₚ owned_events s' ++ alive d ∧ NoDup (alive (event_device (event_world s')))) as [Hp Hnd].
  { unfold owned_events, system_windows, system_ok in *. destruct (profiling s') as [p|].
    - destruct Hs' as ([He Hnd _ _ _ _] & _). split; [|done]. rewrite He. cbn. by rewrite <- !app_assoc.
    - destruct Hs' as [He Hnd _ _ _ _]. split; [|done]. rewrite He. cbn. by rewrite <- !app_assoc. }
  split; [done|]. split; [by rewrite <- Hp|]. intros Hnone Hr. unfold system_ok in Hs'. rewrite Hnone, Hr in Hs'.
  apply pool_empty in Hs' as [Hc Hf]. unfold owned_events, system_windows. by rewrite Hnone, Hr, Hc, Hf.
Qed.
End system.

(** ** When a window answers

    What both profilers promise of their windows. *)
Class Profiles (S Sm Out : Type) := {
  start_window : Sm → M S (result Z ServerError);
  stop_window : Sm → Z → M S (result Out ProfileError);
  abandon_window : Z → M S unit;
  fail_windows : ServerError → M S unit;
}.
(** What a window that is open and not failed answers: a measurement, or the
    refusal of the driver when it refuses to end it. *)
Definition answers_open {Out} (measured : Out → Prop) (refused : DriverError → Prop) (r : result Out ProfileError) : Prop :=
  match r with
  | Ok out => measured out ∧ ∀ x, ¬ refused x
  | Err e => ∃ x, refused x ∧ e = profile_error x
  end.
(** [windows_of] are the open windows with the error each was failed with, and
    [room] the tokens left. *)
Class ProfilesLaws (S Sm Out : Type) `{!Profiles S Sm Out} := {
  profiles_ok : S → Prop;
  windows_of : S → gmap Z (option ProfileError);
  room : S → Z;
  measures : Sm → Z → S → Out → Prop;
  refuses : Sm → S → DriverError → Prop;
  fresh_tokens s t : profiles_ok s → u64_max - room s <= t → windows_of s !! t = None;
  start_window_law sm s : profiles_ok s → 0 < room s → wp (start_window sm) s (λ r s', profiles_ok s' ∧
    match r with
    | Ok t => t = u64_max - room s ∧ room s' = room s - 1 ∧ windows_of s' = <[t := None]> (windows_of s)
    | Err _ => room s' = room s ∧ windows_of s' = windows_of s
    end);
  stop_window_law sm t s : profiles_ok s → wp (stop_window sm t) s (λ r s', profiles_ok s' ∧
    room s' = room s ∧ windows_of s' = delete t (windows_of s) ∧
    match windows_of s !! t with
    | None => r = Err ProfileNotRegistered
    | Some (Some e) => r = Err e
    | Some None => answers_open (measures sm t s) (refuses sm s) r
    end);
  abandon_window_law t s : profiles_ok s → wp (abandon_window t) s (λ _ s', profiles_ok s' ∧
    room s' = room s ∧ windows_of s' = delete t (windows_of s));
  fail_windows_law e s : profiles_ok s → wp (fail_windows e) s (λ _ s', profiles_ok s' ∧
    room s' = room s ∧ windows_of s' = (λ _, Some (ProfileServer e)) <$> windows_of s);
}.
Definition failed_windows {A} (m : gmap Z (result A ProfileError)) : gmap Z (option ProfileError) :=
  (λ s, match s with Ok _ => None | Err e => Some e end) <$> m.
Lemma failed_insert {A} (m : gmap Z (result A ProfileError)) t o : failed_windows (<[t := Ok o]> m) = <[t := None]> (failed_windows m).
Proof. unfold failed_windows. by rewrite fmap_insert. Qed.
Lemma failed_delete {A} (m : gmap Z (result A ProfileError)) t : failed_windows (delete t m) = delete t (failed_windows m).
Proof. unfold failed_windows. by rewrite fmap_delete. Qed.
Lemma failed_all {A} (m : gmap Z (result A ProfileError)) e : failed_windows ((λ _, Err e) <$> m : gmap Z (result A ProfileError)) = (λ _, Some e) <$> failed_windows m.
Proof. unfold failed_windows. by rewrite <- !map_fmap_compose. Qed.

(** *** Histories *)
Inductive WindowCall (Sm : Type) := WindowStart (sm : Sm) | WindowStop (sm : Sm) (t : Z) | WindowAbandon (t : Z) | WindowFailure (e : ServerError).
Arguments WindowStart {Sm}. Arguments WindowStop {Sm}. Arguments WindowAbandon {Sm}. Arguments WindowFailure {Sm}.
Inductive WindowEvent := Opened (t : Z) | Closed (t : Z) | Failed (e : ServerError).
(** A history lists the latest event first. *)
Fixpoint run_windows {S Sm Out} `{Profiles S Sm Out} (calls : list (WindowCall Sm)) (history : list WindowEvent) : M S (list WindowEvent) :=
  match calls with
  | [] => mret history
  | WindowStart sm :: calls =>
      r ← start_window sm; run_windows calls (match r with Ok t => Opened t :: history | Err _ => history end)
  | WindowStop sm t :: calls => _ ← stop_window sm t; run_windows calls (Closed t :: history)
  | WindowAbandon t :: calls => _ ← abandon_window t; run_windows calls (Closed t :: history)
  | WindowFailure e :: calls => _ ← fail_windows e; run_windows calls (Failed e :: history)
  end.
(** Whether a window is open and, then, the latest failure since it opened. *)
Fixpoint verdict (history : list WindowEvent) (failure : option ServerError) (t : Z) : option (option ServerError) :=
  match history with
  | [] => None
  | Opened t' :: history => if decide (t' = t) then Some failure else verdict history failure t
  | Closed t' :: history => if decide (t' = t) then None else verdict history failure t
  | Failed e :: history => verdict history (match failure with None => Some e | Some e => Some e end) t
  end.
(** A window answers an error it was failed with, what was measured, or that
    there is no such window. *)
Definition answers {Out} (measured : Out → Prop) (refused : DriverError → Prop) (v : option (option ServerError))
    (r : result Out ProfileError) : Prop :=
  match v with
  | None => r = Err ProfileNotRegistered
  | Some (Some e) => r = Err (ProfileServer e)
  | Some None => answers_open measured refused r
  end.

Section verdicts.
Context {S Sm Out : Type} `{ProfilesLaws S Sm Out}.
Lemma verdict_failed history e t : verdict history (Some e) t = (λ _, Some e) <$> verdict history None t.
Proof.
  cut (∀ o, verdict history (Some e) t = (λ _, Some e) <$> verdict history o t); [auto|].
  induction history as [|[t'|t'|x] history IH]; intros o; cbn; [done|by case_decide|by case_decide|apply IH].
Qed.
Definition tracks (history : list WindowEvent) (s : S) : Prop :=
  profiles_ok s ∧ ∀ t, windows_of s !! t = (λ f : option ServerError, ProfileServer <$> f) <$> verdict history None t.
Lemma wp_run_windows calls history s (Q : list WindowEvent → S → Prop) :
  tracks history s → Z.of_nat (length calls) <= room s →
  (∀ history' s', tracks history' s' → Q history' s') → wp (run_windows calls history) s Q.
Proof.
  revert history s. induction calls as [|call calls IH]; intros history s [Hok Hw] Hn HQ; [by apply wp_ret, HQ|].
  cbn [length] in Hn. destruct call as [sm|sm t|t|e]; cbn [run_windows]; apply wp_bind.
  - eapply wp_mono; [apply (start_window_law sm s Hok); lia|]. intros [t|e] s' [Hok' Hr].
    + destruct Hr as (Ht & Hroom & Hm). apply IH; [split; [done|]|lia|done]. intros t'. rewrite Hm. cbn. case_decide as Heq.
      * subst t'. by rewrite lookup_insert_eq.
      * by rewrite lookup_insert_ne.
    + destruct Hr as [Hroom Hm]. apply IH; [split; [done|by rewrite Hm]|lia|done].
  - eapply wp_mono; [apply (stop_window_law sm t s Hok)|]. intros r s' (Hok' & Hroom & Hm & _). apply IH; [split; [done|]|lia|done].
    intros t'. rewrite Hm. cbn. case_decide as Heq; [subst t'; by rewrite lookup_delete_eq|by rewrite lookup_delete_ne].
  - eapply wp_mono; [apply (abandon_window_law t s Hok)|]. intros r s' (Hok' & Hroom & Hm). apply IH; [split; [done|]|lia|done].
    intros t'. rewrite Hm. cbn. case_decide as Heq; [subst t'; by rewrite lookup_delete_eq|by rewrite lookup_delete_ne].
  - eapply wp_mono; [apply (fail_windows_law e s Hok)|]. intros r s' (Hok' & Hroom & Hm). apply IH; [split; [done|]|lia|done].
    intros t'. rewrite Hm, lookup_fmap, Hw. cbn. rewrite verdict_failed. by destruct (verdict history None t').
Qed.
Lemma window_answer calls s sm t :
  profiles_ok s → windows_of s = ∅ → Z.of_nat (length calls) <= room s →
  wp (run_windows calls []) s (λ history s', wp (stop_window sm t) s' (λ r _, answers (measures sm t s') (refuses sm s') (verdict history None t) r)).
Proof.
  intros Hok Hw Hn. apply wp_run_windows; [split; [done|intros t'; by rewrite Hw]|done|]. intros history s' [Hok' Hs'].
  eapply wp_mono; [apply (stop_window_law sm t s' Hok')|]. intros r s2 (_ & _ & _ & Hr). rewrite Hs' in Hr.
  by destruct (verdict history None t) as [[e|]|].
Qed.
End verdicts.

(** ** Both profilers *)
Section both.
Context {D Ev Sm : Type} `{EventLaws D Ev Sm}.
Context (window_order : gmap Z (result (Open Ev) ProfileError) → list (result (Open Ev) ProfileError)).
Context (window_order_perm : ∀ m, window_order m ≡ₚ (map_to_list m).*2).
#[local] Instance event_profiles : Profiles (EventProfiler Ev Sm * EventWorld D Ev) Sm (PendingProfile Ev) := {
  start_window := profiler_start;
  stop_window := profiler_stop;
  abandon_window := profiler_abandon;
  fail_windows := profiler_failure window_order;
}.
#[local] Instance timestamp_profiles : Profiles (TimestampProfiler * D) unit ProfileTicks := {
  start_window _ := Ok <$> timestamp_start;
  stop_window _ := timestamp_stop;
  abandon_window := timestamp_abandon;
  fail_windows := timestamp_failure;
}.
(** The driver refuses the event that ends a window, which is a free one of the
    pool when it has any. *)
Definition end_refused (sm : Sm) (w : EventWorld D Ev) (x : DriverError) : Prop :=
  match last (free_events w) with
  | Some event => ∃ d, event_record event sm (event_device w) = Some (Err x, d)
  | None => (∃ d, event_create (event_device w) = Some (Err x, d)) ∨
      ∃ event d d', event_create (event_device w) = Some (Ok event, d) ∧ event_record event sm d = Some (Err x, d')
  end.
(** A measurement is from what the window started with to the event that ends
    it, or to the clock. *)
Definition event_measured (sm : Sm) (t : Z) (e : EventProfiler Ev Sm * EventWorld D Ev) (out : PendingProfile Ev) : Prop :=
  open_windows e.1 !! t = Some (Ok (mk_Open (pending_start out) (pending_anchor out))) ∧
  ∃ d d', event_record (pending_end out) sm d = Some (Ok tt, d').
Definition clock_measured (t : Z) (e : TimestampProfiler * D) (out : ProfileTicks) : Prop :=
  timestamp_state e.1 !! t = Some (Ok (ticks_start out)) ∧ ∃ d', instant_now e.2 = Some (ticks_end out, d').
Lemma on_device_run {A} (op : M D A) (w : EventWorld D Ev) a w' :
  Events.on_device op w = Some (a, w') → ∃ d, op (event_device w) = Some (a, d) ∧ w' = with_event_device d w.
Proof. unfold Events.on_device. intros ([x d] & Hd & [= <- <-])%bind_Some. by exists d. Qed.
Lemma stop_event_run sm (w : EventWorld D Ev) o r w' :
  (end_ ←? else_drop (unwind_open o) acquire; _ ←? else_drop (unwind_open o) (record_or_release end_ sm); mret (Ok end_)) w = Some (r, w') →
  match r with
  | Ok event => (∀ x, ¬ end_refused sm w x) ∧ ∃ d d', event_record event sm d = Some (Ok tt, d')
  | Err x => end_refused sm w x
  end.
Proof.
  unfold try_bind, else_drop, end_refused. intros Hr. apply bind_run in Hr as (event & w1 & Ha & Hr).
  apply bind_run in Ha as (event' & w0 & Ha & He). unfold acquire in Ha. apply bind_run in Ha as (w2 & w3 & [= <- <-] & Ha).
  assert (∀ (x : DriverError) k, (_ ← unwind_open o; mret (Err x)) w0 = Some (k, w1) → k = Err (A := Ev) x) as Hdrop.
  { intros x k Hk. by apply bind_run in Hk as (? & ? & _ & [= <- _]). }
  assert (∀ ev d, event = Ok ev → event_device w1 = d → match r with
    | Ok event => event = ev ∧ ∃ d', event_record ev sm d = Some (Ok tt, d')
    | Err x => ∃ d', event_record ev sm d = Some (Err x, d') end) as Hrec.
  { intros ev d -> <-. apply bind_run in Hr as (u & w4 & Hu & Hr). apply bind_run in Hu as (u' & w5 & Hu & Hu').
    unfold record_or_release in Hu. apply bind_run in Hu as (u2 & w6 & Hu & Hu2). apply on_device_run in Hu as (d' & Hd & ->).
    destruct u2 as [[]|x].
    - injection Hu2 as <- <-. injection Hu' as <- <-. injection Hr as <- <-. by eauto.
    - apply bind_run in Hu2 as ([] & w7 & _ & [= <- <-]). apply bind_run in Hu' as ([] & w8 & _ & [= <- <-]). injection Hr as <- <-. by eauto. }
  unfold vec_pop in Ha. destruct (last (free_events w)) as [ev|] eqn:Hl.
  - apply bind_run in Ha as ([] & w4 & Hput & [= <- <-]). injection Hput as <-. injection He as <- <-.
    specialize (Hrec ev _ eq_refl eq_refl). cbn in Hrec. destruct r as [event|x]; [|done]. destruct Hrec as [-> (d' & Hd)].
    split; [|by eauto]. intros x (d2 & Hd2). congruence.
  - unfold try_bind in Ha. apply bind_run in Ha as (made & w4 & Hmk & Ha). apply on_device_run in Hmk as (d & Hd & ->).
    destruct made as [ev|x].
    + apply bind_run in Ha as ([] & w5 & Hmod & [= <- <-]). injection Hmod as <-. injection He as <- <-.
      specialize (Hrec ev _ eq_refl eq_refl). cbn in Hrec. destruct r as [event|x].
      * destruct Hrec as [-> (d' & Hd')]. split; [|by eauto]. intros x [(d2 & Hd2)|(ev2 & d2 & d3 & Hd2 & Hd3)]; congruence.
      * destruct Hrec as (d' & Hd'). right. by eauto.
    + injection Ha as <- <-. apply Hdrop in He as ->. injection Hr as <- _. left. by eauto.
Qed.
Lemma profiler_stop_run sm t e o r e' :
  profiler_stop sm t e = Some (r, e') → open_windows e.1 !! t = Some (Ok o) →
  answers_open (event_measured sm t e) (end_refused sm e.2) r.
Proof.
  intros Hr Ho. unfold profiler_stop in Hr. apply bind_run in Hr as (m & e1 & [= <- <-] & Hr).
  apply bind_run in Hr as ([] & e1 & Hw & Hr). destruct e as [p w]. injection Hw as <-. cbn in Ho. cbn in Hr. rewrite Ho in Hr.
  apply bind_run in Hr as (x & e2 & Hx & [= <- <-]). unfold on_world in Hx. apply bind_Some in Hx as ([y w2] & Hy & [= <- <-]).
  apply stop_event_run in Hy. destruct y as [event|y]; cbn; [|by eauto]. destruct Hy as [Hn Hd]. split; [|done]. split; [|exact Hd].
  cbn. rewrite Ho. by destruct o.
Qed.
Lemma timestamp_stop_run t e start r e' :
  timestamp_stop t e = Some (r, e') → timestamp_state e.1 !! t = Some (Ok start) →
  answers_open (clock_measured t e) (λ _, False) r.
Proof.
  destruct e as [p d]. unfold timestamp_stop. intros Hr Hs. apply bind_run in Hr as ([p0 d0] & e1 & [= <- <- <-] & Hr).
  apply bind_run in Hr as ([] & e2 & [= <-] & Hr). cbn in Hs. rewrite Hs in Hr. apply bind_run in Hr as (now & e3 & Hc & [= <- <-]).
  unfold clock in Hc. apply bind_Some in Hc as ([n d'] & Hn & [= <- <-]). cbn. split; [|by intros x []]. split; [exact Hs|]. by exists d'.
Qed.
Lemma failed_lookup {A} (m : gmap Z (result A ProfileError)) t :
  failed_windows m !! t = (λ s, match s with Ok _ => None | Err e => Some e end) <$> m !! t.
Proof. apply lookup_fmap. Qed.
#[local] Instance event_profiles_laws : ProfilesLaws (EventProfiler Ev Sm * EventWorld D Ev) Sm (PendingProfile Ev).
Proof.
  refine {| profiles_ok e := (∃ other held refs, env_ok other held refs e) ∧ tokens_ok e.1;
    windows_of e := failed_windows (open_windows e.1); room e := u64_max - counter e.1;
    measures := event_measured; refuses sm e := end_refused sm e.2 |}.
  - intros e t [_ Ht] Hle. rewrite failed_lookup. destruct (open_windows e.1 !! t) eqn:E; [|done]. specialize (Ht _ (ex_intro _ _ E)). lia.
  - intros sm e [(other & held & refs & Hok) Ht] Hn. apply (wp_profiler_start other sm held refs); [done|lia|by apply tokens_fresh|].
    intros [t|x] e' Hok' Hr.
    + destruct Hr as (-> & Hc & o & Ho). split; [split; [by eauto|by eapply tokens_start]|]. rewrite Ho, failed_insert. split_and!; [lia|lia|done].
    + destruct Hr as [Ho Hc]. rewrite Ho, Hc. split; [split; [by eauto|]|done]. unfold tokens_ok. by rewrite Ho, Hc.
  - intros sm t e [(other & held & refs & Hok) Ht].
    pose proof (wp_profiler_stop other sm t held refs e _ Hok (λ r e' Ho Hc Hok' Hr, conj Ho (conj Hc (conj Hok' Hr)))) as Hw.
    apply wp_spec in Hw as (r & e' & Hrun & Ho & Hc & Hok' & Hr). apply wp_spec. exists r, e'. split; [exact Hrun|]. rewrite Ho, Hc, failed_delete, failed_lookup. split; [split; [|by eapply tokens_delete]|].
    + destruct r; eauto.
    + split; [done|]. split; [done|]. destruct (open_windows e.1 !! t) as [[o|x]|] eqn:Ho'; [|done..]. by eapply profiler_stop_run.
  - intros t e [(other & held & refs & Hok) Ht]. apply (wp_profiler_abandon other t held refs); [done|].
    intros e' Ho Hc Hok'. rewrite Ho, Hc, failed_delete. split; [split; [by eauto|by eapply tokens_delete]|done].
  - intros x e [(other & held & refs & Hok) Ht]. apply (wp_profiler_failure other window_order window_order_perm x held refs); [done|].
    intros e' Ho Hc Hok'. rewrite Ho, Hc, failed_all. split; [split; [by eauto|by eapply tokens_failed]|done].
Defined.
Lemma wp_clock p d (Q : Z → TimestampProfiler * D → Prop) : (∀ now d', Q now (p, d')) → wp clock (p, d) Q.
Proof. intros HQ. pose proof (clock_law d) as (now & d' & Hop & _)%wp_spec. apply wp_spec. exists now, (p, d'). unfold clock. by rewrite Hop. Qed.
#[local] Instance timestamp_profiles_laws : ProfilesLaws (TimestampProfiler * D) unit ProfileTicks.
Proof.
  refine {| profiles_ok e := ∀ t, is_Some (timestamp_state e.1 !! t) → t < timestamp_counter e.1;
    windows_of e := failed_windows (timestamp_state e.1); room e := u64_max - timestamp_counter e.1;
    measures _ := clock_measured; refuses _ _ _ := False |}.
  - intros e t Ht Hle. rewrite failed_lookup. destruct (timestamp_state e.1 !! t) eqn:E; [|done]. specialize (Ht _ (ex_intro _ _ E)). lia.
  - intros [] [p d] Ht Hn. cbn in *. apply wp_fmap. unfold timestamp_start. apply wp_bind. cbn. apply wp_bind.
    eapply wp_lift; [apply add_u64_Some; lia|]. apply wp_bind, wp_clock. intros now d'. cbn. split.
    + intros t Hs. cbn in Hs |- *. destruct (decide (timestamp_counter p = t)) as [<-|Hne]; [lia|]. rewrite lookup_insert_ne in Hs by done. specialize (Ht t Hs). lia.
    + cbn. split_and!; [lia|lia|apply failed_insert].
  - intros [] t [p d] Ht. cbn in Ht. unfold timestamp_stop. apply wp_bind, (wp_gets id). unfold id. apply wp_bind, wp_modify.
    assert (∀ t', is_Some (delete t (timestamp_state p) !! t') → t' < timestamp_counter p) as Ht'.
    { intros t' [s Hs]. apply lookup_delete_Some in Hs as [_ Hs]. apply Ht. by eexists. }
    cbn [fst]. rewrite failed_lookup. destruct (timestamp_state p !! t) as [[start|x]|] eqn:Hs.
    + pose proof (clock_law d) as (now & d' & Hop & _)%wp_spec. apply wp_bind, wp_spec.
      exists now, (mk_TimestampProfiler (delete t (timestamp_state p)) (timestamp_counter p), d'). split; [unfold clock; cbn; by rewrite Hop|].
      apply wp_ret. cbn [fst timestamp_state timestamp_counter]. rewrite failed_delete. split_and!; try done. split; [|by intros x []].
      split; [exact Hs|]. by exists d'.
    + apply wp_ret. cbn [fst timestamp_state timestamp_counter]. by rewrite failed_delete.
    + apply wp_ret. cbn [fst timestamp_state timestamp_counter]. by rewrite failed_delete.
  - intros t [p d] Ht. cbn in Ht. apply wp_modify. cbn [fst timestamp_state timestamp_counter]. rewrite failed_delete. split; [|done]. intros t' [s Hs]. apply lookup_delete_Some in Hs as [_ Hs]. apply Ht. by eexists.
  - intros x [p d] Ht. cbn in Ht. unfold timestamp_failure, timestamp_is_empty. apply wp_bind, (wp_gets id). unfold id, timestamp_is_empty. case_bool_decide as Hm.
    + apply wp_ret. cbn [fst]. rewrite Hm. split; [by rewrite <- Hm|]. unfold failed_windows. by rewrite !fmap_empty.
    + apply wp_modify. cbn [fst timestamp_state timestamp_counter]. rewrite failed_all. split; [|done]. intros t'. rewrite lookup_fmap, fmap_is_Some. apply Ht.
Defined.

(** C31: after whatever starts, stops, abandonments and failures, on the clock of
    the device or on that of the host, stopping a token answers that nothing is
    registered if its window was never opened or was closed since; the latest
    failure of the device since it opened, if there was one, and never a
    measurement; and otherwise a measurement from what the window started with.
    On the clock of the host it is always one; on that of the device it is the
    error of the driver exactly when the driver refuses the event that ends the
    window, made or recorded. *)
Theorem window_verdicts calls timestamp_calls sm t d :
  NoDup (alive d) → Z.of_nat (length calls) <= u64_max → Z.of_nat (length timestamp_calls) <= u64_max →
  wp (run_windows calls []) (profiler_default, pool_default d)
    (λ history s, wp (profiler_stop sm t) s (λ r _, answers (event_measured sm t s) (end_refused sm s.2) (verdict history None t) r)) ∧
  wp (run_windows timestamp_calls []) (timestamp_default, d)
    (λ history s, wp (timestamp_stop t) s (λ r _, answers (clock_measured t s) (λ _, False) (verdict history None t) r)).
Proof.
  intros Hd H1 H2. split.
  - refine (window_answer (Out := PendingProfile Ev) calls (profiler_default, pool_default d) sm t _ _ _); [|by apply fmap_empty|cbn; lia]. split.
    + exists (alive d), [], []. split; cbn; try done. intros id [x Hx]. cbn in Hx. by rewrite lookup_empty in Hx.
    + intros t' [x Hx]. cbn in Hx. by rewrite lookup_empty in Hx.
  - refine (window_answer (Out := ProfileTicks) timestamp_calls (timestamp_default, d) tt t _ _ _); [|by apply fmap_empty|cbn; lia].
    intros t' [x Hx]. cbn in Hx. by rewrite lookup_empty in Hx.
Qed.
End both.

(** ** A simulated device

    Events are numbers, the clock advances by one second at each reading, and no
    more than [most] events are made. *)
Module Ticking.
Record TickDevice := mk_TickDevice { made : Z; most : Z; live : list Z; time : Z }.
Definition keep {A} (a : A) : M TickDevice (result A DriverError) := λ d, Some (Ok a, d).
#[export] Instance ticking : EventApi TickDevice Z Z := {
  event_create := λ d, if most d <=? made d then Some (Err (mk_DriverError "create" 2), d)
    else Some (Ok (made d), mk_TickDevice (made d + 1) (most d) (made d :: live d) (time d));
  event_destroy e := λ d, Some (Ok tt, mk_TickDevice (made d) (most d) (filter (λ x, x ≠ e) (live d)) (time d));
  event_record _ _ := keep tt;
  event_wait _ := keep tt;
  event_elapsed e e' := keep (sat_sub e' e);
  stream_wait_event _ _ := keep tt;
  stream_create_non_blocking := keep 0;
  stream_destroy _ := keep tt;
}.
#[export] Instance ticking_clock : HostClock TickDevice := λ d,
  Some (time d, mk_TickDevice (made d) (most d) (live d) (time d + 1000000000)).
(** The events of a driver are those below [made] that were not destroyed. *)
Definition living (d : TickDevice) : list Z := filter (λ x, x < made d) (remove_dups (live d)).
Lemma living_nodup d : NoDup (living d).
Proof. apply NoDup_filter, NoDup_remove_dups. Qed.
Lemma living_elem d x : x ∈ living d ↔ x < made d ∧ x ∈ live d.
Proof. unfold living. by rewrite list_elem_of_filter, elem_of_remove_dups. Qed.
#[export] Instance ticking_laws : EventLaws TickDevice Z Z.
Proof.
  refine {| alive := living |}.
  - intros d _. unfold event_create, wp. cbn -[living]. destruct (most d <=? made d); [done|]. split; [rewrite living_elem; lia|].
    apply NoDup_Permutation; [apply living_nodup|apply NoDup_cons; split; [rewrite living_elem; lia|apply living_nodup]|].
    intros x. rewrite elem_of_cons, !living_elem. cbn. rewrite elem_of_cons. split; [|intros [->|[? ?]]; [lia|split; [lia|by right]]].
    intros [Hx [->|Hl]]; [by left|]. destruct (decide (x = made d)) as [->|]; [by left|right]. split; [lia|done].
  - intros e d He. unfold wp. cbn -[living]. apply NoDup_Permutation; [apply living_nodup|apply NoDup_cons; split; [|apply living_nodup]|].
    + rewrite living_elem. cbn. rewrite list_elem_of_filter. tauto.
    + intros x. rewrite elem_of_cons, !living_elem. cbn. rewrite list_elem_of_filter. apply living_elem in He as [? ?].
      destruct (decide (x = e)) as [->|]; [|tauto]. split; [by left|]. by intros [_|[? [? ?]]].
  - by intros e stream d He; exact (reflexivity (living d)).
  - by intros e d He; exact (reflexivity (living d)).
  - by intros e e' d He He'; exact (reflexivity (living d)).
  - by intros d; exact (reflexivity (living d)).
  - by intros stream d; exact (reflexivity (living d)).
  - by intros d; exact (reflexivity (living d)).
Defined.
Definition in_order (m : gmap Z (result (Open Z) ProfileError)) : list (result (Open Z) ProfileError) := (map_to_list m).*2.
Definition device_new : TickDevice := mk_TickDevice 0 6 [] 0.
Definition sim_calls : list (ProfilerCall Z) :=
  [CallStart 0; CallStart 0; CallStop 0 1; CallStart 0; CallFailure TornDown; CallStop 0 0; CallStart 0; CallAwait 0; CallStop 0 3; CallDrop; CallForget 0].
(** A profiler dropped before the last read: every event is given back. *)
Lemma events_conserved_witness : ∃ s', run_calls in_order sim_calls (system_new device_new) = Some (tt, s') ∧
  profiling s' = None ∧ reads s' = [] ∧ owned_events s' = [] ∧ living (event_device (event_world s')) = [].
Proof.
  destruct (proj1 (wp_spec _ _ _) (events_conserved in_order (λ m, reflexivity _) sim_calls device_new ltac:(exact (living_nodup device_new)) ltac:(vm_compute; discriminate)))
    as ([] & s' & Hr & Ha & _ & Ho).
  exists s'. split; [exact Hr|]. assert (profiling s' = None ∧ reads s' = []) as [Hp Hq].
  { assert ((λ s : ProfilerSystem TickDevice Z Z, (profiling s, reads s)) <$> (snd <$> run_calls in_order sim_calls (system_new device_new)) = Some (None, [])) as He
      by (vm_compute; reflexivity).
    rewrite Hr in He. clear Hr. injection He as Hp Hq. exact (conj Hp Hq). }
  clear Hr.
  split_and!; [done|done|by apply Ho|]. rewrite (Ho Hp Hq) in Ha. by apply Permutation_nil_r in Ha.
Defined.
Definition window_calls : list (WindowCall Z) := [WindowStart 0; WindowFailure (Generic "fault"); WindowFailure TornDown; WindowStart 0].
(** The first window answers the latest failure. *)
Lemma window_verdicts_witness :
  wp (@run_windows _ _ _ (event_profiles in_order) window_calls []) (profiler_default, pool_default device_new)
    (λ history s, wp (profiler_stop (Ev := Z) 0 0) s (λ r _, r = Err (ProfileServer TornDown))).
Proof.
  pose proof (proj1 (window_verdicts in_order (λ m, reflexivity _) window_calls [] 0 0 device_new
    ltac:(exact (living_nodup device_new)) ltac:(vm_compute; discriminate) ltac:(vm_compute; discriminate))) as Hw.
  destruct (proj1 (wp_spec _ _ _) Hw) as (h & s & Hr & Hv). clear Hw. refine (proj2 (wp_spec _ _ _) _). exists h, s. split; [exact Hr|].
  assert (h = [Opened 1; Failed TornDown; Failed (Generic "fault"); Opened 0]) as Hh; [|subst h; clear Hr; eapply wp_mono; [exact Hv|]; intros r s' Ha; exact Ha].
  assert (fst <$> @run_windows _ _ _ (event_profiles in_order) window_calls [] (profiler_default, pool_default device_new) =
    Some [Opened 1; Failed TornDown; Failed (Generic "fault"); Opened 0]) as He by (vm_compute; reflexivity).
  rewrite Hr in He. clear Hr Hv. injection He as ->. reflexivity.
Defined.
End Ticking.
