(* ===== verification/EventStream.v ===== *)
(** * Streams ordered by events

    [cubecl-server/src/stream/event.rs]: the streams of a device whose backend
    orders them with events.  [resolve] makes the current stream wait for the
    streams its buffers come from, and pins those buffers until the work of
    the current stream is over.  The backend is an interface
    ([EventStreamBackend]), and so are what its events promise ([EventLaws])
    and the order in which a hash map lists its keys ([hash_order]). *)

From S2P Require Export Streams.
From stdpp Require Import list.
#[local] Open Scope Z_scope.

(** What a device shares between its streams: the handles and the failures. *)
Record Shared := mk_Shared { store : Memory; failures : ErrorGraph }.

Class EventStreamBackend (B S E : Type) := {
  create_stream : B → S;
  handle_cursor : Memory → S → BufferBinding → Z;
  flush : S → M Shared (E * S);
  wait_event : S → E → S;
  wait_event_sync : E → result unit ServerError;
}.

Record StreamWrapper (S : Type) := mk_StreamWrapper {
  stream : S;
  cursor : Z;
  last_synced : gmap nat Z;
}.
Arguments mk_StreamWrapper {S}. Arguments stream {S}. Arguments cursor {S}. Arguments last_synced {S}.
Definition with_stream {S} (s : S) (w : StreamWrapper S) : StreamWrapper S :=
  mk_StreamWrapper s (cursor w) (last_synced w).
Definition with_cursor {S} (c : Z) (w : StreamWrapper S) : StreamWrapper S :=
  mk_StreamWrapper (stream w) c (last_synced w).
Definition with_synced {S} (l : gmap nat Z) (w : StreamWrapper S) : StreamWrapper S :=
  mk_StreamWrapper (stream w) (cursor w) l.

#[export] Instance wrapper_memory {S} `{StreamMemory S} : StreamMemory (StreamWrapper S) := {|
  memory_failure w b := memory_failure (stream w) b;
  memory_taint w b f := s ← memory_taint (stream w) b f; mret (with_stream s w);
  memory_written w b := s ← memory_written (stream w) b; mret (with_stream s w);
|}.

(** [GcTask]: the bindings to drop once the event is reached. *)
Record GcTask (E : Type) := mk_GcTask {
  to_drop : list ManagedMemoryId;
  event : E;
}.
Arguments mk_GcTask {E}. Arguments to_drop {E}. Arguments event {E}.
(** [GcThread]: the tasks sent and not collected yet, and whether the thread
    still receives.  [send] waits while eight of them are in the channel. *)
Record GcThread (E : Type) := mk_GcThread {
  tasks : list (GcTask E);
  alive : bool;
}.
Arguments mk_GcThread {E}. Arguments tasks {E}. Arguments alive {E}.

Record SharedBindingAnalysis := mk_SharedBindingAnalysis {
  slices : gmap nat (list ManagedMemoryId);
  pinned : list ManagedMemoryId;
}.
Definition shared (id : ManagedMemoryId) (index : nat) (m : gmap nat (list ManagedMemoryId)) :
    gmap nat (list ManagedMemoryId) :=
  match m !! index with
  | Some bindings => <[index := bindings ++ [id]]> m
  | None => <[index := [id]]> m
  end.

(** [MultiStream], with the handles its buffers share with their owners. *)
Record MultiStream (B S E : Type) := mk_MultiStream {
  backend : B;
  pool_of : StreamPool (StreamWrapper S);
  shared_state : Shared;
  ms_max_streams : nat;
  gc : GcThread E;
  shared_bindings_pool : list (ManagedMemoryId * StreamId * Z);
}.
Arguments mk_MultiStream {B S E}. Arguments backend {B S E}. Arguments pool_of {B S E}.
Arguments shared_state {B S E}. Arguments ms_max_streams {B S E}. Arguments gc {B S E}.
Arguments shared_bindings_pool {B S E}.

(** [ResolvedStreams]: what it holds besides its borrows. *)
Record ResolvedStreams := mk_ResolvedStreams {
  resolved_cursor : Z;
  analysis : SharedBindingAnalysis;
  current : StreamId;
}.

Section operations.
Context {B S E : Type} `{EventStreamBackend B S E}.
Context (hash_order : gmap nat (list ManagedMemoryId) → list nat).
Implicit Types (ms : MultiStream B S E) (w : StreamWrapper S).

Definition with_pool_of p ms : MultiStream B S E :=
  mk_MultiStream (backend ms) p (shared_state ms) (ms_max_streams ms) (gc ms) (shared_bindings_pool ms).
Definition with_shared g ms : MultiStream B S E :=
  mk_MultiStream (backend ms) (pool_of ms) g (ms_max_streams ms) (gc ms) (shared_bindings_pool ms).
Definition with_gc t ms : MultiStream B S E :=
  mk_MultiStream (backend ms) (pool_of ms) (shared_state ms) (ms_max_streams ms) t (shared_bindings_pool ms).
Definition with_bindings l ms : MultiStream B S E :=
  mk_MultiStream (backend ms) (pool_of ms) (shared_state ms) (ms_max_streams ms) (gc ms) l.

(** [EventStreamBackendWrapper::create] *)
Definition create ms : StreamWrapper S := mk_StreamWrapper (create_stream (backend ms)) 0 ∅.

Definition multi_new (b : B) (m : Shared) (max_streams : Z) : MultiStream B S E :=
  mk_MultiStream b (pool_new max_streams 1) m (Z.to_nat max_streams) (mk_GcThread [] true) [].

(** The slots of the pool, behind the [&mut] the pool hands out. *)
Definition slot_mut (index : nat) : M (MultiStream B S E) (StreamWrapper S) := λ ms,
  '(w, p) ← get_mut_index (create ms) index (pool_of ms); Some (w, with_pool_of p ms).
Definition set_slot (index : nat) (w : StreamWrapper S) : M (MultiStream B S E) unit :=
  modify (λ ms, with_pool_of (with_streams (<[index := Some w]> (streams (pool_of ms))) (pool_of ms)) ms).
Definition index_of (stream_id : StreamId) : M (MultiStream B S E) nat :=
  ms ← get; lift (stream_index stream_id (max_streams (pool_of ms))).
Definition on_shared {A} (m : M Shared A) : M (MultiStream B S E) A := λ ms,
  '(a, g) ← m (shared_state ms); Some (a, with_shared g ms).
Definition on_store {A} (m : M Memory A) : M Shared A := λ g,
  '(a, s) ← m (store g); Some (a, mk_Shared s (failures g)).
(** [B::flush] of the stream at a slot, created when there is none. *)
Definition flush_slot (index : nat) : M (MultiStream B S E) (Z * E) :=
  w ← slot_mut index;
  r ← on_shared (flush (stream w));
  _ ← set_slot index (with_stream r.2 w);
  mret (cursor w, r.1).

(** The first loop of [update_shared_bindings]: the cursors of the handles of
    the other streams, and the bindings to pin. *)
Fixpoint collect_foreign (stream_id : StreamId) (handles : list BufferBinding) :
    M (MultiStream B S E) (list ManagedMemoryId) :=
  match handles with
  | [] => mret []
  | handle :: handles =>
      if decide (binding_stream handle = stream_id) then collect_foreign stream_id handles
      else
        ms ← get;
        index ← lift (stream_index (binding_stream handle) (ms_max_streams ms));
        w ← slot_mut index;
        let cursor_handle := handle_cursor (store (shared_state ms)) (stream w) handle in
        _ ← modify (λ ms, with_bindings
              (shared_bindings_pool ms ++ [(binding_memory handle, binding_stream handle, cursor_handle)]) ms);
        _ ← on_shared (on_store (binding_clone (binding_memory handle)));
        pinned ← collect_foreign stream_id handles;
        mret (binding_memory handle :: pinned)
  end.
(** The second: the origins the current stream is not in step with. *)
Fixpoint analyze (synced : gmap nat Z) (max : nat) (l : list (ManagedMemoryId * StreamId * Z))
    (m : gmap nat (list ManagedMemoryId)) : option (gmap nat (list ManagedMemoryId)) :=
  match l with
  | [] => Some m
  | (handle_id, origin, c) :: l =>
      index ← stream_index origin max;
      match synced !! index with
      | Some last => if last <? c then analyze synced max l (shared handle_id index m)
                     else analyze synced max l m
      | None => analyze synced max l (shared handle_id index m)
      end
  end.
Definition update_shared_bindings (stream_id : StreamId) (handles : list BufferBinding) :
    M (MultiStream B S E) SharedBindingAnalysis :=
  _ ← modify (with_bindings []);
  pinned ← collect_foreign stream_id handles;
  index ← index_of stream_id;
  w ← slot_mut index;
  ms ← get;
  m ← lift (analyze (last_synced w) (ms_max_streams ms) (shared_bindings_pool ms) ∅);
  mret (mk_SharedBindingAnalysis m pinned).

(** [apply_analysis]: an event of each origin, then the waits. *)
Fixpoint flush_origins (origins : list nat) : M (MultiStream B S E) (list (nat * Z * E)) :=
  match origins with
  | [] => mret []
  | origin :: origins =>
      r ← flush_slot origin;
      events ← flush_origins origins;
      mret ((origin, r.1, r.2) :: events)
  end.
Fixpoint wait_all (events : list (nat * Z * E)) w : StreamWrapper S :=
  match events with
  | [] => w
  | (origin, cursor_origin, e) :: events =>
      wait_all events (mk_StreamWrapper (wait_event (stream w) e) (cursor w)
                         (<[origin := cursor_origin]> (last_synced w)))
  end.
Definition apply_analysis (stream_id : StreamId) (a : SharedBindingAnalysis) :
    M (MultiStream B S E) SharedBindingAnalysis :=
  if bool_decide (slices a = ∅) then mret a
  else
    events ← flush_origins (hash_order (slices a));
    index ← index_of stream_id;
    w ← slot_mut index;
    _ ← set_slot index (wait_all events w);
    mret a.
Definition align_streams (stream_id : StreamId) (handles : list BufferBinding) :
    M (MultiStream B S E) SharedBindingAnalysis :=
  a ← update_shared_bindings stream_id handles;
  apply_analysis stream_id a.

Definition resolve (stream_id : StreamId) (handles : list BufferBinding) :
    M (MultiStream B S E) ResolvedStreams :=
  a ← align_streams stream_id handles;
  index ← index_of stream_id;
  w ← slot_mut index;
  c ← lift (add_u64 (cursor w) 1);
  _ ← set_slot index (with_cursor c w);
  mret (mk_ResolvedStreams c a stream_id).

(** [GcThread::register]: [unwrap] panics when the thread is gone. *)
Definition register (task : GcTask E) : M (MultiStream B S E) unit :=
  ms ← get;
  if alive (gc ms) then put (with_gc (mk_GcThread (tasks (gc ms) ++ [task]) true) ms) else panic.

(** [Drop for ResolvedStreams] *)
Definition drop_resolved (r : ResolvedStreams) : M (MultiStream B S E) unit :=
  if bool_decide (pinned (analysis r) = []) then mret tt
  else
    index ← index_of (current r);
    origin ← flush_slot index;
    ms ← get;
    let special := (max_streams (pool_of ms) + 0)%nat in
    w ← slot_mut special;
    _ ← set_slot special (with_stream (wait_event (stream w) origin.2) w);
    e ← flush_slot special;
    register (mk_GcTask (pinned (analysis r)) e.2).

(** One turn of the thread: it waits for the event of the first task and drops
    the bindings.  An error of the wait ends the thread, and with it every
    task it was sent. *)
Fixpoint drop_bindings (l : list ManagedMemoryId) : M Memory unit :=
  match l with [] => mret tt | id :: l => _ ← binding_drop id; drop_bindings l end.
Definition gc_turn : M (MultiStream B S E) unit :=
  ms ← get;
  match tasks (gc ms) with
  | [] => mret tt
  | task :: rest =>
      match wait_event_sync (event task) with
      | Ok _ =>
          _ ← modify (with_gc (mk_GcThread rest (alive (gc ms))));
          on_shared (on_store (drop_bindings (to_drop task)))
      | Err _ =>
          _ ← modify (with_gc (mk_GcThread [] false));
          on_shared (on_store (drop_bindings (concat (to_drop <$> tasks (gc ms)))))
      end
  end.
End operations.

(** ** What the events of a backend promise

    [enqueued s] is the work submitted to a stream, [ordered s] the work that is
    over before anything submitted to it from now on starts, and [covers e]
    the work that is over when the event is reached.  [stamp] is the cursor
    under which work was submitted. *)
Class EventLaws (W B S E : Type) `{EventStreamBackend B S E} := {
  enqueued : S → W → Prop;
  ordered : S → W → Prop;
  covers_work : E → W → Prop;
  create_law b x : ¬ enqueued (create_stream b) x;
  flush_law s g : wp (flush s) g (λ r _,
    (∀ x, enqueued s x ∨ ordered s x → covers_work r.1 x) ∧
    (∀ x, enqueued r.2 x ↔ enqueued s x) ∧ ∀ x, ordered s x → ordered r.2 x);
  wait_law s e x :
    (covers_work e x ∨ ordered s x → ordered (wait_event s e) x) ∧
    (enqueued (wait_event s e) x ↔ enqueued s x);
  handle_cursor_law m m' s b :
    location_bits <$> descriptors m !! binding_memory b =
    location_bits <$> descriptors m' !! binding_memory b →
    handle_cursor m s b = handle_cursor m' s b;
}.

Section ordering.
Context {W B S E : Type} `{EventLaws W B S E} (stamp : W → Z).
Context (hash_order : gmap nat (list ManagedMemoryId) → list nat).
Context (hash_order_keys : ∀ m, hash_order m ≡ₚ (map_to_list m).*1).
Implicit Types (ms : MultiStream B S E) (w : StreamWrapper S).

Definition slot ms (i : nat) : option (StreamWrapper S) := mjoin (streams (pool_of ms) !! i).

(** The stream [w] comes after all the work of the slot [o] stamped up to [c]. *)
Definition in_step ms w (o : nat) (c : Z) : Prop :=
  ∀ wo x, slot ms o = Some wo → enqueued (stream wo) x → stamp x <= c → ordered (stream w) x.

Record multi_inv ms : Prop := mk_multi_inv {
  mi_max : max_streams (pool_of ms) = ms_max_streams ms;
  mi_slots : (0 < ms_max_streams ms < length (streams (pool_of ms)))%nat;
  mi_stamp i w x : slot ms i = Some w → (i < ms_max_streams ms)%nat →
    enqueued (stream w) x → stamp x <= cursor w;
  mi_synced i w o c : slot ms i = Some w → last_synced w !! o = Some c →
    (o < ms_max_streams ms)%nat ∧ in_step ms w o c ∧
    ∃ wo, slot ms o = Some wo ∧ c <= cursor wo;
}.

(** No stream is in step with the present cursor of the slot: work can be
    submitted to it. *)
Definition open_slot ms (i : nat) : Prop :=
  ∀ j w c wi, slot ms j = Some w → last_synced w !! i = Some c → slot ms i = Some wi → c < cursor wi.

(** ** Changes that keep what is synchronized *)
Record evolves w w' : Prop := mk_evolves {
  ev_cursor : cursor w' = cursor w;
  ev_synced : last_synced w' = last_synced w;
  ev_enqueued x : enqueued (stream w') x ↔ enqueued (stream w) x;
  ev_ordered x : ordered (stream w) x → ordered (stream w') x;
}.
Definition fresh w : Prop := cursor w = 0 ∧ last_synced w = ∅ ∧ ∀ x, ¬ enqueued (stream w) x.

(** The same streams, some of them flushed or created. *)
Record same_streams ms ms' : Prop := mk_same_streams {
  ss_max : ms_max_streams ms' = ms_max_streams ms;
  ss_pool : max_streams (pool_of ms') = max_streams (pool_of ms);
  ss_length : length (streams (pool_of ms')) = length (streams (pool_of ms));
  ss_slot i w : slot ms i = Some w → ∃ w', slot ms' i = Some w' ∧ evolves w w';
  ss_new i w' : slot ms' i = Some w' → slot ms i = None → fresh w';
}.

Lemma evolves_refl w : evolves w w.
Proof. by split. Qed.
Lemma evolves_trans w1 w2 w3 : evolves w1 w2 → evolves w2 w3 → evolves w1 w3.
Proof.
  intros [Hc1 Hs1 He1 Ho1] [Hc2 Hs2 He2 Ho2].
  split; [congruence|congruence| |auto]. intros x. by rewrite He2, He1.
Qed.
Lemma fresh_evolves w w' : fresh w → evolves w w' → fresh w'.
Proof. intros (Hc & Hs & He) [Hc' Hs' He' _]. split_and!; [congruence|congruence|]. intros x. by rewrite He'. Qed.
Lemma same_refl ms : same_streams ms ms.
Proof. split; try done; [|congruence]. intros i w Hi. exists w. split; [done|apply evolves_refl]. Qed.
Lemma same_trans ms1 ms2 ms3 : same_streams ms1 ms2 → same_streams ms2 ms3 → same_streams ms1 ms3.
Proof.
  intros [Hm1 Hp1 Hl1 Hs1 Hn1] [Hm2 Hp2 Hl2 Hs2 Hn2]. split; [congruence..| |].
  - intros i w Hi. destruct (Hs1 i w Hi) as (w1 & Hi1 & He1). destruct (Hs2 i w1 Hi1) as (w2 & Hi2 & He2).
    exists w2. split; [done|by eapply evolves_trans].
  - intros i w3 Hi3 Hi. destruct (slot ms2 i) as [w2|] eqn:Hi2; [|by eapply Hn2].
    destruct (Hs2 i w2 Hi2) as (w' & Hw' & He). assert (w' = w3) as -> by congruence.
    eapply fresh_evolves; [by eapply Hn1|done].
Qed.
(** Only the streams matter. *)
Lemma same_pool ms ms' : pool_of ms' = pool_of ms → ms_max_streams ms' = ms_max_streams ms → same_streams ms ms'.
Proof.
  intros Hp Hm. split; try congruence; unfold slot; rewrite Hp.
  - intros i w Hi. exists w. split; [done|apply evolves_refl].
  - congruence.
Qed.

Lemma slot_insert ms i w l :
  l = streams (pool_of ms) → (i < length l)%nat →
  ∀ j, slot (with_pool_of (with_streams (<[i := Some w]> l) (pool_of ms)) ms) j =
    if decide (j = i) then Some w else slot ms j.
Proof.
  intros -> Hi j. unfold slot; cbn. case_decide as Hj; [subst; by rewrite list_lookup_insert_eq|].
  by rewrite list_lookup_insert_ne.
Qed.

Lemma same_inv ms ms' : same_streams ms ms' → multi_inv ms → multi_inv ms'.
Proof.
  intros [Hm Hp Hl Hs Hn] [Hmax Hslots Hstamp Hsync].
  assert (∀ i w', slot ms' i = Some w' → fresh w' ∨ ∃ w, slot ms i = Some w ∧ evolves w w') as Hback.
  { intros i w' Hi'. destruct (slot ms i) as [w|] eqn:Hi; [right|left; by eapply Hn].
    destruct (Hs i w Hi) as (w1 & Hi1 & He). exists w. split; [done|]. by assert (w1 = w') as <- by congruence. }
  split; [congruence|by rewrite Hm, Hl| |].
  - intros i w' x Hi' Hlt Hx. rewrite Hm in Hlt.
    destruct (Hback i w' Hi') as [(_ & _ & Hf)|(w & Hi & [Hc _ He _])]; [by apply Hf in Hx|].
    rewrite Hc. apply (Hstamp i w x); [done..|by apply He].
  - intros i w' o c Hi' Hc. destruct (Hback i w' Hi') as [(_ & Hf & _)|(w & Hi & [_ Hs' _ Ho])].
    { by rewrite Hf in Hc. }
    rewrite Hs' in Hc. destruct (Hsync i w o c Hi Hc) as (Hlt & Hin & wo & Hwo & Hle).
    destruct (Hs o wo Hwo) as (wo' & Hwo' & Hev). rewrite Hm. split_and!; [done| |].
    + intros w2 x Hw2 Hx Hxc. apply Ho. assert (w2 = wo') as -> by congruence.
      apply (Hin wo x Hwo); [|done]. by apply (ev_enqueued _ _ Hev).
    + exists wo'. split; [done|]. by rewrite (ev_cursor _ _ Hev).
Qed.

(** ** The steps of [resolve] *)
Lemma wp_slot_mut i ms (Q : StreamWrapper S → MultiStream B S E → Prop) :
  (i < length (streams (pool_of ms)))%nat →
  (∀ w ms', slot ms' i = Some w → same_streams ms ms' → shared_state ms' = shared_state ms →
     shared_bindings_pool ms' = shared_bindings_pool ms → gc ms' = gc ms →
     (∀ w0, slot ms i = Some w0 → w = w0) → (∀ j, j ≠ i → slot ms' j = slot ms j) → Q w ms') →
  wp (slot_mut i) ms Q.
Proof.
  intros Hi HQ. destruct (lookup_lt_is_Some_2 _ _ Hi) as [e He].
  unfold wp, slot_mut, get_mut_index. rewrite He. cbn. destruct e as [w|].
  - apply HQ; try done; unfold slot; cbn; rewrite ?He; [done| |by intros ? [= ->]].
    by apply same_pool.
  - pose proof (slot_insert ms i (create ms) _ eq_refl Hi) as Hslot.
    assert (slot ms i = None) as Hnone by (unfold slot; by rewrite He).
    apply HQ; try done.
    + by rewrite Hslot, decide_True.
    + split; cbn; try done; [by rewrite length_insert| |].
      * intros j w Hj. exists w. rewrite Hslot, decide_False by congruence. split; [done|apply evolves_refl].
      * intros j w. rewrite Hslot. case_decide as Hj; [|congruence]. intros [= <-] _.
        split_and!; [done..|]. apply create_law.
    + congruence.
    + intros j Hj. by rewrite Hslot, decide_False.
Qed.

Lemma stream_index_lt id max : (0 < max)%nat → ∃ i, stream_index id max = Some i ∧ (i < max)%nat.
Proof.
  intros Hm. unfold stream_index. rewrite decide_False by lia. eexists; split; [done|].
  pose proof (Z.mod_pos_bound id (Z.of_nat max) ltac:(lia)). lia.
Qed.

(** The streams are the ones there were, but for the ones created. *)
Definition created ms ms' : Prop :=
  same_streams ms ms' ∧ ∀ i w, slot ms i = Some w → slot ms' i = Some w.
Lemma created_trans ms1 ms2 ms3 : created ms1 ms2 → created ms2 ms3 → created ms1 ms3.
Proof. intros [H1 H1'] [H2 H2']. split; [by eapply same_trans|auto]. Qed.
Lemma created_pool ms ms' : pool_of ms' = pool_of ms → ms_max_streams ms' = ms_max_streams ms → created ms ms'.
Proof. intros Hp Hm. split; [by apply same_pool|]. unfold slot. by rewrite Hp. Qed.

Lemma wp_slot_created i ms (Q : StreamWrapper S → MultiStream B S E → Prop) :
  (i < length (streams (pool_of ms)))%nat →
  (∀ w ms', slot ms' i = Some w → created ms ms' → shared_state ms' = shared_state ms →
     shared_bindings_pool ms' = shared_bindings_pool ms → gc ms' = gc ms → Q w ms') →
  wp (slot_mut i) ms Q.
Proof.
  intros Hi HQ. apply wp_slot_mut; [done|]. intros w ms' Hw Hs Hsh Hb Hg Hold Hother.
  apply HQ; try done. split; [done|]. intros j w0 Hj. destruct (decide (j = i)) as [->|Hne].
  - by rewrite (Hold w0 Hj) in Hw.
  - by rewrite Hother.
Qed.

(** A change of one stream that evolves. *)
Lemma wp_set_slot i w w' ms (Q : unit → MultiStream B S E → Prop) :
  slot ms i = Some w → evolves w w' →
  (∀ ms', slot ms' i = Some w' → (∀ j, j ≠ i → slot ms' j = slot ms j) → same_streams ms ms' →
     shared_state ms' = shared_state ms → shared_bindings_pool ms' = shared_bindings_pool ms →
     gc ms' = gc ms → Q tt ms') →
  wp (set_slot i w') ms Q.
Proof.
  intros Hi Hev HQ. assert (i < length (streams (pool_of ms)))%nat as Hlt.
  { unfold slot in Hi. destruct (streams (pool_of ms) !! i) eqn:He; [by eapply lookup_lt_Some|done]. }
  pose proof (slot_insert ms i w' _ eq_refl Hlt) as Hslot. apply wp_modify, HQ; try done.
  - by rewrite Hslot, decide_True.
  - intros j Hj. by rewrite Hslot, decide_False.
  - split; cbn; try done; [by rewrite length_insert| |].
    + intros j w0 Hj. rewrite Hslot. case_decide as Hd; [|exists w0; split; [done|apply evolves_refl]].
      subst j. exists w'. split; [done|]. by assert (w0 = w) as -> by congruence.
    + intros j w0. rewrite Hslot. case_decide as Hd; congruence.
Qed.

Lemma wp_flush_slot i ms (Q : Z * E → MultiStream B S E → Prop) :
  (i < length (streams (pool_of ms)))%nat →
  (∀ c e w ms', slot ms' i = Some w → c = cursor w → (∀ x, enqueued (stream w) x → covers_work e x) →
     (∀ w0 x, slot ms i = Some w0 → ordered (stream w0) x → covers_work e x) →
     same_streams ms ms' → shared_bindings_pool ms' = shared_bindings_pool ms → gc ms' = gc ms →
     (∀ j, j ≠ i → slot ms' j = slot ms j) → Q (c, e) ms') →
  wp (flush_slot i) ms Q.
Proof.
  intros Hi HQ. apply wp_bind, wp_slot_mut; [done|]. intros w ms1 Hw Hs1 _ Hb1 Hg1 Hold Hother.
  apply wp_bind. pose proof (flush_law (stream w) (shared_state ms1)) as Hf.
  apply wp_spec in Hf as ([e s'] & g' & Hf & Hcov & Henq & Hord).
  unfold wp at 1, on_shared. rewrite Hf. cbn. apply wp_bind.
  set (ms2 := with_shared g' ms1). assert (same_streams ms1 ms2) as Hs2 by by apply same_pool.
  apply (wp_set_slot i w (with_stream s' w) ms2); [done|by split|].
  intros ms3 Hw3 Hother3 Hs3 _ Hb3 Hg3. apply wp_ret. eapply HQ; [done|done|..].
  - intros x Hx. apply Hcov. left. by apply Henq.
  - intros w0 x Hw0 Hx. apply Hcov. right. by rewrite (Hold w0 Hw0).
  - eapply same_trans; [done|]. by eapply same_trans.
  - by rewrite Hb3.
  - by rewrite Hg3.
  - intros j Hj. rewrite Hother3 by done. by apply Hother.
Qed.

(** ** The handles of other streams *)
Definition foreign (stream_id : StreamId) (handles : list BufferBinding) : list BufferBinding :=
  filter (λ b, binding_stream b ≠ stream_id) handles.

(** The count of bindings of each memory goes up by the times it is pinned. *)
Definition times (id : ManagedMemoryId) (l : list ManagedMemoryId) : Z :=
  Z.of_nat (length (filter (λ j, j = id) l)).
Definition more_bindings (k : Z) (d : Descriptor) : Descriptor :=
  mk_Descriptor (location_bits d) (handles d) (bindings d + k).
Definition pins (l : list ManagedMemoryId) (m m' : Memory) : Prop :=
  ∀ id, descriptors m' !! id = more_bindings (times id l) <$> descriptors m !! id.
Lemma pins_nil m : pins [] m m.
Proof.
  intros id. destruct (descriptors m !! id) as [d|]; [|done]. destruct d. cbn.
  unfold more_bindings, times. cbn. do 2 f_equal. lia.
Qed.
Lemma pins_cons id l m1 m2 d m :
  descriptors m !! id = Some d →
  m1 = mk_Memory (COUNTER m) (<[id := more_bindings 1 d]> (descriptors m)) → pins l m1 m2 → pins (id :: l) m m2.
Proof.
  intros Hd -> Hp j. rewrite Hp. cbn. rewrite lookup_insert. unfold times. rewrite filter_cons.
  case_decide as Hj.
  - subst j. rewrite Hd. cbn. unfold more_bindings. cbn. do 2 f_equal. lia.
  - done.
Qed.
Lemma pins_location l m m' id :
  pins l m m' → location_bits <$> descriptors m' !! id = location_bits <$> descriptors m !! id.
Proof. intros Hp. rewrite Hp. by destruct (descriptors m !! id). Qed.

(** The entry of [shared_bindings_pool] of a handle. *)
Definition entry_of ms (b : BufferBinding) (e : ManagedMemoryId * StreamId * Z) : Prop :=
  e.1 = (binding_memory b, binding_stream b) ∧
  ∀ i w, stream_index (binding_stream b) (ms_max_streams ms) = Some i → slot ms i = Some w →
    e.2 = handle_cursor (store (shared_state ms)) (stream w) b.
Lemma entry_of_created ms ms' b e :
  created ms ms' →
  location_bits <$> descriptors (store (shared_state ms')) !! binding_memory b =
    location_bits <$> descriptors (store (shared_state ms)) !! binding_memory b →
  entry_of ms' b e → entry_of ms b e.
Proof.
  intros [Hs Hslot] Hloc [He Hc]. split; [done|]. intros i w Hi Hw.
  rewrite (Hc i w); [|by rewrite (ss_max _ _ Hs)|by apply Hslot]. by apply handle_cursor_law.
Qed.

Definition described (g : Shared) (b : BufferBinding) : Prop :=
  is_Some (descriptors (store g) !! binding_memory b).

Lemma wp_collect stream_id handles ms :
  multi_inv ms → Forall (described (shared_state ms)) handles →
  wp (collect_foreign stream_id handles) ms (λ l ms',
    created ms ms' ∧ gc ms' = gc ms ∧ failures (shared_state ms') = failures (shared_state ms) ∧
    pins l (store (shared_state ms)) (store (shared_state ms')) ∧
    l = binding_memory <$> foreign stream_id handles ∧
    ∃ entries, shared_bindings_pool ms' = shared_bindings_pool ms ++ entries ∧
      Forall2 (entry_of ms) (foreign stream_id handles) entries).
Proof.
  revert ms. induction handles as [|b handles IH]; intros ms Hinv Hd; cbn [collect_foreign].
  { apply wp_ret. split_and!; try done; [by apply created_pool|apply pins_nil|].
    exists []. rewrite app_nil_r. split; [done|constructor]. }
  apply Forall_cons in Hd as [[d Hb] Hd]. unfold foreign. rewrite filter_cons.
  destruct (decide (binding_stream b = stream_id)) as [Heq|Hne].
  { rewrite decide_False by tauto. by apply IH. }
  rewrite decide_True by done. fold (foreign stream_id handles).
  apply wp_bind, wp_gets, wp_bind. destruct (mi_slots _ Hinv) as [Hpos Hlen].
  destruct (stream_index_lt (binding_stream b) (ms_max_streams ms) Hpos) as (i & Hi & Hlt).
  eapply wp_lift; [exact Hi|]. apply wp_bind, wp_slot_created; [lia|].
  intros w ms1 Hw [Hs1 Hold1] Hsh1 Hb1 Hg1. apply wp_bind, wp_modify, wp_bind.
  unfold wp at 1, on_shared, on_store, binding_clone, descriptor, mbind, M_bind, get, lift; cbn.
  rewrite Hsh1, Hb. cbn. apply wp_bind. set (ms2 := with_shared _ _).
  assert (created ms ms2) as Hc2 by (eapply created_trans; [by split|by apply created_pool]).
  assert (multi_inv ms2) as Hinv2 by (eapply same_inv; [apply Hc2|done]).
  eapply wp_mono; [apply (IH ms2 Hinv2)|].
  { apply Forall_forall. intros b' Hb'. eapply Forall_forall in Hd as [d' Hd']; [|exact Hb'].
    unfold described. cbn. rewrite lookup_insert. case_decide; by eexists. }
  intros l ms3 (Hc3 & Hg3 & Hf3 & Hp3 & -> & entries & He3 & Hall). apply wp_ret.
  assert (pins (binding_memory b :: (binding_memory <$> foreign stream_id handles))
    (store (shared_state ms)) (store (shared_state ms3))) as Hp.
  { eapply pins_cons; [exact Hb| |exact Hp3]. done. }
  split; [by eapply created_trans|]. split; [by rewrite Hg3|]. split; [by rewrite Hf3|].
  split; [exact Hp|]. split; [done|].
  eexists (_ :: entries). rewrite He3. cbn. rewrite Hb1, <- app_assoc. split; [done|].
  constructor.
  - split; [done|]. intros i' w' Hi' Hw'. assert (i' = i) as -> by congruence.
    cbn. rewrite (Hold1 i w' Hw') in Hw. by injection Hw as <-.
  - eapply Forall2_impl; [exact Hall|]. intros b' e He. eapply entry_of_created; [exact Hc2| |exact He].
    cbn. rewrite lookup_insert. case_decide as Hd'; [|done]. rewrite <- Hd', Hb. done.
Qed.

(** ** The analysis *)
Definition stale (synced : gmap nat Z) (index : nat) (c : Z) : Prop :=
  ∀ last, synced !! index = Some last → last < c.
Lemma shared_keys id index m i :
  is_Some (shared id index m !! i) ↔ i = index ∨ is_Some (m !! i).
Proof.
  unfold shared. destruct (m !! index) as [l|] eqn:Hm; rewrite lookup_insert; case_decide as Hi; subst; split; eauto.
  - by intros [->|?].
  - by intros [->|?].
Qed.
Lemma analyze_spec synced max l m :
  (0 < max)%nat →
  ∃ m', analyze synced max l m = Some m' ∧ ∀ i, is_Some (m' !! i) ↔
    is_Some (m !! i) ∨ ∃ e, e ∈ l ∧ stream_index e.1.2 max = Some i ∧ stale synced i e.2.
Proof.
  intros Hmax. revert m. induction l as [|[[id o] c] l IH]; intros m; cbn [analyze].
  { exists m. split; [done|]. intros i. split; [by left|]. by intros [?|(? & ?%not_elem_of_nil & _)]. }
  destruct (stream_index_lt o max Hmax) as (index & Ho & _). rewrite Ho. cbn.
  assert (∀ (b : bool) (m' : gmap nat (list ManagedMemoryId)), (b = true ↔ stale synced index c) →
    (∀ i, is_Some (m' !! i) ↔ is_Some ((if b then shared id index m else m) !! i) ∨
       ∃ e, e ∈ l ∧ stream_index e.1.2 max = Some i ∧ stale synced i e.2) →
    ∀ i, is_Some (m' !! i) ↔ is_Some (m !! i) ∨
       ∃ e, e ∈ (id, o, c) :: l ∧ stream_index e.1.2 max = Some i ∧ stale synced i e.2) as Hcons.
  { intros b m' Hb Hm' i. rewrite Hm'. setoid_rewrite elem_of_cons. split.
    - intros [Hs|(e & He & Hi)]; [|right; exists e; auto]. destruct b; [|by left].
      apply shared_keys in Hs as [->|Hs]; [|by left]. right. exists (id, o, c). split; [by left|]. split; [done|]. by apply Hb.
    - intros [Hs|(e & [->|He] & Hi & Hst)]; [left|left|right; eauto].
      + destruct b; [|done]. apply shared_keys. by right.
      + cbn in Hi, Hst. assert (i = index) as -> by congruence. apply Hb in Hst as ->. apply shared_keys. by left. }
  destruct (synced !! index) as [last|] eqn:Hl.
  - destruct (Z.ltb_spec last c) as [Hlt|Hge].
    + destruct (IH (shared id index m)) as (m' & Hm' & Hk). exists m'. split; [done|].
      apply (Hcons true); [|done]. split; [|done]. intros _ last' Hl'. by assert (last' = last) as -> by congruence.
    + destruct (IH m) as (m' & Hm' & Hk). exists m'. split; [done|].
      apply (Hcons false); [|done]. split; [done|]. intros Hst. specialize (Hst last Hl). lia.
  - destruct (IH (shared id index m)) as (m' & Hm' & Hk). exists m'. split; [done|].
    apply (Hcons true); [|done]. split; [|done]. intros _ last' Hl'. congruence.
Qed.

Lemma wp_flush_origins origins ms :
  Forall (λ o, o < length (streams (pool_of ms)))%nat origins →
  wp (flush_origins origins) ms (λ events ms',
    same_streams ms ms' ∧ shared_bindings_pool ms' = shared_bindings_pool ms ∧ gc ms' = gc ms ∧
    (∀ o, o ∈ origins → ∃ c e, (o, c, e) ∈ events) ∧
    ∀ o c e, (o, c, e) ∈ events → o ∈ origins ∧
      ∃ w, slot ms' o = Some w ∧ c = cursor w ∧ ∀ x, enqueued (stream w) x → covers_work e x).
Proof.
  revert ms. induction origins as [|o origins IH]; intros ms Hlen; cbn [flush_origins].
  { apply wp_ret. split_and!; try done; [apply same_refl|by intros o ?%not_elem_of_nil|by intros o c e ?%not_elem_of_nil]. }
  apply Forall_cons in Hlen as [Ho Hlen]. apply wp_bind, wp_flush_slot; [done|].
  intros c e w ms1 Hw Hc Hcov _ Hs1 Hb1 Hg1 _. apply wp_bind. eapply wp_mono; [apply (IH ms1)|].
  { by rewrite (ss_length _ _ Hs1). }
  intros events ms2 (Hs2 & Hb2 & Hg2 & Hin & Hev). apply wp_ret. cbn.
  split; [by eapply same_trans|]. split; [congruence|]. split; [congruence|]. split.
  - intros o' [->|Ho']%elem_of_cons; [exists c, e; by left|].
    destruct (Hin o' Ho') as (c' & e' & ?). exists c', e'. by right.
  - intros o' c' e' [[= -> -> ->]|He']%elem_of_cons.
    + split; [by left|]. destruct (ss_slot _ _ Hs2 o w Hw) as (w' & Hw' & [Hcw _ Henq _]). exists w'.
      split; [done|]. split; [congruence|]. intros x Hx. by apply Hcov, Henq.
    + destruct (Hev o' c' e' He') as [? ?]. split; [by right|done].
Qed.

Lemma wait_all_spec events w :
  let w' := wait_all events w in
  cursor w' = cursor w ∧ (∀ x, enqueued (stream w') x ↔ enqueued (stream w) x) ∧
  (∀ x, ordered (stream w) x → ordered (stream w') x) ∧
  (∀ o c e x, (o, c, e) ∈ events → covers_work e x → ordered (stream w') x) ∧
  (∀ o c, last_synced w' !! o = Some c → last_synced w !! o = Some c ∨ ∃ e, (o, c, e) ∈ events).
Proof.
  revert w. induction events as [|[[o c] e] events IH]; intros w; cbn.
  { split_and!; try done; [by intros o c e x ?%not_elem_of_nil|by left]. }
  specialize (IH (mk_StreamWrapper (wait_event (stream w) e) (cursor w) (<[o := c]> (last_synced w)))).
  cbn in IH. destruct IH as (Hc & Henq & Hord & Hcov & Hs).
  pose proof (wait_law (stream w) e) as Hwait. split_and!; [done|..].
  - intros x. rewrite Henq. apply Hwait.
  - intros x Hx. apply Hord, Hwait. by right.
  - intros o' c' e' x [[= -> -> ->]|Hin]%elem_of_cons Hx; [|by eapply Hcov].
    apply Hord, Hwait. by left.
  - intros o' c' [Ho'|[e' He']]%Hs; [|right; exists e'; by right].
    rewrite lookup_insert_Some in Ho'. destruct Ho' as [[<- <-]|[_ ?]]; [|by left].
    right. exists e. by left.
Qed.

(** ** One stream changes *)
Lemma inv_set ms i w w' :
  multi_inv ms → slot ms i = Some w → cursor w <= cursor w' →
  (∀ x, ordered (stream w) x → ordered (stream w') x) →
  (∀ x, enqueued (stream w) x → enqueued (stream w') x) →
  ((∀ x, enqueued (stream w') x → enqueued (stream w) x) ∨
   open_slot ms i ∧ last_synced w' = last_synced w ∧
   ∀ x, enqueued (stream w') x → enqueued (stream w) x ∨ stamp x = cursor w') →
  (∀ o c, last_synced w' !! o = Some c → last_synced w !! o = Some c ∨
     (o < ms_max_streams ms)%nat ∧ in_step ms w' o c ∧ ∃ wo, slot ms o = Some wo ∧ c <= cursor wo) →
  multi_inv (with_pool_of (with_streams (<[i := Some w']> (streams (pool_of ms))) (pool_of ms)) ms).
Proof.
  intros [Hmax Hslots Hstamp Hsync] Hi Hc Hord Hkeep Hnew Hs.
  assert (i < length (streams (pool_of ms)))%nat as Hlt.
  { unfold slot in Hi. destruct (streams (pool_of ms) !! i) eqn:He; [by eapply lookup_lt_Some|done]. }
  pose proof (slot_insert ms i w' _ eq_refl Hlt) as Hslot. set (ms' := with_pool_of _ ms) in *.
  assert (∀ x, enqueued (stream w') x → enqueued (stream w) x ∨ stamp x = cursor w') as Hnew'.
  { destruct Hnew as [Hn|(_ & _ & Hn)]; auto. }
  assert (∀ j wj o c, slot ms j = Some wj → last_synced wj !! o = Some c → in_step ms' wj o c) as Hstep.
  { intros j wj o c Hj Hl wo x. rewrite Hslot. destruct (Hsync j wj o c Hj Hl) as (_ & Hin & _).
    case_decide as Ho; [|by apply Hin]. intros [= <-] Hx Hle. subst o.
    destruct Hnew as [Hn|(Hopen & _ & Hn)]; [by eapply Hin; [|apply Hn|]|].
    destruct (Hn x Hx) as [Hx'|Hx']; [by eapply Hin|]. specialize (Hopen j wj c w Hj Hl Hi). lia. }
  split; cbn; [done|by rewrite length_insert| |].
  - intros j wj x. rewrite Hslot. case_decide as Hj; [|by apply Hstamp]. intros [= <-] Hjm Hx. subst j.
    destruct (Hnew' x Hx) as [Hx'| ->]; [|lia]. specialize (Hstamp i w x Hi Hjm Hx'). lia.
  - assert (∀ o c, (∃ wo, slot ms o = Some wo ∧ c <= cursor wo) → ∃ wo, slot ms' o = Some wo ∧ c <= cursor wo) as Hcur.
    { intros o c (wo & Ho & Hle). rewrite Hslot. case_decide as Hd; [|by exists wo]. subst o.
      exists w'. split; [done|]. assert (wo = w) as -> by congruence. lia. }
    intros j wj o c. rewrite Hslot. case_decide as Hj.
    + subst j. intros [= <-] Hl.
      assert (last_synced w !! o = Some c → (o < ms_max_streams ms)%nat ∧ in_step ms' w' o c ∧
        ∃ wo, slot ms' o = Some wo ∧ c <= cursor wo) as Hold.
      { intros Hl'. destruct (Hsync i w o c Hi Hl') as (? & _ & ?). split; [done|]. split; [|by apply Hcur].
        intros wo x Hwo Hx Hle. apply Hord. by eapply (Hstep i w o c). }
      destruct (Hs o c Hl) as [Hl'|(Ho & Hin & Hwo)]; [by apply Hold|].
      destruct Hnew as [Hn|(_ & Hsame & _)]; [|rewrite Hsame in Hl; by apply Hold].
      split; [done|]. split; [|by apply Hcur]. intros wo x. rewrite Hslot. case_decide as Hd; [|by apply Hin].
      intros [= <-] Hx Hle. subst o. by eapply Hin; [|apply Hn|].
    + intros Hj' Hl. destruct (Hsync j wj o c Hj' Hl) as (? & _ & ?). split; [done|]. split; [by eapply Hstep|by apply Hcur].
Qed.

(** Every stream is still there, with its work and the work it comes after. *)
Record keeps ms ms' : Prop := mk_keeps {
  kp_max : ms_max_streams ms' = ms_max_streams ms;
  kp_pool : max_streams (pool_of ms') = max_streams (pool_of ms);
  kp_length : length (streams (pool_of ms')) = length (streams (pool_of ms));
  kp_slot i w : slot ms i = Some w → ∃ w', slot ms' i = Some w' ∧
    cursor w <= cursor w' ∧ (∀ x, enqueued (stream w') x ↔ enqueued (stream w) x) ∧
    ∀ x, ordered (stream w) x → ordered (stream w') x;
}.
Lemma same_keeps ms ms' : same_streams ms ms' → keeps ms ms'.
Proof.
  intros [Hm Hp Hl Hs _]. split; [done..|]. intros i w Hi. destruct (Hs i w Hi) as (w' & Hi' & [Hc _ He Ho]).
  exists w'. split_and!; [done|lia|done|done].
Qed.
Lemma keeps_trans ms1 ms2 ms3 : keeps ms1 ms2 → keeps ms2 ms3 → keeps ms1 ms3.
Proof.
  intros [Hm1 Hp1 Hl1 Hs1] [Hm2 Hp2 Hl2 Hs2]. split; [congruence..|]. intros i w Hi.
  destruct (Hs1 i w Hi) as (w1 & Hi1 & Hc1 & He1 & Ho1). destruct (Hs2 i w1 Hi1) as (w2 & Hi2 & Hc2 & He2 & Ho2).
  exists w2. split_and!; [done|lia| |auto]. intros x. by rewrite He2.
Qed.
Lemma set_keeps ms i w w' :
  slot ms i = Some w → cursor w <= cursor w' → (∀ x, enqueued (stream w') x ↔ enqueued (stream w) x) →
  (∀ x, ordered (stream w) x → ordered (stream w') x) →
  keeps ms (with_pool_of (with_streams (<[i := Some w']> (streams (pool_of ms))) (pool_of ms)) ms).
Proof.
  intros Hi Hc He Ho. assert (i < length (streams (pool_of ms)))%nat as Hlt.
  { unfold slot in Hi. destruct (streams (pool_of ms) !! i) eqn:Hl; [by eapply lookup_lt_Some|done]. }
  split; cbn; [done|done|by rewrite length_insert|]. intros j wj Hj.
  rewrite (slot_insert ms i w' _ eq_refl Hlt). case_decide as Hd; [|exists wj; split_and!; done].
  subst j. assert (wj = w) as -> by congruence. by exists w'.
Qed.

(** The slot of a stream id. *)
Lemma index_of_spec stream_id ms (Q : nat → MultiStream B S E → Prop) :
  multi_inv ms →
  (∀ i, stream_index stream_id (ms_max_streams ms) = Some i → (i < ms_max_streams ms)%nat → Q i ms) →
  wp (index_of stream_id) ms Q.
Proof.
  intros Hinv HQ. destruct (stream_index_lt stream_id (ms_max_streams ms)) as (i & Hi & Hlt);
    [apply (mi_slots _ Hinv)|].
  apply wp_bind, wp_gets. eapply wp_lift; [by rewrite (mi_max _ Hinv)|]. by apply HQ.
Qed.

Lemma wp_update_shared stream_id handles ms :
  multi_inv ms → Forall (described (shared_state ms)) handles →
  wp (update_shared_bindings stream_id handles) ms (λ a ms',
    created ms ms' ∧ gc ms' = gc ms ∧ failures (shared_state ms') = failures (shared_state ms) ∧
    pins (pinned a) (store (shared_state ms)) (store (shared_state ms')) ∧
    pinned a = binding_memory <$> foreign stream_id handles ∧
    ∃ i w, stream_index stream_id (ms_max_streams ms) = Some i ∧ slot ms' i = Some w ∧
    ∃ entries, Forall2 (entry_of ms) (foreign stream_id handles) entries ∧
      ∀ o, is_Some (slices a !! o) ↔ ∃ e, e ∈ entries ∧
        stream_index e.1.2 (ms_max_streams ms) = Some o ∧ stale (last_synced w) o e.2).
Proof.
  intros Hinv Hd. apply wp_bind, wp_modify, wp_bind. set (ms0 := with_bindings [] ms).
  assert (created ms ms0) as Hc0 by by apply created_pool.
  assert (multi_inv ms0) as Hinv0 by (eapply same_inv; [apply Hc0|done]).
  eapply wp_mono; [by apply (wp_collect stream_id handles ms0)|].
  intros l ms1 (Hc1 & Hg1 & Hf1 & Hp1 & -> & entries & He1 & Hall).
  assert (multi_inv ms1) as Hinv1 by (eapply same_inv; [apply Hc1|done]).
  assert (ms_max_streams ms1 = ms_max_streams ms) as Hm1 by apply (ss_max _ _ (proj1 Hc1)).
  apply wp_bind, index_of_spec; [done|]. intros i Hi Hlt. destruct (mi_slots _ Hinv1) as [Hpos Hlen].
  apply wp_bind, wp_slot_created; [lia|]. intros w ms2 Hw Hc2 Hsh2 Hb2 Hg2. apply wp_bind, wp_gets.
  assert (ms_max_streams ms2 = ms_max_streams ms1) as Hm2 by apply (ss_max _ _ (proj1 Hc2)).
  destruct (analyze_spec (last_synced w) (ms_max_streams ms2) (shared_bindings_pool ms2) ∅) as (m & Hm & Hk); [lia|].
  apply wp_bind. eapply wp_lift; [exact Hm|]. apply wp_ret. cbn.
  split; [by eapply created_trans; [|eapply created_trans]|]. split; [by rewrite Hg2|].
  split; [by rewrite Hsh2|]. split; [by rewrite Hsh2|]. split; [done|].
  exists i, w. split; [by rewrite <- Hm1|]. split; [done|]. exists entries. split; [done|].
  intros o. rewrite Hk, Hb2, He1. cbn. rewrite lookup_empty, Hm2, Hm1. split; [|by right].
  by intros [[? ?]|?].
Qed.

Lemma wp_apply stream_id a i w ms :
  multi_inv ms → (∀ o, is_Some (slices a !! o) → (o < ms_max_streams ms)%nat) →
  stream_index stream_id (ms_max_streams ms) = Some i → slot ms i = Some w →
  wp (apply_analysis hash_order stream_id a) ms (λ a' ms',
    a' = a ∧ multi_inv ms' ∧ keeps ms ms' ∧ gc ms' = gc ms ∧ (slices a = ∅ → ms' = ms) ∧
    ∃ w', slot ms' i = Some w' ∧ cursor w' = cursor w ∧
      ∀ o wo x, is_Some (slices a !! o) → slot ms o = Some wo → enqueued (stream wo) x → ordered (stream w') x).
Proof.
  intros Hinv Hlt Hi Hw. unfold apply_analysis. case_bool_decide as Hempty.
  { apply wp_ret. split_and!; try done; [by apply same_keeps, same_refl|].
    exists w. split_and!; [done..|]. intros o wo x [? Ho]. by rewrite Hempty in Ho. }
  assert (∀ o, o ∈ hash_order (slices a) ↔ is_Some (slices a !! o)) as Hkeys.
  { intros o. rewrite (hash_order_keys (slices a)), list_elem_of_fmap. split.
    - intros ([o' l] & -> & Hl). apply elem_of_map_to_list in Hl. by exists l.
    - intros [l Hl]. exists (o, l). split; [done|]. by apply elem_of_map_to_list. }
  apply wp_bind. eapply wp_mono; [apply (wp_flush_origins _ ms)|].
  { apply Forall_forall. intros o Ho. apply Hkeys, Hlt in Ho. destruct (mi_slots _ Hinv). lia. }
  intros events ms1 (Hs1 & Hb1 & Hg1 & Hin & Hev).
  assert (multi_inv ms1) as Hinv1 by (by eapply same_inv). pose proof (ss_max _ _ Hs1) as Hm1.
  apply wp_bind, index_of_spec; [done|]. intros i' Hi' Hilt.
  assert (i' = i) as -> by (rewrite Hm1 in Hi'; congruence).
  destruct (ss_slot _ _ Hs1 i w Hw) as (w1 & Hw1 & Hev1).
  apply wp_bind, wp_slot_created; [destruct (mi_slots _ Hinv1); lia|].
  intros w2 ms2 Hw2 [Hs2 Hold2] _ _ Hg2. assert (w2 = w1) as -> by (rewrite (Hold2 _ _ Hw1) in Hw2; congruence).
  assert (multi_inv ms2) as Hinv2 by (by eapply same_inv). pose proof (ss_max _ _ Hs2) as Hm2.
  destruct (wait_all_spec events w1) as (Hc & Henq & Hord & Hcov & Hsy).
  apply wp_bind, wp_modify, wp_ret. split; [done|].
  split; [|split; [|split; [by cbn; congruence|split; [done|]]]].
  - apply (inv_set ms2 i w1); [done|done|lia|done|by intros x ?; apply Henq|left; by intros x ?%Henq|].
    intros o c [Ho|[e He]]%Hsy; [by left|right]. destruct (Hev o c e He) as (Ho & wo & Hwo & -> & Hwc).
    apply Hkeys, Hlt in Ho. rewrite Hm2, Hm1. split; [done|]. split; [|exists wo; split; [by apply Hold2|lia]].
    intros wo' x Hwo' Hx _. apply Hold2 in Hwo. assert (wo' = wo) as -> by congruence.
    eapply Hcov; [exact He|by apply Hwc].
  - eapply keeps_trans; [by apply same_keeps|]. eapply keeps_trans; [by apply same_keeps|].
    apply (set_keeps ms2 i w1); [done|lia|done|done].
  - exists (wait_all events w1). assert (i < length (streams (pool_of ms2)))%nat as Hl by (destruct (mi_slots _ Hinv2); lia).
    rewrite (slot_insert ms2 i _ _ eq_refl Hl), decide_True by done. split; [done|].
    split; [by rewrite Hc, (ev_cursor _ _ Hev1)|]. intros o wo x Ho Hwo Hx.
    apply Hkeys, Hin in Ho as (c & e & He). eapply Hcov; [exact He|].
    destruct (Hev o c e He) as (_ & wo1 & Hwo1 & _ & Hwc). apply Hwc.
    destruct (ss_slot _ _ Hs1 o wo Hwo) as (wo2 & Hwo2 & [_ _ He2 _]).
    assert (wo2 = wo1) as -> by congruence. by apply He2.
Qed.

(** ** [resolve] *)

(** The stream at the slot [i] comes after the work the buffer waits for. *)
Definition ordered_after ms ms' (i : nat) (b : BufferBinding) : Prop :=
  ∀ o wo, stream_index (binding_stream b) (ms_max_streams ms) = Some o → slot ms o = Some wo →
    ∃ w', slot ms' i = Some w' ∧ ∀ x, enqueued (stream wo) x →
      stamp x <= handle_cursor (store (shared_state ms)) (stream wo) b → ordered (stream w') x.

Definition cursors_below ms (bound : Z) : Prop := ∀ i w, slot ms i = Some w → cursor w < bound.

Lemma open_after ms i w ms' :
  multi_inv ms → slot ms i = Some w →
  ms' = with_pool_of (with_streams (<[i := Some (with_cursor (cursor w + 1) w)]> (streams (pool_of ms))) (pool_of ms)) ms →
  open_slot ms' i.
Proof.
  intros Hinv Hi ->. assert (i < length (streams (pool_of ms)))%nat as Hlt.
  { unfold slot in Hi. destruct (streams (pool_of ms) !! i) eqn:He; [by eapply lookup_lt_Some|done]. }
  pose proof (slot_insert ms i (with_cursor (cursor w + 1) w) _ eq_refl Hlt) as Hslot.
  intros j wj c wi. rewrite !Hslot. rewrite (decide_True (P := i = i)) by done.
  assert (∀ wj', slot ms j = Some wj' → last_synced wj' !! i = Some c → c <= cursor w) as Hle.
  { intros wj' Hj Hl. destruct (mi_synced _ Hinv j wj' i c Hj Hl) as (_ & _ & wo & Ho & Hle). congruence. }
  case_decide as Hd; intros Hj Hl [= <-]; cbn.
  - injection Hj as <-. subst j. cbn in Hl. specialize (Hle w Hi Hl). lia.
  - specialize (Hle wj Hj Hl). lia.
Qed.

(** A buffer the analysis leaves out is one the current stream is in step
    with. *)
Lemma waited_or_in_step ms ms1 ms2 a i w w2 bs entries b o wo :
  created ms ms1 → multi_inv ms1 → keeps ms1 ms2 → slot ms1 i = Some w → slot ms2 i = Some w2 →
  Forall2 (entry_of ms) bs entries →
  (∀ o, is_Some (slices a !! o) ↔ ∃ e, e ∈ entries ∧
     stream_index e.1.2 (ms_max_streams ms) = Some o ∧ stale (last_synced w) o e.2) →
  (∀ o wo x, is_Some (slices a !! o) → slot ms1 o = Some wo → enqueued (stream wo) x → ordered (stream w2) x) →
  b ∈ bs → stream_index (binding_stream b) (ms_max_streams ms) = Some o → slot ms o = Some wo →
  ∀ x, enqueued (stream wo) x → stamp x <= handle_cursor (store (shared_state ms)) (stream wo) b →
  ordered (stream w2) x.
Proof.
  intros [_ Hcr] Hinv Hkeep Hw Hw2 Hall Hk Hord Hb Ho Hwo x Hx Hle.
  destruct (Forall2_elem_l _ _ _ _ Hall Hb) as (e & He & Hent & Hec). specialize (Hec o wo Ho Hwo).
  apply Hcr in Hwo. destruct (decide (is_Some (slices a !! o))) as [Hs|Hs]; [by eapply Hord|].
  assert (¬ stale (last_synced w) o e.2) as Hst.
  { intros Hst. apply Hs, Hk. exists e. by rewrite Hent. }
  destruct (last_synced w !! o) as [last|] eqn:Hl; [|exfalso; apply Hst; intros last ?; congruence].
  assert (e.2 <= last) as Hge.
  { destruct (decide (last < e.2)); [|lia]. exfalso. apply Hst. intros last' ?. congruence. }
  destruct (mi_synced _ Hinv i w o last Hw Hl) as (_ & Hin & _).
  destruct (kp_slot _ _ Hkeep i w Hw) as (w' & Hw' & _ & _ & Ho2). assert (w' = w2) as -> by congruence.
  apply Ho2, (Hin wo x Hwo Hx). lia.
Qed.

Lemma wp_resolve stream_id handles ms :
  multi_inv ms → cursors_below ms u64_max → Forall (described (shared_state ms)) handles →
  wp (resolve hash_order stream_id handles) ms (λ r ms',
    multi_inv ms' ∧ keeps ms ms' ∧ gc ms' = gc ms ∧ current r = stream_id ∧
    pinned (analysis r) = binding_memory <$> foreign stream_id handles ∧
    ∃ i w, stream_index stream_id (ms_max_streams ms) = Some i ∧ slot ms' i = Some w ∧
      resolved_cursor r = cursor w ∧ cursor w = from_option cursor 0 (slot ms i) + 1 ∧ open_slot ms' i ∧
      Forall (ordered_after ms ms' i) (foreign stream_id handles) ∧
      (slices (analysis r) = ∅ → ∀ j wj, j ≠ i → slot ms j = Some wj → slot ms' j = Some wj)).
Proof.
  intros Hinv Hcur Hd. apply wp_bind, wp_bind. eapply wp_mono; [by apply wp_update_shared|].
  intros a ms1 (Hc1 & Hg1 & _ & _ & Hpin & i & w & Hi & Hw & entries & Hall & Hk).
  pose proof (ss_max _ _ (proj1 Hc1)) as Hm1.
  assert (multi_inv ms1) as Hinv1 by (eapply same_inv; [apply Hc1|done]).
  eapply wp_mono; [apply (wp_apply stream_id a i w ms1); [done| |by rewrite Hm1|done]|].
  { intros o (e & He & Ho & _)%Hk. rewrite Hm1.
    destruct (stream_index_lt e.1.2 (ms_max_streams ms)) as (o' & Ho' & ?); [apply (mi_slots _ Hinv)|congruence]. }
  intros a' ms2 (-> & Hinv2 & Hkeep2 & Hg2 & Hsame2 & w2 & Hw2 & Hcw2 & Hord2).
  pose proof (kp_max _ _ Hkeep2) as Hm2. apply wp_bind, index_of_spec; [done|]. intros i' Hi' Hilt.
  assert (i' = i) as -> by (rewrite Hm2, Hm1 in Hi'; congruence).
  apply wp_bind, wp_slot_created; [destruct (mi_slots _ Hinv2); lia|].
  intros w3 ms3 Hw3 [Hs3 Hold3] _ _ Hg3. assert (w3 = w2) as -> by (rewrite (Hold3 _ _ Hw2) in Hw3; congruence).
  assert (multi_inv ms3) as Hinv3 by (by eapply same_inv).
  assert (cursor w2 = from_option cursor 0 (slot ms i)) as Hcw.
  { rewrite Hcw2. destruct (slot ms i) as [w0|] eqn:Hw0; cbn.
    - apply (proj2 Hc1) in Hw0. congruence.
    - by destruct (ss_new _ _ (proj1 Hc1) i w Hw Hw0) as (-> & _). }
  assert (cursor w2 < u64_max) as Hlt.
  { rewrite Hcw. destruct (slot ms i) as [w0|] eqn:Hw0; cbn; [by eapply Hcur|lia]. }
  apply wp_bind. eapply wp_lift; [apply add_u64_Some; lia|]. apply wp_bind, wp_modify, wp_ret. cbn.
  set (w4 := with_cursor (cursor w2 + 1) w2). set (ms4 := with_pool_of _ ms3).
  assert (i < length (streams (pool_of ms3)))%nat as Hl by (destruct (mi_slots _ Hinv3); pose proof (ss_max _ _ Hs3); lia).
  pose proof (slot_insert ms3 i w4 _ eq_refl Hl) as Hslot. fold ms4 in Hslot.
  assert (slot ms4 i = Some w4) as Hw4 by (by rewrite Hslot, decide_True).
  split; [|split; [|split; [by cbn; congruence|split; [done|split; [done|]]]]].
  - apply (inv_set ms3 i w2); [done|done|cbn; lia|done|done|by left|by left].
  - eapply keeps_trans; [apply same_keeps, Hc1|]. eapply keeps_trans; [exact Hkeep2|].
    eapply keeps_trans; [by apply same_keeps|]. apply (set_keeps ms3 i w2); [done|cbn; lia|done|done].
  - exists i, w4. split; [done|]. split; [done|]. split; [done|]. split; [by cbn; rewrite Hcw|].
    split; [by eapply (open_after ms3 i w2)|]. split.
    + apply Forall_forall. intros b Hb o wo Ho Hwo. exists w4. split; [done|].
      by eapply (waited_or_in_step ms ms1 ms2 a i w w2 (foreign stream_id handles) entries).
    + intros Hempty j wj Hj Hwj. rewrite Hslot, decide_False by done. apply Hold3.
      rewrite (Hsame2 Hempty). by apply (proj2 Hc1).
Qed.

(** ** The end of a resolve *)
Definition resolved_at ms (r : ResolvedStreams) : Prop :=
  ∃ i w, stream_index (current r) (ms_max_streams ms) = Some i ∧ slot ms i = Some w ∧
    resolved_cursor r = cursor w ∧ open_slot ms i.

Lemma wp_wait_special ms i w e (Q : unit → MultiStream B S E → Prop) :
  slot ms i = Some w →
  (∀ ms' w', slot ms' i = Some w' → last_synced w' = last_synced w → (∀ x, covers_work e x → ordered (stream w') x) →
     keeps ms ms' → gc ms' = gc ms → (multi_inv ms → multi_inv ms') → Q tt ms') →
  wp (set_slot i (with_stream (wait_event (stream w) e) w)) ms Q.
Proof.
  intros Hi HQ. apply wp_modify. pose proof (wait_law (stream w) e) as Hwait.
  assert (i < length (streams (pool_of ms)))%nat as Hlt.
  { unfold slot in Hi. destruct (streams (pool_of ms) !! i) eqn:He; [by eapply lookup_lt_Some|done]. }
  eapply HQ; [by rewrite (slot_insert ms i _ _ eq_refl Hlt), decide_True|done|..|done|].
  - intros x Hx. apply Hwait. by left.
  - apply (set_keeps ms i w); [done|cbn; lia|intros x; apply Hwait|]. intros x Hx. apply Hwait. by right.
  - intros Hinv. apply (inv_set ms i w); [done|done|cbn; lia|..].
    + intros x Hx. apply Hwait. by right.
    + intros x Hx. by apply Hwait.
    + left. intros x Hx. by apply Hwait in Hx.
    + by left.
Qed.

Lemma wp_drop_resolved r ms :
  multi_inv ms → resolved_at ms r → alive (gc ms) = true →
  wp (drop_resolved r) ms (λ _ ms',
    multi_inv ms' ∧ keeps ms ms' ∧ alive (gc ms') = true ∧
    (pinned (analysis r) = [] → ms' = ms) ∧
    (pinned (analysis r) ≠ [] → ∃ task, tasks (gc ms') = tasks (gc ms) ++ [task] ∧
      to_drop task = pinned (analysis r) ∧
      ∀ i w x, stream_index (current r) (ms_max_streams ms) = Some i → slot ms i = Some w →
        enqueued (stream w) x → covers_work (event task) x)).
Proof.
  intros Hinv (i & w & Hi & Hw & _) Halive. unfold drop_resolved. case_bool_decide as Hempty.
  { apply wp_ret. split_and!; try done. by apply same_keeps, same_refl. }
  destruct (mi_slots _ Hinv) as [Hpos Hlen]. apply wp_bind, index_of_spec; [done|]. intros i' Hi' Hilt.
  assert (i' = i) as -> by congruence.
  apply wp_bind, wp_flush_slot; [lia|]. intros c e w1 ms1 Hw1 _ Hcov1 _ Hs1 _ Hg1 _.
  assert (multi_inv ms1) as Hinv1 by (by eapply same_inv). pose proof (ss_max _ _ Hs1) as Hm1.
  apply wp_bind, wp_gets, wp_bind, wp_slot_created.
  { rewrite (mi_max _ Hinv1), Nat.add_0_r. apply (mi_slots _ Hinv1). }
  rewrite (mi_max _ Hinv1), Nat.add_0_r. intros ws ms2 Hws [Hs2 _] _ _ Hg2.
  assert (multi_inv ms2) as Hinv2 by (by eapply same_inv).
  apply wp_bind, wp_wait_special; [done|]. intros ms3 w3 Hw3 _ Hord3 Hk3 Hg3 Hinv3. specialize (Hinv3 Hinv2).
  apply wp_bind, wp_flush_slot.
  { rewrite (kp_length _ _ Hk3), (ss_length _ _ Hs2). apply (mi_slots _ Hinv1). }
  intros c4 e4 w4 ms4 _ _ _ Hcov4 Hs4 _ Hg4 _.
  assert (alive (gc ms4) = true) as Ha4 by (rewrite Hg4, Hg3, Hg2, Hg1; done).
  unfold wp, register, mbind, M_bind, get, put; cbn. rewrite Ha4. cbn.
  set (ms5 := with_gc _ ms4). assert (same_streams ms4 ms5) as Hs5 by by apply same_pool.
  split; [|split; [|split; [done|split; [done|]]]].
  - eapply same_inv; [exact Hs5|]. by eapply same_inv.
  - eapply keeps_trans; [apply same_keeps, Hs1|]. eapply keeps_trans; [apply same_keeps, Hs2|].
    eapply keeps_trans; [exact Hk3|]. apply same_keeps. by eapply same_trans.
  - intros _. eexists. split; [by rewrite Hg4, Hg3, Hg2, Hg1|]. split; [done|].
    intros i' w' x Hi'' Hw' Hx. cbn. eapply Hcov4; [exact Hw3|]. apply Hord3, Hcov1.
    destruct (ss_slot _ _ Hs1 i w Hw) as (w1' & Hw1' & [_ _ He _]).
    assert (w1 = w1' ∧ w' = w) as [-> ->] by (split; congruence). by apply He.
Qed.

(** ** The device at work

    A caller resolves the streams of its buffers, submits work to the current
    stream and drops the resolved streams, before it or another caller
    resolves again.  Meanwhile the handles and the failures change, and the
    thread collects. *)
Definition submits (s s' : S) (c : Z) : Prop :=
  (∀ x, enqueued s x → enqueued s' x) ∧ (∀ x, ordered s x → ordered s' x) ∧
  ∀ x, enqueued s' x → enqueued s x ∨ stamp x = c.

Inductive device_step : MultiStream B S E * option ResolvedStreams →
    MultiStream B S E * option ResolvedStreams → Prop :=
| step_resolve ms stream_id handles r ms' :
    cursors_below ms u64_max → Forall (described (shared_state ms)) handles →
    resolve hash_order stream_id handles ms = Some (r, ms') → device_step (ms, None) (ms', Some r)
| step_work ms r i w s :
    stream_index (current r) (ms_max_streams ms) = Some i → slot ms i = Some w →
    submits (stream w) s (resolved_cursor r) →
    device_step (ms, Some r) (with_pool_of
      (with_streams (<[i := Some (with_stream s w)]> (streams (pool_of ms))) (pool_of ms)) ms, Some r)
| step_shared ms r g : device_step (ms, r) (with_shared g ms, r)
| step_collect ms r ms' : gc_turn ms = Some (tt, ms') → device_step (ms, r) (ms', r)
| step_drop ms r ms' :
    alive (gc ms) = true → drop_resolved r ms = Some (tt, ms') → device_step (ms, Some r) (ms', None).

Definition device_ok (st : MultiStream B S E * option ResolvedStreams) : Prop :=
  multi_inv st.1 ∧ match st.2 with Some r => resolved_at st.1 r | None => True end.

Lemma device_ok_same ms ms' r :
  pool_of ms' = pool_of ms → ms_max_streams ms' = ms_max_streams ms → device_ok (ms, r) → device_ok (ms', r).
Proof.
  intros Hp Hm [Hinv Hr]. split; cbn in *; [by eapply same_inv; [apply same_pool|]|].
  destruct r as [r|]; [|done]. destruct Hr as (i & w & Hi & Hw & Hc & Ho). unfold resolved_at, open_slot, slot.
  rewrite Hp, Hm. by exists i, w.
Qed.
Lemma on_shared_pool {A} (m : M Shared A) ms a ms' :
  on_shared m ms = Some (a, ms') → pool_of ms' = pool_of ms ∧ ms_max_streams ms' = ms_max_streams ms.
Proof. unfold on_shared. destruct (m (shared_state ms)) as [[b g]|]; [|done]. by intros [= <- <-]. Qed.
Lemma gc_turn_pool ms ms' :
  gc_turn ms = Some (tt, ms') → pool_of ms' = pool_of ms ∧ ms_max_streams ms' = ms_max_streams ms.
Proof.
  unfold gc_turn, mbind, M_bind, get, modify. destruct (tasks (gc ms)) as [|task rest]; [by intros [= <-]|].
  destruct (wait_event_sync (event task)); by intros Hg%on_shared_pool.
Qed.
Lemma device_ok_step st st' : device_step st st' → device_ok st → device_ok st'.
Proof.
  intros Hstep [Hinv Hr].
  destruct Hstep as [ms stream_id handles r ms' Hc Hd Hres|ms r i w s Hi Hw (Hk & Ho & Hn)|ms r g|ms r ms' Hg|ms r ms' Ha Hdrop];
    cbn in *.
  - pose proof (wp_resolve stream_id handles ms Hinv Hc Hd) as Hwp. unfold wp in Hwp. rewrite Hres in Hwp.
    destruct Hwp as (Hinv' & Hkp & _ & Hcur & _ & i & w & Hi & Hw & Hcw & _ & Hopen & _).
    split; cbn; [done|]. exists i, w. rewrite Hcur, (kp_max _ _ Hkp). done.
  - destruct Hr as (i' & w' & Hi' & Hw' & Hcw & Hopen). assert (i' = i) as -> by congruence.
    assert (w' = w) as -> by congruence. assert (i < length (streams (pool_of ms)))%nat as Hlt.
    { pose proof (stream_index_lt (current r) (ms_max_streams ms) ltac:(apply (mi_slots _ Hinv))) as (j & Hj & ?).
      destruct (mi_slots _ Hinv). assert (j = i) as -> by congruence. lia. }
    pose proof (slot_insert ms i (with_stream s w) _ eq_refl Hlt) as Hslot.
    split; cbn.
    + apply (inv_set ms i w); [done|done|cbn; lia|done|done| |by left].
      right. split; [done|]. split; [done|]. intros x Hx. cbn. rewrite <- Hcw. by apply Hn.
    + exists i, (with_stream s w). split; [done|]. rewrite Hslot, decide_True by done. split; [done|]. split; [done|].
      intros j wj c wi. rewrite !Hslot. rewrite (decide_True (P := i = i)) by done. intros Hj Hl [= <-]. cbn.
      destruct (decide (j = i)) as [->|Hne]; [injection Hj as <-; cbn in Hl|]; by eapply Hopen.
  - by apply (device_ok_same ms).
  - apply gc_turn_pool in Hg as [Hp Hm]. by apply (device_ok_same ms).
  - pose proof (wp_drop_resolved r ms Hinv Hr Ha) as Hwp. unfold wp in Hwp. rewrite Hdrop in Hwp.
    split; [apply Hwp|done].
Qed.

Lemma multi_new_inv b m max : 0 < max < u8_max → multi_inv (multi_new b m max).
Proof.
  intros Hm. assert (∀ i, slot (multi_new b m max) i = None) as Hnone.
  { intros i. unfold slot; cbn. destruct (replicate _ _ !! i) as [o|] eqn:Hi; [|done].
    apply lookup_replicate in Hi as [-> _]. done. }
  split; cbn; [done|rewrite length_replicate; unfold sat_add; lia| |]; intros i w; rewrite Hnone; done.
Qed.

Lemma reachable_ok b m max st :
  0 < max < u8_max → rtc device_step (multi_new b m max, None) st → device_ok st.
Proof.
  intros Hm. assert (device_ok (multi_new b m max, None)) as Hok by (split; [by apply multi_new_inv|done]).
  revert Hok. induction 2 as [|st1 st2 st3 Hs _ IH]; [done|]. by eapply IH, device_ok_step.
Qed.

(** C5: however the callers of a device worked before, a [resolve] returns, and
    leaves the current stream after all the work the buffers of the other
    streams were used by up to their cursors, waiting or not; no stream loses
    work or an order it had, the cursor of the current stream goes up by one
    to a value no other stream has waited for, and where the analysis finds
    nothing to wait for no other stream changes. *)
Theorem resolve_in_order b m max ms stream_id handles :
  0 < max < u8_max → rtc device_step (multi_new b m max, None) (ms, None) →
  cursors_below ms u64_max → Forall (described (shared_state ms)) handles →
  wp (resolve hash_order stream_id handles) ms (λ r ms',
    keeps ms ms' ∧ current r = stream_id ∧
    ∃ i w, stream_index stream_id (ms_max_streams ms) = Some i ∧ slot ms' i = Some w ∧
      resolved_cursor r = cursor w ∧ cursor w = from_option cursor 0 (slot ms i) + 1 ∧ open_slot ms' i ∧
      Forall (ordered_after ms ms' i) (foreign stream_id handles) ∧
      (slices (analysis r) = ∅ → ∀ j wj, j ≠ i → slot ms j = Some wj → slot ms' j = Some wj)).
Proof.
  intros Hm Hr Hc Hd. apply reachable_ok in Hr as [Hinv _]; [|done].
  eapply wp_mono; [by apply wp_resolve|]. intros r ms' (_ & ? & _ & ? & _ & ?). done.
Qed.

(** The analysis of a [resolve] pins every buffer of another stream, once for
    each time it is named, in step or not: the count of bindings of each memory goes
    up by the times it is pinned and its location and handles stay.  The
    streams to wait for are those of the buffers whose cursor is past the one
    the current stream last waited for. *)
Theorem foreign_bindings_pinned stream_id handles ms :
  multi_inv ms → Forall (described (shared_state ms)) handles →
  wp (update_shared_bindings stream_id handles) ms (λ a ms',
    pinned a = binding_memory <$> foreign stream_id handles ∧
    pins (pinned a) (store (shared_state ms)) (store (shared_state ms')) ∧
    (∀ i w, slot ms i = Some w → slot ms' i = Some w) ∧
    ∃ i w, stream_index stream_id (ms_max_streams ms) = Some i ∧ slot ms' i = Some w ∧
    ∃ entries, Forall2 (entry_of ms) (foreign stream_id handles) entries ∧
      ∀ o, is_Some (slices a !! o) ↔ ∃ e, e ∈ entries ∧
        stream_index e.1.2 (ms_max_streams ms) = Some o ∧ stale (last_synced w) o e.2).
Proof.
  intros Hinv Hd. eapply wp_mono; [by apply wp_update_shared|].
  intros a ms' ([_ Hslot] & _ & _ & Hp & Hpin & Hrest). done.
Qed.

End ordering.

(** ** A backend that logs *)
Module Logged.
Record log := mk_log { submitted : list (Z * Z); waited : list (Z * Z) }.
#[export] Instance logging : EventStreamBackend unit log (list (Z * Z)) := {|
  create_stream _ := mk_log [] [];
  handle_cursor m s b :=
    from_option (λ d, slice (from_bits (location_bits d))) u64_max (descriptors m !! binding_memory b);
  flush s := mret (submitted s ++ waited s, s);
  wait_event s e := mk_log (submitted s) (waited s ++ e);
  wait_event_sync _ := Ok tt;
|}.
#[export] Program Instance logging_laws : EventLaws (Z * Z) unit log (list (Z * Z)) := {|
  enqueued s x := x ∈ submitted s;
  ordered s x := x ∈ waited s;
  covers_work e x := x ∈ e;
|}.
Next Obligation. intros b x. cbn. apply not_elem_of_nil. Qed.
Next Obligation. intros s g. apply wp_ret. cbn. split_and!; [|done..]. intros x. by rewrite elem_of_app. Qed.
Next Obligation. intros s e x. cbn. rewrite elem_of_app. tauto. Qed.
Next Obligation.
  intros m m' s b Hl. cbn. destruct (descriptors m !! _), (descriptors m' !! _); try done.
  cbn in *. by injection Hl as ->.
Qed.

Definition hash_keys (m : gmap nat (list ManagedMemoryId)) : list nat := (map_to_list m).*1.
(** Memory 7 was allocated at the cursor 1. *)
Definition shared0 : Shared :=
  mk_Shared (mk_Memory 9 {[ 7 := mk_Descriptor (to_bits (mk_MemoryLocation 0 0 1 1)) 2 1 ]}) (mk_ErrorGraph ∅ 0).
Definition of_stream (id : StreamId) : BufferBinding := mk_BufferBinding 7 None None id 16.
Definition ms0 : MultiStream unit log (list (Z * Z)) := multi_new tt shared0 4.
Definition run {A} (m : M (MultiStream unit log (list (Z * Z))) A) ms :=
  from_option snd ms (m ms).
Definition resolved (m : M (MultiStream unit log (list (Z * Z))) ResolvedStreams) ms :=
  from_option fst (mk_ResolvedStreams 0 (mk_SharedBindingAnalysis ∅ []) 0) (m ms).
(** Stream 1 resolves, and submits the work (5, 1). *)
Definition ms1 := Eval vm_compute in run (resolve hash_keys 1 []) ms0.
Definition r1 := Eval vm_compute in resolved (resolve hash_keys 1 []) ms0.
Definition busy : log := mk_log [(5, 1)] [].
Definition ms2 := with_pool_of (with_streams (<[1%nat := Some (with_stream busy (mk_StreamWrapper (mk_log [] []) 1 ∅))]>
  (streams (pool_of ms1))) (pool_of ms1)) ms1.
Definition ms3 := Eval vm_compute in run (resolve hash_keys 2 [of_stream 1]) ms2.
Definition r3 := Eval vm_compute in resolved (resolve hash_keys 2 [of_stream 1]) ms2.

Lemma cursors_of (ms : MultiStream unit log (list (Z * Z))) :
  Forall (λ o, from_option (λ w, cursor w < u64_max) True o) (streams (pool_of ms)) → cursors_below ms u64_max.
Proof.
  intros Hall i w. unfold slot. destruct (streams (pool_of ms) !! i) as [o|] eqn:Hi; [|done].
  cbn. intros ->. by apply (proj1 (Forall_lookup _ _) Hall i) in Hi.
Qed.
Lemma reach2 : rtc (device_step snd hash_keys) (ms0, None) (ms2, None).
Proof.
  eapply rtc_l; [eapply (step_resolve _ _ ms0 1 [] r1 ms1);
    [apply cursors_of; repeat constructor|constructor|reflexivity]|].
  eapply rtc_l; [apply (step_work _ _ ms1 r1 1 (mk_StreamWrapper (mk_log [] []) 1 ∅) busy); [reflexivity|reflexivity|]|].
  { split_and!; [intros x ?%not_elem_of_nil; done|done|]. by intros x ->%list_elem_of_singleton; right. }
  apply rtc_once, step_drop; reflexivity.
Qed.
Lemma cursors2 : cursors_below ms2 u64_max.
Proof. apply cursors_of. repeat constructor. Qed.
Lemma described2 : Forall (described (shared_state ms2)) [of_stream 1].
Proof. constructor; [by eexists|constructor]. Qed.
Lemma reach3 : rtc (device_step snd hash_keys) (ms0, None) (ms3, Some r3).
Proof.
  eapply rtc_r; [apply reach2|]. eapply (step_resolve _ _ ms2 2 [of_stream 1]);
    [apply cursors2|apply described2|reflexivity].
Qed.
End Logged.
Import Logged.

Lemma resolve_in_order_witness :
  wp (resolve hash_keys 2 [of_stream 1]) ms2 (λ r ms',
    (resolved_cursor r = 1 ∧ (waited ∘ stream <$> slot ms' 2) = Some [(5, 1)]) ∧ open_slot ms' 2).
Proof.
  apply wp_conj; [vm_compute; auto|]. eapply wp_mono;
    [apply (resolve_in_order snd hash_keys (λ m, reflexivity _) tt shared0 4 ms2 2 [of_stream 1]);
       [lia|apply reach2|apply cursors2|apply described2]|].
  intros r ms' (_ & _ & i & w & Hi & _ & _ & _ & Ho & _). by injection Hi as <-.
Defined.

Lemma foreign_bindings_pinned_witness :
  wp (update_shared_bindings 2 [of_stream 1; of_stream 2]) ms2 (λ a ms',
    pinned a = [7] ∧ bindings <$> descriptors (store (shared_state ms')) !! 7 = Some 2).
Proof.
  apply wp_conj.
  - eapply wp_mono; [apply (foreign_bindings_pinned snd 2 [of_stream 1; of_stream 2] ms2)|].
    + apply (reachable_ok snd hash_keys (λ m, reflexivity _) tt shared0 4 (ms2, None)); [lia|apply reach2].
    + repeat constructor; by eexists.
    + intros a ms' (Hp & _). exact Hp.
  - vm_compute. reflexivity.
Defined.

