(* ===== verification/Scheduler.v ===== *)
(** * Streams ordered by a scheduler

    [cubecl-server/src/stream/scheduler.rs]: the streams of a device that has
    one queue.  Tasks wait on the stream they were registered on until it is
    executed, one stream after the other or in turns.  The backend is an
    interface ([SchedulerStreamBackend]), and so is what it promises about the
    queue of each of its streams ([SchedulerLaws]). *)

From S2P Require Export Streams.
From stdpp Require Import list.
#[local] Open Scope Z_scope.

(** [T] is the tasks, [S] the streams and [F] their factory. *)
Class SchedulerStreamBackend (T S F : Type) := {
  factory_create : F → S * F;
  enqueue : T → S → M ErrorGraph S;
  flush : S → M ErrorGraph S;
  requires_isolation : S → bool;
}.

Inductive SchedulerStrategy := Interleave | Sequential.

Record Stream (T S : Type) := mk_Stream { tasks : list T; stream : S }.
Arguments mk_Stream {T S}. Arguments tasks {T S}. Arguments stream {T S}.

Record SchedulerMultiStream (T S F : Type) := mk_Scheduler {
  sched_pool : StreamPool (Stream T S);
  factory : F;
  failures : ErrorGraph;
  strategy : SchedulerStrategy;
  max_tasks : Z;
}.
Arguments mk_Scheduler {T S F}. Arguments sched_pool {T S F}. Arguments factory {T S F}.
Arguments failures {T S F}. Arguments strategy {T S F}. Arguments max_tasks {T S F}.

Record Schedule (T : Type) := mk_Schedule {
  sched_tasks : list T;
  num_tasks : nat;
  schedule_index : nat;
}.
Arguments mk_Schedule {T}. Arguments sched_tasks {T}. Arguments num_tasks {T}. Arguments schedule_index {T}.

#[export] Instance stream_memory {T S} `{StreamMemory S} : StreamMemory (Stream T S) := {|
  memory_failure w b := memory_failure (stream w) b;
  memory_taint w b f := s ← memory_taint (stream w) b f; mret (mk_Stream (tasks w) s);
  memory_written w b := s ← memory_written (stream w) b; mret (mk_Stream (tasks w) s);
|}.

Section operations.
Context {T S F : Type} `{SchedulerStreamBackend T S F}.
Implicit Types (m : SchedulerMultiStream T S F) (w : Stream T S).

Definition with_pool p m : SchedulerMultiStream T S F :=
  mk_Scheduler p (factory m) (failures m) (strategy m) (max_tasks m).
Definition with_factory f m : SchedulerMultiStream T S F :=
  mk_Scheduler (sched_pool m) f (failures m) (strategy m) (max_tasks m).
Definition with_failures g m : SchedulerMultiStream T S F :=
  mk_Scheduler (sched_pool m) (factory m) g (strategy m) (max_tasks m).

Definition scheduler_new (f : F) (g : ErrorGraph) (max_streams : Z) (max_tasks : Z) (s : SchedulerStrategy) :
    SchedulerMultiStream T S F :=
  mk_Scheduler (pool_new max_streams 0) f g s max_tasks.

Definition set_slot (index : nat) (w : Stream T S) : M (SchedulerMultiStream T S F) unit :=
  modify (λ m, with_pool (with_streams (<[index := Some w]> (streams (sched_pool m))) (sched_pool m)) m).
(** [get_mut_index], with the factory of the pool. *)
Definition slot_mut (index : nat) : M (SchedulerMultiStream T S F) (Stream T S) :=
  m ← get;
  entry ← lift (streams (sched_pool m) !! index);
  match entry with
  | Some w => mret w
  | None =>
      let '(s, f) := factory_create (factory m) in
      _ ← modify (with_factory f);
      _ ← set_slot index (mk_Stream [] s);
      mret (mk_Stream [] s)
  end.
Definition index_of (stream_id : StreamId) : M (SchedulerMultiStream T S F) nat :=
  m ← get; lift (stream_index stream_id (max_streams (sched_pool m))).
(** A call of the backend on the stream of a slot. *)
Definition on_stream (f : S → M ErrorGraph S) (index : nat) : M (SchedulerMultiStream T S F) unit :=
  w ← slot_mut index;
  m ← get;
  '(s, g) ← lift (f (stream w) (failures m));
  _ ← modify (with_failures g);
  set_slot index (mk_Stream (tasks w) s).

(** The unique indices of the streams, in the order they are first named. *)
Fixpoint collect_indices (stream_ids : list StreamId) (indices : list nat) :
    M (SchedulerMultiStream T S F) (list nat) :=
  match stream_ids with
  | [] => mret indices
  | id :: stream_ids =>
      index ← index_of id;
      collect_indices stream_ids (if decide (index ∈ indices) then indices else indices ++ [index])
  end.
(** The schedules, and whether a stream requires isolation. *)
Fixpoint make_schedules (indices : list nat) : M (SchedulerMultiStream T S F) (list (Schedule T) * bool) :=
  match indices with
  | [] => mret ([], false)
  | index :: indices =>
      w ← slot_mut index;
      _ ← set_slot index (mk_Stream [] (stream w));
      r ← make_schedules indices;
      mret (mk_Schedule (tasks w) (length (tasks w)) index :: r.1, requires_isolation (stream w) || r.2)
  end.

Fixpoint enqueue_all (index : nat) (l : list T) : M (SchedulerMultiStream T S F) unit :=
  match l with
  | [] => mret tt
  | task :: l => _ ← on_stream (enqueue task) index; enqueue_all index l
  end.
Fixpoint execute_schedules_sequence (schedules : list (Schedule T)) : M (SchedulerMultiStream T S F) unit :=
  match schedules with
  | [] => mret tt
  | schedule :: schedules =>
      _ ← enqueue_all (schedule_index schedule) (sched_tasks schedule);
      _ ← on_stream flush (schedule_index schedule);
      execute_schedules_sequence schedules
  end.

(** One turn of the interleaving: the next task of every schedule that has one. *)
Definition turn (l : list (list T)) : list T := omap head l.
Fixpoint turns (n : nat) (l : list (list T)) : list T :=
  match n with O => [] | Datatypes.S n => turn l ++ turns n (tail <$> l) end.
Fixpoint flush_indices (indices : list nat) : M (SchedulerMultiStream T S F) unit :=
  match indices with
  | [] => mret tt
  | index :: indices => _ ← on_stream flush index; flush_indices indices
  end.
Definition execute_schedules_interleave (schedules : list (Schedule T)) : M (SchedulerMultiStream T S F) unit :=
  _ ← flush_indices (schedule_index <$> tail schedules);
  first ← lift (head schedules);
  let num_tasks_max := foldr Nat.max 0%nat (num_tasks <$> schedules) in
  _ ← enqueue_all (schedule_index first) (turns num_tasks_max (sched_tasks <$> schedules));
  on_stream flush (schedule_index first).

Definition execute_streams (stream_ids : list StreamId) : M (SchedulerMultiStream T S F) unit :=
  indices ← collect_indices stream_ids [];
  r ← make_schedules indices;
  match r.1 with
  | [] => mret tt
  | _ :: _ =>
      m ← get;
      match strategy m, r.2 with
      | Interleave, false => execute_schedules_interleave r.1
      | _, _ => execute_schedules_sequence r.1
      end
  end.

Fixpoint conflicting (index : nat) (args_streams : list StreamId) : M (SchedulerMultiStream T S F) (list StreamId) :=
  match args_streams with
  | [] => mret []
  | arg :: args_streams =>
      index_stream ← index_of arg;
      to_flush ← conflicting index args_streams;
      mret (if decide (index = index_stream) then to_flush else arg :: to_flush)
  end.
Definition align_streams (stream_id : StreamId) (args_streams : list StreamId) :
    M (SchedulerMultiStream T S F) unit :=
  index ← index_of stream_id;
  to_flush ← conflicting index args_streams;
  if bool_decide (to_flush = []) then mret tt else execute_streams to_flush.

Definition register (stream_id : StreamId) (task : T) (args_streams : list StreamId) :
    M (SchedulerMultiStream T S F) unit :=
  _ ← align_streams stream_id args_streams;
  index ← index_of stream_id;
  w ← slot_mut index;
  let l := tasks w ++ [task] in
  _ ← set_slot index (mk_Stream l (stream w));
  m ← get;
  if max_tasks m <=? Z.of_nat (length l) then execute_streams [stream_id] else mret tt.

(** [flush_all]: every initialized stream of the pool is flushed after all of
    them are executed. *)
Definition initialized (l : list (option (Stream T S))) : list nat :=
  omap (λ '(i, o), (λ _ : Stream T S, i) <$> o) (imap (λ i o, (i, o)) l).
Definition flush_all : M (SchedulerMultiStream T S F) unit :=
  m ← get;
  _ ← execute_streams (stream_ids (sched_pool m));
  m ← get;
  flush_indices (initialized (streams (sched_pool m))).
End operations.

(** ** What the backend promises

    [enqueued s] is the tasks given to the queue of the device through the
    stream [s], in their order. *)
Class SchedulerLaws (T S F : Type) `{SchedulerStreamBackend T S F} := {
  enqueued : S → list T;
  create_law f : enqueued (factory_create f).1 = [];
  enqueue_law t s g : wp (enqueue t s) g (λ s' _, enqueued s' = enqueued s ++ [t]);
  flush_law s g : wp (flush s) g (λ s' _, enqueued s' = enqueued s);
}.

(** ** Turns *)
Section turns.
Context {T : Type}.
Implicit Types (ls : list (list T)) (l : list T).

Lemma turn_perm ls : concat ls ≡ₚ turn ls ++ concat (tail <$> ls).
Proof.
  unfold turn. induction ls as [|[|x l] ls IH]; cbn; [done|done|]. rewrite IH. solve_Permutation.
Qed.
Lemma turn_sublist ls i l : ls !! i = Some l → sublist (take 1 l) (turn ls).
Proof.
  unfold turn. revert i. induction ls as [|l' ls IH]; intros i Hi; [done|].
  destruct i as [|i]; cbn in Hi.
  - injection Hi as ->. destruct l as [|x l]; cbn; [apply sublist_nil_l|].
    rewrite take_0. apply sublist_skip, sublist_nil_l.
  - apply IH in Hi. cbn. destruct (head l'); [by apply sublist_cons|done].
Qed.
Lemma turns_perm n ls :
  Forall (λ l, length l <= n)%nat ls → turns n ls ≡ₚ concat ls.
Proof.
  revert ls. induction n as [|n IH]; intros ls Hn; cbn [turns].
  - induction Hn as [|l ls Hl _ IH]; [done|]. cbn. destruct l; [done|cbn in Hl; lia].
  - rewrite IH; [by rewrite <- turn_perm|]. apply Forall_fmap.
    eapply Forall_impl; [exact Hn|]. intros [|x l] Hl; cbn in *; lia.
Qed.
Lemma turns_sublist n ls i l :
  ls !! i = Some l → (length l <= n)%nat → sublist l (turns n ls).
Proof.
  revert ls l. induction n as [|n IH]; intros ls l Hi Hn; cbn [turns].
  { destruct l; [apply sublist_nil_l|cbn in Hn; lia]. }
  rewrite <- (take_drop 1 l). apply sublist_app; [by eapply turn_sublist|].
  replace (drop 1 l) with (tail l) by by destruct l.
  apply IH; [|destruct l; cbn in *; lia]. by rewrite list_lookup_fmap, Hi.
Qed.
Lemma max_le ls : Forall (λ l, length l <= foldr Nat.max 0%nat (length <$> ls))%nat ls.
Proof.
  induction ls as [|l ls IH]; cbn; constructor; [lia|].
  eapply Forall_impl; [exact IH|]. cbn. intros l'. lia.
Qed.
Lemma turns_one l : turns (length l) [l] = l.
Proof.
  induction l as [|x l IH]; [done|]. cbn. by rewrite IH.
Qed.
End turns.

(** ** What the operations do to the tasks *)
Section tasks.
Context {T S F : Type} `{SchedulerLaws T S F}.
Implicit Types (m : SchedulerMultiStream T S F) (w : Stream T S).

Definition slot m (i : nat) : option (Stream T S) := mjoin (streams (sched_pool m) !! i).
(** The tasks that wait at a slot, and those given to the queue through it. *)
Definition view m (i : nat) : list T * list T :=
  match slot m i with Some w => (tasks w, enqueued (stream w)) | None => ([], []) end.
Abbreviation queued m i := (view m i).1.
Abbreviation logged m i := (view m i).2.
Definition isolated m (i : nat) : Prop :=
  ∃ w, slot m i = Some w ∧ requires_isolation (stream w) = true.

Definition sched_ok m : Prop :=
  (0 < max_streams (sched_pool m) <= length (streams (sched_pool m)))%nat.
Record same_shape m m' : Prop := mk_same_shape {
  sh_max : max_streams (sched_pool m') = max_streams (sched_pool m);
  sh_length : length (streams (sched_pool m')) = length (streams (sched_pool m));
  sh_strategy : strategy m' = strategy m;
  sh_tasks : max_tasks m' = max_tasks m;
}.
#[local] Instance same_shape_preorder : PreOrder same_shape.
Proof. split; [by intros m|]. intros m1 m2 m3 [] []. split; congruence. Qed.
Lemma shape_ok m m' : same_shape m m' → sched_ok m → sched_ok m'.
Proof. intros [Hm Hl _ _]. unfold sched_ok. by rewrite Hm, Hl. Qed.

Lemma wp_put_stream i w m (Q : unit → SchedulerMultiStream T S F → Prop) :
  (i < length (streams (sched_pool m)))%nat →
  (∀ m', same_shape m m' → (∀ j, slot m' j = if decide (j = i) then Some w else slot m j) → Q tt m') →
  wp (set_slot i w) m Q.
Proof.
  intros Hi HQ. apply wp_modify, HQ; [split; cbn; try done; by rewrite length_insert|].
  intros j. unfold slot; cbn. case_decide as Hj; [subst; by rewrite list_lookup_insert_eq|].
  by rewrite list_lookup_insert_ne.
Qed.
Lemma wp_stream_mut i m (Q : Stream T S → SchedulerMultiStream T S F → Prop) :
  (i < length (streams (sched_pool m)))%nat →
  (∀ w m', same_shape m m' → slot m' i = Some w → (tasks w, enqueued (stream w)) = view m i →
     (∀ j, view m' j = view m j) → (∀ j, isolated m j → isolated m' j) → Q w m') →
  wp (slot_mut i) m Q.
Proof.
  intros Hi HQ. destruct (lookup_lt_is_Some_2 _ _ Hi) as [e He].
  apply wp_bind, wp_gets, wp_bind. eapply wp_lift; [exact He|]. destruct e as [w|].
  - apply wp_ret, HQ; try done; unfold view, slot; by rewrite He.
  - pose proof (create_law (factory m)) as Hnew. destruct (factory_create (factory m)) as [s f] eqn:Hc.
    apply wp_bind, wp_modify, wp_bind, wp_put_stream; [done|]. intros m' Hs Hslot. apply wp_ret.
    assert (slot m i = None) as Hnone by (unfold slot; by rewrite He).
    apply HQ; unfold view; rewrite ?Hslot, ?decide_True by done; [by destruct Hs|done|rewrite Hnone; cbn in *; by rewrite Hnew|..].
    + intros j. rewrite Hslot. case_decide as Hj; [|done]. subst j. rewrite Hnone. cbn in *. by rewrite Hnew.
    + intros j (w & Hj & Hr). exists w. split; [|done]. rewrite Hslot, decide_False; [done|].
      intros ->. congruence.
Qed.

(** A call of the backend that gives [l] to the queue. *)
Lemma wp_on_stream f i l m (Q : unit → SchedulerMultiStream T S F → Prop) :
  (i < length (streams (sched_pool m)))%nat →
  (∀ s g, wp (f s) g (λ s' _, enqueued s' = enqueued s ++ l)) →
  (∀ m', same_shape m m' →
     (∀ j, view m' j = if decide (j = i) then (queued m i, logged m i ++ l) else view m j) → Q tt m') →
  wp (on_stream f i) m Q.
Proof.
  intros Hi Hf HQ. apply wp_bind, wp_stream_mut; [done|]. intros w m1 Hs1 Hw Hv Hv1 _.
  apply wp_bind, wp_gets, wp_bind. pose proof (Hf (stream w) (failures m1)) as Hwp.
  apply wp_spec in Hwp as (s & g & Hfs & Henq). eapply wp_lift; [exact Hfs|].
  apply wp_bind, wp_modify, wp_put_stream; [cbn; by rewrite (sh_length _ _ Hs1)|].
  intros m2 Hs2 Hslot2. apply HQ; [etrans; [exact Hs1|]; by destruct Hs2|].
  intros j. unfold view at 1. rewrite Hslot2. case_decide as Hj.
  - rewrite <- Hv. cbn. by rewrite Henq.
  - rewrite <- Hv1. done.
Qed.
Lemma view_app_nil m i j : view m j = if decide (j = i) then (queued m i, logged m i ++ []) else view m j.
Proof. case_decide; [|done]. subst. rewrite app_nil_r. by destruct (view m i). Qed.

Lemma wp_flush_stream i m (Q : unit → SchedulerMultiStream T S F → Prop) :
  (i < length (streams (sched_pool m)))%nat →
  (∀ m', same_shape m m' → (∀ j, view m' j = view m j) → Q tt m') → wp (on_stream flush i) m Q.
Proof.
  intros Hi HQ. apply (wp_on_stream _ i []); [done| |].
  - intros s g. eapply wp_mono; [apply flush_law|]. intros s' g' ->. by rewrite app_nil_r.
  - intros m' Hs Hv. apply HQ; [done|]. intros j. by rewrite Hv, <- view_app_nil.
Qed.
Lemma wp_enqueue_all i l m (Q : unit → SchedulerMultiStream T S F → Prop) :
  (i < length (streams (sched_pool m)))%nat →
  (∀ m', same_shape m m' →
     (∀ j, view m' j = if decide (j = i) then (queued m i, logged m i ++ l) else view m j) → Q tt m') →
  wp (enqueue_all i l) m Q.
Proof.
  revert m. induction l as [|t l IH]; intros m Hi HQ; cbn [enqueue_all].
  { apply wp_ret, HQ; [done|]. intros j. apply view_app_nil. }
  apply wp_bind, (wp_on_stream _ i [t]); [done|intros s g; apply enqueue_law|].
  intros m1 Hs1 Hv1. apply IH; [by rewrite (sh_length _ _ Hs1)|]. intros m2 Hs2 Hv2.
  apply HQ; [by etrans|]. intros j. rewrite Hv2, !Hv1. rewrite (decide_True (P := i = i)) by done. cbn.
  case_decide; [|done]. by rewrite <- app_assoc.
Qed.
Lemma wp_flush_indices l m (Q : unit → SchedulerMultiStream T S F → Prop) :
  Forall (λ i, i < length (streams (sched_pool m)))%nat l →
  (∀ m', same_shape m m' → (∀ j, view m' j = view m j) → Q tt m') → wp (flush_indices l) m Q.
Proof.
  revert m. induction l as [|i l IH]; intros m Hl HQ; cbn [flush_indices]; [by apply wp_ret, HQ|].
  apply Forall_cons in Hl as [Hi Hl]. apply wp_bind, wp_flush_stream; [done|]. intros m1 Hs1 Hv1.
  apply IH; [by rewrite (sh_length _ _ Hs1)|]. intros m2 Hs2 Hv2. apply HQ; [by etrans|].
  intros j. by rewrite Hv2, Hv1.
Qed.

(** ** Schedules *)
Lemma sched_index id m :
  sched_ok m → ∃ i, stream_index id (max_streams (sched_pool m)) = Some i ∧ (i < length (streams (sched_pool m)))%nat.
Proof.
  intros Hm. unfold sched_ok, stream_index in *. rewrite decide_False by lia. eexists; split; [done|].
  pose proof (Z.mod_pos_bound id (Z.of_nat (max_streams (sched_pool m))) ltac:(lia)). lia.
Qed.
Lemma wp_index_of id m (Q : nat → SchedulerMultiStream T S F → Prop) :
  sched_ok m →
  (∀ i, stream_index id (max_streams (sched_pool m)) = Some i → (i < length (streams (sched_pool m)))%nat → Q i m) →
  wp (index_of id) m Q.
Proof.
  intros Hm HQ. destruct (sched_index id m Hm) as (i & Hi & Hlt). apply wp_bind, wp_gets.
  eapply wp_lift; [exact Hi|]. by apply HQ.
Qed.

(** The slots of stream ids. *)
Definition slots_of m (ids : list StreamId) (i : nat) : Prop :=
  ∃ id, id ∈ ids ∧ stream_index id (max_streams (sched_pool m)) = Some i.

Lemma wp_collect_indices ids acc m :
  sched_ok m → NoDup acc → Forall (λ i, i < length (streams (sched_pool m)))%nat acc →
  wp (collect_indices ids acc) m (λ l m', m' = m ∧ NoDup l ∧
    Forall (λ i, i < length (streams (sched_pool m)))%nat l ∧ (∃ l', l = acc ++ l') ∧
    ∀ i, i ∈ l ↔ i ∈ acc ∨ slots_of m ids i).
Proof.
  intros Hm. revert acc. induction ids as [|id ids IH]; intros acc Hnd Hlt; cbn [collect_indices].
  { apply wp_ret. split_and!; try done; [exists []; by rewrite app_nil_r|].
    intros i. split; [by left|]. by intros [?|(? & ?%not_elem_of_nil & _)]. }
  apply wp_bind, wp_index_of; [done|]. intros i Hi Hil.
  assert (∀ j, slots_of m (id :: ids) j ↔ j = i ∨ slots_of m ids j) as Hslots.
  { intros j. unfold slots_of. split.
    - intros (id' & [->|Hid]%elem_of_cons & Hj); [left; congruence|right; by exists id'].
    - intros [->|(id' & Hid & Hj)]; [exists id|exists id']; rewrite elem_of_cons; auto. }
  destruct (decide (i ∈ acc)) as [Hin|Hni].
  - eapply wp_mono; [by apply IH|]. intros l m' (-> & ? & ? & ? & Hl). split_and!; try done.
    intros j. rewrite Hl, Hslots. split; [tauto|intros [?|[->|?]]; tauto].
  - eapply wp_mono; [apply IH|].
    + apply NoDup_app. split; [done|]. split; [|apply NoDup_singleton]. intros j Hj ->%list_elem_of_singleton. done.
    + apply Forall_app. split; [done|]. by constructor.
    + intros l m' (-> & ? & ? & (l' & ->) & Hl). split_and!; try done; [exists (i :: l'); by rewrite <- app_assoc|].
      intros j. rewrite Hl, Hslots, elem_of_app, list_elem_of_singleton. tauto.
Qed.

Definition schedule_of (l : list T) (i : nat) : Schedule T := mk_Schedule l (length l) i.
Definition taken (indices : list nat) (v : nat → list T * list T) (j : nat) : list T * list T :=
  if decide (j ∈ indices) then ([], (v j).2) else v j.

Lemma wp_make_schedules indices m :
  NoDup indices → Forall (λ i, i < length (streams (sched_pool m)))%nat indices →
  wp (make_schedules indices) m (λ r m', same_shape m m' ∧
    r.1 = (λ i, schedule_of (queued m i) i) <$> indices ∧
    (∀ j, view m' j = taken indices (view m) j) ∧
    ((∃ i, i ∈ indices ∧ isolated m i) → r.2 = true)).
Proof.
  intros Hnd. revert m. induction Hnd as [|i l Hni Hnd IH]; intros m Hl; cbn [make_schedules].
  { apply wp_ret. split; [done|]. split; [done|]. split.
    - intros j. unfold taken. rewrite decide_False; [done|apply not_elem_of_nil].
    - by intros (i & ?%not_elem_of_nil & _). }
  apply Forall_cons in Hl as [Hi Hl]. apply wp_bind, wp_stream_mut; [done|]. intros w m1 Hs1 Hw Hv Hv1 Hiso1.
  apply wp_bind, wp_put_stream; [by rewrite (sh_length _ _ Hs1)|]. intros m2 Hs2 Hslot2.
  assert (∀ j, view m2 j = taken [i] (view m) j) as Hv2.
  { intros j. unfold view at 1, taken. rewrite Hslot2. destruct (decide (j = i)) as [->|Hne].
    - rewrite decide_True by by left. by rewrite <- Hv.
    - rewrite decide_False by by intros ->%list_elem_of_singleton. by rewrite <- Hv1. }
  apply wp_bind. eapply wp_mono; [apply IH|]; [by rewrite (sh_length _ _ Hs2), (sh_length _ _ Hs1)|].
  intros [ls b] m3 (Hs3 & Hls & Hv3 & Hb). cbn in *. apply wp_ret. cbn.
  split; [by etrans; [|etrans]|]. split; [|split].
  - rewrite Hls. f_equal; [by rewrite <- Hv|]. apply list_fmap_ext. intros k j Hj.
    rewrite Hv2. unfold taken. rewrite decide_False; [done|]. intros ->%list_elem_of_singleton.
    apply Hni. by eapply list_elem_of_lookup_2.
  - intros j. rewrite Hv3. unfold taken. rewrite Hv2. unfold taken.
    destruct (decide (j = i)) as [->|Hne].
    + rewrite (decide_False (P := i ∈ l)), !decide_True by (done || by left). done.
    + rewrite (decide_False (P := j ∈ [i])) by by intros ->%list_elem_of_singleton.
      destruct (decide (j ∈ l)); [by rewrite decide_True by by right|].
      by rewrite decide_False by by intros [?|?]%elem_of_cons.
  - intros (j & [->|Hj]%elem_of_cons & w' & Hw' & Hr).
    + destruct (Hiso1 i) as (w1 & Hw1 & Hr1); [by exists w'|].
      assert (w1 = w) as -> by congruence. by rewrite Hr1.
    + rewrite Hb; [by rewrite orb_true_r|]. exists j. split; [done|].
      destruct (Hiso1 j) as (w1 & Hw1 & Hr1); [by exists w'|]. exists w1. split; [|done].
      rewrite Hslot2, decide_False; [done|]. by intros ->.
Qed.

(** ** Executions *)
Definition in_sequence (indices : list nat) (v : nat → list T * list T) (j : nat) : list T * list T :=
  if decide (j ∈ indices) then ([], (v j).2 ++ (v j).1) else v j.
Definition interleaved (indices : list nat) (v : nat → list T * list T) : list T :=
  turns (foldr Nat.max 0%nat (length <$> ((λ i, (v i).1) <$> indices))) ((λ i, (v i).1) <$> indices).
Definition in_turns (indices : list nat) (v : nat → list T * list T) (j : nat) : list T * list T :=
  if decide (j ∈ indices)
  then ([], (v j).2 ++ if decide (head indices = Some j) then interleaved indices v else [])
  else v j.

Lemma wp_sequence indices (v : nat → list T) m :
  NoDup indices → Forall (λ i, i < length (streams (sched_pool m)))%nat indices →
  wp (execute_schedules_sequence ((λ i, schedule_of (v i) i) <$> indices)) m (λ _ m', same_shape m m' ∧
    ∀ j, view m' j = if decide (j ∈ indices) then (queued m j, logged m j ++ v j) else view m j).
Proof.
  intros Hnd. revert m. induction Hnd as [|i l Hni Hnd IH]; intros m Hl; cbn.
  { apply wp_ret. split; [done|]. intros j. rewrite decide_False; [done|apply not_elem_of_nil]. }
  apply Forall_cons in Hl as [Hi Hl]. apply wp_bind, wp_enqueue_all; [done|]. intros m1 Hs1 Hv1.
  apply wp_bind, wp_flush_stream; [by rewrite (sh_length _ _ Hs1)|]. intros m2 Hs2 Hv2.
  eapply wp_mono; [apply IH; by rewrite (sh_length _ _ Hs2), (sh_length _ _ Hs1)|].
  intros [] m3 [Hs3 Hv3]. split; [by etrans; [|etrans]|]. intros j. rewrite Hv3, !Hv2, !Hv1.
  destruct (decide (j = i)) as [->|Hne].
  - by rewrite decide_False, decide_True by (done || by left).
  - destruct (decide (j ∈ l)); [by rewrite decide_True by by right|].
    by rewrite decide_False by by intros [?|?]%elem_of_cons.
Qed.
Lemma wp_interleave i indices (v : nat → list T) m :
  Forall (λ i, i < length (streams (sched_pool m)))%nat (i :: indices) →
  wp (execute_schedules_interleave ((λ i, schedule_of (v i) i) <$> i :: indices)) m (λ _ m', same_shape m m' ∧
    ∀ j, view m' j = if decide (j = i) then (queued m i, logged m i ++
      turns (foldr Nat.max 0%nat (length <$> (v <$> i :: indices))) (v <$> i :: indices)) else view m j).
Proof.
  intros Hl. unfold execute_schedules_interleave.
  assert ((schedule_index <$> ((λ i, schedule_of (v i) i) <$> indices)) = indices) as Hidx.
  { clear Hl. induction indices as [|k l IH]; [done|]. cbn. by rewrite IH. }
  apply wp_bind, wp_flush_indices; [cbn; rewrite Hidx; by apply Forall_cons in Hl as [_ Hl]|].
  intros m1 Hs1 Hv1. apply Forall_cons in Hl as [Hi Hl]. apply wp_bind. eapply wp_lift; [done|].
  rewrite <- !list_fmap_compose. apply wp_bind, wp_enqueue_all; [cbn; by rewrite (sh_length _ _ Hs1)|].
  intros m2 Hs2 Hv2. apply wp_flush_stream; [cbn; by rewrite (sh_length _ _ Hs2), (sh_length _ _ Hs1)|].
  intros m3 Hs3 Hv3. split; [by etrans; [|etrans]|]. intros j. rewrite Hv3, Hv2, !Hv1. done.
Qed.

(** The slots executed, in the order they are first named. *)
Definition executes m (ids : list StreamId) (indices : list nat) (m' : SchedulerMultiStream T S F) : Prop :=
  NoDup indices ∧ (∀ i, i ∈ indices ↔ slots_of m ids i) ∧
  ((∀ j, view m' j = in_sequence indices (view m) j) ∨
   (strategy m = Interleave ∧ (∀ i, i ∈ indices → ¬ isolated m i) ∧
    ∀ j, view m' j = in_turns indices (view m) j)).

Lemma wp_execute_streams ids m :
  sched_ok m →
  wp (execute_streams ids) m (λ _ m', same_shape m m' ∧ ∃ indices, executes m ids indices m' ∧
    (strategy m = Sequential → ∀ j, view m' j = in_sequence indices (view m) j)).
Proof.
  intros Hm. apply wp_bind. eapply wp_mono; [apply (wp_collect_indices ids [] m Hm); constructor|].
  intros indices m1 (-> & Hnd & Hlt & _ & Hin). apply wp_bind.
  assert (∀ i, i ∈ indices ↔ slots_of m ids i) as Hslots.
  { intros i. rewrite Hin. split; [by intros [?%not_elem_of_nil|?]|by right]. }
  eapply wp_mono; [by apply wp_make_schedules|]. intros [l b] m1 (Hs1 & Hl & Hv1 & Hb). cbn in Hl, Hb.
  destruct indices as [|i indices].
  { cbn in Hl. subst l. apply wp_ret. split; [done|]. exists [].
    assert (∀ j, view m1 j = in_sequence [] (view m) j) as Hseq.
    { intros j. rewrite Hv1. unfold taken, in_sequence. by rewrite !decide_False by apply not_elem_of_nil. }
    split; [|done]. split; [done|]. split; [done|]. by left. }
  rewrite Hl. cbn [fst snd fmap list_fmap]. apply wp_bind, wp_gets.
  assert (wp (execute_schedules_sequence ((λ i, schedule_of (queued m i) i) <$> i :: indices)) m1
    (λ _ m', same_shape m m' ∧ ∀ j, view m' j = in_sequence (i :: indices) (view m) j)) as Hseq.
  { eapply wp_mono; [apply wp_sequence; [done|by rewrite (sh_length _ _ Hs1)]|].
    intros [] m2 [Hs2 Hv2]. split; [by etrans|]. intros j. rewrite Hv2, !Hv1. unfold taken, in_sequence.
    by case_decide. }
  assert (wp (execute_schedules_sequence ((λ i, schedule_of (queued m i) i) <$> i :: indices)) m1
    (λ _ m', same_shape m m' ∧ ∃ indices, executes m ids indices m' ∧
      (strategy m = Sequential → ∀ j, view m' j = in_sequence indices (view m) j))) as Hseq'.
  { eapply wp_mono; [exact Hseq|]. intros [] m2 [Hs2 Hv2]. split; [done|]. exists (i :: indices).
    split; [|done]. split; [done|]. split; [done|]. by left. }
  rewrite (sh_strategy _ _ Hs1). destruct (strategy m) eqn:Hst; [|exact Hseq']. destruct b; [exact Hseq'|].
  eapply wp_mono; [apply (wp_interleave i indices (λ i, queued m i)); by rewrite (sh_length _ _ Hs1)|].
  intros [] m2 [Hs2 Hv2]. split; [by etrans|]. exists (i :: indices). split; [|done].
  split; [done|]. split; [done|]. right. split; [done|]. split.
  - intros j Hj Hiso. by assert (false = true) by (apply Hb; eauto).
  - intros j. rewrite Hv2, !Hv1. unfold taken, in_turns, interleaved. cbn [head].
    destruct (decide (j = i)) as [->|Hne].
    + rewrite !decide_True by (done || by left). done.
    + rewrite (decide_False (P := Some i = Some j)) by congruence. case_decide; [by rewrite app_nil_r|done].
Qed.

(** ** Registration *)
Lemma wp_conflicting i args m :
  sched_ok m →
  wp (conflicting i args) m (λ l m', m' = m ∧
    ∀ j, slots_of m l j ↔ slots_of m args j ∧ j ≠ i).
Proof.
  intros Hm. induction args as [|a args IH]; cbn [conflicting].
  { apply wp_ret. split; [done|]. intros j. split; [|tauto]. by intros (? & ?%not_elem_of_nil & _). }
  apply wp_bind, wp_index_of; [done|]. intros k Hk _. apply wp_bind.
  eapply wp_mono; [exact IH|]. intros l m' (-> & Hl). apply wp_ret. split; [done|]. intros j.
  assert (∀ l, slots_of m (a :: l) j ↔ j = k ∨ slots_of m l j) as Hcons.
  { intros l'. unfold slots_of. split.
    - intros (id' & [->|Hid]%elem_of_cons & Hj); [left; congruence|right; by exists id'].
    - intros [->|(id' & Hid & Hj)]; [exists a|exists id']; rewrite elem_of_cons; auto. }
  case_decide; [subst; rewrite Hl, Hcons|rewrite !Hcons, Hl]; intuition congruence.
Qed.
Lemma slots_of_shape m m' ids i : same_shape m m' → slots_of m' ids i ↔ slots_of m ids i.
Proof. intros [Hm _ _ _]. unfold slots_of. by rewrite Hm. Qed.
Lemma slots_of_nil m i : ¬ slots_of m [] i.
Proof. by intros (? & ?%not_elem_of_nil & _). Qed.

Lemma wp_align id args m i :
  sched_ok m → stream_index id (max_streams (sched_pool m)) = Some i →
  wp (align_streams id args) m (λ _ m', same_shape m m' ∧ ∃ indices,
    (∀ j, j ∈ indices ↔ slots_of m args j ∧ j ≠ i) ∧
    ((∀ j, view m' j = in_sequence indices (view m) j) ∨
     (strategy m = Interleave ∧ ∀ j, view m' j = in_turns indices (view m) j))).
Proof.
  intros Hm Hi. apply wp_bind, wp_index_of; [done|]. intros i' Hi' _. assert (i' = i) as -> by congruence.
  apply wp_bind. eapply wp_mono; [by apply wp_conflicting|]. intros l m' (-> & Hl).
  case_bool_decide as Hnil.
  - apply wp_ret. split; [done|]. exists []. split.
    + intros j. rewrite <- Hl, Hnil. split; [by intros ?%not_elem_of_nil|by intros ?%slots_of_nil].
    + left. intros j. unfold in_sequence. by rewrite decide_False by apply not_elem_of_nil.
  - eapply wp_mono; [by apply wp_execute_streams|]. intros [] m' (Hs & indices & (_ & Hin & Hv) & _).
    split; [done|]. exists indices. split; [intros j; by rewrite Hin, Hl|].
    destruct Hv as [Hv|(Hst & _ & Hv)]; [by left|by right].
Qed.

(** Executing one stream gives the queue its tasks in their order, whatever
    the strategy. *)
Lemma one_executed m id i indices m' :
  stream_index id (max_streams (sched_pool m)) = Some i → executes m [id] indices m' →
  ∀ j, view m' j = if decide (j = i) then ([], logged m i ++ queued m i) else view m j.
Proof.
  intros Hi (Hnd & Hin & Hv).
  assert (∀ j, j ∈ indices ↔ j = i) as Hone.
  { intros j. rewrite Hin. unfold slots_of. split.
    - intros (id' & ->%list_elem_of_singleton & Hj). congruence.
    - intros ->. exists id. split; [by left|done]. }
  assert (indices = [i]) as ->.
  { destruct indices as [|k l]; [exfalso; by eapply (not_elem_of_nil i), Hone|].
    assert (k = i) as -> by (apply Hone; left). destruct l as [|k' l]; [done|].
    assert (k' = i) as -> by (apply Hone; right; left). apply NoDup_cons in Hnd as [Hni _].
    exfalso. apply Hni. left. }
  destruct Hv as [Hv|(_ & _ & Hv)]; intros j; rewrite Hv.
  - unfold in_sequence. destruct (decide (j = i)) as [->|Hne]; [by rewrite decide_True by by left|].
    by rewrite decide_False by by intros ->%list_elem_of_singleton.
  - unfold in_turns, interleaved. destruct (decide (j = i)) as [->|Hne].
    + rewrite !decide_True by (done || by left). cbn. rewrite Nat.max_0_r. by rewrite turns_one.
    + by rewrite decide_False by by intros ->%list_elem_of_singleton.
Qed.

Lemma wp_register id task args m i :
  sched_ok m → stream_index id (max_streams (sched_pool m)) = Some i →
  wp (register id task args) m (λ _ m', same_shape m m' ∧ ∃ indices,
    (∀ j, j ∈ indices ↔ slots_of m args j ∧ j ≠ i) ∧
    (if max_tasks m <=? Z.of_nat (length (queued m i)) + 1
     then view m' i = ([], logged m i ++ queued m i ++ [task])
     else view m' i = (queued m i ++ [task], logged m i)) ∧
    ((∀ j, j ≠ i → view m' j = in_sequence indices (view m) j) ∨
     (strategy m = Interleave ∧ ∀ j, j ≠ i → view m' j = in_turns indices (view m) j))).
Proof.
  intros Hm Hi. apply wp_bind. eapply wp_mono; [by apply wp_align|].
  intros [] m1 (Hs1 & indices & Hin & Hv1). pose proof (shape_ok _ _ Hs1 Hm) as Hm1.
  assert (view m1 i = view m i) as Hvi.
  { assert (i ∉ indices) as Hni by (intros [_ ?]%Hin; done).
    destruct Hv1 as [Hv1|[_ Hv1]]; rewrite Hv1; [unfold in_sequence|unfold in_turns]; by rewrite decide_False. }
  apply wp_bind, wp_index_of; [done|]. intros i' Hi' Hlt.
  assert (i' = i) as -> by (rewrite (sh_max _ _ Hs1) in Hi'; congruence).
  apply wp_bind, wp_stream_mut; [done|]. intros w m2 Hs2 Hw Hvw Hv2 _. rewrite Hvi in Hvw.
  apply wp_bind, wp_put_stream; [by rewrite (sh_length _ _ Hs2)|]. intros m3 Hs3 Hslot3.
  assert (∀ j, view m3 j = if decide (j = i) then (queued m i ++ [task], logged m i) else view m1 j) as Hv3.
  { intros j. unfold view at 1. rewrite Hslot3. case_decide; [by rewrite <- Hvw|by rewrite <- Hv2]. }
  assert (same_shape m m3) as Hs by (by etrans; [|etrans]).
  apply wp_bind, wp_gets. rewrite (sh_tasks _ _ Hs). rewrite length_app.
  replace (tasks w) with (queued m i) by by rewrite <- Hvw. cbn [length].
  replace (Z.of_nat (length (queued m i) + 1)) with (Z.of_nat (length (queued m i)) + 1) by lia.
  assert (∀ m4, (∀ j, j ≠ i → view m4 j = view m1 j) →
    (∀ j, j ≠ i → view m4 j = in_sequence indices (view m) j) ∨
    (strategy m = Interleave ∧ ∀ j, j ≠ i → view m4 j = in_turns indices (view m) j)) as Hrest.
  { intros m4 Hv4. destruct Hv1 as [Hv1|[Hst Hv1]]; [left|right; split; [done|]]; intros j Hj; by rewrite Hv4, Hv1. }
  destruct (max_tasks m <=? _).
  - eapply wp_mono; [apply (wp_execute_streams [id] m3); by eapply shape_ok|].
    intros [] m4 (Hs4 & idx & Hex & _). split; [by etrans|]. exists indices. split; [done|].
    pose proof (one_executed m3 id i idx m4 ltac:(by rewrite (sh_max _ _ Hs)) Hex) as Hv4. split.
    + rewrite Hv4, decide_True, Hv3, decide_True by done. cbn. done.
    + apply Hrest. intros j Hj. by rewrite Hv4, decide_False, Hv3, decide_False by done.
  - apply wp_ret. split; [done|]. exists indices. split; [done|]. split; [by rewrite Hv3, decide_True|].
    apply Hrest. intros j Hj. by rewrite Hv3, decide_False.
Qed.

Lemma initialized_spec (l : list (option (Stream T S))) i :
  i ∈ initialized l ↔ ∃ w, l !! i = Some (Some w).
Proof.
  unfold initialized. rewrite list_elem_of_omap. split.
  - intros ([k o] & Hk & Ho). apply list_elem_of_lookup in Hk as [n Hn].
    rewrite list_lookup_imap in Hn. destruct (l !! n) as [o'|] eqn:Hl; [|done]. injection Hn as <- <-.
    destruct o' as [w|]; [|done]. injection Ho as <-. by exists w.
  - intros [w Hw]. exists (i, Some w). split; [|done]. apply list_elem_of_lookup. exists i.
    by rewrite list_lookup_imap, Hw.
Qed.
(** Every id listed is that of an initialized slot, and every one is listed. *)
Lemma slots_of_ids m i :
  sched_ok m → slots_of m (stream_ids (sched_pool m)) i ↔
    (i < max_streams (sched_pool m))%nat ∧ is_Some (slot m i).
Proof.
  intros Hm. unfold slots_of, stream_ids.
  assert (∀ k, (k < max_streams (sched_pool m))%nat →
    stream_index (Z.of_nat k) (max_streams (sched_pool m)) = Some k) as Hidx.
  { intros k Hk. unfold stream_index. rewrite decide_False by lia. rewrite Z.mod_small by lia.
    by rewrite Nat2Z.id. }
  assert (∀ k, k ∈ omap (λ '(i, s), (λ _ : Stream T S, Z.of_nat i) <$> s)
      (imap (λ i s, (i, s)) (take (max_streams (sched_pool m)) (streams (sched_pool m)))) ↔
    ∃ n, k = Z.of_nat n ∧ (n < max_streams (sched_pool m))%nat ∧ is_Some (slot m n)) as Hids.
  { intros k. rewrite list_elem_of_omap. split.
    - intros ([n o] & Hn & Ho). apply list_elem_of_lookup in Hn as [j Hj]. rewrite list_lookup_imap in Hj.
      destruct (take _ _ !! j) as [o'|] eqn:Ht; [|done]. injection Hj as <- <-.
      apply lookup_take_Some in Ht as [Ht Hlt]. destruct o' as [w|]; [|done]. injection Ho as <-.
      exists j. split; [done|]. split; [done|]. unfold slot. rewrite Ht. by exists w.
    - intros (n & -> & Hlt & w & Hw). exists (n, Some w). split; [|done]. apply list_elem_of_lookup.
      exists n. rewrite list_lookup_imap, lookup_take_lt by done. unfold slot in Hw.
      destruct (streams (sched_pool m) !! n); cbn in *; by subst. }
  split.
  - intros (id & Hid & Hi). apply Hids in Hid as (n & -> & Hlt & Hs).
    rewrite Hidx in Hi by done. by injection Hi as <-.
  - intros [Hlt Hs]. exists (Z.of_nat i). split; [apply Hids; by exists i|by apply Hidx].
Qed.

Lemma wp_flush_all m :
  sched_ok m → max_streams (sched_pool m) = length (streams (sched_pool m)) →
  wp flush_all m (λ _ m', same_shape m m' ∧ (∀ i, queued m' i = []) ∧
    ∃ indices, (∀ i, i ∈ indices ↔ is_Some (slot m i)) ∧
      ((∀ j, view m' j = in_sequence indices (view m) j) ∨
       (strategy m = Interleave ∧ ∀ j, view m' j = in_turns indices (view m) j))).
Proof.
  intros Hm Hlen. apply wp_bind, wp_gets, wp_bind. eapply wp_mono; [by apply wp_execute_streams|].
  intros [] m1 (Hs1 & indices & (_ & Hin & Hv) & _). apply wp_bind, wp_gets, wp_flush_indices.
  { apply Forall_forall. intros i Hi. apply initialized_spec in Hi as [w Hw]. by eapply lookup_lt_Some. }
  intros m2 Hs2 Hv2.
  assert (∀ i, i ∈ indices ↔ is_Some (slot m i)) as Hslots.
  { intros i. rewrite Hin, slots_of_ids by done. split; [tauto|]. intros [w Hw]. split; [|by exists w].
    unfold slot in Hw. destruct (streams (sched_pool m) !! i) eqn:He; [|done]. apply lookup_lt_Some in He. lia. }
  split; [by etrans|]. split.
  - intros i. rewrite Hv2. assert (i ∉ indices → (view m i).1 = []) as Hnone.
    { rewrite Hslots. unfold view. destruct (slot m i); [|done]. intros Hn. exfalso. apply Hn. by eexists. }
    destruct Hv as [Hv|(_ & _ & Hv)]; rewrite Hv; [unfold in_sequence|unfold in_turns]; case_decide; auto.
  - exists indices. split; [done|].
    destruct Hv as [Hv|(Hst & _ & Hv)]; [left|right; split; [done|]]; intros j; by rewrite Hv2, Hv.
Qed.

(** The tasks of the slots, each slot's in its order. *)
Definition fair (indices : list nat) m (l : list T) : Prop :=
  l ≡ₚ concat ((λ i, queued m i) <$> indices) ∧
  ∀ i, i ∈ indices → sublist (queued m i) l.
Lemma interleaved_fair indices m : fair indices m (interleaved indices (view m)).
Proof.
  unfold fair, interleaved. set (ls := (λ i, (view m i).1) <$> indices). pose proof (max_le ls) as Hmax.
  split; [by apply turns_perm|]. intros i [k Hk]%list_elem_of_lookup.
  assert (ls !! k = Some (queued m i)) as Hl by (unfold ls; by rewrite list_lookup_fmap, Hk).
  eapply turns_sublist; [exact Hl|]. by apply (proj1 (Forall_lookup _ _) Hmax k).
Qed.


(** C7: registering a task first executes the streams of its arguments that
    have another slot, so that none of their tasks still waits, and then puts the
    task after those of its own stream; when that makes as many as the
    maximum, the stream is executed, so that fewer wait, and the queue gets
    its tasks and then the new one.  The streams that are not named keep
    theirs. *)
Theorem register_correct id task args m i :
  sched_ok m → stream_index id (max_streams (sched_pool m)) = Some i → 0 < max_tasks m →
  wp (register id task args) m (λ _ m', same_shape m m' ∧
    (∀ j, slots_of m args j → j ≠ i → queued m' j = []) ∧
    (∀ j, ¬ slots_of m args j → j ≠ i → view m' j = view m j) ∧
    (Z.of_nat (length (queued m i)) < max_tasks m → Z.of_nat (length (queued m' i)) < max_tasks m) ∧
    logged m' i ++ queued m' i = logged m i ++ queued m i ++ [task]).
Proof.
  intros Hm Hi Hmax. eapply wp_mono; [by apply wp_register|].
  intros [] m' (Hs & indices & Hin & Hcur & Hrest). split; [done|].
  assert (∀ j, j ≠ i → (j ∈ indices → queued m' j = []) ∧ (j ∉ indices → view m' j = view m j)) as Hj.
  { intros j Hj. destruct Hrest as [Hv|[_ Hv]]; rewrite (Hv j Hj); [unfold in_sequence|unfold in_turns];
      by case_decide. }
  split; [intros j Hslot Hne; by apply (Hj j Hne), Hin|].
  split; [intros j Hslot Hne; apply (Hj j Hne); by intros [? _]%Hin|].
  destruct (Z.leb_spec (max_tasks m) (Z.of_nat (length (queued m i)) + 1)); rewrite Hcur; cbn.
  - rewrite app_nil_r. split; [lia|done].
  - rewrite length_app. cbn. split; [lia|done].
Qed.

(** [flush_all] leaves no task waiting on any stream, and gives them all to
    the queue. *)
Theorem flush_all_correct m :
  sched_ok m → max_streams (sched_pool m) = length (streams (sched_pool m)) →
  wp flush_all m (λ _ m', (∀ i, queued m' i = []) ∧
    ∃ indices, (∀ i, i ∈ indices ↔ is_Some (slot m i)) ∧
      ((∀ i, logged m' i = logged m i ++ queued m i) ∨
       ∃ first l, fair indices m l ∧
         ∀ i, logged m' i = logged m i ++ if decide (i = first) then l else [])).
Proof.
  intros Hm Hlen. eapply wp_mono; [by apply wp_flush_all|].
  intros [] m' (_ & Hq & indices & Hin & Hv). split; [done|]. exists indices. split; [done|].
  assert (∀ i, i ∉ indices → view m i = ([], [])) as Hout.
  { intros i Hi. unfold view. destruct (slot m i) eqn:Hs; [|done]. exfalso. apply Hi, Hin. by eexists. }
  destruct Hv as [Hv|[_ Hv]]; [left|right].
  - intros i. rewrite Hv. unfold in_sequence. case_decide as Hi; [done|]. by rewrite Hout.
  - exists (default 0%nat (head indices)), (interleaved indices (view m)).
    split; [apply interleaved_fair|]. intros i. rewrite Hv. unfold in_turns. case_decide as Hi; cbn.
    + destruct indices as [|k l]; [by apply not_elem_of_nil in Hi|]. cbn.
      do 2 case_decide; congruence.
    + rewrite Hout by done. case_decide as Hd; [|done].
      destruct indices as [|k l]; [done|]. exfalso. apply Hi. subst i. left.
Qed.
End tasks.

(** ** A backend that logs *)
Module Queue.
#[export] Instance queueing : SchedulerStreamBackend Z (list Z) unit := {|
  factory_create f := ([], f);
  enqueue t s := mret (s ++ [t]);
  flush s := mret s;
  requires_isolation s := bool_decide (100 ∈ s);
|}.
#[export] Program Instance queueing_laws : SchedulerLaws Z (list Z) unit := {| enqueued s := s |}.
Solve Obligations with done.

(** Streams 0 and 1 hold two tasks and one, stream 2 was never used. *)
Definition m0 : SchedulerMultiStream Z (list Z) unit :=
  mk_Scheduler (mk_StreamPool [Some (mk_Stream [1; 2] []); Some (mk_Stream [3] [9]); None] 3) tt (mk_ErrorGraph ∅ 0)
    Interleave 3.
Lemma m0_ok : sched_ok m0.
Proof. unfold sched_ok; cbn. lia. Qed.
End Queue.
Import Queue.


Lemma register_correct_witness :
  wp (register 0 7 [1; 3]) m0 (λ _ m',
    ((view m' 0) = ([], [1; 2; 7]) ∧ view m' 1 = ([], [9; 3])) ∧
    (view m' 0).2 ++ (view m' 0).1 = [1; 2; 7]).
Proof.
  apply wp_conj; [vm_compute; auto|].
  eapply wp_mono; [apply (register_correct 0 7 [1; 3] m0 0 m0_ok); [reflexivity|done]|].
  intros [] m' (_ & _ & _ & _ & Hl). exact Hl.
Defined.

Lemma flush_all_correct_witness :
  wp flush_all m0 (λ _ m', (view m' 0).2 = [1; 3; 2] ∧ ∀ i, (view m' i).1 = []).
Proof.
  apply wp_conj; [vm_compute; auto|]. eapply wp_mono; [apply (flush_all_correct m0 m0_ok); reflexivity|].
  intros [] m' (Hq & _). exact Hq.
Defined.
