(* ===== verification/Environment.v ===== *)
(** * Named environments

    [cubecl-environment/src/environment.rs] and [persistence/namespace.rs]: the
    one environment that is active, its file, the generation that tells a
    switch, and the namespaces inside it.  A text is a list of Unicode scalar
    values. *)

From S2P Require Export Prelude.
From stdpp Require Import list.
#[local] Open Scope Z_scope.

Abbreviation Text := (list Z) (only parsing).

(** ** Names *)
Definition is_ascii_alphanumeric (c : Z) : bool :=
  (48 <=? c) && (c <=? 57) || (65 <=? c) && (c <=? 90) || (97 <=? c) && (c <=? 122).
Definition is_dot (c : Z) : bool := c =? 46.
(** Letters, digits, [-], [_] and [.]. *)
Definition name_char (c : Z) : bool := is_ascii_alphanumeric c || (c =? 45) || (c =? 95) || is_dot c.
(** [default] *)
Definition DEFAULT : Text := [100; 101; 102; 97; 117; 108; 116].
(** [.db] *)
Definition EXTENSION : Text := [46; 100; 98].
Definition sanitize (name : Text) : Text :=
  let cleaned := (λ c, if name_char c then c else 95) <$> name in
  if bool_decide (cleaned = []) || forallb is_dot cleaned then DEFAULT else cleaned.
Definition file_name (name : Text) : Text := sanitize name ++ EXTENSION.

(** ** The active environment

    A path is a parameter, as is joining a file name to it. *)
Section environment.
Context {Path : Type} (join : Path → Text → Path) (default_root : Path).

Record Active := mk_Active { active_name : Text; active_root : option Path; active_file : option Path }.
(** The global state: the active environment, and the counter of its switches. *)
Record Environment := mk_Environment { env_active : Active; GENERATION : Z }.
Definition environment_new : Environment := mk_Environment (mk_Active DEFAULT None None) 0.
Implicit Types (e : Environment).

(** [fetch_add] on a [u32] wraps. *)
Definition switched (active : Active) e : Environment := mk_Environment active (as_u32 (GENERATION e + 1)).
Definition activate (name : Text) e : Environment :=
  switched (mk_Active (sanitize name) (active_root (env_active e)) None) e.
Definition set_root (root : Path) e : Environment :=
  switched (mk_Active (active_name (env_active e)) (Some root) None) e.
Definition load (file : Path) e : Environment :=
  switched (mk_Active (active_name (env_active e)) (active_root (env_active e)) (Some file)) e.
Definition root_or_default (a : Active) : Path := default default_root (active_root a).
Definition path e : Path :=
  match active_file (env_active e) with
  | Some file => file
  | None => join (root_or_default (env_active e)) (file_name (active_name (env_active e)))
  end.
End environment.
Arguments Active : clear implicits.
Arguments Environment : clear implicits.

(** ** Namespaces *)
Fixpoint trim_start (c : Z) (t : Text) : Text :=
  match t with
  | x :: t' => if x =? c then trim_start c t' else t
  | [] => []
  end.
Definition trim_matches (c : Z) (t : Text) : Text := reverse (trim_start c (reverse (trim_start c t))).
Definition slash : Z := 47.
(** [cubecl] *)
Definition DEFAULT_NAME : Text := [99; 117; 98; 101; 99; 108].
Section namespace.
(** The version of the build. *)
Context (version : Text).
Definition namespace_scoped (name path : Text) : Text :=
  name ++ [slash] ++ version ++ [slash] ++ trim_matches slash path.
Definition namespace_new (path : Text) : Text := namespace_scoped DEFAULT_NAME path.
End namespace.

(** ** What the names promise *)

(** A name that is safe as the name of a file: it has a character that is not
    a dot, and no separator. *)
Definition safe_name (name : Text) : Prop :=
  Forall (λ c, name_char c = true) name ∧ Exists (λ c, is_dot c = false) name.
Lemma safe_sanitized name : safe_name name → sanitize name = name.
Proof.
  intros [Hall Hex]. unfold sanitize.
  assert (((λ c, if name_char c then c else 95) <$> name) = name) as ->.
  { clear Hex. induction Hall as [|c l Hc _ IH]; [done|]. cbn. by rewrite Hc, IH. }
  apply Exists_exists in Hex as (c & Hc & Hdot). rewrite bool_decide_false by by destruct name; [apply not_elem_of_nil in Hc|].
  destruct (forallb is_dot name) eqn:Hd; [|done]. rewrite forallb_forall in Hd.
  rewrite (Hd c) in Hdot; [done|]. by apply list_elem_of_In.
Qed.
Lemma sanitize_safe name : safe_name (sanitize name).
Proof.
  unfold sanitize. set (cleaned := _ <$> name). destruct (bool_decide (cleaned = []) || forallb is_dot cleaned) eqn:Hd.
  { split; [by repeat constructor|by constructor]. }
  split.
  - apply Forall_fmap, Forall_forall. intros c _. unfold compose. by destruct (name_char c) eqn:Hc.
  - apply orb_false_iff in Hd as [_ Hd]. clearbody cleaned. induction cleaned as [|c l IH]; [done|]. cbn in Hd.
    destruct (is_dot c) eqn:Hc; [right; by apply IH|by left].
Qed.

Section switches.
Context {Path : Type} (join : Path → Text → Path) (default_root : Path).
Implicit Types (e : Environment Path).

(** What switches the environment; the rest of the program reads it. *)
Inductive switch : Environment Path → Environment Path → Prop :=
| switch_activate name e : switch e (activate name e)
| switch_set_root root e : switch e (set_root root e)
| switch_load file e : switch e (load file e).
Inductive switches : nat → Environment Path → Environment Path → Prop :=
| switches_none e : switches 0 e e
| switches_more n e e' e'' : switch e e' → switches n e' e'' → switches (S n) e e''.

Lemma switch_generation e e' : switch e e' → GENERATION e' = (GENERATION e + 1) mod 2 ^ 32.
Proof. intros []; cbn; unfold as_u32; by rewrite Z.land_ones. Qed.
Lemma switches_generation n e e' :
  0 <= GENERATION e < 2 ^ 32 → switches n e e' → GENERATION e' = (GENERATION e + Z.of_nat n) mod 2 ^ 32.
Proof.
  intros He Hs. induction Hs as [e|n e e1 e2 H1 _ IH]; [by rewrite Z.add_0_r, Z.mod_small|].
  apply switch_generation in H1. assert (0 <= GENERATION e1 < 2 ^ 32) as He1 by (rewrite H1; by apply Z.mod_pos_bound).
  rewrite IH, H1 by done. rewrite Zplus_mod_idemp_l. f_equal. lia.
Qed.

Lemma switches_safe n e e' : switches n e e' → safe_name (active_name (env_active e)) → safe_name (active_name (env_active e')).
Proof. induction 1 as [e|n e e1 e2 H1 _ IH]; [done|]. intros H. apply IH. destruct H1; [apply sanitize_safe|done|done]. Qed.

(** A switch is seen, and keeps to the root.  However the environment was
    switched, up to four billion times, its generation is not what it was
    before; the active name stays safe for a file, whatever names were given,
    so the path is a file that was mounted or a file of the root with no
    separator in its name, the one its name stands for. *)
Theorem switch_seen n e e' :
  0 <= GENERATION e < 2 ^ 32 → safe_name (active_name (env_active e)) → switches n e e' → (0 < n)%nat → Z.of_nat n < 2 ^ 32 →
  GENERATION e' ≠ GENERATION e ∧ safe_name (active_name (env_active e')) ∧
  (active_file (env_active e') = Some (path join default_root e') ∨
   path join default_root e' =
     join (root_or_default default_root (env_active e')) (active_name (env_active e') ++ EXTENSION)).
Proof.
  intros He Hsafe Hs Hn Hlt. pose proof (switches_generation n e e' He Hs) as Hg. split; [|split].
  - rewrite Hg. intros Heq. assert (GENERATION e + Z.of_nat n - 2 ^ 32 = GENERATION e ∨ GENERATION e + Z.of_nat n = GENERATION e); [|lia].
    destruct (Z.ltb_spec (GENERATION e + Z.of_nat n) (2 ^ 32)); [rewrite Z.mod_small in Heq by lia; lia|].
    rewrite (Z.mod_eq _ (2 ^ 32)) in Heq by done.
    assert ((GENERATION e + Z.of_nat n) / 2 ^ 32 = 1) as Hq; [|rewrite Hq in Heq; lia].
    symmetry. apply (Z.div_unique _ _ _ (GENERATION e + Z.of_nat n - 2 ^ 32)); lia.
  - by eapply switches_safe.
  - apply (switches_safe _ _ _ Hs) in Hsafe.
    unfold path. destruct (active_file (env_active e')); [by left|right]. unfold file_name. by rewrite safe_sanitized.
Qed.
End switches.

Lemma switch_seen_witness :
  let e := activate [46; 46; 47; 120] (load 7 (environment_new (Path := Z))) in
  active_name (env_active e) = [46; 46; 95; 120] ∧ GENERATION e ≠ 0.
Proof.
  split; [reflexivity|]. apply (switch_seen (λ r _, r) 0 2 (environment_new (Path := Z))).
  - cbn. lia.
  - split; [repeat constructor|]. by constructor.
  - exact (switches_more 1 _ _ _ (switch_load 7 _) (switches_more 0 _ _ _ (switch_activate [46; 46; 47; 120] _) (switches_none _))).
  - lia.
  - lia.
Defined.
