(* ===== verification/Persistence.v ===== *)
(** * Key-value persistence

    [cubecl-environment/src/persistence/storage.rs] and [store.rs]: the
    contract of a storage of one namespace, the storage in memory, and the
    typed store over a storage, which serves reads from memory and lets the
    storage arbitrate its writes. *)

From S2P Require Export Prelude Environment.
From stdpp Require Import list gmap strings fin_sets.
#[local] Open Scope Z_scope.

(** Bytes, as a string of 8-bit characters. *)
Abbreviation Bytes := string (only parsing).

(** ** The storage of a namespace *)
Inductive Origin := Local | Imported.
#[global] Instance Origin_eq_dec : EqDecision Origin.
Proof. solve_decision. Defined.
Inductive Insertion := Stored | Conflict (existing : Bytes) | Failed (error : string).
Record InsertSummary := mk_InsertSummary { sum_stored : Z; sum_conflict : Z; sum_failed : Z }.
Definition summary_default : InsertSummary := mk_InsertSummary 0 0 0.
Definition summary_record (i : Insertion) (s : InsertSummary) : option InsertSummary :=
  match i with
  | Stored => n ← add_u64 (sum_stored s) 1; Some (mk_InsertSummary n (sum_conflict s) (sum_failed s))
  | Conflict _ => n ← add_u64 (sum_conflict s) 1; Some (mk_InsertSummary (sum_stored s) n (sum_failed s))
  | Failed _ => n ← add_u64 (sum_failed s) 1; Some (mk_InsertSummary (sum_stored s) (sum_conflict s) n)
  end.
(** Whether a write of [incoming] may overwrite an entry of [existing]. *)
Definition replaces (incoming existing : Origin) : bool :=
  match incoming, existing with Local, Imported => true | _, _ => false end.

Abbreviation Rows := (gmap Bytes (Bytes * Origin)) (only parsing).

(** The trait, in a world [W] that has the environment and the disk; [H] is an
    opened storage.  A visitor of a scan is given the entries of a list. *)
Class Storage (W H : Type) := {
  generation : W → Z;
  storage_open : Text → M W H;
  storage_get : H → Bytes → M W (option Bytes);
  storage_insert : H → Bytes → Bytes → Origin → M W Insertion;
  storage_replace : H → Bytes → Bytes → Origin → M W Insertion;
  storage_scan : H → M W (list (Bytes * Bytes));
  storage_purge : H → M W unit;
  storage_purge_key : H → Bytes → M W unit;
}.

(** The default of [insert_many]. *)
Fixpoint insert_many `{Storage W H} (h : H) (entries : list (Bytes * Bytes)) (origin : Origin) (summary : InsertSummary) :
    M W InsertSummary :=
  match entries with
  | [] => mret summary
  | (key, value) :: entries =>
      i ← storage_insert h key value origin;
      summary ← lift (summary_record i summary);
      insert_many h entries origin summary
  end.

(** *** The contract

    What is in a storage, and whether its backend always works: a read that
    fails is a miss, a failed write says so, a failed delete is not reported. *)
Class StorageRows (W H : Type) := {
  rows : W → H → Rows;
  healthy : H → Prop;
}.
Section contract.
Context {W H : Type} `{Storage W H} `{StorageRows W H}.
Definition inserted (rw rw' : Rows) (key value : Bytes) (origin : Origin) (i : Insertion) : Prop :=
  match i with
  | Stored => rw' = <[key := (value, origin)]> rw ∧ ∀ b o, rw !! key = Some (b, o) → replaces origin o = true
  | Conflict b => rw' = rw ∧ ∃ o, rw !! key = Some (b, o) ∧ replaces origin o = false
  | Failed _ => rw' = rw
  end.
Definition replaced (rw rw' : Rows) (key value : Bytes) (origin : Origin) (i : Insertion) : Prop :=
  match i with
  | Stored => rw' = <[key := (value, origin)]> rw
  | Conflict _ => False
  | Failed _ => rw' = rw
  end.
End contract.

Class StorageLaws (W H : Type) `{Storage W H} `{StorageRows W H} := {
  open_keeps ns w : wp (storage_open ns) w (λ h w', generation w' = generation w);
  get_reads (h : H) key w : wp (storage_get h key) w (λ r w', generation w' = generation w ∧ rows w' h = rows w h ∧
    (r = None ∨ r = fst <$> rows w h !! key) ∧ (healthy h → r = fst <$> rows w h !! key));
  insert_arbitrates (h : H) key value origin w : wp (storage_insert h key value origin) w (λ i w', generation w' = generation w ∧
    inserted (rows w h) (rows w' h) key value origin i ∧ (healthy h → ∀ error, i ≠ Failed error));
  replace_writes (h : H) key value origin w : wp (storage_replace h key value origin) w (λ i w', generation w' = generation w ∧
    replaced (rows w h) (rows w' h) key value origin i ∧ (healthy h → ∀ error, i ≠ Failed error));
  scan_visits (h : H) w : wp (storage_scan h) w (λ l w', generation w' = generation w ∧ rows w' h = rows w h ∧ NoDup l.*1 ∧
    (∀ key value, (key, value) ∈ l → fst <$> rows w h !! key = Some value) ∧
    (healthy h → ∀ key, is_Some (rows w h !! key) → key ∈ l.*1));
  purge_deletes (h : H) w : wp (storage_purge h) w (λ _ w', generation w' = generation w ∧ rows w' h ⊆ rows w h ∧
    (healthy h → rows w' h = ∅));
  purge_key_deletes (h : H) key w : wp (storage_purge_key h key) w (λ _ w', generation w' = generation w ∧
    (rows w' h = rows w h ∨ rows w' h = delete key (rows w h)) ∧ (healthy h → rows w' h = delete key (rows w h)));
}.

(** ** The storage in memory *)
Module Memory.
Record World := mk_World {
  environment : Z;
  scope : Text;
  namespaces : gmap Text (gmap Bytes (Bytes * Origin));
}.
Section memory.
(** The order a hash map lists its entries in. *)
Context (entry_order : Rows → list (Bytes * (Bytes * Origin))).

Definition entries_get (es : Rows) (key : Bytes) : option Bytes := fst <$> es !! key.
Definition entries_insert (es : Rows) (key value : Bytes) (origin : Origin) : Insertion * Rows :=
  match es !! key with
  | Some (existing, existing_origin) =>
      if negb (replaces origin existing_origin) then (Conflict existing, es)
      else (Stored, <[key := (value, origin)]> es)
  | None => (Stored, <[key := (value, origin)]> es)
  end.
Definition entries_replace (es : Rows) (key value : Bytes) (origin : Origin) : Insertion * Rows :=
  (Stored, <[key := (value, origin)]> es).
Definition entries_scan (es : Rows) : list (Bytes * Bytes) := (λ e, (e.1, e.2.1)) <$> entry_order es.

(** The entries are shared by their key in the process-wide map, which is what
    an opened storage is. *)
Definition with_key (key : Text) : M World Text := λ w,
  match namespaces w !! key with
  | Some _ => Some (key, w)
  | None => Some (key, mk_World (environment w) (scope w) (<[key := ∅]> (namespaces w)))
  end.
Definition unit_separator : Z := 31.
Definition memory_new (namespace : Text) : M World Text := with_key namespace.
Definition in_environment (namespace : Text) : M World Text := λ w,
  with_key (scope w ++ unit_separator :: namespace) w.
Definition memory_rows (w : World) (h : Text) : Rows := default ∅ (namespaces w !! h).
Definition with_rows (h : Text) (rw : Rows) (w : World) : World :=
  mk_World (environment w) (scope w) (<[h := rw]> (namespaces w)).
Definition on_rows (h : Text) (f : Rows → Insertion * Rows) : M World Insertion := λ w,
  let '(i, rw) := f (memory_rows w h) in Some (i, with_rows h rw w).

#[export] Instance memory_storage : Storage World Text := {
  generation := environment;
  storage_open := in_environment;
  storage_get h key := gets (λ w, entries_get (memory_rows w h) key);
  storage_insert h key value origin := on_rows h (λ es, entries_insert es key value origin);
  storage_replace h key value origin := on_rows h (λ es, entries_replace es key value origin);
  storage_scan h := gets (λ w, entries_scan (memory_rows w h));
  storage_purge h := modify (with_rows h ∅);
  storage_purge_key h key := modify (λ w, with_rows h (delete key (memory_rows w h)) w);
}.
#[export] Instance memory_contents : StorageRows World Text := { rows := memory_rows; healthy _ := True }.

Lemma rows_with_rows h h' rw w : memory_rows (with_rows h rw w) h' = if decide (h' = h) then rw else memory_rows w h'.
Proof.
  unfold memory_rows, with_rows. cbn. case_decide as Hh; [subst; by rewrite lookup_insert_eq|].
  by rewrite lookup_insert_ne.
Qed.
Context (entry_order_perm : ∀ es, entry_order es ≡ₚ map_to_list es).

(** The storage in memory keeps the contract of a storage. *)
#[export] Instance memory_laws : StorageLaws World Text.
Proof.
  assert (∀ h w, rows w h = memory_rows w h) as Hrows by done.
  split; try (intros; apply wp_gets); try (intros; apply wp_modify); intros; cbn.
  - unfold wp, in_environment, with_key. by destruct (namespaces w !! (scope w ++ unit_separator :: ns)).  
  - split_and!; try done. by right.
  - unfold on_rows, wp, entries_insert. destruct (memory_rows w h !! key) as [[b o]|] eqn:Hk; [destruct (negb (replaces origin o)) eqn:Hr|];
      (split; [done|]); (split; [|done]); cbn; rewrite rows_with_rows, decide_True by done.
    + split; [done|]. exists o. split; [done|]. by apply negb_true_iff.
    + split; [done|]. intros b' o' Hk'. rewrite Hk in Hk'. injection Hk' as <- <-. by apply negb_false_iff.
    + split; [done|]. intros b o Hk'. congruence.
  - unfold on_rows, wp. cbn. split; [done|]. split; [|done]. by rewrite rows_with_rows, decide_True.
  - split; [done|]. split; [done|]. unfold entries_scan. rewrite <- list_fmap_compose.
    split_and!.
    + change (fst ∘ _) with (fst : Bytes * (Bytes * Origin) → Bytes). rewrite entry_order_perm. apply NoDup_fst_map_to_list.
    + intros key value ([k [b o]] & [= -> ->] & Hin)%list_elem_of_fmap. rewrite entry_order_perm in Hin.
      apply elem_of_map_to_list in Hin. cbn. by rewrite Hin.
    + intros _ key [[b o] Hk]. apply list_elem_of_fmap. exists (key, (b, o)). split; [done|].
      by rewrite entry_order_perm, elem_of_map_to_list.
  - split; [done|]. rewrite rows_with_rows, decide_True by done. split; [apply map_empty_subseteq|done].
  - split; [done|]. rewrite rows_with_rows, decide_True by done. auto.
Qed.
End memory.
End Memory.

(** ** The store *)
Inductive StoreError (K V : Type) :=
| DuplicatedKey (key : K) (value_previous value_updated : V)
| KeyOutOfSync (key : K) (value_previous value_updated : V)
| BackendRefused (key : K) (error : string).
Arguments DuplicatedKey {K V}. Arguments KeyOutOfSync {K V}. Arguments BackendRefused {K V}.
Definition reason {K V} (e : StoreError K V) : string :=
  match e with
  | DuplicatedKey _ _ _ => "the key was already stored with a different value"
  | KeyOutOfSync _ _ _ => "another process stored the key first"
  | BackendRefused _ error => error
  end.
Inductive CacheOption := Eager | Lazy.
#[global] Instance CacheOption_eq_dec : EqDecision CacheOption.
Proof. solve_decision. Defined.
Inductive StorageOption (H : Type) :=
| InMemory
| OfEnvironment (namespace : Text)
| Explicit (storage : H) (namespace : Text).
Arguments InMemory {H}. Arguments OfEnvironment {H}. Arguments Explicit {H}.
Record StoreOptions (H : Type) := mk_StoreOptions { option_storage : StorageOption H; option_cache : CacheOption }.
Arguments mk_StoreOptions {H}. Arguments option_storage {H}. Arguments option_cache {H}.
Inductive Written (V : Type) := WStored | WConflict (existing : V) | WFailed (error : string).
Arguments WStored {V}. Arguments WConflict {V}. Arguments WFailed {V}.

Record Store (K V H : Type) `{Countable K} := mk_Store {
  entries : gmap K V;
  known : gset K;
  storage : option H;
  namespace : option Text;
  cache : CacheOption;
  store_generation : option Z;
}.
Arguments mk_Store {K V H _ _}. Arguments entries {K V H _ _}. Arguments known {K V H _ _}. Arguments storage {K V H _ _}.
Arguments namespace {K V H _ _}. Arguments cache {K V H _ _}. Arguments store_generation {K V H _ _}.

(** Serialization: [encode] panics on nothing a store is given, [decode]
    fails on bytes that are not of the type. *)
Class Codec (T : Type) := { encode : T → Bytes; decode : Bytes → option T }.
Class CodecLaws (T : Type) `{Codec T} := { decode_encode (x : T) : decode (encode x) = Some x }.

Section store.
Context {K V W H : Type} `{Countable K} `{EqDecision V} `{Codec K} `{Codec V} `{Storage W H}.
(** The order a hash map lists its entries in. *)
Context (entries_order : gmap K V → list (K * V)).
Implicit Types (st : Store K V H) (key : K) (value : V).

Definition with_entries (es : gmap K V) st : Store K V H :=
  mk_Store es (known st) (storage st) (namespace st) (cache st) (store_generation st).
Definition with_known (ks : gset K) st : Store K V H :=
  mk_Store (entries st) ks (storage st) (namespace st) (cache st) (store_generation st).

Definition decode_entry (e : Bytes * Bytes) : option (K * V) :=
  key ← decode e.1; value ← decode e.2; Some (key, value).
Definition ingest_entry (es : gmap K V) (e : Bytes * Bytes) : gmap K V :=
  match decode_entry e with Some (key, value) => <[key := value]> es | None => es end.
Definition ingest st : M W (Store K V H) :=
  match storage st with
  | None => mret st
  | Some h => l ← storage_scan h; mret (with_entries (foldl ingest_entry (entries st) l) st)
  end.
Definition store_new (options : StoreOptions H) : M W (Store K V H) :=
  '(s, ns, g) ←
    match option_storage options with
    | InMemory => mret (None, None, None)
    | OfEnvironment ns => g ← gets generation; h ← storage_open ns; mret (Some h, Some ns, Some g)
    | Explicit h ns => mret (Some h, Some ns, None)
    end;
  let st := mk_Store ∅ ∅ s ns (option_cache options) g in
  match option_cache options, s with Eager, Some _ => ingest st | _, _ => mret st end.

(** *** Environment switches *)
Definition stale st : M W bool :=
  match store_generation st with
  | Some g => now ← gets generation; mret (negb (g =? now))
  | None => mret false
  end.
Definition reset_if_stale st : M W (bool * Store K V H) :=
  is_stale ← stale st;
  if negb is_stale then mret (false, st)
  else
    match namespace st, store_generation st with
    | Some ns, Some _ =>
        g ← gets generation;
        h ← storage_open ns;
        let st := mk_Store ∅ ∅ (Some h) (namespace st) (cache st) (Some g) in
        st ← match cache st with Eager => ingest st | Lazy => mret st end;
        mret (true, st)
    | _, _ => mret (false, st)
    end.

(** *** Reads *)
Definition fetch st key : M W (option V) :=
  match storage st with
  | None => mret None
  | Some h => bytes ← storage_get h (encode key); mret (b ← bytes; decode b)
  end.
Definition store_get st key : M W (option V) :=
  is_stale ← stale st; mret (if is_stale : bool then None else entries st !! key).
(** What the reference that is returned points at. *)
Definition store_get_mut st key : M W (option V * Store K V H) :=
  '(_, st) ← reset_if_stale st;
  st ← match cache st, entries st !! key with
       | Lazy, None =>
           v ← fetch st key;
           mret (match v with Some value => with_entries (<[key := value]> (entries st)) st | None => st end)
       | _, _ => mret st
       end;
  mret (entries st !! key, st).
Definition store_len st : M W Z :=
  is_stale ← stale st; mret (if is_stale : bool then 0 else Z.of_nat (size (entries st))).
Definition store_is_empty st : M W bool := n ← store_len st; mret (n =? 0).

(** Taking an entry out of memory, or from the storage on a lazy store. *)
Definition take_entry st key : M W (option V * Store K V H) :=
  match entries st !! key with
  | Some value => mret (Some value, with_entries (delete key (entries st)) st)
  | None => match cache st with
            | Eager => mret (None, st)
            | Lazy => v ← fetch st key; mret (v, st)
            end
  end.
Definition store_remove st key : M W (option V * Store K V H) :=
  '(_, st) ← reset_if_stale st;
  '(value, st) ← take_entry st key;
  mret (value, match value, storage st with
               | Some _, Some _ => with_known ({[key]} ∪ known st) st
               | _, _ => st
               end).

(** *** Writes *)
Definition write_through (h : H) key value : M W (Written V) :=
  i ← storage_insert h (encode key) (encode value) Local;
  match i with
  | Stored => mret WStored
  | Failed error => mret (WFailed error)
  | Conflict existing =>
      match decode existing with
      | Some existing => mret (if bool_decide (existing ≠ value) then WConflict existing else WStored)
      | None =>
          i ← storage_replace h (encode key) (encode value) Local;
          mret (match i with Failed error => WFailed error | _ => WStored end)
      end
  end.
Definition record key value st : Store K V H :=
  match cache st with
  | Eager => with_entries (<[key := value]> (entries st)) st
  | Lazy => with_known ({[key]} ∪ known st) st
  end.
Definition store_insert st key value : M W (result unit (StoreError K V) * Store K V H) :=
  '(_, st) ← reset_if_stale st;
  if bool_decide (entries st !! key = Some value) then mret (Ok tt, st)
  else
    let is_known := bool_decide (is_Some (entries st !! key)) || bool_decide (key ∈ known st) in
    match storage st with
    | None =>
        mret (match entries st !! key with
              | Some existing => (Err (DuplicatedKey key existing value), st)
              | None => (Ok tt, with_entries (<[key := value]> (entries st)) st)
              end)
    | Some h =>
        written ← write_through h key value;
        mret (match written with
              | WStored => (Ok tt, record key value st)
              | WFailed error => (Err (BackendRefused key error), st)
              | WConflict existing =>
                  (Err (if is_known then DuplicatedKey key existing value else KeyOutOfSync key existing value),
                   record key existing st)
              end)
    end.

(** *** Deletes *)
Definition store_purge_key st key : M W (option V * Store K V H) :=
  '(_, st) ← reset_if_stale st;
  '(value, st) ← take_entry st key;
  let st := with_known (known st ∖ {[key]}) st in
  _ ← match storage st with Some h => storage_purge_key h (encode key) | None => mret tt end;
  mret (value, st).
Definition store_clear st : M W (Store K V H) :=
  '(_, st) ← reset_if_stale st;
  mret (match storage st with
        | Some _ => with_entries ∅ (with_known (dom (entries st) ∪ known st) st)
        | None => with_entries ∅ st
        end).
Definition store_purge st : M W (Store K V H) :=
  '(_, st) ← reset_if_stale st;
  let st := with_known ∅ (with_entries ∅ st) in
  _ ← match storage st with Some h => storage_purge h | None => mret tt end;
  mret st.

(** *** Whole reads *)
Definition store_sync st : M W (Store K V H) :=
  '(was_stale, st) ← reset_if_stale st;
  if was_stale && bool_decide (cache st = Eager) then mret st else ingest st.
(** The entries a visitor of [scan] is given, in their order. *)
Definition store_scan st : M W (list (K * V) * Store K V H) :=
  '(_, st) ← reset_if_stale st;
  match storage st with
  | None => mret (entries_order (entries st), st)
  | Some h => l ← storage_scan h; mret (omap decode_entry l, st)
  end.
Definition store_for_each st : M W (list (K * V)) :=
  is_stale ← stale st; mret (if is_stale : bool then [] else entries_order (entries st)).
End store.

(** ** What a store promises *)
Section promises.
Context {K V W H : Type} `{Countable K} `{EqDecision V} `{CodecLaws K} `{CodecLaws V}.
Context `{StorageLaws W H}.
Context (entries_order : gmap K V → list (K * V)).
Implicit Types (st : Store K V H) (key k : K) (value v : V) (rw : Rows) (w : W) (h : H).

(** The value a storage holds of a key, and the keys it holds: what is stored
    was encoded by a store of its types. *)
Definition durable rw k : option V := e ← rw !! encode k; decode e.1.
Definition canonical rw : Prop := ∀ b k, is_Some (rw !! b) → decode b = Some k → b = encode k.
(** Nothing came from a bundle; a value that was computed here, and can be read. *)
Definition all_local rw : Prop := ∀ b e, rw !! b = Some e → e.2 = Local.
Definition settled rw k v : Prop := ∃ b, rw !! encode k = Some (b, Local) ∧ decode b = Some v.

Record store_ok w st : Prop := {
  ok_bound : is_Some (store_generation st) → is_Some (namespace st) ∧ is_Some (storage st);
  ok_canonical h : storage st = Some h → canonical (rows w h);
  ok_memory h k v : storage st = Some h → entries st !! k = Some v → durable (rows w h) k = Some v;
  ok_complete h k v : storage st = Some h → cache st = Eager → healthy h →
    durable (rows w h) k = Some v → entries st !! k = Some v ∨ k ∈ known st;
}.
(** The store belongs to the environment that is active. *)
Definition current w st : Prop := ∀ g, store_generation st = Some g → g = generation w.

Lemma encode_inj k k' : encode k = encode k' → k = k'.
Proof. intros Heq. pose proof (decode_encode k) as Hd. rewrite Heq, decode_encode in Hd. by injection Hd. Qed.
Lemma durable_insert rw k v o : durable (<[encode k := (encode v, o)]> rw) k = Some v.
Proof. unfold durable. rewrite lookup_insert_eq. cbn. by rewrite decode_encode. Qed.
Lemma durable_other rw k k' e : k ≠ k' → durable (<[encode k := e]> rw) k' = durable rw k'.
Proof. intros Hne. unfold durable. rewrite lookup_insert_ne; [done|]. by intros ?%encode_inj. Qed.
Lemma canonical_insert rw k e : canonical rw → canonical (<[encode k := e]> rw).
Proof.
  intros Hc b k' Hb Hd. destruct (decide (b = encode k)) as [->|Hne]; [|rewrite lookup_insert_ne in Hb by done; by apply Hc].
  rewrite decode_encode in Hd. by injection Hd as ->.
Qed.
Lemma canonical_subset rw rw' : rw' ⊆ rw → canonical rw → canonical rw'.
Proof. intros Hs Hc b k [e He] Hd. apply Hc; [|done]. exists e. by eapply lookup_weaken. Qed.

Lemma wp_stale st w (Q : bool → W → Prop) : current w st → Q false w → wp (stale st) w Q.
Proof.
  intros Hc HQ. unfold stale. destruct (store_generation st) as [g|] eqn:Hg; [|by apply wp_ret].
  apply wp_bind, wp_gets, wp_ret. by rewrite (Hc g Hg), Z.eqb_refl.
Qed.
Lemma wp_current st w (Q : bool * Store K V H → W → Prop) : current w st → Q (false, st) w → wp (reset_if_stale st) w Q.
Proof. intros Hc HQ. unfold reset_if_stale. apply wp_bind, wp_stale; [done|]. by apply wp_ret. Qed.

(** What a write through a storage does to its rows. *)
Definition untouched rw rw' k : Prop :=
  (∀ b, b ≠ encode k → rw' !! b = rw !! b) ∧ ∀ v, settled rw k v → rw' !! encode k = rw !! encode k.
Lemma untouched_same rw k : untouched rw rw k.
Proof. by split. Qed.
Lemma all_local_insert rw b x : all_local rw → all_local (<[b := (x, Local)]> rw).
Proof. intros Hl b' e [[_ <-]|[_ He]]%lookup_insert_Some; [done|]. by eapply Hl. Qed.
Lemma settled_durable rw k v : settled rw k v → durable rw k = Some v.
Proof. intros (b & Hb & Hd). unfold durable. by rewrite Hb. Qed.
Lemma wp_write_through h k v w :
  wp (write_through h k v) w (λ r w', generation w' = generation w ∧ untouched (rows w h) (rows w' h) k ∧
    (canonical (rows w h) → canonical (rows w' h)) ∧ (all_local (rows w h) → all_local (rows w' h)) ∧
    match r with
    | WStored => durable (rows w' h) k = Some v
    | WConflict v' => rows w' h = rows w h ∧ settled (rows w h) k v' ∧ v' ≠ v
    | WFailed _ => rows w' h = rows w h ∧ ¬ healthy h
    end).
Proof.
  unfold write_through. apply wp_bind. eapply wp_mono; [apply insert_arbitrates|]. intros i w1 (Hk1 & Hi & Hf). cbn in Hi.
  destruct i as [|existing|error]; cbn in Hi.
  - destruct Hi as [Hr Hold]. apply wp_ret. split; [done|]. rewrite Hr. split; [|split; [apply canonical_insert|split; [apply all_local_insert|apply durable_insert]]].
    split; [intros b Hb; by rewrite lookup_insert_ne|]. intros v' (b & Hb & _). by specialize (Hold _ _ Hb).
  - destruct Hi as [Hr (o & Ho & Hrep)]. destruct (decode existing) as [v'|] eqn:Hd.
    + destruct o; [|done]. assert (settled (rows w h) k v') as Hdur by by exists existing.
      apply wp_ret. rewrite Hr. split; [done|]. split; [apply untouched_same|]. split; [done|]. split; [done|].
      destruct (decide (v' = v)) as [->|Hne]; [rewrite bool_decide_false by (by intros []); by apply settled_durable|].
      by rewrite bool_decide_true.
    + apply wp_bind. eapply wp_mono; [apply replace_writes|]. intros i w2 (Hk2 & Hi & Hf2). cbn in Hi.
      apply wp_ret. split; [congruence|]. rewrite Hr in Hi. destruct i as [|?|?]; cbn in Hi; [|done|].
      2: { rewrite Hi. split; [apply untouched_same|]. split; [done|]. split; [done|]. split; [done|]. intros Hhe. by eapply Hf2. }
      rewrite Hi. split; [|split; [apply canonical_insert|split; [apply all_local_insert|apply durable_insert]]].
      split; [intros b Hb; by rewrite lookup_insert_ne|]. intros v' (b & Hb & Hbd). rewrite Ho in Hb. injection Hb as -> ->. congruence.
  - apply wp_ret. rewrite Hi. split; [done|]. split; [apply untouched_same|]. split; [done|]. split; [done|]. split; [done|].
    intros Hhe. by eapply Hf.
Qed.
Lemma untouched_durable rw rw' k k' : untouched rw rw' k → k' ≠ k → durable rw' k' = durable rw k'.
Proof. intros [Hu _] Hne. unfold durable. rewrite Hu; [done|]. by intros ?%encode_inj. Qed.

(** Only the rows of its own storage matter to a store. *)
Lemma store_ok_rows w w' st : store_ok w st → (∀ h, storage st = Some h → rows w' h = rows w h) → store_ok w' st.
Proof. intros [Hb Hc Hm Hcomp] Hrw. split; [done|..]; intros h; intros; rewrite ?Hrw in * by done; eauto. Qed.

(** A store that learned the value its storage holds of a key. *)
Lemma record_ok w w' st h k v :
  store_ok w st → storage st = Some h → untouched (rows w h) (rows w' h) k → canonical (rows w' h) →
  durable (rows w' h) k = Some v → (∀ v0, cache st = Lazy → entries st !! k = Some v0 → settled (rows w h) k v0) →
  store_ok w' (record k v st).
Proof.
  intros [Hb _ Hm Hcomp] Hh Hu Hc' Hd Hmemo.
  assert (∀ k' v', k' ≠ k → entries st !! k' = Some v' → durable (rows w' h) k' = Some v') as Hm'.
  { intros k' v' Hne Hk'. erewrite untouched_durable by done. by apply Hm. }
  assert (storage (record k v st) = Some h ∧ namespace (record k v st) = namespace st ∧
    store_generation (record k v st) = store_generation st ∧ cache (record k v st) = cache st) as (Hh' & Hn & Hg & Hca).
  { unfold record. destruct (cache st) eqn:Hca; cbn; by rewrite ?Hca. }
  split.
  - rewrite Hh', Hn, Hg. rewrite <- Hh. done.
  - intros h'. rewrite Hh'. by intros [= <-].
  - intros h' k' v'. rewrite Hh'. intros [= <-]. unfold record. destruct (cache st); cbn.
    + intros [[-> ->]|[Hne Hk']]%lookup_insert_Some; [done|by apply Hm'].
    + intros Hk'. destruct (decide (k' = k)) as [->|Hne]; [|by apply Hm'].
      specialize (Hmemo v' eq_refl Hk'). unfold durable. rewrite (proj2 Hu _ Hmemo). by apply settled_durable.
  - intros h' k' v'. rewrite Hh', Hca. intros [= <-] He Hhe Hd'. unfold record. rewrite He. cbn.
    destruct (decide (k' = k)) as [->|Hne]; [left; rewrite lookup_insert_eq; congruence|].
    rewrite (untouched_durable _ _ _ _ Hu Hne) in Hd'. rewrite lookup_insert_ne by done. by eapply Hcomp.
Qed.

(** Whether a value was computed here is decidable. *)
Lemma rows_settled rw k v : settled rw k v ∨ ¬ settled rw k v.
Proof.
  unfold settled. destruct (rw !! encode k) as [[b [|]]|]; [|right; by intros (? & [=] & _)..].
  destruct (decide (decode b = Some v)) as [Hd|Hd]; [left; by exists b|right]. intros (? & [= <-] & ?). done.
Qed.
(** A lazy store that holds a value of the key it did not find computed here,
    because it was imported. *)
Definition holds_import rw st k : Prop :=
  cache st = Lazy ∧ ∃ v0, entries st !! k = Some v0 ∧ ¬ settled rw k v0.
Lemma holds_import_dec rw st k :
  holds_import rw st k ∨ ∀ v0, cache st = Lazy → entries st !! k = Some v0 → settled rw k v0.
Proof.
  destruct (cache st) eqn:Hca; [by right|]. destruct (entries st !! k) as [v0|] eqn:Hk; [|by right].
  destruct (rows_settled rw k v0) as [Hs|Hs]; [right; by intros ? _ [= <-]|left]. split; [done|]. by exists v0.
Qed.

(** C22: a store writes a value once, and its storage decides.  An insert
    answers [Ok] only with the value being what the storage holds, and does so
    unless a different value was computed here before, when the storage works; a
    value that was computed here and can be read is never replaced, and is what
    a conflict reports, against the store if this process knew the key and
    against another one if not; bytes that cannot be read are repaired; a refused
    write changes nothing.  No other key is touched.

    The store belongs to the active environment, and what it has of the key in
    memory, if anything, is what is stored of it.  The memory of a store stays
    what is stored, but in one case: a lazy store that held an imported value
    goes on holding it when the insert replaces it in the storage. *)
Theorem store_insert_arbitrates st w h k v :
  current w st → storage st = Some h → (∀ v0, entries st !! k = Some v0 → durable (rows w h) k = Some v0) →
  wp (store_insert st k v) w (λ r w',
    (store_ok w st → store_ok w' r.2 ∨ holds_import (rows w h) st k ∧ r.1 = Ok tt ∧ entries r.2 = entries st) ∧
    current w' r.2 ∧ untouched (rows w h) (rows w' h) k ∧
    (healthy h → r.1 = Ok tt ↔ ∀ v0, settled (rows w h) k v0 → v0 = v) ∧
    match r.1 with
    | Ok _ => durable (rows w' h) k = Some v
    | Err (DuplicatedKey k' previous updated) => k' = k ∧ updated = v ∧ previous ≠ v ∧ rows w' h = rows w h ∧
        settled (rows w h) k previous ∧ (is_Some (entries st !! k) ∨ k ∈ known st)
    | Err (KeyOutOfSync k' previous updated) => k' = k ∧ updated = v ∧ previous ≠ v ∧ rows w' h = rows w h ∧
        settled (rows w h) k previous ∧ entries st !! k = None ∧ k ∉ known st
    | Err (BackendRefused k' _) => k' = k ∧ rows w' h = rows w h
    end).
Proof.
  intros Hcur Hh Hmem. unfold store_insert. apply wp_bind, wp_current; [done|].
  case_bool_decide as Hsame.
  { apply wp_ret. cbn. split_and!; try done; [by left| |by apply Hmem]. intros _. split; [|done]. intros _ v0 Hv0%settled_durable.
    rewrite (Hmem v Hsame) in Hv0. congruence. }
  rewrite Hh. apply wp_bind. eapply wp_mono; [apply wp_write_through|]. intros r w' (Hg & Hu & Hcan & _ & Hr). apply wp_ret.
  assert (∀ v0, settled (rows w h) k v0 → durable (rows w' h) k = Some v0) as Hset.
  { intros v0 Hv0. unfold durable. rewrite (proj2 Hu v0 Hv0). by apply settled_durable. }
  assert (∀ v', current w' (record k v' st)) as Hcur'.
  { intros v' g Hg'. rewrite Hg. apply Hcur. revert Hg'. unfold record. destruct (cache st); cbn; congruence. }
  destruct r as [|existing|error]; cbn in Hr |- *.
  - split; [|split; [done|split; [done|split; [|done]]]].
    + intros Hok. destruct (holds_import_dec (rows w h) st k) as [Himp|Hmemo]; [right|left].
      * split; [exact Himp|]. split; [done|]. unfold record. by destruct Himp as [-> _].
      * eapply record_ok; try done. apply Hcan, (ok_canonical _ _ Hok h Hh).
    + intros _. split; [|done]. intros _ v0 Hv0%Hset. congruence.
  - destruct Hr as (Hrow & Hs & Hne). split; [|split; [done|split; [done|split]]].
    + intros Hok. left. apply (record_ok w w' st h k existing); try done; [apply Hcan, (ok_canonical _ _ Hok h Hh)|by apply Hset|].
      intros v0 _ Hv0%Hmem. apply settled_durable in Hs as Hd. congruence.
    + intros _. split; [by case_match|]. intros Hall. by apply Hall in Hs.
    + destruct (bool_decide (is_Some (entries st !! k)) || bool_decide (k ∈ known st)) eqn:Hk; split_and!; try done.
      * by apply orb_true_iff in Hk as [?%bool_decide_eq_true|?%bool_decide_eq_true]; [left|right].
      * apply orb_false_iff in Hk as [Hk%bool_decide_eq_false _]. by apply eq_None_not_Some.
      * by apply orb_false_iff in Hk as [_ Hk%bool_decide_eq_false].
  - destruct Hr as [Hrow Hhe]. split_and!; try done.
    + intros Hok. left. eapply store_ok_rows; [exact Hok|]. intros h'. rewrite Hh. by intros [= <-].
    + intros g Hg'. rewrite Hg. by apply Hcur.
Qed.

(** *** Reading *)

(** Entries that are read in, over those that are in memory. *)
Lemma foldl_ingest (es : gmap K V) (l : list (Bytes * Bytes)) k :
  NoDup l.*1 → (∀ b x k', (b, x) ∈ l → decode b = Some k' → b = encode k') →
  (∀ x v, (encode k, x) ∈ l → decode x = Some v → foldl ingest_entry es l !! k = Some v) ∧
  ((∀ x v, (encode k, x) ∈ l → decode x ≠ Some v) → foldl ingest_entry es l !! k = es !! k).
Proof.
  revert es. induction l as [|[b x] l IH]; intros es Hnd Hcan; [by split; [intros x v ?%not_elem_of_nil|]|].
  cbn in Hnd. apply NoDup_cons in Hnd as [Hb Hnd]. destruct (IH (ingest_entry es (b, x)) Hnd) as [IH1 IH2].
  { intros b' x' k' Hin. apply (Hcan b' x'). by right. }
  assert (∀ x' v, (encode k, x') ∈ l → b ≠ encode k) as Hfresh.
  { intros x' v Hin ->. apply Hb, list_elem_of_fmap. by exists (encode k, x'). }
  assert (ingest_entry es (b, x) !! k = match decode x with Some v => if decide (b = encode k) then Some v else es !! k | None => es !! k end) as Hone.
  { unfold ingest_entry, decode_entry. cbn. destruct (decode b) as [k'|] eqn:Hk; cbn.
    - destruct (decode x) as [v|]; [|done]. cbn. assert (b = encode k') as -> by (apply (Hcan b x); [by left|done]). case_decide as Heq.
      + apply encode_inj in Heq as ->. by rewrite lookup_insert_eq.
      + rewrite lookup_insert_ne; [done|]. by intros ->.
    - destruct (decode x); [|done]. case_decide as Heq; [|done]. subst b. rewrite decode_encode in Hk. done. }
  cbn [foldl]. split.
  - intros x' v [[= Heq ->]|Hin]%elem_of_cons Hd; [|by apply (IH1 x')]. rewrite IH2, Hone, Hd by (intros x2 v2 Hin; by destruct (Hfresh x2 v2 Hin)).
    by rewrite decide_True.
  - intros Hno. rewrite IH2, Hone by (intros x2 v2 Hin; apply (Hno x2); by right).
    destruct (decode x) as [v|] eqn:Hd; [|done]. case_decide as Heq; [|done]. subst b. exfalso. apply (Hno x v); [by left|done].
Qed.

(** The same store, but for what it has in memory. *)
Definition same_store st st' : Prop :=
  storage st' = storage st ∧ namespace st' = namespace st ∧ cache st' = cache st ∧ store_generation st' = store_generation st.
Lemma wp_ingest h st w :
  storage st = Some h → (is_Some (store_generation st) → is_Some (namespace st)) → canonical (rows w h) →
  (∀ k v, entries st !! k = Some v → durable (rows w h) k = Some v) →
  wp (ingest st) w (λ st' w', generation w' = generation w ∧ rows w' h = rows w h ∧ store_ok w' st' ∧ same_store st st' ∧
    known st' = known st ∧ (healthy h → ∀ k v, durable (rows w h) k = Some v → entries st' !! k = Some v)).
Proof.
  intros Hh Hb Hc Hm. unfold ingest. rewrite Hh. apply wp_bind. eapply wp_mono; [apply scan_visits|].
  intros l w' (Hg & Hr & Hnd & Hin & Hall). apply wp_ret.
  assert (∀ k, durable (rows w h) k = None ∨ is_Some (durable (rows w h) k)) as Hdur.
  { intros k. destruct (durable (rows w h) k); [right; by eexists|by left]. }
  assert (∀ b x k', (b, x) ∈ l → decode b = Some k' → b = encode k') as Hcan.
  { intros b x k' Hbx. specialize (Hin b x Hbx). apply Hc. destruct (rows w h !! b); [by eexists|done]. }
  assert (∀ k x v, (encode k, x) ∈ l → decode x = Some v → durable (rows w h) k = Some v) as Hread.
  { intros k x v Hx Hd. specialize (Hin _ _ Hx). unfold durable. destruct (rows w h !! encode k) as [e|]; [|done].
    cbn in *. injection Hin as ->. done. }
  assert (healthy h → ∀ k v, durable (rows w h) k = Some v → foldl ingest_entry (entries st) l !! k = Some v) as Hfull.
  { intros Hhe k v Hd. destruct (foldl_ingest (entries st) l k Hnd Hcan) as [Hin1 _].
    assert (encode k ∈ l.*1) as ([b x] & Hb' & Hx)%list_elem_of_fmap.
    { apply Hall; [done|]. unfold durable in Hd. destruct (rows w h !! encode k); [by eexists|done]. }
    cbn in Hb'. subst b. apply (Hin1 x); [done|]. specialize (Hin _ _ Hx). unfold durable in Hd.
    destruct (rows w h !! encode k) as [e|]; [|done]. cbn in *. injection Hin as <-. done. }
  split; [done|]. split; [done|]. split; [|split; [done|split; [done|exact Hfull]]]. split; cbn; [by rewrite Hh; auto|..].
  - intros h'. rewrite Hh. intros [= <-]. by rewrite Hr.
  - intros h' k v. rewrite Hh. intros [= <-]. rewrite Hr. destruct (foldl_ingest (entries st) l k Hnd Hcan) as [Hin1 Hin2]. intros Hk.
    destruct (decide (Exists (λ e : Bytes * Bytes, e.1 = encode k ∧ is_Some (decode (T := V) e.2)) l))
      as [([b x] & Hx & Hb' & v0 & Hd)%Exists_exists|Hno].
    + cbn in Hb', Hd. subst b. rewrite (Hin1 x v0) in Hk by done. injection Hk as <-. by eapply Hread.
    + rewrite Hin2 in Hk; [by apply Hm|]. intros x v0 Hx Hd. apply Hno, Exists_exists. exists (encode k, x). split; [done|]. split; [done|by exists v0].
  - intros h' k v. rewrite Hh. intros [= <-] _ Hhe. rewrite Hr. intros Hd. left. by apply Hfull.
Qed.

(** A store of any environment answers, in the generation it is asked in. *)
Lemma wp_reset_any st w (Q : bool * Store K V H → W → Prop) :
  (∀ r w', generation w' = generation w → Q r w') → wp (reset_if_stale st) w Q.
Proof.
  intros HQ. unfold reset_if_stale, stale. apply wp_bind.
  destruct (store_generation st) as [g|]; [apply wp_bind, wp_gets, wp_ret|by apply wp_ret, wp_ret, HQ].
  destruct (negb (negb _)); [by apply wp_ret, HQ|]. destruct (namespace st) as [ns|]; [|by apply wp_ret, HQ].
  apply wp_bind, wp_gets, wp_bind. eapply wp_mono; [apply open_keeps|]. intros h w1 Hg1. cbn. apply wp_bind.
  destruct (cache st); [|by apply wp_ret, wp_ret, HQ]. unfold ingest. cbn. apply wp_bind. eapply wp_mono; [apply scan_visits|].
  intros l w2 (Hg2 & _). apply wp_ret, wp_ret, HQ. congruence.
Qed.
Lemma wp_scan_any st w : wp (store_scan entries_order st) w (λ _ w', generation w' = generation w).
Proof.
  unfold store_scan. apply wp_bind, wp_reset_any. intros [b st1] w1 Hg1. destruct (storage st1) as [h|]; [|by apply wp_ret].
  apply wp_bind. eapply wp_mono; [apply scan_visits|]. intros l w2 (Hg2 & _). apply wp_ret. congruence.
Qed.
Lemma wp_insert_any st k v w : wp (store_insert st k v) w (λ _ w', generation w' = generation w).
Proof.
  unfold store_insert. apply wp_bind, wp_reset_any. intros [b st1] w1 Hg1. case_bool_decide; [by apply wp_ret|].
  destruct (storage st1) as [h|]; [|by apply wp_ret]. apply wp_bind. eapply wp_mono; [apply wp_write_through|].
  intros r w2 (Hg2 & _). apply wp_ret. congruence.
Qed.

(** *** Histories *)
Definition store_fine w st : Prop :=
  store_ok w st ∧ current w st ∧ (cache st = Lazy → ∀ h, storage st = Some h → all_local (rows w h)).
Lemma fine_intro w w' st st' :
  store_fine w st → same_store st st' → generation w' = generation w →
  (∀ h, storage st = Some h → rows w' h ⊆ rows w h ∧
    (∀ k v, entries st' !! k = Some v → durable (rows w' h) k = Some v) ∧
    (cache st = Eager → healthy h → ∀ k v, durable (rows w' h) k = Some v → entries st' !! k = Some v ∨ k ∈ known st')) →
  store_fine w' st'.
Proof.
  intros ([Hb Hc Hm Hcomp] & Hcur & Hl) (Hs & Hn & Hca & Hg) Hgen Hrw. split; [split|split].
  - by rewrite Hg, Hn, Hs.
  - intros h. rewrite Hs. intros Hh. exact (canonical_subset _ _ (proj1 (Hrw h Hh)) (Hc h Hh)).
  - intros h k v. rewrite Hs. intros Hh. apply (Hrw h Hh).
  - intros h k v. rewrite Hs, Hca. intros Hh. destruct (Hrw h Hh) as (_ & _ & Hx). exact (λ He Hhe, Hx He Hhe k v).
  - intros g. rewrite Hg, Hgen. apply Hcur.
  - rewrite Hca. intros Hlazy h. rewrite Hs. intros Hh b e Hbe. eapply (Hl Hlazy h Hh). exact (lookup_weaken _ _ _ _ Hbe (proj1 (Hrw h Hh))).
Qed.
Lemma durable_delete rw k k' : durable (delete (encode k) rw) k' = if decide (k' = k) then None else durable rw k'.
Proof.
  unfold durable. case_decide as Heq; [subst; by rewrite lookup_delete_eq|]. rewrite lookup_delete_ne; [done|].
  by intros ?%encode_inj.
Qed.

(** What every read of a current store leaves in place. *)
Definition read_keeps st w st' w' : Prop :=
  store_fine w' st' ∧ same_store st st' ∧ ∀ h, storage st = Some h → rows w' h = rows w h.
Lemma wp_fetch st k w :
  store_fine w st →
  wp (fetch st k) w (λ r w', read_keeps st w st w' ∧ generation w' = generation w ∧
    (∀ v, r = Some v → ∃ h, storage st = Some h ∧ durable (rows w h) k = Some v) ∧
    (∀ h, storage st = Some h → healthy h → r = durable (rows w h) k)).
Proof.
  intros Hf. unfold fetch. destruct (storage st) as [h|] eqn:Hh.
  2: { apply wp_ret. split_and!; try done. }
  apply wp_bind. eapply wp_mono; [apply get_reads|]. intros r w' (Hg & Hr & Hor & Hhe). apply wp_ret.
  assert (∀ v, (b ← r; decode b) = Some v → durable (rows w h) k = Some v) as Hd.
  { unfold durable. destruct Hor as [->| ->]; [done|]. by destruct (rows w h !! encode k). }
  split; [|split; [done|split; [intros v Hv; exists h; auto|]]].
  - split; [|split; [done|intros h' Hh'; rewrite Hh in Hh'; by injection Hh' as <-]].
    eapply fine_intro; [exact Hf|done|done|]. intros h' Hh'. rewrite Hh in Hh'. injection Hh' as <-. rewrite Hr.
    destruct Hf as ([_ _ Hm Hcomp] & _). split; [done|]. split; [intros; by eapply Hm|intros; by eapply Hcomp].
  - intros h' [= <-] Hhe'. rewrite Hhe by done. unfold durable. by destruct (rows w h !! encode k).
Qed.
Lemma wp_get_mut st k w :
  store_fine w st →
  wp (store_get_mut st k) w (λ r w', read_keeps st w r.2 w' ∧ known r.2 = known st ∧ r.1 = entries r.2 !! k ∧
    (∀ k', k' ≠ k → entries r.2 !! k' = entries st !! k') ∧ (cache st = Eager → entries r.2 = entries st) ∧
    (cache st = Lazy → ∀ h, storage st = Some h → healthy h → r.1 = durable (rows w h) k)).
Proof.
  intros Hf. unfold store_get_mut. apply wp_bind, wp_current; [apply Hf|]. apply wp_bind. pose proof Hf as ([_ _ Hm Hcomp] & _).
  destruct (cache st) eqn:Hca.
  { apply wp_ret, wp_ret. by split_and!. }
  destruct (entries st !! k) as [v|] eqn:Hk.
  { apply wp_ret, wp_ret. split_and!; try done. intros _ h Hh _. cbn. rewrite Hk. symmetry. by apply Hm. }
  apply wp_bind. eapply wp_mono; [by apply wp_fetch|]. intros r w' ((Hf' & _ & Hr) & Hg & Hsome & Hhe). apply wp_ret, wp_ret. cbn.
  destruct r as [v|]; cbn.
  - destruct (Hsome v eq_refl) as (h & Hh & Hd). rewrite lookup_insert_eq. split_and!; try done.
    + split; [|by split]. eapply fine_intro; [exact Hf'|by split_and!|done|]. intros h' Hh'. split; [done|]. rewrite (Hr h' Hh').
      split; [|congruence]. intros k' v'. cbn. rewrite Hh in Hh'. injection Hh' as <-.
      intros [[-> ->]|[_ Hk']]%lookup_insert_Some; [done|by apply Hm].
    + intros k' Hne. by rewrite lookup_insert_ne.
  - split_and!; try done. intros _ h Hh Hhe'. rewrite Hk. by apply Hhe.
Qed.

(** Taking an entry: memory no longer has it, and the storage still does. *)
Definition taken st k (r : option V) st' : Prop :=
  same_store st st' ∧ known st' = known st ∧ entries st' !! k = None ∧ (∀ k', k' ≠ k → entries st' !! k' = entries st !! k') ∧
  (r = None → entries st !! k = None).
Lemma wp_take_entry st k w :
  store_fine w st →
  wp (take_entry st k) w (λ r w', generation w' = generation w ∧ taken st k r.1 r.2 ∧
    ∀ h, storage st = Some h → rows w' h = rows w h ∧ (∀ v, r.1 = Some v → durable (rows w h) k = Some v) ∧
      (cache st = Lazy → healthy h → r.1 = durable (rows w h) k)).
Proof.
  intros Hf. unfold take_entry. pose proof Hf as ([_ _ Hm _] & _). destruct (entries st !! k) as [v|] eqn:Hk.
  { apply wp_ret. cbn. split; [done|]. split.
    - split_and!; cbn; try done; [by rewrite lookup_delete_eq|]. intros k' Hne. by rewrite lookup_delete_ne.
    - intros h Hh. split; [done|]. split; [intros v' [= <-]; by apply Hm|]. intros _ _. symmetry. by apply Hm. }
  destruct (cache st) eqn:Hca; [by apply wp_ret|]. apply wp_bind. eapply wp_mono; [by apply wp_fetch|].
  intros r w' ((_ & _ & Hr) & Hg & Hsome & Hhe). apply wp_ret. cbn. split; [done|]. split; [by split_and!|].
  intros h Hh. split; [by apply Hr|]. split; [|intros _; by apply Hhe]. intros v Hv. destruct (Hsome v Hv) as (h' & Hh' & Hd). congruence.
Qed.
Lemma wp_remove st k w :
  store_fine w st →
  wp (store_remove st k) w (λ r w', read_keeps st w r.2 w' ∧ entries r.2 !! k = None ∧
    ∀ h, storage st = Some h → (∀ v, r.1 = Some v → durable (rows w h) k = Some v ∧ k ∈ known r.2) ∧
      (cache st = Lazy → healthy h → r.1 = durable (rows w h) k)).
Proof.
  intros Hf. unfold store_remove. apply wp_bind, wp_current; [apply Hf|]. apply wp_bind. eapply wp_mono; [by apply wp_take_entry|].
  intros [r st'] w' (Hg & (Hsame & Hkn & Hno & Hoth & Hnone) & Hr). apply wp_ret. cbn in *.
  assert (storage st' = storage st) as Hst by apply Hsame. rewrite Hst.
  set (st2 := match r, storage st with Some _, Some _ => _ | _, _ => _ end).
  assert (entries st2 = entries st' ∧ same_store st st2) as [He2 Hsame2] by (unfold st2; by destruct r, (storage st)).
  assert (known st2 = match r, storage st with Some _, Some _ => {[k]} ∪ known st | _, _ => known st end) as Hk2.
  { unfold st2. rewrite <- Hkn. by destruct r, (storage st). }
  split; [split; [|split; [done|intros h Hh; by apply Hr]]|split; [by rewrite He2|]].
  - eapply fine_intro; [exact Hf|done|done|]. intros h Hh. destruct (Hr h Hh) as (Hrw & _). rewrite Hrw. split; [done|].
    pose proof Hf as ([_ _ Hm Hcomp] & _). rewrite He2. split.
    + intros k' v' Hk'. destruct (decide (k' = k)) as [->|Hne]; [congruence|]. rewrite Hoth in Hk' by done. by apply Hm.
    + intros Hca Hhe k' v' Hd. destruct (decide (k' = k)) as [->|Hne].
      * right. rewrite Hk2, Hh. destruct r; [set_solver|]. destruct (Hcomp h k v' Hh Hca Hhe Hd) as [?|?]; [|done]. by rewrite Hnone in *.
      * rewrite Hoth by done. destruct (Hcomp h k' v' Hh Hca Hhe Hd) as [?|?]; [by left|right]. rewrite Hk2. destruct r, (storage st); set_solver.
  - intros h Hh. destruct (Hr h Hh) as (_ & Hd & Hl). split; [|done]. intros v ->. split; [by apply Hd|]. rewrite Hk2, Hh. set_solver.
Qed.
Lemma wp_purge_key st k w :
  store_fine w st →
  wp (store_purge_key st k) w (λ r w', store_fine w' r.2 ∧ same_store st r.2 ∧ entries r.2 !! k = None ∧ k ∉ known r.2 ∧
    ∀ h, storage st = Some h → (∀ b, b ≠ encode k → rows w' h !! b = rows w h !! b) ∧ (healthy h → durable (rows w' h) k = None)).
Proof.
  intros Hf. unfold store_purge_key. apply wp_bind, wp_current; [apply Hf|]. apply wp_bind. eapply wp_mono; [by apply wp_take_entry|].
  intros [r st'] w1 (Hg & (Hsame & Hkn & Hno & Hoth & _) & Hr). cbn in *. assert (storage st' = storage st) as -> by apply Hsame.
  apply wp_bind. pose proof Hf as ([_ _ Hm Hcomp] & _).
  eapply (wp_mono _ _ (λ _ w', generation w' = generation w ∧ ∀ h, storage st = Some h →
    (rows w' h = rows w h ∨ rows w' h = delete (encode k) (rows w h)) ∧ (healthy h → rows w' h = delete (encode k) (rows w h)))).
  { destruct (storage st) as [h|] eqn:Hh; [|by apply wp_ret]. eapply wp_mono; [apply purge_key_deletes|].
    intros [] w2 (Hg2 & Hor & Hhe). destruct (Hr h eq_refl) as [Hrw _]. rewrite Hrw in *. split; [congruence|]. by intros h' [= <-]. }
  intros [] w2 [Hg2 Hrw]. apply wp_ret. cbn. split; [|split; [done|split; [done|split; [set_solver|]]]].
  - eapply fine_intro; [exact Hf|done|done|]. intros h Hh. destruct (Hrw h Hh) as [Hor Hdel]. cbn.
    assert (∀ k', k' ≠ k → durable (rows w2 h) k' = durable (rows w h) k') as Hd.
    { intros k' Hne. destruct Hor as [->| ->]; [done|]. by rewrite durable_delete, decide_False. }
    split; [destruct Hor as [->| ->]; [done|apply delete_subseteq]|]. split.
    + intros k' v' Hk'. destruct (decide (k' = k)) as [->|Hne]; [congruence|]. rewrite Hoth in Hk' by done. rewrite Hd by done. by apply Hm.
    + intros Hca Hhe k' v'. destruct (decide (k' = k)) as [->|Hne]; [by rewrite Hdel, durable_delete, decide_True|]. rewrite Hd, Hoth by done.
      intros Hdk. destruct (Hcomp h k' v' Hh Hca Hhe Hdk); [by left|right]. rewrite Hkn. set_solver.
  - intros h Hh. destruct (Hrw h Hh) as [Hor Hdel]. split; [|intros Hhe; by rewrite Hdel, durable_delete, decide_True].
    intros b Hb. destruct Hor as [->| ->]; [done|]. by rewrite lookup_delete_ne.
Qed.
Lemma wp_clear st w :
  store_fine w st → wp (store_clear st) w (λ st' w', w' = w ∧ store_fine w st' ∧ same_store st st' ∧ entries st' = ∅).
Proof.
  intros Hf. unfold store_clear. apply wp_bind, wp_current; [apply Hf|]. apply wp_ret. split; [done|].
  set (st' := match storage st with Some _ => _ | None => _ end).
  assert (entries st' = ∅ ∧ same_store st st') as [He Hsame] by (unfold st'; by destruct (storage st)).
  split; [|done]. eapply fine_intro; [exact Hf|done|done|]. intros h Hh. pose proof Hf as ([_ _ Hm Hcomp] & _). rewrite He.
  split; [done|]. split; [by intros k v ?%lookup_empty_Some|]. intros Hca Hhe k v Hd. right. unfold st'. rewrite Hh. cbn.
  destruct (Hcomp h k v Hh Hca Hhe Hd) as [Hk|?]; [|set_solver]. apply elem_of_union_l. by eapply elem_of_dom_2.
Qed.
Lemma wp_purge st w :
  store_fine w st →
  wp (store_purge st) w (λ st' w', store_fine w' st' ∧ same_store st st' ∧ entries st' = ∅ ∧ known st' = ∅ ∧
    ∀ h, storage st = Some h → healthy h → rows w' h = ∅).
Proof.
  intros Hf. unfold store_purge. apply wp_bind, wp_current; [apply Hf|]. cbn. apply wp_bind.
  eapply (wp_mono _ _ (λ _ w', generation w' = generation w ∧
    ∀ h, storage st = Some h → rows w' h ⊆ rows w h ∧ (healthy h → rows w' h = ∅))).
  { destruct (storage st) as [h|]; [|by apply wp_ret]. eapply wp_mono; [apply purge_deletes|].
    intros [] w1 (Hg & Hsub & Hhe). split; [done|]. by intros h' [= <-]. }
  intros [] w1 [Hg Hr]. apply wp_ret. cbn. split; [|split_and!; try done; intros h Hh; by apply Hr].
  eapply fine_intro; [exact Hf|done|done|]. intros h Hh. destruct (Hr h Hh) as [Hsub Hhe]. cbn. split; [done|].
  split; [by intros k v ?%lookup_empty_Some|]. intros _ Hhe' k v. rewrite Hhe by done. unfold durable. by rewrite lookup_empty.
Qed.
Lemma wp_sync st w :
  store_fine w st →
  wp (store_sync st) w (λ st' w', read_keeps st w st' w' ∧ known st' = known st ∧
    ∀ h, storage st = Some h → healthy h → ∀ k v, durable (rows w h) k = Some v → entries st' !! k = Some v).
Proof.
  intros Hf. unfold store_sync. apply wp_bind, wp_current; [apply Hf|]. cbn [andb].
  destruct (storage st) as [h|] eqn:Hh.
  2: { unfold ingest. rewrite Hh. apply wp_ret. split_and!; try done. }
  pose proof Hf as (Hok & Hcur & Hl).
  eapply wp_mono; [apply (wp_ingest h); [done|intros Hge; exact (proj1 (ok_bound _ _ Hok Hge))|by apply (ok_canonical _ _ Hok)|intros k v; by apply (ok_memory _ _ Hok)]|].
  intros st' w' (Hg & Hr & Hok' & Hsame & Hkn & Hfull).
  split; [split; [|split; [done|]]|split; [done|]].
  - split; [done|]. destruct Hsame as (Hs & _ & Hca & Hge). split; [intros g; rewrite Hge, Hg; apply Hcur|].
    rewrite Hca. intros Hlazy h'. rewrite Hs, Hh. intros [= <-]. rewrite Hr. by apply Hl.
  - intros h'. rewrite Hh. by intros [= <-].
  - by intros h' [= <-].
Qed.
Lemma decode_entry_Some (b x : Bytes) k v : decode_entry (b, x) = Some (k, v) ↔ decode b = Some k ∧ decode x = Some v.
Proof.
  unfold decode_entry. cbn. destruct (decode b) as [k'|]; cbn; [|by split; [|intros []]].
  destruct (decode x) as [v'|]; cbn; [|by split; [|intros []]]. split; [by intros [= -> ->]|by intros [[= ->] [= ->]]].
Qed.
Lemma decoded_nodup (l : list (Bytes * Bytes)) :
  NoDup l.*1 → (∀ b x k, (b, x) ∈ l → decode b = Some k → b = encode k) → NoDup (omap (decode_entry (K := K) (V := V)) l).*1.
Proof.
  induction l as [|[b x] l IH]; intros Hnd Hcan; [constructor|]. cbn in Hnd. apply NoDup_cons in Hnd as [Hb Hnd].
  assert (NoDup (omap (decode_entry (K := K) (V := V)) l).*1) as Hl by (apply IH; [done|]; intros b' x' k Hin; apply (Hcan b' x'); by right).
  cbn. destruct (decode_entry (b, x)) as [[k v]|] eqn:Hd; [|done]. apply decode_entry_Some in Hd as [Hk _]. cbn. constructor; [|done].
  intros ([k' v'] & Heq & ([b' x'] & Hin & [Hk' _]%decode_entry_Some)%list_elem_of_omap)%list_elem_of_fmap. cbn in Heq. subst k'.
  apply Hb, list_elem_of_fmap. exists (b', x'). split; [|done]. cbn.
  rewrite (Hcan b x k), (Hcan b' x' k); [done|by right|done|by left|done].
Qed.
(** What a scan visits: the values of the storage, each once, and with a
    storage that works all of them. *)
Lemma wp_scan st w :
  store_fine w st →
  wp (store_scan entries_order st) w (λ r w', read_keeps st w r.2 w' ∧
    ∀ h, storage st = Some h → NoDup r.1.*1 ∧ (∀ k v, (k, v) ∈ r.1 → durable (rows w h) k = Some v) ∧
      (healthy h → ∀ k v, durable (rows w h) k = Some v → (k, v) ∈ r.1)).
Proof.
  intros Hf. unfold store_scan. apply wp_bind, wp_current; [apply Hf|]. destruct (storage st) as [h|] eqn:Hh.
  2: { apply wp_ret. by split_and!. }
  apply wp_bind. eapply wp_mono; [apply scan_visits|]. intros l w' (Hg & Hr & Hnd & Hin & Hall). apply wp_ret. cbn.
  pose proof Hf as ([_ Hc Hm Hcomp] & _).
  assert (∀ b x k, (b, x) ∈ l → decode b = Some k → b = encode k) as Hcan.
  { intros b x k Hbx. specialize (Hin b x Hbx). apply (Hc h Hh). destruct (rows w h !! b); [by eexists|done]. }
  assert (∀ k v, (k, v) ∈ omap decode_entry l ↔ ∃ x, (encode k, x) ∈ l ∧ decode x = Some v) as Hdec.
  { intros k v. rewrite list_elem_of_omap. split.
    - intros ([b x] & Hbx & [Hk Hv]%decode_entry_Some). exists x. by rewrite <- (Hcan b x k).
    - intros (x & Hx & Hv). exists (encode k, x). split; [done|]. apply decode_entry_Some. split; [apply decode_encode|done]. }
  split; [split; [|split; [done|intros h' Hh'; rewrite Hh in Hh'; by injection Hh' as <-]]|].
  - eapply fine_intro; [exact Hf|done|done|]. intros h' Hh'. rewrite Hh in Hh'. injection Hh' as <-. rewrite Hr.
    split; [done|]. split; [intros; by eapply Hm|intros; by eapply Hcomp].
  - intros h' [= <-]. split; [|split].
    + by apply decoded_nodup.
    + intros k v (x & Hx & Hv)%Hdec. specialize (Hin _ _ Hx). unfold durable. destruct (rows w h !! encode k); [|done]. cbn in *. congruence.
    + intros Hhe k v Hd. apply Hdec. unfold durable in Hd. destruct (rows w h !! encode k) as [e|] eqn:He; [|done].
      assert (encode k ∈ l.*1) as ([b x] & Hb' & Hx)%list_elem_of_fmap by (apply Hall; [done|by eexists]).
      cbn in Hb'. subst b. exists x. split; [done|]. specialize (Hin _ _ Hx). rewrite He in Hin. cbn in *. congruence.
Qed.

(** A program over a store: the operations that change it. *)
Inductive call := CallGetMut (k : K) | CallRemove (k : K) | CallInsert (k : K) (v : V) | CallPurgeKey (k : K) | CallClear | CallPurge | CallSync
  | CallScan.
Definition run_call (c : call) st : M W (Store K V H) :=
  match c with
  | CallGetMut k => snd <$> store_get_mut st k
  | CallRemove k => snd <$> store_remove st k
  | CallInsert k v => snd <$> store_insert st k v
  | CallPurgeKey k => snd <$> store_purge_key st k
  | CallClear => store_clear st
  | CallPurge => store_purge st
  | CallSync => store_sync st
  | CallScan => snd <$> store_scan entries_order st
  end.
Fixpoint run_calls (cs : list call) st : M W (Store K V H) :=
  match cs with
  | [] => mret st
  | c :: cs => st ← run_call c st; run_calls cs st
  end.

Lemma wp_insert st k v w :
  store_fine w st → wp (store_insert st k v) w (λ r w', store_fine w' r.2 ∧ same_store st r.2).
Proof.
  intros Hf. pose proof Hf as (Hok & Hcur & Hl). unfold store_insert. apply wp_bind, wp_current; [done|].
  case_bool_decide; [by apply wp_ret|]. destruct (storage st) as [h|] eqn:Hh.
  2: { apply wp_ret. destruct (entries st !! k); [done|]. split; [|done].
       eapply fine_intro; [exact Hf|done|done|]. intros h. by rewrite Hh. }
  apply wp_bind. eapply wp_mono; [apply wp_write_through|]. intros r w' (Hg & Hu & Hcan & Hal & Hr). apply wp_ret.
  assert (∀ v0, cache st = Lazy → entries st !! k = Some v0 → settled (rows w h) k v0) as Hmemo.
  { intros v0 Hlazy Hk. pose proof (ok_memory _ _ Hok h k v0 Hh Hk) as Hd. unfold durable in Hd.
    destruct (rows w h !! encode k) as [[b o]|] eqn:He; [|done]. exists b. rewrite He. split; [|done].
    do 2 f_equal. by eapply (Hl Hlazy h eq_refl _ (b, o)). }
  assert (∀ v', durable (rows w' h) k = Some v' → store_fine w' (record k v' st) ∧ same_store st (record k v' st)) as Hrec.
  { intros v' Hd. assert (same_store st (record k v' st)) as Hsame by (unfold record; destruct (cache st) eqn:Hca; split_and!; cbn; congruence).
    split; [|done]. split; [eapply record_ok; [done|done|done|apply Hcan; by apply (ok_canonical _ _ Hok)|done|done]|].
    destruct Hsame as (Hs & _ & Hca & Hge). split; [intros g; rewrite Hge, Hg; apply Hcur|].
    rewrite Hca. intros Hlazy h'. rewrite Hs, Hh. intros [= <-]. apply Hal. by apply Hl. }
  destruct r as [|existing|error]; cbn in *.
  - by apply Hrec.
  - apply Hrec. destruct Hr as (Hrw & Hs & _). rewrite Hrw. by apply settled_durable.
  - destruct Hr as [Hrw _]. split; [|done]. eapply fine_intro; [exact Hf|done|done|]. intros h'. rewrite Hh. intros [= <-]. rewrite Hrw.
    split; [done|]. split; intros; [by eapply ok_memory|by eapply ok_complete].
Qed.

Lemma wp_run_call c st w : store_fine w st → wp (run_call c st) w (λ st' w', store_fine w' st' ∧ same_store st st').
Proof.
  intros Hf. destruct c; cbn [run_call]; try apply wp_fmap.
  - eapply wp_mono; [by apply wp_get_mut|]. by intros r w' ((? & ? & _) & _).
  - eapply wp_mono; [by apply wp_remove|]. by intros r w' ((? & ? & _) & _).
  - by apply wp_insert.
  - eapply wp_mono; [by apply wp_purge_key|]. by intros r w' (? & ? & _).
  - eapply wp_mono; [by apply wp_clear|]. by intros r w' (-> & ? & ? & _).
  - eapply wp_mono; [by apply wp_purge|]. by intros r w' (? & ? & _).
  - eapply wp_mono; [by apply wp_sync|]. by intros r w' ((? & ? & _) & _).
  - eapply wp_mono; [by apply wp_scan|]. by intros r w' ((? & ? & _) & _).
Qed.

(** Storing a value no other was computed for. *)
Lemma wp_insert_agreeing st k v w h :
  store_fine w st → storage st = Some h → healthy h → (∀ v0, settled (rows w h) k v0 → v0 = v) →
  wp (store_insert st k v) w (λ r w', r.1 = Ok tt ∧ durable (rows w' h) k = Some v ∧ untouched (rows w h) (rows w' h) k ∧
    canonical (rows w' h) ∧ (all_local (rows w h) → all_local (rows w' h)) ∧ generation w' = generation w).
Proof.
  intros Hf Hh Hhe Hagree. pose proof Hf as (Hok & Hcur & _). unfold store_insert. apply wp_bind, wp_current; [done|].
  pose proof (ok_canonical _ _ Hok h Hh) as Hc. case_bool_decide as Hsame.
  { apply wp_ret. cbn. split_and!; try done. by apply (ok_memory _ _ Hok). }
  rewrite Hh. apply wp_bind. eapply wp_mono; [apply wp_write_through|]. intros r w' (Hg & Hu & Hcan & Hal & Hr). apply wp_ret.
  destruct r as [|existing|error]; cbn in *; [split_and!; auto| |by destruct Hr].
  destruct Hr as (_ & Hs & Hne). by destruct Hne, (Hagree existing Hs).
Qed.

(** C23: whatever a program does with a store, what it has in memory is what its
    storage holds, and an eager store of a storage that works misses nothing it
    does not know of.  So a value that is read is the value that was stored; and
    a lazy store reads through, so that its reads are exactly what is stored.

    The store starts in the active environment with its memory being what is
    stored; the program is all that writes to the storage and to the values in
    memory; and a lazy store is over rows none of which was imported from a
    bundle, since it goes on serving an imported value it replaced
    ([replaced_import_is_served]). *)
Theorem store_history cs st w :
  store_fine w st →
  wp (run_calls cs st) w (λ st' w', store_fine w' st' ∧ same_store st st' ∧
    ∀ h k, storage st = Some h →
      (∀ v, entries st' !! k = Some v → durable (rows w' h) k = Some v) ∧
      (cache st = Eager → healthy h → k ∉ known st' → wp (store_get st' k) w' (λ r _, r = durable (rows w' h) k)) ∧
      (cache st = Lazy → healthy h → wp (store_get_mut st' k) w' (λ r w'', r.1 = durable (rows w' h) k ∧ rows w'' h = rows w' h))).
Proof.
  intros Hf. revert st w Hf. induction cs as [|c cs IH]; intros st w Hf.
  - apply wp_ret. split; [done|]. split; [done|]. intros h k Hh. pose proof Hf as ([_ _ Hm Hcomp] & Hcur & _).
    split; [by intros v; apply Hm|]. split.
    + intros Hca Hhe Hk. unfold store_get. apply wp_bind, wp_stale; [done|]. apply wp_ret.
      destruct (entries st !! k) as [v|] eqn:He; [symmetry; by apply Hm|].
      destruct (durable (rows w h) k) as [v|] eqn:Hd; [|done]. destruct (Hcomp h k v Hh Hca Hhe Hd); [congruence|done].
    + intros Hca Hhe. eapply wp_mono; [by apply wp_get_mut|]. intros r w' ((_ & _ & Hr) & _ & _ & _ & _ & Hl).
      split; [by apply Hl|by apply Hr].
  - cbn [run_calls]. apply wp_bind. eapply (wp_mono _ _ (λ st' w', store_fine w' st' ∧ same_store st st')).
    + by apply wp_run_call.
    + intros st1 w1 [Hf1 (Hs & Hn & Hca & Hg)]. eapply wp_mono; [by apply IH|]. rewrite Hs, Hca.
      intros st2 w2 (Hf2 & (Hs2 & Hn2 & Hca2 & Hg2) & Hrest). split; [done|]. split; [split_and!; congruence|exact Hrest].
Qed.

(** *** Opening, and switches *)

(** What a storage must hold for a store of these types and cache. *)
Definition openable (c : CacheOption) rw : Prop := canonical rw ∧ (c = Lazy → all_local rw).
Lemma wp_store_new (options : StoreOptions H) w :
  match option_storage options with
  | InMemory => True
  | OfEnvironment ns => ∀ h w', storage_open ns w = Some (h, w') → openable (option_cache options) (rows w' h)
  | Explicit h ns => openable (option_cache options) (rows w h)
  end →
  wp (store_new options) w (λ st w', store_fine w' st ∧ cache st = option_cache options ∧ known st = ∅ ∧ generation w' = generation w ∧
    (option_storage options ≠ InMemory → is_Some (storage st))).
Proof.
  intros Hopen. unfold store_new. apply wp_bind.
  eapply (wp_mono _ _ (λ r w', generation w' = generation w ∧ (is_Some r.2 → is_Some r.1.2 ∧ is_Some r.1.1) ∧
    (∀ g, r.2 = Some g → g = generation w) ∧ (∀ h, r.1.1 = Some h → openable (option_cache options) (rows w' h)) ∧
    (option_storage options ≠ InMemory → is_Some r.1.1))).
  { destruct (option_storage options) as [|ns|h ns].
    - apply wp_ret. cbn. split; [done|]. split; [by intros [? [=]]|]. by split_and!.
    - apply wp_bind, wp_gets, wp_bind. pose proof (open_keeps ns w) as (h & w1 & Hrun & Hg)%wp_spec. apply wp_spec.
      exists h, w1. split; [done|]. apply wp_ret. cbn. split; [done|]. split; [by split|]. split; [by intros g [= <-]|].
      split; [|by eexists]. intros h' [= <-]. by apply Hopen.
    - apply wp_ret. cbn. split; [done|]. split; [by intros [? [=]]|]. split; [done|]. split; [by intros h' [= <-]|by eexists]. }
  intros [[s ns] g] w1 (Hg & Hb & Hcur & Hop & His). cbn in Hb, Hcur, Hop, His. set (st0 := mk_Store _ _ _ _ _ _).
  assert (∀ st' w2, generation w2 = generation w → same_store st0 st' → store_ok w2 st' → (∀ h, s = Some h → rows w2 h = rows w1 h) →
    store_fine w2 st') as Hfine.
  { intros st' w2 Hg2 (Hs & _ & Hca & Hge) Hok Hr. split; [done|]. split; [intros g'; rewrite Hge, Hg2; apply Hcur|].
    rewrite Hca. intros Hl h. rewrite Hs. intros Hh. rewrite Hr by done. by apply (Hop h Hh). }
  assert (option_cache options = Lazy ∨ s = None → store_fine w1 st0) as Hnew.
  { intros Hor. apply Hfine; try done. split; cbn; try done; [intros h Hh; by apply Hop|]. intros h k v -> He. destruct Hor; congruence. }
  assert (wp (mret st0 : M W _) w1 (λ st w', st = st0 ∧ w' = w1)) as Hret by by apply wp_ret.
  destruct (option_cache options) eqn:Hca.
  2: { eapply wp_mono; [exact Hret|]. intros st' w' [-> ->]. split_and!; auto. }
  destruct s as [h|].
  2: { eapply wp_mono; [exact Hret|]. intros st' w' [-> ->]. split_and!; auto. }
  eapply wp_mono; [apply (wp_ingest h st0); [done|intros Hge; exact (proj1 (Hb Hge))|by apply Hop|cbn; by intros k v ?%lookup_empty_Some]|].
  intros st' w' (Hg' & Hr & Hok & Hsame & Hkn & _). assert (generation w' = generation w) by congruence. 
  pose proof Hsame as (Hst & _ & Hca' & _). split_and!; try done; [|rewrite Hst; by eexists].
  apply Hfine; try done. by intros h' [= <-].
Qed.

(** A store whose environment is no longer active. *)
Definition outdated w st (ns : Text) : Prop :=
  namespace st = Some ns ∧ ∃ g, store_generation st = Some g ∧ g ≠ generation w.
Definition reopened st (ns : Text) : StoreOptions H := mk_StoreOptions (OfEnvironment ns) (cache st).
Lemma stale_outdated w st ns : outdated w st ns → stale st w = Some (true, w).
Proof.
  intros (_ & g & Hg & Hne). unfold stale, mbind, M_bind, gets, mret, M_ret. rewrite Hg.
  by rewrite (proj2 (Z.eqb_neq g (generation w)) Hne).
Qed.
Lemma reset_outdated w st ns : outdated w st ns → reset_if_stale st w = ((λ st', (true, st')) <$> store_new (reopened st ns)) w.
Proof.
  intros Hout. pose proof (stale_outdated _ _ _ Hout) as Hs. destruct Hout as (Hn & g & Hg & _).
  unfold reset_if_stale, store_new. unfold mbind, M_bind, fmap, M_fmap. rewrite Hs. cbn [negb]. rewrite Hn, Hg.
  unfold gets, mret, M_ret. cbn [option_storage option_cache reopened].
  destruct (storage_open ns w) as [[h w1]|]; [|done]. cbn [cache]. destruct (cache st); [|done].
  by destruct (ingest (mk_Store ∅ ∅ (Some h) (Some ns) Eager (Some (generation w))) w1) as [[st1 w2]|].
Qed.
(** A store that was just created belongs to the active environment. *)
Lemma new_current options w st w' : store_new options w = Some (st, w') → reset_if_stale st w' = Some ((false, st), w').
Proof.
  intros Hnew. assert (wp (store_new options) w (λ st w', generation w' = generation w ∧ ∀ g, store_generation st = Some g → g = generation w)) as Hw.
  { unfold store_new. apply wp_bind. eapply (wp_mono _ _ (λ r w', generation w' = generation w ∧ ∀ g, r.2 = Some g → g = generation w)).
    { destruct (option_storage options); [by apply wp_ret| |by apply wp_ret]. apply wp_bind, wp_gets, wp_bind.
      eapply wp_mono; [apply open_keeps|]. intros h w1 Hg. apply wp_ret. cbn. split; [done|]. by intros g [= <-]. }
    intros [[s ns] g] w1 [Hg Hcur]. destruct (option_cache options); [destruct s as [h|]|]; [|by apply wp_ret..].
    unfold ingest. cbn [storage]. apply wp_bind. eapply wp_mono; [apply scan_visits|]. intros l w2 (Hg2 & _). apply wp_ret.
    split; [congruence|exact Hcur]. }
  unfold wp in Hw. rewrite Hnew in Hw. destruct Hw as [Hg Hcur].
  assert (wp (reset_if_stale st) w' (λ r w2, r = (false, st) ∧ w2 = w')) as Hr.
  { apply wp_current; [|done]. intros g Hge. rewrite Hg. by apply Hcur. }
  apply wp_spec in Hr as (r & w2 & -> & -> & ->). done.
Qed.
Lemma outdated_is_new {B} (body : Store K V H → M W B) w st ns :
  outdated w st ns →
  ('(_, st) ← reset_if_stale st; body st) w =
  (st ← store_new (reopened st ns); '(_, st) ← reset_if_stale st; body st) w.
Proof.
  intros Hout. unfold mbind, M_bind. rewrite (reset_outdated _ _ _ Hout). unfold fmap, M_fmap.
  destruct (store_new (reopened st ns) w) as [[st' w']|] eqn:Hnew; [|done]. by rewrite (new_current _ _ _ _ Hnew).
Qed.

(** A switch of the environment reaches the stores that are open.  To one
    that was opened before it every read from memory is a miss, and each
    operation is what it would be on a store that is created anew, with the same
    namespace and cache, in the environment that is active. *)
Theorem outdated_store_is_new w st ns :
  outdated w st ns →
  let new := store_new (reopened st ns) in
  (∀ k, store_get st k w = Some (None, w)) ∧ store_len st w = Some (0, w) ∧ store_for_each entries_order st w = Some ([], w) ∧
  (∀ k, store_get_mut st k w = (st ← new; store_get_mut st k) w) ∧
  (∀ k, store_remove st k w = (st ← new; store_remove st k) w) ∧
  (∀ k v, store_insert st k v w = (st ← new; store_insert st k v) w) ∧
  (∀ k, store_purge_key st k w = (st ← new; store_purge_key st k) w) ∧
  store_clear st w = (st ← new; store_clear st) w ∧
  store_purge st w = (st ← new; store_purge st) w ∧
  store_scan entries_order st w = (st ← new; store_scan entries_order st) w.
Proof.
  intros Hout new. pose proof (stale_outdated _ _ _ Hout) as Hs.
  split_and!; intros; try (unfold store_get, store_len, store_for_each, mbind, M_bind; by rewrite Hs);
    by apply outdated_is_new.
Qed.
End promises.

(** ** Strings, stored in memory *)
Module Words.
Import Memory.
#[export] Instance word_codec : Codec string := { encode := id; decode := Some }.
#[export] Instance word_codec_laws : CodecLaws string.
Proof. by split. Qed.
#[export] Instance storage_words : Storage World Text := memory_storage map_to_list.
#[export] Instance storage_words_laws : StorageLaws World Text := memory_laws map_to_list (λ _, reflexivity _).
Abbreviation WordStore := (Store string string Text).
(** A store of the namespace of key [1], unbound, and the rows it is opened on. *)
Definition holding (rw : Rows) : World := mk_World 0 [] {[ [1] := rw ]}.
Definition word_store (c : CacheOption) : WordStore := mk_Store ∅ ∅ (Some [1]) (Some [1]) c None.

Lemma word_store_fine c : store_fine (holding ∅) (word_store c).
Proof.
  assert (rows (holding ∅) [1] = ∅) as Hr by reflexivity.
  split; [split|split].
  - by intros [? [=]].
  - intros h [= <-]. rewrite Hr. intros b k []. by rewrite lookup_empty in *.
  - intros h k v _. cbn. by intros ?%lookup_empty_Some.
  - intros h k v [= <-] _ _. rewrite Hr. unfold durable. by rewrite lookup_empty.
  - by intros g [=].
  - intros _ h [= <-]. rewrite Hr. intros b e ?%lookup_empty_Some. done.
Qed.
End Words.
Import Memory Words.

(** A lazy store that has read a value of a bundle goes on serving it after the
    value that was computed here has replaced it in the storage. *)
Lemma replaced_import_is_served :
  (λ '(r, rw), (r.1, rows rw [1] !! "k"%string)) <$>
    ('(_, st) ← store_get_mut (word_store Lazy) "k"%string;
     '(r, st) ← store_insert st "k"%string "new"%string;
     '(v, _) ← store_get_mut st "k"%string; mret (v, r)) (holding {[ "k"%string := ("old"%string, Imported) ]}) =
  Some (Some "old"%string, Some ("new"%string, Local)).
Proof. vm_compute. reflexivity. Qed.

Lemma store_insert_arbitrates_witness :
  wp (store_insert (word_store Eager) "k"%string "v"%string) (holding ∅) (λ r w', durable (rows w' [1]) "k"%string = Some "v"%string) ∧
  wp (store_insert (word_store Eager) "k"%string "v"%string) (holding ∅) (λ r w', store_ok w' r.2).
Proof.
  split; [vm_compute; reflexivity|]. eapply wp_mono.
  - apply (store_insert_arbitrates (word_store Eager) (holding ∅) [1] "k"%string "v"%string);
      [apply word_store_fine|reflexivity|done].
  - cbn. intros r w' (Hok & _). destruct Hok as [?|[[[=] _] _]]; [apply word_store_fine|done].
Defined.
Lemma store_history_witness :
  wp (run_calls map_to_list [CallInsert "a" "1"; CallRemove "a"; CallInsert "a" "2"]%string (word_store Lazy)) (holding ∅)
    (λ st' w', store_fine w' st' ∧ durable (rows w' [1]) "a"%string = Some "1"%string).
Proof.
  apply wp_conj; [|vm_compute; reflexivity]. eapply wp_mono.
  - apply (store_history map_to_list [CallInsert "a" "1"; CallRemove "a"; CallInsert "a" "2"]%string (word_store Lazy) (holding ∅)).
    apply word_store_fine.
  - intros st' w' [Hf _]. exact Hf.
Defined.
Lemma outdated_store_is_new_witness :
  let w := mk_World 1 [] ∅ in
  let st : WordStore := mk_Store {[ "k"%string := "old"%string ]} ∅ (Some [31; 7]) (Some [7]) Lazy (Some 0) in
  store_get st "k"%string w = Some (None, w) ∧
  store_get_mut st "k"%string w = (st ← store_new (reopened st [7]); store_get_mut st "k"%string) w.
Proof.
  intros w st. split; apply (outdated_store_is_new map_to_list w st [7]); (split; [reflexivity|]); by exists 0.
Defined.
