(* ===== verification/TunePlan.v ===== *)
(** * The plan of an autotune

    [cubecl-runtime/src/tune/base.rs]: the groups of tunables, and the plan
    that says which of them are benchmarked together and in which order.  The
    order in which a hash map is iterated is a parameter. *)

From S2P Require Export Prelude.
From stdpp Require Import list gmap fin_maps sorting strings.
#[local] Open Scope Z_scope.

(** ** Groups and tunables *)
Record TuneGroup (K : Type) := mk_TuneGroup {
  group_id : Z;
  group_name : string;
  group_priority : K → Z;
  group_ordered : bool;
}.
Arguments mk_TuneGroup {K}. Arguments group_id {K}. Arguments group_name {K}. Arguments group_priority {K}.
Arguments group_ordered {K}.

(** The counter of the ids, a [u32] that wraps around. *)
Definition group_build {K} (name : string) (f : K → Z) (ordered : bool) : M Z (TuneGroup K) :=
  id ← get; _ ← put ((id + 1) mod 2 ^ 32); mret (mk_TuneGroup id name f ordered).
Definition group_new {K} (name : string) (f : K → Z) : M Z (TuneGroup K) := group_build name f false.
Definition group_new_ordered {K} (name : string) (f : K → Z) : M Z (TuneGroup K) := group_build name f true.

Record Tunable (K Fn : Type) := mk_Tunable {
  tunable_function : Fn;
  tunable_groups : list (TuneGroup K * (K → Z));
}.
Arguments mk_Tunable {K Fn}. Arguments tunable_function {K Fn}. Arguments tunable_groups {K Fn}.
Definition tunable_new {K Fn} (function : Fn) : Tunable K Fn := mk_Tunable function [].
Definition tunable_group {K Fn} (group : TuneGroup K) (priority : K → Z) (t : Tunable K Fn) : Tunable K Fn :=
  mk_Tunable (tunable_function t) (tunable_groups t ++ [(group, priority)]).

(** ** The plan *)
Record Placement := mk_Placement {
  placed_group : string;
  placed_ordered : bool;
  placed_group_priority : Z;
  placed_priority : Z;
}.
Record Planned := mk_Planned { planned_index : nat; planned_group : Z; planned_priority : Z }.
#[global] Instance Planned_eq_dec : EqDecision Planned.
Proof. solve_decision. Defined.
Record GroupPlan := mk_GroupPlan { level_priorities : list Z; level_indices : gmap Z (list Planned) }.
Record TunePlan := mk_TunePlan {
  plan_priorities : list Z;
  no_groups : list nat;
  plan_groups : gmap Z GroupPlan;
  returned : list nat;
  placements : list (list Placement);
}.
Record Cleanup := mk_Cleanup {
  cleanup_groups : list Z;
  cleanup_tunables : list (Z * Z);
  cleanup_skipped : bool;
}.
Record PlannedCandidate := mk_PlannedCandidate {
  candidate_name : string;
  candidate_index : nat;
  candidate_batch : option nat;
  candidate_groups : list Placement;
}.

(** [sort_by_key]: stable. *)
Fixpoint insert_before {A} (le : A → A → bool) (x : A) (l : list A) : list A :=
  match l with
  | [] => [x]
  | y :: l' => if le x y then x :: l else y :: insert_before le x l'
  end.
Definition sort_stable {A} (le : A → A → bool) (l : list A) : list A := foldr (insert_before le) [] l.
#[global] Arguments sort_stable : simpl never.

(** *** Building it *)

(** A tunable in a group, as the key prices both. *)
Record Priced (K : Type) := mk_Priced {
  priced_index : nat;
  priced_group : TuneGroup K;
  priced_group_priority : Z;
  priced_priority : Z;
}.
Arguments mk_Priced {K}. Arguments priced_index {K}. Arguments priced_group {K}.
Arguments priced_group_priority {K}. Arguments priced_priority {K}.

Section new.
Context {K Fn : Type}.
Implicit Types (key : K) (priced : list (Priced K)) (levels : gmap Z Z).

(** The body of the inner loop, and that of the outer one. *)
Definition price_one key (index : nat) '(priced, levels, placed) (member : TuneGroup K * (K → Z)) :
    list (Priced K) * gmap Z Z * list Placement :=
  let '(group, within_group_priority) := member in
  let gp := group_priority group key in
  let p := within_group_priority key in
  (priced ++ [mk_Priced index group gp p],
   if group_ordered group && (0 <=? p)
   then <[group_id group := Z.max (default p (levels !! group_id group)) p]> levels else levels,
   placed ++ [mk_Placement (group_name group) (group_ordered group) gp p]).
Definition price_tunable key '(no_groups, priced, levels, placements) '(index, tunable) :
    list nat * list (Priced K) * gmap Z Z * list (list Placement) :=
  match tunable_groups (tunable : Tunable K Fn) with
  | [] => (no_groups ++ [index], priced, levels, placements ++ [[]])
  | members =>
      let '(priced, levels, placed) := foldl (price_one key index) (priced, levels, []) members in
      (no_groups, priced, levels, placements ++ [placed])
  end.
(** The body of the second loop. *)
Definition place_one levels (plan : list Z * gmap Z GroupPlan) (p : Priced K) : option (list Z * gmap Z GroupPlan) :=
  let '(priorities, groups) := plan in
  let gp := priced_group_priority p in
  let priorities := if decide (gp ∈ priorities) then priorities else priorities ++ [gp] in
  let group_plan := default (mk_GroupPlan [] ∅) (groups !! gp) in
  level ← (if group_ordered (priced_group p) && (0 <=? priced_priority p)
           then levels !! group_id (priced_group p) else Some (priced_priority p));
  let planned := mk_Planned (priced_index p) (group_id (priced_group p)) (priced_priority p) in
  group_plan ←
    (if decide (level ∈ level_priorities group_plan) then
       l ← level_indices group_plan !! level;
       Some (mk_GroupPlan (level_priorities group_plan) (<[level := l ++ [planned]]> (level_indices group_plan)))
     else Some (mk_GroupPlan (level_priorities group_plan ++ [level]) (<[level := [planned]]> (level_indices group_plan))));
  Some (priorities, <[gp := group_plan]> groups).
Fixpoint place_all levels (plan : list Z * gmap Z GroupPlan) priced : option (list Z * gmap Z GroupPlan) :=
  match priced with
  | [] => Some plan
  | p :: priced => plan ← place_one levels plan p; place_all levels plan priced
  end.
Definition plan_new key (tunables : list (Tunable K Fn)) : option TunePlan :=
  let '(no_groups, priced, levels, placements) :=
    foldl (price_tunable key) ([], [], ∅, []) (imap pair tunables) in
  '(priorities, groups) ← place_all levels ([], ∅) priced;
  Some (mk_TunePlan (sort_stable Z.leb priorities) no_groups
    ((λ g, mk_GroupPlan (sort_stable Z.leb (level_priorities g)) (level_indices g)) <$> groups) [] placements).
End new.

(** *** Walking it *)
Definition with_plan_groups (groups : gmap Z GroupPlan) (p : TunePlan) : TunePlan :=
  mk_TunePlan (plan_priorities p) (no_groups p) groups (returned p) (placements p).
Definition with_returned (l : list nat) (p : TunePlan) : TunePlan :=
  mk_TunePlan (plan_priorities p) (no_groups p) (plan_groups p) l (placements p).
Definition take_no_groups (p : TunePlan) : list nat * TunePlan :=
  (no_groups p, mk_TunePlan (plan_priorities p) [] (plan_groups p) (returned p) (placements p)).

(** The key [(Reverse(priority), index)]. *)
Definition planned_before (x y : Planned) : bool :=
  (planned_priority y <? planned_priority x) ||
  (planned_priority x =? planned_priority y) && (planned_index x <=? planned_index y)%nat.
Definition same_entry (n p : Planned) : bool :=
  bool_decide (planned_index p = planned_index n ∧ planned_group p = planned_group n).
Definition strike_one (l : list Planned) (n : Planned) : list Planned :=
  match position (same_entry n) l with Some entry => vec_remove entry l | None => l end.
Definition strike (next : list Planned) (l : list Planned) : list Planned := foldl strike_one l next.

Section walk.
Context (group_order : gmap Z GroupPlan → list (Z * GroupPlan)).
Context (level_order : gmap Z (list Planned) → list (Z * list Planned)).
Implicit Types (p : TunePlan).

(** The bodies of the two loops of [group_plan_next]: the levels of a group, the
    number of those left empty and where they are; and the groups. *)
Definition strike_level (next : list Planned) (pg : Z) '(indices, num_empty, tunables) '(pt, l) :
    gmap Z (list Planned) * nat * list (Z * Z) :=
  let l := strike next l in
  (<[pt := l]> indices,
   if bool_decide (l = []) then S num_empty else num_empty,
   if bool_decide (l = []) then tunables ++ [(pg, pt)] else tunables).
Definition strike_group (next : list Planned) '(groups, empty, tunables) '(pg, group) :
    gmap Z GroupPlan * list Z * list (Z * Z) :=
  let '(indices, num_empty, tunables) :=
    foldl (strike_level next pg) (level_indices group, 0%nat, tunables) (level_order (level_indices group)) in
  (<[pg := mk_GroupPlan (level_priorities group) indices]> groups,
   if decide (num_empty = length (level_priorities group)) then empty ++ [pg] else empty,
   tunables).
Definition group_plan_next (priority : Z) p : option (list nat * Cleanup * TunePlan) :=
  group_plan ← plan_groups p !! priority;
  within ← last (level_priorities group_plan);
  next ← level_indices group_plan !! within;
  let groups := <[priority := mk_GroupPlan (removelast (level_priorities group_plan))
                    (delete within (level_indices group_plan))]> (plan_groups p) in
  let next := sort_stable planned_before next in
  let '(groups, empty, tunables) := foldl (strike_group next) (groups, [], []) (group_order groups) in
  Some (if within <? 0 then [] else planned_index <$> next,
        mk_Cleanup empty tunables (within <? 0),
        with_plan_groups groups p).

(** [Vec::remove] of where a value is. *)
Definition remove_value (x : Z) (l : list Z) : option (list Z) :=
  i ← position (λ y, y =? x) l; Some (vec_remove i l).
Definition cleanup_group p (pg : Z) : option TunePlan :=
  priorities ← remove_value pg (plan_priorities p);
  Some (mk_TunePlan priorities (no_groups p) (delete pg (plan_groups p)) (returned p) (placements p)).
Definition cleanup_tunable p '(pg, pt) : option TunePlan :=
  match plan_groups p !! pg with
  | None => Some p
  | Some group =>
      priorities ← remove_value pt (level_priorities group);
      Some (with_plan_groups (<[pg := mk_GroupPlan priorities (delete pt (level_indices group))]> (plan_groups p)) p)
  end.
Fixpoint fold_option {A B} (f : B → A → option B) (b : B) (l : list A) : option B :=
  match l with [] => Some b | x :: l => b ← f b x; fold_option f b l end.
Definition plan_cleanup (c : Cleanup) p : option TunePlan :=
  p ← fold_option cleanup_group p (cleanup_groups c);
  fold_option cleanup_tunable p (cleanup_tunables c).

(** The loop over the indices of the level. *)
Fixpoint fresh_indices (returned indices group_indices : list nat) : list nat :=
  match group_indices with
  | [] => indices
  | index :: l =>
      fresh_indices returned (if decide ((index ∉ returned) ∧ (index ∉ indices)) then indices ++ [index] else indices) l
  end.
(** The fuel bounds the levels that are skipped. *)
Fixpoint plan_next (fuel : nat) p : option (list nat * TunePlan) :=
  match fuel with
  | O => None
  | S fuel =>
      let '(ungrouped, p) := take_no_groups p in
      match last (plan_priorities p) with
      | None => Some (ungrouped, p)
      | Some priority =>
          '(group_indices, cleanup, p) ← group_plan_next priority p;
          let skipped := cleanup_skipped cleanup || (priority <? 0) in
          p ← plan_cleanup cleanup p;
          let fresh := if 0 <=? priority then fresh_indices (returned p) [] group_indices else [] in
          let all_skip := bool_decide (fresh = []) in
          let indices := fresh ++ ungrouped in
          if bool_decide (indices = []) && (skipped || all_skip) then plan_next fuel p
          else Some (indices, with_returned (returned p ++ indices) p)
      end
  end.

(** The levels that are left. *)
Definition plan_levels p : nat := foldr (λ g n, length (level_priorities (snd g)) + n)%nat 0%nat (group_order (plan_groups p)).

(** The batches of the plan, until an empty one. *)
Fixpoint plan_batches (fuel : nat) p : option (list (list nat) * TunePlan) :=
  match fuel with
  | O => None
  | S fuel' =>
      '(batch, p) ← plan_next fuel p;
      if bool_decide (batch = []) then Some ([], p)
      else '(batches, p) ← plan_batches fuel' p; Some (batch :: batches, p)
  end.
Definition numbered (batch : nat) (indices : list nat) : list (nat * option nat) :=
  (λ index, (index, Some batch)) <$> indices.
Definition plan_account (names : list string) p : option (list PlannedCandidate) :=
  '(batches, _) ← plan_batches (S (S (plan_levels p))) p;
  let account := mjoin (imap numbered batches) in
  let excluded := filter (λ index, index ∉ account.*1) (seq 0 (length names)) in
  mapM (λ seen : nat * option nat, name ← names !! seen.1; groups ← placements p !! seen.1;
          Some (mk_PlannedCandidate name seen.1 seen.2 groups))
    (account ++ ((λ index, (index, None)) <$> excluded)).
End walk.

(** ** Lists without duplicates, and maps written key by key *)
Lemma sort_stable_perm {A} (le : A → A → bool) l : sort_stable le l ≡ₚ l.
Proof.
  assert (∀ x k, insert_before le x k ≡ₚ x :: k) as Hins.
  { intros x k. induction k as [|y k IH]; [done|]. cbn. destruct (le x y); [done|]. rewrite IH. constructor. }
  induction l as [|x l IH]; [done|]. change (sort_stable le (x :: l)) with (insert_before le x (sort_stable le l)). by rewrite Hins, IH.
Qed.
Lemma sort_stable_sorted {A} (le : A → A → bool) (R : relation A) l :
  (∀ x y, le x y = true → R x y) → (∀ x y, le x y = false → R y x) → Sorted R (sort_stable le l).
Proof.
  intros HR HR'. induction l as [|x l IH]; [constructor|].
  change (sort_stable le (x :: l)) with (insert_before le x (sort_stable le l)). revert IH. generalize (sort_stable le l).
  intros k Hk. induction Hk as [|y k Hk IH Hd]; [by repeat constructor|]. cbn.
  destruct (le x y) eqn:Hle; [by repeat constructor; auto|]. constructor; [exact IH|].
  destruct k as [|z k]; cbn; [by constructor; auto|]. inversion Hd. destruct (le x z); constructor; auto.
Qed.
(** Sorting a list of distinct numbers. *)
Lemma sort_ascending (l : list Z) : NoDup l → StronglySorted Z.lt (sort_stable Z.leb l).
Proof.
  intros Hnd. assert (Sorted Z.le (sort_stable Z.leb l)) as Hs by (apply sort_stable_sorted; lia).
  apply Sorted_StronglySorted in Hs; [|intros x y z; lia].
  assert (NoDup (sort_stable Z.leb l)) as Hnd' by by rewrite sort_stable_perm.
  revert Hs Hnd'. generalize (sort_stable Z.leb l). intros k Hk. induction Hk as [|x k Hk IH Hx]; [constructor|].
  intros [Hnx Hnk]%NoDup_cons. constructor; [by apply IH|]. apply Forall_forall. intros y Hy.
  pose proof (proj1 (Forall_forall _ _) Hx y Hy). assert (x ≠ y) by by intros ->. lia.
Qed.
Lemma ascending_nodup l : StronglySorted Z.lt l → NoDup l.
Proof.
  induction 1 as [|x l _ IH Hx]; [constructor|]. constructor; [|done]. intros Hin.
  pose proof (proj1 (Forall_forall _ _) Hx x Hin). lia.
Qed.
Lemma ascending_last l x y : StronglySorted Z.lt (l ++ [x]) → y ∈ l → y < x.
Proof.
  intros Hs Hy. induction l as [|z l IH]; [by apply not_elem_of_nil in Hy|].
  inversion Hs as [|? ? Hs' Hz]; subst. apply elem_of_cons in Hy as [->|Hy]; [|by apply IH].
  apply (proj1 (Forall_forall _ _) Hz). rewrite elem_of_app. right. by left.
Qed.
Lemma ascending_remove l k x : StronglySorted Z.lt (l ++ x :: k) → StronglySorted Z.lt (l ++ k).
Proof.
  induction l as [|y l IH]; cbn; intros Hs; inversion Hs as [|? ? Hs' Hy]; subst; [done|].
  constructor; [by apply IH|]. apply Forall_app in Hy as [Hl Hk]. inversion Hk; subst. by apply Forall_app.
Qed.
(** Removing a value of an ascending list. *)
Lemma remove_value_spec x l :
  StronglySorted Z.lt l → x ∈ l →
  ∃ l', remove_value x l = Some l' ∧ StronglySorted Z.lt l' ∧ ∀ y, y ∈ l' ↔ y ∈ l ∧ y ≠ x.
Proof.
  intros Hs Hx. unfold remove_value. destruct (position (λ y, y =? x) l) as [i|] eqn:Hp.
  2: { apply position_None, (proj1 (Forall_forall _ _)) with (x := x) in Hp; [lia|done]. }
  apply position_Some in Hp as [(y & Hy & ->%Z.eqb_eq) _].
  apply list_elem_of_split_length in Hy as (l1 & l2 & -> & ->). cbn. eexists. split; [done|].
  rewrite vec_remove_middle. split; [by eapply ascending_remove|].
  apply ascending_nodup, NoDup_app in Hs as (_ & Hd & [Hx2 _]%NoDup_cons). intros y.
  rewrite !elem_of_app, elem_of_cons. split; [|by intros [[?|[->|?]] ?]; auto].
  intros Hy. split; [destruct Hy; auto|]. intros ->. destruct Hy as [Hy|Hy]; [|done]. apply (Hd x Hy). by left.
Qed.

(** The fold of an insertion over the bindings of a map. *)
Lemma foldl_insert_lookup {A B} (f : A → B) (kl : list (Z * A)) (m : gmap Z B) k :
  NoDup kl.*1 →
  foldl (λ m '(k, x), <[k := f x]> m) m kl !! k =
    match (list_to_map kl : gmap Z A) !! k with Some x => Some (f x) | None => m !! k end.
Proof.
  revert m. induction kl as [|[k' x] kl IH]; intros m Hnd; [done|].
  cbn in Hnd. apply NoDup_cons in Hnd as [Hk' Hnd]. cbn. rewrite IH by done.
  destruct (decide (k = k')) as [->|Hne].
  - rewrite lookup_insert_eq, not_elem_of_list_to_map_1 by done. by rewrite lookup_insert_eq.
  - rewrite !lookup_insert_ne by done. done.
Qed.
Lemma omap_full {A B} (f : A → option B) l : length (omap f l) = length l ↔ ∀ x, x ∈ l → is_Some (f x).
Proof.
  induction l as [|x l IH]; [by split; [intros _ x ?%not_elem_of_nil|]|].
  pose proof (omap_length_le f l). split.
  - intros Hl. cbn in Hl. destruct (f x) as [y|] eqn:Hx; cbn in Hl; [|lia].
    intros z [->|Hz]%elem_of_cons; [by rewrite Hx|]. apply IH; [lia|done].
  - intros Hl. cbn. destruct (Hl x) as [y ->]; [by left|]. cbn. f_equal. apply IH. intros z Hz. apply Hl. by right.
Qed.

(** ** One level taken out of a plan *)
Record group_wf (g : GroupPlan) : Prop := {
  gw_ascending : StronglySorted Z.lt (level_priorities g);
  gw_levels lv : lv ∈ level_priorities g ↔ is_Some (level_indices g !! lv);
}.
Record plan_wf (p : TunePlan) : Prop := {
  pw_ascending : StronglySorted Z.lt (plan_priorities p);
  pw_groups gp : gp ∈ plan_priorities p ↔ is_Some (plan_groups p !! gp);
  pw_group gp g : plan_groups p !! gp = Some g → group_wf g ∧ level_priorities g ≠ [];
  pw_level gp g lv l : plan_groups p !! gp = Some g → level_indices g !! lv = Some l → l ≠ [];
}.

(** A place is a level of a group priority. *)
Abbreviation Place := (Z * Z)%type.
Definition place_before (a b : Place) : Prop := b.1 < a.1 ∨ a.1 = b.1 ∧ b.2 < a.2.
Definition entries_at (p : TunePlan) (pl : Place) : option (list Planned) :=
  g ← plan_groups p !! pl.1; level_indices g !! pl.2.
(** What a plan still holds, the next level first. *)
Definition shows (p : TunePlan) (v : list (Place * list Planned)) : Prop :=
  StronglySorted (λ a b, place_before a.1 b.1) v ∧ ∀ pl l, (pl, l) ∈ v ↔ entries_at p pl = Some l.

Section cleanup.
Context (group_order : gmap Z GroupPlan → list (Z * GroupPlan)).
Context (level_order : gmap Z (list Planned) → list (Z * list Planned)).
Context (group_order_perm : ∀ m, group_order m ≡ₚ map_to_list m).
Context (level_order_perm : ∀ m, level_order m ≡ₚ map_to_list m).
Implicit Types (p : TunePlan) (g : GroupPlan) (next : list Planned).

(** The keys of the levels that [next] leaves empty. *)
Definition emptied next (kl : list (Z * list Planned)) : list Z :=
  omap (λ kv, if bool_decide (strike next kv.2 = []) then Some kv.1 else None) kl.
Definition strike_levels next g : GroupPlan := mk_GroupPlan (level_priorities g) (strike next <$> level_indices g).
Definition all_emptied next g : Prop := ∀ lv l, level_indices g !! lv = Some l → strike next l = [].

Lemma ordered_to_map {A} (m : gmap Z A) kl : kl ≡ₚ map_to_list m → NoDup kl.*1 ∧ list_to_map kl = m.
Proof.
  intros Hp. assert (NoDup kl.*1) as Hnd by (rewrite Hp; apply NoDup_fst_map_to_list). split; [done|].
  rewrite <- (list_to_map_to_list m). by apply list_to_map_proper.
Qed.
Lemma strike_level_fold next pg kl m n ct :
  foldl (strike_level next pg) (m, n, ct) kl =
    (foldl (λ m '(k, l), <[k := strike next l]> m) m kl, (length (emptied next kl) + n)%nat,
     ct ++ (pair pg <$> emptied next kl)).
Proof.
  revert m n ct. induction kl as [|[k l] kl IH]; intros m n ct; [cbn; by rewrite app_nil_r|].
  cbn -[strike]. rewrite IH. case_bool_decide; cbn; [|done]. rewrite <- app_assoc. cbn.
  by rewrite Nat.add_succ_r.
Qed.
Lemma strike_levels_fold next pg g ct :
  foldl (strike_level next pg) (level_indices g, 0%nat, ct) (level_order (level_indices g)) =
    (strike next <$> level_indices g, length (emptied next (level_order (level_indices g))),
     ct ++ (pair pg <$> emptied next (level_order (level_indices g)))).
Proof.
  rewrite strike_level_fold, Nat.add_0_r. f_equal. f_equal. apply map_eq. intros k.
  destruct (ordered_to_map _ _ (level_order_perm (level_indices g))) as [Hnd Hm].
  rewrite foldl_insert_lookup, Hm, lookup_fmap by done. by destruct (level_indices g !! k).
Qed.
Lemma emptied_elem next m lv : lv ∈ emptied next (level_order m) ↔ ∃ l, m !! lv = Some l ∧ strike next l = [].
Proof.
  unfold emptied. rewrite list_elem_of_omap. split.
  - intros ([k l] & Hkl & Hs). cbn in Hs. case_bool_decide; [|done]. injection Hs as <-.
    rewrite level_order_perm in Hkl. exists l. by apply elem_of_map_to_list in Hkl.
  - intros (l & Hl & Hs). exists (lv, l). cbn. rewrite bool_decide_true by done. split; [|done].
    rewrite level_order_perm. by apply elem_of_map_to_list.
Qed.
Lemma emptied_nodup next m : NoDup (emptied next (level_order m)).
Proof.
  destruct (ordered_to_map _ _ (level_order_perm m)) as [Hnd _]. revert Hnd. unfold emptied.
  induction (level_order m) as [|[k l] kl IH]; cbn; [constructor|]. intros [Hk Hnd]%NoDup_cons.
  case_bool_decide; cbn; [|by apply IH]. constructor; [|by apply IH].
  intros ([k' l'] & Hin & Hs)%list_elem_of_omap. cbn in Hs. case_bool_decide; [|done]. injection Hs as ->.
  apply Hk, list_elem_of_fmap. by exists (k, l').
Qed.
(** The count says when a group is left with nothing. *)
Lemma emptied_count next g :
  group_wf g → length (emptied next (level_order (level_indices g))) = length (level_priorities g) ↔ all_emptied next g.
Proof.
  intros [Hasc Hdom]. set (m := level_indices g). pose proof (level_order_perm m) as Hperm.
  assert (level_priorities g ≡ₚ (map_to_list m).*1) as Hlv.
  { apply NoDup_Permutation; [by apply ascending_nodup|apply NoDup_fst_map_to_list|]. intros lv.
    rewrite Hdom, list_elem_of_fmap. split.
    - intros [l Hl]. exists (lv, l). by rewrite elem_of_map_to_list.
    - intros ([k l] & -> & Hl%elem_of_map_to_list). by eexists. }
  rewrite Hlv, length_fmap, <- Hperm. unfold emptied. rewrite omap_full. unfold all_emptied. split.
  - intros Hall lv l Hl. destruct (Hall (lv, l)) as [? Hs].
    { by rewrite Hperm, elem_of_map_to_list. }
    cbn in Hs. by case_bool_decide.
  - intros Hall [lv l] Hin. rewrite Hperm, elem_of_map_to_list in Hin. cbn.
    rewrite bool_decide_true by by eapply Hall. by eexists.
Qed.

(** What [group_plan_next] tells the cleanup to remove. *)
Definition dead_groups next (gl : list (Z * GroupPlan)) : list Z :=
  omap (λ kg, if decide (length (emptied next (level_order (level_indices kg.2))) = length (level_priorities kg.2))
              then Some kg.1 else None) gl.
Definition dead_levels next (gl : list (Z * GroupPlan)) : list Place :=
  mjoin ((λ kg : Z * GroupPlan, pair kg.1 <$> emptied next (level_order (level_indices kg.2))) <$> gl).

Lemma strike_groups_fold next gl m cg ct :
  foldl (strike_group level_order next) (m, cg, ct) gl =
    (foldl (λ m '(k, g), <[k := strike_levels next g]> m) m gl, cg ++ dead_groups next gl, ct ++ dead_levels next gl).
Proof.
  revert m cg ct. induction gl as [|[k g] gl IH]; intros m cg ct; [cbn; by rewrite !app_nil_r|].
  cbn [foldl]. unfold strike_group at 2. rewrite strike_levels_fold, IH. unfold dead_levels at 2, dead_groups at 2.
  cbn. case_decide; cbn; by rewrite <- ?app_assoc.
Qed.
Lemma dead_groups_elem next (m : gmap Z GroupPlan) pg :
  (∀ k g, m !! k = Some g → group_wf g) →
  pg ∈ dead_groups next (group_order m) ↔ ∃ g, m !! pg = Some g ∧ all_emptied next g.
Proof.
  intros Hwf. unfold dead_groups. rewrite list_elem_of_omap. split.
  - intros ([k g] & Hin & Hs). rewrite group_order_perm, elem_of_map_to_list in Hin. cbn in Hs.
    case_decide as Hc; [|done]. injection Hs as ->. apply emptied_count in Hc; [|by eapply Hwf]. by exists g.
  - intros (g & Hg & Hall). exists (pg, g). rewrite group_order_perm, elem_of_map_to_list. split; [done|]. cbn.
    rewrite decide_True; [done|]. by apply emptied_count; [eapply Hwf|].
Qed.
Lemma dead_levels_elem next (m : gmap Z GroupPlan) pg pt :
  (pg, pt) ∈ dead_levels next (group_order m) ↔
    ∃ g l, m !! pg = Some g ∧ level_indices g !! pt = Some l ∧ strike next l = [].
Proof.
  unfold dead_levels. rewrite list_elem_of_join. split.
  - intros (k & Hk & ([pg' g] & -> & Hin)%list_elem_of_fmap). cbn in Hk.
    apply list_elem_of_fmap in Hk as (pt' & [= -> ->] & (l & ? & ?)%emptied_elem).
    rewrite group_order_perm, elem_of_map_to_list in Hin. by exists g, l.
  - intros (g & l & Hg & Hl & Hs). exists (pair pg <$> emptied next (level_order (level_indices g))). split.
    + apply list_elem_of_fmap. exists pt. split; [done|]. apply emptied_elem. by exists l.
    + apply list_elem_of_fmap. exists (pg, g). split; [done|]. by rewrite group_order_perm, elem_of_map_to_list.
Qed.
Lemma dead_nodup next (m : gmap Z GroupPlan) :
  NoDup (dead_groups next (group_order m)) ∧ NoDup (dead_levels next (group_order m)).
Proof.
  destruct (ordered_to_map _ _ (group_order_perm m)) as [Hnd _]. revert Hnd. unfold dead_groups, dead_levels.
  induction (group_order m) as [|[k g] gl IH]; cbn; [by split; constructor|]. intros [Hk Hnd]%NoDup_cons.
  destruct (IH Hnd) as [IH1 IH2]. split.
  - case_decide; cbn; [|done]. constructor; [|done]. intros ([k' g'] & Hin & Hs)%list_elem_of_omap. cbn in Hs.
    case_decide; [|done]. injection Hs as ->. apply Hk, list_elem_of_fmap. by exists (k, g').
  - apply NoDup_app. split; [apply NoDup_fmap; [by intros ? ? [=]|apply emptied_nodup]|]. split; [|done].
    intros x (pt & -> & _)%list_elem_of_fmap (kl & Hkl & ([k' g'] & -> & Hin)%list_elem_of_fmap)%list_elem_of_join.
    apply list_elem_of_fmap in Hkl as (pt' & [= -> ->] & _). apply Hk, list_elem_of_fmap. by exists (k', g').
Qed.

(** The two loops of the cleanup. *)
Lemma cleanup_groups_spec cg p :
  StronglySorted Z.lt (plan_priorities p) → NoDup cg → (∀ k, k ∈ cg → k ∈ plan_priorities p) →
  ∃ p', fold_option cleanup_group p cg = Some p' ∧ StronglySorted Z.lt (plan_priorities p') ∧
    (∀ k, k ∈ plan_priorities p' ↔ k ∈ plan_priorities p ∧ k ∉ cg) ∧
    (∀ k, plan_groups p' !! k = if decide (k ∈ cg) then None else plan_groups p !! k) ∧
    no_groups p' = no_groups p ∧ returned p' = returned p ∧ placements p' = placements p.
Proof.
  revert p. induction cg as [|pg cg IH]; intros p Hs Hnd Hin.
  { exists p. split_and!; try done. intros k; rewrite elem_of_nil; tauto. }
  apply NoDup_cons in Hnd as [Hpg Hnd].
  destruct (remove_value_spec pg (plan_priorities p)) as (l & Hl & Hsl & Hel); [done|by apply Hin; left|].
  assert (cleanup_group p pg = Some (mk_TunePlan l (no_groups p) (delete pg (plan_groups p)) (returned p) (placements p)))
    as Hc by (unfold cleanup_group; by rewrite Hl).
  cbn [fold_option]. rewrite Hc. cbn [mbind option_bind].
  destruct (IH (mk_TunePlan l (no_groups p) (delete pg (plan_groups p)) (returned p) (placements p)))
    as (p' & -> & Hs' & He' & Hg' & ? & ? & ?); cbn; [done|done|..].
  { intros k Hk. apply Hel. split; [apply Hin; by right|by intros ->]. }
  exists p'. split_and!; try done.
  - intros k. rewrite He', elem_of_cons. cbn. rewrite Hel. tauto.
  - intros k. rewrite Hg'. cbn. destruct (decide (k = pg)) as [->|Hne].
    + rewrite decide_False by done. rewrite (decide_True (P := pg ∈ pg :: cg)) by by left. by rewrite lookup_delete_eq.
    + rewrite lookup_delete_ne by done. repeat case_decide; try done; exfalso; set_solver.
Qed.

(** A group whose levels in [ct] are removed. *)
Definition thinned (ct : list Place) (pg : Z) (g g' : GroupPlan) : Prop :=
  StronglySorted Z.lt (level_priorities g') ∧
  (∀ lv, lv ∈ level_priorities g' ↔ lv ∈ level_priorities g ∧ (pg, lv) ∉ ct) ∧
  ∀ lv, level_indices g' !! lv = if decide ((pg, lv) ∈ ct) then None else level_indices g !! lv.
Lemma cleanup_tunables_spec ct p :
  NoDup ct → (∀ pg g, plan_groups p !! pg = Some g → StronglySorted Z.lt (level_priorities g)) →
  (∀ pg pt g, (pg, pt) ∈ ct → plan_groups p !! pg = Some g → pt ∈ level_priorities g) →
  ∃ groups, fold_option cleanup_tunable p ct = Some (with_plan_groups groups p) ∧
    ∀ pg, match plan_groups p !! pg with
          | None => groups !! pg = None
          | Some g => ∃ g', groups !! pg = Some g' ∧ thinned ct pg g g'
          end.
Proof.
  revert p. induction ct as [|[pg pt] ct IH]; intros p Hnd Hs Hin.
  { exists (plan_groups p). split; [by destruct p|]. intros pg. destruct (plan_groups p !! pg) as [g|] eqn:Hg; [|done].
    exists g. split; [done|]. split; [by eapply Hs|]. split; [|done]. intros lv; rewrite elem_of_nil; tauto. }
  apply NoDup_cons in Hnd as [Hpt Hnd]. cbn [fold_option].
  destruct (plan_groups p !! pg) as [g|] eqn:Hg.
  2: { assert (cleanup_tunable p (pg, pt) = Some p) as -> by (unfold cleanup_tunable; by rewrite Hg).
       cbn [mbind option_bind]. destruct (IH p) as (groups & -> & Hg'); [done|done|by intros; eapply Hin; [right|]|].
       exists groups. split; [done|]. intros k. specialize (Hg' k). destruct (plan_groups p !! k) as [g|] eqn:Hk; [|done].
       destruct Hg' as (g' & Hg' & Hsg & He & Hl). exists g'. split; [done|]. assert (k ≠ pg) by by intros ->; congruence.
       assert (∀ lv, (k, lv) ∈ (pg, pt) :: ct ↔ (k, lv) ∈ ct) as Hiff by (intros lv; rewrite elem_of_cons; naive_solver).
       split; [done|]. split; [intros lv; by rewrite He, Hiff|]. intros lv. rewrite Hl. pose proof (Hiff lv). repeat case_decide; first [done|tauto]. }
  destruct (remove_value_spec pt (level_priorities g)) as (l & Hl & Hsl & Hel); [by eapply Hs|by eapply Hin; [left|]|].
  assert (cleanup_tunable p (pg, pt) =
    Some (with_plan_groups (<[pg := mk_GroupPlan l (delete pt (level_indices g))]> (plan_groups p)) p)) as ->
    by (unfold cleanup_tunable; by rewrite Hg, Hl).
  cbn [mbind option_bind]. destruct (IH (with_plan_groups (<[pg := mk_GroupPlan l (delete pt (level_indices g))]> (plan_groups p)) p))
    as (groups & -> & Hg'); [done|..].
  { intros k g'. cbn. rewrite lookup_insert. case_decide; [by intros [= <-]|apply Hs]. }
  { intros k lv g' Hk. cbn. rewrite lookup_insert. case_decide as Heq.
    - subst. intros [= <-]. cbn. apply Hel. split; [by eapply Hin; [right|]|by intros ->].
    - apply Hin. by right. }
  exists groups. split; [done|]. intros k. specialize (Hg' k). cbn in Hg'. rewrite lookup_insert in Hg'.
  destruct (decide (pg = k)) as [<-|Hne].
  - rewrite Hg. destruct Hg' as (g' & Hg' & Hsg & He & Hlv). exists g'. split; [done|]. cbn in *. split; [done|]. split.
    + intros lv. rewrite He, elem_of_cons, Hel. naive_solver.
    + intros lv. rewrite Hlv. destruct (decide (lv = pt)) as [->|Hne].
      * rewrite decide_False by done. rewrite (decide_True (P := (pg, pt) ∈ _ :: _)) by by left. by rewrite lookup_delete_eq.
      * rewrite lookup_delete_ne by done. repeat case_decide; try done; exfalso; set_solver.
  - destruct (plan_groups p !! k) as [gk|]; [|done]. destruct Hg' as (g' & Hg' & Hsg & He & Hlv). exists g'.
    split; [done|]. assert (∀ lv, (k, lv) ∈ (pg, pt) :: ct ↔ (k, lv) ∈ ct) as Hiff by (intros lv; rewrite elem_of_cons; naive_solver).
    split; [done|]. split; [intros lv; by rewrite He, Hiff|]. intros lv. rewrite Hlv. pose proof (Hiff lv). repeat case_decide; first [done|tauto].
Qed.

(** The next level of a plan is the last of its last group. *)
Lemma shows_last p pl l v :
  plan_wf p → shows p ((pl, l) :: v) →
  last (plan_priorities p) = Some pl.1 ∧
  ∃ g, plan_groups p !! pl.1 = Some g ∧ last (level_priorities g) = Some pl.2 ∧ level_indices g !! pl.2 = Some l.
Proof.
  intros Hwf [Hs Hel]. assert (entries_at p pl = Some l) as He by by apply Hel; left.
  unfold entries_at in He. destruct (plan_groups p !! pl.1) as [g|] eqn:Hg; [|done]. cbn in He.
  inversion Hs as [|? ? _ Hbefore]; subst.
  assert (∀ gp g' lv l', plan_groups p !! gp = Some g' → level_indices g' !! lv = Some l' →
    (gp, lv) = pl ∨ place_before pl (gp, lv)) as Hmax.
  { intros gp g' lv l' Hg' Hl'. assert (((gp, lv), l') ∈ (pl, l) :: v) as Hin.
    { apply Hel. unfold entries_at. cbn. by rewrite Hg'. }
    apply elem_of_cons in Hin as [[= -> ->]|Hin]; [by left|right].
    exact (proj1 (Forall_forall _ _) Hbefore _ Hin). }
  assert (pl.1 ∈ plan_priorities p) as Hp by (apply (pw_groups _ Hwf); by rewrite Hg).
  destruct (last (plan_priorities p)) as [gp|] eqn:Hlast.
  2: { apply last_None in Hlast. rewrite Hlast in Hp. by apply not_elem_of_nil in Hp. }
  apply last_Some in Hlast as [ks Hks].
  destruct (pw_group _ Hwf _ _ Hg) as [[Hasc Hdom] Hne].
  assert (gp = pl.1) as ->.
  { assert (is_Some (plan_groups p !! gp)) as [g' Hg'].
    { apply (pw_groups _ Hwf). rewrite Hks, elem_of_app. right. by left. }
    destruct (pw_group _ Hwf _ _ Hg') as [[_ Hdom'] Hne'].
    destruct (level_priorities g') as [|lv lvs] eqn:Hlv; [done|].
    destruct (proj1 (Hdom' lv) ltac:(by left)) as [l' Hl'].
    pose proof (pw_ascending _ Hwf) as Ha. rewrite Hks in Ha, Hp. apply elem_of_app in Hp as [Hp|Hp%list_elem_of_singleton].
    - pose proof (ascending_last _ _ _ Ha Hp). destruct (Hmax _ _ _ _ Hg' Hl') as [<-|[?|[? _]]]; cbn in *; lia.
    - done. }
  split; [done|]. exists g. split; [done|]. split; [|done].
  destruct (last (level_priorities g)) as [lv|] eqn:Hlv; [|by apply last_None in Hlv].
  apply last_Some in Hlv as [lvs Hlvs]. f_equal.
  assert (is_Some (level_indices g !! lv)) as [l' Hl'].
  { apply Hdom. rewrite Hlvs, elem_of_app. right. by left. }
  assert (pl.2 ∈ level_priorities g) as Hin by (apply Hdom; by rewrite He).
  rewrite Hlvs in Hasc, Hin. apply elem_of_app in Hin as [Hin|Hin%list_elem_of_singleton]; [|done].
  pose proof (ascending_last _ _ _ Hasc Hin). destruct (Hmax _ _ _ _ Hg Hl') as [<-|[?|[_ ?]]]; cbn in *; lia.
Qed.

Definition struck next (v : list (Place * list Planned)) : list (Place * list Planned) :=
  omap (λ x, if bool_decide (strike next x.2 = []) then None else Some (x.1, strike next x.2)) v.
Lemma struck_elem next v pl l :
  (pl, l) ∈ struck next v ↔ ∃ l0, (pl, l0) ∈ v ∧ l = strike next l0 ∧ l ≠ [].
Proof.
  unfold struck. rewrite list_elem_of_omap. split.
  - intros ([pl' l0] & Hin & Hs). cbn in Hs. case_bool_decide; [done|]. injection Hs as <- <-. by exists l0.
  - intros (l0 & Hin & -> & Hne). exists (pl, l0). cbn. by rewrite bool_decide_false.
Qed.
Lemma struck_sorted next v :
  StronglySorted (λ a b, place_before a.1 b.1) v → StronglySorted (λ a b, place_before a.1 b.1) (struck next v).
Proof.
  induction 1 as [|x v _ IH Hx]; cbn; [constructor|]. case_bool_decide; [done|]. constructor; [done|].
  apply Forall_forall. intros [pl l] (l0 & Hin & _)%struck_elem. by apply (proj1 (Forall_forall _ _) Hx) in Hin.
Qed.

(** The groups a plan is left with, level by level. *)
Definition rest_of next (m : gmap Z GroupPlan) (pl : Place) : option (list Planned) :=
  g ← m !! pl.1; l ← level_indices g !! pl.2; if bool_decide (strike next l = []) then None else Some (strike next l).
Lemma cleaned next m p skipped :
  StronglySorted Z.lt (plan_priorities p) → (∀ gp, gp ∈ plan_priorities p ↔ is_Some (m !! gp)) →
  (∀ gp g, m !! gp = Some g → group_wf g) →
  ∃ p2, plan_cleanup (mk_Cleanup (dead_groups next (group_order m)) (dead_levels next (group_order m)) skipped)
      (with_plan_groups (strike_levels next <$> m) p) = Some p2 ∧ plan_wf p2 ∧
    (∀ pl, entries_at p2 pl = rest_of next m pl) ∧
    no_groups p2 = no_groups p ∧ returned p2 = returned p ∧ placements p2 = placements p.
Proof.
  intros Hasc Hdom Hwf. destruct (dead_nodup next m) as [Hnd1 Hnd2]. unfold plan_cleanup. cbn [cleanup_groups cleanup_tunables].
  destruct (cleanup_groups_spec (dead_groups next (group_order m)) (with_plan_groups (strike_levels next <$> m) p))
    as (p1 & -> & Hasc1 & Hel1 & Hg1 & Hn1 & Hr1 & Hp1); [done|done|..].
  { intros k (g & Hg & _)%dead_groups_elem; [|done]. apply Hdom. by eexists. }
  cbn [mbind option_bind]. cbn in Hg1, Hel1.
  assert (∀ k, plan_groups p1 !! k = g ← m !! k; if decide (k ∈ dead_groups next (group_order m)) then None
                 else Some (strike_levels next g)) as Hlook.
  { intros k. rewrite Hg1, lookup_fmap. destruct (m !! k); cbn; by case_decide. }
  destruct (cleanup_tunables_spec (dead_levels next (group_order m)) p1) as (groups & -> & Hgs); [done|..].
  { intros pg g. rewrite Hlook. destruct (m !! pg) as [gm|] eqn:Hgm; [|done]. cbn. case_decide; [done|].
    intros [= <-]. cbn. by apply (gw_ascending _ (Hwf _ _ Hgm)). }
  { intros pg pt g (gm & l & Hgm & Hl & _)%dead_levels_elem. rewrite Hlook, Hgm. cbn. case_decide; [done|].
    intros [= <-]. cbn. apply (gw_levels _ (Hwf _ _ Hgm)). by eexists. }
  eexists. split; [done|].
  assert (∀ k g', groups !! k = Some g' → ∃ g, m !! k = Some g ∧ ¬ all_emptied next g ∧
    thinned (dead_levels next (group_order m)) k (strike_levels next g) g') as Hinv.
  { intros k g' Hg'. specialize (Hgs k). rewrite Hlook in Hgs. destruct (m !! k) as [g|] eqn:Hgm; cbn in Hgs; [|congruence].
    case_decide as Hd; [congruence|]. destruct Hgs as (g'' & Hg'' & Ht). rewrite Hg' in Hg''. injection Hg'' as <-.
    exists g. split; [done|]. split; [|done]. intros Hall. apply Hd, dead_groups_elem; [done|]. by exists g. }
  assert (∀ k g g' lv, m !! k = Some g → thinned (dead_levels next (group_order m)) k (strike_levels next g) g' →
    level_indices g' !! lv = rest_of next m (k, lv)) as Hlevels.
  { intros k g g' lv Hgm (_ & _ & Ht). rewrite Ht. unfold rest_of. cbn. rewrite Hgm, lookup_fmap. cbn.
    destruct (level_indices g !! lv) as [l|] eqn:Hl; cbn; [|by case_decide].
    destruct (decide (strike next l = [])) as [Hs|Hs].
    - rewrite decide_True, bool_decide_true; [done|done|]. apply dead_levels_elem. by exists g, l.
    - rewrite decide_False, bool_decide_false; [done|done|]. intros (g0 & l0 & Hg0 & Hl0 & Hs0)%dead_levels_elem.
      rewrite Hgm in Hg0. injection Hg0 as <-. rewrite Hl in Hl0. by injection Hl0 as <-. }
  split_and!; [|..|done|done|done].
  - split; cbn; [done|..].
    + intros gp. rewrite Hel1, Hdom. specialize (Hgs gp). rewrite Hlook in Hgs. destruct (m !! gp) as [g|] eqn:Hgm; cbn in Hgs.
      * case_decide as Hd; [rewrite Hgs; split; [by intros [_ ?]|by intros []]|].
        destruct Hgs as (g' & -> & _). split; [by eexists|]. intros _. split; [by eexists|done].
      * rewrite Hgs. split; [by intros [[] _]|by intros []].
    + intros gp g' Hg'. destruct (Hinv _ _ Hg') as (g & Hgm & Hlive & Ht). destruct Ht as (Hasc' & Hel' & Hlook'). pose proof (gw_levels _ (Hwf _ _ Hgm)) as Hd. split; [split; [done|]|].
      * intros lv. rewrite Hel', Hlook'. cbn. rewrite Hd, lookup_fmap.
        case_decide; [split; [by intros [_ ?]|by intros []]|]. rewrite fmap_is_Some. tauto.
      * intros Hnil. apply Hlive. intros lv l Hl. destruct (decide (strike next l = [])) as [|Hs]; [done|]. exfalso.
        assert (lv ∈ level_priorities g') as Hin.
        { apply Hel'. cbn. split; [apply Hd; by eexists|]. intros (g0 & l0 & Hg0 & Hl0 & Hs0)%dead_levels_elem.
          rewrite Hgm in Hg0. injection Hg0 as <-. rewrite Hl in Hl0. by injection Hl0 as <-. }
        rewrite Hnil in Hin. by apply not_elem_of_nil in Hin.
    + intros gp g' lv l Hg' Hl ->. destruct (Hinv _ _ Hg') as (g & Hgm & _ & Ht). rewrite (Hlevels _ _ _ _ Hgm Ht) in Hl.
      unfold rest_of in Hl. cbn in Hl. rewrite Hgm in Hl. cbn in Hl. destruct (level_indices g !! lv); [|done]. cbn in Hl.
      by case_bool_decide; [|injection Hl].
  - intros [k lv]. unfold entries_at. cbn. specialize (Hgs k). rewrite Hlook in Hgs. unfold rest_of. cbn.
    destruct (m !! k) as [g|] eqn:Hgm; cbn in Hgs; [|by rewrite Hgs]. cbn. case_decide as Hd.
    + rewrite Hgs. cbn. apply dead_groups_elem in Hd as (g0 & Hg0 & Hall); [|done]. rewrite Hgm in Hg0. injection Hg0 as <-.
      destruct (level_indices g !! lv) eqn:Hl; [|done]. cbn. by rewrite bool_decide_true by by eapply Hall.
    + destruct Hgs as (g' & -> & Ht). cbn. rewrite (Hlevels _ _ _ _ Hgm Ht). unfold rest_of. cbn. by rewrite Hgm.
Qed.

(** [group_plan_next] and its cleanup take the next level out, and out of every
    other level the entries of the same tunables in the same groups. *)
Lemma next_level p pl l v :
  plan_wf p → shows p ((pl, l) :: v) →
  let next := sort_stable planned_before l in
  ∃ c p1 p2, group_plan_next group_order level_order pl.1 p =
      Some (if pl.2 <? 0 then [] else planned_index <$> next, c, p1) ∧
    cleanup_skipped c = (pl.2 <? 0) ∧ plan_cleanup c p1 = Some p2 ∧ plan_wf p2 ∧ shows p2 (struck next v) ∧
    no_groups p2 = no_groups p ∧ returned p2 = returned p ∧ placements p2 = placements p.
Proof.
  intros Hwf Hshow next. destruct (shows_last _ _ _ _ Hwf Hshow) as (_ & g & Hg & Hlast & Hl).
  destruct (pw_group _ Hwf _ _ Hg) as [[Hasc Hdom] _]. apply last_Some in Hlast as [lvs Hlvs].
  set (g0 := mk_GroupPlan (removelast (level_priorities g)) (delete pl.2 (level_indices g))).
  set (m := <[pl.1 := g0]> (plan_groups p)).
  assert (group_wf g0) as Hwf0.
  { unfold g0. rewrite Hlvs, removelast_last. rewrite Hlvs in Hasc. split; cbn.
    - rewrite <- (app_nil_r lvs). by eapply ascending_remove.
    - intros lv. pose proof (Hdom lv) as Hlv. rewrite Hlvs, elem_of_app, list_elem_of_singleton in Hlv.
      destruct (decide (lv = pl.2)) as [->|Hne].
      + rewrite lookup_delete_eq. split; [|by intros []]. intros Hin%(ascending_last _ _ _ Hasc). lia.
      + rewrite lookup_delete_ne by done. rewrite <- Hlv. tauto. }
  assert (∀ k gk, m !! k = Some gk → group_wf gk) as Hwfm.
  { intros k gk. unfold m. rewrite lookup_insert. case_decide; [by intros [= <-]|]. intros Hk. exact (proj1 (pw_group _ Hwf _ _ Hk)). }
  destruct (cleaned next m p (pl.2 <? 0)) as (p2 & Hc & Hwf2 & Hat & Hn & Hr & Hp); [by apply pw_ascending| |done|].
  { intros k. rewrite (pw_groups _ Hwf). unfold m. rewrite lookup_insert. case_decide as Hk; [|done].
    rewrite <- Hk, Hg. by split. }
  eexists _, _, p2. split.
  { unfold group_plan_next. rewrite Hg. cbn [mbind option_bind]. rewrite Hlvs, last_snoc. cbn [mbind option_bind].
    rewrite Hl. cbn [mbind option_bind]. rewrite <- Hlvs. fold g0. fold m. fold next.
    rewrite strike_groups_fold. cbn [app]. reflexivity. }
  split; [done|]. split.
  { rewrite <- Hc. f_equal. f_equal. apply map_eq. intros k.
    destruct (ordered_to_map _ _ (group_order_perm m)) as [Hnd Hm].
    rewrite foldl_insert_lookup, Hm, lookup_fmap by done. by destruct (m !! k). }
  split; [done|]. split; [|done]. destruct Hshow as [Hs Hel]. inversion Hs as [|? ? Hsv Hbefore]; subst.
  split; [by apply struck_sorted|]. intros pl' l'. rewrite struck_elem, Hat.
  assert (∀ l0, (pl', l0) ∈ v ↔ (gk ← m !! pl'.1; level_indices gk !! pl'.2) = Some l0) as Hv.
  { intros l0. specialize (Hel pl' l0). rewrite elem_of_cons in Hel. unfold entries_at in Hel. unfold m.
    rewrite lookup_insert. destruct (decide (pl' = pl)) as [->|Hne].
    - rewrite decide_True by done. cbn. rewrite lookup_delete_eq. split; [|done]. intros Hin.
      destruct (proj1 (Forall_forall _ _) Hbefore _ Hin) as [?|[? ?]]; cbn in *; lia.
    - assert ((pl', l0) ∈ v ↔ (g ← plan_groups p !! pl'.1; level_indices g !! pl'.2) = Some l0) as ->.
      { rewrite <- Hel. split; [by right|]. by intros [[= ->]|?]. }
      case_decide as Hk; [|done]. rewrite <- Hk, Hg. cbn. rewrite lookup_delete_ne; [done|].
      intros Hk2. apply Hne. destruct pl, pl'; cbn in *; congruence. }
  unfold rest_of. destruct (m !! pl'.1) as [gk|]; cbn in *.
  2: { split; [|done]. by intros (l0 & Hin%Hv & _). }
  split.
  - intros (l0 & ->%Hv & -> & Hne). cbn. by rewrite bool_decide_false.
  - destruct (level_indices gk !! pl'.2) as [l0|] eqn:Hl0; [|done]. cbn. case_bool_decide; [done|]. intros [= <-].
    exists l0. split; [by apply Hv|done].
Qed.
End cleanup.

(** ** What a plan is meant to release

    The members of each place, the best place first; a batch is what is new of
    the members of a place, in their order, and the tunables in no group trail
    the first batch. *)
Definition best_first (x y : Planned) : Prop :=
  planned_priority y < planned_priority x ∨ planned_priority x = planned_priority y ∧ (planned_index x <= planned_index y)%nat.
#[local] Instance best_first_dec x y : Decision (best_first x y).
Proof. unfold best_first. apply _. Defined.
Definition ranked (members : list Planned) : list Planned := sort_stable (λ x y, bool_decide (best_first x y)) members.
Lemma ranked_sorted l : ranked l ≡ₚ l ∧ StronglySorted best_first (ranked l).
Proof.
  split; [apply sort_stable_perm|]. apply Sorted_StronglySorted; [unfold best_first; intros x y z; lia|].
  apply sort_stable_sorted; intros x y; [apply bool_decide_eq_true|]. intros Hn%bool_decide_eq_false. unfold best_first in *. lia.
Qed.
(** The comparator of the code is this order. *)
Lemma ranked_planned l : ranked l = sort_stable planned_before l.
Proof.
  assert (∀ x y, bool_decide (best_first x y) = planned_before x y) as Hb.
  { intros x y. apply Bool.eq_true_iff_eq. unfold planned_before. rewrite bool_decide_eq_true, orb_true_iff, andb_true_iff, Nat.leb_le.
    unfold best_first. lia. }
  assert (∀ x k, insert_before (λ x y, bool_decide (best_first x y)) x k = insert_before planned_before x k) as Hi.
  { intros x k. induction k as [|y k IH]; [done|]. cbn. by rewrite Hb, IH. }
  unfold ranked. induction l as [|x l IH]; [done|]. change (foldr (insert_before (λ x y, bool_decide (best_first x y))) [] (x :: l) = sort_stable planned_before (x :: l)).
  change (sort_stable planned_before (x :: l)) with (insert_before planned_before x (sort_stable planned_before l)).
  rewrite <- IH, <- Hi. done.
Qed.
Definition place_open (pl : Place) : bool := (0 <=? pl.1) && (0 <=? pl.2).
Definition fresh_of (returned : list nat) (pl : Place) (members : list Planned) : list nat :=
  if place_open pl then fresh_indices returned [] (planned_index <$> ranked members) else [].
Fixpoint released (members : Place → list Planned) (places : list Place) (ungrouped returned : list nat) :
    list (list nat) :=
  match places with
  | [] => if bool_decide (ungrouped = []) then [] else [ungrouped]
  | pl :: places =>
      let batch := fresh_of returned pl (members pl) ++ ungrouped in
      if bool_decide (batch = []) then released members places [] returned
      else batch :: released members places [] (returned ++ batch)
  end.

Definition alive (ret : list nat) (n : Planned) : Prop := planned_index n ∉ ret.
#[local] Instance alive_dec ret n : Decision (alive ret n).
Proof. unfold alive. apply _. Defined.

Lemma fresh_elem ret acc l i : i ∈ fresh_indices ret acc l ↔ i ∈ acc ∨ (i ∈ l ∧ i ∉ ret).
Proof.
  revert acc. induction l as [|x l IH]; intros acc; cbn; [set_solver|]. rewrite IH. case_decide as Hx; [set_solver|].
  split; [set_solver|]. intros [?|[[->|?]%elem_of_cons ?]]; [by left|left|by right].
  destruct (decide (x ∈ acc)); [done|]. exfalso. by apply Hx.
Qed.
Lemma fresh_nodup ret acc l : NoDup acc → NoDup (fresh_indices ret acc l).
Proof.
  revert acc. induction l as [|x l IH]; intros acc Hacc; cbn; [done|]. apply IH. case_decide as Hx; [|done].
  apply NoDup_app. split; [done|]. split; [|apply NoDup_singleton]. set_solver.
Qed.
Lemma fresh_filter ret acc l : fresh_indices ret acc l = fresh_indices ret acc (filter (λ i, i ∉ ret) l).
Proof.
  revert acc. induction l as [|x l IH]; intros acc; [done|]. rewrite filter_cons. cbn [fresh_indices].
  destruct (decide (x ∉ ret)) as [Hx|Hx]; cbn [fresh_indices]; [by rewrite IH|].
  rewrite decide_False by tauto. by rewrite IH.
Qed.
(** A stable sort of what is left of a list is what is left of the sorted list. *)
Lemma filter_sort {P : Planned → Prop} `{!∀ x, Decision (P x)} l :
  filter P (sort_stable planned_before l) = sort_stable planned_before (filter P l).
Proof.
  assert (∀ x y, planned_before x y = false → planned_before y x = true) as Htot.
  { intros x y. unfold planned_before. destruct (planned_priority y <? planned_priority x) eqn:?; [done|].
    destruct (planned_priority x <? planned_priority y) eqn:?; [done|]. cbn.
    assert (planned_priority x = planned_priority y) as -> by lia. rewrite Z.eqb_refl. cbn.
    intros ?%Nat.leb_gt. apply Nat.leb_le. lia. }
  assert (∀ x y z, planned_before x y = true → planned_before y z = true → planned_before x z = true) as Htrans.
  { intros x y z. unfold planned_before. rewrite !orb_true_iff, !andb_true_iff, !Nat.leb_le. lia. }
  assert (∀ k, Sorted planned_before k → StronglySorted planned_before k) as Hstrong.
  { intros k. apply Sorted_StronglySorted. intros x y z. destruct (planned_before x y) eqn:Hxy; [|done].
    destruct (planned_before y z) eqn:Hyz; [|done]. intros _ _. by rewrite (Htrans x y z). }
  assert (∀ x k, StronglySorted planned_before k → filter P (insert_before planned_before x k) =
    if decide (P x) then insert_before planned_before x (filter P k) else filter P k) as Hins.
  { intros x k Hk. induction Hk as [|y k Hk IH Hy]; [cbn [insert_before]; by rewrite filter_cons|]. cbn [insert_before].
    destruct (planned_before x y) eqn:Hxy; [|rewrite !filter_cons, IH; repeat case_decide; cbn; by rewrite ?Hxy].
    rewrite (filter_cons _ x). case_decide; [|done].
    destruct (filter P (y :: k)) as [|z f] eqn:Hf; [done|]. cbn. destruct (planned_before x z) eqn:Hxz; [done|].
    assert (z ∈ y :: k) as [->|Hz]%elem_of_cons by (eapply list_elem_of_filter; rewrite Hf; by left); [congruence|].
    assert (planned_before y z = true) as Hyz by by apply Is_true_true, (proj1 (Forall_forall _ _) Hy).
    by rewrite (Htrans x y z) in Hxz. }
  induction l as [|x l IH]; [done|].
  change (sort_stable planned_before (x :: l)) with (insert_before planned_before x (sort_stable planned_before l)).
  rewrite Hins, IH, filter_cons; [by case_decide|]. apply Hstrong, sort_stable_sorted.
  - intros y z ->. done.
  - intros y z Hyz. by rewrite (Htot _ _ Hyz).
Qed.
Lemma filter_indices ret (l : list Planned) : filter (λ i, i ∉ ret) (planned_index <$> l) = planned_index <$> filter (alive ret) l.
Proof.
  induction l as [|x l IH]; [done|]. rewrite fmap_cons, !filter_cons, IH. by repeat case_decide.
Qed.
Lemma fresh_of_eq ret pl l k :
  (place_open pl = true → filter (alive ret) l = filter (alive ret) k) → fresh_of ret pl l = fresh_of ret pl k.
Proof.
  intros Hlk. unfold fresh_of. rewrite !ranked_planned. destruct (place_open pl); [|done]. rewrite fresh_filter, (fresh_filter _ _ (_ <$> sort_stable _ k)).
  f_equal. rewrite !filter_indices. f_equal. by rewrite !filter_sort, Hlk.
Qed.

Section simulation.
Context (group_order : gmap Z GroupPlan → list (Z * GroupPlan)).
Context (level_order : gmap Z (list Planned) → list (Z * list Planned)).
Context (group_order_perm : ∀ m, group_order m ≡ₚ map_to_list m).
Context (level_order_perm : ∀ m, level_order m ≡ₚ map_to_list m).
(** The priority of each group, and the members of each place. *)
Context (priority_of : Z → Z) (members : Place → list Planned).
Implicit Types (p : TunePlan) (v : list (Place * list Planned)) (next : list Planned).

(** What a plan still holds, against the places that are left: an entry that
    was struck, or whose place is closed, cannot be released any more. *)
Inductive follows (ret : list nat) : list (Place * list Planned) → list Place → Prop :=
| follows_nil : follows ret [] []
| follows_level pl l v pls :
    (place_open pl = true → filter (alive ret) l = filter (alive ret) (members pl)) →
    follows ret v pls → follows ret ((pl, l) :: v) (pl :: pls)
| follows_gone pl v pls :
    (place_open pl = true → filter (alive ret) (members pl) = []) → follows ret v pls → follows ret v (pl :: pls).
Definition priced_by v : Prop := ∀ pl l n, (pl, l) ∈ v → n ∈ l → priority_of (planned_group n) = pl.1.

Lemma strike_incl next l x : x ∈ strike next l → x ∈ l.
Proof.
  revert l. induction next as [|n next IH]; intros l; cbn; [done|]. intros Hx%IH. unfold strike_one in Hx.
  destruct (position (same_entry n) l) as [i|] eqn:Hp; [|done]. apply position_Some in Hp as [(y & Hy & _) _].
  apply list_elem_of_split_length in Hy as (l1 & l2 & -> & ->). rewrite vec_remove_middle in Hx. set_solver.
Qed.
Lemma filter_strike {P : Planned → Prop} `{!∀ x, Decision (P x)} next l :
  (∀ x n, x ∈ l → n ∈ next → same_entry n x = true → ¬ P x) → filter P (strike next l) = filter P l.
Proof.
  revert l. induction next as [|n next IH]; intros l Hdead; [done|]. change (strike (n :: next) l) with (strike next (strike_one l n)). rewrite IH.
  2: { intros x n' Hx Hn'. apply Hdead; [by apply (strike_incl [n])|by right]. }
  unfold strike_one. destruct (position (same_entry n) l) as [i|] eqn:Hp; [|done].
  apply position_Some in Hp as [(y & Hy & Hsame) _]. pose proof (list_elem_of_lookup_2 _ _ _ Hy) as Hin.
  apply list_elem_of_split_length in Hy as (l1 & l2 & -> & ->). rewrite vec_remove_middle, !filter_app, filter_cons.
  rewrite decide_False; [done|]. apply (Hdead y n); [done|by left|done].
Qed.
(** More of the tunables are released, and their entries are struck. *)
Lemma follows_struck ret ret' next v pls :
  (∀ i, i ∈ ret → i ∈ ret') →
  (∀ pl l x n, (pl, l) ∈ v → place_open pl = true → x ∈ l → n ∈ next → same_entry n x = true → planned_index x ∈ ret') →
  follows ret v pls → follows ret' (struck next v) pls.
Proof.
  intros Hret Hdead Hf. assert (∀ l k : list Planned, filter (alive ret) l = filter (alive ret) k →
    filter (alive ret') l = filter (alive ret') k) as Hmono.
  { assert (∀ l : list Planned, filter (alive ret') l = filter (alive ret') (filter (alive ret) l)) as Hff.
    { intros l. rewrite list_filter_filter. apply list_filter_iff. intros x. unfold alive. naive_solver. }
    intros l k Hlk. by rewrite Hff, Hlk, <- Hff. }
  induction Hf as [|pl l v pls Hl _ IH|pl v pls Hl _ IH]; [constructor|..].
  - assert (place_open pl = true → filter (alive ret') (strike next l) = filter (alive ret') (members pl)) as Hl'.
    { intros Ho. rewrite filter_strike; [by apply Hmono, Hl|]. intros x n Hx Hn Hs Hal. apply Hal.
      eapply Hdead; [by left|done..]. }
    specialize (IH ltac:(intros; eapply Hdead; [by right|done..])).
    cbn. case_bool_decide as Hnil; [apply follows_gone|by apply follows_level]; [|done].
    intros Ho. rewrite <- Hl', Hnil by done. done.
  - apply follows_gone; [|by apply IH]. intros Ho. apply (Hmono _ []). by apply Hl.
Qed.
(** The places before the next level of the plan have nothing to release. *)
Lemma follows_next ret pl l v pls :
  follows ret ((pl, l) :: v) pls →
  ∃ gone pls', pls = gone ++ pl :: pls' ∧ Forall (λ g, fresh_of ret g (members g) = []) gone ∧
    fresh_of ret pl l = fresh_of ret pl (members pl) ∧ follows ret v pls'.
Proof.
  remember ((pl, l) :: v) as w eqn:Hw. intros Hf. revert Hw.
  induction Hf as [|pl' l' v' pls Hl Hf _|pl' v' pls Hl _ IH]; [done|..].
  - intros [= -> -> ->]. exists [], pls. split_and!; [done|constructor|by apply fresh_of_eq|done].
  - intros ->. destruct (IH eq_refl) as (gone & pls' & -> & Hgone & ? & ?). exists (pl' :: gone), pls'.
    split_and!; [done| |done|done]. constructor; [|done].
    rewrite (fresh_of_eq ret pl' _ []); [unfold fresh_of; by destruct (place_open pl')|by intros ->%Hl].
Qed.
Lemma released_skips_gone ret gone pls :
  Forall (λ g, fresh_of ret g (members g) = []) gone →
  released members (gone ++ pls) [] ret = released members pls [] ret.
Proof. induction 1 as [|g gone Hg _ IH]; [done|]. cbn. rewrite Hg. cbn. exact IH. Qed.
Lemma follows_all_gone ret pls : follows ret [] pls → released members pls [] ret = [].
Proof.
  remember [] as w eqn:Hw. intros Hf. revert Hw. induction Hf as [| |pl v pls Hl _ IH]; [done|done|]. intros ->. cbn.
  rewrite (fresh_of_eq ret pl _ []); [|by intros ->%Hl]. unfold fresh_of. destruct (place_open pl); cbn; by apply IH.
Qed.
Lemma follows_length ret v pls : follows ret v pls → (length v <= length pls)%nat.
Proof. induction 1; cbn; lia. Qed.

Lemma shows_nil p : plan_wf p → shows p [] → plan_priorities p = [].
Proof.
  intros Hwf [_ Hel]. destruct (plan_priorities p) as [|gp gps] eqn:Hp; [done|]. exfalso.
  destruct (proj1 (pw_groups _ Hwf gp)) as [g Hg]; [rewrite Hp; by left|].
  destruct (pw_group _ Hwf _ _ Hg) as [[_ Hdom] Hne]. destruct (level_priorities g) as [|lv lvs]; [done|].
  destruct (proj1 (Hdom lv)) as [l Hl]; [by left|]. apply (not_elem_of_nil ((gp, lv), l)), Hel.
  unfold entries_at. cbn. by rewrite Hg.
Qed.

(** A plan on its way: what it holds, against the places that are left. *)
Record on_its_way p v (pls : list Place) : Prop := {
  ow_wf : plan_wf p;
  ow_shows : shows p v;
  ow_priced : priced_by v;
  ow_follows : follows (returned p) v pls;
  ow_first : no_groups p ≠ [] → v.*1 = pls;
}.
Lemma struck_length next v : (length (struck next v) <= length v)%nat.
Proof. apply omap_length_le. Qed.

(** What is left once the next level is out and [ret] is released. *)
Lemma on_its_way_next p2 v0 pl l v pls ret ret' next :
  plan_wf p2 → shows p2 (struck next v) → no_groups p2 = [] → returned p2 = ret' →
  v0 = (pl, l) :: v → StronglySorted (λ a b, place_before a.1 b.1) v0 → priced_by v0 → follows ret v pls →
  (∀ i, i ∈ ret → i ∈ ret') → (∀ n, n ∈ next → n ∈ l) →
  (place_open pl = true → ∀ n, n ∈ next → planned_index n ∈ ret') →
  on_its_way p2 (struck next v) pls.
Proof.
  intros Hwf Hshow Hng Hret -> Hs Hpriced Hf Hincl Hnext Hopen. split; try done.
  - intros pl' l' n (l0 & Hin & -> & _)%struck_elem Hn%strike_incl. eapply Hpriced; [by right|done].
  - rewrite Hret. eapply follows_struck; [done| |done]. intros pl' l' x n Hin Ho Hx Hn Hsame.
    unfold same_entry in Hsame. apply bool_decide_eq_true in Hsame as [Hi Hg]. rewrite Hi.
    apply Hopen; [|done]. assert (pl.1 = pl'.1) as He.
    { rewrite <- (Hpriced pl l n) by first [by left|by apply Hnext]. rewrite <- (Hpriced pl' l' x) by first [by right|done].
      by rewrite Hg. }
    inversion Hs as [|? ? _ Hbefore]; subst.
    destruct (proj1 (Forall_forall _ _) Hbefore _ Hin) as [Hlt|[_ Hlt]]; cbn in Hlt; [lia|].
    unfold place_open in *. lia.
Qed.

Definition steps_left p v : nat := (length v + if bool_decide (no_groups p = []) then 1 else 2)%nat.
Lemma next_follows fuel p v pls :
  on_its_way p v pls → (length v < fuel)%nat →
  ∃ batch p', plan_next group_order level_order fuel p = Some (batch, p') ∧
    (batch = [] ∧ released members pls (no_groups p) (returned p) = [] ∨
     ∃ v' pls', batch ≠ [] ∧ on_its_way p' v' pls' ∧ (steps_left p' v' < steps_left p v)%nat ∧
       released members pls (no_groups p) (returned p) = batch :: released members pls' (no_groups p') (returned p')).
Proof.
  revert p v pls. induction fuel as [|fuel IH]; intros p v pls [Hwf Hshow Hpriced Hf Hfirst] Hfuel; [lia|].
  cbn [plan_next take_no_groups]. set (p0 := mk_TunePlan _ [] _ _ _).
  change (plan_priorities p0) with (plan_priorities p).
  destruct v as [|[pl l] v].
  { rewrite (shows_nil p Hwf Hshow). cbn. exists (no_groups p), p0. split; [done|].
    destruct (decide (no_groups p = [])) as [Hng|Hng].
    - left. split; [done|]. rewrite Hng. by apply follows_all_gone.
    - right. exists [], []. rewrite <- (Hfirst Hng). split; [done|]. cbn. split.
      { split; try done; cbn; [by destruct Hwf; split|constructor]. }
      rewrite bool_decide_false by done. split; [lia|done]. }
  assert (plan_wf p0 ∧ shows p0 ((pl, l) :: v)) as [Hwf0 Hshow0] by by split; [destruct Hwf; split|].
  destruct (shows_last _ _ _ _ Hwf0 Hshow0) as (Hlast & _). cbn [plan_priorities p0] in Hlast. rewrite Hlast.
  destruct (next_level _ _ group_order_perm level_order_perm _ _ _ _ Hwf0 Hshow0)
    as (c & p1 & p2 & -> & Hskip & Hc & Hwf2 & Hshow2 & Hn2 & Hr2 & _). cbn [mbind option_bind]. rewrite Hc.
  cbn [mbind option_bind]. rewrite Hr2. change (returned p0) with (returned p).
  set (next := sort_stable planned_before l) in *.
  assert (∀ n, n ∈ next → n ∈ l) as Hnext by (intros n; unfold next; by rewrite sort_stable_perm).
  destruct (follows_next _ _ _ _ _ Hf) as (gone & pls' & -> & Hgone & Hfresh & Hf').
  assert ((if 0 <=? pl.1 then fresh_indices (returned p) [] (if pl.2 <? 0 then [] else planned_index <$> next) else []) =
    fresh_of (returned p) pl (members pl)) as ->.
  { rewrite <- Hfresh. unfold fresh_of, place_open. rewrite ranked_planned. destruct (0 <=? pl.1); [|done]. cbn. rewrite Z.ltb_antisym.
    by destruct (0 <=? pl.2). }
  set (batch := fresh_of (returned p) pl (members pl) ++ no_groups p).
  assert (released members (gone ++ pl :: pls') (no_groups p) (returned p) =
    released members (pl :: pls') (no_groups p) (returned p)) as ->.
  { destruct (decide (no_groups p = [])) as [->|Hng]; [by apply released_skips_gone|].
    specialize (Hfirst Hng). apply follows_length in Hf'. apply (f_equal length) in Hfirst. revert Hfirst.
    rewrite length_fmap, length_app. cbn. destruct gone; [done|]. cbn. lia. }
  cbn [released]. fold batch. pose proof (proj1 Hshow) as Hsv.
  assert (∀ ret' : list nat, (∀ i, i ∈ returned p → i ∈ ret') → (∀ i, i ∈ fresh_of (returned p) pl (members pl) → i ∈ ret') →
    place_open pl = true → ∀ n, n ∈ next → planned_index n ∈ ret') as Hreleased.
  { intros ret' Hincl Hfr Ho n Hn. destruct (decide (planned_index n ∈ returned p)) as [|Hnot]; [by apply Hincl|].
    apply Hfr. rewrite <- Hfresh. unfold fresh_of. rewrite Ho, ranked_planned. apply fresh_elem. right. split; [|done].
    apply list_elem_of_fmap. by exists n. }
  destruct (bool_decide_reflect (batch = [])) as [Hb|Hb].
  - apply app_nil in Hb as [Hfn Hng]. rewrite Hfn, (bool_decide_true ([] = [])), orb_true_r by done. cbn [andb].
    destruct (IH p2 (struck next v) pls') as (batch' & p' & Hp' & Hres).
    + eapply (on_its_way_next p2 _ pl l v pls' (returned p) (returned p)); try done. apply Hreleased; [done|].
      rewrite Hfn. by intros i ?%not_elem_of_nil.
    + pose proof (struck_length next v). cbn in Hfuel. lia.
    + exists batch', p'. split; [exact Hp'|]. rewrite Hn2, Hr2 in Hres. cbn in Hres.
      destruct Hres as [?|(v' & pls'' & ? & ? & Hlt & ?)]; [by left|right]. exists v', pls''. split_and!; try done.
      unfold steps_left in Hlt |- *. rewrite Hn2, Hng in *. cbn in *. pose proof (struck_length next v). lia.
  - cbn [andb]. eexists _, _. split; [done|]. right. exists (struck next v), pls'. split; [done|]. split.
    { eapply (on_its_way_next _ _ pl l v pls' (returned p) (returned p ++ batch)); try done.
      - by destruct Hwf2; split.
      - intros i Hi. rewrite elem_of_app. by left.
      - apply Hreleased; [intros i Hi; rewrite elem_of_app; by left|]. intros i Hi. unfold batch. rewrite !elem_of_app. auto. }
    cbn. rewrite Hn2. cbn. split; [|done]. unfold steps_left. cbn. rewrite Hn2. cbn.
    pose proof (struck_length next v). case_bool_decide; lia.
Qed.
Lemma batches_follow fuel p v pls :
  on_its_way p v pls → (steps_left p v <= fuel)%nat →
  ∃ p', plan_batches group_order level_order fuel p = Some (released members pls (no_groups p) (returned p), p').
Proof.
  revert p v pls. induction fuel as [|fuel IH]; intros p v pls Hp Hfuel.
  { unfold steps_left in Hfuel. case_bool_decide; lia. }
  cbn [plan_batches]. destruct (next_follows (S fuel) p v pls Hp) as (batch & p' & -> & Hres).
  { unfold steps_left in Hfuel. case_bool_decide; lia. }
  cbn [mbind option_bind]. destruct Hres as [[-> ->]|(v' & pls' & Hb & Hp' & Hlt & ->)]; [by eexists|].
  rewrite bool_decide_false by done. destruct (IH p' v' pls' Hp') as [p'' ->]; [lia|]. by eexists.
Qed.
End simulation.

(** ** A new plan holds every member at its place *)
Section places.
Context {K Fn : Type}.
Implicit Types (key : K) (tunables : list (Tunable K Fn)) (q : Priced K) (full priced : list (Priced K)).

Definition priced_tunable key (index : nat) (t : Tunable K Fn) : list (Priced K) :=
  (λ m, mk_Priced index m.1 (group_priority m.1 key) (m.2 key)) <$> tunable_groups t.
Definition priced_of key tunables : list (Priced K) := mjoin (imap (priced_tunable key) tunables).
Definition ungrouped_at (it : nat * Tunable K Fn) : option nat :=
  match tunable_groups it.2 with [] => Some it.1 | _ => None end.
Definition ungrouped_of tunables : list nat := omap ungrouped_at (imap pair tunables).

(** A member of an ordered group is at the level of its best member, any other
    at its own priority. *)
Definition in_order q : bool := group_ordered (priced_group q) && (0 <=? priced_priority q).
Definition group_level full (id : Z) : Z :=
  foldl (λ best q, if in_order q && (group_id (priced_group q) =? id) then Z.max best (priced_priority q) else best) (-1) full.
Definition place_of full q : Place :=
  (priced_group_priority q, if in_order q then group_level full (group_id (priced_group q)) else priced_priority q).
Definition planned_of q : Planned := mk_Planned (priced_index q) (group_id (priced_group q)) (priced_priority q).
Definition members_in full priced (pl : Place) : list Planned :=
  planned_of <$> filter (λ q, place_of full q = pl) priced.
Definition places_of full : list Place :=
  sort_stable (λ a b, bool_decide (place_before a b)) (remove_dups (place_of full <$> full)).

(** What the loops of [plan_new] compute. *)
Definition raise (levels : gmap Z Z) q : gmap Z Z :=
  if in_order q then <[group_id (priced_group q) :=
    Z.max (default (priced_priority q) (levels !! group_id (priced_group q))) (priced_priority q)]> levels else levels.
Lemma price_one_fold key index ms priced levels placed :
  foldl (price_one key index) (priced, levels, placed) ms =
    let new := (λ m, mk_Priced index m.1 (group_priority m.1 key) (m.2 key)) <$> ms in
    (priced ++ new, foldl raise levels new,
     placed ++ ((λ m, mk_Placement (group_name m.1) (group_ordered m.1) (group_priority m.1 key) (m.2 key)) <$> ms)).
Proof.
  revert priced levels placed. induction ms as [|[g f] ms IH]; intros priced levels placed; cbn; [by rewrite !app_nil_r|].
  rewrite IH. cbn. by rewrite <- !app_assoc.
Qed.
Lemma price_tunables_fold key k tunables ng priced levels pls :
  ∃ pls', length pls' = length tunables ∧
  foldl (price_tunable key) (ng, priced, levels, pls) (imap (λ i t, (k + i, t))%nat tunables) =
    (ng ++ omap ungrouped_at (imap (λ i t, (k + i, t))%nat tunables),
     priced ++ mjoin (imap (λ i, priced_tunable key (k + i)%nat) tunables),
     foldl raise levels (mjoin (imap (λ i, priced_tunable key (k + i)%nat) tunables)), pls ++ pls').
Proof.
  revert k ng priced levels pls. induction tunables as [|t tunables IH]; intros k ng priced levels pls.
  { exists []. cbn. by rewrite !app_nil_r. }
  rewrite !imap_cons. cbn beta. rewrite !Nat.add_0_r. cbn [foldl].
  set (P := price_tunable key (ng, priced, levels, pls) (k, t)).
  assert (∃ placed, P = (ng ++ option_list (match tunable_groups t with [] => Some k | _ => None end),
    priced ++ priced_tunable key k t, foldl raise levels (priced_tunable key k t), pls ++ [placed])) as (placed & ->).
  { unfold P, price_tunable, priced_tunable. destruct (tunable_groups t) as [|m ms] eqn:Hg.
    - exists []. cbn. by rewrite !app_nil_r.
    - rewrite price_one_fold. eexists. cbn. by rewrite app_nil_r. }
  assert (∀ i, k + S i = S k + i)%nat as Hk by lia.
  assert (imap ((λ i t, ((k + i)%nat, t)) ∘ S) tunables = imap (λ i t, ((S k + i)%nat, t)) tunables) as ->.
  { apply imap_ext. intros i t' _. cbn. by rewrite Hk. }
  assert (imap ((λ i, priced_tunable key (k + i)%nat) ∘ S) tunables = imap (λ i, priced_tunable key (S k + i)%nat) tunables) as ->.
  { apply imap_ext. intros i t' _. cbn. by rewrite Hk. }
  destruct (IH (S k) (ng ++ option_list (match tunable_groups t with [] => Some k | _ => None end))
    (priced ++ priced_tunable key k t) (foldl raise levels (priced_tunable key k t)) (pls ++ [placed])) as (pls' & Hl & ->).
  exists (placed :: pls'). cbn -[priced_tunable]. rewrite Hl, <- !app_assoc, foldl_app. split; [done|].
  f_equal. f_equal. f_equal. f_equal. unfold ungrouped_at at 2. cbn. by destruct (tunable_groups t).
Qed.
Lemma levels_level full id :
  match foldl raise ∅ full !! id with
  | Some level => level = group_level full id ∧ 0 <= level
  | None => group_level full id = -1 ∧ ∀ q, q ∈ full → in_order q = true → group_id (priced_group q) ≠ id
  end.
Proof.
  induction full as [|q full IH] using rev_ind; [cbn; split; [done|]; by intros q ?%not_elem_of_nil|].
  rewrite foldl_snoc. unfold group_level. rewrite foldl_snoc. fold (group_level full id).
  unfold raise at 1. destruct (in_order q) eqn:Hq; cbn [andb].
  - destruct (Z.eqb_spec (group_id (priced_group q)) id) as [<-|Hne].
    + rewrite lookup_insert_eq. unfold in_order in Hq. destruct (foldl raise ∅ full !! _) as [level|]; cbn; [lia|].
      destruct IH as [-> _]. lia.
    + rewrite lookup_insert_ne by done. destruct (foldl raise ∅ full !! id); [done|]. destruct IH as [-> IH].
      split; [done|]. intros q' [?| ->%list_elem_of_singleton]%elem_of_app; [by apply IH|done].
  - destruct (foldl raise ∅ full !! id); [done|]. destruct IH as [-> IH]. split; [done|].
    intros q' [?| ->%list_elem_of_singleton]%elem_of_app; [by apply IH|by rewrite Hq].
Qed.

(** The maps, after the members in [priced] are placed. *)
Record placed full priced (plan : list Z * gmap Z GroupPlan) : Prop := {
  pl_nodup : NoDup plan.1;
  pl_dom gp : gp ∈ plan.1 ↔ is_Some (plan.2 !! gp);
  pl_group gp g : plan.2 !! gp = Some g →
    NoDup (level_priorities g) ∧ level_priorities g ≠ [] ∧ ∀ lv, lv ∈ level_priorities g ↔ is_Some (level_indices g !! lv);
  pl_members pl : (g ← plan.2 !! pl.1; level_indices g !! pl.2) =
    if bool_decide (members_in full priced pl = []) then None else Some (members_in full priced pl);
}.
Lemma members_in_snoc full priced q pl :
  members_in full (priced ++ [q]) pl = members_in full priced pl ++ (if decide (place_of full q = pl) then [planned_of q] else []).
Proof.
  unfold members_in. rewrite filter_app, fmap_app. f_equal. rewrite filter_cons. by case_decide.
Qed.

Lemma nodup_snoc {A} (l : list A) x : NoDup l → x ∉ l → NoDup (l ++ [x]).
Proof. intros Hl Hx. apply NoDup_app. split; [done|]. split; [set_solver|apply NoDup_singleton]. Qed.
Lemma place_one_step full priced q plan :
  placed full priced plan →
  (in_order q = true → foldl raise ∅ full !! group_id (priced_group q) = Some (place_of full q).2) →
  ∃ plan', place_one (foldl raise ∅ full) plan q = Some plan' ∧ placed full (priced ++ [q]) plan'.
Proof.
  intros [Hnd Hdom Hgroup Hmem] Hlevel. destruct plan as [priorities groups]. cbn in *. unfold place_one.
  set (gp := priced_group_priority q). set (lv := (place_of full q).2).
  assert ((if group_ordered (priced_group q) && (0 <=? priced_priority q)
           then foldl raise ∅ full !! group_id (priced_group q) else Some (priced_priority q)) = Some lv) as ->.
  { fold (in_order q). unfold lv, place_of in *. cbn in *. destruct (in_order q); [by apply Hlevel|done]. }
  assert (place_of full q = (gp, lv)) as Hplace by done. clearbody lv. clear Hlevel.
  cbn [mbind option_bind]. set (g := default (mk_GroupPlan [] ∅) (groups !! gp)).
  assert (NoDup (level_priorities g) ∧ ∀ lv, lv ∈ level_priorities g ↔ is_Some (level_indices g !! lv)) as [Hgnd Hgdom].
  { unfold g. destruct (groups !! gp) as [g'|] eqn:Hg; cbn; [by destruct (Hgroup _ _ Hg) as (? & _ & ?)|].
    split; [constructor|]. intros lv'. rewrite lookup_empty. split; [by intros ?%not_elem_of_nil|by intros []]. }
  assert (∀ lv', level_indices g !! lv' = if bool_decide (members_in full priced (gp, lv') = []) then None
    else Some (members_in full priced (gp, lv'))) as Hgmem.
  { intros lv'. rewrite <- Hmem. cbn. unfold g. by destruct (groups !! gp); [|cbn; rewrite lookup_empty]. }
  set (priorities' := if decide (gp ∈ priorities) then priorities else priorities ++ [gp]).
  assert (NoDup priorities' ∧ ∀ k, k ∈ priorities' ↔ k ∈ priorities ∨ k = gp) as [Hnd' Hin'].
  { unfold priorities'. case_decide as Hin; [split; [done|]; intros k; split; [by left|by intros [?| ->]]|].
    split; [by apply nodup_snoc|]. intros k. by rewrite elem_of_app, list_elem_of_singleton. }
  set (planned := mk_Planned _ _ _).
  assert (∃ g', (if decide (lv ∈ level_priorities g) then
       l ← level_indices g !! lv; Some (mk_GroupPlan (level_priorities g) (<[lv := l ++ [planned]]> (level_indices g)))
     else Some (mk_GroupPlan (level_priorities g ++ [lv]) (<[lv := [planned]]> (level_indices g)))) = Some g' ∧
     NoDup (level_priorities g') ∧ (∀ lv', lv' ∈ level_priorities g' ↔ lv' ∈ level_priorities g ∨ lv' = lv) ∧
     level_indices g' = <[lv := default [] (level_indices g !! lv) ++ [planned]]> (level_indices g)) as (g' & -> & Hnd2 & Hin2 & Hli).
  { case_decide as Hin.
    - destruct (proj1 (Hgdom lv) Hin) as [l ->]. cbn. eexists. split; [done|]. cbn. split; [done|]. split; [|done].
      intros lv'. split; [by left|by intros [?| ->]].
    - eexists. split; [done|]. cbn [level_priorities level_indices]. split; [by apply nodup_snoc|]. split.
      + intros lv'. by rewrite elem_of_app, list_elem_of_singleton.
      + destruct (level_indices g !! lv) as [l|] eqn:Hl; [|done]. exfalso. apply Hin, Hgdom. rewrite Hl. by eexists. }
  cbn [mbind option_bind]. eexists. split; [done|]. split; cbn; [done|..].
  - intros k. rewrite Hin', Hdom, lookup_insert_is_Some'. split; (intros [?|?]; [by right|by left]).
  - intros k g''. rewrite lookup_insert. case_decide as Hk; [|apply Hgroup]. intros [= <-]. split; [done|]. split.
    + intros Hnil. assert (lv ∈ level_priorities g') as Hlv by (apply Hin2; by right). rewrite Hnil in Hlv. by apply not_elem_of_nil in Hlv.
    + intros lv'. rewrite Hin2, Hgdom, Hli, lookup_insert_is_Some'. split; (intros [?|?]; [by right|by left]).
  - intros [k lv']. cbn. rewrite members_in_snoc, lookup_insert. rewrite Hplace.
    case_decide as Hk.
    + subst k. cbn. rewrite Hli, lookup_insert, !Hgmem. case_decide as Hlv.
      * subst lv'. rewrite decide_True by done. rewrite (bool_decide_false (_ ++ [_] = [])) by by intros [_ ?]%app_nil.
        f_equal. by case_bool_decide as Hm; [rewrite Hm|].
      * rewrite decide_False by congruence. by rewrite app_nil_r.
    + rewrite decide_False by congruence. rewrite app_nil_r. apply (Hmem (k, lv')).
Qed.
Lemma place_all_spec full rest priced plan :
  full = priced ++ rest → placed full priced plan →
  ∃ plan', place_all (foldl raise ∅ full) plan rest = Some plan' ∧ placed full full plan'.
Proof.
  revert priced plan. induction rest as [|q rest IH]; intros priced plan Hfull Hpl.
  { exists plan. rewrite app_nil_r in Hfull. by rewrite Hfull in Hpl |- *. }
  destruct (place_one_step full priced q plan Hpl) as (plan' & Hq & Hpl').
  { intros Hq. pose proof (levels_level full (group_id (priced_group q))) as Hl. unfold place_of. rewrite Hq. cbn.
    destruct (foldl raise ∅ full !! _); [by destruct Hl as [-> _]|]. destruct Hl as [_ Hl]. exfalso.
    apply (Hl q); [|done|done]. rewrite Hfull, elem_of_app. right. by left. }
  cbn [place_all]. rewrite Hq. cbn [mbind option_bind]. apply (IH (priced ++ [q])); [|done]. by rewrite <- app_assoc.
Qed.
Lemma plan_new_spec key tunables :
  let full := priced_of key tunables in
  ∃ plan, placed full full plan ∧ ∃ pls, length pls = length tunables ∧ plan_new key tunables =
    Some (mk_TunePlan (sort_stable Z.leb plan.1) (ungrouped_of tunables)
      ((λ g, mk_GroupPlan (sort_stable Z.leb (level_priorities g)) (level_indices g)) <$> plan.2) [] pls).
Proof.
  intros full. destruct (place_all_spec full full [] ([], ∅)) as (plan & Hall & Hpl); [done|..].
  { split; cbn; [constructor|..].
    - intros gp. rewrite lookup_empty. split; [by intros ?%not_elem_of_nil|by intros []].
    - intros gp g. by rewrite lookup_empty.
    - intros pl. by rewrite lookup_empty. }
  exists plan. split; [done|]. destruct (price_tunables_fold key 0 tunables [] [] ∅ []) as (pls & Hlen & Hfold).
  exists pls. split; [done|]. unfold plan_new. cbn in Hfold. change (λ i t, (i, t)) with (@pair nat (Tunable K Fn)) in Hfold.
  rewrite Hfold. fold full. change (mjoin (imap (λ i, priced_tunable key i) tunables)) with full. rewrite Hall.
  by destruct plan.
Qed.

Lemma members_in_elem full priced pl n :
  n ∈ members_in full priced pl ↔ ∃ q, q ∈ priced ∧ place_of full q = pl ∧ n = planned_of q.
Proof. unfold members_in. rewrite list_elem_of_fmap. setoid_rewrite list_elem_of_filter. naive_solver. Qed.
Lemma members_in_nonempty full priced pl : members_in full priced pl ≠ [] ↔ ∃ q, q ∈ priced ∧ place_of full q = pl.
Proof.
  pose proof (members_in_elem full priced pl) as Hel. destruct (members_in full priced pl) as [|n l].
  - split; [done|]. intros (q & Hq & Hp). exfalso. apply (not_elem_of_nil (planned_of q)), Hel. by exists q.
  - split; [|done]. intros _. destruct (proj1 (Hel n)) as (q & ? & ? & _); [by left|]. by exists q.
Qed.
Lemma places_of_elem full pl : pl ∈ places_of full ↔ ∃ q, q ∈ full ∧ place_of full q = pl.
Proof. unfold places_of. rewrite sort_stable_perm, elem_of_remove_dups, list_elem_of_fmap. naive_solver. Qed.
Lemma places_of_sorted full : StronglySorted place_before (places_of full).
Proof.
  assert (Sorted (λ a b, place_before a b ∨ a = b) (places_of full)) as Hs.
  { apply sort_stable_sorted; intros x y Hle; [apply bool_decide_eq_true in Hle; by left|].
    apply bool_decide_eq_false in Hle. destruct (decide (x = y)) as [->|Hne]; [by right|]. left.
    destruct x, y. unfold place_before in *. cbn in *. assert (¬ (z = z1 ∧ z0 = z2)) by (by intros [-> ->]). lia. }
  apply Sorted_StronglySorted in Hs.
  2: { intros x y z [Hxy| ->] [Hyz| ->]; auto. left. unfold place_before in *. lia. }
  assert (NoDup (places_of full)) as Hnd by (unfold places_of; rewrite sort_stable_perm; apply NoDup_remove_dups).
  revert Hs Hnd. generalize (places_of full). intros l Hs. induction Hs as [|x l Hs IH Hx]; [constructor|].
  intros [Hxl Hnd]%NoDup_cons. constructor; [by apply IH|]. apply Forall_forall. intros y Hy.
  destruct (proj1 (Forall_forall _ _) Hx y Hy) as [?| ->]; done.
Qed.
Lemma place_open_iff full q :
  q ∈ full → place_open (place_of full q) = true ↔ 0 <= priced_group_priority q ∧ 0 <= priced_priority q.
Proof.
  intros Hq. unfold place_open, place_of. cbn. pose proof (levels_level full (group_id (priced_group q))) as Hl.
  destruct (in_order q) eqn:Ho; [|lia].
  assert (0 <= priced_priority q) by (unfold in_order in Ho; lia).
  destruct (foldl raise ∅ full !! _); [destruct Hl as [-> ?]; lia|]. destruct Hl as [_ Hl]. by destruct (Hl q).
Qed.

(** A group has one id, and no other group has it. *)
Definition ids_distinct tunables : Prop := ∀ t t' m m',
  t ∈ tunables → t' ∈ tunables → m ∈ tunable_groups t → m' ∈ tunable_groups t' →
  group_id m.1 = group_id m'.1 → m.1 = m'.1.
Lemma priced_of_elem key tunables q :
  q ∈ priced_of key tunables ↔ ∃ i t m, tunables !! i = Some t ∧ m ∈ tunable_groups t ∧
    q = mk_Priced i m.1 (group_priority m.1 key) (m.2 key).
Proof.
  unfold priced_of. rewrite list_elem_of_join. split.
  - intros (l & Hq & (i & Hi)%list_elem_of_lookup_1). rewrite list_lookup_imap in Hi.
    destruct (tunables !! i) as [t|] eqn:Ht; [|done]. injection Hi as <-.
    apply list_elem_of_fmap in Hq as (m & -> & Hm). by exists i, t, m.
  - intros (i & t & m & Ht & Hm & ->). exists (priced_tunable key i t). split.
    + apply list_elem_of_fmap. by exists m.
    + apply (list_elem_of_lookup_2 _ i). by rewrite list_lookup_imap, Ht.
Qed.
Lemma ungrouped_of_elem tunables i : i ∈ ungrouped_of tunables ↔ ∃ t, tunables !! i = Some t ∧ tunable_groups t = [].
Proof.
  unfold ungrouped_of. rewrite list_elem_of_omap. split.
  - intros ([i' t] & (k & Hk)%list_elem_of_lookup_1 & Hs). rewrite list_lookup_imap in Hk. unfold ungrouped_at in Hs. cbn in Hs.
    destruct (tunables !! k) as [t'|] eqn:Ht; [|done]. injection Hk as <- <-. exists t'.
    destruct (tunable_groups t') eqn:Hg; [|done]. by injection Hs as <-.
  - intros (t & Ht & Hg). exists (i, t). unfold ungrouped_at. cbn. rewrite Hg. split; [|done].
    apply (list_elem_of_lookup_2 _ i). by rewrite list_lookup_imap, Ht.
Qed.
Lemma ungrouped_of_nodup tunables : NoDup (ungrouped_of tunables).
Proof.
  unfold ungrouped_of. assert (∀ k ts, NoDup (omap ungrouped_at (imap (λ i t, (k + i, t))%nat ts)) ∧
    ∀ i, i ∈ omap ungrouped_at (imap (λ i t, (k + i, t))%nat ts) → (k <= i)%nat) as Hall.
  { intros k ts. revert k. induction ts as [|t ts IH]; intros k; [by split; [constructor|intros i ?%not_elem_of_nil]|].
    assert (imap ((λ i t, ((k + i)%nat, t)) ∘ S) ts = imap (λ i t, ((S k + i)%nat, t)) ts) as Heq.
    { apply imap_ext. intros i t' _. cbn. f_equal. lia. }
    rewrite imap_cons, Heq, Nat.add_0_r. destruct (IH (S k)) as [IH1 IH2]. cbn.
    assert (ungrouped_at (k, t) = None ∨ ungrouped_at (k, t) = Some k) as [->| ->]
      by (unfold ungrouped_at; cbn; destruct (tunable_groups t); auto); cbn; [split; [done|]; intros i Hi%IH2; lia|]. split.
    - constructor; [|done]. intros Hk%IH2. lia.
    - intros i [->|Hi%IH2]%elem_of_cons; lia. }
  apply (Hall 0%nat).
Qed.
End places.

(** ** The theorems *)
Lemma released_spec (members : Place → list Planned) places ungrouped ret :
  NoDup ungrouped →
  (∀ i, i ∈ ungrouped → i ∉ ret ∧ ∀ pl n, pl ∈ places → n ∈ members pl → planned_index n ≠ i) →
  NoDup (mjoin (released members places ungrouped ret)) ∧ Forall (λ b, b ≠ []) (released members places ungrouped ret) ∧
  ∀ i, i ∈ mjoin (released members places ungrouped ret) ↔
    i ∈ ungrouped ∨ (i ∉ ret ∧ ∃ pl n, pl ∈ places ∧ place_open pl = true ∧ n ∈ members pl ∧ planned_index n = i).
Proof.
  revert ungrouped ret. induction places as [|pl places IH]; intros ungrouped ret Hnd Hdisj; cbn [released].
  { case_bool_decide as Hu; cbn.
    - subst. split; [constructor|]. split; [constructor|]. intros i. rewrite elem_of_nil. set_solver.
    - rewrite app_nil_r. split; [done|]. split; [by repeat constructor|]. intros i. set_solver. }
  assert (∀ i, i ∈ fresh_of ret pl (members pl) ↔
    i ∉ ret ∧ place_open pl = true ∧ ∃ n, n ∈ members pl ∧ planned_index n = i) as Hfresh.
  { intros i. unfold fresh_of. rewrite ranked_planned. destruct (place_open pl); [|set_solver]. rewrite fresh_elem, list_elem_of_fmap.
    setoid_rewrite sort_stable_perm. set_solver. }
  set (batch := fresh_of ret pl (members pl) ++ ungrouped).
  assert (NoDup batch) as Hb.
  { apply NoDup_app. split; [unfold fresh_of; destruct (place_open pl); [apply fresh_nodup|]; constructor|]. split; [|done].
    intros i (_ & _ & n & Hn & Hi)%Hfresh Hu. destruct (Hdisj i Hu) as [_ Hd]. by apply (Hd pl n); [left|..]. }
  case_bool_decide as Hnil.
  - apply app_nil in Hnil as [Hf ->]. destruct (IH [] ret) as (IH1 & IH2 & IH3); [constructor|set_solver|].
    split; [done|]. split; [done|]. intros i. rewrite IH3. specialize (Hfresh i). rewrite Hf in Hfresh. set_solver.
  - destruct (IH [] (ret ++ batch)) as (IH1 & IH2 & IH3); [constructor|set_solver|]. cbn. split_and!.
    + apply NoDup_app. split; [done|]. split; [|done]. intros i Hi Hi'%IH3. set_solver.
    + by constructor.
    + intros i. rewrite elem_of_app, IH3. unfold batch. rewrite !elem_of_app, Hfresh. split.
      * intros [[(? & ? & n & ? & ?)|?]|[?%not_elem_of_nil|(Hn & pl' & n & ? & ? & ? & ?)]]; [right|by left|done|right].
        -- split; [done|]. exists pl, n. split_and!; try done. by left.
        -- split; [set_solver|]. exists pl', n. split_and!; try done. by right.
      * intros [?|(Hn & pl' & n & [->|Hin]%elem_of_cons & Ho & Hm & Hi)]; [by left; right|left; left; eauto|].
        destruct (decide (i ∈ ungrouped)) as [|Hu]; [by left; right|].
        destruct (decide (i ∈ fresh_of ret pl (members pl))) as [Hf|Hf]; [by left; left; apply Hfresh|].
        right. right. split; [set_solver|]. by exists pl', n.
Qed.

Section plans.
Context {K Fn : Type}.
Context (group_order : gmap Z GroupPlan → list (Z * GroupPlan)).
Context (level_order : gmap Z (list Planned) → list (Z * list Planned)).
Context (group_order_perm : ∀ m, group_order m ≡ₚ map_to_list m).
Context (level_order_perm : ∀ m, level_order m ≡ₚ map_to_list m).
Implicit Types (key : K) (tunables : list (Tunable K Fn)).

(** The batches the plan of a key is meant to release. *)
Definition releases key tunables : list (list nat) :=
  let full := priced_of key tunables in
  released (members_in full full) (places_of full) (ungrouped_of tunables) [].
Definition eligible key tunables (i : nat) : Prop :=
  ∃ t, tunables !! i = Some t ∧
    (tunable_groups t = [] ∨ ∃ m, m ∈ tunable_groups t ∧ 0 <= group_priority m.1 key ∧ 0 <= m.2 key).

Lemma plan_levels_bound p (l : list Place) :
  NoDup l → (∀ pl, pl ∈ l → ∃ g, plan_groups p !! pl.1 = Some g ∧ pl.2 ∈ level_priorities g) →
  (length l <= plan_levels group_order p)%nat.
Proof.
  intros Hnd Hin. set (flat := mjoin ((λ kg : Z * GroupPlan, pair kg.1 <$> level_priorities kg.2) <$> group_order (plan_groups p))).
  assert (plan_levels group_order p = length flat) as ->.
  { unfold plan_levels, flat. induction (group_order (plan_groups p)) as [|kg gl IH]; [done|]. cbn.
    rewrite length_app, length_fmap. f_equal. exact IH. }
  apply NoDup_incl_length; [by apply NoDup_ListNoDup|]. intros pl Hpl. apply list_elem_of_In. apply list_elem_of_In in Hpl.
  destruct (Hin pl Hpl) as (g & Hg & Hlv). apply list_elem_of_join. exists (pair pl.1 <$> level_priorities g). split.
  - apply list_elem_of_fmap. exists pl.2. split; [by destruct pl|done].
  - apply list_elem_of_fmap. exists (pl.1, g). split; [done|]. by rewrite group_order_perm, elem_of_map_to_list.
Qed.
Lemma plan_starts key tunables :
  ids_distinct tunables →
  let full := priced_of key tunables in
  ∃ p v priority_of, plan_new key tunables = Some p ∧ no_groups p = ungrouped_of tunables ∧ returned p = [] ∧
    length (placements p) = length tunables ∧
    on_its_way priority_of (members_in full full) p v (places_of full) ∧ (length v <= plan_levels group_order p)%nat.
Proof.
  intros Hids full. destruct (plan_new_spec key tunables) as ([priorities groups] & Hpl & pls & Hlen & Hnew).
  fold full in Hpl. destruct Hpl as [Hnd Hdom Hgroup Hmem]. cbn in *.
  eexists _, ((λ pl, (pl, members_in full full pl)) <$> places_of full),
    (λ id, default 0 (priced_group_priority <$> (list_find (λ q, group_id (priced_group q) = id) full ≫= λ x, Some x.2))).
  split; [exact Hnew|]. set (p := mk_TunePlan _ _ _ _ _).
  assert (∀ pl, entries_at p pl = if bool_decide (members_in full full pl = []) then None else Some (members_in full full pl)) as Hat.
  { intros pl. rewrite <- Hmem. unfold entries_at, p. cbn. rewrite lookup_fmap. by destruct (groups !! pl.1). }
  assert (∀ gp g, plan_groups p !! gp = Some g → ∃ g0, groups !! gp = Some g0 ∧
    g = mk_GroupPlan (sort_stable Z.leb (level_priorities g0)) (level_indices g0)) as Hinv.
  { intros gp g. unfold p. cbn. rewrite lookup_fmap. destruct (groups !! gp) as [g0|]; [|done]. intros [= <-]. by exists g0. }
  split; [done|]. split; [done|]. split; [done|]. split; [split|].
  - split.
    + by apply sort_ascending.
    + intros gp. cbn. by rewrite sort_stable_perm, Hdom, lookup_fmap, fmap_is_Some.
    + intros gp g (g0 & Hg0 & ->)%Hinv. destruct (Hgroup _ _ Hg0) as (Hnd0 & Hne & Hdom0). cbn. split.
      * split; cbn; [by apply sort_ascending|]. intros lv. by rewrite sort_stable_perm.
      * intros Hnil. apply Hne, Permutation_nil. by rewrite <- Hnil, sort_stable_perm.
    + intros gp g lv l (g0 & Hg0 & ->)%Hinv Hl ->. specialize (Hat (gp, lv)). unfold entries_at, p in Hat. cbn in *.
      rewrite lookup_fmap, Hg0 in Hat. cbn in Hat. rewrite Hl in Hat. case_bool_decide; [done|]. injection Hat. done.
  - split.
    + pose proof (places_of_sorted full) as Hs. induction Hs as [|pl l _ IH Hx]; cbn; constructor; [done|].
      apply Forall_fmap. exact Hx.
    + intros pl l. rewrite Hat, list_elem_of_fmap. split.
      * intros (pl' & [= -> ->] & Hpl%places_of_elem). rewrite bool_decide_false; [done|]. by apply members_in_nonempty.
      * case_bool_decide as Hne; [done|]. intros [= <-]. exists pl. split; [done|]. apply places_of_elem. by apply members_in_nonempty.
  - intros pl l n (pl' & [= -> ->] & _)%list_elem_of_fmap (q & Hq & <- & ->)%members_in_elem. cbn.
    destruct (list_find (λ q', group_id (priced_group q') = group_id (priced_group q)) full) as [[j q']|] eqn:Hf.
    + apply list_find_Some in Hf as (Hj & Hid & _). cbn. apply list_elem_of_lookup_2 in Hj.
      apply priced_of_elem in Hq as (i & t & m & Ht & Hm & ->). apply priced_of_elem in Hj as (i' & t' & m' & Ht' & Hm' & ->).
      cbn in *. f_equal. eapply (Hids t' t m' m); by eauto using list_elem_of_lookup_2.
    + apply list_find_None in Hf. by destruct (proj1 (Forall_forall _ _) Hf q Hq).
  - cbn. induction (places_of full) as [|pl l IH]; constructor; done.
  - intros _. rewrite <- list_fmap_compose. apply list_fmap_id.
  - rewrite length_fmap. apply plan_levels_bound.
    + pose proof (places_of_sorted full) as Hs. induction Hs as [|pl l _ IH Hx]; constructor; [|done]. intros Hin.
      pose proof (proj1 (Forall_forall _ _) Hx pl Hin) as Hb. unfold place_before in Hb. lia.
    + intros pl Hpl%places_of_elem. specialize (Hat pl). rewrite bool_decide_false in Hat by by apply members_in_nonempty.
      unfold entries_at in Hat. destruct (plan_groups p !! pl.1) as [g|] eqn:Hg; [|done]. exists g. split; [done|]. cbn in Hat.
      apply Hinv in Hg as (g0 & Hg0 & ->). cbn in *. rewrite sort_stable_perm. apply (Hgroup _ _ Hg0). by rewrite Hat.
Qed.

(** C15: the plan of a key releases its tunables, batch by batch, as it is meant
    to.  For groups with ids of their own (the counter of ids has not wrapped
    around), whatever the order its hash maps are iterated in, building the plan
    and asking it for batches until one is empty never panics, and the batches
    are those of the reference: the places (a group priority and a level in it)
    in descending order; of each place that is not negative its members, by
    descending priority and then by registration, without what an earlier batch
    held.  The tunables in no group end the first batch, and are all of it when
    the first place has nothing to release. *)
Theorem plan_releases key tunables :
  ids_distinct tunables →
  (∃ p, plan_new key tunables = Some p ∧ length (placements p) = length tunables ∧
    ∀ fuel, (plan_levels group_order p + 2 <= fuel)%nat →
      ∃ p', plan_batches group_order level_order fuel p = Some (releases key tunables, p')) ∧
  StronglySorted place_before (places_of (priced_of key tunables)) ∧
  ∀ members, ranked members ≡ₚ members ∧ StronglySorted best_first (ranked members).
Proof.
  intros Hids. split; [|split; [apply places_of_sorted|apply ranked_sorted]].
  destruct (plan_starts key tunables Hids) as (p & v & priority_of & Hp & Hng & Hr & Hlen & Hway & Hv).
  exists p. split; [done|]. split; [done|]. intros fuel Hfuel.
  destruct (batches_follow _ _ group_order_perm level_order_perm _ _ fuel p v _ Hway) as [p' Hb].
  { unfold steps_left. case_bool_decide; lia. }
  exists p'. unfold releases. by rewrite Hb, Hng, Hr.
Qed.

Lemma releases_spec key tunables :
  NoDup (mjoin (releases key tunables)) ∧ Forall (λ b, b ≠ []) (releases key tunables) ∧
  ∀ i, i ∈ mjoin (releases key tunables) ↔ eligible key tunables i.
Proof.
  unfold releases. set (full := priced_of key tunables).
  destruct (released_spec (members_in full full) (places_of full) (ungrouped_of tunables) []) as (Hnd & Hne & Hel).
  { apply ungrouped_of_nodup. }
  { intros i (t & Ht & Hg)%ungrouped_of_elem. split; [apply not_elem_of_nil|]. intros pl n _ (q & Hq & _ & ->)%members_in_elem Hi.
    apply priced_of_elem in Hq as (i' & t' & m & Ht' & Hm & ->). cbn in Hi. subst i'. rewrite Ht in Ht'. injection Ht' as <-.
    rewrite Hg in Hm. by apply not_elem_of_nil in Hm. }
  split; [done|]. split; [done|]. intros i. rewrite Hel, ungrouped_of_elem. unfold eligible. split.
  - intros [(t & Ht & Hg)|(_ & pl & n & _ & Ho & (q & Hq & <- & ->)%members_in_elem & <-)]; [exists t; auto|].
    apply place_open_iff in Ho; [|done]. apply priced_of_elem in Hq as (i & t & m & Ht & Hm & ->). cbn in *.
    exists t. split; [done|]. right. by exists m.
  - intros (t & Ht & [Hg|(m & Hm & Hp)]); [by left; exists t|right]. split; [apply not_elem_of_nil|].
    set (q := mk_Priced i m.1 (group_priority m.1 key) (m.2 key)).
    assert (q ∈ full) as Hq by (apply priced_of_elem; by exists i, t, m).
    exists (place_of full q), (planned_of q). split; [apply places_of_elem; by exists q|].
    split; [by apply place_open_iff|]. split; [|done]. apply members_in_elem. by exists q.
Qed.

(** The account of a plan, from its batches. *)
Lemma account_spec names p batches p' :
  plan_batches group_order level_order (S (S (plan_levels group_order p))) p = Some (batches, p') →
  length (placements p) = length names → NoDup (mjoin batches) → (∀ i, i ∈ mjoin batches → (i < length names)%nat) →
  ∃ account, plan_account group_order level_order names p = Some account ∧
    candidate_index <$> account ≡ₚ seq 0 (length names) ∧
    ∀ c, c ∈ account → names !! candidate_index c = Some (candidate_name c) ∧
      (is_Some (candidate_batch c) ↔ candidate_index c ∈ mjoin batches).
Proof.
  intros Hb Hlen Hnd Hlt. unfold plan_account. rewrite Hb. cbn [mbind option_bind].
  assert (∀ k, (mjoin (imap (λ i, numbered (k + i)) batches)).*1 = mjoin batches) as Hfst.
  { clear. induction batches as [|b batches IH]; intros k; [done|]. rewrite imap_cons.
    etrans; [|exact (f_equal (app b) (IH (S k)))]. etrans; [apply fmap_app|]. f_equal.
    - unfold numbered. rewrite <- list_fmap_compose. apply list_fmap_id.
    - do 2 f_equal. apply imap_ext. intros i l _. cbn. f_equal. lia. }
  specialize (Hfst 0%nat). cbn in Hfst. change (λ i, numbered i) with numbered in Hfst.
  set (account := mjoin (imap numbered batches)) in *. rewrite Hfst.
  set (excluded := filter (λ index, index ∉ mjoin batches) (seq 0 (length names))).
  set (seen := account ++ ((λ index, (index, None)) <$> excluded)).
  assert (seen.*1 ≡ₚ seq 0 (length names)) as Hperm.
  { unfold seen. rewrite fmap_app, Hfst, <- list_fmap_compose. setoid_rewrite list_fmap_id.
    apply NoDup_Permutation; [|apply NoDup_seq|].
    - apply NoDup_app. split; [done|]. split; [|apply NoDup_filter, NoDup_seq]. intros i Hi (? & _)%list_elem_of_filter. done.
    - intros i. rewrite elem_of_app. unfold excluded. rewrite list_elem_of_filter, elem_of_seq.
      destruct (decide (i ∈ mjoin batches)) as [Hi|Hi]; [specialize (Hlt i Hi)|]; split; intros; [lia|by left|tauto|right; split; [done|lia]]. }
  destruct (mapM_is_Some_2 (λ s : nat * option nat, name ← names !! s.1; groups ← placements p !! s.1;
    Some (mk_PlannedCandidate name s.1 s.2 groups)) seen) as [out Hout].
  { apply Forall_forall. intros s Hs. cbn. assert (s.1 ∈ seq 0 (length names)) as Hin.
    { rewrite <- Hperm. apply list_elem_of_fmap. by exists s. }
    apply elem_of_seq in Hin. destruct (lookup_lt_is_Some_2 names s.1) as [name ->]; [lia|].
    destruct (lookup_lt_is_Some_2 (placements p) s.1) as [g ->]; [lia|]. by eexists. }
  exists out. split; [exact Hout|]. apply mapM_Some in Hout.
  assert (∀ s c, (name ← names !! s.1; groups ← placements p !! s.1; Some (mk_PlannedCandidate name s.1 s.2 groups)) = Some c →
    candidate_index c = s.1 ∧ candidate_batch c = s.2 ∧ names !! s.1 = Some (candidate_name c)) as Hinv.
  { intros s c. destruct (names !! s.1); [|done]. cbn. destruct (placements p !! s.1); [|done]. by intros [= <-]. }
  split.
  - rewrite <- Hperm. clearbody seen. clear -Hout Hinv. induction Hout as [|s c l k Hsc _ IH]; [done|]. cbn.
    destruct (Hinv _ _ Hsc) as (-> & _). by rewrite IH.
  - intros c Hc. apply Forall2_flip in Hout. destruct (Forall2_elem_l _ _ _ _ Hout Hc) as (s & Hs & Hsc). destruct (Hinv _ _ Hsc) as (-> & -> & ?).
    split; [done|]. unfold seen in Hs. apply elem_of_app in Hs as [Hs|(i & -> & (Hi & _)%list_elem_of_filter)%list_elem_of_fmap].
    + assert (s.1 ∈ mjoin batches) by (rewrite <- Hfst; apply list_elem_of_fmap; by exists s).
      split; [done|]. intros _. unfold account in Hs. apply list_elem_of_join in Hs as (l & Hl & (k & Hk)%list_elem_of_lookup_1).
      rewrite list_lookup_imap in Hk. destruct (batches !! k); [|done]. injection Hk as <-.
      apply list_elem_of_fmap in Hl as (? & -> & _). by eexists.
    + cbn. split; [by intros []|done].
Qed.

(** C16: walking a plan ends.  The batches that [next] answers until the first
    empty one hold each tunable in no group, and each that some group prices at
    a priority that is not negative, in a group priority that is not, exactly
    once, and no other; and the account of the plan names every tunable exactly
    once, with a batch for exactly those. *)
Theorem plan_runs_out key tunables (names : list string) :
  ids_distinct tunables → length names = length tunables →
  ∃ p batches p' account, plan_new key tunables = Some p ∧
    plan_batches group_order level_order (S (S (plan_levels group_order p))) p = Some (batches, p') ∧
    NoDup (mjoin batches) ∧ (∀ i, i ∈ mjoin batches ↔ eligible key tunables i) ∧
    plan_account group_order level_order names p = Some account ∧
    candidate_index <$> account ≡ₚ seq 0 (length tunables) ∧
    ∀ c, c ∈ account → names !! candidate_index c = Some (candidate_name c) ∧
      (is_Some (candidate_batch c) ↔ eligible key tunables (candidate_index c)).
Proof.
  intros Hids Hnames. destruct (plan_starts key tunables Hids) as (p & v & priority_of & Hp & Hng & Hr & Hlen & Hway & Hv).
  destruct (batches_follow _ _ group_order_perm level_order_perm _ _ (S (S (plan_levels group_order p))) p v _ Hway) as [p' Hb].
  { unfold steps_left. case_bool_decide; lia. }
  rewrite Hng, Hr in Hb. fold (releases key tunables) in Hb.
  destruct (releases_spec key tunables) as (Hnd & _ & Hel).
  destruct (account_spec names p (releases key tunables) p') as (account & Ha & Hperm & Hcand); [done|congruence|done|..].
  { intros i (t & Ht & _)%Hel. rewrite Hnames. by eapply lookup_lt_Some. }
  exists p, (releases key tunables), p', account. rewrite Hnames in Hperm. split_and!; try done.
  intros c Hc. destruct (Hcand c Hc) as [? Hb']. split; [done|]. by rewrite Hb', Hel.
Qed.
End plans.

(** ** Four tunables, one of them in no group *)
Module Planned4.
Definition high : TuneGroup unit := mk_TuneGroup 0 "high" (λ _, 2) false.
Definition low : TuneGroup unit := mk_TuneGroup 1 "low" (λ _, 1) true.
Definition within (group : TuneGroup unit) (priority : Z) : Tunable unit unit :=
  tunable_group group (λ _, priority) (tunable_new tt).
Definition tunables : list (Tunable unit unit) := [tunable_new tt; within high 1; within high 2; within low (-1)].
Definition names : list string := ["none"; "second"; "first"; "skipped"]%string.
Lemma tunables_ok : ids_distinct tunables.
Proof.
  intros t t' m m' Ht Ht'. unfold tunables in Ht, Ht'.
  repeat (apply elem_of_cons in Ht as [->|Ht]); [..|by apply not_elem_of_nil in Ht];
    repeat (apply elem_of_cons in Ht' as [->|Ht']); try (by apply not_elem_of_nil in Ht');
    cbn; intros Hm Hm'; set_solver.
Qed.
End Planned4.
Import Planned4.

(** A group that is skipped leaves the tunables in no group alone in the first
    batch: they do not trail the candidates of the next group. *)
Lemma ungrouped_alone : releases tt [tunable_new tt; within high (-1); within low 2] = [[0%nat]; [2%nat]].
Proof. reflexivity. Qed.

Lemma plan_releases_witness :
  releases tt tunables = [[2%nat; 0%nat]; [1%nat]] ∧
  ∃ p, plan_new tt tunables = Some p ∧ length (placements p) = 4%nat ∧
    ∀ fuel, (plan_levels map_to_list p + 2 <= fuel)%nat →
      ∃ p', plan_batches map_to_list map_to_list fuel p = Some (releases tt tunables, p').
Proof.
  split; [reflexivity|]. apply (plan_releases map_to_list map_to_list (λ _, reflexivity _) (λ _, reflexivity _)).
  exact tunables_ok.
Defined.
Lemma plan_runs_out_witness :
  ¬ eligible tt tunables 3 ∧
  ∃ p batches p' account, plan_new tt tunables = Some p ∧
    plan_batches map_to_list map_to_list (S (S (plan_levels map_to_list p))) p = Some (batches, p') ∧
    NoDup (mjoin batches) ∧ (∀ i, i ∈ mjoin batches ↔ eligible tt tunables i) ∧
    plan_account map_to_list map_to_list names p = Some account ∧ candidate_index <$> account ≡ₚ seq 0 4.
Proof.
  split.
  { intros (t & [= <-] & [?|(m & ->%list_elem_of_singleton & _ & Hm)]); [done|]. cbn in Hm. lia. }
  destruct (plan_runs_out map_to_list map_to_list (λ _, reflexivity _) (λ _, reflexivity _) tt tunables names tunables_ok)
    as (p & batches & p' & account & ? & ? & ? & ? & ? & ? & _); [reflexivity|].
  exists p, batches, p', account. split_and!; assumption.
Defined.
