(* ===== verification/TuneBench.v ===== *)
(** * Measuring a tunable

    [cubecl-runtime/src/tune/sampler.rs], [tune_benchmark.rs], [operation.rs],
    the errors and outcomes of [tuner.rs] and [tune_cache.rs], the configuration
    of [config/autotune.rs], and the statistics of
    [cubecl-common/src/benchmark.rs].  A duration is a number of nanoseconds;
    what is computed in floating point is a parameter.  The client that runs
    and times the kernels is an interface ([TuneClient]). *)

From S2P Require Export Prelude Server.
From stdpp Require Import list strings sorting.
#[local] Open Scope Z_scope.

Abbreviation Duration := Z (only parsing).
Inductive TimingMethod := SystemTiming | DeviceTiming.
#[global] Instance TimingMethod_eq_dec : EqDecision TimingMethod.
Proof. solve_decision. Defined.

(** ** Errors and outcomes *)
Inductive AutotuneError :=
| Unknown (name err : string)
| InvalidSamples (name : string)
| NoValidKernelFound (context : string)
| NotMeasured (name : string)
| SkipTune (name : string)
| LaunchFailed (e : LaunchError).

(** [BenchmarkDurations] and [BenchmarkComputations] *)
Record BenchmarkDurations := mk_BenchmarkDurations { timing_method : TimingMethod; durations : list Duration }.
Record BenchmarkComputations := mk_BenchmarkComputations {
  mean : Duration;
  median : Duration;
  variance : Duration;
  min_duration : Duration;
  max_duration : Duration;
}.
Record AutotuneOutcome := mk_AutotuneOutcome {
  outcome_name : string;
  outcome_index : nat;
  outcome_computation : BenchmarkComputations;
}.
Abbreviation AutotuneResult := (result AutotuneOutcome AutotuneError) (only parsing).

Section statistics.
(** The variance is computed in [f64] from the durations and their mean. *)
Context (variance_duration : list Duration → Duration → Duration).

(** [unwrap] of the ends of the sorted durations. *)
Definition min_max_median (l : list Duration) : option (Duration * Duration * Duration) :=
  let sorted := merge_sort Z.le l in
  min ← head sorted; max ← last sorted; median ← sorted !! (length sorted / 2)%nat; Some (min, max, median).
(** Dividing by zero is a panic. *)
Definition mean_duration (l : list Duration) : option Duration :=
  if decide (l = []) then None else Some (sum_Z l / Z.of_nat (length l)).
Definition computations_new (d : BenchmarkDurations) : option BenchmarkComputations :=
  mean ← mean_duration (durations d);
  '(min, max, median) ← min_max_median (durations d);
  Some (mk_BenchmarkComputations mean median (variance_duration (durations d) mean) min max).
End statistics.

(** ** The configuration *)
Record BenchConfig := mk_BenchConfig {
  min_samples : nat;
  max_samples : nat;
  config_short_circuit_samples : nat;
  adaptive : bool;
}.
Definition bench_default : BenchConfig := mk_BenchConfig 3 10 2 true.
Definition config_samples (c : BenchConfig) : nat * nat :=
  let min := Nat.max (min_samples c) 1 in (min, Nat.max (max_samples c) min).
Definition short_circuit_samples (c : BenchConfig) : nat := Nat.max (config_short_circuit_samples c) 1.

(** ** The samples of a candidate *)
Record SampleSet := mk_SampleSet { sample_durations : list Duration; stalled : Z }.
Definition samples_default : SampleSet := mk_SampleSet [] 0.
Definition DISCARD_THRESHOLD : nat := 3.
Definition CONVERGENCE_ROUNDS : Z := 2.

Definition samples_len (s : SampleSet) : nat := length (sample_durations s).
Definition samples_is_empty (s : SampleSet) : bool := bool_decide (sample_durations s = []).
Definition reliable (s : SampleSet) : list Duration :=
  if (DISCARD_THRESHOLD <=? samples_len s)%nat then tail (sample_durations s) else sample_durations s.
(** [Iterator::min]: the first of the least. *)
Fixpoint min_of (l : list Z) : option Z :=
  match l with
  | [] => None
  | x :: l => match min_of l with Some y => Some (Z.min x y) | None => Some x end
  end.
Definition best (s : SampleSet) : option Duration := min_of (reliable s).
(** [less_converged] is the duration times [1.0 - CONVERGENCE_EPSILON]. *)
Definition samples_push (less_converged : Duration → Duration) (duration : Duration) (s : SampleSet) : SampleSet :=
  let before := best s in
  let l := sample_durations s ++ [duration] in
  if (length l =? DISCARD_THRESHOLD)%nat then mk_SampleSet l 0
  else
    let improved := match before, best (mk_SampleSet l (stalled s)) with
                    | Some before, Some after => after <? less_converged before
                    | _, _ => true
                    end in
    mk_SampleSet l (if improved : bool then 0 else sat_add u8_max (stalled s) 1).
Definition converged (s : SampleSet) : bool := CONVERGENCE_ROUNDS <=? stalled s.
Definition confirmed_under (limit : Duration) (required : nat) (s : SampleSet) : bool :=
  (required <=? length (filter (λ d, (d <= limit)%Z) (sample_durations s)))%nat.
Definition any_under (limit : Duration) (s : SampleSet) : bool :=
  existsb (λ d, d <=? limit) (sample_durations s).
(** The discarded sample is not among those the outcome is computed from. *)
Definition samples_computation (variance_duration : list Duration → Duration → Duration) (method : TimingMethod)
    (s : SampleSet) : option BenchmarkComputations :=
  computations_new variance_duration (mk_BenchmarkDurations method (reliable s)).

(** ** The client

    [flush] may report errors, which are ignored; [evict] is the eviction
    registered for the tune, if any, whose error is only logged; [profile] runs
    a tunable and times it; [exclusive] takes the device, or fails.  A profile
    resolves to no duration when its window carried no measurement. *)
Class TuneClient (W Op Profile : Type) := {
  client_flush : M W unit;
  client_evict : M W unit;
  client_profile : Op → M W (result (result unit AutotuneError * Profile) string);
  client_exclusive : M W (result unit string);
  profile_method : Profile → TimingMethod;
  profile_resolve : Profile → M W (option Duration);
}.
(** A client answers: none of its operations panics. *)
Class TuneClientLaws (W Op Profile : Type) `{TuneClient W Op Profile} := {
  flush_answers w : wp client_flush w (λ _ _, True);
  evict_answers w : wp client_evict w (λ _ _, True);
  profile_answers op w : wp (client_profile op) w (λ _ _, True);
  exclusive_answers w : wp client_exclusive w (λ _ _, True);
  resolve_answers p w : wp (profile_resolve p) w (λ _ _, True);
}.

Record TuneFn (Op : Type) := mk_TuneFn { fn_name : string; fn_op : Op }.
Arguments mk_TuneFn {Op}. Arguments fn_name {Op}. Arguments fn_op {Op}.

Section bench.
Context {W Op Profile : Type} `{TuneClient W Op Profile}.
Context (variance_duration : list Duration → Duration → Duration).
Context (config : BenchConfig).
Implicit Types (fn : TuneFn Op).

Definition sample_once fn (evict : bool) : M W (result Profile AutotuneError) :=
  _ ← (if evict then client_evict else mret tt);
  profiled ← client_profile (fn_op fn);
  mret (match profiled with
        | Ok (Ok _, duration) => Ok duration
        | Ok (Err e, _) => Err e
        | Err err => Err (Unknown (fn_name fn) err)
        end).
Definition warmup_once fn : M W (result unit AutotuneError) :=
  _ ← client_flush;
  r ← sample_once fn false;
  mret (result_map (λ _, tt) r).

(** *** The fixed number of samples *)

(** The loop of the warmup, and the errors of the client it collects. *)
Fixpoint warmup_loop fn (n : nat) (errors : list string) : M W (result (list string) AutotuneError) :=
  match n with
  | O => mret (Ok errors)
  | S n =>
      profiled ← client_profile (fn_op fn);
      match profiled with
      | Ok (Err err, _) => mret (Err err)
      | Ok _ => warmup_loop fn n errors
      | Err err => warmup_loop fn n (errors ++ [err])
      end
  end.
Definition warmup fn : M W (result unit AutotuneError) :=
  _ ← client_flush;
  r ← warmup_loop fn 3 [];
  match r with
  | Err e => mret (Err e)
  | Ok errors =>
      if (length errors <? 3)%nat then mret (Ok tt)
      else msg ← lift (errors !! 2%nat); mret (Err (Unknown (fn_name fn) msg))
  end.
Fixpoint sample_loop fn (evict : bool) (n : nat) (l : list Profile) : M W (result (list Profile) AutotuneError) :=
  match n with
  | O => mret (Ok l)
  | S n =>
      r ← sample_once fn evict;
      match r with Ok p => sample_loop fn evict n (l ++ [p]) | Err e => mret (Err e) end
  end.
Definition profile_exclusive fn (evict : bool) : M W (result (list Profile) AutotuneError) :=
  r ← warmup fn;
  match r with
  | Err e => mret (Err e)
  | Ok _ =>
      r ← sample_loop fn evict (config_samples config).2 [];
      mret (match r with
            | Ok l => if decide (l = []) then Err (InvalidSamples (fn_name fn)) else Ok l
            | Err e => Err e
            end)
  end.
Definition tune_benchmark fn (evict : bool) : M W (result (list Profile) AutotuneError) :=
  r ← client_exclusive;
  match r with
  | Ok _ => profile_exclusive fn evict
  | Err err => mret (Err (Unknown (fn_name fn) err))
  end.

Record PendingBench := mk_PendingBench { pending_index : nat; pending_name : string; profiles : list Profile }.

(** The samples are awaited together; here, in their order. *)
Fixpoint resolve_all (l : list Profile) : M W (list (option Duration)) :=
  match l with
  | [] => mret []
  | p :: l => d ← profile_resolve p; rest ← resolve_all l; mret (d :: rest)
  end.
Definition resolve_bench (bench : PendingBench) : M W AutotuneResult :=
  match profiles bench with
  | [] => mret (Err (Unknown (pending_name bench) "No profiling available"))
  | first :: _ =>
      ticks ← resolve_all (profiles bench);
      match mapM id ticks with
      | None => mret (Err (NotMeasured (pending_name bench)))
      | Some l =>
          computation ← lift (computations_new variance_duration (mk_BenchmarkDurations (profile_method first) l));
          mret (Ok (mk_AutotuneOutcome (pending_name bench) (pending_index bench) computation))
      end
  end.
End bench.
Arguments PendingBench : clear implicits.

(** ** What the measurements promise *)
Lemma min_of_spec l :
  match min_of l with
  | Some x => x ∈ l ∧ ∀ y, y ∈ l → x <= y
  | None => l = []
  end.
Proof.
  induction l as [|x l IH]; [done|]. cbn. destruct (min_of l) as [y|].
  - destruct IH as [Hy Hmin]. split.
    + destruct (Z.min_spec x y) as [[_ ->]|[_ ->]]; [by left|by right].
    + intros z [->|Hz]%elem_of_cons; [lia|]. specialize (Hmin z Hz). lia.
  - subst l. split; [by left|]. intros y ->%list_elem_of_singleton. lia.
Qed.
Lemma samples_push_durations f d s : sample_durations (samples_push f d s) = sample_durations s ++ [d].
Proof. unfold samples_push. by destruct (_ =? _)%nat. Qed.
Lemma reliable_nonempty s : sample_durations s ≠ [] → reliable s ≠ [].
Proof.
  unfold reliable, samples_len, DISCARD_THRESHOLD. destruct (sample_durations s) as [|x l]; [done|]. intros _.
  case_match eqn:Hle; [|done]. apply Nat.leb_le in Hle. cbn in *. destruct l; [cbn in Hle; lia|done].
Qed.
Lemma best_Some s : sample_durations s ≠ [] → ∃ b, best s = Some b ∧ b ∈ reliable s ∧ ∀ d, d ∈ reliable s → b <= d.
Proof.
  intros Hs%reliable_nonempty. unfold best. pose proof (min_of_spec (reliable s)) as Hm.
  destruct (min_of (reliable s)) as [b|]; [by exists b|done].
Qed.

Section computed.
Context (variance_duration : list Duration → Duration → Duration).
Lemma sum_Z_bounds l lo hi :
  Forall (λ d, lo <= d <= hi) l → Z.of_nat (length l) * lo <= sum_Z l <= Z.of_nat (length l) * hi.
Proof. induction 1 as [|d l Hd _ IH]; [cbn; lia|]. rewrite sum_Z_cons. cbn [length]. lia. Qed.
(** The statistics of some durations: their ends, and what is between. *)
Lemma computations_bounds d :
  durations d ≠ [] →
  ∃ c, computations_new variance_duration d = Some c ∧
    min_duration c ∈ durations d ∧ max_duration c ∈ durations d ∧ median c ∈ durations d ∧
    (∀ x, x ∈ durations d → min_duration c <= x <= max_duration c) ∧ min_duration c <= mean c <= max_duration c.
Proof.
  intros Hne. unfold computations_new, mean_duration. rewrite decide_False by done. cbn [mbind option_bind].
  unfold min_max_median. set (l := durations d) in *. pose proof (merge_sort_Permutation Z.le l) as Hp.
  assert (StronglySorted Z.le (merge_sort Z.le l)) as Hs.
  { apply StronglySorted_merge_sort; [intros ? ? ?; lia|intros ? ?; lia]. }
  destruct (merge_sort Z.le l) as [|lo s] eqn:Hl; [by apply Permutation_nil_l in Hp|]. cbn [head mbind option_bind].
  assert (∃ hi, last (lo :: s) = Some hi) as [hi Hhi] by (apply last_is_Some; done). rewrite Hhi. cbn [mbind option_bind].
  destruct (lookup_lt_is_Some_2 (lo :: s) (length (lo :: s) / 2)) as [md Hmd].
  { apply Nat.div_lt; cbn; lia. }
  rewrite Hmd. cbn [mbind option_bind]. eexists. split; [done|]. cbn [min_duration max_duration median mean].
  assert (∀ x, x ∈ l ↔ x ∈ lo :: s) as Hin by (intros x; by rewrite <- Hp).
  assert (∀ x, x ∈ l → lo <= x <= hi) as Hb.
  { intros x Hx%Hin. inversion Hs as [|? ? Hs' Hlo]; subst. split.
    - apply elem_of_cons in Hx as [->|Hx]; [lia|]. by apply (proj1 (Forall_forall _ _) Hlo).
    - clear -Hx Hs Hhi. apply last_Some in Hhi as [k Hk]. rewrite Hk in Hs, Hx.
      clear Hk. apply elem_of_app in Hx as [Hx| ->%list_elem_of_singleton]; [|lia].
      induction k as [|y k IH]; [by apply not_elem_of_nil in Hx|]. inversion Hs as [|? ? Hs' Hy]; subst.
      apply elem_of_cons in Hx as [->|Hx]; [|by apply IH].
      apply (proj1 (Forall_forall _ _) Hy). rewrite elem_of_app. right. by left. }
  split; [|split; [|split; [|split]]].
  - apply Hin. by left.
  - apply Hin. apply last_Some in Hhi as [k ->]. rewrite elem_of_app. right. by left.
  - apply Hin. by eapply list_elem_of_lookup_2.
  - done.
  - assert (0 < Z.of_nat (length l)) by (destruct l; cbn; [done|lia]).
    pose proof (sum_Z_bounds l lo hi (proj2 (Forall_forall _ _) Hb)).
    split; [apply Z.div_le_lower_bound|apply Z.div_le_upper_bound]; lia.
Qed.
End computed.

Section answers.
Context {W Op Profile : Type} `{TuneClientLaws W Op Profile}.
Context (variance_duration : list Duration → Duration → Duration) (config : BenchConfig).
Implicit Types (fn : TuneFn Op).

Lemma wp_sample_once fn evict w (Q : result Profile AutotuneError → W → Prop) :
  (∀ r w', Q r w') → wp (sample_once fn evict) w Q.
Proof.
  intros HQ. unfold sample_once. apply wp_bind.
  eapply (wp_mono _ _ (λ _ _, True)); [destruct evict; [apply evict_answers|by apply wp_ret]|].
  intros [] w1 _. apply wp_bind. eapply wp_mono; [apply profile_answers|]. intros r w2 _. by apply wp_ret.
Qed.
Lemma wp_warmup_once fn w (Q : result unit AutotuneError → W → Prop) :
  (∀ r w', Q r w') → wp (warmup_once fn) w Q.
Proof.
  intros HQ. unfold warmup_once. apply wp_bind. eapply wp_mono; [apply flush_answers|]. intros [] w1 _.
  apply wp_bind, wp_sample_once. intros r w2. by apply wp_ret.
Qed.
(** The profiles are resolved one for one. *)
Lemma wp_resolve_all (l : list Profile) w (Q : list (option Duration) → W → Prop) :
  (∀ r w', length r = length l → Q r w') → wp (resolve_all l) w Q.
Proof.
  revert w Q. induction l as [|p l IH]; intros w Q HQ; [apply wp_ret; by apply HQ|]. cbn.
  apply wp_bind. eapply wp_mono; [apply resolve_answers|]. intros d w1 _. apply wp_bind, IH. intros r w2 Hr.
  apply wp_ret, HQ. cbn. by rewrite Hr.
Qed.
Lemma wp_tune_benchmark fn evict w (Q : result (list Profile) AutotuneError → W → Prop) :
  (∀ r w', match r with Ok l => length l = (config_samples config).2 ∧ l ≠ [] | Err _ => True end → Q r w') →
  wp (tune_benchmark config fn evict) w Q.
Proof.
  intros HQ. unfold tune_benchmark. apply wp_bind. eapply wp_mono; [apply exclusive_answers|]. intros [[]|err] w1 _.
  2: { by apply wp_ret, HQ. }
  unfold profile_exclusive. apply wp_bind.
  assert (∀ n errors w, (length errors + n <= 3)%nat → wp (warmup_loop fn n errors) w (λ r _,
    match r with Ok errors' => (length errors' <= 3)%nat | Err _ => True end)) as Hloop.
  { induction n as [|n IH]; intros errors w0 Hn; [apply wp_ret; lia|]. cbn. apply wp_bind.
    eapply wp_mono; [apply profile_answers|]. intros [[[[]|e] p]|err] w2 _; [apply IH; lia|by apply wp_ret|].
    apply IH. rewrite length_app. cbn. lia. }
  assert (wp (warmup fn) w1 (λ _ _, True)) as Hwarm.
  { unfold warmup. apply wp_bind. eapply wp_mono; [apply flush_answers|]. intros [] w2 _. apply wp_bind.
    eapply wp_mono; [apply Hloop; cbn; lia|]. intros [errors|e] w3 Hlen; [|by apply wp_ret].
    destruct (length errors <? 3)%nat eqn:Hlt; [by apply wp_ret|]. apply Nat.ltb_ge in Hlt.
    destruct (lookup_lt_is_Some_2 errors 2) as [msg Hmsg]; [lia|]. apply wp_bind. eapply wp_lift; [done|]. by apply wp_ret. }
  eapply wp_mono; [exact Hwarm|]. intros [[]|e] w2 _; [|by apply wp_ret, HQ].
  assert (∀ n l w, wp (sample_loop fn evict n l) w (λ r _,
    match r with Ok l' => length l' = (length l + n)%nat | Err _ => True end)) as Hsamples.
  { induction n as [|n IH]; intros l w0; [apply wp_ret; lia|]. cbn. apply wp_bind, wp_sample_once.
    intros [p|e] w3; [|by apply wp_ret]. eapply wp_mono; [apply IH|]. intros [l'|e] w4; [|done]. rewrite length_app. cbn. lia. }
  apply wp_bind. eapply wp_mono; [apply Hsamples|]. intros [l|e] w3 Hl; [|by apply wp_ret, HQ].
  apply wp_ret, HQ. cbn in Hl. by case_decide.
Qed.

Lemma mapM_id_Some {A} (l : list (option A)) k : mapM id l = Some k → l = Some <$> k.
Proof. intros Hm%mapM_Some. induction Hm as [|x y l k Hxy _ IH]; [done|]. cbn in *. by rewrite Hxy, IH. Qed.
Lemma mapM_id_None {A} (l : list (option A)) : mapM id l = None → None ∈ l.
Proof.
  intros Hm. apply mapM_None, Exists_exists in Hm as (x & Hx & Hn). cbn in Hn. by subst.
Qed.
(** One unmeasured sample disqualifies a benchmark, whatever the others are;
    what is not disqualified was measured in full. *)
Lemma resolve_bench_correct (bench : PendingBench Profile) w :
  wp (resolve_bench variance_duration bench) w (λ r w',
    match r with
    | Ok o => outcome_name o = pending_name bench ∧ outcome_index o = pending_index bench ∧
        ∃ l, resolve_all (profiles bench) w = Some (Some <$> l, w') ∧ l ≠ [] ∧
          ∃ method, computations_new variance_duration (mk_BenchmarkDurations method l) = Some (outcome_computation o)
    | Err e => (profiles bench = [] ∧ e = Unknown (pending_name bench) "No profiling available") ∨
        e = NotMeasured (pending_name bench) ∧
        ∃ ticks, resolve_all (profiles bench) w = Some (ticks, w') ∧ None ∈ ticks
    end).
Proof.
  unfold resolve_bench. destruct (profiles bench) as [|first rest]; [apply wp_ret; by left|].
  pose proof (wp_resolve_all (first :: rest) w (λ r _, length r = S (length rest)) ltac:(done)) as Hw.
  apply wp_spec in Hw as (ticks & w1 & Hr & Hlen). apply wp_bind, wp_spec. exists ticks, w1. split; [done|].
  destruct (mapM id ticks) as [l|] eqn:Hm.
  - apply mapM_id_Some in Hm as ->. rewrite length_fmap in Hlen. assert (l ≠ []) as Hl by by destruct l.
    destruct (computations_bounds variance_duration (mk_BenchmarkDurations (profile_method first) l) Hl) as (c & Hc & _).
    apply wp_bind. eapply wp_lift; [exact Hc|]. apply wp_ret. split; [done|]. split; [done|]. exists l.
    split; [done|]. split; [done|]. by exists (profile_method first).
  - apply wp_ret. right. split; [done|]. exists ticks. split; [done|]. by apply mapM_id_None.
Qed.
End answers.
