(* ===== verification/TuneSchedule.v ===== *)
(** * Round robin benchmarking with early elimination

    [cubecl-runtime/src/tune/schedule.rs]: the candidates of one batch of a
    plan are sampled in turn, those that are clearly behind are eliminated, and
    the best of those that are left is declared; and the walk over the batches
    of the plan.  What is only logged (the time each step took) is left out. *)

From S2P Require Export TuneBench TunePlan.
From stdpp Require Import list strings gmap sorting.
#[local] Open Scope Z_scope.

Record Candidate := mk_Candidate {
  cand_index : nat;
  cand_name : string;
  cand_samples : SampleSet;
  cand_method : option TimingMethod;
  cand_error : option AutotuneError;
  cand_live : bool;
}.
Definition candidate_new (index : nat) (name : string) : Candidate :=
  mk_Candidate index name samples_default None None true.
Definition cand_fail (e : AutotuneError) (c : Candidate) : Candidate :=
  mk_Candidate (cand_index c) (cand_name c) (cand_samples c) (cand_method c) (Some e) false.
Definition with_live (live : bool) (c : Candidate) : Candidate :=
  mk_Candidate (cand_index c) (cand_name c) (cand_samples c) (cand_method c) (cand_error c) live.
Definition with_samples (s : SampleSet) (c : Candidate) : Candidate :=
  mk_Candidate (cand_index c) (cand_name c) s (cand_method c) (cand_error c) (cand_live c).
(** [method.get_or_insert] *)
Definition with_method (m : TimingMethod) (c : Candidate) : Candidate :=
  mk_Candidate (cand_index c) (cand_name c) (cand_samples c) (Some (default m (cand_method c))) (cand_error c) (cand_live c).
Definition cand_len (c : Candidate) : nat := samples_len (cand_samples c).

Record BatchOutcome := mk_BatchOutcome {
  batch_results : list (nat * AutotuneResult);
  batch_short_circuit : option string;
  batch_any_success : bool;
  batch_decided : option nat;
}.
Record PlanOutcome := mk_PlanOutcome { plan_short_circuit : option string; plan_decided : option nat }.
Record Schedule := mk_Schedule {
  config : BenchConfig;
  limit : option Duration;
  short_circuit : bool;
  evictor : bool;
}.
Definition MIN_SURVIVORS : nat := 2.

Section schedule.
Context {W Op Profile : Type} `{TuneClient W Op Profile}.
Context (variance_duration : list Duration → Duration → Duration).
Context (less_converged : Duration → Duration).
(** [best.mul_f64(self.config.speed_factor())] and [BenchmarkComputations::score]. *)
Context (past_speed_factor : Duration → Duration).
Context (score : BenchmarkComputations → Z).
Implicit Types (s : Schedule) (c : Candidate) (cs : list Candidate) (fn : TuneFn Op).

Definition push (d : Duration) c : Candidate := with_samples (samples_push less_converged d (cand_samples c)) c.
Definition cand_result c : option AutotuneResult :=
  match cand_error c with
  | Some e => Some (Err e)
  | None =>
      if samples_is_empty (cand_samples c) then Some (Err (SkipTune (cand_name c)))
      else computation ← samples_computation variance_duration (default SystemTiming (cand_method c)) (cand_samples c);
           Some (Ok (mk_AutotuneOutcome (cand_name c) (cand_index c) computation))
  end.

(** *** The first pass *)
Definition take_sample s fn c : M W (bool * Candidate) :=
  r ← sample_once fn (evictor s);
  match r with
  | Ok profile =>
      let c := with_method (profile_method profile) c in
      ticks ← profile_resolve profile;
      mret (match ticks with
            | Some d => (true, push d c)
            | None => (false, cand_fail (NotMeasured (cand_name c)) c)
            end)
  | Err e => mret (false, cand_fail e c)
  end.
(** The samples that confirm a short circuit; the fuel is what is missing. *)
Fixpoint confirm (fuel : nat) s fn (required : nat) c : M W (bool * Candidate) :=
  if (cand_len c <? required)%nat then
    match fuel with
    | O => panic
    | S fuel =>
        '(survived, c) ← take_sample s fn c;
        if survived : bool then confirm fuel s fn required c else mret (false, c)
    end
  else mret (true, c).
Definition first_pass s fn c : M W (bool * Candidate) :=
  r ← warmup_once fn;
  match r with
  | Err e => mret (false, cand_fail e c)
  | Ok _ =>
      '(survived, c) ← take_sample s fn c;
      if negb survived then mret (false, c)
      else
        match (if short_circuit s then limit s else None) with
        | None => mret (false, c)
        | Some limit =>
            if negb (any_under limit (cand_samples c)) then mret (false, c)
            else
              let required := short_circuit_samples (config s) in
              '(survived, c) ← confirm required s fn required c;
              mret (survived && confirmed_under limit required (cand_samples c), c)
        end
  end.
(** The loop over the slots; those that are left are not reached when one of
    them ends the batch. *)
Fixpoint first_loop s (fns : list (TuneFn Op)) cs : M W (option string * list Candidate) :=
  match cs with
  | [] => mret (None, [])
  | c :: cs =>
      fn ← lift (fns !! cand_index c);
      '(hit, c) ← first_pass s fn c;
      if hit : bool then mret (Some (cand_name c), c :: cs)
      else '(found, cs) ← first_loop s fns cs; mret (found, c :: cs)
  end.

(** *** The rounds *)
Fixpoint queue_round s (fns : list (TuneFn Op)) (max_samples : nat) cs : M W (list (option Profile) * list Candidate) :=
  match cs with
  | [] => mret ([], [])
  | c :: cs =>
      '(p, c) ←
        (if negb (cand_live c) || (max_samples <=? cand_len c)%nat then mret (None, c)
         else
           fn ← lift (fns !! cand_index c);
           r ← sample_once fn (evictor s);
           mret (match r with
                 | Ok profile => (Some profile, with_method (profile_method profile) c)
                 | Err e => (None, cand_fail e c)
                 end));
      '(ps, cs) ← queue_round s fns max_samples cs;
      mret (p :: ps, c :: cs)
  end.
(** The samples of a round are awaited together; here, in their order. *)
Fixpoint resolve_round (ps : list (option Profile)) cs : M W (list Candidate) :=
  match ps, cs with
  | Some p :: ps, c :: cs =>
      ticks ← profile_resolve p;
      cs ← resolve_round ps cs;
      mret (match ticks with
            | Some d => push d c
            | None => cand_fail (NotMeasured (cand_name c)) c
            end :: cs)
  | None :: ps, c :: cs => cs ← resolve_round ps cs; mret (c :: cs)
  | _, _ => mret cs
  end.
Definition short_circuit_hit s cs : option string :=
  limit ← limit s;
  if negb (short_circuit s) then None
  else
    let required := short_circuit_samples (config s) in
    c ← head (filter (λ c, cand_live c && confirmed_under limit required (cand_samples c)) cs);
    Some (cand_name c).

Definition live_best c : option Duration := if cand_live c then best (cand_samples c) else None.
(** A slot that may be eliminated, and its best. *)
Definition eliminable (threshold : Duration) (min_samples : nat) (slot : nat) c : option (nat * Duration) :=
  if cand_live c && (min_samples <=? cand_len c)%nat then
    b ← best (cand_samples c); if threshold <? b then Some (slot, b) else None
  else None.
Definition live_count cs : nat := length (filter (λ c, cand_live c) cs).
Definition slower_first (x y : nat * Duration) : bool := y.2 <=? x.2.
Definition eliminate cs (min_samples : nat) : list Candidate :=
  match min_of (omap live_best cs) with
  | None => cs
  | Some best =>
      let threshold := past_speed_factor best in
      let budget := (live_count cs - MIN_SURVIVORS)%nat in
      if (budget =? 0)%nat then cs
      else
        let slots := take budget (sort_stable slower_first (omap id (imap (eliminable threshold min_samples) cs))) in
        foldl (λ cs slot, alter (with_live false) slot cs) cs slots.*1
  end.

(** One round, and whether it was the last; [rounds] runs those that are left. *)
Definition run_round s (fns : list (TuneFn Op)) (round : nat) cs : M W (option string * bool * list Candidate) :=
  let '(min_samples, max_samples) := config_samples (config s) in
  let live := live_count cs in
  if (live =? 0)%nat || (live =? 1)%nat && (min_samples <=? round)%nat then mret (None, true, cs)
  else
    '(ps, cs) ← queue_round s fns max_samples cs;
    if bool_decide (omap id ps = []) then mret (None, true, cs)
    else
      cs ← resolve_round ps cs;
      match short_circuit_hit s cs with
      | Some name => mret (Some name, true, cs)
      | None =>
          if (min_samples <=? S round)%nat then
            let cs := eliminate cs min_samples in
            let live := filter (λ c, cand_live c) cs in
            mret (None, negb (bool_decide (live = [])) && forallb (λ c, converged (cand_samples c)) live, cs)
          else mret (None, false, cs)
      end.
Fixpoint rounds s (fns : list (TuneFn Op)) (todo : list nat) cs : M W (option string * list Candidate) :=
  match todo with
  | [] => mret (None, cs)
  | round :: todo =>
      '(hit, last, cs) ← run_round s fns round cs;
      if last : bool then mret (hit, cs) else rounds s fns todo cs
  end.
Definition sample_batch s (fns : list (TuneFn Op)) (indices : list nat) : M W (option string * list Candidate) :=
  let '(_, max_samples) := config_samples (config s) in
  cs ← lift (mapM (λ index, fn ← fns !! index; Some (candidate_new index (fn_name fn))) indices);
  '(hit, cs) ← first_loop s fns cs;
  match hit with
  | Some name => mret (Some name, cs)
  | None => rounds s fns (seq 1 (max_samples - 1)) cs
  end.

(** *** The outcome *)

(** The body of the loop of [outcome]. *)
Definition judge '(results, any_success, decided) c :
    option (list (nat * AutotuneResult) * bool * option (nat * Z)) :=
  r ← cand_result c;
  let '(any_success, decided) :=
    match r with
    | Ok o =>
        let score := score (outcome_computation o) in
        (true, if cand_live c && match decided with None => true | Some (_, best) => score <? best end
               then Some (cand_index c, score) else decided)
    | Err _ => (any_success, decided)
    end in
  Some (results ++ [(cand_index c, r)], any_success, decided).
Definition outcome cs (hit : option string) : option BatchOutcome :=
  '(results, any_success, decided) ← fold_option judge ([], false, None) cs;
  Some (mk_BatchOutcome results hit any_success (fst <$> decided)).
Definition drive s (fns : list (TuneFn Op)) (indices : list nat) : M W BatchOutcome :=
  '(hit, cs) ← sample_batch s fns indices;
  lift (outcome cs hit).
Definition refusal (fns : list (TuneFn Op)) (err : string) (index : nat) : option (nat * AutotuneResult) :=
  fn ← fns !! index; Some (index, Err (Unknown (fn_name fn) err)).
Definition run_batch s (fns : list (TuneFn Op)) (indices : list nat) : M W BatchOutcome :=
  r ← client_exclusive;
  match r with
  | Ok _ => drive s fns indices
  | Err err =>
      results ← lift (mapM (refusal fns err) indices);
      mret (mk_BatchOutcome results None false None)
  end.

(** *** The plan *)
Context (group_order : gmap Z GroupPlan → list (Z * GroupPlan)).
Context (level_order : gmap Z (list Planned) → list (Z * list Planned)).

Definition executed_unmeasured (r : AutotuneResult) : bool :=
  match r with Err (Unknown _ _) | Err (InvalidSamples _) => true | _ => false end.
(** Out of bounds is a panic. *)
Definition store_result (results : list AutotuneResult) '(index, r) : option (list AutotuneResult) :=
  _ ← results !! (index : nat); Some (<[index := r]> results).
(** The loop: the fuel bounds the batches. *)
Fixpoint run_plan (fuel : nat) s (fns : list (TuneFn Op)) (plan : TunePlan) (results : list AutotuneResult) :
    M W (PlanOutcome * list AutotuneResult) :=
  match fuel with
  | O => panic
  | S fuel' =>
      '(indices, plan) ← lift (plan_next group_order level_order fuel plan);
      if bool_decide (indices = []) then
        match position executed_unmeasured results with
        | Some index => mret (mk_PlanOutcome None (Some index), results)
        | None => panic
        end
      else
        outcome ← run_batch s fns indices;
        results ← lift (fold_option store_result results (batch_results outcome));
        if batch_any_success outcome
        then mret (mk_PlanOutcome (batch_short_circuit outcome) (batch_decided outcome), results)
        else run_plan fuel' s fns plan results
  end.
End schedule.

(** ** Elimination *)
Section eliminating.
Context (past_speed_factor : Duration → Duration).
Implicit Types (c : Candidate) (cs : list Candidate).

Definition slots_of cs (min_samples : nat) (b : Duration) : list (nat * Duration) :=
  omap id (imap (eliminable (past_speed_factor b) min_samples) cs).
Lemma slots_elem cs n b slot d :
  (slot, d) ∈ slots_of cs n b ↔ ∃ c, cs !! slot = Some c ∧ cand_live c = true ∧ (n <= cand_len c)%nat ∧
    best (cand_samples c) = Some d ∧ past_speed_factor b < d.
Proof.
  unfold slots_of. rewrite list_elem_of_omap. split.
  - intros (o & (i & Hi)%list_elem_of_lookup_1 & Ho). cbn in Ho. subst o. rewrite list_lookup_imap in Hi.
    destruct (cs !! i) as [c|] eqn:Hc; [|done]. cbn in Hi. unfold eliminable in Hi.
    destruct (cand_live c && (n <=? cand_len c)%nat) eqn:Hl; [|done]. apply andb_true_iff in Hl as [Hl Hn].
    destruct (best (cand_samples c)) as [d'|] eqn:Hb; [|done]. cbn in Hi.
    destruct (past_speed_factor b <? d') eqn:Hlt; [|done]. injection Hi as -> ->. exists c. apply Nat.leb_le in Hn. apply Z.ltb_lt in Hlt. by split_and!.
  - intros (c & Hc & Hl & Hn & Hb & Hlt). exists (Some (slot, d)). split; [|done].
    apply (list_elem_of_lookup_2 _ slot). rewrite list_lookup_imap, Hc. cbn. unfold eliminable.
    rewrite Hl, (proj2 (Nat.leb_le _ _) Hn), Hb. cbn. by rewrite (proj2 (Z.ltb_lt _ _) Hlt).
Qed.
Lemma slots_nodup cs n b : NoDup (slots_of cs n b).*1.
Proof.
  unfold slots_of. assert (∀ k, NoDup (omap id (imap (λ i, eliminable (past_speed_factor b) n (k + i)) cs)).*1 ∧
    ∀ x, x ∈ omap id (imap (λ i, eliminable (past_speed_factor b) n (k + i)) cs) → (k <= x.1)%nat) as Hall.
  { induction cs as [|c cs IH]; intros k; [by split; [constructor|intros x ?%not_elem_of_nil]|].
    assert (imap ((λ i, eliminable (past_speed_factor b) n (k + i)) ∘ S) cs =
      imap (λ i, eliminable (past_speed_factor b) n (S k + i)) cs) as Heq.
    { apply imap_ext. intros i c' _. cbn. f_equal. lia. }
    rewrite imap_cons, Heq, Nat.add_0_r. destruct (IH (S k)) as [IH1 IH2]. cbn.
    assert (∀ x, eliminable (past_speed_factor b) n k c = Some x → x.1 = k) as Hx.
    { intros x. unfold eliminable. destruct (_ && _); [|done]. destruct (best _); [|done]. cbn. case_match; [|done]. by intros [= <-]. }
    destruct (eliminable (past_speed_factor b) n k c) as [x|]; cbn; [|split; [done|]; intros x Hin%IH2; lia].
    specialize (Hx x eq_refl). split.
    - constructor; [|done]. rewrite Hx. intros (y & Hy & Hin%IH2)%list_elem_of_fmap. lia.
    - intros y [->|Hin%IH2]%elem_of_cons; lia. }
  apply (Hall 0%nat).
Qed.

(** Slots that are switched off one by one. *)
Definition switched_off (slots : list nat) cs : list Candidate := foldl (λ cs slot, alter (with_live false) slot cs) cs slots.
Lemma switched_off_length slots cs : length (switched_off slots cs) = length cs.
Proof.
  revert cs. induction slots as [|k slots IH]; intros cs; [done|].
  change (switched_off (k :: slots) cs) with (switched_off slots (alter (with_live false) k cs)). by rewrite IH, length_alter.
Qed.
Lemma switched_off_lookup slots cs i :
  NoDup slots → switched_off slots cs !! i = if decide (i ∈ slots) then with_live false <$> cs !! i else cs !! i.
Proof.
  revert cs. induction slots as [|k slots IH]; intros cs Hnd; [done|]. apply NoDup_cons in Hnd as [Hk Hnd].
  change (switched_off (k :: slots) cs) with (switched_off slots (alter (with_live false) k cs)). rewrite IH by done.
  destruct (decide (i = k)) as [->|Hne].
  - rewrite decide_False, decide_True by first [done|by left]. by rewrite list_lookup_alter_eq.
  - rewrite list_lookup_alter_ne by done. destruct (decide (i ∈ slots)).
    + by rewrite decide_True by by right.
    + rewrite decide_False; [done|]. by intros [?|?]%elem_of_cons.
Qed.
Lemma live_count_alter cs i c :
  cs !! i = Some c → cand_live c = true → S (live_count (alter (with_live false) i cs)) = live_count cs.
Proof.
  revert i. induction cs as [|c' cs IH]; intros [|i] Hc Hl; cbn in Hc; [done|done| |].
  - injection Hc as ->. unfold live_count. change (alter (with_live false) 0%nat (c :: cs)) with (with_live false c :: cs).
    rewrite !filter_cons, decide_False, decide_True by first [by rewrite Hl|by intros []]. done.
  - specialize (IH i Hc Hl). unfold live_count in *. change (alter (with_live false) (S i) (c' :: cs)) with (c' :: alter (with_live false) i cs).
    rewrite !filter_cons. case_decide; cbn; by rewrite IH.
Qed.
Lemma live_count_switched slots cs :
  NoDup slots → (∀ i, i ∈ slots → ∃ c, cs !! i = Some c ∧ cand_live c = true) →
  (live_count (switched_off slots cs) + length slots = live_count cs)%nat.
Proof.
  revert cs. induction slots as [|k slots IH]; intros cs Hnd Hlive; [apply Nat.add_0_r|]. apply NoDup_cons in Hnd as [Hk Hnd].
  change (switched_off (k :: slots) cs) with (switched_off slots (alter (with_live false) k cs)).
  destruct (Hlive k) as (c & Hc & Hl); [by left|]. pose proof (live_count_alter cs k c Hc Hl) as Hk'.
  specialize (IH (alter (with_live false) k cs) Hnd). cbn [length]. enough (live_count (switched_off slots (alter (with_live false) k cs)) + length slots = live_count (alter (with_live false) k cs))%nat by lia.
  apply IH. intros i Hi.
  destruct (Hlive i) as (c' & Hc' & Hl'); [by right|]. exists c'. rewrite list_lookup_alter_ne; [done|]. by intros ->.
Qed.

(** A list that is sorted, and where it is cut. *)
Lemma sorted_take {A} (R : relation A) l n x y :
  StronglySorted R l → x ∈ take n l → y ∈ l → y ∉ take n l → R x y.
Proof.
  intros Hs Hx Hy Hny. rewrite <- (take_drop n l) in Hs, Hy. apply elem_of_app in Hy as [?|Hy]; [done|].
  revert Hx Hs. generalize (take n l). intros k Hx Hs. induction k as [|z k IH]; [by apply not_elem_of_nil in Hx|].
  inversion Hs as [|? ? Hs' Hz]; subst. apply elem_of_cons in Hx as [->|Hx]; [|by apply IH].
  apply (proj1 (Forall_forall _ _) Hz). rewrite elem_of_app. by right.
Qed.

(** C17: elimination only drops candidates the evidence is against.  It changes
    nothing but which candidates are live, and revives none; it keeps two of
    them alive, or all there are; a candidate whose best time is within the
    speed factor of the best one (the leader above all), or that has too few
    samples to be judged, stays; and where the floor forces a choice it is the
    slowest that go. *)
Theorem eliminate_correct cs min_samples :
  (∀ d, d <= past_speed_factor d) →
  let cs' := eliminate past_speed_factor cs min_samples in
  length cs' = length cs ∧ (Nat.min (live_count cs) MIN_SURVIVORS <= live_count cs')%nat ∧
  ∀ i c, cs !! i = Some c → ∃ c', cs' !! i = Some c' ∧
    (c' = c ∨ c' = with_live false c ∧ cand_live c = true ∧ (min_samples <= cand_len c)%nat ∧
     ∃ leader d, min_of (omap live_best cs) = Some leader ∧ best (cand_samples c) = Some d ∧
       leader <= past_speed_factor leader < d ∧
       ∀ j k dk, cs !! j = Some k → cs' !! j = Some k → cand_live k = true → (min_samples <= cand_len k)%nat →
         best (cand_samples k) = Some dk → past_speed_factor leader < dk → dk <= d).
Proof.
  intros Hfactor cs'. unfold cs', eliminate. clear cs'.
  destruct (min_of (omap live_best cs)) as [leader|] eqn:Hlead.
  2: { split; [done|]. split; [lia|]. intros i c Hc. exists c. auto. }
  destruct (live_count cs - MIN_SURVIVORS =? 0)%nat eqn:Hbudget.
  { split; [done|]. split; [lia|]. intros i c Hc. exists c. auto. }
  fold (slots_of cs min_samples leader). set (all := sort_stable slower_first (slots_of cs min_samples leader)).
  set (gone := take (live_count cs - MIN_SURVIVORS) all). fold (switched_off gone.*1 cs).
  assert (∀ x, x ∈ all ↔ x ∈ slots_of cs min_samples leader) as Hall by (intros x; unfold all; by rewrite sort_stable_perm).
  assert (NoDup gone.*1) as Hnd.
  { unfold gone. rewrite fmap_take. apply (sublist_NoDup _ all.*1); [|apply sublist_take].
    unfold all. rewrite sort_stable_perm. apply slots_nodup. }
  assert (∀ slot d, (slot, d) ∈ gone → (slot, d) ∈ all) as Hgone by (intros slot d; apply subseteq_take).
  assert (∀ i, i ∈ gone.*1 → ∃ c, cs !! i = Some c ∧ cand_live c = true) as Hlive.
  { intros i ([slot d] & -> & (c & ? & ? & _)%Hgone%Hall%slots_elem)%list_elem_of_fmap. by exists c. }
  split; [|split].
  - apply switched_off_length.
  - pose proof (live_count_switched gone.*1 cs Hnd Hlive) as Hc. rewrite length_fmap in Hc.
    assert (length gone <= live_count cs - MIN_SURVIVORS)%nat by (unfold gone; rewrite length_take; lia).
    unfold MIN_SURVIVORS in *. lia.
  - intros i c Hc. rewrite switched_off_lookup, Hc by done. case_decide as Hi; [|exists c; auto].
    eexists. split; [done|]. right. split; [done|].
    apply list_elem_of_fmap in Hi as ([slot d] & -> & Hin). pose proof Hin as (c' & Hc' & Hl & Hn & Hb & Hlt)%Hgone%Hall%slots_elem.
    cbn [fst] in Hc. rewrite Hc in Hc'. injection Hc' as <-. split; [done|]. split; [done|]. exists leader, d.
    split; [done|]. split; [done|]. split; [split; [apply Hfactor|done]|].
    intros j k dk Hk Hk' Hkl Hkn Hkb Hkd. assert ((j, dk) ∈ all) as Hall_j.
    { apply Hall, slots_elem. by exists k. }
    assert ((j, dk) ∉ gone) as Hnot.
    { intros Hin'. rewrite switched_off_lookup, Hk, decide_True in Hk'; [|by apply list_elem_of_fmap; exists (j, dk)|done].
      injection Hk' as Heq. rewrite <- Heq in Hkl. done. }
    assert (StronglySorted (λ x y : nat * Duration, y.2 <= x.2) all) as Hs.
    { apply Sorted_StronglySorted; [intros x y z; lia|]. apply sort_stable_sorted; unfold slower_first; intros x y; lia. }
    exact (sorted_take _ all _ (slot, d) (j, dk) Hs Hin Hall_j Hnot).
Qed.
End eliminating.

(** ** A batch *)
Section batch.
Context {W Op Profile : Type} `{TuneClientLaws W Op Profile}.
Context (variance_duration : list Duration → Duration → Duration) (less_converged past_speed_factor : Duration → Duration).
Context (score : BenchmarkComputations → Z).
Context (s : Schedule) (fns : list (TuneFn Op)).
Implicit Types (c : Candidate) (cs : list Candidate) (fn : TuneFn Op).

(** The most samples a candidate takes. *)
Definition sample_cap : nat := Nat.max (config_samples (config s)).2 (short_circuit_samples (config s)).
Record cand_ok (index : nat) c : Prop := {
  co_index : cand_index c = index;
  co_name : ∃ fn, fns !! index = Some fn ∧ fn_name fn = cand_name c;
  co_len : (cand_len c <= sample_cap)%nat;
  co_error : cand_live c = true → cand_error c = None;
}.
(** A short circuit is confirmed by enough samples under the limit. *)
Definition confirmed c : Prop :=
  cand_live c = true ∧ short_circuit s = true ∧
  ∃ l, limit s = Some l ∧ confirmed_under l (short_circuit_samples (config s)) (cand_samples c) = true.

Lemma cap_pos : (0 < sample_cap)%nat ∧ (short_circuit_samples (config s) <= sample_cap)%nat ∧
  ((config_samples (config s)).2 <= sample_cap)%nat.
Proof. unfold sample_cap, config_samples. cbn. lia. Qed.
Lemma push_len d c : cand_len (push less_converged d c) = S (cand_len c).
Proof.
  unfold cand_len, push, samples_len. cbn. rewrite samples_push_durations, length_app. cbn. lia.
Qed.
Lemma cand_ok_fail index e c : cand_ok index c → cand_ok index (cand_fail e c).
Proof. intros []. by split. Qed.
Lemma cand_ok_off index c : cand_ok index c → cand_ok index (with_live false c).
Proof. intros []. by split. Qed.
Lemma cand_ok_push index m d c :
  cand_ok index c → (cand_len c < sample_cap)%nat → cand_ok index (push less_converged d (with_method m c)).
Proof. intros [] Hlt. split; try done. rewrite push_len. change (cand_len (with_method m c)) with (cand_len c). lia. Qed.

(** What one sample does to a candidate. *)
Definition sampled (index : nat) c (survived : bool) c' : Prop :=
  cand_ok index c' ∧
  if survived then cand_live c' = cand_live c ∧ cand_len c' = S (cand_len c)
  else cand_live c' = false.
Lemma wp_take_sample index fn c w :
  cand_ok index c → (cand_len c < sample_cap)%nat →
  wp (take_sample less_converged s fn c) w (λ r _, sampled index c r.1 r.2).
Proof.
  intros Hc Hlt. unfold take_sample. apply wp_bind, wp_sample_once. intros [p|e] w1.
  2: { apply wp_ret. split; [by apply cand_ok_fail|done]. }
  apply wp_bind. eapply wp_mono; [apply resolve_answers|]. intros [d|] w2 _; apply wp_ret; cbn [fst snd].
  - split; [by apply cand_ok_push|]. split; [done|]. by rewrite push_len.
  - split; [|done]. apply cand_ok_fail. destruct Hc. by split.
Qed.
Lemma wp_confirm index fuel fn c w :
  cand_ok index c → cand_live c = true → (short_circuit_samples (config s) <= fuel + cand_len c)%nat →
  wp (confirm less_converged fuel s fn (short_circuit_samples (config s)) c) w (λ r _,
    cand_ok index r.2 ∧ (r.1 = true → cand_live r.2 = true)).
Proof.
  revert c w. induction fuel as [|fuel IH]; intros c w Hc Hl Hfuel; cbn [confirm].
  - destruct (_ <? _)%nat eqn:Hlt; [apply Nat.ltb_lt in Hlt; lia|]. by apply wp_ret.
  - destruct (_ <? _)%nat eqn:Hlt; [|by apply wp_ret]. apply Nat.ltb_lt in Hlt.
    apply wp_bind. eapply wp_mono; [apply (wp_take_sample index); [done|]|].
    { pose proof cap_pos. lia. }
    intros [survived c'] w1 [Hc' Hs]. cbn in *. destruct survived; [|by apply wp_ret].
    apply IH; [done|by rewrite (proj1 Hs)|lia].
Qed.
Lemma wp_first_pass index fn c w :
  cand_ok index c → cand_live c = true → cand_len c = 0%nat →
  wp (first_pass less_converged s fn c) w (λ r _, cand_ok index r.2 ∧ (r.1 = true → confirmed r.2)).
Proof.
  intros Hc Hl Hlen. unfold first_pass. apply wp_bind, wp_warmup_once. intros [[]|e] w1.
  2: { apply wp_ret. split; [by apply cand_ok_fail|done]. }
  apply wp_bind. eapply wp_mono; [apply (wp_take_sample index); [done|rewrite Hlen; apply cap_pos]|].
  intros [survived c1] w2 [Hc1 Hs]. cbn in Hc1, Hs. destruct survived; cbn [negb]; [|by apply wp_ret].
  destruct Hs as [Hl1 Hlen1]. destruct (short_circuit s) eqn:Hsc; [|by apply wp_ret].
  destruct (limit s) as [l|] eqn:Hlim; [|by apply wp_ret].
  destruct (any_under l (cand_samples c1)); cbn [negb]; [|by apply wp_ret].
  apply wp_bind. eapply wp_mono; [apply (wp_confirm index); [done|congruence|lia]|].
  intros [survived c2] w3 [Hc2 Hs2]. cbn in *. apply wp_ret. cbn. split; [done|]. intros [-> Hu]%andb_true_iff.
  split; [by apply Hs2|]. split; [done|]. by exists l.
Qed.
Lemma wp_first_loop indices cs w :
  Forall2 cand_ok indices cs → Forall (λ c, cand_live c = true ∧ cand_len c = 0%nat) cs →
  wp (first_loop less_converged s fns cs) w (λ r _, Forall2 cand_ok indices r.2 ∧
    ∀ name, r.1 = Some name → ∃ c, c ∈ r.2 ∧ cand_name c = name ∧ confirmed c).
Proof.
  intros Hcs. revert w. induction Hcs as [|index c indices cs Hc Hcs IH]; intros w Hnew; [by apply wp_ret|].
  inversion Hnew as [|? ? [Hl Hlen] Hnew']; subst. cbn. destruct (co_name _ _ Hc) as (fn & Hfn & _).
  apply wp_bind. eapply wp_lift; [rewrite (co_index _ _ Hc); exact Hfn|]. apply wp_bind.
  eapply wp_mono; [by apply (wp_first_pass index)|]. intros [hit c'] w1 [Hc' Hhit]. cbn in Hc', Hhit. destruct hit.
  - apply wp_ret. cbn. split; [by constructor|]. intros name [= <-]. exists c'. split; [by left|]. split; [done|]. by apply Hhit.
  - apply wp_bind. eapply wp_mono; [by apply IH|]. intros [found cs'] w2 [Hcs' Hfound]. cbn in Hcs', Hfound.
    apply wp_ret. cbn. split; [by constructor|]. intros name Hn. destruct (Hfound name Hn) as (c2 & ? & ?).
    exists c2. split; [by right|done].
Qed.

(** One sample is queued for each live candidate that is not at the ceiling. *)
Definition queued c (p : option Profile) : Prop := is_Some p → (cand_len c < sample_cap)%nat.
Lemma wp_queue_round indices cs w :
  Forall2 cand_ok indices cs →
  wp (queue_round s fns (config_samples (config s)).2 cs) w (λ r _, Forall2 cand_ok indices r.2 ∧ Forall2 queued r.2 r.1).
Proof.
  intros Hcs. revert w. induction Hcs as [|index c indices cs Hc Hcs IH]; intros w; [by apply wp_ret|].
  cbn [queue_round]. apply wp_bind.
  eapply (wp_mono _ _ (λ r _, cand_ok index r.2 ∧ queued r.2 r.1)).
  { destruct (negb (cand_live c) || _)%nat eqn:Hskip; [by apply wp_ret; split; [|intros []]|].
    apply orb_false_iff in Hskip as [_ Hlt]. apply Nat.leb_gt in Hlt.
    destruct (co_name _ _ Hc) as (fn & Hfn & _). apply wp_bind. eapply wp_lift; [rewrite (co_index _ _ Hc); exact Hfn|].
    apply wp_bind, wp_sample_once. intros [p|e] w1; apply wp_ret; cbn.
    - split; [by destruct Hc; split|]. intros _. change (cand_len (with_method (profile_method p) c)) with (cand_len c). pose proof cap_pos. lia.
    - split; [by apply cand_ok_fail|by intros []]. }
  intros [p c'] w1 [Hc' Hq]. apply wp_bind. eapply wp_mono; [apply IH|]. intros [ps cs'] w2 [Hcs' Hqs].
  apply wp_ret. cbn in *. by split; constructor.
Qed.
Lemma wp_resolve_round indices cs ps w :
  Forall2 cand_ok indices cs → Forall2 queued cs ps →
  wp (resolve_round less_converged ps cs) w (λ cs' _, Forall2 cand_ok indices cs').
Proof.
  intros Hcs. revert ps w. induction Hcs as [|index c indices cs Hc Hcs IH]; intros ps w Hq;
    inversion Hq as [|? p ? ps' Hp Hps]; subst; [by apply wp_ret|].
  destruct p as [p|]; cbn [resolve_round].
  - apply wp_bind. eapply wp_mono; [apply resolve_answers|]. intros d w1 _. apply wp_bind. eapply wp_mono; [by apply IH|].
    intros cs' w2 Hcs'. apply wp_ret. constructor; [|done]. destruct d as [d|]; [|by apply cand_ok_fail].
    destruct Hc. split; try done. rewrite push_len. by apply Hp.
  - apply wp_bind. eapply wp_mono; [by apply IH|]. intros cs' w2 Hcs'. apply wp_ret. by constructor.
Qed.
Lemma switched_off_ok indices l cs : Forall2 cand_ok indices cs → Forall2 cand_ok indices (switched_off l cs).
Proof.
  revert cs. induction l as [|k l IH]; intros cs Hcs; [done|].
  change (switched_off (k :: l) cs) with (switched_off l (alter (with_live false) k cs)). apply IH.
  apply Forall2_alter_r; [done|]. intros i c _ _. apply cand_ok_off.
Qed.
Lemma eliminate_ok indices cs n : Forall2 cand_ok indices cs → Forall2 cand_ok indices (eliminate past_speed_factor cs n).
Proof.
  intros Hcs. unfold eliminate. destruct (min_of _) as [b|]; [|done]. case_match; [done|]. by apply (switched_off_ok _ (_.*1)).
Qed.
Lemma short_circuit_hit_confirmed cs name :
  short_circuit_hit s cs = Some name → ∃ c, c ∈ cs ∧ cand_name c = name ∧ confirmed c.
Proof.
  unfold short_circuit_hit. destruct (limit s) as [l|] eqn:Hl; [|done]. cbn. destruct (short_circuit s) eqn:Hs; [|done]. cbn.
  destruct (filter _ cs) as [|c cs'] eqn:Hf; [done|]. cbn. intros [= <-].
  assert (c ∈ filter (λ c, cand_live c && confirmed_under l (short_circuit_samples (config s)) (cand_samples c)) cs) as Hc
    by (rewrite Hf; by left).
  apply list_elem_of_filter in Hc as [Hc Hin]. apply Is_true_true, andb_true_iff in Hc as [? ?].
  exists c. split; [done|]. split; [done|]. split; [done|]. split; [done|]. by exists l.
Qed.
Definition round_ok indices (hit : option string) cs : Prop :=
  Forall2 cand_ok indices cs ∧ ∀ name, hit = Some name → ∃ c, c ∈ cs ∧ cand_name c = name ∧ confirmed c.
Lemma wp_run_round indices round cs w :
  Forall2 cand_ok indices cs →
  wp (run_round less_converged past_speed_factor s fns round cs) w (λ r _, round_ok indices r.1.1 r.2).
Proof.
  intros Hcs. unfold run_round. destruct (config_samples (config s)) as [min max] eqn:Hcfg.
  destruct (_ || _); [by apply wp_ret|]. pose proof (wp_queue_round indices cs w Hcs) as Hq. rewrite Hcfg in Hq. cbn in Hq.
  apply wp_bind. eapply wp_mono; [exact Hq|]. intros [ps cs1] w1 [Hcs1 Hqs]. cbn in Hcs1, Hqs.
  case_bool_decide; [by apply wp_ret|]. apply wp_bind. eapply wp_mono; [by apply wp_resolve_round|]. intros cs2 w2 Hcs2.
  destruct (short_circuit_hit s cs2) as [name|] eqn:Hhit.
  { apply wp_ret. split; [done|]. intros name' [= <-]. by apply short_circuit_hit_confirmed. }
  case_match; apply wp_ret; (split; [|done]); [by apply eliminate_ok|done].
Qed.
Lemma wp_rounds indices todo cs w :
  Forall2 cand_ok indices cs →
  wp (rounds less_converged past_speed_factor s fns todo cs) w (λ r _, round_ok indices r.1 r.2).
Proof.
  revert cs w. induction todo as [|round todo IH]; intros cs w Hcs; [by apply wp_ret|]. cbn. apply wp_bind.
  eapply wp_mono; [by apply (wp_run_round indices)|]. intros [[hit last] cs'] w1 Hok. cbn in Hok.
  destruct last; [by apply wp_ret|]. apply IH, Hok.
Qed.
Lemma wp_sample_batch indices w :
  Forall (λ i, (i < length fns)%nat) indices →
  wp (sample_batch less_converged past_speed_factor s fns indices) w (λ r _, round_ok indices r.1 r.2).
Proof.
  intros Hin. unfold sample_batch. destruct (config_samples (config s)) as [min max] eqn:Hcfg.
  assert (∃ cs, mapM (λ index, fn ← fns !! index; Some (candidate_new index (fn_name fn))) indices = Some cs ∧
    Forall2 cand_ok indices cs ∧ Forall (λ c, cand_live c = true ∧ cand_len c = 0%nat) cs) as (cs & Hm & Hcs & Hnew).
  { clear Hcfg. induction Hin as [|i indices Hi Hin IH]; [by exists []|]. destruct IH as (cs & Hm & Hcs & Hnew).
    destruct (lookup_lt_is_Some_2 fns i Hi) as [fn Hfn]. exists (candidate_new i (fn_name fn) :: cs). cbn. rewrite Hfn. cbn.
    rewrite Hm. cbn. split; [done|]. split; constructor; try done. split; cbn; try done; [by exists fn|].
    unfold cand_len, samples_len. cbn. lia. }
  apply wp_bind. eapply wp_lift; [exact Hm|]. apply wp_bind. eapply wp_mono; [by apply wp_first_loop|].
  intros [hit cs1] w1 [Hcs1 Hhit]. cbn in *. destruct hit as [name|].
  - apply wp_ret. by split.
  - by apply wp_rounds.
Qed.
End batch.

(** ** The outcome of a batch, and of a plan *)
Section plan.
Context {W Op Profile : Type} `{TuneClientLaws W Op Profile}.
Context (variance_duration : list Duration → Duration → Duration) (less_converged past_speed_factor : Duration → Duration).
Context (score : BenchmarkComputations → Z).
Context (s : Schedule) (fns : list (TuneFn Op)).
Implicit Types (c : Candidate) (cs : list Candidate) (o : BatchOutcome) (results : list AutotuneResult).
Abbreviation cand_result := (cand_result variance_duration).

(** A survivor that was measured, and its statistics. *)
Definition survives c (oc : AutotuneOutcome) : Prop := cand_live c = true ∧ cand_result c = Some (Ok oc).
Definition least_survivor cs (decided : option nat) : Prop :=
  match decided with
  | None => ∀ c oc, c ∈ cs → ¬ survives c oc
  | Some i => ∃ c oc, c ∈ cs ∧ survives c oc ∧ cand_index c = i ∧
      ∀ c' oc', c' ∈ cs → survives c' oc' → score (outcome_computation oc) <= score (outcome_computation oc')
  end.
Lemma cand_result_Some c : ∃ r, cand_result c = Some r ∧
  match r with
  | Ok oc => cand_error c = None ∧ outcome_index oc = cand_index c ∧ outcome_name oc = cand_name c ∧ (0 < cand_len c)%nat
  | Err _ => True
  end.
Proof.
  unfold cand_result. destruct (cand_error c) as [e|]; [by exists (Err e)|]. unfold samples_is_empty.
  case_bool_decide as Hs; [by eexists|]. unfold samples_computation.
  destruct (computations_bounds variance_duration (mk_BenchmarkDurations (default SystemTiming (cand_method c)) (reliable (cand_samples c))))
    as (comp & -> & _); [by apply reliable_nonempty|]. eexists. split; [done|]. cbn. split_and!; try done.
  unfold cand_len, samples_len. destruct (sample_durations (cand_samples c)); [done|cbn; lia].
Qed.

(** The state of the loop, after the candidates in [seen]. *)
Record judging (seen : list Candidate) (st : list (nat * AutotuneResult) * bool * option (nat * Z)) : Prop := {
  jd_results : Forall2 (λ c ir, ir.1 = cand_index c ∧ cand_result c = Some ir.2) seen st.1.1;
  jd_any : st.1.2 = true ↔ ∃ i oc, (i, Ok oc) ∈ st.1.1;
  jd_decided : match st.2 with
    | None => least_survivor seen None
    | Some (i, b) => ∃ c oc, c ∈ seen ∧ survives c oc ∧ cand_index c = i ∧ b = score (outcome_computation oc) ∧
        ∀ c' oc', c' ∈ seen → survives c' oc' → b <= score (outcome_computation oc')
    end;
}.
Lemma judge_step seen st c : judging seen st → ∃ st', judge variance_duration score st c = Some st' ∧ judging (seen ++ [c]) st'.
Proof.
  destruct st as [[results any] decided]. intros [Hr Ha Hd]. cbn in *. unfold judge.
  destruct (cand_result_Some c) as (r & Hc & Hok). rewrite Hc. cbn [mbind option_bind].
  assert (Forall2 (λ c ir, ir.1 = cand_index c ∧ cand_result c = Some ir.2) (seen ++ [c]) (results ++ [(cand_index c, r)])) as Hr'.
  { apply Forall2_app; [done|]. by constructor. }
  assert (∀ c' oc', c' ∈ seen ++ [c] → survives c' oc' → c' ∈ seen ∧ survives c' oc' ∨ c' = c ∧ r = Ok oc' ∧ cand_live c = true) as Hsplit.
  { intros c' oc' [?| ->%list_elem_of_singleton]%elem_of_app Hs; [by left|right]. destruct Hs as [? Hs]. rewrite Hc in Hs. by injection Hs. }
  destruct r as [oc|e].
  - eexists. split; [done|]. split; cbn; [done| |].
    + split; [|done]. intros _. exists (cand_index c), oc. rewrite elem_of_app. right. by left.
    + destruct (cand_live c) eqn:Hl; cbn [andb].
      * destruct decided as [[i b]|].
        -- destruct (Z.ltb_spec (score (outcome_computation oc)) b) as [Hlt|Hge].
           ++ exists c, oc. rewrite elem_of_app. split; [right; by left|]. split; [done|]. split; [done|]. split; [done|].
              destruct Hd as (c0 & oc0 & _ & _ & _ & _ & Hmin). intros c' oc' Hi1 Hi2; destruct (Hsplit c' oc' Hi1 Hi2) as [[Hin Hs]|(-> & [= ->] & _)]; [|lia].
              specialize (Hmin c' oc' Hin Hs). lia.
           ++ destruct Hd as (c0 & oc0 & Hin & Hs & Hi & Hb & Hmin). exists c0, oc0. rewrite elem_of_app. split; [by left|].
              split; [done|]. split; [done|]. split; [done|]. intros c' oc' Hi1 Hi2; destruct (Hsplit c' oc' Hi1 Hi2) as [[Hin' Hs']|(-> & [= ->] & _)]; [by eapply Hmin|first [done|lia]].
        -- exists c, oc. rewrite elem_of_app. split; [right; by left|]. split; [done|]. split; [done|]. split; [done|].
           intros c' oc' Hi1 Hi2; destruct (Hsplit c' oc' Hi1 Hi2) as [[Hin Hs]|(-> & [= ->] & _)]; [by destruct (Hd c' oc')|lia].
      * destruct decided as [[i b]|].
        -- destruct Hd as (c0 & oc0 & Hin & Hs & Hi & Hb & Hmin). exists c0, oc0. rewrite elem_of_app. split; [by left|].
           split; [done|]. split; [done|]. split; [done|]. intros c' oc' Hi1 Hi2; destruct (Hsplit c' oc' Hi1 Hi2) as [[Hin' Hs']|(_ & _ & ?)]; [by eapply Hmin|first [done|lia]].
        -- intros c' oc' Hin Hs. destruct (Hsplit c' oc' Hin Hs) as [[Hin' ?]|(_ & _ & ?)]; [by destruct (Hd c' oc')|done].
  - eexists. split; [done|]. split; cbn; [done| |].
    + rewrite Ha. split; intros (i & oc & Hin); exists i, oc; [rewrite elem_of_app; by left|].
      by apply elem_of_app in Hin as [?|[=]%list_elem_of_singleton].
    + destruct decided as [[i b]|].
      * destruct Hd as (c0 & oc0 & Hin & Hs & Hi & Hb & Hmin). exists c0, oc0. rewrite elem_of_app. split; [by left|].
        split; [done|]. split; [done|]. split; [done|]. intros c' oc' Hi1 Hi2; destruct (Hsplit c' oc' Hi1 Hi2) as [[Hin' Hs']|(_ & ? & _)]; [by eapply Hmin|first [done|lia]].
      * intros c' oc' Hin Hs. destruct (Hsplit c' oc' Hin Hs) as [[Hin' ?]|(_ & ? & _)]; [by destruct (Hd c' oc')|done].
Qed.
Lemma judge_all cs seen st :
  judging seen st → ∃ st', fold_option (judge variance_duration score) st cs = Some st' ∧ judging (seen ++ cs) st'.
Proof.
  revert seen st. induction cs as [|c cs IH]; intros seen st Hst; [exists st; by rewrite app_nil_r|].
  destruct (judge_step seen st c Hst) as (st1 & Hs & Hst1). cbn [fold_option]. rewrite Hs. cbn [mbind option_bind].
  destruct (IH _ _ Hst1) as (st' & Hst' & Hj). exists st'. split; [exact Hst'|]. by rewrite <- app_assoc in Hj.
Qed.

(** What a batch reports of its candidates. *)
Record reports_batch (indices : list nat) cs o : Prop := {
  rb_candidates : Forall2 (cand_ok s fns) indices cs;
  rb_results : Forall2 (λ c ir, ir.1 = cand_index c ∧ cand_result c = Some ir.2) cs (batch_results o);
  rb_any : batch_any_success o = true ↔ ∃ i oc, (i, Ok oc) ∈ batch_results o;
  rb_decided : least_survivor cs (batch_decided o);
  rb_short_circuit name : batch_short_circuit o = Some name → ∃ c, c ∈ cs ∧ cand_name c = name ∧ confirmed s c;
}.
Definition refused (indices : list nat) o : Prop :=
  batch_any_success o = false ∧ batch_decided o = None ∧ batch_short_circuit o = None ∧
  ∃ err, Forall2 (λ i ir, ∃ fn, fns !! i = Some fn ∧ ir = (i, Err (Unknown (fn_name fn) err))) indices (batch_results o).
Abbreviation run_batch := (run_batch variance_duration less_converged past_speed_factor score s fns).
Lemma wp_run_batch indices w :
  Forall (λ i, (i < length fns)%nat) indices →
  wp (run_batch indices) w (λ o _, (batch_results o).*1 = indices ∧ (refused indices o ∨ ∃ cs, reports_batch indices cs o)).
Proof.
  intros Hin. unfold run_batch. apply wp_bind. eapply wp_mono; [apply exclusive_answers|]. intros [[]|err] w1 _.
  - unfold drive. apply wp_bind. eapply wp_mono; [by apply wp_sample_batch|]. intros [hit cs] w2 [Hcs Hhit]. cbn in Hcs, Hhit.
    destruct (judge_all cs [] ([], false, None)) as ([[results any] decided] & Hfold & [Hr Ha Hd]).
    { split; cbn; [constructor| |]; [|intros c oc ?%not_elem_of_nil; done].
      split; [done|]. by intros (i & oc & ?%not_elem_of_nil). }
    eapply wp_lift; [unfold outcome; rewrite Hfold; reflexivity|]. cbn in Hr, Ha, Hd. cbn.
    split; [|right; exists cs; split; try done; cbn].
    + clear -Hcs Hr. revert results Hr. induction Hcs as [|i c indices cs Hc Hcs IH]; intros results Hr;
        inversion Hr as [|? [j r] ? ? [Hj _]]; subst; [done|]. cbn in *. rewrite Hj, (co_index _ _ _ _ Hc). by rewrite IH.
    + destruct decided as [[i b]|]; [|done]. destruct Hd as (c & oc & Hin' & Hs & Hi & -> & Hmin). by exists c, oc.
  - assert (is_Some (mapM (refusal fns err) indices)) as [results Hm].
    { apply mapM_is_Some_2. eapply Forall_impl; [exact Hin|]. intros i Hi. cbn. unfold refusal.
      destruct (lookup_lt_is_Some_2 fns i Hi) as [fn ->]. by eexists. }
    apply wp_bind. eapply wp_lift; [exact Hm|]. apply wp_ret. apply mapM_Some in Hm. cbn.
    assert (Forall2 (λ i ir, ∃ fn, fns !! i = Some fn ∧ ir = (i, Err (Unknown (fn_name fn) err))) indices results) as Hall.
    { eapply Forall2_impl; [exact Hm|]. intros i ir. cbn. unfold refusal. destruct (fns !! i) as [fn|]; [|done]. intros [= <-]. by exists fn. }
    split; [|left; repeat split; by exists err]. clear -Hall. induction Hall as [|i ir l k (fn & _ & ->) _ IH]; [done|]. cbn. by rewrite IH.
Qed.


(** *** The walk of a plan, as a loop over the batches it releases *)
Fixpoint tune_batches (batches : list (list nat)) results : M W (option PlanOutcome * list AutotuneResult) :=
  match batches with
  | [] => mret (None, results)
  | indices :: batches =>
      o ← run_batch indices;
      results ← lift (fold_option store_result results (batch_results o));
      if batch_any_success o then mret (Some (mk_PlanOutcome (batch_short_circuit o) (batch_decided o)), results)
      else tune_batches batches results
  end.
Definition fallback (r : option PlanOutcome * list AutotuneResult) : M W (PlanOutcome * list AutotuneResult) :=
  match r.1 with
  | Some o => mret (o, r.2)
  | None => match position executed_unmeasured r.2 with
            | Some index => mret (mk_PlanOutcome None (Some index), r.2)
            | None => panic
            end
  end.

Section walk.
Context (group_order : gmap Z GroupPlan → list (Z * GroupPlan)).
Context (level_order : gmap Z (list Planned) → list (Z * list Planned)).
Context (group_order_perm : ∀ m, group_order m ≡ₚ map_to_list m).
Context (level_order_perm : ∀ m, level_order m ≡ₚ map_to_list m).
Context (priority_of : Z → Z) (members : Z * Z → list Planned).
Abbreviation walk_plan := (run_plan variance_duration less_converged past_speed_factor score group_order level_order).

Lemma run_plan_batches fuel p v pls results w :
  on_its_way priority_of members p v pls → (steps_left p v <= fuel)%nat →
  walk_plan fuel s fns p results w =
    (r ← tune_batches (released members pls (no_groups p) (returned p)) results; fallback r) w.
Proof.
  revert p v pls results w. induction fuel as [|fuel IH]; intros p v pls results w Hp Hfuel.
  { unfold steps_left in Hfuel. case_bool_decide; lia. }
  cbn [run_plan].
  destruct (next_follows group_order level_order group_order_perm level_order_perm priority_of members (S fuel) p v pls Hp)
    as (batch & p' & Hnext & Hres).
  { unfold steps_left in Hfuel. case_bool_decide; lia. }
  rewrite Hnext. unfold lift at 1. unfold mbind at 1, M_bind at 1.
  destruct Hres as [[-> ->]|(v' & pls' & Hb & Hp' & Hlt & ->)]; [done|]. cbn beta iota delta [lift fmap option_fmap option_map].
  rewrite bool_decide_false by done.
  cbn [tune_batches]. unfold mbind, M_bind. destruct (run_batch batch w) as [[o w1]|]; [|done].
  unfold lift. destruct (fold_option store_result results (batch_results o)) as [results'|]; [|done].
  destruct (batch_any_success o); [done|]. rewrite (IH p' v' pls' results' w1 Hp'); [done|lia].
Qed.
End walk.

(** The results of a batch, stored. *)
Lemma store_results (l : list (nat * AutotuneResult)) results :
  NoDup l.*1 → Forall (λ i, (i < length results)%nat) l.*1 →
  ∃ results', fold_option store_result results l = Some results' ∧ length results' = length results ∧
    (∀ i r, (i, r) ∈ l → results' !! i = Some r) ∧ ∀ i, i ∉ l.*1 → results' !! i = results !! i.
Proof.
  revert results. induction l as [|[i r] l IH]; intros results Hnd Hlt.
  { exists results. split_and!; try done. by intros i r ?%not_elem_of_nil. }
  cbn in Hnd, Hlt. apply NoDup_cons in Hnd as [Hi Hnd]. inversion Hlt as [|? ? Hi' Hlt']; subst.
  destruct (lookup_lt_is_Some_2 results i Hi') as [r0 Hr0].
  destruct (IH (<[i := r]> results)) as (results' & Hf & Hlen & Hin & Hout); [done|by rewrite length_insert|].
  exists results'. cbn [fold_option store_result]. rewrite Hr0. cbn [mbind option_bind]. rewrite length_insert in Hlen. split_and!; try done.
  - intros j rj [[= -> ->]|Hj]%elem_of_cons; [|by apply Hin]. rewrite Hout by done. by apply list_lookup_insert_eq.
  - intros j [Hne Hj]%not_elem_of_cons. rewrite Hout by done. by rewrite list_lookup_insert_ne.
Qed.

(** Every tunable in [failed] has an error in [after], and those in no
    batch that ran are as they were. *)
Definition failed_all (failed : list nat) (after : list AutotuneResult) : Prop :=
  ∀ i, i ∈ failed → ∃ e, after !! i = Some (Err e).
Lemma wp_tune_batches batches results w :
  NoDup (mjoin batches) → Forall (λ i, (i < length fns)%nat) (mjoin batches) → length results = length fns →
  wp (tune_batches batches results) w (λ r _, length r.2 = length fns ∧
    (∀ i oc, r.2 !! i = Some (Ok oc) → results !! i = Some (Ok oc) ∨ outcome_index oc = i ∧ i ∈ mjoin batches) ∧
    match r.1 with
    | None => failed_all (mjoin batches) r.2 ∧ ∀ i, i ∉ mjoin batches → r.2 !! i = results !! i
    | Some o => ∃ tried indices untried, batches = tried ++ indices :: untried ∧ failed_all (mjoin tried) r.2 ∧
        (∃ i oc, i ∈ indices ∧ r.2 !! i = Some (Ok oc)) ∧
        (∀ i, plan_decided o = Some i → i ∈ indices ∧ ∃ oc, r.2 !! i = Some (Ok oc)) ∧
        ∀ i, i ∉ mjoin tried → i ∉ indices → r.2 !! i = results !! i
    end).
Proof.
  revert results w. induction batches as [|indices batches IH]; intros results w Hnd Hlt Hlen.
  { apply wp_ret. split; [done|]. split; [by left|]. split; [by intros i ?%not_elem_of_nil|done]. }
  cbn in Hnd, Hlt. apply NoDup_app in Hnd as (Hnd1 & Hdisj & Hnd2). apply Forall_app in Hlt as [Hlt1 Hlt2].
  cbn [tune_batches]. apply wp_bind. eapply wp_mono; [by apply wp_run_batch|]. intros o w1 [Hi Ho].
  destruct (store_results (batch_results o) results) as (results1 & Hs & Hlen1 & Hin & Hout); [by rewrite Hi|by rewrite Hi, Hlen|].
  rewrite Hi in Hout. apply wp_bind. eapply wp_lift; [exact Hs|].
  assert (∀ i, i ∈ indices → ∃ r, (i, r) ∈ batch_results o) as Hgot.
  { intros i Hii. rewrite <- Hi in Hii. apply list_elem_of_fmap in Hii as ([j r] & -> & ?). by exists r. }
  assert (∀ i oc, results1 !! i = Some (Ok oc) → results !! i = Some (Ok oc) ∨ outcome_index oc = i ∧ i ∈ indices) as Hok1.
  { intros i oc Hr1. destruct (decide (i ∈ indices)) as [Hii|Hni]; [right|left; by rewrite <- Hout]. split; [|done].
    destruct (Hgot i Hii) as [r Hr]. rewrite (Hin i r Hr) in Hr1. injection Hr1 as ->.
    destruct Ho as [(_ & _ & _ & err & Hall)|(cs & [_ Hres _ _ _])].
    - apply Forall2_flip in Hall. by destruct (Forall2_elem_l _ _ _ _ Hall Hr) as (? & _ & fn & _ & [=]).
    - apply Forall2_flip in Hres. destruct (Forall2_elem_l _ _ _ _ Hres Hr) as (c & _ & Hci & Hcr). cbn in Hci, Hcr.
      destruct (cand_result_Some c) as (r' & Hr' & Hok). rewrite Hr' in Hcr. injection Hcr as ->. destruct Hok as (_ & -> & _). done. }
  assert (batch_any_success o = true ↔ ∃ i oc, (i, Ok oc) ∈ batch_results o) as Hany.
  { destruct Ho as [(Ha & _ & _ & err & Hall)|(cs & [_ _ Ha _ _])]; [|done]. rewrite Ha. split; [done|].
    intros (i & oc & Hr). apply Forall2_flip in Hall. by destruct (Forall2_elem_l _ _ _ _ Hall Hr) as (? & _ & fn & _ & [=]). }
  destruct (batch_any_success o) eqn:Ha.
  - apply wp_ret. cbn. split; [congruence|]. split.
    { intros i oc Hr1. destruct (Hok1 i oc Hr1) as [?|[? ?]]; [by left|right]. split; [done|]. rewrite elem_of_app. by left. }
    exists [], indices, batches. split; [done|]. split; [by intros i ?%not_elem_of_nil|]. split.
    + destruct (proj1 Hany eq_refl) as (i & oc & Hr). exists i, oc. split; [|by apply Hin].
      rewrite <- Hi. apply list_elem_of_fmap. by exists (i, Ok oc).
    + split; [|by intros i _; apply Hout]. intros i Hd.
      destruct Ho as [(Ha' & _)|(cs & [_ Hr _ Hdec _])]; [congruence|]. rewrite Hd in Hdec.
      destruct Hdec as (c & oc & Hc & [_ Hsv] & <- & _). destruct (Forall2_elem_l _ _ _ _ Hr Hc) as ([j r] & Hj & Hji & Hjr).
      cbn in Hji, Hjr. subst j. rewrite Hsv in Hjr. injection Hjr as <-. split; [|exists oc; by apply Hin].
      rewrite <- Hi. apply list_elem_of_fmap. by exists (cand_index c, Ok oc).
  - assert (failed_all indices results1) as Hfail1.
    { intros i Hii. destruct (Hgot i Hii) as [[oc|e] Hr]; [|exists e; by apply Hin].
      exfalso. destruct Hany as [_ Hany]. discriminate Hany. by exists i, oc. }
    eapply wp_mono; [apply IH; [done|done|congruence]|]. intros [ro results2] w2 (Hlen2 & Hok2 & Hres); cbn in *. split; [done|]. split.
    { intros i oc Hr2. destruct (Hok2 i oc Hr2) as [Hr1|[? ?]]; [destruct (Hok1 i oc Hr1) as [?|[? ?]]; [by left|right]|right];
        (split; [done|]); rewrite elem_of_app; auto. }
    destruct ro as [o'|].
    + destruct Hres as (tried & ind & untried & -> & Hfail & Hsucc & Hdec & Hkeep). exists (indices :: tried), ind, untried.
      split; [done|]. split.
      { cbn. intros i [Hii|Hii]%elem_of_app; [|by apply Hfail]. rewrite Hkeep; [by apply Hfail1|..]; intros Hin'; apply (Hdisj i Hii).
        - rewrite join_app, elem_of_app. by left.
        - rewrite join_app, elem_of_app. right. cbn. rewrite elem_of_app. by left. }
      split; [done|]. split; [done|]. cbn. intros i [Hni Hnt]%not_elem_of_app Hnd. by rewrite Hkeep, Hout.
    + destruct Hres as [Hfail Hkeep]. split.
      * intros i [Hii|Hii]%elem_of_app; [|by apply Hfail]. rewrite Hkeep; [by apply Hfail1|]. intros Hin'. by apply (Hdisj i Hii).
      * intros i [Hni Hnt]%not_elem_of_app. by rewrite Hkeep, Hout.
Qed.

(** The walk of the plan of a key: what its batches do, then the fallback. *)
Section tuned.
Context {K Fn : Type}.
Context (group_order : gmap Z GroupPlan → list (Z * GroupPlan)).
Context (level_order : gmap Z (list Planned) → list (Z * list Planned)).
Context (group_order_perm : ∀ m, group_order m ≡ₚ map_to_list m).
Context (level_order_perm : ∀ m, level_order m ≡ₚ map_to_list m).
Implicit Types (key : K) (tunables : list (Tunable K Fn)).

(** Some batch measured a tunable, after all those before it failed in full. *)
Definition plan_measured key tunables (o : PlanOutcome) results : Prop :=
  ∃ tried indices untried, releases key tunables = tried ++ indices :: untried ∧ failed_all (mjoin tried) results ∧
    (∃ i oc, i ∈ indices ∧ results !! i = Some (Ok oc)) ∧
    (∀ i, plan_decided o = Some i → i ∈ indices ∧ ∃ oc, results !! i = Some (Ok oc)).
(** Every eligible tunable failed. *)
Definition plan_failed key tunables results : Prop :=
  length results = length fns ∧ ∀ i, eligible key tunables i → ∃ e, results !! i = Some (Err e).
(** ... and the first one that ran, without being measured, is decided. *)
Definition plan_unmeasured key tunables (o : PlanOutcome) results : Prop :=
  plan_failed key tunables results ∧ plan_short_circuit o = None ∧
  ∃ i r, plan_decided o = Some i ∧ results !! i = Some r ∧ executed_unmeasured r = true ∧ eligible key tunables i ∧
    ∀ j r', (j < i)%nat → results !! j = Some r' → executed_unmeasured r' = false.

(** The walk of the plan of a key ends as its batches do; and only when every
    eligible tunable failed in a way that is not of the benchmark does it
    panic. *)
Lemma run_plan_ends key tunables results w :
  ids_distinct tunables → length tunables = length fns → length results = length fns →
  Forall (λ r, executed_unmeasured r = false) results →
  ∃ p (o : option PlanOutcome) results' w', plan_new key tunables = Some p ∧
    tune_batches (releases key tunables) results w = Some ((o, results'), w') ∧ length results' = length fns ∧
    (∀ i oc, results' !! i = Some (Ok oc) → results !! i = Some (Ok oc) ∨ outcome_index oc = i ∧ eligible key tunables i) ∧
    ∀ fuel, (plan_levels group_order p + 2 <= fuel)%nat →
      let walk := run_plan variance_duration less_converged past_speed_factor score group_order level_order fuel s fns p results w in
      match o with
      | Some po => walk = Some ((po, results'), w') ∧ plan_measured key tunables po results'
      | None => plan_failed key tunables results' ∧
          match position executed_unmeasured results' with
          | Some i => let po := mk_PlanOutcome None (Some i) in
              walk = Some ((po, results'), w') ∧ plan_unmeasured key tunables po results'
          | None => walk = None ∧ Forall (λ r, executed_unmeasured r = false) results'
          end
      end.
Proof.
  intros Hids Hlen Hres Hnew. destruct (plan_starts group_order group_order_perm key tunables Hids)
    as (p & v & priority_of & Hp & Hng & Hr & _ & Hway & Hv).
  destruct (releases_spec key tunables) as (Hnd & _ & Hel).
  assert (Forall (λ i, (i < length fns)%nat) (mjoin (releases key tunables))) as Hlt.
  { apply Forall_forall. intros i (t & Ht & _)%Hel. rewrite <- Hlen. by eapply lookup_lt_Some. }
  pose proof (wp_tune_batches _ results w Hnd Hlt Hres) as ((o & results') & w' & Hrun & Hlen' & Hok & Ho)%wp_spec.
  cbn in Hlen', Hok, Ho. setoid_rewrite Hel in Hok.
  exists p, o, results', w'. split; [done|]. split; [done|]. split; [done|]. split; [done|]. intros fuel Hfuel walk.
  assert (walk = fallback (o, results') w') as ->.
  { unfold walk. rewrite (run_plan_batches _ _ group_order_perm level_order_perm _ _ fuel p v _ results w Hway)
      by (unfold steps_left; case_bool_decide; lia).
    rewrite Hng, Hr. fold (releases key tunables). unfold mbind, M_bind. by rewrite Hrun. }
  unfold fallback. cbn [fst snd]. destruct o as [o|].
  - split; [done|]. destruct Ho as (tried & indices & untried & ? & ? & ? & ? & _). by exists tried, indices, untried.
  - destruct Ho as [Hfail Hkeep]. assert (plan_failed key tunables results') as Hfailed.
    { split; [done|]. intros i Hi. apply Hfail. by apply Hel. }
    split; [done|]. destruct (position executed_unmeasured results') as [i|] eqn:Hpos.
    + split; [done|]. split; [done|]. split; [done|]. apply position_Some in Hpos as [(r & Hri & Hru) Hfirst].
      exists i, r. split_and!; try done. apply Hel, dec_stable. intros Hni. rewrite (Hkeep i Hni) in Hri.
      rewrite (proj1 (Forall_lookup _ _) Hnew i r Hri) in Hru. done.
    + split; [done|]. by apply position_None.
Qed.
End tuned.
End plan.

(** ** A client whose kernels always behave the same

    A kernel takes the same time in every run, carries no measurement, is
    refused, or breaks the benchmark; the state counts the runs. *)
Module Steady.
Inductive Kernel := Runs (d : Duration) | Untimed | Refuses (e : AutotuneError) | Breaks (err : string).
Definition profile (k : Kernel) : M nat (result (result unit AutotuneError * option Duration) string) :=
  _ ← modify S;
  mret (match k with
        | Runs d => Ok (Ok tt, Some d)
        | Untimed => Ok (Ok tt, None)
        | Refuses e => Ok (Err e, None)
        | Breaks err => Err err
        end).
#[export] Instance client : TuneClient nat Kernel (option Duration) := {
  client_flush := mret tt;
  client_evict := mret tt;
  client_profile := profile;
  client_exclusive := mret (Ok tt);
  profile_method _ := DeviceTiming;
  profile_resolve := mret;
}.
#[export] Instance client_laws : TuneClientLaws nat Kernel (option Duration).
Proof. by split. Qed.

Definition fns_of (ks : list Kernel) : list (TuneFn Kernel) := mk_TuneFn "kernel" <$> ks.
Definition untuned (ks : list Kernel) : list AutotuneResult := (λ _, Err (SkipTune "kernel")) <$> ks.
Definition schedule : Schedule := mk_Schedule bench_default None false false.
(** No variance, half, one and a half, and the least duration. *)
Definition no_variance (_ : list Duration) (_ : Duration) : Duration := 0.
Definition half_again (d : Duration) : Duration := d + Z.abs d / 2.
Definition walk (fuel : nat) (tunables : list (Tunable unit unit)) (ks : list Kernel) :
    option ((PlanOutcome * list AutotuneResult) * nat) :=
  p ← plan_new tt tunables;
  run_plan no_variance (λ d, d / 2) half_again min_duration map_to_list map_to_list fuel schedule (fns_of ks) p (untuned ks) 0%nat.
End Steady.
Import Steady.

(** The fastest kernel wins, and the one that is three times slower is
    eliminated once it has three samples, the one that is refused at once. *)
Lemma fastest_decided :
  (λ r, (plan_decided r.1.1, r.2)) <$>
    walk 8 (replicate 4 (tunable_new tt)) [Runs 30; Runs 10; Refuses (SkipTune "kernel"); Runs 12] =
  Some (Some 1%nat, 17%nat).
Proof. vm_compute. reflexivity. Qed.
(** A kernel whose benchmark breaks is decided when no other is left, one that
    runs but is never timed is not: the walk panics. *)
Lemma broken_decided_untimed_panics :
  (λ r, plan_decided r.1.1) <$> walk 8 (replicate 2 (tunable_new tt)) [Refuses (SkipTune "kernel"); Breaks "busy"] = Some (Some 1%nat) ∧
  walk 8 (replicate 2 (tunable_new tt)) [Refuses (SkipTune "kernel"); Untimed] = None.
Proof. split; vm_compute; reflexivity. Qed.

(** Three live candidates after three samples; the first of them is behind. *)
Definition raced : list Candidate :=
  (λ i : nat, mk_Candidate i "kernel" (mk_SampleSet (replicate 3 (if decide (i = 0%nat) then 30 else 10)) 0) None None true) <$> seq 0 3.
Lemma eliminate_correct_witness :
  cand_live <$> eliminate half_again raced 3 = [false; true; true] ∧
  (Nat.min 3 MIN_SURVIVORS <= live_count (eliminate half_again raced 3))%nat.
Proof.
  split; [vm_compute; reflexivity|]. apply (eliminate_correct half_again raced 3). intros d. unfold half_again.
  assert (0 <= Z.abs d / 2) by (apply Z.div_pos; lia). lia.
Defined.
