(* ===== verification/TuneCache.v ===== *)
(** * The cache of tuned keys

    [cubecl-runtime/src/tune/tune_cache.rs], and the checks of [Tuner::fastest]
    and [Tuner::check_tune] in [tuner.rs]: which tunable is the fastest for a
    key, in memory, and in the store it is hydrated from. *)

From S2P Require Export Prelude Persistence.
From stdpp Require Import list gmap strings.
#[local] Open Scope Z_scope.

Inductive ChecksumState := Match | NoMatch | ToBeVerified (checksum : string).
Inductive CacheEntry := Done (checksum : ChecksumState) (fastest_index : nat) | PendingEntry.
Inductive TuneCacheResult := Hit (fastest_index : nat) | Unchecked | Pending | Miss.

(** [autotune] *)
Definition AUTOTUNE : Text := [97; 117; 116; 111; 116; 117; 110; 101].

Section cache.
Context {K V W H : Type} `{Countable K} `{EqDecision V} `{Codec (K * string)} `{Codec V} `{Storage W H}.
(** The index a persisted value holds. *)
Context (value_index : V → nat).
Context (entries_order : gmap (K * string) V → list ((K * string) * V)).

Abbreviation PersistentStore := (Store (K * string) V H).
Record TuneCache := mk_TuneCache {
  in_memory_cache : gmap K CacheEntry;
  persistent_cache : option PersistentStore;
  table : Text;
  hydrated : bool;
  cache_generation : Z;
}.
Implicit Types (c : TuneCache) (key : K) (checksum : string).

Definition with_memory (m : gmap K CacheEntry) c : TuneCache :=
  mk_TuneCache m (persistent_cache c) (table c) (hydrated c) (cache_generation c).
Definition with_persistent (s : option PersistentStore) c : TuneCache :=
  mk_TuneCache (in_memory_cache c) s (table c) (hydrated c) (cache_generation c).
Definition with_hydrated (b : bool) c : TuneCache :=
  mk_TuneCache (in_memory_cache c) (persistent_cache c) (table c) b (cache_generation c).

Definition cache_fastest c key : TuneCacheResult :=
  match in_memory_cache c !! key with
  | None => Miss
  | Some PendingEntry => Pending
  | Some (Done (ToBeVerified _) _) => Unchecked
  | Some (Done NoMatch _) => Miss
  | Some (Done Match fastest_index) => Hit fastest_index
  end.
Definition validate_checksum key checksum c : TuneCacheResult * TuneCache :=
  match in_memory_cache c !! key with
  | None => (Miss, c)
  | Some (Done (ToBeVerified checksum_expected) i) =>
      let state := if bool_decide (checksum_expected = checksum) then Match else NoMatch in
      let c := with_memory (<[key := Done state i]> (in_memory_cache c)) c in
      (cache_fastest c key, c)
  | Some _ => (cache_fastest c key, c)
  end.
Definition mark_pending key c : TuneCache := with_memory (<[key := PendingEntry]> (in_memory_cache c)) c.
Definition cache_insert key (fastest_index : nat) c : TuneCache :=
  with_memory (<[key := Done Match fastest_index]> (in_memory_cache c)) c.

Definition reset_if_environment_switched c : M W TuneCache :=
  match persistent_cache c with
  | None => mret c
  | Some _ =>
      g ← gets generation;
      mret (if g =? cache_generation c then c
            else mk_TuneCache ∅ (persistent_cache c) (table c) false g)
  end.
(** [entry(key).or_insert(..)], for each entry that is scanned. *)
Definition hydrate_entry (m : gmap K CacheEntry) (e : (K * string) * V) : gmap K CacheEntry :=
  let '((key, checksum), value) := e in
  match m !! key with
  | Some _ => m
  | None => <[key := Done (ToBeVerified checksum) (value_index value)]> m
  end.
Definition sync_persistent c : M W (nat * TuneCache) :=
  if hydrated c then mret (0%nat, c)
  else
    match persistent_cache c with
    | None => mret (0%nat, c)
    | Some st =>
        '(l, st) ← store_scan entries_order st;
        let m := foldl hydrate_entry (in_memory_cache c) l in
        mret (length l, mk_TuneCache m (Some st) (table c) true (cache_generation c))
    end.
Definition persistent_cache_insert key checksum (value : V) c : M W (bool * TuneCache) :=
  match persistent_cache c with
  | None => mret (false, c)
  | Some st =>
      '(r, st) ← store_insert st (key, checksum) value;
      mret (match r with Ok _ => true | Err _ => false end, with_persistent (Some st) c)
  end.
(** The version of the build, and whether the cache is disabled. *)
Definition tune_cache_new (version : Text) (disable_cache : bool) (name device_id : Text) : M W TuneCache :=
  let namespace := namespace_scoped version AUTOTUNE (device_id ++ slash :: name) in
  g ← gets generation;
  if disable_cache then mret (mk_TuneCache ∅ None namespace true g)
  else
    st ← store_new (mk_StoreOptions (OfEnvironment namespace) Lazy);
    '(_, c) ← sync_persistent (mk_TuneCache ∅ (Some st) namespace false g);
    mret c.

(** [Tuner::fastest], and the first block of [Tuner::check_tune], both of which
    hold the lock of the cache. *)
Definition tuner_fastest key c : M W (TuneCacheResult * TuneCache) :=
  c ← reset_if_environment_switched c; mret (cache_fastest c key, c).
Definition check_cache key checksum c : M W (TuneCacheResult * TuneCache) :=
  c ← reset_if_environment_switched c;
  let cur := cache_fastest c key in
  '(cur, c) ← match cur with
              | Miss => '(_, c) ← sync_persistent c; mret (cache_fastest c key, c)
              | _ => mret (cur, c)
              end;
  let '(cur, c) := match cur with Unchecked => validate_checksum key checksum c | _ => (cur, c) end in
  mret (match cur with
        | Hit _ | Pending => (cur, c)
        | Miss | Unchecked => (cur, mark_pending key c)
        end).
End cache.
Arguments TuneCache K V H {_ _}.

(** ** What the cache promises *)
Section answers.
Context {K V W H : Type} `{Countable K} `{EqDecision V} `{CodecLaws (K * string)} `{CodecLaws V}.
Context `{StorageLaws W H}.
Context (value_index : V → nat).
Context (entries_order : gmap (K * string) V → list ((K * string) * V)).
Implicit Types (c : TuneCache K V H) (key : K) (checksum : string) (w : W).

(** The end of the check, on what is in memory. *)
Definition settle key checksum c : TuneCacheResult * TuneCache K V H :=
  let '(cur, c) := match cache_fastest c key with Unchecked => validate_checksum key checksum c | cur => (cur, c) end in
  match cur with
  | Hit _ | Pending => (cur, c)
  | Miss | Unchecked => (cur, mark_pending key c)
  end.
Lemma settled_key key checksum c :
  let r := settle key checksum c in
  (∀ k, k ≠ key → in_memory_cache r.2 !! k = in_memory_cache c !! k) ∧
  persistent_cache r.2 = persistent_cache c ∧ table r.2 = table c ∧ cache_generation r.2 = cache_generation c ∧
  match in_memory_cache c !! key with
  | Some (Done Match i) => r = (Hit i, c)
  | Some (Done (ToBeVerified expected) i) =>
      if decide (expected = checksum) then r.1 = Hit i ∧ in_memory_cache r.2 !! key = Some (Done Match i)
      else r.1 = Miss ∧ in_memory_cache r.2 !! key = Some PendingEntry
  | Some PendingEntry => r = (Pending, c)
  | _ => r.1 = Miss ∧ in_memory_cache r.2 !! key = Some PendingEntry
  end.
Proof.
  cbv zeta. unfold settle, validate_checksum, mark_pending, cache_fastest.
  destruct (in_memory_cache c !! key) as [[[| |expected] i|]|] eqn:Hk; cbn; rewrite ?lookup_insert_eq;
    try (split_and!; try done; intros k Hne; by rewrite ?lookup_insert_ne).
  case_bool_decide as Heq; cbn; rewrite ?lookup_insert_eq; (split; [intros k Hne; by rewrite ?lookup_insert_ne|]);
    [rewrite decide_True by done|rewrite decide_False by done]; by split_and!.
Qed.

(** Hydrating keeps what is in memory, and takes the first entry of a key. *)
Lemma foldl_hydrate (m : gmap K CacheEntry) (l : list ((K * string) * V)) key :
  foldl (hydrate_entry value_index) m l !! key =
  match m !! key with
  | Some e => Some e
  | None => (λ e : (K * string) * V, Done (ToBeVerified e.1.2) (value_index e.2)) <$> head (filter (λ e, e.1.1 = key) l)
  end.
Proof.
  revert m. induction l as [|[[k cs] v] l IH]; intros m; [cbn; by destruct (m !! key)|]. cbn [foldl]. rewrite IH, filter_cons. cbn.
  destruct (decide (k = key)) as [->|Hne].
  - destruct (m !! key) as [e|] eqn:Hk; [by rewrite ?Hk|]. by rewrite lookup_insert_eq.
  - destruct (m !! k); [done|]. by rewrite lookup_insert_ne.
Qed.

(** A cache over the store of its table, which is of the active environment, or
    of one that was active before; what is active then can be opened. *)
Definition cache_fine w c : Prop :=
  match persistent_cache c with
  | None => True
  | Some st => cache st = Lazy ∧ is_Some (storage st) ∧
      (store_fine w st ∨ outdated w st (table c) ∧
         ∀ h w', storage_open (table c) w = Some (h, w') → openable (K := K * string) Lazy (rows w' h))
  end.

(** What was scanned is what is stored, in the storage of the store if it is
    of the active environment. *)
Definition scanned w (st : option (Store (K * string) V H)) w' (l : list ((K * string) * V)) (st' : Store (K * string) V H) : Prop :=
  store_fine w' st' ∧ cache st' = Lazy ∧
  (∀ st0 h, st = Some st0 → store_fine w st0 → storage st0 = Some h → storage st' = Some h ∧ rows w' h = rows w h) ∧ ∃ h, storage st' = Some h ∧ NoDup l.*1 ∧
    (∀ k v, (k, v) ∈ l → durable (rows w' h) k = Some v) ∧
    (healthy h → ∀ k v, durable (rows w' h) k = Some v → (k, v) ∈ l).
Lemma wp_cache_scan c st w :
  cache_fine w c → persistent_cache c = Some st →
  wp (store_scan entries_order st) w (λ r w', scanned w (Some st) w' r.1 r.2).
Proof.
  unfold cache_fine. intros Hc Hst. rewrite Hst in Hc. destruct Hc as (Hlazy & [h Hh] & Hor).
  assert (∀ st w, store_fine w st → cache st = Lazy → is_Some (storage st) →
    wp (store_scan entries_order st) w (λ r w', scanned w (Some st) w' r.1 r.2)) as Hscan.
  { intros st1 w1 Hf Hl [h1 Hh1]. eapply wp_mono; [by apply (wp_scan (W := W))|]. intros r w2 ((Hf2 & Hsame & Hr) & Hall).
    split; [done|]. split; [rewrite <- Hl; apply Hsame|]. split.
    - intros st0 h0 [= <-] _ Hh0. rewrite <- Hh0. split; [apply Hsame|by apply Hr].
    - exists h1. rewrite (Hr h1 Hh1). split; [rewrite <- Hh1; apply Hsame|]. by apply Hall. }
  destruct Hor as [Hf|[Hout Hopen]]; [apply Hscan; [done|done|by eexists]|].
  assert (¬ store_fine w st) as Hnot.
  { intros (_ & Hcur & _). destruct Hout as (_ & g & Hg & Hne). by apply Hne, Hcur. }
  assert (store_scan entries_order st w = (st ← store_new (reopened st (table c)); store_scan entries_order st) w) as Heq by by apply outdated_is_new.
  unfold wp. rewrite Heq. apply wp_bind. eapply wp_mono.
  - apply wp_store_new. cbn. rewrite Hlazy. exact Hopen.
  - intros st' w' (Hf & Hl & _ & _ & His). eapply wp_mono; [apply Hscan; [done|by rewrite Hl|by apply His]|].
    intros r w2 (Hf2 & Hl2 & _ & Hrest). split; [done|]. split; [done|]. split; [|done]. by intros st0 h0 [= <-] Hf0.
Qed.

Lemma wp_reset c w :
  cache_fine w c →
  wp (reset_if_environment_switched c) w (λ c1 w1, w1 = w ∧ cache_fine w c1 ∧
    (c1 = c ∨ in_memory_cache c1 = ∅ ∧ hydrated c1 = false ∧ persistent_cache c1 = persistent_cache c ∧ generation w ≠ cache_generation c)).
Proof.
  intros Hc. unfold reset_if_environment_switched. destruct (persistent_cache c) as [st|] eqn:Hst; [|apply wp_ret; auto].
  apply wp_bind, wp_gets, wp_ret. destruct (Z.eqb_spec (generation w) (cache_generation c)) as [Heq|Hne]; [auto|].
  split; [done|]. split; [|by right]. unfold cache_fine in *. cbn. by rewrite Hst in *.
Qed.
(** What is in memory of a key after hydrating. *)
Lemma wp_sync_persistent c w key :
  cache_fine w c →
  wp (sync_persistent value_index entries_order c) w (λ r w', cache_fine w' r.2 ∧ cache_generation r.2 = cache_generation c ∧
    (∀ k e, in_memory_cache c !! k = Some e → in_memory_cache r.2 !! k = Some e) ∧
    (in_memory_cache c !! key = None → (hydrated c = true ∨ persistent_cache c = None) ∧ in_memory_cache r.2 !! key = None ∨
       ∃ l st', persistent_cache r.2 = Some st' ∧ scanned w (persistent_cache c) w' l st' ∧
         in_memory_cache r.2 !! key = (λ e : (K * string) * V, Done (ToBeVerified e.1.2) (value_index e.2)) <$> head (filter (λ e, e.1.1 = key) l))).
Proof.
  intros Hc. unfold sync_persistent. destruct (hydrated c) eqn:Hh.
  { apply wp_ret. split_and!; try done. intros Hk. left. auto. }
  destruct (persistent_cache c) as [st|] eqn:Hst.
  2: { apply wp_ret. split_and!; try done. intros Hk. left. auto. }
  apply wp_bind. eapply wp_mono; [by apply (wp_cache_scan c)|]. intros [l st'] w' Hs. apply wp_ret. cbn in *.
  pose proof Hs as (Hf & Hl & _ & h & Hh' & _). split; [|split; [done|split]].
  - unfold cache_fine. cbn. split; [done|]. split; [by eexists|by left].
  - intros k e Hk. by rewrite foldl_hydrate, Hk.
  - intros Hk. right. exists l, st'. split; [done|]. split; [done|]. by rewrite foldl_hydrate, Hk.
Qed.

(** The cache a check decides on: hydrated, if the key was a miss. *)
Definition consulted key c1 w1 (r : TuneCacheResult * TuneCache K V H) w' : Prop :=
  r.1 = cache_fastest r.2 key ∧ cache_fine w' r.2 ∧ (∀ k e, in_memory_cache c1 !! k = Some e → in_memory_cache r.2 !! k = Some e) ∧
  (cache_fastest c1 key ≠ Miss → r.2 = c1 ∧ w' = w1) ∧
  (in_memory_cache c1 !! key = None → (hydrated c1 = true ∨ persistent_cache c1 = None) ∧ in_memory_cache r.2 !! key = None ∨
     ∃ l st', persistent_cache r.2 = Some st' ∧ scanned w1 (persistent_cache c1) w' l st' ∧
       in_memory_cache r.2 !! key = (λ e : (K * string) * V, Done (ToBeVerified e.1.2) (value_index e.2)) <$> head (filter (λ e, e.1.1 = key) l)).
Lemma wp_check_cache key checksum c w (Q : TuneCacheResult * TuneCache K V H → W → Prop) :
  cache_fine w c →
  (∀ c1 r w', cache_fine w c1 → (c1 = c ∨ in_memory_cache c1 = ∅ ∧ hydrated c1 = false ∧ persistent_cache c1 = persistent_cache c ∧ generation w ≠ cache_generation c) →
    consulted key c1 w r w' → Q (settle key checksum r.2) w') →
  wp (check_cache value_index entries_order key checksum c) w Q.
Proof.
  intros Hc HQ. unfold check_cache. apply wp_bind. eapply wp_mono; [by apply wp_reset|]. intros c1 w1 (-> & Hc1 & Hor).
  apply wp_bind. eapply (wp_mono _ _ (consulted key c1 w)).
  - destruct (cache_fastest c1 key) eqn:Hf; try (apply wp_ret; unfold consulted; cbn; split_and!; try done;
      intros Hn; unfold cache_fastest in Hf; by rewrite Hn in Hf).
    apply wp_bind. eapply wp_mono; [by apply (wp_sync_persistent c1 w key)|]. intros [n c2] w2 (Hc2 & _ & Hkeep & Hnew). apply wp_ret.
    unfold consulted. cbn in *. by split_and!.
  - intros [cur c2] w2 Hcon. pose proof Hcon as (Hcur & _). cbn in Hcur. specialize (HQ c1 (cur, c2) w2 Hc1 Hor Hcon).
    cbn in HQ. unfold settle in HQ. rewrite <- Hcur in HQ. destruct cur; try exact HQ.
    destruct (validate_checksum key checksum c2) as [cur' c']. exact HQ.
Qed.

(** The check of a key.  A hit is an answer for the candidates that are asked
    about: one that was tuned here or was validated, one from before whose
    checksum is theirs, or what the store of the active environment holds under
    their checksum; it stays a hit.  A key is pending only if a tune of it is in
    flight, and then nothing changes.  Anything else is a miss, which marks the
    key as pending, and the checksum is never left unchecked.  What is in memory
    of another key stays, unless the environment was switched. *)
Theorem check_answers key checksum c w :
  cache_fine w c →
  wp (check_cache value_index entries_order key checksum c) w (λ r w',
    cache_fine w' r.2 ∧
    (generation w = cache_generation c → ∀ k e, k ≠ key → in_memory_cache c !! k = Some e → in_memory_cache r.2 !! k = Some e) ∧
    match r.1 with
    | Hit i => in_memory_cache r.2 !! key = Some (Done Match i) ∧
        (in_memory_cache c !! key = Some (Done Match i) ∨ in_memory_cache c !! key = Some (Done (ToBeVerified checksum) i) ∨
         ∃ st h v, persistent_cache r.2 = Some st ∧ storage st = Some h ∧ durable (rows w' h) (key, checksum) = Some v ∧ value_index v = i)
    | Pending => r.2 = c ∧ w' = w ∧ in_memory_cache c !! key = Some PendingEntry
    | Miss => in_memory_cache r.2 !! key = Some PendingEntry
    | Unchecked => False
    end).
Proof.
  intros Hc. apply wp_check_cache; [done|]. intros c1 [cur c2] w' Hc1 Hor (Hcur & Hc2 & Hkeep & Hsame & Hnew). cbn in *.
  destruct (settled_key key checksum c2) as (Hoth & Hper & Htab & Hgen & Hkey). set (r := settle key checksum c2) in *.
  assert (cache_fine w' r.2) as Hr by (unfold cache_fine in *; by rewrite Hper, Htab).
  assert (∀ e, in_memory_cache c2 !! key = Some e → in_memory_cache c1 !! key = None ∨ in_memory_cache c1 !! key = Some e) as Hback.
  { intros e He. destruct (in_memory_cache c1 !! key) as [e1|] eqn:He1; [right|by left]. by rewrite (Hkeep _ _ He1) in He. }
  assert (∀ e, in_memory_cache c1 !! key = Some e → in_memory_cache c !! key = Some e) as Hfirst.
  { intros e He. destruct Hor as [->|(Hemp & _)]; [done|]. by rewrite Hemp, lookup_empty in He. }
  assert (∀ cs i, in_memory_cache c2 !! key = Some (Done (ToBeVerified cs) i) → in_memory_cache c1 !! key = None →
    ∃ st h v, persistent_cache r.2 = Some st ∧ storage st = Some h ∧ durable (rows w' h) (key, cs) = Some v ∧ value_index v = i) as Hstored.
  { intros cs i Hk2 Hk1. destruct (Hnew Hk1) as [[_ Hno]|(l & st' & Hst & (_ & _ & _ & h & Hh & _ & Hin & _) & Hmem)]; [congruence|].
    rewrite Hk2 in Hmem. destruct (head _) as [[[k0 cs0] v]|] eqn:Hhd; [|done]. injection Hmem as -> ->.
    apply head_Some_elem_of, list_elem_of_filter in Hhd as [Heq Hl]. cbn in Heq. subst k0. exists st', h, v. rewrite Hper.
    split_and!; try done. by apply Hin. }
  split; [done|]. split.
  { intros Hg k e Hne He. rewrite Hoth by done. apply Hkeep. destruct Hor as [->|(_ & _ & _ & ?)]; done. }
  destruct (in_memory_cache c2 !! key) as [[[| |expected] i|]|] eqn:Hk.
  - rewrite Hkey. cbn. split; [done|]. left. destruct (Hback _ eq_refl) as [Hn|Hs]; [|by apply Hfirst].
    destruct (Hnew Hn) as [[_ ?]|(l & st' & _ & _ & Hmem)]; [congruence|]. by destruct (head _).
  - by destruct Hkey as [-> ->].
  - case_decide as Heq; [subst expected|by destruct Hkey as [-> ->]]. destruct Hkey as [-> ->]. split; [done|]. right.
    destruct (Hback _ eq_refl) as [Hn|Hs]; [right; by apply Hstored|left; by apply Hfirst].
  - rewrite Hkey. cbn. destruct (Hback _ eq_refl) as [Hn|Hs].
    + destruct (Hnew Hn) as [[_ ?]|(l & st' & _ & _ & Hmem)]; [congruence|]. by destruct (head _).
    + pose proof (Hfirst _ Hs) as Hk0. destruct Hsame as [-> ->]; [unfold cache_fastest; by rewrite Hs|].
      destruct Hor as [->|(Hemp & _)]; [done|]. by rewrite Hemp, lookup_empty in Hs.
  - by destruct Hkey as [-> ->].
Qed.

(** A cache of another process, just created over the same storage. *)
Definition restarted w h c : Prop :=
  in_memory_cache c = ∅ ∧ hydrated c = false ∧
  ∃ st, persistent_cache c = Some st ∧ storage st = Some h ∧ cache st = Lazy ∧ store_fine w st.

(** Such a cache, asked for a key with answers in the storage, knows one of
    them, and answers with it when it is one of the candidates it is asked for. *)
Lemma wp_restarted key checksum h c w stored :
  restarted w h c → healthy h → is_Some (durable (V := V) (rows w h) (key, stored)) →
  wp (check_cache value_index entries_order key checksum c) w (λ r _,
    ∃ cs v, durable (rows w h) (key, cs) = Some v ∧ r.1 = if decide (checksum = cs) then Hit (value_index v) else Miss).
Proof.
  intros (Hemp & Hhy & st & Hper & Hst & Hl & Hf) Hhe [v0 Hv0]. apply wp_check_cache.
  { unfold cache_fine. rewrite Hper. split; [done|]. split; [by eexists|by left]. }
  intros c1 [cur c2] w' _ Hor (_ & _ & _ & _ & Hnew). cbn in *.
  assert (in_memory_cache c1 = ∅ ∧ hydrated c1 = false ∧ persistent_cache c1 = Some st) as (Hemp1 & Hhy1 & Hper1).
  { destruct Hor as [->|(? & ? & ? & _)]; [done|]. by rewrite <- Hper. }
  destruct Hnew as [[[?|?] _]|(l & st' & _ & (_ & _ & Hsame & h' & Hh' & Hnd & Hin & Hall) & Hmem)]; [by rewrite Hemp1| congruence..|].
  destruct (Hsame st h Hper1 Hf Hst) as [Hh Hr]. rewrite Hh in Hh'. injection Hh' as <-. rewrite Hr in Hin, Hall. specialize (Hall Hhe).
  destruct (settled_key key checksum c2) as (_ & _ & _ & _ & Hkey). destruct (head _) as [[[k0 cs] v]|] eqn:Hhd; cbn in Hmem; rewrite Hmem in Hkey.
  - apply head_Some_elem_of, list_elem_of_filter in Hhd as [Heq Hkv%Hin]. cbn in Heq. subst k0. exists cs, v. split; [done|].
    destruct (decide (cs = checksum)) as [->|Hne]; destruct Hkey as [-> _]; [by rewrite decide_True|by rewrite decide_False].
  - exfalso. apply Hall in Hv0.
    assert (((key, stored), v0) ∈ filter (λ e : (K * string) * V, e.1.1 = key) l) as Hf' by by apply list_elem_of_filter.
    destruct (filter _ l); [by apply not_elem_of_nil in Hf'|done].
Qed.

(** C21: what was tuned is found again, by its candidates only.  In a lazy store
    whose storage works, persisting an answer under a key and a checksum that
    have none succeeds.  A process that starts over the same storage then knows
    one answer of the key: this one, or one stored before under another
    checksum, if there was any.  It is the answer to whoever asks for the key
    with its checksum, without a tune; for any other checksum the key is a
    miss. *)
Theorem tuned_survives key checksum (v : V) c st h w :
  persistent_cache c = Some st → storage st = Some h → cache st = Lazy → store_fine w st → healthy h →
  durable (V := V) (rows w h) (key, checksum) = None →
  wp (persistent_cache_insert key checksum v c) w (λ r w', r.1 = true ∧
    ∀ c2 checksum2, restarted w' h c2 →
      wp (check_cache value_index entries_order key checksum2 c2) w' (λ r2 _,
        ∃ cs v', (cs = checksum ∧ v' = v ∨ cs ≠ checksum ∧ durable (rows w h) (key, cs) = Some v') ∧
          r2.1 = if decide (checksum2 = cs) then Hit (value_index v') else Miss)).
Proof.
  intros Hper Hst Hlazy Hf Hhe Hnone. unfold persistent_cache_insert. rewrite Hper. apply wp_bind.
  eapply wp_mono.
  { apply (wp_insert_agreeing st (key, checksum) v w h Hf Hst Hhe). intros v0 Hs%settled_durable. by rewrite Hnone in Hs. }
  intros [r st'] w' (Hr & Hd & Hu & _). cbn in Hr. subst r. apply wp_ret. split; [done|]. intros c2 checksum2 Hc2.
  eapply wp_mono; [apply (wp_restarted key checksum2 h c2 w' checksum Hc2 Hhe); by eexists|].
  intros r2 w2 (cs & v' & Hv' & ->). exists cs, v'. split; [|done].
  destruct (decide (cs = checksum)) as [->|Hne]; [left; split; [done|congruence]|right; split; [done|]].
  by rewrite (untouched_durable _ _ _ _ Hu) in Hv' by (by intros [= ->]).
Qed.

(** *** Threads that share a cache *)

(** What a check does to what is in memory, in any state of the store. *)
Definition in_flight c key : Prop := in_memory_cache c !! key = Some PendingEntry ∨ ∃ i, in_memory_cache c !! key = Some (Done Match i).
Definition reset_to w c c1 : Prop := c1 = c ∨ in_memory_cache c1 = ∅ ∧ cache_generation c1 = generation w ∧ generation w ≠ cache_generation c.
(** What kind of answer it is. *)
Definition answered key c w (r : TuneCacheResult * TuneCache K V H) w' : Prop :=
  match r.1 with
  | Hit i => in_memory_cache r.2 !! key = Some (Done Match i)
  | Pending => r.2 = c ∧ w' = w
  | Miss => True
  | Unchecked => False
  end.
Lemma wp_check_memory key checksum c w :
  wp (check_cache value_index entries_order key checksum c) w (λ r w', generation w' = generation w ∧ answered key c w r w' ∧
    ∃ c1, reset_to w c c1 ∧ cache_generation r.2 = cache_generation c1 ∧ (∀ k, in_flight c1 k → in_flight r.2 k) ∧
      (r.1 = Miss → ¬ in_flight c1 key ∧ in_flight r.2 key)).
Proof.
  unfold check_cache. apply wp_bind.
  eapply (wp_mono _ _ (λ c1 w1, w1 = w ∧ reset_to w c c1)).
  { unfold reset_if_environment_switched, reset_to. destruct (persistent_cache c); [|by apply wp_ret; auto].
    apply wp_bind, wp_gets, wp_ret. destruct (Z.eqb_spec (generation w) (cache_generation c)); cbn; auto. }
  intros c1 w1 [-> Hc1]. apply wp_bind.
  eapply (wp_mono _ _ (λ r w', generation w' = generation w ∧ r.1 = cache_fastest r.2 key ∧ cache_generation r.2 = cache_generation c1 ∧
    (∀ k e, in_memory_cache c1 !! k = Some e → in_memory_cache r.2 !! k = Some e) ∧
    (in_memory_cache r.2 !! key = Some PendingEntry → r.2 = c1 ∧ w' = w ∧ in_memory_cache c1 !! key = Some PendingEntry))).
  { destruct (cache_fastest c1 key) eqn:Hf; try (by apply wp_ret). apply wp_bind. unfold sync_persistent.
    destruct (hydrated c1); [by apply wp_ret, wp_ret|]. destruct (persistent_cache c1) as [st|]; [|by apply wp_ret, wp_ret].
    apply wp_bind. eapply wp_mono; [apply wp_scan_any|]. intros [l st'] w2 Hg. apply wp_ret, wp_ret. cbn.
    split_and!; try done; [intros k e Hk; by rewrite foldl_hydrate, Hk|]. rewrite foldl_hydrate. unfold cache_fastest in Hf.
    destruct (in_memory_cache c1 !! key) as [[[| |] ?|]|]; try done. by destruct (head _). }
  intros [cur c2] w2 (Hg & Hcur & Hgen & Hkeep & Hpend). cbn in *.
  assert (∀ k, in_flight c1 k → in_flight c2 k) as Hkeep2 by (intros k [?|[i ?]]; [left|right; exists i]; by apply Hkeep).
  assert (wp (mret (settle key checksum c2)) w2 (λ r w', generation w' = generation w ∧ answered key c w r w' ∧ ∃ c1, reset_to w c c1 ∧
    cache_generation r.2 = cache_generation c1 ∧ (∀ k, in_flight c1 k → in_flight r.2 k) ∧
    (r.1 = Miss → ¬ in_flight c1 key ∧ in_flight r.2 key))) as Hend.
  { apply wp_ret. destruct (settled_key key checksum c2) as (Hoth & _ & _ & Hgen' & Hkey). set (r := settle key checksum c2) in *.
    split; [done|]. split.
    { unfold answered. destruct (in_memory_cache c2 !! key) as [[[| |expected] i|]|] eqn:Hk2; try (by destruct Hkey as [-> _]).
      - rewrite Hkey. exact Hk2.
      - case_decide; destruct Hkey as [-> ?]; done.
      - rewrite Hkey. cbn. destruct (Hpend eq_refl) as (-> & -> & Hk1). destruct Hc1 as [->|(Hemp & _)]; [done|].
        by rewrite Hemp, lookup_empty in Hk1. }
    exists c1. split; [done|]. split; [congruence|].
    assert (in_flight c2 key → r.2 = c2 ∧ r.1 ≠ Miss) as Hfl.
    { intros [Hk|[i Hk]]; rewrite Hk in Hkey; by rewrite Hkey. }
    split.
    - intros k Hk%Hkeep2. destruct (decide (k = key)) as [->|Hne]; [by destruct (Hfl Hk) as [-> _]|].
      unfold in_flight. by rewrite Hoth.
    - intros Hmiss. split; [intros Hk%Hkeep2; by apply Hfl|]. left.
      destruct (in_memory_cache c2 !! key) as [[[| |expected] i|]|]; try (by apply Hkey); [by rewrite Hkey in Hmiss| |by rewrite Hkey in Hmiss].
      case_decide; destruct Hkey as [Hr ?]; [congruence|done]. }
  unfold settle in Hend. rewrite <- Hcur in Hend. destruct cur; try exact Hend.
  destruct (validate_checksum key checksum c2) as [cur' c']. exact Hend.
Qed.

(** The cache, the world, and the tunes in flight: their key, and the
    generation of the environment they were started in. *)
Record Shared := mk_Shared { sh_cache : TuneCache K V H; sh_world : W; sh_jobs : list (K * Z) }.
Implicit Types (s : Shared).
(** A thread probes or checks a key, and starts a tune on a miss; a tune
    commits its answer, then persists it, or dies; the environment is switched
    to a generation no tune in flight is of. *)
Inductive tuner_step : Shared → Shared → Prop :=
| step_fastest key c w jobs r c' w' :
    tuner_fastest key c w = Some ((r, c'), w') → tuner_step (mk_Shared c w jobs) (mk_Shared c' w' jobs)
| step_check key checksum c w jobs r c' w' :
    check_cache value_index entries_order key checksum c w = Some ((r, c'), w') →
    tuner_step (mk_Shared c w jobs)
      (mk_Shared c' w' (match r with Miss => (key, cache_generation c') :: jobs | _ => jobs end))
| step_commit key g i c w l k : tuner_step (mk_Shared c w (l ++ (key, g) :: k)) (mk_Shared (cache_insert key i c) w (l ++ k))
| step_persist key checksum v c w jobs r c' w' :
    persistent_cache_insert key checksum v c w = Some ((r, c'), w') → generation w' = generation w →
    tuner_step (mk_Shared c w jobs) (mk_Shared c' w' jobs)
| step_die key g c w l k : tuner_step (mk_Shared c w (l ++ (key, g) :: k)) (mk_Shared c w (l ++ k))
| step_switch c w w' jobs : generation w' ∉ jobs.*2 → tuner_step (mk_Shared c w jobs) (mk_Shared c w' jobs).

Record shared_ok s : Prop := {
  sh_once : NoDup (sh_jobs s);
  sh_flying key : (key, cache_generation (sh_cache s)) ∈ sh_jobs s → in_flight (sh_cache s) key;
  sh_env : generation (sh_world s) = cache_generation (sh_cache s) ∨ generation (sh_world s) ∉ (sh_jobs s).*2;
}.
Lemma flying_insert c key i k : in_flight c k ∨ k = key → in_flight (cache_insert key i c) k.
Proof.
  unfold in_flight. cbn. destruct (decide (k = key)) as [->|Hne]; [right; exists i; by rewrite lookup_insert_eq|].
  rewrite lookup_insert_ne by done. by intros [?|?].
Qed.
(** A reset leaves no tune of its generation. *)
Lemma reset_ok s c1 :
  shared_ok s → reset_to (sh_world s) (sh_cache s) c1 →
  (generation (sh_world s) = cache_generation c1 ∨ generation (sh_world s) ∉ (sh_jobs s).*2) ∧
  ∀ key, (key, cache_generation c1) ∈ sh_jobs s → in_flight c1 key.
Proof.
  intros [Hone Hfl Henv] [->|(Hemp & Hg & Hne)]; [done|]. split; [by left|]. intros key Hin. destruct Henv as [?|Hno]; [congruence|].
  exfalso. apply Hno, list_elem_of_fmap. exists (key, cache_generation c1). split; [cbn; congruence|done].
Qed.
(** A tune that ends takes its place among those in flight with it. *)
Lemma ended_ok c c' w key g l k :
  shared_ok (mk_Shared c w (l ++ (key, g) :: k)) → cache_generation c' = cache_generation c → (∀ k', in_flight c k' → in_flight c' k') →
  shared_ok (mk_Shared c' w (l ++ k)).
Proof.
  intros [Hone Hfl Henv] Hg Hkeep. cbn in *.
  assert (sublist (l ++ k) (l ++ (key, g) :: k)) as Hsl by (apply sublist_app; [done|by apply sublist_cons]).
  pose proof (sublist_submseteq _ _ Hsl) as Hsub. split; cbn; [by eapply sublist_NoDup| |].
  - intros k' Hk. apply Hkeep, Hfl. rewrite <- Hg. by eapply elem_of_submseteq.
  - rewrite Hg. destruct Henv as [?|Hno]; [by left|right]. intros Hin. apply Hno. eapply elem_of_submseteq; [exact Hin|]. by apply fmap_submseteq.
Qed.
Lemma check_ok key checksum c w jobs r c' w' :
  shared_ok (mk_Shared c w jobs) → check_cache value_index entries_order key checksum c w = Some ((r, c'), w') →
  shared_ok (mk_Shared c' w' (match r with Miss => (key, cache_generation c') :: jobs | _ => jobs end)).
Proof.
  intros Hok Hrun. pose proof (wp_check_memory key checksum c w) as Hw. unfold wp in Hw. rewrite Hrun in Hw.
  destruct Hw as (Hg & _ & c1 & Hreset & Hgen & Hkeep & Hmiss). cbn in *. destruct (reset_ok _ c1 Hok Hreset) as [Henv' Hfl']. cbn in *.
  assert (shared_ok (mk_Shared c' w' jobs)) as Hsame.
  { split; cbn; [apply Hok| |by rewrite Hg, Hgen]. intros k Hk. rewrite Hgen in Hk. by apply Hkeep, Hfl'. }
  destruct r; try done. destruct (Hmiss eq_refl) as [Hnew Hnow]. split; cbn.
  - constructor; [|apply Hok]. rewrite Hgen. intros Hin. by apply Hnew, Hfl'.
  - intros k [[= ->]|Hk]%elem_of_cons; [done|]. by apply Hsame.
  - rewrite Hg, Hgen. destruct (decide (generation w = cache_generation c1)) as [?|Hne]; [by left|right].
    destruct Henv' as [?|Hno]; [done|]. by intros [?|?]%elem_of_cons.
Qed.
Lemma step_ok s s' : shared_ok s → tuner_step s s' → shared_ok s'.
Proof.
  intros Hok Hstep. destruct Hstep as [key c w jobs r c' w' Hrun|key checksum c w jobs r c' w' Hrun
    |key g i c w l k|key checksum v c w jobs r c' w' Hrun Hg|key g c w l k|c w w' jobs Hno].
  - assert (w' = w ∧ reset_to w c c') as [-> Hreset].
    { revert Hrun. unfold tuner_fastest, reset_if_environment_switched, reset_to, mbind, M_bind, gets, mret, M_ret.
      destruct (persistent_cache c); [|intros [= _ -> ->]; auto].
      destruct (Z.eqb_spec (generation w) (cache_generation c)); intros [= _ <- <-]; auto. }
    destruct (reset_ok _ c' Hok Hreset) as [Henv' Hfl']. split; [apply Hok|done|done].
  - by eapply check_ok.
  - eapply ended_ok; [done|done|]. intros k' Hk. apply flying_insert. by left.
  - assert (in_memory_cache c' = in_memory_cache c ∧ cache_generation c' = cache_generation c) as [Hm Hcg].
    { revert Hrun. unfold persistent_cache_insert, mbind, M_bind, mret, M_ret. destruct (persistent_cache c) as [st|]; [|by intros [= _ -> _]].
      destruct (store_insert st (key, checksum) v w) as [[[r' st'] w2]|]; [|done]. by intros [= _ <- _]. }
    destruct Hok as [Hone Hfl Henv]. cbn in *. split; cbn; [done| |by rewrite Hg, Hcg].
    intros k Hk. unfold in_flight. rewrite Hm. apply Hfl. by rewrite <- Hcg.
  - by eapply ended_ok.
  - destruct Hok as [Hone Hfl Henv]. split; cbn; [done|done|by right].
Qed.

(** C20: a key is tuned once at a time.  However threads probe, check, tune,
    commit, persist and die, and whenever the environment is switched, the tunes
    in flight are never two of a key in one environment; and while one is, and the
    environment is the one it was started in, checking its key under any checksum
    returns without starting another. *)
Theorem tuned_once s s' :
  sh_jobs s = [] → rtc tuner_step s s' →
  NoDup (sh_jobs s') ∧
  ∀ key g, (key, g) ∈ sh_jobs s' → g = cache_generation (sh_cache s') → generation (sh_world s') = g →
    ∀ checksum, wp (check_cache value_index entries_order key checksum (sh_cache s')) (sh_world s') (λ r w', r.1 ≠ Miss).
Proof.
  intros Hnone Hrun. assert (shared_ok s) as Hs.
  { split; rewrite Hnone; [constructor|intros key ?%not_elem_of_nil; done|right; apply not_elem_of_nil]. }
  assert (shared_ok s') as [Hone Hfl Henv].
  { clear Hnone. induction Hrun as [s|s s1 s2 Hstep _ IH]; [done|]. apply IH. by eapply step_ok. }
  split; [done|]. intros key g Hin -> Hg checksum. eapply wp_mono; [apply wp_check_memory|].
  intros r w' (_ & _ & c1 & [->|(_ & _ & Hne)] & _ & _ & Hmiss) Hr; [|done]. destruct (Hmiss Hr) as [Hnot _]. by apply Hnot, Hfl.
Qed.
End answers.

(** ** One key *)
Module OneKey.
Import Memory Words.
#[export] Instance key_codec : Codec (unit * string) := { encode k := k.2; decode b := Some (tt, b) }.
#[export] Instance key_codec_laws : CodecLaws (unit * string).
Proof. split. by intros [[] s]. Qed.
(** A number is as many characters. *)
Fixpoint dots (n : nat) : string := match n with O => EmptyString | S n => String (Ascii.ascii_of_nat 46) (dots n) end.
#[export] Instance index_codec : Codec nat := { encode := dots; decode b := Some (String.length b) }.
#[export] Instance index_codec_laws : CodecLaws nat.
Proof. split. intros n. cbn. f_equal. induction n as [|n IH]; [done|]. cbn. by rewrite IH. Qed.
Abbreviation OneCache := (TuneCache unit nat Text).
Definition one_store : Store (unit * string) nat Text := mk_Store ∅ ∅ (Some [1]) (Some [1]) Lazy None.
Definition fresh : OneCache := mk_TuneCache ∅ (Some one_store) [1] false 0.
Definition check (checksum : string) (c : OneCache) : M World (TuneCacheResult * OneCache) :=
  check_cache id map_to_list tt checksum c.
Lemma one_store_fine : store_fine (holding ∅) one_store.
Proof.
  assert (rows (holding ∅) [1] = ∅) as Hr by reflexivity. split; [split|split].
  - by intros [? [=]].
  - intros h [= <-]. rewrite Hr. intros b k []. by rewrite lookup_empty in *.
  - intros h k v _. cbn. by intros ?%lookup_empty_Some.
  - by intros h k v [= <-].
  - by intros g [=].
  - intros _ h [= <-]. rewrite Hr. intros b e ?%lookup_empty_Some. done.
Qed.
End OneKey.
Import Memory Words OneKey.

(** The table holds an answer under the checksum of the candidates and one
    under another checksum: the check may miss the first, and tune again. *)
Lemma stored_answer_missed :
  let w := holding {[ "now"%string := (dots 1, Local); "before"%string := (dots 2, Local) ]} in
  durable (K := unit * string) (V := nat) (rows w [1]) (tt, "before"%string) = Some 2%nat ∧
  durable (K := unit * string) (V := nat) (rows w [1]) (tt, "now"%string) = Some 1%nat ∧
  (fst ∘ fst <$> check "now" fresh w, fst ∘ fst <$> check "before" fresh w) ∈
    [(Some (Hit 1), Some Miss); (Some Miss, Some (Hit 2))].
Proof. split; [reflexivity|]. split; [reflexivity|]. vm_compute. set_solver. Qed.

Lemma check_answers_witness :
  fst ∘ fst <$> check "now" (mark_pending tt fresh) (holding ∅) = Some Pending ∧
  wp (check "now" (mark_pending tt fresh)) (holding ∅) (λ r _, r.1 ≠ Unchecked).
Proof.
  split; [vm_compute; reflexivity|]. eapply wp_mono.
  - apply (check_answers id map_to_list tt "now" (mark_pending tt fresh) (holding ∅)).
    split; [reflexivity|]. split; [by exists [1]|]. left. apply one_store_fine.
  - intros [r c] w' (_ & _ & Hr) Heq. cbn in Hr, Heq. rewrite Heq in Hr. exact Hr.
Defined.
Lemma tuned_survives_witness :
  wp (persistent_cache_insert tt "now" 3%nat fresh) (holding ∅) (λ r w', r.1 = true ∧
    ∀ c2, restarted w' [1] c2 → wp (check "now" c2) w' (λ r2 _, r2.1 = Hit 3)).
Proof.
  eapply wp_mono.
  - apply (tuned_survives id map_to_list tt "now" 3%nat fresh one_store [1] (holding ∅)); try reflexivity. apply one_store_fine.
  - intros r w' [Hr Hall]. split; [exact Hr|]. intros c2 Hc2.
    eapply wp_mono; [exact (Hall c2 "now"%string Hc2)|]. intros r2 w2 (cs & v' & [[-> ->]|[_ Hbad]] & ->); [reflexivity|].
    vm_compute in Hbad. discriminate.
Defined.
Lemma tuned_once_witness :
  let s := mk_Shared fresh (holding ∅) [] in
  ∃ s', rtc (tuner_step id map_to_list) s s' ∧ sh_jobs s' = [(tt, 0)] ∧
    wp (check "now" (sh_cache s')) (sh_world s') (λ r _, r.1 ≠ Miss).
Proof.
  destruct (check "now" fresh (holding ∅)) as [[[r c'] w']|] eqn:Hrun; [|vm_compute in Hrun; discriminate].
  exists (mk_Shared c' w' [(tt, 0)]).
  assert (rtc (tuner_step id map_to_list) (mk_Shared fresh (holding ∅) []) (mk_Shared c' w' [(tt, 0)])) as Hstep.
  { apply rtc_once. pose proof (step_check id map_to_list tt "now" fresh (holding ∅) [] r c' w' Hrun) as Hs.
    assert (r = Miss ∧ cache_generation c' = 0) as [-> Hg].
    { vm_compute in Hrun. injection Hrun as <- <- <-. split; reflexivity. }
    rewrite Hg in Hs. exact Hs. }
  split; [exact Hstep|]. split; [reflexivity|].
  destruct (tuned_once id map_to_list (mk_Shared fresh (holding ∅) []) (mk_Shared c' w' [(tt, 0)]) eq_refl Hstep) as [_ Hchk].
  apply (Hchk tt 0); [by left| |]; vm_compute in Hrun; injection Hrun as _ <- <-; reflexivity.
Defined.
