(* ===== verification/Tuner.v ===== *)
(** * The tuner

    [cubecl-runtime/src/tune/tuner.rs], the set of tunables of [operation.rs],
    and the execution of a set in [local.rs]: a key that misses the cache is
    benchmarked, the winner is committed, and what was measured is persisted.
    Logs, records and the checks of outputs are left out; so are the maps that
    give each device its tuner and its set. *)

From S2P Require Export TuneSchedule TuneCache.
From stdpp Require Import list gmap strings sorting.
#[local] Open Scope Z_scope.

(** ** The set of tunables

    A tunable is a function of its inputs; what it runs on them is an operation
    of the client.  The bounds give a limit to a key and its inputs. *)
Record TunableSet (K I Op : Type) := mk_TunableSet {
  tunables : list (Tunable K (TuneFn (I → Op)));
  key_gen : I → K;
  input_gen : K → I → I;
  limit_gen : option (K → I → option Duration);
  has_eviction : bool;
  short_circuit_enabled : bool;
}.
Arguments mk_TunableSet {K I Op}. Arguments tunables {K I Op}. Arguments key_gen {K I Op}. Arguments input_gen {K I Op}.
Arguments limit_gen {K I Op}. Arguments has_eviction {K I Op}. Arguments short_circuit_enabled {K I Op}.

Section set.
Context {K I Op : Type}.
Implicit Types (set : TunableSet K I Op) (key : K) (inputs : I).
Definition set_len set : nat := length (tunables set).
Definition set_is_empty set : bool := bool_decide (tunables set = []).
Definition set_new (key_gen : I → K) (input_gen : K → I → I) : TunableSet K I Op :=
  mk_TunableSet [] key_gen input_gen None false true.
Definition set_new_cloning_inputs (key_gen : I → K) : TunableSet K I Op := set_new key_gen (λ _ inputs, inputs).
Definition set_with (tunable : Tunable K (TuneFn (I → Op))) set : TunableSet K I Op :=
  mk_TunableSet (tunables set ++ [tunable]) (key_gen set) (input_gen set) (limit_gen set) (has_eviction set) (short_circuit_enabled set).
Definition autotunables set : list (TuneFn (I → Op)) := tunable_function <$> tunables set.
Definition set_plan set key : option TunePlan := plan_new key (tunables set).
Definition set_fastest set (fastest_index : nat) : option (TuneFn (I → Op)) := tunable_function <$> tunables set !! fastest_index.
(** The hash of the names, one after the other, in hexadecimal. *)
Definition compute_checksum (hash : string → string) set : string := hash (foldl String.append EmptyString (fn_name <$> autotunables set)).
Definition generate_key set inputs : K := key_gen set inputs.
Definition generate_inputs set key inputs : I := input_gen set key inputs.
(** A tunable on its inputs. *)
Definition bind_fn inputs (fn : TuneFn (I → Op)) : TuneFn Op := mk_TuneFn (fn_name fn) (fn_op fn inputs).
End set.

Record AutotuneConfig := mk_AutotuneConfig { bench : BenchConfig; disable_short_circuit : bool }.

Section tuner.
Context {K V Wp H Wc I Op Profile Out : Type} `{Countable K} `{EqDecision V} `{Codec (K * string)} `{Codec V}.
Context `{Storage Wp H} `{TuneClient Wc Op Profile}.
Context (value_index : V → nat) (entries_order : gmap (K * string) V → list ((K * string) * V)).
(** The value that is persisted. *)
Context (persist : nat → list AutotuneResult → option Duration → V).
Context (variance_duration : list Duration → Duration → Duration) (less_converged past_speed_factor : Duration → Duration).
Context (score : BenchmarkComputations → Z) (hash : string → string).
Context (group_order : gmap Z GroupPlan → list (Z * GroupPlan)).
Context (level_order : gmap Z (list Planned) → list (Z * list Planned)).
Context (config : AutotuneConfig).
Implicit Types (set : TunableSet K I Op) (key : K) (inputs : I) (fns : list (TuneFn Op)) (results : list AutotuneResult).

(** The cache of the tuner, the disk, and the device. *)
Record TunerWorld := mk_TunerWorld { tw_cache : TuneCache K V H; tw_disk : Wp; tw_device : Wc }.
Definition on_cache {A} (f : TuneCache K V H → M Wp (A * TuneCache K V H)) : M TunerWorld A := λ w,
  match f (tw_cache w) (tw_disk w) with
  | Some ((a, c), d) => Some (a, mk_TunerWorld c d (tw_device w))
  | None => None
  end.
Definition on_device {A} (m : M Wc A) : M TunerWorld A := λ w,
  match m (tw_device w) with
  | Some (a, d) => Some (a, mk_TunerWorld (tw_cache w) (tw_disk w) d)
  | None => None
  end.

(** *** Committing *)

(** The results of the benchmarks that are pending, one after the other. *)
Fixpoint resolve_pending (pending : list (PendingBench Profile)) results : M Wc (list AutotuneResult) :=
  match pending with
  | [] => mret results
  | b :: pending =>
      r ← resolve_bench variance_duration b;
      results ← lift (store_result results (pending_index b, r));
      resolve_pending pending results
  end.
Definition result_score (r : AutotuneResult) : Z :=
  match r with Ok o => score (outcome_computation o) | Err _ => u64_max end.
Definition scores_before (x y : AutotuneResult) : bool := result_score x <=? result_score y.
Definition first_index results : option nat :=
  r ← head results; match r with Ok o => Some (outcome_index o) | Err _ => None end.
Definition process_request key results (checksum : string) (pending : list (PendingBench Profile)) (decided : option nat)
    (limit : option Duration) : M TunerWorld TuneCacheResult :=
  results ← on_device (resolve_pending pending results);
  unmeasured ← lift (match decided with
                     | Some index => r ← results !! index; Some (match r with Ok _ => false | Err _ => true end)
                     | None => Some false
                     end);
  let results := sort_stable scores_before results in
  fastest_index ← lift (match decided with Some index => Some index | None => first_index results end);
  _ ← on_cache (λ c, mret (tt, cache_insert key fastest_index c));
  _ ← (if unmeasured : bool then mret false
       else on_cache (persistent_cache_insert key checksum (persist fastest_index results limit)));
  mret (Hit fastest_index).

(** *** The strategies *)
Definition tune_adaptive key (plan : TunePlan) fns results (checksum : string) (limit : option Duration)
    (short_circuit evictor : bool) : M TunerWorld TuneCacheResult :=
  let schedule := mk_Schedule (bench config) limit short_circuit evictor in
  '(outcome, results) ← on_device (run_plan variance_duration less_converged past_speed_factor score group_order level_order
    (plan_levels group_order plan + 2) schedule fns plan results);
  process_request key results checksum [] (plan_decided outcome) limit.

(** The tunables of a batch; the rest is not reached once one is close enough. *)
Fixpoint fixed_batch fns (limit : option Duration) (short_circuit evictor : bool) (indices : list nat)
    (st : list AutotuneResult * list (PendingBench Profile) * bool) : M Wc (list AutotuneResult * list (PendingBench Profile) * bool) :=
  match indices with
  | [] => mret st
  | index :: indices =>
      let '(results, pending, batch_success) := st in
      op ← lift (fns !! index);
      r ← tune_benchmark (bench config) op evictor;
      match r with
      | Ok profiles =>
          let b := mk_PendingBench index (fn_name op) profiles in
          if short_circuit then
            result ← resolve_bench variance_duration b;
            close_enough ← lift (match result with
                                 | Ok out => l ← limit; Some (median (outcome_computation out) <=? l)
                                 | Err _ => Some false
                                 end);
            let batch_success := batch_success || match result with Ok _ => true | Err _ => false end in
            results ← lift (store_result results (index, result));
            if close_enough : bool then mret (results, pending, batch_success)
            else fixed_batch fns limit short_circuit evictor indices (results, pending, batch_success)
          else fixed_batch fns limit short_circuit evictor indices (results, pending ++ [b], batch_success)
      | Err err =>
          results ← lift (store_result results (index, Err err));
          fixed_batch fns limit short_circuit evictor indices (results, pending, batch_success)
      end
  end.
Fixpoint fixed_loop (fuel : nat) fns (limit : option Duration) (short_circuit evictor : bool) (plan : TunePlan) results :
    M Wc (list AutotuneResult * list (PendingBench Profile)) :=
  match fuel with
  | O => panic
  | S fuel' =>
      '(indices, plan) ← lift (plan_next group_order level_order fuel plan);
      if bool_decide (indices = []) then panic
      else
        '(results, pending, batch_success) ← fixed_batch fns limit short_circuit evictor indices (results, [], false);
        if negb (bool_decide (pending = [])) || batch_success then mret (results, pending)
        else fixed_loop fuel' fns limit short_circuit evictor plan results
  end.
Definition tune_fixed_samples key (plan : TunePlan) fns results (checksum : string) (limit : option Duration)
    (short_circuit evictor : bool) : M TunerWorld TuneCacheResult :=
  '(results, pending) ← on_device (fixed_loop (plan_levels group_order plan + 2) fns limit short_circuit evictor plan results);
  process_request key results checksum pending None limit.

(** *** Tuning a key *)

(** [check_tune] after the check of the cache. *)
Definition tune set key inputs : M TunerWorld TuneCacheResult :=
  let fns := bind_fn (generate_inputs set key inputs) <$> autotunables set in
  let results : list AutotuneResult := (λ fn, Err (SkipTune (fn_name fn))) <$> fns in
  let checksum := compute_checksum hash set in
  if (length results =? 1)%nat then
    _ ← on_cache (λ c, mret (tt, cache_insert key 0 c)); mret (Hit 0)
  else
    plan ← lift (set_plan set key);
    let limit := f ← limit_gen set; f key inputs in
    let short_circuit := bool_decide (is_Some limit) && short_circuit_enabled set && negb (disable_short_circuit config) in
    if adaptive (bench config) then tune_adaptive key plan fns results checksum limit short_circuit (has_eviction set)
    else tune_fixed_samples key plan fns results checksum limit short_circuit (has_eviction set).
Definition check_tune set key inputs (checksum : string) : M TunerWorld TuneCacheResult :=
  cur ← on_cache (check_cache value_index entries_order key checksum);
  match cur with
  | Hit _ | Pending => mret cur
  | Miss | Unchecked => tune set key inputs
  end.

(** *** Executing *)
Context (launch : Op → M Wc (result Out AutotuneError)).

(** [operations.fastest(i).execute(inputs).expect(..)] *)
Definition execute_fastest set inputs (fastest_index : nat) : M TunerWorld Out :=
  fn ← lift (set_fastest set fastest_index);
  r ← on_device (launch (fn_op fn inputs));
  match r with Ok out => mret out | Err _ => panic end.
(** The first operation that runs. *)
Fixpoint execute_any fns : M TunerWorld Out :=
  match fns with
  | [] => panic
  | fn :: fns =>
      r ← on_device (launch (fn_op fn));
      match r with Ok out => mret out | Err _ => execute_any fns end
  end.
Definition execute set inputs : M TunerWorld Out :=
  let key := generate_key set inputs in
  probe ← on_cache (tuner_fastest key);
  match probe with
  | Hit fastest_index => execute_fastest set inputs fastest_index
  | _ =>
      fastest ← check_tune set key inputs (compute_checksum hash set);
      match fastest with
      | Hit fastest_index => execute_fastest set inputs fastest_index
      | Unchecked | Miss => panic
      | Pending => execute_any (bind_fn inputs <$> autotunables set)
      end
  end.
End tuner.

(** ** What the tuner promises *)
Section tuned.
Context {K V Wp H Wc I Op Profile Out : Type} `{Countable K} `{EqDecision V} `{CodecLaws (K * string)} `{CodecLaws V}.
Context `{StorageLaws Wp H} `{TuneClientLaws Wc Op Profile}.
Context (value_index : V → nat) (entries_order : gmap (K * string) V → list ((K * string) * V)).
Context (persist : nat → list AutotuneResult → option Duration → V).
Context (variance_duration : list Duration → Duration → Duration) (less_converged past_speed_factor : Duration → Duration).
Context (score : BenchmarkComputations → Z) (hash : string → string).
Context (group_order : gmap Z GroupPlan → list (Z * GroupPlan)).
Context (level_order : gmap Z (list Planned) → list (Z * list Planned)).
Context (config : AutotuneConfig).
Implicit Types (set : TunableSet K I Op) (key : K) (inputs : I) (results : list AutotuneResult) (w : TunerWorld (K := K) (V := V) (Wp := Wp) (H := H) (Wc := Wc)).

Lemma wp_on_tuner {A} (m : M Wc A) w (Q : A → TunerWorld → Prop) :
  wp m (tw_device w) (λ a d, Q a (mk_TunerWorld (tw_cache w) (tw_disk w) d)) → wp (on_device m) w Q.
Proof. unfold wp, on_device. by destruct (m (tw_device w)) as [[a d]|]. Qed.
Lemma wp_on_cache {A} (f : TuneCache K V H → M Wp (A * TuneCache K V H)) w (Q : A → TunerWorld → Prop) :
  wp (f (tw_cache w)) (tw_disk w) (λ r d, Q r.1 (mk_TunerWorld r.2 d (tw_device w))) → wp (on_cache f) w Q.
Proof. unfold wp, on_cache. by destruct (f (tw_cache w) (tw_disk w)) as [[[a c] d]|]. Qed.

(** The least of the results, once they are sorted. *)
Lemma sorted_first results i0 oc0 :
  (∀ c, score c < u64_max) → results !! i0 = Some (Ok oc0) →
  ∃ oc, first_index (sort_stable (scores_before score) results) = Some (outcome_index oc) ∧ Ok oc ∈ results ∧
    ∀ oc', Ok oc' ∈ results → score (outcome_computation oc) <= score (outcome_computation oc').
Proof.
  intros Hscore Hfirst. set (R := λ x y : AutotuneResult, result_score score x <= result_score score y).
  assert (StronglySorted R (sort_stable (scores_before score) results)) as Hs.
  { apply Sorted_StronglySorted; [intros x y z; unfold R; lia|]. apply sort_stable_sorted; unfold scores_before, R; intros x y; lia. }
  assert (∀ r, r ∈ results ↔ r ∈ sort_stable (scores_before score) results) as Hin by (intros r; by rewrite sort_stable_perm).
  apply list_elem_of_lookup_2 in Hfirst. unfold first_index.
  destruct (sort_stable (scores_before score) results) as [|r l]; [by apply Hin, not_elem_of_nil in Hfirst|]. cbn.
  assert (∀ r', r' ∈ results → R r r') as Hleast.
  { intros r' [->|Hr']%Hin%elem_of_cons; [unfold R; lia|]. inversion Hs as [|? ? _ Hall]; subst.
    exact (proj1 (Forall_forall _ _) Hall r' Hr'). }
  destruct r as [oc|e].
  - exists oc. split; [done|]. split; [apply Hin; by left|]. intros oc' Hoc'. apply (Hleast _ Hoc').
  - specialize (Hleast _ Hfirst). unfold R in Hleast. cbn in Hleast. specialize (Hscore (outcome_computation oc0)). lia.
Qed.

(** What committing leaves: the answer in memory and, if it was measured, the
    outcome of persisting it. *)
Definition committed key results (checksum : string) (limit : option Duration) w i w' : Prop :=
  in_memory_cache (tw_cache w') = <[key := Done Match i]> (in_memory_cache (tw_cache w)) ∧
  cache_generation (tw_cache w') = cache_generation (tw_cache w) ∧
  ∃ stored, persistent_cache_insert key checksum (persist i (sort_stable (scores_before score) results) limit)
    (cache_insert key i (tw_cache w)) (tw_disk w) = Some ((stored, tw_cache w'), tw_disk w').
Lemma persistent_cache_keeps key checksum v (c : TuneCache K V H) d :
  wp (persistent_cache_insert key checksum v c) d (λ r d', in_memory_cache r.2 = in_memory_cache c ∧
    cache_generation r.2 = cache_generation c).
Proof.
  unfold persistent_cache_insert. destruct (persistent_cache c) as [st|]; [|by apply wp_ret]. apply wp_bind.
  eapply wp_mono; [apply wp_insert_any|]. intros [r st'] d' _. by apply wp_ret.
Qed.
(** Committing results that are all there: the one that was decided wins, or
    the best that was measured. *)
Definition wins results (decided : option nat) (i : nat) : Prop :=
  match decided with
  | Some d => i = d
  | None => ∃ oc, i = outcome_index oc ∧ Ok oc ∈ results ∧ ∀ oc', Ok oc' ∈ results → score (outcome_computation oc) <= score (outcome_computation oc')
  end.
Lemma wp_process_request key results checksum decided limit w :
  (∀ c, score c < u64_max) → (∀ d, decided = Some d → (d < length results)%nat) →
  (decided = None → ∃ i oc, results !! i = Some (Ok oc)) →
  wp (process_request (Profile := Profile) persist variance_duration score key results checksum [] decided limit) w (λ r w',
    ∃ i, r = Hit i ∧ wins results decided i ∧ tw_device w' = tw_device w ∧
      if (match decided with Some d => match results !! d with Some (Err _) => true | _ => false end | None => false end) : bool
      then tw_disk w' = tw_disk w ∧ tw_cache w' = cache_insert key i (tw_cache w)
      else committed key results checksum limit w i w').
Proof.
  intros Hscore Hlt Hsome. unfold process_request. apply wp_bind, wp_on_tuner, wp_ret. cbn.
  set (unmeasured := match decided with Some d => match results !! d with Some (Err _) => true | _ => false end | None => false end).
  apply wp_bind. eapply (wp_lift _ unmeasured).
  { unfold unmeasured. destruct decided as [d|]; [|done]. destruct (lookup_lt_is_Some_2 results d (Hlt d eq_refl)) as [r ->]. by destruct r. }
  assert (∃ i, (match decided with Some index => Some index | None => first_index (sort_stable (scores_before score) results) end) = Some i ∧
    wins results decided i) as (i & Hi & Hwins).
  { destruct decided as [d|]; [by exists d|]. destruct (Hsome eq_refl) as (i0 & oc0 & Hi0).
    destruct (sorted_first results i0 oc0 Hscore Hi0) as (oc & -> & ? & ?). exists (outcome_index oc). split; [done|]. by exists oc. }
  apply wp_bind. eapply wp_lift; [exact Hi|]. apply wp_bind, wp_on_cache, wp_ret. cbn. apply wp_bind. destruct unmeasured.
  { apply wp_ret, wp_ret. exists i. by split_and!. }
  apply wp_on_cache. cbn. pose proof (persistent_cache_keeps key checksum (persist i (sort_stable (scores_before score) results) limit)
    (cache_insert key i (tw_cache w)) (tw_disk w)) as ([stored c'] & d' & Hrun & Hm & Hg)%wp_spec.
  apply wp_spec. exists (stored, c'), d'. split; [exact Hrun|]. unfold wp. cbn. exists i. split; [done|]. split; [done|]. split; [done|].
  split; [done|]. split; [done|]. by exists stored.
Qed.

(** *** Tuning a key *)
Context (group_order_perm : ∀ m, group_order m ≡ₚ map_to_list m).
Context (level_order_perm : ∀ m, level_order m ≡ₚ map_to_list m).
Abbreviation tune := (tune (Profile := Profile) persist variance_duration less_converged past_speed_factor score hash group_order level_order config).
Abbreviation check_tune := (check_tune (Profile := Profile) value_index entries_order persist variance_duration less_converged past_speed_factor score hash group_order
  level_order config).

(** Every tunable the plan of a key may release failed. *)
Definition all_failed set key results : Prop :=
  length results = set_len set ∧ ∀ i, eligible key (tunables set) i → ∃ e, results !! i = Some (Err e).

(** What the benchmarks of a set come to: the batches that its plan is to
    release, one after the other until one measures a tunable, with the outcome
    of that one, if any did, and the results there are then. *)
Definition set_limit set key inputs : option Duration := (f ← limit_gen set; f key inputs).
Definition set_batches set key inputs (d : Wc) : option ((option PlanOutcome * list AutotuneResult) * Wc) :=
  let fns := bind_fn (generate_inputs set key inputs) <$> autotunables set in
  let limit := set_limit set key inputs in
  tune_batches variance_duration less_converged past_speed_factor score
    (mk_Schedule (bench config) limit (bool_decide (is_Some limit) && short_circuit_enabled set && negb (disable_short_circuit config))
       (has_eviction set))
    fns (releases key (tunables set)) ((λ fn, Err (SkipTune (fn_name fn))) <$> fns) d.

(** C19: tuning a key commits a tunable that may run.  A miss is tuned
    adaptively, with several candidates, the ids of their groups distinct and
    every score below the one of a failure.  The batches the plan is to release
    are benchmarked until one measures a candidate, and that always ends.  If
    one did, the tune answers an eligible candidate that was measured: the one
    the schedule decided, or the one of the best score; it is the answer for the
    key in memory, where nothing else changes, and it is persisted with all
    results.  If none did, every eligible candidate failed; then the first that
    failed in its benchmark (the errors for no usable samples and for an unknown
    failure) is answered and kept in memory only, and the tune panics exactly
    when there is none. *)
Theorem tune_commits set key inputs w :
  ids_distinct (tunables set) → set_len set ≠ 1%nat → adaptive (bench config) = true → (∀ c, score c < u64_max) →
  ∃ o results d, set_batches set key inputs (tw_device w) = Some ((o, results), d) ∧ length results = set_len set ∧
  match tune set key inputs w with
  | Some (r, w') => ∃ i, r = Hit i ∧ eligible key (tunables set) i ∧ tw_device w' = d ∧
      in_memory_cache (tw_cache w') = <[key := Done Match i]> (in_memory_cache (tw_cache w)) ∧
      match o with
      | Some outcome => (∃ oc, results !! i = Some (Ok oc) ∧ outcome_index oc = i) ∧ wins results (plan_decided outcome) i ∧
          committed key results (compute_checksum hash set) (set_limit set key inputs) w i w'
      | None => all_failed set key results ∧ position executed_unmeasured results = Some i ∧
          tw_disk w' = tw_disk w ∧ tw_cache w' = cache_insert key i (tw_cache w)
      end
  | None => o = None ∧ all_failed set key results ∧ Forall (λ r, executed_unmeasured r = false) results
  end.
Proof.
  intros Hids Hlen Hadapt Hscore. unfold tune, set_batches. fold (set_limit set key inputs). set (fns := bind_fn _ <$> autotunables set).
  set (results0 := (λ fn, Err (SkipTune (fn_name fn))) <$> fns). set (limit := set_limit set key inputs).
  assert (length fns = set_len set ∧ length results0 = set_len set) as [Hfns Hres0].
  { unfold results0, fns, autotunables, set_len. by rewrite !length_fmap. }
  assert (∀ i oc, results0 !! i ≠ Some (Ok oc)) as Hno.
  { intros i oc. unfold results0. rewrite list_lookup_fmap. by destruct (fns !! i). }
  rewrite Hres0. rewrite (proj2 (Nat.eqb_neq _ _) Hlen), Hadapt.
  set (sc := bool_decide _ && _ && _). set (schedule := mk_Schedule (bench config) limit sc (has_eviction set)).
  destruct (run_plan_ends variance_duration less_converged past_speed_factor score schedule fns group_order level_order
    group_order_perm level_order_perm key (tunables set) results0 (tw_device w) Hids)
    as (p & o & results & d & Hp & Hbatches & Hl & Hok & Hrun); [done|congruence|..].
  { apply Forall_fmap, Forall_forall. by intros fn _. }
  exists o, results, d. split; [exact Hbatches|]. split; [congruence|].
  unfold set_plan. rewrite Hp. unfold lift at 1, mbind at 1, M_bind at 1. specialize (Hrun (plan_levels group_order p + 2)%nat (Nat.le_refl _)).
  unfold tune_adaptive. fold schedule. unfold mbind at 1, M_bind at 1, on_device at 1. cbn zeta in Hrun.
  assert (∀ i oc, results !! i = Some (Ok oc) → outcome_index oc = i ∧ eligible key (tunables set) i) as Hok'.
  { intros i oc Hi. destruct (Hok i oc Hi) as [Hbad|?]; [by apply Hno in Hbad|done]. }
  set (w1 := mk_TunerWorld (tw_cache w) (tw_disk w) d).
  assert (Hcommit := λ decided, wp_process_request key results (compute_checksum hash set) decided limit w1 Hscore).
  destruct o as [o|].
  - destruct Hrun as (-> & tried & indices & untried & Hrel & _ & (i0 & oc0 & _ & Hi0) & Hdec). cbn beta iota.
    specialize (Hcommit (plan_decided o)). apply wp_spec in Hcommit as (r & w' & Hproc & i & -> & Hwins & Hdev & Hstored);
      [|intros d0 Hd0; destruct (Hdec d0 Hd0) as (_ & oc & Hoc); by eapply lookup_lt_Some|by intros _; exists i0, oc0].
    fold w1. rewrite Hproc. exists i. split; [done|].
    assert (∃ oc, results !! i = Some (Ok oc)) as [oc Hoc].
    { destruct (plan_decided o) as [d0|] eqn:Hd0; cbn in Hwins; [subst; by apply Hdec|].
      destruct Hwins as (oc & -> & (j & Hj)%list_elem_of_lookup_1 & _). destruct (Hok' j oc Hj) as [-> _]. by exists oc. }
    destruct (Hok' i oc Hoc) as [Hidx Hel]. split; [done|]. split; [done|].
    assert (committed key results (compute_checksum hash set) limit w1 i w') as Hc.
    { destruct (plan_decided o) as [d0|]; cbn in Hwins; [|done]. subst d0. by rewrite Hoc in Hstored. }
    split; [apply Hc|]. split; [by exists oc|]. split; [done|exact Hc].
  - destruct Hrun as [[_ Hfail] Hrun].
    assert (all_failed set key results) as Hall by (split; [congruence|done]).
    destruct (position executed_unmeasured results) as [i|]; [|destruct Hrun as [-> ?]; by split_and!].
    destruct Hrun as (-> & _ & _ & j & r & [= <-] & Hri & _ & Hel & _). cbn beta iota. cbn [plan_decided].
    specialize (Hcommit (Some i)). apply wp_spec in Hcommit as (r' & w' & Hproc & j & -> & -> & Hdev & Hstored);
      [|intros d0 [= <-]; by eapply lookup_lt_Some|done].
    fold w1. rewrite Hproc. rewrite Hri in Hstored. exists i. split; [done|]. split; [done|]. split; [done|].
    destruct r as [oc|e]; [|destruct Hstored as [Hdisk Hcache]; rewrite Hcache, Hdisk; by split_and!].
    destruct Hall as [_ Hall]. destruct (Hall i Hel) as [e He]. congruence.
Qed.

(** Committing answers with what is then in memory. *)
Definition hits key (r : TuneCacheResult) w' : Prop :=
  ∃ i, r = Hit i ∧ in_memory_cache (tw_cache w') !! key = Some (Done Match i).
Lemma process_request_hits key results checksum pending decided limit w r w' :
  process_request (Profile := Profile) persist variance_duration score key results checksum pending decided limit w = Some (r, w') → hits key r w'.
Proof.
  unfold process_request. unfold mbind, M_bind.
  destruct (on_device _ w) as [[results' w1]|]; [|done]. unfold lift at 1.
  destruct (match decided with Some _ => _ | None => _ end) as [unmeasured|]; [|done]. unfold lift at 1.
  destruct (match decided with Some _ => _ | None => _ end) as [i|]; [|done]. unfold on_cache at 1, mret at 1, M_ret at 1. cbn.
  destruct unmeasured; cbn.
  { intros [= <- <-]. exists i. split; [done|]. apply lookup_insert_eq. }
  unfold on_cache. cbn. set (v := persist i _ limit).
  pose proof (persistent_cache_keeps key checksum v (cache_insert key i (tw_cache w1)) (tw_disk w1)) as ([stored c'] & d' & Hrun & Hm & _)%wp_spec.
  rewrite Hrun. intros [= <- <-]. exists i. split; [done|]. cbn in Hm |- *. rewrite Hm. apply lookup_insert_eq.
Qed.
Lemma tune_hits set key inputs w r w' : tune set key inputs w = Some (r, w') → hits key r w'.
Proof.
  unfold tune. destruct (length _ =? 1)%nat.
  { unfold mbind, M_bind, on_cache, mret, M_ret. cbn. intros [= <- <-]. exists 0%nat. split; [done|]. apply lookup_insert_eq. }
  unfold mbind at 1, M_bind at 1, lift. destruct (set_plan set key) as [plan|]; [|done]. destruct (adaptive (bench config)).
  - unfold tune_adaptive. unfold mbind at 1, M_bind at 1. destruct (on_device _ w) as [[[o results] w1]|]; [|done]. apply process_request_hits.
  - unfold tune_fixed_samples. unfold mbind at 1, M_bind at 1. destruct (on_device _ w) as [[[results pending] w1]|]; [|done].
    apply process_request_hits.
Qed.

(** A key that is asked for is answered.  When it returns, whatever the
    strategy, the check of a key answers with a tunable, or that a tune of it is in
    flight, in which case nothing ran and nothing changed; never that it is
    unchecked or missing.  The answer is then in memory, so that it is given again
    without touching the device for as long as the environment is not switched. *)
Theorem check_tune_answers set key inputs checksum w r w' :
  check_tune set key inputs checksum w = Some (r, w') →
  (∃ i, r = Hit i ∧ in_memory_cache (tw_cache w') !! key = Some (Done Match i) ∧
     ∀ w2, tw_cache w2 = tw_cache w' → generation (tw_disk w2) = cache_generation (tw_cache w2) →
       check_tune set key inputs checksum w2 = Some (Hit i, w2)) ∨
  r = Pending ∧ w' = w.
Proof.
  intros Hrun.
  assert (hits key r w' ∨ r = Pending ∧ w' = w) as [(i & -> & Hi)|?]; [|left|by right].
  - revert Hrun. unfold check_tune. unfold mbind at 1, M_bind at 1, on_cache at 1.
    pose proof (wp_check_memory value_index entries_order key checksum (tw_cache w) (tw_disk w)) as ([cur c'] & d' & Hchk & _ & Hans & _)%wp_spec.
    rewrite Hchk. unfold answered in Hans. cbn in Hans. destruct cur as [i| | |].
    + intros [= <- <-]. left. exists i. cbn. by split.
    + done.
    + intros [= <- <-]. right. split; [done|]. destruct Hans as [-> ->]. by destruct w.
    + intros Ht%tune_hits. by left.
  - exists i. split; [done|]. split; [done|]. intros w2 Hc Hg. unfold check_tune, mbind, M_bind, on_cache, check_cache, reset_if_environment_switched.
    assert (cache_fastest (tw_cache w2) key = Hit i) as Hf by (unfold cache_fastest; by rewrite Hc, Hi).
    destruct (persistent_cache (tw_cache w2)) as [st|] eqn:Hst.
    + unfold mbind, M_bind, gets, mret, M_ret. rewrite Hg, Z.eqb_refl, Hf. by destruct w2.
    + unfold mbind, M_bind, mret, M_ret. rewrite Hf. by destruct w2.
Qed.
End tuned.

(** ** One key, tuned *)
Module OneTuner.
Import Memory Words OneKey Steady.
Abbreviation Set1 := (TunableSet unit unit Kernel).
Definition named (name : string) (k : Kernel) : Tunable unit (TuneFn (unit → Kernel)) := tunable_new (mk_TuneFn name (λ _, k)).
Definition set_of (ks : list (Tunable unit (TuneFn (unit → Kernel)))) : Set1 := foldl (λ s t, set_with t s) (set_new_cloning_inputs (λ _, tt)) ks.
Definition config_of (adaptive : bool) : AutotuneConfig := mk_AutotuneConfig (mk_BenchConfig 3 10 2 adaptive) false.
Definition world1 : TunerWorld (K := unit) (V := nat) (Wp := Memory.World) (H := Text) (Wc := nat) := mk_TunerWorld fresh (holding ∅) 0%nat.
Definition tune1 (adaptive : bool) (s : Set1) :=
  tune (Profile := option Duration) (λ i _ _, i) no_variance (λ d, d / 2) half_again (λ c, Z.min (min_duration c) 1000) id map_to_list map_to_list (config_of adaptive) s tt tt.
Definition check1 (adaptive : bool) (s : Set1) (checksum : string) :=
  check_tune (Profile := option Duration) id map_to_list (λ i _ _, i) no_variance (λ d, d / 2) half_again (λ c, Z.min (min_duration c) 1000) id map_to_list map_to_list
    (config_of adaptive) s tt tt checksum.
Definition two : Set1 := set_of [named "a" (Runs 30); named "b" (Runs 10)].
End OneTuner.
Import Memory Words OneKey Steady OneTuner.

(** The faster of two is answered, and answered again without running. *)
Lemma faster_answered :
  ('(r, w) ← check1 true two "ab"%string world1; '(r2, w2) ← check1 true two "ab"%string w;
   Some (r, r2, bool_decide (tw_device w = 0%nat), bool_decide (tw_device w = tw_device w2))) = Some (Hit 1, Hit 1, false, true).
Proof. vm_compute. reflexivity. Qed.
(** The names are hashed one after the other, so sets of other tunables have the
    same checksum, and an answer of one is given for the other. *)
Lemma checksum_ambiguous :
  compute_checksum id two = compute_checksum id (set_of [named "ab" (Runs 30)]) ∧
  ('(_, w) ← check1 true two "ab"%string world1;
   '(_, w2) ← check1 true (set_of [named "ab" (Runs 30)]) "ab"%string (mk_TunerWorld fresh (tw_disk w) 0%nat);
   Some (cache_fastest (tw_cache w2) tt, set_fastest (set_of [named "ab" (Runs 30)]) 1)) = Some (Hit 1, None).
Proof. split; vm_compute; reflexivity. Qed.
(** When a benchmark breaks the adaptive tune decides its tunable, the one
    with a fixed number of samples panics. *)
Lemma fixed_panics_adaptive_decides :
  (fst <$> check1 true (set_of [named "a" (Breaks "busy"); named "b" (Refuses (SkipTune "b"))]) "ab"%string world1,
   fst <$> check1 false (set_of [named "a" (Breaks "busy"); named "b" (Refuses (SkipTune "b"))]) "ab"%string world1) = (Some (Hit 0), None).
Proof. vm_compute. reflexivity. Qed.

Lemma tune_commits_witness :
  match tune1 true two world1 with
  | Some (r, w') => ∃ i, r = Hit i ∧ eligible tt (tunables two) i
  | None => False
  end.
Proof.
  pose proof (tune_commits (λ i _ _, i) no_variance (λ d, d / 2) half_again (λ c, Z.min (min_duration c) 1000) id map_to_list map_to_list
    (config_of true) (λ _, reflexivity _) (λ _, reflexivity _) two tt tt world1) as Ht.
  fold tune1 in Ht. unfold tune1. destruct Ht as (o & results & d & _ & _ & Ht).
  - intros t t' m m' Ht1 Ht2. unfold two in Ht1. cbn in Ht1. repeat (apply elem_of_cons in Ht1 as [->|Ht1]); try (cbn; set_solver).
  - done.
  - reflexivity.
  - intros c. lia.
  - destruct (tune _ _ _ _ _ _ _ _ _ _ _ _ world1) as [[r w']|] eqn:Hrun; [|vm_compute in Hrun; discriminate].
    destruct Ht as (i & Hr & Hel & _). exists i. split; assumption.
Defined.
Lemma check_tune_answers_witness :
  ∃ r w', check1 true two "ab" world1 = Some (r, w') ∧ ((∃ i, r = Hit i ∧ in_memory_cache (tw_cache w') !! tt = Some (Done Match i)) ∨ r = Pending).
Proof.
  destruct (check1 true two "ab" world1) as [[r w']|] eqn:Hrun; [|vm_compute in Hrun; discriminate].
  exists r, w'. split; [reflexivity|].
  destruct (check_tune_answers id map_to_list (λ i _ _, i) no_variance (λ d, d / 2) half_again (λ c, Z.min (min_duration c) 1000) id map_to_list
    map_to_list (config_of true) two tt tt "ab"%string world1 r w' Hrun) as [(i & Hr & Hi & _)|[Hr _]]; [left; exists i; split; assumption|right; exact Hr].
Defined.
