(* ===== verification/SharedMemory.v ===== *)
(** * Shared memory of a kernel

    [cubecl-opt/src/analyses/liveness.rs] and
    [cubecl-opt/src/passes/alloc_shared_memory.rs]: every shared variable of a
    kernel gets a slice of one block.  The operations of the kernel, in the
    order they are walked, and the sizes of types are given; the operations of
    the pass are what it inserts and replaces. *)

From S2P Require Export Prelude.
From stdpp Require Import list gmap sorting.
#[local] Open Scope Z_scope.

Inductive AddressSpace := Global (id : Z) | Shared | Local.
#[global] Instance AddressSpace_eq_dec : EqDecision AddressSpace.
Proof. solve_decision. Defined.

Record MemoryResource (Ty : Type) := mk_MemoryResource {
  resource_space : AddressSpace;
  resource_ty : Ty;
  resource_alignment : Z;
  root_ptr : Z;
}.
Arguments mk_MemoryResource {Ty}. Arguments resource_space {Ty}. Arguments resource_ty {Ty}.
Arguments resource_alignment {Ty}. Arguments root_ptr {Ty}.
Record SmemAllocation (Ty : Type) := mk_SmemAllocation {
  smem_value : Z;
  smem_ty : Ty;
  smem : MemoryResource Ty;
  smem_offset : Z;
}.
Arguments mk_SmemAllocation {Ty}. Arguments smem_value {Ty}. Arguments smem_ty {Ty}. Arguments smem {Ty}. Arguments smem_offset {Ty}.
Record SharedLiveness (Ty : Type) := mk_SharedLiveness {
  shared_memories : gmap Z (MemoryResource Ty);
  allocations : gmap Z (SmemAllocation Ty);
}.
Arguments mk_SharedLiveness {Ty}. Arguments shared_memories {Ty}. Arguments allocations {Ty}.
(** [DeclareVariableOp] and the operations the analysis passes over. *)
Inductive Operation (Ty : Type) := DeclareVariable (space : AddressSpace) (value_ty : Ty) (alignment result : Z) | OtherOperation.
Arguments DeclareVariable {Ty}. Arguments OtherOperation {Ty}.
(** [AllocSharedOp], and a [SliceSharedOp] in the place of each declaration. *)
Record SliceShared (Ty : Type) := mk_SliceShared { slice_declaration : Z; slice_offset : Z; slice_ty : Ty }.
Arguments mk_SliceShared {Ty}. Arguments slice_declaration {Ty}. Arguments slice_offset {Ty}. Arguments slice_ty {Ty}.
Record SharedBlock (Ty : Type) := mk_SharedBlock { block_size : Z; block_alignment : Z; block_slices : list (SliceShared Ty) }.
Arguments mk_SharedBlock {Ty}. Arguments block_size {Ty}. Arguments block_alignment {Ty}. Arguments block_slices {Ty}.

(** The order of [sort_by_key]. *)
Definition by_offset {Ty} (a a' : SmemAllocation Ty) : Prop := smem_offset a <= smem_offset a'.
#[global] Instance by_offset_dec {Ty} (a a' : SmemAllocation Ty) : Decision (by_offset a a') := Z_le_dec _ _.

Section shared.
Context {Ty : Type} (type_size : Ty → Z).
(** The order the values of the hash map are walked in. *)
Context (values : gmap Z (SmemAllocation Ty) → list (SmemAllocation Ty)).
Implicit Types (a : SmemAllocation Ty) (l : list (SmemAllocation Ty)).

Definition resource_size (r : MemoryResource Ty) : Z := type_size (resource_ty r).
Definition smem_size a : Z := resource_size (smem a).
Definition smem_end a : option Z := add_u64 (smem_offset a) (smem_size a).

Fixpoint find_gap (slice_0 : SmemAllocation Ty) (rest : list (SmemAllocation Ty)) (size align : Z) : option Z :=
  end_0 ← smem_end slice_0;
  end_0 ← next_multiple_of end_0 align;
  match rest with
  | [] => Some end_0
  | slice_1 :: rest => if size <=? sat_sub (smem_offset slice_1) end_0 then Some end_0 else find_gap slice_1 rest size align
  end.
Definition allocate_slice (st : SharedLiveness Ty) (size align : Z) : option Z :=
  match merge_sort by_offset (values (allocations st)) with
  | [] => Some 0
  | slice_0 :: rest => find_gap slice_0 rest size align
  end.
Definition visit_declaration (r : MemoryResource Ty) (st : SharedLiveness Ty) : option (SharedLiveness Ty) :=
  let st := mk_SharedLiveness (<[root_ptr r := r]> (shared_memories st)) (allocations st) in
  if decide (is_Some (allocations st !! root_ptr r)) then Some st
  else
    offset ← allocate_slice st (resource_size r) (resource_alignment r);
    Some (mk_SharedLiveness (shared_memories st)
      (<[root_ptr r := mk_SmemAllocation (root_ptr r) (resource_ty r) r offset]> (allocations st))).
Definition visit_operation (op : Operation Ty) (st : SharedLiveness Ty) : option (SharedLiveness Ty) :=
  match op with
  | DeclareVariable space value_ty alignment result =>
      if decide (space = Shared) then visit_declaration (mk_MemoryResource Shared value_ty alignment result) st else Some st
  | OtherOperation => Some st
  end.
Fixpoint visit_operations (ops : list (Operation Ty)) (st : SharedLiveness Ty) : option (SharedLiveness Ty) :=
  match ops with [] => Some st | op :: ops => st ← visit_operation op st; visit_operations ops st end.
Definition compute (ops : list (Operation Ty)) : option (SharedLiveness Ty) :=
  visit_operations ops (mk_SharedLiveness ∅ ∅).

Definition max_of (l : list Z) : Z := foldr Z.max 0 l.
Definition slice_of a : SliceShared Ty := mk_SliceShared (smem_value a) (smem_offset a) (smem_ty a).
(** [None] inside when the kernel declares no shared memory: nothing changes. *)
Definition allocate_block (st : SharedLiveness Ty) : option (option (SharedBlock Ty)) :=
  let allocs := values (allocations st) in
  if decide (allocations st = ∅) then Some None
  else
    ends ← mapM smem_end allocs;
    Some (Some (mk_SharedBlock (max_of ends) (max_of ((λ a, resource_alignment (smem a)) <$> allocs)) (slice_of <$> allocs))).
End shared.

(** ** Gaps *)
Section gaps.
Context {Ty : Type} (type_size : Ty → Z).
Implicit Types (a : SmemAllocation Ty) (l : list (SmemAllocation Ty)).
Abbreviation size_of := (smem_size type_size).
(** The [n] bytes at [o] and those of a slice have none in common. *)
Definition outside (o n : Z) a : Prop := o + n <= smem_offset a ∨ smem_offset a + size_of a <= o.
Definition below a a' : Prop := smem_offset a + size_of a <= smem_offset a'.
Definition within (bound : Z) a : Prop := 0 <= smem_offset a ∧ 1 <= size_of a ∧ smem_offset a + size_of a <= bound.
Lemma find_gap_spec a l size align bound :
  StronglySorted below (a :: l) → Forall (within bound) (a :: l) → 1 <= size → 0 < align → bound + align <= u64_max →
  ∃ o, find_gap type_size a l size align = Some o ∧ smem_offset a + size_of a <= o ∧ o < bound + align ∧ (align | o) ∧
    Forall (outside o size) (a :: l).
Proof.
  intros Hs Hf Hn Ha Hb. revert a Hs Hf. induction l as [|a' l IH]; intros a Hs Hf; cbn [find_gap];
    apply Forall_cons in Hf as [(H0 & H1 & H2) Hf]; unfold smem_end; rewrite add_u64_Some by lia; cbn;
    (destruct (next_multiple_of_spec (smem_offset a + size_of a) align) as (o & Ho & [Hle Hlt] & Hd); [lia|lia|lia|]); rewrite Ho; cbn.
  - exists o. split_and!; [done|lia|lia|done|]. constructor; [right; lia|done].
  - apply StronglySorted_inv in Hs as [Hs Hall]. apply Forall_cons in Hall as [Haa' _].
    destruct (Z.leb_spec size (sat_sub (smem_offset a') o)) as [Hg|Hg].
    + exists o. unfold sat_sub in Hg. split_and!; [done|lia|lia|done|]. constructor; [right; lia|].
      apply StronglySorted_inv in Hs as [_ Hs]. apply Forall_cons in Hf as [(_ & ? & _) _]. constructor; [left; lia|].
      eapply Forall_impl; [exact Hs|]. unfold below. intros x Hx. left. lia.
    + destruct (IH a' Hs Hf) as (o' & Ho' & Hle' & Hlt' & Hd' & Hout). unfold below in Haa'. apply Forall_cons in Hf as [(_ & ? & _) _].
      exists o'. split_and!; [done|lia|done|done|]. constructor; [right; lia|done].
Qed.
(** Slices that are pairwise disjoint lie below one another in the order of their offsets. *)
Definition apart a a' : Prop := a = a' ∨ outside (smem_offset a) (size_of a) a'.
Lemma sorted_below l bound :
  NoDup l → StronglySorted by_offset l → Forall (within bound) l → (∀ a a', a ∈ l → a' ∈ l → apart a a') → StronglySorted below l.
Proof.
  induction l as [|a l IH]; intros Hnd Hs Hf Hd; [constructor|]. apply NoDup_cons in Hnd as [Hn Hnd]. apply StronglySorted_inv in Hs as [Hs Hall].
  apply Forall_cons in Hf as [(H0 & H1 & _) Hf]. constructor; [apply IH; [done..|]; intros; apply Hd; by right|].
  rewrite Forall_forall in *. intros a' Ha'. specialize (Hall a' Ha'). destruct (Hf a' Ha') as (_ & ? & _). unfold by_offset in Hall.
  destruct (Hd a a') as [->|[Hlt|Hlt]]; [by left|by right|done|exact Hlt|lia].
Qed.
End gaps.

(** ** The slices of a kernel *)
Section slices.
Context {Ty : Type} (type_size : Ty → Z).
Context (values : gmap Z (SmemAllocation Ty) → list (SmemAllocation Ty)).
Context (values_perm : ∀ m, values m ≡ₚ (map_to_list m).*2).
Abbreviation size_of := (smem_size type_size).
(** What a declaration asks for. *)
Definition declared (op : Operation Ty) : option (MemoryResource Ty) :=
  match op with
  | DeclareVariable Shared value_ty alignment result => Some (mk_MemoryResource Shared value_ty alignment result)
  | _ => None
  end.
Definition declarations (ops : list (Operation Ty)) : list (MemoryResource Ty) := omap declared ops.
Definition room (rs : list (MemoryResource Ty)) : Z := sum_Z ((λ r, resource_size type_size r + resource_alignment r) <$> rs).
Definition resource_ok (r : MemoryResource Ty) : Prop := 1 <= resource_size type_size r ∧ ∃ k, 0 <= k ∧ resource_alignment r = 2 ^ k.
Lemma resource_align_pos r : resource_ok r → 0 < resource_alignment r.
Proof. intros [_ (k & Hk & ->)]. lia. Qed.
Lemma room_nonneg rs : Forall resource_ok rs → 0 <= room rs.
Proof.
  intros Hf. unfold room. apply sum_Z_nonneg. rewrite Forall_fmap. eapply Forall_impl; [exact Hf|]. intros r Hr.
  pose proof (resource_align_pos r Hr). destruct Hr as [? _]. cbn. lia.
Qed.
Record slices_ok (rs : list (MemoryResource Ty)) (m : gmap Z (SmemAllocation Ty)) : Prop := mk_slices_ok {
  slice_at : ∀ k a, m !! k = Some a → smem_value a = k ∧ smem_ty a = resource_ty (smem a) ∧ root_ptr (smem a) = k ∧ smem a ∈ rs ∧
    within type_size (room rs) a ∧ (resource_alignment (smem a) | smem_offset a);
  slice_apart : ∀ k k' a a', m !! k = Some a → m !! k' = Some a' → k ≠ k' → outside type_size (smem_offset a) (size_of a) a';
  slice_all : ∀ r, r ∈ rs → is_Some (m !! root_ptr r);
}.
Lemma values_elem m a : a ∈ values m ↔ ∃ k, m !! k = Some a.
Proof.
  rewrite (elem_of_Permutation_proper a _ _ (values_perm m)), list_elem_of_fmap. split.
  - intros ([k a'] & -> & Hk%elem_of_map_to_list). by exists k.
  - intros [k Hk]. exists (k, a). split; [done|]. by apply elem_of_map_to_list.
Qed.
Lemma values_nodup rs m : slices_ok rs m → NoDup (values m).
Proof.
  intros [Hat _ _]. rewrite values_perm. apply NoDup_fmap_2_strong; [|apply NoDup_map_to_list].
  intros [k a] [k' a'] Hk%elem_of_map_to_list Hk'%elem_of_map_to_list Heq. cbn in Heq. subst a'.
  destruct (Hat k a Hk) as [<- _]. by destruct (Hat k' a Hk') as [<- _].
Qed.
Lemma allocate_slice_spec rs m mems size align :
  slices_ok rs m → Forall resource_ok rs → 1 <= size → 0 < align → room rs + size + align <= u64_max →
  ∃ o, allocate_slice type_size values (mk_SharedLiveness mems m) size align = Some o ∧ 0 <= o ∧ o + size <= room rs + size + align ∧
    (align | o) ∧ ∀ k a, m !! k = Some a → outside type_size o size a.
Proof.
  intros Hok Hrs Hn Ha Hb. pose proof (room_nonneg rs Hrs) as Hr. unfold allocate_slice. cbn.
  set (l := merge_sort by_offset (values m)). assert (l ≡ₚ values m) as Hp by apply merge_sort_Permutation.
  assert (Forall (within type_size (room rs)) l) as Hf.
  { rewrite Hp, Forall_forall. intros a [k Hk]%values_elem. by destruct (slice_at _ _ Hok k a Hk) as (_ & _ & _ & _ & ? & _). }
  assert (StronglySorted (below type_size) l) as Hs.
  { apply (sorted_below type_size l (room rs)); [rewrite Hp; by eapply values_nodup| |done|].
    - apply StronglySorted_merge_sort; [unfold by_offset; intros ???; lia|intros a a'; unfold by_offset; lia].
    - intros a a'. rewrite Hp, !values_elem. intros [k Hk] [k' Hk']. destruct (decide (k = k')) as [<-|Hne]; [left; congruence|].
      right. by eapply slice_apart. }
  clearbody l. destruct l as [|a l0].
  - exists 0. split_and!; [done|lia|lia|apply Z.divide_0_r|]. intros k a Hk. assert (a ∈ values m) as Hin by (apply values_elem; by exists k).
    rewrite <- Hp in Hin. by apply elem_of_nil in Hin.
  - destruct (find_gap_spec type_size a l0 size align (room rs)) as (o & Ho & Hle & Hlt & Hd & Hout); [done..|lia|].
    apply Forall_cons in Hf as [(? & ? & _) _]. exists o. split_and!; [done|lia|lia|done|]. intros k a' Hk.
    rewrite Forall_forall in Hout. apply Hout. rewrite Hp. apply values_elem. by exists k.
Qed.
Lemma room_snoc rs r : room (rs ++ [r]) = room rs + (resource_size type_size r + resource_alignment r).
Proof. unfold room. rewrite fmap_app, sum_Z_app. cbn. lia. Qed.
Lemma outside_sym a a' : outside type_size (smem_offset a) (size_of a) a' → outside type_size (smem_offset a') (size_of a') a.
Proof. unfold outside. lia. Qed.
Lemma visit_declaration_spec rs st r :
  slices_ok rs (allocations st) → Forall resource_ok (rs ++ [r]) → root_ptr r ∉ root_ptr <$> rs → room (rs ++ [r]) <= u64_max →
  ∃ st', visit_declaration type_size values r st = Some st' ∧ slices_ok (rs ++ [r]) (allocations st').
Proof.
  intros Hok [Hrs Hr]%Forall_app Hnew Hb. rewrite Forall_singleton in Hr. rewrite room_snoc in Hb. pose proof (resource_align_pos r Hr) as Ha.
  assert (allocations st !! root_ptr r = None) as Hnone.
  { destruct (allocations st !! root_ptr r) as [a|] eqn:E; [|done]. destruct (slice_at _ _ Hok _ _ E) as (_ & _ & Hroot & Hin & _).
    destruct Hnew. apply list_elem_of_fmap. by exists (smem a). }
  unfold visit_declaration. rewrite decide_False by (cbn; rewrite Hnone; by intros [? ?]). cbn.
  destruct (allocate_slice_spec rs (allocations st) (<[root_ptr r:=r]> (shared_memories st)) (resource_size type_size r) (resource_alignment r)) as (o & Ho & H0 & Hend & Hd & Hout);
    [done|done|apply Hr|done|lia|].
  rewrite Ho. cbn. eexists. split; [done|]. cbn. pose proof (proj1 Hr) as Hsize. pose proof (room_nonneg rs Hrs) as Hnn. split.
  - intros k a [[<- <-]|[Hne Hk]]%lookup_insert_Some; cbn.
    + split_and!; [done|done|done|rewrite elem_of_app; right; by left| |done]. unfold within. cbn. unfold smem_size. cbn. rewrite room_snoc. lia.
    + destruct (slice_at _ _ Hok k a Hk) as (? & ? & ? & ? & (? & ? & ?) & ?). split_and!; [done|done|done|rewrite elem_of_app; by left| |done].
      unfold within. rewrite room_snoc. lia.
  - intros k k' a a' [[<- <-]|[Hne Hk]]%lookup_insert_Some [[<- <-]|[Hne' Hk']]%lookup_insert_Some Hkk; [done| | |].
    + by apply (Hout k').
    + apply outside_sym. by apply (Hout k).
    + by eapply slice_apart.
  - intros r' [Hin|Hin%list_elem_of_singleton]%elem_of_app; [|subst r'; rewrite lookup_insert_eq; by eexists].
    destruct (decide (root_ptr r = root_ptr r')) as [->|Hne]; [rewrite lookup_insert_eq; by eexists|].
    rewrite lookup_insert_ne by done. by apply (slice_all _ _ Hok).
Qed.
Lemma visit_operations_spec ops rs st :
  slices_ok rs (allocations st) → Forall resource_ok (rs ++ declarations ops) → NoDup (root_ptr <$> rs ++ declarations ops) →
  room (rs ++ declarations ops) <= u64_max →
  ∃ st', visit_operations type_size values ops st = Some st' ∧ slices_ok (rs ++ declarations ops) (allocations st').
Proof.
  revert rs st. induction ops as [|op ops IH]; intros rs st Hok Hf Hnd Hb.
  { unfold declarations in *. cbn in *. rewrite app_nil_r. by exists st. }
  assert (declarations (op :: ops) = match declared op with Some r => r :: declarations ops | None => declarations ops end) as Hd by (by unfold declarations; cbn; destruct (declared op)).
  rewrite Hd in *. cbn [visit_operations]. destruct (declared op) as [r|] eqn:Hr.
  - assert (visit_operation type_size values op st = visit_declaration type_size values r st) as -> by (destruct op as [[]|]; [done|by injection Hr as <-|done..]).
    rewrite (cons_middle r), app_assoc in *. destruct (visit_declaration_spec rs st r) as (st' & -> & Hok').
    + done.
    + by apply Forall_app in Hf as [? _].
    + rewrite !fmap_app in Hnd. apply NoDup_app in Hnd as (Hnd & _ & _). apply NoDup_app in Hnd as (_ & Hnd & _).
      intros Hin. apply (Hnd _ Hin). by left.
    + unfold room in *. rewrite fmap_app, sum_Z_app in Hb. apply Forall_app in Hf as [_ Hf]. pose proof (room_nonneg _ Hf). unfold room in *. lia.
    + cbn. by apply IH.
  - assert (visit_operation type_size values op st = Some st) as -> by (destruct op as [[]|]; done). cbn. by apply IH.
Qed.
Lemma max_of_elem (l : list Z) x : x ∈ l → x <= max_of l.
Proof. unfold max_of. induction 1 as [x' l'|x' y' l' _ IH]; cbn [foldr]; lia. Qed.
Definition power (x : Z) : Prop := ∃ k, 0 <= k ∧ x = 2 ^ k.
Lemma max_of_power (l : list Z) x : Forall power l → x ∈ l → (x | max_of l).
Proof.
  intros Hl Hx. assert (max_of l = 0 ∨ power (max_of l)) as Hm.
  { clear Hx. induction Hl as [|y l0 Hy _ IH]; [by left|right]. change (max_of (y :: l0)) with (Z.max y (max_of l0)).
    destruct IH as [->|IH]; [|by destruct (Z.max_spec y (max_of l0)) as [[_ ->]|[_ ->]]].
    destruct Hy as (k & Hk & ->). exists k. pose proof (Z.pow_nonneg 2 k). lia. }
  pose proof (max_of_elem l x Hx) as Hle. rewrite Forall_forall in Hl. destruct (Hl x Hx) as (j & Hj & ->). destruct Hm as [Hm|(k & Hk & Hm)].
  - pose proof (Z.pow_pos_nonneg 2 j). lia.
  - rewrite Hm in *. apply Z.pow_le_mono_r_iff in Hle; [|lia..]. exists (2 ^ (k - j)). rewrite <- Z.pow_add_r by lia. f_equal. lia.
Qed.

(** What the slices of the block say. *)
Lemma slice_entry rs m k o ty : slices_ok rs m → mk_SliceShared k o ty ∈ slice_of <$> values m →
  ∃ a, m !! k = Some a ∧ smem_offset a = o ∧ smem_ty a = ty.
Proof.
  intros Hok (a & Heq & [k' Hk]%values_elem)%list_elem_of_fmap. injection Heq as -> -> ->.
  destruct (slice_at _ _ Hok k' a Hk) as [-> _]. by exists a.
Qed.
Lemma slice_owner rs m r a : slices_ok rs m → NoDup (root_ptr <$> rs) → r ∈ rs → m !! root_ptr r = Some a → smem a = r.
Proof.
  intros Hok Hnd Hr Ha. destruct (slice_at _ _ Hok _ _ Ha) as (_ & _ & Hroot & Hin & _).
  apply list_elem_of_lookup in Hr as [i Hi]. apply list_elem_of_lookup in Hin as [j Hj].
  assert (i = j) as <-; [|congruence]. eapply (NoDup_lookup (root_ptr <$> rs) i j (root_ptr r) Hnd); rewrite list_lookup_fmap; [by rewrite Hi|by rewrite Hj; cbn; congruence].
Qed.
Lemma slice_count rs m : slices_ok rs m → NoDup (root_ptr <$> rs) → length (values m) = length rs.
Proof.
  intros Hok Hnd. rewrite (Permutation_length (values_perm m)), length_fmap, <- (length_fmap root_ptr rs), <- (length_fmap fst (map_to_list m)).
  apply Permutation_length, NoDup_Permutation; [apply NoDup_fst_map_to_list|done|]. intros k. rewrite !list_elem_of_fmap. split.
  - intros ([k' a] & -> & Hk%elem_of_map_to_list). destruct (slice_at _ _ Hok k' a Hk) as (_ & _ & Hroot & Hin & _). by exists (smem a).
  - intros (r & -> & Hr). destruct (slice_all _ _ Hok r Hr) as [a Ha]. exists (root_ptr r, a). split; [done|]. by apply elem_of_map_to_list.
Qed.
Lemma ends_of rs m : slices_ok rs m → room rs <= u64_max →
  mapM (smem_end type_size) (values m) = Some ((λ a, smem_offset a + size_of a) <$> values m).
Proof.
  intros Hok Hb. apply mapM_Some_2. apply Forall2_fmap_r, Forall_Forall2_diag, Forall_forall. intros a [k Hk]%values_elem.
  destruct (slice_at _ _ Hok k a Hk) as (_ & _ & _ & _ & (? & ? & ?) & _). unfold smem_end. by rewrite add_u64_Some by lia.
Qed.
End slices.

(** ** A kernel with three shared variables

    The last fits in the gap that the alignment of the second leaves. *)
Module Kernel.
Definition bytes_of (n : Z) : Z := n.
Definition in_order (m : gmap Z (SmemAllocation Z)) : list (SmemAllocation Z) := (map_to_list m).*2.
Definition ops : list (Operation Z) :=
  [DeclareVariable Shared 4 4 10; OtherOperation; DeclareVariable Shared 64 16 11; DeclareVariable Local 4 4 12; DeclareVariable Shared 8 8 13].
(** Why the sizes are positive: a variable without a size may be placed inside
    another one, and the next is then placed over that one. *)
Definition empty_ops : list (Operation Z) :=
  [DeclareVariable Shared 5 1 10; DeclareVariable Shared 8 1 11; DeclareVariable Shared 0 8 12; DeclareVariable Shared 2 1 13].
Example empty_variable_overlaps :
  (λ st, (λ a, (smem_offset a, smem_size bytes_of a)) <$> allocations st) <$> compute bytes_of in_order empty_ops =
  Some (<[10 := (0, 5)]> (<[11 := (5, 8)]> (<[12 := (8, 0)]> (<[13 := (8, 2)]> ∅)))).
Proof. vm_compute. reflexivity. Qed.
End Kernel.
