(* ===== verification/FastMath.v ===== *)
(** * Division by a multiplication

    [cubecl-std/src/fast_math.rs]: the parameters computed on the host for a
    divisor, and the division, modulo and both of them on the device.  An
    integer of the device has [w] bits and its operations wrap around, as the
    constant evaluation of the intermediate representation does; a division by
    zero is undefined ([None]).  The numeric casts of the host are those of a
    third-party trait: the parameter [cast]. *)

From S2P Require Export Prelude.
From stdpp Require Import list.
#[local] Open Scope Z_scope.

(** ** Integers of the device *)
Definition wrap (w x : Z) : Z := x mod 2 ^ w.
Definition mul_hi (w a b : Z) : Z := Z.shiftr (a * b) w.
Definition wdiv (a b : Z) : option Z := if decide (b = 0) then None else Some (a / b).
Definition wmod (a b : Z) : option Z := if decide (b = 0) then None else Some (a mod b).
(** [as i64] of an unsigned value. *)
Definition as_i64 (x : Z) : Z := if x <? 2 ^ 63 then x else x - 2 ^ 64.

(** ** The host *)
Inductive FastDivmod := Fast (divisor multiplier shift_right : Z) | Fallback (divisor : Z).

(** [next_power_of_two().trailing_zeros()]: the power overflows past the half of the range. *)
Definition log2_next_power (w divisor : Z) : option Z := if divisor <=? 2 ^ (w - 1) then Some (Z.log2_up divisor) else None.
Definition find_params_u32 (divisor : Z) : option (Z * Z) :=
  if divisor =? 0 then Some (0, 0)
  else
    shift ← log2_next_power 32 divisor;
    let multiplier := 2 ^ 32 * (2 ^ shift - divisor) / divisor + 1 in
    Some (shift, multiplier mod 2 ^ 32).
Definition find_params_u64 (divisor : Z) : option (Z * Z) :=
  if divisor =? 0 then Some (0, 0)
  else
    shift ← log2_next_power 64 divisor;
    let multiplier := 2 ^ 64 * (2 ^ shift - divisor) / divisor + 1 in
    Some (shift, multiplier mod 2 ^ 64).

Section register.
(** [cast w x]: [x] as an unsigned integer of [w] bits. *)
Context (cast : Z → Z → option Z).
(** [LaunchArg::register]: [host] is the width of the integer on the host, [size]
    its bytes on the device, [fast] whether the device has 64-bit integers. *)
Definition register_divisor (fast : bool) (host size divisor : Z) : option FastDivmod :=
  if fast then
    '(shift_right, multiplier) ←
      (if size =? 4 then
         divisor ← cast 32 divisor;
         '(shift, multiplier) ← find_params_u32 divisor;
         multiplier ← cast host (as_i64 multiplier); Some (shift, multiplier)
       else if size =? 8 then
         divisor ← cast 64 divisor;
         '(shift, multiplier) ← find_params_u64 divisor;
         multiplier ← cast host (as_i64 multiplier); Some (shift, multiplier)
       else None);
    Some (Fast divisor multiplier shift_right)
  else Some (Fallback divisor).
End register.

(** ** The device *)
Definition fast_div (w : Z) (f : FastDivmod) (dividend : Z) : option Z :=
  match f with
  | Fast _ multiplier shift_right =>
      let t := mul_hi w dividend multiplier in
      Some (Z.shiftr (wrap w (t + dividend)) shift_right)
  | Fallback divisor => wdiv dividend divisor
  end.
Definition fast_modulo (w : Z) (f : FastDivmod) (dividend : Z) : option Z :=
  q ← fast_div w f dividend;
  match f with
  | Fast divisor _ _ => Some (wrap w (dividend - wrap w (q * divisor)))
  | Fallback divisor => wmod dividend divisor
  end.
Definition fast_div_mod (w : Z) (f : FastDivmod) (dividend : Z) : option (Z * Z) :=
  q ← fast_div w f dividend;
  let r := match f with
           | Fast divisor _ _ => wrap w (dividend - wrap w (q * divisor))
           | Fallback divisor => wrap w (dividend - wrap w (q * divisor))
           end in
  Some (q, r).

Example divides : fast_div_mod 32 (Fast 7 613566757 3) 1000 = Some (142, 6).
Proof. reflexivity. Qed.

(** ** The multiplier *)
Definition divisor_of (f : FastDivmod) : Z := match f with Fast d _ _ => d | Fallback d => d end.
(** What the host computes for a divisor of the device. *)
Definition made_for (w d : Z) (f : FastDivmod) : Prop :=
  match f with
  | Fast d' m s => d' = d ∧ 0 <= s <= w ∧ 2 ^ s < 2 * d ∧ d <= 2 ^ s ∧ m = 2 ^ w * (2 ^ s - d) / d + 1
  | Fallback d' => d' = d
  end.
(** The sum of the quotient fits in the integers of the device. *)
Definition sum_fits (w n : Z) (f : FastDivmod) : Prop :=
  match f with Fast _ m _ => n + mul_hi w n m < 2 ^ w | Fallback _ => True end.

Lemma wrap_small w x : 0 <= x < 2 ^ w → wrap w x = x.
Proof. apply Z.mod_small. Qed.
Lemma wrap_bounds w x : 0 <= w → 0 <= wrap w x < 2 ^ w.
Proof. intros Hw. apply Z.mod_pos_bound. lia. Qed.
Lemma multiplier_bounds w d s : 0 < w → 1 <= d → d <= 2 ^ (w - 1) → 2 ^ s < 2 * d → d <= 2 ^ s →
  0 < 2 ^ w * (2 ^ s - d) / d + 1 < 2 ^ w.
Proof.
  intros Hw Hd Hdw H1 H2. assert (2 ^ w = 2 * 2 ^ (w - 1)) as Hp by (rewrite <- Z.pow_succ_r by lia; f_equal; lia). split.
  - assert (0 <= 2 ^ w * (2 ^ s - d) / d); [|lia]. apply Z.div_pos; [|lia]. apply Z.mul_nonneg_nonneg; lia.
  - assert (2 ^ w * (2 ^ s - d) / d < 2 ^ w - 1); [|lia]. apply Z.div_lt_upper_bound; [lia|]. nia.
Qed.
(** The quotient is the high part of the product with the multiplier and one more bit. *)
Lemma quotient_by_product w d s n : 0 <= w → 0 <= s → 1 <= d → d <= 2 ^ s → 0 <= n < 2 ^ w →
  (mul_hi w n (2 ^ w * (2 ^ s - d) / d + 1) + n) / 2 ^ s = n / d.
Proof.
  intros Hw Hs Hd Hds Hn. set (m := 2 ^ w * (2 ^ s - d) / d + 1). unfold mul_hi. rewrite Z.shiftr_div_pow2 by lia.
  assert (0 < 2 ^ w) as Hpw by lia. assert (0 < 2 ^ s) as Hps by lia.
  assert (n * m / 2 ^ w + n = n * (m + 2 ^ w) / 2 ^ w) as ->.
  { rewrite Z.mul_add_distr_l, Z.div_add by lia. done. }
  rewrite Z.div_div by lia.
  (* d * (m + 2^w) = 2^(w+s) + e with 0 < e <= d *)
  pose proof (Z.div_mod (2 ^ w * (2 ^ s - d)) d ltac:(lia)) as Hdm. pose proof (Z.mod_pos_bound (2 ^ w * (2 ^ s - d)) d ltac:(lia)) as Hb.
  set (e := d - (2 ^ w * (2 ^ s - d)) mod d). assert (d * (m + 2 ^ w) = 2 ^ w * 2 ^ s + e) as Hm by (unfold m, e; nia).
  assert (0 < e <= d) as He by (unfold e; lia). clearbody e. clearbody m.
  pose proof (Z.div_mod n d ltac:(lia)) as Hnd. pose proof (Z.mod_pos_bound n d ltac:(lia)) as Hr.
  set (q := n / d) in *. set (r := n mod d) in *. symmetry. apply (Z.div_unique_pos _ _ _ (n * (m + 2 ^ w) - 2 ^ w * 2 ^ s * q)); [|lia].
  assert (d * (n * (m + 2 ^ w) - 2 ^ w * 2 ^ s * q) = 2 ^ w * 2 ^ s * r + n * e) as Hrem.
  { transitivity (n * (d * (m + 2 ^ w)) - 2 ^ w * 2 ^ s * (d * q)); [ring|]. rewrite Hm. replace (d * q) with (n - r) by lia. ring. }
  assert (n * e < 2 ^ w * 2 ^ s) as Hne by nia. split; [nia|].
  assert (2 ^ w * 2 ^ s * r + n * e < 2 ^ w * 2 ^ s * d) by nia. nia.
Qed.
Lemma fast_div_exact w d f n : 0 < w → 1 <= d → d <= 2 ^ (w - 1) → made_for w d f → 0 <= n < 2 ^ w →
  fast_div w f n = Some (n / d) ↔ sum_fits w n f.
Proof.
  intros Hw Hd Hdw Hf Hn. destruct f as [d' m s|d']; cbn in *; [|subst d'; unfold wdiv; rewrite decide_False by lia; done].
  destruct Hf as (-> & Hs & H1 & H2 & ->). pose proof (quotient_by_product w d s n ltac:(lia) ltac:(lia) Hd H2 Hn) as Hq.
  pose proof (multiplier_bounds w d s Hw Hd Hdw H1 H2) as Hm. set (m := 2 ^ w * (2 ^ s - d) / d + 1) in *. clearbody m.
  assert (0 <= mul_hi w n m < 2 ^ w) as Ht.
  { unfold mul_hi. rewrite Z.shiftr_div_pow2 by lia. split; [apply Z.div_pos; nia|]. apply Z.div_lt_upper_bound; nia. }
  assert (0 < 2 ^ s) as Hps by lia. rewrite Z.shiftr_div_pow2 by lia. split.
  - intros [= He]. apply Z.lt_nge. intros Hge. revert He.
    assert (wrap w (mul_hi w n m + n) = mul_hi w n m + n - 2 ^ w) as ->.
    { unfold wrap. symmetry. apply (Z.mod_unique_pos _ _ 1); lia. }
    rewrite <- Hq. assert (2 ^ w = 2 ^ (w - s) * 2 ^ s) as Hsplit by (rewrite <- Z.pow_add_r by lia; f_equal; lia).
    replace (mul_hi w n m + n - 2 ^ w) with (mul_hi w n m + n + - 2 ^ (w - s) * 2 ^ s) by lia.
    rewrite Z.div_add by lia. assert (0 < 2 ^ (w - s)) by (apply Z.pow_pos_nonneg; lia). lia.
  - intros Hlt. rewrite wrap_small by lia. by rewrite Hq.
Qed.
(** Below the half of the range the sum always fits. *)
Lemma half_fits w d f n : 0 < w → 1 <= d → d <= 2 ^ (w - 1) → made_for w d f → 0 <= n < 2 ^ (w - 1) → sum_fits w n f.
Proof.
  intros Hw Hd Hdw Hf Hn. destruct f as [d' m s|d']; cbn in *; [|done]. destruct Hf as (-> & Hs & H1 & H2 & ->).
  pose proof (multiplier_bounds w d s Hw Hd Hdw H1 H2) as Hm. set (m := 2 ^ w * (2 ^ s - d) / d + 1) in *. clearbody m.
  assert (2 ^ w = 2 * 2 ^ (w - 1)) as Hp by (rewrite <- Z.pow_succ_r by lia; f_equal; lia).
  assert (mul_hi w n m <= n); [|lia]. unfold mul_hi. rewrite Z.shiftr_div_pow2 by lia. apply Z.div_le_upper_bound; nia.
Qed.
Lemma fast_rest w d f n : 0 < w → 1 <= d → d <= 2 ^ (w - 1) → made_for w d f → 0 <= n < 2 ^ w → sum_fits w n f →
  fast_div_mod w f n = Some (n / d, n mod d) ∧ fast_modulo w f n = Some (n mod d).
Proof.
  intros Hw Hd Hdw Hf Hn Hfit. unfold fast_div_mod, fast_modulo. rewrite (proj2 (fast_div_exact w d f n Hw Hd Hdw Hf Hn) Hfit). cbn.
  pose proof (Z.div_mod n d ltac:(lia)) as Hdm. pose proof (Z.mod_pos_bound n d ltac:(lia)) as Hr.
  assert (0 <= n / d) by (apply Z.div_pos; lia).
  assert (wrap w (n - wrap w (n / d * d)) = n mod d) as Hmod.
  { rewrite (wrap_small w (n / d * d)) by nia. rewrite wrap_small by nia. lia. }
  destruct f as [d' m s|d']; cbn in Hf; [destruct Hf as (-> & _)|subst d']; rewrite Hmod; [done|].
  unfold wmod. by rewrite decide_False by lia.
Qed.

(** ** Correctness *)
Section correct.
Context (cast : Z → Z → option Z).
Context (cast_spec : ∀ w x, 0 < w → cast w x = if decide (0 <= x < 2 ^ w) then Some x else None).
Lemma cast_Some w x : 0 < w → 0 <= x < 2 ^ w → cast w x = Some x.
Proof. intros Hw Hx. rewrite cast_spec by done. by rewrite decide_True. Qed.
Lemma log2_next_power_spec w d : 0 < w → 1 <= d → d <= 2 ^ (w - 1) →
  ∃ s, log2_next_power w d = Some s ∧ s = Z.log2_up d ∧ 0 <= s < w ∧ d <= 2 ^ s ∧ 2 ^ s < 2 * d.
Proof.
  intros Hw Hd Hdw. unfold log2_next_power. rewrite (proj2 (Z.leb_le _ _) Hdw). eexists. split; [done|]. split; [done|].
  pose proof (Z.log2_up_nonneg d). pose proof (Z.log2_up_le_mono d _ Hdw) as Hle. rewrite Z.log2_up_pow2 in Hle by lia.
  destruct (decide (d = 1)) as [->|Hne]; [cbn in *; lia|]. pose proof (Z.log2_up_spec d ltac:(lia)) as [Hlt Hge].
  split; [lia|]. split; [done|]. pose proof (Z.log2_up_pos d ltac:(lia)).
  replace (Z.log2_up d) with (Z.succ (Z.pred (Z.log2_up d))) by lia. rewrite Z.pow_succ_r by lia. lia.
Qed.
Lemma find_params_u32_spec d : 1 <= d <= 2 ^ 31 →
  ∃ s, find_params_u32 d = Some (s, 2 ^ 32 * (2 ^ s - d) / d + 1) ∧ made_for 32 d (Fast d (2 ^ 32 * (2 ^ s - d) / d + 1) s) ∧
    0 < 2 ^ 32 * (2 ^ s - d) / d + 1 < 2 ^ 32.
Proof.
  intros [Hd Hle]. destruct (log2_next_power_spec 32 d) as (s & Hs & _ & Hb & H1 & H2); [lia..|].
  pose proof (multiplier_bounds 32 d s ltac:(lia) Hd Hle H2 H1) as Hm. exists s. unfold find_params_u32.
  rewrite (proj2 (Z.eqb_neq d 0) ltac:(lia)), Hs. cbn [mbind option_bind]. rewrite Z.mod_small by lia. split; [done|]. split; [|done]. cbn. split_and!; [done|lia..|done|done|done].
Qed.
Lemma find_params_u64_spec d : 1 <= d <= 2 ^ 63 →
  ∃ s, s = Z.log2_up d ∧ find_params_u64 d = Some (s, 2 ^ 64 * (2 ^ s - d) / d + 1) ∧ made_for 64 d (Fast d (2 ^ 64 * (2 ^ s - d) / d + 1) s) ∧
    0 < 2 ^ 64 * (2 ^ s - d) / d + 1 < 2 ^ 64.
Proof.
  intros [Hd Hle]. destruct (log2_next_power_spec 64 d) as (s & Hs & Hup & Hb & H1 & H2); [lia..|].
  pose proof (multiplier_bounds 64 d s ltac:(lia) Hd Hle H2 H1) as Hm. exists s. unfold find_params_u64.
  rewrite (proj2 (Z.eqb_neq d 0) ltac:(lia)), Hs. cbn [mbind option_bind]. rewrite Z.mod_small by lia. split; [done|]. split; [done|]. split; [|done]. cbn. split_and!; [done|lia..|done|done|done].
Qed.
(** What a launch registers for a divisor of the device. *)
Lemma register_divisor_made fast host size d : (host = 32 ∧ size = 4 ∨ host = 64 ∧ size = 4 ∨ host = 64 ∧ size = 8) → 1 <= d <= 2 ^ (8 * size - 1) →
  match register_divisor cast fast host size d with
  | None => fast = true ∧ size = 8 ∧ 2 ^ 63 <= 2 ^ 64 * (2 ^ Z.log2_up d - d) / d + 1
  | Some f => divisor_of f = d ∧ made_for (8 * size) d f ∧ (f = Fallback d ↔ fast = false) ∧
      (fast = true → size = 8 → 2 ^ 64 * (2 ^ Z.log2_up d - d) / d + 1 < 2 ^ 63)
  end.
Proof.
  intros Hsize Hd. unfold register_divisor. destruct fast; [|done].
  assert (size = 4 ∨ size = 8) as [-> | ->] by lia.
  - assert (host = 32 ∨ host = 64) as Hhost by lia. cbn [Z.eqb Pos.eqb]. change (8 * 4 - 1) with 31 in Hd.
    rewrite cast_Some by lia. cbn [mbind option_bind]. destruct (find_params_u32_spec d Hd) as (s & -> & Hmade & Hm). cbn [mbind option_bind].
    unfold as_i64. rewrite (proj2 (Z.ltb_lt _ _)) by lia. rewrite cast_Some by (destruct Hhost as [-> | ->]; lia).
    split; [done|]. split; [exact Hmade|]. split; [done|lia].
  - assert (host = 64) as -> by lia. cbn [Z.eqb Pos.eqb]. change (8 * 8 - 1) with 63 in Hd.
    rewrite cast_Some by lia. cbn [mbind option_bind]. destruct (find_params_u64_spec d Hd) as (s & <- & -> & Hmade & Hm). cbn [mbind option_bind].
    unfold as_i64. destruct (Z.ltb_spec (2 ^ 64 * (2 ^ s - d) / d + 1) (2 ^ 63)) as [Hlt|Hge].
    + rewrite cast_Some by lia. split; [done|]. split; [exact Hmade|]. split; [done|lia].
    + rewrite cast_spec by lia. rewrite decide_False by lia. cbn. split_and!; [done|done|lia].
Qed.
(** C36: for a divisor of up to half the range of the device a launch either
    registers the parameters of that very divisor, or panics, which happens
    exactly on devices with 64-bit addresses whose multiplier reaches 2^63, as
    it passes through [i64].  What is registered divides exactly when the sum
    with the high part of the product fits in the integers of the device, in
    particular every dividend below half the range, for which the modulo and
    the pair are those of the division too; a zero divisor is registered. *)
Theorem fast_divmod_correct fast host size divisor :
  (host = 32 ∧ size = 4 ∨ host = 64 ∧ size = 4 ∨ host = 64 ∧ size = 8) → 1 <= divisor <= 2 ^ (8 * size - 1) →
  is_Some (register_divisor cast fast host size 0) ∧
  match register_divisor cast fast host size divisor with
  | None => fast = true ∧ size = 8 ∧ 2 ^ 63 <= 2 ^ 64 * (2 ^ Z.log2_up divisor - divisor) / divisor + 1
  | Some f =>
      divisor_of f = divisor ∧ (f = Fallback divisor ↔ fast = false) ∧
      (fast = true → size = 8 → 2 ^ 64 * (2 ^ Z.log2_up divisor - divisor) / divisor + 1 < 2 ^ 63) ∧
      ∀ n, 0 <= n < 2 ^ (8 * size) →
        (fast_div (8 * size) f n = Some (n / divisor) ↔ sum_fits (8 * size) n f) ∧
        (n < 2 ^ (8 * size - 1) →
          fast_div_mod (8 * size) f n = Some (n / divisor, n mod divisor) ∧ fast_modulo (8 * size) f n = Some (n mod divisor))
  end.
Proof.
  intros Hsize Hd. split.
  { unfold register_divisor. destruct fast; [|by eexists]. assert (size = 4 ∨ size = 8) as [-> | ->] by lia; cbn [Z.eqb Pos.eqb];
      rewrite (cast_Some _ 0) by lia; cbn; (rewrite (cast_Some _ 0) by lia); by eexists. }
  pose proof (register_divisor_made fast host size divisor Hsize Hd) as Hr. destruct (register_divisor cast fast host size divisor) as [f|]; [|done].
  destruct Hr as (Hof & Hmade & Hfast & Hlt). split; [done|]. split; [done|]. split; [done|]. intros n Hn. assert (0 < 8 * size) as Hw by lia. split.
  - apply fast_div_exact; [done|lia|lia|done|done].
  - intros Hhalf. apply fast_rest; [done|lia|lia|done|done|]. eapply half_fits; [done| |apply Hd|done|lia]. lia.
Qed.
End correct.

(** Casts that refuse what does not fit. *)
Definition checked_cast (w x : Z) : option Z := if decide (0 <= x < 2 ^ w) then Some x else None.
Lemma fast_divmod_correct_witness : ∃ f, register_divisor checked_cast true 64 4 7 = Some f ∧ fast_div_mod 32 f 1000 = Some (142, 6).
Proof.
  destruct (fast_divmod_correct checked_cast (λ _ _ _, eq_refl) true 64 4 7) as [_ H]; [lia..|].
  destruct (register_divisor checked_cast true 64 4 7) as [f|] eqn:E; [|discriminate E].
  exists f. split; [reflexivity|]. apply (proj2 (proj2 (proj2 (proj2 H)) 1000 ltac:(lia))). lia.
Defined.
(** A large dividend overflows the sum and the quotient is wrong. *)
Example large_dividend : (f ← register_divisor checked_cast true 32 4 3; fast_div 32 f 4294967295) = Some 357913941 ∧ 4294967295 / 3 = 1431655765.
Proof. split; reflexivity. Qed.
(** With 64-bit addresses the launch panics on a dimension of 5. *)
Example five_panics : register_divisor checked_cast true 64 8 5 = None.
Proof. reflexivity. Qed.
