(* ===== verification/Views.v ===== *)
(** * Layouts of tensor views

    [cubecl-std/src/tensor/layout/] and the indexing of
    [cubecl-std/src/tensor/contiguous/base.rs]: how a position of a view is
    mapped to an offset of the buffer below it.  The host chooses a layout from
    the shape and the strides and registers its arguments; the device computes
    with integers of [w] bits that wrap around (32 bits for [u32] coordinates).
    A host panic, an index out of a sequence and a division by zero are [None]. *)

From S2P Require Export FastMath Layout.
From stdpp Require Import list sorting.
#[local] Open Scope Z_scope.

(** ** The interface of a layout *)
Class ViewLayout (L C S : Type) := {
  to_source_pos : L → C → option S;
  is_in_bounds : L → C → option bool;
  to_source_pos_checked : L → C → option (S * bool);
  view_shape : L → option C;
}.
(** What every layout promises: the checked position is the position and the check. *)
Class ViewLayoutLaws (L C S : Type) `{!ViewLayout L C S} := {
  checked_is_both : ∀ l pos, to_source_pos_checked (S := S) l pos =
    (s ← to_source_pos (S := S) l pos; b ← is_in_bounds (S := S) l pos; Some (s, b));
}.

(** ** Checks of the host *)
Fixpoint compact_strides (shape : list Z) : option (list Z) :=
  match shape with
  | [] => None
  | [_] => Some [1]
  | _ :: ((d :: _) as rest) => strides ← compact_strides rest; s ← head strides; s ← mul_u64 s d; Some (s :: strides)
  end.
Definition is_contiguous (shape strides : list Z) : option bool :=
  match shape with
  | [] => Some true
  | _ => expected ← compact_strides shape; Some (forallb (λ p, p.1 =? p.2) (zip expected strides))
  end.
Definition is_contiguous_pitched (shape strides : list Z) : option bool :=
  let rank := length shape in
  if decide (rank = 0)%nat then None
  else
    last ← strides !! (rank - 1)%nat;
    if negb (last =? 1) then Some false
    else if decide (rank <= 1)%nat then Some true
    else if decide (reverse (merge_sort Z.le strides) ≠ strides) then Some false
    else contiguous_loop shape strides 0 (rank - 2).
(** [strides_ref], with its debug assertions. *)
Definition strides_ref (shape reference_shape strides : list Z) : option (list Z) :=
  if decide (length shape ≠ length reference_shape) then None
  else if forallb (λ p, (p.1 =? p.2) || (p.1 =? 1)) (zip shape reference_shape)
  then Some (zip_with (λ stride p, if p.1 =? p.2 then stride else 0) strides (zip shape reference_shape))
  else None.

(** ** Offsets of a linear index *)
Section offsets.
Context (w : Z).
Definition wadd (a b : Z) : Z := wrap w (a + b).
Definition wmul (a b : Z) : Z := wrap w (a * b).
Fixpoint fastdivmod_loop (shape : list FastDivmod) (stride : list Z) (n : nat) (remainder offset : Z) : option Z :=
  match n with
  | O => Some offset
  | S dim =>
      f ← shape !! dim; s ← stride !! dim;
      '(rem, ogwl) ← fast_div_mod w f remainder;
      fastdivmod_loop shape stride dim rem (wadd offset (wmul ogwl s))
  end.
Definition index_offset_contiguous_fastdivmod (offset : Z) (shape : list FastDivmod) (stride : list Z) (vector_size : Z) : option Z :=
  offset ← fastdivmod_loop shape stride (length shape) (wmul offset vector_size) 0;
  wdiv offset vector_size.
Fixpoint contiguous_offset_loop (shape stride : list Z) (n : nat) (remainder offset : Z) : option Z :=
  match n with
  | O => Some offset
  | S dim =>
      d ← shape !! dim; s ← stride !! dim;
      ogwl ← wmod remainder d; remainder ← wdiv remainder d;
      contiguous_offset_loop shape stride dim remainder (wadd offset (wmul ogwl s))
  end.
Definition index_offset_contiguous (shape stride : list Z) (vector_size offset_layout : Z) (rank : option nat) : option Z :=
  offset ← contiguous_offset_loop shape stride (default (length shape) rank) (wmul offset_layout vector_size) 0;
  wdiv offset vector_size.
Fixpoint with_layout_loop (shape stride layout_stride : list Z) (offset_ref : Z) (dims : list nat) (offset : Z) : option Z :=
  match dims with
  | [] => Some offset
  | i :: dims =>
      ls ← layout_stride !! i; d ← shape !! i; s ← stride !! i;
      ogwl ← wdiv offset_ref ls; r ← wmod ogwl d;
      with_layout_loop shape stride layout_stride offset_ref dims (wadd offset (wmul r s))
  end.
Definition index_offset_with_layout (shape stride layout_stride : list Z) (vector_size offset_layout : Z) (dim_start dim_end : nat) : option Z :=
  offset ← with_layout_loop shape stride layout_stride (wmul offset_layout vector_size) (seq dim_start (dim_end - dim_start)) 0;
  wdiv offset vector_size.
End offsets.

(** ** Layouts of a linear position *)
Record PlainLayout := mk_PlainLayout { plain_len : Z }.
Record SimpleLayout := mk_SimpleLayout { simple_len : Z; simple_vector_size : Z }.
Record StridedLayout := mk_StridedLayout { strided_shape : FastDivmod; strided_stride : Z; strided_len : Z; strided_vector_size : Z }.
Record PermutedLayout := mk_PermutedLayout {
  permuted_shape : list FastDivmod; permuted_strides : list Z; permuted_len : Z; permuted_vector_size : Z }.
Inductive LinearViewLayout := Plain (l : PlainLayout) | Strided (l : StridedLayout) | Permuted (l : PermutedLayout).
(** The arguments of a buffer that a layout reads. *)
Record MemoryArg := mk_MemoryArg { arg_len : Z; arg_shape : list Z; arg_strides : list Z }.

Section linear.
Context (w : Z).
#[export] Instance plain_layout : ViewLayout PlainLayout Z Z := {|
  to_source_pos l pos := Some pos;
  is_in_bounds l pos := Some (pos <? plain_len l);
  to_source_pos_checked l pos := Some (pos, pos <? plain_len l);
  view_shape l := Some (plain_len l);
|}.
#[export] Instance simple_layout : ViewLayout SimpleLayout Z Z := {|
  to_source_pos l pos := wdiv pos (simple_vector_size l);
  is_in_bounds l pos := Some (pos <? simple_len l);
  to_source_pos_checked l pos := s ← wdiv pos (simple_vector_size l); Some (s, pos <? simple_len l);
  view_shape l := Some (simple_len l);
|}.
Definition strided_source_pos (l : StridedLayout) (pos : Z) : option Z :=
  let offset_abs := wmul w pos (strided_vector_size l) in
  '(y, x) ← fast_div_mod w (strided_shape l) offset_abs;
  wdiv (wadd w (wmul w y (strided_stride l)) x) (strided_vector_size l).
#[export] Instance strided_layout : ViewLayout StridedLayout Z Z := {|
  to_source_pos := strided_source_pos;
  is_in_bounds l pos := Some (pos <? strided_len l);
  to_source_pos_checked l pos := s ← strided_source_pos l pos; Some (s, pos <? strided_len l);
  view_shape l := Some (strided_len l);
|}.
Definition permuted_source_pos (l : PermutedLayout) (pos : Z) : option Z :=
  index_offset_contiguous_fastdivmod w pos (permuted_shape l) (permuted_strides l) (permuted_vector_size l).
#[export] Instance permuted_layout : ViewLayout PermutedLayout Z Z := {|
  to_source_pos := permuted_source_pos;
  is_in_bounds l pos := Some (pos <? permuted_len l);
  to_source_pos_checked l pos := s ← permuted_source_pos l pos; Some (s, pos <? permuted_len l);
  view_shape l := Some (permuted_len l);
|}.
#[export] Instance linear_layout : ViewLayout LinearViewLayout Z Z := {|
  to_source_pos l pos := match l with Plain l => to_source_pos l pos | Strided l => to_source_pos l pos | Permuted l => to_source_pos l pos end;
  is_in_bounds l pos := match l with
    | Plain l => is_in_bounds (S := Z) l pos | Strided l => is_in_bounds (S := Z) l pos | Permuted l => is_in_bounds (S := Z) l pos end;
  to_source_pos_checked l pos :=
    s ← match l with Plain l => to_source_pos l pos | Strided l => to_source_pos l pos | Permuted l => to_source_pos l pos end;
    b ← match l with
      | Plain l => is_in_bounds (S := Z) l pos | Strided l => is_in_bounds (S := Z) l pos | Permuted l => is_in_bounds (S := Z) l pos end;
    Some (s, b);
  view_shape l := match l with
    | Plain l => view_shape (S := Z) l | Strided l => view_shape (S := Z) l | Permuted l => view_shape (S := Z) l end;
|}.
End linear.

#[export] Instance plain_laws : ViewLayoutLaws PlainLayout Z Z.
Proof. done. Qed.
#[export] Instance simple_laws : ViewLayoutLaws SimpleLayout Z Z.
Proof. done. Qed.
Lemma strided_laws w : ViewLayoutLaws (ViewLayout0 := strided_layout w) StridedLayout Z Z.
Proof. done. Qed.
Lemma permuted_laws w : ViewLayoutLaws (ViewLayout0 := permuted_layout w) PermutedLayout Z Z.
Proof. done. Qed.
Lemma linear_laws w : ViewLayoutLaws (ViewLayout0 := linear_layout w) LinearViewLayout Z Z.
Proof. split. intros [l|l|l] pos; cbn; [done|by destruct (strided_source_pos w l pos)|by destruct (permuted_source_pos w l pos)]. Qed.

(** ** What a launch registers *)
Section register.
Context (cast : Z → Z → option Z) (fast : bool) (size : Z).
Definition register_plain (buffer : MemoryArg) (vector_size : Z) : option PlainLayout :=
  len ← wdiv (arg_len buffer) vector_size; Some (mk_PlainLayout len).
Definition register_strided (buffer : MemoryArg) (vector_size : Z) : option StridedLayout :=
  let rank := length (arg_shape buffer) in
  total ← num_elements (arg_shape buffer);
  len ← wdiv total vector_size;
  if decide (rank < 2)%nat then None
  else
    d ← arg_shape buffer !! (rank - 1)%nat;
    shape ← register_divisor cast fast 64 size d;
    stride ← arg_strides buffer !! (rank - 2)%nat;
    Some (mk_StridedLayout shape stride len vector_size).
Definition register_permuted (reference_shape : option (list Z)) (buffer : MemoryArg) (vector_size : Z) : option PermutedLayout :=
  '(shape, strides, len) ←
    match reference_shape with
    | Some reference_shape =>
        let len := Z.of_nat (length reference_shape) in
        strides ← strides_ref (arg_shape buffer) reference_shape (arg_strides buffer);
        Some (reference_shape, strides, len)
    | None => Some (arg_shape buffer, arg_strides buffer, arg_len buffer)
    end;
  len ← wdiv len vector_size;
  shape ← mapM (register_divisor cast fast 64 size) shape;
  Some (mk_PermutedLayout shape strides len vector_size).
Definition register_linear (reference_shape : option (list Z)) (buffer : MemoryArg) (vector_size : Z) : option LinearViewLayout :=
  let reference_shape := match reference_shape with
    | Some reference_shape => if decide (reference_shape ≠ arg_shape buffer) then Some reference_shape else None
    | None => None
    end in
  match reference_shape with
  | Some reference_shape => Permuted <$> register_permuted (Some reference_shape) buffer vector_size
  | None =>
      contiguous ← is_contiguous (arg_shape buffer) (arg_strides buffer);
      if contiguous : bool then Plain <$> register_plain buffer vector_size
      else
        pitched ← is_contiguous_pitched (arg_shape buffer) (arg_strides buffer);
        if pitched : bool then Strided <$> register_strided buffer vector_size
        else Permuted <$> register_permuted None buffer vector_size
  end.
End register.

(** ** Coordinates of a linear index *)
Lemma offset_of_app c1 c2 s1 s2 : length c1 = length s1 → offset_of (c1 ++ c2) (s1 ++ s2) = offset_of c1 s1 + offset_of c2 s2.
Proof. intros Hl. unfold offset_of. by rewrite zip_with_app, sum_Z_app. Qed.
Lemma offset_of_scale c s k : offset_of c ((λ x, x * k) <$> s) = offset_of c s * k.
Proof. revert s. induction c as [|i c IH]; intros [|x s]; [done..|]. cbn [fmap list_fmap]. rewrite !offset_of_cons, IH. ring. Qed.
Lemma strides_of_snoc shape d : strides_of (shape ++ [d]) = ((λ x, x * d) <$> strides_of shape) ++ [1].
Proof.
  induction shape as [|d' shape IH]; [done|]. cbn [app strides_of fmap list_fmap]. rewrite IH, prod_Z_app. f_equal. cbn. lia.
Qed.
Lemma offset_of_nonneg c s shape : in_bounds c shape → Forall (Z.le 0) s → 0 <= offset_of c s.
Proof.
  intros Hc. revert s. induction Hc as [|i d c shape Hi Hc IH]; intros s Hs; [destruct s; cbn; lia|].
  destruct Hs as [|x s Hx Hs]; [cbn; lia|]. rewrite offset_of_cons. specialize (IH s Hs). nia.
Qed.
Lemma in_bounds_snoc c shape d : in_bounds c (shape ++ [d]) → ∃ c0 x, c = c0 ++ [x] ∧ in_bounds c0 shape ∧ 0 <= x < d.
Proof. intros (c0 & c1 & Hc0 & Hc1 & ->)%Forall2_app_inv_r. apply Forall2_cons_inv_r in Hc1 as (x & c2 & Hx & Hc2 & ->). apply Forall2_nil_inv_r in Hc2 as ->. by exists c0, x. Qed.
Lemma linear_snoc c shape d x : length c = length shape →
  offset_of (c ++ [x]) (strides_of (shape ++ [d])) = offset_of c (strides_of shape) * d + x.
Proof.
  intros Hl. rewrite strides_of_snoc, offset_of_app, offset_of_scale by by rewrite length_fmap, strides_of_length.
  unfold offset_of at 2. cbn. lia.
Qed.

Section device.
Context (w : Z) (w_pos : 0 < w).
(** A dimension the device divides by. *)
Definition divides_by (f : FastDivmod) (d : Z) : Prop := 1 <= d <= 2 ^ (w - 1) ∧ made_for w d f.
Lemma fastdivmod_loop_spec fs shape strides n c off :
  Forall2 divides_by fs shape → length strides = length shape → (n <= length shape)%nat → Forall (Z.le 0) strides →
  in_bounds c (take n shape) → prod_Z (take n shape) <= 2 ^ (w - 1) →
  0 <= off → off + offset_of c (take n strides) < 2 ^ w →
  fastdivmod_loop w fs strides n (offset_of c (strides_of (take n shape))) off = Some (off + offset_of c (take n strides)).
Proof.
  intros Hfs Hlen Hn Hnn. revert c off. induction n as [|n IH]; intros c off Hc Hp Ho Hb.
  { rewrite take_0 in Hc. apply Forall2_nil_inv_r in Hc as ->. cbn. f_equal. lia. }
  destruct (lookup_lt_is_Some_2 shape n ltac:(lia)) as [d Hd]. destruct (lookup_lt_is_Some_2 strides n ltac:(lia)) as [s Hs].
  destruct (Forall2_lookup_r _ _ _ _ _ Hfs Hd) as (f & Hf & [Hd1 Hmade]).
  rewrite (take_S_r _ _ _ Hd) in Hc, Hp |- *. rewrite (take_S_r _ _ _ Hs) in Hb |- *.
  apply in_bounds_snoc in Hc as (c0 & x & -> & Hc0 & Hx). rewrite prod_Z_app in Hp. cbn [prod_Z foldr] in Hp.
  assert (length c0 = n) as Hl0 by (rewrite (Forall2_length _ _ _ Hc0), length_take; lia).
  rewrite linear_snoc by (rewrite length_take; lia). rewrite offset_of_app in Hb |- * by (rewrite length_take; lia).
  assert (offset_of [x] [s] = x * s) as Hxs by (cbn; lia). rewrite Hxs in *. cbn [fastdivmod_loop]. rewrite Hf, Hs. cbn [mbind option_bind].
  set (k := offset_of c0 (strides_of (take n shape))) in *. assert (0 <= k < prod_Z (take n shape)) as Hk by (apply strides_of_bound, Hc0).
  pose proof (Forall_lookup_1 _ _ _ _ Hnn Hs) as Hs0. assert (0 <= offset_of c0 (take n strides)) as Hoff by (eapply offset_of_nonneg; [exact Hc0|by apply Forall_take]).
  assert (0 <= k * d + x < 2 ^ (w - 1)) as Hkd by nia. assert (2 ^ w = 2 * 2 ^ (w - 1)) as Hpw by (rewrite <- Z.pow_succ_r by lia; f_equal; lia).
  assert (1 <= d) as Hd2 by lia. assert (d <= 2 ^ (w - 1)) as Hd3 by lia.
  destruct (fast_rest w d f (k * d + x)) as [-> _]; [done..|lia|by eapply half_fits|]. cbn [mbind option_bind].
  assert ((k * d + x) / d = k) as -> by (symmetry; apply (Z.div_unique_pos _ _ _ x); lia).
  assert ((k * d + x) mod d = x) as -> by (symmetry; apply (Z.mod_unique_pos _ _ k); lia).
  unfold wadd, wmul. assert (0 <= x * s) by nia. rewrite (wrap_small w (x * s)), (wrap_small w (off + x * s)) by lia.
  subst k. rewrite IH; [f_equal; lia|lia|done|nia|lia|lia].
Qed.
Lemma permuted_offset fs shape strides vs pos c :
  Forall2 divides_by fs shape → length strides = length shape → Forall (Z.le 0) strides → prod_Z shape <= 2 ^ (w - 1) → 1 <= vs → 0 <= pos →
  in_bounds c shape → offset_of c (strides_of shape) = pos * vs → offset_of c strides < 2 ^ w →
  index_offset_contiguous_fastdivmod w pos fs strides vs = Some (offset_of c strides / vs).
Proof.
  intros Hfs Hlen Hnn Hp Hvs Hpos Hc Hlin Hb. unfold index_offset_contiguous_fastdivmod.
  assert (2 ^ w = 2 * 2 ^ (w - 1)) as Hpw by (rewrite <- Z.pow_succ_r by lia; f_equal; lia).
  pose proof (strides_of_bound _ _ Hc). unfold wmul. rewrite wrap_small by lia. rewrite <- Hlin.
  pose proof (fastdivmod_loop_spec fs shape strides (length shape) c 0 Hfs Hlen (le_n _) Hnn) as Hloop.
  rewrite (take_ge shape) in Hloop by done. rewrite (take_ge strides) in Hloop by lia. rewrite (Forall2_length _ _ _ Hfs), Hloop by (done || lia).
  cbn. unfold wdiv. by rewrite decide_False by lia.
Qed.

(** *** Pitched tensors: rows of the last dimension *)
Lemma strided_offset f d shape s vs pos len c :
  divides_by f d → 0 <= s → prod_Z (shape ++ [d]) <= 2 ^ (w - 1) → 1 <= vs → 0 <= pos →
  in_bounds c (shape ++ [d]) → offset_of c (strides_of (shape ++ [d])) = pos * vs →
  offset_of c (((λ x, x * s) <$> strides_of shape) ++ [1]) < 2 ^ w →
  strided_source_pos w (mk_StridedLayout f s len vs) pos = Some (offset_of c (((λ x, x * s) <$> strides_of shape) ++ [1]) / vs).
Proof.
  intros [Hd Hf] Hs Hp Hvs Hpos Hc Hlin Hb. assert (2 ^ w = 2 * 2 ^ (w - 1)) as Hpw by (rewrite <- Z.pow_succ_r by lia; f_equal; lia).
  pose proof (strides_of_bound _ _ Hc) as Hk. apply in_bounds_snoc in Hc as (c0 & x & -> & Hc0 & Hx).
  pose proof (Forall2_length _ _ _ Hc0) as Hl0. rewrite linear_snoc in Hlin, Hk by done.
  rewrite offset_of_app, offset_of_scale in Hb |- * by by rewrite length_fmap, strides_of_length.
  assert (offset_of [x] [1] = x) as Hx1 by (cbn; lia). rewrite Hx1 in *. pose proof (strides_of_bound _ _ Hc0) as Hk0.
  set (y := offset_of c0 (strides_of shape)) in *. unfold strided_source_pos. cbn. unfold wmul, wadd. rewrite (wrap_small w (pos * vs)) by lia.
  assert (1 <= d) as Hd2 by lia. assert (d <= 2 ^ (w - 1)) as Hd3 by lia.
  destruct (fast_rest w d f (pos * vs)) as [-> _]; [done..|lia|eapply half_fits; try done; lia|]. cbn [mbind option_bind]. rewrite <- Hlin.
  assert ((y * d + x) / d = y) as -> by (symmetry; apply (Z.div_unique_pos _ _ _ x); lia).
  assert ((y * d + x) mod d = x) as -> by (symmetry; apply (Z.mod_unique_pos _ _ y); lia).
  assert (0 <= y * s) by nia. rewrite (wrap_small w (y * s)), wrap_small by lia. unfold wdiv. by rewrite decide_False by lia.
Qed.
End device.

(** *** What the checks of the host say *)
Lemma compact_strides_of shape : shape ≠ [] → strides_fit shape → compact_strides shape = Some (strides_of shape).
Proof.
  induction shape as [|d shape IH]; [done|]. intros _ [Hp Hfit]%Forall_cons. destruct shape as [|d' shape]; [done|].
  change (compact_strides (d :: d' :: shape)) with (strides ← compact_strides (d' :: shape); s ← head strides; s ← mul_u64 s d'; Some (s :: strides)).
  rewrite IH by done. cbn [mbind option_bind strides_of head]. rewrite prod_Z_cons in Hp |- *.
  rewrite mul_u64_Some by lia. cbn. by rewrite Z.mul_comm.
Qed.
Lemma zip_equal (l k : list Z) : length l = length k → forallb (λ p, p.1 =? p.2) (zip l k) = true ↔ l = k.
Proof.
  revert k. induction l as [|x l IH]; intros [|y k] Hl; try done. cbn in *. rewrite andb_true_iff, Z.eqb_eq, IH by lia. naive_solver.
Qed.
Lemma is_contiguous_spec shape strides : strides_fit shape → length strides = length shape →
  ∃ b : bool, is_contiguous shape strides = Some b ∧ (b = true ↔ strides = strides_of shape).
Proof.
  intros Hfit Hlen. unfold is_contiguous. destruct shape as [|d shape]; [exists true; split; [done|]; destruct strides; done|].
  rewrite compact_strides_of by done. cbn [mbind option_bind]. eexists. split; [done|]. rewrite zip_equal by (rewrite strides_of_length; done). naive_solver.
Qed.
Lemma scaled_strides shape strides s : length strides = length shape → last strides = Some s →
  (∀ j, (j < length shape - 1)%nat → follows shape strides j) → strides = (λ x, x * s) <$> strides_of shape.
Proof.
  revert strides. induction shape as [|d shape IH]; intros [|s0 strides] Hlen Hlast Hall; try done.
  destruct shape as [|d' shape], strides as [|s1 strides]; try done.
  { cbn in *. injection Hlast as ->. cbn [prod_Z foldr]. by rewrite Z.mul_1_l. }
  assert (s1 :: strides = (λ x, x * s) <$> strides_of (d' :: shape)) as Heq.
  { apply IH; [cbn in *; lia|done|]. intros j Hj. apply (follows_cons d _ s0), Hall. cbn in *. lia. }
  cbn [strides_of fmap list_fmap] in *. injection Heq as Hs1 Hs. destruct (Hall 0%nat ltac:(cbn; lia)) as (x & y & z & [= <-] & [= <-] & [= <-] & -> & _).
  rewrite Hs1, Hs. f_equal. rewrite prod_Z_cons. ring.
Qed.
Lemma is_contiguous_pitched_true shape strides : length strides = length shape → is_contiguous_pitched shape strides = Some true →
  (∃ d, shape = [d] ∧ strides = [1]) ∨
  ∃ shape0 d s, shape = shape0 ++ [d] ∧ strides = ((λ x, x * s) <$> strides_of shape0) ++ [1] ∧ strides !! (length shape - 2)%nat = Some s ∧ (2 <= length shape)%nat.
Proof.
  intros Hlen. unfold is_contiguous_pitched. case_decide as H0; [done|]. destruct (strides !! (length shape - 1)%nat) as [l|] eqn:Hl; [|done]. cbn.
  destruct (Z.eqb_spec l 1) as [->|]; [|done]. cbn. case_decide as H1.
  { intros _. left. destruct shape as [|d [|]], strides as [|x [|]]; cbn in *; try lia. injection Hl as ->. by exists d. }
  case_decide; [done|]. intros Hloop. right. rewrite contiguous_loop_true in Hloop. destruct shape as [|d shape0 _] using rev_ind; [done|].
  destruct strides as [|x strides0 _] using rev_ind; [by rewrite length_app in Hlen; cbn in Hlen; lia|]. rewrite !length_app in *. cbn in *.
  rewrite list_lookup_middle in Hl by lia. injection Hl as ->. assert (length strides0 = length shape0) as Hlen0 by lia.
  destruct (lookup_lt_is_Some_2 strides0 (length shape0 - 1)%nat ltac:(lia)) as [s Hs]. exists shape0, d, s.
  assert (strides0 = (λ x, x * s) <$> strides_of shape0) as <-.
  { apply scaled_strides; [done|by rewrite last_lookup_pred, Hlen0|]. intros j Hj. destruct (Hloop j ltac:(lia)) as (a & b & a' & Ha & Hb & Ha' & Heq & Hm).
    rewrite lookup_app_l in Ha by lia. rewrite lookup_app_l in Hb by lia. rewrite lookup_app_l in Ha' by lia. by exists a, b, a'. }
  split_and!; [done|done| |lia]. rewrite lookup_app_l by lia. by replace (length shape0 + 1 - 2)%nat with (length shape0 - 1)%nat by lia.
Qed.

(** ** The linear view *)
(** The coordinates in the buffer of those of a shape it is broadcast to. *)
Definition broadcast_coords (shape dims c : list Z) : list Z := zip_with (λ i p, if p.1 =? p.2 then i else 0) c (zip shape dims).
Definition broadcasts (shape dims : list Z) : Prop := Forall2 (λ s d, s = d ∨ s = 1) shape dims.

Lemma broadcasts_refl shape : broadcasts shape shape.
Proof. unfold broadcasts. apply Forall_Forall2_diag, Forall_true. intros x. by left. Qed.
Lemma broadcast_coords_same shape c : in_bounds c shape → broadcast_coords shape shape c = c.
Proof. unfold broadcast_coords. induction 1 as [|i d c shape Hi Hc IH]; [done|]. cbn. by rewrite Z.eqb_refl, IH. Qed.
Lemma broadcast_coords_in shape dims c : broadcasts shape dims → in_bounds c dims → in_bounds (broadcast_coords shape dims c) shape.
Proof.
  intros Hb. revert c. induction Hb as [|s d shape dims Hs Hb IH]; intros c Hc; [apply Forall2_nil_inv_r in Hc as ->; constructor|].
  apply Forall2_cons_inv_r in Hc as (i & c' & Hi & Hc & ->). cbn. constructor; [|by apply IH]. destruct (Z.eqb_spec s d); lia.
Qed.
Lemma strides_ref_spec shape dims strides : broadcasts shape dims → length strides = length shape → Forall (Z.le 0) strides →
  ∃ strides', strides_ref shape dims strides = Some strides' ∧ length strides' = length dims ∧ Forall (Z.le 0) strides' ∧
    ∀ c, in_bounds c dims → offset_of c strides' = offset_of (broadcast_coords shape dims c) strides.
Proof.
  intros Hb Hlen Hnn. unfold strides_ref. rewrite decide_False by (rewrite (Forall2_length _ _ _ Hb); auto).
  assert (forallb (λ p, (p.1 =? p.2) || (p.1 =? 1)) (zip shape dims) = true) as ->.
  { clear Hlen. induction Hb as [|s d shape dims Hs Hb IH]; [done|]. cbn. rewrite IH, andb_true_r. destruct Hs as [-> | ->]; [by rewrite Z.eqb_refl|]. by rewrite orb_true_r. }
  eexists. split; [done|]. revert strides Hlen Hnn. induction Hb as [|s d shape dims Hs Hb IH]; intros [|x strides] Hlen Hnn; try done.
  { split_and!; [done|constructor|]. intros c Hc. by apply Forall2_nil_inv_r in Hc as ->. }
  apply Forall_cons in Hnn as [Hx Hnn]. destruct (IH strides ltac:(cbn in Hlen; lia) Hnn) as (Hl & Hn & Ho). cbn. split_and!; [by f_equal|constructor; [by case_match|done]|].
  intros c Hc. apply Forall2_cons_inv_r in Hc as (i & c' & Hi & Hc & ->). cbn [broadcast_coords zip_with zip]. rewrite !offset_of_cons. cbn.
  rewrite Ho by done. unfold broadcast_coords. destruct (s =? d); lia.
Qed.
Lemma in_bounds_le c shape d : in_bounds c shape → d ∈ shape → 1 <= d.
Proof. intros Hc Hd. apply list_elem_of_lookup in Hd as [i Hi]. destruct (Forall2_lookup_r _ _ _ _ _ Hc Hi) as (x & _ & Hx). lia. Qed.
Lemma dim_le_prod shape d : Forall (Z.le 1) shape → d ∈ shape → d <= prod_Z shape.
Proof.
  intros Hs Hd. induction Hs as [|d' shape Hd' Hs IH]; [by apply elem_of_nil in Hd|]. rewrite prod_Z_cons. pose proof (prod_Z_pos shape Hs).
  apply elem_of_cons in Hd as [->|Hd]; [nia|]. specialize (IH Hd). nia.
Qed.
Lemma contiguous_loop_total shape strides i n : length strides = length shape → (i + n < length shape)%nat →
  (∀ j d s, shape !! j = Some d → strides !! j = Some s → d * s <= u64_max) → is_Some (contiguous_loop shape strides i n).
Proof.
  intros Hlen Hb Hfit. revert i Hb. induction n as [|n IH]; intros i Hb; [by eexists|]. cbn [contiguous_loop].
  destruct (lookup_lt_is_Some_2 strides i ltac:(lia)) as [s Hs]. destruct (lookup_lt_is_Some_2 shape (S i) ltac:(lia)) as [d Hd].
  destruct (lookup_lt_is_Some_2 strides (S i) ltac:(lia)) as [s' Hs']. rewrite Hs. cbn. rewrite Hd. cbn. rewrite Hs'. cbn.
  rewrite mul_u64_Some by by eapply Hfit. cbn. case_decide; [by eexists|]. apply IH. lia.
Qed.
Lemma is_contiguous_pitched_total shape strides : shape ≠ [] → length strides = length shape →
  (∀ j d s, shape !! j = Some d → strides !! j = Some s → d * s <= u64_max) → is_Some (is_contiguous_pitched shape strides).
Proof.
  intros Hne Hlen Hfit. unfold is_contiguous_pitched. destruct shape as [|d0 shape0] eqn:Es; [done|]. rewrite <- Es in *. case_decide; [by subst|].
  destruct (lookup_lt_is_Some_2 strides (length shape - 1)%nat ltac:(lia)) as [s ->]. cbn. case_match; [by eexists|]. case_decide; [by eexists|].
  case_decide; [by eexists|]. apply contiguous_loop_total; [done|lia|done].
Qed.

Section linear_view.
Context (cast : Z → Z → option Z).
Context (cast_spec : ∀ w x, 0 < w → cast w x = if decide (0 <= x < 2 ^ w) then Some x else None).
Context (fast : bool) (size : Z) (size_ok : size = 4 ∨ size = 8).
Abbreviation w := (8 * size).

Lemma register_divides d : 1 <= d <= 2 ^ (w - 1) →
  match register_divisor cast fast 64 size d with Some f => divides_by w f d | None => fast = true ∧ size = 8 end.
Proof.
  intros Hd. pose proof (register_divisor_made cast cast_spec fast 64 size d ltac:(lia) Hd) as H.
  destruct (register_divisor cast fast 64 size d); [|naive_solver]. split; [done|apply H].
Qed.
Lemma register_dims shape : Forall (λ d, 1 <= d <= 2 ^ (w - 1)) shape →
  match mapM (register_divisor cast fast 64 size) shape with Some fs => Forall2 (divides_by w) fs shape | None => fast = true ∧ size = 8 end.
Proof.
  induction 1 as [|d shape Hd Hs IH]; [constructor|]. cbn. pose proof (register_divides d Hd) as Hf.
  destruct (register_divisor cast fast 64 size d); [|done]. cbn. destruct (mapM _ shape); [|done]. cbn. by constructor.
Qed.
(** A buffer a view of these dimensions can be made of. *)
Record view_ok (buffer : MemoryArg) (dims : list Z) : Prop := mk_view_ok {
  view_ranks : length (arg_strides buffer) = length (arg_shape buffer);
  view_strides : Forall (λ s, 0 <= s <= u64_max) (arg_strides buffer);
  view_len : arg_len buffer = prod_Z (arg_shape buffer);
  view_dims : Forall (Z.le 1) dims;
  view_fits : prod_Z dims <= 2 ^ (w - 1);
  view_broadcasts : broadcasts (arg_shape buffer) dims;
  view_addresses : ∀ c, in_bounds c (arg_shape buffer) → offset_of c (arg_strides buffer) < 2 ^ w;
}.
(** What a layout of these dimensions maps a position to. *)
Definition maps_rows (buffer : MemoryArg) (dims : list Z) (vs : Z) (l : LinearViewLayout) : Prop :=
  ∀ pos c, 0 <= pos → in_bounds c dims → offset_of c (strides_of dims) = pos * vs →
    to_source_pos (ViewLayout := linear_layout w) l pos =
      Some (offset_of (broadcast_coords (arg_shape buffer) dims c) (arg_strides buffer) / vs).
Definition bounded_by (l : LinearViewLayout) (len : Z) : Prop :=
  ∀ pos, is_in_bounds (ViewLayout := linear_layout w) l pos = Some (pos <? len).

Lemma view_dims_fit buffer dims : view_ok buffer dims → Forall (λ d, 1 <= d <= 2 ^ (w - 1)) dims.
Proof.
  intros [_ _ _ Hd Hp _ _]. apply Forall_forall. intros d Hin. pose proof (dim_le_prod _ _ Hd Hin). rewrite Forall_forall in Hd. specialize (Hd d Hin). lia.
Qed.
Lemma view_strides_nonneg buffer dims : view_ok buffer dims → Forall (Z.le 0) (arg_strides buffer).
Proof. intros [_ Hs _ _ _ _ _]. eapply Forall_impl; [exact Hs|]. cbn. lia. Qed.
Lemma permuted_maps buffer dims vs strides fs len : view_ok buffer dims → 1 <= vs →
  strides_ref (arg_shape buffer) dims (arg_strides buffer) = Some strides → Forall2 (divides_by w) fs dims →
  maps_rows buffer dims vs (Permuted (mk_PermutedLayout fs strides len vs)).
Proof.
  intros Hok Hvs Hr Hfs pos c Hpos Hc Hlin. cbn. unfold permuted_source_pos. cbn.
  destruct (strides_ref_spec _ dims _ (view_broadcasts _ _ Hok) (view_ranks _ _ Hok) (view_strides_nonneg _ _ Hok)) as (strides' & Hr' & Hlen & Hnn & Ho).
  rewrite Hr in Hr'. injection Hr' as <-. rewrite <- Ho by done. apply (permuted_offset w ltac:(lia) fs dims); try done.
  - apply (view_fits _ _ Hok).
  - rewrite Ho by done. apply (view_addresses _ _ Hok), broadcast_coords_in; [apply (view_broadcasts _ _ Hok)|done].
Qed.
Lemma strides_ref_same buffer : view_ok buffer (arg_shape buffer) →
  strides_ref (arg_shape buffer) (arg_shape buffer) (arg_strides buffer) = Some (arg_strides buffer).
Proof.
  intros Hok. unfold strides_ref. rewrite decide_False by auto. pose proof (view_ranks _ _ Hok) as Hlen. clear Hok.
  set (shape := arg_shape buffer) in *. set (strides := arg_strides buffer) in *. clearbody shape strides.
  assert (forallb (λ p, (p.1 =? p.2) || (p.1 =? 1)) (zip shape shape) = true) as ->.
  { clear. induction shape as [|d shape IH]; [done|]. cbn. by rewrite Z.eqb_refl. }
  f_equal. revert strides Hlen. induction shape as [|d shape IH]; intros [|s strides] Hlen; try done. cbn. rewrite Z.eqb_refl. f_equal. apply IH. cbn in Hlen. lia.
Qed.

Lemma one_coordinate shape i d : Forall (Z.le 1) shape → shape !! i = Some d →
  ∃ c, in_bounds c shape ∧ ∀ strides s, length strides = length shape → strides !! i = Some s → offset_of c strides = (d - 1) * s.
Proof.
  intros Hs. revert i. induction Hs as [|d' shape Hd' Hs IH]; intros i Hi; [done|]. destruct i as [|i]; cbn in Hi.
  - injection Hi as ->. exists ((d - 1) :: replicate (length shape) 0). split.
    + constructor; [lia|]. apply Forall2_replicate_l; [done|]. eapply Forall_impl; [exact Hs|]. cbn. lia.
    + intros [|s' strides] s Hlen Hs'; [done|]. injection Hs' as ->. rewrite offset_of_cons.
      assert (offset_of (replicate (length shape) 0) strides = 0); [|lia]. clear. revert strides. induction (length shape) as [|n IH]; intros [|x l]; try done.
      cbn [replicate]. rewrite offset_of_cons, IH. lia.
  - destruct (IH i Hi) as (c & Hc & Ho). exists (0 :: c). split; [constructor; [lia|done]|].
    intros [|s' strides] s Hlen Hs'; [done|]. rewrite offset_of_cons, (Ho strides s); [lia|cbn in Hlen; lia|done].
Qed.
Lemma broadcasts_prod shape dims : broadcasts shape dims → Forall (Z.le 1) dims → Forall (Z.le 1) shape ∧ prod_Z shape <= prod_Z dims.
Proof.
  induction 1 as [|s d shape dims Hs Hb IH]; [done|]. intros [Hd Hds]%Forall_cons. destruct (IH Hds) as [H1 H2]. rewrite !prod_Z_cons.
  pose proof (prod_Z_pos dims Hds). pose proof (prod_Z_pos shape H1). split; [constructor; [lia|done]|]. destruct Hs as [-> | ->]; nia.
Qed.
(** Without other dimensions than its own. *)
Lemma register_row_major buffer vs : view_ok buffer (arg_shape buffer) → 1 <= vs →
  match register_linear cast fast size None buffer vs with
  | None => size = 8
  | Some l => maps_rows buffer (arg_shape buffer) vs l ∧ bounded_by l (prod_Z (arg_shape buffer) / vs)
  end.
Proof.
  intros Hok Hvs. pose proof (view_dims _ _ Hok) as Hdims. pose proof (view_fits _ _ Hok) as Hfits. pose proof (view_ranks _ _ Hok) as Hlen.
  assert (2 ^ (w - 1) <= 2 ^ 63) as Hw63 by (apply Z.pow_le_mono_r; lia). pose proof (view_len _ _ Hok) as Hl.
  assert (strides_fit (arg_shape buffer)) as Hfit by (apply strides_fit_prod; [done|lia]).
  assert (∀ c, in_bounds c (arg_shape buffer) → broadcast_coords (arg_shape buffer) (arg_shape buffer) c = c) as Hsame by apply broadcast_coords_same.
  unfold register_linear. destruct (is_contiguous_spec _ _ Hfit Hlen) as (b & -> & Hb). cbn [mbind option_bind]. destruct b.
  { unfold register_plain, wdiv. rewrite decide_False by lia. cbn. split; [|by rewrite <- Hl].
    intros pos c Hpos Hc Hlin. cbn. rewrite Hsame by done. rewrite (proj1 Hb eq_refl), Hlin, Z.div_mul by lia. done. }
  destruct (is_contiguous_pitched (arg_shape buffer) (arg_strides buffer)) as [p|] eqn:Hp; cbn [mbind option_bind].
  2:{ destruct size_ok as [Hs4|]; [exfalso|done]. destruct (is_contiguous_pitched_total (arg_shape buffer) (arg_strides buffer)) as [? Ht]; [|done| |congruence].
      - intros Hnil. destruct Hb as [_ Hb]. discriminate Hb. destruct (arg_strides buffer); [by rewrite Hnil|by rewrite Hnil in Hlen].
      - intros j d s Hd Hs. destruct (one_coordinate _ _ _ Hdims Hd) as (c & Hc & Ho). pose proof (view_addresses _ _ Hok c Hc) as Ha. rewrite (Ho _ s) in Ha by done.
        pose proof (Forall_lookup_1 _ _ _ _ (view_strides _ _ Hok) Hs) as Hsb. pose proof (Forall_lookup_1 _ _ _ _ Hdims Hd) as Hd1. cbn in *.
        destruct (decide (d = 1)) as [->|]; [lia|]. rewrite Hs4 in Ha. change (2 ^ (8 * 4)) with 4294967296 in Ha. assert (0 <= (d - 2) * s) by nia. lia. }
  destruct p.
  - destruct (is_contiguous_pitched_true _ _ Hlen Hp) as [(d & Hsh & Hst)|(shape0 & d & s & Hsh & Hst & Hs & H2)].
    { exfalso. enough (false = true) by done. apply Hb. by rewrite Hsh, Hst. }
    unfold register_strided. unfold num_elements. rewrite product_from_Some by (done || lia). cbn [mbind option_bind].
    unfold wdiv at 1. rewrite decide_False by lia. cbn [mbind option_bind]. rewrite decide_False by lia.
    assert (arg_shape buffer !! (length (arg_shape buffer) - 1)%nat = Some d) as -> by (rewrite Hsh, length_app; cbn [length]; apply list_lookup_middle; lia).
    cbn [mbind option_bind]. assert (1 <= d <= 2 ^ (w - 1)) as Hd.
    { pose proof (view_dims_fit _ _ Hok) as Hf. rewrite Hsh in Hf. apply Forall_app in Hf as [_ Hf]. by apply Forall_cons in Hf as [? _]. }
    pose proof (register_divides d Hd) as Hf. destruct (register_divisor cast fast 64 size d) as [f|]; [|apply Hf]. cbn [mbind option_bind].
    rewrite Hs. cbn. rewrite Z.mul_1_l. split; [|done]. pose proof (Forall_lookup_1 _ _ _ _ (view_strides _ _ Hok) Hs) as Hsb. cbn in Hsb.
    intros pos c Hpos Hc Hlin. cbn. rewrite Hsame by done. pose proof (view_addresses _ _ Hok c Hc) as Ha. rewrite Hsh, Hst in *.
    eapply strided_offset; [lia|done|lia|done|done|done|done|done|done].
  - unfold register_permuted. cbn [mbind option_bind]. unfold wdiv. rewrite decide_False by lia. cbn [mbind option_bind].
    pose proof (register_dims (arg_shape buffer) (view_dims_fit _ _ Hok)) as Hfs. destruct (mapM _ (arg_shape buffer)) as [fs|] eqn:Efs; [|apply Hfs]. cbn [mbind option_bind fmap option_fmap option_map].
    split; [|intros pos; cbn; by rewrite Hl]. apply permuted_maps; [done|done|by apply strides_ref_same|done].
Qed.
(** C34: a linear view of a tensor, broadcast to reference dimensions or not,
    maps each position to the offset of the element at the coordinates that
    position has in row-major order, whichever of the three layouts the launch
    picks for the shape and the strides.  The dimensions are at least 1, their
    product is at most half of the range of the addresses, and the offsets fit it
    ([view_ok]).  Positions are in bounds up to the number of vectors, unless the
    view is broadcast: its bound is the number of dimensions over the size of a
    vector, not the extent [Layout::shape] documents, so that most positions of
    it are reported out of bounds ([broadcast_bound]).  With 32-bit addresses the
    launch does not panic. *)
Theorem linear_view_correct reference buffer vs :
  let dims := default (arg_shape buffer) reference in
  view_ok buffer dims → 1 <= vs →
  match register_linear cast fast size reference buffer vs with
  | None => size = 8
  | Some l =>
      (∀ pos, 0 <= pos → pos * vs < prod_Z dims → ∃ c, in_bounds c dims ∧ offset_of c (strides_of dims) = pos * vs ∧
        to_source_pos (ViewLayout := linear_layout w) l pos =
          Some (offset_of (broadcast_coords (arg_shape buffer) dims c) (arg_strides buffer) / vs)) ∧
      (dims = arg_shape buffer → bounded_by l (prod_Z dims / vs)) ∧
      (dims ≠ arg_shape buffer → bounded_by l (Z.of_nat (length dims) / vs))
  end.
Proof.
  intros dims Hok Hvs. pose proof (view_dims _ _ Hok) as Hdims. pose proof (broadcasts_prod _ _ (view_broadcasts _ _ Hok) Hdims) as [Hshape Hprod].
  assert (2 ^ (w - 1) <= 2 ^ 63) as Hw63 by (apply Z.pow_le_mono_r; lia). pose proof (view_fits _ _ Hok) as Hfits.
  assert (∀ l, maps_rows buffer dims vs l → ∀ pos, 0 <= pos → pos * vs < prod_Z dims → ∃ c, in_bounds c dims ∧ offset_of c (strides_of dims) = pos * vs ∧
    to_source_pos (ViewLayout := linear_layout w) l pos = Some (offset_of (broadcast_coords (arg_shape buffer) dims c) (arg_strides buffer) / vs)) as Hfind.
  { intros l Hl pos Hpos Hlt. destruct (strides_of_onto dims (pos * vs)) as (c & Hc & Ho); [lia|eapply Forall_impl; [exact Hdims|]; cbn; lia|].
    exists c. split_and!; [done|done|]. by apply Hl. }
  destruct (decide (dims = arg_shape buffer)) as [Heq|Hne].
  - assert (register_linear cast fast size reference buffer vs = register_linear cast fast size None buffer vs) as ->.
    { unfold register_linear. destruct reference as [r|]; [|done]. cbn in dims. subst dims. rewrite decide_False by auto. done. }
    pose proof (register_row_major buffer vs) as Hr. rewrite <- Heq in Hr at 1. specialize (Hr Hok Hvs).
    destruct (register_linear cast fast size None buffer vs) as [l|]; [|done]. destruct Hr as [Hm Hl]. rewrite <- Heq in Hm, Hl.
    split; [by apply Hfind|]. split; [done|by intros []].
  - destruct reference as [r|]; [|by destruct Hne]. cbn in dims. subst dims. unfold register_linear. rewrite decide_True by done.
    unfold register_permuted.
    destruct (strides_ref_spec _ r _ (view_broadcasts _ _ Hok) (view_ranks _ _ Hok) (view_strides_nonneg _ _ Hok)) as (strides & Hs & _). rewrite Hs. cbn.
    unfold wdiv. rewrite decide_False by lia. cbn. pose proof (register_dims r (view_dims_fit _ _ Hok)) as Hfs.
    destruct (mapM _ r) as [fs|] eqn:Efs; cbn; [|apply Hfs]. split; [|split; [by intros ?|done]].
    apply (Hfind (Permuted (mk_PermutedLayout fs strides (Z.of_nat (length r) / vs) vs))). by apply permuted_maps.
Qed.
End linear_view.

(** A pitched matrix of two rows of three elements, four apart. *)
Definition pitched : MemoryArg := mk_MemoryArg 6 [2; 3] [4; 1].
Lemma offsets_below shape strides bound : Forall (Z.le 0) strides → length strides = length shape →
  offset_of ((λ d, d - 1) <$> shape) strides <= bound → ∀ c, in_bounds c shape → offset_of c strides <= bound.
Proof.
  intros Hs Hl Hb c Hc. etrans; [|exact Hb]. clear Hb. revert strides Hs Hl. induction Hc as [|i d c shape Hi Hc IH]; intros [|s strides] Hs Hl; try done.
  apply Forall_cons in Hs as [Hs0 Hs]. cbn [fmap list_fmap]. rewrite !offset_of_cons. specialize (IH strides Hs ltac:(cbn in Hl; lia)). nia.
Qed.
Lemma linear_view_correct_witness : ∃ l, register_linear checked_cast true 4 None pitched 1 = Some l ∧
  to_source_pos (ViewLayout := linear_layout 32) l 5 = Some 6.
Proof.
  destruct (register_linear checked_cast true 4 None pitched 1) as [l|] eqn:E; [|vm_compute in E; discriminate E].
  exists l. split; [reflexivity|].
  pose proof (linear_view_correct checked_cast (λ _ _ _, eq_refl) true 4 (or_introl eq_refl) None pitched 1) as H. rewrite E in H.
  assert (view_ok 4 pitched [2; 3]) as Hok.
  { split; [reflexivity| | reflexivity| |vm_compute; discriminate|apply broadcasts_refl|].
    - cbn. repeat constructor; vm_compute; discriminate.
    - repeat constructor; lia.
    - intros c Hc. apply (Z.le_lt_trans _ 6); [|reflexivity].
      apply (offsets_below [2; 3]); [cbn; repeat constructor; lia|reflexivity|vm_compute; discriminate|exact Hc]. }
  destruct (H Hok ltac:(lia)) as (Hpos & _). destruct (Hpos 5) as (c & Hc & Ho & Hs); [lia|vm_compute; reflexivity|]. etransitivity; [exact Hs|]. clear Hs.
  apply Forall2_cons_inv_r in Hc as (i & c1 & Hi & Hc & ->). apply Forall2_cons_inv_r in Hc as (j & c2 & Hj & Hc & ->). apply Forall2_nil_inv_r in Hc as ->.
  cbn in Ho. assert (i = 1 ∧ j = 2) as [-> ->] by lia. reflexivity.
Defined.
(** A row broadcast to four rows: of its 32 elements only the first two are in bounds. *)
Example broadcast_bound :
  (l ← register_linear checked_cast true 4 (Some [4; 8]) (mk_MemoryArg 8 [1; 8] [8; 1]) 1; mapM (is_in_bounds (ViewLayout := linear_layout 32) l) [1; 2; 31]) =
  Some [true; false; false].
Proof. reflexivity. Qed.
