(* ===== verification/TiledViews.v ===== *)
(** * Layouts of coordinates

    [cubecl-std/src/tensor/layout/tiled_view.rs], [fixed_dim.rs], [slice.rs] and
    [chain.rs]: tiled tensors seen through their logical coordinates, strided
    tensors of a fixed rank, windows of a layout and layouts after one another.
    Coordinates are [u32]; what is computed at compile time of the kernel (ranks,
    axes and levels) is a natural number, and an index out of a sequence or an
    underflow there is a panic of the expansion, [None]. *)

From S2P Require Export Views.
From stdpp Require Import list.
#[local] Open Scope Z_scope.

(** ** Tiles *)
Record TiledLayout := mk_TiledLayout { physical_shape : list Z; start_axis : nat; num_tiled : nat; tile_levels : nat }.

(** The product of the factors of an axis in the blocks finer than [k]. *)
Fixpoint finer_product (l : TiledLayout) (i k : nat) (blocks : list nat) (divisor : Z) : option Z :=
  match blocks with
  | [] => Some divisor
  | finer :: blocks =>
      if decide (k < finer)%nat then
        d ← physical_shape l !! (start_axis l + finer * num_tiled l + i)%nat;
        finer_product l i k blocks (wmul 32 divisor d)
      else finer_product l i k blocks divisor
  end.
Definition tile_digit (l : TiledLayout) (pos : list Z) (k i : nat) : option Z :=
  divisor ← finer_product l i k (seq 0 (tile_levels l + 1)) 1;
  c ← pos !! (start_axis l + i)%nat;
  digit ← wdiv c divisor;
  if decide (k = 0)%nat then Some digit
  else d ← physical_shape l !! (start_axis l + k * num_tiled l + i)%nat; wmod digit d.
Definition tiled_source_pos (l : TiledLayout) (pos : list Z) : option (list Z) :=
  let n := num_tiled l in
  pre ← mapM (λ i, pos !! i) (seq 0 (start_axis l));
  blocks ← mapM (λ k, mapM (tile_digit l pos k) (seq 0 n)) (seq 0 (tile_levels l + 1));
  if decide (length (physical_shape l) < start_axis l + (tile_levels l + 1) * n)%nat then None
  else
    post ← mapM (λ i, pos !! (start_axis l + n + i)%nat) (seq 0 (length (physical_shape l) - (start_axis l + (tile_levels l + 1) * n)));
    Some (pre ++ concat blocks ++ post).
Fixpoint axis_extent (l : TiledLayout) (i : nat) (blocks : list nat) (extent : Z) : option Z :=
  match blocks with
  | [] => Some extent
  | k :: blocks => d ← physical_shape l !! (start_axis l + k * num_tiled l + i)%nat; axis_extent l i blocks (wmul 32 extent d)
  end.
Definition tiled_shape (l : TiledLayout) : option (list Z) :=
  let n := num_tiled l in
  pre ← mapM (λ i, physical_shape l !! i) (seq 0 (start_axis l));
  axes ← mapM (λ i, axis_extent l i (seq 0 (tile_levels l + 1)) 1) (seq 0 n);
  if decide (length (physical_shape l) < start_axis l + (tile_levels l + 1) * n)%nat then None
  else
    post ← mapM (λ i, physical_shape l !! (start_axis l + (tile_levels l + 1) * n + i)%nat)
             (seq 0 (length (physical_shape l) - (start_axis l + (tile_levels l + 1) * n)));
    Some (pre ++ axes ++ post).
(** The bounds of a position of sequences: an index past the end of [pos] is a panic. *)
Definition dyn_in_bounds (pos bounds : list Z) : option bool :=
  if decide (length pos < length bounds)%nat then None else Some (forallb (λ p, p.1 <? p.2) (zip pos bounds)).
Definition tiled_in_bounds (l : TiledLayout) (pos : list Z) : option bool := bounds ← tiled_shape l; dyn_in_bounds pos bounds.
#[export] Instance tiled_layout : ViewLayout TiledLayout (list Z) (list Z) := {|
  to_source_pos := tiled_source_pos;
  is_in_bounds := tiled_in_bounds;
  to_source_pos_checked l pos := b ← tiled_in_bounds l pos; s ← tiled_source_pos l pos; Some (s, b);
  view_shape := tiled_shape;
|}.
Record TiledViewLayout := mk_TiledViewLayout { tiled_split : TiledLayout; physical_strides : list Z }.
(** The sum of the products with the strides, in integers of [w] bits. *)
Fixpoint strided_sum (w : Z) (pos strides : list Z) (offset : Z) : option Z :=
  match strides, pos with
  | [], _ => Some offset
  | s :: strides, p :: pos => strided_sum w pos strides (wadd w offset (wmul w p s))
  | _ :: _, [] => None
  end.
Definition tiled_view_source_pos (l : TiledViewLayout) (pos : list Z) : option Z :=
  physical ← tiled_source_pos (tiled_split l) pos; strided_sum 32 physical (physical_strides l) 0.
#[export] Instance tiled_view_layout : ViewLayout TiledViewLayout (list Z) Z := {|
  to_source_pos := tiled_view_source_pos;
  is_in_bounds l pos := tiled_in_bounds (tiled_split l) pos;
  to_source_pos_checked l pos := b ← tiled_in_bounds (tiled_split l) pos; s ← tiled_view_source_pos l pos; Some (s, b);
  view_shape l := tiled_shape (tiled_split l);
|}.
(** [TileSpec] and the registration: dimensions and strides are truncated to [u32]. *)
Record TileSpec := mk_TileSpec { spec_start_axis : Z; spec_num_tiled : nat; spec_levels : nat }.
Definition register_tiled_view (spec : TileSpec) (buffer : MemoryArg) : TiledViewLayout :=
  mk_TiledViewLayout
    (mk_TiledLayout (as_u32 <$> arg_shape buffer) (Z.to_nat (spec_start_axis spec)) (spec_num_tiled spec) (spec_levels spec))
    (as_u32 <$> arg_strides buffer).

(** ** Strided tensors of a fixed rank *)
Record FixedDimLayout := mk_FixedDimLayout { fixed_shape : list Z; fixed_strides : list Z; fixed_vector_size : Z; fixed_checked : bool }.
(** The loop runs over the coordinates. *)
Fixpoint fixed_sum (w : Z) (pos strides : list Z) (offset : Z) : option Z :=
  match pos, strides with
  | [], _ => Some offset
  | p :: pos, s :: strides => fixed_sum w pos strides (wadd w offset (wmul w p s))
  | _ :: _, [] => None
  end.
Definition fixed_source_pos (w : Z) (l : FixedDimLayout) (pos : list Z) : option Z :=
  offset ← fixed_sum w pos (fixed_strides l) 0; wdiv offset (fixed_vector_size l).
Definition fixed_in_bounds (l : FixedDimLayout) (pos : list Z) : option bool :=
  if fixed_checked l then
    if decide (length (fixed_shape l) < length pos)%nat then None else Some (forallb (λ p, p.1 <? p.2) (zip pos (fixed_shape l)))
  else Some true.
Definition fixed_dim_layout (w : Z) : ViewLayout FixedDimLayout (list Z) Z := {|
  to_source_pos := fixed_source_pos w;
  is_in_bounds := fixed_in_bounds;
  to_source_pos_checked l pos := s ← fixed_source_pos w l pos; b ← fixed_in_bounds l pos; Some (s, b);
  view_shape l := Some (fixed_shape l);
|}.

(** ** Windows and chains *)
Record SliceLayout := mk_SliceLayout { slice_start : list Z; slice_size : list Z; slice_checked : bool }.
Definition coords_add (a b : list Z) : option (list Z) :=
  if decide (length b < length a)%nat then None else Some (zip_with (wadd 32) a b).
#[export] Instance slice_layout : ViewLayout SliceLayout (list Z) (list Z) := {|
  to_source_pos l pos := coords_add (slice_start l) pos;
  is_in_bounds l pos :=
    if slice_checked l then if decide (length (slice_size l) < length pos)%nat then None else Some (forallb (λ p, p.1 <? p.2) (zip pos (slice_size l)))
    else Some true;
  to_source_pos_checked l pos :=
    b ← (if slice_checked l then if decide (length (slice_size l) < length pos)%nat then None else Some (forallb (λ p, p.1 <? p.2) (zip pos (slice_size l)))
         else Some true);
    s ← coords_add (slice_start l) pos; Some (s, b);
  view_shape l := Some (slice_size l);
|}.
Record Chain (L0 L1 : Type) := mk_Chain { chain_l0 : L0; chain_l1 : L1 }.
Arguments mk_Chain {L0 L1}. Arguments chain_l0 {L0 L1}. Arguments chain_l1 {L0 L1}.
Section chain.
Context {L0 L1 C S T : Type} `{!ViewLayout L0 S T} `{!ViewLayout L1 C S}.
#[export] Instance chain_layout : ViewLayout (Chain L0 L1) C T := {|
  to_source_pos l pos := pos ← to_source_pos (S := S) (chain_l1 l) pos; to_source_pos (chain_l0 l) pos;
  is_in_bounds l pos :=
    '(pos, l1_in_bounds) ← to_source_pos_checked (S := S) (chain_l1 l) pos;
    b ← is_in_bounds (S := T) (chain_l0 l) pos; Some (b && l1_in_bounds);
  to_source_pos_checked l pos :=
    '(pos, l1_in_bounds) ← to_source_pos_checked (S := S) (chain_l1 l) pos;
    '(pos, l0_in_bounds) ← to_source_pos_checked (S := T) (chain_l0 l) pos; Some (pos, l0_in_bounds && l1_in_bounds);
  view_shape l := view_shape (S := S) (chain_l1 l);
|}.
(** A chain of layouts keeps the promise of both. *)
#[export] Instance chain_laws `{!ViewLayoutLaws L0 S T} `{!ViewLayoutLaws L1 C S} : ViewLayoutLaws (Chain L0 L1) C T.
Proof.
  split. intros l pos. cbn. rewrite (checked_is_both (S := S)). destruct (to_source_pos (chain_l1 l) pos) as [p|]; [|done]. cbn.
  destruct (is_in_bounds (S := S) (chain_l1 l) pos) as [b|]; cbn.
  - rewrite (checked_is_both (S := T)). destruct (to_source_pos (chain_l0 l) p); [|done]. cbn. by destruct (is_in_bounds (S := T) (chain_l0 l) p).
  - by destruct (to_source_pos (chain_l0 l) p).
Qed.
End chain.
#[export] Instance tiled_laws : ViewLayoutLaws TiledLayout (list Z) (list Z).
Proof. split. intros l pos. cbn. by destruct (tiled_source_pos l pos), (tiled_in_bounds l pos). Qed.
#[export] Instance tiled_view_laws : ViewLayoutLaws TiledViewLayout (list Z) Z.
Proof. split. intros l pos. cbn. by destruct (tiled_view_source_pos l pos), (tiled_in_bounds (tiled_split l) pos). Qed.
#[export] Instance slice_laws : ViewLayoutLaws SliceLayout (list Z) (list Z).
Proof. split. intros l pos. cbn. by destruct (if slice_checked l then _ else _), (coords_add (slice_start l) pos). Qed.
Lemma fixed_dim_laws w : ViewLayoutLaws (ViewLayout0 := fixed_dim_layout w) FixedDimLayout (list Z) Z.
Proof. done. Qed.

(** ** Grids *)
Lemma mapM_Some_map {A B} (f : A → option B) g l : (∀ x, x ∈ l → f x = Some (g x)) → mapM f l = Some (g <$> l).
Proof.
  induction l as [|x l IH]; intros H; [done|]. cbn. rewrite (H x) by by left. cbn. rewrite IH by (intros y Hy; apply H; by right). done.
Qed.
Lemma mapM_take {A} (l : list A) n : (n <= length l)%nat → mapM (λ i, l !! i) (seq 0 n) = Some (take n l).
Proof.
  intros Hn. apply mapM_Some_2, Forall2_same_length_lookup. rewrite length_seq, length_take. split; [lia|].
  intros i x y Hx%lookup_seq Hy. destruct Hx as [-> Hx]. rewrite lookup_take_lt in Hy by done. done.
Qed.
Lemma mapM_drop {A} (l : list A) s n : length l = (s + n)%nat → mapM (λ i, l !! (s + i)%nat) (seq 0 n) = Some (drop s l).
Proof.
  intros Hn. apply mapM_Some_2, Forall2_same_length_lookup. rewrite length_seq, length_drop. split; [lia|].
  intros i x y Hx%lookup_seq Hy. destruct Hx as [-> Hx]. by rewrite lookup_drop in Hy.
Qed.
Definition grid (m n : nat) (f : nat → nat → Z) : list Z := concat ((λ k, f k <$> seq 0 n) <$> seq 0 m).
Lemma grid_S m n f : grid (S m) n f = (f 0%nat <$> seq 0 n) ++ grid m n (λ k, f (S k)).
Proof. unfold grid. cbn [seq fmap list_fmap concat]. f_equal. f_equal. by rewrite <- fmap_S_seq, <- list_fmap_compose. Qed.
Lemma grid_length m n f : length (grid m n f) = (m * n)%nat.
Proof. revert f. induction m as [|m IH]; intros f; [done|]. rewrite grid_S, length_app, IH, length_fmap, length_seq. lia. Qed.
Lemma grid_lookup m n f k i : (k < m)%nat → (i < n)%nat → grid m n f !! (k * n + i)%nat = Some (f k i).
Proof.
  revert f k. induction m as [|m IH]; intros f k Hk Hi; [lia|]. rewrite grid_S. destruct k as [|k].
  - rewrite lookup_app_l by (rewrite length_fmap, length_seq; lia). rewrite list_lookup_fmap, lookup_seq_lt by lia. done.
  - rewrite lookup_app_r by (rewrite length_fmap, length_seq; lia). rewrite length_fmap, length_seq.
    replace (S k * n + i - n)%nat with (k * n + i)%nat by lia. by rewrite IH by lia.
Qed.
Lemma grid_index m n j : (j < m * n)%nat → ∃ k i, j = (k * n + i)%nat ∧ (k < m)%nat ∧ (i < n)%nat.
Proof.
  intros Hj. assert (n ≠ 0)%nat as Hn by lia. exists (j / n)%nat, (j mod n)%nat. pose proof (Nat.div_mod j n Hn). pose proof (Nat.mod_upper_bound j n Hn).
  split_and!; [lia| |lia]. apply Nat.Div0.div_lt_upper_bound. lia.
Qed.
Lemma grid_eq m n f l : length l = (m * n)%nat → (∀ k i, (k < m)%nat → (i < n)%nat → l !! (k * n + i)%nat = Some (f k i)) → grid m n f = l.
Proof.
  intros Hl H. apply list_eq_same_length with (n := (m * n)%nat); [done|apply grid_length|]. intros j x y Hj Hx Hy.
  destruct (grid_index m n j Hj) as (k & i & -> & Hk & Hi). rewrite grid_lookup in Hx by done. rewrite H in Hy by done. congruence.
Qed.

(** ** One axis: mixed-radix digits *)
Lemma digit_of T c k x d : in_bounds c T → c !! k = Some x → T !! k = Some d →
  (offset_of c (strides_of T) / prod_Z (drop (S k) T)) mod d = x ∧ (k = 0%nat → offset_of c (strides_of T) / prod_Z (drop (S k) T) = x).
Proof.
  intros Hc. revert k. induction Hc as [|i t c T Hi Hc IH]; intros k Hx Hd; [done|]. pose proof (strides_of_bound _ _ Hc) as Hb. cbn [strides_of].
  rewrite offset_of_cons. destruct k as [|k]; cbn in Hx, Hd.
  - injection Hx as ->. injection Hd as ->. cbn [drop]. rewrite drop_0. assert ((x * prod_Z T + offset_of c (strides_of T)) / prod_Z T = x) as ->.
    { symmetry. apply (Z.div_unique_pos _ _ _ (offset_of c (strides_of T))); lia. }
    split; [apply Z.mod_small; lia|done].
  - destruct (IH k Hx Hd) as [H1 _]. split; [|done]. cbn [drop]. rewrite <- H1.
    assert (prod_Z T = prod_Z (take k T) * d * prod_Z (drop (S k) T)) as Hp.
    { rewrite <- (take_drop_middle T k d Hd) at 1. rewrite prod_Z_app, prod_Z_cons. ring. }
    assert (1 <= d) as Hd1 by (eapply in_bounds_le; [exact Hc|by eapply list_elem_of_lookup_2]).
    assert (1 <= prod_Z (drop (S k) T)) as Hq.
    { apply prod_Z_pos, Forall_drop, Forall_forall. intros t' Ht'. by eapply in_bounds_le. }
    rewrite Hp, Z.add_comm. replace (i * (prod_Z (take k T) * d * prod_Z (drop (S k) T))) with (i * prod_Z (take k T) * d * prod_Z (drop (S k) T)) by ring.
    rewrite Z.div_add, Z.mod_add by lia. done.
Qed.

Section tiles.
Context (l : TiledLayout).
Abbreviation n := (num_tiled l). Abbreviation m := (tile_levels l + 1)%nat. Abbreviation start := (start_axis l). Abbreviation dims := (physical_shape l).
(** The entries of an axis, coarsest first. *)
Definition column (x : list Z) (i : nat) : list Z := omap (λ k, x !! (start + k * n + i)%nat) (seq 0 m).
Definition logical_dims : list Z := take start dims ++ ((λ i, prod_Z (column dims i)) <$> seq 0 n) ++ drop (start + m * n) dims.
(** The reference: the logical coordinate of an axis is the row-major index of its digits. *)
Definition merge_tiles (phys : list Z) : list Z :=
  take start phys ++ ((λ i, offset_of (column phys i) (strides_of (column dims i))) <$> seq 0 n) ++ drop (start + m * n) phys.
Record tiles_ok : Prop := mk_tiles_ok {
  tiles_rank : (start + m * n <= length dims)%nat;
  tiles_dims : Forall (λ d, 1 <= d <= u32_max) dims;
  tiles_axes : ∀ i, (i < n)%nat → prod_Z (column dims i) <= u32_max;
}.
Lemma column_index k i : (k < m)%nat → (i < n)%nat → (start + k * n + i < start + m * n)%nat.
Proof. intros Hk Hi. pose proof (Nat.mul_le_mono_r (S k) m n ltac:(lia)). lia. Qed.
Lemma column_fmap x i : (start + m * n <= length x)%nat → (i < n)%nat →
  column x i = (λ k, default 0 (x !! (start + k * n + i)%nat)) <$> seq 0 m.
Proof.
  intros Hx Hi. unfold column. assert (∀ a b, (a + b <= m)%nat → omap (λ k, x !! (start + k * n + i)%nat) (seq a b) = (λ k, default 0 (x !! (start + k * n + i)%nat)) <$> seq a b) as Heq;
    [|by apply Heq].
  intros a b. revert a. induction b as [|b IH]; intros a Hab; [done|]. cbn. destruct (lookup_lt_is_Some_2 x (start + a * n + i)%nat) as [y Hy].
  { pose proof (column_index a i ltac:(lia) Hi). lia. }
  rewrite Hy. cbn. by rewrite IH by lia.
Qed.
Lemma column_lookup x i k : (start + m * n <= length x)%nat → (i < n)%nat → (k < m)%nat → column x i !! k = x !! (start + k * n + i)%nat.
Proof.
  intros Hx Hi Hk. rewrite column_fmap, list_lookup_fmap, lookup_seq_lt by done. cbn. destruct (lookup_lt_is_Some_2 x (start + k * n + i)%nat) as [y ->]; [|done].
  pose proof (column_index k i Hk Hi). lia.
Qed.
Lemma column_length x i : (start + m * n <= length x)%nat → (i < n)%nat → length (column x i) = m.
Proof. intros Hx Hi. by rewrite column_fmap, length_fmap, length_seq. Qed.
Lemma column_bounds phys i : (start + m * n <= length dims)%nat → in_bounds phys dims → (i < n)%nat → in_bounds (column phys i) (column dims i).
Proof.
  intros Hr Hp Hi. pose proof (Forall2_length _ _ _ Hp) as Hl. apply Forall2_same_length_lookup. rewrite !column_length by lia. split; [done|].
  intros k x d Hx Hd. pose proof (lookup_lt_Some _ _ _ Hd) as Hk. rewrite column_length in Hk by lia. rewrite column_lookup in Hx, Hd by lia.
  by apply (Forall2_lookup_lr _ _ _ _ _ _ Hp Hx Hd).
Qed.
Lemma column_pos i : tiles_ok → (i < n)%nat → Forall (Z.le 1) (column dims i).
Proof.
  intros Hok Hi. apply Forall_lookup_2. intros k d Hd. pose proof (lookup_lt_Some _ _ _ Hd) as Hk. pose proof (tiles_rank Hok).
  rewrite column_length in Hk by lia. rewrite column_lookup in Hd by lia. by destruct (Forall_lookup_1 _ _ _ _ (tiles_dims Hok) Hd).
Qed.

(** *** What the loops compute *)
Lemma finer_product_spec i k j b acc : tiles_ok → (i < n)%nat → (j + b = m)%nat → 0 <= acc → acc * prod_Z (drop (j `max` S k) (column dims i)) <= u32_max →
  finer_product l i k (seq j b) acc = Some (acc * prod_Z (drop (j `max` S k) (column dims i))).
Proof.
  intros Hok Hi. revert j acc. pose proof (tiles_rank Hok) as Hr. pose proof (column_length dims i Hr Hi) as Hlen. induction b as [|b IH]; intros j acc Hj Ha Hb; cbn [seq finer_product].
  { rewrite drop_ge by lia. cbn. f_equal. lia. }
  case_decide as Hk.
  - destruct (lookup_lt_is_Some_2 (column dims i) j ltac:(lia)) as [d Hd]. pose proof (column_lookup dims i j Hr Hi ltac:(lia)) as Hd'. rewrite Hd in Hd'. rewrite <- Hd'. cbn [mbind option_bind].
    replace (j `max` S k)%nat with j in * by lia. rewrite (drop_S _ _ _ Hd), prod_Z_cons in Hb |- *.
    pose proof (Forall_lookup_1 _ _ _ _ (column_pos i Hok Hi) Hd) as Hd1. cbn in Hd1.
    assert (1 <= prod_Z (drop (S j) (column dims i))) as Hp by (apply prod_Z_pos, Forall_drop, column_pos; done).
    unfold wmul. assert (acc * d * 1 <= acc * d * prod_Z (drop (S j) (column dims i))) by (apply Z.mul_le_mono_nonneg_l; nia).
    rewrite wrap_small by (change (2 ^ 32) with 4294967296; nia). rewrite IH; replace (S j `max` S k)%nat with (S j) by lia; [f_equal; lia|lia|nia|lia].
  - rewrite IH by (try lia; by replace (S j `max` S k)%nat with (j `max` S k)%nat by lia). by replace (S j `max` S k)%nat with (j `max` S k)%nat by lia.
Qed.
Lemma axis_extent_spec i j b acc : tiles_ok → (i < n)%nat → (j + b = m)%nat → 0 <= acc → acc * prod_Z (drop j (column dims i)) <= u32_max →
  axis_extent l i (seq j b) acc = Some (acc * prod_Z (drop j (column dims i))).
Proof.
  intros Hok Hi. revert j acc. pose proof (tiles_rank Hok) as Hr. pose proof (column_length dims i Hr Hi) as Hlen. induction b as [|b IH]; intros j acc Hj Ha Hb; cbn [seq axis_extent].
  { rewrite drop_ge by lia. cbn. f_equal. lia. }
  destruct (lookup_lt_is_Some_2 (column dims i) j ltac:(lia)) as [d Hd]. pose proof (column_lookup dims i j Hr Hi ltac:(lia)) as Hd'. rewrite Hd in Hd'. rewrite <- Hd'. cbn [mbind option_bind].
  rewrite (drop_S _ _ _ Hd), prod_Z_cons in Hb |- *. pose proof (Forall_lookup_1 _ _ _ _ (column_pos i Hok Hi) Hd) as Hd1. cbn in Hd1.
  assert (1 <= prod_Z (drop (S j) (column dims i))) as Hp by (apply prod_Z_pos, Forall_drop, column_pos; done).
  unfold wmul. assert (acc * d * 1 <= acc * d * prod_Z (drop (S j) (column dims i))) by (apply Z.mul_le_mono_nonneg_l; nia).
  rewrite wrap_small by (change (2 ^ 32) with 4294967296; nia). rewrite IH; [f_equal; lia|lia|nia|lia].
Qed.
Lemma tiled_shape_spec : tiles_ok → tiled_shape l = Some logical_dims.
Proof.
  intros Hok. pose proof (tiles_rank Hok) as Hr. unfold tiled_shape. rewrite mapM_take by lia. cbn [mbind option_bind].
  rewrite (mapM_Some_map (λ i, axis_extent l i (seq 0 m) 1) (λ i, prod_Z (column dims i))).
  2:{ intros i Hi%elem_of_seq. cbn beta. rewrite axis_extent_spec; [rewrite drop_0; f_equal; lia|done|lia|lia|lia|]. rewrite drop_0. pose proof (tiles_axes Hok i ltac:(lia)). lia. }
  cbn [mbind option_bind]. rewrite decide_False by lia. rewrite mapM_drop by lia. done.
Qed.
(** The split of merged coordinates. *)
Lemma merge_lookup phys i : (start + m * n <= length phys)%nat → (i < n)%nat →
  merge_tiles phys !! (start + i)%nat = Some (offset_of (column phys i) (strides_of (column dims i))).
Proof.
  intros Hl Hi. unfold merge_tiles. assert (length (take start phys) = start) as Ht by (rewrite length_take; lia).
  rewrite lookup_app_r by lia. rewrite Ht. replace (start + i - start)%nat with i by lia.
  rewrite lookup_app_l by (rewrite length_fmap, length_seq; lia). by rewrite list_lookup_fmap, lookup_seq_lt.
Qed.
Lemma tile_digit_spec phys k i : tiles_ok → in_bounds phys dims → (k < m)%nat → (i < n)%nat →
  tile_digit l (merge_tiles phys) k i = phys !! (start + k * n + i)%nat.
Proof.
  intros Hok Hp Hk Hi. pose proof (tiles_rank Hok) as Hr. pose proof (Forall2_length _ _ _ Hp) as Hl. unfold tile_digit.
  pose proof (column_pos i Hok Hi) as Hpos. pose proof (tiles_axes Hok i Hi) as Hax. pose proof (column_length dims i Hr Hi) as Hlen.
  assert (prod_Z (drop (S k) (column dims i)) <= prod_Z (column dims i)) as Hle.
  { rewrite <- (take_drop (S k) (column dims i)) at 2. rewrite prod_Z_app. pose proof (prod_Z_pos _ (Forall_take _ (S k) _ Hpos)).
    pose proof (prod_Z_pos _ (Forall_drop _ (S k) _ Hpos)). nia. }
  rewrite finer_product_spec by (done || lia || (cbn [Nat.max]; lia)). replace (0 `max` S k)%nat with (S k) by lia. cbn [mbind option_bind].
  rewrite merge_lookup by lia. cbn [mbind option_bind]. unfold wdiv. pose proof (prod_Z_pos _ (Forall_drop _ (S k) _ Hpos)) as Hdp. rewrite decide_False by lia. cbn [mbind option_bind].
  destruct (lookup_lt_is_Some_2 (column dims i) k ltac:(lia)) as [d Hd]. destruct (lookup_lt_is_Some_2 (column phys i) k) as [x Hx]; [rewrite column_length by lia; lia|].
  destruct (digit_of _ _ k x d (column_bounds phys i Hr Hp Hi) Hx Hd) as [Hm H0]. rewrite Z.mul_1_l.
  rewrite column_lookup in Hx by lia. rewrite column_lookup in Hd by lia. rewrite Hx. case_decide as Hk0; [by rewrite H0|].
  rewrite Hd. cbn [mbind option_bind]. unfold wmod. destruct (Forall_lookup_1 _ _ _ _ (tiles_dims Hok) Hd). rewrite decide_False by lia. by rewrite Hm.
Qed.
Lemma tiled_source_merge phys : tiles_ok → in_bounds phys dims → tiled_source_pos l (merge_tiles phys) = Some phys.
Proof.
  intros Hok Hp. pose proof (tiles_rank Hok) as Hr. pose proof (Forall2_length _ _ _ Hp) as Hl. unfold tiled_source_pos.
  assert (length (merge_tiles phys) = start + n + (length phys - (start + m * n)))%nat as Hml.
  { unfold merge_tiles. rewrite !length_app, length_take, length_fmap, length_seq, length_drop. lia. }
  rewrite mapM_take by lia. cbn [mbind option_bind].
  rewrite (mapM_Some_map (λ k, mapM (tile_digit l (merge_tiles phys) k) (seq 0 n)) (λ k, (λ i, default 0 (phys !! (start + k * n + i)%nat)) <$> seq 0 n)).
  2:{ intros k Hk%elem_of_seq. cbn beta. apply mapM_Some_map. intros i Hi%elem_of_seq. rewrite tile_digit_spec by (done || lia).
      destruct (lookup_lt_is_Some_2 phys (start + k * n + i)%nat) as [y ->]; [|done]. pose proof (column_index k i ltac:(lia) ltac:(lia)). lia. }
  cbn [mbind option_bind]. rewrite decide_False by lia. rewrite mapM_drop by lia. cbn [mbind option_bind]. f_equal.
  assert (take start (merge_tiles phys) = take start phys) as ->.
  { unfold merge_tiles. rewrite take_app_le by (rewrite length_take; lia). rewrite take_take. f_equal. lia. }
  assert (drop (start + n) (merge_tiles phys) = drop (start + m * n) phys) as ->.
  { unfold merge_tiles. rewrite app_assoc. apply drop_app_length'. rewrite length_app, length_take, length_fmap, length_seq. lia. }
  fold (grid m n (λ k i, default 0 (phys !! (start + k * n + i)%nat))). rewrite (grid_eq m n _ (take (m * n) (drop start phys))).
  - rewrite <- drop_drop. by rewrite take_drop, take_drop.
  - rewrite length_take, length_drop. lia.
  - intros k i Hk Hi. pose proof (column_index k i Hk Hi). rewrite lookup_take_lt by lia. rewrite lookup_drop.
    replace (start + (k * n + i))%nat with (start + k * n + i)%nat by lia. by destruct (lookup_lt_is_Some_2 phys (start + k * n + i)%nat ltac:(lia)) as [y ->].
Qed.
Lemma merge_in_bounds phys : tiles_ok → in_bounds phys dims → in_bounds (merge_tiles phys) logical_dims.
Proof.
  intros Hok Hp. pose proof (tiles_rank Hok) as Hr. unfold merge_tiles, logical_dims, in_bounds. apply Forall2_app; [by apply Forall2_take|]. apply Forall2_app; [|by apply Forall2_drop].
  apply Forall2_fmap, Forall_Forall2_diag, Forall_forall. intros i Hi%elem_of_seq. apply strides_of_bound, column_bounds; [done|done|lia].
Qed.
Definition digits_of (pos : list Z) (k i : nat) : Z :=
  (default 0 (pos !! (start + i)%nat) / prod_Z (drop (S k) (column dims i))) mod default 1 (column dims i !! k).
Definition split_tiles (pos : list Z) : list Z := take start pos ++ grid m n (digits_of pos) ++ drop (start + n) pos.
Lemma logical_length : tiles_ok → length logical_dims = (length dims - m * n + n)%nat.
Proof. intros Hok. pose proof (tiles_rank Hok). unfold logical_dims. rewrite !length_app, length_take, length_fmap, length_seq, length_drop. lia. Qed.
Lemma split_length pos : tiles_ok → length pos = length logical_dims → length (split_tiles pos) = length dims.
Proof.
  intros Hok Hl. pose proof (tiles_rank Hok). rewrite logical_length in Hl by done. unfold split_tiles. rewrite !length_app, grid_length, length_take, length_drop. lia.
Qed.
Lemma split_column pos i : tiles_ok → in_bounds pos logical_dims → (i < n)%nat →
  in_bounds (column (split_tiles pos) i) (column dims i) ∧
  pos !! (start + i)%nat = Some (offset_of (column (split_tiles pos) i) (strides_of (column dims i))).
Proof.
  intros Hok Hp Hi. pose proof (tiles_rank Hok) as Hr. pose proof (Forall2_length _ _ _ Hp) as Hl. pose proof (logical_length Hok) as Hll.
  destruct (lookup_lt_is_Some_2 pos (start + i)%nat ltac:(lia)) as [x Hx].
  assert (logical_dims !! (start + i)%nat = Some (prod_Z (column dims i))) as Hd.
  { unfold logical_dims. rewrite lookup_app_r by (rewrite length_take; lia). rewrite length_take. replace (start + i - start `min` length dims)%nat with i by lia.
    rewrite lookup_app_l by (rewrite length_fmap, length_seq; lia). by rewrite list_lookup_fmap, lookup_seq_lt. }
  pose proof (Forall2_lookup_lr _ _ _ _ _ _ Hp Hx Hd) as Hb. cbn in Hb. pose proof (column_pos i Hok Hi) as Hpos.
  destruct (strides_of_onto (column dims i) x) as (c & Hc & Ho); [lia|eapply Forall_impl; [exact Hpos|]; cbn; lia|].
  assert (column (split_tiles pos) i = c) as ->; [|by rewrite Hx, Ho].
  pose proof (split_length pos Hok Hl) as Hsl. pose proof (column_length dims i Hr Hi) as Hcl. pose proof (Forall2_length _ _ _ Hc) as Hcc.
  apply list_eq_same_length with (n := m); [lia|by apply column_length; lia|]. intros k y z Hk Hy Hz. rewrite column_lookup in Hy by lia.
  unfold split_tiles in Hy. rewrite lookup_app_r in Hy by (rewrite length_take; lia). rewrite length_take in Hy.
  replace (start + k * n + i - start `min` length pos)%nat with (k * n + i)%nat in Hy by lia.
  rewrite lookup_app_l in Hy by (rewrite grid_length; pose proof (column_index k i Hk Hi); lia). rewrite grid_lookup in Hy by done. injection Hy as <-.
  destruct (lookup_lt_is_Some_2 (column dims i) k ltac:(lia)) as [d Hdk]. unfold digits_of. rewrite Hx, Hdk. cbn. rewrite <- Ho. by apply digit_of.
Qed.
Lemma split_tiles_spec pos : tiles_ok → in_bounds pos logical_dims → in_bounds (split_tiles pos) dims ∧ merge_tiles (split_tiles pos) = pos.
Proof.
  intros Hok Hp. pose proof (tiles_rank Hok) as Hr. pose proof (Forall2_length _ _ _ Hp) as Hl. pose proof (logical_length Hok) as Hll. pose proof (split_length pos Hok Hl) as Hsl.
  assert (take start (split_tiles pos) = take start pos) as Htake.
  { unfold split_tiles. rewrite take_app_le by (rewrite length_take; lia). rewrite take_take. f_equal. lia. }
  assert (drop (start + m * n) (split_tiles pos) = drop (start + n) pos) as Hdrop.
  { unfold split_tiles. rewrite app_assoc. apply drop_app_length'. rewrite length_app, length_take, grid_length. lia. }
  assert (take start logical_dims = take start dims) as Hdt.
  { unfold logical_dims. rewrite take_app_le by (rewrite length_take; lia). rewrite take_take. f_equal. lia. }
  assert (drop (start + n) logical_dims = drop (start + m * n) dims) as Hdd.
  { unfold logical_dims. rewrite app_assoc. apply drop_app_length'. rewrite length_app, length_take, length_fmap, length_seq. lia. }
  split.
  - apply Forall2_same_length_lookup. split; [done|]. intros j x d Hx Hd. pose proof (lookup_lt_Some _ _ _ Hd) as Hj.
    destruct (decide (j < start)%nat) as [Hlt|Hge].
    { rewrite <- (lookup_take_lt _ start) in Hx by done. rewrite <- (lookup_take_lt _ start) in Hd by done. rewrite Htake in Hx. rewrite <- Hdt in Hd. apply (Forall2_lookup_lr _ _ _ _ _ _ (Forall2_take _ _ _ start Hp) Hx Hd). }
    destruct (decide (j < start + m * n)%nat) as [Hmid|Hpost].
    + destruct (grid_index m n (j - start)%nat ltac:(lia)) as (k & i & Hji & Hk & Hi). replace j with (start + k * n + i)%nat in * by lia.
      rewrite <- column_lookup in Hx by lia. rewrite <- column_lookup in Hd by lia. destruct (split_column pos i Hok Hp Hi) as [Hc _]. apply (Forall2_lookup_lr _ _ _ _ _ _ Hc Hx Hd).
    + replace j with (start + m * n + (j - (start + m * n)))%nat in Hx, Hd by lia. rewrite <- lookup_drop in Hx. rewrite <- lookup_drop in Hd. rewrite Hdrop in Hx. rewrite <- Hdd in Hd.
      apply (Forall2_lookup_lr _ _ _ _ _ _ (Forall2_drop _ _ _ (start + n) Hp) Hx Hd).
  - unfold merge_tiles. rewrite Htake, Hdrop. rewrite <- (take_drop start pos) at 3. f_equal. rewrite <- (take_drop n (drop start pos)), drop_drop. f_equal.
    apply list_eq_same_length with (n := n); [rewrite length_take, length_drop; lia|by rewrite length_fmap, length_seq|]. intros i x y Hi Hx Hy.
    rewrite list_lookup_fmap, lookup_seq_lt in Hx by done. injection Hx as <-. rewrite lookup_take_lt, lookup_drop in Hy by done.
    destruct (split_column pos i Hok Hp Hi) as [_ Hs]. cbn in *. congruence.
Qed.
End tiles.

(** ** Correctness *)
Lemma strided_sum_spec w pos strides acc shape : 0 < w → in_bounds pos shape → length strides = length shape → Forall (Z.le 0) strides →
  0 <= acc → acc + offset_of pos strides < 2 ^ w → strided_sum w pos strides acc = Some (acc + offset_of pos strides).
Proof.
  intros Hw Hp. revert strides acc. induction Hp as [|i d pos shape Hi Hp IH]; intros [|s strides] acc Hl Hs Ha Hb; try done; cbn [strided_sum].
  { cbn. f_equal. lia. }
  apply Forall_cons in Hs as [Hs0 Hs]. rewrite offset_of_cons in Hb |- *. pose proof (offset_of_nonneg _ _ _ Hp Hs). unfold wadd, wmul. assert (0 <= i * s) by nia.
  rewrite (wrap_small w (i * s)), wrap_small by lia. rewrite IH; [f_equal; lia|cbn in Hl; lia|done|lia|lia].
Qed.
Lemma dyn_in_bounds_spec pos bounds : Forall (Z.le 0) pos → length pos = length bounds →
  ∃ b : bool, dyn_in_bounds pos bounds = Some b ∧ (b = true ↔ in_bounds pos bounds).
Proof.
  intros Hp Hl. unfold dyn_in_bounds. rewrite decide_False by lia. eexists. split; [done|]. revert bounds Hl. induction Hp as [|x pos Hx Hp IH]; intros [|d bounds] Hl; [by split; [constructor|]|done|done|].
  change (forallb (λ p, p.1 <? p.2) (zip (x :: pos) (d :: bounds))) with ((x <? d) && forallb (λ p, p.1 <? p.2) (zip pos bounds)). rewrite andb_true_iff, (IH bounds) by (cbn in Hl; lia). cbn. rewrite Z.ltb_lt. split.
  - intros [Hlt Hr]. by constructor.
  - intros [[? ?] ?]%Forall2_cons_1. done.
Qed.
(** C35: a tiled layout of any number of axes and levels is a bijection between
    the logical coordinates and those of the physical shape: the logical
    dimension of a tiled axis is the product of its factors, each logical
    position splits into the digits of its coordinates, in bounds of every
    block, and the row-major index of the digits is the coordinate again.  The
    bounds check accepts exactly the positions of the logical shape, and a
    tiled view reads at the offset the strides give the physical coordinates. *)
Theorem tiled_layout_exact (l : TiledLayout) (strides : list Z) :
  tiles_ok l → length strides = length (physical_shape l) → Forall (Z.le 0) strides →
  (∀ phys, in_bounds phys (physical_shape l) → offset_of phys strides <= u32_max) →
  view_shape (S := list Z) l = Some (logical_dims l) ∧
  (∀ pos, in_bounds pos (logical_dims l) → ∃ phys, in_bounds phys (physical_shape l) ∧ merge_tiles l phys = pos ∧
     to_source_pos l pos = Some phys ∧ to_source_pos (mk_TiledViewLayout l strides) pos = Some (offset_of phys strides)) ∧
  (∀ phys, in_bounds phys (physical_shape l) → in_bounds (merge_tiles l phys) (logical_dims l) ∧ to_source_pos l (merge_tiles l phys) = Some phys) ∧
  (∀ pos, Forall (Z.le 0) pos → length pos = length (logical_dims l) →
     ∃ b : bool, is_in_bounds (S := list Z) l pos = Some b ∧ (b = true ↔ in_bounds pos (logical_dims l))).
Proof.
  intros Hok Hl Hs Ha. split; [by apply tiled_shape_spec|]. split; [|split].
  - intros pos Hp. destruct (split_tiles_spec l pos Hok Hp) as [Hb Hm]. exists (split_tiles l pos). pose proof (tiled_source_merge l _ Hok Hb) as Hsrc. rewrite Hm in Hsrc.
    split_and!; [done|done|done|]. cbn. unfold tiled_view_source_pos. cbn. rewrite Hsrc. cbn. pose proof (Ha _ Hb).
    apply (strided_sum_spec 32 _ _ 0 (physical_shape l)); try done. change (2 ^ 32) with 4294967296. lia.
  - intros phys Hp. split; [by apply merge_in_bounds|by apply tiled_source_merge].
  - intros pos Hp Hpl. cbn. unfold tiled_in_bounds. rewrite tiled_shape_spec by done. cbn. by apply dyn_in_bounds_spec.
Qed.
(** A matrix of 4 by 6 in tiles of 2 by 3. *)
Definition matrix_tiles : TiledLayout := mk_TiledLayout [2; 2; 2; 3] 0 2 1.
Lemma tiled_layout_exact_witness : to_source_pos (mk_TiledViewLayout matrix_tiles [12; 6; 3; 1]) [3; 4] = Some 22 ∧
  ∃ phys, in_bounds phys [2; 2; 2; 3] ∧ merge_tiles matrix_tiles phys = [3; 4] ∧ to_source_pos matrix_tiles [3; 4] = Some phys.
Proof.
  destruct (tiled_layout_exact matrix_tiles [12; 6; 3; 1]) as (_ & Hpos & _).
  - split; [cbn; lia|cbn; repeat constructor; lia|]. intros i Hi. destruct i as [|[|i]]; [vm_compute; discriminate..|cbn in Hi; lia].
  - reflexivity.
  - repeat constructor; lia.
  - intros phys Hp. etrans; [apply (offsets_below [2; 2; 2; 3] [12; 6; 3; 1] 23); [repeat constructor; lia|reflexivity|vm_compute; discriminate|exact Hp]|lia].
  - destruct (Hpos [3; 4]) as (phys & Hb & Hm & Hs & _); [repeat constructor; vm_compute; (reflexivity || discriminate)|].
    split; [reflexivity|]. exists phys. split; [exact Hb|]. split; [exact Hm|exact Hs].
Defined.
