(* ===== verification/Swizzle.v ===== *)
(** * Swizzled offsets

    [cubecl-std/src/swizzle.rs]: the offsets of a buffer of shared memory,
    permuted by bits of the offset itself.  The parameters are computed at compile
    time of the kernel, where a shift of 32 bits or more is a panic ([None]). *)

From S2P Require Export FastMath.
From stdpp Require Import list.
#[local] Open Scope Z_scope.

Record Swizzle := mk_Swizzle { yyy_mask : Z; swizzle_shift : Z; invert_shift : bool; repeats_after : Z }.
Definition shl_u32 (x k : Z) : option Z := if (0 <=? k) && (k <? 32) then Some (wrap 32 (Z.shiftl x k)) else None.
Definition swizzle_new (bits base shift : Z) : option Swizzle :=
  let invert_shift := shift <? 0 in
  mask ← shl_u32 1 bits;
  let mask := mask - 1 in
  yyy_mask ← shl_u32 mask (base + Z.max shift 0);
  repeats_after ← (if 0 <? bits then shl_u32 1 (base + bits + Z.max shift 0) else shl_u32 1 base);
  Some (mk_Swizzle yyy_mask (Z.abs shift) invert_shift repeats_after).
Definition swizzle_none : Swizzle := mk_Swizzle 0 0 false 1.
Definition shift_right (value shift : Z) (invert : bool) : Z :=
  if invert then wrap 32 (Z.shiftl value shift) else Z.shiftr value shift.
Definition swizzle_apply (s : Swizzle) (offset type_size : Z) : option Z :=
  if yyy_mask s =? 0 then Some offset
  else
    let offset_bytes := wrap 32 (offset * type_size) in
    let offset_masked := Z.land offset_bytes (yyy_mask s) in
    let offset_shifted := shift_right offset_masked (swizzle_shift s) (invert_shift s) in
    let offset_bytes := Z.lxor offset_bytes offset_shifted in
    wdiv offset_bytes type_size.

Example span_32_atom_16 : (s ← swizzle_new 1 4 3; mapM (λ o, swizzle_apply s o 16) [0; 1; 7; 8; 9; 16]) = Some [0; 1; 7; 9; 8; 16].
Proof. reflexivity. Qed.

(** ** Bits *)
(** The bits the mask selects, and those they are combined with. *)
Definition in_field (low bits i : Z) : bool := (low <=? i) && (i <? low + bits).
Lemma in_field_spec low bits i : in_field low bits i = true ↔ low <= i < low + bits.
Proof. unfold in_field. rewrite andb_true_iff, Z.leb_le, Z.ltb_lt. done. Qed.
Lemma testbit_ones_shifted bits low i : 0 <= bits → 0 <= low → 0 <= i → Z.testbit (Z.shiftl (Z.ones bits) low) i = in_field low bits i.
Proof.
  intros Hb Hl Hi. rewrite Z.shiftl_spec by done. unfold in_field. destruct (Z.leb_spec low i) as [Hle|Hgt]; [|by apply Z.testbit_neg_r; lia].
  cbn. rewrite Z.testbit_ones by done. destruct (Z.leb_spec 0 (i - low)), (Z.ltb_spec (i - low) bits), (Z.ltb_spec i (low + bits)); cbn; lia.
Qed.
Lemma testbit_high x k i : 0 <= x < 2 ^ k → 0 <= k <= i → Z.testbit x i = false.
Proof.
  intros Hx Hi. destruct (decide (x = 0)) as [->|]; [apply Z.testbit_0_l|]. apply Z.bits_above_log2; [lia|]. apply Z.log2_lt_pow2; [lia|].
  apply (Z.lt_le_trans _ (2 ^ k)); [lia|]. apply Z.pow_le_mono_r; lia.
Qed.
Lemma bits_below x k : 0 <= k → 0 <= x → (∀ i, k <= i → Z.testbit x i = false) → x < 2 ^ k.
Proof.
  intros Hk Hx Hb. rewrite <- (Z.mod_small x (2 ^ Z.max k (Z.succ (Z.log2 x)))).
  - assert (x mod 2 ^ Z.max k (Z.succ (Z.log2 x)) = x mod 2 ^ k) as ->; [|apply Z.mod_pos_bound; lia]. apply Z.bits_inj'. intros i Hi.
    destruct (decide (i < k)) as [Hlt|Hge].
    + by rewrite !Z.mod_pow2_bits_low by lia.
    + rewrite (Z.mod_pow2_bits_high x k) by lia. destruct (decide (i < Z.max k (Z.succ (Z.log2 x)))) as [Hlt|Hge']; [by rewrite Z.mod_pow2_bits_low, Hb by lia|].
      by rewrite Z.mod_pow2_bits_high by lia.
  - pose proof (Z.log2_nonneg x). split; [done|]. destruct (decide (x = 0)) as [->|]; [lia|]. apply (Z.lt_le_trans _ (2 ^ Z.succ (Z.log2 x))); [apply Z.log2_spec; lia|].
    apply Z.pow_le_mono_r; lia.
Qed.

Section swizzle.
Context (bits base shift : Z) (bits_pos : 0 < bits) (base_nonneg : 0 <= base) (fits : base + bits + Z.abs shift <= 31) (apart : bits <= Z.abs shift).
Abbreviation ylow := (base + Z.max shift 0). Abbreviation zlow := (base + Z.max (- shift) 0).
Lemma swizzle_new_spec : ∃ s, swizzle_new bits base shift = Some s ∧ yyy_mask s = Z.shiftl (Z.ones bits) ylow ∧ swizzle_shift s = Z.abs shift ∧
  invert_shift s = (shift <? 0) ∧ repeats_after s = 2 ^ (base + bits + Z.max shift 0).
Proof.
  unfold swizzle_new.
  assert (∀ x k, 0 <= k <= 31 → shl_u32 x k = Some (wrap 32 (Z.shiftl x k))) as Hk.
  { intros x k Hk. unfold shl_u32. rewrite (proj2 (Z.leb_le 0 k)), (proj2 (Z.ltb_lt k 32)) by lia. done. }
  assert (∀ k, 0 <= k <= 31 → wrap 32 (Z.shiftl 1 k) = 2 ^ k) as H1.
  { intros k ?. rewrite Z.shiftl_mul_pow2, Z.mul_1_l by lia. apply wrap_small. assert (2 ^ k <= 2 ^ 31) by (apply Z.pow_le_mono_r; lia). lia. }
  rewrite (Hk 1 bits), H1 by lia. cbn [mbind option_bind]. rewrite (Hk (2 ^ bits - 1)) by lia. cbn [mbind option_bind]. rewrite (proj2 (Z.ltb_lt 0 bits) bits_pos).
  rewrite Hk, H1 by lia. cbn [mbind option_bind]. eexists. split; [done|]. cbn. split_and!; [|done..].
  assert (2 ^ bits - 1 = Z.ones bits) as -> by (rewrite Z.ones_equiv; lia). apply wrap_small. rewrite Z.shiftl_mul_pow2, Z.ones_equiv by lia.
  assert (2 ^ bits * 2 ^ ylow <= 2 ^ 32) by (rewrite <- Z.pow_add_r by lia; apply Z.pow_le_mono_r; lia). nia.
Qed.
(** The swizzled bytes: the field at [zlow] combined with the one at [ylow]. *)
Definition swizzled (x : Z) : Z := Z.lxor x (shift_right (Z.land x (Z.shiftl (Z.ones bits) ylow)) (Z.abs shift) (shift <? 0)).
Lemma swizzled_bits x i : 0 <= x < 2 ^ 32 → 0 <= i →
  Z.testbit (swizzled x) i = xorb (Z.testbit x i) (in_field zlow bits i && Z.testbit x (i + shift)).
Proof.
  intros Hx Hi. unfold swizzled, shift_right. rewrite Z.lxor_spec. f_equal. destruct (Z.ltb_spec shift 0) as [Hneg|Hpos].
  - unfold wrap. destruct (decide (i < 32)) as [Hlt|Hge].
    + rewrite Z.mod_pow2_bits_low, Z.shiftl_spec by done. replace (i - Z.abs shift) with (i + shift) by lia. destruct (decide (0 <= i + shift)).
      * rewrite Z.land_spec, testbit_ones_shifted, andb_comm by lia. f_equal. unfold in_field. replace ylow with base by lia. replace zlow with (base - shift) by lia.
        f_equal; [destruct (Z.leb_spec base (i + shift)), (Z.leb_spec (base - shift) i); lia|destruct (Z.ltb_spec (i + shift) (base + bits)), (Z.ltb_spec i (base - shift + bits)); lia].
      * rewrite !(Z.testbit_neg_r _ (i + shift)) by lia. by rewrite andb_false_r.
    + rewrite Z.mod_pow2_bits_high by lia. destruct (in_field zlow bits i) eqn:E; [|done]. rewrite in_field_spec in E. lia.
  - rewrite Z.shiftr_spec, Z.land_spec, testbit_ones_shifted, andb_comm by lia. replace (Z.abs shift) with shift by lia. f_equal. unfold in_field.
    replace ylow with (base + shift) by lia. replace zlow with base by lia.
    f_equal; [destruct (Z.leb_spec (base + shift) (i + shift)), (Z.leb_spec base i); lia|destruct (Z.ltb_spec (i + shift) (base + shift + bits)), (Z.ltb_spec i (base + bits)); lia].
Qed.
Lemma swizzled_nonneg x : 0 <= x → 0 <= swizzled x.
Proof.
  intros Hx. unfold swizzled. apply Z.lxor_nonneg. split; [intros _|done]. unfold shift_right. case_match; [apply wrap_bounds; lia|].
  apply Z.shiftr_nonneg, Z.land_nonneg. by left.
Qed.
Lemma swizzled_bound x k : 0 <= x < 2 ^ k → base + bits + Z.max (- shift) 0 <= k <= 32 → swizzled x < 2 ^ k.
Proof.
  intros Hx Hk. assert (2 ^ k <= 2 ^ 32) by (apply Z.pow_le_mono_r; lia). apply bits_below; [lia|apply swizzled_nonneg; lia|]. intros i Hi.
  rewrite swizzled_bits by lia. rewrite (testbit_high x k) by lia. destruct (in_field zlow bits i) eqn:E; [|done]. rewrite in_field_spec in E. lia.
Qed.
Lemma swizzled_involutive x : 0 <= x < 2 ^ 32 → swizzled (swizzled x) = x.
Proof.
  intros Hx. pose proof (swizzled_nonneg x ltac:(lia)). pose proof (swizzled_bound x 32 Hx ltac:(lia)). apply Z.bits_inj'. intros i Hi. rewrite !swizzled_bits by lia.
  destruct (in_field zlow bits i) eqn:E; cbn; [|by rewrite !xorb_false_r]. rewrite in_field_spec in E.
  rewrite swizzled_bits by lia. assert (in_field zlow bits (i + shift) = false) as ->.
  { apply not_true_iff_false. rewrite in_field_spec. lia. }
  cbn. by destruct (Z.testbit x i), (Z.testbit x (i + shift)).
Qed.
Lemma swizzled_divides x t : 0 <= t <= base → 0 <= x < 2 ^ 32 → (2 ^ t | x) → (2 ^ t | swizzled x).
Proof.
  intros Ht Hx Hd. apply Z.mod_divide; [lia|]. apply Z.bits_inj'. intros i Hi. rewrite Z.testbit_0_l. destruct (decide (i < t)) as [Hlt|]; [|by rewrite Z.mod_pow2_bits_high by lia].
  rewrite Z.mod_pow2_bits_low, swizzled_bits by lia. assert (in_field zlow bits i = false) as -> by (apply not_true_iff_false; rewrite in_field_spec; lia).
  cbn. rewrite xorb_false_r. rewrite <- (Z.mod_pow2_bits_low x t i) by lia. assert (x mod 2 ^ t = 0) as -> by (by apply Z.mod_divide; [lia|]). apply Z.testbit_0_l.
Qed.
Lemma swizzled_period x k : 0 <= shift → 0 <= k → 0 <= x < 2 ^ (base + bits + shift) → k * 2 ^ (base + bits + shift) + x < 2 ^ 32 →
  swizzled (k * 2 ^ (base + bits + shift) + x) = k * 2 ^ (base + bits + shift) + swizzled x.
Proof.
  intros Hs Hk Hx Hb. set (p := base + bits + shift) in *. assert (2 ^ p <= 2 ^ 32) by (apply Z.pow_le_mono_r; lia).
  assert (∀ y, 0 <= y < 2 ^ p → ∀ i, 0 <= i → Z.testbit (k * 2 ^ p + y) i = if i <? p then Z.testbit y i else Z.testbit k (i - p)) as Hbit.
  { intros y Hy i Hi. destruct (Z.ltb_spec i p).
    - rewrite <- (Z.mod_pow2_bits_low _ p i) by lia. rewrite Z.add_comm, Z.mod_add, Z.mod_small by lia. done.
    - replace i with (i - p + p) at 1 by lia. rewrite <- Z.shiftr_spec, Z.shiftr_div_pow2, Z.div_add_l, (Z.div_small y) by lia. by rewrite Z.add_0_r. }
  pose proof (swizzled_nonneg x ltac:(lia)). pose proof (swizzled_bound x p Hx ltac:(lia)). assert (0 <= k * 2 ^ p) by nia.
  apply Z.bits_inj'. intros i Hi. rewrite swizzled_bits, !Hbit by lia. destruct (Z.ltb_spec i p) as [Hlt|Hge].
  - rewrite swizzled_bits by lia. destruct (in_field zlow bits i) eqn:E; [|done]. rewrite in_field_spec in E. by rewrite (proj2 (Z.ltb_lt _ _)) by lia.
  - assert (in_field zlow bits i = false) as -> by (apply not_true_iff_false; rewrite in_field_spec; lia). cbn. apply xorb_false_r.
Qed.
Lemma swizzle_apply_spec s t offset : swizzle_new bits base shift = Some s → 0 <= t <= base → 0 <= offset → offset * 2 ^ t < 2 ^ 32 →
  ∃ o, swizzle_apply s offset (2 ^ t) = Some o ∧ o * 2 ^ t = swizzled (offset * 2 ^ t) ∧ 0 <= o.
Proof.
  intros Hs Ht Ho Hb. destruct swizzle_new_spec as (s' & Hs' & Hy & Hsh & Hi & _). rewrite Hs in Hs'. injection Hs' as <-.
  unfold swizzle_apply. rewrite Hy, Hsh, Hi. assert (Z.shiftl (Z.ones bits) ylow ≠ 0) as Hne.
  { intros Heq. pose proof (testbit_ones_shifted bits ylow ylow ltac:(lia) ltac:(lia) ltac:(lia)) as Hbit. rewrite Heq, Z.testbit_0_l in Hbit.
    symmetry in Hbit. apply not_true_iff_false in Hbit. rewrite in_field_spec in Hbit. lia. }
  rewrite (proj2 (Z.eqb_neq _ _) Hne). assert (0 <= offset * 2 ^ t) by (apply Z.mul_nonneg_nonneg; lia). rewrite (wrap_small 32 (offset * 2 ^ t)) by lia.
  fold (swizzled (offset * 2 ^ t)). unfold wdiv. rewrite decide_False by lia. eexists. split; [done|].
  pose proof (swizzled_nonneg (offset * 2 ^ t) ltac:(lia)) as Hn. destruct (swizzled_divides (offset * 2 ^ t) t Ht ltac:(lia) (Z.divide_factor_r _ _)) as [q Hq]. rewrite Hq in *.
  rewrite Z.div_mul by lia. split; [done|]. assert (0 < 2 ^ t) by lia. nia.
Qed.
End swizzle.

(** A swizzle whose two fields do not overlap combines, in the bytes of an
    offset, each bit of the one field with the bit [shift] above it (or below,
    for a negative shift) and keeps the others: applied twice it is the
    identity, so it permutes the offsets.  For a shift to the right the pattern
    repeats after the bytes announced: within them it is a permutation, and a
    buffer aligned to them may be swizzled by addresses or by offsets. *)
Theorem swizzle_exact bits base shift t :
  0 < bits → 0 <= base → base + bits + Z.abs shift <= 31 → bits <= Z.abs shift → 0 <= t <= base →
  ∃ s, swizzle_new bits base shift = Some s ∧
  (∀ offset, 0 <= offset → offset * 2 ^ t < 2 ^ 32 → ∃ o, swizzle_apply s offset (2 ^ t) = Some o ∧ 0 <= o ∧ o * 2 ^ t < 2 ^ 32 ∧
     swizzle_apply s o (2 ^ t) = Some offset ∧
     ∀ i, 0 <= i → Z.testbit (o * 2 ^ t) i = xorb (Z.testbit (offset * 2 ^ t) i)
       (in_field (base + Z.max (- shift) 0) bits i && Z.testbit (offset * 2 ^ t) (i + shift))) ∧
  (0 <= shift → ∀ k offset, 0 <= k → 0 <= offset → offset * 2 ^ t < repeats_after s → k * repeats_after s + offset * 2 ^ t < 2 ^ 32 →
     ∃ o, swizzle_apply s offset (2 ^ t) = Some o ∧ o * 2 ^ t < repeats_after s ∧
       swizzle_apply s (k * (repeats_after s / 2 ^ t) + offset) (2 ^ t) = Some (k * (repeats_after s / 2 ^ t) + o)).
Proof.
  intros Hbits Hbase Hfits Hapart Ht. destruct (swizzle_new_spec bits base shift Hbits Hbase Hfits Hapart) as (s & Hs & _ & _ & _ & Hrep). exists s. split; [done|]. split.
  - intros offset Ho Hb. assert (0 <= offset * 2 ^ t) as H0 by (apply Z.mul_nonneg_nonneg; lia).
    destruct (swizzle_apply_spec bits base shift Hbits Hbase Hfits Hapart s t offset Hs Ht Ho Hb) as (o & Hap & Hsw & Hon). exists o.
    pose proof (swizzled_bound bits base shift Hbits Hbase Hfits Hapart (offset * 2 ^ t) 32 ltac:(lia) ltac:(lia)) as Hlt. rewrite <- Hsw in Hlt. split_and!; [done|done|done| |].
    + destruct (swizzle_apply_spec bits base shift Hbits Hbase Hfits Hapart s t o Hs Ht Hon Hlt) as (o' & -> & Hsw' & _). rewrite Hsw, swizzled_involutive in Hsw' by (done || lia).
      f_equal. assert (0 < 2 ^ t) by lia. nia.
    + intros i Hi. rewrite Hsw. by apply swizzled_bits.
  - intros Hshift k offset Hk Ho Hlt Hb. rewrite Hrep in *. replace (Z.max shift 0) with shift in * by lia. set (p := base + bits + shift) in *.
    assert (2 ^ p <= 2 ^ 31) as Hp by (apply Z.pow_le_mono_r; lia). assert (2 ^ p = 2 ^ (p - t) * 2 ^ t) as Hpt by (rewrite <- Z.pow_add_r by lia; f_equal; lia).
    assert (2 ^ p / 2 ^ t = 2 ^ (p - t)) as Hq by (rewrite Hpt; apply Z.div_mul; lia). assert (0 <= offset * 2 ^ t) as H0 by (apply Z.mul_nonneg_nonneg; lia).
    destruct (swizzle_apply_spec bits base shift Hbits Hbase Hfits Hapart s t offset Hs Ht Ho ltac:(lia)) as (o & Hap & Hsw & Hon). exists o. split; [done|].
    rewrite Hsw. split; [by apply swizzled_bound; lia|]. rewrite Hq. assert (0 <= k * 2 ^ (p - t)) as Hkp by (apply Z.mul_nonneg_nonneg; lia).
    assert ((k * 2 ^ (p - t) + offset) * 2 ^ t = k * 2 ^ p + offset * 2 ^ t) as Hsum by (rewrite Hpt; ring).
    destruct (swizzle_apply_spec bits base shift Hbits Hbase Hfits Hapart s t (k * 2 ^ (p - t) + offset) Hs Ht ltac:(lia) ltac:(lia)) as (o' & -> & Hsw' & _).
    rewrite Hsum in Hsw'. rewrite swizzled_period in Hsw' by (done || lia). rewrite <- Hsw in Hsw'. f_equal. assert (0 < 2 ^ t) by lia. fold p in Hsw'. rewrite Hpt in Hsw'. nia.
Qed.
Lemma swizzle_exact_witness : ∃ s o, swizzle_new 2 4 3 = Some s ∧ swizzle_apply s 25 16 = Some o ∧ swizzle_apply s o 16 = Some 25.
Proof.
  destruct (swizzle_exact 2 4 3 4) as (s & Hs & Hinv & _); [lia..|]. destruct (Hinv 25) as (o & Ho & _ & _ & Hback & _); [lia|lia|].
  exists s, o. split; [exact Hs|]. split; [exact Ho|exact Hback].
Defined.
(** With a negative shift the pattern does not repeat after the bytes announced:
    64 of them here, while the bits combined reach to the 512th. *)
Example negative_period : (s ← swizzle_new 2 4 (-3); o ← swizzle_apply s (8 + 1) 16; o' ← swizzle_apply s 1 16; Some (repeats_after s, o, o')) = Some (64, 1, 9).
Proof. reflexivity. Qed.
