(* ===== verification/Vectorization.v ===== *)
(** * Vector sizes

    [cubecl-core/src/lib.rs], and [io_optimized_vector_sizes] of
    [cubecl-runtime/src/client.rs]: the sizes of the vectors a kernel reads and
    writes, chosen from the shape and the strides of a tensor, and the cubes of
    an elementwise launch.  A division by zero, an overflow and an index out of a
    slice are panics. *)

From S2P Require Export Launching Layout FastMath.
From stdpp Require Import list.
#[local] Open Scope Z_scope.

Inductive VectorizationError := AxisOutOfBounds | StrideMismatch | NoValidVectorization.

(** [trailing_zeros] of a [usize]. *)
Fixpoint pos_ctz (p : positive) : Z := match p with xO p => 1 + pos_ctz p | _ => 0 end.
Definition trailing_zeros (x : Z) : Z := match x with Zpos p => pos_ctz p | _ => 64 end.
Definition io_optimized_vector_sizes (load_width max_vector_size size : Z) : option (list Z) :=
  let size_bits := size * 8 in
  max ← wdiv load_width size_bits;
  let max := Z.min max_vector_size max in
  let num_candidates := trailing_zeros max + 1 in
  if num_candidates <=? 64 then Some (reverse ((λ i, 2 ^ i) <$> seqZ 0 num_candidates)) else None.

Definition max_size (l : list Z) : option Z := match l with [] => None | x :: l => Some (foldr Z.max x l) end.
Definition min_size (l : list Z) : option Z := match l with [] => None | x :: l => Some (foldr Z.min x l) end.
(** The second remainder is evaluated only when the first is zero. *)
Definition divides_both (a b vs : Z) : option bool :=
  r ← wmod a vs; if r =? 0 then r' ← wmod b vs; Some (r' =? 0) else Some false.
Fixpoint filter_sizes (f : Z → option bool) (sizes : list Z) : option (list Z) :=
  match sizes with
  | [] => Some []
  | vs :: sizes => b ← f vs; sizes ← filter_sizes f sizes; Some (if b : bool then vs :: sizes else sizes)
  end.
Definition try_tensor_vector_size_parallel (sizes shape strides : list Z) (axis : nat) : option (result Z VectorizationError) :=
  match strides !! axis with
  | None => Some (Err AxisOutOfBounds)
  | Some stride =>
      if negb (stride =? 1) then Some (Err StrideMismatch)
      else
        match shape !! axis with
        | None => Some (Err AxisOutOfBounds)
        | Some axis_shape =>
            let others := omap (λ p : nat * Z, if decide (p.1 ≠ axis ∧ p.2 ≠ 0) then Some p.2 else None) (zip (seq 0 (length strides)) strides) in
            let next_stride := default 0 (min_size others) in
            sizes ← filter_sizes (divides_both axis_shape next_stride) sizes;
            Some (match max_size sizes with Some vs => Ok vs | None => Err NoValidVectorization end)
        end
  end.
Definition unwrap_or_one (r : result Z VectorizationError) : Z := match r with Ok vs => vs | Err _ => 1 end.
Definition tensor_vector_size_parallel (sizes shape strides : list Z) (axis : nat) : option Z :=
  unwrap_or_one <$> try_tensor_vector_size_parallel sizes shape strides axis.
Definition try_tensor_vector_sizes_perpendicular (sizes shape strides : list Z) (axis : nat) : option (result Z VectorizationError) :=
  match strides !! axis with
  | None => Some (Err AxisOutOfBounds)
  | Some axis_stride =>
      prod_shape_axes_smaller_strides ← num_elements ((filter (λ p : Z * Z, p.1 < axis_stride) (zip strides shape)).*2);
      if negb (axis_stride =? prod_shape_axes_smaller_strides) then Some (Err StrideMismatch)
      else
        sizes ← filter_sizes (λ vs, r ← wmod axis_stride vs; Some (r =? 0)) sizes;
        Some (match max_size sizes with Some vs => Ok vs | None => Err NoValidVectorization end)
  end.
Definition tensor_vector_size_perpendicular (sizes shape strides : list Z) (axis : nat) : option Z :=
  unwrap_or_one <$> try_tensor_vector_sizes_perpendicular sizes shape strides axis.

(** One unit to an element. *)
Definition calculate_cube_count_elemwise (h : HardwareProperties) (num_elems_ : Z) (cube_dim : Dim3) : option CubeCount :=
  if num_elems_ =? 0 then Some (Static 0 0 0)
  else
    units ← num_elems cube_dim;
    num_cubes ← (if decide (units = 0) then None else Some (div_ceil num_elems_ units));
    selection_cube_count <$> selection_new h (as_u32 num_cubes).

(** The tests of the module. *)
Example parallel_contiguous : try_tensor_vector_size_parallel [1; 2; 4] [1; 9; 4] [36; 4; 1] 2 = Some (Ok 4).
Proof. reflexivity. Qed.
Example parallel_unfold_two : try_tensor_vector_size_parallel [1; 2; 4] [1; 9; 4] [12; 2; 1] 2 = Some (Ok 2).
Proof. reflexivity. Qed.
Example parallel_broadcast : try_tensor_vector_size_parallel [1; 2; 4] [1; 9; 4] [0; 4; 1] 2 = Some (Ok 4).
Proof. reflexivity. Qed.
Example parallel_stride : try_tensor_vector_size_parallel [1; 2; 4] [1; 9; 4] [36; 1; 4] 2 = Some (Err StrideMismatch).
Proof. reflexivity. Qed.
(** Only the smallest stride is looked at: rows ten elements apart are vectorized by four. *)
Example larger_stride_ignored : try_tensor_vector_size_parallel [1; 2; 4] [3; 2; 4] [10; 4; 1] 2 = Some (Ok 4).
Proof. reflexivity. Qed.

(** ** What the sizes divide *)
Definition power_of_two (x : Z) : Prop := ∃ k, 0 <= k ∧ x = 2 ^ k.
Lemma power_divides a b : power_of_two a → power_of_two b → a <= b → (a | b).
Proof.
  intros (j & Hj & ->) (k & Hk & ->) Hle. apply Z.pow_le_mono_r_iff in Hle; [|lia..]. exists (2 ^ (k - j)). rewrite <- Z.pow_add_r by lia. f_equal. lia.
Qed.
Lemma power_pos a : power_of_two a → 1 <= a.
Proof. intros (k & Hk & ->). pose proof (Z.pow_pos_nonneg 2 k). lia. Qed.
Lemma io_sizes_powers lw mv size sizes : io_optimized_vector_sizes lw mv size = Some sizes → Forall power_of_two sizes.
Proof.
  unfold io_optimized_vector_sizes. intros (m & _ & H)%bind_Some. case_match; [|done]. injection H as <-. apply Forall_reverse, Forall_fmap, Forall_forall.
  intros i Hi%elem_of_seqZ. exists i. split; [lia|done].
Qed.
Lemma filter_sizes_elem f sizes l vs : filter_sizes f sizes = Some l → vs ∈ l → vs ∈ sizes ∧ f vs = Some true.
Proof.
  revert l. induction sizes as [|x sizes IH]; intros l; cbn [filter_sizes]; [intros [= <-] H; by apply elem_of_nil in H|].
  intros (b & Hb & (l' & Hl & [= <-])%bind_Some)%bind_Some Hin. destruct b.
  - apply elem_of_cons in Hin as [->|Hin]; [split; [by left|done]|]. destruct (IH _ Hl Hin). split; [by right|done].
  - destruct (IH _ Hl Hin). split; [by right|done].
Qed.
Lemma max_size_elem l x : max_size l = Some x → x ∈ l.
Proof.
  destruct l as [|y l]; [done|]. intros [= <-]. induction l as [|z l IH]; cbn; [by left|].
  destruct (Z.max_spec z (foldr Z.max y l)) as [[_ ->]|[_ ->]]; [|right; by left]. apply elem_of_cons in IH as [->|IH]; [by left|right; by right].
Qed.
Lemma min_size_le l x y : min_size l = Some x → y ∈ l → x <= y.
Proof.
  destruct l as [|z l]; [done|]. intros [= <-]. intros Hy. apply elem_of_cons in Hy. induction l as [|t l IH]; cbn.
  { destruct Hy as [->|Hy]; [lia|by apply elem_of_nil in Hy]. }
  destruct Hy as [->|[->|Hy]%elem_of_cons]; [transitivity (foldr Z.min z l); [lia|apply IH; by left]|lia|]. transitivity (foldr Z.min z l); [lia|apply IH; by right].
Qed.
Lemma min_size_elem l x : min_size l = Some x → x ∈ l.
Proof.
  destruct l as [|y l]; [done|]. intros [= <-]. induction l as [|z l IH]; cbn; [by left|].
  destruct (Z.min_spec z (foldr Z.min y l)) as [[_ ->]|[_ ->]]; [right; by left|]. apply elem_of_cons in IH as [->|IH]; [by left|right; by right].
Qed.
(** The strides of the other axes, none of a broadcast. *)
Definition other_strides (strides : list Z) (axis : nat) : list Z :=
  omap (λ p : nat * Z, if decide (p.1 ≠ axis ∧ p.2 ≠ 0) then Some p.2 else None) (zip (seq 0 (length strides)) strides).
Lemma other_strides_elem strides axis s : s ∈ other_strides strides axis ↔ s ≠ 0 ∧ ∃ i, i ≠ axis ∧ strides !! i = Some s.
Proof.
  unfold other_strides. rewrite list_elem_of_omap. split.
  - intros ([i x] & Hin & Hx). case_decide as Hd; [|done]. injection Hx as ->. cbn in Hd. apply list_elem_of_lookup in Hin as [j Hj].
    apply lookup_zip_with_Some in Hj as (i' & x' & [= -> ->] & Hi & Hs). apply lookup_seq in Hi as [-> _]. split; [apply Hd|]. exists j. split; [apply Hd|done].
  - intros (Hs & i & Hi & Hl). exists (i, s). split; [|by rewrite decide_True]. apply list_elem_of_lookup. exists i. apply lookup_zip_with_Some.
    exists i, s. split; [done|]. split; [|done]. apply lookup_seq. split; [done|]. by apply lookup_lt_Some in Hl.
Qed.
(** Every stride is a multiple of the smallest, broadcast dimensions aside: what
    looking at the smallest only relies on. *)
Definition nested_strides (strides : list Z) (axis : nat) : Prop := ∀ m s, min_size (other_strides strides axis) = Some m → s ∈ other_strides strides axis → (m | s).
Lemma parallel_size_spec sizes shape strides axis vs : Forall power_of_two sizes → tensor_vector_size_parallel sizes shape strides axis = Some vs →
  power_of_two vs ∧ (1 < vs → strides !! axis = Some 1 ∧ ∃ d, shape !! axis = Some d ∧ (vs | d) ∧
    (vs | default 0 (min_size (other_strides strides axis)))).
Proof.
  intros Hp. unfold tensor_vector_size_parallel, try_tensor_vector_size_parallel. intros (r & Hr & Hvs)%fmap_Some.
  assert (power_of_two 1) as H1 by (exists 0; done).
  destruct (strides !! axis) as [stride|] eqn:Hs; [|injection Hr as <-; cbn in Hvs; subst vs; split; [done|lia]].
  destruct (Z.eqb_spec stride 1) as [->|]; cbn in Hr; [|injection Hr as <-; cbn in Hvs; subst vs; split; [done|lia]].
  destruct (shape !! axis) as [d|] eqn:Hd; [|injection Hr as <-; cbn in Hvs; subst vs; split; [done|lia]].
  apply bind_Some in Hr as (l & Hl & Hr). injection Hr as <-. destruct (max_size l) as [m|] eqn:Hm; cbn in Hvs; subst vs; [|split; [done|lia]].
  destruct (filter_sizes_elem _ _ _ _ Hl (max_size_elem _ _ Hm)) as [Hin Hf]. rewrite Forall_forall in Hp. pose proof (Hp m Hin) as Hpm. split; [done|]. intros _. split; [done|].
  pose proof (power_pos m Hpm). fold (other_strides strides axis) in Hf. unfold divides_both, wmod in Hf. rewrite !decide_False in Hf by lia. cbn [mbind option_bind] in Hf.
  destruct (Z.eqb_spec (d mod m) 0) as [H0|]; [|done]. cbn in Hf. injection Hf as Hf. apply Z.eqb_eq in Hf.
  exists d. split_and!; [done|apply Z.mod_divide; lia|apply Z.mod_divide; lia].
Qed.
Lemma nested_divides strides axis vs i s : nested_strides strides axis → (vs | default 0 (min_size (other_strides strides axis))) →
  i ≠ axis → strides !! i = Some s → (vs | s).
Proof.
  intros Hn Hm Hi Hs. destruct (decide (s = 0)) as [->|Hne]; [apply Z.divide_0_r|].
  assert (s ∈ other_strides strides axis) as Hin by (apply other_strides_elem; split; [done|by exists i]).
  destruct (min_size (other_strides strides axis)) as [m|] eqn:Em; [|destruct (other_strides strides axis); [by apply elem_of_nil in Hin|done]].
  etrans; [exact Hm|]. cbn. by apply Hn.
Qed.

(** ** The cubes of an elementwise launch *)
Definition grid_limits (h : HardwareProperties) : Prop :=
  1 <= (max_cube_count h).1.1 ∧ 1 <= (max_cube_count h).1.2 ∧ 1 <= plane_size_max h <= max_units_per_cube h ∧ max_units_per_cube h <= u32_max ∧
  match num_cpu_cores h with Some c => 0 <= c | None => True end.
Lemma cube_count_elemwise_covers h n dim units : grid_limits h → num_elems dim = Some units → 1 <= units → 1 <= n <= 2 ^ 31 →
  ∃ count, calculate_cube_count_elemwise h n dim = Some count ∧ ∃ x y z, count = Static x y z ∧ 0 <= x ∧ 1 <= y ∧ 1 <= z ∧ n <= x * y * z * units.
Proof.
  intros (Hx & Hy & _) Hu Hu1 Hn. unfold calculate_cube_count_elemwise. rewrite (proj2 (Z.eqb_neq n 0)), Hu by lia. cbn [mbind option_bind]. rewrite decide_False by lia. cbn [mbind option_bind].
  pose proof (div_ceil_spec n units ltac:(lia)) as Hd. set (k := div_ceil n units) in *. assert (1 <= k <= 2 ^ 31) as Hk by nia.
  assert (as_u32 k = k) as ->. { unfold as_u32. rewrite Z.land_ones by lia. apply Z.mod_small. lia. }
  destruct (max_cube_count h) as [[mx my] mz] eqn:Hmax. cbn [fst snd] in *. destruct (cubes_spread mx my mz k Hx Hy ltac:(lia)) as (x & y & z & Hs & Hbx & Hby & Hz & Hcov & Hbig & _).
  unfold selection_new. rewrite Hmax, Hs. cbn [mbind option_bind]. rewrite mul_u32_Some by nia. cbn [mbind option_bind]. rewrite mul_u32_Some by nia. cbn [mbind option_bind fmap option_fmap option_map].
  eexists. split; [done|]. exists x, y, z. split; [by destruct (_ =? _)|]. split_and!; [lia..|]. nia.
Qed.
