(* ===== verification/ElemTypes.v ===== *)
(** * Element and address types

    [cubecl-ir/src/type.rs] and [cubecl-ir/src/address.rs]: the element types of
    kernels, their sizes and the order their derived comparison gives them. *)

From S2P Require Export Prelude.
#[local] Open Scope Z_scope.

Inductive AddressType := AddressU32 | AddressU64.
Definition address_from_len (num_elems : Z) : AddressType := if u32_max <? num_elems then AddressU64 else AddressU32.
Definition address_from_len_signed (num_elems : Z) : AddressType := if 2147483647 <? num_elems then AddressU64 else AddressU32.
Definition address_size (a : AddressType) : Z := match a with AddressU32 => 4 | AddressU64 => 8 end.
Definition address_max (a b : AddressType) : AddressType := match a, b with AddressU32, AddressU32 => AddressU32 | _, _ => AddressU64 end.

Inductive FloatKind := E2M1 | E2M1x2 | E2M3 | E3M2 | E4M3 | E5M2 | UE8M0 | F16 | BF16 | Flex32 | F32 | TF32 | F64.
Inductive IntKind := I8 | I16 | I32 | I64.
Inductive UIntKind := U8 | U16 | U32 | U64.
Inductive ComplexKind := C32 | C64.
Inductive ElemType := ElemIndex | ElemFloat (k : FloatKind) | ElemInt (k : IntKind) | ElemUInt (k : UIntKind) | ElemComplex (k : ComplexKind) | ElemBool.
#[export] Instance FloatKind_eq_dec : EqDecision FloatKind. Proof. solve_decision. Defined.
#[export] Instance IntKind_eq_dec : EqDecision IntKind. Proof. solve_decision. Defined.
#[export] Instance UIntKind_eq_dec : EqDecision UIntKind. Proof. solve_decision. Defined.
#[export] Instance ComplexKind_eq_dec : EqDecision ComplexKind. Proof. solve_decision. Defined.
#[export] Instance ElemType_eq_dec : EqDecision ElemType. Proof. solve_decision. Defined.

Definition unsigned_type (a : AddressType) : ElemType := match a with AddressU32 => ElemUInt U32 | AddressU64 => ElemUInt U64 end.
Definition signed_type (a : AddressType) : ElemType := match a with AddressU32 => ElemInt I32 | AddressU64 => ElemInt I64 end.
(** The size in bytes; that of an index is not known outside of a kernel. *)
Definition elem_size (t : ElemType) : option nat :=
  match t with
  | ElemIndex => None
  | ElemFloat (E2M1 | E2M1x2 | E2M3 | E3M2 | E4M3 | E5M2 | UE8M0) => Some 1%nat
  | ElemFloat (F16 | BF16) => Some 2%nat
  | ElemFloat (F32 | Flex32 | TF32) => Some 4%nat
  | ElemFloat F64 => Some 8%nat
  | ElemInt I8 | ElemUInt U8 => Some 1%nat
  | ElemInt I16 | ElemUInt U16 => Some 2%nat
  | ElemInt I32 | ElemUInt U32 => Some 4%nat
  | ElemInt I64 | ElemUInt U64 => Some 8%nat
  | ElemComplex C32 => Some 8%nat
  | ElemComplex C64 => Some 16%nat
  | ElemBool => Some 1%nat
  end.
Definition address_bytes (a : AddressType) : nat := match a with AddressU32 => 4 | AddressU64 => 8 end.
Definition expand_size (a : AddressType) (t : ElemType) : nat :=
  match t with ElemIndex => address_bytes a | other => default 0%nat (elem_size other) end.
(** The derived order: the variants in their order, then their kinds. *)
Definition float_rank (k : FloatKind) : nat :=
  match k with
  | E2M1 => 0 | E2M1x2 => 1 | E2M3 => 2 | E3M2 => 3 | E4M3 => 4 | E5M2 => 5 | UE8M0 => 6 | F16 => 7 | BF16 => 8 | Flex32 => 9 | F32 => 10 | TF32 => 11 | F64 => 12
  end.
Definition int_rank (k : IntKind) : nat := match k with I8 => 0 | I16 => 1 | I32 => 2 | I64 => 3 end.
Definition uint_rank (k : UIntKind) : nat := match k with U8 => 0 | U16 => 1 | U32 => 2 | U64 => 3 end.
Definition complex_rank (k : ComplexKind) : nat := match k with C32 => 0 | C64 => 1 end.
Definition elem_rank (t : ElemType) : nat :=
  match t with
  | ElemIndex => 0
  | ElemFloat k => 1 + float_rank k
  | ElemInt k => 14 + int_rank k
  | ElemUInt k => 18 + uint_rank k
  | ElemComplex k => 22 + complex_rank k
  | ElemBool => 24
  end.
Lemma elem_rank_inj t t' : elem_rank t = elem_rank t' → t = t'.
Proof. destruct t as [|[]|[]|[]|[]|], t' as [|[]|[]|[]|[]|]; cbn; intros H; (reflexivity || discriminate H). Qed.
