(* ===== verification/ContiguousCopy.v ===== *)
(** * Copies into contiguous tensors

    [copy_gpu_ref] of [cubecl-std/src/tensor/contiguous/base.rs] and the kernels
    it launches: the host picks the vector size, the elements of a unit, the
    layouts and the cubes; every unit reads its elements through a view of the
    input and writes them where the layout of the output says.  A buffer is the
    list of its elements; the units run one after another, in any order.  What
    the device leaves undefined (an unchecked access out of a buffer) is [None]. *)

From S2P Require Export ElemTypes Vectorization Views.
From stdpp Require Import list sorting.
#[local] Open Scope Z_scope.

(** ** The host *)
Definition NUM_SM_APPROX : Z := 50.
(** What the host reads of the device. *)
Record CopyDevice := mk_CopyDevice {
  device_hardware : HardwareProperties;
  num_streaming_multiprocessors : option Z;
  load_width : Z;
  max_vector_size : Z;
  device_fast : bool;
}.
(** A tensor to copy: the bytes of its buffer, its shape and its strides. *)
Record TensorBinding := mk_TensorBinding { binding_size : Z; binding_shape : list Z; binding_strides : list Z }.
Record CopyPlan := mk_CopyPlan {
  plan_pack : bool;
  plan_cube_count : CubeCount;
  plan_cube_dim : Dim3;
  plan_address : AddressType;
  plan_vector : Z;
  plan_input : LinearViewLayout;
  plan_output : LinearViewLayout;
  plan_elems : Z;
}.
Definition elems_for (ratio : Z) : Z := if ratio <? 2 then 1 else if ratio <? 4 then 2 else if ratio <? 8 then 4 else 8.
(** The loop that makes the elements of a unit divide the last dimension: from at
    most 8 it halves three times; past that it would not end. *)
Fixpoint fit_elems (fuel : nat) (last_dim elems_per_unit num_elems_per_unit : Z) : option (Z * Z) :=
  match fuel with
  | O => None
  | S fuel =>
      if (if num_elems_per_unit =? 0 then last_dim =? 0 else last_dim mod num_elems_per_unit =? 0)
      then Some (elems_per_unit, num_elems_per_unit)
      else fit_elems fuel last_dim (elems_per_unit / 2) (num_elems_per_unit / 2)
  end.
Definition required_address_type (t : TensorBinding) (elem_size : Z) : option AddressType := address_from_len <$> wdiv (binding_size t) elem_size.
Definition memory_arg (t : TensorBinding) : option MemoryArg := len ← num_elements (binding_shape t); Some (mk_MemoryArg len (binding_shape t) (binding_strides t)).
Definition last_axis (l : list Z) : option nat := match length l with O => None | S axis => Some axis end.

Section host.
Context (cast : Z → Z → option Z) (dev : CopyDevice).
Definition copy_gpu_plan (input output : TensorBinding) (elem_size : Z) : option CopyPlan :=
  num_elems_ ← num_elements (binding_shape input);
  in_axis ← last_axis (binding_strides input);
  out_axis ← last_axis (binding_strides output);
  sizes ← io_optimized_vector_sizes (load_width dev) (max_vector_size dev) elem_size;
  vector_size_in ← tensor_vector_size_parallel sizes (binding_shape input) (binding_strides input) in_axis;
  vector_size_out ← tensor_vector_size_parallel sizes (binding_shape output) (binding_strides output) out_axis;
  let vector_size := Z.min vector_size_in vector_size_out in
  num_vecs ← wdiv num_elems_ vector_size;
  let num_sm := default NUM_SM_APPROX (num_streaming_multiprocessors dev) in
  cube_dim ← cube_dim_new (device_hardware dev) num_vecs;
  units ← num_elems cube_dim;
  simul_vecs ← mul_u32 num_sm units;
  ratio ← wdiv num_vecs simul_vecs;
  let elems_per_unit := elems_for ratio in
  num_elems_per_unit ← mul_u64 vector_size elems_per_unit;
  last_dim ← binding_shape output !! out_axis;
  '(elems_per_unit, num_elems_per_unit) ← fit_elems 4 last_dim elems_per_unit num_elems_per_unit;
  out_vec ← (if 1 <? vector_size then Some vector_size
             else sizes ← filter_sizes (λ vs, Some (num_elems_per_unit mod vs =? 0)) sizes; Some (default 1 (max_size sizes)));
  in_address ← required_address_type input elem_size;
  out_address ← required_address_type output elem_size;
  let address := address_max in_address out_address in
  let pack := negb (vector_size =? out_vec) && (1 <? out_vec) in
  in_arg ← memory_arg input;
  out_arg ← memory_arg output;
  view_in ← register_linear cast (device_fast dev) (address_size address) None in_arg (if pack then 1 else out_vec);
  out_layout ← register_linear cast (device_fast dev) (address_size address) None out_arg out_vec;
  threads ← (if decide (num_elems_per_unit = 0) then None else Some (div_ceil num_elems_ num_elems_per_unit));
  cube_count ← calculate_cube_count_elemwise (device_hardware dev) threads cube_dim;
  Some (mk_CopyPlan pack cube_count cube_dim address out_vec view_in out_layout elems_per_unit).
End host.

(** ** The units *)
(** Where a unit is: its cube and its place in it. *)
Record UnitPos := mk_UnitPos { cube_x : Z; cube_y : Z; cube_z : Z; unit_x : Z; unit_y : Z; unit_z : Z }.
Section units.
Context (w : Z).
Definition cube_pos (count : Z * Z * Z) (u : UnitPos) : Z :=
  wadd w (wadd w (wmul w (wmul w (cube_z u) count.1.2) count.1.1) (wmul w (cube_y u) count.1.1)) (cube_x u).
Definition unit_pos (dim : Dim3) (u : UnitPos) : Z :=
  wadd 32 (wadd 32 (unit_x u) (wmul 32 (unit_y u) (dim_x dim))) (wmul 32 (wmul 32 (unit_z u) (dim_x dim)) (dim_y dim)).
Definition absolute_pos (count : Z * Z * Z) (dim : Dim3) (u : UnitPos) : Z :=
  wadd w (wmul w (cube_pos count u) (dim_x dim * dim_y dim * dim_z dim)) (unit_pos dim u).
End units.
Definition all_units (count : Z * Z * Z) (dim : Dim3) : list UnitPos :=
  cz ← seqZ 0 count.2; cy ← seqZ 0 count.1.2; cx ← seqZ 0 count.1.1;
  uz ← seqZ 0 (dim_z dim); uy ← seqZ 0 (dim_y dim); ux ← seqZ 0 (dim_x dim);
  [mk_UnitPos cx cy cz ux uy uz].

(** ** The kernels *)
Section kernel.
Context {A : Type} (zero : A) (w : Z).
Definition slice_len (buf : list A) (vs : Z) : Z := Z.of_nat (length buf) / vs.
Definition vector_at (buf : list A) (vs i : Z) : option (list A) :=
  if decide (0 <= i ∧ (i + 1) * vs <= Z.of_nat (length buf)) then Some (take (Z.to_nat vs) (drop (Z.to_nat (i * vs)) buf)) else None.
Definition zeros (vs : Z) : list A := replicate (Z.to_nat vs) zero.
(** A masked read reads the first vector. *)
Definition read_masked (mask : bool) (buf : list A) (vs index : Z) : option (list A) :=
  input ← vector_at buf vs (if mask then index else 0); Some (if mask then input else zeros vs).
Definition view_read_checked (view : LinearViewLayout) (buf : list A) (vs pos : Z) : option (list A) :=
  '(read_pos, in_bounds) ← to_source_pos_checked (ViewLayout := linear_layout w) view pos;
  value ← read_masked (read_pos <? slice_len buf vs) buf vs read_pos;
  Some (if in_bounds : bool then value else zeros vs).
Definition write_checked (buf : list A) (index : Z) (value : list A) : list A :=
  let vs := Z.of_nat (length value) in
  if index <? slice_len buf vs then take (Z.to_nat (index * vs)) buf ++ value ++ drop (Z.to_nat ((index + 1) * vs)) buf else buf.
Fixpoint write_registers (out : list A) (offset_output : Z) (i : Z) (registers : list (list A)) : list A :=
  match registers with
  | [] => out
  | r :: registers => write_registers (write_checked out (wadd w offset_output i) r) offset_output (i + 1) registers
  end.
Definition copy_kernel (input : list A) (view out_layout : LinearViewLayout) (vs elems_per_thread pos : Z) (out : list A) : option (list A) :=
  let offset_linear := wmul w pos elems_per_thread in
  registers ← mapM (λ i, view_read_checked view input vs (wadd w offset_linear i)) (seqZ 0 elems_per_thread);
  offset_output ← to_source_pos (ViewLayout := linear_layout w) out_layout offset_linear;
  Some (write_registers out offset_output 0 registers).
Definition copy_kernel_pack (input : list A) (view out_layout : LinearViewLayout) (vs elems_per_thread pos : Z) (out : list A) : option (list A) :=
  vectors_per_thread ← wdiv elems_per_thread vs;
  let offset_output := wmul w pos vectors_per_thread in
  let offset_input := wmul w offset_output vs in
  registers ← mapM (λ i, mjoin <$> mapM (λ k, view_read_checked view input 1 (wadd w (wadd w offset_input (wmul w i vs)) k)) (seqZ 0 vs)) (seqZ 0 vectors_per_thread);
  offset_output ← to_source_pos (ViewLayout := linear_layout w) out_layout offset_output;
  Some (write_registers out offset_output 0 registers).
Definition run_unit (plan : CopyPlan) (input : list A) (count : Z * Z * Z) (u : UnitPos) (out : list A) : option (list A) :=
  let pos := absolute_pos w count (plan_cube_dim plan) u in
  (if plan_pack plan then copy_kernel_pack else copy_kernel) input (plan_input plan) (plan_output plan) (plan_vector plan) (plan_elems plan) pos out.
Fixpoint run_units (plan : CopyPlan) (input : list A) (count : Z * Z * Z) (units : list UnitPos) (out : list A) : option (list A) :=
  match units with
  | [] => Some out
  | u :: units => out ← run_unit plan input count u out; run_units plan input count units out
  end.
End kernel.

(** The copy of the contents [inp] into the buffer [out], its units in some order. *)
Definition copy_gpu_ref {A} (zero : A) (cast : Z → Z → option Z) (dev : CopyDevice) (order : list UnitPos → list UnitPos) (elem_size : Z) (input output : TensorBinding) (inp out : list A) : option (list A) :=
  plan ← copy_gpu_plan cast dev input output elem_size;
  match plan_cube_count plan with
  | Static x y z => run_units zero (8 * address_size (plan_address plan)) plan inp (x, y, z) (order (all_units (x, y, z) (plan_cube_dim plan))) out
  | Dynamic _ => None
  end.

(** ** The grid *)
Lemma list_bind_ext {A B} (f g : A → list B) l : (∀ x, x ∈ l → f x = g x) → l ≫= f = l ≫= g.
Proof.
  induction l as [|x l IH]; intros H; [done|]. cbn. rewrite (H x) by by left. f_equal. apply IH. intros y Hy. apply H. by right.
Qed.
Lemma grid_bind {A} (F : Z → list A) m n : 0 <= m → 0 <= n → (i ← seqZ 0 m; j ← seqZ 0 n; F (i * n + j)) = (k ← seqZ 0 (m * n); F k).
Proof.
  intros Hm Hn. pattern m. apply natlike_ind; [done| |done]. clear m Hm. intros m Hm IH.
  replace (Z.succ m * n) with (m * n + n) by lia. replace (Z.succ m) with (m + 1) by lia. rewrite !seqZ_app, !bind_app, IH by lia. f_equal.
  rewrite (seqZ_cons (0 + m) 1), (seqZ_nil _ (Z.pred 1)) by lia. cbn [mbind list_bind]. rewrite app_nil_r.
  replace (0 + m * n) with (m * n + 0) by lia. rewrite <- (fmap_add_seqZ (m * n) 0 n). rewrite Z.add_0_l.
  clear IH. induction (seqZ 0 n) as [|x l IH']; [done|]. cbn. by rewrite IH'.
Qed.
Lemma fmap_bind {A B C} (f : B → C) (g : A → list B) l : f <$> (l ≫= g) = l ≫= (λ x, f <$> g x).
Proof. induction l as [|x l IH]; [done|]. cbn. by rewrite fmap_app, IH. Qed.
Lemma absolute_pos_all w x y z dim : 0 < w → 0 <= x → 0 <= y → 0 <= z → 0 <= dim_x dim → 0 <= dim_y dim → 0 <= dim_z dim →
  x * y * z * (dim_x dim * dim_y dim * dim_z dim) < 2 ^ w → dim_x dim * dim_y dim * dim_z dim < 2 ^ 32 →
  absolute_pos w (x, y, z) dim <$> all_units (x, y, z) dim = seqZ 0 (x * y * z * (dim_x dim * dim_y dim * dim_z dim)).
Proof.
  intros Hw Hx Hy Hz Hdx Hdy Hdz Hb Hb32. set (dx := dim_x dim) in *. set (dy := dim_y dim) in *. set (dz := dim_z dim) in *.
  transitivity (cz ← seqZ 0 z; cy ← seqZ 0 y; cx ← seqZ 0 x; uz ← seqZ 0 dz; uy ← seqZ 0 dy; ux ← seqZ 0 dx;
    [((((cz * y + cy) * x + cx) * dz + uz) * dy + uy) * dx + ux]).
  - unfold all_units. cbn [fst snd]. fold dx dy dz. rewrite fmap_bind. apply list_bind_ext. intros cz Hcz%elem_of_seqZ. rewrite fmap_bind. apply list_bind_ext. intros cy Hcy%elem_of_seqZ.
    rewrite fmap_bind. apply list_bind_ext. intros cx Hcx%elem_of_seqZ. rewrite fmap_bind. apply list_bind_ext. intros uz Huz%elem_of_seqZ.
    rewrite fmap_bind. apply list_bind_ext. intros uy Huy%elem_of_seqZ. rewrite fmap_bind. apply list_bind_ext. intros ux Hux%elem_of_seqZ. cbn. f_equal.
    unfold absolute_pos, cube_pos, unit_pos, wadd, wmul. cbn. fold dx dy dz.
    assert (0 <= cz * y + cy < z * y) as H1 by nia. assert (0 <= (cz * y + cy) * x + cx < z * y * x) as H2 by nia.
    assert (0 <= uz * dy + uy < dz * dy) as H3 by nia. assert (0 <= (uz * dy + uy) * dx + ux < dz * dy * dx) as H4 by nia.
    assert (0 <= cz * y * x ∧ 0 <= cy * x ∧ 0 <= cz * y) as (? & ? & ?) by nia. assert (0 <= uz * dx ∧ 0 <= uz * dx * dy ∧ 0 <= uy * dx) as (? & ? & ?) by nia.
    set (n := (cz * y + cy) * x + cx) in *. set (u := (uz * dy + uy) * dx + ux) in *. assert (0 < dx * dy * dz) as Hd by nia.
    assert (n * (dx * dy * dz) + u < z * y * x * (dx * dy * dz)) as Hlt by nia. assert (0 <= n * (dx * dy * dz)) by nia.
    assert (n = cz * y * x + cy * x + cx) as Hn by (unfold n; ring). assert (u = ux + uy * dx + uz * dx * dy) as Hu by (unfold u; ring).
    assert (n < 2 ^ w) by nia. assert (u < 2 ^ 32) by nia. assert (cz * y < 2 ^ w) by nia.
    assert (uz * dx < 2 ^ 32) by nia.
    rewrite (wrap_small w (cz * y)), (wrap_small w (cz * y * x)), (wrap_small w (cy * x)) by lia. rewrite (wrap_small w (cz * y * x + cy * x)) by lia. rewrite (wrap_small w (cz * y * x + cy * x + cx)) by lia.
    rewrite <- Hn. rewrite (wrap_small 32 (uy * dx)), (wrap_small 32 (uz * dx)) by lia. rewrite (wrap_small 32 (uz * dx * dy)) by lia. rewrite (wrap_small 32 (ux + uy * dx)) by lia.
    rewrite (wrap_small 32 (ux + uy * dx + uz * dx * dy)) by lia. rewrite <- Hu. rewrite (wrap_small w (n * (dx * dy * dz))) by lia.
    rewrite wrap_small by lia. unfold u. ring.
  - rewrite (grid_bind (λ k, cx ← seqZ 0 x; uz ← seqZ 0 dz; uy ← seqZ 0 dy; ux ← seqZ 0 dx; [(((k * x + cx) * dz + uz) * dy + uy) * dx + ux]) z y) by lia.
    rewrite (grid_bind (λ k, uz ← seqZ 0 dz; uy ← seqZ 0 dy; ux ← seqZ 0 dx; [((k * dz + uz) * dy + uy) * dx + ux]) (z * y) x) by lia.
    rewrite (grid_bind (λ k, uy ← seqZ 0 dy; ux ← seqZ 0 dx; [(k * dy + uy) * dx + ux]) (z * y * x) dz) by nia.
    rewrite (grid_bind (λ k, ux ← seqZ 0 dx; [k * dx + ux]) (z * y * x * dz) dy) by nia.
    rewrite (grid_bind (λ k, [k]) (z * y * x * dz * dy) dx) by nia.
    replace (z * y * x * dz * dy * dx) with (x * y * z * (dx * dy * dz)) by ring. clear. induction (seqZ 0 _) as [|k l IH]; [done|]. cbn. by rewrite IH.
Qed.

(** ** What the host plans *)
(** The elements of a unit. *)
Definition unit_elems (plan : CopyPlan) : Z := if plan_pack plan then plan_elems plan else plan_elems plan * plan_vector plan.
Definition dim_units (d : Dim3) : Z := dim_x d * dim_y d * dim_z d.
Lemma elems_for_power r : ∃ k : nat, (k <= 3)%nat ∧ elems_for r = 2 ^ Z.of_nat k.
Proof. unfold elems_for. repeat case_match; [exists 0%nat|exists 1%nat|exists 2%nat|exists 3%nat]; split; (lia || done). Qed.
Lemma fit_elems_spec (fuel k : nat) last_dim vs : 1 <= last_dim → 1 <= vs → (vs | last_dim) → (k < fuel)%nat →
  ∃ e, fit_elems fuel last_dim (2 ^ Z.of_nat k) (vs * 2 ^ Z.of_nat k) = Some (e, vs * e) ∧ 1 <= e <= 2 ^ Z.of_nat k ∧ (vs * e | last_dim).
Proof.
  intros Hd Hv Hdiv. revert k. induction fuel as [|fuel IH]; intros k Hk; [lia|]. cbn [fit_elems]. pose proof (Z.pow_pos_nonneg 2 (Z.of_nat k)) as Hp.
  rewrite (proj2 (Z.eqb_neq (vs * 2 ^ Z.of_nat k) 0)) by nia. destruct (Z.eqb_spec (last_dim mod (vs * 2 ^ Z.of_nat k)) 0) as [H0|Hne].
  - exists (2 ^ Z.of_nat k). split_and!; [done|lia|lia|]. apply Z.mod_divide; nia.
  - destruct k as [|k]; [exfalso; apply Hne; cbn; rewrite Z.mul_1_r; by apply Z.mod_divide; [lia|]|].
    rewrite Nat2Z.inj_succ, Z.pow_succ_r by lia. replace (vs * (2 * 2 ^ Z.of_nat k)) with (vs * 2 ^ Z.of_nat k * 2) by ring.
    replace (2 * 2 ^ Z.of_nat k) with (2 ^ Z.of_nat k * 2) by ring. rewrite !Z.div_mul by lia. destruct (IH k ltac:(lia)) as (e & He & Hb & Hdv). exists e. split_and!; [done|lia|lia|done].
Qed.
Lemma cube_dim_new_spec h n dim : grid_limits h → cube_dim_new h n = Some dim → 1 <= dim_x dim ∧ 1 <= dim_y dim ∧ dim_z dim = 1.
Proof.
  intros (_ & _ & Hp & _). unfold cube_dim_new. intros (c & _ & (l & _ & [= <-])%bind_Some)%bind_Some. cbn. lia.
Qed.
Lemma cube_dim_new_total h n : grid_limits h → ∃ dim, cube_dim_new h n = Some dim ∧ num_elems dim = Some (dim_units dim) ∧ 1 <= dim_units dim <= max_units_per_cube h.
Proof.
  intros (_ & _ & Hp & Hu & _). unfold cube_dim_new, calculate_plane_count_per_cube, checked_quotient. rewrite !decide_False by lia.
  set (limit := max_units_per_cube h / plane_size_max h). assert (plane_size_max h * limit <= max_units_per_cube h) as Hlim by (apply Z.mul_div_le; lia).
  assert (1 <= limit) as Hlim1 by (apply Z.div_le_lower_bound; lia).
  assert (∀ count, ∃ dim, Some (new_2d (plane_size_max h) (Z.max (Z.min limit count) 1)) = Some dim ∧ num_elems dim = Some (dim_units dim) ∧ 1 <= dim_units dim <= max_units_per_cube h) as Hgen.
  { intros count. eexists. split; [done|]. unfold num_elems, dim_units. cbn. rewrite mul_u32_Some by nia. cbn. rewrite mul_u32_Some by nia. split; [done|]. nia. }
  destruct (num_cpu_cores h); cbn; apply Hgen.
Qed.
Lemma num_elems_units dim units : num_elems dim = Some units → units = dim_units dim ∧ units <= u32_max.
Proof.
  unfold num_elems, mul_u32, dim_units. intros (xy & Hxy & H)%bind_Some. do 2 (case_match; [|done]). injection Hxy as <-. injection H as <-.
  split; [done|]. by apply Z.leb_le.
Qed.

Section plan.
Context (cast : Z → Z → option Z) (dev : CopyDevice) (elem_size : Z).
Record plan_facts (input output : TensorBinding) (plan : CopyPlan) : Prop := mk_plan_facts {
  fact_vector : 1 <= plan_vector plan;
  fact_elems : 1 <= unit_elems plan;
  fact_divides : (plan_vector plan | unit_elems plan);
  fact_row : ∀ d, last (binding_shape output) = Some d → 1 <= d → (unit_elems plan | d);
  fact_input : plan_pack plan = false → 1 < plan_vector plan → last (binding_strides input) = Some 1 ∧
    (∃ d, binding_shape input !! (length (binding_strides input) - 1)%nat = Some d ∧ (plan_vector plan | d)) ∧
    (plan_vector plan | default 0 (min_size (other_strides (binding_strides input) (length (binding_strides input) - 1))));
  fact_view : ∃ len, num_elements (binding_shape input) = Some len ∧
    register_linear cast (device_fast dev) (address_size (plan_address plan)) None (mk_MemoryArg len (binding_shape input) (binding_strides input))
      (if plan_pack plan then 1 else plan_vector plan) = Some (plan_input plan);
  fact_layout : ∃ len, num_elements (binding_shape output) = Some len ∧
    register_linear cast (device_fast dev) (address_size (plan_address plan)) None (mk_MemoryArg len (binding_shape output) (binding_strides output))
      (plan_vector plan) = Some (plan_output plan);
  fact_address : address_size (plan_address plan) = 4 → binding_size input / elem_size <= u32_max ∧ binding_size output / elem_size <= u32_max;
  fact_grid : grid_limits (device_hardware dev) → ∀ n, num_elements (binding_shape input) = Some n → 1 <= n <= 2 ^ 31 →
    ∃ x y z, plan_cube_count plan = Static x y z ∧ 0 <= x ∧ 1 <= y ∧ 1 <= z ∧
      1 <= dim_x (plan_cube_dim plan) ∧ 1 <= dim_y (plan_cube_dim plan) ∧ dim_z (plan_cube_dim plan) = 1 ∧ dim_units (plan_cube_dim plan) <= u32_max ∧
      n <= x * y * z * dim_units (plan_cube_dim plan) * unit_elems plan;
}.
Lemma copy_plan_facts input output plan : length (binding_shape output) = length (binding_strides output) →
  (∀ d, last (binding_shape output) = Some d → 1 <= d) →
  copy_gpu_plan cast dev input output elem_size = Some plan → plan_facts input output plan.
Proof.
  intros Hlo Hlast. unfold copy_gpu_plan. intros (n & Hn & H)%bind_Some. apply bind_Some in H as (ia & Hia & H). apply bind_Some in H as (oa & Hoa & H).
  apply bind_Some in H as (sizes & Hsz & H). apply bind_Some in H as (vin & Hvin & H). apply bind_Some in H as (vout & Hvout & H).
  apply bind_Some in H as (nv & Hnv & H). apply bind_Some in H as (dim & Hdim & H). apply bind_Some in H as (units & Hunits & H).
  apply bind_Some in H as (simul & Hsim & H). apply bind_Some in H as (ratio & Hratio & H). apply bind_Some in H as (nepu0 & Hnepu0 & H).
  apply bind_Some in H as (d & Hd & H). apply bind_Some in H as ([epu nepu] & Hfit & H). apply bind_Some in H as (ov & Hov & H).
  apply bind_Some in H as (ai & Hai & H). apply bind_Some in H as (ao & Hao & H). apply bind_Some in H as (argi & Hargi & H). apply bind_Some in H as (argo & Hargo & H).
  apply bind_Some in H as (vi & Hvi & H). apply bind_Some in H as (lo & Hlo' & H). apply bind_Some in H as (th & Hth & H). apply bind_Some in H as (cc & Hcc & [= <-]).
  pose proof (io_sizes_powers _ _ _ _ Hsz) as Hpow. destruct (parallel_size_spec _ _ _ _ _ Hpow Hvin) as [Hpin Hin]. destruct (parallel_size_spec _ _ _ _ _ Hpow Hvout) as [Hpout Hout].
  set (vs := Z.min vin vout) in *. assert (power_of_two vs) as Hpvs by (unfold vs; destruct (Z.min_spec vin vout) as [[_ ->]|[_ ->]]; done).
  pose proof (power_pos _ Hpvs) as Hvs1. assert ((vs | vin) ∧ (vs | vout)) as [Hdin Hdout] by (split; apply power_divides; (done || (unfold vs; lia))).
  assert (oa = length (binding_shape output) - 1)%nat as Hoa'.
  { unfold last_axis in Hoa. rewrite <- Hlo in Hoa. destruct (length (binding_shape output)); [done|]. injection Hoa as <-. lia. }
  assert (ia = length (binding_strides input) - 1)%nat as Hia'.
  { unfold last_axis in Hia. destruct (length (binding_strides input)); [done|]. injection Hia as <-. lia. }
  assert (last (binding_shape output) = Some d) as Hld by (by rewrite last_lookup_pred, <- Hoa').
  pose proof (Hlast d Hld) as Hd1. assert ((vs | d)) as Hvd.
  { destruct (decide (vout = 1)) as [->|Hne]; [etrans; [exact Hdout|apply Z.divide_1_l]|]. pose proof (power_pos _ Hpout). destruct (Hout ltac:(lia)) as (_ & d' & Hd' & Hdd & _).
    rewrite Hd in Hd'. injection Hd' as <-. by etrans. }
  apply mul_u64_inv in Hnepu0 as [-> _]. destruct (elems_for_power ratio) as (k & Hk & Hepu). rewrite Hepu in Hfit.
  destruct (fit_elems_spec 4 k d vs Hd1 Hvs1 Hvd ltac:(lia)) as (e & He & [He1 _] & Hrow). rewrite He in Hfit. injection Hfit as <- Hnep. symmetry in Hnep. rewrite <- Hnep in Hrow. clear He.
  assert (1 <= ov ∧ (ov | nepu) ∧ (1 < vs → ov = vs)) as (Hov1 & Hovd & Hovv).
  { destruct (Z.ltb_spec 1 vs) as [Hlt|Hge]; [injection Hov as <-; split_and!; [lia|exists e; lia|done]|].
    apply bind_Some in Hov as (l & Hl & [= <-]). destruct (max_size l) as [m|] eqn:Hm; [|cbn; split_and!; [lia|apply Z.divide_1_l|lia]]. cbn.
    destruct (filter_sizes_elem _ _ _ _ Hl (max_size_elem _ _ Hm)) as [Hmin Hf]. injection Hf as Hf%Z.eqb_eq. rewrite Forall_forall in Hpow. pose proof (power_pos _ (Hpow _ Hmin)).
    split_and!; [lia|apply Z.mod_divide; [lia|done]|lia]. }
  set (pk := negb (vs =? ov) && (1 <? ov)) in *.
  assert (unit_elems (mk_CopyPlan pk cc dim (address_max ai ao) ov vi lo e) = nepu) as Hue.
  { unfold unit_elems. cbn. unfold pk. destruct (Z.eqb_spec vs ov) as [Heq|Hne]; cbn [negb andb].
    - rewrite Hnep, Heq. ring.
    - destruct (decide (1 < vs)) as [Hlt|Hge]; [by rewrite Hovv in Hne by done|]. assert (vs = 1) as Hv1 by lia. rewrite (proj2 (Z.ltb_lt 1 ov)) by lia. rewrite Hnep, Hv1. ring. }
  assert (pk = false → 1 < ov → vs = ov) as Hpk. { unfold pk. destruct (Z.eqb_spec vs ov) as [|Hne]; [done|]. cbn. intros Hf%Z.ltb_ge. lia. }
  unfold memory_arg in Hargi, Hargo. apply bind_Some in Hargi as (leni & Hleni & [= <-]). apply bind_Some in Hargo as (leno & Hleno & [= <-]).
  assert (1 <= nepu) as Hnepu1 by nia.
  split; rewrite ?Hue; cbn [plan_vector plan_pack plan_input plan_output plan_address plan_cube_count plan_cube_dim]; try done.
  - intros d' Hd' _. rewrite Hld in Hd'. by injection Hd' as <-.
  - intros Hpf Hlt. rewrite <- (Hpk Hpf Hlt) in Hlt |- *. assert (1 < vin) as Hvin1 by (unfold vs in Hlt; lia). destruct (Hin Hvin1) as (Hs1 & di & Hdi & Hvdi & Hmin).
    rewrite Hia' in Hs1, Hdi, Hmin. split_and!; [by rewrite last_lookup_pred|exists di; split; [done|exact (Z.divide_trans _ _ _ Hdin Hvdi)]|exact (Z.divide_trans _ _ _ Hdin Hmin)].
  - exists leni. split; [done|]. exact Hvi.
  - exists leno. split; [done|]. exact Hlo'.
  - unfold required_address_type in Hai, Hao. apply fmap_Some in Hai as (qi & Hqi & ->). apply fmap_Some in Hao as (qo & Hqo & ->). unfold wdiv in Hqi, Hqo.
    do 2 (case_decide; [done|]). simplify_eq. unfold address_from_len. destruct (Z.ltb_spec u32_max (binding_size input / elem_size)), (Z.ltb_spec u32_max (binding_size output / elem_size)); cbn; (done || lia).
  - intros Hg n' Hn' Hnb. rewrite Hn in Hn'. injection Hn' as <-. destruct (cube_dim_new_spec _ _ _ Hg Hdim) as (Hdx & Hdy & Hdz). destruct (num_elems_units _ _ Hunits) as [Hu Hub].
    rewrite decide_False in Hth by lia. injection Hth as <-. pose proof (div_ceil_spec n nepu ltac:(lia)) as Hc. unfold dim_units in *. rewrite Hdz in *.
    assert (1 <= div_ceil n nepu <= 2 ^ 31) as Ht by nia. destruct (cube_count_elemwise_covers _ _ _ _ Hg Hunits ltac:(nia) Ht) as (cc' & Hcc' & x & y & z & -> & Hx & Hy & Hz & Hcov). rewrite Hcc' in Hcc. injection Hcc as <-.
    exists x, y, z. split_and!; [done|lia..|]. subst units. nia.
Qed.
End plan.
