(* ===== verification/CopyExact.v ===== *)
(** * The copy into contiguous tensors is exact

    The units of [ContiguousCopy]: where the rows of the output put an element,
    what a unit reads and what it writes, and that all of them together copy the
    tensor. *)

From S2P Require Export ContiguousCopy.
From stdpp Require Import list sorting.
#[local] Open Scope Z_scope.

(** ** The rows of the output *)
Section rows.
Context (d s : Z) (d_pos : 1 <= d) (d_row : d <= s).
(** Where the element of a linear index is, rows of [d] elements being [s] apart. *)
Definition row_address (e : Z) : Z := e / d * s + e mod d.
Lemma row_address_mono e e' : 0 <= e < e' → row_address e < row_address e'.
Proof.
  intros He. unfold row_address. pose proof (Z.div_mod e d ltac:(lia)). pose proof (Z.div_mod e' d ltac:(lia)).
  pose proof (Z.mod_pos_bound e d ltac:(lia)). pose proof (Z.mod_pos_bound e' d ltac:(lia)). pose proof (Z.div_le_mono e e' d ltac:(lia) ltac:(lia)).
  destruct (decide (e / d = e' / d)) as [Heq|Hne]; [rewrite Heq in *; lia|]. assert ((e / d + 1) * s <= e' / d * s) by (apply Z.mul_le_mono_nonneg_r; lia). lia.
Qed.
Lemma row_address_inj e e' : 0 <= e → 0 <= e' → row_address e = row_address e' → e = e'.
Proof. intros He He' Heq. destruct (Z.lt_total e e') as [H|[H|H]]; [pose proof (row_address_mono e e' ltac:(lia)); lia|done|pose proof (row_address_mono e' e ltac:(lia)); lia]. Qed.
Lemma row_address_nonneg e : 0 <= e → 0 <= row_address e.
Proof. intros He. unfold row_address. pose proof (Z.mod_pos_bound e d ltac:(lia)). pose proof (Z.div_pos e d ltac:(lia) ltac:(lia)). nia. Qed.
(** The elements of a unit are next to each other. *)
Lemma row_address_unit U p j : (U | d) → 0 <= p → 0 <= j < U → row_address (p * U + j) = row_address (p * U) + j.
Proof.
  intros [k Hk] Hp Hj. assert (1 <= k) as Hk1 by nia. assert (p * U / d = p / k ∧ p * U mod d = p mod k * U) as [Hq Hr].
  { rewrite Hk. split; [by rewrite Z.div_mul_cancel_r by lia|by rewrite Z.mul_mod_distr_r by lia]. }
  pose proof (Z.mod_pos_bound p k ltac:(lia)). assert (p mod k * U + j < d) by nia. assert (0 <= p mod k * U) by nia.
  pose proof (Z.div_mod (p * U) d ltac:(lia)) as Hdm. rewrite Hr in Hdm. unfold row_address. rewrite Hr.
  assert ((p * U + j) / d = p * U / d) as -> by (symmetry; apply (Z.div_unique_pos _ _ _ (p mod k * U + j)); lia).
  assert ((p * U + j) mod d = p mod k * U + j) as -> by (symmetry; apply (Z.mod_unique_pos _ _ (p * U / d)); lia). lia.
Qed.
Lemma row_address_divides vs U p : (vs | U) → (U | d) → (vs | s) → 0 <= p → 1 <= U → (vs | row_address (p * U)).
Proof.
  intros Hv [k Hk] Hs Hp HU. assert (1 <= k) by nia. unfold row_address. rewrite Hk. rewrite Z.mul_mod_distr_r by lia.
  apply Z.divide_add_r; [by apply Z.divide_mul_r|by apply Z.divide_mul_r].
Qed.
Lemma row_address_bound e T : 0 <= e <= T → row_address e < (T / d + 1) * s.
Proof.
  intros He. unfold row_address. pose proof (Z.mod_pos_bound e d ltac:(lia)). pose proof (Z.div_le_mono e T d ltac:(lia) ltac:(lia)).
  assert (e / d * s <= T / d * s) by (apply Z.mul_le_mono_nonneg_r; lia). lia.
Qed.
End rows.
(** The strides of rows [s] apart, and the address of coordinates in them. *)
Definition row_strides (shape0 : list Z) (s : Z) : list Z := ((λ x, x * s) <$> strides_of shape0) ++ [1].
Lemma row_strides_offset shape0 d s c : in_bounds c (shape0 ++ [d]) → offset_of c (row_strides shape0 s) = row_address d s (offset_of c (strides_of (shape0 ++ [d]))).
Proof.
  intros (c0 & x & -> & Hc0 & Hx)%in_bounds_snoc. pose proof (Forall2_length _ _ _ Hc0) as Hl. rewrite linear_snoc by done. unfold row_strides.
  rewrite offset_of_app, offset_of_scale by by rewrite length_fmap, strides_of_length. unfold row_address.
  set (k := offset_of c0 (strides_of shape0)). assert ((k * d + x) / d = k) as -> by (symmetry; apply (Z.div_unique_pos _ _ _ x); lia).
  assert ((k * d + x) mod d = x) as -> by (symmetry; apply (Z.mod_unique_pos _ _ k); lia). cbn. lia.
Qed.

(** ** What a unit writes *)
Section writes.
Context {A : Type} (w : Z).
Implicit Types (out v : list A).
Lemma write_checked_length out i v : 0 <= i → length (write_checked out i v) = length out.
Proof.
  intros Hi. unfold write_checked, slice_len. destruct (Z.ltb_spec i (Z.of_nat (length out) / Z.of_nat (length v))) as [Hlt|]; [|done].
  assert (length v ≠ 0)%nat by (intros H0; rewrite H0, Zdiv_0_r in Hlt; lia).
  pose proof (Z.mul_div_le (Z.of_nat (length out)) (Z.of_nat (length v)) ltac:(lia)).
  rewrite !length_app, length_take, length_drop. nia.
Qed.
Lemma write_checked_lookup out i v a : 0 <= i → 0 <= a →
  write_checked out i v !! Z.to_nat a =
    if decide (i * Z.of_nat (length v) <= a < (i + 1) * Z.of_nat (length v) ∧ i < slice_len out (Z.of_nat (length v)))
    then v !! Z.to_nat (a - i * Z.of_nat (length v)) else out !! Z.to_nat a.
Proof.
  intros Hi Ha. unfold write_checked. set (vs := Z.of_nat (length v)). destruct (Z.ltb_spec i (slice_len out vs)) as [Hlt|]; [|rewrite decide_False by lia; done].
  unfold slice_len in Hlt. assert (length v ≠ 0)%nat as Hv by (intros H0; unfold vs in Hlt; rewrite H0, Zdiv_0_r in Hlt; lia).
  pose proof (Z.mul_div_le (Z.of_nat (length out)) vs ltac:(lia)) as Hb. assert (0 <= i * vs) by (unfold vs; nia). assert ((i + 1) * vs <= Z.of_nat (length out)) by nia.
  assert (length (take (Z.to_nat (i * vs)) out) = Z.to_nat (i * vs)) as Hl by (rewrite length_take; lia).
  destruct (decide (a < i * vs)) as [Hlow|Hge].
  { rewrite decide_False by lia. rewrite lookup_app_l by lia. by rewrite lookup_take_lt by lia. }
  rewrite lookup_app_r by lia. rewrite Hl. case_decide as Hd.
  - rewrite lookup_app_l by lia. f_equal. lia.
  - unfold slice_len in Hd. assert ((i + 1) * vs <= a) by lia. rewrite lookup_app_r by lia. rewrite lookup_drop. f_equal. lia.
Qed.
(** The vectors of a unit, at the positions after [D]. *)
Lemma write_registers_spec vs out D i regs : 1 <= vs → Forall (λ r, Z.of_nat (length r) = vs) regs → 0 <= D → 0 <= i → D + i + Z.of_nat (length regs) <= 2 ^ w →
  length (write_registers w out D i regs) = length out ∧
  ∀ a, 0 <= a → write_registers w out D i regs !! Z.to_nat a =
    if decide ((D + i) * vs <= a < (D + i + Z.of_nat (length regs)) * vs ∧ a / vs < slice_len out vs)
    then mjoin regs !! Z.to_nat (a - (D + i) * vs) else out !! Z.to_nat a.
Proof.
  intros Hvs Hr HD. revert i out. induction Hr as [|r regs Hr0 Hr IH]; intros i out Hi Hb; cbn [write_registers length mjoin list_join] in *.
  { split; [done|]. intros a Ha. rewrite decide_False by lia. done. }
  unfold wadd. rewrite (wrap_small w (D + i)) by lia. destruct (IH (i + 1) (write_checked out (D + i) r) ltac:(lia) ltac:(lia)) as [Hlen Hlook].
  rewrite Hlen, write_checked_length by lia. split; [done|]. intros a Ha. rewrite Hlook by done. rewrite write_checked_lookup by lia. rewrite Hr0.
  unfold slice_len. rewrite write_checked_length by lia. set (n := Z.of_nat (length out) / vs).
  pose proof (Z.div_mod a vs ltac:(lia)) as Hdm. pose proof (Z.mod_pos_bound a vs ltac:(lia)) as Hmb. set (q := a / vs) in *.
  destruct (decide ((D + (i + 1)) * vs <= a < (D + (i + 1) + Z.of_nat (length regs)) * vs ∧ q < n)) as [H1|H1].
  - rewrite decide_True by lia. rewrite lookup_app_r by lia. f_equal. lia.
  - destruct (decide ((D + i) * vs <= a < (D + i + 1) * vs ∧ D + i < n)) as [H2|H2].
    + assert (q = D + i) by nia. rewrite decide_True by nia. rewrite lookup_app_l by lia. done.
    + rewrite decide_False; [done|]. intros [H3 H4]. destruct (decide ((D + (i + 1)) * vs <= a)) as [H5|H5]; [apply H1; lia|]. apply H2. assert (q = D + i) by nia. lia.
Qed.
End writes.

(** ** What a unit reads *)
(** The elements of a vector follow each other in the buffer. *)
Definition rows_aligned (shape strides : list Z) (vs : Z) : Prop := ∀ c pos, in_bounds c shape → offset_of c (strides_of shape) = pos * vs →
  (vs | offset_of c strides) ∧ ∀ k, 0 <= k < vs → ∃ c', in_bounds c' shape ∧ offset_of c' (strides_of shape) = pos * vs + k ∧ offset_of c' strides = offset_of c strides + k.
(** A list of elements of the tensor, from linear index [start] on. *)
Definition holds_elements {A} (shape strides : list Z) (inp : list A) (start : Z) (v : list A) : Prop := ∀ j c, 0 <= j < Z.of_nat (length v) → in_bounds c shape →
  offset_of c (strides_of shape) = start + j → v !! Z.to_nat j = inp !! Z.to_nat (offset_of c strides).
(** A view of a tensor that the units read vectors of [vs] elements through. *)
Record view_reads {A} (w : Z) (shape strides : list Z) (inp : list A) (view : LinearViewLayout) (vs : Z) : Prop := mk_view_reads {
  reads_vector : 1 <= vs;
  reads_shape : Forall (Z.le 0) shape;
  reads_aligned : rows_aligned shape strides vs;
  reads_total : (vs | prod_Z shape);
  reads_buffer : ∀ c, in_bounds c shape → 0 <= offset_of c strides < Z.of_nat (length inp);
  reads_one : vs <= Z.of_nat (length inp);
  reads_maps : ∀ pos c, 0 <= pos → in_bounds c shape → offset_of c (strides_of shape) = pos * vs →
    to_source_pos (ViewLayout := linear_layout w) view pos = Some (offset_of c strides / vs);
  reads_somewhere : ∀ pos, 0 <= pos → ∃ a, to_source_pos (ViewLayout := linear_layout w) view pos = Some a ∧ 0 <= a;
  reads_bound : ∀ pos, is_in_bounds (ViewLayout := linear_layout w) view pos = Some (pos <? prod_Z shape / vs);
}.
Section reads.
Context {A : Type} (zero : A) (w : Z) (shape strides : list Z) (inp : list A) (vs : Z).
Context (view : LinearViewLayout) (view_ok : view_reads w shape strides inp view vs).
Let vs_pos := reads_vector _ _ _ _ _ _ view_ok.
Abbreviation holds := (holds_elements shape strides inp).

Lemma linear_checked pos : to_source_pos_checked (ViewLayout := linear_layout w) view pos =
  (s ← to_source_pos (ViewLayout := linear_layout w) view pos; Some (s, pos <? prod_Z shape / vs)).
Proof.
  pose proof (reads_bound _ _ _ _ _ _ view_ok pos) as Hb. destruct view; cbn in *; injection Hb as Hb; rewrite ?Hb; [done|by destruct (strided_source_pos _ _ _)|by destruct (permuted_source_pos _ _ _)].
Qed.
Lemma read_masked_total mask a : 0 <= a → (mask = true → a < slice_len inp vs) → ∃ v, read_masked zero mask inp vs a = Some v ∧ Z.of_nat (length v) = vs ∧
  (mask = true → ∀ k, 0 <= k < vs → v !! Z.to_nat k = inp !! Z.to_nat (a * vs + k)).
Proof.
  intros Ha Hm. unfold read_masked, vector_at. pose proof (Z.mul_div_le (Z.of_nat (length inp)) vs ltac:(lia)) as Hd. unfold slice_len in Hm. destruct mask.
  - specialize (Hm eq_refl). assert ((a + 1) * vs <= Z.of_nat (length inp)) by nia. assert (0 <= a * vs) by nia. rewrite decide_True by lia. cbn. eexists. split; [done|].
    split; [rewrite length_take, length_drop; lia|]. intros _ k Hk. rewrite lookup_take_lt by lia. rewrite lookup_drop. f_equal. lia.
  - pose proof (reads_one _ _ _ _ _ _ view_ok). rewrite decide_True by lia. cbn. eexists. split; [done|]. split; [unfold zeros; rewrite length_replicate; lia|done].
Qed.
Lemma view_read pos : 0 <= pos → ∃ v, view_read_checked zero w view inp vs pos = Some v ∧ Z.of_nat (length v) = vs ∧ holds (pos * vs) v.
Proof.
  intros Hp. unfold view_read_checked. rewrite linear_checked. destruct (reads_total _ _ _ _ _ _ view_ok) as [q Hq]. rewrite Hq, Z.div_mul by lia. destruct (Z.ltb_spec pos q) as [Hlt|Hge].
  - destruct (strides_of_onto shape (pos * vs)) as (c & Hc & Ho); [nia|apply (reads_shape _ _ _ _ _ _ view_ok)|]. rewrite (reads_maps _ _ _ _ _ _ view_ok pos c) by done. cbn [mbind option_bind].
    destruct (reads_aligned _ _ _ _ _ _ view_ok c pos Hc Ho) as [[b Hb] Hrow]. pose proof (reads_buffer _ _ _ _ _ _ view_ok c Hc) as Hin. rewrite Hb, Z.div_mul in * by lia.
    destruct (Hrow (vs - 1) ltac:(lia)) as (c1 & Hc1 & _ & Ho1). pose proof (reads_buffer _ _ _ _ _ _ view_ok c1 Hc1) as Hin1.
    assert (b < slice_len inp vs) as Hlb by (unfold slice_len; apply (Z.lt_le_trans _ (b + 1)); [lia|]; apply Z.div_le_lower_bound; nia). rewrite (proj2 (Z.ltb_lt _ _) Hlb).
    destruct (read_masked_total true b) as (v & -> & Hl & Hv); [nia|done|]. cbn. exists v. split_and!; [done|done|]. intros j c' Hj Hc' Ho'.
    destruct (Hrow j ltac:(lia)) as (c2 & Hc2 & Ho2 & Hs2). assert (c' = c2) as -> by (eapply (separated_injective shape); [apply strides_of_separated|done|done|lia]).
    rewrite Hv by (done || lia). f_equal. lia.
  - destruct (reads_somewhere _ _ _ _ _ _ view_ok pos Hp) as (a & -> & Ha). cbn [mbind option_bind]. destruct (read_masked_total (a <? slice_len inp vs) a Ha) as (v & -> & Hl & _); [intros H; by apply Z.ltb_lt in H|].
    cbn. exists (zeros zero vs). split_and!; [done|unfold zeros; rewrite length_replicate; lia|]. intros j c Hj Hc Ho. pose proof (strides_of_bound _ _ Hc) as Hb. nia.
Qed.
End reads.

Section joins.
Context {A : Type} (shape strides : list Z) (inp : list A).
Abbreviation holds := (holds_elements shape strides inp).
Lemma holds_app start v1 v2 : holds start v1 → holds (start + Z.of_nat (length v1)) v2 → holds start (v1 ++ v2).
Proof.
  intros H1 H2 j c Hj Hc Ho. rewrite length_app in Hj. destruct (decide (j < Z.of_nat (length v1))) as [Hlt|Hge].
  - rewrite lookup_app_l by lia. apply H1; (done || lia).
  - rewrite lookup_app_r by lia. replace (Z.to_nat j - length v1)%nat with (Z.to_nat (j - Z.of_nat (length v1))) by lia. apply H2; (done || lia).
Qed.
(** Vectors read one after another. *)
Lemma reads_follow (read : Z → option (list A)) size n start : 0 <= n → 1 <= size →
  (∀ i, 0 <= i < n → ∃ v, read i = Some v ∧ Z.of_nat (length v) = size ∧ holds (start + i * size) v) →
  ∃ vs, mapM read (seqZ 0 n) = Some vs ∧ Z.of_nat (length vs) = n ∧ Forall (λ v, Z.of_nat (length v) = size) vs ∧ holds start (mjoin vs).
Proof.
  intros Hn Hs Hread. assert (∀ m, 0 <= m → m <= n → ∃ vs, mapM read (seqZ 0 m) = Some vs ∧ Z.of_nat (length vs) = m ∧ Forall (λ v, Z.of_nat (length v) = size) vs ∧
    Z.of_nat (length (mjoin vs)) = m * size ∧ holds start (mjoin vs)) as H.
  { intros m Hm. pattern m. apply natlike_ind; [|clear m Hm; intros m Hm IH Hb|done].
    - intros _. exists []. split_and!; [done|done|constructor|done|]. intros j c Hj. cbn in Hj. lia.
    - destruct IH as (l & Hl & Hlen & Hall & Hj & Hh); [lia|]. destruct (Hread m ltac:(lia)) as (v & Hv & Hlv & Hhv). exists (l ++ [v]).
      unfold Z.succ. rewrite seqZ_app by lia. rewrite Z.add_0_l. rewrite (seqZ_cons m 1), (seqZ_nil _ (Z.pred 1)) by lia.
      assert (mjoin (l ++ [v]) = mjoin l ++ v) as -> by (rewrite join_app; cbn; by rewrite app_nil_r).
      split_and!; [|rewrite length_app; cbn; lia|apply Forall_app; split; [done|by repeat constructor]|rewrite length_app; lia|apply holds_app; [done|by rewrite Hj]].
      apply mapM_Some. apply mapM_Some in Hl. apply Forall2_app; [done|]. by repeat constructor. }
  destruct (H n Hn ltac:(lia)) as (l & ? & ? & ? & _ & ?). by exists l.
Qed.
End joins.

(** ** A unit *)
Section unit.
Context {A : Type} (zero : A) (w : Z) (w_pos : 0 < w) (d s : Z) (d_pos : 1 <= d) (d_row : d <= s).
(** [U] elements to a unit, in vectors of [vs], [T] elements to all of them. *)
Context (U vs T : Z) (U_pos : 1 <= U) (vs_pos : 1 <= vs) (vs_unit : (vs | U)) (unit_row : (U | d)) (vs_row : (vs | s)).
Context (T_fits : T <= 2 ^ (w - 1)) (rows_fit : (T / d + 1) * s <= 2 ^ w).
Context (shape strides : list Z) (inp : list A) (out_layout : LinearViewLayout).
Context (layout_maps : ∀ pos, 0 <= pos → pos * vs < T → to_source_pos (ViewLayout := linear_layout w) out_layout pos = Some (row_address d s (pos * vs) / vs)).

Definition unit_wrote (p : Z) (flat out out' : list A) : Prop :=
  Z.of_nat (length flat) = U ∧ holds_elements shape strides inp (p * U) flat ∧ length out' = length out ∧
  ∀ a, 0 <= a → out' !! Z.to_nat a =
    if decide (row_address d s (p * U) <= a < row_address d s (p * U) + U ∧ a / vs < slice_len out vs)
    then flat !! Z.to_nat (a - row_address d s (p * U)) else out !! Z.to_nat a.

Lemma join_length (l : list (list A)) n : Forall (λ v, Z.of_nat (length v) = n) l → Z.of_nat (length (mjoin l)) = Z.of_nat (length l) * n.
Proof. induction 1 as [|v l Hv Hl IH]; [done|]. change (mjoin (v :: l)) with (v ++ mjoin l). rewrite length_app. cbn [length]. lia. Qed.
(** Registers written where the layout puts the first element of the unit. *)
Lemma registers_written p out regs : 0 <= p → (p + 1) * U <= T →
  Forall (λ r, Z.of_nat (length r) = vs) regs → Z.of_nat (length regs) * vs = U → holds_elements shape strides inp (p * U) (mjoin regs) →
  unit_wrote p (mjoin regs) out (write_registers w out (row_address d s (p * U) / vs) 0 regs).
Proof.
  intros Hp Ht Hr Hl Hh. pose proof U_pos as HU. assert (0 <= p * U) by nia. pose proof (row_address_nonneg d s d_pos d_row (p * U) ltac:(lia)) as Hn.
  destruct (row_address_divides d s d_pos vs U p vs_unit unit_row vs_row Hp HU) as [q Hq]. rewrite Hq, Z.div_mul by lia. assert (0 <= q) by nia.
  pose proof (row_address_bound d s d_pos d_row (p * U + (U - 1)) T ltac:(lia)) as Hb. rewrite row_address_unit, Hq in Hb by (done || lia).
  assert (q + 0 + Z.of_nat (length regs) <= 2 ^ w) as Hfit by nia. destruct (write_registers_spec w vs out q 0 regs vs_pos Hr ltac:(lia) ltac:(lia) Hfit) as [Hlen Hlook].
  split_and!; [by rewrite (join_length _ vs)|done|done|]. intros a Ha. rewrite Hlook, Hq by done. replace ((q + 0) * vs) with (q * vs) by lia.
  replace ((q + 0 + Z.of_nat (length regs)) * vs) with (q * vs + U) by lia. done.
Qed.
Lemma copy_kernel_unit view elems p out : view_reads w shape strides inp view vs → U = elems * vs → 0 <= p → (p + 1) * U <= T →
  ∃ flat out', copy_kernel zero w inp view out_layout vs elems p out = Some out' ∧ unit_wrote p flat out out'.
Proof.
  intros Hview HU Hp Ht. pose proof U_pos as HU1. assert (1 <= elems) by nia. assert (2 ^ w = 2 * 2 ^ (w - 1)) as Hw by (rewrite <- Z.pow_succ_r by lia; f_equal; lia).
  assert (p * elems * vs = p * U) as Hpe by lia. assert (0 <= p * elems) by nia. assert (p * elems + elems <= T) as He by nia.
  unfold copy_kernel, wmul. rewrite (wrap_small w (p * elems)) by lia.
  destruct (reads_follow shape strides inp (λ i, view_read_checked zero w view inp vs (wadd w (p * elems) i)) vs elems (p * U) ltac:(lia) vs_pos) as (regs & -> & Hl & Hall & Hh).
  { intros i Hi. unfold wadd. rewrite wrap_small by lia. destruct (view_read zero w shape strides inp vs view Hview (p * elems + i) ltac:(lia)) as (v & Hv & Hlv & Hhv).
    exists v. split_and!; [done|done|]. by replace (p * U + i * vs) with ((p * elems + i) * vs) by lia. }
  cbn [mbind option_bind]. rewrite layout_maps by nia. cbn [mbind option_bind]. eexists _, _. split; [done|]. rewrite Hpe. apply registers_written; [done|done|done|lia|done].
Qed.
Lemma copy_kernel_pack_unit view p out : view_reads w shape strides inp view 1 → 0 <= p → (p + 1) * U <= T →
  ∃ flat out', copy_kernel_pack zero w inp view out_layout vs U p out = Some out' ∧ unit_wrote p flat out out'.
Proof.
  intros Hview Hp Ht. pose proof U_pos as HU1. assert (2 ^ w = 2 * 2 ^ (w - 1)) as Hw by (rewrite <- Z.pow_succ_r by lia; f_equal; lia).
  destruct vs_unit as [n Hn]. assert (1 <= n) by nia. unfold copy_kernel_pack, wdiv. rewrite decide_False by lia. assert (U / vs = n) as -> by (symmetry; apply Z.div_unique_exact; lia).
  cbn [mbind option_bind]. assert (0 <= p * n) by nia. assert (p * n * vs = p * U) as Hpn by lia. assert (0 <= p * U) by nia.
  assert (p * n + n <= T) by nia. unfold wmul. rewrite !(wrap_small w (p * n)) by lia. rewrite !(wrap_small w (p * n * vs)) by lia. rewrite Hpn.
  destruct (reads_follow shape strides inp (λ i, mjoin <$> mapM (λ k, view_read_checked zero w view inp 1 (wadd w (wadd w (p * U) (wrap w (i * vs))) k)) (seqZ 0 vs)) vs n (p * U) ltac:(lia) vs_pos) as (regs & Hr & Hl & Hall & Hh).
  { intros i Hi. assert (0 <= i * vs) by nia. assert ((i + 1) * vs <= U) by nia. unfold wadd at 2. rewrite (wrap_small w (i * vs)), (wrap_small w (p * U + i * vs)) by lia.
    destruct (reads_follow shape strides inp (λ k, view_read_checked zero w view inp 1 (wadd w (p * U + i * vs) k)) 1 vs (p * U + i * vs) ltac:(lia) ltac:(lia)) as (l & -> & Hl & Hall & Hh).
    { intros k Hk. unfold wadd. rewrite wrap_small by lia. destruct (view_read zero w shape strides inp 1 view Hview (p * U + i * vs + k) ltac:(lia)) as (v & Hv & Hlv & Hhv).
      exists v. split_and!; [done|done|]. by replace (p * U + i * vs + k * 1) with ((p * U + i * vs + k) * 1) by lia. }
    exists (mjoin l). split_and!; [done|rewrite (join_length _ 1); [lia|done]|done]. }
  rewrite Hr. cbn [mbind option_bind]. rewrite layout_maps by lia. cbn [mbind option_bind]. eexists _, _. split; [done|]. rewrite Hpn. apply registers_written; [done|done|done|lia|done].
Qed.
End unit.

(** ** The layout of the output *)
Lemma strides_of_le shape x : Forall (Z.le 1) shape → x ∈ strides_of shape → 1 <= x <= prod_Z shape.
Proof.
  induction 1 as [|d shape Hd Hs IH]; cbn [strides_of]; [by intros ?%elem_of_nil|]. pose proof (prod_Z_pos shape Hs). rewrite prod_Z_cons.
  intros [->|Hx]%elem_of_cons; [nia|]. specialize (IH Hx). nia.
Qed.
Lemma strides_of_chain shape j x d y : strides_of shape !! j = Some x → shape !! S j = Some d → strides_of shape !! S j = Some y → x = d * y.
Proof.
  revert j. induction shape as [|d0 shape IH]; intros [|j]; try done; cbn [strides_of lookup list_lookup]; [|apply IH].
  destruct shape as [|d1 shape]; [done|]. intros [= <-] [= ->] [= <-]. apply prod_Z_cons.
Qed.
Lemma row_strides_sorted shape0 s : Forall (Z.le 1) shape0 → 1 <= s → StronglySorted (flip Z.le) (row_strides shape0 s).
Proof.
  intros Hs0 Hs. unfold row_strides. apply StronglySorted_app. split_and!.
  - intros x y (z & -> & Hz)%list_elem_of_fmap ->%list_elem_of_singleton. pose proof (strides_of_le _ _ Hs0 Hz). cbn. nia.
  - induction Hs0 as [|d shape Hd Hs0 IH]; cbn [strides_of fmap list_fmap]; constructor; [done|].
    apply Forall_forall. intros x (z & -> & Hz)%list_elem_of_fmap. pose proof (strides_of_le _ _ Hs0 Hz). cbn. nia.
  - repeat constructor.
Qed.
Lemma sorted_reverse (l : list Z) : StronglySorted (flip Z.le) l → StronglySorted Z.le (reverse l).
Proof.
  induction 1 as [|x l Hl IH Hx]; [constructor|]. rewrite reverse_cons. apply StronglySorted_app. split_and!; [|done|repeat constructor].
  intros a b Ha ->%list_elem_of_singleton. rewrite Forall_forall in Hx. apply Hx. by apply elem_of_reverse.
Qed.
Lemma contiguous_loop_chain shape strides i n b : (∀ j x d y, (j < i + n)%nat → strides !! j = Some x → shape !! S j = Some d → strides !! S j = Some y → x = d * y) →
  contiguous_loop shape strides i n = Some b → b = true.
Proof.
  revert i. induction n as [|n IH]; intros i Hall; cbn [contiguous_loop]; [by intros [= <-]|].
  intros (x & Hx & (d & Hd & (y & Hy & (p & [-> _]%mul_u64_inv & Hp)%bind_Some)%bind_Some)%bind_Some)%bind_Some.
  rewrite decide_False in Hp by (intros Hne; apply Hne; eapply (Hall i); (done || lia)). eapply IH; [|exact Hp]. intros j x' d' y' Hj. apply Hall. lia.
Qed.
Lemma pitched_rows shape0 d s b : shape0 ≠ [] → Forall (Z.le 1) shape0 → 1 <= s →
  is_contiguous_pitched (shape0 ++ [d]) (row_strides shape0 s) = Some b → b = true.
Proof.
  intros Hne Hs0 Hs. unfold is_contiguous_pitched. assert (length shape0 ≠ 0)%nat by (by destruct shape0). assert (length (row_strides shape0 s) = S (length shape0)) as Hl.
  { unfold row_strides. rewrite length_app, length_fmap, strides_of_length. cbn. lia. }
  rewrite length_app. cbn [length]. rewrite decide_False by lia. replace (length shape0 + 1 - 1)%nat with (length shape0) by lia.
  assert (row_strides shape0 s !! length shape0 = Some 1) as ->. { unfold row_strides. apply list_lookup_middle. by rewrite length_fmap, strides_of_length. }
  cbn [mbind option_bind negb]. change (negb (1 =? 1)) with false. cbn [negb]. rewrite decide_False by lia.
  rewrite decide_False; [|intros Hr; apply Hr; clear Hr].
  - apply contiguous_loop_chain. intros j x e y Hj Hx He Hy. unfold row_strides in Hx, Hy.
    rewrite lookup_app_l in Hx by (rewrite length_fmap, strides_of_length; lia). rewrite lookup_app_l in Hy by (rewrite length_fmap, strides_of_length; lia). rewrite lookup_app_l in He by lia.
    apply list_lookup_fmap_Some in Hx as (x0 & -> & Hx0). apply list_lookup_fmap_Some in Hy as (y0 & -> & Hy0). rewrite (strides_of_chain _ _ _ _ _ Hx0 He Hy0). ring.
  - rewrite <- (reverse_involutive (row_strides shape0 s)) at 2. f_equal. apply (StronglySorted_unique Z.le).
    + apply StronglySorted_merge_sort; apply _.
    + apply sorted_reverse. by apply row_strides_sorted.
    + rewrite merge_sort_Permutation. by rewrite reverse_Permutation.
Qed.

Section layouts.
Context (cast : Z → Z → option Z).
Context (cast_spec : ∀ w x, 0 < w → cast w x = if decide (0 <= x < 2 ^ w) then Some x else None).
Context (fast : bool) (size : Z) (size_ok : size = 4 ∨ size = 8).
Abbreviation w := (8 * size).
Abbreviation source := (to_source_pos (ViewLayout := linear_layout w)).

(** Rows of [d] elements [s] apart are never permuted. *)
Lemma rows_layout shape0 d s len vs l : Forall (Z.le 1) shape0 → 1 <= d <= 2 ^ (w - 1) → d <= s → (shape0 = [] → s = d) → strides_fit (shape0 ++ [d]) → 1 <= vs →
  register_linear cast fast size None (mk_MemoryArg len (shape0 ++ [d]) (row_strides shape0 s)) vs = Some l →
  ∀ pos, 0 <= pos → pos * vs < 2 ^ (w - 1) → row_address d s (pos * vs) < 2 ^ w → source l pos = Some (row_address d s (pos * vs) / vs).
Proof.
  intros Hs0 Hd Hds Hnil Hfit Hvs Hr pos Hp Hb Ha. unfold register_linear in Hr. cbn [arg_shape arg_strides] in Hr.
  assert (length (row_strides shape0 s) = length (shape0 ++ [d])) as Hl by (unfold row_strides; rewrite !length_app, length_fmap, strides_of_length; done).
  destruct (is_contiguous_spec _ _ Hfit Hl) as (b & Hc & Hb2). rewrite Hc in Hr. cbn [mbind option_bind] in Hr.
  assert (∀ e, s = d → row_address d s e = e) as Hsame. { intros e ->. unfold row_address. pose proof (Z.div_mod e d ltac:(lia)). lia. }
  assert (row_strides shape0 s = strides_of (shape0 ++ [d]) → s = d) as Heq.
  { destruct shape0 as [|d0 shape0 _] using rev_ind; [by intros _; apply Hnil|]. rewrite strides_of_snoc. unfold row_strides. intros H. apply app_inj_2 in H as [H _]; [|done].
    rewrite strides_of_snoc, !fmap_app in H. apply app_inj_2 in H as [_ H]; [|done]. cbn in H. injection H as H. lia. }
  destruct b.
  - apply fmap_Some in Hr as (pl & _ & ->). cbn. rewrite Hsame, Z.div_mul by (lia || (apply Heq; by apply Hb2)). done.
  - destruct shape0 as [|d0 shape1] eqn:E0.
    { exfalso. enough (false = true) by done. apply Hb2. unfold row_strides. cbn. done. }
    rewrite <- E0 in *. assert (shape0 ≠ []) as Hne by (by rewrite E0). apply bind_Some in Hr as (p & Hp' & Hr). pose proof (pitched_rows shape0 d s p Hne Hs0 ltac:(lia) Hp') as ->.
    apply fmap_Some in Hr as (st & Hst & ->). cbn. unfold register_strided in Hst. cbn [arg_shape arg_strides] in Hst.
    apply bind_Some in Hst as (tot & _ & Hst). apply bind_Some in Hst as (ln & _ & Hst). case_decide; [done|].
    apply bind_Some in Hst as (d' & Hd' & Hst). apply bind_Some in Hst as (f & Hf & Hst). apply bind_Some in Hst as (s' & Hs' & [= <-]).
    rewrite length_app in Hd', Hs'. cbn [length] in *. rewrite list_lookup_middle in Hd' by lia. injection Hd' as <-.
    assert (s' = s) as ->.
    { assert (length shape0 ≠ 0)%nat by (by destruct shape0). unfold row_strides in Hs'. rewrite lookup_app_l in Hs' by (rewrite length_fmap, strides_of_length; lia).
      destruct shape0 as [|d1 shape2 _] using rev_ind; [done|]. rewrite length_app in Hs'. cbn [length] in Hs'. rewrite strides_of_snoc, fmap_app in Hs'.
      change ((λ x : Z, x * s) <$> [1]) with [1 * s] in Hs'. rewrite list_lookup_middle in Hs' by (rewrite !length_fmap, strides_of_length; lia). injection Hs' as <-. lia. }
    pose proof (register_divides cast cast_spec fast size size_ok d Hd) as Hmade. rewrite Hf in Hmade. destruct Hmade as [_ Hmade].
    unfold strided_source_pos. cbn. unfold wmul, wadd. assert (2 ^ w = 2 * 2 ^ (w - 1)) as Hpw by (rewrite <- Z.pow_succ_r by lia; f_equal; lia).
    assert (0 <= pos * vs) as Hpv by nia.
    rewrite (wrap_small w (pos * vs)) by lia. destruct (fast_rest w d f (pos * vs)) as [-> _]; [lia|lia|lia|done|lia|apply (half_fits w d f); [lia|lia|lia|done|lia]|]. cbn [mbind option_bind].
    unfold row_address in *. pose proof (Z.mod_pos_bound (pos * vs) d ltac:(lia)). pose proof (Z.div_pos (pos * vs) d ltac:(lia) ltac:(lia)).
    assert (0 <= pos * vs / d * s) by nia. rewrite (wrap_small w (pos * vs / d * s)), wrap_small by lia. unfold wdiv. by rewrite decide_False by lia.
Qed.

(** Any position has a source. *)
Lemma fast_div_mod_total f d n : divides_by w f d → 0 <= n → ∃ q r, fast_div_mod w f n = Some (q, r) ∧ 0 <= q ∧ 0 <= r.
Proof.
  intros [Hd Hm] Hn. unfold fast_div_mod, fast_div. destruct f as [d' m sh|d']; cbn in Hm.
  - cbn [mbind option_bind]. eexists _, _. split; [done|]. split; [apply Z.shiftr_nonneg|]; apply wrap_bounds; lia.
  - subst d'. unfold wdiv. rewrite decide_False by lia. cbn [mbind option_bind]. eexists _, _. split; [done|]. split; [apply Z.div_pos; lia|apply wrap_bounds; lia].
Qed.
Lemma fastdivmod_loop_total fs shape strides n rem off : Forall2 (divides_by w) fs shape → length strides = length shape → (n <= length shape)%nat → 0 <= rem → 0 <= off →
  ∃ o, fastdivmod_loop w fs strides n rem off = Some o ∧ 0 <= o.
Proof.
  intros Hfs Hl. revert rem off. induction n as [|n IH]; intros rem off Hn Hr Ho; [by exists off|]. cbn [fastdivmod_loop].
  destruct (lookup_lt_is_Some_2 shape n ltac:(lia)) as [d Hd]. destruct (lookup_lt_is_Some_2 strides n ltac:(lia)) as [s Hs]. destruct (Forall2_lookup_r _ _ _ _ _ Hfs Hd) as (f & Hf & Hdf).
  rewrite Hf, Hs. cbn [mbind option_bind]. destruct (fast_div_mod_total f d rem Hdf Hr) as (q & r & -> & Hq & Hr'). cbn [mbind option_bind]. apply IH; [lia|done|apply wrap_bounds; lia].
Qed.
Lemma register_somewhere buffer vs l : view_ok size buffer (arg_shape buffer) → 1 <= vs → register_linear cast fast size None buffer vs = Some l →
  ∀ pos, 0 <= pos → ∃ a, source l pos = Some a ∧ 0 <= a.
Proof.
  intros Hok Hvs Hr pos Hp. unfold register_linear in Hr. destruct (is_contiguous _ _) as [[]|]; [| |done]; cbn [mbind option_bind] in Hr.
  { apply fmap_Some in Hr as (pl & _ & ->). by exists pos. }
  destruct (is_contiguous_pitched _ _) as [[]|]; [| |done]; cbn [mbind option_bind] in Hr; apply fmap_Some in Hr as (pl & Hpl & ->); cbn.
  - unfold register_strided in Hpl. apply bind_Some in Hpl as (tot & _ & Hpl). apply bind_Some in Hpl as (ln & _ & Hpl). case_decide; [done|].
    apply bind_Some in Hpl as (d & Hd & Hpl). apply bind_Some in Hpl as (f & Hf & Hpl). apply bind_Some in Hpl as (s & Hs & [= <-]).
    pose proof (Forall_lookup_1 _ _ _ _ (view_dims_fit size size_ok _ _ Hok) Hd) as Hdb. pose proof (register_divides cast cast_spec fast size size_ok d Hdb) as Hm. rewrite Hf in Hm.
    unfold strided_source_pos. cbn. destruct (fast_div_mod_total f d (wmul w pos vs) Hm) as (q & r & -> & Hq & Hr'); [apply wrap_bounds; lia|]. cbn [mbind option_bind].
    unfold wdiv. rewrite decide_False by lia. eexists. split; [done|]. apply Z.div_pos; [apply wrap_bounds; lia|lia].
  - unfold register_permuted in Hpl. cbn [mbind option_bind] in Hpl. apply bind_Some in Hpl as (ln & _ & Hpl). apply bind_Some in Hpl as (fs & Hfs & [= <-]).
    pose proof (register_dims cast cast_spec fast size size_ok _ (view_dims_fit size size_ok _ _ Hok)) as Hm. rewrite Hfs in Hm. unfold permuted_source_pos, index_offset_contiguous_fastdivmod. cbn.
    destruct (fastdivmod_loop_total fs (arg_shape buffer) (arg_strides buffer) (length fs) (wmul w pos vs) 0 Hm (view_ranks _ _ _ Hok)) as (o & -> & Ho); [by rewrite (Forall2_length _ _ _ Hm)|apply wrap_bounds; lia|done|].
    cbn. unfold wdiv. rewrite decide_False by lia. eexists. split; [done|]. apply Z.div_pos; lia.
Qed.
End layouts.

(** ** All the units *)
Section run.
Context {A : Type} (zero : A) (w : Z) (d s : Z) (d_pos : 1 <= d) (d_row : d <= s).
Context (U vs N : Z) (U_pos : 1 <= U) (vs_pos : 1 <= vs) (vs_unit : (vs | U)) (unit_row : (U | d)) (vs_row : (vs | s)) (N_units : (U | N)).
Context (shape strides : list Z) (inp : list A) (plan : CopyPlan) (count : Z * Z * Z).
Abbreviation wrote := (unit_wrote d s U vs shape strides inp).
Abbreviation pos u := (absolute_pos w count (plan_cube_dim plan) u).
(** The buffer has the element of linear index [e]. *)
Definition copied (out : list A) (e : Z) : Prop := ∀ c, in_bounds c shape → offset_of c (strides_of shape) = e →
  out !! Z.to_nat (row_address d s e) = inp !! Z.to_nat (offset_of c strides).
Lemma unit_copies p flat (out out' : list A) e : 0 <= p → 0 <= e < N → (∀ e, 0 <= e < N → row_address d s e < Z.of_nat (length out)) →
  wrote p flat out out' → e / U = p ∨ copied out e → copied out' e.
Proof.
  intros Hp He Hb (Hlf & Hh & _ & Hlook) Hor c Hc Ho. pose proof (Z.div_mod e U ltac:(lia)) as Hdm. pose proof (Z.mod_pos_bound e U ltac:(lia)) as Hm.
  rewrite Hlook by (apply row_address_nonneg; lia). destruct (decide (e / U = p)) as [Heq|Hne].
  - set (j := e mod U) in *. assert (e = p * U + j) as He' by lia. assert (row_address d s e = row_address d s (p * U) + j) as -> by (rewrite He'; apply row_address_unit; (done || lia)).
    destruct (row_address_divides d s d_pos vs U p vs_unit unit_row vs_row Hp U_pos) as [q Hq].
    assert ((row_address d s (p * U) + j) / vs = q + j / vs) as Hdiv by (rewrite Hq, Z.add_comm, Z.div_add by lia; lia).
    assert (q + j / vs < slice_len out vs) as Hsl.
    { pose proof (Z.div_mod j vs ltac:(lia)). pose proof (Z.mod_pos_bound j vs ltac:(lia)). pose proof (Z.div_pos j vs ltac:(lia) ltac:(lia)).
      destruct vs_unit as [n Hn], N_units as [k Hk]. assert (j / vs < n) by nia. assert ((j / vs + 1) * vs <= U) by nia. assert (p < k) by nia. assert ((p + 1) * U <= N) by nia.
      pose proof (Hb (p * U + (j / vs * vs + (vs - 1))) ltac:(nia)) as Hl. rewrite row_address_unit, Hq in Hl by (done || nia).
      unfold slice_len. apply (Z.lt_le_trans _ (q + j / vs + 1)); [lia|]. apply Z.div_le_lower_bound; [lia|]. nia. }
    rewrite decide_True by lia. replace (row_address d s (p * U) + j - row_address d s (p * U)) with j by lia. apply Hh; [lia|done|lia].
  - destruct Hor as [|Hcop]; [done|]. rewrite decide_False; [by apply Hcop|]. intros [[Hl Hr] _]. apply Hne.
    set (j := row_address d s e - row_address d s (p * U)). assert (row_address d s e = row_address d s (p * U + j)) as Heq by (rewrite row_address_unit by (done || lia); lia).
    apply (row_address_inj d s d_pos d_row) in Heq; [|lia|nia]. symmetry. apply (Z.div_unique_pos _ _ _ j); lia.
Qed.
Lemma run_units_copy units (out : list A) : (∀ e, 0 <= e < N → row_address d s e < Z.of_nat (length out)) →
  (∀ u out, u ∈ units → 0 <= pos u ∧ ∃ flat out', run_unit zero w plan inp count u out = Some out' ∧ wrote (pos u) flat out out') →
  ∃ out', run_units zero w plan inp count units out = Some out' ∧ length out' = length out ∧
    ∀ e, 0 <= e < N → (∃ u, u ∈ units ∧ pos u = e / U) ∨ copied out e → copied out' e.
Proof.
  revert out. induction units as [|u units IH]; intros out Hb Hrun; cbn [run_units].
  { exists out. split_and!; [done|done|]. intros e He [(u & Hu & _)|]; [by apply elem_of_nil in Hu|done]. }
  destruct (Hrun u out ltac:(by left)) as (Hp & flat & out1 & -> & Hw). cbn [mbind option_bind].
  assert (length out1 = length out) as Hl1 by apply Hw. destruct (IH out1) as (out' & -> & Hl & Hc); [by rewrite Hl1|intros v out2 Hv; apply Hrun; by right|].
  exists out'. split_and!; [done|congruence|]. intros e He Hor. apply Hc; [done|]. destruct Hor as [(v & [->|Hv]%elem_of_cons & Hpos)|Hco].
  - right. eapply unit_copies; [exact Hp|done|done|done|by left].
  - left. by exists v.
  - right. eapply unit_copies; [exact Hp|done|done|done|by right].
Qed.
End run.

(** ** The copy *)
Lemma aligned_rows shape strides vs : shape ≠ [] → length strides = length shape → 1 <= vs →
  vs = 1 ∨ (last strides = Some 1 ∧ (∃ d, shape !! (length strides - 1)%nat = Some d ∧ (vs | d)) ∧ ∀ i s, i ≠ (length strides - 1)%nat → strides !! i = Some s → (vs | s)) →
  rows_aligned shape strides vs.
Proof.
  intros Hne Hl Hvs Hor c pos Hc Ho. destruct Hor as [->|(Hlast & (d' & Hd' & Hdiv) & Hall)].
  { split; [apply Z.divide_1_l|]. intros k Hk. exists c. split_and!; [done|lia..]. }
  destruct shape as [|d shape _] using rev_ind; [done|]. destruct strides as [|x strides _] using rev_ind; [done|]. rewrite !length_app in *. cbn [length] in *.
  rewrite last_snoc in Hlast. injection Hlast as ->. assert (length strides = length shape) as Hl0 by lia.
  replace (length strides + 1 - 1)%nat with (length strides) in * by lia. rewrite list_lookup_middle in Hd' by lia. injection Hd' as <-.
  apply in_bounds_snoc in Hc as (c0 & x & -> & Hc0 & Hx). pose proof (Forall2_length _ _ _ Hc0) as Hlc. rewrite linear_snoc in Ho by done.
  destruct Hdiv as [b ->]. set (m := offset_of c0 (strides_of shape)) in *. assert (x = (pos - m * b) * vs) as Hxv by nia. assert (pos - m * b + 1 <= b) by nia.
  assert (∀ y, offset_of (c0 ++ [y]) (strides ++ [1]) = offset_of c0 strides + y) as Hoff by (intros y; rewrite offset_of_app by lia; cbn; lia). rewrite Hoff. split.
  - apply Z.divide_add_r; [|rewrite Hxv; apply Z.divide_factor_r]. clear - Hall Hl0 Hlc.
    assert (∀ s, s ∈ strides → (vs | s)) as Hin.
    { intros s [i Hi]%list_elem_of_lookup. pose proof (lookup_lt_Some _ _ _ Hi). apply (Hall i); [lia|]. by rewrite lookup_app_l by lia. }
    clear Hall. revert strides Hl0 Hin. generalize dependent shape. induction c0 as [|i c0 IH]; intros shape Hlc [|s strides] Hl0 Hin; [apply Z.divide_0_r..|].
    rewrite offset_of_cons. apply Z.divide_add_r; [apply Z.divide_mul_r, Hin; by left|]. destruct shape; [done|]. eapply (IH shape); [by injection Hlc|by injection Hl0|]. intros s' Hs'. apply Hin. by right.
  - intros k Hk. exists (c0 ++ [x + k]). split_and!; [|rewrite linear_snoc by done; lia|rewrite Hoff; lia]. apply Forall2_app; [done|]. repeat constructor; nia.
Qed.

Section copy.
Context (cast : Z → Z → option Z).
Context (cast_spec : ∀ w x, 0 < w → cast w x = if decide (0 <= x < 2 ^ w) then Some x else None).
Context (dev : CopyDevice) (elem_size : Z).
(** A device that can run the copy at all. *)
Record device_ok : Prop := mk_device_ok {
  device_grid : grid_limits (device_hardware dev);
  device_elem : 1 <= elem_size;
  device_load : elem_size * 8 <= load_width dev <= u32_max;
  device_vector : 1 <= max_vector_size dev;
  device_sms : 1 <= default NUM_SM_APPROX (num_streaming_multiprocessors dev) ∧
    default NUM_SM_APPROX (num_streaming_multiprocessors dev) * max_units_per_cube (device_hardware dev) <= u32_max;
}.
(** Tensors of the same elements: the output has rows of [d] elements, [s] apart;
    the strides of the input are those of a vectorized one (see
    [larger_stride_ignored]). *)
Record copy_ok {A} (input output : TensorBinding) (inp out : list A) (shape0 : list Z) (d s : Z) : Prop := mk_copy_ok {
  copy_shape : binding_shape output = shape0 ++ [d];
  copy_strides : binding_strides output = row_strides shape0 s;
  copy_rows : 1 <= d <= s ∧ (shape0 = [] → s = d) ∧ Forall (Z.le 1) shape0;
  copy_dims : binding_shape input ≠ [] ∧ Forall (Z.le 1) (binding_shape input);
  copy_same : prod_Z (binding_shape input) = prod_Z (shape0 ++ [d]) ∧ prod_Z (shape0 ++ [d]) <= 2 ^ 31;
  copy_ranks : length (binding_strides input) = length (binding_shape input);
  copy_nonneg : Forall (Z.le 0) (binding_strides input) ∧ Forall (λ x, x <= u64_max) (binding_strides input) ∧ s * prod_Z shape0 <= u64_max;
  copy_nested : nested_strides (binding_strides input) (length (binding_strides input) - 1);
  copy_input : binding_size input = elem_size * Z.of_nat (length inp) ∧ Z.of_nat (length inp) <= u64_max;
  copy_output : binding_size output = elem_size * Z.of_nat (length out) ∧ Z.of_nat (length out) <= u64_max;
  copy_reads : ∀ c, in_bounds c (binding_shape input) → offset_of c (binding_strides input) < Z.of_nat (length inp);
  copy_writes : ∀ c, in_bounds c (shape0 ++ [d]) → offset_of c (row_strides shape0 s) < Z.of_nat (length out);
}.
(** The integers of the device hold the positions of all the units of a grid. *)
Definition grid_elems (plan : CopyPlan) : Z :=
  match plan_cube_count plan with Static x y z => x * y * z * dim_units (plan_cube_dim plan) * unit_elems plan | Dynamic _ => 0 end.
Definition grid_fits (plan : CopyPlan) (d s : Z) : Prop :=
  let w := 8 * address_size (plan_address plan) in
  grid_elems plan <= 2 ^ (w - 1) ∧ (grid_elems plan / d + 1) * s <= 2 ^ w ∧ (s = d ∨ (plan_vector plan | s)).

Lemma filter_sizes_total f sizes : (∀ vs, vs ∈ sizes → is_Some (f vs)) → is_Some (filter_sizes f sizes).
Proof.
  induction sizes as [|vs sizes IH]; intros H; [by eexists|]. cbn. destruct (H vs ltac:(by left)) as [b ->]. cbn.
  destruct IH as [l ->]; [intros v Hv; apply H; by right|]. cbn. by eexists.
Qed.
Lemma parallel_total sizes shape strides axis : Forall power_of_two sizes → is_Some (tensor_vector_size_parallel sizes shape strides axis).
Proof.
  intros Hp. unfold tensor_vector_size_parallel, try_tensor_vector_size_parallel. destruct (strides !! axis); [|by eexists]. destruct (negb _); [by eexists|].
  destruct (shape !! axis) as [x|]; [|by eexists]. set (g := divides_both _ _). destruct (filter_sizes_total g sizes) as [l ->]; [|cbn; by eexists].
  intros vs Hv. rewrite Forall_forall in Hp. pose proof (power_pos _ (Hp _ Hv)). unfold g, divides_both, wmod. rewrite !decide_False by lia. cbn. destruct (_ =? 0); by eexists.
Qed.
Lemma pos_ctz_bound p n : Zpos p < 2 ^ n → 0 <= pos_ctz p < n.
Proof.
  revert n. induction p as [p IH|p IH|]; intros n Hn; cbn [pos_ctz]; (assert (0 < n) by (destruct (decide (0 < n)) as [|Hle]; [done|]; destruct (decide (n = 0)) as [->|]; [cbn in Hn; lia|rewrite Z.pow_neg_r in Hn; lia])); [lia| |lia].
  assert (2 ^ n = 2 * 2 ^ (n - 1)) as Hp by (rewrite <- Z.pow_succ_r by lia; f_equal; lia). specialize (IH (n - 1) ltac:(lia)). lia.
Qed.
Lemma io_sizes_total : device_ok → is_Some (io_optimized_vector_sizes (load_width dev) (max_vector_size dev) elem_size).
Proof.
  intros [_ He Hl Hv _]. unfold io_optimized_vector_sizes, wdiv. rewrite decide_False by lia. cbn [mbind option_bind].
  pose proof (Z.div_le_lower_bound (load_width dev) (elem_size * 8) 1 ltac:(lia) ltac:(lia)) as H1. pose proof (Z.div_le_upper_bound (load_width dev) (elem_size * 8) u32_max ltac:(lia) ltac:(nia)) as H2.
  set (m := Z.min (max_vector_size dev) (load_width dev / (elem_size * 8))). assert (1 <= m <= u32_max) as Hm by lia. destruct m as [|p|p]; [lia| |lia].
  pose proof (pos_ctz_bound p 32 ltac:(lia)) as Hc. cbn [trailing_zeros]. rewrite (proj2 (Z.leb_le (pos_ctz p + 1) 64)) by lia. by eexists.
Qed.

Section tensors.
Context {A : Type} (input output : TensorBinding) (inp out : list A) (shape0 : list Z) (d s : Z).
Context (dev_ok : device_ok) (ok : copy_ok input output inp out shape0 d s).
Abbreviation N := (prod_Z (shape0 ++ [d])).
Lemma out_dims : Forall (Z.le 1) (shape0 ++ [d]).
Proof. destruct (copy_rows _ _ _ _ _ _ _ ok) as (Hd & _ & Hs). apply Forall_app. split; [done|]. constructor; [lia|done]. Qed.
Lemma out_count : 1 <= N <= 2 ^ 31.
Proof. split; [apply prod_Z_pos, out_dims|apply (copy_same _ _ _ _ _ _ _ ok)]. Qed.
Lemma num_elements_in : num_elements (binding_shape input) = Some N.
Proof.
  pose proof out_count. destruct (copy_same _ _ _ _ _ _ _ ok) as [Hs _]. unfold num_elements. rewrite product_from_Some by (rewrite ?Hs; (lia || apply (copy_dims _ _ _ _ _ _ _ ok))). by rewrite Hs, Z.mul_1_l.
Qed.
Lemma num_elements_out : num_elements (binding_shape output) = Some N.
Proof. pose proof out_count. rewrite (copy_shape _ _ _ _ _ _ _ ok). unfold num_elements. rewrite product_from_Some by (lia || apply out_dims). by rewrite Z.mul_1_l. Qed.
Lemma row_strides_length : length (row_strides shape0 s) = length (shape0 ++ [d]).
Proof. unfold row_strides. by rewrite !length_app, length_fmap, strides_of_length. Qed.
Lemma in_offset c : in_bounds c (binding_shape input) → 0 <= offset_of c (binding_strides input) < Z.of_nat (length inp).
Proof. intros Hc. split; [eapply offset_of_nonneg; [exact Hc|apply (copy_nonneg _ _ _ _ _ _ _ ok)]|by apply (copy_reads _ _ _ _ _ _ _ ok)]. Qed.
Lemma in_view size : size = 4 ∨ size = 8 → (size = 4 → Z.of_nat (length inp) <= u32_max) →
  view_ok size (mk_MemoryArg N (binding_shape input) (binding_strides input)) (binding_shape input).
Proof.
  intros Hsz H4. pose proof out_count. destruct (copy_nonneg _ _ _ _ _ _ _ ok) as (Hn & Hu & _). destruct (copy_same _ _ _ _ _ _ _ ok) as [Hs _].
  assert (2 ^ 31 <= 2 ^ (8 * size - 1)) by (apply Z.pow_le_mono_r; lia). split; cbn [arg_len arg_shape arg_strides].
  - apply (copy_ranks _ _ _ _ _ _ _ ok).
  - apply Forall_and. by split.
  - by rewrite Hs.
  - apply (copy_dims _ _ _ _ _ _ _ ok).
  - lia.
  - apply broadcasts_refl.
  - intros c Hc. pose proof (in_offset c Hc). destruct (copy_input _ _ _ _ _ _ _ ok) as [_ Hl]. destruct Hsz as [-> | ->]; [specialize (H4 eq_refl)|]; lia.
Qed.
Lemma out_view size : size = 4 ∨ size = 8 → (size = 4 → Z.of_nat (length out) <= u32_max) →
  view_ok size (mk_MemoryArg N (shape0 ++ [d]) (row_strides shape0 s)) (shape0 ++ [d]).
Proof.
  intros Hsz H4. pose proof out_count. destruct (copy_rows _ _ _ _ _ _ _ ok) as (Hd & _ & Hs0). destruct (copy_nonneg _ _ _ _ _ _ _ ok) as (_ & _ & Hsp).
  assert (2 ^ 31 <= 2 ^ (8 * size - 1)) by (apply Z.pow_le_mono_r; lia). split; cbn [arg_len arg_shape arg_strides].
  - apply row_strides_length.
  - unfold row_strides. apply Forall_app. split; [|repeat constructor; lia]. apply Forall_forall. intros x (z & -> & Hz)%list_elem_of_fmap. pose proof (strides_of_le _ _ Hs0 Hz). nia.
  - done.
  - apply out_dims.
  - lia.
  - apply broadcasts_refl.
  - intros c Hc. pose proof (copy_writes _ _ _ _ _ _ _ ok c Hc). destruct (copy_output _ _ _ _ _ _ _ ok) as [_ Hl]. destruct Hsz as [-> | ->]; [specialize (H4 eq_refl)|]; lia.
Qed.
Lemma address_of len bytes : bytes = elem_size * len → wdiv bytes elem_size = Some len.
Proof. intros ->. pose proof (device_elem dev_ok). unfold wdiv. rewrite decide_False by lia. f_equal. rewrite Z.mul_comm. apply Z.div_mul. lia. Qed.
(** With buffers of at most 2^32 elements the host never panics. *)
Lemma copy_plan_total : Z.of_nat (length inp) <= u32_max → Z.of_nat (length out) <= u32_max → is_Some (copy_gpu_plan cast dev input output elem_size).
Proof.
  intros Hli Hlo. pose proof out_count as HN. pose proof dev_ok as [Hgrid He Hload Hvec [Hsm Hunits]]. destruct (copy_dims _ _ _ _ _ _ _ ok) as [Hne Hdims]. destruct (copy_rows _ _ _ _ _ _ _ ok) as (Hd & _ & _).
  unfold copy_gpu_plan. rewrite num_elements_in. cbn [mbind option_bind].
  assert (∃ ia, last_axis (binding_strides input) = Some ia) as [ia ->]. { unfold last_axis. rewrite (copy_ranks _ _ _ _ _ _ _ ok). destruct (binding_shape input); [done|]. by eexists. }
  rewrite (copy_strides _ _ _ _ _ _ _ ok), (copy_shape _ _ _ _ _ _ _ ok). unfold last_axis at 1. rewrite row_strides_length, length_app, Nat.add_comm. cbn [length Nat.add mbind option_bind].
  destruct (io_sizes_total dev_ok) as [sizes Hsz]. rewrite Hsz. cbn [mbind option_bind]. pose proof (io_sizes_powers _ _ _ _ Hsz) as Hpow.
  destruct (parallel_total sizes (binding_shape input) (binding_strides input) ia Hpow) as [vin Hvin]. rewrite Hvin. cbn [mbind option_bind].
  destruct (parallel_total sizes (shape0 ++ [d]) (row_strides shape0 s) (length shape0) Hpow) as [vout Hvout]. rewrite Hvout. cbn [mbind option_bind].
  destruct (parallel_size_spec _ _ _ _ _ Hpow Hvin) as [Hpin _]. destruct (parallel_size_spec _ _ _ _ _ Hpow Hvout) as [Hpout Hout].
  set (vs := Z.min vin vout). assert (power_of_two vs) as Hpvs by (unfold vs; destruct (Z.min_spec vin vout) as [[_ ->]|[_ ->]]; done).
  pose proof (power_pos _ Hpvs) as Hvs1. set (nv := N / vs). assert (wdiv N vs = Some nv) as -> by (unfold wdiv; by rewrite decide_False by lia). cbn [mbind option_bind].
  assert ((vs | d)) as Hvd.
  { assert ((vs | vout)) as Hdiv by (apply power_divides; (done || (unfold vs; lia))). destruct (decide (vout = 1)) as [Heq|Hne1]; [rewrite Heq in Hdiv; etrans; [exact Hdiv|apply Z.divide_1_l]|].
    pose proof (power_pos _ Hpout). destruct (Hout ltac:(lia)) as (_ & d' & Hd' & Hdd & _). rewrite list_lookup_middle in Hd' by done. injection Hd' as <-. by etrans. }
  assert (vs <= d) as Hvsd by (apply Z.divide_pos_le; [lia|done]).
  assert (0 <= nv) by (apply Z.div_pos; lia).
  destruct (cube_dim_new_total (device_hardware dev) nv Hgrid) as (dim & Hdim & Hnum & Hdu).
  rewrite Hdim. cbn [mbind option_bind]. rewrite Hnum. cbn [mbind option_bind]. rewrite mul_u32_Some by nia. cbn [mbind option_bind].
  set (simul := default NUM_SM_APPROX (num_streaming_multiprocessors dev) * dim_units dim). assert (wdiv nv simul = Some (nv / simul)) as -> by (unfold wdiv; rewrite decide_False by (unfold simul; nia); done). cbn [mbind option_bind].
  destruct (elems_for_power (nv / simul)) as (k & Hk & Hepu). rewrite Hepu.
  assert (d <= N) as HdN by (apply dim_le_prod; [apply out_dims|apply elem_of_app; right; by left]).
  assert (2 ^ Z.of_nat k <= 2 ^ 3) as Hk3 by (apply Z.pow_le_mono_r; lia). pose proof (Z.pow_pos_nonneg 2 (Z.of_nat k)). rewrite mul_u64_Some by nia. cbn [mbind option_bind]. rewrite list_lookup_middle by done. cbn [mbind option_bind].
  destruct (fit_elems_spec 4 k d vs ltac:(lia) Hvs1 Hvd ltac:(lia)) as (e & -> & [He1 _] & Hrow). cbn [mbind option_bind].
  assert (∃ ov, (if 1 <? vs then Some vs else sizes ← filter_sizes (λ v, Some ((vs * e) mod v =? 0)) sizes; Some (default 1 (max_size sizes))) = Some ov ∧ 1 <= ov) as (ov & -> & Hov).
  { destruct (1 <? vs); [by eexists|]. destruct (filter_sizes_total (λ v, Some ((vs * e) mod v =? 0)) sizes ltac:(by eexists)) as [l Hl]. rewrite Hl. cbn. eexists. split; [done|].
    destruct (max_size l) as [m|] eqn:Hm; cbn; [|lia]. destruct (filter_sizes_elem _ _ _ _ Hl (max_size_elem _ _ Hm)) as [Hmin _]. rewrite Forall_forall in Hpow. by apply power_pos, Hpow. }
  cbn [mbind option_bind]. unfold required_address_type. rewrite (address_of (Z.of_nat (length inp)) (binding_size input)) by apply (copy_input _ _ _ _ _ _ _ ok). rewrite (address_of (Z.of_nat (length out)) (binding_size output)) by apply (copy_output _ _ _ _ _ _ _ ok).
  cbn [fmap option_fmap option_map mbind option_bind]. unfold address_from_len. rewrite !(λ x, proj2 (Z.ltb_ge u32_max x)) by done. cbn [address_max address_size].
  unfold memory_arg. rewrite num_elements_in, num_elements_out. cbn [mbind option_bind]. rewrite (copy_strides _ _ _ _ _ _ _ ok), (copy_shape _ _ _ _ _ _ _ ok).
  set (pk := negb (vs =? ov) && (1 <? ov)). assert (1 <= if pk then 1 else ov) as Hr1 by (by destruct pk).
  pose proof (register_row_major cast cast_spec (device_fast dev) 4 (or_introl eq_refl) _ _ (in_view 4 (or_introl eq_refl) (λ _, Hli)) Hr1) as Hvi. cbn [arg_shape] in Hvi.
  destruct (register_linear cast (device_fast dev) 4 None (mk_MemoryArg N (binding_shape input) (binding_strides input)) (if pk then 1 else ov)); [|done].
  pose proof (register_row_major cast cast_spec (device_fast dev) 4 (or_introl eq_refl) _ _ (out_view 4 (or_introl eq_refl) (λ _, Hlo)) Hov) as Hvo. cbn [arg_shape] in Hvo.
  destruct (register_linear cast (device_fast dev) 4 None (mk_MemoryArg N (shape0 ++ [d]) (row_strides shape0 s)) ov); [|done]. cbn [mbind option_bind].
  rewrite decide_False by nia. cbn [mbind option_bind]. pose proof (div_ceil_spec N (vs * e) ltac:(nia)) as Hc. assert (1 <= div_ceil N (vs * e) <= 2 ^ 31) as Ht by nia.
  destruct (cube_count_elemwise_covers (device_hardware dev) (div_ceil N (vs * e)) dim (dim_units dim) Hgrid Hnum ltac:(lia) Ht) as (count & -> & _). cbn. by eexists.
Qed.

Lemma plan_addresses plan : plan_facts cast dev elem_size input output plan →
  let size := address_size (plan_address plan) in (size = 4 ∨ size = 8) ∧ (size = 4 → Z.of_nat (length inp) <= u32_max) ∧ (size = 4 → Z.of_nat (length out) <= u32_max).
Proof.
  intros [_ _ _ _ _ _ _ Ha _] size. pose proof (device_elem dev_ok). destruct (copy_input _ _ _ _ _ _ _ ok) as [Hi _], (copy_output _ _ _ _ _ _ _ ok) as [Ho _].
  assert (∀ x, elem_size * x / elem_size = x) as Hdiv by (intros x; rewrite Z.mul_comm; apply Z.div_mul; lia). rewrite Hi, Ho, !Hdiv in Ha.
  split; [unfold size; destruct (plan_address plan); auto|]. split; intros H4; by destruct (Ha H4).
Qed.
Lemma plan_divides plan : plan_facts cast dev elem_size input output plan →
  1 <= plan_vector plan ∧ 1 <= unit_elems plan ∧ (plan_vector plan | unit_elems plan) ∧ (unit_elems plan | d) ∧ (unit_elems plan | N).
Proof.
  intros [Hv Hu Hvu Hr _ _ _ _ _]. destruct (copy_rows _ _ _ _ _ _ _ ok) as (Hd & _). assert ((unit_elems plan | d)) as Hud by (apply Hr; [by rewrite (copy_shape _ _ _ _ _ _ _ ok), last_snoc|lia]).
  split_and!; [done..|]. rewrite prod_Z_app. apply Z.divide_mul_r. cbn. by rewrite Z.mul_1_r.
Qed.
Lemma plan_reads plan : plan_facts cast dev elem_size input output plan →
  view_reads (8 * address_size (plan_address plan)) (binding_shape input) (binding_strides input) inp (plan_input plan) (if plan_pack plan then 1 else plan_vector plan).
Proof.
  intros Hf. destruct (plan_addresses plan Hf) as (Hsz & Hin & _). destruct (plan_divides plan Hf) as (Hv & _ & Hvu & _ & HuN).
  destruct Hf as [_ _ _ _ Hfi (len & Hlen & Hview) _ _ _]. rewrite num_elements_in in Hlen. injection Hlen as <-.
  set (vs := if plan_pack plan then 1 else plan_vector plan) in *. assert (1 <= vs) as Hvs by (unfold vs; by destruct (plan_pack plan)).
  pose proof (in_view _ Hsz Hin) as Hok. pose proof (register_row_major cast cast_spec (device_fast dev) _ Hsz _ vs Hok Hvs) as Hrow. rewrite Hview in Hrow. destruct Hrow as [Hmaps Hbound].
  destruct (copy_dims _ _ _ _ _ _ _ ok) as [Hne Hdims]. pose proof (copy_ranks _ _ _ _ _ _ _ ok) as Hranks. destruct (copy_same _ _ _ _ _ _ _ ok) as [Hsame _].
  assert (Forall (Z.le 0) (binding_shape input)) as Hpos by (eapply Forall_impl; [exact Hdims|]; cbn; lia).
  assert (rows_aligned (binding_shape input) (binding_strides input) vs) as Hal.
  { apply aligned_rows; [done|done|done|]. unfold vs. destruct (plan_pack plan) eqn:Hpk; [by left|]. destruct (decide (plan_vector plan = 1)) as [|Hne1]; [by left|right].
    destruct (Hfi eq_refl ltac:(lia)) as (Hl & Hd & Hmin). split_and!; [done|done|]. intros i x Hi Hx. by eapply nested_divides; [apply (copy_nested _ _ _ _ _ _ _ ok)| |exact Hi|]. }
  split; try done.
  - rewrite Hsame. etrans; [|exact HuN]. unfold vs. destruct (plan_pack plan); [apply Z.divide_1_l|done].
  - apply in_offset.
  - pose proof (prod_Z_pos _ Hdims). destruct (strides_of_onto (binding_shape input) 0) as (c & Hc & Ho); [lia|done|]. destruct (Hal c 0 Hc Ho) as [_ Hrow]. destruct (Hrow (vs - 1) ltac:(lia)) as (c' & Hc' & _ & Ho').
    pose proof (in_offset c Hc). pose proof (in_offset c' Hc'). lia.
  - intros pos c Hp Hc Ho. rewrite (Hmaps pos c) by done. cbn [arg_shape arg_strides]. by rewrite broadcast_coords_same.
  - exact (register_somewhere cast cast_spec (device_fast dev) _ Hsz _ vs _ Hok Hvs Hview).
Qed.

(** C33: the copy of a tensor into contiguous rows is exact, in whatever order
    the units run: the host plans without a panic (with 32-bit addresses; with
    64-bit ones the divisors can make it panic), no unit reads or writes outside
    its buffers, the elements left by the grid included, and in the end the output
    has at every coordinates the element the input has at the coordinates of the
    same row-major index.  It is so on a device that can run the copy
    ([device_ok]), for tensors of as many elements, 2^31 at most, in buffers that
    hold them ([copy_ok]), under two conditions on the vectors: the strides of the
    input but the last are multiples of the least of them, and the rows of the
    output touch or the size of the vectors the plan picked divides their pitch;
    and when the integers of the device hold the positions of the grid
    ([grid_fits]).  Without one of the two the copy is wrong: [uneven_strides],
    [odd_pitch]. *)
Theorem contiguous_copy_exact order zero : (∀ l : list UnitPos, order l ≡ₚ l) →
  match copy_gpu_plan cast dev input output elem_size with
  | None => u32_max < Z.of_nat (length inp) ∨ u32_max < Z.of_nat (length out)
  | Some plan => grid_fits plan d s →
      ∃ out', copy_gpu_ref zero cast dev order elem_size input output inp out = Some out' ∧ length out' = length out ∧
        ∀ c c', in_bounds c (binding_shape output) → in_bounds c' (binding_shape input) →
          offset_of c (strides_of (binding_shape output)) = offset_of c' (strides_of (binding_shape input)) →
          out' !! Z.to_nat (offset_of c (binding_strides output)) = inp !! Z.to_nat (offset_of c' (binding_strides input))
  end.
Proof.
  intros Horder. destruct (copy_gpu_plan cast dev input output elem_size) as [plan|] eqn:Hplan.
  2:{ destruct (decide (Z.of_nat (length inp) <= u32_max)) as [Hi|]; [|lia]. destruct (decide (Z.of_nat (length out) <= u32_max)) as [Ho|]; [|lia].
      destruct (copy_plan_total Hi Ho) as [? ?]. congruence. }
  intros Hfits. assert (plan_facts cast dev elem_size input output plan) as Hf.
  { apply copy_plan_facts; [|intros e|done]; rewrite (copy_shape _ _ _ _ _ _ _ ok); [by rewrite (copy_strides _ _ _ _ _ _ _ ok), row_strides_length|].
    rewrite last_snoc. intros [= <-]. apply (copy_rows _ _ _ _ _ _ _ ok). }
  destruct (plan_addresses plan Hf) as (Hsz & Hin & Hout). destruct (plan_divides plan Hf) as (Hv & HU & Hvu & Hud & HuN). pose proof (plan_reads plan Hf) as Hreads.
  destruct (copy_rows _ _ _ _ _ _ _ ok) as ([Hd Hds] & Hnil & Hs0). pose proof out_count as HN.
  destruct Hf as [_ _ _ _ _ _ (len & Hlen & Hlayout) _ Hgrid]. rewrite num_elements_out in Hlen. injection Hlen as <-. rewrite (copy_shape _ _ _ _ _ _ _ ok), (copy_strides _ _ _ _ _ _ _ ok) in Hlayout.
  destruct (Hgrid (device_grid dev_ok) N num_elements_in HN) as (x & y & z & Hcount & Hx & Hy & Hz & Hdx & Hdy & Hdz & Hdu & Hcov).
  destruct Hfits as (Ht & Hrows & Hvs). unfold grid_elems in Ht, Hrows. rewrite Hcount in Ht, Hrows.
  unfold copy_gpu_ref. rewrite Hplan. cbn [mbind option_bind]. rewrite Hcount.
  set (w := 8 * address_size (plan_address plan)) in *. set (U := unit_elems plan) in *. set (vs := plan_vector plan) in *. set (G := x * y * z * dim_units (plan_cube_dim plan)) in *.
  assert (0 < w) as Hw by (unfold w; lia). assert (2 ^ w = 2 * 2 ^ (w - 1)) as Hpw by (rewrite <- Z.pow_succ_r by lia; f_equal; lia). assert (0 <= dim_units (plan_cube_dim plan)) by (unfold dim_units; nia).
  assert (0 <= G) by (unfold G; nia). assert (G <= G * U) by nia. assert ((vs | s)) as Hvr by (destruct Hvs as [->|]; [by etrans|done]).
  pose proof (absolute_pos_all w x y z (plan_cube_dim plan) Hw Hx ltac:(lia) ltac:(lia) ltac:(lia) ltac:(lia) ltac:(lia) ltac:(fold (dim_units (plan_cube_dim plan)); fold G; lia) ltac:(fold (dim_units (plan_cube_dim plan)); lia)) as Hpos.
  fold (dim_units (plan_cube_dim plan)) in Hpos. fold G in Hpos. set (units := order (all_units (x, y, z) (plan_cube_dim plan))).
  assert (∀ u, u ∈ units → 0 <= absolute_pos w (x, y, z) (plan_cube_dim plan) u < G) as Hup.
  { intros u Hu. unfold units in Hu. rewrite Horder in Hu. apply (list_elem_of_fmap_2 (absolute_pos w (x, y, z) (plan_cube_dim plan))) in Hu. rewrite Hpos in Hu. apply elem_of_seqZ in Hu. lia. }
  assert (∀ e, 0 <= e < N → row_address d s e < Z.of_nat (length out)) as Hbuf.
  { intros e He. destruct (strides_of_onto (shape0 ++ [d]) e He) as (c & Hc & Ho); [eapply Forall_impl; [apply out_dims|]; cbn; lia|]. pose proof (copy_writes _ _ _ _ _ _ _ ok c Hc) as Hb. by rewrite (row_strides_offset _ _ _ _ Hc), Ho in Hb. }
  assert (∀ pos, 0 <= pos → pos * vs < G * U → to_source_pos (ViewLayout := linear_layout w) (plan_output plan) pos = Some (row_address d s (pos * vs) / vs)) as Hmaps.
  { intros pos Hp Hb. assert (0 <= pos * vs) by nia. pose proof (row_address_bound d s Hd Hds (pos * vs) (G * U) ltac:(lia)).
    eapply (rows_layout cast cast_spec (device_fast dev) (address_size (plan_address plan)) Hsz shape0 d s); [done| |done|done| |exact Hv|exact Hlayout|done|fold w; lia|fold w; lia].
    - fold w. assert (d <= N) by (apply dim_le_prod; [apply out_dims|apply elem_of_app; right; by left]). nia.
    - apply strides_fit_prod; [apply out_dims|lia]. }
  destruct (run_units_copy zero w d s Hd Hds U vs N HU Hv Hvu Hud Hvr HuN (binding_shape input) (binding_strides input) inp plan (x, y, z) units out Hbuf) as (out' & Hrun & Hl & Hcop).
  { intros u out0 Hu. destruct (Hup u Hu) as [Hp Hg]. split; [done|]. unfold run_unit. set (p := absolute_pos w (x, y, z) (plan_cube_dim plan) u) in *. assert ((p + 1) * U <= G * U) as Hpt by nia.
    unfold U, unit_elems in *. destruct (plan_pack plan).
    - apply (copy_kernel_pack_unit zero w Hw d s Hd Hds _ vs (G * plan_elems plan)); done.
    - apply (copy_kernel_unit zero w Hw d s Hd Hds _ vs (G * (plan_elems plan * plan_vector plan))); done. }
  exists out'. split_and!; [done|done|]. intros c c' Hc Hc' Heq. rewrite (copy_shape _ _ _ _ _ _ _ ok) in Hc, Heq. rewrite (copy_strides _ _ _ _ _ _ _ ok), (row_strides_offset shape0 d s c Hc).
  pose proof (strides_of_bound _ _ Hc) as He. apply (Hcop _ He); [|done|by rewrite <- Heq]. left. set (e := offset_of c (strides_of (shape0 ++ [d]))) in *.
  assert (e / U ∈ seqZ 0 G) as Heu by (apply elem_of_seqZ; split; [apply Z.div_pos; lia|apply Z.div_lt_upper_bound; nia]).
  rewrite <- Hpos in Heu. apply list_elem_of_fmap in Heu as (u & Hu & Heu). exists u. split; [|done]. unfold units. by rewrite Horder.
Qed.
End tensors.
End copy.

(** A transposed matrix of four rows of two, copied into contiguous rows. *)
Definition small_device : CopyDevice := mk_CopyDevice (mk_HardwareProperties 2 (64, 64, 64) 4 (64, 64, 64) None) (Some 1) 128 4 true.
Definition transposed : TensorBinding := mk_TensorBinding 32 [4; 2] [1; 4].
Definition rows_of_two : TensorBinding := mk_TensorBinding 32 [4; 2] [2; 1].
Example transposed_copy : copy_gpu_ref 0 checked_cast small_device id 4 transposed rows_of_two (seqZ 0 8) (replicate 8 9) = Some [0; 4; 1; 5; 2; 6; 3; 7].
Proof. vm_compute. reflexivity. Qed.
Lemma contiguous_copy_exact_witness : ∃ out', copy_gpu_ref 0 checked_cast small_device reverse 4 transposed rows_of_two (seqZ 0 8) (replicate 8 9) = Some out' ∧
  length out' = 8%nat ∧ out' !! 3%nat = Some 5.
Proof.
  assert (device_ok small_device 4) as Hdev by (split; cbn; unfold grid_limits; cbn; lia).
  assert (∀ c, in_bounds c [4; 2] → offset_of c [1; 4] <= 7) as Hin by (apply offsets_below; [repeat constructor; lia|reflexivity|vm_compute; discriminate]).
  assert (∀ c, in_bounds c [4; 2] → offset_of c [2; 1] <= 7) as Hout by (apply offsets_below; [repeat constructor; lia|reflexivity|vm_compute; discriminate]).
  assert (copy_ok 4 transposed rows_of_two (seqZ 0 8) (replicate 8 9) [4] 2 2) as Hok.
  { split; cbn [transposed rows_of_two binding_shape binding_strides binding_size length replicate seqZ].
    - reflexivity.
    - reflexivity.
    - split; [lia|]. split; [discriminate|]. repeat constructor; lia.
    - split; [discriminate|]. repeat constructor; lia.
    - split; [reflexivity|vm_compute; discriminate].
    - reflexivity.
    - split; [repeat constructor; lia|]. split; [repeat constructor; lia|vm_compute; discriminate].
    - intros m x Hm Hx. cbn in Hm. injection Hm as <-. apply Z.divide_1_l.
    - split; vm_compute; [reflexivity|discriminate].
    - split; vm_compute; [reflexivity|discriminate].
    - intros c Hc. specialize (Hin c Hc). change (length (seqZ 0 8)) with 8%nat. lia.
    - intros c Hc. specialize (Hout c Hc). change (offset_of c (row_strides [4] 2)) with (offset_of c [2; 1]). lia. }
  pose proof (contiguous_copy_exact checked_cast (λ _ _ _, eq_refl) small_device 4 transposed rows_of_two (seqZ 0 8) (replicate 8 9) [4] 2 2 Hdev Hok reverse 0 (λ l, reverse_Permutation l)) as H.
  destruct (copy_gpu_plan checked_cast small_device transposed rows_of_two 4) as [plan|] eqn:Hplan; [|vm_compute in Hplan; discriminate Hplan].
  vm_compute in Hplan. injection Hplan as <-. destruct H as (out' & Hrun & Hl & Hcopy).
  { split; [vm_compute; discriminate|]. split; [vm_compute; discriminate|]. left. reflexivity. }
  exists out'. split; [exact Hrun|]. split; [exact Hl|]. specialize (Hcopy [1; 1] [1; 1]). apply Hcopy; [repeat constructor; lia|repeat constructor; lia|reflexivity].
Defined.
(** What the theorem leaves out: rows six elements apart written in vectors of
    four, and rows of the input that do not start on a vector. *)
Example odd_pitch :
  take 10 <$> copy_gpu_ref 0 checked_cast small_device id 4 (mk_TensorBinding 128 [8; 4] [1; 8]) (mk_TensorBinding 184 [8; 4] [6; 1]) (seqZ 0 32) (replicate 46 99) =
  Some [0; 8; 16; 24; 1; 9; 17; 25; 99; 99].
Proof. vm_compute. reflexivity. Qed.
Example uneven_strides :
  copy_gpu_ref 0 checked_cast small_device id 4 (mk_TensorBinding 112 [3; 2; 4] [10; 4; 1]) (mk_TensorBinding 96 [3; 2; 4] [8; 4; 1]) (seqZ 0 28) (replicate 24 99) =
  Some ([0; 1; 2; 3; 4; 5; 6; 7] ++ [8; 9; 10; 11; 12; 13; 14; 15] ++ [20; 21; 22; 23; 24; 25; 26; 27]).
Proof. vm_compute. reflexivity. Qed.
