(* ===== verification/KernelInfo.v ===== *)
(** * The arguments of a kernel

    What a launch registers ([cubecl-core/src/compute/launcher.rs]) is laid out in
    one buffer of 64-bit words by the builders of [cubecl-core/src/codegen/]
    ([scalars.rs], [metadata.rs], [info.rs]); what a kernel declares
    ([compute/builder.rs]) gives the offsets its code reads that buffer at
    ([cubecl-ir/src/metadata.rs], [cubecl-cpp/src/shared/]).  The buffer is the
    list of its bytes, in little endian order as the devices read it; lengths and
    indices of vectors, which never reach 2^64, are natural numbers.  A slice or
    an unwrap that panics is [None].  The description of a tensor map is left out. *)

From S2P Require Export ElemTypes Streams.
From stdpp Require Import list sorting.
#[local] Open Scope nat_scope.

Definition INFO_ALIGN : nat := 8.
Definition div_ceil_nat (n k : nat) : nat := (n + (k - 1)) / k.
Definition next_multiple (n k : nat) : nat := div_ceil_nat n k * k.
Definition encode (size : nat) (x : Z) : list Z := Z_to_little_endian (Z.of_nat size) 8 x.
Definition decode (bytes : list Z) : Z := little_endian_to_Z 8 bytes.

(** ** Scalars *)
Definition ScalarBuilder : Type := list (ElemType * list Z).
(** The entry of a type in a list sorted by type, made when there is none. *)
Fixpoint upsert {A} (f : option A → A) (ty : ElemType) (l : list (ElemType * A)) : list (ElemType * A) :=
  match l with
  | [] => [(ty, f None)]
  | (k, v) :: l =>
      if decide (elem_rank k < elem_rank ty) then (k, v) :: upsert f ty l
      else if decide (k = ty) then (k, f (Some v)) :: l
      else (ty, f None) :: (k, v) :: l
  end.
Definition push_raw (bytes : list Z) (dtype : ElemType) (b : ScalarBuilder) : ScalarBuilder := upsert (λ o, default [] o ++ bytes) dtype b.
Definition len_aligned (b : ScalarBuilder) : nat := sum_list ((λ p : ElemType * list Z, div_ceil_nat (length p.2) INFO_ALIGN) <$> b).
Fixpoint scalars_finish (b : ScalarBuilder) (out : list Z) : option (ScalarBuilder * list Z) :=
  match b with
  | [] => Some ([], out)
  | (ty, values) :: b =>
      if decide (values = []) then '(b, out) ← scalars_finish b out; Some ((ty, values) :: b, out)
      else
        let len_padded := next_multiple (length values) INFO_ALIGN in
        if decide (length out < len_padded) then None
        else
          '(b, rest) ← scalars_finish b (drop len_padded out);
          Some ((ty, []) :: b, values ++ take (len_padded - length values) (drop (length values) out) ++ rest)
  end.

(** ** Metadata of buffers *)
Record MetaState := mk_MetaState { buffer_lens : list Z; meta_shapes : list Z; meta_strides : list Z; meta_offsets : list nat }.
Definition meta_empty : MetaState := mk_MetaState [] [] [] [].
Record MetadataBuilder := mk_MetadataBuilder { state_32 : MetaState; state_64 : MetaState }.
Definition METADATA_BASE_LEN : nat := 1.
Definition METADATA_EXT_LEN : nat := 2.
Definition meta_state (a : AddressType) (b : MetadataBuilder) : MetaState := match a with AddressU32 => state_32 b | AddressU64 => state_64 b end.
Definition set_meta_state (a : AddressType) (s : MetaState) (b : MetadataBuilder) : MetadataBuilder :=
  match a with AddressU32 => mk_MetadataBuilder s (state_64 b) | AddressU64 => mk_MetadataBuilder (state_32 b) s end.
(** [as] an unsigned integer of the width of an address. *)
Definition as_address (a : AddressType) (x : Z) : Z := (x mod 2 ^ (8 * address_size a))%Z.
Definition meta_register_buffer (a : AddressType) (buffer_len : Z) (b : MetadataBuilder) : MetadataBuilder :=
  let s := meta_state a b in
  set_meta_state a (mk_MetaState (buffer_lens s ++ [as_address a buffer_len]) (meta_shapes s) (meta_strides s) (meta_offsets s)) b.
Definition meta_register_tensor (a : AddressType) (buffer_len : Z) (shape strides : list Z) (b : MetadataBuilder) : MetadataBuilder :=
  let s := meta_state a b in
  set_meta_state a (mk_MetaState (buffer_lens s ++ [as_address a buffer_len]) (meta_shapes s ++ (as_address a <$> shape))
    (meta_strides s ++ (as_address a <$> strides)) (meta_offsets s ++ [length (meta_shapes s)])) b.
Definition builder_static_len (a : AddressType) (b : MetadataBuilder) : nat :=
  length (buffer_lens (meta_state a b)) * METADATA_BASE_LEN + length (meta_offsets (meta_state a b)) * METADATA_EXT_LEN.
Definition builder_dynamic_len (a : AddressType) (b : MetadataBuilder) : nat :=
  length (meta_shapes (meta_state a b)) + length (meta_strides (meta_state a b)).
(** [out[..len].copy_from_slice(bytes); out = &mut out[len..]] *)
Definition copy_front (bytes out : list Z) : option (list Z * list Z) :=
  if decide (length out < length bytes) then None else Some (bytes, drop (length bytes) out).
Fixpoint put_offsets (size base : nat) (offsets : list nat) (sized : list Z) : option (list Z * list Z) :=
  match offsets with
  | [] => Some ([], sized)
  | offs :: offsets =>
      if decide (2 ^ (8 * Z.of_nat size) <= Z.of_nat (base + offs))%Z then None
      else
        '(bytes, sized) ← copy_front (encode size (Z.of_nat (base + offs))) sized;
        '(rest, sized) ← put_offsets size base offsets sized; Some (bytes ++ rest, sized)
  end.
Definition pod_bytes (size : nat) (l : list Z) : list Z := mjoin (encode size <$> l).
Definition finish_inner (size : nat) (s : MetaState) (sized dynamic : list Z) : option (list Z * list Z * MetaState) :=
  '(lens, sized) ← copy_front (pod_bytes size (buffer_lens s)) sized;
  '(shape_offs, sized) ← put_offsets size 0 (meta_offsets s) sized;
  '(stride_offs, sized) ← put_offsets size (length (meta_shapes s)) (meta_offsets s) sized;
  '(shapes, dynamic) ← copy_front (pod_bytes size (meta_shapes s)) dynamic;
  '(strides, dynamic) ← copy_front (pod_bytes size (meta_strides s)) dynamic;
  Some (lens ++ shape_offs ++ stride_offs ++ sized, shapes ++ strides ++ dynamic, meta_empty).
Definition metadata_finish (a : AddressType) (b : MetadataBuilder) (sized dynamic : list Z) : option (list Z * list Z * MetadataBuilder) :=
  '(sized, dynamic, s) ← finish_inner (address_bytes a) (meta_state a b) sized dynamic;
  Some (sized, dynamic, set_meta_state a s b).

(** ** The buffer *)
Record InfoBuilder := mk_InfoBuilder { info_scalars : ScalarBuilder; info_metadata : MetadataBuilder }.
Definition info_empty : InfoBuilder := mk_InfoBuilder [] (mk_MetadataBuilder meta_empty meta_empty).
(** The bytes, and the word where the dynamic part starts. *)
Record MetadataBindingInfo := mk_MetadataBindingInfo { info_data : list Z; dynamic_metadata_offset : nat }.
Definition info_finish (a : AddressType) (b : InfoBuilder) : option (MetadataBindingInfo * InfoBuilder) :=
  let addr_packing := INFO_ALIGN / address_bytes a in
  let scalars_size := len_aligned (info_scalars b) in
  let static_size := div_ceil_nat (builder_static_len a (info_metadata b)) addr_packing in
  let dynamic_size := div_ceil_nat (builder_dynamic_len a (info_metadata b)) addr_packing in
  let out := replicate (8 * (scalars_size + static_size + dynamic_size)) 0%Z in
  '(scalars, front) ← scalars_finish (info_scalars b) (take (8 * scalars_size) out);
  let out := drop (8 * scalars_size) out in
  '(sized, dynamic, metadata) ← metadata_finish a (info_metadata b) (take (8 * static_size) out) (drop (8 * static_size) out);
  Some (mk_MetadataBindingInfo (front ++ sized ++ dynamic) (scalars_size + static_size), mk_InfoBuilder scalars metadata).

(** ** The launcher *)
Inductive BufferIOAttr := ReadOnly | WriteOnly | ReadWrite | Dead.
Definition io_is_readable (io : BufferIOAttr) : bool := match io with ReadOnly | ReadWrite => true | _ => false end.
Definition io_is_writable (io : BufferIOAttr) : bool := match io with WriteOnly | ReadWrite => true | _ => false end.
Inductive KernelResource := ResourceBuffer (b : BufferBinding) | ResourceTensorMap (b : BufferBinding).
Record KernelLauncher := mk_KernelLauncher {
  resources : list KernelResource; declared_io : list BufferIOAttr; declaring : BufferIOAttr; launcher_address : AddressType }.
Definition launcher_new (a : AddressType) : KernelLauncher := mk_KernelLauncher [] [] ReadWrite a.
Definition alias_io (input_pos : nat) (l : KernelLauncher) : KernelLauncher :=
  if io_is_writable (declaring l) then mk_KernelLauncher (resources l) (<[input_pos := ReadWrite]> (declared_io l)) (declaring l) (launcher_address l) else l.
Definition push_resource (r : KernelResource) (l : KernelLauncher) : KernelLauncher :=
  let io := match r with ResourceTensorMap _ => ReadWrite | ResourceBuffer _ => declaring l end in
  mk_KernelLauncher (resources l ++ [r]) (declared_io l ++ [io]) (declaring l) (launcher_address l).
Definition binding_size_in_used (b : BufferBinding) : option Z :=
  n ← sub_u64 (binding_size b) (default 0%Z (binding_offset_start b)); sub_u64 n (default 0%Z (binding_offset_end b)).
Definition buffer_len_of (b : BufferBinding) (elem_size : Z) : option Z :=
  used ← binding_size_in_used b; if decide (elem_size = 0)%Z then None else Some (used / elem_size)%Z.
(** The calls on a launcher. *)
Inductive Registered :=
| RegScalar (ty : ElemType) (bytes : list Z)
| RegBuffer (handle : BufferBinding) (elem_size : Z)
| RegBufferAlias (input_pos : nat)
| RegTensor (handle : BufferBinding) (shape strides : list Z) (elem_size : Z)
| RegTensorAlias (input_pos : nat)
| RegTensorMap (handle : BufferBinding) (shape strides : list Z) (elem_size : Z)
| DeclareIo (io : BufferIOAttr).
Definition on_metadata (f : MetadataBuilder → MetadataBuilder) (b : InfoBuilder) : InfoBuilder := mk_InfoBuilder (info_scalars b) (f (info_metadata b)).
Definition register (r : Registered) (l : KernelLauncher) (info : InfoBuilder) : option (KernelLauncher * InfoBuilder) :=
  match r with
  | RegScalar ty bytes => Some (l, mk_InfoBuilder (push_raw bytes ty (info_scalars info)) (info_metadata info))
  | RegBuffer handle elem_size =>
      len ← buffer_len_of handle elem_size;
      Some (push_resource (ResourceBuffer handle) l, on_metadata (meta_register_buffer (launcher_address l) len) info)
  | RegBufferAlias input_pos | RegTensorAlias input_pos => Some (alias_io input_pos l, info)
  | RegTensor handle shape strides elem_size =>
      len ← buffer_len_of handle elem_size;
      Some (push_resource (ResourceBuffer handle) l, on_metadata (meta_register_tensor (launcher_address l) len shape strides) info)
  | RegTensorMap handle shape strides elem_size =>
      len ← buffer_len_of handle elem_size;
      Some (push_resource (ResourceTensorMap handle) l, on_metadata (meta_register_tensor (launcher_address l) len shape strides) info)
  | DeclareIo io => Some (mk_KernelLauncher (resources l) (declared_io l) io (launcher_address l), info)
  end.
Fixpoint register_all (rs : list Registered) (l : KernelLauncher) (info : InfoBuilder) : option (KernelLauncher * InfoBuilder) :=
  match rs with [] => Some (l, info) | r :: rs => '(l, info) ← register r l info; register_all rs l info end.
Record KernelArguments := mk_KernelArguments { arg_resources : list KernelResource; arg_declared_io : list BufferIOAttr; arg_info : MetadataBindingInfo }.
(** The builder of a thread outlives the launcher, launched or discarded. *)
Definition into_bindings (l : KernelLauncher) (info : InfoBuilder) : option (KernelArguments * InfoBuilder) :=
  '(data, info) ← info_finish (launcher_address l) info;
  Some (mk_KernelArguments (resources l) (declared_io l) data, info).

(** ** The kernel builder *)
Record KernelBuilder := mk_KernelBuilder { builder_scalars : list (ElemType * nat); buffer_idx : nat; ext_meta_idx : nat }.
Definition builder_new : KernelBuilder := mk_KernelBuilder [] 0 0.
Fixpoint assoc {A} (ty : ElemType) (l : list (ElemType * A)) : option A :=
  match l with [] => None | (k, v) :: l => if decide (k = ty) then Some v else assoc ty l end.
Definition builder_scalar (storage : ElemType) (b : KernelBuilder) : nat * KernelBuilder :=
  (default 0 (assoc storage (builder_scalars b)),
   mk_KernelBuilder (upsert (λ o, S (default 0 o)) storage (builder_scalars b)) (buffer_idx b) (ext_meta_idx b)).
Definition builder_buffer (b : KernelBuilder) : nat * KernelBuilder :=
  (buffer_idx b, mk_KernelBuilder (builder_scalars b) (S (buffer_idx b)) (ext_meta_idx b)).
Definition builder_tensor (b : KernelBuilder) : nat * nat * KernelBuilder :=
  (buffer_idx b, ext_meta_idx b, mk_KernelBuilder (builder_scalars b) (S (buffer_idx b)) (S (ext_meta_idx b))).
(** What the code of the kernel names an argument by. *)
Inductive KernelArg := ArgScalar (ty : ElemType) (id : nat) | ArgBuffer (idx : nat) | ArgTensor (idx ext : nat) | ArgAlias (position : nat) | ArgNone.
(** The expansion of an argument mirrors its registration. *)
Definition expand_arg (r : Registered) (b : KernelBuilder) : KernelArg * KernelBuilder :=
  match r with
  | RegScalar ty _ => let '(id, b) := builder_scalar ty b in (ArgScalar ty id, b)
  | RegBuffer _ _ => let '(id, b) := builder_buffer b in (ArgBuffer id, b)
  | RegTensor _ _ _ _ | RegTensorMap _ _ _ _ => let '(id, ext, b) := builder_tensor b in (ArgTensor id ext, b)
  | RegBufferAlias position | RegTensorAlias position => (ArgAlias position, b)
  | DeclareIo _ => (ArgNone, b)
  end.
Fixpoint expand_all (rs : list Registered) (b : KernelBuilder) : list KernelArg * KernelBuilder :=
  match rs with
  | [] => ([], b)
  | r :: rs => let '(arg, b) := expand_arg r b in let '(args, b) := expand_all rs b in (arg :: args, b)
  end.

Record SizedInfoField := mk_SizedInfoField { field_ty : ElemType; field_count : nat; field_offset : nat }.
Record KernelMetadata := mk_KernelMetadata { num_meta : nat; num_extended_meta : nat }.
Definition static_len (m : KernelMetadata) : nat := num_meta m * METADATA_BASE_LEN + num_extended_meta m * METADATA_EXT_LEN.
Definition buffer_len_index (m : KernelMetadata) (idx : nat) : nat := num_meta m * 0 + idx.
Definition offset_of_extended (m : KernelMetadata) (id : nat) : nat := num_meta m * METADATA_BASE_LEN + num_extended_meta m * id.
Definition shape_offset_index (m : KernelMetadata) (idx : nat) : nat := offset_of_extended m 0 + idx.
Definition stride_offset_index (m : KernelMetadata) (idx : nat) : nat := offset_of_extended m 1 + idx.
Record Info := mk_Info {
  scalar_fields : list SizedInfoField; sized_meta : option SizedInfoField; has_dynamic_meta : bool; dynamic_meta_offset : nat; info_meta : KernelMetadata }.
Fixpoint scalar_infos (a : AddressType) (l : list (ElemType * nat)) (offset : nat) : list SizedInfoField * nat :=
  match l with
  | [] => ([], offset)
  | (ty, count) :: l =>
      let '(fields, end_) := scalar_infos a l (offset + next_multiple (expand_size a ty * count) INFO_ALIGN) in
      (mk_SizedInfoField ty count offset :: fields, end_)
  end.
Definition create_info (a : AddressType) (b : KernelBuilder) : Info :=
  let metadata := mk_KernelMetadata (buffer_idx b) (ext_meta_idx b) in
  let '(fields, offset) := scalar_infos a (builder_scalars b) 0 in
  let '(sized, offset) :=
    if decide (0 < static_len metadata)
    then (Some (mk_SizedInfoField (unsigned_type a) (static_len metadata) offset), offset + next_multiple (address_bytes a * static_len metadata) INFO_ALIGN)
    else (None, offset) in
  mk_Info fields sized (bool_decide (0 < ext_meta_idx b)) offset metadata.
(** [next_multiple_of] panics at zero, which the factor of a scalar of 16 bytes
    is. *)
Definition padded_size (a : AddressType) (f : SizedInfoField) : option nat :=
  let padding_factor := INFO_ALIGN / expand_size a (field_ty f) in
  if decide (padding_factor = 0) then None else Some (next_multiple (field_count f) padding_factor).
Definition has_info (i : Info) : bool := negb (bool_decide (scalar_fields i = [])) || bool_decide (is_Some (sized_meta i)).

(** ** The code of a kernel *)
(** Where a C++ structure of padded arrays puts each of them. *)
Fixpoint struct_offsets (a : AddressType) (fields : list SizedInfoField) (offset : nat) : option (list nat) :=
  match fields with
  | [] => Some []
  | f :: fields => n ← padded_size a f; (offset ::.) <$> struct_offsets a fields (offset + expand_size a (field_ty f) * n)
  end.
Definition bytes_at (data : list Z) (offset n : nat) : option (list Z) :=
  if decide (offset + n <= length data) then Some (take n (drop offset data)) else None.
Section reads.
Context (a : AddressType) (info : Info) (data : list Z).
Definition read_scalar (ty : ElemType) (id : nat) : option (list Z) :=
  f ← head (filter (λ f, field_ty f = ty) (scalar_fields info));
  bytes_at data (field_offset f + id * expand_size a ty) (expand_size a ty).
Definition read_static_meta (offset : nat) : option Z :=
  f ← sized_meta info; decode <$> bytes_at data (field_offset f + offset * address_bytes a) (address_bytes a).
Definition read_dynamic_meta (base offset dim : nat) : option Z := decode <$> bytes_at data (base + (offset + dim) * address_bytes a) (address_bytes a).
Definition read_buffer_len (idx : nat) : option Z := read_static_meta (buffer_len_index (info_meta info) idx).
Definition read_shape (idx dim : nat) : option Z :=
  offs ← read_static_meta (shape_offset_index (info_meta info) idx); read_dynamic_meta (dynamic_meta_offset info) (Z.to_nat offs) dim.
Definition read_stride (idx dim : nat) : option Z :=
  offs ← read_static_meta (stride_offset_index (info_meta info) idx); read_dynamic_meta (dynamic_meta_offset info) (Z.to_nat offs) dim.
End reads.

(** Two tensors, an array and scalars of three types. *)
Definition some_buffer : BufferBinding := mk_BufferBinding 0%Z None None 0%Z 64%Z.
Definition some_arguments : list Registered :=
  [RegTensor some_buffer [4; 4]%Z [4; 1]%Z 4; RegScalar (ElemUInt U32) [1; 2; 3; 4]%Z; RegScalar ElemIndex [9; 0; 0; 0]%Z; RegBuffer some_buffer 2;
   RegTensorAlias 0; RegTensor some_buffer [2; 3; 5]%Z [15; 5; 1]%Z 4; RegScalar (ElemUInt U32) [5; 6; 7; 8]%Z; RegScalar (ElemFloat F16) [1; 1]%Z].
Example arguments_named : (expand_all some_arguments builder_new).1 =
  [ArgTensor 0 0; ArgScalar (ElemUInt U32) 0; ArgScalar ElemIndex 0; ArgBuffer 1; ArgAlias 0; ArgTensor 2 1; ArgScalar (ElemUInt U32) 1; ArgScalar (ElemFloat F16) 0].
Proof. reflexivity. Qed.

(** ** Bytes of integers *)
Lemma encode_length size x : length (encode size x) = size.
Proof. unfold encode. pose proof (length_Z_to_little_endian (Z.of_nat size) 8 x). lia. Qed.
Lemma decode_encode size x : (0 <= x < 2 ^ (8 * Z.of_nat size))%Z → decode (encode size x) = x.
Proof. intros Hx. unfold decode, encode. rewrite little_endian_to_Z_to_little_endian by lia. apply Z.mod_small. by rewrite Z.mul_comm. Qed.
Lemma pod_bytes_app size l k : pod_bytes size (l ++ k) = pod_bytes size l ++ pod_bytes size k.
Proof. unfold pod_bytes. by rewrite fmap_app, join_app. Qed.
Lemma pod_bytes_cons size x l : pod_bytes size (x :: l) = encode size x ++ pod_bytes size l.
Proof. done. Qed.
Lemma pod_bytes_length size l : length (pod_bytes size l) = length l * size.
Proof. induction l as [|x l IH]; [done|]. rewrite pod_bytes_cons, length_app, encode_length, IH. cbn. lia. Qed.
Lemma pod_bytes_drop size l i : drop (i * size) (pod_bytes size l) = pod_bytes size (drop i l).
Proof.
  revert l. induction i as [|i IH]; intros l; [done|]. destruct l as [|x l]; [cbn; by rewrite drop_nil|].
  rewrite pod_bytes_cons. cbn [Nat.mul drop]. rewrite drop_app_ge by (rewrite encode_length; lia). rewrite encode_length.
  replace (size + i * size - size) with (i * size) by lia. apply IH.
Qed.
Lemma pod_bytes_at size l i x pre post : l !! i = Some x → bytes_at (pre ++ pod_bytes size l ++ post) (length pre + i * size) size = Some (encode size x).
Proof.
  intros Hi. pose proof (lookup_lt_Some _ _ _ Hi). unfold bytes_at. rewrite decide_True by (rewrite !length_app, pod_bytes_length; nia).
  rewrite <- drop_drop, drop_app_length, drop_app_le by (rewrite pod_bytes_length; nia). rewrite pod_bytes_drop, (drop_S _ _ _ Hi), pod_bytes_cons.
  by rewrite <- app_assoc, take_app_le, take_ge by (rewrite encode_length; lia).
Qed.

(** ** Padding *)
Lemma div_ceil_nat_spec n k : 1 <= k → k * div_ceil_nat n k < n + k ∧ n <= k * div_ceil_nat n k.
Proof. intros Hk. unfold div_ceil_nat. pose proof (Nat.div_mod_eq (n + (k - 1)) k). pose proof (Nat.mod_upper_bound (n + (k - 1)) k). lia. Qed.
Lemma next_multiple_spec n k : 1 <= k → n <= next_multiple n k < n + k ∧ Nat.divide k (next_multiple n k).
Proof. intros Hk. pose proof (div_ceil_nat_spec n k Hk). unfold next_multiple. split; [lia|]. by exists (div_ceil_nat n k). Qed.
Lemma next_multiple_unique n k m : 1 <= k → n <= k * m < n + k → next_multiple n k = k * m.
Proof. intros Hk Hm. pose proof (div_ceil_nat_spec n k Hk). unfold next_multiple. set (d := div_ceil_nat n k) in *. destruct (Nat.lt_total d m) as [Hlt|[Heq|Hlt]]; nia. Qed.
(** Words of packed integers of four or eight bytes. *)
Lemma packed_words a n : 8 * div_ceil_nat n (INFO_ALIGN / address_bytes a) = next_multiple (address_bytes a * n) 8.
Proof.
  symmetry. apply next_multiple_unique; [lia|]. destruct a; cbn [address_bytes]; [change (INFO_ALIGN / 4) with 2|change (INFO_ALIGN / 8) with 1].
  - pose proof (div_ceil_nat_spec n 2 ltac:(lia)). lia.
  - pose proof (div_ceil_nat_spec n 1 ltac:(lia)). lia.
Qed.
Lemma padded_array size n : size ∈ [1; 2; 4; 8] → size * next_multiple n (INFO_ALIGN / size) = next_multiple (size * n) INFO_ALIGN.
Proof.
  intros Hs. assert (1 <= INFO_ALIGN / size ∧ size * (INFO_ALIGN / size) = 8 ∧ 1 <= size) as (Hk & H8 & Hs1).
  { rewrite !elem_of_cons, elem_of_nil in Hs. destruct Hs as [->|[->|[->|[->|[]]]]]; vm_compute; lia. }
  unfold next_multiple at 1. set (k := INFO_ALIGN / size) in *. pose proof (div_ceil_nat_spec n k Hk) as Hd. set (m := div_ceil_nat n k) in *. clearbody k m.
  assert (size * (m * k) = INFO_ALIGN * m) as -> by (unfold INFO_ALIGN; nia). symmetry. apply next_multiple_unique; [unfold INFO_ALIGN; lia|]. unfold INFO_ALIGN.
  assert (size * (k * m) = 8 * m) by nia. pose proof (Nat.mul_le_mono_l _ _ size (proj2 Hd)). pose proof (proj1 (Nat.mul_lt_mono_pos_l size _ _ ltac:(lia)) (proj1 Hd)). nia.
Qed.

(** ** Scalars *)
Definition live_scalars (b : list (ElemType * list Z)) : list (ElemType * list Z) := filter (λ p, p.2 ≠ []) b.
Definition sorted_types {A} (l : list (ElemType * A)) : Prop := StronglySorted (λ p q, elem_rank p.1 < elem_rank q.1) l.
Definition agrees (a : AddressType) (p : ElemType * list Z) (q : ElemType * nat) : Prop :=
  p.1 = q.1 ∧ length p.2 = expand_size a q.1 * q.2 ∧ 1 <= q.2 ∧ expand_size a q.1 ∈ [1; 2; 4; 8].
Lemma upsert_front {A} (f : option A → A) ty l : Forall (λ p, elem_rank ty < elem_rank p.1) l → upsert f ty l = (ty, f None) :: l.
Proof.
  destruct 1 as [|[k v] l Hk Hl]; [done|]. cbn in *. rewrite decide_False by lia. rewrite decide_False; [done|]. intros ->. lia.
Qed.
Lemma upsert_Forall {A} (P : ElemType → Prop) (f : option A → A) ty l : P ty → Forall (λ p, P p.1) l → Forall (λ p, P p.1) (upsert f ty l).
Proof.
  intros Hty. induction 1 as [|[k v] l Hk Hl IH]; cbn; [by repeat constructor|]. repeat case_decide; by repeat constructor.
Qed.
Lemma upsert_sorted {A} (f : option A → A) ty l : sorted_types l → sorted_types (upsert f ty l).
Proof.
  induction 1 as [|[k v] l Hl IH Hk]; cbn [upsert]; [repeat constructor|]. case_decide as Hlt; [|case_decide as Heq].
  - constructor; [done|]. apply (upsert_Forall (λ t, elem_rank k < elem_rank t)); [done|exact Hk].
  - constructor; [done|exact Hk].
  - constructor; [by constructor|]. assert (elem_rank ty < elem_rank k) by (destruct (decide (elem_rank ty = elem_rank k)) as [He|]; [by apply elem_rank_inj in He|lia]).
    constructor; [done|]. eapply Forall_impl; [exact Hk|]. cbn. lia.
Qed.
Lemma live_upsert f ty (l : list (ElemType * list Z)) : sorted_types l → f (Some []) = f None → (∀ o, f o ≠ []) → live_scalars (upsert f ty l) = upsert f ty (live_scalars l).
Proof.
  intros Hl Hf Hne. induction Hl as [|[k v] l Hl IH Hk]; cbn [upsert].
  { unfold live_scalars. cbn. by rewrite decide_True by apply Hne. }
  assert (Forall (λ p, elem_rank k < elem_rank p.1) (live_scalars l)) as Hk' by (apply Forall_forall; intros p [_ Hp]%list_elem_of_filter; rewrite Forall_forall in Hk; by apply Hk).
  unfold live_scalars in *. case_decide as Hlt; [|case_decide as Heq]; rewrite !filter_cons; cbn [snd].
  - case_decide; [|done]. cbn [upsert]. rewrite decide_True by done. by rewrite IH.
  - subst k. rewrite decide_True by apply Hne. case_decide as Hv.
    + cbn [upsert]. rewrite decide_False by lia. by rewrite decide_True by done.
    + rewrite upsert_front by done. subst v. by rewrite Hf.
  - assert (elem_rank ty < elem_rank k) by (destruct (decide (elem_rank ty = elem_rank k)) as [He|]; [by apply elem_rank_inj in He|lia]).
    rewrite decide_True by apply Hne. symmetry. apply upsert_front. case_decide; [constructor; [done|]|]; (eapply Forall_impl; [exact Hk'|]; cbn; lia).
Qed.
Lemma agrees_upsert a f g ty l k : Forall2 (agrees a) l k → agrees a (ty, f None) (ty, g None) → (∀ v c, agrees a (ty, v) (ty, c) → agrees a (ty, f (Some v)) (ty, g (Some c))) →
  Forall2 (agrees a) (upsert f ty l) (upsert g ty k).
Proof.
  intros Hlk Hn Hs. induction Hlk as [|[t v] [t' c] l k Ha Hlk IH]; cbn [upsert]; [by constructor; [|constructor]|]. assert (t = t') as <- by apply Ha.
  case_decide; [by constructor|]. case_decide as Heq; [subst t; constructor; [by apply Hs|done]|]. constructor; [done|]. by constructor.
Qed.
Lemma assoc_upsert {A} (f : option A → A) ty ty' l : sorted_types l → assoc ty' (upsert f ty l) = if decide (ty' = ty) then Some (f (assoc ty l)) else assoc ty' l.
Proof.
  induction 1 as [|[k v] l Hl IH Hk]; cbn [upsert assoc]; [case_decide as H; [subst; by rewrite decide_True|by rewrite decide_False by congruence]|].
  destruct (decide (elem_rank k < elem_rank ty)) as [Hlt|Hlt]; [|destruct (decide (k = ty)) as [Heq|Heq]]; cbn [assoc].
  - rewrite IH. destruct (decide (k = ty)) as [->|]; [lia|]. destruct (decide (k = ty')) as [->|]; [|done]. by rewrite decide_False.
  - subst k. repeat case_decide; congruence.
  - assert (assoc ty l = None) as ->; [|repeat case_decide; congruence]. clear -Hk Hlt.
    induction Hk as [|[t x] l Ht Hk IH]; [done|]. cbn in *. rewrite decide_False; [done|]. intros ->. done.
Qed.

(** ** What finishing writes *)
Definition padded (v : list Z) : list Z := v ++ replicate (next_multiple (length v) INFO_ALIGN - length v) 0%Z.
Definition scalar_bytes (b : list (ElemType * list Z)) : list Z := mjoin ((λ p, padded p.2) <$> live_scalars b).
Lemma padded_length v : length (padded v) = next_multiple (length v) INFO_ALIGN.
Proof. unfold padded. rewrite length_app, length_replicate. pose proof (next_multiple_spec (length v) INFO_ALIGN ltac:(unfold INFO_ALIGN; lia)). lia. Qed.
Lemma live_cons ty v b : live_scalars ((ty, v) :: b) = if decide (v = []) then live_scalars b else (ty, v) :: live_scalars b.
Proof. unfold live_scalars. rewrite filter_cons. cbn [snd]. repeat case_decide; done. Qed.
Lemma scalar_bytes_cons ty v b : scalar_bytes ((ty, v) :: b) = if decide (v = []) then scalar_bytes b else padded v ++ scalar_bytes b.
Proof. unfold scalar_bytes. rewrite live_cons. by case_decide. Qed.
Lemma len_aligned_cons ty v b : len_aligned ((ty, v) :: b) = div_ceil_nat (length v) INFO_ALIGN + len_aligned b.
Proof. done. Qed.
Lemma scalars_finish_spec b n : len_aligned b <= n →
  scalars_finish b (replicate (8 * n) 0%Z) = Some ((λ p, (p.1, [])) <$> b, scalar_bytes b ++ replicate (8 * (n - len_aligned b)) 0%Z) ∧
  length (scalar_bytes b) = 8 * len_aligned b.
Proof.
  revert n. induction b as [|[ty v] b IH]; intros n Hn; [split; [|done]; cbn; by rewrite Nat.sub_0_r|]. rewrite len_aligned_cons in *. cbn [scalars_finish]. rewrite scalar_bytes_cons. case_decide as Hv.
  - subst v. cbn [length] in *. change (div_ceil_nat 0 INFO_ALIGN) with 0 in *. cbn [Nat.add] in *. destruct (IH n Hn) as [-> Hl]. split; [done|]. exact Hl.
  - set (w := div_ceil_nat (length v) INFO_ALIGN) in *. pose proof (next_multiple_spec (length v) INFO_ALIGN ltac:(unfold INFO_ALIGN; lia)) as [Hm _].
    assert (next_multiple (length v) INFO_ALIGN = 8 * w) as Hw by (unfold next_multiple; fold w; unfold INFO_ALIGN; lia). rewrite Hw in *.
    rewrite decide_False by (rewrite length_replicate; lia). rewrite !drop_replicate. replace (8 * n - 8 * w) with (8 * (n - w)) by lia.
    destruct (IH (n - w) ltac:(lia)) as [-> Hl]. cbn [mbind option_bind fmap list_fmap fst].
    split; [|rewrite length_app, padded_length, Hw, Hl; lia]. rewrite take_replicate, Nat.min_l by lia. unfold padded. rewrite Hw, <- !app_assoc.
    by replace (n - w - len_aligned b) with (n - (w + len_aligned b)) by lia.
Qed.
Definition static_values (s : MetaState) : list Z :=
  buffer_lens s ++ (Z.of_nat <$> meta_offsets s) ++ ((λ o, Z.of_nat (length (meta_shapes s) + o)) <$> meta_offsets s).
Definition dynamic_values (s : MetaState) : list Z := meta_shapes s ++ meta_strides s.
Lemma copy_front_replicate bytes n : length bytes <= n → copy_front bytes (replicate n 0%Z) = Some (bytes, replicate (n - length bytes) 0%Z).
Proof. intros Hn. unfold copy_front. rewrite decide_False by (rewrite length_replicate; lia). by rewrite drop_replicate. Qed.
Lemma put_offsets_spec size base offs n : Forall (λ o, (Z.of_nat (base + o) < 2 ^ (8 * Z.of_nat size))%Z) offs → length offs * size <= n →
  put_offsets size base offs (replicate n 0%Z) = Some (pod_bytes size ((λ o, Z.of_nat (base + o)) <$> offs), replicate (n - length offs * size) 0%Z).
Proof.
  intros Ho. revert n. induction Ho as [|o offs Ho Hall IH]; intros n Hn; [cbn; by rewrite Nat.sub_0_r|]. cbn [put_offsets length] in *. rewrite decide_False by lia.
  rewrite copy_front_replicate by (rewrite encode_length; lia). cbn [mbind option_bind]. rewrite encode_length, IH by lia. cbn. do 3 f_equal. lia.
Qed.
Lemma finish_inner_spec size s n m : Forall (λ o, (Z.of_nat (length (meta_shapes s) + o) < 2 ^ (8 * Z.of_nat size))%Z) (meta_offsets s) →
  length (static_values s) * size <= n → length (dynamic_values s) * size <= m →
  finish_inner size s (replicate n 0%Z) (replicate m 0%Z) =
    Some (pod_bytes size (static_values s) ++ replicate (n - length (static_values s) * size) 0%Z,
          pod_bytes size (dynamic_values s) ++ replicate (m - length (dynamic_values s) * size) 0%Z, meta_empty).
Proof.
  intros Ho Hn Hm. unfold finish_inner, static_values, dynamic_values in *. rewrite !length_app, !length_fmap in *.
  rewrite (copy_front_replicate (pod_bytes size (buffer_lens s))) by (rewrite pod_bytes_length; lia). cbn [mbind option_bind]. rewrite pod_bytes_length.
  rewrite (put_offsets_spec size 0); [|eapply Forall_impl; [exact Ho|]; cbn; lia|lia]. cbn [mbind option_bind]. rewrite put_offsets_spec by (done || lia). cbn [mbind option_bind].
  rewrite (copy_front_replicate (pod_bytes size (meta_shapes s))) by (rewrite pod_bytes_length; lia). cbn [mbind option_bind].
  rewrite copy_front_replicate by (rewrite !pod_bytes_length; lia). cbn [mbind option_bind].
  rewrite !pod_bytes_length, !pod_bytes_app, <- !app_assoc, !Nat.mul_add_distr_r, !Nat.sub_add_distr. done.
Qed.

(** ** A builder between two launches *)
Definition clean (b : InfoBuilder) : Prop :=
  Forall (λ p, p.2 = []) (info_scalars b) ∧ sorted_types (info_scalars b) ∧ state_32 (info_metadata b) = meta_empty ∧ state_64 (info_metadata b) = meta_empty.
(** What a registration must satisfy: a scalar is as long as its type, lengths
    and dimensions fit the addresses of the kernel. *)
Definition address_bound (a : AddressType) : Z := (2 ^ (8 * address_size a))%Z.
Definition fits (a : AddressType) (x : Z) : Prop := (0 <= x < address_bound a)%Z.
Definition tensor_ok (a : AddressType) (handle : BufferBinding) (elem_size : Z) (shape strides : list Z) : Prop :=
  (∃ len, buffer_len_of handle elem_size = Some len ∧ fits a len) ∧ length strides = length shape ∧ Forall (fits a) shape ∧ Forall (fits a) strides.
Definition reg_ok (a : AddressType) (r : Registered) : Prop :=
  match r with
  | RegScalar ty bytes => length bytes = expand_size a ty ∧ expand_size a ty ∈ [1; 2; 4; 8]
  | RegBuffer handle elem_size => tensor_ok a handle elem_size [] []
  | RegTensor handle shape strides elem_size | RegTensorMap handle shape strides elem_size => tensor_ok a handle elem_size shape strides
  | _ => True
  end.
Definition reg_rank (r : Registered) : nat := match r with RegTensor _ shape _ _ | RegTensorMap _ shape _ _ => length shape | _ => 0 end.

(** ** What is registered stays where its name says *)
Definition len_stored (m : MetaState) (res : list KernelResource) (idx : nat) (handle : BufferBinding) (elem_size : Z) (r : KernelResource) : Prop :=
  res !! idx = Some r ∧ ∃ len, buffer_len_of handle elem_size = Some len ∧ buffer_lens m !! idx = Some len.
Definition dims_stored (m : MetaState) (ext : nat) (shape strides : list Z) : Prop := ∃ o, meta_offsets m !! ext = Some o ∧
  (∀ dim x, shape !! dim = Some x → meta_shapes m !! (o + dim) = Some x) ∧ (∀ dim x, strides !! dim = Some x → meta_strides m !! (o + dim) = Some x).
Definition stored (a : AddressType) (sc : list (ElemType * list Z)) (m : MetaState) (res : list KernelResource) (r : Registered) (arg : KernelArg) : Prop :=
  match r, arg with
  | RegScalar ty bytes, ArgScalar ty' id => ty' = ty ∧ ∃ pre post, assoc ty sc = Some (pre ++ bytes ++ post) ∧ length pre = id * expand_size a ty
  | RegBuffer handle elem_size, ArgBuffer idx => len_stored m res idx handle elem_size (ResourceBuffer handle)
  | RegTensor handle shape strides elem_size, ArgTensor idx ext => len_stored m res idx handle elem_size (ResourceBuffer handle) ∧ dims_stored m ext shape strides
  | RegTensorMap handle shape strides elem_size, ArgTensor idx ext => len_stored m res idx handle elem_size (ResourceTensorMap handle) ∧ dims_stored m ext shape strides
  | RegBufferAlias position, ArgAlias position' | RegTensorAlias position, ArgAlias position' => position' = position
  | DeclareIo _, ArgNone => True
  | _, _ => False
  end.
Record grows (sc sc' : list (ElemType * list Z)) (m m' : MetaState) (res res' : list KernelResource) : Prop := mk_grows {
  grows_scalars : ∀ ty v, assoc ty sc = Some v → ∃ w, assoc ty sc' = Some (v ++ w);
  grows_lens : buffer_lens m `prefix_of` buffer_lens m';
  grows_shapes : meta_shapes m `prefix_of` meta_shapes m';
  grows_strides : meta_strides m `prefix_of` meta_strides m';
  grows_offsets : meta_offsets m `prefix_of` meta_offsets m';
  grows_resources : res `prefix_of` res';
}.
Lemma stored_grows a sc sc' m m' res res' r arg : grows sc sc' m m' res res' → stored a sc m res r arg → stored a sc' m' res' r arg.
Proof.
  intros [Hs Hl Hsh Hst Ho Hr].
  assert (∀ idx h es x, len_stored m res idx h es x → len_stored m' res' idx h es x) as Hlen.
  { intros idx h es x (Hx & len & Hlen & Hb). split; [by eapply prefix_lookup_Some|]. exists len. split; [done|by eapply prefix_lookup_Some]. }
  assert (∀ ext sh st, dims_stored m ext sh st → dims_stored m' ext sh st) as Hdim.
  { intros ext sh st (o & Hx & H1 & H2). exists o. split; [by eapply prefix_lookup_Some|]. split; intros dim x Hd; (eapply prefix_lookup_Some; [|done]); auto. }
  destruct r, arg; cbn; try done; try naive_solver.
  intros (-> & pre & post & Ha & Hp). split; [done|]. destruct (Hs _ _ Ha) as [w Hw]. exists pre, (post ++ w). split; [by rewrite Hw, <- !app_assoc|done].
Qed.
Record holds (a : AddressType) (done : list (Registered * KernelArg)) (l : KernelLauncher) (info : InfoBuilder) (b : KernelBuilder) : Prop := mk_holds {
  holds_address : launcher_address l = a;
  holds_sorted : sorted_types (info_scalars info);
  holds_scalars : Forall2 (agrees a) (live_scalars (info_scalars info)) (builder_scalars b);
  holds_buffers : length (buffer_lens (meta_state a (info_metadata info))) = buffer_idx b ∧ length (resources l) = buffer_idx b ∧ length (declared_io l) = buffer_idx b;
  holds_extended : length (meta_offsets (meta_state a (info_metadata info))) = ext_meta_idx b;
  holds_ranks : length (meta_shapes (meta_state a (info_metadata info))) = sum_list_with (λ p, reg_rank p.1) done ∧
    length (meta_strides (meta_state a (info_metadata info))) = sum_list_with (λ p, reg_rank p.1) done;
  holds_offsets : Forall (λ o, o <= length (meta_shapes (meta_state a (info_metadata info)))) (meta_offsets (meta_state a (info_metadata info)));
  holds_values : let m := meta_state a (info_metadata info) in Forall (fits a) (buffer_lens m) ∧ Forall (fits a) (meta_shapes m) ∧ Forall (fits a) (meta_strides m);
  holds_other : ∀ a', a' ≠ a → meta_state a' (info_metadata info) = meta_empty;
  holds_stored : Forall (λ p, stored a (live_scalars (info_scalars info)) (meta_state a (info_metadata info)) (resources l) p.1 p.2) done;
}.
Lemma as_address_fits a x : fits a x → as_address a x = x.
Proof. intros Hx. unfold as_address. by apply Z.mod_small. Qed.
Lemma as_address_list a l : Forall (fits a) l → as_address a <$> l = l.
Proof. induction 1 as [|x l Hx Hl IH]; [done|]. cbn. by rewrite IH, as_address_fits. Qed.
Lemma meta_state_set a s b : meta_state a (set_meta_state a s b) = s.
Proof. by destruct a. Qed.
Lemma meta_state_other a a' s b : a' ≠ a → meta_state a' (set_meta_state a s b) = meta_state a' b.
Proof. by destruct a, a'. Qed.
Lemma holds_clean a info : clean info → holds a [] (launcher_new a) info builder_new.
Proof.
  intros (He & Hs & H32 & H64). assert (∀ a', meta_state a' (info_metadata info) = meta_empty) as Hm by (intros []; done).
  assert (live_scalars (info_scalars info) = []) as Hl. { clear -He. induction He as [|[ty v] l Hv Hl IH]; [done|]. rewrite live_cons. cbn in Hv. by rewrite decide_True. }
  split; rewrite ?Hm, ?Hl; cbn; try done; repeat constructor; try done.
Qed.
Lemma agrees_assoc a l k ty : Forall2 (agrees a) l k →
  (assoc ty l = None ∧ assoc ty k = None) ∨ ∃ v c, assoc ty l = Some v ∧ assoc ty k = Some c ∧ agrees a (ty, v) (ty, c).
Proof.
  induction 1 as [|[t v] [t' c] l k Ha Hlk IH]; [by left|]. assert (t = t') as <- by apply Ha. cbn. case_decide as He; [|done]. subst t. right. by exists v, c.
Qed.
Lemma sorted_live sc : sorted_types sc → sorted_types (live_scalars sc).
Proof.
  induction 1 as [|[t v] sc Hsc IH Ht]; [constructor|]. rewrite live_cons. case_decide; [done|]. constructor; [done|].
  apply Forall_forall. intros p [_ Hp]%list_elem_of_filter. rewrite Forall_forall in Ht. by apply Ht.
Qed.
Lemma stored_all a sc sc' m m' res res' (done : list (Registered * KernelArg)) : grows sc sc' m m' res res' → Forall (λ p, stored a sc m res p.1 p.2) done → Forall (λ p, stored a sc' m' res' p.1 p.2) done.
Proof. intros Hg H. eapply Forall_impl; [exact H|]. intros p. by apply stored_grows. Qed.
Lemma reg_rank_snoc done r arg : sum_list_with (λ p : Registered * KernelArg, reg_rank p.1) (done ++ [(r, arg)]) = sum_list_with (λ p, reg_rank p.1) done + reg_rank r.
Proof. rewrite sum_list_with_app. cbn. lia. Qed.

Lemma scalar_step a done l info b ty bytes : holds a done l info b → reg_ok a (RegScalar ty bytes) →
  holds a (done ++ [(RegScalar ty bytes, ArgScalar ty (builder_scalar ty b).1)]) l (mk_InfoBuilder (push_raw bytes ty (info_scalars info)) (info_metadata info)) (builder_scalar ty b).2.
Proof.
  intros [Ha Hs Hsc Hbuf Hext Hrank Hoff Hval Hoth Hst] [Hlen Hsize]. set (f := λ o : option (list Z), default [] o ++ bytes).
  assert (1 <= expand_size a ty) as Hpos by (rewrite !elem_of_cons, elem_of_nil in Hsize; lia).
  assert (live_scalars (push_raw bytes ty (info_scalars info)) = upsert f ty (live_scalars (info_scalars info))) as Hlive.
  { apply live_upsert; [done|done|]. intros o Ho. apply (f_equal length) in Ho. unfold f in Ho. rewrite length_app in Ho. cbn in Ho. lia. }
  pose proof (sorted_live _ Hs) as Hsl. pose proof (agrees_assoc a _ _ ty Hsc) as Has.
  split; cbn [info_scalars info_metadata builder_scalar snd fst buffer_idx ext_meta_idx]; try done.
  - by apply upsert_sorted.
  - rewrite Hlive. cbn [builder_scalars]. apply agrees_upsert; [done| |].
    + unfold f. split_and!; cbn; [done|lia|lia|done].
    + intros v c (_ & Hv & Hc & _). unfold f. cbn in *. split_and!; cbn; [done|rewrite length_app; lia|lia|done].
  - rewrite reg_rank_snoc, Nat.add_0_r. done.
  - rewrite Hlive. apply Forall_app. split.
    + eapply stored_all; [|exact Hst]. split; try done. intros ty' v Hv. rewrite assoc_upsert by done. case_decide as He; [subst ty'|].
      * rewrite Hv. exists bytes. done.
      * exists []. by rewrite app_nil_r.
    + repeat constructor. cbn [fst snd]. exists (default [] (assoc ty (live_scalars (info_scalars info)))), []. rewrite assoc_upsert, decide_True, app_nil_r by done. split; [done|].
      destruct Has as [[-> ->]|(v & c & -> & -> & _ & Hv & _)]; [done|]. cbn in *. lia.
Qed.
Lemma buffer_step a done l info b handle elem_size len : holds a done l info b → buffer_len_of handle elem_size = Some len → fits a len →
  holds a (done ++ [(RegBuffer handle elem_size, ArgBuffer (builder_buffer b).1)]) (push_resource (ResourceBuffer handle) l) (on_metadata (meta_register_buffer a len) info) (builder_buffer b).2.
Proof.
  intros [Ha Hs Hsc [Hb1 [Hb2 Hb3]] Hext Hrank Hoff (Hv1 & Hv2 & Hv3) Hoth Hst] Hlen Hfit. set (m := meta_state a (info_metadata info)) in *.
  assert (meta_state a (info_metadata (on_metadata (meta_register_buffer a len) info)) = mk_MetaState (buffer_lens m ++ [len]) (meta_shapes m) (meta_strides m) (meta_offsets m)) as Hm.
  { cbn. unfold meta_register_buffer. rewrite meta_state_set. fold m. by rewrite as_address_fits. }
  split; rewrite ?Hm; cbn [info_scalars on_metadata builder_buffer snd fst buffer_idx ext_meta_idx builder_scalars resources declared_io push_resource buffer_lens meta_shapes meta_strides meta_offsets]; try done.
  - rewrite !length_app. cbn. lia.
  - rewrite reg_rank_snoc, Nat.add_0_r. done.
  - split_and!; [apply Forall_app; split; [done|by apply Forall_singleton]|done|done].
  - intros a' Ha'. cbn. unfold meta_register_buffer. rewrite meta_state_other by done. by apply Hoth.
  - apply Forall_app. split.
    + eapply stored_all; [|exact Hst]. split; cbn; try done; try (by apply prefix_app_r). intros ty v Hv. exists []. by rewrite app_nil_r.
    + repeat constructor; cbn; [apply list_lookup_middle; lia|]. exists len. split; [done|apply list_lookup_middle; lia].
Qed.
Lemma tensor_step a done l info b handle elem_size shape strides r reg : holds a done l info b → tensor_ok a handle elem_size shape strides →
  (reg = RegTensor handle shape strides elem_size ∧ r = ResourceBuffer handle ∨ reg = RegTensorMap handle shape strides elem_size ∧ r = ResourceTensorMap handle) →
  ∃ len, buffer_len_of handle elem_size = Some len ∧
  holds a (done ++ [(reg, ArgTensor (buffer_idx b) (ext_meta_idx b))]) (push_resource r l) (on_metadata (meta_register_tensor a len shape strides) info) (builder_tensor b).2.
Proof.
  intros [Ha Hs Hsc [Hb1 [Hb2 Hb3]] Hext [Hr1 Hr2] Hoff (Hv1 & Hv2 & Hv3) Hoth Hst] ((len & Hlen & Hfit) & Hranks & Hsh & Hstr) Hreg. exists len. split; [done|]. set (m := meta_state a (info_metadata info)) in *.
  assert (meta_state a (info_metadata (on_metadata (meta_register_tensor a len shape strides) info)) =
    mk_MetaState (buffer_lens m ++ [len]) (meta_shapes m ++ shape) (meta_strides m ++ strides) (meta_offsets m ++ [length (meta_shapes m)])) as Hm.
  { cbn. unfold meta_register_tensor. rewrite meta_state_set. fold m. by rewrite as_address_fits, !as_address_list. }
  assert (reg_rank reg = length shape) as Hrk by (destruct Hreg as [[-> _]|[-> _]]; done).
  split; rewrite ?Hm; cbn [info_scalars on_metadata builder_tensor snd fst buffer_idx ext_meta_idx builder_scalars resources declared_io push_resource buffer_lens meta_shapes meta_strides meta_offsets]; try done.
  - rewrite !length_app. cbn. lia.
  - rewrite length_app. cbn. lia.
  - rewrite reg_rank_snoc, !length_app, Hrk. lia.
  - apply Forall_app. split; [eapply Forall_impl; [exact Hoff|]; cbn; intros o Ho; rewrite length_app; lia|]. repeat constructor. rewrite length_app. lia.
  - split_and!; apply Forall_app; (split; [done|]); [by apply Forall_singleton|done|done].
  - intros a' Ha'. cbn. unfold meta_register_tensor. rewrite meta_state_other by done. by apply Hoth.
  - apply Forall_app. split.
    + eapply stored_all; [|exact Hst]. split; cbn; try (by apply prefix_app_r). intros ty v Hv. exists []. by rewrite app_nil_r.
    + assert (len_stored (mk_MetaState (buffer_lens m ++ [len]) (meta_shapes m ++ shape) (meta_strides m ++ strides) (meta_offsets m ++ [length (meta_shapes m)])) (resources l ++ [r]) (buffer_idx b) handle elem_size r) as H1.
      { split; [apply list_lookup_middle; lia|]. exists len. split; [done|apply list_lookup_middle; lia]. }
      assert (dims_stored (mk_MetaState (buffer_lens m ++ [len]) (meta_shapes m ++ shape) (meta_strides m ++ strides) (meta_offsets m ++ [length (meta_shapes m)])) (ext_meta_idx b) shape strides) as H2.
      { exists (length (meta_shapes m)). split; [apply list_lookup_middle; cbn; lia|]. split; intros dim x Hx; cbn.
        - rewrite lookup_app_r by lia. by replace (length (meta_shapes m) + dim - length (meta_shapes m)) with dim by lia.
        - rewrite lookup_app_r by lia. by replace (length (meta_shapes m) + dim - length (meta_strides m)) with dim by lia. }
      repeat constructor. cbn [fst snd]. destruct Hreg as [[-> ->]|[-> ->]]; by split.
Qed.
Lemma quiet_step a done l l' info b r arg : holds a done l info b → resources l' = resources l → length (declared_io l') = length (declared_io l) → launcher_address l' = launcher_address l →
  reg_rank r = 0 → (∀ sc m res, stored a sc m res r arg) → holds a (done ++ [(r, arg)]) l' info b.
Proof.
  intros [Ha Hs Hsc Hbuf Hext Hrank Hoff Hval Hoth Hst] Hr Hd Hadd Hrk Hsto. split; rewrite ?Hr, ?Hd, ?Hadd; try done.
  - rewrite reg_rank_snoc, Hrk, Nat.add_0_r. done.
  - apply Forall_app. split; [done|]. apply Forall_singleton. apply Hsto.
Qed.
Lemma register_step a done l info b r : holds a done l info b → reg_ok a r →
  ∃ l' info', register r l info = Some (l', info') ∧ holds a (done ++ [(r, (expand_arg r b).1)]) l' info' (expand_arg r b).2.
Proof.
  intros Hh Hok. pose proof (holds_address _ _ _ _ _ Hh) as Ha.
  assert (∀ p, resources (alias_io p l) = resources l ∧ length (declared_io (alias_io p l)) = length (declared_io l) ∧ launcher_address (alias_io p l) = launcher_address l) as Hal.
  { intros p. unfold alias_io. destruct (io_is_writable (declaring l)); cbn; [|done]. by rewrite length_insert. }
  destruct r as [ty bytes|h es|p|h sh st es|p|h sh st es|io]; cbn [register expand_arg reg_ok] in *.
  - eexists _, _. split; [done|]. by apply scalar_step.
  - destruct Hok as ((len & Hlen & Hfit) & _). rewrite Hlen. cbn. rewrite Ha. eexists _, _. split; [done|]. by apply buffer_step.
  - eexists _, _. split; [done|]. destruct (Hal p) as (? & ? & ?). by eapply quiet_step.
  - destruct (tensor_step a done l info b h es sh st (ResourceBuffer h) (RegTensor h sh st es) Hh Hok) as (len & -> & Hn); [by left|]. cbn. rewrite Ha. by eexists _, _.
  - eexists _, _. split; [done|]. destruct (Hal p) as (? & ? & ?). by eapply quiet_step.
  - destruct (tensor_step a done l info b h es sh st (ResourceTensorMap h) (RegTensorMap h sh st es) Hh Hok) as (len & -> & Hn); [by right|]. cbn. rewrite Ha. by eexists _, _.
  - eexists _, _. split; [done|]. by eapply quiet_step.
Qed.
Lemma register_all_holds a rs done l info b : holds a done l info b → Forall (reg_ok a) rs →
  ∃ l' info', register_all rs l info = Some (l', info') ∧ length (expand_all rs b).1 = length rs ∧
    holds a (done ++ zip rs (expand_all rs b).1) l' info' (expand_all rs b).2.
Proof.
  intros Hh Hok. revert done l info b Hh. induction Hok as [|r rs Hr Hok IH]; intros done l info b Hh; [exists l, info; cbn; by rewrite app_nil_r|].
  destruct (register_step a done l info b r Hh Hr) as (l1 & info1 & Hreg & Hh1). destruct (IH _ _ _ _ Hh1) as (l' & info' & Hall & Hlen & Hh').
  exists l', info'. cbn [register_all expand_all]. rewrite Hreg. cbn [mbind option_bind]. destruct (expand_arg r b) as [arg b1]. cbn [fst snd] in *. destruct (expand_all rs b1) as [args b2]. cbn in *.
  split_and!; [done|by rewrite Hlen|]. by rewrite <- app_assoc in Hh'.
Qed.

(** ** What the kernel reads *)
Lemma bytes_at_middle pre bytes post n : length bytes = n → bytes_at (pre ++ bytes ++ post) (length pre) n = Some bytes.
Proof.
  intros <-. unfold bytes_at. rewrite decide_True by (rewrite !length_app; lia). by rewrite drop_app_length, take_app_length.
Qed.
Lemma padded_size_Some a ty c off : expand_size a ty ∈ [1; 2; 4; 8] →
  padded_size a (mk_SizedInfoField ty c off) = Some (next_multiple c (INFO_ALIGN / expand_size a ty)).
Proof.
  intros Hs. unfold padded_size. cbn [field_ty field_count]. rewrite decide_False; [done|].
  rewrite !elem_of_cons, elem_of_nil in Hs. destruct Hs as [->|[->|[->|[->|[]]]]]; done.
Qed.
Lemma scalar_infos_spec a lv bs off : Forall2 (agrees a) lv bs →
  (scalar_infos a bs off).2 = off + length (mjoin ((λ p, padded p.2) <$> lv)) ∧
  (∀ tail, struct_offsets a ((scalar_infos a bs off).1 ++ tail) off = app (field_offset <$> (scalar_infos a bs off).1) <$> struct_offsets a tail (scalar_infos a bs off).2) ∧
  ∀ ty v, assoc ty lv = Some v → ∃ f k rest, head (filter (λ f, field_ty f = ty) (scalar_infos a bs off).1) = Some f ∧ field_offset f = off + k ∧
    k <= length (mjoin ((λ p, padded p.2) <$> lv)) ∧ drop k (mjoin ((λ p, padded p.2) <$> lv)) = v ++ rest.
Proof.
  intros H. revert off. induction H as [|[t v0] [t' c] lv bs (Ht & Hlen & Hc & Hsz) H IH]; intros off; cbn [scalar_infos].
  { split; [by rewrite Nat.add_0_r|]. split; [|done]. intros tail. cbn. by destruct (struct_offsets a tail off). }
  cbn in Ht, Hlen, Hc, Hsz. subst t'.
  assert (next_multiple (expand_size a t * c) INFO_ALIGN = length (padded v0)) as Hp by (by rewrite padded_length, Hlen). rewrite Hp.
  destruct (IH (off + length (padded v0))) as (Hend & Hstr & Hf). destruct (scalar_infos a bs (off + length (padded v0))) as [fields end_]. cbn [fst snd] in *.
  change (mjoin ((λ p : ElemType * list Z, padded p.2) <$> (t, v0) :: lv)) with (padded v0 ++ mjoin ((λ p : ElemType * list Z, padded p.2) <$> lv)). rewrite length_app. split_and!.
  - lia.
  - intros tail. cbn [app struct_offsets]. rewrite padded_size_Some by done. cbn [mbind option_bind field_ty]. rewrite padded_array, Hp, (Hstr tail) by done.
    by destruct (struct_offsets a tail end_).
  - intros ty v. cbn [assoc]. rewrite filter_cons. cbn [field_ty]. case_decide as He; [subst t; intros [= <-]|].
    + eexists _, 0, _. split; [done|]. cbn. split_and!; [lia|lia|]. unfold padded at 1. by rewrite <- app_assoc.
    + intros Hv. destruct (Hf ty v Hv) as (f & k & rest & Hhd & Hoff & Hk & Hd). exists f, (length (padded v0) + k), rest. split_and!; [done|lia|lia|].
      by rewrite <- drop_drop, drop_app_length.
Qed.
Lemma mjoin_live sc : mjoin ((λ p, padded p.2) <$> live_scalars sc) = scalar_bytes sc.
Proof. done. Qed.
Section finish.
Context (a : AddressType) (done_ : list (Registered * KernelArg)) (l : KernelLauncher) (info : InfoBuilder) (b : KernelBuilder).
Context (Hh : holds a done_ l info b) (ranks_fit : (2 * Z.of_nat (sum_list_with (λ p, reg_rank p.1) done_) < address_bound a)%Z).
Abbreviation m := (meta_state a (info_metadata info)).
Abbreviation size := (address_bytes a).
Lemma address_bound_bytes : address_bound a = (2 ^ (8 * Z.of_nat size))%Z.
Proof. by destruct a. Qed.
Lemma offsets_fit : Forall (λ o, (Z.of_nat (length (meta_shapes m) + o) < 2 ^ (8 * Z.of_nat size))%Z) (meta_offsets m).
Proof. destruct Hh as [_ _ _ _ _ [Hr _] Ho _ _ _]. rewrite <- address_bound_bytes. eapply Forall_impl; [exact Ho|]. cbn. intros o Hle. lia. Qed.
Lemma static_values_fit : Forall (fits a) (static_values m).
Proof.
  destruct Hh as [_ _ _ _ _ _ _ (Hv & _ & _) _ _]. unfold static_values. apply Forall_app. split; [done|]. pose proof offsets_fit as Ho. rewrite <- address_bound_bytes in Ho.
  apply Forall_app. split; apply Forall_fmap; (eapply Forall_impl; [exact Ho|]); intros o; unfold fits; cbn; lia.
Qed.
Lemma dynamic_values_fit : Forall (fits a) (dynamic_values m).
Proof. destruct Hh as [_ _ _ _ _ _ _ (_ & Hs & Ht) _ _]. by apply Forall_app. Qed.
Lemma static_values_length : length (static_values m) = static_len (mk_KernelMetadata (buffer_idx b) (ext_meta_idx b)).
Proof. destruct Hh as [_ _ _ [Hb _] He _ _ _ _ _]. unfold static_values, static_len, METADATA_BASE_LEN, METADATA_EXT_LEN. rewrite !length_app, !length_fmap. cbn. lia. Qed.
Definition written_data (r1 r2 : nat) : list Z :=
  scalar_bytes (info_scalars info) ++ (pod_bytes size (static_values m) ++ replicate r1 0%Z) ++ (pod_bytes size (dynamic_values m) ++ replicate r2 0%Z).
Lemma info_finish_spec : ∃ r1 r2 off info', info_finish a info = Some (mk_MetadataBindingInfo (written_data r1 r2) off, info') ∧ clean info' ∧
  8 * off = length (scalar_bytes (info_scalars info)) + length (pod_bytes size (static_values m) ++ replicate r1 0%Z) ∧
  length (pod_bytes size (static_values m) ++ replicate r1 0%Z) = next_multiple (size * length (static_values m)) INFO_ALIGN.
Proof.
  assert (builder_static_len a (info_metadata info) = length (static_values m)) as Hs.
  { rewrite static_values_length. destruct Hh as [_ _ _ [Hb _] He _ _ _ _ _]. unfold builder_static_len, static_len. by rewrite Hb, He. }
  assert (builder_dynamic_len a (info_metadata info) = length (dynamic_values m)) as Hd by (unfold builder_dynamic_len, dynamic_values; by rewrite length_app).
  unfold info_finish. rewrite Hs, Hd. set (n0 := len_aligned (info_scalars info)). set (n1 := div_ceil_nat (length (static_values m)) (INFO_ALIGN / size)). set (n2 := div_ceil_nat (length (dynamic_values m)) (INFO_ALIGN / size)).
  pose proof (packed_words a (length (static_values m))) as Hn1. fold n1 in Hn1. pose proof (packed_words a (length (dynamic_values m))) as Hn2. fold n2 in Hn2.
  pose proof (next_multiple_spec (size * length (static_values m)) 8 ltac:(lia)) as [Hm1 _]. pose proof (next_multiple_spec (size * length (dynamic_values m)) 8 ltac:(lia)) as [Hm2 _].
  replace (8 * (n0 + n1 + n2)) with (8 * n0 + (8 * n1 + 8 * n2)) by lia. rewrite !replicate_add. rewrite take_app_length', drop_app_length' by (by rewrite length_replicate).
  destruct (scalars_finish_spec (info_scalars info) n0 ltac:(lia)) as [-> Hl]. cbn [mbind option_bind].
  rewrite take_app_length', drop_app_length' by (by rewrite length_replicate). unfold metadata_finish.
  rewrite finish_inner_spec by (try apply offsets_fit; lia). cbn [mbind option_bind]. eexists _, _, _, _. split; [unfold written_data; rewrite Nat.sub_diag, app_nil_r; done|]. split_and!.
  - destruct Hh as [_ Hsort _ _ _ _ _ _ Hoth _]. split_and!; cbn [info_scalars info_metadata].
    + apply Forall_fmap, Forall_true. done.
    + clear -Hsort. induction Hsort as [|[t v] sc Hsc IH Ht]; cbn; constructor; [done|]. apply Forall_fmap. eapply Forall_impl; [exact Ht|]. done.
    + destruct a; cbn; [done|]. by apply (Hoth AddressU32).
    + destruct a; cbn; [|done]. by apply (Hoth AddressU64).
  - rewrite length_app, length_replicate, pod_bytes_length, Hl. fold n0. lia.
  - rewrite length_app, length_replicate, pod_bytes_length. unfold INFO_ALIGN. lia.
Qed.

Context (r1 r2 : nat) (r1_pad : length (pod_bytes size (static_values m) ++ replicate r1 0%Z) = next_multiple (size * length (static_values m)) INFO_ALIGN).
Abbreviation i := (create_info a b).
Abbreviation data := (written_data r1 r2).
Lemma create_info_spec : scalar_fields i = (scalar_infos a (builder_scalars b) 0).1 ∧ info_meta i = mk_KernelMetadata (buffer_idx b) (ext_meta_idx b) ∧
  (0 < length (static_values m) → sized_meta i = Some (mk_SizedInfoField (unsigned_type a) (length (static_values m)) (length (scalar_bytes (info_scalars info))))) ∧
  dynamic_meta_offset i = length (scalar_bytes (info_scalars info)) + length (pod_bytes size (static_values m) ++ replicate r1 0%Z) ∧
  struct_offsets a (scalar_fields i ++ option_list (sized_meta i)) 0 = Some ((field_offset <$> scalar_fields i) ++ (field_offset <$> option_list (sized_meta i))).
Proof.
  pose proof (scalar_infos_spec a _ _ 0 (holds_scalars _ _ _ _ _ Hh)) as (Hend & Hstr & _). rewrite mjoin_live in Hend. pose proof static_values_length as Hsl.
  unfold create_info. destruct (scalar_infos a (builder_scalars b) 0) as [fields end_]. cbn [fst snd] in *. rewrite <- Hsl. case_decide as Hpos; cbn [scalar_fields info_meta sized_meta dynamic_meta_offset option_list].
  - split_and!; [done|done|by intros _; rewrite Hend|by rewrite r1_pad, Hend|]. rewrite Hstr, Hend. unfold option_list. cbn [option_rect struct_offsets].
    rewrite padded_size_Some; [done|]. clear; destruct a; cbn; set_solver.
  - split_and!; [done|done|lia| |by rewrite Hstr]. rewrite r1_pad. assert (length (static_values m) = 0) as -> by lia. rewrite Nat.mul_0_r. rewrite Hend. cbn. lia.
Qed.
Lemma static_read k x : static_values m !! k = Some x → read_static_meta a i data k = Some x.
Proof.
  intros Hk. destruct create_info_spec as (_ & _ & Hs & _). unfold read_static_meta. rewrite Hs by (apply lookup_lt_Some in Hk; lia). cbn [mbind option_bind field_offset].
  unfold written_data. rewrite <- (app_assoc (pod_bytes _ _)). rewrite (pod_bytes_at _ _ _ _ _ _ Hk). cbn. rewrite decode_encode; [done|]. rewrite <- address_bound_bytes. by apply (Forall_lookup_1 _ _ _ _ static_values_fit Hk).
Qed.
Lemma dynamic_read o dim x : dynamic_values m !! (o + dim) = Some x → read_dynamic_meta a data (dynamic_meta_offset i) o dim = Some x.
Proof.
  intros Hk. destruct create_info_spec as (_ & _ & _ & Hd & _). unfold read_dynamic_meta. rewrite Hd, <- length_app. unfold written_data. rewrite app_assoc.
  rewrite (pod_bytes_at _ _ _ _ _ _ Hk). cbn. rewrite decode_encode; [done|]. rewrite <- address_bound_bytes. by apply (Forall_lookup_1 _ _ _ _ dynamic_values_fit Hk).
Qed.
Lemma scalar_read ty id pre bytes post : assoc ty (live_scalars (info_scalars info)) = Some (pre ++ bytes ++ post) → length bytes = expand_size a ty → length pre = id * expand_size a ty →
  read_scalar a i data ty id = Some bytes.
Proof.
  intros Has Hb Hp. destruct create_info_spec as (Hf & _). unfold read_scalar. rewrite Hf. pose proof (scalar_infos_spec a _ _ 0 (holds_scalars _ _ _ _ _ Hh)) as (_ & _ & Hfind).
  destruct (Hfind _ _ Has) as (f & k & rest & -> & Hoff & Hk & Hd). cbn [mbind option_bind]. rewrite mjoin_live in Hk, Hd. rewrite Hoff, Nat.add_0_l.
  unfold written_data. rewrite <- (take_drop k (scalar_bytes (info_scalars info))), Hd, <- !app_assoc. rewrite (app_assoc (take k _)).
  assert (k + id * expand_size a ty = length (take k (scalar_bytes (info_scalars info)) ++ pre)) as -> by (rewrite length_app, length_take; lia). by apply bytes_at_middle.
Qed.
(** The dimensions of a tensor. *)
Lemma dims_read ext shape strides : dims_stored m ext shape strides →
  (∀ dim x, shape !! dim = Some x → read_shape a i data ext dim = Some x) ∧ (∀ dim x, strides !! dim = Some x → read_stride a i data ext dim = Some x).
Proof.
  intros (o & Ho & Hsh & Hst). destruct create_info_spec as (_ & Hm & _). destruct Hh as [_ _ _ [Hb _] He _ _ _ _ _].
  assert (static_values m !! (buffer_idx b + ext) = Some (Z.of_nat o)) as H1.
  { unfold static_values. rewrite lookup_app_r by lia. rewrite Hb. replace (buffer_idx b + ext - buffer_idx b) with ext by lia.
    rewrite lookup_app_l by (rewrite length_fmap; by eapply lookup_lt_Some). by rewrite list_lookup_fmap, Ho. }
  assert (static_values m !! (buffer_idx b + ext_meta_idx b + ext) = Some (Z.of_nat (length (meta_shapes m) + o))) as H2.
  { unfold static_values. rewrite lookup_app_r by lia. rewrite lookup_app_r by (rewrite length_fmap; lia). rewrite length_fmap, Hb, He.
    replace (buffer_idx b + ext_meta_idx b + ext - buffer_idx b - ext_meta_idx b) with ext by lia. by rewrite list_lookup_fmap, Ho. }
  split; intros dim x Hx.
  - unfold read_shape, shape_offset_index, offset_of_extended. rewrite Hm. cbn [num_meta num_extended_meta]. unfold METADATA_BASE_LEN.
    replace (buffer_idx b * 1 + ext_meta_idx b * 0 + ext) with (buffer_idx b + ext) by lia. rewrite (static_read _ _ H1). cbn [mbind option_bind]. rewrite Nat2Z.id. apply dynamic_read.
    unfold dynamic_values. specialize (Hsh _ _ Hx). by rewrite lookup_app_l by (by eapply lookup_lt_Some).
  - unfold read_stride, stride_offset_index, offset_of_extended. rewrite Hm. cbn [num_meta num_extended_meta]. unfold METADATA_BASE_LEN.
    replace (buffer_idx b * 1 + ext_meta_idx b * 1 + ext) with (buffer_idx b + ext_meta_idx b + ext) by lia. rewrite (static_read _ _ H2). cbn [mbind option_bind]. rewrite Nat2Z.id. apply dynamic_read.
    unfold dynamic_values. rewrite lookup_app_r by lia. replace (length (meta_shapes m) + o + dim - length (meta_shapes m)) with (o + dim) by lia. by apply Hst.
Qed.
Lemma len_read idx handle elem_size r : len_stored m (resources l) idx handle elem_size r → resources l !! idx = Some r ∧ read_buffer_len a i data idx = buffer_len_of handle elem_size.
Proof.
  intros (Hr & len & -> & Hl). split; [done|]. destruct create_info_spec as (_ & Hm & _). unfold read_buffer_len, buffer_len_index. rewrite Hm. cbn [num_meta].
  replace (buffer_idx b * 0 + idx) with idx by lia. apply static_read. unfold static_values. by rewrite lookup_app_l by (by eapply lookup_lt_Some).
Qed.
End finish.

(** What the code reads by the name of an argument is what was registered. *)
Definition tensor_read (a : AddressType) (i : Info) (data : list Z) (res : list KernelResource) (idx ext : nat) (r : KernelResource) (handle : BufferBinding) (elem_size : Z) (shape strides : list Z) : Prop :=
  res !! idx = Some r ∧ read_buffer_len a i data idx = buffer_len_of handle elem_size ∧
  (∀ dim x, shape !! dim = Some x → read_shape a i data ext dim = Some x) ∧ (∀ dim x, strides !! dim = Some x → read_stride a i data ext dim = Some x).
Definition reads_back (a : AddressType) (i : Info) (data : list Z) (res : list KernelResource) (r : Registered) (arg : KernelArg) : Prop :=
  match r, arg with
  | RegScalar ty bytes, ArgScalar ty' id => ty' = ty ∧ read_scalar a i data ty id = Some bytes
  | RegBuffer handle elem_size, ArgBuffer idx => res !! idx = Some (ResourceBuffer handle) ∧ read_buffer_len a i data idx = buffer_len_of handle elem_size
  | RegTensor handle shape strides elem_size, ArgTensor idx ext => tensor_read a i data res idx ext (ResourceBuffer handle) handle elem_size shape strides
  | RegTensorMap handle shape strides elem_size, ArgTensor idx ext => tensor_read a i data res idx ext (ResourceTensorMap handle) handle elem_size shape strides
  | RegBufferAlias position, ArgAlias position' | RegTensorAlias position, ArgAlias position' => position' = position
  | DeclareIo _, ArgNone => True
  | _, _ => False
  end.

(** C37: what a launch registers is what the code of the kernel reads.  From a
    builder left clean, any sequence of scalars of 1, 2, 4 or 8 bytes, buffers,
    tensors, tensor maps and aliases is laid out without a panic, when their
    lengths, dimensions and strides fit the integers of the addresses and so do
    twice the ranks of all the tensors together; at the offsets computed when the
    kernel was compiled its code reads back every scalar, the length of every buffer and
    every dimension and stride of every tensor, and finds the buffer itself at the
    index of its name; the structure its fields are declared in has them at these
    offsets, the dynamic part starts where the host says, and the builder is left
    clean for the next launch. *)
Theorem arguments_read_back a info rs : clean info → Forall (reg_ok a) rs → (2 * Z.of_nat (sum_list_with reg_rank rs) < address_bound a)%Z →
  let args := (expand_all rs builder_new).1 in
  let i := create_info a (expand_all rs builder_new).2 in
  ∃ l info1 k info2, register_all rs (launcher_new a) info = Some (l, info1) ∧ into_bindings l info1 = Some (k, info2) ∧ clean info2 ∧
    Forall2 (reads_back a i (info_data (arg_info k)) (arg_resources k)) rs args ∧
    length (arg_declared_io k) = length (arg_resources k) ∧
    8 * dynamic_metadata_offset (arg_info k) = dynamic_meta_offset i ∧
    struct_offsets a (scalar_fields i ++ option_list (sized_meta i)) 0 = Some ((field_offset <$> scalar_fields i) ++ (field_offset <$> option_list (sized_meta i))).
Proof.
  intros Hclean Hok Hrank args i. destruct (register_all_holds a rs [] (launcher_new a) info builder_new (holds_clean a info Hclean) Hok) as (l & info1 & Hreg & Hlen & Hh).
  cbn [app] in Hh. fold args in Hh, Hlen. set (b := (expand_all rs builder_new).2) in *.
  assert (sum_list_with (λ p, reg_rank p.1) (zip rs args) = sum_list_with reg_rank rs) as Hsum.
  { clear -Hlen. clearbody args. revert args Hlen. induction rs as [|r rs IH]; intros [|x args] Hlen; try done. cbn in *. by rewrite IH by lia. }
  assert ((2 * Z.of_nat (sum_list_with (λ p, reg_rank p.1) (zip rs args)) < address_bound a)%Z) as Hfit by (by rewrite Hsum).
  destruct (info_finish_spec a _ l info1 b Hh Hfit) as (r1 & r2 & off & info2 & Hfin & Hcl & Hoff & Hpad). pose proof (create_info_spec a _ l info1 b Hh r1 Hpad) as (_ & _ & _ & Hdyn & Hstr).
  exists l, info1. unfold into_bindings. rewrite (holds_address _ _ _ _ _ Hh), Hfin. cbn [mbind option_bind]. eexists _, info2. split; [done|]. split; [done|]. cbn [arg_info arg_resources arg_declared_io info_data dynamic_metadata_offset].
  split_and!; [done| |destruct (holds_buffers _ _ _ _ _ Hh) as (_ & -> & ->); done|by rewrite Hoff|exact Hstr].
  apply Forall2_same_length_lookup_2; [done|]. intros n r arg Hr Harg. assert (zip rs args !! n = Some (r, arg)) as Hz by (apply lookup_zip_with_Some; by exists r, arg).
  pose proof (Forall_lookup_1 _ _ _ _ (holds_stored _ _ _ _ _ Hh) Hz) as Hs. pose proof (Forall_lookup_1 _ _ _ _ Hok Hr) as Hrok. cbn [fst snd] in Hs.
  pose proof (len_read a _ l info1 b Hh Hfit r1 r2 Hpad) as Hlr. pose proof (dims_read a _ l info1 b Hh Hfit r1 r2 Hpad) as Hdr.
  destruct r, arg; try done; cbn in Hs |- *.
  - destruct Hs as (-> & pre & post & Has & Hp). split; [done|]. eapply (scalar_read a _ l info1 b Hh r1 r2 Hpad); [exact Has|apply Hrok|done].
  - by apply Hlr.
  - destruct Hs as [H1 H2]. destruct (Hlr _ _ _ _ H1). destruct (Hdr _ _ _ H2). by split.
  - destruct Hs as [H1 H2]. destruct (Hlr _ _ _ _ H1). destruct (Hdr _ _ _ H2). by split.
Qed.
(** What the theorem leaves out: a double complex number has 16 bytes, and the
    structure of the arguments of its kernel cannot be declared. *)
Example complex_scalar_panics :
  let i := create_info AddressU32 (expand_all [RegScalar (ElemComplex C64) (replicate 16 0%Z)] builder_new).2 in
  field_ty <$> scalar_fields i = [ElemComplex C64] ∧ struct_offsets AddressU32 (scalar_fields i) 0 = None.
Proof. vm_compute. done. Qed.
Lemma arguments_read_back_witness : ∃ l info1 k info2, register_all some_arguments (launcher_new AddressU32) info_empty = Some (l, info1) ∧ into_bindings l info1 = Some (k, info2) ∧
  read_shape AddressU32 (create_info AddressU32 (expand_all some_arguments builder_new).2) (info_data (arg_info k)) 1 2 = Some 5%Z.
Proof.
  assert (clean info_empty) as Hclean by (split; [constructor|split; [constructor|split; reflexivity]]).
  assert (∀ n d, d ∈ [1; 2; 3; 4; 5; 15]%Z → n = AddressU32 → fits n d) as Hd.
  { intros n d Hd ->. rewrite !elem_of_cons, elem_of_nil in Hd. unfold fits, address_bound. cbn. lia. }
  assert (Forall (reg_ok AddressU32) some_arguments) as Hok.
  { assert (∀ es n, buffer_len_of some_buffer es = Some n → fits AddressU32 n → ∃ len, buffer_len_of some_buffer es = Some len ∧ fits AddressU32 len) as Hl by (intros es n H1 H2; exists n; split; assumption).
    assert (fits AddressU32 16 ∧ fits AddressU32 32) as [H16 H32] by (unfold fits, address_bound; cbn; lia).
    repeat constructor; cbn; try (by eapply Hl; [reflexivity|assumption]); try (apply Hd; [set_solver|reflexivity]); try set_solver. }
  assert (2 * Z.of_nat (sum_list_with reg_rank some_arguments) < address_bound AddressU32)%Z as Hr by reflexivity.
  destruct (arguments_read_back AddressU32 info_empty some_arguments Hclean Hok Hr) as (l & info1 & k & info2 & Hreg & Hbind & _ & Hreads & _).
  exists l, info1, k, info2. split; [exact Hreg|]. split; [exact Hbind|].
  pose proof (Forall2_lookup_lr _ _ _ 5 _ _ Hreads eq_refl eq_refl) as (_ & _ & Hshape & _). apply Hshape. reflexivity.
Defined.

(** A buffer written through an alias is declared written, whatever its own
    argument said and whatever is registered after it. *)
Lemma alias_stays_written rs l info l' info' pos : declared_io l !! pos = Some ReadWrite → register_all rs l info = Some (l', info') → declared_io l' !! pos = Some ReadWrite.
Proof.
  revert l info. induction rs as [|r rs IH]; intros l info Hl; cbn [register_all]; [by intros [= <- <-]|]. intros ([l1 info1] & Hr & H)%bind_Some. apply (IH l1 info1); [|done].
  assert (∀ p, declared_io (alias_io p l) !! pos = Some ReadWrite) as Hal.
  { intros p. unfold alias_io. destruct (io_is_writable (declaring l)); [|done]. cbn. destruct (decide (p = pos)) as [->|]; [|by rewrite list_lookup_insert_ne].
    apply list_lookup_insert_eq. by apply lookup_lt_Some in Hl. }
  destruct r; cbn [register] in Hr; try (apply bind_Some in Hr as (len & _ & Hr)); injection Hr as <- _; cbn; try done; by apply lookup_app_l_Some.
Qed.
Lemma alias_written rs l info l' info' pos : io_is_writable (declaring l) = true → pos < length (declared_io l) →
  register_all (RegTensorAlias pos :: rs) l info = Some (l', info') → declared_io l' !! pos = Some ReadWrite.
Proof.
  intros Hw Hpos. cbn [register_all register mbind option_bind]. apply alias_stays_written. unfold alias_io. rewrite Hw. cbn. by apply list_lookup_insert_eq.
Qed.
